(* ===== verification/_CoqProject ===== *)
-Q . S2P
Prelude.v
Isa.v
BigUint.v
Curves.v
Pocklington.v
PagedMemory.v
SyscallCode.v
State.v
ExecMemory.v
Interpreter.v
Cost.v
Syscalls.v
Precompiles.v
Samples.v
Rv64.v
Logic.v
Checkpoint.v
Refinement.v
SliceLogic.v
Fips180.v
Sha256Proofs.v
PrecompileProofs.v
Calls.v
NonTrace.v
Modes.v
Termination.v
Air.v
KoalaBear.v
ByteTable.v
WordAir.v
AddOps.v
LtOps.v
Bus.v
BitOps.v
MulOps.v
U32Ops.v
MemAir.v
Adapters.v
PageOps.v
ShaAir.v
Rows.v
Chips.v
ControlChips.v
MemChips.v
LoadChips.v
StoreChips.v
ShiftChips.v
DivRemChip.v
FetchChips.v
SystemChips.v
Shard.v
Machine.v
ShaShard.v
Untrusted.v
ZeroRegister.v
