(* ===== verification/Prelude.v ===== *)
(** * A verification of the SP1 executor and of its arithmetic circuits

    SP1 proves the execution of RISC-V programs.  The executor
    (src/crates/core/executor) runs a program, cuts the run into shards and
    records an event for every instruction, memory access and system call; the
    machine (src/crates/core/machine) turns the events into the rows of tables
    over the KoalaBear field, whose polynomial constraints and lookups a verifier
    checks.  This development models the executor, from the encoding of
    instructions to the checkpoints of shards; the operations, readers and chips
    of the machine, from the byte lookups up; and the shard they make up, whose
    constraints and balanced buses are shown to force a run of the same
    reference machine the executor is shown to implement.

    ** The executor

    - [Isa]: opcode.rs, instruction.rs and disassembler/rrs.rs.  Opcodes,
      [Instruction], [encode] and the transpiler; the decoder of the rrs_lib
      crate is a parameter, assumed to return the fields the ISA manual assigns.
      Transpiling words and encoding the result gives the words back.
    - [PagedMemory]: memory.rs.  The register file, the two-level page table and
      their entries; an out-of-bounds index is [None].  Every sequence of
      operations behaves as on a finite map; iteration yields its entries.  The
      executor uses that map ([loc] is a register or the number of a double
      word).
    - [SyscallCode]: syscalls/code.rs and the table identifiers of air.rs, with
      the consistency of the numbering.
    - [State]: executor.rs, state.rs, record.rs, events/*.rs.  The state of the
      executor as records, and the monad [M] of its methods: a result, an
      [ExecutionError], a panic, or lack of fuel.
    - [ExecMemory]: the accesses of executor.rs (mr, rr, mw, rw, their traced and
      cpu variants, page_prot_access), with memory checkpoints, the diff of
      unconstrained blocks, counters and local events.
    - [Interpreter]: fetch, the execute_* and the emit_* methods.
    - [Cost]: the estimates of cost.rs that decide where a shard ends.  Every
      instruction is counted once; the estimate of the trace size is exact up to
      a surplus for double-word stores, which are charged with the cost of
      another table.
    - [Syscalls]: syscalls/*.rs, execute_instruction, execute_ecall,
      execute_cycle, execute, execute_record, execute_state and
      run_unconstrained.  The precompiles are a parameter here: each is a program
      [Api.t] over the methods of SyscallContext, and the theorems about the
      executor hold for all of them; hooks, the verifier of deferred proofs and
      the environment are fields of the context.
    - [BigUint], [Curves]: the conversions of primitives/src/consts.rs between
      words, bytes and integers, and the parameters, points, addition, doubling
      and decompression of src/crates/curves.  For a prime field, sw_add and
      sw_double are the chord and tangent rule and stay on the curve.
      [Pocklington]: certificates of primality; the base field of BN254 is one.
    - [Precompiles]: syscalls/precompiles and their dispatch, as programs of
      [Api.t].  Keccak, Poseidon2, k256, p256 and the decompression of BLS12-381
      are functions of other crates, fields of [HashCrates] and [CurveCrates].
    - [Rv64]: a reference machine for RV64IM, written from the ISA manual over
      bytes and mathematical integers; ALU results, branch conditions, loads and
      stores of [Interpreter] are its own.
    - [Logic]: invariants of computations of [M] ([preserves]) and their
      automation ([walk]); [Samples]: small programs for the witnesses.
    - [Refinement]: execute_instruction implements one step of [Rv64] in each
      mode, errors and denied accesses included, for the instructions the
      transpiler produces; and that without the assumption on hinted memory a
      narrow store clears the hinted bytes next to it.
    - [Checkpoint]: a checkpoint carries the memory of the start of its shard,
      except that of the last shard for the registers x0, x8, x16 and x24, which
      a read of the double words at the addresses 0 to 31 removes; an
      unconstrained block leaves no trace in the machine state.
    - [SliceLogic]: what the methods of SyscallContext do to the machine, for
      slices in range whose pages permit the access ([run], [changes]).
    - [Fips180], [Sha256Proofs]: the block function of SHA-256, written from FIPS
      180-4 with its constants computed from roots of primes, and the proof that
      SHA_EXTEND followed by SHA_COMPRESS applies it to the hash in memory.
    - [PrecompileProofs], [Calls]: what the calls of the integer, field and curve
      precompiles leave in memory, as integers, field elements and points, with
      their panics; and that a precompile writes to a read-only page.
    - [NonTrace]: the exit code and the unconstrained cycles are tracked in trace
      mode only.
    - [Modes]: simple, checkpoint and trace mode execute the same program and cut
      the same shards; they panic together too, the trace of untrusted code
      apart, which panics at a system call the other modes execute.
    - [Termination]: with a limit on cycles the loop ends, with a result that no
      larger bound changes.

    ** The machine

    - [Air]: builder calls, interactions and words of hypercube/src/air,
      hypercube/src/lookup and hypercube/src/word.rs.  A constraint is the list
      of calls [eval] makes; [sat] says that its assertions hold and its byte
      lookups are answered, [complete] that the lookups are those recorded.  The
      field is a type class, a prime field with the bound the code relies on;
      [KoalaBear] is its instance.
    - [ByteTable]: bytes/*, range/* and events/byte.rs.  The
      sends that balance with the two tables are results of the operations they
      name; the traces receive each lookup as often as it was recorded.
    - [WordAir], [AddOps]: air/word.rs and the adders of operations/: every
      operation is sound (the constraints force its function) and complete (the
      row of [populate] satisfies them).
    - [LtOps]: zero tests, equality and comparison; [BitOps]: bytes of words,
      AND, OR and XOR; [MulOps]: the five multiplications; [U32Ops]: AND, XOR,
      NOT, rotations and shifts of 32-bit words and the addresses of system
      calls; likewise.
    - [Bus]: the messages of the lookup buses.  A balanced bus is a permutation
      of what is sent and received; on the state bus the messages form a path
      ([path]), on the memory bus a history per cell ([history]), ordered by
      time.
    - [MemAir]: air/memory.rs and memory/consistency.  Accesses of memory,
      registers and page protections; each moves the time of its cell forward.
    - [Adapters]: adapter/state.rs, adapter/register and program/instruction.rs:
      the processor state and the four operand readers.
    - [PageOps]: operations/page.rs.  The page of an address, and the check that
      a range lies in one page or two adjacent ones that grant the permissions.
    - [Rows]: what a row shows to the buses ([Row]) and the two interfaces the
      shard is verified against: [OperandReader], discharged by the four readers,
      and [InstructionChip], whose law says that a real row whose constraints
      hold is one step of [Rv64] on the registers it accesses.
    - [Chips]: alu/add_sub, alu/bitwise, alu/lt and alu/mul; [ControlChips]:
      utype and control_flow; [ShiftChips]: alu/sll and alu/sr; [DivRemChip]:
      alu/divrem; [LoadChips] and [StoreChips], over the common parts of
      [MemChips]: memory/instructions.  Trace generation and constraints of the
      24 chips, each an instance of [InstructionChip].
    - [FetchChips]: program/instruction_fetch.rs and instruction_decode.rs.  The
      row of a fetch reads the word at the program counter, the row that decodes
      it forces the instruction the ISA manual decodes the word to.
    - [SystemChips]: adapter/bump.rs, memory/bump.rs, memory/local.rs,
      program/trusted.rs and eval_state of record.rs: the chips that renew clocks
      and registers, open and close the cells of a shard and hold the program,
      and the constraints on the public values.
    - [Shard]: a shard over any instruction chip; if its constraints hold and its
      state, memory and program buses balance, its real rows, in the order of the
      state bus, are a run of [Rv64] between the public program counters, with
      the clock 8 per instruction further and the registers and memory as the
      local memory rows say.
    - [Machine]: riscv/mod.rs.  The union of the chips, the tables of a record of
      the executor and its public values; a decision procedure for the
      hypotheses of the soundness theorem, run on the record the modelled
      executor makes of a sample program.
    - [ShaAir]: syscall/precompiles/sha256/extend, the chip with one row per word
      of the message schedule and the chip that receives the system call.
      [ShaShard]: their tables for one call beside those of local memory.  If the
      constraints hold and the buses balance, the rows are the 48 steps in order,
      the words they read are u32s, and the cells end with what the handler of
      [Precompiles] leaves in memory; the tables of a call the modelled executor
      has recorded satisfy the hypotheses.
    - [Untrusted]: the constants of the instruction word that the chips announce
      on the fetch bus ([FetchingChip], an interface every chip discharges), and
      the composition of a row with its fetch and its decoding: the step of
      [Rv64] on the word in memory.  The division chip announces no type for
      REMUW, which no untrusted program can run therefore.
    - [ZeroRegister]: instructions with destination [x0] whose rows cannot
      satisfy the constraints.

    ** Conventions and bounds

    An unsigned integer of width [w] is a [Z] in [[0, 2^w)], with casts and
    wrapping written out; memory addresses are bounded by the 2^40 of the page
    table.  The two loops of the executor take fuel, the number of instructions
    of an unconstrained block and of cycles of a shard.  Lack of fuel is a result
    of its own, so the theorems hold for every bound, and a larger bound never
    changes a run that has ended.  Arithmetic on counters and clocks wraps as in
    a release build.

    ** Not modelled

    The chips for system calls, page protections and the precompiles other than
    SHA_EXTEND, and the global argument that links shards: that no cell is opened
    twice in a shard is its consequence, and a hypothesis of the soundness of a
    shard ([Shard.valid]), which is stated for trusted programs; for untrusted
    ones the composition is that of one row with its fetch.  The soundness
    theorem compares the cells of the shard only, and takes those in memory to be
    accessible ([agrees]).  Likewise the chip of system calls sends the clock and
    the pointer of a SHA_EXTEND call in range ([sha_call]), and the chips of page
    protections answer with the permissions of the pages ([bus_prots]).
    Of the curves, scalar multiplication, the square roots of the hooks and the
    branch with the feature bigint-rug.  Further, ELF loading, hooks, logging and
    profiling, splitting of records, and the proof system itself (hypercube,
    slop, recursion, verifier, prover, sdk): these are listed with their sources
    beside the development. *)
From Stdlib Require Import ZArith Lia Bool.
From stdpp Require Import base numbers list.

Declare Scope sp1_scope.
Delimit Scope sp1_scope with sp1.
#[global] Open Scope Z_scope.
#[global] Open Scope sp1_scope.

(** Rust's [assert!]: a failure is a panic, modelled as [None]. *)
Notation "'check!' b ; k" := (if b then k else None)
  (at level 200, b at level 100, k at level 200) : sp1_scope.

(** ** Fixed-width integers

    A Rust unsigned integer of width [w] is a [Z] in [[0, 2^w)].  [wrap w]
    is the cast to the unsigned type of width [w] (Rust's [as u8], [as u64],
    [Wrapping], [wrapping_add]); [sext w] is the cast to the signed type
    (Rust's [as i32], [as i64]). *)
Definition wrap (w x : Z) : Z := x mod 2 ^ w.
Definition sext (w x : Z) : Z := (x + 2 ^ (w - 1)) mod 2 ^ w - 2 ^ (w - 1).

Definition u8 (x : Z) : Z := wrap 8 x.
Definition u16 (x : Z) : Z := wrap 16 x.
Definition u32 (x : Z) : Z := wrap 32 x.
Definition u64 (x : Z) : Z := wrap 64 x.
Definition i8 (x : Z) : Z := sext 8 x.
Definition i16 (x : Z) : Z := sext 16 x.
Definition i32 (x : Z) : Z := sext 32 x.
Definition i64 (x : Z) : Z := sext 64 x.

(** [fits w x]: [x] is a value of the unsigned type of width [w]. *)
Definition fits (w x : Z) : Prop := 0 <= x < 2 ^ w.
Notation is_u8 := (fits 8).
Notation is_u16 := (fits 16).
Notation is_u32 := (fits 32).
Notation is_u64 := (fits 64).

Definition fitsb (w x : Z) : bool := (0 <=? x) && (x <? 2 ^ w).

Notation "a '+ₗ' b" := (u64 (a + b)) (at level 50, left associativity) : sp1_scope.
Notation "a '-ₗ' b" := (u64 (a - b)) (at level 50, left associativity) : sp1_scope.

(** Unfold every cast, then let [lia] reason about quotients and remainders. *)
Ltac unfold_ints :=
  unfold u8, u16, u32, u64, i8, i16, i32, i64, wrap, sext, fits in *.
Ltac lia_mod := Z.to_euclidean_division_equations; lia.
Ltac solve_ints := unfold_ints; lia_mod.

(** Case analysis on every boolean comparison of the goal and hypotheses. *)
Ltac case_bool :=
  repeat match goal with
  | H : _ && _ = true |- _ => apply andb_true_iff in H as [? ?]
  | H : negb _ = true |- _ => apply negb_true_iff in H
  | H : (_ <=? _) = true |- _ => apply Z.leb_le in H
  | H : (_ <=? _) = false |- _ => apply Z.leb_gt in H
  | H : (_ <? _) = true |- _ => apply Z.ltb_lt in H
  | H : (_ <? _) = false |- _ => apply Z.ltb_ge in H
  | H : (_ =? _) = true |- _ => apply Z.eqb_eq in H
  | H : (_ =? _) = false |- _ => apply Z.eqb_neq in H
  | |- context [?a <=? ?b] => destruct (Z.leb_spec a b)
  | |- context [?a <? ?b] => destruct (Z.ltb_spec a b)
  | |- context [?a =? ?b] => destruct (Z.eqb_spec a b)
  end.

Create HintDb ints discriminated.

Lemma fitsb_spec w x : fitsb w x = true <-> fits w x.
Proof. unfold fitsb, fits. rewrite andb_true_iff, Z.leb_le, Z.ltb_lt. lia. Qed.

Lemma wrap_fits w x : 0 <= w -> fits w (wrap w x).
Proof. intros. unfold fits, wrap. apply Z.mod_pos_bound. lia. Qed.

Lemma u8_fits x : is_u8 (u8 x).
Proof. apply wrap_fits. lia. Qed.
Lemma u16_fits x : is_u16 (u16 x).
Proof. apply wrap_fits. lia. Qed.
Lemma u32_fits x : is_u32 (u32 x).
Proof. apply wrap_fits. lia. Qed.
Lemma u64_fits x : is_u64 (u64 x).
Proof. apply wrap_fits. lia. Qed.

Lemma wrap_small w x : fits w x -> wrap w x = x.
Proof. apply Z.mod_small. Qed.
Lemma u64_small x : is_u64 x -> u64 x = x.
Proof. apply wrap_small. Qed.

Lemma fits_mono v w x : 0 <= v <= w -> fits v x -> fits w x.
Proof. unfold fits. intros. pose proof (Z.pow_le_mono_r 2 v w). lia. Qed.

#[export] Hint Resolve u8_fits u16_fits u32_fits u64_fits : ints.
#[export] Hint Rewrite u64_small using (solve [auto with ints]) : ints.

(** Signed range and the two views of one bit pattern. *)
Lemma sext_range w x : 0 < w -> - 2 ^ (w - 1) <= sext w x < 2 ^ (w - 1).
Proof.
  intros. unfold sext. replace (2 ^ w) with (2 * 2 ^ (w - 1)).
  - assert (0 < 2 ^ (w - 1)) by (apply Z.pow_pos_nonneg; lia).
    pose proof (Z.mod_pos_bound (x + 2 ^ (w - 1)) (2 * 2 ^ (w - 1))). lia.
  - rewrite <- Z.pow_succ_r by lia. f_equal. lia.
Qed.

Lemma wrap_sext w x : 0 < w -> wrap w (sext w x) = wrap w x.
Proof.
  intros. unfold wrap, sext.
  rewrite Zminus_mod_idemp_l. f_equal. lia.
Qed.

Lemma sext_wrap w x : 0 < w -> sext w (wrap w x) = sext w x.
Proof. intros. unfold wrap, sext. rewrite Zplus_mod_idemp_l. reflexivity. Qed.

Lemma sext_small w x : - 2 ^ (w - 1) <= x < 2 ^ (w - 1) -> 0 < w -> sext w x = x.
Proof.
  intros. unfold sext. rewrite Z.mod_small; [lia|].
  replace (2 ^ w) with (2 * 2 ^ (w - 1)); [lia|].
  rewrite <- Z.pow_succ_r by lia. f_equal. lia.
Qed.

(** Equality modulo [2^w] is what a cast to width [w] sees. *)
Lemma wrap_eq_intro w x y k : x = y + k * 2 ^ w -> 0 <= w -> wrap w x = wrap w y.
Proof. intros -> ?. unfold wrap. now rewrite Z.mod_add by lia. Qed.

(** Disjoint bit fields are added by [lor]. *)
Lemma lor_disjoint S y n : 0 <= n -> S mod 2 ^ n = 0 -> 0 <= y < 2 ^ n -> Z.lor S y = S + y.
Proof.
  intros Hn HS Hy. rewrite Z.add_nocarry_lxor, <- Z.lxor_lor; [reflexivity| |].
  all: apply Z.bits_inj'; intros k Hk; rewrite Z.land_spec, Z.bits_0.
  all: destruct (Z_lt_le_dec k n) as [L|L].
  1, 3: replace (Z.testbit S k) with false; [reflexivity|].
  1, 2: symmetry; rewrite <- (Z.mod_pow2_bits_low S n k) by lia; rewrite HS; apply Z.bits_0.
  all: replace (Z.testbit y k) with false; [apply andb_false_r|].
  all: symmetry; apply Z.testbit_false; [lia|]; rewrite Z.div_small; [reflexivity|].
  all: pose proof (Z.pow_le_mono_r 2 n k); lia.
Qed.
(** The complement of a field of [n] bits. *)
Lemma lxor_ones_value x n : 0 <= n -> 0 <= x < 2 ^ n -> Z.lxor x (Z.ones n) = 2 ^ n - 1 - x.
Proof.
  intros Hn Hx. assert (Hl : Z.land x (Z.lxor x (Z.ones n)) = 0).
  { apply Z.bits_inj'. intros k Hk. rewrite Z.land_spec, Z.lxor_spec, Z.bits_0. destruct (Z.ltb_spec k n) as [Hl|Hl].
    - rewrite Z.ones_spec_low by lia. now destruct (Z.testbit x k).
    - replace (Z.testbit x k) with false; [done|]. symmetry.
      rewrite <- (Z.mod_small x (2 ^ n)) by lia. now apply Z.mod_pow2_bits_high. }
  apply Z.add_nocarry_lxor in Hl. rewrite <- Z.lxor_assoc, Z.lxor_nilpotent, Z.lxor_0_l in Hl. pose proof (Z.ones_equiv n). lia.
Qed.

(** ** Lists and options *)

(** A property of all bytes is decided by evaluating it on the 256 of them. *)
Lemma u8_forall (P : Z -> bool) : forallb P (seqZ 0 256) = true -> forall x, is_u8 x -> P x = true.
Proof.
  rewrite forallb_forall. intros HP x Hx. apply HP, list_elem_of_In, elem_of_seqZ.
  unfold fits in Hx. lia.
Qed.

Lemma mapM_total {A B} (f : A -> option B) (g : A -> B) l :
  (forall x, f x = Some (g x)) -> mapM f l = Some (g <$> l).
Proof.
  intros Hf. induction l as [|x l IH]; [reflexivity|].
  simpl. now rewrite Hf, IH.
Qed.

(** Position of an element in a flattened list. *)
Lemma bind_lookup {A B} (f : A -> list B) l i x j :
  l !! i = Some x -> (j < length (f x))%nat ->
  (l ≫= f) !! (length (take i l ≫= f) + j)%nat = f x !! j.
Proof.
  intros Hi Hj.
  transitivity (((take i l ++ x :: drop (S i) l) ≫= f) !! (length (take i l ≫= f) + j)%nat);
    [now rewrite take_drop_middle|].
  rewrite bind_app, bind_cons, lookup_app_r by lia.
  now rewrite Nat.add_sub_swap, Nat.sub_diag, Nat.add_0_l, lookup_app_l by lia.
Qed.

Lemma take_seqZ i m n : (Z.of_nat i <= n)%Z -> take i (seqZ m n) = seqZ m (Z.of_nat i).
Proof.
  intros Hi. replace n with (Z.of_nat i + (n - Z.of_nat i))%Z by lia.
  rewrite seqZ_app by lia. rewrite take_app_length'; [reflexivity|].
  rewrite length_seqZ. lia.
Qed.

Lemma bind_singleton {A B} (f : A -> B) (l : list A) : (l ≫= fun x => [f x]) = f <$> l.
Proof. induction l as [|x l IH]; [reflexivity|]. rewrite bind_cons, IH. reflexivity. Qed.

Lemma to_nat_pow2 k : 0 <= k -> Z.to_nat (2 ^ k) = (2 ^ Z.to_nat k)%nat.
Proof.
  intros Hk. apply Nat2Z.inj. rewrite Nat2Z.inj_pow, !Z2Nat.id by lia. reflexivity.
Qed.

Lemma bind_ext_in {A B} (f g : A -> list B) l :
  (forall x, x ∈ l -> f x = g x) -> (l ≫= f) = (l ≫= g).
Proof.
  intros H. induction l as [|x l IH]; [done|]. rewrite !bind_cons, (H x), IH; [done|..].
  - intros y Hy. apply H. now right.
  - now left.
Qed.

Lemma mapM_in {A B} (f : A -> option B) (g : A -> B) l :
  (forall x, x ∈ l -> f x = Some (g x)) -> mapM f l = Some (g <$> l).
Proof.
  intros Hf. induction l as [|x l IH]; [reflexivity|]. simpl.
  rewrite (Hf x), IH; [done|intros y Hy; apply Hf; now right|now left].
Qed.
