(* ===== verification/Isa.v ===== *)
(** * Isa: opcodes, instructions and their encoding

    [core/executor/src/opcode.rs] and [instruction.rs]: the opcode table with
    its [funct3], [funct7], [funct12], [base_opcode] and [instruction_type]
    tables, the predicates on instructions, sign-extension checks of
    immediates and [Instruction::encode].  The transpiler of
    [disassembler/rrs.rs], which turns decoded RISC-V formats into
    instructions, is here too.  The decoder it is called by and the numeric
    base opcodes belong to the [rrs_lib] crate: they are the class
    [InstructionFormats].

    The theorems show that [validate_sign_extension] accepts exactly the
    sign-extended immediates, that [encode] packs the RISC-V formats, and that
    transpiling an encoded instruction gives the instruction back. *)
From Stdlib Require Import ZArith Lia Bool.
From stdpp Require Import base numbers option list.
From S2P Require Import Prelude.

Module Opcode.
Inductive t :=
| ADD | ADDI | SUB | XOR | OR | AND | SLL | SRL | SRA | SLT | SLTU | MUL | MULH | MULHU |
MULHSU | DIV | DIVU | REM | REMU | LB | LH | LW | LBU | LHU | SB | SH | SW | BEQ | BNE | BLT |
BGE | BLTU | BGEU | JAL | JALR | AUIPC | LUI | ECALL | EBREAK | ADDW | SUBW | SLLW | SRLW |
SRAW | LWU | LD | SD | MULW | DIVW | DIVUW | REMW | REMUW | UNIMP.

(** [self as u8]. *)
Definition as_u8 (op : t) : Z :=
  match op with
  | ADD => 0 | ADDI => 1 | SUB => 2 | XOR => 3 | OR => 4 | AND => 5 | SLL => 6 | SRL => 7 | SRA
  => 8 | SLT => 9 | SLTU => 10 | MUL => 11 | MULH => 12 | MULHU => 13 | MULHSU => 14 | DIV =>
  15 | DIVU => 16 | REM => 17 | REMU => 18 | LB => 19 | LH => 20 | LW => 21 | LBU => 22 | LHU
  => 23 | SB => 24 | SH => 25 | SW => 26 | BEQ => 27 | BNE => 28 | BLT => 29 | BGE => 30 | BLTU
  => 31 | BGEU => 32 | JAL => 33 | JALR => 34 | AUIPC => 35 | LUI => 36 | ECALL => 37 | EBREAK
  => 38 | ADDW => 39 | SUBW => 40 | SLLW => 41 | SRLW => 42 | SRAW => 43 | LWU => 44 | LD => 45
  | SD => 46 | MULW => 47 | DIVW => 48 | DIVUW => 49 | REMW => 50 | REMUW => 51 | UNIMP => 52
  end.
Definition as_field (op : t) : Z := as_u8 op.

Definition all : list t :=
  [
   ADD ; ADDI ; SUB ; XOR ; OR ; AND ; SLL ; SRL ; SRA ; SLT ; SLTU ; MUL ; MULH ; MULHU ;
   MULHSU ; DIV ; DIVU ; REM ; REMU ; LB ; LH ; LW ; LBU ; LHU ; SB ; SH ; SW ; BEQ ; BNE ; BLT
   ; BGE ; BLTU ; BGEU ; JAL ; JALR ; AUIPC ; LUI ; ECALL ; EBREAK ; ADDW ; SUBW ; SLLW ; SRLW
   ; SRAW ; LWU ; LD ; SD ; MULW ; DIVW ; DIVUW ; REMW ; REMUW ; UNIMP
  ].
End Opcode.
Import Opcode.

Lemma opcode_all_lookup op : all !! Z.to_nat (as_u8 op) = Some op.
Proof. destruct op; reflexivity. Qed.

#[global] Instance as_u8_inj : Inj (=) (=) as_u8.
Proof.
  intros op op' E. apply (inj Some). now rewrite <- !opcode_all_lookup, E.
Qed.
#[global] Instance Opcode_eq_dec : EqDecision Opcode.t.
Proof.
  intros op op'. destruct (decide (as_u8 op = as_u8 op')) as [E|E].
  - left. now apply (inj as_u8).
  - right. congruence.
Defined.

(** ** Encoding tables *)

Definition funct3 (op : Opcode.t) : option Z :=
  match op with
  | ADD | SUB | ADDI => Some 0
  | SLL => Some 1
  | SLT => Some 2
  | SLTU => Some 3
  | XOR => Some 4
  | SRL | SRA => Some 5
  | OR => Some 6
  | AND => Some 7
  | ADDW => Some 0
  | SUBW => Some 0
  | SLLW => Some 1
  | SRLW => Some 5
  | SRAW => Some 5
  | LWU => Some 6
  | LD => Some 3
  | SD => Some 3
  | MULW => Some 0
  | DIVW => Some 4
  | DIVUW => Some 5
  | REMW => Some 6
  | REMUW => Some 7
  | MUL => Some 0
  | MULH => Some 1
  | MULHSU => Some 2
  | MULHU => Some 3
  | DIV => Some 4
  | DIVU => Some 5
  | REM => Some 6
  | REMU => Some 7
  | LB => Some 0
  | LH => Some 1
  | LW => Some 2
  | LBU => Some 4
  | LHU => Some 5
  | SB => Some 0
  | SH => Some 1
  | SW => Some 2
  | BEQ => Some 0
  | BNE => Some 1
  | BLT => Some 4
  | BGE => Some 5
  | BLTU => Some 6
  | BGEU => Some 7
  | JALR => Some 0
  | ECALL | EBREAK => Some 0
  | JAL | AUIPC | LUI | UNIMP => None
  end.

Definition funct7 (op : Opcode.t) : option Z :=
  match op with
  | ADD | SLL | SLT | SLTU | XOR | SRL | OR | AND | ADDW | SLLW | SRLW => Some 0
  | SUB | SRA | SUBW | SRAW => Some 32
  | MUL | MULH | MULHSU | MULHU | DIV | DIVU | REM | REMU | MULW | DIVW | DIVUW | REMW
  | REMUW => Some 1
  | ECALL | EBREAK => Some 0
  | ADDI | LB | LH | LW | LBU | LHU | SB | SH | SW | BEQ | BNE | BLT | BGE | BLTU
  | BGEU | JAL | JALR | AUIPC | LUI | UNIMP | LWU | LD | SD => None
  end.

Definition funct12 (op : Opcode.t) : option Z :=
  match op with
  | ECALL => Some 0
  | _ => None
  end.

(** Instruction formats as [rrs_lib::instruction_formats] decodes them:
    register indices and immediates already extracted, immediates
    sign-extended ([imm] of U-type is the upper immediate, shifted). *)
Record RType := mkR { r_rs2 : Z; r_rs1 : Z; r_rd : Z }.
Record IType := mkI { i_imm : Z; i_rs1 : Z; i_rd : Z }.
Record ITypeShamt := mkShamt { sh_shamt : Z; sh_rs1 : Z; sh_rd : Z }.
Record SType := mkS { s_imm : Z; s_rs2 : Z; s_rs1 : Z }.
Record BType := mkB { b_imm : Z; b_rs2 : Z; b_rs1 : Z }.
Record UType := mkU { u_imm : Z; u_rd : Z }.
Record JType := mkJ { j_imm : Z; j_rd : Z }.

(** The base opcodes [rrs_lib] exports. *)
Class InstructionFormats := {
  OPCODE_LOAD : Z; OPCODE_OP_IMM : Z; OPCODE_AUIPC : Z; OPCODE_STORE : Z; OPCODE_OP : Z;
  OPCODE_LUI : Z; OPCODE_BRANCH : Z; OPCODE_JALR : Z; OPCODE_JAL : Z; OPCODE_SYSTEM : Z;
  OPCODE_OP_32 : Z; OPCODE_OP_IMM_32 : Z;
  (** They are the RISC-V major opcodes. *)
  major_opcodes :
    [OPCODE_LOAD; OPCODE_OP_IMM; OPCODE_AUIPC; OPCODE_STORE; OPCODE_OP; OPCODE_LUI;
     OPCODE_BRANCH; OPCODE_JALR; OPCODE_JAL; OPCODE_SYSTEM; OPCODE_OP_32; OPCODE_OP_IMM_32] =
    [0x03; 0x13; 0x17; 0x23; 0x33; 0x37; 0x63; 0x67; 0x6f; 0x73; 0x3b; 0x1b] }.

(** [None] is the [unreachable!] of the last arm. *)
Definition base_opcode `{InstructionFormats} (op : Opcode.t) : option (Z * option Z) :=
  match op with
  | SLL | SRL | SRA | XOR | OR | AND | SLT | SLTU => Some (OPCODE_OP, Some OPCODE_OP_IMM)
  | ADD | SUB | MUL | MULH | MULHU | MULHSU | DIV | DIVU | REM | REMU =>
      Some (OPCODE_OP, Some OPCODE_OP)
  | ADDI => Some (OPCODE_OP_IMM, Some OPCODE_OP_IMM)
  | ECALL => Some (OPCODE_SYSTEM, None)
  | JALR => Some (OPCODE_JALR, Some OPCODE_JALR)
  | LB | LH | LW | LBU | LHU | LWU | LD => Some (OPCODE_LOAD, Some OPCODE_LOAD)
  | SB | SH | SW | SD => Some (OPCODE_STORE, Some OPCODE_STORE)
  | BEQ | BNE | BLT | BGE | BLTU | BGEU => Some (OPCODE_BRANCH, Some OPCODE_BRANCH)
  | AUIPC => Some (OPCODE_AUIPC, Some OPCODE_AUIPC)
  | LUI => Some (OPCODE_LUI, Some OPCODE_LUI)
  | JAL => Some (OPCODE_JAL, Some OPCODE_JAL)
  | ADDW | SLLW | SRLW | SRAW => Some (OPCODE_OP_32, Some OPCODE_OP_IMM_32)
  | SUBW | MULW | DIVW | DIVUW | REMW | REMUW => Some (OPCODE_OP_32, None)
  | _ => None
  end.

Module InstructionType.
Inductive t := ITypeShamt32 | ITypeShamt | IType | RType | JType | BType | SType | UType | ECALL.
Definition as_u32 (ty : t) : Z :=
  match ty with
  | ITypeShamt32 => 1 | ITypeShamt => 2 | IType => 4 | RType => 8 | JType => 16 | BType => 32
  | SType => 64 | UType => 128 | ECALL => 256
  end.
End InstructionType.

Definition instruction_type (op : Opcode.t) :
  option (InstructionType.t * option InstructionType.t) :=
  match op with
  | SLL | SRL | SRA => Some (InstructionType.RType, Some InstructionType.ITypeShamt)
  | SLLW | SRLW | SRAW => Some (InstructionType.RType, Some InstructionType.ITypeShamt32)
  | ADDW | XOR | OR | AND | SLT | SLTU => Some (InstructionType.RType, Some InstructionType.IType)
  | ADD | SUB | SUBW | MUL | MULH | MULHU | MULHSU | DIV | DIVU | REM | REMU | MULW | DIVW
  | DIVUW | REMW | REMUW => Some (InstructionType.RType, None)
  | ADDI => Some (InstructionType.IType, Some InstructionType.IType)
  | ECALL => Some (InstructionType.ECALL, None)
  | JALR | LB | LH | LW | LBU | LHU | LWU | LD => Some (InstructionType.IType, None)
  | SB | SH | SW | SD => Some (InstructionType.SType, None)
  | BEQ | BNE | BLT | BGE | BLTU | BGEU => Some (InstructionType.BType, None)
  | AUIPC | LUI => Some (InstructionType.UType, None)
  | JAL => Some (InstructionType.JType, None)
  | _ => None
  end.

(** ** Instructions *)

Module Instruction.
Record t := new {
  opcode : Opcode.t; op_a : Z; op_b : Z; op_c : Z; imm_b : bool; imm_c : bool }.

Definition is_alu_instruction (i : t) : bool :=
  match opcode i with
  | ADD | ADDI | SUB | XOR | OR | AND | SLL | SRL | SRA | SLT | SLTU
  | MUL | MULH | MULHU | MULHSU | DIV | DIVU | REM | REMU
  | ADDW | SUBW | MULW | DIVW | DIVUW | REMW | REMUW | SLLW | SRLW | SRAW => true
  | _ => false
  end.
Definition is_ecall_instruction (i : t) : bool :=
  match opcode i with ECALL => true | _ => false end.
Definition is_memory_load_instruction (i : t) : bool :=
  match opcode i with LB | LH | LW | LBU | LHU | LWU | LD => true | _ => false end.
Definition is_memory_store_instruction (i : t) : bool :=
  match opcode i with SB | SH | SW | SD => true | _ => false end.
Definition is_branch_instruction (i : t) : bool :=
  match opcode i with BEQ | BNE | BLT | BGE | BLTU | BGEU => true | _ => false end.
Definition is_jump_instruction (i : t) : bool :=
  match opcode i with JAL | JALR => true | _ => false end.
Definition is_jal_instruction (i : t) : bool :=
  match opcode i with JAL => true | _ => false end.
Definition is_jalr_instruction (i : t) : bool :=
  match opcode i with JALR => true | _ => false end.
Definition is_utype_instruction (i : t) : bool :=
  match opcode i with AUIPC | LUI => true | _ => false end.
Definition is_with_correct_next_pc (i : t) : bool :=
  match opcode i with
  | BEQ | BNE | BLT | BGE | BLTU | BGEU | JAL | JALR => true
  | _ => false
  end.
Definition is_divrem_instruction (i : t) : bool :=
  match opcode i with DIV | DIVU | REM | REMU => true | _ => false end.
Definition is_ebreak_instruction (i : t) : bool :=
  match opcode i with EBREAK => true | _ => false end.
Definition is_unimp_instruction (i : t) : bool :=
  match opcode i with UNIMP => true | _ => false end.
Definition is_r_type (i : t) : bool := negb (imm_c i).
Definition is_i_type (i : t) : bool := imm_c i.

(** Constructors from the decoded formats. *)
Definition from_r_type (op : Opcode.t) (d : RType) : t :=
  new op (u8 (r_rd d)) (r_rs1 d) (r_rs2 d) false false.
Definition from_i_type (op : Opcode.t) (d : IType) : t :=
  new op (u8 (i_rd d)) (i_rs1 d) (u64 (i_imm d)) false true.
Definition from_i_type_shamt (op : Opcode.t) (d : ITypeShamt) : t :=
  new op (u8 (sh_rd d)) (sh_rs1 d) (sh_shamt d) false true.
Definition from_i_type_shamt_w (op : Opcode.t) (d : ITypeShamt) : t :=
  new op (u8 (sh_rd d)) (sh_rs1 d) (sh_shamt d) false true.
Definition from_s_type (op : Opcode.t) (d : SType) : t :=
  new op (u8 (s_rs2 d)) (s_rs1 d) (u64 (s_imm d)) false true.
Definition from_b_type (op : Opcode.t) (d : BType) : t :=
  new op (u8 (b_rs1 d)) (b_rs2 d) (u64 (b_imm d)) false true.
Definition from_u_type (op : Opcode.t) (d : UType) : t :=
  new op (u8 (u_rd d)) (u_imm d) (u_imm d) true true.
Definition unimp : t := new UNIMP 0 0 0 true true.
End Instruction.
Import (notations) Instruction.

#[global] Instance Instruction_eq_dec : EqDecision Instruction.t.
Proof. solve_decision. Defined.

(** ** Sign extension *)

Definition not64 (x : Z) : Z := 2 ^ 64 - 1 - x.

(** For widths of at least one bit, as in all calls ([bit_width - 1] is a u32
    subtraction). *)
Definition validate_sign_extension (value bit_width : Z) : bool :=
  if 64 <=? bit_width then true else
  let sign_bit_mask := u64 (1 ≪ (bit_width - 1)) in
  let sign_bit := negb (Z.land value sign_bit_mask =? 0) in
  let upper_bits_mask := not64 (u64 (1 ≪ bit_width) - 1) in
  let upper_bits := Z.land value upper_bits_mask in
  if sign_bit then upper_bits =? upper_bits_mask else upper_bits =? 0.

(** ** Encoding

    [None] is a panic: a failed [assert!], an [expect] on [None] or an
    [unreachable!]. *)
Section Encode.
Context `{InstructionFormats}.
Import Instruction.

(** Shift of a u32. *)
Definition shl32 (x n : Z) : Z := u32 (x ≪ n).

Definition encode_r (i : t) (base : Z) : option Z :=
  check! (op_a i <=? 31); check! (op_b i <=? 31); check! (op_c i <=? 31);
  let rd := u32 (op_a i) in let rs1 := u32 (op_b i) in let rs2 := u32 (op_c i) in
  f3 ← funct3 (opcode i);
  f7 ← funct7 (opcode i);
  Some (Z.lor (Z.lor (Z.lor (Z.lor (Z.lor
    (shl32 f7 25) (shl32 rs2 20)) (shl32 rs1 15)) (shl32 f3 12)) (shl32 rd 7)) base).

Definition encode_i (i : t) (base : Z) : option Z :=
  check! (op_a i <=? 31); check! (op_b i <=? 31);
  check! (validate_sign_extension (op_c i) 12);
  let rd := u32 (op_a i) in let rs1 := u32 (op_b i) in
  let imm := u32 (Z.land (op_c i) 0xFFF) in
  f3 ← funct3 (opcode i);
  if ((base =? OPCODE_OP_IMM) || (base =? OPCODE_OP_IMM_32)) && ((f3 =? 1) || (f3 =? 5)) then
    f7 ← funct7 (opcode i);
    Some (Z.lor (Z.lor (Z.lor (Z.lor (Z.lor
      (shl32 f7 25) (shl32 imm 20)) (shl32 rs1 15)) (shl32 f3 12)) (shl32 rd 7)) base)
  else if (base =? OPCODE_SYSTEM) && (f3 =? 0) && (rd =? 0) && (rs1 =? 0) then
    f12 ← funct12 (opcode i);
    Some (Z.lor (Z.lor (Z.lor (Z.lor (shl32 f12 20) (shl32 rs1 15)) (shl32 f3 12)) (shl32 rd 7)) base)
  else
    Some (Z.lor (Z.lor (Z.lor (Z.lor (shl32 imm 20) (shl32 rs1 15)) (shl32 f3 12)) (shl32 rd 7)) base).

Definition encode_s (i : t) (base : Z) : option Z :=
  check! (op_a i <=? 31); check! (op_b i <=? 31);
  check! (validate_sign_extension (op_c i) 12);
  f3 ← funct3 (opcode i);
  let rd := u32 (op_a i) in let rs1 := u32 (op_b i) in
  let imm := u32 (Z.land (op_c i) 0xFFF) in
  let imm_11_5 := Z.land (imm ≫ 5) 0x7F in
  let imm_4_0 := Z.land imm 0x1F in
  Some (Z.lor (Z.lor (Z.lor (Z.lor (Z.lor
    (shl32 imm_11_5 25) (shl32 rd 20)) (shl32 rs1 15)) (shl32 f3 12)) (shl32 imm_4_0 7)) base).

Definition encode_b (i : t) (base : Z) : option Z :=
  check! (op_a i <=? 31); check! (op_b i <=? 31);
  check! (validate_sign_extension (op_c i) 13);
  f3 ← funct3 (opcode i);
  let rd := u32 (op_a i) in let rs1 := u32 (op_b i) in
  let imm := u32 (Z.land (op_c i) 0x1FFF) in
  check! (Z.land imm 1 =? 0);
  let imm_12 := Z.land (imm ≫ 12) 1 in
  let imm_10_5 := Z.land (imm ≫ 5) 0x3F in
  let imm_4_1 := Z.land (imm ≫ 1) 0xF in
  let imm_11 := Z.land (imm ≫ 11) 1 in
  Some (Z.lor (Z.lor (Z.lor (Z.lor (Z.lor (Z.lor (Z.lor
    (shl32 imm_12 31) (shl32 imm_10_5 25)) (shl32 rs1 20)) (shl32 rd 15)) (shl32 f3 12))
    (shl32 imm_4_1 8)) (shl32 imm_11 7)) (Z.land base 0x7F)).

Definition encode_u (i : t) (base : Z) : option Z :=
  check! (op_a i <=? 31);
  let sign_extended_imm := op_b i ≫ 12 in
  let sign_extended_imm :=
    if 2 ^ 32 <=? op_b i then sign_extended_imm + (2 ^ 64 - 1 - 2 ^ 52 + 1) else sign_extended_imm in
  check! (validate_sign_extension sign_extended_imm 20);
  let rd := u32 (op_a i) in
  let imm_upper := u32 (op_b i) in
  Some (Z.lor (Z.lor imm_upper (shl32 rd 7)) base).

Definition encode_j (i : t) (base : Z) : option Z :=
  check! (op_a i <=? 31);
  check! (validate_sign_extension (op_b i) 21);
  check! (Z.land (op_b i) 1 =? 0);
  let rd := u32 (op_a i) in
  let imm := u32 (Z.land (op_b i) 0x1FFFFF) in
  let imm_20 := Z.land (imm ≫ 20) 1 in
  let imm_10_1 := Z.land (imm ≫ 1) 0x3FF in
  let imm_11 := Z.land (imm ≫ 11) 1 in
  let imm_19_12 := Z.land (imm ≫ 12) 0xFF in
  Some (Z.lor (Z.lor (Z.lor (Z.lor (Z.lor
    (shl32 imm_20 31) (shl32 imm_10_1 21)) (shl32 imm_11 20)) (shl32 imm_19_12 12))
    (shl32 rd 7)) base).

Definition encode (i : t) : option Z :=
  if decide (opcode i = ECALL) then Some 0x00000073 else
  '(base, imm_base) ← base_opcode (opcode i);
  base ← (if imm_c i then imm_base else Some base);
  if (base =? OPCODE_OP) || (base =? OPCODE_OP_32) then encode_r i base
  else if (base =? OPCODE_OP_IMM) || (base =? OPCODE_OP_IMM_32) || (base =? OPCODE_LOAD)
       || (base =? OPCODE_JALR) || (base =? OPCODE_SYSTEM) then encode_i i base
  else if base =? OPCODE_STORE then encode_s i base
  else if base =? OPCODE_BRANCH then encode_b i base
  else if (base =? OPCODE_AUIPC) || (base =? OPCODE_LUI) then encode_u i base
  else if base =? OPCODE_JAL then encode_j i base
  else None.
End Encode.

(** ** The transpiler

    One constructor per method of [rrs_lib]'s [InstructionProcessor] trait. *)
Module Rrs.
Inductive call :=
| add (d : RType) | addi (d : IType) | sub (d : RType) | xor (d : RType) | xori (d : IType)
| or (d : RType) | ori (d : IType) | and (d : RType) | andi (d : IType) | sll (d : RType)
| slli (d : ITypeShamt) | srl (d : RType) | srli (d : ITypeShamt) | sra (d : RType)
| srai (d : ITypeShamt) | slt (d : RType) | slti (d : IType) | sltu (d : RType) | sltui (d : IType)
| lb (d : IType) | lh (d : IType) | lw (d : IType) | lbu (d : IType) | lhu (d : IType)
| sb (d : SType) | sh (d : SType) | sw (d : SType)
| beq (d : BType) | bne (d : BType) | blt (d : BType) | bge (d : BType) | bltu (d : BType)
| bgeu (d : BType) | jal (d : JType) | jalr (d : IType) | lui (d : UType) | auipc (d : UType)
| ecall | ebreak
| mul (d : RType) | mulh (d : RType) | mulhu (d : RType) | mulhsu (d : RType) | div (d : RType)
| divu (d : RType) | rem (d : RType) | remu (d : RType)
| csrrc | csrrci | csrrs | csrrsi | csrrw | csrrwi | fence (d : IType) | mret | wfi
| addw (d : RType) | subw (d : RType) | sllw (d : RType) | srlw (d : RType) | sraw (d : RType)
| addiw (d : IType) | slliw (d : ITypeShamt) | srliw (d : ITypeShamt) | sraiw (d : ITypeShamt)
| lwu (d : IType) | ld (d : IType) | sd (d : SType)
| mulw (d : RType) | divw (d : RType) | divuw (d : RType) | remw (d : RType) | remuw (d : RType).
End Rrs.

Module Transpiler.
Import Instruction.

(** The methods of [InstructionTranspiler]. *)
Definition process (c : Rrs.call) : Instruction.t :=
  match c with
  | Rrs.add d => from_r_type ADD d
  | Rrs.addi d => from_i_type ADDI d
  | Rrs.sub d => from_r_type SUB d
  | Rrs.xor d => from_r_type XOR d
  | Rrs.xori d => from_i_type XOR d
  | Rrs.or d => from_r_type OR d
  | Rrs.ori d => from_i_type OR d
  | Rrs.and d => from_r_type AND d
  | Rrs.andi d => from_i_type AND d
  | Rrs.sll d => from_r_type SLL d
  | Rrs.slli d => from_i_type_shamt SLL d
  | Rrs.srl d => from_r_type SRL d
  | Rrs.srli d => from_i_type_shamt SRL d
  | Rrs.sra d => from_r_type SRA d
  | Rrs.srai d => from_i_type_shamt SRA d
  | Rrs.slt d => from_r_type SLT d
  | Rrs.slti d => from_i_type SLT d
  | Rrs.sltu d => from_r_type SLTU d
  | Rrs.sltui d => from_i_type SLTU d
  | Rrs.lb d => from_i_type LB d
  | Rrs.lh d => from_i_type LH d
  | Rrs.lw d => from_i_type LW d
  | Rrs.lbu d => from_i_type LBU d
  | Rrs.lhu d => from_i_type LHU d
  | Rrs.sb d => from_s_type SB d
  | Rrs.sh d => from_s_type SH d
  | Rrs.sw d => from_s_type SW d
  | Rrs.beq d => from_b_type BEQ d
  | Rrs.bne d => from_b_type BNE d
  | Rrs.blt d => from_b_type BLT d
  | Rrs.bge d => from_b_type BGE d
  | Rrs.bltu d => from_b_type BLTU d
  | Rrs.bgeu d => from_b_type BGEU d
  | Rrs.jal d => new JAL (u8 (j_rd d)) (u64 (j_imm d)) 0 true true
  | Rrs.jalr d => new JALR (u8 (i_rd d)) (i_rs1 d) (u64 (i_imm d)) false true
  | Rrs.lui d => from_u_type LUI d
  | Rrs.auipc d => from_u_type AUIPC d
  | Rrs.ecall => new ECALL 5 10 11 false false
  | Rrs.ebreak => new EBREAK 0 0 0 false false
  | Rrs.mul d => from_r_type MUL d
  | Rrs.mulh d => from_r_type MULH d
  | Rrs.mulhu d => from_r_type MULHU d
  | Rrs.mulhsu d => from_r_type MULHSU d
  | Rrs.div d => from_r_type DIV d
  | Rrs.divu d => from_r_type DIVU d
  | Rrs.rem d => from_r_type REM d
  | Rrs.remu d => from_r_type REMU d
  | Rrs.csrrc | Rrs.csrrci | Rrs.csrrs | Rrs.csrrsi | Rrs.csrrw | Rrs.csrrwi => unimp
  | Rrs.fence _ => unimp
  | Rrs.mret => unimp
  | Rrs.wfi => unimp
  | Rrs.addw d => from_r_type ADDW d
  | Rrs.subw d => from_r_type SUBW d
  | Rrs.sllw d => from_r_type SLLW d
  | Rrs.srlw d => from_r_type SRLW d
  | Rrs.sraw d => from_r_type SRAW d
  | Rrs.addiw d => from_i_type ADDW d
  | Rrs.slliw d => from_i_type_shamt_w SLLW d
  | Rrs.srliw d => from_i_type_shamt_w SRLW d
  | Rrs.sraiw d => from_i_type_shamt_w SRAW d
  | Rrs.lwu d => from_i_type LWU d
  | Rrs.ld d => from_i_type LD d
  | Rrs.sd d => from_s_type SD d
  | Rrs.mulw d => from_r_type MULW d
  | Rrs.divw d => from_r_type DIVW d
  | Rrs.divuw d => from_r_type DIVUW d
  | Rrs.remw d => from_r_type REMW d
  | Rrs.remuw d => from_r_type REMUW d
  end.

(** [transpile]: [decode] is the dispatch of [rrs_lib]'s
    [process_instruction]; [None] is the panic of [unwrap]. *)
Definition transpile (decode : Z -> option Rrs.call) (instructions_u32 : list Z) :
  option (list (Instruction.t * Z)) :=
  mapM (fun w => c ← decode w; Some (process c, w)) instructions_u32.
End Transpiler.

(** ** The RV64IM formats of the ISA manual

    What a decoder has to return: the fields of the formats, and the opcode
    tables by major opcode, [funct3] and [funct7]. *)
Module Manual.
Definition bits (w lo n : Z) : Z := (w / 2 ^ lo) mod 2 ^ n.
Definition rd (w : Z) : Z := bits w 7 5.
Definition rs1 (w : Z) : Z := bits w 15 5.
Definition rs2 (w : Z) : Z := bits w 20 5.
Definition imm_i (w : Z) : Z := sext 12 (bits w 20 12).
Definition imm_s (w : Z) : Z := sext 12 (bits w 25 7 * 2 ^ 5 + bits w 7 5).
Definition imm_b (w : Z) : Z :=
  sext 13 (bits w 31 1 * 2 ^ 12 + bits w 7 1 * 2 ^ 11 + bits w 25 6 * 2 ^ 5 + bits w 8 4 * 2).
Definition imm_u (w : Z) : Z := u64 (sext 32 (bits w 12 20 * 2 ^ 12)).
Definition imm_j (w : Z) : Z :=
  sext 21 (bits w 31 1 * 2 ^ 20 + bits w 12 8 * 2 ^ 12 + bits w 20 1 * 2 ^ 11 + bits w 21 10 * 2).

Fixpoint assoc {A} (k : Z) (l : list (Z * A)) : option A :=
  match l with
  | [] => None
  | (k', v) :: l => if k =? k' then Some v else assoc k l
  end.

(** [funct7 * 8 + funct3]. *)
Definition f73 (w : Z) : Z := bits w 25 7 * 8 + bits w 12 3.

Definition decode (w : Z) : option Rrs.call :=
  let r := mkR (rs2 w) (rs1 w) (rd w) in
  let i := mkI (imm_i w) (rs1 w) (rd w) in
  let sh := mkShamt (bits w 20 6) (rs1 w) (rd w) in
  let shw := mkShamt (bits w 20 5) (rs1 w) (rd w) in
  let s := mkS (imm_s w) (rs2 w) (rs1 w) in
  let b := mkB (imm_b w) (rs2 w) (rs1 w) in
  let f3 := bits w 12 3 in
  let op := bits w 0 7 in
  if op =? 0x33 then assoc (f73 w)
    [(0, Rrs.add r); (256, Rrs.sub r); (1, Rrs.sll r); (2, Rrs.slt r); (3, Rrs.sltu r);
     (4, Rrs.xor r); (5, Rrs.srl r); (261, Rrs.sra r); (6, Rrs.or r); (7, Rrs.and r);
     (8, Rrs.mul r); (9, Rrs.mulh r); (10, Rrs.mulhsu r); (11, Rrs.mulhu r); (12, Rrs.div r);
     (13, Rrs.divu r); (14, Rrs.rem r); (15, Rrs.remu r)]
  else if op =? 0x3b then assoc (f73 w)
    [(0, Rrs.addw r); (256, Rrs.subw r); (1, Rrs.sllw r); (5, Rrs.srlw r); (261, Rrs.sraw r);
     (8, Rrs.mulw r); (12, Rrs.divw r); (13, Rrs.divuw r); (14, Rrs.remw r); (15, Rrs.remuw r)]
  else if op =? 0x13 then
    if (f3 =? 1) || (f3 =? 5) then assoc (bits w 26 6 * 8 + f3)
      [(1, Rrs.slli sh); (5, Rrs.srli sh); (133, Rrs.srai sh)]
    else assoc f3
      [(0, Rrs.addi i); (2, Rrs.slti i); (3, Rrs.sltui i); (4, Rrs.xori i); (6, Rrs.ori i);
       (7, Rrs.andi i)]
  else if op =? 0x1b then
    if (f3 =? 1) || (f3 =? 5) then assoc (f73 w)
      [(1, Rrs.slliw shw); (5, Rrs.srliw shw); (261, Rrs.sraiw shw)]
    else assoc f3 [(0, Rrs.addiw i)]
  else if op =? 0x03 then assoc f3
    [(0, Rrs.lb i); (1, Rrs.lh i); (2, Rrs.lw i); (3, Rrs.ld i); (4, Rrs.lbu i); (5, Rrs.lhu i);
     (6, Rrs.lwu i)]
  else if op =? 0x23 then assoc f3 [(0, Rrs.sb s); (1, Rrs.sh s); (2, Rrs.sw s); (3, Rrs.sd s)]
  else if op =? 0x63 then assoc f3
    [(0, Rrs.beq b); (1, Rrs.bne b); (4, Rrs.blt b); (5, Rrs.bge b); (6, Rrs.bltu b);
     (7, Rrs.bgeu b)]
  else if op =? 0x6f then Some (Rrs.jal (mkJ (imm_j w) (rd w)))
  else if op =? 0x67 then assoc f3 [(0, Rrs.jalr i)]
  else if op =? 0x37 then Some (Rrs.lui (mkU (imm_u w) (rd w)))
  else if op =? 0x17 then Some (Rrs.auipc (mkU (imm_u w) (rd w)))
  else if w =? 0x73 then Some Rrs.ecall
  else None.
End Manual.

(** ** Bit fields *)

(** The bits of [v] from [n] on. *)
Lemma land_upper v n : is_u64 v -> 0 <= n <= 64 ->
  Z.land v (2 ^ 64 - 2 ^ n) = v - v mod 2 ^ n.
Proof.
  intros Hv Hn. unfold fits in Hv.
  replace (2 ^ 64 - 2 ^ n) with (Z.shiftl (Z.ones (64 - n)) n).
  2: { rewrite Z.shiftl_mul_pow2, Z.ones_equiv by lia. unfold Z.pred.
       rewrite Z.mul_add_distr_r, <- Z.pow_add_r by lia.
       replace (64 - n + n) with 64 by lia. lia. }
  replace (v - v mod 2 ^ n) with (Z.shiftl (Z.shiftr v n) n).
  2: { rewrite Z.shiftl_mul_pow2, Z.shiftr_div_pow2 by lia.
       pose proof (Z.div_mod v (2 ^ n)). lia. }
  apply Z.bits_inj'. intros k Hk. rewrite Z.land_spec, !Z.shiftl_spec by lia.
  destruct (Z_lt_le_dec k n) as [L|L].
  - rewrite !(Z.testbit_neg_r _ (k - n)) by lia. apply andb_false_r.
  - rewrite Z.shiftr_spec by lia. replace (k - n + n) with k by lia.
    destruct (Z_lt_le_dec k 64) as [L'|L'].
    + rewrite Z.ones_spec_low by lia. apply andb_true_r.
    + replace (Z.testbit v k) with false; [reflexivity|]. symmetry.
      apply Z.testbit_false; [lia|]. rewrite Z.div_small; [reflexivity|].
      pose proof (Z.pow_le_mono_r 2 64 k). lia.
Qed.

Lemma land_bit v k : 0 <= k -> negb (Z.land v (2 ^ k) =? 0) = Z.testbit v k.
Proof.
  intros Hk. destruct (Z.testbit v k) eqn:E.
  - apply negb_true_iff, Z.eqb_neq. intros E0.
    assert (Z.testbit (Z.land v (2 ^ k)) k = true) as Hb
      by (rewrite Z.land_spec, E, Z.pow2_bits_true by lia; reflexivity).
    rewrite E0, Z.bits_0 in Hb. discriminate.
  - apply negb_false_iff, Z.eqb_eq, Z.bits_inj'. intros n Hn.
    rewrite Z.land_spec, Z.bits_0, Z.pow2_bits_eqb by lia.
    destruct (Z.eqb_spec k n) as [<-|]; [now rewrite E|apply andb_false_r].
Qed.

Lemma sext_testbit v k : 0 <= k -> Z.testbit v k = (2 ^ k <=? v mod 2 ^ (k + 1)).
Proof.
  intros Hk. assert (0 < 2 ^ k) by lia.
  rewrite Z.testbit_eqb by lia. rewrite Z.pow_add_r by lia. change (2 ^ 1) with 2.
  rewrite Z.rem_mul_r by lia.
  pose proof (Z.mod_pos_bound v (2 ^ k)). pose proof (Z.mod_pos_bound (v / 2 ^ k) 2).
  destruct (Z.eqb_spec ((v / 2 ^ k) mod 2) 1), (Z.leb_spec (2 ^ k) (v mod 2 ^ k + 2 ^ k * ((v / 2 ^ k) mod 2)));
    try reflexivity; nia.
Qed.

(** [validate_sign_extension] accepts exactly the u64s that are the
    sign extension of an [n]-bit integer. *)
Lemma validate_sign_extension_iff v n : is_u64 v -> 1 <= n < 64 ->
  validate_sign_extension v n = true <-> - 2 ^ (n - 1) <= i64 v < 2 ^ (n - 1).
Proof.
  intros Hv Hn. unfold validate_sign_extension, not64.
  replace (64 <=? n) with false by (symmetry; apply Z.leb_gt; lia).
  assert (Hpow : forall k, 0 <= k < 64 -> u64 (1 ≪ k) = 2 ^ k).
  { intros k Hk. rewrite Z.shiftl_1_l. unfold u64, wrap. apply Z.mod_small.
    pose proof (Z.pow_lt_mono_r 2 k 64). lia. }
  rewrite !Hpow by lia. replace (2 ^ 64 - 1 - (2 ^ n - 1)) with (2 ^ 64 - 2 ^ n) by lia.
  rewrite land_bit, land_upper, sext_testbit by (assumption || lia).
  replace (n - 1 + 1) with n by lia.
  set (P := 2 ^ (n - 1)). assert (EP : 2 ^ n = 2 * P)
    by (unfold P; rewrite <- Z.pow_succ_r by lia; f_equal; lia).
  assert (EQ : 2 ^ 64 = 2 * P * 2 ^ (64 - n))
    by (rewrite <- EP, <- Z.pow_add_r by lia; f_equal; lia).
  rewrite EP. assert (0 < P) by (unfold P; lia).
  pose proof (Z.div_mod v (2 * P)) as Ediv. pose proof (Z.mod_pos_bound v (2 * P)) as Bmod.
  set (q := v / (2 * P)) in *. set (r := v mod (2 * P)) in *.
  unfold fits, i64, sext in *. change (2 ^ (64 - 1)) with (2 ^ 63).
  set (Q := 2 ^ (64 - n)) in *. assert (0 < Q) by (unfold Q; lia).
  assert (Hq : 0 <= q < Q) by (clearbody P Q; nia).
  assert (HA : (2 * P * q = 0 \/ 2 * P <= 2 * P * q) /\
    (2 * P * q = 2 ^ 64 - 2 * P \/ 2 * P * q <= 2 ^ 64 - 4 * P)).
  { rewrite EQ. clear - Hq H. split.
    - destruct (Z.eq_dec q 0) as [->|]; [left; lia|right; nia].
    - destruct (Z.eq_dec q (Q - 1)) as [->|]; [left; lia|right; nia]. }
  assert (Hs : (v < 2 ^ 63 /\ (v + 2 ^ 63) mod 2 ^ 64 - 2 ^ 63 = v) \/
               (2 ^ 63 <= v /\ (v + 2 ^ 63) mod 2 ^ 64 - 2 ^ 63 = v - 2 ^ 64)).
  { clear - Hv. lia_mod. }
  assert (HP : P <= 2 ^ 62) by (unfold P; apply Z.pow_le_mono_r; lia).
  set (A := 2 * P * q) in *. specialize (Ediv ltac:(lia)).
  destruct (Z.leb_spec P r); rewrite Z.eqb_eq; destruct Hs as [[Hlt ->]|[Hge ->]];
    clear EQ EP; clearbody A P Q r; lia.
Qed.

(** ** Encoding the words the manual decodes *)

Section RoundTrip.
Import Instruction Manual.

Lemma shl32_small x n : 0 <= n -> 0 <= x -> x * 2 ^ n < 2 ^ 32 -> shl32 x n = x * 2 ^ n.
Proof.
  intros. unfold shl32, u32, wrap. rewrite Z.shiftl_mul_pow2 by assumption.
  apply Z.mod_small. split; [apply Z.mul_nonneg_nonneg; lia|assumption].
Qed.

Lemma bits_range w lo n : 0 <= n -> 0 <= bits w lo n < 2 ^ n.
Proof. intros. apply Z.mod_pos_bound. lia. Qed.

Lemma land_ones_mod x m n : 0 <= n -> m = Z.ones n -> Z.land x m = x mod 2 ^ n.
Proof. intros Hn ->. now apply Z.land_ones. Qed.

Lemma u64_sext_mod n k x : 0 < n <= 64 -> 0 <= k <= n -> (u64 (sext n x)) mod 2 ^ k = x mod 2 ^ k.
Proof.
  intros Hn Hk. assert (D : (2 ^ k | 2 ^ n)) by (exists (2 ^ (n - k)); rewrite <- Z.pow_add_r by lia; f_equal; lia).
  assert (D' : (2 ^ k | 2 ^ 64)) by (exists (2 ^ (64 - k)); rewrite <- Z.pow_add_r by lia; f_equal; lia).
  unfold u64, wrap. rewrite Z.mod_mod_divide by assumption.
  rewrite <- (Z.mod_mod_divide (sext n x) (2 ^ n)), <- (Z.mod_mod_divide x (2 ^ n)) by assumption.
  f_equal. apply wrap_sext. lia.
Qed.

(** Sign-extended immediates pass the check of their width. *)
Lemma validate_sext n x : 1 <= n < 64 -> validate_sign_extension (u64 (sext n x)) n = true.
Proof.
  intros Hn. apply validate_sign_extension_iff; [apply u64_fits|assumption|].
  unfold i64, u64. rewrite sext_wrap by lia. rewrite sext_small; [apply sext_range; lia| |lia].
  pose proof (sext_range n x ltac:(lia)). pose proof (Z.pow_le_mono_r 2 (n - 1) (64 - 1)). lia.
Qed.

(** Register indices pass their check and survive the casts. *)
Lemma reg_field w lo : u32 (bits w lo 5) = bits w lo 5 /\ u32 (u8 (bits w lo 5)) = bits w lo 5 /\
  (bits w lo 5 <=? 31) = true /\ (u8 (bits w lo 5) <=? 31) = true /\ 0 <= bits w lo 5 < 32.
Proof.
  pose proof (bits_range w lo 5). unfold u32, u8, wrap. rewrite !Z.leb_le.
  rewrite (Z.mod_small (bits w lo 5) (2 ^ 8)), Z.mod_small by lia. lia.
Qed.

(** Normalise an encoder call on register fields of a word. *)
Ltac reg_fields w := rewrite
  ?(proj1 (reg_field w 7)), ?(proj1 (proj2 (reg_field w 7))), ?(proj1 (proj2 (proj2 (reg_field w 7)))),
  ?(proj1 (proj2 (proj2 (proj2 (reg_field w 7))))),
  ?(proj1 (reg_field w 15)), ?(proj1 (proj2 (reg_field w 15))), ?(proj1 (proj2 (proj2 (reg_field w 15)))),
  ?(proj1 (proj2 (proj2 (proj2 (reg_field w 15))))),
  ?(proj1 (reg_field w 20)), ?(proj1 (proj2 (reg_field w 20))), ?(proj1 (proj2 (proj2 (reg_field w 20)))),
  ?(proj1 (proj2 (proj2 (proj2 (reg_field w 20))))).

Lemma pack_r a b c d e f : fits 7 a -> fits 5 b -> fits 5 c -> fits 3 d -> fits 5 e -> fits 7 f ->
  Z.lor (Z.lor (Z.lor (Z.lor (Z.lor (shl32 a 25) (shl32 b 20)) (shl32 c 15)) (shl32 d 12))
    (shl32 e 7)) f = a * 2 ^ 25 + b * 2 ^ 20 + c * 2 ^ 15 + d * 2 ^ 12 + e * 2 ^ 7 + f.
Proof.
  unfold fits. intros. rewrite !shl32_small by lia.
  rewrite (lor_disjoint (a * 2 ^ 25) (b * 2 ^ 20) 25), (lor_disjoint _ (c * 2 ^ 15) 20),
    (lor_disjoint _ (d * 2 ^ 12) 15), (lor_disjoint _ (e * 2 ^ 7) 12), (lor_disjoint _ f 7)
    by lia_mod. reflexivity.
Qed.

Lemma pack_i a c d e f : fits 12 a -> fits 5 c -> fits 3 d -> fits 5 e -> fits 7 f ->
  Z.lor (Z.lor (Z.lor (Z.lor (shl32 a 20) (shl32 c 15)) (shl32 d 12)) (shl32 e 7)) f =
  a * 2 ^ 20 + c * 2 ^ 15 + d * 2 ^ 12 + e * 2 ^ 7 + f.
Proof.
  unfold fits. intros. rewrite !shl32_small by lia.
  rewrite (lor_disjoint (a * 2 ^ 20) (c * 2 ^ 15) 20), (lor_disjoint _ (d * 2 ^ 12) 15),
    (lor_disjoint _ (e * 2 ^ 7) 12), (lor_disjoint _ f 7) by lia_mod. reflexivity.
Qed.

Lemma pack_b a b c d e f g h : fits 1 a -> fits 6 b -> fits 5 c -> fits 5 d -> fits 3 e ->
  fits 4 f -> fits 1 g -> fits 7 h ->
  Z.lor (Z.lor (Z.lor (Z.lor (Z.lor (Z.lor (Z.lor (shl32 a 31) (shl32 b 25)) (shl32 c 20))
    (shl32 d 15)) (shl32 e 12)) (shl32 f 8)) (shl32 g 7)) h =
  a * 2 ^ 31 + b * 2 ^ 25 + c * 2 ^ 20 + d * 2 ^ 15 + e * 2 ^ 12 + f * 2 ^ 8 + g * 2 ^ 7 + h.
Proof.
  unfold fits. intros. rewrite !shl32_small by lia.
  rewrite (lor_disjoint (a * 2 ^ 31) (b * 2 ^ 25) 31), (lor_disjoint _ (c * 2 ^ 20) 25),
    (lor_disjoint _ (d * 2 ^ 15) 20), (lor_disjoint _ (e * 2 ^ 12) 15), (lor_disjoint _ (f * 2 ^ 8) 12),
    (lor_disjoint _ (g * 2 ^ 7) 8), (lor_disjoint _ h 7) by lia_mod. reflexivity.
Qed.

Lemma pack_j a b c d e f : fits 1 a -> fits 10 b -> fits 1 c -> fits 8 d -> fits 5 e -> fits 7 f ->
  Z.lor (Z.lor (Z.lor (Z.lor (Z.lor (shl32 a 31) (shl32 b 21)) (shl32 c 20)) (shl32 d 12))
    (shl32 e 7)) f = a * 2 ^ 31 + b * 2 ^ 21 + c * 2 ^ 20 + d * 2 ^ 12 + e * 2 ^ 7 + f.
Proof.
  unfold fits. intros. rewrite !shl32_small by lia.
  rewrite (lor_disjoint (a * 2 ^ 31) (b * 2 ^ 21) 31), (lor_disjoint _ (c * 2 ^ 20) 21),
    (lor_disjoint _ (d * 2 ^ 12) 20), (lor_disjoint _ (e * 2 ^ 7) 12), (lor_disjoint _ f 7)
    by lia_mod. reflexivity.
Qed.

(** Close the arithmetic of one format: its fields recompose the word. *)
Ltac recompose := try (f_equal; unfold bits, fits in *; lia_mod);
  try (unfold bits, fits; lia_mod).

Lemma encode_r_word w op base : is_u32 w -> base = bits w 0 7 ->
  funct3 op = Some (bits w 12 3) -> funct7 op = Some (bits w 25 7) ->
  encode_r (from_r_type op (mkR (rs2 w) (rs1 w) (rd w))) base = Some w.
Proof.
  intros Hw -> F3 F7. unfold encode_r, from_r_type. simpl. rewrite F3, F7. simpl.
  unfold rs2, rs1, rd. reg_fields w. rewrite pack_r; recompose.
Qed.

Lemma imm12 w : u32 (Z.land (u64 (imm_i w)) 0xFFF) = bits w 20 12.
Proof.
  rewrite (land_ones_mod _ _ 12) by reflexivity || lia. unfold imm_i. rewrite u64_sext_mod by lia.
  unfold u32, wrap, bits. lia_mod.
Qed.

Lemma encode_i_word `{InstructionFormats} w op base : is_u32 w -> base = bits w 0 7 ->
  funct3 op = Some (bits w 12 3) ->
  ((base =? OPCODE_OP_IMM) || (base =? OPCODE_OP_IMM_32)) && ((bits w 12 3 =? 1) || (bits w 12 3 =? 5)) = false ->
  (base =? OPCODE_SYSTEM) = false ->
  encode_i (from_i_type op (mkI (imm_i w) (rs1 w) (rd w))) base = Some w.
Proof.
  intros Hw Eb F3 N1 N2. unfold encode_i, from_i_type. cbn [op_a op_b op_c opcode i_rd i_rs1 i_imm].
  unfold rs1, rd at 1. reg_fields w. unfold imm_i at 1. rewrite validate_sext by lia.
  rewrite F3, imm12. cbn [mbind option_bind]. rewrite N1, N2, Eb. simpl andb.
  unfold rd. reg_fields w. rewrite pack_i; recompose.
Qed.

(** Shift amounts of [k] bits below a [funct7] whose low bits are free. *)
Lemma validate_small x : 0 <= x < 2 ^ 6 -> validate_sign_extension x 12 = true.
Proof.
  intros Hx. apply validate_sign_extension_iff; [unfold fits; lia|lia|].
  unfold i64, sext. lia_mod.
Qed.

Lemma encode_shamt_word `{InstructionFormats} w op base k f7 : is_u32 w -> base = bits w 0 7 ->
  5 <= k <= 6 -> funct3 op = Some (bits w 12 3) -> funct7 op = Some f7 ->
  (f7 = 0 \/ f7 = 32) -> bits w (20 + k) (12 - k) = f7 / 2 ^ (k - 5) ->
  (base =? OPCODE_OP_IMM) || (base =? OPCODE_OP_IMM_32) = true ->
  (bits w 12 3 =? 1) || (bits w 12 3 =? 5) = true ->
  encode_i (from_i_type_shamt op (mkShamt (bits w 20 k) (rs1 w) (rd w))) base = Some w.
Proof.
  intros Hw Eb Hk F3 F7 Hf Hhi N1 N2. unfold encode_i, from_i_type_shamt.
  cbn [op_a op_b op_c opcode sh_rd sh_rs1 sh_shamt].
  assert (Bk : 0 <= bits w 20 k < 2 ^ 6).
  { pose proof (bits_range w 20 k). pose proof (Z.pow_le_mono_r 2 k 6). lia. }
  unfold rs1, rd at 1. reg_fields w. rewrite validate_small by assumption.
  rewrite F3, F7. cbn [mbind option_bind]. rewrite N1, N2, Eb. simpl andb.
  rewrite (land_ones_mod _ _ 12) by reflexivity || lia.
  replace (u32 (bits w 20 k mod 2 ^ 12)) with (bits w 20 k) by (unfold u32, wrap; lia_mod).
  unfold rd. reg_fields w.
  assert (E : Z.lor (shl32 f7 25) (shl32 (bits w 20 k) 20) = f7 * 2 ^ 25 + bits w 20 k * 2 ^ 20).
  { rewrite !shl32_small by (unfold fits in *; lia).
    apply (lor_disjoint _ _ 26); [lia|destruct Hf as [-> | ->]; reflexivity|lia]. }
  rewrite E. clear E. pose proof (bits_range w 15 5). pose proof (bits_range w 12 3).
  pose proof (bits_range w 7 5). pose proof (bits_range w 0 7).
  rewrite !shl32_small by lia.
  rewrite (lor_disjoint _ (bits w 15 5 * 2 ^ 15) 20), (lor_disjoint _ (bits w 12 3 * 2 ^ 12) 15),
    (lor_disjoint _ (bits w 7 5 * 2 ^ 7) 12), (lor_disjoint _ (bits w 0 7) 7)
    by (clear Hhi; lia_mod).
  f_equal. assert (k = 5 \/ k = 6) as [-> | ->] by lia; destruct Hf as [-> | ->];
    simpl Z.sub in Hhi; simpl Z.add in Hhi; unfold bits, fits in *; lia_mod.
Qed.

Lemma encode_s_word w op base : is_u32 w -> base = bits w 0 7 -> funct3 op = Some (bits w 12 3) ->
  encode_s (from_s_type op (mkS (imm_s w) (rs2 w) (rs1 w))) base = Some w.
Proof.
  intros Hw -> F3. unfold encode_s, from_s_type. cbn [op_a op_b op_c opcode s_rs2 s_rs1 s_imm].
  unfold rs1, rs2. reg_fields w. unfold imm_s at 1. rewrite validate_sext by lia.
  rewrite F3. cbn [mbind option_bind].
  rewrite (land_ones_mod (u64 _) _ 12) by reflexivity || lia. unfold imm_s. rewrite u64_sext_mod by lia.
  rewrite (land_ones_mod _ 0x7F 7), (land_ones_mod _ 0x1F 5), Z.shiftr_div_pow2 by reflexivity || lia.
  unfold u32, wrap. rewrite pack_r; recompose.
Qed.

Lemma encode_b_word w op base : is_u32 w -> base = bits w 0 7 -> funct3 op = Some (bits w 12 3) ->
  encode_b (from_b_type op (mkB (imm_b w) (rs2 w) (rs1 w))) base = Some w.
Proof.
  intros Hw -> F3. unfold encode_b, from_b_type. cbn [op_a op_b op_c opcode b_rs2 b_rs1 b_imm].
  unfold rs1, rs2. reg_fields w. unfold imm_b at 1. rewrite validate_sext by lia.
  rewrite F3. cbn [mbind option_bind].
  rewrite (land_ones_mod (u64 _) _ 13) by reflexivity || lia. unfold imm_b. rewrite u64_sext_mod by lia.
  set (imm := u32 _).
  assert (Ei : imm = bits w 31 1 * 2 ^ 12 + bits w 7 1 * 2 ^ 11 + bits w 25 6 * 2 ^ 5 + bits w 8 4 * 2)
    by (subst imm; unfold u32, wrap, bits; lia_mod).
  rewrite !(land_ones_mod _ 1 1), (land_ones_mod _ 0x3F 6), (land_ones_mod _ 0xF 4),
    (land_ones_mod _ 0x7F 7), !Z.shiftr_div_pow2 by reflexivity || lia.
  replace (imm mod 2 ^ 1 =? 0) with true by (symmetry; apply Z.eqb_eq; rewrite Ei; unfold bits; lia_mod).
  rewrite Ei. rewrite pack_b; recompose.
Qed.

Lemma encode_u_word w op base : is_u32 w -> base = bits w 0 7 ->
  encode_u (from_u_type op (mkU (imm_u w) (rd w))) base = Some w.
Proof.
  intros Hw ->. unfold encode_u, from_u_type. cbn [op_a op_b op_c opcode u_rd u_imm].
  unfold rd. reg_fields w. set (s := if _ <=? _ then _ else _).
  assert (Es : s = u64 (sext 20 (bits w 12 20))).
  { subst s. rewrite Z.shiftr_div_pow2 by lia. unfold imm_u.
    pose proof (bits_range w 12 20 ltac:(lia)). set (x := bits w 12 20) in *.
    destruct (Z.leb_spec (2 ^ 32) (u64 (sext 32 (x * 2 ^ 12)))); unfold u64, wrap, sext in *; lia_mod. }
  rewrite Es, validate_sext by lia.
  assert (Ei : u32 (imm_u w) = bits w 12 20 * 2 ^ 12).
  { unfold imm_u, u32, wrap. rewrite u64_sext_mod by lia. unfold bits. lia_mod. }
  rewrite Ei, shl32_small by recompose.
  rewrite (lor_disjoint _ (bits w 7 5 * 2 ^ 7) 12), (lor_disjoint _ (bits w 0 7) 7) by recompose.
  recompose.
Qed.

Lemma encode_j_word w base : is_u32 w -> base = bits w 0 7 ->
  encode_j (new JAL (u8 (rd w)) (u64 (imm_j w)) 0 true true) base = Some w.
Proof.
  intros Hw ->. unfold encode_j. cbn [op_a op_b op_c opcode].
  unfold rd. reg_fields w. unfold imm_j at 1. rewrite validate_sext by lia.
  rewrite (land_ones_mod (u64 _) 1 1), (land_ones_mod (u64 _) _ 21) by reflexivity || lia.
  unfold imm_j. rewrite !u64_sext_mod by lia.
  replace (_ mod 2 ^ 1 =? 0) with true by (symmetry; apply Z.eqb_eq; unfold bits; lia_mod).
  set (imm := u32 _).
  assert (Ei : imm = bits w 31 1 * 2 ^ 20 + bits w 12 8 * 2 ^ 12 + bits w 20 1 * 2 ^ 11 + bits w 21 10 * 2)
    by (subst imm; unfold u32, wrap, bits; lia_mod).
  rewrite !(land_ones_mod _ 1 1), (land_ones_mod _ 0x3FF 10), (land_ones_mod _ 0xFF 8),
    !Z.shiftr_div_pow2 by reflexivity || lia.
  rewrite Ei. clear Ei imm. pose proof (bits_range w 31 1). pose proof (bits_range w 12 8).
  pose proof (bits_range w 20 1). pose proof (bits_range w 21 10). pose proof (bits_range w 7 5).
  assert (E0 : fits 7 (bits w 0 7)) by (apply bits_range; lia).
  assert (Ew : w = bits w 31 1 * 2 ^ 31 + bits w 21 10 * 2 ^ 21 + bits w 20 1 * 2 ^ 20 +
    bits w 12 8 * 2 ^ 12 + bits w 7 5 * 2 ^ 7 + bits w 0 7)
    by (unfold bits, fits in *; clear - Hw; lia_mod).
  revert Ew. generalize dependent (bits w 31 1). generalize dependent (bits w 12 8).
  generalize dependent (bits w 20 1). generalize dependent (bits w 21 10).
  generalize dependent (bits w 7 5). generalize dependent (bits w 0 7).
  intros op Hop rd Hrd i1 Hi1 i11 Hi11 i12 Hi12 i20 Hi20 Ew.
  rewrite pack_j by (unfold fits in *; lia_mod). f_equal. lia_mod.
Qed.
End RoundTrip.

(** ** The round trip *)

Section Decoded.
Import Instruction Manual.
#[local] Opaque encode_r encode_i encode_s encode_b encode_u encode_j bits imm_i imm_s imm_b imm_u
  imm_j.

(** A word of a table is one of its rows. *)
Lemma assoc_Some {A} k (l : list (Z * A)) v : assoc k l = Some v -> In (k, v) l.
Proof.
  induction l as [|[k' v'] l IH]; simpl; [discriminate|].
  destruct (Z.eqb_spec k k') as [->|]; [intros [= ->]; now left|intros E; right; now apply IH].
Qed.

#[local] Opaque assoc.

(** The fields packed in [f73]. *)
Lemma f73_fields w k : f73 w = k -> bits w 12 3 = k mod 8 /\ bits w 25 7 = k / 8.
Proof.
  intros <-. pose proof (bits_range w 12 3). unfold f73. lia_mod.
Qed.

(** One goal per row of the table [H], with the row's key as an equation. *)
Ltac rows H :=
  apply assoc_Some in H; simpl In in H;
  repeat match type of H with
  | _ \/ _ => destruct H as [H|H]
  | False => destruct H
  end; injection H as Ekey <-.

Ltac concrete_formats F := destruct F as [? ? ? ? ? ? ? ? ? ? ? ? M]; injection M as
  -> -> -> -> -> -> -> -> -> -> -> ->.

Lemma encode_decoded_r `{F : InstructionFormats} w c : is_u32 w ->
  bits w 0 7 = 0x33 \/ bits w 0 7 = 0x3b -> decode w = Some c ->
  encode (Transpiler.process c) = Some w.
Proof.
  intros Hw Hop Hd. concrete_formats F.
  unfold decode in Hd. destruct Hop as [Eop|Eop]; rewrite Eop in Hd; simpl in Hd; rows Hd;
    symmetry in Ekey; apply f73_fields in Ekey as [F3 F7]; cbn in F3, F7;
    cbn; apply encode_r_word; try assumption; rewrite ?F3, ?F7, ?Eop; reflexivity.
Qed.

(** The rows of one format, once their fields are known. *)
Ltac solve_i Eop F3 := cbn; apply encode_i_word; rewrite ?Eop, ?F3; (reflexivity || assumption).
Ltac solve_shift w k Eop F3 F7 := cbn; eapply (encode_shamt_word w _ _ k); rewrite ?Eop, ?F3;
  first [reflexivity | assumption | lia | exact F7].

Lemma encode_decoded_imm `{F : InstructionFormats} w c : is_u32 w ->
  bits w 0 7 = 0x13 \/ bits w 0 7 = 0x1b -> decode w = Some c ->
  encode (Transpiler.process c) = Some w.
Proof.
  intros Hw Hop Hd. concrete_formats F. pose proof (bits_range w 12 3).
  unfold decode in Hd. destruct Hop as [Eop|Eop]; rewrite Eop in Hd; simpl in Hd;
    destruct ((bits w 12 3 =? 1) || (bits w 12 3 =? 5)) eqn:Esh; rows Hd; symmetry in Ekey.
  1-3: assert (F3 : bits w 12 3 = Z.modulo (bits w 26 6 * 8 + bits w 12 3) 8) by lia_mod;
    assert (F6 : bits w 26 6 = Z.div (bits w 26 6 * 8 + bits w 12 3) 8) by lia_mod;
    rewrite Ekey in F3, F6; cbn in F3, F6; solve_shift w 6 Eop F3 F6.
  7-9: apply f73_fields in Ekey as [F3 F7]; cbn in F3, F7; solve_shift w 5 Eop F3 F7.
  all: solve_i Eop Ekey.
Qed.

Lemma encode_decoded `{F : InstructionFormats} w c : is_u32 w -> decode w = Some c ->
  encode (Transpiler.process c) = Some w.
Proof.
  intros Hw Hd. pose proof Hd as Hd'. unfold decode in Hd. cbv zeta in Hd.
  destruct (Z.eqb_spec (bits w 0 7) 0x33); [apply encode_decoded_r; auto|].
  destruct (Z.eqb_spec (bits w 0 7) 0x3b); [apply encode_decoded_r; auto|].
  destruct (Z.eqb_spec (bits w 0 7) 0x13); [apply encode_decoded_imm; auto|].
  destruct (Z.eqb_spec (bits w 0 7) 0x1b); [apply encode_decoded_imm; auto|].
  clear Hd'. concrete_formats F.
  destruct (Z.eqb_spec (bits w 0 7) 0x03) as [Eop|]; [rows Hd; symmetry in Ekey; solve_i Eop Ekey|].
  destruct (Z.eqb_spec (bits w 0 7) 0x23) as [Eop|];
    [rows Hd; cbn; apply encode_s_word; rewrite ?Eop, <- ?Ekey; (reflexivity || assumption)|].
  destruct (Z.eqb_spec (bits w 0 7) 0x63) as [Eop|];
    [rows Hd; cbn; apply encode_b_word; rewrite ?Eop, <- ?Ekey; (reflexivity || assumption)|].
  destruct (Z.eqb_spec (bits w 0 7) 0x6f) as [Eop|];
    [injection Hd as <-; cbn; apply encode_j_word; auto|].
  destruct (Z.eqb_spec (bits w 0 7) 0x67) as [Eop|]; [rows Hd; symmetry in Ekey; solve_i Eop Ekey|].
  destruct (Z.eqb_spec (bits w 0 7) 0x37) as [Eop|]; [injection Hd as <-; cbn; now apply encode_u_word|].
  destruct (Z.eqb_spec (bits w 0 7) 0x17) as [Eop|]; [injection Hd as <-; cbn; now apply encode_u_word|].
  destruct (Z.eqb_spec w 0x73) as [->|]; [injection Hd as <-; reflexivity|discriminate].
Qed.
End Decoded.

(** The constants of [rrs_lib]. *)
#[global] Program Instance rv64_formats : InstructionFormats := {|
  OPCODE_LOAD := 0x03; OPCODE_OP_IMM := 0x13; OPCODE_AUIPC := 0x17; OPCODE_STORE := 0x23;
  OPCODE_OP := 0x33; OPCODE_LUI := 0x37; OPCODE_BRANCH := 0x63; OPCODE_JALR := 0x67;
  OPCODE_JAL := 0x6f; OPCODE_SYSTEM := 0x73; OPCODE_OP_32 := 0x3b; OPCODE_OP_IMM_32 := 0x1b |}.
Next Obligation. reflexivity. Qed.

(** C9. Transpiling a program and encoding its instructions gives the
    program back: when [rrs_lib]'s decoder returns, on the words of the RV64IM
    opcode tables, the fields the manual assigns, [transpile] succeeds on every
    sequence of such words, and [encode] maps each produced instruction to the
    word it came from. *)
Theorem transpile_encode_roundtrip `{InstructionFormats} (decode : Z -> option Rrs.call)
  (decode_manual : forall w c, Manual.decode w = Some c -> decode w = Some c) (ws : list Z)
  (Hws : Forall (fun w => is_u32 w /\ is_Some (Manual.decode w)) ws) :
  exists js, Transpiler.transpile decode ws = Some js /\
    mapM (fun i => encode i.1) js = Some ws /\ snd <$> js = ws.
Proof.
  induction Hws as [|w ws [Hw [c Hc]] _ (js & Et & Ee & Es)]; [now exists []|].
  exists ((Transpiler.process c, w) :: js). unfold Transpiler.transpile in *. simpl.
  rewrite (decode_manual _ _ Hc). simpl. rewrite Et. simpl.
  rewrite (encode_decoded w c Hw Hc). simpl. rewrite Ee. split_and!; [done..|].
  unfold fmap in Es. simpl in Es. now f_equal.
Qed.

Lemma transpile_encode_roundtrip_witness :
  exists js, Transpiler.transpile Manual.decode [0x00500093; 0x40208133; 0xfe209ee3; 0x00000073] = Some js /\
    mapM (fun i => encode i.1) js = Some [0x00500093; 0x40208133; 0xfe209ee3; 0x00000073] /\
    snd <$> js = [0x00500093; 0x40208133; 0xfe209ee3; 0x00000073].
Proof.
  apply (transpile_encode_roundtrip Manual.decode); [auto|].
  repeat (apply List.Forall_cons || apply List.Forall_nil);
    (split; [unfold fits; lia|vm_compute; eexists; reflexivity]).
Defined.
