(* ===== verification/BigUint.v ===== *)
(** * BigUint: big integers and their digits

    The precompiles compute on [num::BigUint], a nonnegative integer [Z] here,
    and move between it and the words of memory: the conversions of
    [primitives/src/consts.rs] ([words_to_bytes_le_vec], [bytes_to_words_le],
    [bytes_to_words_le_vec], [u64_to_u32]) and the digits of the integer.
    A subtraction below zero is a panic, [None].  Every path from words to an
    integer gives its little-endian value, and every padded path back gives
    the words of that value. *)
From Stdlib Require Import ZArith Lia Bool.
From stdpp Require Import base numbers option list.
From S2P Require Import Prelude.

Module BigUint.
(** The value of digits of [w] bits, least significant first. *)
Definition from_radix_le (w : Z) (l : list Z) : Z := foldr (fun d acc => d + 2 ^ w * acc) 0 l.
Definition from_bytes_le : list Z -> Z := from_radix_le 8.
Definition from_bytes_be (l : list Z) : Z := from_bytes_le (rev l).
Definition from_slice : list Z -> Z := from_radix_le 32.

(** The digits without leading zeros; [fuel] bounds their number. *)
Fixpoint digits (w : Z) (fuel : nat) (n : Z) : list Z :=
  match fuel with
  | O => []
  | S fuel => if n =? 0 then [] else n mod 2 ^ w :: digits w fuel (n / 2 ^ w)
  end.
Definition to_radix_le (w n : Z) : list Z := digits w (Z.to_nat (Z.log2 n + 1)) n.
(** Zero has one byte and no 64-bit digit. *)
Definition to_bytes_le (n : Z) : list Z := if n =? 0 then [0] else to_radix_le 8 n.
Definition to_u64_digits (n : Z) : list Z := to_radix_le 64 n.

Definition sub (a b : Z) : option Z := if a <? b then None else Some (a - b).
End BigUint.

(** ** Words, bytes and half words *)

(** [k] digits of [w] bits. *)
Fixpoint limbs (w : Z) (k : nat) (n : Z) : list Z :=
  match k with O => [] | S k => n mod 2 ^ w :: limbs w k (n / 2 ^ w) end.
Definition to_le_bytes (w : Z) : list Z := limbs 8 8 w.

Definition words_to_bytes_le_vec (words : list Z) : list Z := words ≫= to_le_bytes.
(** [chunks_exact(8)] leaves out an incomplete last chunk. *)
Fixpoint bytes_to_words_le_vec (bytes : list Z) : list Z :=
  match bytes with
  | a :: b :: c :: d :: e :: f :: g :: h :: bytes =>
      BigUint.from_bytes_le [a; b; c; d; e; f; g; h] :: bytes_to_words_le_vec bytes
  | _ => []
  end.
(** [None] is the panic on too few chunks. *)
Definition bytes_to_words_le (W : nat) (bytes : list Z) : option (list Z) :=
  let words := bytes_to_words_le_vec bytes in
  if (W <=? length words)%nat then Some (take W words) else None.
Definition words_to_bytes_le (B : nat) (words : list Z) : option (list Z) :=
  let bytes := words_to_bytes_le_vec words in
  if (B <=? length bytes)%nat then Some (take B bytes) else None.
Definition u64_to_u32 (words : list Z) : list Z := words ≫= fun x => [u32 x; u32 (x ≫ 32)].

(** ** Facts *)
Abbreviation value := (BigUint.from_radix_le 64).

Lemma sub_le a b : b <= a -> BigUint.sub a b = Some (a - b).
Proof. intros H. unfold BigUint.sub. now destruct (Z.ltb_spec a b); [lia|]. Qed.

Lemma limbs_length w k n : length (limbs w k n) = k.
Proof. revert n. induction k as [|k IH]; intros n; cbn; [done|]. now rewrite IH. Qed.

Lemma limbs_fits w k n : 0 <= w -> Forall (fits w) (limbs w k n).
Proof.
  intros Hw. revert n. induction k as [|k IH]; intros n; cbn; constructor; [|apply IH].
  apply Z.mod_pos_bound. lia.
Qed.

Lemma limbs_of_zero w k : limbs w k 0 = replicate k 0.
Proof. induction k as [|k IH]; cbn; [done|]. now rewrite Zmod_0_l, Zdiv_0_l, IH. Qed.

Lemma radix_nonneg w l : 0 <= w -> Forall (fits w) l -> 0 <= BigUint.from_radix_le w l.
Proof.
  intros Hw. induction 1 as [|d l [Hd _] Hl IH]; cbn [BigUint.from_radix_le foldr]; [done|].
  apply Z.add_nonneg_nonneg; [done|]. apply Z.mul_nonneg_nonneg; [lia|exact IH].
Qed.

Lemma radix_bound w l : 0 <= w -> Forall (fits w) l -> BigUint.from_radix_le w l < 2 ^ (w * Z.of_nat (length l)).
Proof.
  intros Hw. induction 1 as [|d l [H0 Hd] Hl IH]; cbn [BigUint.from_radix_le foldr length]; [now rewrite Z.mul_0_r|].
  rewrite Nat2Z.inj_succ, Z.mul_succ_r, Z.pow_add_r by lia. fold (BigUint.from_radix_le w l). nia.
Qed.

Lemma limbs_radix w l : 0 <= w -> Forall (fits w) l -> limbs w (length l) (BigUint.from_radix_le w l) = l.
Proof.
  intros Hw. induction 1 as [|d l Hd Hl IH]; cbn [length limbs BigUint.from_radix_le foldr]; [done|].
  fold (BigUint.from_radix_le w l). unfold fits in Hd. f_equal.
  - rewrite Z.mul_comm, Z.mod_add by lia. now apply Z.mod_small.
  - rewrite Z.mul_comm, Z.div_add, Z.div_small by lia. apply IH.
Qed.

Lemma radix_limbs w k n : 0 <= w -> 0 <= n -> BigUint.from_radix_le w (limbs w k n) = n mod 2 ^ (w * Z.of_nat k).
Proof.
  intros Hw. revert n. induction k as [|k IH]; intros n Hn; cbn [limbs BigUint.from_radix_le foldr].
  - now rewrite Z.mul_0_r, Z.mod_1_r.
  - fold (BigUint.from_radix_le w (limbs w k (n / 2 ^ w))). rewrite IH by (apply Z.div_pos; lia).
    replace (w * Z.of_nat (S k)) with (w + w * Z.of_nat k) by lia.
    rewrite Z.pow_add_r, (Z.rem_mul_r n (2 ^ w)) by lia. lia.
Qed.

Lemma limbs_mod w k n : 0 <= w -> limbs w k (n mod 2 ^ (w * Z.of_nat k)) = limbs w k n.
Proof.
  intros Hw. revert n. induction k as [|k IH]; intros n; cbn [limbs]; [done|].
  replace (w * Z.of_nat (S k)) with (w + w * Z.of_nat k) by lia. rewrite Z.pow_add_r by lia.
  rewrite Z.rem_mul_r by lia. rewrite (Z.mul_comm (2 ^ w)). f_equal.
  - rewrite Z_mod_plus_full. apply Zmod_mod.
  - rewrite Z_div_plus_full, (Z.div_small (n mod _)), Z.add_0_l by (lia || apply Z.mod_pos_bound; lia). apply IH.
Qed.

Lemma digits_zero w fuel : BigUint.digits w fuel 0 = [].
Proof. now destruct fuel. Qed.

Lemma digits_limbs w k fuel n :
  0 < w -> 0 <= n -> n < 2 ^ Z.of_nat fuel -> resize k 0 (BigUint.digits w fuel n) = limbs w k n.
Proof.
  intros Hw. revert fuel n. induction k as [|k IH]; intros fuel n Hn Hf; [now rewrite resize_0|].
  destruct fuel as [|fuel]; cbn [BigUint.digits].
  - replace n with 0 by (cbn in Hf; lia). now rewrite limbs_of_zero, resize_nil.
  - destruct (Z.eqb_spec n 0) as [->|Hz]; [now rewrite limbs_of_zero, resize_nil|].
    cbn [resize limbs]. f_equal. apply IH; [apply Z.div_pos; lia|].
    rewrite Nat2Z.inj_succ, Z.pow_succ_r in Hf by lia.
    apply Z.div_lt_upper_bound; [lia|]. assert (2 ^ 1 <= 2 ^ w) by (apply Z.pow_le_mono_r; lia). nia.
Qed.

Lemma radix_pad w k n : 0 < w -> 0 <= n -> resize k 0 (BigUint.to_radix_le w n) = limbs w k n.
Proof.
  intros Hw Hn. apply digits_limbs; [done..|]. rewrite Z2Nat.id by (pose proof (Z.log2_nonneg n); lia).
  destruct (Z.eq_dec n 0) as [->|Hz]; [done|]. apply Z.log2_spec. lia.
Qed.

(** Padding with zeros, as [resize] does on both kinds of digits. *)
Lemma u64_digits_pad k n : 0 <= n -> resize k 0 (BigUint.to_u64_digits n) = limbs 64 k n.
Proof. now apply radix_pad. Qed.
Lemma bytes_pad k n : 0 <= n -> resize k 0 (BigUint.to_bytes_le n) = limbs 8 k n.
Proof.
  intros Hn. unfold BigUint.to_bytes_le. destruct (Z.eqb_spec n 0) as [->|_]; [|now apply radix_pad].
  rewrite limbs_of_zero. destruct k; [done|]. cbn [resize replicate]. now rewrite resize_nil.
Qed.

Lemma radix_app w l1 l2 : 0 <= w ->
  BigUint.from_radix_le w (l1 ++ l2) =
  BigUint.from_radix_le w l1 + 2 ^ (w * Z.of_nat (length l1)) * BigUint.from_radix_le w l2.
Proof.
  intros Hw. induction l1 as [|d l1 IH]; cbn [app BigUint.from_radix_le foldr length].
  - rewrite Z.mul_0_r. unfold BigUint.from_radix_le. lia.
  - fold (BigUint.from_radix_le w (l1 ++ l2)) (BigUint.from_radix_le w l1). rewrite IH.
    replace (w * Z.of_nat (S (length l1))) with (w + w * Z.of_nat (length l1)) by lia.
    rewrite Z.pow_add_r by lia. lia.
Qed.

(** Cutting each digit in [k] smaller ones does not change the value. *)
Lemma radix_refine w k (f : Z -> list Z) l :
  0 <= w -> (forall x, is_u64 x -> f x = limbs w k x) -> w * Z.of_nat k = 64 -> Forall (fits 64) l ->
  BigUint.from_radix_le w (l ≫= f) = value l.
Proof.
  intros Hw Hf Hk. induction 1 as [|d l Hd Hl IH]; [done|]. cbn [mbind list_bind].
  rewrite radix_app, Hf, limbs_length, Hk by done. change (list_bind Z Z f l) with (l ≫= f). rewrite IH.
  rewrite radix_limbs, Hk, Z.mod_small by (unfold fits in Hd; lia). done.
Qed.

Lemma value_bytes l : Forall (fits 64) l -> BigUint.from_bytes_le (words_to_bytes_le_vec l) = value l.
Proof. now apply (radix_refine 8 8). Qed.
Lemma value_u32 l : Forall (fits 64) l -> BigUint.from_slice (u64_to_u32 l) = value l.
Proof.
  apply (radix_refine 32 2); [done| |done]. intros x Hx. cbn. unfold u32, wrap.
  now rewrite Z.shiftr_div_pow2.
Qed.

Lemma u64_to_u32_length l : length (u64_to_u32 l) = (2 * length l)%nat.
Proof. induction l as [|x l IH]; cbn [u64_to_u32 mbind list_bind app length] in *; [done|]. unfold u64_to_u32 in IH. cbn in IH. lia. Qed.

(** [split_at(len / 2)] of the half words of two numbers of [k] words. *)
Lemma u64_to_u32_split l k :
  length l = (2 * k)%nat ->
  take (length (u64_to_u32 l) / 2)%nat (u64_to_u32 l) = u64_to_u32 (take k l) /\
  drop (length (u64_to_u32 l) / 2)%nat (u64_to_u32 l) = u64_to_u32 (drop k l).
Proof.
  intros Hl. rewrite u64_to_u32_length, Nat.mul_comm, Nat.div_mul by done. rewrite Hl.
  assert (Ht : length (u64_to_u32 (take k l)) = (2 * k)%nat) by (rewrite u64_to_u32_length, length_take; lia).
  rewrite <- (take_drop k l) at 1 3. unfold u64_to_u32 in *. rewrite bind_app. rewrite <- Ht.
  now rewrite take_app_length, drop_app_length.
Qed.

Lemma limbs_app w j k n : 0 <= w ->
  limbs w (j + k) n = limbs w j n ++ limbs w k (n / 2 ^ (w * Z.of_nat j)).
Proof.
  intros Hw. revert n. induction j as [|j IH]; intros n; cbn [Nat.add limbs app].
  - now rewrite Z.mul_0_r, Z.div_1_r.
  - rewrite IH. do 2 f_equal. rewrite Z.div_div by lia. f_equal.
    replace (w * Z.of_nat (S j)) with (w + w * Z.of_nat j) by lia. now rewrite Z.pow_add_r by lia.
Qed.

Lemma words_of_limbs k n : 0 <= n -> bytes_to_words_le_vec (limbs 8 (8 * k) n) = limbs 64 k n.
Proof.
  revert n. induction k as [|k IH]; intros n Hn; [done|].
  replace (8 * S k)%nat with (8 + 8 * k)%nat by lia. rewrite limbs_app by done.
  assert (H8 : BigUint.from_bytes_le (limbs 8 8 n) = n mod 2 ^ 64) by now apply (radix_limbs 8 8).
  pose proof (limbs_length 8 8 n) as Hlen.
  destruct (limbs 8 8 n) as [|a [|b [|c [|d [|e [|f [|g [|h [|]]]]]]]]]; try discriminate Hlen.
  cbn [app bytes_to_words_le_vec limbs]. rewrite H8, IH by (apply Z.div_pos; lia). done.
Qed.

(** A result padded to [8 * W] bytes and cut into words. *)
Lemma bytes_to_words_pad W n : 0 <= n ->
  bytes_to_words_le W (resize (8 * W) 0 (BigUint.to_bytes_le n)) = Some (limbs 64 W n).
Proof.
  intros Hn. unfold bytes_to_words_le. rewrite bytes_pad, words_of_limbs, limbs_length, Nat.leb_refl by done.
  rewrite take_ge; [done|]. now rewrite limbs_length.
Qed.
