(* ===== verification/Curves.v ===== *)
(** * Curves: elliptic curves and their fields

    [src/crates/curves]: the parameters of the four short Weierstrass curves
    and of Ed25519, points with their conversions to words ([lib.rs]), the
    additions and doublings of [weierstrass/mod.rs] and [edwards/mod.rs] with
    [dashu_modpow], and the decompressions.  A panic is [None].  Functions of
    other crates (k256, p256, amcl, [BigUint::modpow]) are the fields of
    [CurveCrates].

    On affine points of a short Weierstrass curve over a prime field,
    [sw_add] and [sw_double] are the chord and tangent rule: they return, and
    the result is on the curve and collinear with the operands. *)
From Stdlib Require Import ZArith Lia Bool Znumtheory ZmodInv.
From stdpp Require Import base numbers option list.
From S2P Require Import Prelude BigUint.

(** ** Fields *)
Module FieldParameters.
Record t := mk {
  NB_LIMBS : nat;
  MODULUS : list Z;
  modulus : Z }.
Definition WordsFieldElement (F : t) : nat := (NB_LIMBS F / 8)%nat.
Definition WordsCurvePoint (F : t) : nat := (NB_LIMBS F / 4)%nat.
End FieldParameters.
Import FieldParameters (NB_LIMBS, MODULUS, modulus, WordsFieldElement, WordsCurvePoint).
Abbreviation mkField := FieldParameters.mk.

Definition Bn254BaseField : FieldParameters.t := mkField 32
  [71; 253; 124; 216; 22; 140; 32; 60; 141; 202; 113; 104; 145; 106; 129; 151; 93; 88; 129;
   129; 182; 69; 80; 184; 41; 160; 49; 225; 114; 78; 100; 48]
  21888242871839275222246405745257275088696311157297823662689037894645226208583.
Definition Bls12381BaseField : FieldParameters.t := mkField 48
  [171; 170; 255; 255; 255; 255; 254; 185; 255; 255; 83; 177; 254; 255; 171; 30; 36; 246; 176;
   246; 160; 210; 48; 103; 191; 18; 133; 243; 132; 75; 119; 100; 215; 172; 75; 67; 182; 167;
   27; 75; 154; 230; 127; 57; 234; 17; 1; 26]
  4002409555221667393417789825735904156556882819939007885332058136124031650490837864442687629129015664037894272559787.
Definition secp256r1_modulus_bytes : list Z :=
  [0xff; 0xff; 0xff; 0xff; 0xff; 0xff; 0xff; 0xff; 0xff; 0xff; 0xff; 0xff; 0x00; 0x00; 0x00;
   0x00; 0x00; 0x00; 0x00; 0x00; 0x00; 0x00; 0x00; 0x00; 0x01; 0x00; 0x00; 0x00; 0xff; 0xff;
   0xff; 0xff].
Definition Secp256r1BaseField : FieldParameters.t :=
  mkField 32 secp256r1_modulus_bytes (BigUint.from_bytes_le secp256r1_modulus_bytes).
Definition secp256k1_modulus_bytes : list Z :=
  [0x2f; 0xfc; 0xff; 0xff; 0xfe; 0xff; 0xff; 0xff; 0xff; 0xff; 0xff; 0xff; 0xff; 0xff; 0xff;
   0xff; 0xff; 0xff; 0xff; 0xff; 0xff; 0xff; 0xff; 0xff; 0xff; 0xff; 0xff; 0xff; 0xff; 0xff;
   0xff; 0xff].
Definition Secp256k1BaseField : FieldParameters.t :=
  mkField 32 secp256k1_modulus_bytes (BigUint.from_bytes_le secp256k1_modulus_bytes).
Definition Ed25519BaseField : FieldParameters.t := mkField 32
  [237; 255; 255; 255; 255; 255; 255; 255; 255; 255; 255; 255; 255; 255; 255; 255; 255; 255;
   255; 255; 255; 255; 255; 255; 255; 255; 255; 255; 255; 255; 255; 127]
  ((1 ≪ 255) - 19).

(** ** Points *)
Module AffinePoint.
Record t := mk { x : Z; y : Z }.
#[export] Instance eq_dec : EqDecision t.
Proof. solve_decision. Defined.

Definition from_words_le (words : list Z) : t :=
  let half := (length words / 2)%nat in
  mk (BigUint.from_bytes_le (words_to_bytes_le_vec (take half words)))
          (BigUint.from_bytes_le (words_to_bytes_le_vec (drop half words))).

(** Word [i] of the first half is cut out of the bytes of [x], word
    [half_words + i] out of those of [y]. *)
Definition to_words_le (F : FieldParameters.t) (p : t) : list Z :=
  let num_words := WordsCurvePoint F in
  let num_bytes := (num_words * 8)%nat in
  let half_words := (num_words / 2)%nat in
  let x_bytes := resize (num_bytes / 2) 0 (BigUint.to_bytes_le (x p)) in
  let y_bytes := resize (num_bytes / 2) 0 (BigUint.to_bytes_le (y p)) in
  let word (bytes : list Z) (i : nat) := BigUint.from_bytes_le (take 8 (drop (8 * i) bytes)) in
  (word x_bytes <$> seq 0 half_words) ++ (word y_bytes <$> seq 0 half_words).

(** [to_sec1_uncompressed]; [None] when a coordinate has too many bytes. *)
Definition le_to_fixed_be (F : FieldParameters.t) (n : Z) : option (list Z) :=
  let le := BigUint.to_bytes_le n in
  if (length le <=? NB_LIMBS F)%nat then Some (rev (resize (NB_LIMBS F) 0 le)) else None.
Definition to_sec1_uncompressed (F : FieldParameters.t) (p : t) : option (list Z) :=
  bx ← le_to_fixed_be F (x p);
  b_y ← le_to_fixed_be F (y p);
  Some (0x04 :: bx ++ b_y).

End AffinePoint.

(** ** Modular exponentiation *)

(** The loop halves [exp]; [fuel] bounds the number of its bits. *)
Fixpoint modpow_loop (fuel : nat) (result base exp modulus : Z) : Z :=
  match fuel with
  | O => result
  | S fuel =>
      if 0 <? exp then
        let result := if exp mod 2 =? 1 then (result * base) mod modulus else result in
        modpow_loop fuel result ((base * base) mod modulus) (exp ≫ 1) modulus
      else result
  end.
Definition dashu_modpow (base exponent modulus : Z) : Z :=
  if modulus =? 1 then 0
  else modpow_loop (Z.to_nat (Z.log2 exponent + 1)) 1 (base mod modulus) exponent modulus.

(** ** Short Weierstrass curves *)
Module CurveType.
Inductive t := Secp256k1 | Secp256r1 | Bn254 | Ed25519 | Bls12381.
End CurveType.

Module WeierstrassParameters.
Record t := mk {
  BaseField : FieldParameters.t;
  CURVE_TYPE : CurveType.t;
  A : list Z;
  B : list Z;
  generator : Z * Z;
  prime_group_order : Z;
  a_int : Z;
  b_int : Z }.
End WeierstrassParameters.
Abbreviation mkWeierstrass := WeierstrassParameters.mk.

Definition Bn254Parameters : WeierstrassParameters.t := mkWeierstrass Bn254BaseField CurveType.Bn254
  (replicate 32 0) (3 :: replicate 31 0) (1, 2)
  21888242871839275222246405745257275088548364400416034343698204186575808495617 0 3.
Definition Bls12381Parameters : WeierstrassParameters.t := mkWeierstrass Bls12381BaseField CurveType.Bls12381
  (replicate 48 0) (4 :: replicate 47 0)
  (3685416753713387016781088315183077757961620795782546409894578378688607592378376318836054947676345821548104185464507,
   1339506544944476473020471379941921221584933875938349620426543736416511423956333506472724655353366534992391756441569)
  52435875175126190479447740508185965837690552500527637822603658699938581184513 0 4.
Definition Secp256r1Parameters : WeierstrassParameters.t := mkWeierstrass Secp256r1BaseField CurveType.Secp256r1
  [252; 255; 255; 255; 255; 255; 255; 255; 255; 255; 255; 255; 0; 0; 0; 0; 0; 0; 0; 0; 0; 0;
   0; 0; 1; 0; 0; 0; 255; 255; 255; 255]
  [75; 96; 210; 39; 62; 60; 206; 59; 246; 176; 83; 204; 176; 6; 29; 101; 188; 134; 152; 118;
   85; 189; 235; 179; 231; 147; 58; 170; 216; 53; 198; 90]
  (48439561293906451759052585252797914202762949526041747995844080717082404635286,
   36134250956749795798585127919587881956611106672985015071877198253568414405109)
  (BigUint.from_slice [0xFC632551; 0xF3B9CAC2; 0xA7179E84; 0xBCE6FAAD; 0xFFFFFFFF; 0xFFFFFFFF; 0x00000000;
    0xFFFFFFFF])
  (BigUint.from_slice [0xFFFFFFFC; 0xFFFFFFFF; 0xFFFFFFFF; 0x00000000; 0x00000000; 0x00000000; 0x00000001;
    0xFFFFFFFF])
  (BigUint.from_slice [0x27D2604B; 0x3BCE3C3E; 0xCC53B0F6; 0x651D06B0; 0x769886BC; 0xB3EBBD55; 0xAA3A93E7;
    0x5AC635D8]).
Definition Secp256k1Parameters : WeierstrassParameters.t := mkWeierstrass Secp256k1BaseField CurveType.Secp256k1
  (replicate 32 0) (7 :: replicate 31 0)
  (55066263022277343669578718895168534326250603453777594175500187360389116729240,
   32670510020758816978083085130507043184471273380659243275938904335757337482424)
  (BigUint.from_slice [0xD0364141; 0xBFD25E8C; 0xAF48A03B; 0xBAAEDCE6; 0xFFFFFFFE; 0xFFFFFFFF; 0xFFFFFFFF;
    0xFFFFFFFF]) 0 7.

Section SwCurve.
Context (W : WeierstrassParameters.t).
Let p : Z := modulus (WeierstrassParameters.BaseField W).
Let a : Z := WeierstrassParameters.a_int W.

(** The branch without the feature [bigint-rug]. *)
Definition sw_add (self other : AffinePoint.t) : option AffinePoint.t :=
  let self_x := AffinePoint.x self in
  let self_y := AffinePoint.y self in
  let other_x := AffinePoint.x other in
  let other_y := AffinePoint.y other in
  if (self_x =? other_x) && (self_y =? other_y) then None else
  slope_numerator ← (fun n => n mod p) <$> BigUint.sub (p + other_y) self_y;
  slope_denominator ← (fun n => n mod p) <$> BigUint.sub (p + other_x) self_x;
  exponent ← BigUint.sub p 2;
  let slope_denom_inverse := dashu_modpow slope_denominator exponent p in
  let slope := (slope_numerator * slope_denom_inverse) mod p in
  d ← BigUint.sub (slope * slope + p + p) self_x;
  x_3n ← (fun n => n mod p) <$> BigUint.sub d other_x;
  e ← BigUint.sub (p + self_x) x_3n;
  y_3n ← (fun n => n mod p) <$> BigUint.sub (slope * e + p) self_y;
  Some (AffinePoint.mk x_3n y_3n).

Definition sw_double (self : AffinePoint.t) : option AffinePoint.t :=
  let self_x := AffinePoint.x self in
  let self_y := AffinePoint.y self in
  let slope_numerator := (a + self_x * self_x * 3) mod p in
  let slope_denominator := (self_y * 2) mod p in
  exponent ← BigUint.sub p 2;
  let slope_denom_inverse := dashu_modpow slope_denominator exponent p in
  let slope := (slope_numerator * slope_denom_inverse) mod p in
  d ← BigUint.sub (slope * slope + p + p) self_x;
  x_3n ← (fun n => n mod p) <$> BigUint.sub d self_x;
  e ← BigUint.sub (p + self_x) x_3n;
  y_3n ← (fun n => n mod p) <$> BigUint.sub (slope * e + p) self_y;
  Some (AffinePoint.mk x_3n y_3n).
End SwCurve.

(** ** Twisted Edwards curves *)
Module EdwardsParameters.
Record t := mk {
  BaseField : FieldParameters.t;
  D : list Z;
  generator : Z * Z;
  prime_group_order : Z }.
Definition d_biguint (W : t) : Z := BigUint.from_bytes_le (D W).
End EdwardsParameters.

Definition Ed25519Parameters : EdwardsParameters.t := EdwardsParameters.mk Ed25519BaseField
  [163; 120; 89; 19; 202; 77; 235; 117; 171; 216; 65; 65; 77; 10; 112; 0; 152; 232; 121; 119;
   121; 64; 199; 140; 115; 254; 111; 43; 238; 108; 3; 82]
  (15112221349535400772501151409588531511454012693041857206046113283949847762202,
   46316835694926478169428394003475163141307993866256225615783033603165251855960)
  (2 ^ 252 + 27742317777372353535851937790883648493).

(** ** Functions of other crates

    A point of k256 is an element of [k256_point]; encodings are uncompressed
    SEC1 bytes, and [None] is a failed [unwrap].  [deserialize_g1] gives the
    two coordinates. *)
Class CurveCrates := {
  k256_point : Type;
  k256_from_encoded_point : list Z -> option k256_point;
  k256_add : k256_point -> k256_point -> k256_point;
  k256_double : k256_point -> k256_point;
  k256_to_encoded_point : k256_point -> list Z;
  k256_decompress : list Z -> Z -> option k256_point;
  p256_decompress : list Z -> Z -> option (list Z);
  deserialize_g1 : list Z -> option (Z * Z);
  modpow : Z -> Z -> Z -> Z }.

Section Crates.
Context `{CurveCrates}.

(** Bytes 1 to 33 and 33 to 65 of an encoded point. *)
Definition encoded_coordinates (bytes : list Z) : option AffinePoint.t :=
  check! (65 <=? length bytes)%nat;
  Some (AffinePoint.mk (BigUint.from_bytes_be (take 32 (drop 1 bytes)))
                       (BigUint.from_bytes_be (take 32 (drop 33 bytes)))).

Definition sw_add_k256 (self other : AffinePoint.t) : option AffinePoint.t :=
  this_bytes ← AffinePoint.to_sec1_uncompressed Secp256k1BaseField self;
  other_bytes ← AffinePoint.to_sec1_uncompressed Secp256k1BaseField other;
  this ← k256_from_encoded_point this_bytes;
  other ← k256_from_encoded_point other_bytes;
  encoded_coordinates (k256_to_encoded_point (k256_add this other)).
Definition sw_double_k256 (self : AffinePoint.t) : option AffinePoint.t :=
  this_bytes ← AffinePoint.to_sec1_uncompressed Secp256k1BaseField self;
  this ← k256_from_encoded_point this_bytes;
  encoded_coordinates (k256_to_encoded_point (k256_double this)).

Definition secp256k1_decompress (bytes_be : list Z) (sign : Z) : option AffinePoint.t :=
  computed_point ← k256_decompress bytes_be sign;
  encoded_coordinates (k256_to_encoded_point computed_point).
Definition secp256r1_decompress (bytes_be : list Z) (sign : Z) : option AffinePoint.t :=
  point ← p256_decompress bytes_be sign;
  encoded_coordinates point.

Definition COMPRESSION_FLAG : Z := 128.
Definition Y_IS_ODD_FLAG : Z := 32.
Definition bls12381_decompress (bytes_be : list Z) (sign_bit : Z) : option AffinePoint.t :=
  check! (length bytes_be =? 48)%nat;
  let flags := if sign_bit =? 1 then Z.lor COMPRESSION_FLAG Y_IS_ODD_FLAG else COMPRESSION_FLAG in
  '(px, py) ← deserialize_g1 (alter (fun b => Z.lor b flags) 0%nat bytes_be);
  Some (AffinePoint.mk px py).

(** ** The operations on Edwards curves *)
Definition ed_add (W : EdwardsParameters.t) (self other : AffinePoint.t) : option AffinePoint.t :=
  let p := modulus (EdwardsParameters.BaseField W) in
  let x1 := AffinePoint.x self in
  let y1 := AffinePoint.y self in
  let x2 := AffinePoint.x other in
  let y2 := AffinePoint.y other in
  let x_3n := (x1 * y2 + y1 * x2) mod p in
  let y_3n := (y1 * y2 + x1 * x2) mod p in
  let all_xy := (x1 * y1 * x2 * y2) mod p in
  let dxy := (EdwardsParameters.d_biguint W * all_xy) mod p in
  exponent ← BigUint.sub p 2;
  let den_x := modpow ((1 + dxy) mod p) exponent p in
  d ← BigUint.sub (1 + p) dxy;
  let den_y := modpow (d mod p) exponent p in
  Some (AffinePoint.mk ((x_3n * den_x) mod p) ((y_3n * den_y) mod p)).
Definition ed_double (W : EdwardsParameters.t) (self : AffinePoint.t) : option AffinePoint.t := ed_add W self self.

(** The outer option is a panic, the inner one the [Option] that is returned. *)
Definition ed25519_sqrt (a : Z) : option (option Z) :=
  let modulus := modulus Ed25519BaseField in
  let beta := modpow a 7237005577332262213973186563042994240829374041602535252466099000494570602494 modulus in
  let sqrt_m1 := 19681161376707505956807079304988542015446066515923890162744021073123829784752 in
  let beta_squared := beta * beta mod modulus in
  neg_a ← BigUint.sub modulus a;
  let beta := if beta_squared =? neg_a then (beta * sqrt_m1) mod modulus else beta in
  let correct_sign_sqrt := beta_squared =? a in
  let flipped_sign_sqrt := beta_squared =? neg_a in
  if negb correct_sign_sqrt && negb flipped_sign_sqrt then Some None else
  if Z.land (default 0 (head (BigUint.to_bytes_le beta))) 1 =? 1
  then d ← BigUint.sub modulus beta; Some (Some (d mod modulus))
  else Some (Some beta).

Definition decompress (point_bytes : list Z) : option (option AffinePoint.t) :=
  last ← point_bytes !! 31%nat;
  let sign := last ≫ 7 =? 1 in
  let point_bytes := <[31%nat := Z.land last 127]> point_bytes in
  let modulus := modulus Ed25519BaseField in
  let y := BigUint.from_bytes_le point_bytes in
  let yy := (y * y) mod modulus in
  u ← (fun n => n mod modulus) <$> BigUint.sub (yy + modulus) 1;
  let v := (yy * EdwardsParameters.d_biguint Ed25519Parameters + 1) mod modulus in
  exponent ← BigUint.sub modulus 2;
  let v_inv := modpow v exponent modulus in
  let u_div_v := (u * v_inv) mod modulus in
  root ← ed25519_sqrt u_div_v;
  match root with
  | None => Some None
  | Some x =>
      if sign then d ← BigUint.sub modulus x; Some (Some (AffinePoint.mk (d mod modulus) y))
      else Some (Some (AffinePoint.mk x y))
  end.

(** ** The interface of a curve *)
Record EllipticCurve := mkCurve {
  curve_field : FieldParameters.t;
  CURVE_TYPE : CurveType.t;
  ec_add : AffinePoint.t -> AffinePoint.t -> option AffinePoint.t;
  ec_double : AffinePoint.t -> option AffinePoint.t }.

(** [impl_generic_ec_ops!]. *)
Definition SwCurve (W : WeierstrassParameters.t) : EllipticCurve :=
  mkCurve (WeierstrassParameters.BaseField W) (WeierstrassParameters.CURVE_TYPE W) (sw_add W) (sw_double W).
Definition Bn254 : EllipticCurve := SwCurve Bn254Parameters.
Definition Secp256r1 : EllipticCurve := SwCurve Secp256r1Parameters.
Definition Bls12381 : EllipticCurve := SwCurve Bls12381Parameters.
Definition Secp256k1 : EllipticCurve :=
  mkCurve Secp256k1BaseField CurveType.Secp256k1 sw_add_k256 sw_double_k256.
Definition Ed25519 : EllipticCurve :=
  mkCurve Ed25519BaseField CurveType.Ed25519 (ed_add Ed25519Parameters) (ed_double Ed25519Parameters).
End Crates.

(** ** Arithmetic modulo a prime *)
Record cong (p a b : Z) : Prop := cong_intro { cong_eq : a mod p = b mod p }.
#[export] Instance cong_equivalence p : Equivalence (cong p).
Proof. split; [intros a|intros a b [H]|intros a b c [H1] [H2]]; split; congruence. Qed.
#[export] Instance cong_add p : Proper (cong p ==> cong p ==> cong p) Z.add.
Proof. intros a a' [Ha] b b' [Hb]. split. rewrite Zplus_mod, Ha, Hb. symmetry. apply Zplus_mod. Qed.
#[export] Instance cong_mul p : Proper (cong p ==> cong p ==> cong p) Z.mul.
Proof. intros a a' [Ha] b b' [Hb]. split. rewrite Zmult_mod, Ha, Hb. symmetry. apply Zmult_mod. Qed.
#[export] Instance cong_sub p : Proper (cong p ==> cong p ==> cong p) Z.sub.
Proof. intros a a' [Ha] b b' [Hb]. split. rewrite Zminus_mod, Ha, Hb. symmetry. apply Zminus_mod. Qed.

Lemma cong_mod p a : cong p (a mod p) a.
Proof. split. apply Zmod_mod. Qed.
Lemma cong_shift p k a b : a = b + k * p -> cong p a b.
Proof. intros ->. split. apply Z_mod_plus_full. Qed.
Lemma cong_ring p a b : a = b -> cong p a b.
Proof. now intros ->. Qed.
Lemma cong_cancel p d u v : cong p (d * u) 1 -> cong p (d * v) 0 -> cong p v 0.
Proof.
  intros Hu Hv. transitivity (u * (d * v)).
  - transitivity ((d * u) * v); [now rewrite Hu, Z.mul_1_l|apply cong_ring; ring].
  - rewrite Hv. apply cong_ring. ring.
Qed.

Lemma modpow_loop_cong m fuel r b e :
  0 <= e < 2 ^ Z.of_nat fuel -> cong m (modpow_loop fuel r b e m) (r * b ^ e).
Proof.
  revert r b e. induction fuel as [|fuel IH]; intros r b e He; cbn [modpow_loop].
  - replace e with 0 by (cbn in He; lia). apply cong_ring. ring.
  - destruct (Z.ltb_spec 0 e) as [Hp|Hp]; [|replace e with 0 by lia; apply cong_ring; ring].
    rewrite Nat2Z.inj_succ, Z.pow_succ_r in He by lia.
    rewrite Z.shiftr_div_pow2 by lia. change (2 ^ 1) with 2. rewrite IH by lia_mod.
    assert (Hb : cong m (((b * b) mod m) ^ (e / 2)) (b ^ (2 * (e / 2)))).
    { split. rewrite Z.mod_pow_l, Z.pow_mul_r, Z.pow_2_r by lia_mod. done. }
    rewrite Hb. destruct (Z.eqb_spec (e mod 2) 1) as [Ho|Ho]; rewrite ?(cong_mod m); apply cong_ring.
    + rewrite (Z.div_mod e 2) at 2 by lia. rewrite Ho, Z.pow_add_r by lia_mod. ring.
    + rewrite (Z.div_mod e 2) at 2 by lia. replace (e mod 2) with 0 by lia_mod. now rewrite Z.add_0_r.
Qed.

Lemma modpow_loop_range m fuel r b e : 0 <= r < m -> 0 <= modpow_loop fuel r b e m < m.
Proof.
  revert r b e. induction fuel as [|fuel IH]; intros r b e Hr; cbn [modpow_loop]; [done|].
  destruct (0 <? e); [|done]. apply IH. destruct (e mod 2 =? 1); [apply Z.mod_pos_bound; lia|done].
Qed.

Lemma dashu_modpow_spec b e m : 1 < m -> 0 <= e -> dashu_modpow b e m = b ^ e mod m.
Proof.
  intros Hm He. unfold dashu_modpow. destruct (Z.eqb_spec m 1) as [|_]; [lia|].
  set (fuel := Z.to_nat (Z.log2 e + 1)).
  assert (Hf : 0 <= e < 2 ^ Z.of_nat fuel).
  { unfold fuel. rewrite Z2Nat.id by (pose proof (Z.log2_nonneg e); lia).
    destruct (Z.eq_dec e 0) as [->|]; [done|]. split; [done|]. apply Z.log2_spec. lia. }
  transitivity (modpow_loop fuel 1 (b mod m) e m mod m).
  - symmetry. apply Z.mod_small, modpow_loop_range. lia.
  - rewrite (cong_eq _ _ _ (modpow_loop_cong m fuel 1 (b mod m) e Hf)), Z.mul_1_l. apply Z.mod_pow_l.
Qed.

(** The inverse by Fermat's little theorem. *)
Lemma fermat_inverse p d : Z.prime p -> d mod p <> 0 -> cong p (d * dashu_modpow d (p - 2) p) 1.
Proof.
  intros Hp Hd. pose proof (Z.prime_ge_2 _ Hp). rewrite dashu_modpow_spec by lia. rewrite (cong_mod p).
  transitivity (d ^ (p - 1)).
  - apply cong_ring. replace (p - 1) with (Z.succ (p - 2)) by lia. now rewrite Z.pow_succ_r by lia.
  - split. rewrite Z.fermat_nz by done. symmetry. apply Z.mod_small. lia.
Qed.

(** ** The chord and tangent rule *)
Section GroupLaw.
Context (W : WeierstrassParameters.t).
Let p : Z := modulus (WeierstrassParameters.BaseField W).
Let a : Z := WeierstrassParameters.a_int W.
Let b : Z := WeierstrassParameters.b_int W.

Definition reduced (P : AffinePoint.t) : Prop := 0 <= AffinePoint.x P < p /\ 0 <= AffinePoint.y P < p.
Definition on_curve (P : AffinePoint.t) : Prop :=
  let '(AffinePoint.mk x y) := P in cong p (y * y) (x * x * x + a * x + b).

(** The third intersection of the line of slope [l] through [P] and [Q],
    mirrored. *)
Definition third_point (l : Z) (P Q R : AffinePoint.t) : Prop :=
  cong p (AffinePoint.x R) (l * l - AffinePoint.x P - AffinePoint.x Q) /\
  cong p (AffinePoint.y R) (l * (AffinePoint.x P - AffinePoint.x R) - AffinePoint.y P).
Definition is_sum (P Q R : AffinePoint.t) : Prop :=
  exists l, cong p (l * (AffinePoint.x Q - AffinePoint.x P)) (AffinePoint.y Q - AffinePoint.y P) /\
            third_point l P Q R.
Definition is_double (P R : AffinePoint.t) : Prop :=
  exists l, cong p (l * (2 * AffinePoint.y P)) (3 * (AffinePoint.x P * AffinePoint.x P) + a) /\
            third_point l P P R.

(** On a line of slope [l] through [P], [a] is determined by the two first
    coordinates. *)
Lemma third_point_on_curve l P Q R :
  on_curve P -> third_point l P Q R ->
  cong p a (l * (2 * AffinePoint.y P + l * (AffinePoint.x Q - AffinePoint.x P))
            - (AffinePoint.x P * AffinePoint.x P + AffinePoint.x P * AffinePoint.x Q + AffinePoint.x Q * AffinePoint.x Q)) ->
  on_curve R.
Proof.
  destruct P as [x1 y1], Q as [x2 y2], R as [x3 y3]. unfold third_point. cbn. intros HP [Hx Hy] Ha.
  assert (Hb : cong p b (y1 * y1 - x1 * x1 * x1 - a * x1)) by (rewrite HP; apply cong_ring; ring).
  rewrite Hy, Hb, Ha, Hx. apply cong_ring. ring.
Qed.

Lemma chord_coefficient l d x1 y1 x2 y2 :
  cong p ((x2 - x1) * d) 1 -> cong p (l * (x2 - x1)) (y2 - y1) ->
  cong p (y1 * y1) (x1 * x1 * x1 + a * x1 + b) -> cong p (y2 * y2) (x2 * x2 * x2 + a * x2 + b) ->
  cong p a (l * (2 * y1 + l * (x2 - x1)) - (x1 * x1 + x1 * x2 + x2 * x2)).
Proof.
  intros Hd Hl H1 H2.
  assert (H0 : cong p (l * (2 * y1 + l * (x2 - x1)) - (x1 * x1 + x1 * x2 + x2 * x2) - a) 0).
  { apply (cong_cancel p (x2 - x1) d); [exact Hd|].
    transitivity (y2 * y2 - y1 * y1 - (x2 - x1) * (x1 * x1 + x1 * x2 + x2 * x2 + a)).
    - transitivity (l * (x2 - x1) * (2 * y1 + l * (x2 - x1)) - (x2 - x1) * (x1 * x1 + x1 * x2 + x2 * x2 + a));
        [apply cong_ring; ring|]. rewrite Hl. apply cong_ring. ring.
    - rewrite H1, H2. apply cong_ring. ring. }
  rewrite <- (Z.sub_0_r (_ - _)), <- H0. apply cong_ring. ring.
Qed.

Context (Hprime : Z.prime p).

(** The coordinates both routines compute from the slope [l]. *)
Lemma third_coordinates l P Q :
  reduced P -> reduced Q ->
  exists R,
    (d ← BigUint.sub (l * l + p + p) (AffinePoint.x P);
     x_3n ← (fun n => n mod p) <$> BigUint.sub d (AffinePoint.x Q);
     e ← BigUint.sub (p + AffinePoint.x P) x_3n;
     y_3n ← (fun n => n mod p) <$> BigUint.sub (l mod p * e + p) (AffinePoint.y P);
     Some (AffinePoint.mk x_3n y_3n)) = Some R /\
    reduced R /\ third_point l P Q R.
Proof using Hprime.
  destruct P as [x1 y1], Q as [x2 y2]. unfold reduced, third_point. cbn. intros [? ?] [? ?].
  pose proof (Z.prime_ge_2 _ Hprime). pose proof (Z.square_nonneg l).
  rewrite sub_le by lia. cbn. rewrite sub_le by lia. cbn.
  set (x3 := (l * l + p + p - x1 - x2) mod p). assert (0 <= x3 < p) by (apply Z.mod_pos_bound; lia).
  rewrite sub_le by lia. cbn. assert (0 <= l mod p < p) by (apply Z.mod_pos_bound; lia).
  rewrite sub_le by nia. eexists. split; [reflexivity|]. cbn.
  split; [split; [done|apply Z.mod_pos_bound; lia]|]. split.
  - unfold x3. rewrite (cong_mod p). apply (cong_shift p 2). ring.
  - rewrite (cong_mod p), (cong_mod p l). apply (cong_shift p (l + 1)). ring.
Qed.

Lemma sw_add_correct P Q :
  reduced P -> reduced Q -> on_curve P -> on_curve Q -> AffinePoint.x P <> AffinePoint.x Q ->
  exists R, sw_add W P Q = Some R /\ reduced R /\ on_curve R /\ is_sum P Q R.
Proof using Hprime.
  intros HP HQ CP CQ Hx. pose proof (Z.prime_ge_2 _ Hprime).
  set (d := AffinePoint.x Q - AffinePoint.x P).
  assert (Hd : ((p + AffinePoint.x Q - AffinePoint.x P) mod p) mod p <> 0).
  { unfold reduced in *. rewrite Zmod_mod. intros E. apply Z.mod_divide in E; [|lia].
    apply (Z.divide_sub_r p _ p) in E; [|apply Z.divide_refl]. apply Z.divide_abs_r, Z.divide_pos_le in E; lia. }
  set (inv := dashu_modpow ((p + AffinePoint.x Q - AffinePoint.x P) mod p) (p - 2) p).
  assert (Hinv : cong p (d * inv) 1).
  { transitivity ((p + AffinePoint.x Q - AffinePoint.x P) mod p * inv); [|now apply fermat_inverse].
    rewrite (cong_mod p). symmetry. apply (cong_shift p inv). unfold d. ring. }
  set (l := (p + AffinePoint.y Q - AffinePoint.y P) mod p * inv).
  destruct (third_coordinates (l mod p) P Q HP HQ) as (R & HR & Rred & Rthird).
  assert (Hl : cong p (l mod p * d) (AffinePoint.y Q - AffinePoint.y P)).
  { rewrite (cong_mod p). unfold l. rewrite (cong_mod p).
    transitivity ((AffinePoint.y Q - AffinePoint.y P) * (d * inv)); [apply (cong_shift p (inv * d)); ring|].
    rewrite Hinv. apply cong_ring. ring. }
  exists R. split; [|split; [done|split; [|now exists (l mod p)]]].
  - unfold sw_add. destruct (Z.eqb_spec (AffinePoint.x P) (AffinePoint.x Q)) as [|_]; [done|]. cbn [andb].
    unfold reduced in *. rewrite !(sub_le (p + _)) by lia. cbn [fmap option_fmap option_map mbind option_bind].
    rewrite sub_le by lia. cbn [mbind option_bind]. fold inv l. rewrite <- HR, Zmod_mod. reflexivity.
  - eapply third_point_on_curve; [exact CP|exact Rthird|]. destruct P as [x1 y1], Q as [x2 y2].
    exact (chord_coefficient _ inv _ _ _ y2 Hinv Hl CP CQ).
Qed.

Lemma sw_double_correct P :
  2 < p -> reduced P -> on_curve P -> AffinePoint.y P <> 0 ->
  exists R, sw_double W P = Some R /\ reduced R /\ on_curve R /\ is_double P R.
Proof using Hprime.
  intros H2 HP CP Hy. set (d := AffinePoint.y P * 2).
  assert (Hd : (d mod p) mod p <> 0).
  { unfold reduced in HP. rewrite Zmod_mod. intros E. apply Z.mod_divide in E; [|lia].
    apply Z.divide_prime_mul in E as [E|E]; [| |done]; apply Z.divide_pos_le in E; lia. }
  set (inv := dashu_modpow (d mod p) (p - 2) p).
  assert (Hinv : cong p (d * inv) 1).
  { transitivity (d mod p * inv); [now rewrite (cong_mod p)|now apply fermat_inverse]. }
  set (l := (a + AffinePoint.x P * AffinePoint.x P * 3) mod p * inv).
  destruct (third_coordinates (l mod p) P P HP HP) as (R & HR & Rred & Rthird).
  assert (Hl : cong p (l mod p * (2 * AffinePoint.y P)) (3 * (AffinePoint.x P * AffinePoint.x P) + a)).
  { rewrite (cong_mod p). unfold l. rewrite (cong_mod p).
    transitivity ((a + AffinePoint.x P * AffinePoint.x P * 3) * (d * inv)); [apply cong_ring; unfold d; ring|].
    rewrite Hinv. apply cong_ring. ring. }
  exists R. split; [|split; [done|split; [|now exists (l mod p)]]].
  - unfold sw_double. fold p a d inv l. rewrite sub_le by lia. cbn [mbind option_bind].
    rewrite <- HR, Zmod_mod. reflexivity.
  - eapply third_point_on_curve; [exact CP|exact Rthird|]. symmetry.
    transitivity (l mod p * (2 * AffinePoint.y P) - 3 * (AffinePoint.x P * AffinePoint.x P));
      [apply cong_ring; ring|]. rewrite Hl. apply cong_ring. ring.
Qed.
End GroupLaw.

(** ** Points in memory *)
Lemma chunk_words n v : 0 <= v ->
  (fun i => BigUint.from_bytes_le (take 8 (drop (8 * i) (limbs 8 (8 * n) v)))) <$> seq 0 n = limbs 64 n v.
Proof.
  revert v. induction n as [|n IH]; intros v Hv; [done|]. cbn [seq]. rewrite <- fmap_S_seq.
  replace (8 * S n)%nat with (8 + 8 * n)%nat by lia. rewrite limbs_app by done. rewrite fmap_cons, <- list_fmap_compose.
  change (limbs 64 (S n) v) with (v mod 2 ^ 64 :: limbs 64 n (v / 2 ^ 64)).
  pose proof (limbs_length 8 8 v) as H8. f_equal.
  - rewrite Nat.mul_0_r, drop_0, take_app_le, take_ge by lia. now apply (radix_limbs 8 8).
  - rewrite <- IH by (apply Z.div_pos; lia). apply list_fmap_ext. intros i j _. cbn beta. unfold compose.
    rewrite drop_app_ge by lia. rewrite H8. do 3 f_equal. lia.
Qed.

(** The two coordinates, each in [n] words. *)
Definition point_words (n : nat) (p : AffinePoint.t) : list Z :=
  limbs 64 n (AffinePoint.x p) ++ limbs 64 n (AffinePoint.y p).

Lemma to_words_limbs F n p :
  NB_LIMBS F = (8 * n)%nat -> 0 <= AffinePoint.x p -> 0 <= AffinePoint.y p ->
  AffinePoint.to_words_le F p = point_words n p.
Proof.
  intros HF Hx Hy. unfold AffinePoint.to_words_le, WordsCurvePoint. rewrite HF.
  replace (8 * n / 4)%nat with (2 * n)%nat by (apply Nat.div_unique_exact; lia).
  replace (2 * n / 2)%nat with n by (apply Nat.div_unique_exact; lia).
  replace (2 * n * 8 / 2)%nat with (8 * n)%nat by (apply Nat.div_unique_exact; lia).
  rewrite !bytes_pad, !chunk_words by done. done.
Qed.

Lemma from_words_value n l :
  length l = (2 * n)%nat -> Forall (fits 64) l ->
  AffinePoint.from_words_le l = AffinePoint.mk (value (take n l)) (value (drop n l)).
Proof.
  intros Hl Hf. unfold AffinePoint.from_words_le. rewrite Hl.
  replace (2 * n / 2)%nat with n by (apply Nat.div_unique_exact; lia).
  rewrite !value_bytes; [done|now apply Forall_drop|now apply Forall_take].
Qed.

(** The constants: the bytes of each modulus and coefficient are those of the
    integers used next to them, and the generators are on their curves. *)
Lemma weierstrass_parameters_consistent :
  Forall (fun W =>
    BigUint.from_bytes_le (MODULUS (WeierstrassParameters.BaseField W)) = modulus (WeierstrassParameters.BaseField W) /\
    BigUint.from_bytes_le (WeierstrassParameters.A W) = WeierstrassParameters.a_int W /\
    BigUint.from_bytes_le (WeierstrassParameters.B W) = WeierstrassParameters.b_int W /\
    on_curve W (AffinePoint.mk (WeierstrassParameters.generator W).1 (WeierstrassParameters.generator W).2))
  [Bn254Parameters; Bls12381Parameters; Secp256r1Parameters; Secp256k1Parameters].
Proof. repeat apply Forall_cons_2; [..|apply Forall_nil_2]; (split; [|split; [|split; [|split]]]); vm_compute; reflexivity. Qed.
Lemma ed25519_parameters_consistent :
  BigUint.from_bytes_le (MODULUS Ed25519BaseField) = modulus Ed25519BaseField /\
  let '(gx, gy) := EdwardsParameters.generator Ed25519Parameters in
  cong (modulus Ed25519BaseField) (gy * gy - gx * gx)
    (1 + EdwardsParameters.d_biguint Ed25519Parameters * (gx * gx) * (gy * gy)).
Proof. split; [|split]; vm_compute; reflexivity. Qed.
