(* ===== verification/Pocklington.v ===== *)
(** * Pocklington: primality certificates

    Pocklington's criterion: [n] is prime when [n - 1] has a divisor [F] with
    [n < (F + 1) ^ 2] and, for every prime power [q ^ e] of [F], a base [a]
    with [a ^ (n - 1) = 1] modulo [n] and [a ^ ((n - 1) / q) - 1] invertible.
    It shows that the base field of BN254 is a prime field. *)
From Stdlib Require Import ZArith Lia Bool Znumtheory ZmodInv.
From stdpp Require Import base numbers option list.
From S2P Require Import Prelude BigUint Curves.

Lemma cong_divide p a b : cong p a b <-> (p | a - b).
Proof.
  split.
  - intros [H]. destruct (Z.eq_dec p 0) as [->|Hp].
    + rewrite !Zmod_0_r in H. subst. rewrite Z.sub_diag. apply Z.divide_0_r.
    + apply Z.mod_divide; [done|]. rewrite Zminus_mod, H, Z.sub_diag. apply Zmod_0_l.
  - intros [k Hk]. apply (cong_shift p k). lia.
Qed.
Lemma cong_weaken n p a b : (p | n) -> cong n a b -> cong p a b.
Proof. rewrite !cong_divide. intros H1 H2. etransitivity; eassumption. Qed.

Lemma cong_pow p a b k : cong p a b -> cong p (a ^ k) (b ^ k).
Proof. intros [H]. split. rewrite <- (Z.mod_pow_l a), H. apply Z.mod_pow_l. Qed.
Lemma cong_pow_1 p a i k : 0 <= i -> 0 <= k -> cong p (a ^ i) 1 -> cong p (a ^ (i * k)) 1.
Proof. intros Hi Hk H. rewrite Z.pow_mul_r by done. rewrite <- (Z.pow_1_l k Hk). now apply cong_pow. Qed.

(** Two exponents that give 1 have a greatest common divisor that does. *)
Lemma cong_pow_gcd p a i j : 0 < i -> 0 < j -> cong p (a ^ i) 1 -> cong p (a ^ j) 1 -> cong p (a ^ Z.gcd i j) 1.
Proof.
  intros Hi Hj H1 H2. destruct (Z.gcd_bezout i j (Z.gcd i j) eq_refl) as (u & v & Hb).
  set (t := Z.abs u + Z.abs v). pose proof (Z.gcd_nonneg i j) as Hg.
  assert (Hu : 0 <= u + t * j) by nia. assert (Hv : 0 <= t * i - v) by nia.
  assert (He : i * (u + t * j) = Z.gcd i j + j * (t * i - v)) by lia.
  assert (Hl : cong p (a ^ (i * (u + t * j))) 1).
  { apply cong_pow_1; [lia|done..]. }
  assert (Hr : cong p (a ^ (j * (t * i - v))) 1) by (apply cong_pow_1; [lia|done..]).
  rewrite He, Z.pow_add_r in Hl by (try apply Z.mul_nonneg_nonneg; lia). now rewrite Hr, Z.mul_1_r in Hl.
Qed.

Lemma pocklington_divisor n p q e a :
  Z.prime p -> (p | n) -> 1 < n -> Z.prime q -> 0 < e -> (q ^ e | n - 1) ->
  cong n (a ^ (n - 1)) 1 -> Z.gcd (a ^ ((n - 1) / q) - 1) n = 1 -> (q ^ e | p - 1).
Proof.
  intros Hp Hpn Hn Hq He [f Hf] Ha Hg. pose proof (Z.prime_ge_2 _ Hp). pose proof (Z.prime_ge_2 _ Hq).
  apply (cong_weaken n p) in Ha; [|done].
  assert (Hpa : a mod p <> 0).
  { intros Hz. assert (Hz0 : cong p (a ^ (n - 1)) (0 ^ (n - 1))) by (apply cong_pow; split; now rewrite Zmod_0_l).
    rewrite Z.pow_0_l, Ha in Hz0 by lia. destruct Hz0 as [Hz0]. rewrite Zmod_0_l, Z.mod_small in Hz0; lia. }
  assert (Hfermat : cong p (a ^ (p - 1)) 1).
  { split. rewrite Z.fermat_nz by done. rewrite Z.mod_small; lia. }
  pose proof (cong_pow_gcd p a (n - 1) (p - 1) ltac:(lia) ltac:(lia) Ha Hfermat) as Hgcd.
  set (g := Z.gcd (n - 1) (p - 1)) in *.
  destruct (Z.gcd_divide_l (n - 1) (p - 1)) as [h Hh]. fold g in Hh.
  assert (Hg0 : 0 <= g) by apply Z.gcd_nonneg. assert (Hgz : g <> 0) by (intros Hz; rewrite Hz, Z.mul_0_r in Hh; lia).
  assert (Hh0 : 0 < h) by (apply (Z.mul_pos_cancel_r h g); lia).
  assert (Hqh : ~ (q | h)).
  { intros [k Hk]. assert (Hk0 : 0 <= k) by (apply (Z.mul_nonneg_cancel_r k q); lia).
    assert (Hd : (p | a ^ ((n - 1) / q) - 1)).
    { apply cong_divide. rewrite Hh, Hk. replace (k * q * g) with (g * k * q) by ring. rewrite Z.div_mul by lia.
      apply cong_pow_1; [lia|done..]. }
    assert (H1 : (p | 1)) by (rewrite <- Hg; now apply Z.gcd_greatest). apply Z.divide_pos_le in H1; lia. }
  apply Z.coprime_prime_l in Hqh; [|done]. apply (Z.coprime_pow_l q h e) in Hqh; [|lia].
  etransitivity; [|apply (Z.gcd_divide_r (n - 1) (p - 1))]. fold g.
  apply (Z.gauss (q ^ e) h g); [|exact Hqh]. rewrite <- Hh, Hf. apply Z.divide_factor_r.
Qed.

Lemma prime_factor d : 1 < d -> exists p, Z.prime p /\ (p | d).
Proof.
  intros Hd. assert (H0 : 0 <= d) by lia. revert Hd. pattern d. apply Z_lt_induction; [clear d H0|done].
  intros d IH Hd. destruct (prime_dec d) as [Hp|Hp].
  - exists d. split; [now apply prime_alt|apply Z.divide_refl].
  - apply not_prime_divide in Hp as (m & Hm & Hdiv); [|done]. destruct (IH m) as (p & Hp & Hpm); [lia|lia|].
    exists p. split; [done|]. etransitivity; eassumption.
Qed.

(** [n] is prime when its prime factors are above its square root. *)
Lemma large_factors_prime n F : 1 < n -> n < (F + 1) * (F + 1) -> 0 <= F ->
  (forall p, Z.prime p -> (p | n) -> F < p) -> Z.prime n.
Proof.
  intros Hn HF HF0 Hall. split; [done|]. intros m Hm [k Hk].
  assert (Hk1 : 1 < k) by nia.
  destruct (Z_le_gt_dec m k) as [Hle|Hgt].
  - destruct (prime_factor m) as (p & Hp & Hpm); [lia|]. pose proof (Z.divide_pos_le p m ltac:(lia) Hpm).
    assert (F < p) by (apply Hall; [done|]; etransitivity; [exact Hpm|]; rewrite Hk; apply Z.divide_factor_r).
    pose proof (Z.mul_le_mono_nonneg (F + 1) k (F + 1) m). lia.
  - destruct (prime_factor k) as (p & Hp & Hpk); [lia|]. pose proof (Z.divide_pos_le p k ltac:(lia) Hpk).
    assert (F < p) by (apply Hall; [done|]; etransitivity; [exact Hpk|]; rewrite Hk; apply Z.divide_factor_l).
    pose proof (Z.mul_le_mono_nonneg (F + 1) k (F + 1) m). lia.
Qed.

(** ** Certificates *)

(** A prime [q], its exponent in the divisor of [n - 1], and a base. *)
Record factor := mkFactor { fac_q : Z; fac_e : Z; fac_a : Z }.
Definition product (l : list factor) : Z := foldr (fun f acc => fac_q f ^ fac_e f * acc) 1 l.
Definition check_factor (n : Z) (f : factor) : bool :=
  let b := dashu_modpow (fac_a f) ((n - 1) / fac_q f) n in
  (0 <? fac_e f) && ((n - 1) mod fac_q f ^ fac_e f =? 0) && (dashu_modpow b (fac_q f) n =? 1) && (Z.gcd (b - 1) n =? 1).
Definition check (n : Z) (l : list factor) : bool :=
  (1 <? n) && (n <? (product l + 1) * (product l + 1)) && forallb (check_factor n) l
  && bool_decide (NoDup (fac_q <$> l)).

Lemma gcd_sub_mod x y n : n <> 0 -> Z.gcd (x mod n - y) n = Z.gcd (x - y) n.
Proof. intros Hn. now rewrite !(Z.gcd_comm _ n), <- (Z.gcd_mod (x mod n - y) n), <- (Z.gcd_mod (x - y) n), Zminus_mod_idemp_l by done. Qed.

Lemma check_factor_divisor n p f :
  1 < n -> Z.prime (fac_q f) -> check_factor n f = true -> Z.prime p -> (p | n) -> (fac_q f ^ fac_e f | p - 1).
Proof.
  intros Hn Hq Hc Hp Hpn. destruct f as [q e a]. unfold check_factor in Hc. cbn [fac_q fac_e fac_a] in *.
  rewrite !andb_true_iff, Z.ltb_lt, !Z.eqb_eq in Hc. destruct Hc as [[[He Hd] Hb] Hg].
  pose proof (Z.prime_ge_2 _ Hq). assert (Hqe : 0 < q ^ e) by (apply Z.pow_pos_nonneg; lia).
  apply Z.mod_divide in Hd; [|lia]. assert (Hdq : (q | n - 1)).
  { etransitivity; [|exact Hd]. replace e with (Z.succ (e - 1)) by lia. rewrite Z.pow_succ_r by lia. apply Z.divide_factor_l. }
  destruct Hdq as [k Hk]. assert (Hk0 : 0 <= k) by (apply (Z.mul_nonneg_cancel_r k q); lia).
  assert (Hkq : (n - 1) / q = k) by (rewrite Hk; apply Z.div_mul; lia). rewrite Hkq in *.
  rewrite !(dashu_modpow_spec _ _ n), Z.mod_pow_l, <- Z.pow_mul_r in Hb by lia.
  eapply pocklington_divisor with (n := n) (a := a); [done..| |].
  - split. rewrite Hk, Hb. symmetry. apply Z.mod_small. lia.
  - rewrite dashu_modpow_spec, gcd_sub_mod in Hg by lia. now rewrite Hkq.
Qed.

Lemma coprime_mul_divide a b m : Z.coprime a b -> (a | m) -> (b | m) -> (a * b | m).
Proof.
  intros Hc [k Hk] Hb. rewrite Hk, (Z.mul_comm k). apply Z.mul_divide_mono_l. apply (Z.gauss b a k); [|unfold Z.coprime; now rewrite Z.gcd_comm].
  now rewrite (Z.mul_comm a), <- Hk.
Qed.

(** Powers of distinct primes that divide [m] have a product that does. *)
Lemma product_divide m l :
  Forall (fun f => Z.prime (fac_q f) /\ 0 < fac_e f /\ (fac_q f ^ fac_e f | m)) l -> NoDup (fac_q <$> l) -> (product l | m).
Proof.
  induction 1 as [|f l (Hq & He & Hd) Hl IH]; intros Hnd; [apply Z.divide_1_l|]. apply NoDup_cons in Hnd as [Hin Hnd].
  cbn [product foldr]. apply coprime_mul_divide; [|exact Hd|now apply IH]. clear IH Hd Hnd.
  apply Z.coprime_pow_l; [lia|]. induction Hl as [|g l (Hg & Heg & _) Hl IH]; [apply Z.coprime_1_r|].
  apply not_elem_of_cons in Hin as [Hne Hin]. apply Z.coprime_mul_r; [|now apply IH].
  apply Z.coprime_pow_r; [lia|]. apply Z.coprime_prime_l; [done|]. intros ?%Z.divide_prime_prime; done.
Qed.

Lemma check_prime n l : Forall (fun f => Z.prime (fac_q f)) l -> check n l = true -> Z.prime n.
Proof.
  intros Hl Hc. unfold check in Hc. rewrite !andb_true_iff, !Z.ltb_lt, forallb_forall, bool_decide_eq_true in Hc.
  destruct Hc as [[[Hn HF] Hall] Hnd].
  assert (Hpos : 0 <= product l).
  { clear - Hl. induction Hl as [|f l Hq Hl IH]; cbn [product foldr]; [lia|]. fold (product l).
    apply Z.mul_nonneg_nonneg; [|done]. apply Z.pow_nonneg. pose proof (Z.prime_ge_2 _ Hq). lia. }
  apply (large_factors_prime n (product l)); [done..|]. intros p Hp Hpn. pose proof (Z.prime_ge_2 _ Hp).
  assert (Hd : (product l | p - 1)); [|apply Z.divide_pos_le in Hd; lia].
  apply product_divide; [|done]. rewrite Forall_forall in Hl |- *. intros f Hf. pose proof (Hl f Hf) as Hq.
  assert (Hcf : check_factor n f = true) by now apply Hall, list_elem_of_In.
  split; [done|]. split; [|now apply (check_factor_divisor n)].
  unfold check_factor in Hcf. rewrite !andb_true_iff, Z.ltb_lt in Hcf. apply Hcf.
Qed.

(** ** The base field of BN254 *)

Lemma small_prime n : 1 < n -> forallb (fun m => negb (n mod m =? 0)) (seqZ 2 (Z.sqrt n - 1)) = true -> Z.prime n.
Proof.
  intros Hn Hall. pose proof (Z.sqrt_spec n ltac:(lia)) as [_ Hs].
  apply (large_factors_prime n (Z.sqrt n)); [done|exact Hs|apply Z.sqrt_nonneg|]. intros p Hp Hd. pose proof (Z.prime_ge_2 _ Hp).
  destruct (Z_lt_le_dec (Z.sqrt n) p) as [|Hle]; [done|]. rewrite forallb_forall in Hall.
  specialize (Hall p). rewrite negb_true_iff, Z.eqb_neq in Hall. exfalso. apply Hall.
  - apply list_elem_of_In, elem_of_seqZ. lia.
  - apply Z.mod_divide; [lia|done].
Qed.

Ltac by_factors l := apply (check_prime _ l); [repeat constructor; cbn [fac_q]|vm_compute; reflexivity].
Ltac by_trial := apply small_prime; [lia|vm_compute; reflexivity].

Lemma prime_1263766531 : Z.prime 1263766531.
Proof. by_factors [mkFactor 3557 1 2; mkFactor 911 1 2]; by_trial. Qed.
Lemma prime_35385462869 : Z.prime 35385462869.
Proof. by_factors [mkFactor 1263766531 1 2]. apply prime_1263766531. Qed.
Lemma prime_2480874801745591 : Z.prime 2480874801745591.
Proof. by_factors [mkFactor 35385462869 1 2]. apply prime_35385462869. Qed.
Lemma prime_173171039 : Z.prime 173171039.
Proof. by_factors [mkFactor 13327 1 2]. by_trial. Qed.
Lemma prime_134 : Z.prime 13427688667394608761327070753331941386769.
Proof.
  by_factors [mkFactor 2480874801745591 1 2; mkFactor 173171039 1 2]; [apply prime_2480874801745591|apply prime_173171039].
Qed.

Theorem bn254_prime : Z.prime (FieldParameters.modulus Bn254BaseField).
Proof. by_factors [mkFactor 13427688667394608761327070753331941386769 1 2]. apply prime_134. Qed.
