(* ===== verification/PagedMemory.v ===== *)
(** * PagedMemory: the executor's memory

    The two-level page table and the register file of
    [core/executor/src/memory.rs]: [PagedMemory] keeps pages of [2^18]
    optional values in allocation order and an index from the upper bits of
    an address to a page.  [repr] relates a [Memory] to a finite map over
    locations; [memory_refines_map] shows that every sequence of operations
    behaves as the operations of that map, and the map is what the executor's
    state holds. *)
From Stdlib Require Import ZArith Lia Bool.
From stdpp Require Import base numbers option list gmap.
From S2P Require Import Prelude.

Definition MAX_LOG_ADDR : Z := 40.
Definition LOG_PAGE_LEN : Z := 18.
Definition PAGE_LEN : Z := 1 ≪ LOG_PAGE_LEN.
Definition MAX_PAGE_COUNT : Z := (1 ≪ MAX_LOG_ADDR) / 8 / PAGE_LEN.
Definition NO_PAGE : Z := 2 ^ 32 - 1.
Definition PAGE_MASK : Z := PAGE_LEN - 1.
Definition NUM_IGNORED_LOWER_BITS : Z := 3.

(** [v[i]] on a vector: [None] is the out-of-bounds panic. *)
Definition at_index {A} (l : list A) (i : Z) : option A := l !! Z.to_nat i.

(** ** The page table *)
Module PagedMemory.

Record t (V : Type) := mk { page_table : list (list (option V)); index : list Z }.
Arguments mk {V} _ _.
Arguments page_table {V} _.
Arguments index {V} _.

Definition compress_addr (addr : Z) : Z := addr ≫ NUM_IGNORED_LOWER_BITS.
Definition decompress_addr (addr : Z) : Z := u64 (addr ≪ NUM_IGNORED_LOWER_BITS).

Definition indices (addr : Z) : Z * Z :=
  let i := compress_addr addr in (i ≫ LOG_PAGE_LEN, Z.land i PAGE_MASK).

Section Ops.
Context {V : Type}.
Implicit Types m : t V.

Definition NewPage_new : list (option V) := replicate (Z.to_nat PAGE_LEN) None.

Definition new_preallocated : t V := mk [] (replicate (Z.to_nat MAX_PAGE_COUNT) NO_PAGE).

(** The place [page_table[page].0[lower]], to which the code takes references. *)
Definition read_slot m (s : Z * Z) : option (option V) :=
  p ← at_index (page_table m) s.1; at_index p s.2.
Definition write_slot m (s : Z * Z) (v : option V) : t V :=
  mk (alter (<[Z.to_nat s.2 := v]>) (Z.to_nat s.1) (page_table m)) (index m).

Definition get m (addr : Z) : option (option V) :=
  let '(upper, lower) := indices addr in
  i ← at_index (index m) upper;
  if i =? NO_PAGE then Some None else read_slot m (i, lower).

(** The reference is the place and the value it holds. *)
Definition get_mut m (addr : Z) : option (option ((Z * Z) * V)) :=
  let '(upper, lower) := indices addr in
  i ← at_index (index m) upper;
  if i =? NO_PAGE then Some None else
  o ← read_slot m (i, lower);
  Some (match o with Some v => Some ((i, lower), v) | None => None end).

(** Push a page and record it in the index. *)
Definition push_page m (upper : Z) : t V :=
  mk (page_table m ++ [NewPage_new])
     (<[Z.to_nat upper := u32 (Z.of_nat (length (page_table m)))]> (index m)).

Definition insert m (addr : Z) (value : V) : option (option V * t V) :=
  let '(upper, lower) := indices addr in
  i ← at_index (index m) upper;
  let '(i, m) :=
    if i =? NO_PAGE then (u32 (Z.of_nat (length (page_table m))), push_page m upper) else (i, m) in
  old ← read_slot m (i, lower);
  Some (old, write_slot m (i, lower) (Some value)).

Definition remove m (addr : Z) : option (option V * t V) :=
  let '(upper, lower) := indices addr in
  i ← at_index (index m) upper;
  if i =? NO_PAGE then Some (None, m) else
  old ← read_slot m (i, lower);
  Some (old, write_slot m (i, lower) None).

(** ** Entries: a vacant place, or an occupied one with its value *)
Inductive Entry :=
| Vacant (s : Z * Z)
| Occupied (s : Z * Z) (v : V).

Definition entry m (addr : Z) : option (Entry * t V) :=
  let '(upper, lower) := indices addr in
  i ← at_index (index m) upper;
  if i =? NO_PAGE then
    let i := Z.of_nat (length (page_table m)) in
    let m := push_page m upper in
    _ ← read_slot m (i, lower);
    Some (Vacant (i, lower), m)
  else
    o ← read_slot m (i, lower);
    Some (match o with Some v => Occupied (i, lower) v | None => Vacant (i, lower) end, m).

(** The returned reference is the value it points to, after the call. *)
Definition or_insert (e : Entry) m (default : V) : V * t V :=
  match e with
  | Vacant s => (default, write_slot m s (Some default))
  | Occupied _ v => (v, m)
  end.
Definition or_insert_with (e : Entry) m (default : unit -> V) : V * t V :=
  match e with
  | Vacant s => let v := default tt in (v, write_slot m s (Some v))
  | Occupied _ v => (v, m)
  end.
Definition and_modify (e : Entry) m (f : V -> V) : Entry * t V :=
  match e with
  | Vacant _ => (e, m)
  | Occupied s v => (Occupied s (f v), write_slot m s (Some (f v)))
  end.

(** ** Iteration *)
Definition enumerate {A} (l : list A) : list (Z * A) :=
  imap (fun i x => (Z.of_nat i, x)) l.

Definition keys m : option (list Z) :=
  ks ← mapM (fun '(i, idx) =>
    p ← at_index (page_table m) idx;
    Some (omap (fun '(lower, v) => _ ← v; Some (decompress_addr ((i ≪ LOG_PAGE_LEN) + lower)))
               (enumerate p)))
    (filter (fun '(_, i) => i <> NO_PAGE) (enumerate (index m)));
  Some (concat ks).

Definition exact_len m : option Z :=
  ls ← mapM (fun idx => p ← at_index (page_table m) idx;
                        Some (Z.of_nat (length (filter is_Some p))))
            (filter (fun i => i <> NO_PAGE) (index m));
  Some (foldr Z.add 0 ls).

Definition estimate_len m : Z :=
  Z.of_nat (length (filter (fun i => i <> NO_PAGE) (index m))) * PAGE_LEN.

Definition clear m : t V := mk [] (replicate (length (index m)) NO_PAGE).

(** [from_iter]: insert one by one into an empty memory. *)
Definition from_iter (l : list (Z * V)) : option (t V) :=
  foldl (fun om '(k, v) => m ← om; '(_, m) ← insert m k v; Some m) (Some new_preallocated) l.

(** [into_iter]: [mem::take] empties each page as it is consumed. *)
Fixpoint consume (pages : list (list (option V))) (l : list (Z * Z)) : option (list (Z * V)) :=
  match l with
  | [] => Some []
  | (i, idx) :: l =>
      p ← at_index pages idx;
      rest ← consume (<[Z.to_nat idx := []]> pages) l;
      Some (omap (fun '(lower, v) => v ← v; Some (decompress_addr ((i ≪ LOG_PAGE_LEN) + lower), v))
                 (enumerate p) ++ rest)
  end.
Definition into_iter m : option (list (Z * V)) :=
  consume (page_table m) (filter (fun '(_, i) => i <> NO_PAGE) (enumerate (index m))).
End Ops.
Arguments Entry : clear implicits.
End PagedMemory.

(** ** The register file *)
Module Registers.
Section Ops.
Context {V : Type}.
Implicit Types r : list (option V).

Definition default : list (option V) := replicate 32 None.
Definition get r (addr : Z) : option (option V) := at_index r addr.
Definition insert r (addr : Z) (value : V) : option (option V * list (option V)) :=
  old ← at_index r addr; Some (old, <[Z.to_nat addr := Some value]> r).
Definition remove r (addr : Z) : option (option V * list (option V)) :=
  old ← at_index r addr; Some (old, <[Z.to_nat addr := None]> r).
Definition clear r : list (option V) := replicate (length r) None.

Inductive Entry :=
| Vacant (i : Z)
| Occupied (i : Z) (v : V).
Definition entry r (addr : Z) : option Entry :=
  o ← at_index r addr;
  Some (match o with Some v => Occupied addr v | None => Vacant addr end).
Definition or_insert (e : Entry) r (default : V) : V * list (option V) :=
  match e with
  | Vacant i => (default, <[Z.to_nat i := Some default]> r)
  | Occupied _ v => (v, r)
  end.
Definition and_modify (e : Entry) r (f : V -> V) : Entry * list (option V) :=
  match e with
  | Vacant _ => (e, r)
  | Occupied i v => (Occupied i (f v), <[Z.to_nat i := Some (f v)]> r)
  end.
Definition into_iter r : list (Z * V) :=
  omap (fun '(i, v) => v ← v; Some (i, v)) (PagedMemory.enumerate r).
End Ops.
Arguments Entry : clear implicits.
End Registers.

(** ** The memory: registers below 32, pages above *)
Module Memory.

Record t (V : Type) := mk { registers : list (option V); page_table : PagedMemory.t V }.
Arguments mk {V} _ _.
Arguments registers {V} _.
Arguments page_table {V} _.

Section Ops.
Context {V : Type}.
Implicit Types m : t V.

Definition new_preallocated : t V := mk Registers.default PagedMemory.new_preallocated.

Definition get m (addr : Z) : option (option V) :=
  if addr <? 32 then Registers.get (registers m) addr else PagedMemory.get (page_table m) addr.

Definition insert m (addr : Z) (value : V) : option (option V * t V) :=
  if addr <? 32 then '(old, r) ← Registers.insert (registers m) addr value; Some (old, mk r (page_table m))
  else '(old, p) ← PagedMemory.insert (page_table m) addr value; Some (old, mk (registers m) p).

Definition remove m (addr : Z) : option (option V * t V) :=
  if addr <? 32 then '(old, r) ← Registers.remove (registers m) addr; Some (old, mk r (page_table m))
  else '(old, p) ← PagedMemory.remove (page_table m) addr; Some (old, mk (registers m) p).

(** [entry(addr).or_insert(default)] and [entry(addr).and_modify(f)]. *)
Definition entry_or_insert m (addr : Z) (default : V) : option (V * t V) :=
  if addr <? 32 then
    e ← Registers.entry (registers m) addr;
    let '(v, r) := Registers.or_insert e (registers m) default in Some (v, mk r (page_table m))
  else
    '(e, p) ← PagedMemory.entry (page_table m) addr;
    let '(v, p) := PagedMemory.or_insert e p default in Some (v, mk (registers m) p).

Definition entry_and_modify m (addr : Z) (f : V -> V) : option (t V) :=
  if addr <? 32 then
    e ← Registers.entry (registers m) addr;
    Some (mk (Registers.and_modify e (registers m) f).2 (page_table m))
  else
    '(e, p) ← PagedMemory.entry (page_table m) addr;
    Some (mk (registers m) (PagedMemory.and_modify e p f).2).

Definition clear m : t V := mk (Registers.clear (registers m)) (PagedMemory.clear (page_table m)).

Definition from_iter (l : list (Z * V)) : option (t V) :=
  foldl (fun om '(k, v) => m ← om; '(_, m) ← insert m k v; Some m) (Some new_preallocated) l.

Definition into_iter m : option (list (Z * V)) :=
  p ← PagedMemory.into_iter (page_table m);
  Some (Registers.into_iter (registers m) ++ p).
End Ops.
End Memory.

(** ** The specification: a finite map over locations

    A location is a register ([inl]) or a double word of main memory ([inr],
    by its index [addr / 8]); the addresses of main memory are below
    [2^MAX_LOG_ADDR], others panic. *)
Abbreviation loc := (Z + Z)%type.

Definition loc_of (addr : Z) : option loc :=
  if addr <? 32 then Some (inl addr)
  else if addr <? 2 ^ MAX_LOG_ADDR then Some (inr (addr / 8)) else None.

Definition addr_of (l : loc) : Z := match l with inl r => r | inr k => k * 8 end.

Module Store.
Section Ops.
Context {V : Type}.
Implicit Types g : gmap loc V.

Inductive op :=
| Get (addr : Z) | Insert (addr : Z) (v : V) | Remove (addr : Z)
| OrInsert (addr : Z) (v : V) | AndModify (addr : Z) (f : V -> V) | Clear.

(** The result of an operation and the next map; [None] is a panic. *)
Definition step g (o : op) : option (option V * gmap loc V) :=
  match o with
  | Get a => l ← loc_of a; Some (g !! l, g)
  | Insert a v => l ← loc_of a; Some (g !! l, <[l := v]> g)
  | Remove a => l ← loc_of a; Some (g !! l, delete l g)
  | OrInsert a v =>
      l ← loc_of a;
      match g !! l with Some v' => Some (Some v', g) | None => Some (Some v, <[l := v]> g) end
  | AndModify a f => l ← loc_of a; Some (None, alter f l g)
  | Clear => Some (None, ∅)
  end.

(** The same operation on the code's data structure. *)
Definition exec (m : Memory.t V) (o : op) : option (option V * Memory.t V) :=
  match o with
  | Get a => v ← Memory.get m a; Some (v, m)
  | Insert a v => Memory.insert m a v
  | Remove a => Memory.remove m a
  | OrInsert a v => '(v, m) ← Memory.entry_or_insert m a v; Some (Some v, m)
  | AndModify a f => m ← Memory.entry_and_modify m a f; Some (None, m)
  | Clear => Some (None, Memory.clear m)
  end.
End Ops.
Arguments op : clear implicits.

(** Run a sequence of operations, collecting the results. *)
Fixpoint run {V S} (f : S -> op V -> option (option V * S)) (s : S) (os : list (op V)) :
  option (list (option V) * S) :=
  match os with
  | [] => Some ([], s)
  | o :: os => '(r, s) ← f s o; '(rs, s) ← run f s os; Some (r :: rs, s)
  end.
End Store.

(** ** The page-table invariant *)
Section Wf.
Context {V : Type}.
Implicit Types m : PagedMemory.t V.
Import PagedMemory.

Record wf m : Prop := {
  wf_index : Z.of_nat (length (index m)) = MAX_PAGE_COUNT;
  wf_pages j p : page_table m !! j = Some p -> Z.of_nat (length p) = PAGE_LEN;
  wf_alloc u i : index m !! u = Some i -> i <> NO_PAGE -> 0 <= i < Z.of_nat (length (page_table m));
  wf_inj u u' i : index m !! u = Some i -> index m !! u' = Some i -> i <> NO_PAGE -> u = u';
  wf_count : length (page_table m) = length (filter (fun i => i <> NO_PAGE) (index m)) }.

(** The double words of main memory, and the value of one of them. *)
Definition in_range (k : Z) : Prop := 0 <= k < 2 ^ 37.
Definition view m (k : Z) : option V :=
  match at_index (index m) (k / PAGE_LEN) with
  | Some i => if i =? NO_PAGE then None else mjoin (read_slot m (i, k mod PAGE_LEN))
  | None => None
  end.

Lemma indices_spec addr : indices addr = ((addr / 8) / PAGE_LEN, (addr / 8) mod PAGE_LEN).
Proof.
  unfold indices, compress_addr. rewrite !Z.shiftr_div_pow2 by (unfold NUM_IGNORED_LOWER_BITS, LOG_PAGE_LEN; lia).
  change PAGE_MASK with (Z.ones 18). rewrite Z.land_ones by lia. reflexivity.
Qed.

Lemma at_index_lt {A} (l : list A) i : 0 <= i < Z.of_nat (length l) -> is_Some (at_index l i).
Proof. intros. apply lookup_lt_is_Some. lia. Qed.

Lemma index_Some m k : wf m -> in_range k -> is_Some (at_index (index m) (k / PAGE_LEN)).
Proof.
  intros W Hk. apply at_index_lt. rewrite (wf_index _ W). unfold in_range in Hk.
  change PAGE_LEN with (2 ^ 18). change MAX_PAGE_COUNT with (2 ^ 19). lia_mod.
Qed.

Lemma index_None m addr : wf m -> 2 ^ MAX_LOG_ADDR <= addr -> at_index (index m) (addr / 8 / PAGE_LEN) = None.
Proof.
  intros W Ha. apply lookup_ge_None_2. pose proof (wf_index _ W) as E.
  change MAX_PAGE_COUNT with (2 ^ 19) in E. change PAGE_LEN with (2 ^ 18). unfold MAX_LOG_ADDR in Ha.
  assert (2 ^ 19 <= addr / 8 / 2 ^ 18) by lia_mod. lia.
Qed.

(** The slot of an allocated double word holds its value. *)
Lemma read_allocated m k i : wf m -> at_index (index m) (k / PAGE_LEN) = Some i -> i <> NO_PAGE ->
  read_slot m (i, k mod PAGE_LEN) = Some (view m k).
Proof.
  intros W Ei Hi. unfold view. rewrite Ei.
  destruct (Z.eqb_spec i NO_PAGE) as [|_]; [contradiction|].
  pose proof (wf_alloc _ W _ _ Ei Hi) as Hl. destruct (at_index_lt (page_table m) i Hl) as [p Ep].
  pose proof (wf_pages _ W _ _ Ep) as Lp.
  destruct (at_index_lt p (k mod PAGE_LEN)) as [o Eo].
  { rewrite Lp. apply Z.mod_pos_bound. reflexivity. }
  unfold read_slot. simpl. rewrite Ep. simpl. now rewrite Eo.
Qed.

Lemma write_wf m s v : wf m -> wf (write_slot m s v).
Proof.
  intros W. unfold write_slot. constructor; simpl; rewrite ?length_alter; try apply W.
  intros j p. rewrite list_lookup_alter. destruct (decide (Z.to_nat s.1 = j)); [|apply W].
  intros (q & E & ->)%fmap_Some. rewrite length_insert. exact (wf_pages _ W _ _ E).
Qed.

Lemma write_view m k i v k' : wf m -> in_range k -> in_range k' ->
  at_index (index m) (k / PAGE_LEN) = Some i -> i <> NO_PAGE ->
  view (write_slot m (i, k mod PAGE_LEN) v) k' = if decide (k = k') then v else view m k'.
Proof.
  intros W Hk Hk' Ei Hi. unfold view. simpl index.
  destruct (index_Some _ _ W Hk') as [i' Ei']. rewrite Ei'.
  destruct (Z.eqb_spec i' NO_PAGE) as [->|Hi'].
  { destruct (decide (k = k')) as [->|]; [rewrite Ei in Ei'; congruence|done]. }
  pose proof (read_allocated m k i W Ei Hi) as Hr. pose proof (read_allocated m k' i' W Ei' Hi') as Hr'.
  pose proof (wf_alloc _ W _ _ Ei Hi). pose proof (wf_alloc _ W _ _ Ei' Hi').
  unfold read_slot, at_index in *. simpl in *. rewrite list_lookup_alter.
  assert (0 < PAGE_LEN) by reflexivity.
  pose proof (Z.mod_pos_bound k PAGE_LEN) as B. pose proof (Z.mod_pos_bound k' PAGE_LEN) as B'.
  destruct (decide (Z.to_nat i = Z.to_nat i')) as [E|E].
  - assert (i = i') as <- by lia.
    assert (k / PAGE_LEN = k' / PAGE_LEN) as Eu.
    { pose proof (wf_inj _ W _ _ _ Ei Ei' Hi). unfold in_range in *.
      assert (0 <= k / PAGE_LEN) by (apply Z.div_pos; lia).
      assert (0 <= k' / PAGE_LEN) by (apply Z.div_pos; lia). lia. }
    destruct (page_table m !! Z.to_nat i) as [p|] eqn:Ep; [|discriminate]. simpl in *.
    destruct (decide (k = k')) as [->|Hne].
    + rewrite list_lookup_insert_eq; [done|]. apply lookup_lt_Some in Hr'. lia.
    + rewrite list_lookup_insert_ne; [done|]. intros E'. apply Hne.
      rewrite (Z.div_mod k PAGE_LEN), (Z.div_mod k' PAGE_LEN) by lia. rewrite Eu.
      specialize (B ltac:(lia)). specialize (B' ltac:(lia)). f_equal. lia.
  - destruct (decide (k = k')) as [->|]; [|done]. rewrite Ei in Ei'. congruence.
Qed.
End Wf.

(** ** Allocation keeps the invariant and the values *)
Section Alloc.
Context {V : Type}.
Implicit Types m : PagedMemory.t V.
Import PagedMemory.

Lemma filter_lt {A} (P : A -> Prop) `{forall x, Decision (P x)} l u x :
  l !! u = Some x -> ~ P x -> (length (filter P l) < length l)%nat.
Proof.
  intros Hu Hx. rewrite <- (take_drop_middle l u x Hu) at 1.
  rewrite filter_app, filter_cons_False, length_app by done.
  pose proof (length_filter P (take u l)). pose proof (length_filter P (drop (S u) l)).
  apply lookup_lt_Some in Hu. rewrite length_take in *. rewrite length_drop in *. lia.
Qed.

Lemma filter_insert {A} (P : A -> Prop) `{forall x, Decision (P x)} l u x y :
  l !! u = Some x -> ~ P x -> P y -> length (filter P (<[u := y]> l)) = S (length (filter P l)).
Proof.
  intros Hu Hx Hy. pose proof (lookup_lt_Some _ _ _ Hu).
  rewrite insert_take_drop by done. rewrite <- (take_drop_middle l u x Hu) at 3.
  rewrite !filter_app, filter_cons_True, filter_cons_False, !length_app by done. simpl. lia.
Qed.

(** Fewer than [MAX_PAGE_COUNT] pages are in use while a slot of the index is free. *)
Lemma free_count m u : wf m -> index m !! u = Some NO_PAGE ->
  Z.of_nat (length (page_table m)) < MAX_PAGE_COUNT.
Proof.
  intros W Hu. rewrite (wf_count _ W), <- (wf_index _ W).
  apply Nat2Z.inj_lt. eapply filter_lt; [exact Hu|]. intros H. now apply H.
Qed.

Lemma new_index m u : wf m -> index m !! u = Some NO_PAGE ->
  u32 (Z.of_nat (length (page_table m))) = Z.of_nat (length (page_table m)) /\
  Z.of_nat (length (page_table m)) <> NO_PAGE.
Proof.
  intros W Hu. pose proof (free_count _ _ W Hu) as L. change MAX_PAGE_COUNT with (2 ^ 19) in L.
  unfold u32, wrap, NO_PAGE. split; [apply Z.mod_small|]; lia.
Qed.

Lemma push_wf m u : wf m -> index m !! Z.to_nat u = Some NO_PAGE -> wf (push_page m u).
Proof.
  intros W Hu. destruct (new_index _ _ W Hu) as [E32 Hne].
  unfold push_page. rewrite E32. pose proof (lookup_lt_Some _ _ _ Hu) as Lu. constructor; simpl.
  - rewrite length_insert. apply W.
  - intros j p [Hp|[_ Hp]]%lookup_app_Some; [exact (wf_pages _ W _ _ Hp)|].
    apply list_lookup_singleton_Some in Hp as [_ <-]. unfold NewPage_new. rewrite length_replicate.
    apply Z2Nat.id. unfold PAGE_LEN. apply Z.shiftl_nonneg. lia.
  - intros v i. rewrite length_app. simpl. destruct (decide (Z.to_nat u = v)) as [<-|].
    + rewrite list_lookup_insert_eq by done. intros [= <-] _. lia.
    + rewrite list_lookup_insert_ne by done. intros Hv Hi. pose proof (wf_alloc _ W _ _ Hv Hi). lia.
  - intros v v' i. destruct (decide (Z.to_nat u = v)) as [<-|]; destruct (decide (Z.to_nat u = v')) as [<-|];
      rewrite ?list_lookup_insert_eq, ?list_lookup_insert_ne by done; intros E E' Hi; try done.
    + injection E as <-. pose proof (wf_alloc _ W _ _ E' Hi). lia.
    + injection E' as <-. pose proof (wf_alloc _ W _ _ E Hi). lia.
    + eapply W; eauto.
  - rewrite length_app. simpl. erewrite filter_insert; [|exact Hu|tauto|done].
    rewrite <- (wf_count _ W). lia.
Qed.

Lemma push_index m u : wf m -> index m !! Z.to_nat u = Some NO_PAGE ->
  at_index (index (push_page m u)) u = Some (Z.of_nat (length (page_table m))).
Proof.
  intros W Hu. destruct (new_index _ _ W Hu) as [E _]. unfold push_page, at_index. simpl. rewrite E.
  apply list_lookup_insert_eq. eapply lookup_lt_Some, Hu.
Qed.

(** Fresh pages hold nothing, the others are untouched. *)
Lemma push_view m u k : wf m -> 0 <= u -> index m !! Z.to_nat u = Some NO_PAGE -> in_range k ->
  view (push_page m u) k = view m k.
Proof.
  intros W Hu0 Hu Hk. destruct (new_index _ _ W Hu) as [_ Hne].
  assert (0 <= k / PAGE_LEN) by (apply Z.div_pos; [unfold in_range in Hk; lia|reflexivity]).
  destruct (decide (k / PAGE_LEN = u)) as [E|E].
  - pose proof (push_index _ _ W Hu) as Ei. unfold view. rewrite E, Ei.
    replace (at_index (index m) u) with (Some NO_PAGE) by (symmetry; exact Hu).
    rewrite Z.eqb_refl. destruct (Z.eqb_spec (Z.of_nat (length (page_table m))) NO_PAGE); [done|].
    unfold read_slot, at_index, push_page. simpl. rewrite Nat2Z.id, lookup_app_r by lia.
    rewrite Nat.sub_diag. simpl. unfold NewPage_new.
    rewrite lookup_replicate_2; [done|].
    pose proof (Z.mod_pos_bound k PAGE_LEN eq_refl). lia.
  - unfold view, at_index, push_page. simpl. rewrite list_lookup_insert_ne by lia.
    destruct (index m !! Z.to_nat (k / PAGE_LEN)) as [i|] eqn:Ei; [|done].
    destruct (Z.eqb_spec i NO_PAGE) as [|Hi]; [done|]. pose proof (wf_alloc _ W _ _ Ei Hi).
    unfold read_slot, at_index. simpl. rewrite lookup_app_l by lia. done.
Qed.

Lemma new_wf : wf (@new_preallocated V).
Proof.
  assert (L : Z.of_nat (length (index (@new_preallocated V))) = MAX_PAGE_COUNT).
  { unfold new_preallocated. cbn [index]. rewrite length_replicate. apply Z2Nat.id. discriminate. }
  constructor; [exact L|..]; clear L; unfold new_preallocated; cbn [page_table index].
  - intros j p. rewrite lookup_nil. discriminate.
  - intros u i [-> _]%lookup_replicate_1 Hn. destruct Hn. reflexivity.
  - intros u u' i [-> _]%lookup_replicate_1 _ Hn. destruct Hn. reflexivity.
  - induction (Z.to_nat MAX_PAGE_COUNT) as [|n IH]; [reflexivity|]. cbn [replicate].
    rewrite filter_cons_False by tauto. exact IH.
Qed.

Lemma replicate_view n k (pages : list (list (option V))) : view (mk pages (replicate n NO_PAGE)) k = None.
Proof.
  unfold view. cbn [index]. destruct (at_index _ _) as [i|] eqn:E; [|done].
  apply lookup_replicate_1 in E as [-> _]. now rewrite Z.eqb_refl.
Qed.
End Alloc.

(** ** Each operation of the page table *)
Section PageOps.
Context {V : Type}.
Implicit Types m : PagedMemory.t V.
Import PagedMemory.

Definition allocated m (k i : Z) : Prop :=
  at_index (index m) (k / PAGE_LEN) = Some i /\ i <> NO_PAGE.

(** [m'] is [m] with the value of [k] replaced by [o]. *)
Definition updated m (k : Z) (o : option V) m' : Prop :=
  wf m' /\ forall k', in_range k' -> view m' k' = if decide (k = k') then o else view m k'.

Lemma write_updated m k i o : wf m -> in_range k -> allocated m k i ->
  updated m k o (write_slot m (i, k mod PAGE_LEN) o).
Proof. intros W Hk [Ei Hi]. split; [now apply write_wf|]. intros. now apply write_view. Qed.

Lemma push_allocated m k : wf m -> in_range k -> at_index (index m) (k / PAGE_LEN) = Some NO_PAGE ->
  let m' := push_page m (k / PAGE_LEN) in let i := Z.of_nat (length (page_table m)) in
  wf m' /\ allocated m' k i /\ u32 i = i /\ view m k = None /\
  forall k', in_range k' -> view m' k' = view m k'.
Proof.
  intros W Hk Hu. destruct (new_index _ _ W Hu) as [E32 Hne]. simpl. split_and!.
  - now apply push_wf.
  - split; [now apply push_index|done].
  - done.
  - unfold view. now rewrite Hu, Z.eqb_refl.
  - intros. apply push_view; auto. apply Z.div_pos; [unfold in_range in Hk; lia|reflexivity].
Qed.

Lemma updated_trans m m' k o m'' : (forall k', in_range k' -> view m' k' = view m k') ->
  updated m' k o m'' -> updated m k o m''.
Proof. intros Hv [W U]. split; [done|]. intros k' Hk'. rewrite U, Hv; done. Qed.

Lemma get_spec m addr : wf m -> in_range (addr / 8) -> get m addr = Some (view m (addr / 8)).
Proof.
  intros W Hk. unfold get. rewrite indices_spec. destruct (index_Some _ _ W Hk) as [i Ei].
  rewrite Ei. simpl. destruct (Z.eqb_spec i NO_PAGE) as [->|Hi]; [|now apply read_allocated].
  unfold view. now rewrite Ei, Z.eqb_refl.
Qed.

Lemma insert_spec m addr v : wf m -> in_range (addr / 8) ->
  exists m', insert m addr v = Some (view m (addr / 8), m') /\ updated m (addr / 8) (Some v) m'.
Proof.
  intros W Hk. unfold insert. rewrite indices_spec. destruct (index_Some _ _ W Hk) as [i Ei].
  rewrite Ei. simpl. destruct (Z.eqb_spec i NO_PAGE) as [->|Hi].
  - destruct (push_allocated _ _ W Hk Ei) as (W' & A & -> & _ & Hv). destruct A as [Ai An].
    rewrite (read_allocated _ _ _ W' Ai An). simpl. eexists. rewrite Hv by done. split; [done|].
    eapply updated_trans, write_updated; done.
  - rewrite (read_allocated _ _ _ W Ei Hi). simpl. eexists. split; [done|]. now apply write_updated.
Qed.

Lemma remove_spec m addr : wf m -> in_range (addr / 8) ->
  exists m', remove m addr = Some (view m (addr / 8), m') /\ updated m (addr / 8) None m'.
Proof.
  intros W Hk. unfold remove. rewrite indices_spec. destruct (index_Some _ _ W Hk) as [i Ei].
  rewrite Ei. simpl. destruct (Z.eqb_spec i NO_PAGE) as [->|Hi].
  - assert (E : view m (addr / 8) = None) by (unfold view; now rewrite Ei, Z.eqb_refl).
    rewrite E. eexists. split; [done|]. split; [done|]. intros k' _.
    destruct (decide (addr / 8 = k')) as [<-|]; done.
  - rewrite (read_allocated _ _ _ W Ei Hi). simpl. eexists. split; [done|]. now apply write_updated.
Qed.

(** The place [entry] refers to. *)
Lemma entry_spec m addr : wf m -> in_range (addr / 8) ->
  exists m' i, wf m' /\ allocated m' (addr / 8) i /\
    (forall k', in_range k' -> view m' k' = view m k') /\
    entry m addr = Some (match view m (addr / 8) with
      | Some v => Occupied (i, (addr / 8) mod PAGE_LEN) v
      | None => Vacant (i, (addr / 8) mod PAGE_LEN) end, m').
Proof.
  intros W Hk. unfold entry. rewrite indices_spec. destruct (index_Some _ _ W Hk) as [i Ei].
  rewrite Ei. simpl. destruct (Z.eqb_spec i NO_PAGE) as [->|Hi].
  - destruct (push_allocated _ _ W Hk Ei) as (W' & A & _ & -> & Hv). eexists _, _. split_and!; try done.
    destruct A as [Ai An]. now rewrite (read_allocated _ _ _ W' Ai An).
  - exists m, i. split_and!; try done. rewrite (read_allocated _ _ _ W Ei Hi). simpl.
    now destruct (view m (addr / 8)).
Qed.

Lemma or_insert_spec m addr v : wf m -> in_range (addr / 8) ->
  exists e m' m'', entry m addr = Some (e, m') /\
    or_insert e m' v = (default v (view m (addr / 8)), m'') /\
    updated m (addr / 8) (Some (default v (view m (addr / 8)))) m''.
Proof.
  intros W Hk. destruct (entry_spec m addr W Hk) as (m' & i & W' & A & Hv & E).
  destruct (view m (addr / 8)) as [v'|] eqn:Ev; do 3 eexists; (split; [exact E|]); simpl;
    (split; [done|]).
  - split; [done|]. intros k' Hk'. rewrite Hv by done. destruct (decide (addr / 8 = k')) as [<-|]; done.
  - eapply updated_trans, write_updated; done.
Qed.

Lemma and_modify_spec m addr f : wf m -> in_range (addr / 8) ->
  exists e m', entry m addr = Some (e, m') /\
    updated m (addr / 8) (f <$> view m (addr / 8)) (and_modify e m' f).2.
Proof.
  intros W Hk. destruct (entry_spec m addr W Hk) as (m' & i & W' & A & Hv & E).
  destruct (view m (addr / 8)) as [v'|] eqn:Ev; do 2 eexists; (split; [exact E|]); simpl.
  - eapply updated_trans, write_updated; done.
  - split; [done|]. intros k' Hk'. rewrite Hv by done. destruct (decide (addr / 8 = k')) as [<-|]; done.
Qed.

(** Addresses beyond the index panic. *)
Lemma out_of_range m addr : wf m -> 2 ^ MAX_LOG_ADDR <= addr ->
  get m addr = None /\ (forall v, insert m addr v = None) /\ remove m addr = None /\
  entry m addr = None.
Proof.
  intros W Ha. unfold get, insert, remove, entry. rewrite indices_spec.
  now rewrite (index_None m addr W Ha).
Qed.
End PageOps.

(** ** Refinement of the finite map *)
Section Refinement.
Context {V : Type}.
Implicit Types (m : Memory.t V) (g : gmap loc V).

Definition valid_loc (l : loc) : Prop :=
  match l with inl r => 0 <= r < 32 | inr k => 4 <= k < 2 ^ 37 end.

Record repr m g : Prop := {
  repr_wf : wf (Memory.page_table m);
  repr_length : length (Memory.registers m) = 32%nat;
  repr_reg r : 0 <= r < 32 -> at_index (Memory.registers m) r = Some (g !! inl r);
  repr_mem k : in_range k -> view (Memory.page_table m) k = g !! inr k;
  repr_dom l : is_Some (g !! l) -> valid_loc l }.

Definition set_loc (l : loc) (o : option V) g : gmap loc V := partial_alter (fun _ => o) l g.

Lemma lookup_set_loc l o g l' : set_loc l o g !! l' = if decide (l = l') then o else g !! l'.
Proof.
  unfold set_loc. destruct (decide (l = l')) as [<-|].
  - apply lookup_partial_alter_eq.
  - now apply lookup_partial_alter_ne.
Qed.

Lemma repr_set_reg m g r o : repr m g -> 0 <= r < 32 ->
  repr (Memory.mk (<[Z.to_nat r := o]> (Memory.registers m)) (Memory.page_table m)) (set_loc (inl r) o g).
Proof.
  intros R Hr. constructor; simpl; [apply R|rewrite length_insert; apply R|..].
  - intros r' Hr'. rewrite lookup_set_loc. unfold at_index. destruct (decide (r = r')) as [<-|].
    + rewrite list_lookup_insert_eq by (rewrite (repr_length _ _ R); lia). now rewrite decide_True.
    + rewrite list_lookup_insert_ne by lia. rewrite decide_False by congruence. now apply R.
  - intros k Hk. rewrite lookup_set_loc, decide_False by discriminate. now apply R.
  - intros l Hl. rewrite lookup_set_loc in Hl. destruct (decide (inl r = l)) as [<-|]; [done|].
    now apply (repr_dom _ _ R).
Qed.

Lemma repr_set_mem m g k o p : repr m g -> 4 <= k < 2 ^ 37 -> updated (Memory.page_table m) k o p ->
  repr (Memory.mk (Memory.registers m) p) (set_loc (inr k) o g).
Proof.
  intros R Hk [W U]. constructor; simpl; [done|apply R|..].
  - intros r Hr. rewrite lookup_set_loc, decide_False by discriminate. now apply R.
  - intros k' Hk'. rewrite U, lookup_set_loc by done. destruct (decide (k = k')) as [<-|].
    + now rewrite decide_True.
    + rewrite decide_False by congruence. now apply R.
  - intros l Hl. rewrite lookup_set_loc in Hl. destruct (decide (inr k = l)) as [<-|]; [done|].
    now apply (repr_dom _ _ R).
Qed.

(** The locations an address denotes. *)
Lemma loc_of_cases addr : 0 <= addr ->
  (0 <= addr < 32 /\ loc_of addr = Some (inl addr) /\ (addr <? 32) = true) \/
  (4 <= addr / 8 < 2 ^ 37 /\ loc_of addr = Some (inr (addr / 8)) /\ (addr <? 32) = false) \/
  (2 ^ MAX_LOG_ADDR <= addr /\ loc_of addr = None /\ (addr <? 32) = false).
Proof.
  intros H. unfold loc_of, MAX_LOG_ADDR. destruct (Z.ltb_spec addr 32); [left; auto|right].
  destruct (Z.ltb_spec addr (2 ^ 40)); [left|right; auto]. split; [lia_mod|auto].
Qed.

Definition op_addr (o : Store.op V) : Z :=
  match o with
  | Store.Get a | Store.Insert a _ | Store.Remove a | Store.OrInsert a _ | Store.AndModify a _ => a
  | Store.Clear => 0
  end.

(** Both sides panic, or both succeed with related states and the same result. *)
Definition agree (x : option (option V * Memory.t V)) (y : option (option V * gmap loc V)) : Prop :=
  match x, y with
  | Some (r, m), Some (r', g) => r = r' /\ repr m g
  | None, None => True
  | _, _ => False
  end.

Lemma alter_set_loc f l g : alter f l g = set_loc l (f <$> g !! l) g.
Proof.
  apply map_eq. intros l'. rewrite lookup_alter, lookup_set_loc.
  destruct (decide (l = l')) as [<-|]; done.
Qed.

Lemma set_loc_id l g : set_loc l (g !! l) g = g.
Proof.
  apply map_eq. intros l'. rewrite lookup_set_loc. destruct (decide (l = l')) as [<-|]; done.
Qed.

(** Main memory. *)
Lemma exec_page m g o : repr m g -> 4 <= op_addr o / 8 < 2 ^ 37 -> (op_addr o <? 32) = false ->
  loc_of (op_addr o) = Some (inr (op_addr o / 8)) -> agree (Store.exec m o) (Store.step g o).
Proof.
  intros R Hk L El. assert (Hr : in_range (op_addr o / 8)) by (unfold in_range; lia).
  pose proof (repr_wf _ _ R) as W. pose proof (repr_mem _ _ R _ Hr) as Ev.
  destruct o; cbn [op_addr Store.exec Store.step] in *; try rewrite El; cbn [mbind option_bind];
    unfold Memory.get, Memory.insert, Memory.remove, Memory.entry_or_insert, Memory.entry_and_modify;
    try rewrite L.
  - rewrite (get_spec _ _ W Hr). cbn. rewrite Ev. done.
  - destruct (insert_spec _ _ v W Hr) as (p & -> & U). cbn. rewrite Ev. split; [done|].
    now apply repr_set_mem.
  - destruct (remove_spec _ _ W Hr) as (p & -> & U). cbn. rewrite Ev. split; [done|].
    now apply repr_set_mem.
  - destruct (or_insert_spec _ _ v W Hr) as (e & p & p' & E & E' & U). rewrite E. cbn. rewrite E'. cbn.
    rewrite Ev in U |- *. destruct (g !! inr (addr `div` 8)) as [v'|] eqn:Eg; cbn in *; (split; [done|]).
    + rewrite <- (set_loc_id (inr (addr / 8)) g), Eg. now apply repr_set_mem.
    + now apply repr_set_mem.
  - destruct (and_modify_spec _ _ f W Hr) as (e & p & E & U). rewrite E. cbn. split; [done|].
    rewrite alter_set_loc, <- Ev. now apply repr_set_mem.
  - discriminate.
Qed.

(** Registers. *)
Lemma exec_reg m g o : repr m g -> 0 <= op_addr o < 32 -> (op_addr o <? 32) = true ->
  loc_of (op_addr o) = Some (inl (op_addr o)) -> o <> Store.Clear ->
  agree (Store.exec m o) (Store.step g o).
Proof.
  intros R Hr L El Hc. pose proof (repr_reg _ _ R _ Hr) as Ev.
  destruct o; cbn [op_addr Store.exec Store.step] in *; try rewrite El; cbn [mbind option_bind];
    unfold Memory.get, Memory.insert, Memory.remove, Memory.entry_or_insert, Memory.entry_and_modify,
      Registers.get, Registers.insert, Registers.remove, Registers.entry;
    try rewrite L, Ev; cbn.
  - done.
  - split; [done|]. now apply repr_set_reg.
  - split; [done|]. now apply repr_set_reg.
  - destruct (g !! inl addr) as [v'|] eqn:Eg; cbn; (split; [done|]); [by destruct m|].
    now apply repr_set_reg.
  - split; [done|]. rewrite alter_set_loc.
    destruct (g !! inl addr) as [v'|] eqn:Eg; cbn; [now apply repr_set_reg|].
    rewrite <- Eg, set_loc_id. by destruct m.
  - done.
Qed.

Lemma exec_refines m g o : repr m g -> 0 <= op_addr o -> agree (Store.exec m o) (Store.step g o).
Proof.
  intros R Ha. assert (o = Store.Clear \/ o <> Store.Clear) as [->|Hc] by (destruct o; auto).
  { split; [done|]. constructor; cbn.
    - pose proof (repr_wf _ _ R) as W. pose proof (wf_index _ W) as L.
      unfold PagedMemory.clear. replace (length _) with (Z.to_nat MAX_PAGE_COUNT) by lia. apply new_wf.
    - unfold Registers.clear. rewrite length_replicate. apply R.
    - intros r Hr. rewrite lookup_empty. apply lookup_replicate_2. rewrite (repr_length _ _ R). lia.
    - intros k Hk. rewrite lookup_empty. apply replicate_view.
    - intros l [v Hl]. now rewrite lookup_empty in Hl. }
  destruct (loc_of_cases _ Ha) as [(Hr & El & L)|[(Hk & El & L)|(Hk & El & L)]].
  - now apply exec_reg.
  - now apply exec_page.
  - destruct (out_of_range _ _ (repr_wf _ _ R) Hk) as (Eg & Ei & Er & Ee).
    destruct o; cbn [op_addr Store.exec Store.step] in *; try done; rewrite El;
      unfold Memory.get, Memory.insert, Memory.remove, Memory.entry_or_insert, Memory.entry_and_modify;
      rewrite L, ?Eg, ?Ei, ?Er, ?Ee; done.
Qed.
End Refinement.

(** ** Iteration *)
Section Iteration.
Context {V : Type}.
Implicit Types m : PagedMemory.t V.
Import PagedMemory.

Lemma elem_of_enumerate {A} (l : list A) i x : (i, x) ∈ enumerate l <-> 0 <= i /\ at_index l i = Some x.
Proof.
  unfold enumerate, at_index. rewrite list_elem_of_lookup. split.
  - intros [j Hj]. rewrite list_lookup_imap in Hj. apply fmap_Some in Hj as (y & Hy & [= -> ->]).
    rewrite Nat2Z.id. split; [lia|done].
  - intros [Hi Hx]. exists (Z.to_nat i). rewrite list_lookup_imap, Hx. simpl. now rewrite Z2Nat.id.
Qed.

Lemma NoDup_enumerate {A} (l : list A) : NoDup (enumerate l).
Proof.
  apply NoDup_alt. intros i j x. unfold enumerate. rewrite !list_lookup_imap.
  intros (y & _ & ->)%fmap_Some (z & _ & [= E _])%fmap_Some. lia.
Qed.

(** The occupied entries of page [p] at index [u]. *)
Definition page_items (u : Z) (p : list (option V)) : list (Z * V) :=
  omap (fun '(lower, v) => v ← v; Some (decompress_addr ((u ≪ LOG_PAGE_LEN) + lower), v)) (enumerate p).

Lemma elem_of_page_items u p a v : (a, v) ∈ page_items u p <->
  exists lower, 0 <= lower /\ at_index p lower = Some (Some v) /\
    a = decompress_addr ((u ≪ LOG_PAGE_LEN) + lower).
Proof.
  unfold page_items. rewrite list_elem_of_omap. split.
  - intros ([lower o] & [Hl Ho]%elem_of_enumerate & E). destruct o as [w|]; [|done].
    injection E as <- <-. eauto.
  - intros (lower & Hl & Ho & ->). exists (lower, Some v). split; [|done].
    now apply elem_of_enumerate.
Qed.

(** The pages an iteration visits, in index order. *)
Definition live_pages (m : t V) : list (Z * Z) :=
  filter (fun '(_, i) => i <> NO_PAGE) (enumerate (index m)).
Definition page_at (pages : list (list (option V))) (idx : Z) : list (option V) :=
  default [] (at_index pages idx).

Lemma elem_of_live_pages m u idx :
  (u, idx) ∈ live_pages m <-> idx <> NO_PAGE /\ 0 <= u /\ at_index (index m) u = Some idx.
Proof. unfold live_pages. rewrite list_elem_of_filter, elem_of_enumerate. done. Qed.

Lemma live_pages_bound m : wf m ->
  NoDup (snd <$> live_pages m) /\
  Forall (fun x => 0 <= x.2 < Z.of_nat (length (page_table m))) (live_pages m).
Proof.
  intros W. split.
  - apply NoDup_fmap_2_strong; [|apply NoDup_filter, NoDup_enumerate].
    intros [u i] [u' i'] (Hi & Hu & E)%elem_of_live_pages (_ & Hu' & E')%elem_of_live_pages. cbn.
    intros <-. f_equal. pose proof (wf_inj _ W _ _ _ E E' Hi). lia.
  - apply Forall_forall. intros [u i] (Hi & _ & E)%elem_of_live_pages. exact (wf_alloc _ W _ _ E Hi).
Qed.

(** Emptied pages are not met again: the index is injective. *)
Lemma consume_spec (l : list (Z * Z)) : forall pages : list (list (option V)), NoDup (snd <$> l) ->
  Forall (fun x => 0 <= x.2 < Z.of_nat (length pages)) l ->
  consume pages l = Some (l ≫= fun '(u, idx) => page_items u (page_at pages idx)).
Proof.
  induction l as [|[u idx] l IH]; intros pages Hnd Hb; [done|]. cbn [consume].
  apply NoDup_cons in Hnd as [Hni Hnd]. apply Forall_cons in Hb as [Hb Hbs]. cbn [snd] in *.
  destruct (at_index_lt pages idx Hb) as [p Ep]. rewrite Ep. cbn [mbind option_bind].
  rewrite (IH (<[Z.to_nat idx := []]> pages) Hnd).
  2: { eapply Forall_impl; [exact Hbs|]. intros x. now rewrite length_insert. }
  cbn [mbind option_bind]. f_equal. rewrite bind_cons.
  assert (page_at pages idx = p) as -> by (unfold page_at; now rewrite Ep). f_equal.
  apply bind_ext_in. intros [u' idx'] Hin. f_equal. unfold page_at, at_index.
  rewrite list_lookup_insert_ne; [done|]. intros E. apply Hni.
  rewrite Forall_forall in Hbs. specialize (Hbs _ Hin). simpl in Hbs.
  replace idx with idx' by lia. apply list_elem_of_fmap. now exists (u', idx').
Qed.

Lemma decompress_spec u lower : 0 <= u < MAX_PAGE_COUNT -> 0 <= lower < PAGE_LEN ->
  let k := u * PAGE_LEN + lower in
  decompress_addr ((u ≪ LOG_PAGE_LEN) + lower) = k * 8 /\ in_range k /\
  k / PAGE_LEN = u /\ k mod PAGE_LEN = lower.
Proof.
  change MAX_PAGE_COUNT with (2 ^ 19). change PAGE_LEN with (2 ^ 18). intros Hu Hl.
  unfold decompress_addr, LOG_PAGE_LEN, NUM_IGNORED_LOWER_BITS, in_range, u64, wrap.
  rewrite !Z.shiftl_mul_pow2 by lia. lia_mod.
Qed.

Lemma into_iter_eq m : wf m ->
  into_iter m = Some (live_pages m ≫= fun '(u, idx) => page_items u (page_at (page_table m) idx)).
Proof. intros W. destruct (live_pages_bound m W). now apply consume_spec. Qed.

Lemma into_iter_pages (m : t V) : wf m -> exists items, into_iter m = Some items /\
  forall a v, (a, v) ∈ items <-> exists k, in_range k /\ a = k * 8 /\ view m k = Some v.
Proof.
  intros W. rewrite (into_iter_eq m W). eexists. split; [done|]. intros a v.
  rewrite list_elem_of_bind. split.
  - intros ([u idx] & (lower & Hl & Eo & ->)%elem_of_page_items & (Hi & Hu & E)%elem_of_live_pages).
    pose proof (wf_alloc _ W _ _ E Hi) as Hb. destruct (at_index_lt (page_table m) idx Hb) as [p Ep].
    unfold page_at in Eo. rewrite Ep in Eo. cbn in Eo.
    pose proof (lookup_lt_Some _ _ _ E) as Lu. pose proof (lookup_lt_Some _ _ _ Eo) as Ll.
    pose proof (wf_index _ W). pose proof (wf_pages _ W _ _ Ep).
    destruct (decompress_spec u lower) as (-> & Hk & Eu & El); [lia..|].
    eexists. split_and!; [exact Hk|done|]. unfold view. rewrite Eu, El, E.
    destruct (Z.eqb_spec idx NO_PAGE); [done|]. unfold read_slot. simpl. rewrite Ep. simpl. now rewrite Eo.
  - intros (k & Hk & -> & Ev). destruct (index_Some _ _ W Hk) as [i Ei].
    unfold view in Ev. rewrite Ei in Ev. destruct (Z.eqb_spec i NO_PAGE) as [|Hi]; [done|].
    unfold read_slot in Ev. cbn [fst snd] in Ev. destruct (at_index (page_table m) i) as [p|] eqn:Ep; [|done].
    cbn in Ev. destruct (at_index p (k mod PAGE_LEN)) as [o|] eqn:Eo; [|done]. cbn in Ev. subst o.
    assert (0 < PAGE_LEN) by reflexivity.
    assert (Hu : 0 <= k / PAGE_LEN < MAX_PAGE_COUNT).
    { unfold in_range in Hk. change PAGE_LEN with (2 ^ 18). change MAX_PAGE_COUNT with (2 ^ 19). lia_mod. }
    pose proof (Z.mod_pos_bound k PAGE_LEN) as Hl. specialize (Hl ltac:(lia)).
    exists (k / PAGE_LEN, i). split; [|apply elem_of_live_pages; split_and!; [done|lia|done]].
    unfold page_at. rewrite Ep.
    apply elem_of_page_items. exists (k mod PAGE_LEN). split; [lia|]. split; [done|].
    destruct (decompress_spec _ _ Hu Hl) as (-> & _). rewrite <- Z.mul_comm with (n := PAGE_LEN).
    now rewrite <- Z.div_mod by lia.
Qed.
End Iteration.

(** ** The theorems *)
Section Keys.
Context {V : Type}.
Implicit Types m : PagedMemory.t V.
Import PagedMemory.

Lemma page_keys u (p : list (option V)) :
  omap (fun '(lower, v) => _ ← v; Some (decompress_addr ((u ≪ LOG_PAGE_LEN) + lower))) (enumerate p) =
  fst <$> page_items u p.
Proof.
  unfold page_items. induction (enumerate p) as [|[lower [v|]] l IH]; cbn; [done| |done]. now rewrite IH.
Qed.

Lemma page_count u (p : list (option V)) : length (filter is_Some p) = length (page_items u p).
Proof.
  unfold page_items, enumerate. generalize Z.of_nat as f.
  induction p as [|[v|] p IH]; intros f; [done|..].
  - rewrite filter_cons_True by done. cbn. f_equal. apply (IH (f ∘ S)).
  - rewrite filter_cons_False by (intros [? ?]; done). apply (IH (f ∘ S)).
Qed.

Lemma live_page_at m u idx : wf m -> (u, idx) ∈ live_pages m ->
  at_index (page_table m) idx = Some (page_at (page_table m) idx).
Proof.
  intros W (Hi & _ & E)%elem_of_live_pages. pose proof (wf_alloc _ W _ _ E Hi) as Hb.
  destruct (at_index_lt (page_table m) idx Hb) as [p Ep]. unfold page_at. now rewrite Ep.
Qed.

Lemma live_indices m : snd <$> live_pages m = filter (fun i => i <> NO_PAGE) (index m).
Proof.
  unfold live_pages, enumerate. generalize Z.of_nat as f. induction (index m) as [|i l IH];
    intros f; [done|]. cbn [imap].
  destruct (decide (i <> NO_PAGE)) as [Hi|Hi].
  - rewrite filter_cons_True by done. rewrite filter_cons_True by done. cbn. f_equal. apply (IH (f ∘ S)).
  - rewrite filter_cons_False by done. rewrite filter_cons_False by done. apply (IH (f ∘ S)).
Qed.

Lemma keys_into_iter m items : wf m -> into_iter m = Some items ->
  keys m = Some (fst <$> items) /\ exact_len m = Some (Z.of_nat (length items)).
Proof.
  intros W. rewrite (into_iter_eq m W). intros [= <-]. split.
  - unfold keys. fold (live_pages m).
    rewrite (mapM_in _ (fun '(u, idx) => fst <$> page_items u (page_at (page_table m) idx))).
    + cbn [mbind option_bind]. f_equal. induction (live_pages m) as [|[u idx] l IH]; [done|].
      rewrite fmap_cons, bind_cons, fmap_app. cbn [concat]. now rewrite IH.
    + intros [u idx] Hin. rewrite (live_page_at _ _ _ W Hin). cbn. now rewrite page_keys.
  - unfold exact_len. rewrite <- live_indices.
    rewrite (mapM_in _ (fun idx => Z.of_nat (length (page_items 0 (page_at (page_table m) idx))))).
    + cbn [mbind option_bind]. f_equal. rewrite <- list_fmap_compose.
      induction (live_pages m) as [|[u idx] l IH]; [done|].
      rewrite fmap_cons, bind_cons, length_app. cbn [foldr compose snd]. rewrite IH.
      rewrite <- !(page_count _ (page_at _ _)). lia.
    + intros idx ([u i] & -> & Hin)%list_elem_of_fmap. cbn [snd]. rewrite (live_page_at _ _ _ W Hin). cbn.
      now rewrite <- page_count.
Qed.
End Keys.

Section Theorems.
Context {V : Type}.
Implicit Types (m : Memory.t V) (g : gmap loc V).

Lemma repr_new : repr (@Memory.new_preallocated V) ∅.
Proof.
  constructor; cbn [Memory.page_table Memory.registers Memory.new_preallocated].
  - apply new_wf.
  - reflexivity.
  - intros r Hr. rewrite lookup_empty. apply lookup_replicate_2. lia.
  - intros k Hk. rewrite lookup_empty. apply replicate_view.
  - intros l [v Hl]. now rewrite lookup_empty in Hl.
Qed.

Lemma run_refines os : forall m g, repr m g -> Forall (fun o => 0 <= op_addr o) os ->
  match Store.run Store.exec m os, Store.run Store.step g os with
  | Some (rs, m'), Some (rs', g') => rs = rs' /\ repr m' g'
  | None, None => True
  | _, _ => False
  end.
Proof.
  induction os as [|o os IH]; intros m g R Hos; cbn [Store.run]; [done|].
  apply Forall_cons in Hos as [Ho Hos]. pose proof (exec_refines m g o R Ho) as A.
  destruct (Store.exec m o) as [[r m']|], (Store.step g o) as [[r' g']|]; try done.
  destruct A as [<- R']. cbn [mbind option_bind]. specialize (IH m' g' R' Hos).
  destruct (Store.run Store.exec m' os) as [[rs m'']|], (Store.run Store.step g' os) as [[rs' g'']|]; try done.
  destruct IH as [<- R'']. done.
Qed.

(** The entries of a memory, in iteration order. *)
Lemma into_iter_spec m g : repr m g -> exists items, Memory.into_iter m = Some items /\
  forall a v, (a, v) ∈ items <-> exists x, valid_loc x /\ addr_of x = a /\ g !! x = Some v.
Proof.
  intros R. destruct (into_iter_pages _ (repr_wf _ _ R)) as (items & E & Hi).
  unfold Memory.into_iter. rewrite E. cbn. eexists. split; [done|]. intros a v. rewrite elem_of_app, Hi.
  unfold Registers.into_iter. rewrite list_elem_of_omap. split.
  - intros [([r o] & [Hr Eo]%elem_of_enumerate & Ea)|(k & Hk & -> & Ev)].
    + destruct o as [w|]; [|done]. injection Ea as <- <-.
      pose proof (lookup_lt_Some _ _ _ Eo). rewrite (repr_length _ _ R) in *.
      exists (inl r). rewrite (repr_reg _ _ R) in Eo by lia. injection Eo as Eo. cbn. split; [lia|done].
    + rewrite (repr_mem _ _ R) in Ev by done. exists (inr k).
      split; [apply (repr_dom _ _ R); now exists v|done].
  - intros ([r|k] & Hx & <- & Ev); cbn in Hx.
    + left. exists (r, Some v). split; [|done]. apply elem_of_enumerate. rewrite (repr_reg _ _ R), Ev by lia.
      split; [lia|reflexivity].
    + right. exists k. assert (in_range k) by (unfold in_range; lia). rewrite (repr_mem _ _ R) by done. done.
Qed.

Lemma loc_of_addr x : valid_loc x -> loc_of (addr_of x) = Some x /\ 0 <= addr_of x.
Proof.
  destruct x as [r|k]; cbn; intros H; unfold loc_of, MAX_LOG_ADDR.
  - now destruct (Z.ltb_spec r 32); [|lia].
  - destruct (Z.ltb_spec (k * 8) 32); [lia|]. destruct (Z.ltb_spec (k * 8) (2 ^ 40)); [|lia].
    rewrite Z.div_mul by lia. split; [done|lia].
Qed.

(** Inserting entries of [g] one by one stays below [g] and loses nothing. *)
Lemma from_iter_spec g items :
  (forall a v, (a, v) ∈ items -> exists x, valid_loc x /\ addr_of x = a /\ g !! x = Some v) ->
  forall m g0, repr m g0 -> g0 ⊆ g ->
  exists m' g', foldl (fun om '(k, v) => m ← om; '(_, m) ← Memory.insert m k v; Some m) (Some m) items =
    Some m' /\ repr m' g' /\ g0 ⊆ g' /\ g' ⊆ g /\
    forall x v, valid_loc x -> (addr_of x, v) ∈ items -> g' !! x = Some v.
Proof.
  induction items as [|[a v] items IH]; intros Hin m g0 R Hsub; cbn [foldl].
  { exists m, g0. split_and!; [done..|]. intros x v _ Hx. set_solver. }
  destruct (Hin a v) as (x & Hx & <- & Ev); [set_solver|]. destruct (loc_of_addr x Hx) as [El Ha].
  pose proof (exec_refines m g0 (Store.Insert (addr_of x) v) R Ha) as A.
  cbn [Store.exec Store.step] in A. rewrite El in A.
  destruct (Memory.insert m (addr_of x) v) as [[r m']|] eqn:Ei; [|done]. destruct A as [_ R'].
  assert (Hsub' : <[x := v]> g0 ⊆ g) by now apply insert_subseteq_l.
  replace (Some m ≫= _) with (Some m') by (cbn; now rewrite Ei).
  destruct (IH ltac:(set_solver) m' _ R' Hsub') as (m'' & g'' & -> & R'' & Hle & Hsub'' & Hall).
  assert (Hle0 : g0 ⊆ <[x := v]> g0).
  { apply map_subseteq_spec. intros y w Hy. rewrite lookup_insert. destruct (decide (x = y)) as [<-|]; [|done].
    pose proof (lookup_weaken _ _ _ _ Hy Hsub). congruence. }
  exists m'', g''. split_and!; [done|done|exact (transitivity Hle0 Hle)|done|].
  intros y w Hy [[= E <-]|Hw]%elem_of_cons; [|now apply Hall].
  destruct (loc_of_addr y Hy) as [Ey _]. rewrite E, El in Ey. injection Ey as <-.
  eapply lookup_weaken; [apply lookup_insert_eq|exact Hle].
Qed.
End Theorems.

(** C8. The executor's memory behaves as a finite map: any sequence of
    lookups, insertions, removals, [entry] updates and [clear]s on the
    register file and the two-level page table, starting from
    [new_preallocated], returns what the same sequence returns on a map from
    locations to values, and panics exactly when an address of the sequence
    is not below [2^40]. *)
Theorem memory_refines_map {V} (os : list (Store.op V)) (Hos : Forall (fun o => 0 <= op_addr o) os) :
  match Store.run Store.exec Memory.new_preallocated os, Store.run Store.step ∅ os with
  | Some (rs, m), Some (rs', g) => rs = rs' /\ repr m g
  | None, None => True
  | _, _ => False
  end.
Proof. apply run_refines; [apply repr_new|exact Hos]. Qed.

Lemma memory_refines_map_witness :
  match Store.run Store.exec Memory.new_preallocated
          [Store.Insert 5 1; Store.Insert 0x78000000 7; Store.OrInsert 0x78000004 9; Store.Remove 5],
        Store.run Store.step ∅
          [Store.Insert 5 1; Store.Insert 0x78000000 7; Store.OrInsert 0x78000004 9; Store.Remove 5] with
  | Some (rs, m), Some (rs', g) => rs = rs' /\ repr m g
  | None, None => True
  | _, _ => False
  end.
Proof.
  apply (memory_refines_map (V := Z)).
  repeat (apply List.Forall_cons; [cbn [op_addr]; lia|]). apply List.Forall_nil.
Defined.

(** C32. Iterating over a memory yields its entries: after any sequence of
    operations, [into_iter] succeeds and returns exactly the address/value
    pairs of the map, [keys] of the page table returns the addresses of its
    part in the same order, [exact_len] counts them, and collecting the pairs
    again with [from_iter] gives a memory representing the same map. *)
Theorem memory_iter_roundtrip {V} (os : list (Store.op V)) rs g
  (Hos : Forall (fun o => 0 <= op_addr o) os) (Hrun : Store.run Store.step ∅ os = Some (rs, g)) :
  exists m items paged m', Store.run Store.exec Memory.new_preallocated os = Some (rs, m) /\
    Memory.into_iter m = Some items /\
    (forall a v, (a, v) ∈ items <-> exists x, valid_loc x /\ addr_of x = a /\ g !! x = Some v) /\
    PagedMemory.into_iter (Memory.page_table m) = Some paged /\
    PagedMemory.keys (Memory.page_table m) = Some (fst <$> paged) /\
    PagedMemory.exact_len (Memory.page_table m) = Some (Z.of_nat (length paged)) /\
    Memory.from_iter items = Some m' /\ repr m' g.
Proof.
  pose proof (run_refines os _ _ repr_new Hos) as A. rewrite Hrun in A.
  destruct (Store.run Store.exec Memory.new_preallocated os) as [[rs' m]|]; [|done]. destruct A as [-> R].
  destruct (into_iter_spec m g R) as (items & E & Hitems).
  destruct (into_iter_pages _ (repr_wf _ _ R)) as (paged & Ep & _).
  destruct (keys_into_iter _ _ (repr_wf _ _ R) Ep) as [Ek El].
  destruct (from_iter_spec g items (fun a v => proj1 (Hitems a v)) _ _ repr_new (map_empty_subseteq g))
    as (m' & g' & Ef & R' & _ & Hsub & Hall).
  exists m, items, paged, m'. split_and!; try done. replace g with g'; [done|].
  apply (anti_symm (⊆)); [done|]. apply map_subseteq_spec. intros x v Hx.
  apply Hall; [apply (repr_dom _ _ R); now exists v|]. apply Hitems. exists x.
  split; [apply (repr_dom _ _ R); now exists v|done].
Qed.

Lemma memory_iter_roundtrip_witness :
  exists m items paged m', Store.run Store.exec Memory.new_preallocated
      [Store.Insert 5 1; Store.Insert 0x78000000 7; Store.Remove 5] = Some ([None; None; Some 1], m) /\
    Memory.into_iter m = Some items /\
    (forall a v, (a, v) ∈ items <->
       exists x, valid_loc x /\ addr_of x = a /\ ({[inr 0xf000000 := 7]} : gmap loc Z) !! x = Some v) /\
    PagedMemory.into_iter (Memory.page_table m) = Some paged /\
    PagedMemory.keys (Memory.page_table m) = Some (fst <$> paged) /\
    PagedMemory.exact_len (Memory.page_table m) = Some (Z.of_nat (length paged)) /\
    Memory.from_iter items = Some m' /\ repr m' {[inr 0xf000000 := 7]}.
Proof.
  apply memory_iter_roundtrip.
  - repeat (apply List.Forall_cons; [cbn [op_addr]; lia|]). apply List.Forall_nil.
  - vm_compute. reflexivity.
Defined.
