(* ===== verification/SyscallCode.v ===== *)
(** * SyscallCode: the system calls and the tables they use

    The enumerations [RiscvAirId] ([core/executor/src/air.rs]) and
    [SyscallCode] ([core/executor/src/syscalls/code.rs]) with the functions
    of the latter.  The 32-bit number of a system call packs its identifier
    (byte 0) and whether its handler has a table of its own (byte 1). *)
From Stdlib Require Import ZArith Lia Bool.
From stdpp Require Import base numbers option list.
From S2P Require Import Prelude.

Module RiscvAirId.
Inductive t := Cpu | Program | ShaExtend | ShaExtendControl | ShaCompress | ShaCompressControl |
  EdAddAssign | EdDecompress | Secp256k1Decompress | Secp256k1AddAssign | Secp256k1DoubleAssign |
  Secp256r1Decompress | Secp256r1AddAssign | Secp256r1DoubleAssign | KeccakPermute |
  KeccakPermuteControl | Bn254AddAssign | Bn254DoubleAssign | Bls12381AddAssign |
  Bls12381DoubleAssign | Uint256MulMod | Uint256Ops | U256XU2048Mul | Bls12381FpOpAssign |
  Bls12381Fp2AddSubAssign | Bls12381Fp2MulAssign | Bn254FpOpAssign | Bn254Fp2AddSubAssign |
  Bn254Fp2MulAssign | Bls12381Decompress | SyscallCore | SyscallPrecompile | DivRem | Add | Addi |
  Addw | Sub | Subw | Bitwise | Mul | ShiftRight | ShiftLeft | Lt | LoadByte | LoadHalf | LoadWord
  | LoadX0 | LoadDouble | StoreByte | StoreHalf | StoreWord | StoreDouble | UType | Branch | Jal |
  Jalr | SyscallInstrs | MemoryBump | StateBump | MemoryGlobalInit | MemoryGlobalFinalize |
  MemoryLocal | Global | Byte | Range | Mprotect | InstructionDecode | InstructionFetch | PageProt
  | PageProtLocal | PageProtGlobalInit | PageProtGlobalFinalize | Poseidon2.

(** The position of the variant, its discriminant. *)
Definition as_u8 (a : t) : Z :=
  match a with
  | Cpu => 0 | Program => 1 | ShaExtend => 2 | ShaExtendControl => 3 | ShaCompress => 4
  | ShaCompressControl => 5 | EdAddAssign => 6 | EdDecompress => 7 | Secp256k1Decompress => 8
  | Secp256k1AddAssign => 9 | Secp256k1DoubleAssign => 10 | Secp256r1Decompress => 11
  | Secp256r1AddAssign => 12 | Secp256r1DoubleAssign => 13 | KeccakPermute => 14
  | KeccakPermuteControl => 15 | Bn254AddAssign => 16 | Bn254DoubleAssign => 17
  | Bls12381AddAssign => 18 | Bls12381DoubleAssign => 19 | Uint256MulMod => 20 | Uint256Ops => 21
  | U256XU2048Mul => 22 | Bls12381FpOpAssign => 23 | Bls12381Fp2AddSubAssign => 24
  | Bls12381Fp2MulAssign => 25 | Bn254FpOpAssign => 26 | Bn254Fp2AddSubAssign => 27
  | Bn254Fp2MulAssign => 28 | Bls12381Decompress => 29 | SyscallCore => 30
  | SyscallPrecompile => 31 | DivRem => 32 | Add => 33 | Addi => 34 | Addw => 35 | Sub => 36
  | Subw => 37 | Bitwise => 38 | Mul => 39 | ShiftRight => 40 | ShiftLeft => 41 | Lt => 42
  | LoadByte => 43 | LoadHalf => 44 | LoadWord => 45 | LoadX0 => 46 | LoadDouble => 47
  | StoreByte => 48 | StoreHalf => 49 | StoreWord => 50 | StoreDouble => 51 | UType => 52
  | Branch => 53 | Jal => 54 | Jalr => 55 | SyscallInstrs => 56 | MemoryBump => 57
  | StateBump => 58 | MemoryGlobalInit => 59 | MemoryGlobalFinalize => 60 | MemoryLocal => 61
  | Global => 62 | Byte => 63 | Range => 64 | Mprotect => 65 | InstructionDecode => 66
  | InstructionFetch => 67 | PageProt => 68 | PageProtLocal => 69 | PageProtGlobalInit => 70
  | PageProtGlobalFinalize => 71 | Poseidon2 => 72
  end.

#[global] Instance as_u8_inj : Inj eq eq as_u8.
Proof. intros a b E. destruct a, b; (reflexivity || discriminate E). Qed.
#[global] Instance eq_dec : EqDecision t.
Proof. intros a b. destruct (decide (as_u8 a = as_u8 b)) as [E|E]; [left; now apply (inj as_u8)|right; congruence]. Defined.
End RiscvAirId.

Module SyscallCode.
Inductive t := HALT | WRITE | ENTER_UNCONSTRAINED | EXIT_UNCONSTRAINED | SHA_EXTEND | SHA_COMPRESS
  | ED_ADD | ED_DECOMPRESS | KECCAK_PERMUTE | SECP256K1_ADD | SECP256K1_DOUBLE |
  SECP256K1_DECOMPRESS | BN254_ADD | BN254_DOUBLE | COMMIT | COMMIT_DEFERRED_PROOFS |
  VERIFY_SP1_PROOF | BLS12381_DECOMPRESS | HINT_LEN | HINT_READ | UINT256_MUL | U256XU2048_MUL |
  BLS12381_ADD | BLS12381_DOUBLE | BLS12381_FP_ADD | BLS12381_FP_SUB | BLS12381_FP_MUL |
  BLS12381_FP2_ADD | BLS12381_FP2_SUB | BLS12381_FP2_MUL | BN254_FP_ADD | BN254_FP_SUB |
  BN254_FP_MUL | BN254_FP2_ADD | BN254_FP2_SUB | BN254_FP2_MUL | SECP256R1_ADD | SECP256R1_DOUBLE
  | SECP256R1_DECOMPRESS | UINT256_ADD_CARRY | UINT256_MUL_CARRY | MPROTECT | POSEIDON2.

#[global] Instance eq_dec : EqDecision t.
Proof. solve_decision. Defined.

Definition default : t := HALT.

Definition all : list t := [HALT; WRITE; ENTER_UNCONSTRAINED; EXIT_UNCONSTRAINED; SHA_EXTEND;
  SHA_COMPRESS; ED_ADD; ED_DECOMPRESS; KECCAK_PERMUTE; SECP256K1_ADD; SECP256K1_DOUBLE;
  SECP256K1_DECOMPRESS; BN254_ADD; BN254_DOUBLE; COMMIT; COMMIT_DEFERRED_PROOFS; VERIFY_SP1_PROOF;
  BLS12381_DECOMPRESS; HINT_LEN; HINT_READ; UINT256_MUL; U256XU2048_MUL; BLS12381_ADD;
  BLS12381_DOUBLE; BLS12381_FP_ADD; BLS12381_FP_SUB; BLS12381_FP_MUL; BLS12381_FP2_ADD;
  BLS12381_FP2_SUB; BLS12381_FP2_MUL; BN254_FP_ADD; BN254_FP_SUB; BN254_FP_MUL; BN254_FP2_ADD;
  BN254_FP2_SUB; BN254_FP2_MUL; SECP256R1_ADD; SECP256R1_DOUBLE; SECP256R1_DECOMPRESS;
  UINT256_ADD_CARRY; UINT256_MUL_CARRY; MPROTECT; POSEIDON2].

(** The discriminants. *)
Definition as_u32 (c : t) : Z :=
  match c with
  | HALT => 0x00000000
  | WRITE => 0x00000002
  | ENTER_UNCONSTRAINED => 0x00000003
  | EXIT_UNCONSTRAINED => 0x00000004
  | SHA_EXTEND => 0x00300105
  | SHA_COMPRESS => 0x00010106
  | ED_ADD => 0x00010107
  | ED_DECOMPRESS => 0x00000108
  | KECCAK_PERMUTE => 0x00010109
  | SECP256K1_ADD => 0x0001010a
  | SECP256K1_DOUBLE => 0x0000010b
  | SECP256K1_DECOMPRESS => 0x0000010c
  | BN254_ADD => 0x0001010e
  | BN254_DOUBLE => 0x0000010f
  | COMMIT => 0x00000010
  | COMMIT_DEFERRED_PROOFS => 0x0000001a
  | VERIFY_SP1_PROOF => 0x0000001b
  | BLS12381_DECOMPRESS => 0x0000011c
  | HINT_LEN => 0x000000f0
  | HINT_READ => 0x000000f1
  | UINT256_MUL => 0x0001011d
  | U256XU2048_MUL => 0x0001012f
  | BLS12381_ADD => 0x0001011e
  | BLS12381_DOUBLE => 0x0000011f
  | BLS12381_FP_ADD => 0x00010120
  | BLS12381_FP_SUB => 0x00010121
  | BLS12381_FP_MUL => 0x00010122
  | BLS12381_FP2_ADD => 0x00010123
  | BLS12381_FP2_SUB => 0x00010124
  | BLS12381_FP2_MUL => 0x00010125
  | BN254_FP_ADD => 0x00010126
  | BN254_FP_SUB => 0x00010127
  | BN254_FP_MUL => 0x00010128
  | BN254_FP2_ADD => 0x00010129
  | BN254_FP2_SUB => 0x0001012a
  | BN254_FP2_MUL => 0x0001012b
  | SECP256R1_ADD => 0x0001012c
  | SECP256R1_DOUBLE => 0x0000012d
  | SECP256R1_DECOMPRESS => 0x0000012e
  | UINT256_ADD_CARRY => 0x00010130
  | UINT256_MUL_CARRY => 0x00010131
  | MPROTECT => 0x00000132
  | POSEIDON2 => 0x00000133
  end.

(** [None] is the panic on an unknown number. *)
Definition from_u32 (value : Z) : option t :=
  match value with
  | 0x00000000 => Some HALT
  | 0x00000002 => Some WRITE
  | 0x00000003 => Some ENTER_UNCONSTRAINED
  | 0x00000004 => Some EXIT_UNCONSTRAINED
  | 0x00300105 => Some SHA_EXTEND
  | 0x00010106 => Some SHA_COMPRESS
  | 0x00010107 => Some ED_ADD
  | 0x00000108 => Some ED_DECOMPRESS
  | 0x00010109 => Some KECCAK_PERMUTE
  | 0x0001010a => Some SECP256K1_ADD
  | 0x0000010b => Some SECP256K1_DOUBLE
  | 0x0000010c => Some SECP256K1_DECOMPRESS
  | 0x0001010e => Some BN254_ADD
  | 0x0000010f => Some BN254_DOUBLE
  | 0x0001011e => Some BLS12381_ADD
  | 0x0000011f => Some BLS12381_DOUBLE
  | 0x00000010 => Some COMMIT
  | 0x0000001a => Some COMMIT_DEFERRED_PROOFS
  | 0x0000001b => Some VERIFY_SP1_PROOF
  | 0x000000f0 => Some HINT_LEN
  | 0x000000f1 => Some HINT_READ
  | 0x0001011d => Some UINT256_MUL
  | 0x0001012f => Some U256XU2048_MUL
  | 0x00010120 => Some BLS12381_FP_ADD
  | 0x00010121 => Some BLS12381_FP_SUB
  | 0x00010122 => Some BLS12381_FP_MUL
  | 0x00010123 => Some BLS12381_FP2_ADD
  | 0x00010124 => Some BLS12381_FP2_SUB
  | 0x00010125 => Some BLS12381_FP2_MUL
  | 0x00010126 => Some BN254_FP_ADD
  | 0x00010127 => Some BN254_FP_SUB
  | 0x00010128 => Some BN254_FP_MUL
  | 0x00010129 => Some BN254_FP2_ADD
  | 0x0001012a => Some BN254_FP2_SUB
  | 0x0001012b => Some BN254_FP2_MUL
  | 0x0000011c => Some BLS12381_DECOMPRESS
  | 0x0001012c => Some SECP256R1_ADD
  | 0x0000012d => Some SECP256R1_DOUBLE
  | 0x0000012e => Some SECP256R1_DECOMPRESS
  | 0x00010130 => Some UINT256_ADD_CARRY
  | 0x00010131 => Some UINT256_MUL_CARRY
  | 0x00000132 => Some MPROTECT
  | 0x00000133 => Some POSEIDON2
  | _ => None
  end.

(** Byte [i] of [to_le_bytes]. *)
Definition le_byte (x i : Z) : Z := (x ≫ (8 * i)) mod 2 ^ 8.
Definition syscall_id (c : t) : Z := le_byte (as_u32 c) 0.
Definition should_send (c : t) : Z := le_byte (as_u32 c) 1.

Definition count_map (c : t) : t :=
  match c with
  | BN254_FP_SUB => BN254_FP_ADD
  | BN254_FP_MUL => BN254_FP_ADD
  | BN254_FP2_SUB => BN254_FP2_ADD
  | BLS12381_FP_SUB => BLS12381_FP_ADD
  | BLS12381_FP_MUL => BLS12381_FP_ADD
  | BLS12381_FP2_SUB => BLS12381_FP2_ADD
  | _ => c
  end.

Inductive FieldOperation := Add | Mul | Sub | Div.
(** [None] is [unreachable!]. *)
Definition fp_op_map (c : t) : option FieldOperation :=
  match c with
  | BLS12381_FP_ADD | BLS12381_FP2_ADD | BN254_FP_ADD | BN254_FP2_ADD => Some Add
  | BLS12381_FP_SUB | BLS12381_FP2_SUB | BN254_FP_SUB | BN254_FP2_SUB => Some Sub
  | BLS12381_FP_MUL | BLS12381_FP2_MUL | BN254_FP_MUL | BN254_FP2_MUL => Some Mul
  | _ => None
  end.

Module Uint256Op.
Inductive t := Add | Mul.
End Uint256Op.
Abbreviation Uint256Operation := Uint256Op.t.
Definition uint256_op_map (c : t) : option Uint256Operation :=
  match c with
  | UINT256_ADD_CARRY => Some Uint256Op.Add
  | UINT256_MUL_CARRY => Some Uint256Op.Mul
  | _ => None
  end.

Definition as_air_id (c : t) : option RiscvAirId.t :=
  match c with
  | SHA_EXTEND => Some RiscvAirId.ShaExtend
  | SHA_COMPRESS => Some RiscvAirId.ShaCompress
  | ED_ADD => Some RiscvAirId.EdAddAssign
  | ED_DECOMPRESS => Some RiscvAirId.EdDecompress
  | KECCAK_PERMUTE => Some RiscvAirId.KeccakPermute
  | SECP256K1_ADD => Some RiscvAirId.Secp256k1AddAssign
  | SECP256K1_DOUBLE => Some RiscvAirId.Secp256k1DoubleAssign
  | SECP256K1_DECOMPRESS => Some RiscvAirId.Secp256k1Decompress
  | BN254_ADD => Some RiscvAirId.Bn254AddAssign
  | BN254_DOUBLE => Some RiscvAirId.Bn254DoubleAssign
  | BLS12381_DECOMPRESS => Some RiscvAirId.Bls12381Decompress
  | UINT256_MUL => Some RiscvAirId.Uint256MulMod
  | U256XU2048_MUL => Some RiscvAirId.U256XU2048Mul
  | BLS12381_ADD => Some RiscvAirId.Bls12381AddAssign
  | BLS12381_DOUBLE => Some RiscvAirId.Bls12381DoubleAssign
  | BLS12381_FP_ADD | BLS12381_FP_SUB | BLS12381_FP_MUL => Some RiscvAirId.Bls12381FpOpAssign
  | BLS12381_FP2_ADD | BLS12381_FP2_SUB => Some RiscvAirId.Bls12381Fp2AddSubAssign
  | BLS12381_FP2_MUL => Some RiscvAirId.Bls12381Fp2MulAssign
  | BN254_FP_ADD | BN254_FP_SUB | BN254_FP_MUL => Some RiscvAirId.Bn254FpOpAssign
  | BN254_FP2_ADD | BN254_FP2_SUB => Some RiscvAirId.Bn254Fp2AddSubAssign
  | BN254_FP2_MUL => Some RiscvAirId.Bn254Fp2MulAssign
  | SECP256R1_ADD => Some RiscvAirId.Secp256r1AddAssign
  | SECP256R1_DOUBLE => Some RiscvAirId.Secp256r1DoubleAssign
  | SECP256R1_DECOMPRESS => Some RiscvAirId.Secp256r1Decompress
  | UINT256_ADD_CARRY | UINT256_MUL_CARRY => Some RiscvAirId.Uint256Ops
  | MPROTECT => Some RiscvAirId.Mprotect
  | POSEIDON2 => Some RiscvAirId.Poseidon2
  | HALT | WRITE | ENTER_UNCONSTRAINED | EXIT_UNCONSTRAINED | COMMIT | COMMIT_DEFERRED_PROOFS |
  VERIFY_SP1_PROOF | HINT_LEN | HINT_READ => None
  end.

Definition touched_addresses (c : t) : Z :=
  match c with
  | SHA_EXTEND => 64
  | SHA_COMPRESS => 72
  | KECCAK_PERMUTE => 25
  | BLS12381_ADD | BLS12381_FP2_ADD | BLS12381_FP2_SUB | BLS12381_FP2_MUL => 24
  | BLS12381_DECOMPRESS | BLS12381_DOUBLE | BLS12381_FP_ADD | BLS12381_FP_SUB | BLS12381_FP_MUL =>
  12
  | ED_ADD | SECP256K1_ADD | SECP256R1_ADD | BN254_ADD | BN254_FP2_ADD | BN254_FP2_SUB |
  BN254_FP2_MUL => 16
  | ED_DECOMPRESS | SECP256K1_DECOMPRESS | SECP256R1_DECOMPRESS | SECP256K1_DOUBLE |
  SECP256R1_DOUBLE | BN254_DOUBLE | BN254_FP_ADD | BN254_FP_SUB | BN254_FP_MUL => 8
  | UINT256_MUL => 12
  | UINT256_ADD_CARRY | UINT256_MUL_CARRY => 20
  | U256XU2048_MUL => 72
  | MPROTECT => 0
  | POSEIDON2 => 8
  | _ => 0
  end.

Definition touched_pages (c : t) : Z :=
  match c with
  | SHA_EXTEND => 2 * 2
  | SHA_COMPRESS => 3 * 2
  | KECCAK_PERMUTE => 2 * 2
  | BLS12381_ADD | SECP256K1_ADD | SECP256R1_ADD | BN254_ADD | ED_ADD | BLS12381_DECOMPRESS |
  SECP256K1_DECOMPRESS | SECP256R1_DECOMPRESS | ED_DECOMPRESS => 2 * 2
  | BLS12381_DOUBLE | SECP256K1_DOUBLE | SECP256R1_DOUBLE | BN254_DOUBLE => 2
  | BLS12381_FP2_ADD | BLS12381_FP2_SUB | BLS12381_FP2_MUL | BLS12381_FP_ADD | BLS12381_FP_SUB |
  BLS12381_FP_MUL | BN254_FP2_ADD | BN254_FP2_SUB | BN254_FP2_MUL | BN254_FP_ADD | BN254_FP_SUB |
  BN254_FP_MUL => 2 * 2
  | UINT256_MUL => 2 * 2
  | UINT256_ADD_CARRY | UINT256_MUL_CARRY => 5 * 2
  | U256XU2048_MUL => 4 * 2
  | MPROTECT => 1
  | POSEIDON2 => 2
  | _ => 0
  end.

End SyscallCode.

Lemma from_u32_Some v c : SyscallCode.from_u32 v = Some c -> SyscallCode.as_u32 c = v.
Proof.
  unfold SyscallCode.from_u32. intros H.
  repeat match type of H with
  | match ?x with _ => _ end = _ => destruct x; try discriminate H
  end; injection H as <-; reflexivity.
Qed.

(** C35. The numbering of the system calls is consistent: [from_u32] inverts
    the discriminants and accepts nothing else, the low byte alone identifies
    the call, the second byte is 0 or 1, and it is 1 exactly for the calls that
    have a table, so that the [as_air_id().unwrap()] of [execute_ecall] on a
    call that is to be sent cannot panic. *)
Theorem syscall_numbering :
  (forall v c, SyscallCode.from_u32 v = Some c <-> SyscallCode.as_u32 c = v) /\
  (forall c d, SyscallCode.syscall_id c = SyscallCode.syscall_id d -> c = d) /\
  (forall c, SyscallCode.should_send c = if SyscallCode.as_air_id c then 1 else 0).
Proof.
  split_and!.
  - intros v c. split; [apply from_u32_Some|]. intros <-. now destruct c.
  - intros c d. destruct c, d; vm_compute; (reflexivity || discriminate).
  - intros c. now destruct c.
Qed.
