(* ===== verification/State.v ===== *)
(** * State: the executor's state

    The data of [core/executor/src]: the memory entries and access records of
    [events/memory.rs] and [record.rs], the events of [events/instr.rs],
    [events/syscall.rs] and [events/precompiles], [Program], [ExecutionState], [ForkState],
    [LocalCounts] and the fields of [Executor] the interpreter reads and
    writes.  A memory is the finite map that [PagedMemory] refines.  An
    operation of the executor is a function of the state that returns a
    value, one of the errors of [ExecutionError], or panics. *)
From Stdlib Require Import ZArith Lia Bool.
From stdpp Require Import base numbers option list gmap.
From S2P Require Import Prelude Isa PagedMemory SyscallCode.

(** ** Constants *)
Definition M64 : Z := 0xFFFFFFFFFFFFFFFF.
Definition PC_INC : Z := 4.
Definition CLK_INC : Z := 8.
Definition HALT_PC : Z := 1.
Definition NUM_REGISTERS : Z := 32.
Definition MAXIMUM_MEMORY_SIZE : Z := (1 ≪ 48) - 1.
Definition PAGE_SIZE : Z := 1 ≪ 12.
(** The segment flags of the ELF format. *)
Definition PROT_READ : Z := 4.
Definition PROT_WRITE : Z := 2.
Definition PROT_EXEC : Z := 1.
Definition DEFAULT_PAGE_PROT : Z := Z.lor PROT_READ PROT_WRITE.

(** ** Modes *)
Module ExecutorMode.
Inductive t := Simple | Checkpoint | Trace | ShapeCollection.
#[global] Instance eq_dec : EqDecision t.
Proof. solve_decision. Defined.
End ExecutorMode.

(** The trait [ExecutorConfig] and its four implementations. *)
Record ExecutorConfig := mkConfig { MODE : ExecutorMode.t; UNCONSTRAINED : bool }.
Definition Simple : ExecutorConfig := mkConfig ExecutorMode.Simple false.
Definition Checkpoint : ExecutorConfig := mkConfig ExecutorMode.Checkpoint false.
Definition Trace : ExecutorConfig := mkConfig ExecutorMode.Trace false.
Definition Unconstrained : ExecutorConfig := mkConfig ExecutorMode.Simple true.

Definition is_trace (E : ExecutorConfig) : bool := bool_decide (MODE E = ExecutorMode.Trace).
Definition is_checkpoint (E : ExecutorConfig) : bool := bool_decide (MODE E = ExecutorMode.Checkpoint).

Inductive ExecutionError :=
| InvalidMemoryAccess (opcode : Opcode.t) (addr : Z)
| InvalidMemoryAccessUntrustedProgram (addr : Z)
| UnsupportedSyscall (id : Z)
| Breakpoint
| ExceededCycleLimit (limit : Z)
| InvalidSyscallUsage (id : Z)
| Unimplemented
| EndInUnconstrained
| UnconstrainedCycleLimitExceeded (limit : Z)
| UnexpectedExitCode (code : Z)
| InstructionNotFound.

(** ** Memory entries and access records *)
Module MemoryRecord.
Record t := mk {
  timestamp : Z;
  value : Z }.
End MemoryRecord.

Module MemoryEntry.
Record t := mk {
  external_flag : bool;
  timestamp : Z;
  value : Z }.
Definition init (v : Z) : t := mk false 0 v.
Definition into_record (e : t) : MemoryRecord.t := MemoryRecord.mk (timestamp e) (value e).
End MemoryEntry.

Module PageProtRecord.
Record t := mk {
  external_flag : bool;
  timestamp : Z;
  page_prot : Z }.
End PageProtRecord.

Module MemoryReadRecord.
Record t := mk {
  value : Z;
  timestamp : Z;
  prev_timestamp : Z;
  prev_page_prot_record : option PageProtRecord.t }.
Definition new (entry prev_entry : MemoryEntry.t) (pp : option PageProtRecord.t) : t :=
  mk (MemoryEntry.value entry) (MemoryEntry.timestamp entry) (MemoryEntry.timestamp prev_entry) pp.
Definition with_page_prot (p : PageProtRecord.t) (r : t) : t :=
  mk (value r) (timestamp r) (prev_timestamp r) (Some p).
End MemoryReadRecord.

Module MemoryWriteRecord.
Record t := mk {
  value : Z;
  timestamp : Z;
  prev_value : Z;
  prev_timestamp : Z;
  prev_page_prot_record : option PageProtRecord.t }.
Definition new (entry prev_entry : MemoryEntry.t) (pp : option PageProtRecord.t) : t :=
  mk (MemoryEntry.value entry) (MemoryEntry.timestamp entry)
     (MemoryEntry.value prev_entry) (MemoryEntry.timestamp prev_entry) pp.
Definition with_page_prot (p : PageProtRecord.t) (r : t) : t :=
  mk (value r) (timestamp r) (prev_value r) (prev_timestamp r) (Some p).
End MemoryWriteRecord.

Module MemoryRecordEnum.
Inductive t := Read (r : MemoryReadRecord.t) | Write (r : MemoryWriteRecord.t).
Definition current_record (x : t) : MemoryRecord.t :=
  match x with
  | Read r => MemoryRecord.mk (MemoryReadRecord.timestamp r) (MemoryReadRecord.value r)
  | Write r => MemoryRecord.mk (MemoryWriteRecord.timestamp r) (MemoryWriteRecord.value r)
  end.
Definition previous_record (x : t) : MemoryRecord.t :=
  match x with
  | Read r => MemoryRecord.mk (MemoryReadRecord.prev_timestamp r) (MemoryReadRecord.value r)
  | Write r => MemoryRecord.mk (MemoryWriteRecord.prev_timestamp r) (MemoryWriteRecord.prev_value r)
  end.
Definition previous_page_prot_record (x : t) : option PageProtRecord.t :=
  match x with
  | Read r => MemoryReadRecord.prev_page_prot_record r
  | Write r => MemoryWriteRecord.prev_page_prot_record r
  end.
End MemoryRecordEnum.

Module MemoryAccessPosition.
Inductive t := UntrustedInstruction | Memory | C | B | A.
Definition as_u64 (p : t) : Z :=
  match p with UntrustedInstruction => 0 | Memory => 1 | C => 2 | B => 3 | A => 4 end.
End MemoryAccessPosition.

Module MemoryLocalEvent.
Record t := mk {
  addr : Z;
  initial_mem_access : MemoryRecord.t;
  final_mem_access : MemoryRecord.t }.
End MemoryLocalEvent.

Module PageProtLocalEvent.
Record t := mk {
  page_idx : Z;
  initial_page_prot_access : PageProtRecord.t;
  final_page_prot_access : PageProtRecord.t }.
End PageProtLocalEvent.

Module MemoryInitializeFinalizeEvent.
Record t := mk {
  addr : Z;
  value : Z;
  timestamp : Z }.
Definition initialize (addr value : Z) : t := mk addr value 0.
Definition finalize_from_record (addr : Z) (r : MemoryEntry.t) : t :=
  mk addr (MemoryEntry.value r) (MemoryEntry.timestamp r).
End MemoryInitializeFinalizeEvent.

Module PageProtInitializeFinalizeEvent.
Record t := mk {
  page_idx : Z;
  page_prot : Z;
  timestamp : Z }.
Definition initialize (page_idx page_prot : Z) : t := mk page_idx page_prot 0.
Definition finalize_from_record (page_idx : Z) (r : PageProtRecord.t) : t :=
  mk page_idx (PageProtRecord.page_prot r) (PageProtRecord.timestamp r).
End PageProtInitializeFinalizeEvent.

Module MemoryAccessRecord.
Record t := mk {
  a : option MemoryRecordEnum.t;
  b : option MemoryRecordEnum.t;
  c : option MemoryRecordEnum.t;
  memory : option MemoryRecordEnum.t;
  untrusted_instruction : option (MemoryRecordEnum.t * Z) }.
Definition set_a (v : option MemoryRecordEnum.t) (s : t) : t := mk v (b s) (c s) (memory s)
  (untrusted_instruction s).
Definition set_b (v : option MemoryRecordEnum.t) (s : t) : t := mk (a s) v (c s) (memory s)
  (untrusted_instruction s).
Definition set_c (v : option MemoryRecordEnum.t) (s : t) : t := mk (a s) (b s) v (memory s)
  (untrusted_instruction s).
Definition set_memory (v : option MemoryRecordEnum.t) (s : t) : t := mk (a s) (b s) (c s) v
  (untrusted_instruction s).
Definition set_untrusted_instruction (v : option (MemoryRecordEnum.t * Z)) (s : t) : t := mk (a s)
  (b s) (c s) (memory s) v.
Definition default : t := mk None None None None None.
End MemoryAccessRecord.

(** The records of the four instruction formats; [None] is the [expect] panic
    of a missing access. *)
Module RTypeRecord.
Record t := mk {
  op_a : Z;
  a : MemoryRecordEnum.t;
  op_b : Z;
  b : MemoryRecordEnum.t;
  op_c : Z;
  c : MemoryRecordEnum.t;
  is_untrusted : bool }.
Definition new (v : MemoryAccessRecord.t) (i : Instruction.t) : option t :=
  a ← MemoryAccessRecord.a v; b ← MemoryAccessRecord.b v; c ← MemoryAccessRecord.c v;
  Some (mk (Instruction.op_a i) a (Instruction.op_b i) b (Instruction.op_c i) c
           (bool_decide (is_Some (MemoryAccessRecord.untrusted_instruction v)))).
End RTypeRecord.

Module ITypeRecord.
Record t := mk {
  op_a : Z;
  a : MemoryRecordEnum.t;
  op_b : Z;
  b : MemoryRecordEnum.t;
  op_c : Z;
  is_untrusted : bool }.
Definition new (v : MemoryAccessRecord.t) (i : Instruction.t) : option t :=
  a ← MemoryAccessRecord.a v; b ← MemoryAccessRecord.b v;
  Some (mk (Instruction.op_a i) a (Instruction.op_b i) b (Instruction.op_c i)
           (bool_decide (is_Some (MemoryAccessRecord.untrusted_instruction v)))).
End ITypeRecord.

Module JTypeRecord.
Record t := mk {
  op_a : Z;
  a : MemoryRecordEnum.t;
  op_b : Z;
  op_c : Z;
  is_untrusted : bool }.
Definition new (v : MemoryAccessRecord.t) (i : Instruction.t) : option t :=
  a ← MemoryAccessRecord.a v;
  Some (mk (Instruction.op_a i) a (Instruction.op_b i) (Instruction.op_c i)
           (bool_decide (is_Some (MemoryAccessRecord.untrusted_instruction v)))).
End JTypeRecord.

Module ALUTypeRecord.
Record t := mk {
  op_a : Z;
  a : MemoryRecordEnum.t;
  op_b : Z;
  b : MemoryRecordEnum.t;
  op_c : Z;
  c : option MemoryRecordEnum.t;
  is_imm : bool;
  is_untrusted : bool }.
Definition new (v : MemoryAccessRecord.t) (i : Instruction.t) : option t :=
  a ← MemoryAccessRecord.a v; b ← MemoryAccessRecord.b v;
  Some (mk (Instruction.op_a i) a (Instruction.op_b i) b (Instruction.op_c i) (MemoryAccessRecord.c v)
           (Instruction.imm_c i)
           (bool_decide (is_Some (MemoryAccessRecord.untrusted_instruction v)))).
End ALUTypeRecord.

(** ** Events *)
Module AluEvent.
Record t := mk {
  clk : Z;
  pc : Z;
  opcode : Opcode.t;
  a : Z;
  b : Z;
  c : Z;
  op_a_0 : bool }.
End AluEvent.

Module MemInstrEvent.
Record t := mk {
  clk : Z;
  pc : Z;
  opcode : Opcode.t;
  a : Z;
  b : Z;
  c : Z;
  op_a_0 : bool;
  mem_access : MemoryRecordEnum.t }.
End MemInstrEvent.

Module BranchEvent.
Record t := mk {
  clk : Z;
  pc : Z;
  next_pc : Z;
  opcode : Opcode.t;
  a : Z;
  b : Z;
  c : Z;
  op_a_0 : bool }.
End BranchEvent.

Module JumpEvent.
Record t := mk {
  clk : Z;
  pc : Z;
  next_pc : Z;
  opcode : Opcode.t;
  a : Z;
  b : Z;
  c : Z;
  op_a_0 : bool }.
End JumpEvent.

Module UTypeEvent.
Record t := mk {
  clk : Z;
  pc : Z;
  opcode : Opcode.t;
  a : Z;
  b : Z;
  c : Z;
  op_a_0 : bool }.
End UTypeEvent.

Module InstructionFetchEvent.
Record t := mk {
  clk : Z;
  pc : Z;
  instruction : Instruction.t;
  encoded_instruction : Z }.
End InstructionFetchEvent.

Module InstructionDecodeEvent.
Record t := mk {
  instruction : Instruction.t;
  encoded_instruction : Z;
  multiplicity : Z }.
End InstructionDecodeEvent.

Module SyscallEvent.
Record t := mk {
  pc : Z;
  next_pc : Z;
  clk : Z;
  op_a_0 : bool;
  should_send : bool;
  syscall_code : SyscallCode.t;
  syscall_id : Z;
  arg1 : Z;
  arg2 : Z;
  exit_code : Z }.
End SyscallEvent.

(** ** Precompile events *)
Module ShaExtendMemoryRecords.
Record t := mk {
  w_i_minus_15_reads : MemoryReadRecord.t;
  w_i_minus_2_reads : MemoryReadRecord.t;
  w_i_minus_16_reads : MemoryReadRecord.t;
  w_i_minus_7_reads : MemoryReadRecord.t;
  w_i_write : MemoryWriteRecord.t }.
End ShaExtendMemoryRecords.

Module ShaExtendPageProtRecords.
Record t := mk {
  initial_page_prot_records : list PageProtRecord.t;
  extension_page_prot_records : list PageProtRecord.t }.
End ShaExtendPageProtRecords.

Module ShaExtendEvent.
Record t := mk {
  clk : Z;
  w_ptr : Z;
  memory_records : list ShaExtendMemoryRecords.t;
  page_prot_records : ShaExtendPageProtRecords.t;
  local_mem_access : list MemoryLocalEvent.t;
  local_page_prot_access : list PageProtLocalEvent.t }.
End ShaExtendEvent.

Module ShaCompressPageProtAccess.
Record t := mk {
  h_read_page_prot_records : list PageProtRecord.t;
  w_read_page_prot_records : list PageProtRecord.t;
  h_write_page_prot_records : list PageProtRecord.t }.
End ShaCompressPageProtAccess.

Module ShaCompressEvent.
Record t := mk {
  clk : Z;
  w_ptr : Z;
  h_ptr : Z;
  w : list Z;
  h : list Z;
  h_read_records : list MemoryReadRecord.t;
  w_i_read_records : list MemoryReadRecord.t;
  h_write_records : list MemoryWriteRecord.t;
  local_mem_access : list MemoryLocalEvent.t;
  page_prot_access : ShaCompressPageProtAccess.t;
  local_page_prot_access : list PageProtLocalEvent.t }.
End ShaCompressEvent.

Module KeccakPermutePageProtRecords.
Record t := mk {
  read_pre_state_page_prot_records : list PageProtRecord.t;
  write_post_state_page_prot_records : list PageProtRecord.t }.
End KeccakPermutePageProtRecords.

Module KeccakPermuteEvent.
Record t := mk {
  clk : Z;
  pre_state : list Z;
  post_state : list Z;
  state_read_records : list MemoryReadRecord.t;
  state_write_records : list MemoryWriteRecord.t;
  state_addr : Z;
  local_mem_access : list MemoryLocalEvent.t;
  page_prot_records : KeccakPermutePageProtRecords.t;
  local_page_prot_access : list PageProtLocalEvent.t }.
End KeccakPermuteEvent.

Module EllipticCurvePageProtRecords.
Record t := mk {
  read_page_prot_records : list PageProtRecord.t;
  write_page_prot_records : list PageProtRecord.t }.
End EllipticCurvePageProtRecords.

Module EllipticCurveAddEvent.
Record t := mk {
  clk : Z;
  p_ptr : Z;
  p : list Z;
  q_ptr : Z;
  q : list Z;
  p_memory_records : list MemoryWriteRecord.t;
  q_memory_records : list MemoryReadRecord.t;
  local_mem_access : list MemoryLocalEvent.t;
  page_prot_records : EllipticCurvePageProtRecords.t;
  local_page_prot_access : list PageProtLocalEvent.t }.
End EllipticCurveAddEvent.

Module EllipticCurveDoubleEvent.
Record t := mk {
  clk : Z;
  p_ptr : Z;
  p : list Z;
  p_memory_records : list MemoryWriteRecord.t;
  local_mem_access : list MemoryLocalEvent.t;
  write_slice_page_prot_access : list PageProtRecord.t;
  local_page_prot_access : list PageProtLocalEvent.t }.
End EllipticCurveDoubleEvent.

Module EllipticCurveDecompressEvent.
Record t := mk {
  clk : Z;
  ptr : Z;
  sign_bit : bool;
  x_bytes : list Z;
  decompressed_y_bytes : list Z;
  x_memory_records : list MemoryReadRecord.t;
  y_memory_records : list MemoryWriteRecord.t;
  local_mem_access : list MemoryLocalEvent.t;
  page_prot_records : EllipticCurvePageProtRecords.t;
  local_page_prot_access : list PageProtLocalEvent.t }.
End EllipticCurveDecompressEvent.

Module EdwardsPageProtRecords.
Record t := mk {
  read_page_prot_records : list PageProtRecord.t;
  write_page_prot_records : list PageProtRecord.t }.
End EdwardsPageProtRecords.

Module EdDecompressEvent.
Record t := mk {
  clk : Z;
  ptr : Z;
  sign : bool;
  y_bytes : list Z;
  decompressed_x_bytes : list Z;
  x_memory_records : list MemoryWriteRecord.t;
  y_memory_records : list MemoryReadRecord.t;
  local_mem_access : list MemoryLocalEvent.t;
  page_prot_records : EdwardsPageProtRecords.t;
  local_page_prot_access : list PageProtLocalEvent.t }.
End EdDecompressEvent.

Module FpPageProtRecords.
Record t := mk {
  read_page_prot_records : list PageProtRecord.t;
  write_page_prot_records : list PageProtRecord.t }.
End FpPageProtRecords.

Module FpOpEvent.
Record t := mk {
  clk : Z;
  x_ptr : Z;
  x : list Z;
  y_ptr : Z;
  y : list Z;
  op : SyscallCode.FieldOperation;
  x_memory_records : list MemoryWriteRecord.t;
  y_memory_records : list MemoryReadRecord.t;
  local_mem_access : list MemoryLocalEvent.t;
  page_prot_records : FpPageProtRecords.t;
  local_page_prot_access : list PageProtLocalEvent.t }.
End FpOpEvent.

Module Fp2AddSubEvent.
Record t := mk {
  clk : Z;
  op : SyscallCode.FieldOperation;
  x_ptr : Z;
  x : list Z;
  y_ptr : Z;
  y : list Z;
  x_memory_records : list MemoryWriteRecord.t;
  y_memory_records : list MemoryReadRecord.t;
  local_mem_access : list MemoryLocalEvent.t;
  page_prot_records : FpPageProtRecords.t;
  local_page_prot_access : list PageProtLocalEvent.t }.
End Fp2AddSubEvent.

Module Fp2MulEvent.
Record t := mk {
  clk : Z;
  x_ptr : Z;
  x : list Z;
  y_ptr : Z;
  y : list Z;
  x_memory_records : list MemoryWriteRecord.t;
  y_memory_records : list MemoryReadRecord.t;
  local_mem_access : list MemoryLocalEvent.t;
  page_prot_records : FpPageProtRecords.t;
  local_page_prot_access : list PageProtLocalEvent.t }.
End Fp2MulEvent.

Module Uint256MulPageProtRecords.
Record t := mk {
  write_x_page_prot_records : list PageProtRecord.t;
  read_y_modulus_page_prot_records : list PageProtRecord.t }.
End Uint256MulPageProtRecords.

Module Uint256MulEvent.
Record t := mk {
  clk : Z;
  x_ptr : Z;
  x : list Z;
  y_ptr : Z;
  y : list Z;
  modulus : list Z;
  x_memory_records : list MemoryWriteRecord.t;
  y_memory_records : list MemoryReadRecord.t;
  modulus_memory_records : list MemoryReadRecord.t;
  local_mem_access : list MemoryLocalEvent.t;
  page_prot_records : Uint256MulPageProtRecords.t;
  local_page_prot_access : list PageProtLocalEvent.t }.
End Uint256MulEvent.

Module Uint256OpsPageProtRecords.
Record t := mk {
  read_a_page_prot_records : list PageProtRecord.t;
  read_b_page_prot_records : list PageProtRecord.t;
  read_c_page_prot_records : list PageProtRecord.t;
  write_d_page_prot_records : list PageProtRecord.t;
  write_e_page_prot_records : list PageProtRecord.t }.
End Uint256OpsPageProtRecords.

Module Uint256OpsEvent.
Record t := mk {
  clk : Z;
  op : SyscallCode.Uint256Operation;
  a_ptr : Z;
  a : list Z;
  b_ptr : Z;
  b : list Z;
  c_ptr : Z;
  c : list Z;
  d_ptr : Z;
  d : list Z;
  e_ptr : Z;
  e : list Z;
  c_ptr_memory : MemoryReadRecord.t;
  d_ptr_memory : MemoryReadRecord.t;
  e_ptr_memory : MemoryReadRecord.t;
  a_memory_records : list MemoryReadRecord.t;
  b_memory_records : list MemoryReadRecord.t;
  c_memory_records : list MemoryReadRecord.t;
  d_memory_records : list MemoryWriteRecord.t;
  e_memory_records : list MemoryWriteRecord.t;
  local_mem_access : list MemoryLocalEvent.t;
  page_prot_records : Uint256OpsPageProtRecords.t;
  local_page_prot_access : list PageProtLocalEvent.t }.
End Uint256OpsEvent.

Module U256xU2048MulPageProtRecords.
Record t := mk {
  read_a_page_prot_records : list PageProtRecord.t;
  read_b_page_prot_records : list PageProtRecord.t;
  write_lo_page_prot_records : list PageProtRecord.t;
  write_hi_page_prot_records : list PageProtRecord.t }.
End U256xU2048MulPageProtRecords.

Module U256xU2048MulEvent.
Record t := mk {
  clk : Z;
  a_ptr : Z;
  a : list Z;
  b_ptr : Z;
  b : list Z;
  lo_ptr : Z;
  lo_ptr_memory : MemoryReadRecord.t;
  lo : list Z;
  hi_ptr : Z;
  hi_ptr_memory : MemoryReadRecord.t;
  hi : list Z;
  a_memory_records : list MemoryReadRecord.t;
  b_memory_records : list MemoryReadRecord.t;
  lo_memory_records : list MemoryWriteRecord.t;
  hi_memory_records : list MemoryWriteRecord.t;
  local_mem_access : list MemoryLocalEvent.t;
  page_prot_records : U256xU2048MulPageProtRecords.t;
  local_page_prot_access : list PageProtLocalEvent.t }.
End U256xU2048MulEvent.

Module MProtectEvent.
Record t := mk {
  addr : Z;
  local_page_prot_access : list PageProtLocalEvent.t }.
End MProtectEvent.

Module Poseidon2PrecompileEvent.
Record t := mk {
  clk : Z;
  ptr : Z;
  memory_records : list MemoryWriteRecord.t;
  page_prot_records : list PageProtRecord.t;
  local_mem_access : list MemoryLocalEvent.t;
  local_page_prot_access : list PageProtLocalEvent.t }.
End Poseidon2PrecompileEvent.

Module PrecompileEvent.
Inductive t :=
| ShaExtend (e : ShaExtendEvent.t)
| ShaCompress (e : ShaCompressEvent.t)
| KeccakPermute (e : KeccakPermuteEvent.t)
| EdAdd (e : EllipticCurveAddEvent.t)
| EdDecompress (e : EdDecompressEvent.t)
| Secp256k1Add (e : EllipticCurveAddEvent.t)
| Secp256k1Double (e : EllipticCurveDoubleEvent.t)
| Secp256k1Decompress (e : EllipticCurveDecompressEvent.t)
| Secp256r1Add (e : EllipticCurveAddEvent.t)
| Secp256r1Double (e : EllipticCurveDoubleEvent.t)
| Secp256r1Decompress (e : EllipticCurveDecompressEvent.t)
| K256Decompress (e : EllipticCurveDecompressEvent.t)
| Bn254Add (e : EllipticCurveAddEvent.t)
| Bn254Double (e : EllipticCurveDoubleEvent.t)
| Bn254Fp (e : FpOpEvent.t)
| Bn254Fp2AddSub (e : Fp2AddSubEvent.t)
| Bn254Fp2Mul (e : Fp2MulEvent.t)
| Bls12381Add (e : EllipticCurveAddEvent.t)
| Bls12381Double (e : EllipticCurveDoubleEvent.t)
| Bls12381Decompress (e : EllipticCurveDecompressEvent.t)
| Bls12381Fp (e : FpOpEvent.t)
| Bls12381Fp2AddSub (e : Fp2AddSubEvent.t)
| Bls12381Fp2Mul (e : Fp2MulEvent.t)
| Uint256Mul (e : Uint256MulEvent.t)
| Uint256Ops (e : Uint256OpsEvent.t)
| U256xU2048Mul (e : U256xU2048MulEvent.t)
| Mprotect (e : MProtectEvent.t)
| POSEIDON2 (e : Poseidon2PrecompileEvent.t).

Definition local_mem_access (x : t) : list MemoryLocalEvent.t :=
  match x with
  | ShaExtend e => ShaExtendEvent.local_mem_access e
  | ShaCompress e => ShaCompressEvent.local_mem_access e
  | KeccakPermute e => KeccakPermuteEvent.local_mem_access e
  | EdAdd e | Secp256k1Add e | Secp256r1Add e | Bn254Add e | Bls12381Add e => EllipticCurveAddEvent.local_mem_access e
  | EdDecompress e => EdDecompressEvent.local_mem_access e
  | Secp256k1Double e | Secp256r1Double e | Bn254Double e | Bls12381Double e => EllipticCurveDoubleEvent.local_mem_access e
  | Secp256k1Decompress e | Secp256r1Decompress e | K256Decompress e | Bls12381Decompress e => EllipticCurveDecompressEvent.local_mem_access e
  | Bn254Fp e | Bls12381Fp e => FpOpEvent.local_mem_access e
  | Bn254Fp2AddSub e | Bls12381Fp2AddSub e => Fp2AddSubEvent.local_mem_access e
  | Bn254Fp2Mul e | Bls12381Fp2Mul e => Fp2MulEvent.local_mem_access e
  | Uint256Mul e => Uint256MulEvent.local_mem_access e
  | Uint256Ops e => Uint256OpsEvent.local_mem_access e
  | U256xU2048Mul e => U256xU2048MulEvent.local_mem_access e
  | Mprotect _ => []
  | POSEIDON2 e => Poseidon2PrecompileEvent.local_mem_access e
  end.
Definition local_page_prot_access (x : t) : list PageProtLocalEvent.t :=
  match x with
  | ShaExtend e => ShaExtendEvent.local_page_prot_access e
  | ShaCompress e => ShaCompressEvent.local_page_prot_access e
  | KeccakPermute e => KeccakPermuteEvent.local_page_prot_access e
  | EdAdd e | Secp256k1Add e | Secp256r1Add e | Bn254Add e | Bls12381Add e => EllipticCurveAddEvent.local_page_prot_access e
  | EdDecompress e => EdDecompressEvent.local_page_prot_access e
  | Secp256k1Double e | Secp256r1Double e | Bn254Double e | Bls12381Double e => EllipticCurveDoubleEvent.local_page_prot_access e
  | Secp256k1Decompress e | Secp256r1Decompress e | K256Decompress e | Bls12381Decompress e => EllipticCurveDecompressEvent.local_page_prot_access e
  | Bn254Fp e | Bls12381Fp e => FpOpEvent.local_page_prot_access e
  | Bn254Fp2AddSub e | Bls12381Fp2AddSub e => Fp2AddSubEvent.local_page_prot_access e
  | Bn254Fp2Mul e | Bls12381Fp2Mul e => Fp2MulEvent.local_page_prot_access e
  | Uint256Mul e => Uint256MulEvent.local_page_prot_access e
  | Uint256Ops e => Uint256OpsEvent.local_page_prot_access e
  | U256xU2048Mul e => U256xU2048MulEvent.local_page_prot_access e
  | Mprotect e => MProtectEvent.local_page_prot_access e
  | POSEIDON2 e => Poseidon2PrecompileEvent.local_page_prot_access e
  end.
End PrecompileEvent.

(** The event vectors of [ExecutionRecord] are kept as one log, in emission
    order: the constructor names the vector an event is pushed to. *)
Inductive Event :=
| add_events (e : AluEvent.t) (r : RTypeRecord.t)
| addw_events (e : AluEvent.t) (r : ALUTypeRecord.t)
| addi_events (e : AluEvent.t) (r : ITypeRecord.t)
| mul_events (e : AluEvent.t) (r : RTypeRecord.t)
| sub_events (e : AluEvent.t) (r : RTypeRecord.t)
| subw_events (e : AluEvent.t) (r : RTypeRecord.t)
| bitwise_events (e : AluEvent.t) (r : ALUTypeRecord.t)
| shift_left_events (e : AluEvent.t) (r : ALUTypeRecord.t)
| shift_right_events (e : AluEvent.t) (r : ALUTypeRecord.t)
| divrem_events (e : AluEvent.t) (r : RTypeRecord.t)
| lt_events (e : AluEvent.t) (r : ALUTypeRecord.t)
| memory_load_byte_events (e : MemInstrEvent.t) (r : ITypeRecord.t)
| memory_load_half_events (e : MemInstrEvent.t) (r : ITypeRecord.t)
| memory_load_word_events (e : MemInstrEvent.t) (r : ITypeRecord.t)
| memory_load_x0_events (e : MemInstrEvent.t) (r : ITypeRecord.t)
| memory_load_double_events (e : MemInstrEvent.t) (r : ITypeRecord.t)
| memory_store_byte_events (e : MemInstrEvent.t) (r : ITypeRecord.t)
| memory_store_half_events (e : MemInstrEvent.t) (r : ITypeRecord.t)
| memory_store_word_events (e : MemInstrEvent.t) (r : ITypeRecord.t)
| memory_store_double_events (e : MemInstrEvent.t) (r : ITypeRecord.t)
| utype_events (e : UTypeEvent.t) (r : JTypeRecord.t)
| branch_events (e : BranchEvent.t) (r : ITypeRecord.t)
| jal_events (e : JumpEvent.t) (r : JTypeRecord.t)
| jalr_events (e : JumpEvent.t) (r : ITypeRecord.t)
| syscall_events (e : SyscallEvent.t) (r : RTypeRecord.t)
| instruction_fetch_events (e : InstructionFetchEvent.t) (r : MemoryAccessRecord.t)
| precompile_events (c : SyscallCode.t) (s : SyscallEvent.t) (e : PrecompileEvent.t)
| bump_memory_events (x : MemoryRecordEnum.t) (addr : Z) (at_end : bool)
| bump_state_events (clk increment : Z) (bump2 : bool) (next_pc : Z)
| cpu_local_memory_access (e : MemoryLocalEvent.t)
| cpu_local_page_prot_access (e : PageProtLocalEvent.t)
| instruction_decode_events (e : InstructionDecodeEvent.t)
| global_memory_initialize_events (e : MemoryInitializeFinalizeEvent.t)
| global_memory_finalize_events (e : MemoryInitializeFinalizeEvent.t)
| global_page_prot_initialize_events (e : PageProtInitializeFinalizeEvent.t)
| global_page_prot_finalize_events (e : PageProtInitializeFinalizeEvent.t).

(** ** Program, record and state *)
Module Program.
Record t := mk {
  instructions : list Instruction.t;
  pc_start_abs : Z;
  pc_base : Z;
  memory_image : gmap Z Z;
  page_prot_image : gmap Z Z;
  enable_untrusted_programs : bool }.
(** The subtraction wraps in release builds: an address below [pc_base] is far
    beyond the last instruction. *)
Definition fetch (p : t) (pc : Z) : option Instruction.t :=
  let idx := (pc -ₗ pc_base p) / 4 in
  if idx <? Z.of_nat (length (instructions p)) then instructions p !! Z.to_nat idx else None.
End Program.

(** The public values the executor sets. *)
Module PublicValues.
Record t := mk {
  committed_value_digest : list Z;
  deferred_proofs_digest : list Z;
  commit_syscall : Z;
  commit_deferred_syscall : Z;
  pc_start : Z;
  next_pc : Z;
  exit_code : Z;
  initial_timestamp : Z;
  last_timestamp : Z;
  is_untrusted_programs_enabled : Z;
  proof_nonce : list Z }.
Definition set_committed_value_digest (v : list Z) (s : t) : t := mk v (deferred_proofs_digest s)
  (commit_syscall s) (commit_deferred_syscall s) (pc_start s) (next_pc s) (exit_code s)
  (initial_timestamp s) (last_timestamp s) (is_untrusted_programs_enabled s) (proof_nonce s).
Definition set_deferred_proofs_digest (v : list Z) (s : t) : t := mk (committed_value_digest s) v
  (commit_syscall s) (commit_deferred_syscall s) (pc_start s) (next_pc s) (exit_code s)
  (initial_timestamp s) (last_timestamp s) (is_untrusted_programs_enabled s) (proof_nonce s).
Definition set_commit_syscall (v : Z) (s : t) : t := mk (committed_value_digest s)
  (deferred_proofs_digest s) v (commit_deferred_syscall s) (pc_start s) (next_pc s) (exit_code s)
  (initial_timestamp s) (last_timestamp s) (is_untrusted_programs_enabled s) (proof_nonce s).
Definition set_commit_deferred_syscall (v : Z) (s : t) : t := mk (committed_value_digest s)
  (deferred_proofs_digest s) (commit_syscall s) v (pc_start s) (next_pc s) (exit_code s)
  (initial_timestamp s) (last_timestamp s) (is_untrusted_programs_enabled s) (proof_nonce s).
Definition set_pc_start (v : Z) (s : t) : t := mk (committed_value_digest s)
  (deferred_proofs_digest s) (commit_syscall s) (commit_deferred_syscall s) v (next_pc s)
  (exit_code s) (initial_timestamp s) (last_timestamp s) (is_untrusted_programs_enabled s)
  (proof_nonce s).
Definition set_next_pc (v : Z) (s : t) : t := mk (committed_value_digest s)
  (deferred_proofs_digest s) (commit_syscall s) (commit_deferred_syscall s) (pc_start s) v
  (exit_code s) (initial_timestamp s) (last_timestamp s) (is_untrusted_programs_enabled s)
  (proof_nonce s).
Definition set_exit_code (v : Z) (s : t) : t := mk (committed_value_digest s)
  (deferred_proofs_digest s) (commit_syscall s) (commit_deferred_syscall s) (pc_start s) (next_pc
  s) v (initial_timestamp s) (last_timestamp s) (is_untrusted_programs_enabled s) (proof_nonce s).
Definition set_initial_timestamp (v : Z) (s : t) : t := mk (committed_value_digest s)
  (deferred_proofs_digest s) (commit_syscall s) (commit_deferred_syscall s) (pc_start s) (next_pc
  s) (exit_code s) v (last_timestamp s) (is_untrusted_programs_enabled s) (proof_nonce s).
Definition set_last_timestamp (v : Z) (s : t) : t := mk (committed_value_digest s)
  (deferred_proofs_digest s) (commit_syscall s) (commit_deferred_syscall s) (pc_start s) (next_pc
  s) (exit_code s) (initial_timestamp s) v (is_untrusted_programs_enabled s) (proof_nonce s).
Definition set_is_untrusted_programs_enabled (v : Z) (s : t) : t := mk (committed_value_digest s)
  (deferred_proofs_digest s) (commit_syscall s) (commit_deferred_syscall s) (pc_start s) (next_pc
  s) (exit_code s) (initial_timestamp s) (last_timestamp s) v (proof_nonce s).
Definition set_proof_nonce (v : list Z) (s : t) : t := mk (committed_value_digest s)
  (deferred_proofs_digest s) (commit_syscall s) (commit_deferred_syscall s) (pc_start s) (next_pc
  s) (exit_code s) (initial_timestamp s) (last_timestamp s) (is_untrusted_programs_enabled s) v.
Definition default : t := mk (replicate 8 0) (replicate 8 0) 0 0 0 0 0 0 0 0 (replicate 4 0).
End PublicValues.

Module ExecutionRecord.
Record t := mk {
  cpu_event_count : Z;
  events : list Event;
  public_values : PublicValues.t;
  estimated_trace_area : Z;
  initial_timestamp : Z;
  last_timestamp : Z;
  pc_start : option Z;
  next_pc : Z;
  exit_code : Z }.
Definition set_cpu_event_count (v : Z) (s : t) : t := mk v (events s) (public_values s)
  (estimated_trace_area s) (initial_timestamp s) (last_timestamp s) (pc_start s) (next_pc s)
  (exit_code s).
Definition set_events (v : list Event) (s : t) : t := mk (cpu_event_count s) v (public_values s)
  (estimated_trace_area s) (initial_timestamp s) (last_timestamp s) (pc_start s) (next_pc s)
  (exit_code s).
Definition set_public_values (v : PublicValues.t) (s : t) : t := mk (cpu_event_count s) (events s)
  v (estimated_trace_area s) (initial_timestamp s) (last_timestamp s) (pc_start s) (next_pc s)
  (exit_code s).
Definition set_estimated_trace_area (v : Z) (s : t) : t := mk (cpu_event_count s) (events s)
  (public_values s) v (initial_timestamp s) (last_timestamp s) (pc_start s) (next_pc s) (exit_code
  s).
Definition set_initial_timestamp (v : Z) (s : t) : t := mk (cpu_event_count s) (events s)
  (public_values s) (estimated_trace_area s) v (last_timestamp s) (pc_start s) (next_pc s)
  (exit_code s).
Definition set_last_timestamp (v : Z) (s : t) : t := mk (cpu_event_count s) (events s)
  (public_values s) (estimated_trace_area s) (initial_timestamp s) v (pc_start s) (next_pc s)
  (exit_code s).
Definition set_pc_start (v : option Z) (s : t) : t := mk (cpu_event_count s) (events s)
  (public_values s) (estimated_trace_area s) (initial_timestamp s) (last_timestamp s) v (next_pc
  s) (exit_code s).
Definition set_next_pc (v : Z) (s : t) : t := mk (cpu_event_count s) (events s) (public_values s)
  (estimated_trace_area s) (initial_timestamp s) (last_timestamp s) (pc_start s) v (exit_code s).
Definition set_exit_code (v : Z) (s : t) : t := mk (cpu_event_count s) (events s) (public_values
  s) (estimated_trace_area s) (initial_timestamp s) (last_timestamp s) (pc_start s) (next_pc s) v.
Definition default : t := mk 0 [] PublicValues.default 0 0 0 None 0 0.
Definition contains_cpu (r : t) : bool := 0 <? cpu_event_count r.
Definition push (e : Event) (r : t) : t := set_events (events r ++ [e]) r.
End ExecutionRecord.

(** An [EnumMap] of counters. *)
Definition bump_count {K} `{EqDecision K} (k : K) (d : Z) (m : K -> Z) : K -> Z :=
  fun k' => if decide (k = k') then u64 (m k' + d) else m k'.

Module LocalCounts.
Record t := mk {
  event_counts : Opcode.t -> Z;
  retained_precompile_counts : RiscvAirId.t -> Z;
  load_x0_counts : Z;
  state_bump_counts : Z;
  syscalls_sent : Z;
  page_prot : Z;
  local_mem : Z;
  local_page_prot : Z;
  local_instruction_fetch : Z;
  shard_distinct_instructions : gset Z }.
Definition set_event_counts (v : Opcode.t -> Z) (s : t) : t := mk v (retained_precompile_counts s)
  (load_x0_counts s) (state_bump_counts s) (syscalls_sent s) (page_prot s) (local_mem s)
  (local_page_prot s) (local_instruction_fetch s) (shard_distinct_instructions s).
Definition set_retained_precompile_counts (v : RiscvAirId.t -> Z) (s : t) : t := mk (event_counts
  s) v (load_x0_counts s) (state_bump_counts s) (syscalls_sent s) (page_prot s) (local_mem s)
  (local_page_prot s) (local_instruction_fetch s) (shard_distinct_instructions s).
Definition set_load_x0_counts (v : Z) (s : t) : t := mk (event_counts s)
  (retained_precompile_counts s) v (state_bump_counts s) (syscalls_sent s) (page_prot s)
  (local_mem s) (local_page_prot s) (local_instruction_fetch s) (shard_distinct_instructions s).
Definition set_state_bump_counts (v : Z) (s : t) : t := mk (event_counts s)
  (retained_precompile_counts s) (load_x0_counts s) v (syscalls_sent s) (page_prot s) (local_mem
  s) (local_page_prot s) (local_instruction_fetch s) (shard_distinct_instructions s).
Definition set_syscalls_sent (v : Z) (s : t) : t := mk (event_counts s)
  (retained_precompile_counts s) (load_x0_counts s) (state_bump_counts s) v (page_prot s)
  (local_mem s) (local_page_prot s) (local_instruction_fetch s) (shard_distinct_instructions s).
Definition set_page_prot (v : Z) (s : t) : t := mk (event_counts s) (retained_precompile_counts s)
  (load_x0_counts s) (state_bump_counts s) (syscalls_sent s) v (local_mem s) (local_page_prot s)
  (local_instruction_fetch s) (shard_distinct_instructions s).
Definition set_local_mem (v : Z) (s : t) : t := mk (event_counts s) (retained_precompile_counts s)
  (load_x0_counts s) (state_bump_counts s) (syscalls_sent s) (page_prot s) v (local_page_prot s)
  (local_instruction_fetch s) (shard_distinct_instructions s).
Definition set_local_page_prot (v : Z) (s : t) : t := mk (event_counts s)
  (retained_precompile_counts s) (load_x0_counts s) (state_bump_counts s) (syscalls_sent s)
  (page_prot s) (local_mem s) v (local_instruction_fetch s) (shard_distinct_instructions s).
Definition set_local_instruction_fetch (v : Z) (s : t) : t := mk (event_counts s)
  (retained_precompile_counts s) (load_x0_counts s) (state_bump_counts s) (syscalls_sent s)
  (page_prot s) (local_mem s) (local_page_prot s) v (shard_distinct_instructions s).
Definition set_shard_distinct_instructions (v : gset Z) (s : t) : t := mk (event_counts s)
  (retained_precompile_counts s) (load_x0_counts s) (state_bump_counts s) (syscalls_sent s)
  (page_prot s) (local_mem s) (local_page_prot s) (local_instruction_fetch s) v.
Definition default : t := mk (fun _ => 0) (fun _ => 0) 0 0 0 0 0 0 0 ∅.
End LocalCounts.

Module ExecutionState.
Record t := mk {
  pc : Z;
  shard_finished : bool;
  initial_timestamp : Z;
  memory : gmap loc MemoryEntry.t;
  page_prots : gmap Z PageProtRecord.t;
  global_clk : Z;
  clk : Z;
  uninitialized_memory : gmap loc Z;
  input_stream : list (list Z);
  proof_stream : list (list Z * list Z);
  proof_stream_ptr : Z;
  public_values_stream : list Z;
  public_values_stream_ptr : Z;
  syscall_counts : SyscallCode.t -> Z }.
Definition set_pc (v : Z) (s : t) : t := mk v (shard_finished s) (initial_timestamp s) (memory s)
  (page_prots s) (global_clk s) (clk s) (uninitialized_memory s) (input_stream s) (proof_stream s)
  (proof_stream_ptr s) (public_values_stream s) (public_values_stream_ptr s) (syscall_counts s).
Definition set_shard_finished (v : bool) (s : t) : t := mk (pc s) v (initial_timestamp s) (memory
  s) (page_prots s) (global_clk s) (clk s) (uninitialized_memory s) (input_stream s) (proof_stream
  s) (proof_stream_ptr s) (public_values_stream s) (public_values_stream_ptr s) (syscall_counts
  s).
Definition set_initial_timestamp (v : Z) (s : t) : t := mk (pc s) (shard_finished s) v (memory s)
  (page_prots s) (global_clk s) (clk s) (uninitialized_memory s) (input_stream s) (proof_stream s)
  (proof_stream_ptr s) (public_values_stream s) (public_values_stream_ptr s) (syscall_counts s).
Definition set_memory (v : gmap loc MemoryEntry.t) (s : t) : t := mk (pc s) (shard_finished s)
  (initial_timestamp s) v (page_prots s) (global_clk s) (clk s) (uninitialized_memory s)
  (input_stream s) (proof_stream s) (proof_stream_ptr s) (public_values_stream s)
  (public_values_stream_ptr s) (syscall_counts s).
Definition set_page_prots (v : gmap Z PageProtRecord.t) (s : t) : t := mk (pc s) (shard_finished
  s) (initial_timestamp s) (memory s) v (global_clk s) (clk s) (uninitialized_memory s)
  (input_stream s) (proof_stream s) (proof_stream_ptr s) (public_values_stream s)
  (public_values_stream_ptr s) (syscall_counts s).
Definition set_global_clk (v : Z) (s : t) : t := mk (pc s) (shard_finished s) (initial_timestamp
  s) (memory s) (page_prots s) v (clk s) (uninitialized_memory s) (input_stream s) (proof_stream
  s) (proof_stream_ptr s) (public_values_stream s) (public_values_stream_ptr s) (syscall_counts
  s).
Definition set_clk (v : Z) (s : t) : t := mk (pc s) (shard_finished s) (initial_timestamp s)
  (memory s) (page_prots s) (global_clk s) v (uninitialized_memory s) (input_stream s)
  (proof_stream s) (proof_stream_ptr s) (public_values_stream s) (public_values_stream_ptr s)
  (syscall_counts s).
Definition set_uninitialized_memory (v : gmap loc Z) (s : t) : t := mk (pc s) (shard_finished s)
  (initial_timestamp s) (memory s) (page_prots s) (global_clk s) (clk s) v (input_stream s)
  (proof_stream s) (proof_stream_ptr s) (public_values_stream s) (public_values_stream_ptr s)
  (syscall_counts s).
Definition set_input_stream (v : list (list Z)) (s : t) : t := mk (pc s) (shard_finished s)
  (initial_timestamp s) (memory s) (page_prots s) (global_clk s) (clk s) (uninitialized_memory s)
  v (proof_stream s) (proof_stream_ptr s) (public_values_stream s) (public_values_stream_ptr s)
  (syscall_counts s).
Definition set_proof_stream (v : list (list Z * list Z)) (s : t) : t := mk (pc s) (shard_finished
  s) (initial_timestamp s) (memory s) (page_prots s) (global_clk s) (clk s) (uninitialized_memory
  s) (input_stream s) v (proof_stream_ptr s) (public_values_stream s) (public_values_stream_ptr s)
  (syscall_counts s).
Definition set_proof_stream_ptr (v : Z) (s : t) : t := mk (pc s) (shard_finished s)
  (initial_timestamp s) (memory s) (page_prots s) (global_clk s) (clk s) (uninitialized_memory s)
  (input_stream s) (proof_stream s) v (public_values_stream s) (public_values_stream_ptr s)
  (syscall_counts s).
Definition set_public_values_stream (v : list Z) (s : t) : t := mk (pc s) (shard_finished s)
  (initial_timestamp s) (memory s) (page_prots s) (global_clk s) (clk s) (uninitialized_memory s)
  (input_stream s) (proof_stream s) (proof_stream_ptr s) v (public_values_stream_ptr s)
  (syscall_counts s).
Definition set_public_values_stream_ptr (v : Z) (s : t) : t := mk (pc s) (shard_finished s)
  (initial_timestamp s) (memory s) (page_prots s) (global_clk s) (clk s) (uninitialized_memory s)
  (input_stream s) (proof_stream s) (proof_stream_ptr s) (public_values_stream s) v
  (syscall_counts s).
Definition set_syscall_counts (v : SyscallCode.t -> Z) (s : t) : t := mk (pc s) (shard_finished s)
  (initial_timestamp s) (memory s) (page_prots s) (global_clk s) (clk s) (uninitialized_memory s)
  (input_stream s) (proof_stream s) (proof_stream_ptr s) (public_values_stream s)
  (public_values_stream_ptr s) v.
Definition new (pc_start : Z) : t := mk pc_start false 1 ∅ ∅ 0 0 ∅ [] [] 0 [] 0 (fun _ => 0).
End ExecutionState.

Module ForkState.
Record t := mk {
  global_clk : Z;
  clk : Z;
  pc : Z;
  memory_diff : gmap loc (option MemoryEntry.t);
  page_prots_diff : gmap Z PageProtRecord.t }.
Definition set_global_clk (v : Z) (s : t) : t := mk v (clk s) (pc s) (memory_diff s)
  (page_prots_diff s).
Definition set_clk (v : Z) (s : t) : t := mk (global_clk s) v (pc s) (memory_diff s)
  (page_prots_diff s).
Definition set_pc (v : Z) (s : t) : t := mk (global_clk s) (clk s) v (memory_diff s)
  (page_prots_diff s).
Definition set_memory_diff (v : gmap loc (option MemoryEntry.t)) (s : t) : t := mk (global_clk s)
  (clk s) (pc s) v (page_prots_diff s).
Definition set_page_prots_diff (v : gmap Z PageProtRecord.t) (s : t) : t := mk (global_clk s) (clk
  s) (pc s) (memory_diff s) v.
Definition default : t := mk 0 0 0 ∅ ∅.
End ForkState.

Module ExecutionReport.
Record t := mk {
  opcode_counts : Opcode.t -> Z;
  syscall_counts : SyscallCode.t -> Z;
  cycle_tracker : gmap (list Z) Z;
  invocation_tracker : gmap (list Z) Z;
  touched_memory_addresses : Z }.
Definition set_opcode_counts (v : Opcode.t -> Z) (s : t) : t := mk v (syscall_counts s)
  (cycle_tracker s) (invocation_tracker s) (touched_memory_addresses s).
Definition set_syscall_counts (v : SyscallCode.t -> Z) (s : t) : t := mk (opcode_counts s) v
  (cycle_tracker s) (invocation_tracker s) (touched_memory_addresses s).
Definition set_cycle_tracker (v : gmap (list Z) Z) (s : t) : t := mk (opcode_counts s)
  (syscall_counts s) v (invocation_tracker s) (touched_memory_addresses s).
Definition set_invocation_tracker (v : gmap (list Z) Z) (s : t) : t := mk (opcode_counts s)
  (syscall_counts s) (cycle_tracker s) v (touched_memory_addresses s).
Definition set_touched_memory_addresses (v : Z) (s : t) : t := mk (opcode_counts s)
  (syscall_counts s) (cycle_tracker s) (invocation_tracker s) v.
Definition default : t := mk (fun _ => 0) (fun _ => 0) ∅ ∅ 0.
End ExecutionReport.

Module RecordEstimator.
Record t := mk {
  core_records : list (RiscvAirId.t -> Z);
  memory_global_init_events : Z;
  memory_global_finalize_events : Z }.
Definition set_core_records (v : list (RiscvAirId.t -> Z)) (s : t) : t := mk v
  (memory_global_init_events s) (memory_global_finalize_events s).
Definition set_memory_global_init_events (v : Z) (s : t) : t := mk (core_records s) v
  (memory_global_finalize_events s).
Definition set_memory_global_finalize_events (v : Z) (s : t) : t := mk (core_records s)
  (memory_global_init_events s) v.
End RecordEstimator.

(** What an executor is created with and does not assign: the options, the
    hooks and the verifier of the context, two environment variables and the
    instruction decoder of [rrs_lib]. *)
Module Context.
Record t := mk {
  program : Program.t;
  max_cycles : option Z;
  size_check_frequency : Z;
  sharding_threshold : option (Z * Z);
  costs : RiscvAirId.t -> Z;
  internal_syscalls_override : list SyscallCode.t;
  internal_syscalls_air_id : list RiscvAirId.t;
  expected_exit_code : Z;
  proof_nonce : list Z;
  subproof_verifier : option (list Z * list Z -> list Z -> list Z -> bool);
  deferred_proof_verification : bool;
  hook_registry : Z -> option (list Z -> list (list Z));
  deprecated_hooks : option (Z -> list Z -> list (list Z));
  unconstrained_cycle_limit : option Z;
  decode : Z -> option Rrs.call }.
End Context.

Module Executor.
Record t := mk {
  context : Context.t;
  state : ExecutionState.t;
  memory_checkpoint : gmap loc (option MemoryEntry.t);
  uninitialized_memory_checkpoint : gmap loc bool;
  local_counts : LocalCounts.t;
  report : ExecutionReport.t;
  memory_accesses : MemoryAccessRecord.t;
  print_report : bool;
  record_estimator : option RecordEstimator.t;
  emit_global_memory_events : bool;
  record : ExecutionRecord.t;
  local_memory_access : gmap Z MemoryLocalEvent.t;
  local_page_prot_access : gmap Z PageProtLocalEvent.t;
  cycle_tracker : gmap (list Z) (Z * Z);
  io_buf : gmap Z (list Z);
  unconstrained_state : ForkState.t;
  total_unconstrained_cycles : Z;
  event_counts : RiscvAirId.t -> Z;
  decoded_instruction_cache : gmap Z Instruction.t;
  decoded_instruction_events : gmap Z InstructionDecodeEvent.t }.
Definition set_context (v : Context.t) (s : t) : t := mk v (state s) (memory_checkpoint s)
  (uninitialized_memory_checkpoint s) (local_counts s) (report s) (memory_accesses s)
  (print_report s) (record_estimator s) (emit_global_memory_events s) (record s)
  (local_memory_access s) (local_page_prot_access s) (cycle_tracker s) (io_buf s)
  (unconstrained_state s) (total_unconstrained_cycles s) (event_counts s)
  (decoded_instruction_cache s) (decoded_instruction_events s).
Definition set_state (v : ExecutionState.t) (s : t) : t := mk (context s) v (memory_checkpoint s)
  (uninitialized_memory_checkpoint s) (local_counts s) (report s) (memory_accesses s)
  (print_report s) (record_estimator s) (emit_global_memory_events s) (record s)
  (local_memory_access s) (local_page_prot_access s) (cycle_tracker s) (io_buf s)
  (unconstrained_state s) (total_unconstrained_cycles s) (event_counts s)
  (decoded_instruction_cache s) (decoded_instruction_events s).
Definition set_memory_checkpoint (v : gmap loc (option MemoryEntry.t)) (s : t) : t := mk (context
  s) (state s) v (uninitialized_memory_checkpoint s) (local_counts s) (report s) (memory_accesses
  s) (print_report s) (record_estimator s) (emit_global_memory_events s) (record s)
  (local_memory_access s) (local_page_prot_access s) (cycle_tracker s) (io_buf s)
  (unconstrained_state s) (total_unconstrained_cycles s) (event_counts s)
  (decoded_instruction_cache s) (decoded_instruction_events s).
Definition set_uninitialized_memory_checkpoint (v : gmap loc bool) (s : t) : t := mk (context s)
  (state s) (memory_checkpoint s) v (local_counts s) (report s) (memory_accesses s) (print_report
  s) (record_estimator s) (emit_global_memory_events s) (record s) (local_memory_access s)
  (local_page_prot_access s) (cycle_tracker s) (io_buf s) (unconstrained_state s)
  (total_unconstrained_cycles s) (event_counts s) (decoded_instruction_cache s)
  (decoded_instruction_events s).
Definition set_local_counts (v : LocalCounts.t) (s : t) : t := mk (context s) (state s)
  (memory_checkpoint s) (uninitialized_memory_checkpoint s) v (report s) (memory_accesses s)
  (print_report s) (record_estimator s) (emit_global_memory_events s) (record s)
  (local_memory_access s) (local_page_prot_access s) (cycle_tracker s) (io_buf s)
  (unconstrained_state s) (total_unconstrained_cycles s) (event_counts s)
  (decoded_instruction_cache s) (decoded_instruction_events s).
Definition set_report (v : ExecutionReport.t) (s : t) : t := mk (context s) (state s)
  (memory_checkpoint s) (uninitialized_memory_checkpoint s) (local_counts s) v (memory_accesses s)
  (print_report s) (record_estimator s) (emit_global_memory_events s) (record s)
  (local_memory_access s) (local_page_prot_access s) (cycle_tracker s) (io_buf s)
  (unconstrained_state s) (total_unconstrained_cycles s) (event_counts s)
  (decoded_instruction_cache s) (decoded_instruction_events s).
Definition set_memory_accesses (v : MemoryAccessRecord.t) (s : t) : t := mk (context s) (state s)
  (memory_checkpoint s) (uninitialized_memory_checkpoint s) (local_counts s) (report s) v
  (print_report s) (record_estimator s) (emit_global_memory_events s) (record s)
  (local_memory_access s) (local_page_prot_access s) (cycle_tracker s) (io_buf s)
  (unconstrained_state s) (total_unconstrained_cycles s) (event_counts s)
  (decoded_instruction_cache s) (decoded_instruction_events s).
Definition set_print_report (v : bool) (s : t) : t := mk (context s) (state s) (memory_checkpoint
  s) (uninitialized_memory_checkpoint s) (local_counts s) (report s) (memory_accesses s) v
  (record_estimator s) (emit_global_memory_events s) (record s) (local_memory_access s)
  (local_page_prot_access s) (cycle_tracker s) (io_buf s) (unconstrained_state s)
  (total_unconstrained_cycles s) (event_counts s) (decoded_instruction_cache s)
  (decoded_instruction_events s).
Definition set_record_estimator (v : option RecordEstimator.t) (s : t) : t := mk (context s)
  (state s) (memory_checkpoint s) (uninitialized_memory_checkpoint s) (local_counts s) (report s)
  (memory_accesses s) (print_report s) v (emit_global_memory_events s) (record s)
  (local_memory_access s) (local_page_prot_access s) (cycle_tracker s) (io_buf s)
  (unconstrained_state s) (total_unconstrained_cycles s) (event_counts s)
  (decoded_instruction_cache s) (decoded_instruction_events s).
Definition set_emit_global_memory_events (v : bool) (s : t) : t := mk (context s) (state s)
  (memory_checkpoint s) (uninitialized_memory_checkpoint s) (local_counts s) (report s)
  (memory_accesses s) (print_report s) (record_estimator s) v (record s) (local_memory_access s)
  (local_page_prot_access s) (cycle_tracker s) (io_buf s) (unconstrained_state s)
  (total_unconstrained_cycles s) (event_counts s) (decoded_instruction_cache s)
  (decoded_instruction_events s).
Definition set_record (v : ExecutionRecord.t) (s : t) : t := mk (context s) (state s)
  (memory_checkpoint s) (uninitialized_memory_checkpoint s) (local_counts s) (report s)
  (memory_accesses s) (print_report s) (record_estimator s) (emit_global_memory_events s) v
  (local_memory_access s) (local_page_prot_access s) (cycle_tracker s) (io_buf s)
  (unconstrained_state s) (total_unconstrained_cycles s) (event_counts s)
  (decoded_instruction_cache s) (decoded_instruction_events s).
Definition set_local_memory_access (v : gmap Z MemoryLocalEvent.t) (s : t) : t := mk (context s)
  (state s) (memory_checkpoint s) (uninitialized_memory_checkpoint s) (local_counts s) (report s)
  (memory_accesses s) (print_report s) (record_estimator s) (emit_global_memory_events s) (record
  s) v (local_page_prot_access s) (cycle_tracker s) (io_buf s) (unconstrained_state s)
  (total_unconstrained_cycles s) (event_counts s) (decoded_instruction_cache s)
  (decoded_instruction_events s).
Definition set_local_page_prot_access (v : gmap Z PageProtLocalEvent.t) (s : t) : t := mk (context
  s) (state s) (memory_checkpoint s) (uninitialized_memory_checkpoint s) (local_counts s) (report
  s) (memory_accesses s) (print_report s) (record_estimator s) (emit_global_memory_events s)
  (record s) (local_memory_access s) v (cycle_tracker s) (io_buf s) (unconstrained_state s)
  (total_unconstrained_cycles s) (event_counts s) (decoded_instruction_cache s)
  (decoded_instruction_events s).
Definition set_cycle_tracker (v : gmap (list Z) (Z * Z)) (s : t) : t := mk (context s) (state s)
  (memory_checkpoint s) (uninitialized_memory_checkpoint s) (local_counts s) (report s)
  (memory_accesses s) (print_report s) (record_estimator s) (emit_global_memory_events s) (record
  s) (local_memory_access s) (local_page_prot_access s) v (io_buf s) (unconstrained_state s)
  (total_unconstrained_cycles s) (event_counts s) (decoded_instruction_cache s)
  (decoded_instruction_events s).
Definition set_io_buf (v : gmap Z (list Z)) (s : t) : t := mk (context s) (state s)
  (memory_checkpoint s) (uninitialized_memory_checkpoint s) (local_counts s) (report s)
  (memory_accesses s) (print_report s) (record_estimator s) (emit_global_memory_events s) (record
  s) (local_memory_access s) (local_page_prot_access s) (cycle_tracker s) v (unconstrained_state
  s) (total_unconstrained_cycles s) (event_counts s) (decoded_instruction_cache s)
  (decoded_instruction_events s).
Definition set_unconstrained_state (v : ForkState.t) (s : t) : t := mk (context s) (state s)
  (memory_checkpoint s) (uninitialized_memory_checkpoint s) (local_counts s) (report s)
  (memory_accesses s) (print_report s) (record_estimator s) (emit_global_memory_events s) (record
  s) (local_memory_access s) (local_page_prot_access s) (cycle_tracker s) (io_buf s) v
  (total_unconstrained_cycles s) (event_counts s) (decoded_instruction_cache s)
  (decoded_instruction_events s).
Definition set_total_unconstrained_cycles (v : Z) (s : t) : t := mk (context s) (state s)
  (memory_checkpoint s) (uninitialized_memory_checkpoint s) (local_counts s) (report s)
  (memory_accesses s) (print_report s) (record_estimator s) (emit_global_memory_events s) (record
  s) (local_memory_access s) (local_page_prot_access s) (cycle_tracker s) (io_buf s)
  (unconstrained_state s) v (event_counts s) (decoded_instruction_cache s)
  (decoded_instruction_events s).
Definition set_event_counts (v : RiscvAirId.t -> Z) (s : t) : t := mk (context s) (state s)
  (memory_checkpoint s) (uninitialized_memory_checkpoint s) (local_counts s) (report s)
  (memory_accesses s) (print_report s) (record_estimator s) (emit_global_memory_events s) (record
  s) (local_memory_access s) (local_page_prot_access s) (cycle_tracker s) (io_buf s)
  (unconstrained_state s) (total_unconstrained_cycles s) v (decoded_instruction_cache s)
  (decoded_instruction_events s).
Definition set_decoded_instruction_cache (v : gmap Z Instruction.t) (s : t) : t := mk (context s)
  (state s) (memory_checkpoint s) (uninitialized_memory_checkpoint s) (local_counts s) (report s)
  (memory_accesses s) (print_report s) (record_estimator s) (emit_global_memory_events s) (record
  s) (local_memory_access s) (local_page_prot_access s) (cycle_tracker s) (io_buf s)
  (unconstrained_state s) (total_unconstrained_cycles s) (event_counts s) v
  (decoded_instruction_events s).
Definition set_decoded_instruction_events (v : gmap Z InstructionDecodeEvent.t) (s : t) : t := mk
  (context s) (state s) (memory_checkpoint s) (uninitialized_memory_checkpoint s) (local_counts s)
  (report s) (memory_accesses s) (print_report s) (record_estimator s) (emit_global_memory_events
  s) (record s) (local_memory_access s) (local_page_prot_access s) (cycle_tracker s) (io_buf s)
  (unconstrained_state s) (total_unconstrained_cycles s) (event_counts s)
  (decoded_instruction_cache s) v.
Definition program (s : t) : Program.t := Context.program (context s).

Definition with_context (c : Context.t) : t :=
  mk c (ExecutionState.new (Program.pc_start_abs (Context.program c))) ∅ ∅ LocalCounts.default
     ExecutionReport.default MemoryAccessRecord.default false None true ExecutionRecord.default ∅ ∅ ∅ ∅
     ForkState.default 0 (fun _ => 0) ∅ ∅.
End Executor.

(** ** The monad

    [Ret] carries the value and the next state, [Err] an [ExecutionError] and
    the state it left behind; [Panic] is a Rust panic and [OutOfFuel] the end
    of the bound on [run_unconstrained] and [execute]'s loops. *)
Inductive res (A : Type) :=
| Ret (a : A) (s : Executor.t)
| Err (e : ExecutionError) (s : Executor.t)
| Panic
| OutOfFuel.
Arguments Ret {A} _ _.
Arguments Err {A} _ _.
Arguments Panic {A}.
Arguments OutOfFuel {A}.

Definition M (A : Type) : Type := Executor.t -> res A.
Definition ret {A} (a : A) : M A := fun s => Ret a s.
Definition bind {A B} (m : M A) (k : A -> M B) : M B :=
  fun s => match m s with
           | Ret a s => k a s
           | Err e s => Err e s
           | Panic => Panic
           | OutOfFuel => OutOfFuel
           end.
Definition throw {A} (e : ExecutionError) : M A := fun s => Err e s.
Definition panic {A} : M A := fun _ => Panic.
Definition gets {A} (f : Executor.t -> A) : M A := fun s => Ret (f s) s.
Definition modify (f : Executor.t -> Executor.t) : M unit := fun s => Ret tt (f s).
Definition when (b : bool) (m : M unit) : M unit := if b then m else ret tt.
Definition assert (b : bool) : M unit := if b then ret tt else panic.
Definition expect {A} (o : option A) : M A := match o with Some a => ret a | None => panic end.
(** [result.expect(..)]: an error becomes a panic. *)
Definition unwrap {A} (m : M A) : M A :=
  fun s => match m s with Err _ _ => Panic | r => r end.

Notation "'let!' x := m 'in' k" := (bind m (fun x => k))
  (at level 200, x name, m at level 100, k at level 200) : sp1_scope.
Notation "'let!' ' p := m 'in' k" := (bind m (fun p => k))
  (at level 200, p strict pattern, m at level 100, k at level 200) : sp1_scope.
Notation "m ;;! k" := (bind m (fun _ : unit => k)) (at level 100, right associativity) : sp1_scope.

Fixpoint for_each {A} (l : list A) (f : A -> M unit) : M unit :=
  match l with [] => ret tt | x :: l => f x ;;! for_each l f end.
Fixpoint map_m {A B} (l : list A) (f : A -> M B) : M (list B) :=
  match l with
  | [] => ret []
  | x :: l => let! y := f x in let! ys := map_m l f in ret (y :: ys)
  end.

(** Updates of the nested records. *)
Definition upd_state (f : ExecutionState.t -> ExecutionState.t) : M unit :=
  modify (fun s => Executor.set_state (f (Executor.state s)) s).
Definition upd_counts (f : LocalCounts.t -> LocalCounts.t) : M unit :=
  modify (fun s => Executor.set_local_counts (f (Executor.local_counts s)) s).
Definition upd_record (f : ExecutionRecord.t -> ExecutionRecord.t) : M unit :=
  modify (fun s => Executor.set_record (f (Executor.record s)) s).
Definition upd_report (f : ExecutionReport.t -> ExecutionReport.t) : M unit :=
  modify (fun s => Executor.set_report (f (Executor.report s)) s).
Definition upd_accesses (f : MemoryAccessRecord.t -> MemoryAccessRecord.t) : M unit :=
  modify (fun s => Executor.set_memory_accesses (f (Executor.memory_accesses s)) s).
Definition upd_fork (f : ForkState.t -> ForkState.t) : M unit :=
  modify (fun s => Executor.set_unconstrained_state (f (Executor.unconstrained_state s)) s).
Definition push_event (e : Event) : M unit := upd_record (ExecutionRecord.push e).

(** [map.entry(k).or_insert(v)] on a hash map or a memory. *)
Definition or_insert {K V} `{Countable K} (k : K) (v : V) (m : gmap K V) : gmap K V :=
  match m !! k with Some _ => m | None => <[k := v]> m end.
