(* ===== verification/ExecMemory.v ===== *)
(** * ExecMemory: register and memory accesses of the executor

    The access functions of [core/executor/src/executor.rs]: [register],
    [double_word], [byte], [page_prot_access], [mr], [rr], [rr_traced], [mw],
    [rw_traced], [rw] and their [_cpu] wrappers.  Every access that is part
    of the proof finds the entry of the location (initialising it on first
    use), saves the previous entry in the checkpoint and, in unconstrained
    mode, in the fork state, updates the shard's counters, stamps the entry
    with the timestamp of the access, and in trace mode updates the local
    memory event of the address. *)
From Stdlib Require Import ZArith Lia Bool.
From stdpp Require Import base numbers option list gmap.
From S2P Require Import Prelude Isa PagedMemory SyscallCode State.

(** A register is its number; [None] is the panic of [from_u8]. *)
Module Register.
Definition from_u8 (value : Z) : option Z := if (0 <=? value) && (value <=? 31) then Some value else None.
Definition X0 : Z := 0.
Definition X5 : Z := 5.
Definition X10 : Z := 10.
Definition X11 : Z := 11.
Definition X12 : Z := 12.
Definition X13 : Z := 13.
Definition X14 : Z := 14.
Definition X31 : Z := 31.
End Register.

(** ** Operands of the instruction formats *)
Module Operands.
Definition reg (x : Z) : M Z := expect (Register.from_u8 (u8 x)).
Definition r_type (i : Instruction.t) : M (Z * Z * Z) :=
  let! rd := reg (Instruction.op_a i) in
  let! rs1 := reg (Instruction.op_b i) in
  let! rs2 := reg (Instruction.op_c i) in
  ret (rd, rs1, rs2).
Definition i_type (i : Instruction.t) : M (Z * Z * Z) :=
  let! rd := reg (Instruction.op_a i) in
  let! rs1 := reg (Instruction.op_b i) in
  ret (rd, rs1, Instruction.op_c i).
Definition s_type (i : Instruction.t) : M (Z * Z * Z) :=
  let! rs1 := reg (Instruction.op_a i) in
  let! rs2 := reg (Instruction.op_b i) in
  ret (rs1, rs2, Instruction.op_c i).
Definition b_type (i : Instruction.t) : M (Z * Z * Z) :=
  let! rs1 := reg (Instruction.op_a i) in
  let! rs2 := reg (Instruction.op_b i) in
  ret (rs1, rs2, Instruction.op_c i).
Definition j_type (i : Instruction.t) : M (Z * Z) :=
  let! rd := reg (Instruction.op_a i) in ret (rd, Instruction.op_b i).
Definition u_type (i : Instruction.t) : M (Z * Z) :=
  let! rd := reg (Instruction.op_a i) in ret (rd, Instruction.op_b i).
End Operands.

(** The entry of a location in the state. *)
Definition entry_at (l : loc) (s : Executor.t) : option MemoryEntry.t :=
  ExecutionState.memory (Executor.state s) !! l.

(** Indexing the page table panics beyond its last page. *)
Definition page_loc (addr : Z) : M loc :=
  if addr <? 2 ^ MAX_LOG_ADDR then ret (inr (addr / 8)) else panic.

(** [memory_checkpoint.entry(addr).or_insert(record)] with the current entry. *)
Definition save_checkpoint (l : loc) : M unit :=
  modify (fun s => Executor.set_memory_checkpoint
    (or_insert l (entry_at l s) (Executor.memory_checkpoint s)) s).

(** [unconstrained_state.memory_diff.entry(addr).or_insert(record)]. *)
Definition save_fork (l : loc) : M unit :=
  modify (fun s => Executor.set_unconstrained_state
    (ForkState.set_memory_diff
       (or_insert l (entry_at l s) (ForkState.memory_diff (Executor.unconstrained_state s)))
       (Executor.unconstrained_state s)) s).

Definition set_entry (l : loc) (r : MemoryEntry.t) : M unit :=
  upd_state (fun st => ExecutionState.set_memory (<[l := r]> (ExecutionState.memory st)) st).

(** The entry of a location, created with its initial value on first use. *)
Definition init_entry (l : loc) : M MemoryEntry.t :=
  let! o := gets (entry_at l) in
  match o with
  | Some r => ret r
  | None =>
      let! value := gets (fun s =>
        default 0 (ExecutionState.uninitialized_memory (Executor.state s) !! l)) in
      modify (fun s => Executor.set_uninitialized_memory_checkpoint
        (or_insert l (negb (value =? 0)) (Executor.uninitialized_memory_checkpoint s)) s) ;;!
      set_entry l (MemoryEntry.init value) ;;!
      ret (MemoryEntry.init value)
  end.

(** [local_counts.local_mem += 1] on the first access of a shard. *)
Definition count_local_mem (E : ExecutorConfig) (record : MemoryEntry.t) (external_flag : bool) : M unit :=
  let! initial_timestamp := gets (fun s => ExecutionState.initial_timestamp (Executor.state s)) in
  when (negb (UNCONSTRAINED E) &&
        ((MemoryEntry.timestamp record <? initial_timestamp) || MemoryEntry.external_flag record) &&
        negb external_flag)
       (upd_counts (fun c => LocalCounts.set_local_mem (u64 (LocalCounts.local_mem c + 1)) c)).

(** [map.entry(addr).and_modify(..).or_insert(..)] on local memory events. *)
Definition upsert_local (addr : Z) (prev record : MemoryEntry.t) (m : gmap Z MemoryLocalEvent.t) :
  gmap Z MemoryLocalEvent.t :=
  match m !! addr with
  | Some e =>
      <[addr := MemoryLocalEvent.mk (MemoryLocalEvent.addr e) (MemoryLocalEvent.initial_mem_access e)
                  (MemoryEntry.into_record record)]> m
  | None =>
      <[addr := MemoryLocalEvent.mk addr (MemoryEntry.into_record prev) (MemoryEntry.into_record record)]> m
  end.

(** The events go to the map of the system call if there is one, and to the
    executor's otherwise. *)
Definition record_local (lma : option (gmap Z MemoryLocalEvent.t)) (addr : Z) (prev record : MemoryEntry.t) :
  M (option (gmap Z MemoryLocalEvent.t)) :=
  match lma with
  | Some m => ret (Some (upsert_local addr prev record m))
  | None =>
      modify (fun s => Executor.set_local_memory_access
        (upsert_local addr prev record (Executor.local_memory_access s)) s) ;;!
      ret None
  end.

Section Access.
Context (E : ExecutorConfig).

Abbreviation local_map := (option (gmap Z MemoryLocalEvent.t)).

Definition register (r : Z) : M Z :=
  let! record := gets (entry_at (inl r)) in
  when (is_checkpoint E || UNCONSTRAINED E) (save_checkpoint (inl r)) ;;!
  ret (match record with Some record => MemoryEntry.value record | None => 0 end).

Definition double_word (addr : Z) : M Z :=
  let! l := page_loc addr in
  let! record := gets (entry_at l) in
  when (is_checkpoint E || UNCONSTRAINED E) (save_checkpoint l) ;;!
  ret (match record with Some record => MemoryEntry.value record | None => 0 end).

Definition byte (addr : Z) : M Z :=
  let! word := double_word (addr - addr mod 8) in
  ret (u8 (word ≫ ((addr mod 8) * 8))).

Definition timestamp (position : MemoryAccessPosition.t) : M Z :=
  gets (fun s => ExecutionState.clk (Executor.state s) +ₗ MemoryAccessPosition.as_u64 position).

Definition page_prot_access (page_idx page_prot_bitmap : Z) (external_flag : bool) (timestamp : Z)
  (lpa : option (gmap Z PageProtLocalEvent.t)) :
  M (PageProtRecord.t * option (gmap Z PageProtLocalEvent.t)) :=
  let fresh := PageProtRecord.mk external_flag 0 DEFAULT_PAGE_PROT in
  upd_state (fun st => ExecutionState.set_page_prots
    (or_insert page_idx fresh (ExecutionState.page_prots st)) st) ;;!
  let! record := gets (fun s =>
    default fresh (ExecutionState.page_prots (Executor.state s) !! page_idx)) in
  when (UNCONSTRAINED E)
    (upd_fork (fun f => ForkState.set_page_prots_diff
       (or_insert page_idx record (ForkState.page_prots_diff f)) f)) ;;!
  let! initial_timestamp := gets (fun s => ExecutionState.initial_timestamp (Executor.state s)) in
  when (negb (UNCONSTRAINED E) &&
        (((PageProtRecord.timestamp record <? initial_timestamp) || PageProtRecord.external_flag record) &&
         negb external_flag))
    (upd_counts (fun c => LocalCounts.set_local_page_prot (u64 (LocalCounts.local_page_prot c + 1)) c)) ;;!
  assert (negb (Z.land (PageProtRecord.page_prot record) page_prot_bitmap =? 0)) ;;!
  let prev := record in
  let record := PageProtRecord.mk external_flag timestamp (PageProtRecord.page_prot prev) in
  upd_state (fun st => ExecutionState.set_page_prots
    (<[page_idx := record]> (ExecutionState.page_prots st)) st) ;;!
  let upsert (m : gmap Z PageProtLocalEvent.t) :=
    match m !! page_idx with
    | Some e => <[page_idx := PageProtLocalEvent.mk (PageProtLocalEvent.page_idx e)
                    (PageProtLocalEvent.initial_page_prot_access e) record]> m
    | None => <[page_idx := PageProtLocalEvent.mk page_idx prev record]> m
    end in
  let! lpa :=
    if negb (UNCONSTRAINED E) && is_trace E then
      match lpa with
      | Some m => ret (Some (upsert m))
      | None =>
          modify (fun s => Executor.set_local_page_prot_access
            (upsert (Executor.local_page_prot_access s)) s) ;;!
          ret None
      end
    else ret lpa in
  upd_counts (fun c => LocalCounts.set_page_prot (u64 (LocalCounts.page_prot c + 1)) c) ;;!
  ret (prev, lpa).

Definition invalid_addr (addr : Z) : bool :=
  negb (addr mod 8 =? 0) || (addr <=? Register.X31) || (MAXIMUM_MEMORY_SIZE <? addr).

Definition mr (addr : Z) (external_flag : bool) (timestamp : Z) (lma : local_map) :
  M (MemoryReadRecord.t * local_map) :=
  assert (negb (invalid_addr addr)) ;;!
  let! l := page_loc addr in
  when (is_checkpoint E || UNCONSTRAINED E) (save_checkpoint l) ;;!
  when (UNCONSTRAINED E) (save_fork l) ;;!
  let! prev_record := init_entry l in
  count_local_mem E prev_record external_flag ;;!
  let record := MemoryEntry.mk external_flag timestamp (MemoryEntry.value prev_record) in
  set_entry l record ;;!
  let! lma :=
    if negb (UNCONSTRAINED E) && is_trace E then record_local lma addr prev_record record else ret lma in
  ret (MemoryReadRecord.new record prev_record None, lma).

Definition rr (r : Z) (external_flag : bool) (timestamp : Z) : M Z :=
  when (is_checkpoint E || UNCONSTRAINED E) (save_checkpoint (inl r)) ;;!
  when (UNCONSTRAINED E) (save_fork (inl r)) ;;!
  let! record := init_entry (inl r) in
  count_local_mem E record external_flag ;;!
  set_entry (inl r) (MemoryEntry.mk external_flag timestamp (MemoryEntry.value record)) ;;!
  ret (MemoryEntry.value record).

Definition rr_traced (r : Z) (external_flag : bool) (timestamp : Z) (lma : local_map) :
  M (MemoryReadRecord.t * local_map) :=
  when (is_checkpoint E || UNCONSTRAINED E) (save_checkpoint (inl r)) ;;!
  when (UNCONSTRAINED E) (save_fork (inl r)) ;;!
  let! prev_record := init_entry (inl r) in
  count_local_mem E prev_record external_flag ;;!
  let record := MemoryEntry.mk external_flag timestamp (MemoryEntry.value prev_record) in
  set_entry (inl r) record ;;!
  let! lma :=
    if negb (UNCONSTRAINED E) && is_trace E then record_local lma r prev_record record else ret lma in
  ret (MemoryReadRecord.new record prev_record None, lma).

Definition mw (addr value : Z) (external_flag : bool) (timestamp : Z) (lma : local_map) :
  M (MemoryWriteRecord.t * local_map) :=
  assert (negb (invalid_addr addr)) ;;!
  let! l := page_loc addr in
  when (is_checkpoint E || UNCONSTRAINED E) (save_checkpoint l) ;;!
  when (UNCONSTRAINED E) (save_fork l) ;;!
  let! prev_record := init_entry l in
  count_local_mem E prev_record external_flag ;;!
  let record := MemoryEntry.mk external_flag timestamp value in
  set_entry l record ;;!
  let! lma :=
    if negb (UNCONSTRAINED E) && is_trace E then record_local lma addr prev_record record else ret lma in
  ret (MemoryWriteRecord.new record prev_record None, lma).

(** The checkpoint is saved in unconstrained mode only, and the local event
    is recorded in every constrained mode: the caller is in trace mode. *)
Definition rw_traced (r value : Z) (external_flag : bool) (timestamp : Z) (lma : local_map) :
  M (MemoryWriteRecord.t * local_map) :=
  when (UNCONSTRAINED E) (save_checkpoint (inl r)) ;;!
  when (UNCONSTRAINED E) (save_fork (inl r)) ;;!
  let! prev_record := init_entry (inl r) in
  count_local_mem E prev_record external_flag ;;!
  let record := MemoryEntry.mk external_flag timestamp value in
  set_entry (inl r) record ;;!
  let! lma := if negb (UNCONSTRAINED E) then record_local lma r prev_record record else ret lma in
  ret (MemoryWriteRecord.new record prev_record None, lma).

Definition rw (r value : Z) (external_flag : bool) (timestamp : Z) : M unit :=
  when (is_checkpoint E || UNCONSTRAINED E) (save_checkpoint (inl r)) ;;!
  when (UNCONSTRAINED E) (save_fork (inl r)) ;;!
  let! record := init_entry (inl r) in
  count_local_mem E record external_flag ;;!
  set_entry (inl r) (MemoryEntry.mk external_flag timestamp value).

Definition enable_untrusted_programs : M bool :=
  gets (fun s => Program.enable_untrusted_programs (Executor.program s)).

Definition mr_cpu (addr : Z) : M Z :=
  let! ts := timestamp MemoryAccessPosition.Memory in
  let! '(record, _) := mr addr false ts None in
  let! untrusted := enable_untrusted_programs in
  let! record :=
    if untrusted then
      let! '(p, _) := page_prot_access (addr / PAGE_SIZE) PROT_READ false ts None in
      ret (MemoryReadRecord.with_page_prot p record)
    else ret record in
  when (is_trace E)
    (upd_accesses (MemoryAccessRecord.set_memory (Some (MemoryRecordEnum.Read record)))) ;;!
  ret (MemoryReadRecord.value record).

Definition rr_cpu (r : Z) (position : MemoryAccessPosition.t) : M Z :=
  let! ts := timestamp position in
  if is_trace E then
    let! '(record, _) := rr_traced r false ts None in
    let x := Some (MemoryRecordEnum.Read record) in
    (if negb (UNCONSTRAINED E) then
       match position with
       | MemoryAccessPosition.A => upd_accesses (MemoryAccessRecord.set_a x)
       | MemoryAccessPosition.B => upd_accesses (MemoryAccessRecord.set_b x)
       | MemoryAccessPosition.C => upd_accesses (MemoryAccessRecord.set_c x)
       | MemoryAccessPosition.Memory => upd_accesses (MemoryAccessRecord.set_memory x)
       | MemoryAccessPosition.UntrustedInstruction => panic
       end
     else ret tt) ;;!
    ret (MemoryReadRecord.value record)
  else rr r false ts.

Definition mw_cpu (addr value : Z) : M unit :=
  let! ts := timestamp MemoryAccessPosition.Memory in
  let! '(record, _) := mw addr value false ts None in
  let! untrusted := enable_untrusted_programs in
  let! record :=
    if untrusted then
      let! '(p, _) := page_prot_access (addr / PAGE_SIZE) PROT_WRITE false ts None in
      ret (MemoryWriteRecord.with_page_prot p record)
    else ret record in
  when (is_trace E)
    (upd_accesses (MemoryAccessRecord.set_memory (Some (MemoryRecordEnum.Write record)))).

Definition rw_cpu (r value : Z) : M unit :=
  let value := if r =? Register.X0 then 0 else value in
  let! ts := timestamp MemoryAccessPosition.A in
  if is_trace E then
    let! '(record, _) := rw_traced r value false ts None in
    when (negb (UNCONSTRAINED E))
      (upd_accesses (MemoryAccessRecord.set_a (Some (MemoryRecordEnum.Write record))))
  else rw r value false ts.
End Access.
