(* ===== verification/Interpreter.v ===== *)
(** * Interpreter: the instructions of the executor

    The functions of [core/executor/src/executor.rs] that fetch, execute and
    record one instruction: operand reads, [execute_alu], [execute_load],
    [execute_store], [execute_branch], [execute_jump], [fetch] and
    [emit_events] with the functions it dispatches to.  [execute_ecall] and
    [execute_instruction], which need the system calls, are in [Syscalls]. *)
From Stdlib Require Import ZArith Lia Bool.
From stdpp Require Import base numbers option list gmap.
From S2P Require Import Prelude Isa PagedMemory SyscallCode State ExecMemory.
Import Opcode.

(** ** Pure parts *)

Definition align (addr : Z) : Z := addr - addr mod 8.

(** Arithmetic shift of an [i64] pattern: left then right by [64 - bits]. *)
Definition sign_extend_imm (value bits : Z) : Z :=
  let shift := 64 - bits in i64 (i64 value ≪ shift) ≫ shift.

Definition i128 (x : Z) : Z := sext 128 x.

(** [wrapping_div] and [wrapping_rem] of signed integers of width [w]: the
    quotient is truncated, and [MIN / -1] wraps. *)
Definition wrapping_div (w a b : Z) : Z := sext w (Z.quot a b).
Definition wrapping_rem (w a b : Z) : Z := sext w (Z.rem a b).

(** The value an ALU instruction computes; [None] is [unreachable!]. *)
Definition alu_result (opcode : Opcode.t) (b c : Z) : option Z :=
  match opcode with
  | ADD | ADDI => Some (b +ₗ c)
  | SUB => Some (b -ₗ c)
  | XOR => Some (Z.lxor b c)
  | OR => Some (Z.lor b c)
  | AND => Some (Z.land b c)
  | SLL => Some (u64 (b ≪ Z.land c 0x3f))
  | SRL => Some (b ≫ Z.land c 0x3f)
  | SRA => Some (u64 (i64 b ≫ Z.land c 0x3f))
  | SLT => Some (if i64 b <? i64 c then 1 else 0)
  | SLTU => Some (if b <? c then 1 else 0)
  | MUL => Some (u64 (i64 (i64 b * i64 c)))
  | MULH => Some (u64 (i128 (i64 b * i64 c) ≫ 64))
  | MULHU => Some (u64 (wrap 128 (b * c) ≫ 64))
  | MULHSU => Some (u64 (i128 (i64 b * c) ≫ 64))
  | DIV => Some (if c =? 0 then M64 else u64 (wrapping_div 64 (i64 b) (i64 c)))
  | DIVU => Some (if c =? 0 then M64 else b / c)
  | REM => Some (if c =? 0 then b else u64 (wrapping_rem 64 (i64 b) (i64 c)))
  | REMU => Some (if c =? 0 then b else b mod c)
  | ADDW => Some (u64 (i32 (i32 b + i32 c)))
  | SUBW => Some (u64 (i32 (i32 b - i32 c)))
  | MULW => Some (u64 (i32 (i32 b * i32 c)))
  | DIVW => Some (if i32 c =? 0 then M64 else u64 (wrapping_div 32 (i32 b) (i32 c)))
  | DIVUW => Some (if i32 c =? 0 then M64 else u64 (i32 (u32 b / u32 c)))
  | REMW => Some (if i32 c =? 0 then u64 (i32 b) else u64 (wrapping_rem 32 (i32 b) (i32 c)))
  | REMUW => Some (if u32 c =? 0 then u64 (i32 b) else u64 (i32 (u32 b mod u32 c)))
  | SLLW => Some (u64 (i32 (i64 (i64 b ≪ Z.land c 0x1f))))
  | SRLW => Some (u64 (i32 (u32 b ≫ u32 (Z.land c 0x1f))))
  | SRAW => Some (u64 (i32 b ≫ (u32 (i32 (Z.land (i64 c) 0x1f)) mod 32)))
  | _ => None
  end.

(** The value a load writes to its register, from the double word read. *)
Definition load_result (opcode : Opcode.t) (addr memory_read_value : Z) : option (Z + ExecutionError) :=
  let misaligned n := negb (addr mod n =? 0) in
  match opcode with
  | LB => Some (inl (u64 (i8 (Z.land (memory_read_value ≫ ((addr mod 8) * 8)) 0xFF))))
  | LH =>
      if misaligned 2 then Some (inr (InvalidMemoryAccess LH addr))
      else Some (inl (u64 (i16 (Z.land (memory_read_value ≫ (((addr / 2) mod 4) * 16)) 0xFFFF))))
  | LW =>
      if misaligned 4 then Some (inr (InvalidMemoryAccess LW addr))
      else Some (inl (u64 (i32 (Z.land (memory_read_value ≫ (((addr / 4) mod 2) * 32)) 0xFFFFFFFF))))
  | LBU => Some (inl (u8 (Z.land (memory_read_value ≫ ((addr mod 8) * 8)) 0xFF)))
  | LHU =>
      if misaligned 2 then Some (inr (InvalidMemoryAccess LHU addr))
      else Some (inl (u16 (Z.land (memory_read_value ≫ (((addr / 2) mod 4) * 16)) 0xFFFF)))
  | LWU =>
      if misaligned 4 then Some (inr (InvalidMemoryAccess LWU addr))
      else Some (inl (Z.land (memory_read_value ≫ (((addr / 4) mod 2) * 32)) 0xFFFFFFFF))
  | LD =>
      if misaligned 8 then Some (inr (InvalidMemoryAccess LD addr)) else Some (inl memory_read_value)
  | _ => None
  end.

(** The double word a store writes back, from the one in memory. *)
Definition store_result (opcode : Opcode.t) (addr a memory_read_value : Z) : option (Z + ExecutionError) :=
  let misaligned n := negb (addr mod n =? 0) in
  let merge mask shift :=
    Z.lor (u64 (Z.land a mask ≪ shift)) (Z.land memory_read_value (not64 (u64 (mask ≪ shift)))) in
  match opcode with
  | SB => Some (inl (merge 0xFF ((addr mod 8) * 8)))
  | SH =>
      if misaligned 2 then Some (inr (InvalidMemoryAccess SH addr))
      else Some (inl (merge 0xFFFF (((addr / 2) mod 4) * 16)))
  | SW =>
      if misaligned 4 then Some (inr (InvalidMemoryAccess SW addr))
      else Some (inl (merge 0xFFFFFFFF (((addr / 4) mod 2) * 32)))
  | SD => if misaligned 8 then Some (inr (InvalidMemoryAccess SD addr)) else Some (inl a)
  | _ => None
  end.

Definition branch_taken (opcode : Opcode.t) (a b : Z) : option bool :=
  match opcode with
  | BEQ => Some (a =? b)
  | BNE => Some (negb (a =? b))
  | BLT => Some (i64 a <? i64 b)
  | BGE => Some (i64 b <=? i64 a)
  | BLTU => Some (a <? b)
  | BGEU => Some (b <=? a)
  | _ => None
  end.

(** An [Err] of the instruction, or its value. *)
Definition or_throw {A} (r : option (A + ExecutionError)) : M A :=
  match r with
  | Some (inl a) => ret a
  | Some (inr e) => throw e
  | None => panic
  end.

Section Execute.
Context (E : ExecutorConfig).

(** ** Operand reads *)
Definition alu_rr (i : Instruction.t) : M (Z * Z * Z) :=
  if negb (Instruction.imm_c i) then
    let! '(rd, rs1, rs2) := Operands.r_type i in
    let! c := rr_cpu E rs2 MemoryAccessPosition.C in
    let! b := rr_cpu E rs1 MemoryAccessPosition.B in
    ret (rd, b, c)
  else if negb (Instruction.imm_b i) && Instruction.imm_c i then
    let! '(rd, rs1, imm) := Operands.i_type i in
    let! b := rr_cpu E rs1 MemoryAccessPosition.B in
    ret (rd, b, imm)
  else
    let! rd := expect (Register.from_u8 (Instruction.op_a i)) in
    ret (rd, Instruction.op_b i, Instruction.op_c i).

Definition alu_rw (rd a : Z) : M unit := rw_cpu E rd a.

Definition load_rr (i : Instruction.t) : M (Z * Z * Z * Z * Z) :=
  let! '(rd, rs1, imm) := Operands.i_type i in
  let! b := rr_cpu E rs1 MemoryAccessPosition.B in
  let c := imm in
  let addr := b +ₗ c in
  let! memory_value := mr_cpu E (align addr) in
  ret (rd, b, c, addr, memory_value).

Definition store_rr (i : Instruction.t) : M (Z * Z * Z * Z * Z) :=
  let! '(rs1, rs2, imm) := Operands.s_type i in
  let c := imm in
  let! b := rr_cpu E rs2 MemoryAccessPosition.B in
  let! a := rr_cpu E rs1 MemoryAccessPosition.A in
  let addr := b +ₗ c in
  let! memory_value := double_word E (align addr) in
  ret (a, b, c, addr, memory_value).

Definition branch_rr (i : Instruction.t) : M (Z * Z * Z) :=
  let! '(rs1, rs2, imm) := Operands.b_type i in
  let c := imm in
  let! b := rr_cpu E rs2 MemoryAccessPosition.B in
  let! a := rr_cpu E rs1 MemoryAccessPosition.A in
  ret (a, b, c).

(** ** Instructions *)
Definition get_pc : M Z := gets (fun s => ExecutionState.pc (Executor.state s)).

Definition execute_alu (i : Instruction.t) : M (Z * Z * Z) :=
  let! '(rd, b, c) := alu_rr i in
  let! a := expect (alu_result (Instruction.opcode i) b c) in
  alu_rw rd a ;;!
  ret (a, b, c).

Definition execute_load (i : Instruction.t) : M (Z * Z * Z) :=
  let! '(rd, b, c, addr, memory_read_value) := load_rr i in
  let! a := or_throw (load_result (Instruction.opcode i) addr memory_read_value) in
  rw_cpu E rd a ;;!
  ret (a, b, c).

Definition execute_store (i : Instruction.t) : M (Z * Z * Z) :=
  let! '(a, b, c, addr, memory_read_value) := store_rr i in
  let! memory_store_value := or_throw (store_result (Instruction.opcode i) addr a memory_read_value) in
  mw_cpu E (align addr) memory_store_value ;;!
  ret (a, b, c).

Definition execute_branch (i : Instruction.t) (next_pc : Z) : M (Z * Z * Z * Z) :=
  let! '(a, b, c) := branch_rr i in
  let! branch := expect (branch_taken (Instruction.opcode i) a b) in
  let! pc := get_pc in
  ret (a, b, c, if branch then pc +ₗ c else next_pc).

Definition execute_jump (i : Instruction.t) : M (Z * Z * Z * Z) :=
  match Instruction.opcode i with
  | JAL =>
      let! '(rd, imm) := Operands.j_type i in
      let imm_se := sign_extend_imm imm 21 in
      let! pc := get_pc in
      let a := pc +ₗ 4 in
      rw_cpu E rd a ;;!
      ret (a, u64 imm_se, 0, u64 (i64 (i64 pc + imm_se)))
  | JALR =>
      let! '(rd, rs1, c) := Operands.i_type i in
      let imm_se := sign_extend_imm c 12 in
      let! b := rr_cpu E rs1 MemoryAccessPosition.B in
      let! pc := get_pc in
      let a := pc +ₗ 4 in
      let next_pc := Z.land (u64 (i64 (i64 b + imm_se))) (not64 1) in
      rw_cpu E rd a ;;!
      ret (a, b, c, next_pc)
  | _ => panic
  end.

(** ** Fetch *)
Definition fetch : M Instruction.t :=
  let! pc := get_pc in
  let! program := gets Executor.program in
  match Program.fetch program pc with
  | Some instruction => ret instruction
  | None =>
      if Program.enable_untrusted_programs program then
        let aligned_pc := align pc in
        let! ts := timestamp MemoryAccessPosition.UntrustedInstruction in
        let! '(record, _) := mr E aligned_pc false ts None in
        upd_counts (fun c => LocalCounts.set_local_instruction_fetch
          (u64 (LocalCounts.local_instruction_fetch c + 1)) c) ;;!
        let! '(p, _) := page_prot_access E (aligned_pc / PAGE_SIZE) PROT_EXEC false ts None in
        let record := MemoryReadRecord.with_page_prot p record in
        let memory_value := MemoryReadRecord.value record in
        let alignment_offset := pc - aligned_pc in
        if negb (aligned_pc mod 4 =? 0) then throw (InvalidMemoryAccessUntrustedProgram aligned_pc) else
        let instruction_value := Z.land (memory_value ≫ (alignment_offset * 8)) 0xffffffff in
        when (is_trace E)
          (upd_accesses (MemoryAccessRecord.set_untrusted_instruction
             (Some (MemoryRecordEnum.Read record, instruction_value)))) ;;!
        let! cached := gets (fun s => Executor.decoded_instruction_cache s !! instruction_value) in
        let! instruction :=
          match cached with
          | Some instruction => ret instruction
          | None =>
              let! decode := gets (fun s => Context.decode (Executor.context s)) in
              let! call := expect (decode instruction_value) in
              let instruction := Transpiler.process call in
              modify (fun s => Executor.set_decoded_instruction_cache
                (<[instruction_value := instruction]> (Executor.decoded_instruction_cache s)) s) ;;!
              ret instruction
          end in
        upd_counts (fun c => LocalCounts.set_shard_distinct_instructions
          ({[instruction_value]} ∪ LocalCounts.shard_distinct_instructions c) c) ;;!
        ret instruction
      else throw InstructionNotFound
  end.
End Execute.

(** ** Events of an instruction, in trace mode *)
Section Emit.

Definition emit_alu_event (i : Instruction.t) (a b c : Z) (record : MemoryAccessRecord.t) (op_a_0 : bool) :
  M unit :=
  let opcode := Instruction.opcode i in
  let! st := gets Executor.state in
  let event := AluEvent.mk (ExecutionState.clk st) (ExecutionState.pc st) opcode a b c op_a_0 in
  let r_type := expect (RTypeRecord.new record i) in
  let i_type := expect (ITypeRecord.new record i) in
  let alu_type := expect (ALUTypeRecord.new record i) in
  match opcode with
  | ADD => let! r := r_type in push_event (add_events event r)
  | ADDW => let! r := alu_type in push_event (addw_events event r)
  | ADDI => let! r := i_type in push_event (addi_events event r)
  | SUB => let! r := r_type in push_event (sub_events event r)
  | SUBW => let! r := r_type in push_event (subw_events event r)
  | XOR | OR | AND => let! r := alu_type in push_event (bitwise_events event r)
  | SLL | SLLW => let! r := alu_type in push_event (shift_left_events event r)
  | SRL | SRA | SRLW | SRAW => let! r := alu_type in push_event (shift_right_events event r)
  | SLT | SLTU => let! r := alu_type in push_event (lt_events event r)
  | MUL | MULHU | MULHSU | MULH | MULW => let! r := r_type in push_event (mul_events event r)
  | DIVU | REMU | DIV | REM | DIVW | DIVUW | REMUW | REMW =>
      let! r := r_type in push_event (divrem_events event r)
  | _ => panic
  end.

Definition emit_mem_instr_event (i : Instruction.t) (a b c : Z) (record : MemoryAccessRecord.t)
  (op_a_0 : bool) : M unit :=
  let opcode := Instruction.opcode i in
  let! st := gets Executor.state in
  let! mem_access := let! m := gets Executor.memory_accesses in expect (MemoryAccessRecord.memory m) in
  let event := MemInstrEvent.mk (ExecutionState.clk st) (ExecutionState.pc st) opcode a b c op_a_0 mem_access in
  let! r := expect (ITypeRecord.new record i) in
  match opcode with
  | LB | LBU | LH | LHU | LW | LWU | LD =>
      if op_a_0 then push_event (memory_load_x0_events event r) else
      match opcode with
      | LB | LBU => push_event (memory_load_byte_events event r)
      | LH | LHU => push_event (memory_load_half_events event r)
      | LW | LWU => push_event (memory_load_word_events event r)
      | _ => push_event (memory_load_double_events event r)
      end
  | SB => push_event (memory_store_byte_events event r)
  | SH => push_event (memory_store_half_events event r)
  | SW => push_event (memory_store_word_events event r)
  | SD => push_event (memory_store_double_events event r)
  | _ => ret tt
  end.

Definition emit_branch_event (i : Instruction.t) (a b c : Z) (record : MemoryAccessRecord.t)
  (op_a_0 : bool) (next_pc : Z) : M unit :=
  let! st := gets Executor.state in
  let event := BranchEvent.mk (ExecutionState.clk st) (ExecutionState.pc st) next_pc
                 (Instruction.opcode i) a b c op_a_0 in
  let! r := expect (ITypeRecord.new record i) in
  push_event (branch_events event r).

Definition emit_jal_event (i : Instruction.t) (a b c : Z) (record : MemoryAccessRecord.t)
  (op_a_0 : bool) (next_pc : Z) : M unit :=
  let! st := gets Executor.state in
  let event := JumpEvent.mk (ExecutionState.clk st) (ExecutionState.pc st) next_pc
                 (Instruction.opcode i) a b c op_a_0 in
  let! r := expect (JTypeRecord.new record i) in
  push_event (jal_events event r).

Definition emit_jalr_event (i : Instruction.t) (a b c : Z) (record : MemoryAccessRecord.t)
  (op_a_0 : bool) (next_pc : Z) : M unit :=
  let! st := gets Executor.state in
  let event := JumpEvent.mk (ExecutionState.clk st) (ExecutionState.pc st) next_pc
                 (Instruction.opcode i) a b c op_a_0 in
  let! r := expect (ITypeRecord.new record i) in
  push_event (jalr_events event r).

Definition emit_utype_event (i : Instruction.t) (a b c : Z) (record : MemoryAccessRecord.t)
  (op_a_0 : bool) : M unit :=
  let! st := gets Executor.state in
  let event := UTypeEvent.mk (ExecutionState.clk st) (ExecutionState.pc st)
                 (Instruction.opcode i) a b c op_a_0 in
  let! r := expect (JTypeRecord.new record i) in
  push_event (utype_events event r).

Definition syscall_event (clk : Z) (syscall_code : SyscallCode.t) (arg1 arg2 : Z) (op_a_0 : bool)
  (next_pc exit_code : Z) (s : Executor.t) : SyscallEvent.t :=
  let should_send := negb (SyscallCode.should_send syscall_code =? 0) &&
    negb (bool_decide (syscall_code ∈ Context.internal_syscalls_override (Executor.context s))) in
  SyscallEvent.mk (ExecutionState.pc (Executor.state s)) next_pc clk op_a_0 should_send syscall_code
    (SyscallCode.syscall_id syscall_code) arg1 arg2 exit_code.

Definition emit_syscall_event (clk : Z) (syscall_code : SyscallCode.t) (arg1 arg2 : Z)
  (record : MemoryAccessRecord.t) (op_a_0 : bool) (next_pc exit_code : Z) (i : Instruction.t) : M unit :=
  let! event := gets (syscall_event clk syscall_code arg1 arg2 op_a_0 next_pc exit_code) in
  let! r := expect (RTypeRecord.new record i) in
  push_event (syscall_events event r).

Definition emit_instruction_fetch_event (i : Instruction.t) (encoded_instruction : Z)
  (record : MemoryAccessRecord.t) : M unit :=
  let! st := gets Executor.state in
  push_event (instruction_fetch_events
    (InstructionFetchEvent.mk (ExecutionState.clk st) (ExecutionState.pc st) i encoded_instruction) record).

(** A register access whose timestamp crosses a multiple of [2^24]. *)
Definition bump_register (x : option MemoryRecordEnum.t) (addr : Z) : M unit :=
  match x with
  | Some x =>
      when (negb (MemoryRecord.timestamp (MemoryRecordEnum.current_record x) ≫ 24 =?
                  MemoryRecord.timestamp (MemoryRecordEnum.previous_record x) ≫ 24))
        (push_event (bump_memory_events x addr false))
  | None => ret tt
  end.

Definition emit_events (clk next_pc : Z) (i : Instruction.t) (syscall_code : SyscallCode.t) (a b c : Z)
  (op_a_0 : bool) (record : MemoryAccessRecord.t) (exit_code : Z) : M unit :=
  let! st := gets Executor.state in
  let pc := ExecutionState.pc st in
  upd_record (fun r => ExecutionRecord.set_pc_start
    (match ExecutionRecord.pc_start r with Some p => Some p | None => Some pc end) r) ;;!
  upd_record (ExecutionRecord.set_next_pc next_pc) ;;!
  upd_record (ExecutionRecord.set_exit_code exit_code) ;;!
  upd_record (fun r => ExecutionRecord.set_cpu_event_count (u32 (ExecutionRecord.cpu_event_count r + 1)) r) ;;!
  let increment := u64 (ExecutionState.clk st + 8 - clk) in
  let bump1 := (1 ≪ 24) <=? clk mod (1 ≪ 24) + increment in
  let bump2 := negb (Instruction.is_with_correct_next_pc i) && (next_pc =? pc +ₗ 4) &&
               negb (next_pc ≫ 16 =? pc ≫ 16) in
  when (bump1 || bump2) (push_event (bump_state_events clk increment bump2 next_pc)) ;;!
  let! accesses := gets Executor.memory_accesses in
  bump_register (MemoryAccessRecord.a accesses) (Instruction.op_a i) ;;!
  bump_register (MemoryAccessRecord.b accesses) (Instruction.op_b i) ;;!
  bump_register (MemoryAccessRecord.c accesses) (Instruction.op_c i) ;;!
  (if Instruction.is_alu_instruction i then emit_alu_event i a b c record op_a_0
   else if Instruction.is_memory_load_instruction i || Instruction.is_memory_store_instruction i then
     emit_mem_instr_event i a b c record op_a_0
   else if Instruction.is_branch_instruction i then emit_branch_event i a b c record op_a_0 next_pc
   else if Instruction.is_jal_instruction i then emit_jal_event i a b c record op_a_0 next_pc
   else if Instruction.is_jalr_instruction i then emit_jalr_event i a b c record op_a_0 next_pc
   else if Instruction.is_utype_instruction i then emit_utype_event i a b c record op_a_0
   else if Instruction.is_ecall_instruction i then
     emit_syscall_event clk syscall_code b c record op_a_0 next_pc exit_code i
   else panic) ;;!
  match MemoryAccessRecord.untrusted_instruction accesses with
  | Some (_, encoded_instruction) =>
      emit_instruction_fetch_event i encoded_instruction accesses ;;!
      modify (fun s => Executor.set_decoded_instruction_events
        (let m := Executor.decoded_instruction_events s in
         match m !! encoded_instruction with
         | Some e => <[encoded_instruction := InstructionDecodeEvent.mk
                        (InstructionDecodeEvent.instruction e) (InstructionDecodeEvent.encoded_instruction e)
                        (u64 (InstructionDecodeEvent.multiplicity e + 1))]> m
         | None => <[encoded_instruction := InstructionDecodeEvent.mk i encoded_instruction 1]> m
         end) s)
  | None => ret tt
  end.
End Emit.
