(* ===== verification/Cost.v ===== *)
(** * Cost: the trace-size estimate that closes a shard

    [estimate_riscv_event_counts] ([core/executor/src/executor.rs]) maps the
    counters of a shard to the number of events of each table;
    [estimate_trace_elements] and [pad_rv64im_event_counts]
    ([core/executor/src/cost.rs]) turn them into a number of cells and the
    height of the largest table. *)
From Stdlib Require Import ZArith Lia Bool.
From stdpp Require Import base numbers option list gmap.
From S2P Require Import Prelude Isa SyscallCode State.
Import Opcode.

Definition BYTE_NUM_ROWS : Z := 1 ≪ 16.
Definition RANGE_NUM_ROWS : Z := 1 ≪ 17.
Definition NUM_LOCAL_MEMORY_ENTRIES_PER_ROW_EXEC : Z := 1.
Definition NUM_LOCAL_PAGE_PROT_ENTRIES_PER_ROW_EXEC : Z := 1.
Definition NUM_PAGE_PROT_ENTRIES_PER_ROW_EXEC : Z := 4.

Definition div_ceil (x y : Z) : Z := x / y + (if x mod y =? 0 then 0 else 1).
Definition next_multiple_of (x y : Z) : Z := if x mod y =? 0 then x else u64 (x + (y - x mod y)).

(** Sums of [u64] counters. *)
Definition sum64 (l : list Z) : Z := foldl (fun a b => a +ₗ b) 0 l.

Definition rows_per_event (a : RiscvAirId.t) : Z :=
  match a with
  | RiscvAirId.ShaCompress => 80
  | RiscvAirId.ShaExtend => 48
  | RiscvAirId.KeccakPermute => 24
  | _ => 1
  end.

Definition control_air_id (a : RiscvAirId.t) : option RiscvAirId.t :=
  match a with
  | RiscvAirId.ShaCompress => Some RiscvAirId.ShaCompressControl
  | RiscvAirId.ShaExtend => Some RiscvAirId.ShaExtendControl
  | RiscvAirId.KeccakPermute => Some RiscvAirId.KeccakPermuteControl
  | _ => None
  end.

(** The assignments to [event_counts]; the tables not assigned keep their value. *)
Definition estimate_core_counts (bump_clk_high : Z) (event_counts : RiscvAirId.t -> Z)
  (local_counts : LocalCounts.t) (load_x0_counts : Z) (a : RiscvAirId.t) : Z :=
  let touched_addresses := LocalCounts.local_mem local_counts in
  let touched_page_prot := LocalCounts.local_page_prot local_counts in
  let page_prot := LocalCounts.page_prot local_counts in
  let syscalls_sent := LocalCounts.syscalls_sent local_counts in
  let instruction_fetch := LocalCounts.local_instruction_fetch local_counts in
  let instruction_decode := Z.of_nat (size (LocalCounts.shard_distinct_instructions local_counts)) in
  let n := LocalCounts.event_counts local_counts in
  match a with
  | RiscvAirId.MemoryBump => u64 (NUM_REGISTERS * (bump_clk_high +ₗ 1))
  | RiscvAirId.StateBump => bump_clk_high +ₗ LocalCounts.state_bump_counts local_counts
  | RiscvAirId.Add => n ADD
  | RiscvAirId.Addi => n ADDI
  | RiscvAirId.Addw => n ADDW
  | RiscvAirId.Sub => n SUB
  | RiscvAirId.Subw => n SUBW
  | RiscvAirId.Bitwise => sum64 [n XOR; n OR; n AND]
  | RiscvAirId.DivRem => sum64 [n DIV; n DIVU; n REM; n REMU; n DIVW; n DIVUW; n REMW; n REMUW]
  | RiscvAirId.Lt => sum64 [n SLT; n SLTU]
  | RiscvAirId.Mul => sum64 [n MUL; n MULH; n MULHU; n MULHSU; n MULW]
  | RiscvAirId.ShiftLeft => sum64 [n SLL; n SLLW]
  | RiscvAirId.ShiftRight => sum64 [n SRL; n SRA; n SRLW; n SRAW]
  | RiscvAirId.MemoryLocal => div_ceil touched_addresses NUM_LOCAL_MEMORY_ENTRIES_PER_ROW_EXEC
  | RiscvAirId.PageProtLocal => div_ceil touched_page_prot NUM_LOCAL_PAGE_PROT_ENTRIES_PER_ROW_EXEC
  | RiscvAirId.Branch => sum64 [n BEQ; n BNE; n BLT; n BGE; n BLTU; n BGEU]
  | RiscvAirId.Jal => n JAL
  | RiscvAirId.Jalr => n JALR
  | RiscvAirId.UType => sum64 [n AUIPC; n LUI]
  | RiscvAirId.LoadByte => sum64 [n LB; n LBU]
  | RiscvAirId.LoadHalf => sum64 [n LH; n LHU]
  | RiscvAirId.LoadWord => sum64 [n LW; n LWU]
  | RiscvAirId.LoadDouble => n LD
  | RiscvAirId.LoadX0 => load_x0_counts
  | RiscvAirId.StoreByte => n SB
  | RiscvAirId.StoreHalf => n SH
  | RiscvAirId.StoreWord => n SW
  | RiscvAirId.StoreDouble => n SD
  | RiscvAirId.PageProt => div_ceil page_prot NUM_PAGE_PROT_ENTRIES_PER_ROW_EXEC
  | RiscvAirId.SyscallInstrs => n ECALL
  | RiscvAirId.SyscallCore => syscalls_sent
  | RiscvAirId.InstructionFetch => instruction_fetch
  | RiscvAirId.InstructionDecode => instruction_decode
  | RiscvAirId.Global => sum64 [u64 (2 * (touched_addresses +ₗ 32)); u64 (2 * touched_page_prot); syscalls_sent]
  | _ => event_counts a
  end.

Definition estimate_riscv_event_counts (bump_clk_high : Z) (event_counts : RiscvAirId.t -> Z)
  (local_counts : LocalCounts.t) (load_x0_counts : Z) (internal_syscalls_air_id : list RiscvAirId.t) :
  RiscvAirId.t -> Z :=
  fun a => if bool_decide (a ∈ internal_syscalls_air_id)
           then LocalCounts.retained_precompile_counts local_counts a
           else estimate_core_counts bump_clk_high event_counts local_counts load_x0_counts a.

(** The tables of a core shard, in the order of the code, with the table whose
    cost is charged for each. *)
Definition core_tables : list (RiscvAirId.t * RiscvAirId.t) :=
  [(RiscvAirId.MemoryBump, RiscvAirId.MemoryBump); (RiscvAirId.StateBump, RiscvAirId.StateBump);
   (RiscvAirId.Add, RiscvAirId.Add); (RiscvAirId.Addi, RiscvAirId.Addi);
   (RiscvAirId.Addw, RiscvAirId.Addw); (RiscvAirId.Sub, RiscvAirId.Sub);
   (RiscvAirId.Subw, RiscvAirId.Subw); (RiscvAirId.Bitwise, RiscvAirId.Bitwise);
   (RiscvAirId.DivRem, RiscvAirId.DivRem); (RiscvAirId.Lt, RiscvAirId.Lt);
   (RiscvAirId.Mul, RiscvAirId.Mul); (RiscvAirId.ShiftLeft, RiscvAirId.ShiftLeft);
   (RiscvAirId.ShiftRight, RiscvAirId.ShiftRight); (RiscvAirId.MemoryLocal, RiscvAirId.MemoryLocal);
   (RiscvAirId.PageProtLocal, RiscvAirId.PageProtLocal); (RiscvAirId.Branch, RiscvAirId.Branch);
   (RiscvAirId.Jal, RiscvAirId.Jal); (RiscvAirId.Jalr, RiscvAirId.Jalr);
   (RiscvAirId.UType, RiscvAirId.UType); (RiscvAirId.LoadByte, RiscvAirId.LoadByte);
   (RiscvAirId.LoadHalf, RiscvAirId.LoadHalf); (RiscvAirId.LoadWord, RiscvAirId.LoadWord);
   (RiscvAirId.LoadDouble, RiscvAirId.LoadDouble); (RiscvAirId.LoadX0, RiscvAirId.LoadX0);
   (RiscvAirId.StoreByte, RiscvAirId.StoreByte); (RiscvAirId.StoreHalf, RiscvAirId.StoreHalf);
   (RiscvAirId.StoreWord, RiscvAirId.StoreWord); (RiscvAirId.StoreDouble, RiscvAirId.StoreWord);
   (RiscvAirId.PageProt, RiscvAirId.PageProt); (RiscvAirId.InstructionFetch, RiscvAirId.InstructionFetch);
   (RiscvAirId.InstructionDecode, RiscvAirId.InstructionDecode);
   (RiscvAirId.SyscallInstrs, RiscvAirId.SyscallInstrs); (RiscvAirId.SyscallCore, RiscvAirId.SyscallCore);
   (RiscvAirId.Global, RiscvAirId.Global)].

(** The contribution of one precompile kept in the shard; [None] is the panic
    of [control_air_id().unwrap()]. *)
Definition precompile_table (num_events costs : RiscvAirId.t -> Z) (acc : option (Z * Z)) (id : RiscvAirId.t) :
  option (Z * Z) :=
  '(cells, max_height) ← acc;
  let rows := rows_per_event id in
  let num_rows := next_multiple_of (u64 (num_events id * rows)) 32 in
  let cells := u64 (cells + num_rows * costs id) in
  let max_height := Z.max max_height num_rows in
  if 1 <? rows then
    control ← control_air_id id;
    Some (u64 (cells + next_multiple_of (num_events id) 32 * costs control), max_height)
  else Some (cells, max_height).

(** Number of cells, and height of the largest table. *)
Definition estimate_trace_elements (num_events costs : RiscvAirId.t -> Z) (program_size : Z)
  (internal_syscalls_air_id : list RiscvAirId.t) : option (Z * Z) :=
  let cells := u64 (BYTE_NUM_ROWS * costs RiscvAirId.Byte) in
  let cells := u64 (cells + RANGE_NUM_ROWS * costs RiscvAirId.Range) in
  let cells := u64 (cells + program_size * costs RiscvAirId.Program) in
  let core := foldl (fun '(cells, max_height) '(a, charged) =>
      (u64 (cells + next_multiple_of (num_events a) 32 * costs charged), Z.max max_height (num_events a)))
    (cells, 0) core_tables in
  foldl (precompile_table num_events costs) (Some core) internal_syscalls_air_id.

Definition pad_rv64im_event_counts (event_counts : RiscvAirId.t -> Z) (num_cycles : Z) : RiscvAirId.t -> Z :=
  fun k => match k with
           | RiscvAirId.PageProtLocal => u64 (event_counts k + 16 * num_cycles)
           | RiscvAirId.MemoryLocal => u64 (event_counts k + 128 * num_cycles)
           | RiscvAirId.Global => u64 (event_counts k + 512 * num_cycles)
           | _ => u64 (event_counts k + num_cycles)
           end.
(** ** Sums without overflow *)
Definition total (l : list Z) : Z := foldr Z.add 0 l.

Lemma total_app l k : total (l ++ k) = total l + total k.
Proof. unfold total. induction l as [|x l IH]; cbn; [done|]. rewrite IH. lia. Qed.
Lemma total_nonneg l : Forall (fun x => 0 <= x) l -> 0 <= total l.
Proof. unfold total. induction 1; cbn; lia. Qed.

Lemma sum64_from l : forall a, 0 <= a -> Forall (fun x => 0 <= x) l -> a + total l < 2 ^ 64 ->
  foldl (fun a b => a +ₗ b) a l = a + total l.
Proof.
  unfold total. induction l as [|x l IH]; intros a Ha Hl Hs; cbn in *; [lia|].
  apply Forall_cons in Hl as [Hx Hl]. pose proof (total_nonneg l Hl) as T. unfold total in T.
  rewrite u64_small by (unfold fits; lia). rewrite IH by (lia || done). lia.
Qed.
Lemma sum64_exact l : Forall (fun x => 0 <= x) l -> total l < 2 ^ 64 -> sum64 l = total l.
Proof. intros Hl Hs. unfold sum64. rewrite sum64_from; auto; lia. Qed.

(** ** Every instruction is counted in one table *)

(** The tables of the instructions, and the opcodes with an event. *)
Definition opcode_tables : list RiscvAirId.t :=
  [RiscvAirId.Add; RiscvAirId.Addi; RiscvAirId.Addw; RiscvAirId.Sub; RiscvAirId.Subw; RiscvAirId.Bitwise;
   RiscvAirId.DivRem; RiscvAirId.Lt; RiscvAirId.Mul; RiscvAirId.ShiftLeft; RiscvAirId.ShiftRight;
   RiscvAirId.Branch; RiscvAirId.Jal; RiscvAirId.Jalr; RiscvAirId.UType; RiscvAirId.LoadByte;
   RiscvAirId.LoadHalf; RiscvAirId.LoadWord; RiscvAirId.LoadDouble; RiscvAirId.LoadX0; RiscvAirId.StoreByte;
   RiscvAirId.StoreHalf; RiscvAirId.StoreWord; RiscvAirId.StoreDouble; RiscvAirId.SyscallInstrs].
Definition counted_opcodes : list Opcode.t := filter (fun op => op <> EBREAK /\ op <> UNIMP) Opcode.all.

(** The opcodes counted in a table. *)
Definition opcodes_of (a : RiscvAirId.t) : list Opcode.t :=
  match a with
  | RiscvAirId.Add => [ADD] | RiscvAirId.Addi => [ADDI] | RiscvAirId.Addw => [ADDW]
  | RiscvAirId.Sub => [SUB] | RiscvAirId.Subw => [SUBW] | RiscvAirId.Bitwise => [XOR; OR; AND]
  | RiscvAirId.DivRem => [DIV; DIVU; REM; REMU; DIVW; DIVUW; REMW; REMUW]
  | RiscvAirId.Lt => [SLT; SLTU] | RiscvAirId.Mul => [MUL; MULH; MULHU; MULHSU; MULW]
  | RiscvAirId.ShiftLeft => [SLL; SLLW] | RiscvAirId.ShiftRight => [SRL; SRA; SRLW; SRAW]
  | RiscvAirId.Branch => [BEQ; BNE; BLT; BGE; BLTU; BGEU]
  | RiscvAirId.Jal => [JAL] | RiscvAirId.Jalr => [JALR] | RiscvAirId.UType => [AUIPC; LUI]
  | RiscvAirId.LoadByte => [LB; LBU] | RiscvAirId.LoadHalf => [LH; LHU] | RiscvAirId.LoadWord => [LW; LWU]
  | RiscvAirId.LoadDouble => [LD]
  | RiscvAirId.StoreByte => [SB] | RiscvAirId.StoreHalf => [SH] | RiscvAirId.StoreWord => [SW]
  | RiscvAirId.StoreDouble => [SD] | RiscvAirId.SyscallInstrs => [ECALL]
  | _ => []
  end.

Lemma opcodes_partition : opcode_tables ≫= opcodes_of ≡ₚ counted_opcodes.
Proof. apply (bool_decide_unpack _). vm_compute. exact I. Qed.

Lemma total_perm l k : l ≡ₚ k -> total l = total k.
Proof. unfold total. induction 1; cbn; lia. Qed.

Lemma total_add {A} (f g : A -> Z) l : total ((fun a => f a + g a) <$> l) = total (f <$> l) + total (g <$> l).
Proof. unfold total. induction l as [|a l IH]; cbn in *; lia. Qed.

Section Counters.
Context (n : Opcode.t -> Z) (Hn : forall op, 0 <= n op).

Lemma counters_nonneg l : Forall (fun x => 0 <= x) (n <$> l).
Proof using Hn. apply Forall_fmap, Forall_true. apply Hn. Qed.

Lemma total_bind tables : total ((fun a => total (n <$> opcodes_of a)) <$> tables) = total (n <$> (tables ≫= opcodes_of)).
Proof using. induction tables as [|a l IH]; [done|]. rewrite bind_cons, fmap_app, total_app, <- IH. done. Qed.

(** A table counts less than all of them. *)
Lemma table_le a tables : a ∈ tables -> total (n <$> opcodes_of a) <= total (n <$> (tables ≫= opcodes_of)).
Proof using Hn.
  intros Ha. apply list_elem_of_split in Ha as (l1 & l2 & ->). rewrite bind_app, bind_cons, !fmap_app, !total_app.
  pose proof (total_nonneg _ (counters_nonneg (l1 ≫= opcodes_of))).
  pose proof (total_nonneg _ (counters_nonneg (l2 ≫= opcodes_of))). lia.
Qed.
End Counters.

(** The count of a table is the sum of the counters of its opcodes. *)
Lemma table_count clk counts local x0 a :
  (forall op, 0 <= LocalCounts.event_counts local op) ->
  total (LocalCounts.event_counts local <$> counted_opcodes) < 2 ^ 64 -> a ∈ opcode_tables ->
  estimate_core_counts clk counts local x0 a =
  total (LocalCounts.event_counts local <$> opcodes_of a) + if decide (a = RiscvAirId.LoadX0) then x0 else 0.
Proof.
  intros Hn Hs Ha. set (n := LocalCounts.event_counts local) in *.
  pose proof (table_le n Hn a opcode_tables Ha) as L.
  rewrite (total_perm _ _ (fmap_Permutation n _ _ opcodes_partition)) in L.
  assert (E : sum64 (n <$> opcodes_of a) = total (n <$> opcodes_of a))
    by (apply sum64_exact; [now apply counters_nonneg|lia]).
  assert (S : forall x, total [x] = x) by (intros x; unfold total; cbn; lia). clear L Hs.
  repeat (apply elem_of_cons in Ha as [->|Ha]); [..|now apply elem_of_nil in Ha];
    cbn [estimate_core_counts opcodes_of fmap list_fmap] in *; fold n; rewrite ?E, ?S, ?Z.add_0_r; try reflexivity.
Qed.

(** C33. The shard estimate counts every executed instruction once: when the
    counters of the opcodes do not add up to more than a u64, the events of the
    instruction tables add up to the counters of all opcodes other than EBREAK
    and UNIMP (which have no event), plus the loads into register 0, which
    [count_instruction] takes out of the counters of the loads. *)
Theorem events_counted_once clk counts local x0 ids
  (Hn : forall op, 0 <= LocalCounts.event_counts local op)
  (Hs : total (LocalCounts.event_counts local <$> counted_opcodes) < 2 ^ 64)
  (Hi : forall a, a ∈ opcode_tables -> a ∉ ids) :
  total (estimate_riscv_event_counts clk counts local x0 ids <$> opcode_tables) =
  total (LocalCounts.event_counts local <$> counted_opcodes) + x0.
Proof.
  rewrite <- (total_perm _ _ (fmap_Permutation _ _ _ opcodes_partition)), <- total_bind.
  set (n := LocalCounts.event_counts local) in *.
  assert (E : estimate_riscv_event_counts clk counts local x0 ids <$> opcode_tables =
    (fun a => total (n <$> opcodes_of a) + if decide (a = RiscvAirId.LoadX0) then x0 else 0) <$> opcode_tables).
  { apply list_fmap_ext. intros k a Ha. apply list_elem_of_lookup_2 in Ha. unfold estimate_riscv_event_counts.
    rewrite bool_decide_eq_false_2 by auto. now apply table_count. }
  rewrite E, (total_add (fun a => total (n <$> opcodes_of a))). f_equal. unfold opcode_tables, total.
  cbn [fmap list_fmap foldr]. repeat (rewrite decide_False by discriminate). rewrite decide_True by done.
  repeat (rewrite decide_False by discriminate). lia.
Qed.
Lemma events_counted_once_witness :
  total (estimate_riscv_event_counts 0 (fun _ => 0)
    (LocalCounts.set_event_counts (fun _ => 2) LocalCounts.default) 5 [] <$> opcode_tables) = 2 * 51 + 5.
Proof.
  rewrite (events_counted_once 0 (fun _ => 0) (LocalCounts.set_event_counts (fun _ => 2) LocalCounts.default) 5 []);
    [vm_compute; reflexivity|cbn; lia|vm_compute; reflexivity|]. intros a _. apply not_elem_of_nil.
Defined.

(** ** The size of the trace *)

(** Tables are padded to a multiple of 32 rows. *)
Definition padded (x : Z) : Z := 32 * ((x + 31) / 32).

Lemma next_multiple_of_padded x : 0 <= x -> x + 31 < 2 ^ 64 -> next_multiple_of x 32 = padded x.
Proof.
  intros H0 H1. unfold next_multiple_of, padded. destruct (Z.eqb_spec (x mod 32) 0); [lia_mod|].
  rewrite u64_small by (unfold fits; lia_mod). lia_mod.
Qed.
Lemma padded_nonneg x : 0 <= x -> 0 <= padded x.
Proof. unfold padded. lia_mod. Qed.

Definition rows_of (num : RiscvAirId.t -> Z) (id : RiscvAirId.t) : Z := padded (num id * rows_per_event id).

(** The cells of a precompile and of its control table. *)
Definition precompile_area (num costs : RiscvAirId.t -> Z) (id : RiscvAirId.t) : Z :=
  rows_of num id * costs id + match control_air_id id with Some c => padded (num id) * costs c | None => 0 end.

(** The area of the tables, each with its own cost. *)
Definition area (num costs : RiscvAirId.t -> Z) (program_size : Z) (ids : list RiscvAirId.t) : Z :=
  BYTE_NUM_ROWS * costs RiscvAirId.Byte + RANGE_NUM_ROWS * costs RiscvAirId.Range +
  program_size * costs RiscvAirId.Program +
  total ((fun a => padded (num a) * costs a) <$> core_tables.*1) + total (precompile_area num costs <$> ids).

(** What the code adds for double-word stores. *)
Definition store_double_surplus (num costs : RiscvAirId.t -> Z) : Z :=
  padded (num RiscvAirId.StoreDouble) * (costs RiscvAirId.StoreWord - costs RiscvAirId.StoreDouble).

Definition height (num : RiscvAirId.t -> Z) (ids : list RiscvAirId.t) : Z :=
  foldr Z.max 0 ((num <$> core_tables.*1) ++ (rows_of num <$> ids)).

Section Estimate.
Context (num costs : RiscvAirId.t -> Z).
Context (Hnum : forall a, 0 <= num a) (Hcosts : forall a, 0 <= costs a).
Context (Hfit : forall a, num a * 80 + 31 < 2 ^ 64).

Lemma core_fold l : forall cells h,
  0 <= cells -> cells + total ((fun x => padded (num x.1) * costs x.2) <$> l) < 2 ^ 64 ->
  foldl (fun '(cells, max_height) '(a, charged) =>
      (u64 (cells + next_multiple_of (num a) 32 * costs charged), Z.max max_height (num a))) (cells, h) l =
  (cells + total ((fun x => padded (num x.1) * costs x.2) <$> l), foldl Z.max h (num <$> l.*1)).
Proof using Hnum Hcosts Hfit.
  induction l as [|[a c] l IH]; intros cells h H0 Hs; cbn; [unfold total; cbn; f_equal; lia|].
  cbn in Hs. unfold total in Hs. cbn in Hs. fold (total ((fun x : RiscvAirId.t * RiscvAirId.t => padded (num x.1) * costs x.2) <$> l)) in Hs.
  assert (T : 0 <= total ((fun x : RiscvAirId.t * RiscvAirId.t => padded (num x.1) * costs x.2) <$> l)).
  { apply total_nonneg, Forall_fmap, Forall_true. intros x. cbn. pose proof (padded_nonneg (num x.1) (Hnum x.1)).
    specialize (Hcosts x.2). nia. }
  pose proof (Hnum a). pose proof (Hfit a). pose proof (padded_nonneg (num a) (Hnum a)). pose proof (Hcosts c).
  rewrite next_multiple_of_padded by lia. rewrite u64_small by (unfold fits; nia). rewrite IH by nia.
  unfold total. cbn. f_equal. lia.
Qed.

Lemma rows_positive id : 1 <= rows_per_event id <= 80.
Proof using. destruct id; cbn; lia. Qed.

(** A precompile with several rows per event has a control table. *)
Lemma control_spec id : (1 <? rows_per_event id) = match control_air_id id with Some _ => true | None => false end.
Proof using. now destruct id. Qed.

Lemma precompile_area_nonneg id : 0 <= precompile_area num costs id.
Proof using Hnum Hcosts.
  unfold precompile_area, rows_of. pose proof (rows_positive id). pose proof (Hnum id).
  pose proof (padded_nonneg (num id * rows_per_event id) ltac:(nia)). pose proof (padded_nonneg (num id) (Hnum id)).
  pose proof (Hcosts id). destruct (control_air_id id) as [c|]; [pose proof (Hcosts c)|]; nia.
Qed.

Lemma precompile_step cells h id : 0 <= cells -> cells + precompile_area num costs id < 2 ^ 64 ->
  precompile_table num costs (Some (cells, h)) id =
  Some (cells + precompile_area num costs id, Z.max h (rows_of num id)).
Proof using Hnum Hcosts Hfit.
  intros H0 Hs. unfold precompile_table, precompile_area, rows_of in *. cbn [mbind option_bind].
  pose proof (rows_positive id) as R. pose proof (Hnum id). pose proof (Hfit id). pose proof (Hcosts id).
  assert (B : 0 <= num id * rows_per_event id /\ num id * rows_per_event id + 31 < 2 ^ 64) by nia.
  pose proof (padded_nonneg (num id * rows_per_event id) (proj1 B)).
  pose proof (padded_nonneg (num id) (Hnum id)).
  rewrite (u64_small (num id * rows_per_event id)) by (unfold fits; lia).
  rewrite !next_multiple_of_padded by lia. rewrite control_spec.
  destruct (control_air_id id) as [c|] eqn:Ec; cbn [mbind option_bind].
  - pose proof (Hcosts c). rewrite (u64_small (cells + _)) by (unfold fits; nia).
    rewrite u64_small by (unfold fits; nia). do 2 f_equal. lia.
  - rewrite u64_small by (unfold fits; nia). do 2 f_equal. lia.
Qed.

Lemma precompile_fold ids : forall cells h,
  0 <= cells -> cells + total (precompile_area num costs <$> ids) < 2 ^ 64 ->
  foldl (precompile_table num costs) (Some (cells, h)) ids =
  Some (cells + total (precompile_area num costs <$> ids), foldl Z.max h (rows_of num <$> ids)).
Proof using Hnum Hcosts Hfit.
  induction ids as [|id ids IH]; intros cells h H0 Hs; cbn [foldl]; [cbn; do 2 f_equal; lia|].
  rewrite fmap_cons in *. cbn [total foldr] in *. pose proof (precompile_area_nonneg id).
  assert (0 <= total (precompile_area num costs <$> ids)).
  { apply total_nonneg, Forall_fmap, Forall_true. intros x. apply precompile_area_nonneg. }
  unfold total in *. cbn in Hs. rewrite precompile_step by lia. rewrite IH by lia. cbn. do 2 f_equal. lia.
Qed.

(** The charged cost differs from the area in one table. *)
Lemma core_surplus :
  total ((fun x => padded (num x.1) * costs x.2) <$> core_tables) =
  total ((fun a => padded (num a) * costs a) <$> core_tables.*1) + store_double_surplus num costs.
Proof using. unfold core_tables, total, store_double_surplus. cbn. lia. Qed.

Lemma foldl_max l : forall h, 0 <= h -> foldl Z.max h l = Z.max h (foldr Z.max 0 l).
Proof using. induction l as [|x l IH]; intros h Hh; cbn; [lia|]. rewrite IH by lia. lia. Qed.
Lemma foldr_max_app l k : foldr Z.max 0 (l ++ k) = Z.max (foldr Z.max 0 l) (foldr Z.max 0 k).
Proof using. induction l as [|x l IH]; cbn; [|rewrite IH; lia]. induction k; cbn; lia. Qed.
Lemma foldr_max_nonneg l : 0 <= foldr Z.max 0 l.
Proof using. induction l; cbn; lia. Qed.
End Estimate.

(** C34. The estimate of the trace size.  With event counts and costs that do
    not overflow a u64, [estimate_trace_elements] returns the height of the
    largest table and the number of cells of all tables padded to multiples of
    32 rows, those of the retained precompiles and their control tables
    included, plus a surplus: the rows of the double-word stores are charged
    with the cost of the word-store table. *)
Theorem trace_elements_area num costs program_size ids
  (Hnum : forall a, 0 <= num a) (Hcosts : forall a, 0 <= costs a) (Hsize : 0 <= program_size)
  (Hfit : forall a, num a * 80 + 31 < 2 ^ 64)
  (Htotal : area num costs program_size ids + store_double_surplus num costs < 2 ^ 64) :
  estimate_trace_elements num costs program_size ids =
  Some (area num costs program_size ids + store_double_surplus num costs, height num ids).
Proof.
  unfold estimate_trace_elements, area, height in *. cbv zeta.
  pose proof (core_surplus num costs) as S.
  assert (T : 0 <= total (precompile_area num costs <$> ids)).
  { apply total_nonneg, Forall_fmap, Forall_true. intros x. now apply precompile_area_nonneg. }
  assert (C : 0 <= total ((fun x => padded (num x.1) * costs x.2) <$> core_tables)).
  { apply total_nonneg, Forall_fmap, Forall_true. intros x. cbn. pose proof (padded_nonneg (num x.1) (Hnum x.1)).
    specialize (Hcosts x.2). nia. }
  pose proof (Hcosts RiscvAirId.Byte). pose proof (Hcosts RiscvAirId.Range). pose proof (Hcosts RiscvAirId.Program).
  change BYTE_NUM_ROWS with 65536 in *. change RANGE_NUM_ROWS with 131072 in *.
  assert (0 <= program_size * costs RiscvAirId.Program) by nia.
  rewrite (u64_small (65536 * _)), (u64_small (_ + 131072 * _)), (u64_small (_ + program_size * _)) by (unfold fits; lia).
  rewrite core_fold by (done || lia). rewrite S, precompile_fold by (done || lia). do 2 f_equal; [lia|].
  pose proof (foldr_max_nonneg (num <$> core_tables.*1)).
  rewrite !foldl_max, foldr_max_app by (rewrite ?foldl_max by lia; lia). lia.
Qed.

Lemma trace_elements_area_witness :
  estimate_trace_elements (fun _ => 3) (fun a => if decide (a = RiscvAirId.StoreDouble) then 41 else 46) 7
    [RiscvAirId.ShaExtend] =
  Some (area (fun _ => 3) (fun a => if decide (a = RiscvAirId.StoreDouble) then 41 else 46) 7 [RiscvAirId.ShaExtend]
        + 32 * 5, 160).
Proof.
  refine (trace_elements_area (fun _ => 3) (fun a => if decide (a = RiscvAirId.StoreDouble) then 41 else 46) 7
    [RiscvAirId.ShaExtend] _ _ _ _ _); [intros; lia|intros a; case_decide; lia|lia|intros; lia|vm_compute; reflexivity].
Defined.
