(* ===== verification/Syscalls.v ===== *)
(** * Syscalls: system calls and the execution loop

    [SyscallContext] and the handlers of [core/executor/src/syscalls], the
    dispatcher [get_syscall], and the functions of
    [core/executor/src/executor.rs] that need them: [execute_ecall],
    [execute_instruction], [run_unconstrained], [execute_cycle],
    [bump_record], [initialize], [postprocess], [execute] and
    [execute_state].  The handlers of [syscalls/precompiles] are the
    parameter [precompile]: each is a program over the methods of the context,
    which is all that [SyscallContext] gives them; [Precompiles] has them. *)
From Stdlib Require Import ZArith Lia Bool Ascii String.
From stdpp Require Import base numbers option list gmap sorting.
From S2P Require Import Prelude Isa PagedMemory SyscallCode State ExecMemory Interpreter Cost.
Import Opcode.

(** ** The context a handler runs in *)
Module SyscallContext.
Record t := mk {
  external_flag : bool;
  clk : Z;
  next_pc : Z;
  exit_code : Z;
  local_memory_access : option (gmap Z MemoryLocalEvent.t);
  local_page_prot_access : option (gmap Z PageProtLocalEvent.t) }.

Definition new (s : Executor.t) (external_flag : bool) : t :=
  mk external_flag (ExecutionState.clk (Executor.state s))
     (ExecutionState.pc (Executor.state s) +ₗ 4) 0
     (if external_flag then Some ∅ else None) (if external_flag then Some ∅ else None).

Definition set_clk (v : Z) (c : t) : t :=
  mk (external_flag c) v (next_pc c) (exit_code c) (local_memory_access c) (local_page_prot_access c).
Definition set_next_pc (v : Z) (c : t) : t :=
  mk (external_flag c) (clk c) v (exit_code c) (local_memory_access c) (local_page_prot_access c).
Definition set_exit_code (v : Z) (c : t) : t :=
  mk (external_flag c) (clk c) (next_pc c) v (local_memory_access c) (local_page_prot_access c).
Definition set_local_memory_access (v : option (gmap Z MemoryLocalEvent.t)) (c : t) : t :=
  mk (external_flag c) (clk c) (next_pc c) (exit_code c) v (local_page_prot_access c).
Definition set_local_page_prot_access (v : option (gmap Z PageProtLocalEvent.t)) (c : t) : t :=
  mk (external_flag c) (clk c) (next_pc c) (exit_code c) (local_memory_access c) v.

Definition page_le (x y : Z * Z) : Prop := x.1 <= y.1.
#[global] Instance page_le_dec : RelDecision page_le.
Proof. intros x y. unfold page_le. apply _. Defined.

Section Methods.
Context (E : ExecutorConfig).
Implicit Types c : t.

Definition mr c (addr : Z) : M (MemoryReadRecord.t * Z * t) :=
  let! '(record, lma) := ExecMemory.mr E addr (external_flag c) (clk c) (local_memory_access c) in
  let c := set_local_memory_access lma c in
  let! untrusted := enable_untrusted_programs in
  if untrusted then
    let! '(p, lpa) := page_prot_access E (addr / PAGE_SIZE) PROT_READ (external_flag c) (clk c)
                        (local_page_prot_access c) in
    ret (MemoryReadRecord.with_page_prot p record, MemoryReadRecord.value record,
         set_local_page_prot_access lpa c)
  else ret (record, MemoryReadRecord.value record, c).

Definition mw c (addr value : Z) (is_read_and_write : bool) : M (MemoryWriteRecord.t * t) :=
  let! '(record, lma) := ExecMemory.mw E addr value (external_flag c) (clk c) (local_memory_access c) in
  let c := set_local_memory_access lma c in
  let! untrusted := enable_untrusted_programs in
  if untrusted then
    let bitmap := if is_read_and_write then Z.lor PROT_READ PROT_WRITE else PROT_WRITE in
    let! '(p, lpa) := page_prot_access E (addr / PAGE_SIZE) bitmap (external_flag c) (clk c)
                        (local_page_prot_access c) in
    ret (MemoryWriteRecord.with_page_prot p record, set_local_page_prot_access lpa c)
  else ret (record, c).

(** The pages of a slice, by increasing index. *)
Definition sorted_pages (m : gmap Z Z) : list (Z * Z) := merge_sort page_le (map_to_list m).

(** At most two pages, adjacent, are accessed in order. *)
Fixpoint access_pages c (l : list (Z * Z)) : M (list PageProtRecord.t * t) :=
  match l with
  | [] => ret ([], c)
  | (page_idx, page_prot) :: l =>
      let! '(p, lpa) := page_prot_access E page_idx page_prot (external_flag c) (clk c)
                          (local_page_prot_access c) in
      let! '(ps, c) := access_pages (set_local_page_prot_access lpa c) l in
      ret (p :: ps, c)
  end.

Definition slice_pages c (page_accesses : gmap Z Z) : M (list PageProtRecord.t * t) :=
  let! untrusted := enable_untrusted_programs in
  if untrusted then
    let l := sorted_pages page_accesses in
    assert (Z.of_nat (length l) <=? 2) ;;!
    (match l with
     | [(p0, _); (p1, _)] => assert (p1 - p0 =? 1)
     | _ => ret tt
     end) ;;!
    access_pages c l
  else ret ([], c).

Fixpoint mr_words c (addr : Z) (n : nat) : M (list MemoryReadRecord.t * t) :=
  match n with
  | O => ret ([], c)
  | S n =>
      let! '(record, lma) := ExecMemory.mr E addr (external_flag c) (clk c) (local_memory_access c) in
      let! '(records, c) := mr_words (set_local_memory_access lma c) (addr +ₗ 8) n in
      ret (record :: records, c)
  end.

Fixpoint mw_words c (addr : Z) (values : list Z) : M (list MemoryWriteRecord.t * t) :=
  match values with
  | [] => ret ([], c)
  | v :: values =>
      let! '(record, lma) := ExecMemory.mw E addr v (external_flag c) (clk c) (local_memory_access c) in
      let! '(records, c) := mw_words (set_local_memory_access lma c) (addr +ₗ 8) values in
      ret (record :: records, c)
  end.

(** [page_accesses.entry(page_idx).or_insert(prot)] for each word of a slice. *)
Definition touched (addr len prot : Z) : gmap Z Z :=
  foldl (fun m i => or_insert (u64 (addr + i * 8) / PAGE_SIZE) prot m) ∅ (seqZ 0 len).

Definition mr_slice c (addr len : Z) : M (list MemoryReadRecord.t * list Z * list PageProtRecord.t * t) :=
  let! '(records, c) := mr_words c addr (Z.to_nat len) in
  let! '(pages, c) := slice_pages c (touched addr len PROT_READ) in
  ret (records, MemoryReadRecord.value <$> records, pages, c).

Definition mw_slice c (addr : Z) (values : list Z) (is_read_and_write : bool) :
  M (list MemoryWriteRecord.t * list PageProtRecord.t * t) :=
  let! '(records, c) := mw_words c addr values in
  let prot := if is_read_and_write then Z.lor PROT_READ PROT_WRITE else PROT_WRITE in
  let! '(pages, c) := slice_pages c (touched addr (Z.of_nat (length values)) prot) in
  ret (records, pages, c).

Definition page_prot_range_access c (start_addr end_addr page_prot_bitmap : Z) :
  M (list PageProtRecord.t * t) :=
  let! untrusted := enable_untrusted_programs in
  if untrusted then
    let start_page_idx := start_addr / PAGE_SIZE in
    let end_page_idx := end_addr / PAGE_SIZE in
    assert ((end_page_idx =? start_page_idx) || (end_page_idx =? start_page_idx + 1)) ;;!
    access_pages c
      ((start_page_idx, page_prot_bitmap) ::
       (if start_page_idx <? end_page_idx then [(end_page_idx, page_prot_bitmap)] else []))
  else ret ([], c).

Definition rr_traced c (r : Z) : M (MemoryReadRecord.t * Z * t) :=
  let! '(record, lma) := ExecMemory.rr_traced E r (external_flag c) (clk c) (local_memory_access c) in
  ret (record, MemoryReadRecord.value record, set_local_memory_access lma c).

Definition rw_traced c (r value : Z) : M (MemoryWriteRecord.t * Z * t) :=
  let! '(record, lma) := ExecMemory.rw_traced E r value (external_flag c) (clk c) (local_memory_access c) in
  ret (record, MemoryWriteRecord.value record, set_local_memory_access lma c).

(** The events of the system call leave the executor's map; drained maps are
    iterated in the order of [map_to_list]. *)
Definition postprocess c : M (list MemoryLocalEvent.t * list PageProtLocalEvent.t * t) :=
  if is_trace E && negb (UNCONSTRAINED E) then
    let drain_mem := match local_memory_access c with Some m => map_to_list m | None => [] end in
    for_each drain_mem (fun '(addr, _) =>
      let! old := gets (fun s => Executor.local_memory_access s !! addr) in
      modify (fun s => Executor.set_local_memory_access (delete addr (Executor.local_memory_access s)) s) ;;!
      match old with Some e => push_event (cpu_local_memory_access e) | None => ret tt end) ;;!
    let c := set_local_memory_access (match local_memory_access c with Some _ => Some ∅ | None => None end) c in
    let! untrusted := enable_untrusted_programs in
    if untrusted then
      let drain_pages := match local_page_prot_access c with Some m => map_to_list m | None => [] end in
      for_each drain_pages (fun '(page_idx, _) =>
        let! old := gets (fun s => Executor.local_page_prot_access s !! page_idx) in
        modify (fun s => Executor.set_local_page_prot_access
          (delete page_idx (Executor.local_page_prot_access s)) s) ;;!
        match old with Some e => push_event (cpu_local_page_prot_access e) | None => ret tt end) ;;!
      ret (drain_mem.*2, drain_pages.*2,
           set_local_page_prot_access
             (match local_page_prot_access c with Some _ => Some ∅ | None => None end) c)
    else ret (drain_mem.*2, [], c)
  else ret ([], [], c).
End Methods.
End SyscallContext.

Abbreviation handler := (SyscallContext.t -> SyscallCode.t -> Z -> Z -> M (option Z * SyscallContext.t)).

(** ** Text written to the standard streams

    A Rust string is its list of code points. *)
Module Text.
Definition cont (b : Z) : bool := (0x80 <=? b) && (b <=? 0xBF).
Definition tail (b : Z) : Z := Z.land b 0x3F.

(** [core::str::from_utf8]: [None] on ill-formed input. *)
Fixpoint from_utf8 (l : list Z) : option (list Z) :=
  match l with
  | [] => Some []
  | b0 :: l0 =>
      if b0 <? 0x80 then rest ← from_utf8 l0; Some (b0 :: rest) else
      match l0 with
      | [] => None
      | b1 :: l1 =>
          if (0xC2 <=? b0) && (b0 <=? 0xDF) then
            if cont b1 then rest ← from_utf8 l1; Some (Z.land b0 0x1F * 2 ^ 6 + tail b1 :: rest) else None
          else
          match l1 with
          | [] => None
          | b2 :: l2 =>
              if (0xE0 <=? b0) && (b0 <=? 0xEF) then
                let ok := if b0 =? 0xE0 then (0xA0 <=? b1) && (b1 <=? 0xBF)
                          else if b0 =? 0xED then (0x80 <=? b1) && (b1 <=? 0x9F) else cont b1 in
                if ok && cont b2 then
                  rest ← from_utf8 l2;
                  Some (Z.land b0 0xF * 2 ^ 12 + tail b1 * 2 ^ 6 + tail b2 :: rest)
                else None
              else
              match l2 with
              | [] => None
              | b3 :: l3 =>
                  if (0xF0 <=? b0) && (b0 <=? 0xF4) then
                    let ok := if b0 =? 0xF0 then (0x90 <=? b1) && (b1 <=? 0xBF)
                              else if b0 =? 0xF4 then (0x80 <=? b1) && (b1 <=? 0x8F) else cont b1 in
                    if ok && cont b2 && cont b3 then
                      rest ← from_utf8 l3;
                      Some (Z.land b0 0x7 * 2 ^ 18 + tail b1 * 2 ^ 12 + tail b2 * 2 ^ 6 + tail b3 :: rest)
                    else None
                  else None
              end
          end
      end
  end.

Definition of_string (s : string) : list Z := (fun a => Z.of_N (N_of_ascii a)) <$> list_ascii_of_string s.

(** [char::is_whitespace]. *)
Definition is_whitespace (c : Z) : bool :=
  ((9 <=? c) && (c <=? 13)) || bool_decide (c ∈ [0x20; 0x85; 0xA0; 0x1680; 0x2028; 0x2029; 0x202F; 0x205F; 0x3000])
  || ((0x2000 <=? c) && (c <=? 0x200A)).
Fixpoint trim_start (s : list Z) : list Z :=
  match s with
  | [] => []
  | c :: s' => if is_whitespace c then trim_start s' else s
  end.
Definition trim (s : list Z) : list Z := rev (trim_start (rev (trim_start s))).

(** [split_once(c)]: before and after the first [c]. *)
Fixpoint split_once (c : Z) (s : list Z) : option (list Z * list Z) :=
  match s with
  | [] => None
  | x :: s => if x =? c then Some ([], s) else '(a, b) ← split_once c s; Some (x :: a, b)
  end.

(** [split(c)]: the pieces, with the one after the last separator apart. *)
Fixpoint split (c : Z) (s : list Z) : list (list Z) * list Z :=
  match s with
  | [] => ([], [])
  | x :: s =>
      let '(ls, last) := split c s in
      if x =? c then ([] :: ls, last)
      else match ls with [] => ([], x :: last) | l :: ls => ((x :: l) :: ls, last) end
  end.
End Text.

Inductive CycleTrackerCommand :=
| Start (name : list Z) | End (name : list Z) | ReportStart (name : list Z) | ReportEnd (name : list Z).

Definition parse_cycle_tracker_command (s : list Z) : option CycleTrackerCommand :=
  '(command, fn_name) ← Text.split_once 58 s;
  let trimmed_name := Text.trim fn_name in
  if decide (command = Text.of_string "cycle-tracker-start") then Some (Start trimmed_name)
  else if decide (command = Text.of_string "cycle-tracker-end") then Some (End trimmed_name)
  else if decide (command = Text.of_string "cycle-tracker-report-start") then Some (ReportStart trimmed_name)
  else if decide (command = Text.of_string "cycle-tracker-report-end") then Some (ReportEnd trimmed_name)
  else None.

Definition start_cycle_tracker (name : list Z) : M unit :=
  modify (fun s => Executor.set_cycle_tracker
    (<[name := (ExecutionState.global_clk (Executor.state s),
                u32 (Z.of_nat (size (Executor.cycle_tracker s))))]> (Executor.cycle_tracker s)) s).

Definition end_cycle_tracker (name : list Z) : M (option Z) :=
  let! entry := gets (fun s => Executor.cycle_tracker s !! name) in
  match entry with
  | Some (start, _) =>
      modify (fun s => Executor.set_cycle_tracker (delete name (Executor.cycle_tracker s)) s) ;;!
      let! now := gets (fun s => ExecutionState.global_clk (Executor.state s)) in
      ret (Some (now -ₗ start))
  | None => ret None
  end.

(** [entry(k).and_modify(|v| *v += d).or_insert(d)]. *)
Definition add_or_insert (k : list Z) (d : Z) (m : gmap (list Z) Z) : gmap (list Z) Z :=
  match m !! k with Some v => <[k := v +ₗ d]> m | None => <[k := d]> m end.

Definition handle_cycle_tracker_command (command : CycleTrackerCommand) : M unit :=
  match command with
  | Start name | ReportStart name => start_cycle_tracker name
  | End name => let! _ := end_cycle_tracker name in ret tt
  | ReportEnd name =>
      let! total := end_cycle_tracker name in
      match total with
      | Some total_cycles =>
          upd_report (fun r => ExecutionReport.set_cycle_tracker
            (add_or_insert name total_cycles (ExecutionReport.cycle_tracker r)) r) ;;!
          upd_report (fun r => ExecutionReport.set_invocation_tracker
            (add_or_insert name 1 (ExecutionReport.invocation_tracker r)) r)
      | None => ret tt
      end
  end.

(** The completed lines, which are then printed. *)
Definition update_io_buf (fd : Z) (s : list Z) : M (list (list Z)) :=
  let! buf := gets (fun st => default [] (Executor.io_buf st !! fd)) in
  let entry := buf ++ s in
  let '(lines, last) := Text.split 10 entry in
  modify (fun st => Executor.set_io_buf (<[fd := last]> (Executor.io_buf st)) st) ;;!
  ret lines.

(** ** Handlers *)
Definition LOWEST_ALLOWED_FD : Z := 10.
Definition FD_PUBLIC_VALUES : Z := 3 + LOWEST_ALLOWED_FD.
Definition FD_HINT : Z := 4 + LOWEST_ALLOWED_FD.

Definition push_front (v : list Z) (st : ExecutionState.t) : ExecutionState.t :=
  ExecutionState.set_input_stream (v :: ExecutionState.input_stream st) st.
Definition extend_public_values (l : list Z) (st : ExecutionState.t) : ExecutionState.t :=
  ExecutionState.set_public_values_stream (ExecutionState.public_values_stream st ++ l) st.
(** Results of a hook, pushed in reverse so that the first is read first. *)
Definition push_results (res : list (list Z)) : M unit :=
  for_each (rev res) (fun v => upd_state (push_front v)).

Section Handlers.
Context (E : ExecutorConfig).
Implicit Types c : SyscallContext.t.

Definition halt_syscall : handler := fun c _ exit_code _ =>
  ret (None, SyscallContext.set_exit_code (u32 exit_code) (SyscallContext.set_next_pc HALT_PC c)).

(** [digest[word_idx] = word]: [None] is the out-of-bounds panic. *)
Definition set_word (l : list Z) (i v : Z) : option (list Z) :=
  if i <? Z.of_nat (length l) then Some (<[Z.to_nat i := v]> l) else None.

Definition commit_syscall : handler := fun c _ word_idx public_values_digest_word =>
  let! pv := gets (fun s => ExecutionRecord.public_values (Executor.record s)) in
  assert (public_values_digest_word <? 2 ^ 32) ;;!
  let! digest := expect (set_word (PublicValues.committed_value_digest pv) word_idx public_values_digest_word) in
  upd_record (ExecutionRecord.set_public_values
    (PublicValues.set_commit_syscall 1 (PublicValues.set_committed_value_digest digest pv))) ;;!
  ret (None, c).

Definition commit_deferred_proofs_syscall : handler := fun c _ word_idx word =>
  let! pv := gets (fun s => ExecutionRecord.public_values (Executor.record s)) in
  let! digest := expect (set_word (PublicValues.deferred_proofs_digest pv) word_idx (u32 word)) in
  upd_record (ExecutionRecord.set_public_values
    (PublicValues.set_commit_deferred_syscall 1 (PublicValues.set_deferred_proofs_digest digest pv))) ;;!
  ret (None, c).

Definition hint_len_syscall : handler := fun c _ _ _ =>
  let! q := gets (fun s => ExecutionState.input_stream (Executor.state s)) in
  ret (Some (match q with [] => 2 ^ 32 - 1 | data :: _ => u32 (Z.of_nat (length data)) end), c).

(** [u64::from_le_bytes] of the eight bytes from [i] on, padded with zeros. *)
Definition le_word (vec : list Z) (i : nat) : Z :=
  foldr (fun j acc => default 0 (vec !! (i + j)%nat) + 2 ^ 8 * acc) 0 (seq 0 8).

(** One iteration of the loop of [hint_read_syscall]. *)
Definition hint_word (ptr : Z) (vec : list Z) (i : Z) : M unit :=
  let addr := ptr +ₗ i in
  let! l := expect (loc_of addr) in
  modify (fun s => Executor.set_uninitialized_memory_checkpoint
    (or_insert l false (Executor.uninitialized_memory_checkpoint s)) s) ;;!
  let! old := gets (fun s => ExecutionState.uninitialized_memory (Executor.state s) !! l) in
  assert (negb (bool_decide (is_Some old))) ;;!
  upd_state (fun st => ExecutionState.set_uninitialized_memory
    (<[l := le_word vec (Z.to_nat i)]> (ExecutionState.uninitialized_memory st)) st).

Definition hint_read_syscall : handler := fun c _ ptr len =>
  let! q := gets (fun s => ExecutionState.input_stream (Executor.state s)) in
  match q with
  | [] => panic
  | vec :: q =>
      upd_state (ExecutionState.set_input_stream q) ;;!
      assert (Z.of_nat (length vec) =? len) ;;!
      assert (ptr mod 8 =? 0) ;;!
      for_each ((fun k => k * 8) <$> seqZ 0 (div_ceil len 8)) (hint_word ptr vec) ;;!
      ret (None, c)
  end.

Definition verify_syscall : handler := fun c _ vkey_ptr pv_digest_ptr =>
  let! ctx := gets Executor.context in
  (if Context.deferred_proof_verification ctx then
     assert (vkey_ptr mod 8 =? 0) ;;!
     assert (pv_digest_ptr mod 8 =? 0) ;;!
     let! vkey := map_m (seqZ 0 4) (fun i => double_word E (vkey_ptr +ₗ i * 8)) in
     let! pv_digest := map_m (seqZ 0 4) (fun i => double_word E (pv_digest_ptr +ₗ i * 8)) in
     let! st := gets Executor.state in
     let proof_index := ExecutionState.proof_stream_ptr st in
     let! proof := expect (ExecutionState.proof_stream st !! Z.to_nat proof_index) in
     upd_state (ExecutionState.set_proof_stream_ptr (proof_index +ₗ 1)) ;;!
     match Context.subproof_verifier ctx with
     | Some verify => assert (verify proof vkey pv_digest)
     | None => ret tt
     end
   else ret tt) ;;!
  ret (None, c).

Definition write_syscall : handler := fun c _ arg1 arg2 =>
  let fd := arg1 in
  let write_buf := arg2 in
  let! nbytes := register E Register.X12 in
  let! bytes := map_m (seqZ 0 nbytes) (fun i => byte E (write_buf +ₗ i)) in
  let! ctx := gets Executor.context in
  (if fd =? 1 then
     let! s := expect (Text.from_utf8 bytes) in
     match parse_cycle_tracker_command s with
     | Some command => handle_cycle_tracker_command command
     | None => let! _ := update_io_buf (u32 fd) s in ret tt
     end
   else if fd =? 2 then
     let! s := expect (Text.from_utf8 bytes) in
     let! _ := update_io_buf (u32 fd) s in ret tt
   else if u32 fd <=? LOWEST_ALLOWED_FD then
     match Context.deprecated_hooks ctx with
     | Some hooks =>
         if (5 <=? u32 fd) && (u32 fd <=? 8) then push_results (hooks (u32 fd) bytes)
         else if u32 fd =? 3 then upd_state (extend_public_values bytes)
         else if u32 fd =? 4 then upd_state (push_front bytes)
         else ret tt
     | None => panic
     end
   else if u32 fd =? FD_PUBLIC_VALUES then upd_state (extend_public_values bytes)
   else if u32 fd =? FD_HINT then upd_state (push_front bytes)
   else
     match Context.hook_registry ctx (u32 fd) with
     | Some hook => push_results (hook bytes)
     | None => ret tt
     end) ;;!
  ret (None, c).

Definition mprotect_syscall : handler := fun c syscall_code addr prot =>
  assert (prot <? 2 ^ 8) ;;!
  assert (addr mod PAGE_SIZE =? 0) ;;!
  assert (addr <? 1 ≪ MAX_LOG_ADDR) ;;!
  let page_idx := addr / PAGE_SIZE in
  let fresh := PageProtRecord.mk (SyscallContext.external_flag c) 0 DEFAULT_PAGE_PROT in
  upd_state (fun st => ExecutionState.set_page_prots
    (or_insert page_idx fresh (ExecutionState.page_prots st)) st) ;;!
  let! st := gets Executor.state in
  let initial := default fresh (ExecutionState.page_prots st !! page_idx) in
  let final := PageProtRecord.mk (SyscallContext.external_flag c) (ExecutionState.clk st) prot in
  let! lpa :=
    match SyscallContext.local_page_prot_access c with
    | Some m => ret (<[page_idx := PageProtLocalEvent.mk page_idx initial final]> m)
    | None => panic
    end in
  assert (Z.of_nat (size lpa) =? 1) ;;!
  upd_state (fun st => ExecutionState.set_page_prots
    (<[page_idx := final]> (ExecutionState.page_prots st)) st) ;;!
  let! '(_, local_page_prot_access, c) :=
    SyscallContext.postprocess E (SyscallContext.set_local_page_prot_access (Some lpa) c) in
  let! event := gets (syscall_event (SyscallContext.clk c) syscall_code addr prot false
                        (SyscallContext.next_pc c) (SyscallContext.exit_code c)) in
  when (is_trace E) (push_event (precompile_events syscall_code event (PrecompileEvent.Mprotect (MProtectEvent.mk addr local_page_prot_access)))) ;;!
  ret (None, c).

(** Iteration over a [Memory] yields the registers and then the page table, by
    plain address; [insert], [remove] and [get] send the addresses below 32 to
    the registers, those that the page table has yielded as well.  The
    addresses of each part are distinct: their order does not matter. *)
Definition into_iter {A} (m : gmap loc A) : list (loc * A) :=
  omap (fun '(l, v) => match l with inl _ => Some (l, v) | inr _ => None end) (map_to_list m) ++
  omap (fun '(l, v) => match l with inl _ => None | inr _ => Some (l, v) end) (map_to_list m).
Definition by_address (l : loc) : loc := if addr_of l <? 32 then inl (addr_of l) else l.
Definition from_iter {A} (items : list (loc * A)) : gmap loc A :=
  foldl (fun m '(l, v) => <[by_address l := v]> m) ∅ items.

(** Put the saved entries back. *)
Definition put_back (m : gmap loc MemoryEntry.t) (x : loc * option MemoryEntry.t) : gmap loc MemoryEntry.t :=
  match x.2 with Some v => <[by_address x.1 := v]> m | None => delete (by_address x.1) m end.
Definition restore_memory (diff : gmap loc (option MemoryEntry.t)) (m : gmap loc MemoryEntry.t) :
  gmap loc MemoryEntry.t := foldl put_back m (into_iter diff).
Definition restore_page_prots (diff m : gmap Z PageProtRecord.t) : gmap Z PageProtRecord.t :=
  map_fold (fun k v m => <[k := v]> m) m diff.

(** [run_unconstrained] is the argument [run]. *)
Definition enter_unconstrained_syscall (run : M unit) : handler := fun c _ _ _ =>
  assert (negb (UNCONSTRAINED E)) ;;!
  modify (fun s => Executor.set_unconstrained_state
    (ForkState.mk (ExecutionState.global_clk (Executor.state s)) (ExecutionState.clk (Executor.state s))
       (ExecutionState.pc (Executor.state s)) ∅ ∅) s) ;;!
  rw_cpu Unconstrained Register.X5 1 ;;!
  upd_state (fun st => ExecutionState.set_pc (ExecutionState.pc st +ₗ 4) st) ;;!
  unwrap run ;;!
  let! fork := gets Executor.unconstrained_state in
  upd_state (ExecutionState.set_global_clk (ForkState.global_clk fork)) ;;!
  upd_state (ExecutionState.set_clk (ForkState.clk fork)) ;;!
  upd_state (ExecutionState.set_pc (ForkState.pc fork)) ;;!
  let c := SyscallContext.set_next_pc (ForkState.pc fork +ₗ 4) c in
  upd_state (fun st => ExecutionState.set_memory
    (restore_memory (ForkState.memory_diff fork) (ExecutionState.memory st)) st) ;;!
  upd_state (fun st => ExecutionState.set_page_prots
    (restore_page_prots (ForkState.page_prots_diff fork) (ExecutionState.page_prots st)) st) ;;!
  modify (Executor.set_unconstrained_state ForkState.default) ;;!
  ret (Some 0, c).

Definition exit_unconstrained_syscall : handler := fun c _ _ _ =>
  assert (UNCONSTRAINED E) ;;!
  ret (Some 0, SyscallContext.set_exit_code 0 (SyscallContext.set_next_pc HALT_PC c)).
End Handlers.

(** ** Precompiles as programs over the context

    A handler of [syscalls/precompiles] calls the methods of the context and
    computes on what they return.  It ends with [postprocess] and
    [add_precompile_event]: the local events go into the event, and the handler
    does not look at them.  No precompile calls [rw_traced]. *)
Module Api.
Inductive t :=
| Return (res : option Z)
| Abort
| Mr (addr : Z) (k : MemoryReadRecord.t -> t)
| Mw (addr value : Z) (k : MemoryWriteRecord.t -> t)
| MrSlice (addr len : Z) (k : list MemoryReadRecord.t -> list Z -> list PageProtRecord.t -> t)
| MwSlice (addr : Z) (values : list Z) (is_read_and_write : bool)
    (k : list MemoryWriteRecord.t -> list PageProtRecord.t -> t)
| PageProtRangeAccess (start_addr end_addr bitmap : Z) (k : list PageProtRecord.t -> t)
| RrTraced (r : Z) (k : MemoryReadRecord.t -> t)
| SliceUnsafe (addr len : Z) (k : list Z -> t)
| GetClk (k : Z -> t)
| IncrClk (k : t)
| AddPrecompileEvent (key : SyscallCode.t) (start_clk : Z)
    (event : list MemoryLocalEvent.t -> list PageProtLocalEvent.t -> PrecompileEvent.t) (k : t).

Section Interp.
Context (E : ExecutorConfig) (code : SyscallCode.t) (arg1 arg2 : Z).

(** [Mr] and [Mw] are the executor's accesses, without page protection. *)
Fixpoint interp (p : t) (c : SyscallContext.t) : M (option Z * SyscallContext.t) :=
  match p with
  | Return res => ret (res, c)
  | Abort => panic
  | Mr addr k =>
      let! '(record, lma) := ExecMemory.mr E addr (SyscallContext.external_flag c) (SyscallContext.clk c)
                               (SyscallContext.local_memory_access c) in
      interp (k record) (SyscallContext.set_local_memory_access lma c)
  | Mw addr value k =>
      let! '(record, lma) := ExecMemory.mw E addr value (SyscallContext.external_flag c)
                               (SyscallContext.clk c) (SyscallContext.local_memory_access c) in
      interp (k record) (SyscallContext.set_local_memory_access lma c)
  | MrSlice addr len k =>
      let! '(records, values, pages, c) := SyscallContext.mr_slice E c addr len in
      interp (k records values pages) c
  | MwSlice addr values rw k =>
      let! '(records, pages, c) := SyscallContext.mw_slice E c addr values rw in
      interp (k records pages) c
  | PageProtRangeAccess a b bitmap k =>
      let! '(pages, c) := SyscallContext.page_prot_range_access E c a b bitmap in
      interp (k pages) c
  | RrTraced r k =>
      let! r := expect (Register.from_u8 r) in
      let! '(record, _, c) := SyscallContext.rr_traced E c r in interp (k record) c
  | SliceUnsafe addr len k =>
      let! values := map_m (seqZ 0 len) (fun i => double_word E (addr +ₗ i * 8)) in
      interp (k values) c
  | GetClk k => interp (k (SyscallContext.clk c)) c
  | IncrClk k => interp k (SyscallContext.set_clk (SyscallContext.clk c +ₗ 1) c)
  | AddPrecompileEvent key start_clk e k =>
      let! '(local_mem_access, local_page_prot_access, c) := SyscallContext.postprocess E c in
      let! event := gets (syscall_event start_clk code arg1 arg2 false (SyscallContext.next_pc c)
                            (SyscallContext.exit_code c)) in
      when (is_trace E) (push_event (precompile_events key event (e local_mem_access local_page_prot_access))) ;;!
      interp k c
  end.
End Interp.
End Api.

(** ** Instructions and cycles *)
Section Machine.
Context (precompile : SyscallCode.t -> Z -> Z -> Api.t).

(** Every code has a handler, so that the result is not an [Err]. *)
Definition get_syscall (run : M unit) (E : ExecutorConfig) (code : SyscallCode.t) : handler :=
  match code with
  | SyscallCode.HALT => halt_syscall
  | SyscallCode.WRITE => write_syscall E
  | SyscallCode.COMMIT => commit_syscall
  | SyscallCode.COMMIT_DEFERRED_PROOFS => commit_deferred_proofs_syscall
  | SyscallCode.VERIFY_SP1_PROOF => verify_syscall E
  | SyscallCode.HINT_LEN => hint_len_syscall
  | SyscallCode.HINT_READ => hint_read_syscall
  | SyscallCode.ENTER_UNCONSTRAINED => enter_unconstrained_syscall E run
  | SyscallCode.EXIT_UNCONSTRAINED => exit_unconstrained_syscall E
  | SyscallCode.MPROTECT => mprotect_syscall E
  | _ => fun c code arg1 arg2 => Api.interp E code arg1 arg2 (precompile code arg1 arg2) c
  end.

Definition execute_ecall (run : M unit) (E : ExecutorConfig) :
  M (Z * Z * Z * Z * Z * SyscallCode.t * Z) :=
  let! accesses := gets Executor.memory_accesses in
  assert (bool_decide (MemoryAccessRecord.untrusted_instruction accesses = None)) ;;!
  let! syscall_id := register E Register.X5 in
  let! c := rr_cpu E Register.X11 MemoryAccessPosition.C in
  let! b := rr_cpu E Register.X10 MemoryAccessPosition.B in
  let! syscall := expect (SyscallCode.from_u32 (u32 syscall_id)) in
  let! print_report := gets Executor.print_report in
  when (print_report && negb (UNCONSTRAINED E))
    (upd_report (fun r => ExecutionReport.set_syscall_counts
       (bump_count syscall 1 (ExecutionReport.syscall_counts r)) r)) ;;!
  if UNCONSTRAINED E &&
     negb (bool_decide (syscall = SyscallCode.EXIT_UNCONSTRAINED)) &&
     negb (bool_decide (syscall = SyscallCode.WRITE))
  then throw (InvalidSyscallUsage syscall_id) else
  upd_state (fun st => ExecutionState.set_syscall_counts
    (bump_count (SyscallCode.count_map syscall) 1 (ExecutionState.syscall_counts st)) st) ;;!
  let handler := get_syscall run E syscall in
  let! external := gets (fun s =>
    negb (bool_decide (syscall ∈ Context.internal_syscalls_override (Executor.context s)))) in
  (if negb (UNCONSTRAINED E) && (SyscallCode.should_send syscall =? 1) then
     if external then
       upd_counts (fun l => LocalCounts.set_syscalls_sent (u64 (LocalCounts.syscalls_sent l + 1)) l)
     else
       let! air := expect (SyscallCode.as_air_id syscall) in
       upd_counts (fun l => LocalCounts.set_retained_precompile_counts
         (bump_count air 1 (LocalCounts.retained_precompile_counts l)) l)
   else ret tt) ;;!
  let! ctx := gets (fun s => SyscallContext.new s external) in
  let! '(res, ctx) := handler ctx syscall b c in
  let a := match res with Some val => val | None => syscall_id end in
  let! '(b, c) :=
    if bool_decide (syscall = SyscallCode.EXIT_UNCONSTRAINED) then
      let! b := register E Register.X10 in
      let! c := register E Register.X11 in
      ret (b, c)
    else ret (b, c) in
  rw_cpu E Register.X5 a ;;!
  let! clk := gets (fun s => ExecutionState.clk (Executor.state s)) in
  upd_state (fun st => ExecutionState.set_clk (ExecutionState.clk st +ₗ 256) st) ;;!
  ret (a, b, c, clk, SyscallContext.next_pc ctx, syscall, SyscallContext.exit_code ctx).

(** [local_counts.event_counts] and [load_x0_counts]. *)
Definition count_instruction (E : ExecutorConfig) (i : Instruction.t) : M unit :=
  if negb (UNCONSTRAINED E) then
    let opcode := Instruction.opcode i in
    let! print_report := gets Executor.print_report in
    when print_report (upd_report (fun r => ExecutionReport.set_opcode_counts
      (bump_count opcode 1 (ExecutionReport.opcode_counts r)) r)) ;;!
    upd_counts (fun l => LocalCounts.set_event_counts (bump_count opcode 1 (LocalCounts.event_counts l)) l) ;;!
    when (Instruction.is_memory_load_instruction i && (Instruction.op_a i =? Register.X0))
      (upd_counts (fun l => LocalCounts.set_event_counts
         (bump_count opcode (-1) (LocalCounts.event_counts l)) l) ;;!
       upd_counts (fun l => LocalCounts.set_load_x0_counts (u64 (LocalCounts.load_x0_counts l + 1)) l))
  else ret tt.

(** The [if] chain of [execute_instruction]: operands, clock, next program
    counter, system call and exit code. *)
Definition dispatch_instruction (run : M unit) (E : ExecutorConfig) (i : Instruction.t) (clk pc : Z) :
  M (Z * Z * Z * Z * Z * SyscallCode.t * Z) :=
  let next_pc := pc +ₗ 4 in
  let default_code := SyscallCode.default in
  if Instruction.is_alu_instruction i then
    let! '(a, b, c) := execute_alu E i in ret (a, b, c, clk, next_pc, default_code, 0)
  else if Instruction.is_memory_load_instruction i then
    let! '(a, b, c) := execute_load E i in ret (a, b, c, clk, next_pc, default_code, 0)
  else if Instruction.is_memory_store_instruction i then
    let! '(a, b, c) := execute_store E i in ret (a, b, c, clk, next_pc, default_code, 0)
  else if Instruction.is_branch_instruction i then
    let! '(a, b, c, next_pc) := execute_branch E i next_pc in
    ret (a, b, c, clk, next_pc, default_code, 0)
  else if Instruction.is_jump_instruction i then
    let! '(a, b, c, next_pc) := execute_jump E i in
    ret (a, b, c, clk, next_pc, default_code, 0)
  else if Instruction.is_utype_instruction i then
    let! '(rd, imm) := Operands.u_type i in
    let a := if decide (Instruction.opcode i = AUIPC) then pc +ₗ imm else imm in
    rw_cpu E rd a ;;!
    ret (a, imm, imm, clk, next_pc, default_code, 0)
  else if Instruction.is_ecall_instruction i then execute_ecall run E
  else if Instruction.is_ebreak_instruction i then throw Breakpoint
  else if Instruction.is_unimp_instruction i then throw Unimplemented
  else panic.

(** The rest of [execute_instruction]: state bump, events, program counter and
    clock. *)
Definition retire_instruction (E : ExecutorConfig) (i : Instruction.t)
  (r : Z * Z * Z * Z * Z * SyscallCode.t * Z) : M unit :=
  let '(a, b, c, clk, next_pc, syscall, exit_code) := r in
  let op_a_0 := Instruction.op_a i =? Register.X0 in
  let a := if op_a_0 then 0 else a in
  let! pc := get_pc in
  when (negb (UNCONSTRAINED E) && negb (Instruction.is_with_correct_next_pc i) &&
        (next_pc =? pc +ₗ 4) && negb (next_pc ≫ 16 =? pc ≫ 16))
    (upd_counts (fun l => LocalCounts.set_state_bump_counts (u64 (LocalCounts.state_bump_counts l + 1)) l)) ;;!
  (if is_trace E then
     let! memory_accesses := gets Executor.memory_accesses in
     emit_events clk next_pc i syscall a b c op_a_0 memory_accesses exit_code
   else ret tt) ;;!
  upd_state (ExecutionState.set_pc next_pc) ;;!
  upd_state (fun st => ExecutionState.set_clk (ExecutionState.clk st +ₗ 8) st).

Definition execute_instruction (run : M unit) (E : ExecutorConfig) (i : Instruction.t) : M unit :=
  let! clk := gets (fun s => ExecutionState.clk (Executor.state s)) in
  let! pc := get_pc in
  count_instruction E i ;;!
  let! r := dispatch_instruction run E i clk pc in
  retire_instruction E i r.

(** In unconstrained mode [ENTER_UNCONSTRAINED] is rejected before its handler
    is reached, so that the nested run is never started. *)
Fixpoint run_unconstrained (fuel : nat) : M unit :=
  match fuel with
  | O => fun _ => OutOfFuel
  | S fuel =>
      let! instruction := fetch Unconstrained in
      execute_instruction panic Unconstrained instruction ;;!
      let! pc := get_pc in
      let! program := gets Executor.program in
      if (pc =? HALT_PC) ||
         (u64 (Z.of_nat (length (Program.instructions program)) * 4) <=? pc -ₗ Program.pc_base program)
      then ret tt else run_unconstrained fuel
  end.
End Machine.

(** ** Shards *)

(** Iteration over the page table, by increasing address. *)
Definition loc_le (x y : Z * MemoryEntry.t) : Prop := x.1 <= y.1.
#[global] Instance loc_le_dec : RelDecision loc_le.
Proof. intros x y. unfold loc_le. apply _. Defined.
Definition page_table_entries (m : gmap loc MemoryEntry.t) : list (Z * MemoryEntry.t) :=
  merge_sort loc_le
    (omap (fun '(l, e) => match l with inr k => Some (k * 8, e) | inl _ => None end) (map_to_list m)).

Definition initialize : M unit :=
  upd_state (ExecutionState.set_clk 1) ;;!
  let! program := gets Executor.program in
  for_each (map_to_list (Program.memory_image program)) (fun '(addr, value) =>
    let! l := expect (loc_of addr) in set_entry l (MemoryEntry.init value)) ;;!
  when (Program.enable_untrusted_programs program)
    (upd_state (fun st => ExecutionState.set_page_prots
       (map_fold (fun page_idx page_prot m => <[page_idx := PageProtRecord.mk false 0 page_prot]> m)
          (ExecutionState.page_prots st) (Program.page_prot_image program)) st)) ;;!
  set_entry (inl 0) (MemoryEntry.init 0).

Definition bump_clk_high (s : Executor.t) : Z :=
  u64 (u64 ((ExecutionState.clk (Executor.state s) ≫ 24) + 32) -
       (ExecutionRecord.initial_timestamp (Executor.record s) ≫ 24)).

Definition update_event_counts : M unit :=
  modify (fun s => Executor.set_event_counts
    (estimate_riscv_event_counts (bump_clk_high s) (Executor.event_counts s) (Executor.local_counts s)
       (LocalCounts.load_x0_counts (Executor.local_counts s))
       (Context.internal_syscalls_air_id (Executor.context s))) s).

Definition program_len (s : Executor.t) : Z := Z.of_nat (length (Program.instructions (Executor.program s))).

Definition bump_record (E : ExecutorConfig) : M unit :=
  let! estimator := gets Executor.record_estimator in
  match estimator with
  | Some estimator =>
      update_event_counts ;;!
      modify (fun s => Executor.set_record_estimator
        (Some (RecordEstimator.set_core_records
                 (RecordEstimator.core_records estimator ++ [Executor.event_counts s]) estimator)) s)
  | None => ret tt
  end ;;!
  let! estimate := gets (fun s => estimate_trace_elements (Executor.event_counts s)
    (Context.costs (Executor.context s)) (program_len s) (Context.internal_syscalls_air_id (Executor.context s))) in
  let! '(area, _) := expect estimate in
  upd_record (ExecutionRecord.set_estimated_trace_area area) ;;!
  modify (Executor.set_local_counts LocalCounts.default) ;;!
  (if is_trace E then
     let! lma := gets Executor.local_memory_access in
     modify (Executor.set_local_memory_access ∅) ;;!
     for_each (map_to_list lma) (fun '(_, e) => push_event (cpu_local_memory_access e)) ;;!
     let! untrusted := enable_untrusted_programs in
     let! lpa := gets Executor.local_page_prot_access in
     let! decoded := gets Executor.decoded_instruction_events in
     if untrusted then
       modify (Executor.set_local_page_prot_access ∅) ;;!
       for_each (map_to_list lpa) (fun '(_, e) => push_event (cpu_local_page_prot_access e)) ;;!
       modify (Executor.set_decoded_instruction_events ∅) ;;!
       for_each (map_to_list decoded) (fun '(_, e) => push_event (instruction_decode_events e))
     else
       assert (Z.of_nat (size lpa) =? 0) ;;! assert (Z.of_nat (size decoded) =? 0)
   else ret tt) ;;!
  let! clk := gets (fun s => ExecutionState.clk (Executor.state s)) in
  upd_record (fun r => if ExecutionRecord.last_timestamp r =? 0
                       then ExecutionRecord.set_last_timestamp clk r else r).

(** The initialize and finalize events of one address. *)
Definition emit_global_memory (addr : Z) (record : MemoryEntry.t) : M unit :=
  let! print_report := gets Executor.print_report in
  when print_report (upd_report (fun r => ExecutionReport.set_touched_memory_addresses
    (u64 (ExecutionReport.touched_memory_addresses r + 1)) r)) ;;!
  let! image := gets (fun s => Program.memory_image (Executor.program s)) in
  (if bool_decide (is_Some (image !! addr)) then ret tt else
   let! l := expect (loc_of addr) in
   let! initial_value := gets (fun s =>
     default 0 (ExecutionState.uninitialized_memory (Executor.state s) !! l)) in
   push_event (global_memory_initialize_events
     (MemoryInitializeFinalizeEvent.initialize addr initial_value))) ;;!
  push_event (global_memory_finalize_events
    (MemoryInitializeFinalizeEvent.finalize_from_record addr record)).

Definition emit_global_page_prots : M unit :=
  let! program := gets Executor.program in
  let! page_prots := gets (fun s => ExecutionState.page_prots (Executor.state s)) in
  if Program.enable_untrusted_programs program then
    for_each (map_to_list page_prots) (fun '(page_idx, record) =>
      (if bool_decide (is_Some (Program.page_prot_image program !! page_idx)) then ret tt else
       push_event (global_page_prot_initialize_events
         (PageProtInitializeFinalizeEvent.initialize page_idx DEFAULT_PAGE_PROT))) ;;!
      push_event (global_page_prot_finalize_events
        (PageProtInitializeFinalizeEvent.finalize_from_record page_idx record)))
  else assert (Z.of_nat (size page_prots) =? 0).

(** Printing the remaining output and the warnings about unread input are left
    out: they do not change the state. *)
Definition postprocess (E : ExecutorConfig) : M unit :=
  let! memory := gets (fun s => ExecutionState.memory (Executor.state s)) in
  let! image := gets (fun s => Program.memory_image (Executor.program s)) in
  let! estimator := gets Executor.record_estimator in
  match estimator with
  | Some estimator =>
      let touched_reg_ct :=
        1 + Z.of_nat (length (filter (fun r => is_Some (memory !! (inl r : loc))) (seqZ 1 31))) in
      let total_mem := touched_reg_ct + Z.of_nat (length (page_table_entries memory)) in
      assert (Z.of_nat (size image) <=? total_mem) ;;!
      modify (Executor.set_record_estimator
        (Some (RecordEstimator.set_memory_global_finalize_events total_mem
                 (RecordEstimator.set_memory_global_init_events
                    (total_mem - Z.of_nat (size image)) estimator))))
  | None => ret tt
  end ;;!
  let! emit := gets Executor.emit_global_memory_events in
  if emit && (is_trace E || is_checkpoint E) then
    push_event (global_memory_finalize_events (MemoryInitializeFinalizeEvent.finalize_from_record 0
      (default (MemoryEntry.mk false 0 0) (memory !! (inl 0 : loc))))) ;;!
    push_event (global_memory_initialize_events (MemoryInitializeFinalizeEvent.initialize 0 0)) ;;!
    let! print_report := gets Executor.print_report in
    when print_report (upd_report (ExecutionReport.set_touched_memory_addresses 0)) ;;!
    for_each (seqZ 1 31) (fun addr =>
      match memory !! (inl addr : loc) with
      | Some record => emit_global_memory addr record
      | None => ret tt
      end) ;;!
    for_each (page_table_entries memory) (fun '(addr, record) => emit_global_memory addr record) ;;!
    emit_global_page_prots
  else ret tt.

Section Shard.
Context (precompile : SyscallCode.t -> Z -> Z -> Api.t) (fuel : nat).

(** [StatusCode::is_accepted_code]. *)
Definition is_accepted_code (expected code : Z) : bool := (expected =? 2 ^ 32 - 1) || (expected =? code).

(** Whether the shard must stop, checked every [size_check_frequency] cycles. *)
Definition size_reached : M bool :=
  let! ctx := gets Executor.context in
  let! global_clk := gets (fun s => ExecutionState.global_clk (Executor.state s)) in
  if global_clk mod Context.size_check_frequency ctx =? 0 then
    update_event_counts ;;!
    match Context.sharding_threshold ctx with
    | Some (element_threshold, height_threshold) =>
        let! estimate := gets (fun s => estimate_trace_elements
          (pad_rv64im_event_counts (Executor.event_counts s) (Context.size_check_frequency ctx))
          (Context.costs ctx) (program_len s) (Context.internal_syscalls_air_id ctx)) in
        let! '(elements, max_height) := expect estimate in
        ret ((element_threshold <? elements) || (height_threshold <? max_height))
    | None => ret false
    end
  else ret false.

(** Close the shard: stamp every register and start a new record. *)
Definition finish_shard (E : ExecutorConfig) : M unit :=
  upd_state (ExecutionState.set_shard_finished true) ;;!
  let! clk := gets (fun s => ExecutionState.clk (Executor.state s)) in
  for_each (seqZ 0 NUM_REGISTERS) (fun r =>
    if is_trace E then
      let! '(record, _) := rr_traced E r false (clk -ₗ 1) None in
      push_event (bump_memory_events (MemoryRecordEnum.Read record) r true)
    else let! _ := rr E r false (clk -ₗ 1) in ret tt) ;;!
  upd_record (ExecutionRecord.set_last_timestamp clk) ;;!
  upd_state (ExecutionState.set_initial_timestamp clk) ;;!
  bump_record E.

Definition execute_cycle (E : ExecutorConfig) : M bool :=
  when (is_trace E) (modify (Executor.set_memory_accesses MemoryAccessRecord.default)) ;;!
  let! instruction := fetch E in
  execute_instruction precompile (run_unconstrained precompile fuel) E instruction ;;!
  upd_state (fun st => ExecutionState.set_global_clk (ExecutionState.global_clk st +ₗ 1) st) ;;!
  when (UNCONSTRAINED E) (modify (fun s =>
    Executor.set_total_unconstrained_cycles (Executor.total_unconstrained_cycles s +ₗ 1) s)) ;;!
  (if negb (UNCONSTRAINED E) then
     let! stop := size_reached in
     when stop (finish_shard E) ;;!
     let! ctx := gets Executor.context in
     let! global_clk := gets (fun s => ExecutionState.global_clk (Executor.state s)) in
     match Context.max_cycles ctx with
     | Some max_cycles => if max_cycles <? global_clk then throw (ExceededCycleLimit max_cycles) else ret tt
     | None => ret tt
     end
   else ret tt) ;;!
  let! pc := get_pc in
  if (pc =? HALT_PC) && UNCONSTRAINED E then throw EndInUnconstrained else ret (pc =? HALT_PC).

(** The loop of [execute]: whether the program is done. *)
Fixpoint execute_loop (E : ExecutorConfig) (n : nat) : M bool :=
  match n with
  | O => fun _ => OutOfFuel
  | S n =>
      let! done := execute_cycle E in
      if done then ret true else
      let! limit := gets (fun s => Context.unconstrained_cycle_limit (Executor.context s)) in
      let! cycles := gets Executor.total_unconstrained_cycles in
      let! finished := gets (fun s => ExecutionState.shard_finished (Executor.state s)) in
      match limit with
      | Some l => if l <? cycles then throw (UnconstrainedCycleLimitExceeded l)
                  else if finished then ret false else execute_loop E n
      | None => if finished then ret false else execute_loop E n
      end
  end.

Definition execute (E : ExecutorConfig) : M bool :=
  upd_state (ExecutionState.set_shard_finished false) ;;!
  let! global_clk := gets (fun s => ExecutionState.global_clk (Executor.state s)) in
  when (global_clk =? 0) initialize ;;!
  let! clk := gets (fun s => ExecutionState.clk (Executor.state s)) in
  upd_record (ExecutionRecord.set_initial_timestamp clk) ;;!
  upd_state (ExecutionState.set_initial_timestamp clk) ;;!
  let! done := execute_loop E fuel in
  let! public_values := gets (fun s => ExecutionRecord.public_values (Executor.record s)) in
  when done (postprocess E ;;! bump_record E) ;;!
  let! contains_cpu := gets (fun s => ExecutionRecord.contains_cpu (Executor.record s)) in
  when contains_cpu (bump_record E) ;;!
  let! ctx := gets Executor.context in
  let untrusted := if Program.enable_untrusted_programs (Context.program ctx) then 1 else 0 in
  upd_record (ExecutionRecord.set_public_values
    (PublicValues.set_proof_nonce (Context.proof_nonce ctx)
       (PublicValues.set_is_untrusted_programs_enabled untrusted public_values))) ;;!
  let! r := gets Executor.record in
  (if ExecutionRecord.contains_cpu r then
     let! pc_start := expect (ExecutionRecord.pc_start r) in
     let pv := ExecutionRecord.public_values r in
     let pv := PublicValues.set_pc_start pc_start pv in
     let pv := PublicValues.set_next_pc (ExecutionRecord.next_pc r) pv in
     let pv := PublicValues.set_exit_code (ExecutionRecord.exit_code r) pv in
     let pv := PublicValues.set_last_timestamp (ExecutionRecord.last_timestamp r) pv in
     let pv := PublicValues.set_initial_timestamp (ExecutionRecord.initial_timestamp r) pv in
     upd_record (ExecutionRecord.set_public_values pv)
   else ret tt) ;;!
  let! exit_code := gets (fun s => ExecutionRecord.exit_code (Executor.record s)) in
  if is_accepted_code (Context.expected_exit_code ctx) exit_code then ret done
  else throw (UnexpectedExitCode exit_code).

(** [std::mem::take] leaves a default record. *)
Definition execute_record (emit : bool) : M (ExecutionRecord.t * bool) :=
  modify (Executor.set_emit_global_memory_events emit) ;;!
  modify (Executor.set_print_report true) ;;!
  let! done := execute Trace in
  let! record := gets Executor.record in
  modify (Executor.set_record ExecutionRecord.default) ;;!
  ret (record, done).

(** The state at the start of the shard, with the memory it needs. *)
Definition execute_state (emit : bool) : M (ExecutionState.t * PublicValues.t * bool) :=
  modify (Executor.set_memory_checkpoint ∅) ;;!
  modify (Executor.set_emit_global_memory_events emit) ;;!
  let! start := gets Executor.state in
  let checkpoint := ExecutionState.set_memory ∅ (ExecutionState.set_uninitialized_memory ∅
    (ExecutionState.set_proof_stream [] start)) in
  let! done := execute Checkpoint in
  let! next_pc := get_pc in
  let! memory_checkpoint := gets Executor.memory_checkpoint in
  let! uninitialized_memory_checkpoint := gets Executor.uninitialized_memory_checkpoint in
  modify (Executor.set_memory_checkpoint ∅) ;;!
  modify (Executor.set_uninitialized_memory_checkpoint ∅) ;;!
  let! st := gets Executor.state in
  let uninit := ExecutionState.uninitialized_memory st in
  let! checkpoint :=
    if done && negb emit then
      let removed m '(l, is_old) := if is_old : bool then m else delete (by_address l) m in
      ret (ExecutionState.set_memory (restore_memory memory_checkpoint (ExecutionState.memory st))
        (ExecutionState.set_uninitialized_memory
           (foldl removed uninit (into_iter uninitialized_memory_checkpoint)) checkpoint))
    else
      let! old := map_m (filter (fun x => x.2 = true) (into_iter uninitialized_memory_checkpoint)) (fun '(l, _) =>
        let! value := expect (uninit !! by_address l) in ret (l, value)) in
      ret (ExecutionState.set_memory
        (from_iter (omap (fun '(l, record) => pair l <$> record) (into_iter memory_checkpoint)))
        (ExecutionState.set_uninitialized_memory (from_iter old) checkpoint)) in
  let! public_values := gets (fun s => ExecutionRecord.public_values (Executor.record s)) in
  ret (checkpoint, PublicValues.set_next_pc next_pc (PublicValues.set_pc_start next_pc public_values), done).
End Shard.
