(* ===== verification/Precompiles.v ===== *)
(** * Precompiles: the handlers of syscalls/precompiles

    Every handler of [core/executor/src/syscalls/precompiles] and the event
    constructors of [events/precompiles/ec.rs], as programs over the methods
    of [SyscallContext] ([Api.t]), and the part of [get_syscall] that
    dispatches to them.  A failed assertion, an [unwrap] of [None] and an
    unreachable branch are [Api.Abort].  The permutations of Keccak and
    Poseidon2 come from other crates and are the fields of [HashCrates]. *)
From Stdlib Require Import ZArith Lia Bool.
From stdpp Require Import base numbers option list gmap.
From S2P Require Import Prelude BigUint Curves Isa PagedMemory SyscallCode State ExecMemory Interpreter Cost Syscalls.
Import FieldParameters (NB_LIMBS, MODULUS, modulus, WordsFieldElement, WordsCurvePoint).

Notation "'require!' b ; k" := (if b then k else Api.Abort)
  (at level 200, b at level 99, k at level 200, format "'require!'  b ;  k") : sp1_scope.
Notation "'expect!' x := o ; k" := (match o with Some x => k | None => Api.Abort end)
  (at level 200, x pattern, o at level 99, k at level 200, format "'expect!'  x  :=  o ;  k") : sp1_scope.

Definition is_multiple_of (n k : Z) : bool := n mod k =? 0.

(** ** SHA-256 *)
Module Sha256.
Definition rotate_right (x n : Z) : Z := Z.lor (x ≫ n) (u32 (x ≪ (32 - n))).
Definition wrapping_add (a b : Z) : Z := u32 (a + b).
Definition not32 (x : Z) : Z := Z.lxor x 0xFFFFFFFF.

(** One list per line of the table. *)
Definition SHA_COMPRESS_K : list Z :=
  [0x428a2f98; 0x71374491; 0xb5c0fbcf; 0xe9b5dba5; 0x3956c25b; 0x59f111f1; 0x923f82a4; 0xab1c5ed5] ++
  [0xd807aa98; 0x12835b01; 0x243185be; 0x550c7dc3; 0x72be5d74; 0x80deb1fe; 0x9bdc06a7; 0xc19bf174] ++
  [0xe49b69c1; 0xefbe4786; 0x0fc19dc6; 0x240ca1cc; 0x2de92c6f; 0x4a7484aa; 0x5cb0a9dc; 0x76f988da] ++
  [0x983e5152; 0xa831c66d; 0xb00327c8; 0xbf597fc7; 0xc6e00bf3; 0xd5a79147; 0x06ca6351; 0x14292967] ++
  [0x27b70a85; 0x2e1b2138; 0x4d2c6dfc; 0x53380d13; 0x650a7354; 0x766a0abb; 0x81c2c92e; 0x92722c85] ++
  [0xa2bfe8a1; 0xa81a664b; 0xc24b8b70; 0xc76c51a3; 0xd192e819; 0xd6990624; 0xf40e3585; 0x106aa070] ++
  [0x19a4c116; 0x1e376c08; 0x2748774c; 0x34b0bcb5; 0x391c0cb3; 0x4ed8aa4a; 0x5b9cca4f; 0x682e6ff3] ++
  [0x748f82ee; 0x78a5636f; 0x84c87814; 0x8cc70208; 0x90befffa; 0xa4506ceb; 0xbef9a3f7; 0xc67178f2].

(** [n] iterations of the loop from index [i] on; [records] are pushed so far. *)
Fixpoint extend_loop (w_ptr : Z) (n : nat) (i : Z) (records : list ShaExtendMemoryRecords.t)
  (k : list ShaExtendMemoryRecords.t -> Api.t) : Api.t :=
  match n with
  | O => k records
  | S n =>
      Api.Mr (w_ptr +ₗ (i - 15) * 8) (fun w_i_minus_15_record =>
      let w_i_minus_15 := u32 (MemoryReadRecord.value w_i_minus_15_record) in
      let s0 := Z.lxor (Z.lxor (rotate_right w_i_minus_15 7) (rotate_right w_i_minus_15 18)) (w_i_minus_15 ≫ 3) in
      Api.Mr (w_ptr +ₗ (i - 2) * 8) (fun w_i_minus_2_record =>
      let w_i_minus_2 := u32 (MemoryReadRecord.value w_i_minus_2_record) in
      let s1 := Z.lxor (Z.lxor (rotate_right w_i_minus_2 17) (rotate_right w_i_minus_2 19)) (w_i_minus_2 ≫ 10) in
      Api.Mr (w_ptr +ₗ (i - 16) * 8) (fun w_i_minus_16_record =>
      let w_i_minus_16 := u32 (MemoryReadRecord.value w_i_minus_16_record) in
      Api.Mr (w_ptr +ₗ (i - 7) * 8) (fun w_i_minus_7_record =>
      let w_i_minus_7 := u32 (MemoryReadRecord.value w_i_minus_7_record) in
      let w_i := wrapping_add (wrapping_add (wrapping_add s1 w_i_minus_16) s0) w_i_minus_7 in
      Api.Mw (w_ptr +ₗ i * 8) w_i (fun w_i_record =>
      Api.IncrClk
        (extend_loop w_ptr n (i + 1)
           (records ++ [ShaExtendMemoryRecords.mk w_i_minus_15_record w_i_minus_2_record w_i_minus_16_record
                          w_i_minus_7_record w_i_record]) k))))))
  end.

Definition sha256_extend_syscall (syscall_code : SyscallCode.t) (arg1 arg2 : Z) : Api.t :=
  Api.GetClk (fun clk_init =>
  let w_ptr := arg1 in
  require! arg2 =? 0;
  require! is_multiple_of arg1 8;
  Api.PageProtRangeAccess w_ptr (w_ptr +ₗ 15 * 8) PROT_READ (fun page_prot_records_initial =>
  Api.IncrClk (
  Api.PageProtRangeAccess (w_ptr +ₗ 16 * 8) (w_ptr +ₗ 63 * 8) (Z.lor PROT_READ PROT_WRITE)
    (fun page_prot_records_extensions =>
  extend_loop w_ptr 48 16 [] (fun event_memory_records =>
  Api.AddPrecompileEvent syscall_code clk_init (fun local_mem_access local_page_prot_access =>
    PrecompileEvent.ShaExtend (ShaExtendEvent.mk clk_init w_ptr event_memory_records
      (ShaExtendPageProtRecords.mk page_prot_records_initial page_prot_records_extensions)
      local_mem_access local_page_prot_access))
  (Api.Return None)))))).

(** The working variables [a] to [h]. *)
Record vars := mkVars { a : Z; b : Z; c : Z; d : Z; e : Z; f : Z; g : Z; h : Z }.

(** One iteration of the loop, with [SHA_COMPRESS_K[i]] and [w_i]. *)
Definition compress_step (v : vars) (kw : Z * Z) : vars :=
  let '(mkVars a b c d e f g h) := v in
  let '(k_i, w_i) := kw in
  let s1 := Z.lxor (Z.lxor (rotate_right e 6) (rotate_right e 11)) (rotate_right e 25) in
  let ch := Z.lxor (Z.land e f) (Z.land (not32 e) g) in
  let temp1 := wrapping_add (wrapping_add (wrapping_add (wrapping_add h s1) ch) k_i) w_i in
  let s0 := Z.lxor (Z.lxor (rotate_right a 2) (rotate_right a 13)) (rotate_right a 22) in
  let maj := Z.lxor (Z.lxor (Z.land a b) (Z.land a c)) (Z.land b c) in
  let temp2 := wrapping_add s0 maj in
  mkVars (wrapping_add temp1 temp2) a b c (wrapping_add d temp1) e f g.

Definition sha256_compress_syscall (syscall_code : SyscallCode.t) (arg1 arg2 : Z) : Api.t :=
  let w_ptr := arg1 in
  let h_ptr := arg2 in
  require! negb (w_ptr =? h_ptr);
  require! is_multiple_of arg1 8;
  require! is_multiple_of arg2 8;
  Api.GetClk (fun start_clk =>
  Api.MrSlice h_ptr 8 (fun h_read_records values h_read_page_prot_records =>
  let hx := u32 <$> values in
  Api.IncrClk (
  Api.MrSlice w_ptr 64 (fun w_i_read_records w_values w_read_page_prot_records =>
  let original_w := u32 <$> w_values in
  match hx with
  | [a; b; c; d; e; f; g; h] =>
      let '(mkVars a b c d e f g h) :=
        foldl compress_step (mkVars a b c d e f g h) (zip SHA_COMPRESS_K original_w) in
      Api.IncrClk (
      let final_values := zip_with wrapping_add hx [a; b; c; d; e; f; g; h] in
      Api.MwSlice h_ptr final_values true (fun h_write_records h_write_page_prot_records =>
      Api.AddPrecompileEvent syscall_code start_clk (fun local_mem_access local_page_prot_access =>
        PrecompileEvent.ShaCompress (ShaCompressEvent.mk start_clk w_ptr h_ptr original_w hx h_read_records
          w_i_read_records h_write_records local_mem_access
          (ShaCompressPageProtAccess.mk h_read_page_prot_records w_read_page_prot_records h_write_page_prot_records)
          local_page_prot_access))
      (Api.Return None)))
  | _ => Api.Abort
  end)))).
End Sha256.

(** ** Permutations *)
Class HashCrates := {
  (** [tiny_keccak::keccakf] on 25 words. *)
  keccakf : list Z -> list Z;
  (** [inner_perm().permute] on 16 canonical field elements. *)
  poseidon2_permute : list Z -> list Z }.

Section Permutations.
Context `{HashCrates}.

Definition STATE_NUM_WORDS : Z := 25.

Definition keccak256_permute_syscall (syscall_code : SyscallCode.t) (arg1 arg2 : Z) : Api.t :=
  Api.GetClk (fun start_clk =>
  let state_ptr := arg1 in
  require! arg2 =? 0;
  Api.MrSlice state_ptr STATE_NUM_WORDS (fun state_read_records saved_state read_pre_state_page_prot_records =>
  let state := keccakf saved_state in
  Api.IncrClk (
  Api.MwSlice state_ptr state false (fun state_write_records write_post_state_page_prot_records =>
  Api.AddPrecompileEvent syscall_code start_clk (fun local_mem_access local_page_prot_access =>
    PrecompileEvent.KeccakPermute (KeccakPermuteEvent.mk start_clk saved_state state state_read_records
      state_write_records state_ptr local_mem_access
      (KeccakPermutePageProtRecords.mk read_pre_state_page_prot_records write_post_state_page_prot_records)
      local_page_prot_access))
  (Api.Return None))))).

(** [chunks_exact(2)], the second element of a pair being the high half. *)
Fixpoint join_pairs (l : list Z) : list Z :=
  match l with
  | lo :: hi :: l => Z.lor (hi ≪ 32) lo :: join_pairs l
  | _ => []
  end.

Definition poseidon2_syscall (syscall_code : SyscallCode.t) (arg1 arg2 : Z) : Api.t :=
  Api.GetClk (fun clk_init =>
  let ptr := arg1 in
  require! arg2 =? 0;
  require! is_multiple_of arg1 8;
  Api.SliceUnsafe ptr 8 (fun input =>
  let output_hash := poseidon2_permute (u64_to_u32 input) in
  let u64_result := join_pairs output_hash in
  require! (length u64_result =? 8)%nat;
  Api.MwSlice ptr u64_result true (fun output_memory_records page_prot_records =>
  Api.AddPrecompileEvent syscall_code clk_init (fun local_mem_access local_page_prot_access =>
    PrecompileEvent.POSEIDON2 (Poseidon2PrecompileEvent.mk clk_init ptr output_memory_records page_prot_records
      local_mem_access local_page_prot_access))
  (Api.Return None)))).
End Permutations.

(** ** 256-bit integers *)
Definition WORDS_FIELD_ELEMENT : nat := WordsFieldElement Ed25519BaseField.

(** The product modulo [m], where 0 stands for [2 ^ 256]. *)
Definition uint256_mulmod (a b m : Z) : Z :=
  if m =? 0 then (a * b) mod (1 ≪ 256) else (a * b) mod m.

Definition uint256_mul (syscall_code : SyscallCode.t) (arg1 arg2 : Z) : Api.t :=
  Api.GetClk (fun clk =>
  let x_ptr := arg1 in
  require! is_multiple_of x_ptr 8;
  let y_ptr := arg2 in
  require! is_multiple_of y_ptr 8;
  Api.SliceUnsafe x_ptr (Z.of_nat WORDS_FIELD_ELEMENT) (fun x =>
  Api.MrSlice y_ptr (Z.of_nat WORDS_FIELD_ELEMENT * 2)
    (fun combined_memory_records combined_values read_y_modulus_page_prot_records =>
  let y := take WORDS_FIELD_ELEMENT combined_values in
  let modulus := drop WORDS_FIELD_ELEMENT combined_values in
  let y_memory_records := take WORDS_FIELD_ELEMENT combined_memory_records in
  let modulus_memory_records := drop WORDS_FIELD_ELEMENT combined_memory_records in
  let uint256_x := BigUint.from_bytes_le (words_to_bytes_le_vec x) in
  let uint256_y := BigUint.from_bytes_le (words_to_bytes_le_vec y) in
  let uint256_modulus := BigUint.from_bytes_le (words_to_bytes_le_vec modulus) in
  let result := uint256_mulmod uint256_x uint256_y uint256_modulus in
  let result_bytes := resize 32 0 (BigUint.to_bytes_le result) in
  expect! result := bytes_to_words_le 4 result_bytes;
  Api.IncrClk (
  Api.MwSlice x_ptr result true (fun x_memory_records write_x_page_prot_records =>
  Api.AddPrecompileEvent syscall_code clk (fun local_mem_access local_page_prot_access =>
    PrecompileEvent.Uint256Mul (Uint256MulEvent.mk clk x_ptr x y_ptr y modulus x_memory_records y_memory_records
      modulus_memory_records local_mem_access
      (Uint256MulPageProtRecords.mk write_x_page_prot_records read_y_modulus_page_prot_records)
      local_page_prot_access))
  (Api.Return None)))))).

Definition U256_NUM_WORDS : nat := 4.
Definition U2048_NUM_WORDS : nat := 32.

Definition uint256_ops (syscall_code : SyscallCode.t) (arg1 arg2 : Z) : Api.t :=
  Api.GetClk (fun clk =>
  expect! op := SyscallCode.uint256_op_map syscall_code;
  let a_ptr := arg1 in
  let b_ptr := arg2 in
  Api.RrTraced Register.X12 (fun c_ptr_memory => let c_ptr := MemoryReadRecord.value c_ptr_memory in
  Api.RrTraced Register.X13 (fun d_ptr_memory => let d_ptr := MemoryReadRecord.value d_ptr_memory in
  Api.RrTraced Register.X14 (fun e_ptr_memory => let e_ptr := MemoryReadRecord.value e_ptr_memory in
  Api.MrSlice a_ptr (Z.of_nat U256_NUM_WORDS) (fun a_memory_records a read_a_page_prot_records =>
  Api.IncrClk (
  Api.MrSlice b_ptr (Z.of_nat U256_NUM_WORDS) (fun b_memory_records b read_b_page_prot_records =>
  Api.IncrClk (
  Api.MrSlice c_ptr (Z.of_nat U256_NUM_WORDS) (fun c_memory_records c read_c_page_prot_records =>
  let uint256_a := BigUint.from_slice (u64_to_u32 a) in
  let uint256_b := BigUint.from_slice (u64_to_u32 b) in
  let uint256_c := BigUint.from_slice (u64_to_u32 c) in
  let intermediate_result :=
    match op with
    | SyscallCode.Uint256Op.Add => uint256_a + uint256_b + uint256_c
    | SyscallCode.Uint256Op.Mul => uint256_a * uint256_b + uint256_c
    end in
  let u64_result := resize 8 0 (BigUint.to_u64_digits intermediate_result) in
  let d := take 4 u64_result in
  let e := drop 4 u64_result in
  Api.IncrClk (
  Api.MwSlice d_ptr d false (fun d_memory_records write_d_page_prot_records =>
  Api.IncrClk (
  Api.MwSlice e_ptr e false (fun e_memory_records write_e_page_prot_records =>
  Api.AddPrecompileEvent syscall_code clk (fun local_mem_access local_page_prot_access =>
    PrecompileEvent.Uint256Ops (Uint256OpsEvent.mk clk op a_ptr a b_ptr b c_ptr c d_ptr d e_ptr e
      c_ptr_memory d_ptr_memory e_ptr_memory a_memory_records b_memory_records c_memory_records
      d_memory_records e_memory_records local_mem_access
      (Uint256OpsPageProtRecords.mk read_a_page_prot_records read_b_page_prot_records read_c_page_prot_records
         write_d_page_prot_records write_e_page_prot_records)
      local_page_prot_access))
  (Api.Return None)))))))))))))).

Definition u256x2048_mul (syscall_code : SyscallCode.t) (arg1 arg2 : Z) : Api.t :=
  Api.GetClk (fun clk =>
  let a_ptr := arg1 in
  let b_ptr := arg2 in
  Api.RrTraced Register.X12 (fun lo_ptr_memory => let lo_ptr := MemoryReadRecord.value lo_ptr_memory in
  Api.RrTraced Register.X13 (fun hi_ptr_memory => let hi_ptr := MemoryReadRecord.value hi_ptr_memory in
  Api.MrSlice a_ptr (Z.of_nat U256_NUM_WORDS) (fun a_memory_records a read_a_page_prot_records =>
  Api.IncrClk (
  Api.MrSlice b_ptr (Z.of_nat U2048_NUM_WORDS) (fun b_memory_records b read_b_page_prot_records =>
  let uint256_a := BigUint.from_bytes_le (words_to_bytes_le_vec a) in
  let uint2048_b := BigUint.from_bytes_le (words_to_bytes_le_vec b) in
  let result := uint256_a * uint2048_b in
  let two_to_2048 := 1 ≪ 2048 in
  let hi := result / two_to_2048 in
  let lo := result mod two_to_2048 in
  expect! lo_words := bytes_to_words_le U2048_NUM_WORDS (resize (8 * U2048_NUM_WORDS) 0 (BigUint.to_bytes_le lo));
  expect! hi_words := bytes_to_words_le U256_NUM_WORDS (resize (8 * U256_NUM_WORDS) 0 (BigUint.to_bytes_le hi));
  Api.IncrClk (
  Api.MwSlice lo_ptr lo_words false (fun lo_memory_records write_lo_page_prot_records =>
  Api.IncrClk (
  Api.MwSlice hi_ptr hi_words false (fun hi_memory_records write_hi_page_prot_records =>
  Api.AddPrecompileEvent syscall_code clk (fun local_mem_access local_page_prot_access =>
    PrecompileEvent.U256xU2048Mul (U256xU2048MulEvent.mk clk a_ptr a b_ptr b lo_ptr lo_ptr_memory lo_words hi_ptr
      hi_ptr_memory hi_words a_memory_records b_memory_records lo_memory_records hi_memory_records local_mem_access
      (U256xU2048MulPageProtRecords.mk read_a_page_prot_records read_b_page_prot_records
         write_lo_page_prot_records write_hi_page_prot_records)
      local_page_prot_access))
  (Api.Return None))))))))))).

(** ** Field towers *)
Module FieldType.
Inductive t := Bls12381 | Bn254.
End FieldType.
Record FpOpField := mkFpOp { fp_field : FieldParameters.t; FIELD_TYPE : FieldType.t }.
Definition Bn254Fp : FpOpField := mkFpOp Bn254BaseField FieldType.Bn254.
Definition Bls12381Fp : FpOpField := mkFpOp Bls12381BaseField FieldType.Bls12381.

(** [None] is a panic. *)
Definition fp_result (op : SyscallCode.FieldOperation) (modulus a b : Z) : option Z :=
  match op with
  | SyscallCode.Add => Some ((a + b) mod modulus)
  | SyscallCode.Sub => (fun n => n mod modulus) <$> BigUint.sub (a + modulus) b
  | SyscallCode.Mul => Some ((a * b) mod modulus)
  | SyscallCode.Div => None
  end.

(** The code under which the events of a field are grouped, [None] being
    unreachable. *)
Definition fp_key (ty : FieldType.t) (code : SyscallCode.t) : option SyscallCode.t :=
  match ty, code with
  | FieldType.Bn254, (SyscallCode.BN254_FP_ADD | SyscallCode.BN254_FP_SUB | SyscallCode.BN254_FP_MUL) =>
      Some SyscallCode.BN254_FP_ADD
  | FieldType.Bls12381, (SyscallCode.BLS12381_FP_ADD | SyscallCode.BLS12381_FP_SUB | SyscallCode.BLS12381_FP_MUL) =>
      Some SyscallCode.BLS12381_FP_ADD
  | _, _ => None
  end.

Definition fp_op_syscall (P : FpOpField) (syscall_code : SyscallCode.t) (arg1 arg2 : Z) : Api.t :=
  Api.GetClk (fun clk =>
  let x_ptr := arg1 in
  require! is_multiple_of x_ptr 8;
  let y_ptr := arg2 in
  require! is_multiple_of y_ptr 8;
  expect! op := SyscallCode.fp_op_map syscall_code;
  let num_words := WordsFieldElement (fp_field P) in
  Api.SliceUnsafe x_ptr (Z.of_nat num_words) (fun x =>
  Api.MrSlice y_ptr (Z.of_nat num_words) (fun y_memory_records y read_page_prot_records =>
  let modulus := BigUint.from_bytes_le (MODULUS (fp_field P)) in
  let a := BigUint.from_slice (u64_to_u32 x) mod modulus in
  let b := BigUint.from_slice (u64_to_u32 y) mod modulus in
  expect! result := fp_result op modulus a b;
  let result := resize num_words 0 (BigUint.to_u64_digits result) in
  Api.IncrClk (
  Api.MwSlice x_ptr result true (fun x_memory_records write_page_prot_records =>
  let event local_mem_access local_page_prot_access :=
    FpOpEvent.mk clk x_ptr x y_ptr y op x_memory_records y_memory_records local_mem_access
      (FpPageProtRecords.mk read_page_prot_records write_page_prot_records) local_page_prot_access in
  expect! syscall_code_key := fp_key (FIELD_TYPE P) syscall_code;
  Api.AddPrecompileEvent syscall_code_key clk (fun local_mem_access local_page_prot_access =>
    let event := event local_mem_access local_page_prot_access in
    match FIELD_TYPE P with
    | FieldType.Bn254 => PrecompileEvent.Bn254Fp event
    | FieldType.Bls12381 => PrecompileEvent.Bls12381Fp event
    end)
  (Api.Return None)))))).

Definition fp2_addsub_key (ty : FieldType.t) (code : SyscallCode.t) : option SyscallCode.t :=
  match ty, code with
  | FieldType.Bn254, (SyscallCode.BN254_FP2_ADD | SyscallCode.BN254_FP2_SUB) => Some SyscallCode.BN254_FP2_ADD
  | FieldType.Bls12381, (SyscallCode.BLS12381_FP2_ADD | SyscallCode.BLS12381_FP2_SUB) =>
      Some SyscallCode.BLS12381_FP2_ADD
  | _, _ => None
  end.

(** The halves of the two elements are not reduced before the operation. *)
Definition fp2_addsub_result (op : SyscallCode.FieldOperation) (modulus ac0 ac1 bc0 bc1 : Z) : option (Z * Z) :=
  match op with
  | SyscallCode.Add => Some ((ac0 + bc0) mod modulus, (ac1 + bc1) mod modulus)
  | SyscallCode.Sub =>
      c0 ← (fun n => n mod modulus) <$> BigUint.sub (ac0 + modulus) bc0;
      c1 ← (fun n => n mod modulus) <$> BigUint.sub (ac1 + modulus) bc1;
      Some (c0, c1)
  | _ => None
  end.

(** [c0] and [c1] padded to the same number of words. *)
Definition fp2_words (num_words : nat) (c0 c1 : Z) : list Z :=
  resize num_words 0 (resize (num_words / 2) 0 (BigUint.to_u64_digits c0) ++ BigUint.to_u64_digits c1).

Definition fp2_addsub_syscall (P : FpOpField) (syscall_code : SyscallCode.t) (arg1 arg2 : Z) : Api.t :=
  Api.GetClk (fun clk =>
  let x_ptr := arg1 in
  require! is_multiple_of x_ptr 8;
  let y_ptr := arg2 in
  require! is_multiple_of y_ptr 8;
  let num_words := WordsCurvePoint (fp_field P) in
  expect! op := SyscallCode.fp_op_map syscall_code;
  Api.SliceUnsafe x_ptr (Z.of_nat num_words) (fun x =>
  Api.MrSlice y_ptr (Z.of_nat num_words) (fun y_memory_records y read_page_prot_records =>
  Api.IncrClk (
  let x_32 := u64_to_u32 x in
  let y_32 := u64_to_u32 y in
  let ac0 := BigUint.from_slice (take (length x_32 / 2) x_32) in
  let ac1 := BigUint.from_slice (drop (length x_32 / 2) x_32) in
  let bc0 := BigUint.from_slice (take (length y_32 / 2) y_32) in
  let bc1 := BigUint.from_slice (drop (length y_32 / 2) y_32) in
  let modulus := BigUint.from_bytes_le (MODULUS (fp_field P)) in
  expect! (c0, c1) := fp2_addsub_result op modulus ac0 ac1 bc0 bc1;
  Api.MwSlice x_ptr (fp2_words num_words c0 c1) true (fun x_memory_records write_page_prot_records =>
  let event local_mem_access local_page_prot_access :=
    Fp2AddSubEvent.mk clk op x_ptr x y_ptr y x_memory_records y_memory_records local_mem_access
      (FpPageProtRecords.mk read_page_prot_records write_page_prot_records) local_page_prot_access in
  expect! syscall_code_key := fp2_addsub_key (FIELD_TYPE P) syscall_code;
  Api.AddPrecompileEvent syscall_code_key clk (fun local_mem_access local_page_prot_access =>
    let event := event local_mem_access local_page_prot_access in
    match FIELD_TYPE P with
    | FieldType.Bn254 => PrecompileEvent.Bn254Fp2AddSub event
    | FieldType.Bls12381 => PrecompileEvent.Bls12381Fp2AddSub event
    end)
  (Api.Return None)))))).

Definition fp2_mul_result (modulus ac0 ac1 bc0 bc1 : Z) : option (Z * Z) :=
  let u := (ac0 * bc0) mod modulus in
  let v := (ac1 * bc1) mod modulus in
  c0 ← (fun n => n mod modulus) <$> (if u <? v then BigUint.sub (modulus + u) v else BigUint.sub u v);
  Some (c0, ((ac0 * bc1) mod modulus + (ac1 * bc0) mod modulus) mod modulus).

Definition fp2_mul_syscall (P : FpOpField) (syscall_code : SyscallCode.t) (arg1 arg2 : Z) : Api.t :=
  Api.GetClk (fun clk =>
  let x_ptr := arg1 in
  require! is_multiple_of x_ptr 8;
  let y_ptr := arg2 in
  require! is_multiple_of y_ptr 8;
  let num_words := WordsCurvePoint (fp_field P) in
  Api.SliceUnsafe x_ptr (Z.of_nat num_words) (fun x =>
  Api.MrSlice y_ptr (Z.of_nat num_words) (fun y_memory_records y read_page_prot_records =>
  Api.IncrClk (
  let x_32 := u64_to_u32 x in
  let y_32 := u64_to_u32 y in
  let ac0 := BigUint.from_slice (take (length x_32 / 2) x_32) in
  let ac1 := BigUint.from_slice (drop (length x_32 / 2) x_32) in
  let bc0 := BigUint.from_slice (take (length y_32 / 2) y_32) in
  let bc1 := BigUint.from_slice (drop (length y_32 / 2) y_32) in
  let modulus := BigUint.from_bytes_le (MODULUS (fp_field P)) in
  expect! (c0, c1) := fp2_mul_result modulus ac0 ac1 bc0 bc1;
  Api.MwSlice x_ptr (fp2_words num_words c0 c1) true (fun x_memory_records write_page_prot_records =>
  Api.AddPrecompileEvent syscall_code clk (fun local_mem_access local_page_prot_access =>
    let event := Fp2MulEvent.mk clk x_ptr x y_ptr y x_memory_records y_memory_records local_mem_access
      (FpPageProtRecords.mk read_page_prot_records write_page_prot_records) local_page_prot_access in
    match FIELD_TYPE P with
    | FieldType.Bn254 => PrecompileEvent.Bn254Fp2Mul event
    | FieldType.Bls12381 => PrecompileEvent.Bls12381Fp2Mul event
    end)
  (Api.Return None)))))).

(** ** Elliptic curves *)
Section CurveHandlers.
Context `{CurveCrates}.

(** The event lacks the local events that [postprocess] returns. *)
Definition create_ec_add_event (E : EllipticCurve) (arg1 arg2 : Z)
  (k : Z -> (list MemoryLocalEvent.t -> list PageProtLocalEvent.t -> EllipticCurveAddEvent.t) -> Api.t) : Api.t :=
  Api.GetClk (fun start_clk =>
  let p_ptr := arg1 in
  require! is_multiple_of p_ptr 8;
  let q_ptr := arg2 in
  require! is_multiple_of q_ptr 8;
  let num_words := WordsCurvePoint (curve_field E) in
  Api.SliceUnsafe p_ptr (Z.of_nat num_words) (fun p =>
  Api.MrSlice q_ptr (Z.of_nat num_words) (fun q_memory_records q read_page_prot_records =>
  Api.IncrClk (
  let p_affine := AffinePoint.from_words_le p in
  let q_affine := AffinePoint.from_words_le q in
  expect! result_affine := ec_add E p_affine q_affine;
  let result_words := AffinePoint.to_words_le (curve_field E) result_affine in
  Api.MwSlice p_ptr result_words true (fun p_memory_records write_page_prot_records =>
  k start_clk (fun local_mem_access local_page_prot_access =>
    EllipticCurveAddEvent.mk start_clk p_ptr p q_ptr q p_memory_records q_memory_records local_mem_access
      (EllipticCurvePageProtRecords.mk read_page_prot_records write_page_prot_records)
      local_page_prot_access)))))).

Definition create_ec_double_event (E : EllipticCurve) (arg1 arg2 : Z)
  (k : Z -> (list MemoryLocalEvent.t -> list PageProtLocalEvent.t -> EllipticCurveDoubleEvent.t) -> Api.t) : Api.t :=
  Api.GetClk (fun start_clk =>
  let p_ptr := arg1 in
  require! is_multiple_of p_ptr 8;
  let num_words := WordsCurvePoint (curve_field E) in
  Api.SliceUnsafe p_ptr (Z.of_nat num_words) (fun p =>
  let p_affine := AffinePoint.from_words_le p in
  expect! result_affine := ec_double E p_affine;
  let result_words := AffinePoint.to_words_le (curve_field E) result_affine in
  Api.MwSlice p_ptr result_words true (fun p_memory_records write_page_prot_records =>
  k start_clk (fun local_mem_access local_page_prot_access =>
    EllipticCurveDoubleEvent.mk start_clk p_ptr p p_memory_records local_mem_access write_page_prot_records
      local_page_prot_access)))).

(** [decompress_fn], [None] being a curve without one. *)
Definition decompress_fn (ty : CurveType.t) : option (list Z -> Z -> option AffinePoint.t) :=
  match ty with
  | CurveType.Secp256k1 => Some secp256k1_decompress
  | CurveType.Secp256r1 => Some secp256r1_decompress
  | CurveType.Bls12381 => Some bls12381_decompress
  | _ => None
  end.

Definition create_ec_decompress_event (E : EllipticCurve) (slice_ptr sign_bit : Z)
  (k : Z -> (list MemoryLocalEvent.t -> list PageProtLocalEvent.t -> EllipticCurveDecompressEvent.t) -> Api.t) : Api.t :=
  Api.GetClk (fun start_clk =>
  require! is_multiple_of slice_ptr 8;
  require! sign_bit <=? 1;
  let num_limbs := NB_LIMBS (curve_field E) in
  let num_words_field_element := (num_limbs / 8)%nat in
  Api.MrSlice (slice_ptr +ₗ Z.of_nat num_limbs) (Z.of_nat num_words_field_element)
    (fun x_memory_records x_vec read_page_prot_records =>
  let x_bytes := words_to_bytes_le_vec x_vec in
  let x_bytes_be := rev x_bytes in
  expect! decompress_fn := decompress_fn (CURVE_TYPE E);
  expect! computed_point := decompress_fn x_bytes_be (u32 sign_bit);
  let decompressed_y_bytes := resize num_limbs 0 (BigUint.to_bytes_le (AffinePoint.y computed_point)) in
  let y_words := bytes_to_words_le_vec decompressed_y_bytes in
  Api.IncrClk (
  Api.MwSlice slice_ptr y_words false (fun y_memory_records write_page_prot_records =>
  k start_clk (fun local_mem_access local_page_prot_access =>
    EllipticCurveDecompressEvent.mk start_clk slice_ptr (negb (sign_bit =? 0)) x_bytes decompressed_y_bytes
      x_memory_records y_memory_records local_mem_access
      (EllipticCurvePageProtRecords.mk read_page_prot_records write_page_prot_records)
      local_page_prot_access))))).

Definition weierstrass_add_assign_syscall (E : EllipticCurve) (syscall_code : SyscallCode.t) (arg1 arg2 : Z) : Api.t :=
  create_ec_add_event E arg1 arg2 (fun clk event =>
  expect! variant :=
    match CURVE_TYPE E with
    | CurveType.Secp256k1 => Some PrecompileEvent.Secp256k1Add
    | CurveType.Bn254 => Some PrecompileEvent.Bn254Add
    | CurveType.Bls12381 => Some PrecompileEvent.Bls12381Add
    | CurveType.Secp256r1 => Some PrecompileEvent.Secp256r1Add
    | _ => None
    end;
  Api.AddPrecompileEvent syscall_code clk (fun lm lp => variant (event lm lp)) (Api.Return None)).

Definition weierstrass_double_assign_syscall (E : EllipticCurve) (syscall_code : SyscallCode.t) (arg1 arg2 : Z) : Api.t :=
  create_ec_double_event E arg1 arg2 (fun clk event =>
  expect! variant :=
    match CURVE_TYPE E with
    | CurveType.Secp256k1 => Some PrecompileEvent.Secp256k1Double
    | CurveType.Secp256r1 => Some PrecompileEvent.Secp256r1Double
    | CurveType.Bn254 => Some PrecompileEvent.Bn254Double
    | CurveType.Bls12381 => Some PrecompileEvent.Bls12381Double
    | _ => None
    end;
  Api.AddPrecompileEvent syscall_code clk (fun lm lp => variant (event lm lp)) (Api.Return None)).

Definition weierstrass_decompress_syscall (E : EllipticCurve) (syscall_code : SyscallCode.t) (slice_ptr sign_bit : Z) : Api.t :=
  create_ec_decompress_event E slice_ptr sign_bit (fun clk event =>
  expect! variant :=
    match CURVE_TYPE E with
    | CurveType.Secp256k1 => Some PrecompileEvent.Secp256k1Decompress
    | CurveType.Secp256r1 => Some PrecompileEvent.Secp256r1Decompress
    | CurveType.Bls12381 => Some PrecompileEvent.Bls12381Decompress
    | _ => None
    end;
  Api.AddPrecompileEvent syscall_code clk (fun lm lp => variant (event lm lp)) (Api.Return None)).

Definition edwards_add_assign_syscall (E : EllipticCurve) (syscall_code : SyscallCode.t) (arg1 arg2 : Z) : Api.t :=
  create_ec_add_event E arg1 arg2 (fun clk event =>
  Api.AddPrecompileEvent syscall_code clk (fun lm lp => PrecompileEvent.EdAdd (event lm lp)) (Api.Return None)).

Definition COMPRESSED_POINT_BYTES : nat := 32.

Definition edwards_decompress_syscall (syscall_code : SyscallCode.t) (arg1 sign : Z) : Api.t :=
  Api.GetClk (fun start_clk =>
  let slice_ptr := arg1 in
  require! is_multiple_of slice_ptr 8;
  require! sign <=? 1;
  Api.MrSlice (slice_ptr +ₗ Z.of_nat COMPRESSED_POINT_BYTES) (Z.of_nat WORDS_FIELD_ELEMENT)
    (fun y_memory_records y_vec read_page_prot_records =>
  let sign_bool := negb (sign =? 0) in
  expect! y_bytes := words_to_bytes_le COMPRESSED_POINT_BYTES y_vec;
  let compressed_edwards_y :=
    alter (fun b => Z.lor (Z.land b 127) (u8 (sign ≪ 7))) (COMPRESSED_POINT_BYTES - 1)%nat y_bytes in
  expect! decompressed := (p ← decompress compressed_edwards_y; p);
  let decompressed_x_bytes := resize 32 0 (BigUint.to_bytes_le (AffinePoint.x decompressed)) in
  expect! decompressed_x_words := bytes_to_words_le WORDS_FIELD_ELEMENT decompressed_x_bytes;
  Api.IncrClk (
  Api.MwSlice slice_ptr decompressed_x_words false (fun x_memory_records write_page_prot_records =>
  Api.AddPrecompileEvent syscall_code start_clk (fun local_mem_access local_page_prot_access =>
    PrecompileEvent.EdDecompress (EdDecompressEvent.mk start_clk slice_ptr sign_bool y_bytes decompressed_x_bytes
      x_memory_records y_memory_records local_mem_access
      (EdwardsPageProtRecords.mk read_page_prot_records write_page_prot_records) local_page_prot_access))
  (Api.Return None))))).

(** ** Dispatch

    The arms of [get_syscall] that are precompiles.  The others do not use
    this function. *)
Context `{HashCrates}.

Definition precompile (code : SyscallCode.t) : Z -> Z -> Api.t :=
  match code with
  | SyscallCode.SECP256K1_ADD => weierstrass_add_assign_syscall Secp256k1 code
  | SyscallCode.SECP256K1_DOUBLE => weierstrass_double_assign_syscall Secp256k1 code
  | SyscallCode.SECP256K1_DECOMPRESS => weierstrass_decompress_syscall Secp256k1 code
  | SyscallCode.BLS12381_ADD => weierstrass_add_assign_syscall Bls12381 code
  | SyscallCode.BLS12381_DOUBLE => weierstrass_double_assign_syscall Bls12381 code
  | SyscallCode.BLS12381_DECOMPRESS => weierstrass_decompress_syscall Bls12381 code
  | SyscallCode.BN254_ADD => weierstrass_add_assign_syscall Bn254 code
  | SyscallCode.BN254_DOUBLE => weierstrass_double_assign_syscall Bn254 code
  | SyscallCode.SECP256R1_ADD => weierstrass_add_assign_syscall Secp256r1 code
  | SyscallCode.SECP256R1_DOUBLE => weierstrass_double_assign_syscall Secp256r1 code
  | SyscallCode.SECP256R1_DECOMPRESS => weierstrass_decompress_syscall Secp256r1 code
  | SyscallCode.ED_ADD => edwards_add_assign_syscall Ed25519 code
  | SyscallCode.ED_DECOMPRESS => edwards_decompress_syscall code
  | SyscallCode.BLS12381_FP2_ADD | SyscallCode.BLS12381_FP2_SUB => fp2_addsub_syscall Bls12381Fp code
  | SyscallCode.BN254_FP2_ADD | SyscallCode.BN254_FP2_SUB => fp2_addsub_syscall Bn254Fp code
  | SyscallCode.BLS12381_FP_ADD | SyscallCode.BLS12381_FP_SUB | SyscallCode.BLS12381_FP_MUL =>
      fp_op_syscall Bls12381Fp code
  | SyscallCode.BN254_FP_ADD | SyscallCode.BN254_FP_SUB | SyscallCode.BN254_FP_MUL => fp_op_syscall Bn254Fp code
  | SyscallCode.BLS12381_FP2_MUL => fp2_mul_syscall Bls12381Fp code
  | SyscallCode.BN254_FP2_MUL => fp2_mul_syscall Bn254Fp code
  | SyscallCode.KECCAK_PERMUTE => keccak256_permute_syscall code
  | SyscallCode.SHA_COMPRESS => Sha256.sha256_compress_syscall code
  | SyscallCode.SHA_EXTEND => Sha256.sha256_extend_syscall code
  | SyscallCode.UINT256_MUL => uint256_mul code
  | SyscallCode.UINT256_ADD_CARRY | SyscallCode.UINT256_MUL_CARRY => uint256_ops code
  | SyscallCode.U256XU2048_MUL => u256x2048_mul code
  | SyscallCode.POSEIDON2 => poseidon2_syscall code
  | _ => fun _ _ => Api.Abort
  end.
End CurveHandlers.

(** ** Keys of the events

    [PrecompileEvents::add_event] asserts that its key is a code that is sent
    to a table; [Api.interp] leaves the assertion out, since it holds for the
    key of every handler. *)
Fixpoint keys_sent (p : Api.t) : Prop :=
  match p with
  | Api.Return _ | Api.Abort => True
  | Api.Mr _ k | Api.RrTraced _ k => forall r, keys_sent (k r)
  | Api.Mw _ _ k => forall r, keys_sent (k r)
  | Api.MrSlice _ _ k => forall r v p, keys_sent (k r v p)
  | Api.MwSlice _ _ _ k => forall r p, keys_sent (k r p)
  | Api.PageProtRangeAccess _ _ _ k => forall p, keys_sent (k p)
  | Api.SliceUnsafe _ _ k => forall v, keys_sent (k v)
  | Api.GetClk k => forall c, keys_sent (k c)
  | Api.IncrClk k => keys_sent k
  | Api.AddPrecompileEvent key _ _ k => SyscallCode.should_send key = 1 /\ keys_sent k
  end.

Lemma keys_sent_loop w_ptr n i records k : (forall l, keys_sent (k l)) -> keys_sent (Sha256.extend_loop w_ptr n i records k).
Proof. intros Hk. revert i records. induction n as [|n IH]; intros i records; cbn -[Z.mul]; [apply Hk|auto]. Qed.

Ltac keys_step :=
  cbv zeta beta; cbn [keys_sent];
  match goal with
  | |- forall _, _ => intros
  | |- keys_sent (match ?x with _ => _ end) => destruct x eqn:?
  | |- keys_sent (Sha256.extend_loop _ _ _ _ _) => apply keys_sent_loop
  | |- _ /\ _ => split
  end.
Lemma precompile_keys_sent `{CurveCrates, HashCrates} code arg1 arg2 : keys_sent (precompile code arg1 arg2).
Proof.
  destruct code; try exact I; cbn [precompile];
    unfold Sha256.sha256_extend_syscall, Sha256.sha256_compress_syscall, keccak256_permute_syscall, poseidon2_syscall,
      uint256_mul, uint256_ops, u256x2048_mul, fp_op_syscall, fp2_addsub_syscall, fp2_mul_syscall,
      weierstrass_add_assign_syscall, weierstrass_double_assign_syscall, weierstrass_decompress_syscall,
      edwards_add_assign_syscall, edwards_decompress_syscall, create_ec_add_event, create_ec_double_event,
      create_ec_decompress_event;
    repeat keys_step; try exact I; try reflexivity;
    match goal with K : _ = Some ?k |- SyscallCode.should_send ?k = 1 => injection K as <-; reflexivity end.
Qed.
