(* ===== verification/Samples.v ===== *)
(** * Samples: a guest program on which the definitions are evaluated

    It enters an unconstrained block that stores a double word and leaves it,
    then loads and stores the same location, and halts. *)
From Stdlib Require Import ZArith Lia Bool.
From stdpp Require Import base numbers option list gmap.
From S2P Require Import Prelude BigUint Curves Isa PagedMemory SyscallCode State ExecMemory Interpreter Cost Syscalls Precompiles.
Import Opcode.

Definition sample_code (exit_code : Z) : list Instruction.t :=
  [ Instruction.new ADDI 5 0 3 false true;        (* x5 := ENTER_UNCONSTRAINED *)
    Instruction.new ECALL 5 10 11 false false;
    Instruction.new BEQ 5 0 20 false true;        (* outside the block: skip it *)
    Instruction.new ADDI 6 0 0x1000 false true;
    Instruction.new SD 6 6 8 false true;
    Instruction.new ADDI 5 0 4 false true;        (* x5 := EXIT_UNCONSTRAINED *)
    Instruction.new ECALL 5 10 11 false false;
    Instruction.new ADDI 6 0 0x1000 false true;
    Instruction.new LBU 8 6 9 false true;
    Instruction.new SB 6 6 9 false true;
    Instruction.new ADDI 10 0 exit_code false true;
    Instruction.new ADDI 5 0 0 false true;        (* x5 := HALT *)
    Instruction.new ECALL 5 10 11 false false ].

Definition sample_program (exit_code : Z) : Program.t :=
  Program.mk (sample_code exit_code) 0x100 0x100 {[ 0x1008 := 0x1122334455667788 ]} ∅ false.

Definition sample_context (exit_code expected : Z) : Context.t :=
  Context.mk (sample_program exit_code) None 16 (Some (1000000, 1000)) (fun _ => 1) [] [] expected []
    None false (fun _ => None) None None Manual.decode.

Definition sample (exit_code expected : Z) : Executor.t :=
  Executor.with_context (sample_context exit_code expected).

(** No precompile is called. *)
Definition no_precompile : SyscallCode.t -> Z -> Z -> Api.t := fun _ _ _ => Api.Abort.

Definition returns {A} (r : res A) : bool := match r with Ret _ _ => true | _ => false end.

(** A program that returns, as an equation. *)
Lemma returns_eq {A} (r : res A) : returns r = true -> exists a s, r = Ret a s.
Proof. destruct r; [eauto|discriminate..]. Qed.

(** The last shard of a program that changes [x5] and a double word, writes a
    byte at address 8 to a file descriptor without a hook, and halts. *)
Definition low_write_code : list Instruction.t :=
  [ Instruction.new ADDI 5 0 2 false true;        (* x5 := WRITE *)
    Instruction.new ADDI 6 0 0x1000 false true;
    Instruction.new SD 6 6 8 false true;
    Instruction.new ADDI 10 0 11 false true;
    Instruction.new ADDI 11 0 8 false true;
    Instruction.new ADDI 12 0 1 false true;
    Instruction.new ECALL 5 10 11 false false;
    Instruction.new ADDI 10 0 0 false true;
    Instruction.new ADDI 5 0 0 false true;        (* x5 := HALT *)
    Instruction.new ECALL 5 10 11 false false ].
Definition low_write : Executor.t :=
  let program := Program.mk low_write_code 0x100 0x100 ∅ ∅ false in
  let s := Executor.with_context (Context.mk program None 16 (Some (1000000, 1000)) (fun _ => 1) [] [] 0 []
    None false (fun _ => None) None None Manual.decode) in
  Executor.set_state (ExecutionState.set_global_clk 1 (ExecutionState.set_memory
    {[ inl 5 := MemoryEntry.mk false 3 9; inl 8 := MemoryEntry.mk false 4 7; inr 0x201 := MemoryEntry.mk false 5 6 ]}
    (Executor.state s))) s.

(** Functions of other crates: none of the curve libraries is called, the
    exponentiation is [dashu_modpow] and the permutations are trivial. *)
Definition sample_curve_crates : CurveCrates := {|
  k256_point := unit;
  k256_from_encoded_point _ := None;
  k256_add _ _ := tt;
  k256_double _ := tt;
  k256_to_encoded_point _ := [];
  k256_decompress _ _ := None;
  p256_decompress _ _ := None;
  deserialize_g1 _ := None;
  modpow := dashu_modpow |}.
Definition sample_hash_crates : HashCrates := {| keccakf l := l; poseidon2_permute l := l |}.

(** The sample with words stored from the double word [k] on. *)
Definition store_words (k : Z) (ws : list Z) (s : Executor.t) : Executor.t :=
  Executor.set_state (ExecutionState.set_memory
    (foldr (fun '(i, w) m => <[(inr (k + i) : loc) := MemoryEntry.mk false 0 w]> m)
       (ExecutionState.memory (Executor.state s)) (zip (seqZ 0 (Z.of_nat (length ws))) ws))
    (Executor.state s)) s.
Definition sample_syscall_context : SyscallContext.t := SyscallContext.new (sample 0 0) true.
