(* ===== verification/Rv64.v ===== *)
(** * Rv64: a reference semantics of RV64IM

    The unprivileged architecture as the ISA manual states it: integer
    arithmetic on the unsigned and signed readings of a register, division
    with its special cases spelled out, memory as bytes.  It does not follow
    the executor's code; [alu_matches_manual] and the theorems of
    [Refinement] relate the two. *)
From Stdlib Require Import ZArith Lia Bool.
From stdpp Require Import base numbers option list.
From S2P Require Import Prelude Isa SyscallCode State ExecMemory Interpreter.
Import Opcode.

Module Rv64.

(** Unsigned and two's complement readings of the low [w] bits. *)
Definition unsigned (w x : Z) : Z := x mod 2 ^ w.
Definition signed (w x : Z) : Z :=
  let v := unsigned w x in if v <? 2 ^ (w - 1) then v else v - 2 ^ w.

(** The register holding an integer. *)
Definition reg (x : Z) : Z := x mod 2 ^ 64.
(** A 32-bit result is sign-extended. *)
Definition word (x : Z) : Z := reg (signed 32 x).

(** Division of the manual, on signed operands of width [w]. *)
Definition div (w b c : Z) : Z :=
  if c =? 0 then -1 else if (b =? - 2 ^ (w - 1)) && (c =? -1) then - 2 ^ (w - 1) else Z.quot b c.
Definition rem (w b c : Z) : Z :=
  if c =? 0 then b else if (b =? - 2 ^ (w - 1)) && (c =? -1) then 0 else Z.rem b c.
Definition divu (b c w : Z) : Z := if c =? 0 then 2 ^ w - 1 else b / c.
Definition remu (b c : Z) : Z := if c =? 0 then b else b mod c.

Definition alu (op : Opcode.t) (b c : Z) : option Z :=
  let ub := unsigned 64 b in let uc := unsigned 64 c in
  let sb := signed 64 b in let sc := signed 64 c in
  let wb := signed 32 b in let wc := signed 32 c in
  match op with
  | ADD | ADDI => Some (reg (ub + uc))
  | SUB => Some (reg (ub - uc))
  | XOR => Some (Z.lxor ub uc)
  | OR => Some (Z.lor ub uc)
  | AND => Some (Z.land ub uc)
  | SLL => Some (reg (ub * 2 ^ (uc mod 64)))
  | SRL => Some (ub / 2 ^ (uc mod 64))
  | SRA => Some (reg (sb / 2 ^ (uc mod 64)))
  | SLT => Some (if sb <? sc then 1 else 0)
  | SLTU => Some (if ub <? uc then 1 else 0)
  | MUL => Some (reg (sb * sc))
  | MULH => Some (reg (sb * sc / 2 ^ 64))
  | MULHU => Some (reg (ub * uc / 2 ^ 64))
  | MULHSU => Some (reg (sb * uc / 2 ^ 64))
  | DIV => Some (reg (div 64 sb sc))
  | DIVU => Some (reg (divu ub uc 64))
  | REM => Some (reg (rem 64 sb sc))
  | REMU => Some (reg (remu ub uc))
  | ADDW => Some (word (wb + wc))
  | SUBW => Some (word (wb - wc))
  | SLLW => Some (word (ub * 2 ^ (uc mod 32)))
  | SRLW => Some (word (unsigned 32 b / 2 ^ (uc mod 32)))
  | SRAW => Some (word (wb / 2 ^ (uc mod 32)))
  | MULW => Some (word (wb * wc))
  | DIVW => Some (word (div 32 wb wc))
  | DIVUW => Some (word (divu (unsigned 32 b) (unsigned 32 c) 32))
  | REMW => Some (word (rem 32 wb wc))
  | REMUW => Some (word (remu (unsigned 32 b) (unsigned 32 c)))
  | _ => None
  end.

Definition branch (op : Opcode.t) (a b : Z) : option bool :=
  match op with
  | BEQ => Some (unsigned 64 a =? unsigned 64 b)
  | BNE => Some (negb (unsigned 64 a =? unsigned 64 b))
  | BLT => Some (signed 64 a <? signed 64 b)
  | BGE => Some (negb (signed 64 a <? signed 64 b))
  | BLTU => Some (unsigned 64 a <? unsigned 64 b)
  | BGEU => Some (negb (unsigned 64 a <? unsigned 64 b))
  | _ => None
  end.

(** ** Memory as bytes *)

(** [n] bytes from [addr], little-endian. *)
Fixpoint load_bytes (mem : Z -> Z) (addr : Z) (n : nat) : Z :=
  match n with O => 0 | S n => mem addr + 2 ^ 8 * load_bytes mem (addr + 1) n end.

(** Width in bytes of a memory instruction, and whether it sign-extends. *)
Definition load_format (op : Opcode.t) : option (nat * bool) :=
  match op with
  | LB => Some (1, true) | LH => Some (2, true) | LW => Some (4, true) | LD => Some (8, true)
  | LBU => Some (1, false) | LHU => Some (2, false) | LWU => Some (4, false)
  | _ => None
  end%nat.
Definition store_format (op : Opcode.t) : option nat :=
  match op with SB => Some 1 | SH => Some 2 | SW => Some 4 | SD => Some 8 | _ => None end%nat.

Definition load (mem : Z -> Z) (n : nat) (sign : bool) (addr : Z) : Z :=
  let v := load_bytes mem addr n in if sign then reg (signed (8 * Z.of_nat n) v) else v.

(** The memory after storing the low [n] bytes of [v]. *)
Definition store (mem : Z -> Z) (n : nat) (addr v : Z) : Z -> Z :=
  fun a => if (addr <=? a) && (a <? addr + Z.of_nat n) then (v / 2 ^ (8 * (a - addr))) mod 2 ^ 8 else mem a.

Definition aligned (n : nat) (addr : Z) : bool := addr mod Z.of_nat n =? 0.

(** ** The machine *)

(** The pages of a protected machine may deny accesses. *)
Record arch := mkArch {
  pc : Z;
  x : Z -> Z;
  mem : Z -> Z;
  may_read : Z -> bool;
  may_write : Z -> bool }.

(** Register 0 reads as zero; writes to it are ignored. *)
Definition get (a : arch) (r : Z) : Z := if r =? 0 then 0 else x a r.
Definition set (a : arch) (r v : Z) : arch :=
  mkArch (pc a) (fun r' => if r' =? r then (if r =? 0 then 0 else v) else x a r') (mem a) (may_read a) (may_write a).
Definition jump (a : arch) (pc' : Z) : arch := mkArch (reg pc') (x a) (mem a) (may_read a) (may_write a).
Definition set_mem (a : arch) (m : Z -> Z) : arch := mkArch (pc a) (x a) m (may_read a) (may_write a).

(** A memory access that is misaligned, denied or both traps; the order in
    which the two are detected is left to the implementation. *)
Inductive outcome :=
| Next (a : arch)
| Trap (op : Opcode.t) (addr : Z) (misaligned denied : bool)
| Break
| Illegal
| Call.

(** The addresses the machine has memory at. *)
Definition mapped (addr : Z) : bool := (32 <=? addr) && (addr <? 2 ^ 40).

(** The second source of a register/immediate instruction. *)
Definition operand_c (i : Instruction.t) (a : arch) : Z :=
  if Instruction.imm_c i then Instruction.op_c i else get a (Instruction.op_c i).
Definition operand_b (i : Instruction.t) (a : arch) : Z :=
  if Instruction.imm_b i then Instruction.op_b i else get a (Instruction.op_b i).

Definition next (a : arch) : arch := jump a (pc a + 4).

(** One instruction, already decoded. *)
Definition step (i : Instruction.t) (a : arch) : outcome :=
  let op := Instruction.opcode i in
  let rd := Instruction.op_a i in
  match alu op (operand_b i a) (operand_c i a), load_format op, store_format op,
        branch op (get a (Instruction.op_a i)) (get a (Instruction.op_b i)) with
  | Some v, _, _, _ => Next (next (set a rd v))
  | _, Some (n, sign), _, _ =>
      let addr := reg (get a (Instruction.op_b i) + Instruction.op_c i) in
      if mapped addr && may_read a addr && aligned n addr then
        Next (next (set a rd (load (mem a) n sign addr)))
      else Trap op addr (negb (aligned n addr)) (negb (mapped addr && may_read a addr))
  | _, _, Some n, _ =>
      let addr := reg (get a (Instruction.op_b i) + Instruction.op_c i) in
      if mapped addr && may_write a addr && aligned n addr then
        Next (next (set_mem a (store (mem a) n addr (get a (Instruction.op_a i)))))
      else Trap op addr (negb (aligned n addr)) (negb (mapped addr && may_write a addr))
  | _, _, _, Some taken => Next (jump a (if taken then pc a + Instruction.op_c i else pc a + 4))
  | None, None, None, None =>
      match op with
      | JAL => Next (jump (set a rd (reg (pc a + 4))) (pc a + Instruction.op_b i))
      | JALR =>
          let target := reg (get a (Instruction.op_b i) + Instruction.op_c i) in
          Next (jump (set a rd (reg (pc a + 4))) (target - target mod 2))
      | LUI => Next (next (set a rd (Instruction.op_b i)))
      | AUIPC => Next (next (set a rd (reg (pc a + Instruction.op_b i))))
      | ECALL => Call
      | EBREAK => Break
      | _ => Illegal
      end
  end.
End Rv64.

(** ** The executor's arithmetic is the manual's *)

Lemma sext_signed w x : 0 < w -> sext w x = Rv64.signed w x.
Proof.
  intros Hw. unfold sext, Rv64.signed, Rv64.unsigned.
  assert (E : 2 ^ w = 2 * 2 ^ (w - 1)) by (rewrite <- Z.pow_succ_r by lia; f_equal; lia).
  assert (0 < 2 ^ (w - 1)) by (apply Z.pow_pos_nonneg; lia).
  rewrite E. generalize dependent (2 ^ (w - 1)). intros h _ Hh.
  pose proof (Z.mod_pos_bound x (2 * h)). pose proof (Z.div_mod x (2 * h)).
  case_bool.
  - rewrite <- (Z.mod_unique_pos (x + h) (2 * h) (x / (2 * h)) (x mod (2 * h) + h)); lia.
  - rewrite <- (Z.mod_unique_pos (x + h) (2 * h) (x / (2 * h) + 1) (x mod (2 * h) - h)); lia.
Qed.

Lemma land_mask x k : 0 <= k -> Z.land x (2 ^ k - 1) = x mod 2 ^ k.
Proof. intros. rewrite <- Z.land_ones by lia. f_equal. rewrite Z.ones_equiv. lia. Qed.

Lemma sext_mod32 x : i32 (x mod 2 ^ 32) = i32 x.
Proof. apply (sext_wrap 32); lia. Qed.

Lemma word_i32 x : Rv64.word x = u64 (i32 x).
Proof. unfold Rv64.word, i32. now rewrite sext_signed by lia. Qed.

Lemma i32_i64 x : i32 (i64 x) = i32 x.
Proof.
  transitivity (i32 (wrap 32 (i64 x))); [symmetry; apply sext_wrap; lia|].
  transitivity (i32 (wrap 32 x)); [|apply sext_wrap; lia]. f_equal. solve_ints.
Qed.

Lemma quot_signed_range w b c :
  - 2 ^ (w - 1) <= b < 2 ^ (w - 1) -> c <> 0 -> ~ (b = - 2 ^ (w - 1) /\ c = -1) ->
  - 2 ^ (w - 1) <= Z.quot b c < 2 ^ (w - 1).
Proof. intros. Z.to_euclidean_division_equations. nia. Qed.

Lemma wrapping_div_spec w b c :
  0 < w -> - 2 ^ (w - 1) <= b < 2 ^ (w - 1) -> c <> 0 -> wrapping_div w b c = Rv64.div w b c.
Proof.
  intros Hw Hb Hc. unfold wrapping_div, Rv64.div.
  destruct (Z.eqb_spec c 0) as [|_]; [lia|].
  destruct ((b =? - 2 ^ (w - 1)) && (c =? -1)) eqn:E.
  - case_bool. subst. replace (- 2 ^ (w - 1) ÷ -1) with (2 ^ (w - 1)) by lia_mod. unfold sext. replace (2 ^ (w - 1) + 2 ^ (w - 1)) with (2 ^ w); [rewrite Z.mod_same; lia|].
    rewrite Z.add_diag, <- Z.pow_succ_r by lia. f_equal. lia.
  - apply sext_small; [|lia]. apply quot_signed_range; [lia..|].
    intros [-> ->]. now rewrite !Z.eqb_refl in E.
Qed.

Lemma wrapping_rem_spec w b c :
  0 < w -> - 2 ^ (w - 1) <= b < 2 ^ (w - 1) -> - 2 ^ (w - 1) <= c < 2 ^ (w - 1) -> c <> 0 ->
  wrapping_rem w b c = Rv64.rem w b c.
Proof.
  intros Hw Hb Hc0 Hc. unfold wrapping_rem, Rv64.rem.
  destruct (Z.eqb_spec c 0) as [|_]; [lia|].
  destruct ((b =? - 2 ^ (w - 1)) && (c =? -1)) eqn:E.
  - case_bool. subst. replace (Z.rem (- 2 ^ (w - 1)) (-1)) with 0 by lia_mod. apply sext_small; lia.
  - apply sext_small; [|lia]. Z.to_euclidean_division_equations; nia.
Qed.


Lemma land63 c : Z.land c 0x3f = c mod 64.
Proof. apply (land_mask c 6). lia. Qed.
Lemma land31 c : Z.land c 0x1f = c mod 32.
Proof. apply (land_mask c 5). lia. Qed.

(** The shift amounts of the [W] shifts survive the casts of the code. *)
Lemma sraw_amount c : u32 (i32 (i64 c mod 32)) mod 32 = c mod 32.
Proof. solve_ints. Qed.
Lemma srlw_amount c : u32 (c mod 32) = c mod 32.
Proof. solve_ints. Qed.

Lemma sllw_cast b k : 0 <= k -> i32 (i64 (i64 b ≪ k)) = i32 (b * 2 ^ k).
Proof.
  intros Hk. rewrite i32_i64, Z.shiftl_mul_pow2 by lia.
  rewrite <- (sext_mod32 (i64 b * 2 ^ k)), <- (sext_mod32 (b * 2 ^ k)). f_equal.
  rewrite (Z.mul_mod (i64 b)), (Z.mul_mod b) by lia. do 2 f_equal. solve_ints.
Qed.

(** A shifted 32-bit value still fits, so the final cast is the identity. *)
Lemma sraw_fits b k : 0 <= k -> i32 (i32 b / 2 ^ k) = i32 b / 2 ^ k.
Proof.
  intros Hk. apply sext_small; [|lia]. pose proof (sext_range 32 b ltac:(lia)) as H.
  change (sext 32 b) with (i32 b) in H. simpl Z.sub in H |- *.
  assert (0 < 2 ^ k) by (apply Z.pow_pos_nonneg; lia).
  split; [apply Z.div_le_lower_bound|apply Z.div_lt_upper_bound]; nia.
Qed.

Lemma mul_signed_range b c : - 2 ^ 126 <= i64 b * i64 c <= 2 ^ 126.
Proof.
  pose proof (sext_range 64 b ltac:(lia)) as Hb. pose proof (sext_range 64 c ltac:(lia)) as Hc.
  change (sext 64) with i64 in *. nia.
Qed.

Lemma i64_zero c : is_u64 c -> (i64 c =? 0) = (c =? 0).
Proof. intros. apply eq_bool_prop_intro. rewrite !Is_true_true, !Z.eqb_eq. solve_ints. Qed.
Lemma i32_zero c : (i32 c =? 0) = (u32 c =? 0).
Proof. apply eq_bool_prop_intro. rewrite !Is_true_true, !Z.eqb_eq. solve_ints. Qed.

Lemma div_u64_fits b c : is_u64 b -> is_u64 c -> c <> 0 -> is_u64 (b / c) /\ is_u64 (b mod c).
Proof.
  unfold fits. intros Hb Hc H0. split.
  - split; [apply Z.div_pos; lia|apply Z.div_lt_upper_bound; nia].
  - pose proof (Z.mod_pos_bound b c). lia.
Qed.

Lemma i128_product b c : i128 (i64 b * i64 c) = i64 b * i64 c.
Proof. pose proof (mul_signed_range b c). apply sext_small; lia. Qed.
Lemma i128_mixed b c : is_u64 c -> i128 (i64 b * c) = i64 b * c.
Proof.
  intros Hc. pose proof (sext_range 64 b ltac:(lia)) as Hb. change (sext 64) with i64 in Hb.
  unfold fits in Hc. apply sext_small; [nia|lia].
Qed.
Lemma u128_product b c : is_u64 b -> is_u64 c -> wrap 128 (b * c) = b * c.
Proof. unfold fits. intros. apply wrap_small. unfold fits. nia. Qed.

Lemma divu64_matches b c : is_u64 b -> is_u64 c ->
  (if c =? 0 then M64 else b / c) = Rv64.reg (Rv64.divu b c 64).
Proof.
  intros Hb Hc. unfold Rv64.divu. destruct (Z.eqb_spec c 0); [reflexivity|].
  symmetry. now apply Z.mod_small, div_u64_fits.
Qed.

Lemma remu64_matches b c : is_u64 b -> is_u64 c ->
  (if c =? 0 then b else b mod c) = Rv64.reg (Rv64.remu b c).
Proof.
  intros Hb Hc. unfold Rv64.remu. symmetry.
  destruct (Z.eqb_spec c 0); [now apply Z.mod_small|now apply Z.mod_small, div_u64_fits].
Qed.

Lemma divu32_matches b c :
  (if i32 c =? 0 then M64 else u64 (i32 (u32 b / u32 c))) = u64 (i32 (Rv64.divu (u32 b) (u32 c) 32)).
Proof. rewrite i32_zero. unfold Rv64.divu. now destruct (Z.eqb_spec (u32 c) 0). Qed.

Lemma remu32_matches b c :
  (if u32 c =? 0 then u64 (i32 b) else u64 (i32 (u32 b mod u32 c))) =
  u64 (i32 (Rv64.remu (u32 b) (u32 c))).
Proof.
  unfold Rv64.remu. destruct (Z.eqb_spec (u32 c) 0); [|done]. f_equal. symmetry. apply sext_mod32.
Qed.

Lemma div64_matches b c : is_u64 b -> is_u64 c ->
  (if c =? 0 then M64 else u64 (wrapping_div 64 (i64 b) (i64 c))) = Rv64.reg (Rv64.div 64 (i64 b) (i64 c)).
Proof.
  intros Hb Hc. unfold Rv64.div at 1. rewrite i64_zero by done.
  destruct (Z.eqb_spec c 0) as [->|Hc0]; [reflexivity|].
  rewrite wrapping_div_spec; [|lia|apply sext_range; lia|].
  - unfold Rv64.div. rewrite i64_zero by done. now destruct (Z.eqb_spec c 0).
  - now rewrite <- Z.eqb_neq, i64_zero, Z.eqb_neq.
Qed.

Lemma rem64_matches b c : is_u64 b -> is_u64 c ->
  (if c =? 0 then b else u64 (wrapping_rem 64 (i64 b) (i64 c))) = Rv64.reg (Rv64.rem 64 (i64 b) (i64 c)).
Proof.
  intros Hb Hc. unfold Rv64.rem at 1. rewrite i64_zero by done.
  destruct (Z.eqb_spec c 0) as [->|Hc0]; [unfold Rv64.reg; solve_ints|].
  rewrite wrapping_rem_spec; [|lia|apply sext_range; lia..|].
  - unfold Rv64.rem. rewrite i64_zero by done. now destruct (Z.eqb_spec c 0).
  - now rewrite <- Z.eqb_neq, i64_zero, Z.eqb_neq.
Qed.

Lemma div32_matches b c :
  (if i32 c =? 0 then M64 else u64 (wrapping_div 32 (i32 b) (i32 c))) =
  u64 (i32 (Rv64.div 32 (i32 b) (i32 c))).
Proof.
  destruct (Z.eqb_spec (i32 c) 0) as [E|Hc0]; [unfold Rv64.div; now rewrite E|].
  rewrite <- wrapping_div_spec; [|lia|apply sext_range; lia|done].
  unfold wrapping_div. f_equal. symmetry. apply sext_small; [apply sext_range|]; lia.
Qed.

Lemma rem32_matches b c :
  (if i32 c =? 0 then u64 (i32 b) else u64 (wrapping_rem 32 (i32 b) (i32 c))) =
  u64 (i32 (Rv64.rem 32 (i32 b) (i32 c))).
Proof.
  destruct (Z.eqb_spec (i32 c) 0) as [E|Hc0].
  - unfold Rv64.rem. rewrite E. f_equal. symmetry. apply sext_small; [apply sext_range|]; lia.
  - rewrite <- wrapping_rem_spec; [|lia|apply sext_range; lia..|done].
    unfold wrapping_rem. f_equal. symmetry. apply sext_small; [apply sext_range|]; lia.
Qed.
Lemma alu_result_spec op b c :
  is_u64 b -> is_u64 c -> alu_result op b c = Rv64.alu op b c.
Proof.
  intros Hb Hc. unfold Rv64.alu. cbv zeta.
  rewrite <- !sext_signed by lia. rewrite <- ?word_i32.
  change (Rv64.unsigned 64) with u64. rewrite (u64_small b Hb), (u64_small c Hc).
  destruct op; cbn [alu_result]; try reflexivity; rewrite ?word_i32; f_equal.
  all: change (sext 64) with i64; change (sext 32) with i32; change (Rv64.unsigned 32) with u32.
  all: rewrite ?land63, ?land31, ?sraw_amount, ?srlw_amount, ?sllw_cast, ?Z.shiftl_mul_pow2, ?Z.shiftr_div_pow2
         by (try apply Z.mod_pos_bound; lia).
  all: try reflexivity.
  all: try now (apply div64_matches || apply rem64_matches || apply div32_matches || apply rem32_matches).
  all: try now (apply divu64_matches || apply remu64_matches || apply divu32_matches || apply remu32_matches).
  - apply (wrap_sext 64). lia.
  - now rewrite i128_product.
  - now rewrite u128_product.
  - now rewrite i128_mixed.
  - f_equal. symmetry. apply sraw_fits, Z.mod_pos_bound. lia.
Qed.
Lemma branch_taken_spec op a b : is_u64 a -> is_u64 b -> branch_taken op a b = Rv64.branch op a b.
Proof.
  intros Ha Hb. unfold Rv64.branch. rewrite <- !sext_signed by lia.
  change (Rv64.unsigned 64) with u64. rewrite (u64_small a Ha), (u64_small b Hb).
  destruct op; try reflexivity; simpl; f_equal; now rewrite <- Z.leb_antisym.
Qed.

(** ** Bytes of a double word *)
Definition byte_of (v a : Z) : Z := (v / 2 ^ (8 * (a mod 8))) mod 2 ^ 8.

Lemma mod_split x k n : 0 <= k -> 0 <= n -> x mod 2 ^ k + 2 ^ k * ((x / 2 ^ k) mod 2 ^ n) = x mod 2 ^ (k + n).
Proof. intros. rewrite Z.pow_add_r, Z.rem_mul_r by lia. lia. Qed.

(** The bytes of an access that stays inside the double word [v]. *)
Lemma load_bytes_spec mem v n : forall addr,
  addr mod 8 + Z.of_nat n <= 8 -> (forall a, a / 8 = addr / 8 -> mem a = byte_of v a) ->
  Rv64.load_bytes mem addr n = (v / 2 ^ (8 * (addr mod 8))) mod 2 ^ (8 * Z.of_nat n).
Proof.
  induction n as [|n IH]; intros addr Hn Hmem; [simpl; now rewrite Z.mod_1_r|].
  cbn [Rv64.load_bytes]. rewrite Hmem by done. unfold byte_of.
  replace (8 * Z.of_nat (S n)) with (8 + 8 * Z.of_nat n) by lia. rewrite <- mod_split by lia.
  do 2 f_equal. destruct n as [|n]; [simpl; now rewrite Z.mod_1_r|].
  rewrite IH; [|lia_mod|intros a Ha; apply Hmem; lia_mod].
  rewrite Z.div_div, <- Z.pow_add_r by lia_mod. do 3 f_equal. lia_mod.
Qed.

Definition width (n : nat) : Prop := (n = 1 \/ n = 2 \/ n = 4 \/ n = 8)%nat.

Lemma aligned_inside n addr : width n -> Rv64.aligned n addr = true -> addr mod 8 + Z.of_nat n <= 8.
Proof. unfold Rv64.aligned. intros [->|[->|[->| ->]]] Ha; case_bool; lia_mod. Qed.

(** The code's extraction of [n] aligned bytes. *)
Lemma extract_spec mem v addr sh n :
  Rv64.aligned n addr = true -> width n -> sh = 8 * (addr mod 8) ->
  (forall a, a / 8 = addr / 8 -> mem a = byte_of v a) ->
  Z.land (v ≫ sh) (2 ^ (8 * Z.of_nat n) - 1) = Rv64.load_bytes mem addr n.
Proof.
  intros Ha Hn -> Hmem. rewrite (load_bytes_spec mem v n) by (done || now apply aligned_inside).
  now rewrite land_mask, Z.shiftr_div_pow2 by lia_mod.
Qed.

Lemma load_bytes_fits mem v addr n :
  Rv64.aligned n addr = true -> width n -> (forall a, a / 8 = addr / 8 -> mem a = byte_of v a) ->
  fits (8 * Z.of_nat n) (Rv64.load_bytes mem addr n).
Proof.
  intros Ha Hn Hmem. rewrite (load_bytes_spec mem v n) by (done || now apply aligned_inside).
  apply wrap_fits. lia.
Qed.

(** Alignment as the code tests it. *)
Lemma aligned_eq n k addr : Z.of_nat n = k -> (addr mod k =? 0) = Rv64.aligned n addr.
Proof. now intros <-. Qed.
Lemma aligned_1 addr : Rv64.aligned 1 addr = true.
Proof. unfold Rv64.aligned. now rewrite Z.mod_1_r. Qed.

(** The offsets the code computes are the byte offset of an aligned address. *)
Lemma offset_2 addr : Rv64.aligned 2 addr = true -> (addr / 2) mod 4 * 16 = 8 * (addr mod 8).
Proof. unfold Rv64.aligned. intros Ha; case_bool. lia_mod. Qed.
Lemma offset_4 addr : Rv64.aligned 4 addr = true -> (addr / 4) mod 2 * 32 = 8 * (addr mod 8).
Proof. unfold Rv64.aligned. intros Ha; case_bool. lia_mod. Qed.
Lemma offset_8 addr : Rv64.aligned 8 addr = true -> 0 = 8 * (addr mod 8).
Proof. unfold Rv64.aligned. intros Ha; case_bool. lia_mod. Qed.

(** What a load reads from memory whose double word at [addr] is [v]. *)
Lemma load_result_spec op addr v mem :
  is_u64 v -> (forall a, a / 8 = addr / 8 -> mem a = byte_of v a) ->
  load_result op addr v =
  '(n, sign) ← Rv64.load_format op;
  Some (if Rv64.aligned n addr then inl (Rv64.load mem n sign addr) else inr (InvalidMemoryAccess op addr)).
Proof.
  intros Hv Hmem.
  destruct op; try reflexivity; cbn [load_result Rv64.load_format mbind option_bind];
    rewrite ?(aligned_eq 2 2), ?(aligned_eq 4 4), ?(aligned_eq 8 8), ?aligned_1 by done;
    try destruct (Rv64.aligned _ addr) eqn:Ha; try reflexivity; cbn [negb]; do 2 f_equal;
    unfold Rv64.load; rewrite <- ?sext_signed by lia.
  - now rewrite (extract_spec mem v addr _ 1) by (done || apply aligned_1 || unfold width; lia).
  - now rewrite (extract_spec mem v addr _ 2) by (done || (unfold width; lia) || now apply offset_2).
  - now rewrite (extract_spec mem v addr _ 4) by (done || (unfold width; lia) || now apply offset_4).
  - rewrite (extract_spec mem v addr _ 1) by (done || apply aligned_1 || unfold width; lia).
    apply (wrap_small 8), (load_bytes_fits mem v addr 1); [apply aligned_1|now left|done].
  - rewrite (extract_spec mem v addr _ 2) by (done || (unfold width; lia) || now apply offset_2).
    apply (wrap_small 16), (load_bytes_fits mem v addr 2); unfold width; [done|lia|done].
  - now rewrite (extract_spec mem v addr _ 4) by (done || (unfold width; lia) || now apply offset_4).
  - rewrite <- (extract_spec mem v addr 0 8) by (done || (unfold width; lia) || now apply offset_8).
    unfold Rv64.reg. change (v = u64 (sext 64 (Z.land (v ≫ 0) (2 ^ 64 - 1)))).
    rewrite Z.shiftr_0_r, land_mask by lia. change (v mod 2 ^ 64) with (u64 v).
    rewrite (u64_small v Hv). unfold u64. rewrite wrap_sext by lia. symmetry. now apply u64_small.
Qed.
(** ** Stores *)
Lemma not64_testbit x i : 0 <= i < 64 -> Z.testbit (not64 x) i = negb (Z.testbit x i).
Proof.
  intros Hi. rewrite <- Z.lnot_spec by lia.
  replace (not64 x) with (Z.lnot x + 1 * 2 ^ 64) by (unfold not64, Z.lnot; lia).
  rewrite <- (Z.mod_pow2_bits_low (Z.lnot x + _) 64) by lia.
  rewrite Z.mod_add by lia. now rewrite Z.mod_pow2_bits_low by lia.
Qed.

Lemma u64_testbit x i : 0 <= i < 64 -> Z.testbit (u64 x) i = Z.testbit x i.
Proof. intros. apply Z.mod_pow2_bits_low. lia. Qed.

(** The code's masked update of [n] bytes at byte offset [o]. *)
Definition merged (a v o n : Z) : Z :=
  Z.lor (u64 (Z.land a (2 ^ (8 * n) - 1) ≪ (8 * o)))
        (Z.land v (not64 (u64 ((2 ^ (8 * n) - 1) ≪ (8 * o))))).

Lemma merged_testbit a v o n i :
  0 <= o -> 0 <= n -> 0 <= i < 64 ->
  Z.testbit (merged a v o n) i =
  if (8 * o <=? i) && (i <? 8 * (o + n)) then Z.testbit a (i - 8 * o) else Z.testbit v i.
Proof.
  intros Ho Hn Hi. unfold merged.
  rewrite Z.lor_spec, Z.land_spec, not64_testbit, !u64_testbit, !Z.shiftl_spec by lia.
  replace (2 ^ (8 * n) - 1) with (Z.ones (8 * n)) by (rewrite Z.ones_equiv; lia).
  destruct (Z.leb_spec (8 * o) i); cbn [andb].
  - rewrite Z.land_spec, Z.testbit_ones_nonneg by lia.
    destruct (Z.ltb_spec (i - 8 * o) (8 * n)), (Z.ltb_spec i (8 * (o + n))); try lia; cbn.
    + now rewrite !andb_true_r, andb_false_r, orb_false_r.
    + now rewrite andb_false_r, andb_true_r.
  - rewrite !(Z.testbit_neg_r _ (i - 8 * o)) by lia. cbn. apply andb_true_r.
Qed.

Lemma u64_of_bits x : (forall i, 64 <= i -> Z.testbit x i = false) -> is_u64 x.
Proof.
  intros H. replace x with (u64 x); [apply u64_fits|]. apply Z.bits_inj'. intros i Hi.
  destruct (Z.lt_ge_cases i 64); [now apply u64_testbit|].
  rewrite H by lia. apply Z.mod_pow2_bits_high. lia.
Qed.

Lemma u64_high_bits x i : is_u64 x -> 64 <= i -> Z.testbit x i = false.
Proof. intros Hx Hi. rewrite <- (u64_small x Hx). apply Z.mod_pow2_bits_high. lia. Qed.

Lemma merged_u64 a v o n : is_u64 v -> is_u64 (merged a v o n).
Proof.
  intros Hv. apply u64_of_bits. intros i Hi. unfold merged.
  now rewrite Z.lor_spec, Z.land_spec, !(u64_high_bits _ i) by auto with ints.
Qed.

Lemma byte_of_testbit v x j : 0 <= j ->
  Z.testbit (byte_of v x) j = (j <? 8) && Z.testbit v (j + 8 * (x mod 8)).
Proof.
  intros Hj. unfold byte_of. destruct (Z.ltb_spec j 8).
  - now rewrite Z.mod_pow2_bits_low, Z.div_pow2_bits by lia_mod.
  - now rewrite Z.mod_pow2_bits_high by lia.
Qed.

(** The bytes of a merged double word are those of the byte store. *)
Lemma merged_bytes mem a v addr n x :
  addr mod 8 + Z.of_nat n <= 8 -> x / 8 = addr / 8 -> mem x = byte_of v x ->
  byte_of (merged a v (addr mod 8) (Z.of_nat n)) x = Rv64.store mem n addr a x.
Proof.
  intros Hn Hx Hmem. unfold Rv64.store. rewrite Hmem. apply Z.bits_inj'. intros j Hj.
  rewrite byte_of_testbit by done. destruct (Z.ltb_spec j 8) as [Hj8|Hj8]; cbn [andb].
  - rewrite merged_testbit by lia_mod.
    destruct (Z.leb_spec addr x), (Z.ltb_spec x (addr + Z.of_nat n)),
      (Z.leb_spec (8 * (addr mod 8)) (j + 8 * (x mod 8))),
      (Z.ltb_spec (j + 8 * (x mod 8)) (8 * (addr mod 8 + Z.of_nat n))); cbn [andb]; try (exfalso; lia_mod).
    all: rewrite ?byte_of_testbit, ?Z.mod_pow2_bits_low, ?Z.div_pow2_bits by lia.
    all: replace (j <? 8) with true by (symmetry; apply Z.ltb_lt; lia); cbn [andb]; f_equal; lia_mod.
  - destruct ((addr <=? x) && (x <? addr + Z.of_nat n)).
    + now rewrite Z.mod_pow2_bits_high by lia.
    + rewrite byte_of_testbit by done. now replace (j <? 8) with false by (symmetry; apply Z.ltb_ge; lia).
Qed.

Lemma merged_8 a v : is_u64 a -> is_u64 v -> merged a v 0 8 = a.
Proof.
  intros Ha Hv. unfold merged. change (8 * 8) with 64. change (8 * 0) with 0.
  rewrite !Z.shiftl_0_r, land_mask by lia. change (a mod 2 ^ 64) with (u64 a).
  rewrite !(u64_small a) by done. change (not64 _) with 0. now rewrite Z.land_0_r, Z.lor_0_r.
Qed.

(** What a store writes back to the double word [v] at [addr]. *)
Lemma store_result_spec op addr a v :
  is_u64 a -> is_u64 v ->
  store_result op addr a v =
  n ← Rv64.store_format op;
  Some (if Rv64.aligned n addr then inl (merged a v (addr mod 8) (Z.of_nat n))
        else inr (InvalidMemoryAccess op addr)).
Proof.
  intros Ha Hv.
  destruct op; try reflexivity; cbn [store_result Rv64.store_format mbind option_bind];
    rewrite ?(aligned_eq 2 2), ?(aligned_eq 4 4), ?(aligned_eq 8 8), ?aligned_1 by done;
    try destruct (Rv64.aligned _ addr) eqn:Hal; try reflexivity; cbn [negb]; do 2 f_equal.
  - unfold merged. now rewrite (Z.mul_comm (addr mod 8)).
  - now rewrite offset_2.
  - now rewrite offset_4.
  - pose proof (offset_8 addr Hal). replace (addr mod 8) with 0 by lia. symmetry. now apply merged_8.
Qed.

(** ** Theorems *)

(** C10. The value of every ALU instruction and the condition of every branch
    are those of the ISA manual: on all 64-bit operands [alu_result] is the
    reference value for each of the 28 ALU opcodes, with the special cases of
    division by zero and of overflow, the high halves of the products, the
    masked shift amounts and the sign-extended 32-bit results, and it is
    undefined on exactly the other opcodes; [branch_taken] likewise. *)
Theorem alu_matches_manual op b c :
  is_u64 b -> is_u64 c -> alu_result op b c = Rv64.alu op b c /\ branch_taken op b c = Rv64.branch op b c.
Proof. intros Hb Hc. split; [now apply alu_result_spec|now apply branch_taken_spec]. Qed.

Lemma alu_matches_manual_witness :
  alu_result DIV (2 ^ 63) (2 ^ 64 - 1) = Some (2 ^ 63) /\ Rv64.alu DIV (2 ^ 63) (2 ^ 64 - 1) = Some (2 ^ 63).
Proof.
  destruct (alu_matches_manual DIV (2 ^ 63) (2 ^ 64 - 1)) as [E _]; [unfold fits; lia..|].
  split; [rewrite E|]; vm_compute; reflexivity.
Defined.

(** C11. Loads and stores through double words are loads and stores of bytes.
    For a double word [v] in memory, [load_result] is the little-endian value of
    the addressed bytes, extended as the opcode says, and [store_result] is a
    double word whose bytes are those of memory after the byte store: the
    addressed bytes are replaced and the other bytes of the double word kept.
    Both report a misaligned access, and are undefined on exactly the other
    opcodes. *)
Theorem load_store_match_bytes op addr v a mem :
  is_u64 v -> is_u64 a -> (forall x, x / 8 = addr / 8 -> mem x = byte_of v x) ->
  load_result op addr v =
    ('(n, sign) ← Rv64.load_format op;
     Some (if Rv64.aligned n addr then inl (Rv64.load mem n sign addr) else inr (InvalidMemoryAccess op addr))) /\
  match Rv64.store_format op with
  | None => store_result op addr a v = None
  | Some n =>
      if Rv64.aligned n addr then exists w, store_result op addr a v = Some (inl w) /\ is_u64 w /\
        forall x, x / 8 = addr / 8 -> byte_of w x = Rv64.store mem n addr a x
      else store_result op addr a v = Some (inr (InvalidMemoryAccess op addr))
  end.
Proof.
  intros Hv Ha Hm. split; [now apply load_result_spec|]. rewrite store_result_spec by done.
  destruct (Rv64.store_format op) as [n|] eqn:Hf; [|done]. cbn [mbind option_bind].
  destruct (Rv64.aligned n addr) eqn:Hal; [|done]. eexists. split; [done|]. split; [now apply merged_u64|].
  intros x Hx. apply merged_bytes; [|done|now apply Hm]. apply aligned_inside; [|done].
  unfold width. destruct op; try discriminate; injection Hf as <-; lia.
Qed.

Lemma load_store_match_bytes_witness :
  store_result SH 0x1002 0xabcd 0x1122334455667788 = Some (inl 0x11223344abcd7788) /\
  Rv64.store (byte_of 0x1122334455667788) 2 0x1002 0xabcd 0x1003 = 0xab.
Proof.
  destruct (load_store_match_bytes SH 0x1002 0x1122334455667788 0xabcd (byte_of 0x1122334455667788))
    as [_ (w & Hw & _ & Hb)]; [unfold fits; lia..|done|].
  split; [vm_compute; reflexivity|]. rewrite <- Hb by reflexivity.
  assert (E : store_result SH 0x1002 0xabcd 0x1122334455667788 = Some (inl 0x11223344abcd7788))
    by (vm_compute; reflexivity).
  rewrite E in Hw. injection Hw as <-. vm_compute. reflexivity.
Defined.
