(* ===== verification/Logic.v ===== *)
(** * Logic: reasoning about programs of the executor monad

    [preserves R m]: whatever state [m] ends in, by a value or by an error, is
    related to the one it started from.  For a preorder [R] the judgement is
    closed under the combinators of the monad, so that a fact about [execute]
    is a fact about the accesses it is made of.  [eqv] is equality of programs
    from every state; with it the six access functions are put in one form,
    [access]. *)
From Stdlib Require Import ZArith Lia Bool.
From stdpp Require Import base numbers option list gmap.
From S2P Require Import Prelude Isa PagedMemory SyscallCode State ExecMemory Interpreter Cost Syscalls.

(** ** One program *)
Definition final {A} (r : res A) (P : Executor.t -> Prop) : Prop :=
  match r with Ret _ s | Err _ s => P s | Panic | OutOfFuel => True end.

Definition preserves (R : relation Executor.t) {A} (m : M A) : Prop := forall s, final (m s) (R s).

Section Preserves.
Context (R : relation Executor.t) `{!PreOrder R}.

Lemma preserves_ret {A} (a : A) : preserves R (ret a).
Proof. intros s. cbn. reflexivity. Qed.
Lemma preserves_throw {A} e : preserves R (throw (A := A) e).
Proof. intros s. cbn. reflexivity. Qed.
Lemma preserves_panic {A} : preserves R (panic (A := A)).
Proof. intros s. exact I. Qed.
Lemma preserves_gets {A} (f : Executor.t -> A) : preserves R (gets f).
Proof. intros s. cbn. reflexivity. Qed.
Lemma preserves_assert b : preserves R (assert b).
Proof. intros s. destruct b; cbn; [reflexivity|exact I]. Qed.
Lemma preserves_expect {A} (o : option A) : preserves R (expect o).
Proof. intros s. destruct o; cbn; [reflexivity|exact I]. Qed.
Lemma preserves_or_throw {A} (o : option (A + ExecutionError)) : preserves R (or_throw o).
Proof. intros s. destruct o as [[]|]; cbn; [reflexivity..|exact I]. Qed.
Lemma preserves_fuel {A} : preserves R (fun _ => OutOfFuel (A := A)).
Proof. intros s. exact I. Qed.

Lemma preserves_bind {A B} (m : M A) (k : A -> M B) :
  preserves R m -> (forall a, preserves R (k a)) -> preserves R (bind m k).
Proof.
  intros Hm Hk s. specialize (Hm s). unfold bind. destruct (m s) as [a s1|e s1| |]; try done.
  specialize (Hk a s1). destruct (k a s1); cbn in *; try done; etransitivity; eassumption.
Qed.

Lemma preserves_when b m : preserves R m -> preserves R (when b m).
Proof. intros Hm. destruct b; [done|apply preserves_ret]. Qed.

Lemma preserves_unwrap {A} (m : M A) : preserves R m -> preserves R (unwrap m).
Proof. intros Hm s. specialize (Hm s). unfold unwrap. now destruct (m s). Qed.

Lemma preserves_for_each {A} (l : list A) f : (forall x, preserves R (f x)) -> preserves R (for_each l f).
Proof.
  intros Hf. induction l as [|x l IH]; cbn; [apply preserves_ret|]. now apply preserves_bind.
Qed.

Lemma preserves_map_m {A B} (l : list A) (f : A -> M B) :
  (forall x, preserves R (f x)) -> preserves R (map_m l f).
Proof.
  intros Hf. induction l as [|x l IH]; cbn; [apply preserves_ret|].
  apply preserves_bind; [done|]. intros y. apply preserves_bind; [done|]. intros ys. apply preserves_ret.
Qed.

Lemma preserves_modify f : (forall s, R s (f s)) -> preserves R (modify f).
Proof. intros Hf s. apply Hf. Qed.
End Preserves.

Lemma preserves_impl (R R' : relation Executor.t) {A} (m : M A) :
  (forall s s', R s s' -> R' s s') -> preserves R m -> preserves R' m.
Proof. intros H Hm s. specialize (Hm s). destruct (m s); cbn in *; auto. Qed.

Create HintDb exec discriminated.
#[export] Hint Resolve preserves_ret preserves_throw preserves_panic preserves_gets preserves_assert
  preserves_expect preserves_or_throw preserves_fuel : exec.

(** Walk through a program; what remains are its updates. *)
Ltac walk_step :=
  match goal with
  | |- preserves _ (bind _ _) => apply preserves_bind; [apply _|..|intros ?]
  | |- preserves _ (when _ _) => apply preserves_when; [apply _|]
  | |- preserves _ (unwrap _) => apply preserves_unwrap
  | |- preserves _ (for_each _ _) => apply preserves_for_each; [apply _|intros ?]
  | |- preserves _ (map_m _ _) => apply preserves_map_m; [apply _|intros ?]
  | |- preserves _ (if ?b then _ else _) => destruct b
  | |- preserves _ (match ?x with _ => _ end) => destruct x
  | |- preserves _ (let _ := _ in _) => cbv zeta
  end.
Ltac walk := repeat (first [solve [eauto 2 with exec typeclass_instances] | walk_step]).

(** A part of the state that is not written. *)
Definition same {B} (f : Executor.t -> B) : relation Executor.t := fun s s' => f s' = f s.
#[export] Instance same_preorder {B} (f : Executor.t -> B) : PreOrder (same f).
Proof. split; [done|]. intros s1 s2 s3. unfold same. congruence. Qed.
Ltac walk_same := walk; try (apply preserves_modify; intros ?; reflexivity).

(** ** The accesses in one form *)

(** The common part of the accesses: find the entry of [l], then stamp it with
    a new value. *)
Definition access (E : ExecutorConfig) (b : bool) (l : loc) (v : Z -> Z) (f : bool) (ts : Z) : M MemoryEntry.t :=
  when b (save_checkpoint l) ;;!
  when (UNCONSTRAINED E) (save_fork l) ;;!
  let! prev := init_entry l in
  count_local_mem E prev f ;;!
  set_entry l (MemoryEntry.mk f ts (v (MemoryEntry.value prev))) ;;!
  ret prev.

(** Programs that are equal from every state. *)
Definition eqv {A} (m m' : M A) : Prop := forall s, m s = m' s.
Ltac solve_eqv :=
  intros ?; unfold rr, rw, rr_traced, rw_traced, mr, mw, access, bind, ret; cbv zeta beta;
  repeat (match goal with |- context [match ?m ?s with Ret _ _ => _ | _ => _ end] => destruct (m s) end);
  repeat match goal with x : unit |- _ => destruct x end; reflexivity.

Section Accesses.
Context (E : ExecutorConfig).

Lemma rr_eq r f ts : eqv (rr E r f ts)
  (let! prev := access E (is_checkpoint E || UNCONSTRAINED E) (inl r) (fun v => v) f ts in ret (MemoryEntry.value prev)).
Proof. solve_eqv. Qed.
Lemma rw_eq r v f ts : eqv (rw E r v f ts)
  (let! prev := access E (is_checkpoint E || UNCONSTRAINED E) (inl r) (fun _ => v) f ts in ret tt).
Proof. solve_eqv. Qed.
Lemma rr_traced_eq r f ts lma : eqv (rr_traced E r f ts lma)
  (let! prev := access E (is_checkpoint E || UNCONSTRAINED E) (inl r) (fun v => v) f ts in
   let record := MemoryEntry.mk f ts (MemoryEntry.value prev) in
   let! lma := if negb (UNCONSTRAINED E) && is_trace E then record_local lma r prev record else ret lma in
   ret (MemoryReadRecord.new record prev None, lma)).
Proof. solve_eqv. Qed.
Lemma rw_traced_eq r v f ts lma : eqv (rw_traced E r v f ts lma)
  (let! prev := access E (UNCONSTRAINED E) (inl r) (fun _ => v) f ts in
   let record := MemoryEntry.mk f ts v in
   let! lma := if negb (UNCONSTRAINED E) then record_local lma r prev record else ret lma in
   ret (MemoryWriteRecord.new record prev None, lma)).
Proof. solve_eqv. Qed.
Lemma mr_eq addr f ts lma : eqv (mr E addr f ts lma)
  (assert (negb (invalid_addr addr)) ;;!
   let! l := page_loc addr in
   let! prev := access E (is_checkpoint E || UNCONSTRAINED E) l (fun v => v) f ts in
   let record := MemoryEntry.mk f ts (MemoryEntry.value prev) in
   let! lma := if negb (UNCONSTRAINED E) && is_trace E then record_local lma addr prev record else ret lma in
   ret (MemoryReadRecord.new record prev None, lma)).
Proof. solve_eqv. Qed.
Lemma mw_eq addr v f ts lma : eqv (mw E addr v f ts lma)
  (assert (negb (invalid_addr addr)) ;;!
   let! l := page_loc addr in
   let! prev := access E (is_checkpoint E || UNCONSTRAINED E) l (fun _ => v) f ts in
   let record := MemoryEntry.mk f ts v in
   let! lma := if negb (UNCONSTRAINED E) && is_trace E then record_local lma addr prev record else ret lma in
   ret (MemoryWriteRecord.new record prev None, lma)).
Proof. solve_eqv. Qed.
End Accesses.
