(* ===== verification/Checkpoint.v ===== *)
(** * Checkpoint: the memory saved by checkpoints and by unconstrained blocks

    Two logs of the executor keep the entry a location had before its first
    access: [memory_checkpoint], from which [execute_state] builds the state a
    shard is replayed from, and [memory_diff], from which
    [enter_unconstrained] undoes an unconstrained block.  [logged] is what a
    log promises, and every operation keeps the promise. *)
From Stdlib Require Import ZArith Lia Bool.
From stdpp Require Import base numbers option list gmap.
From S2P Require Import Prelude Isa PagedMemory SyscallCode State ExecMemory Interpreter Cost Syscalls Samples Logic.

Abbreviation memory := (gmap loc MemoryEntry.t).
Abbreviation diff := (gmap loc (option MemoryEntry.t)).

Definition mem (s : Executor.t) : memory := ExecutionState.memory (Executor.state s).

(** From memory [m] with log [d] to memory [m'] with log [d']: the log grows,
    a location outside it is unchanged, and what is added is the old entry. *)
Record logged (d d' : diff) (m m' : memory) : Prop := {
  logged_grows : forall l o, d !! l = Some o -> d' !! l = Some o;
  logged_frame : forall l, d' !! l = None -> m' !! l = m !! l;
  logged_saved : forall l o, d !! l = None -> d' !! l = Some o -> o = m !! l }.

(** The two logs. *)
Inductive log := Ck | Fork.
Definition entries (g : log) (s : Executor.t) : diff :=
  match g with
  | Ck => Executor.memory_checkpoint s
  | Fork => ForkState.memory_diff (Executor.unconstrained_state s)
  end.
(** Where an unconstrained block was entered. *)
Definition point (g : log) (s : Executor.t) : option (Z * Z * Z) :=
  match g with
  | Ck => None
  | Fork =>
      let f := Executor.unconstrained_state s in
      Some (ForkState.global_clk f, ForkState.clk f, ForkState.pc f)
  end.

(** The page table has no entries below address 32: no access changes what is
    there.  [double_word] can be asked for such an address, so the checkpoint
    may record it; the diff of an unconstrained block does not. *)
Definition low (l : loc) : Prop := match l with inl _ => False | inr k => k < 4 end.
Definition lows (g : log) (s s' : Executor.t) : Prop :=
  forall l, low l -> mem s' !! l = mem s !! l /\ (g = Fork -> entries g s' !! l = entries g s !! l).

Definition logs (g : log) (s s' : Executor.t) : Prop :=
  logged (entries g s) (entries g s') (mem s) (mem s') /\ point g s' = point g s /\ lows g s s'.

(** Only the entry at [l] changes, and the log does not. *)
Definition touches (g : log) (l : loc) (s s' : Executor.t) : Prop :=
  entries g s' = entries g s /\ point g s' = point g s /\ forall l', l' <> l -> mem s' !! l' = mem s !! l'.

(** The modes in which every access is logged. *)
Definition saves (g : log) (E : ExecutorConfig) : Prop :=
  is_trace E = false /\
  match g with
  | Ck => is_checkpoint E || UNCONSTRAINED E
  | Fork => UNCONSTRAINED E
  end = true.

#[export] Instance logs_preorder g : PreOrder (logs g).
Proof.
  split.
  - intros s. now split; [split; congruence|].
  - intros s1 s2 s3 [[G1 F1 S1] [P1 L1]] [[G2 F2 S2] [P2 L2]]. split; [split|split; [congruence|]].
    + auto.
    + intros l Hl. assert (entries g s2 !! l = None) as H2.
      { destruct (entries g s2 !! l) eqn:E; [|done]. apply G2 in E. congruence. }
      rewrite F2 by done. auto.
    + intros l o H1 H3. destruct (entries g s2 !! l) as [o'|] eqn:E.
      * rewrite (G2 _ _ E) in H3. injection H3 as <-. now apply S1.
      * rewrite (S2 _ _ E H3). now apply F1.
    + intros l Hl. destruct (L1 l Hl) as [M1 E1], (L2 l Hl) as [M2 E2]. split; [congruence|].
      intros Hg. now rewrite E2, E1.
Qed.

#[export] Instance touches_preorder g l : PreOrder (touches g l).
Proof.
  split.
  - intros s. now split.
  - intros s1 s2 s3 (E1 & P1 & F1) (E2 & P2 & F2). split_and!; [congruence..|].
    intros l' Hl. now rewrite F2, F1.
Qed.

Lemma logs_same g s s' :
  entries g s' = entries g s -> point g s' = point g s -> mem s' = mem s -> logs g s s'.
Proof. intros H1 H2 H3. unfold logs, lows. rewrite H1, H3. now split; [split; congruence|]. Qed.

(** An update of neither memory nor logs. *)
Ltac leaf :=
  lazymatch goal with
  | |- preserves (logs ?g) _ => apply preserves_modify; intros ?; apply logs_same; destruct g; reflexivity
  | |- preserves (touches ?g _) _ => apply preserves_modify; intros ?; split_and!; destruct g; reflexivity
  end.
Ltac walk_logs := walk; try leaf.

(** Saving the entry of [l] allows what follows to change it. *)
Lemma save_then_touch g l s s1 s2 : ~ low l ->
  entries g s1 = or_insert l (entry_at l s) (entries g s) -> point g s1 = point g s -> mem s1 = mem s ->
  touches g l s1 s2 -> logs g s s2.
Proof.
  intros Hl H1 HP H2 (T1 & P1 & T2). unfold logs, lows, or_insert in *. rewrite T1, H1. split; [|split; [congruence|]].
  2: { intros l' Hl'. assert (l' <> l) by congruence. rewrite T2, H2 by done. split; [done|]. intros _.
       destruct (entries g s !! l); [done|]. now rewrite lookup_insert_ne. }
  destruct (entries g s !! l) as [o|] eqn:E.
  - split; [done| |congruence]. intros l' Hl'. rewrite T2, H2 by congruence. done.
  - split.
    + intros l' o Hl'. rewrite lookup_insert_ne by congruence. done.
    + intros l' Hl'. rewrite lookup_insert in Hl'. case_decide; [done|]. rewrite T2, H2 by done. done.
    + intros l' o Hn Hl'. rewrite lookup_insert in Hl'. case_decide; [|congruence].
      subst. now injection Hl' as <-.
Qed.

Lemma save_then {A} g E l (k : M A) : saves g E -> ~ low l -> preserves (touches g l) k ->
  preserves (logs g) (when (is_checkpoint E || UNCONSTRAINED E) (save_checkpoint l) ;;!
                      when (UNCONSTRAINED E) (save_fork l) ;;! k).
Proof.
  intros [_ HE] Hl Hk s.
  destruct g; rewrite HE; [destruct (UNCONSTRAINED E)|rewrite orb_true_r]; unfold bind, when, save_checkpoint, save_fork, modify, ret;
    cbn beta iota;
    (match goal with |- final (k ?s1) _ => pose proof (Hk s1) as Hs; destruct (k s1); cbn in *; try done end).
  all: eapply save_then_touch; [exact Hl| | | |exact Hs]; reflexivity.
Qed.
(** ** Accesses *)
Lemma set_entry_touches g l r : preserves (touches g l) (set_entry l r).
Proof.
  apply preserves_modify. intros s. split_and!; [now destruct g..|].
  intros l' Hl. unfold mem. cbn. now rewrite lookup_insert_ne.
Qed.
#[export] Hint Resolve set_entry_touches : exec.

Lemma init_entry_touches g l : preserves (touches g l) (init_entry l).
Proof. unfold init_entry. walk_logs. Qed.
Lemma count_local_mem_touches g l E r f : preserves (touches g l) (count_local_mem E r f).
Proof. unfold count_local_mem, upd_counts. walk_logs. Qed.
Lemma record_local_touches g l lma a r r' : preserves (touches g l) (record_local lma a r r').
Proof. unfold record_local. walk_logs. Qed.
#[export] Hint Resolve init_entry_touches count_local_mem_touches record_local_touches : exec.

Section Accesses.
Context (g : log) (E : ExecutorConfig) (HE : saves g E).

Lemma rr_logs r f ts : preserves (logs g) (rr E r f ts).
Proof. unfold rr. apply save_then; [done|intros []|]. walk_logs. Qed.
Lemma rr_traced_logs r f ts lma : preserves (logs g) (rr_traced E r f ts lma).
Proof. unfold rr_traced. apply save_then; [done|intros []|]. walk_logs. Qed.
Lemma rw_logs r v f ts : preserves (logs g) (rw E r v f ts).
Proof. unfold rw. apply save_then; [done|intros []|]. walk_logs. Qed.

Lemma page_loc_logs a : preserves (logs g) (page_loc a).
Proof. unfold page_loc. walk_logs. Qed.
Hint Resolve page_loc_logs : exec.

(** [mr] and [mw] accept no address of a register. *)
Lemma addressed_logs {A} addr (k : loc -> M A) : (forall l, ~ low l -> preserves (logs g) (k l)) ->
  preserves (logs g) (assert (negb (invalid_addr addr)) ;;! let! l := page_loc addr in k l).
Proof using.
  intros Hk s. unfold assert, page_loc, bind, invalid_addr, Register.X31.
  destruct (Z.leb_spec addr 31) as [|Ha]; [now rewrite orb_true_r|]. destruct (negb _); [|done]. cbn.
  destruct (addr <? _); [|done]. apply Hk. cbn. apply Z.le_ngt, Z.div_le_lower_bound; lia.
Qed.

Lemma mr_logs a f ts lma : preserves (logs g) (mr E a f ts lma).
Proof. unfold mr. apply addressed_logs. intros l Hl. apply save_then; [done..|]. walk_logs. Qed.
Lemma mw_logs a v f ts lma : preserves (logs g) (mw E a v f ts lma).
Proof. unfold mw. apply addressed_logs. intros l Hl. apply save_then; [done..|]. walk_logs. Qed.

(** Reads that are not part of the proof only save the entry. *)
Lemma save_checkpoint_logs l : preserves (logs g) (save_checkpoint l).
Proof.
  intros s. destruct g; cbn; [|now apply logs_same]. split; [|split; [done|now split]].
  change (mem (Executor.set_memory_checkpoint _ s)) with (mem s). unfold or_insert. cbn.
  destruct (Executor.memory_checkpoint s !! l) eqn:Hs; [split; congruence|]. split; [|done|].
  - intros l' o Hl'. rewrite lookup_insert_ne by congruence. done.
  - intros l' o Hn Hl'. rewrite lookup_insert in Hl'. case_decide; [|congruence]. subst. now injection Hl' as <-.
Qed.
Hint Resolve save_checkpoint_logs : exec.
Lemma register_logs r : preserves (logs g) (register E r).
Proof. unfold register. walk_logs. Qed.
Lemma double_word_logs a : preserves (logs g) (double_word E a).
Proof. unfold double_word. walk_logs. Qed.
Hint Resolve double_word_logs : exec.
Lemma byte_logs a : preserves (logs g) (byte E a).
Proof. unfold byte. walk_logs. Qed.

Lemma page_prot_access_logs p b f ts lpa : preserves (logs g) (page_prot_access E p b f ts lpa).
Proof. unfold page_prot_access, upd_state, upd_counts, upd_fork. walk_logs. Qed.
End Accesses.
#[export] Hint Resolve rr_logs rr_traced_logs rw_logs page_loc_logs mr_logs mw_logs register_logs
  double_word_logs byte_logs page_prot_access_logs : exec.

Section Cpu.
Context (g : log) (E : ExecutorConfig) (HE : saves g E).

Lemma mr_cpu_logs a : preserves (logs g) (mr_cpu E a).
Proof. unfold mr_cpu, timestamp, enable_untrusted_programs, upd_accesses. walk_logs. Qed.
Lemma mw_cpu_logs a v : preserves (logs g) (mw_cpu E a v).
Proof. unfold mw_cpu, timestamp, enable_untrusted_programs, upd_accesses. walk_logs. Qed.
Lemma rr_cpu_logs r p : preserves (logs g) (rr_cpu E r p).
Proof. unfold rr_cpu, timestamp, upd_accesses. walk_logs. Qed.

Lemma saves_not_trace : is_trace E = false.
Proof using HE. apply HE. Qed.
Lemma rw_cpu_logs r v : preserves (logs g) (rw_cpu E r v).
Proof. unfold rw_cpu, timestamp. rewrite saves_not_trace. walk_logs. Qed.
End Cpu.
#[export] Hint Resolve mr_cpu_logs mw_cpu_logs rr_cpu_logs rw_cpu_logs : exec.
(** ** Instructions and system calls *)
Section Instructions.
Context (g : log) (E : ExecutorConfig) (HE : saves g E).

Lemma operands_logs i :
  preserves (logs g) (Operands.r_type i) /\ preserves (logs g) (Operands.i_type i) /\
  preserves (logs g) (Operands.s_type i) /\ preserves (logs g) (Operands.j_type i).
Proof.
  unfold Operands.r_type, Operands.i_type, Operands.s_type, Operands.j_type, Operands.reg.
  split_and!; walk_logs.
Qed.

Lemma execute_alu_logs i : preserves (logs g) (execute_alu E i).
Proof.
  pose proof (operands_logs i) as (? & ? & _). unfold execute_alu, alu_rr, alu_rw. walk_logs.
Qed.
Lemma execute_load_logs i : preserves (logs g) (execute_load E i).
Proof. pose proof (operands_logs i) as (? & ? & _). unfold execute_load, load_rr. walk_logs. Qed.
Lemma execute_store_logs i : preserves (logs g) (execute_store E i).
Proof. pose proof (operands_logs i) as (? & ? & ? & _). unfold execute_store, store_rr. walk_logs. Qed.
Lemma execute_branch_logs i n : preserves (logs g) (execute_branch E i n).
Proof.
  pose proof (operands_logs i) as (_ & _ & ? & _). unfold execute_branch, branch_rr, get_pc. walk_logs.
Qed.
Lemma execute_jump_logs i : preserves (logs g) (execute_jump E i).
Proof. pose proof (operands_logs i) as (_ & ? & _ & ?). unfold execute_jump, get_pc. walk_logs. Qed.
Lemma fetch_logs : preserves (logs g) (fetch E).
Proof. unfold fetch, get_pc, timestamp, upd_counts, upd_accesses. walk_logs. Qed.
End Instructions.
#[export] Hint Resolve execute_alu_logs execute_load_logs execute_store_logs execute_branch_logs
  execute_jump_logs fetch_logs : exec.

Lemma hint_read_logs g c k a b : preserves (logs g) (hint_read_syscall c k a b).
Proof. unfold hint_read_syscall, hint_word, upd_state. walk_logs. Qed.
Lemma commit_logs g c k a b : preserves (logs g) (commit_syscall c k a b).
Proof. unfold commit_syscall, upd_record. walk_logs. Qed.
Lemma commit_deferred_logs g c k a b : preserves (logs g) (commit_deferred_proofs_syscall c k a b).
Proof. unfold commit_deferred_proofs_syscall, upd_record. walk_logs. Qed.
Lemma hint_len_logs g c k a b : preserves (logs g) (hint_len_syscall c k a b).
Proof. unfold hint_len_syscall. walk_logs. Qed.

Section Handlers.
Context (g : log) (E : ExecutorConfig) (HE : saves g E).

Lemma access_pages_logs l : forall c, preserves (logs g) (SyscallContext.access_pages E c l).
Proof. induction l as [|[p b] l IH]; intros c; cbn; walk_logs. Qed.
Hint Resolve access_pages_logs : exec.
Lemma slice_pages_logs c m : preserves (logs g) (SyscallContext.slice_pages E c m).
Proof. unfold SyscallContext.slice_pages, enable_untrusted_programs. walk_logs. Qed.
Lemma mr_words_logs n : forall c a, preserves (logs g) (SyscallContext.mr_words E c a n).
Proof. induction n as [|n IH]; intros c a; cbn; walk_logs. Qed.
Lemma mw_words_logs l : forall c a, preserves (logs g) (SyscallContext.mw_words E c a l).
Proof. induction l as [|v l IH]; intros c a; cbn; walk_logs. Qed.
Hint Resolve slice_pages_logs mr_words_logs mw_words_logs : exec.
Lemma mr_slice_logs c a n : preserves (logs g) (SyscallContext.mr_slice E c a n).
Proof. unfold SyscallContext.mr_slice. walk_logs. Qed.
Lemma mw_slice_logs c a l b : preserves (logs g) (SyscallContext.mw_slice E c a l b).
Proof. unfold SyscallContext.mw_slice. walk_logs. Qed.
Lemma page_prot_range_access_logs c a b p : preserves (logs g) (SyscallContext.page_prot_range_access E c a b p).
Proof. unfold SyscallContext.page_prot_range_access, enable_untrusted_programs. walk_logs. Qed.
Lemma ctx_rr_traced_logs c r : preserves (logs g) (SyscallContext.rr_traced E c r).
Proof. unfold SyscallContext.rr_traced. walk_logs. Qed.
Lemma ctx_postprocess_logs c : preserves (logs g) (SyscallContext.postprocess E c).
Proof. unfold SyscallContext.postprocess. rewrite (saves_not_trace g E HE). walk_logs. Qed.
Hint Resolve mr_slice_logs mw_slice_logs page_prot_range_access_logs ctx_rr_traced_logs ctx_postprocess_logs : exec.

Lemma interp_logs code a b p : forall c, preserves (logs g) (Api.interp E code a b p c).
Proof.
  induction p; intros c; cbn [Api.interp]; rewrite ?(saves_not_trace g E HE); walk_logs; apply H.
Qed.

Lemma write_logs c k a b : preserves (logs g) (write_syscall E c k a b).
Proof.
  unfold write_syscall, handle_cycle_tracker_command, start_cycle_tracker, end_cycle_tracker,
    update_io_buf, push_results, upd_state, upd_report. walk_logs.
Qed.
Lemma verify_logs c k a b : preserves (logs g) (verify_syscall E c k a b).
Proof. unfold verify_syscall, upd_state. walk_logs. Qed.
Lemma mprotect_logs c k a b : preserves (logs g) (mprotect_syscall E c k a b).
Proof. unfold mprotect_syscall, upd_state. rewrite (saves_not_trace g E HE). walk_logs. Qed.
End Handlers.

(** ** Putting the saved entries back

    Distinct locations stay distinct by address, but for a register whose
    number is the address of a double word of the page table. *)
Lemma by_address_cases l : by_address l = l \/ (low l /\ by_address l = inl (addr_of l)).
Proof.
  unfold by_address. destruct l as [r|k]; cbn.
  - left. now destruct (r <? 32).
  - destruct (Z.ltb_spec (k * 8) 32); [right; split; [lia|done]|now left].
Qed.
Lemma by_address_high l : ~ low l -> by_address l = l.
Proof. intros Hl. now destruct (by_address_cases l) as [|[]]. Qed.
Lemma by_address_low k : k < 4 -> by_address (inr k) = inl (k * 8).
Proof. intros Hk. unfold by_address. cbn. now destruct (Z.ltb_spec (k * 8) 32); [|lia]. Qed.

Lemma elem_of_into_iter {A} (m : gmap loc A) l v : (l, v) ∈ into_iter m <-> m !! l = Some v.
Proof.
  unfold into_iter. rewrite elem_of_app, !list_elem_of_omap, <- elem_of_map_to_list. split.
  - intros [([l' v'] & H & E)|([l' v'] & H & E)]; destruct l'; simplify_eq; done.
  - intros H. destruct l; [left|right]; (eexists; split; [exact H|done]).
Qed.

(** Writing the entries of a list, one after the other. *)
Lemma put_back_lookup m l o l' : put_back m (l, o) !! l' = if decide (by_address l = l') then o else m !! l'.
Proof. unfold put_back. cbn. destruct o; [apply lookup_insert|apply lookup_delete]. Qed.

Lemma put_back_other items m l : (forall x, x ∈ items -> by_address x.1 <> l) -> foldl put_back m items !! l = m !! l.
Proof.
  revert m. induction items as [|[l' o] items IH]; intros m H; [done|]. cbn. rewrite IH by set_solver.
  rewrite put_back_lookup, decide_False; [done|]. apply (H (l', o)). set_solver.
Qed.
Lemma put_back_in items m l o : (l, o) ∈ items ->
  (forall x, x ∈ items -> by_address x.1 = by_address l -> x.2 = o) -> foldl put_back m items !! by_address l = o.
Proof.
  induction items as [|x items IH] using rev_ind; intros Hin Hx; [now apply elem_of_nil in Hin|].
  rewrite foldl_snoc. destruct x as [l' o']. rewrite put_back_lookup. case_decide as E.
  - apply (Hx (l', o')); set_solver.
  - apply IH; [|intros y Hy; apply Hx; set_solver]. apply elem_of_app in Hin as [|Hin]; [done|].
    apply list_elem_of_singleton in Hin. congruence.
Qed.

(** The page table comes after the registers. *)
Lemma restore_split d m : exists regs pages, restore_memory d m = foldl put_back (foldl put_back m regs) pages /\
  (forall l o, (l, o) ∈ regs <-> d !! l = Some o /\ exists r, l = inl r) /\
  (forall l o, (l, o) ∈ pages <-> d !! l = Some o /\ exists k, l = inr k).
Proof.
  unfold restore_memory, into_iter. do 2 eexists. split; [apply foldl_app|].
  split; intros l o; rewrite list_elem_of_omap; split.
  1, 3: intros ([l' v'] & H%elem_of_map_to_list & E); destruct l'; simplify_eq; eauto.
  all: intros [H%elem_of_map_to_list [x ->]]; (eexists; split; [exact H|done]).
Qed.

(** The double word recorded at the address that is the number of a register. *)
Definition shadow (d : diff) (r : Z) : option (option MemoryEntry.t) :=
  if (r mod 8 =? 0) && (r <? 32) then d !! (inr (r / 8) : loc) else None.

Lemma by_address_register k r : by_address (inr k) = inl r <-> k < 4 /\ r = k * 8.
Proof.
  unfold by_address. cbn. destruct (Z.ltb_spec (k * 8) 32); (split; [intros [=]|intros [Hk ->]; try done]); lia.
Qed.
Lemma shadow_spec d r o : shadow d r = Some o <-> exists k, d !! (inr k : loc) = Some o /\ by_address (inr k) = inl r.
Proof.
  unfold shadow. setoid_rewrite by_address_register. pose proof (Z.div_mod r 8).
  destruct (Z.eqb_spec (r mod 8) 0), (Z.ltb_spec r 32); cbn; (split; [try done|]).
  - intros Hd. exists (r / 8). split; [done|lia].
  - intros (k & Hd & Hk & ->). now rewrite Z.div_mul by lia.
  - intros (k & _ & Hk & ->). lia.
  - intros (k & _ & _ & ->). now rewrite Z.mod_mul in * by lia.
  - intros (k & _ & _ & ->). now rewrite Z.mod_mul in * by lia.
Qed.

Lemma restore_register d m r : restore_memory d m !! (inl r : loc) =
  default (default (m !! (inl r : loc)) (d !! (inl r : loc))) (shadow d r).
Proof.
  destruct (restore_split d m) as (regs & pages & -> & Hr & Hp). destruct (shadow d r) as [o|] eqn:Hs; cbn.
  - apply shadow_spec in Hs as (k & Hd & Hk). rewrite <- Hk. apply put_back_in; [apply Hp; eauto|].
    intros [l o'] [Hl [k' ->]]%Hp E. cbn in *. rewrite Hk in E.
    apply by_address_register in E as [_ ->], Hk as [_ Hk]. assert (k' = k) as -> by lia. congruence.
  - rewrite put_back_other.
    2: { intros [l o] [Hl [k ->]]%Hp E. assert (shadow d r = Some o); [|congruence]. apply shadow_spec. eauto. }
    assert (forall x, by_address (inl x) = inl x) as Hx by (intros x; apply by_address_high; intros []).
    destruct (d !! inl r) as [o|] eqn:Hd; cbn.
    + rewrite <- Hx. apply put_back_in; [apply Hr; eauto|].
      intros [l o'] [Hl [r' ->]]%Hr E. cbn in *. rewrite !Hx in E. congruence.
    + apply put_back_other. intros [l o] [Hl [r' ->]]%Hr E. cbn in *. rewrite Hx in E. congruence.
Qed.

Lemma restore_page d m k : restore_memory d m !! (inr k : loc) =
  if decide (k < 4) then m !! (inr k : loc) else default (m !! (inr k : loc)) (d !! (inr k : loc)).
Proof.
  destruct (restore_split d m) as (regs & pages & -> & Hr & Hp).
  assert (forall x, x ∈ regs -> by_address x.1 <> inr k) as Hregs.
  { intros [l o] [Hl [r ->]]%Hr. cbn. now rewrite by_address_high by (intros []). }
  assert (forall k' o, (inr k', o) ∈ pages -> by_address (inr k') = inr k -> k' = k /\ ~ k' < 4) as Hpages.
  { intros k' o _ E. destruct (by_address_cases (inr k')) as [E'|[_ E']]; [|congruence].
    split; [congruence|]. intros Hk. rewrite by_address_low in E by done. done. }
  case_decide as Hk; [|destruct (d !! inr k) as [o|] eqn:Hd; cbn].
  - rewrite !put_back_other; [done|done|]. intros [l o] Hin E. pose proof Hin as [_ [k' ->]]%Hp.
    destruct (Hpages k' o Hin E) as [-> ?]. done.
  - rewrite <- (by_address_high (inr k)) by done. apply put_back_in; [apply Hp; eauto|].
    intros [l o'] Hin E. pose proof Hin as [Hl [k' ->]]%Hp. rewrite (by_address_high (inr k)) in E by done.
    destruct (Hpages k' o' Hin E) as [-> _]. cbn in *. congruence.
  - rewrite !put_back_other; [done|done|]. intros [l o] Hin E. pose proof Hin as [Hl [k' ->]]%Hp.
    destruct (Hpages k' o Hin E) as [-> _]. congruence.
Qed.

(** A diff without low entries is undone exactly. *)
Lemma restore_logged d m m' : logged ∅ d m m' -> (forall l, low l -> d !! l = None) -> restore_memory d m' = m.
Proof.
  intros [_ F S] L. apply map_eq.
  assert (forall l, default (m' !! l) (d !! l) = m !! l) as D.
  { intros l. destruct (d !! l) as [o|] eqn:E; [|now apply F]. apply S; [apply lookup_empty|done]. }
  intros [r|k].
  - rewrite restore_register. destruct (shadow d r) as [o|] eqn:Hs; [|apply D].
    apply shadow_spec in Hs as (k & Hd & [Hk _]%by_address_register). rewrite (L (inr k) Hk) in Hd. done.
  - rewrite restore_page. case_decide as Hk; [|apply D]. apply F. now apply L.
Qed.

(** The state an unconstrained block leaves: memory, program counter and
    clocks are those it was entered with. *)
Definition resumes (s s' : Executor.t) : Prop :=
  mem s' = mem s /\
  ExecutionState.pc (Executor.state s') = ExecutionState.pc (Executor.state s) /\
  ExecutionState.clk (Executor.state s') = ExecutionState.clk (Executor.state s) /\
  ExecutionState.global_clk (Executor.state s') = ExecutionState.global_clk (Executor.state s).

(** From the fork to the end of the block. *)
Definition forked (s : Executor.t) : Executor.t :=
  Executor.set_unconstrained_state
    (ForkState.mk (ExecutionState.global_clk (Executor.state s)) (ExecutionState.clk (Executor.state s))
       (ExecutionState.pc (Executor.state s)) ∅ ∅) s.
Definition block (run : M unit) : M unit :=
  rw_cpu Unconstrained Register.X5 1 ;;!
  upd_state (fun st => ExecutionState.set_pc (ExecutionState.pc st +ₗ 4) st) ;;!
  unwrap run.

Lemma unconstrained_saves g : saves g Unconstrained.
Proof. now destruct g. Qed.
Lemma checkpoint_saves : saves Ck Checkpoint.
Proof. done. Qed.
#[export] Hint Resolve unconstrained_saves checkpoint_saves : exec.

Lemma block_logs g run : preserves (logs g) run -> preserves (logs g) (block run).
Proof. intros Hrun. unfold block, upd_state. walk_logs. Qed.

Lemma enter_eq E run c k a b s :
  UNCONSTRAINED E = false ->
  enter_unconstrained_syscall E run c k a b s =
  match block run (forked s) with
  | Ret _ s1 =>
      let fork := Executor.unconstrained_state s1 in
      let st := Executor.state s1 in
      Ret (Some 0, SyscallContext.set_next_pc (ForkState.pc fork +ₗ 4) c)
        (Executor.set_unconstrained_state ForkState.default
           (Executor.set_state
              (ExecutionState.set_page_prots
                 (restore_page_prots (ForkState.page_prots_diff fork) (ExecutionState.page_prots st))
                 (ExecutionState.set_memory (restore_memory (ForkState.memory_diff fork) (ExecutionState.memory st))
                    (ExecutionState.set_pc (ForkState.pc fork)
                       (ExecutionState.set_clk (ForkState.clk fork)
                          (ExecutionState.set_global_clk (ForkState.global_clk fork) st))))) s1))
  | Err e s1 => Err e s1
  | Panic => Panic
  | OutOfFuel => OutOfFuel
  end.
Proof.
  intros HE. unfold enter_unconstrained_syscall, assert, block. rewrite HE. cbn [negb].
  unfold forked, bind, ret, modify, upd_state, gets. destruct (rw_cpu _ _ _ _); try reflexivity.
Qed.

Lemma enter_spec E run c k a b s r s' :
  UNCONSTRAINED E = false -> preserves (logs Fork) run ->
  enter_unconstrained_syscall E run c k a b s = Ret r s' ->
  resumes s s' /\ r = (Some 0, SyscallContext.set_next_pc (ExecutionState.pc (Executor.state s) +ₗ 4) c).
Proof.
  intros HE Hf. rewrite enter_eq by done.
  pose proof (block_logs Fork run Hf (forked s)) as B. destruct (block run (forked s)) as [[] s1| | |]; try done.
  destruct B as [L [P Lo]]. injection P as Pg Pc Pp.
  apply restore_logged in L; [|intros l Hl; destruct (Lo l Hl) as [_ Hd]; rewrite Hd by done; apply lookup_empty].
  intros [= <- <-]. split; [split_and!; [exact L|exact Pp|exact Pc|exact Pg]|]. now rewrite Pp.
Qed.

Lemma enter_logs g E run c k a b :
  saves g E -> (UNCONSTRAINED E = false -> preserves (logs Ck) run /\ preserves (logs Fork) run) ->
  preserves (logs g) (enter_unconstrained_syscall E run c k a b).
Proof.
  intros [_ HE] Hrun s. destruct (UNCONSTRAINED E) eqn:HU.
  { unfold enter_unconstrained_syscall, assert. rewrite HU. exact I. }
  destruct Hrun as [Hc Hf]; [done|]. destruct g; [|congruence].
  pose proof (enter_spec E run c k a b s) as S. rewrite enter_eq in * by done.
  pose proof (block_logs Ck run Hc (forked s)) as B. destruct (block run (forked s)) as [[] s1|e s1| |]; try done.
  destruct B as [[G F S'] _]. specialize (S _ _ HU Hf eq_refl) as [(Hm & _) _].
  split; [split; [exact G| |exact S']; intros l _; now rewrite Hm|]. split; [done|].
  intros l _. now rewrite Hm.
Qed.

Section Machine.
Context (precompile : SyscallCode.t -> Z -> Z -> Api.t) (g : log) (E : ExecutorConfig) (HE : saves g E).
Context (run : M unit).
Context (Hrun : UNCONSTRAINED E = false -> preserves (logs Ck) run /\ preserves (logs Fork) run).

Lemma get_syscall_logs code c a b : preserves (logs g) (get_syscall precompile run E code c code a b).
Proof.
  destruct code; cbn [get_syscall]; first
    [now apply interp_logs|now apply enter_logs|now apply write_logs|now apply mprotect_logs|now apply verify_logs
    |apply commit_logs|apply commit_deferred_logs|apply hint_len_logs|apply hint_read_logs
    |unfold halt_syscall, exit_unconstrained_syscall; cbv beta; solve [walk_logs]].
Qed.
Hint Resolve get_syscall_logs : exec.

Lemma execute_ecall_logs : preserves (logs g) (execute_ecall precompile run E).
Proof. unfold execute_ecall, upd_report, upd_state, upd_counts. walk_logs. Qed.
Hint Resolve execute_ecall_logs : exec.

Lemma execute_instruction_logs i : preserves (logs g) (execute_instruction precompile run E i).
Proof.
  pose proof (operands_logs g i) as (_ & _ & _ & ?).
  unfold execute_instruction, dispatch_instruction, retire_instruction, count_instruction, get_pc, upd_report, upd_counts, upd_state.
  rewrite (saves_not_trace g E HE). walk_logs.
Qed.
End Machine.
#[export] Hint Resolve execute_instruction_logs : exec.

Lemma run_unconstrained_logs precompile g fuel : preserves (logs g) (run_unconstrained precompile fuel).
Proof.
  induction fuel as [|fuel IH]; cbn [run_unconstrained]; [walk_logs|]. unfold get_pc. walk_logs.
  apply execute_instruction_logs; [auto with exec|discriminate].
Qed.
#[export] Hint Resolve run_unconstrained_logs : exec.

(** ** Shards *)
Lemma size_reached_logs g : preserves (logs g) size_reached.
Proof. unfold size_reached, update_event_counts. walk_logs. Qed.
Lemma bump_record_logs g E : is_trace E = false -> preserves (logs g) (bump_record E).
Proof. intros HE. unfold bump_record, update_event_counts, upd_record. rewrite HE. walk_logs. Qed.
#[export] Hint Resolve size_reached_logs bump_record_logs : exec.

Lemma push_event_logs g e : preserves (logs g) (push_event e).
Proof. unfold push_event, upd_record. leaf. Qed.
#[export] Hint Resolve push_event_logs : exec.
Lemma postprocess_logs g E : preserves (logs g) (postprocess E).
Proof.
  unfold postprocess, emit_global_memory, emit_global_page_prots, upd_report. walk_logs.
Qed.
#[export] Hint Resolve postprocess_logs : exec.

Section Shard.
Context (precompile : SyscallCode.t -> Z -> Z -> Api.t) (fuel : nat).

Lemma finish_shard_logs : preserves (logs Ck) (finish_shard Checkpoint).
Proof. unfold finish_shard, upd_state, upd_record. cbn [is_trace]. walk_logs. Qed.
Hint Resolve finish_shard_logs : exec.

Lemma execute_cycle_logs : preserves (logs Ck) (execute_cycle precompile fuel Checkpoint).
Proof.
  unfold execute_cycle, get_pc, upd_state. walk_logs.
  apply execute_instruction_logs; [auto with exec|]. split; apply run_unconstrained_logs.
Qed.
Hint Resolve execute_cycle_logs : exec.

Lemma execute_loop_logs n : preserves (logs Ck) (execute_loop precompile fuel Checkpoint n).
Proof. induction n as [|n IH]; cbn [execute_loop]; walk_logs. Qed.
Hint Resolve execute_loop_logs : exec.

(** The state the shard starts from, after [initialize] for the first one. *)
Definition shard_start : M unit :=
  upd_state (ExecutionState.set_shard_finished false) ;;!
  let! global_clk := gets (fun s => ExecutionState.global_clk (Executor.state s)) in
  when (global_clk =? 0) initialize.

Lemma execute_eq : exists k, preserves (logs Ck) k /\
  forall s, execute precompile fuel Checkpoint s = (shard_start ;;! k) s.
Proof.
  eexists. split; [|intros s; reflexivity].
  unfold upd_record, upd_state. walk_logs.
Qed.
End Shard.

(** ** Theorems *)

Definition low_empty (m : memory) : Prop := forall l, low l -> m !! l = None.

(** The memory of the checkpoint [execute_state] returns, against the memory
    [m0] at the start of the shard, [m1] at its end and the entries [d] recorded
    between: a register is lost when the double word at the address that is its
    number was recorded. *)
Definition checkpoint_memory_ok (complete : bool) (d : diff) (m0 m1 m : memory) : Prop :=
  forall l, if complete then m !! l = match l with
                                      | inl r => if shadow d r is Some _ then None else m0 !! l
                                      | inr _ => m0 !! l
                                      end
            else m !! l = m0 !! l \/ (m !! l = None /\ m1 !! l = m0 !! l).

Lemma from_iter_put_back (items : list (loc * MemoryEntry.t)) :
  from_iter items = foldl put_back ∅ (prod_map id Some <$> items).
Proof.
  unfold from_iter. generalize (∅ : memory) as m. induction items as [|[l v] items IH]; intros m; [done|]. apply IH.
Qed.

(** Without low entries to insert, the entries that were there are collected. *)
Lemma collected_lookup (d : diff) l : (forall l v, low l -> d !! l <> Some (Some v)) ->
  from_iter (omap (fun '(l, record) => pair l <$> record) (into_iter d)) !! l = default None (d !! l).
Proof.
  intros Hd. rewrite from_iter_put_back. set (items := prod_map id Some <$> _).
  assert (forall l' o, (l', o) ∈ items <-> exists v, o = Some v /\ d !! l' = Some (Some v)) as Hin.
  { intros l' o. unfold items. rewrite list_elem_of_fmap. setoid_rewrite list_elem_of_omap. split.
    - intros ([? v] & [= -> ->] & [l'' [v'|]] & H%elem_of_into_iter & [= -> ->]). eauto.
    - intros (v & -> & H%elem_of_into_iter). exists (l', v). split; [done|]. exists (l', Some v). eauto. }
  assert (forall l' o, (l', o) ∈ items -> by_address l' = l') as Hhigh.
  { intros l' o (v & _ & H)%Hin. apply by_address_high. intros Hl. now apply (Hd l' v). }
  clearbody items. destruct (d !! l) as [[v|]|] eqn:E; cbn.
  1: assert ((l, Some v) ∈ items) as Hl by (apply Hin; eauto).
  1: rewrite <- (Hhigh _ _ Hl); apply put_back_in; [done|]; rewrite (Hhigh _ _ Hl).
  2, 3: rewrite put_back_other; [apply lookup_empty|].
  all: intros [l' o] H E'; cbn in *; pose proof H as (v' & -> & H')%Hin; rewrite (Hhigh _ _ H) in E'; congruence.
Qed.

Lemma logged_checkpoint (complete : bool) d m0 m1 :
  logged ∅ d m0 m1 -> low_empty m0 -> (forall l, low l -> m1 !! l = m0 !! l) ->
  checkpoint_memory_ok complete d m0 m1
    (if complete then restore_memory d m1
     else from_iter (omap (fun '(l, record) => pair l <$> record) (into_iter d))).
Proof.
  intros [_ F S] He Hl.
  assert (forall l o, d !! l = Some o -> o = m0 !! l) as Hs by (intros l o H; apply S; [apply lookup_empty|done]).
  assert (forall l, default (m1 !! l) (d !! l) = m0 !! l) as D.
  { intros l. destruct (d !! l) as [o|] eqn:E; [now apply Hs|now apply F]. }
  intros l. destruct complete; [destruct l as [r|k]|].
  - rewrite restore_register. destruct (shadow d r) as [o|] eqn:Er; [|apply D].
    apply shadow_spec in Er as (k & Hk & [? _]%by_address_register). cbn. rewrite (Hs _ _ Hk). now apply He.
  - rewrite restore_page. case_decide; [now apply Hl|apply D].
  - rewrite collected_lookup.
    + destruct (d !! l) as [o|] eqn:E; cbn; [left; now apply Hs|right; split; [done|now apply F]].
    + intros l' v Hl' E. apply Hs in E. now rewrite He in E.
Qed.

Lemma shard_start_entries s s1 : shard_start s = Ret tt s1 -> entries Ck s1 = entries Ck s.
Proof.
  assert (preserves (same (entries Ck)) shard_start) as H.
  { unfold shard_start, initialize, set_entry, upd_state. walk_same. }
  specialize (H s). intros E. now rewrite E in H.
Qed.
Lemma loc_of_high addr l : loc_of addr = Some l -> ~ low l.
Proof.
  unfold loc_of. destruct (Z.ltb_spec addr 32); [intros [= <-] []|].
  destruct (addr <? _); [|done]. intros [= <-]. cbn. apply Z.le_ngt, Z.div_le_lower_bound; lia.
Qed.
Lemma set_entry_kept l l' e : low l -> ~ low l' -> preserves (same (fun s => mem s !! l)) (set_entry l' e).
Proof.
  intros Hl Hl'. apply preserves_modify. intros s. unfold same, mem. cbn. rewrite lookup_insert_ne; [done|congruence].
Qed.
Lemma shard_start_low l s s1 : low l -> shard_start s = Ret tt s1 -> mem s1 !! l = mem s !! l.
Proof.
  intros Hl. assert (preserves (same (fun s => mem s !! l)) shard_start) as H.
  { assert (forall addr value, preserves (same (fun s => mem s !! l))
      (let! l' := expect (loc_of addr) in set_entry l' (MemoryEntry.init value))) as Hload.
    { intros addr value s0. unfold bind, expect. destruct (loc_of addr) as [l'|] eqn:E; [|done].
      apply set_entry_kept; [done|]. now apply loc_of_high in E. }
    unfold shard_start, initialize, upd_state. walk_same. apply set_entry_kept; [done|intros []]. }
  specialize (H s). intros E. now rewrite E in H.
Qed.

(** C5. A checkpoint carries the memory of the start of its shard, but for
    registers whose number is an address the shard has read.  Whatever the
    program, the precompiles and the bound on the cycles, when [execute_state]
    returns from a state whose page table has no entry below 32 (there is none
    afterwards either), its checkpoint has the program counter and clocks of
    the state it was called in.  When the program is not done, or the global
    memory events are emitted, its memory holds, for every location, the entry
    at the start of the shard (after [initialize] for the first one) or
    nothing, the latter only where the shard left the entry as it was.  When
    the program is done and they are not emitted, it is the memory at the start
    of the shard, although the shard has run since, except that [x0], [x8],
    [x16] and [x24] are removed when the double word at address 0, 8, 16 or 24
    is among the recorded ones: it is put back by address, and the addresses
    below 32 are registers. *)
Theorem checkpoint_restores_memory precompile fuel emit s ck pv done s' :
  low_empty (mem s) ->
  execute_state precompile fuel emit s = Ret (ck, pv, done) s' ->
  ExecutionState.pc ck = ExecutionState.pc (Executor.state s) /\
  ExecutionState.clk ck = ExecutionState.clk (Executor.state s) /\
  ExecutionState.global_clk ck = ExecutionState.global_clk (Executor.state s) /\
  low_empty (mem s') /\
  let s0 := Executor.set_emit_global_memory_events emit (Executor.set_memory_checkpoint ∅ s) in
  exists s1 s2, shard_start s0 = Ret tt s1 /\ execute precompile fuel Checkpoint s0 = Ret done s2 /\
    checkpoint_memory_ok (done && negb emit) (Executor.memory_checkpoint s2) (mem s1) (mem s')
      (ExecutionState.memory ck).
Proof.
  intros He. unfold execute_state. set (s0 := Executor.set_emit_global_memory_events _ _).
  destruct (execute_eq precompile fuel) as (k & Hk & Heq).
  unfold get_pc, modify, gets, bind at 1 2 3 4 5 6 7 8 9 10. cbn beta iota. fold s0.
  destruct (execute precompile fuel Checkpoint s0) as [d s2|e s2| |] eqn:Hx; try discriminate.
  pose proof Hx as Hx'. rewrite Heq in Hx'. unfold bind in Hx'.
  destruct (shard_start s0) as [[] s1|e s1| |] eqn:Hs; try discriminate.
  specialize (Hk s1). rewrite Hx' in Hk. destruct Hk as (L & _ & Lo).
  assert (low_empty (mem s1)) as He1 by (intros l Hl; rewrite (shard_start_low l s0 s1 Hl Hs); now apply He).
  assert (low_empty (mem s2)) as He2 by (intros l Hl; destruct (Lo l Hl) as [-> _]; now apply He1).
  rewrite (shard_start_entries s0 s1 Hs) in L.
  apply (logged_checkpoint (d && negb emit)) in L; [|done|intros l Hl; apply Lo, Hl].
  unfold bind, ret. cbn beta iota. destruct (d && negb emit) eqn:Hd.
  - intros [= <- <- <- <-]. split_and!; [done..|]. exists s1, s2. now rewrite Hd.
  - match goal with |- context [map_m ?l ?f ?s] =>
      assert (preserves (same id) (map_m l f)) as P
        by (apply preserves_map_m; [apply _|]; intros [] ?; unfold expect; now destruct (_ !! _)); specialize (P s); destruct (map_m l f s)
    end; try discriminate. unfold same, id in P. cbn [final] in P. subst. intros [= <- <- <- <-].
    split_and!; [done..|]. exists s1, s2. now rewrite Hd.
Qed.

Definition low_emptyb (m : memory) : bool :=
  forallb (fun x => match x.1 with inl _ => true | inr k => 4 <=? k end) (map_to_list m).
Lemma low_emptyb_sound m : low_emptyb m = true -> low_empty m.
Proof.
  unfold low_emptyb. rewrite forallb_forall. intros H [r|k] Hk; [destruct Hk|].
  destruct (m !! inr k) as [e|] eqn:E; [|done]. apply elem_of_map_to_list, list_elem_of_In, H in E. cbn in *. lia.
Qed.

Lemma checkpoint_restores_memory_witness : exists ck s1 s2 s',
  shard_start (Executor.set_emit_global_memory_events false (Executor.set_memory_checkpoint ∅ low_write)) = Ret tt s1 /\
  checkpoint_memory_ok true (Executor.memory_checkpoint s2) (mem s1) (mem s') (ExecutionState.memory ck) /\
  MemoryEntry.value <$> ExecutionState.memory ck !! (inl 5 : loc) = Some 9 /\
  MemoryEntry.value <$> ExecutionState.memory ck !! (inr 0x201 : loc) = Some 6 /\
  ExecutionState.memory ck !! (inl 8 : loc) = None.
Proof.
  assert (H : match execute_state no_precompile 20 false low_write with
              | Ret (ck, _, done) _ =>
                  let value l := MemoryEntry.value <$> ExecutionState.memory ck !! (l : loc) in
                  done && bool_decide (value (inl 5) = Some 9 /\ value (inr 0x201) = Some 6 /\
                    ExecutionState.memory ck !! (inl 8 : loc) = None)
              | _ => false
              end = true) by (vm_compute; reflexivity).
  destruct (execute_state no_precompile 20 false low_write) as [[[ck pv] done] s'| | |] eqn:E; [|discriminate H..].
  apply andb_true_iff in H as [-> Hb]. apply bool_decide_eq_true in Hb.
  destruct (checkpoint_restores_memory no_precompile 20 false low_write ck pv true s')
    as (_ & _ & _ & _ & s1 & s2 & H1 & _ & H2); [|exact E|exists ck, s1, s2, s'; auto].
  apply low_emptyb_sound. vm_compute. reflexivity.
Defined.

(** C6. An unconstrained block leaves no trace in the machine state.  In any
    constrained mode, when the handler of [ENTER_UNCONSTRAINED] returns, after
    the block has run any number of instructions, with any registers and
    memory written by them, memory (every entry, with its timestamp), program
    counter, clock and global clock are those the block was entered with; the
    call returns 0 and continues at the next instruction. *)
Theorem unconstrained_block_resumes precompile fuel E c code a b s r s' :
  UNCONSTRAINED E = false ->
  enter_unconstrained_syscall E (run_unconstrained precompile fuel) c code a b s = Ret r s' ->
  resumes s s' /\ r = (Some 0, SyscallContext.set_next_pc (ExecutionState.pc (Executor.state s) +ₗ 4) c).
Proof. intros HE. apply enter_spec; auto with exec. Qed.

Definition is_some {A} (o : option A) : bool := match o with Some _ => true | None => false end.

(** The sample program at its first system call. *)
Definition sample_fork : Executor.t :=
  Executor.set_state (ExecutionState.set_pc 0x104 (Executor.state (sample 0 0))) (sample 0 0).

Lemma unconstrained_block_resumes_witness : exists s',
  resumes sample_fork s' /\ option_map is_some (Executor.memory_checkpoint s' !! (inr 0x201 : loc)) = Some false.
Proof.
  set (m := enter_unconstrained_syscall Simple (run_unconstrained no_precompile 20)
              (SyscallContext.new sample_fork true) SyscallCode.ENTER_UNCONSTRAINED 0 0).
  assert (H : match m sample_fork with
              | Ret _ s' => bool_decide (option_map is_some (Executor.memory_checkpoint s' !! (inr 0x201 : loc)) = Some false)
              | _ => false
              end = true) by (vm_compute; reflexivity).
  destruct (m sample_fork) as [r s'| | |] eqn:E; [|discriminate H..]. apply bool_decide_eq_true in H.
  exists s'. split; [|exact H].
  now apply (unconstrained_block_resumes no_precompile 20 Simple (SyscallContext.new sample_fork true)
               SyscallCode.ENTER_UNCONSTRAINED 0 0 sample_fork r s' eq_refl).
Defined.
