(* ===== verification/Refinement.v ===== *)
(** * Refinement: the executor implements RV64IM

    The state of the executor is read as the machine of [Rv64]: a register is
    the value of its entry, a byte of memory is a byte of the entry of its
    double word, and a location that was never accessed has its initial value.
    [execute_instruction], in every mode, takes the step of that machine. *)
From Stdlib Require Import ZArith Lia Bool.
From stdpp Require Import base numbers option list gmap.
From S2P Require Import Prelude Isa PagedMemory SyscallCode State ExecMemory Interpreter Cost Syscalls Samples Logic Rv64.
Import Opcode.

(** ** Reading the state *)
Definition initial_value (s : Executor.t) (l : loc) : Z :=
  default 0 (ExecutionState.uninitialized_memory (Executor.state s) !! l).
Definition value_at (s : Executor.t) (l : loc) : Z :=
  match entry_at l s with Some e => MemoryEntry.value e | None => initial_value s l end.
Definition prot_at (s : Executor.t) (page : Z) : Z :=
  match ExecutionState.page_prots (Executor.state s) !! page with
  | Some r => PageProtRecord.page_prot r
  | None => DEFAULT_PAGE_PROT
  end.
Definition permits (s : Executor.t) (bit addr : Z) : bool :=
  negb (Program.enable_untrusted_programs (Executor.program s)) ||
  negb (Z.land (prot_at s (align addr / PAGE_SIZE)) bit =? 0).

Definition abs (s : Executor.t) : Rv64.arch :=
  Rv64.mkArch (ExecutionState.pc (Executor.state s)) (fun r => value_at s (inl r))
    (fun a => byte_of (value_at s (inr (a / 8))) a) (permits s PROT_READ) (permits s PROT_WRITE).

(** Machines are compared on the registers there are and on all of memory. *)
Record arch_eq (a b : Rv64.arch) : Prop := {
  arch_pc : Rv64.pc a = Rv64.pc b;
  arch_x : forall r, 0 <= r < 32 -> Rv64.x a r = Rv64.x b r;
  arch_mem : forall addr, Rv64.mem a addr = Rv64.mem b addr;
  arch_read : forall addr, Rv64.may_read a addr = Rv64.may_read b addr;
  arch_write : forall addr, Rv64.may_write a addr = Rv64.may_write b addr }.
#[export] Instance arch_equiv : Equiv Rv64.arch := arch_eq.
#[export] Instance arch_equivalence : Equivalence (≡@{Rv64.arch}).
Proof.
  split.
  - intros a. now split.
  - intros a b [P X M R W]. split; intros; symmetry; auto.
  - intros a b c [P X M R W] [P' X' M' R' W'].
    split; intros; [rewrite P|rewrite X by done|rewrite M|rewrite R|rewrite W]; auto.
Qed.

(** Values are 64-bit and register 0 is zero. *)
Record wf (s : Executor.t) : Prop := {
  wf_pc : is_u64 (ExecutionState.pc (Executor.state s));
  wf_values : forall l, is_u64 (value_at s l);
  wf_x0 : value_at s (inl 0) = 0 }.

(** Accesses present in the first record are present in the second. *)
Definition acc_le (a a' : MemoryAccessRecord.t) : Prop :=
  (is_Some (MemoryAccessRecord.a a) -> is_Some (MemoryAccessRecord.a a')) /\
  (is_Some (MemoryAccessRecord.b a) -> is_Some (MemoryAccessRecord.b a')) /\
  (is_Some (MemoryAccessRecord.c a) -> is_Some (MemoryAccessRecord.c a')) /\
  (is_Some (MemoryAccessRecord.memory a) -> is_Some (MemoryAccessRecord.memory a')).

(** What an access may change: the value of one location, or none. *)
Definition written (w : option (loc * Z)) (f : loc -> Z) (l : loc) : Z :=
  match w with Some (l', v) => if decide (l = l') then v else f l | None => f l end.
Record frame (w : option (loc * Z)) (s s' : Executor.t) : Prop := {
  frame_pc : ExecutionState.pc (Executor.state s') = ExecutionState.pc (Executor.state s);
  frame_clk : ExecutionState.clk (Executor.state s') = ExecutionState.clk (Executor.state s);
  frame_context : Executor.context s' = Executor.context s;
  frame_initial : forall l, initial_value s' l = initial_value s l;
  frame_entries : forall l, entry_at l s <> None -> entry_at l s' <> None;
  frame_value : forall l, value_at s' l = written w (value_at s) l;
  frame_prot : forall p, prot_at s' p = prot_at s p;
  frame_acc : acc_le (Executor.memory_accesses s) (Executor.memory_accesses s') }.
Abbreviation quiet := (frame None).

#[export] Instance acc_le_preorder : PreOrder acc_le.
Proof. unfold acc_le. split; [intros a|intros a b c]; naive_solver. Qed.

Lemma frame_quiet_l w s1 s2 s3 : quiet s1 s2 -> frame w s2 s3 -> frame w s1 s3.
Proof.
  intros [P1 C1 X1 I1 N1 V1 R1 A1] [P2 C2 X2 I2 N2 V2 R2 A2].
  split; [congruence..|intros l; now rewrite I2|auto| |intros p; now rewrite R2|etransitivity; eassumption].
  intros l. rewrite V2. unfold written. destruct w as [[l' v]|]; [case_decide; [done|]|]; apply V1.
Qed.
Lemma frame_quiet_r w s1 s2 s3 : frame w s1 s2 -> quiet s2 s3 -> frame w s1 s3.
Proof.
  intros [P1 C1 X1 I1 N1 V1 R1 A1] [P2 C2 X2 I2 N2 V2 R2 A2].
  split; [congruence..|intros l; now rewrite I2|auto| |intros p; now rewrite R2|etransitivity; eassumption].
  intros l. rewrite V2. apply V1.
Qed.
#[export] Instance quiet_preorder : PreOrder quiet.
Proof. split; [now intros s|intros s1 s2 s3; apply frame_quiet_l]. Qed.

(** ** Total correctness of a program from a state *)
Definition wp {A} (m : M A) (Q : A -> Executor.t -> Prop) (s : Executor.t) : Prop :=
  match m s with Ret a s' => Q a s' | Err _ _ | Panic | OutOfFuel => False end.

Lemma wp_ret {A} (a : A) (Q : A -> Executor.t -> Prop) s : Q a s -> wp (ret a) Q s.
Proof. done. Qed.
Lemma wp_gets {A} (f : Executor.t -> A) (Q : A -> Executor.t -> Prop) s : Q (f s) s -> wp (gets f) Q s.
Proof. done. Qed.
Lemma wp_bind {A B} (m : M A) (k : A -> M B) Q s :
  wp m (fun a => wp (k a) Q) s -> wp (bind m k) Q s.
Proof. unfold wp, bind. destruct (m s); naive_solver. Qed.
Lemma wp_mono {A} (m : M A) (Q Q' : A -> Executor.t -> Prop) s :
  wp m Q s -> (forall a s', Q a s' -> Q' a s') -> wp m Q' s.
Proof. unfold wp. destruct (m s); naive_solver. Qed.

#[global] Arguments wp : simpl never.

(** Programs that return, without an effect on the machine. *)
Definition calm {A} (m : M A) : Prop := forall s, wp m (fun _ => quiet s) s.

Lemma wp_calm {A} (m : M A) (Q : A -> Executor.t -> Prop) s :
  calm m -> (forall a s', quiet s s' -> Q a s') -> wp m Q s.
Proof. intros Hm HQ. eapply wp_mono; [apply Hm|]. auto. Qed.

Lemma calm_bind {A B} (m : M A) (k : A -> M B) : calm m -> (forall a, calm (k a)) -> calm (bind m k).
Proof.
  intros Hm Hk s. apply wp_bind, wp_calm; [done|]. intros a s1 H1.
  apply wp_calm; [done|]. intros b s2. now apply frame_quiet_l.
Qed.
Lemma calm_ret {A} (a : A) : calm (ret a).
Proof. intros s. now apply wp_ret. Qed.
Lemma calm_gets {A} (f : Executor.t -> A) : calm (gets f).
Proof. intros s. now apply wp_gets. Qed.
Lemma calm_when b m : calm m -> calm (when b m).
Proof. intros Hm. destruct b; [done|apply calm_ret]. Qed.
Lemma calm_modify f : (forall s, quiet s (f s)) -> calm (modify f).
Proof. intros Hf s. apply Hf. Qed.
#[export] Hint Resolve calm_ret calm_gets : exec.

(** An update of a part of the state the machine does not see. *)
Ltac quiet_leaf := apply calm_modify; intros ?; now split.
Ltac calm_step :=
  match goal with
  | |- calm (bind _ _) => apply calm_bind; [|intros ?]
  | |- calm (when _ _) => apply calm_when
  | |- calm (if ?b then _ else _) => destruct b
  | |- calm (match ?x with _ => _ end) => destruct x
  | |- calm (modify _) => quiet_leaf
  end.
Ltac calm := repeat (first [solve [eauto 2 with exec] | calm_step]).
(** ** Accesses *)
Lemma value_at_insert l e s l' :
  value_at (Executor.set_state (ExecutionState.set_memory
    (<[l := e]> (ExecutionState.memory (Executor.state s))) (Executor.state s)) s) l' =
  written (Some (l, MemoryEntry.value e)) (value_at s) l'.
Proof.
  unfold value_at, entry_at, written. cbn. rewrite lookup_insert.
  repeat case_decide; congruence || done.
Qed.

Lemma set_entry_wp l e s : wp (set_entry l e) (fun _ => frame (Some (l, MemoryEntry.value e)) s) s.
Proof.
  split; try done; intros l'; [|apply value_at_insert].
  unfold entry_at. cbn. rewrite lookup_insert. now case_decide.
Qed.

(** Writing back the value a location has. *)
Lemma frame_same l v s s' : frame (Some (l, v)) s s' -> v = value_at s l -> quiet s s'.
Proof.
  intros [P C X I N V R A] ->. split; try done. intros l'. rewrite V. cbn. case_decide; congruence.
Qed.

Lemma init_entry_wp l s : wp (init_entry l) (fun e s' => MemoryEntry.value e = value_at s l /\ quiet s s') s.
Proof.
  unfold init_entry. apply wp_bind, wp_gets. destruct (entry_at l s) as [e|] eqn:E.
  - apply wp_ret. unfold value_at. rewrite E. now split.
  - apply wp_bind, wp_gets, wp_bind, wp_calm; [calm|]. intros _ s1 H1. apply wp_bind.
    eapply wp_mono; [apply set_entry_wp|]. intros ? s2 H2. apply wp_ret.
    assert (Hv : initial_value s l = value_at s l) by (unfold value_at; now rewrite E).
    split; [done|]. eapply frame_quiet_l; [exact H1|]. eapply frame_same; [exact H2|].
    now rewrite (frame_value _ _ _ H1).
Qed.

Lemma save_checkpoint_calm l : calm (save_checkpoint l).
Proof. unfold save_checkpoint. calm. Qed.
Lemma save_fork_calm l : calm (save_fork l).
Proof. unfold save_fork. calm. Qed.
Lemma count_local_mem_calm E e f : calm (count_local_mem E e f).
Proof. unfold count_local_mem, upd_counts. calm. Qed.
Lemma record_local_calm lma a e e' : calm (record_local lma a e e').
Proof. unfold record_local. calm. Qed.
#[export] Hint Resolve save_checkpoint_calm save_fork_calm count_local_mem_calm record_local_calm : exec.

Lemma access_wp E b l v f ts s :
  wp (access E b l v f ts) (fun prev s' =>
    MemoryEntry.value prev = value_at s l /\ frame (Some (l, v (value_at s l))) s s') s.
Proof.
  unfold access. apply wp_bind, wp_calm; [calm|]. intros _ s1 H1.
  apply wp_bind, wp_calm; [calm|]. intros _ s2 H2. pose proof (frame_quiet_l _ _ _ _ H1 H2) as H12.
  apply wp_bind. eapply wp_mono; [apply init_entry_wp|]. intros prev s3 [Hv H3]. cbv beta.
  apply wp_bind, wp_calm; [auto with exec|]. intros _ s4 H4.
  apply wp_bind. eapply wp_mono; [apply set_entry_wp|]. intros ? s5 H5. apply wp_ret.
  rewrite (frame_value _ _ _ H12) in Hv. cbn in Hv, H5. rewrite Hv in H5. split; [done|].
  eapply frame_quiet_l; [exact H12|]. eapply frame_quiet_l; [exact H3|]. eapply frame_quiet_l; eassumption.
Qed.
Lemma wp_eqv {A} (m m' : M A) Q s : eqv m m' -> wp m' Q s -> wp m Q s.
Proof. unfold wp. now intros ->. Qed.


(** ** Registers *)
Section Registers.
Context (E : ExecutorConfig).

(** Where a register read of the processor is recorded. *)
Definition at_position (p : MemoryAccessPosition.t) (a : MemoryAccessRecord.t) : Prop :=
  match p with
  | MemoryAccessPosition.A => is_Some (MemoryAccessRecord.a a)
  | MemoryAccessPosition.B => is_Some (MemoryAccessRecord.b a)
  | MemoryAccessPosition.C => is_Some (MemoryAccessRecord.c a)
  | MemoryAccessPosition.Memory => is_Some (MemoryAccessRecord.memory a)
  | MemoryAccessPosition.UntrustedInstruction => True
  end.
Definition traced : bool := is_trace E && negb (UNCONSTRAINED E).

Lemma rr_cpu_wp r p s :
  p <> MemoryAccessPosition.UntrustedInstruction ->
  wp (rr_cpu E r p) (fun v s' => v = value_at s (inl r) /\ quiet s s' /\
    (traced = true -> at_position p (Executor.memory_accesses s'))) s.
Proof.
  intros Hp. unfold rr_cpu, timestamp, traced. apply wp_bind, wp_gets. destruct (is_trace E) eqn:Ht.
  - apply wp_bind. eapply wp_eqv; [apply rr_traced_eq|]. apply wp_bind.
    eapply wp_mono; [apply access_wp|]. intros prev s1 [Hv H1]. cbv zeta.
    apply frame_same in H1; [|done]. apply wp_bind, wp_calm; [calm|]. intros lma s2 H2. apply wp_ret.
    pose proof (frame_quiet_l _ _ _ _ H1 H2) as H12. destruct (UNCONSTRAINED E) eqn:Hu; cbn.
    + split; [done|]. now split.
    + destruct p; try done; (split; [exact Hv|]; split; [|intros _; cbn; eauto]);
        eapply frame_quiet_r; [exact H12| |exact H12| |exact H12| |exact H12|]; split; try done; unfold acc_le; cbn; naive_solver eauto.
  - eapply wp_eqv; [apply rr_eq|]. apply wp_bind. eapply wp_mono; [apply access_wp|].
    intros prev s1 [Hv H1]. apply frame_same in H1; [|done]. apply wp_ret. split; [done|]. now split.
Qed.
End Registers.
Lemma rw_cpu_wp E r v s :
  wp (rw_cpu E r v) (fun _ s' => frame (Some (inl r, if r =? 0 then 0 else v)) s s' /\
    (traced E = true -> is_Some (MemoryAccessRecord.a (Executor.memory_accesses s')))) s.
Proof.
  unfold rw_cpu, timestamp, traced. apply wp_bind, wp_gets. destruct (is_trace E) eqn:Ht.
  - apply wp_bind. eapply wp_eqv; [apply rw_traced_eq|]. apply wp_bind.
    eapply wp_mono; [apply access_wp|]. intros prev s1 [_ H1]. cbv zeta.
    apply wp_bind, wp_calm; [calm|]. intros lma s2 H2. apply wp_ret.
    pose proof (frame_quiet_r _ _ _ _ H1 H2) as H12. destruct (UNCONSTRAINED E) eqn:Hu; cbn [negb when andb].
    + apply wp_ret. split; [exact H12|done].
    + split; [|intros _; cbn; eauto]. eapply frame_quiet_r; [exact H12|].
      split; try done; unfold acc_le; cbn; naive_solver eauto.
  - eapply wp_eqv; [apply rw_eq|]. apply wp_bind. eapply wp_mono; [apply access_wp|].
    intros prev s1 [_ H1]. apply wp_ret. split; [exact H1|done].
Qed.

(** ** Memory *)

(** A program that panics after a prefix that returns. *)
Lemma panic_bind {A B} (m : M A) (k : A -> M B) s : wp m (fun a s' => k a s' = Panic) s -> bind m k s = Panic.
Proof. unfold wp, bind. destruct (m s); naive_solver. Qed.

(** [m] returns with [Q] when [b] holds, and panics otherwise. *)
Definition guarded {A} (b : bool) (m : M A) (Q : A -> Executor.t -> Prop) (s : Executor.t) : Prop :=
  if b then wp m Q s else m s = Panic.

Lemma guarded_bind {A B} b (m : M A) (k : A -> M B) Q s :
  wp m (fun a s' => guarded b (k a) Q s') s -> guarded b (bind m k) Q s.
Proof. unfold guarded. destruct b; [apply wp_bind|apply panic_bind]. Qed.
Lemma guarded_then {A B} b (m : M A) (k : A -> M B) Q s :
  guarded b m (fun a s' => wp (k a) Q s') s -> guarded b (bind m k) Q s.
Proof. unfold guarded. destruct b; [apply wp_bind|]. intros H. unfold bind. now rewrite H. Qed.
Lemma guarded_mono {A} b (m : M A) (Q Q' : A -> Executor.t -> Prop) s :
  guarded b m Q s -> (forall a s', Q a s' -> Q' a s') -> guarded b m Q' s.
Proof. unfold guarded. destruct b; [|done]. apply wp_mono. Qed.

Lemma set_page_prot_quiet p r s :
  PageProtRecord.page_prot r = prot_at s p ->
  quiet s (Executor.set_state (ExecutionState.set_page_prots
    (<[p := r]> (ExecutionState.page_prots (Executor.state s))) (Executor.state s)) s).
Proof.
  intros Hr. split; try done. intros q. unfold prot_at in *. cbn.
  rewrite lookup_insert. case_decide; [now subst|done].
Qed.

(** The record of the page, created with the default protection. *)
Lemma fresh_prot p fresh s :
  PageProtRecord.page_prot fresh = DEFAULT_PAGE_PROT ->
  let s1 := Executor.set_state (ExecutionState.set_page_prots
    (or_insert p fresh (ExecutionState.page_prots (Executor.state s))) (Executor.state s)) s in
  quiet s s1 /\ exists r, ExecutionState.page_prots (Executor.state s1) !! p = Some r /\
                         PageProtRecord.page_prot r = prot_at s p.
Proof.
  intros Hf s1. subst s1. unfold or_insert.
  destruct (ExecutionState.page_prots (Executor.state s) !! p) as [r|] eqn:E1.
  - split; [now split|]. exists r. cbn. unfold prot_at. now rewrite E1.
  - split; [apply set_page_prot_quiet; unfold prot_at; now rewrite E1|].
    exists fresh. cbn. rewrite lookup_insert_eq. unfold prot_at. now rewrite E1.
Qed.

Lemma page_prot_access_wp E p bit f ts lpa s :
  guarded (negb (Z.land (prot_at s p) bit =? 0)) (page_prot_access E p bit f ts lpa) (fun _ s' => quiet s s') s.
Proof.
  unfold page_prot_access. set (fresh := PageProtRecord.mk f 0 DEFAULT_PAGE_PROT).
  set (s1 := Executor.set_state (ExecutionState.set_page_prots
    (or_insert p fresh (ExecutionState.page_prots (Executor.state s))) (Executor.state s)) s).
  destruct (fresh_prot p fresh s eq_refl) as (H1 & r & Hr & Hp). fold s1 in H1, Hr.
  apply guarded_bind. change (wp _ ?Q s) with (Q tt s1). cbv beta.
  apply guarded_bind, wp_gets. rewrite Hr. change (default fresh (Some r)) with r.
  apply guarded_bind, wp_calm; [unfold upd_fork; calm|]. intros _ s2 H2.
  apply guarded_bind, wp_gets. apply guarded_bind, wp_calm; [unfold upd_counts; calm|]. intros _ s3 H3.
  rewrite Hp. destruct (negb _) eqn:Hb; [|reflexivity].
  cbn [assert guarded]. apply wp_bind, wp_ret, wp_bind.
  assert (H13 : quiet s s3) by (etransitivity; [exact H1|]; etransitivity; eassumption).
  set (r' := PageProtRecord.mk f ts (prot_at s p)).
  pose proof (set_page_prot_quiet p r' s3) as H4.
  change (wp _ ?Q s3) with (Q tt (Executor.set_state (ExecutionState.set_page_prots
    (<[p := r']> (ExecutionState.page_prots (Executor.state s3))) (Executor.state s3)) s3)). cbv beta.
  apply wp_bind, wp_calm; [calm|]. intros lpa' s5 H5.
  apply wp_bind, wp_calm; [unfold upd_counts; calm|]. intros _ s6 H6. apply wp_ret.
  etransitivity; [exact H13|]. etransitivity; [apply H4; cbn; now rewrite (frame_prot _ _ _ H13)|].
  etransitivity; eassumption.
Qed.

Lemma double_word_addr addr : Rv64.mapped addr = negb (invalid_addr (align addr)) && (align addr <? 2 ^ MAX_LOG_ADDR).
Proof.
  unfold Rv64.mapped, invalid_addr, align, MAX_LOG_ADDR, MAXIMUM_MEMORY_SIZE, Register.X31.
  change (1 ≪ 48) with (2 ^ 48).
  replace ((addr - addr mod 8) mod 8 =? 0) with true by (symmetry; apply Z.eqb_eq; lia_mod).
  cbn [negb orb]. apply eq_bool_prop_intro.
  rewrite !Is_true_true, !andb_true_iff, negb_true_iff, orb_false_iff, !Z.ltb_lt, Z.leb_le, Z.leb_gt, Z.ltb_ge.
  lia_mod.
Qed.

(** The location of an access, or a panic. *)
Lemma page_loc_then {A} addr (k : loc -> M A) b Q s :
  (Rv64.mapped addr = true -> guarded b (k (inr (addr / 8))) Q s) ->
  guarded (Rv64.mapped addr && b)
    (assert (negb (invalid_addr (align addr))) ;;! (let! l := page_loc (align addr) in k l)) Q s.
Proof.
  intros H. rewrite double_word_addr in *. unfold page_loc.
  replace (align addr / 8) with (addr / 8) by (unfold align; lia_mod).
  destruct (negb (invalid_addr (align addr))); [|reflexivity].
  destruct (align addr <? 2 ^ MAX_LOG_ADDR); [|reflexivity]. exact (H eq_refl).
Qed.

Section Memory.
Context (E : ExecutorConfig).

(** The check of the page of an access, for a program with protections. *)
Lemma permits_wp {A B} bit (rec : PageProtRecord.t -> A) (rec0 : A) addr ts (k : A -> M B) Q s :
  (forall r s', (r = rec0 \/ exists p, r = rec p) -> quiet s s' -> wp (k r) Q s') ->
  guarded (permits s bit addr)
    (let! untrusted := enable_untrusted_programs in
     let! record :=
       if untrusted then
         let! '(p, _) := page_prot_access E (align addr / PAGE_SIZE) bit false ts None in ret (rec p)
       else ret rec0 in
     k record) Q s.
Proof.
  intros H. unfold permits. apply guarded_bind, wp_gets. cbn [enable_untrusted_programs].
  destruct (Program.enable_untrusted_programs (Executor.program s)); cbn [negb orb].
  - apply guarded_then, guarded_then. eapply guarded_mono; [apply page_prot_access_wp|].
    intros [p l] s1 H1. apply wp_ret, H; eauto.
  - apply wp_bind, wp_ret, H; [now left|reflexivity].
Qed.
End Memory.
Lemma permits_frame w s s' bit addr : frame w s s' -> permits s' bit addr = permits s bit addr.
Proof. intros H. unfold permits, Executor.program. now rewrite (frame_context _ _ _ H), (frame_prot _ _ _ H). Qed.

(** Recording the memory access of the instruction. *)
Lemma record_memory_wp E x (Q : unit -> Executor.t -> Prop) s :
  (forall s', quiet s s' -> (is_trace E = true -> is_Some (MemoryAccessRecord.memory (Executor.memory_accesses s'))) ->
    Q tt s') ->
  wp (when (is_trace E) (upd_accesses (MemoryAccessRecord.set_memory (Some x)))) Q s.
Proof.
  intros H. destruct (is_trace E) eqn:Ht; cbn [when].
  - apply H; [split; try done; unfold acc_le; cbn; naive_solver eauto|cbn; eauto].
  - apply wp_ret, H; [reflexivity|congruence].
Qed.

Lemma guarded_and {A B} b1 b2 (m : M A) (k : A -> M B) Q s :
  guarded b1 m (fun a s' => guarded b2 (k a) Q s') s -> guarded (b1 && b2) (bind m k) Q s.
Proof. destruct b1; [apply guarded_bind|]. intros H. unfold guarded, bind in *. cbn. now rewrite H. Qed.

Section MemoryCpu.
Context (E : ExecutorConfig).

Lemma mr_wp addr f ts lma s :
  guarded (Rv64.mapped addr) (mr E (align addr) f ts lma) (fun r s' =>
    MemoryReadRecord.value r.1 = value_at s (inr (addr / 8)) /\ quiet s s') s.
Proof.
  unfold guarded. unfold wp. rewrite mr_eq. fold (wp (A := MemoryReadRecord.t * option (gmap Z MemoryLocalEvent.t))).
  rewrite <- (andb_true_r (Rv64.mapped addr)). apply (page_loc_then addr _ true). intros _.
  apply wp_bind. eapply wp_mono; [apply access_wp|]. intros prev s1 [Hv H1]. cbv zeta.
  apply frame_same in H1; [|done]. apply wp_bind, wp_calm; [calm|]. intros lma' s2 H2. apply wp_ret.
  split; [done|]. etransitivity; eassumption.
Qed.

Lemma mr_cpu_wp addr s :
  guarded (Rv64.mapped addr && permits s PROT_READ addr) (mr_cpu E (align addr)) (fun v s' =>
    v = value_at s (inr (addr / 8)) /\ quiet s s' /\
    (is_trace E = true -> is_Some (MemoryAccessRecord.memory (Executor.memory_accesses s')))) s.
Proof.
  unfold mr_cpu. apply guarded_bind, wp_gets, guarded_and. eapply guarded_mono; [apply mr_wp|].
  intros [record lma] s1 [Hv H1]. cbn in Hv. rewrite <- (permits_frame _ _ _ _ _ H1).
  apply permits_wp. intros r s2 Hr H2. apply wp_bind, record_memory_wp. intros s3 H3 Ht. apply wp_ret.
  split; [|split; [etransitivity; [exact H1|]; etransitivity; eassumption|exact Ht]].
  now destruct Hr as [->|[p ->]].
Qed.

Lemma mw_wp addr v f ts lma s :
  guarded (Rv64.mapped addr) (mw E (align addr) v f ts lma) (fun _ s' => frame (Some (inr (addr / 8), v)) s s') s.
Proof.
  unfold guarded. unfold wp. rewrite mw_eq. fold (wp (A := MemoryWriteRecord.t * option (gmap Z MemoryLocalEvent.t))).
  rewrite <- (andb_true_r (Rv64.mapped addr)). apply (page_loc_then addr _ true). intros _.
  apply wp_bind. eapply wp_mono; [apply access_wp|]. intros prev s1 [_ H1]. cbv zeta.
  apply wp_bind, wp_calm; [calm|]. intros lma' s2 H2. apply wp_ret. eapply frame_quiet_r; eassumption.
Qed.

Lemma mw_cpu_wp addr v s :
  guarded (Rv64.mapped addr && permits s PROT_WRITE addr) (mw_cpu E (align addr) v) (fun _ s' =>
    frame (Some (inr (addr / 8), v)) s s' /\
    (is_trace E = true -> is_Some (MemoryAccessRecord.memory (Executor.memory_accesses s')))) s.
Proof.
  unfold mw_cpu. apply guarded_bind, wp_gets, guarded_and. eapply guarded_mono; [apply mw_wp|].
  intros [record lma] s1 H1. cbv beta in H1. rewrite <- (permits_frame _ _ _ _ _ H1).
  apply permits_wp. intros r s2 _ H2. apply record_memory_wp. intros s3 H3 Ht.
  split; [|exact Ht]. eapply frame_quiet_r; [exact H1|]. etransitivity; eassumption.
Qed.
End MemoryCpu.
(** ** Instructions *)

(** The operands the transpiler gives to an opcode. *)
Definition operand_ok (imm : bool) (x : Z) : bool := if imm then fitsb 64 x else (0 <=? x) && (x <? 32).
Definition format_ok (i : Instruction.t) : bool :=
  let b := Instruction.imm_b i in let c := Instruction.imm_c i in
  match Instruction.opcode i with
  | ADD | SUB | SUBW | MUL | MULH | MULHU | MULHSU | MULW
  | DIV | DIVU | REM | REMU | DIVW | DIVUW | REMW | REMUW => negb b && negb c
  | XOR | OR | AND | SLL | SRL | SRA | SLT | SLTU | ADDW | SLLW | SRLW | SRAW => negb b
  | ADDI | LB | LH | LW | LD | LBU | LHU | LWU | SB | SH | SW | SD
  | BEQ | BNE | BLT | BGE | BLTU | BGEU => negb b && c
  | JALR => negb b && c && (Instruction.op_c i =? u64 (sext 12 (Instruction.op_c i)))
  | JAL => b && c && (Instruction.op_b i =? u64 (sext 21 (Instruction.op_b i)))
  | LUI | AUIPC => b && c
  | EBREAK | UNIMP => true
  | ECALL => false
  end.
Definition well_formed (i : Instruction.t) : bool :=
  operand_ok false (Instruction.op_a i) && operand_ok (Instruction.imm_b i) (Instruction.op_b i) &&
  operand_ok (Instruction.imm_c i) (Instruction.op_c i) && format_ok i.

(** The accesses the events of an instruction are made from. *)
Definition uses_b (i : Instruction.t) : bool := negb (Instruction.imm_b i).
Definition uses_memory (i : Instruction.t) : bool :=
  Instruction.is_memory_load_instruction i || Instruction.is_memory_store_instruction i.
Definition recorded (i : Instruction.t) (r : MemoryAccessRecord.t) : Prop :=
  is_Some (MemoryAccessRecord.a r) /\
  (uses_b i = true -> is_Some (MemoryAccessRecord.b r)) /\
  (Instruction.imm_c i = false -> is_Some (MemoryAccessRecord.c r)) /\
  (uses_memory i = true -> is_Some (MemoryAccessRecord.memory r)).

Lemma push_event_calm e : calm (push_event e).
Proof. unfold push_event, upd_record. calm. Qed.
#[export] Hint Resolve push_event_calm : exec.

(** The constructors of the format records, when the accesses are there. *)
Lemma r_record_ok i r : recorded i r -> Instruction.imm_b i = false -> Instruction.imm_c i = false ->
  exists x, RTypeRecord.new r i = Some x.
Proof.
  intros ([a Ha] & Hb & Hc & _) Eb Ec. unfold uses_b in Hb. rewrite Eb in Hb.
  destruct (Hb eq_refl) as [b Hb'], (Hc Ec) as [c Hc']. unfold RTypeRecord.new. rewrite Ha, Hb', Hc'. cbn. eauto.
Qed.
Lemma i_record_ok i r : recorded i r -> Instruction.imm_b i = false -> exists x, ITypeRecord.new r i = Some x.
Proof.
  intros ([a Ha] & Hb & _) Eb. unfold uses_b in Hb. rewrite Eb in Hb.
  destruct (Hb eq_refl) as [b Hb']. unfold ITypeRecord.new. rewrite Ha, Hb'. cbn. eauto.
Qed.
Lemma alu_record_ok i r : recorded i r -> Instruction.imm_b i = false -> exists x, ALUTypeRecord.new r i = Some x.
Proof.
  intros ([a Ha] & Hb & _) Eb. unfold uses_b in Hb. rewrite Eb in Hb.
  destruct (Hb eq_refl) as [b Hb']. unfold ALUTypeRecord.new. rewrite Ha, Hb'. cbn. eauto.
Qed.
Lemma j_record_ok i r : recorded i r -> exists x, JTypeRecord.new r i = Some x.
Proof. intros ([a Ha] & _). unfold JTypeRecord.new. rewrite Ha. cbn. eauto. Qed.

Lemma calm_expect {A} (o : option A) : (exists x, o = Some x) -> calm (expect o).
Proof. intros [x ->]. apply calm_ret. Qed.
#[export] Hint Resolve calm_expect r_record_ok i_record_ok alu_record_ok j_record_ok : exec.

Lemma emit_alu_event_calm i a b c r z : recorded i r -> format_ok i = true ->
  Instruction.is_alu_instruction i = true -> calm (emit_alu_event i a b c r z).
Proof.
  intros Hr Hf Ha. unfold emit_alu_event, format_ok, Instruction.is_alu_instruction in *.
  destruct (Instruction.opcode i); try discriminate; cbv zeta; case_bool; calm; eauto 4 with exec.
Qed.
Lemma emit_mem_instr_event_wp i a b c r z s : recorded i r -> format_ok i = true -> uses_memory i = true ->
  is_Some (MemoryAccessRecord.memory (Executor.memory_accesses s)) ->
  wp (emit_mem_instr_event i a b c r z) (fun _ => quiet s) s.
Proof.
  intros Hr Hf Hm [x Hx].
  assert (Hb : Instruction.imm_b i = false).
  { unfold format_ok, uses_memory, Instruction.is_memory_load_instruction,
      Instruction.is_memory_store_instruction in *.
    destruct (Instruction.opcode i); try discriminate; now case_bool. }
  unfold emit_mem_instr_event. apply wp_bind, wp_gets, wp_bind, wp_bind, wp_gets. rewrite Hx. apply wp_ret.
  apply wp_bind, wp_calm; [eauto with exec|]. intros rec s1 H1. apply wp_calm; [calm|].
  intros _ s2 H2. etransitivity; eassumption.
Qed.

(** The opcodes whose events are emitted, apart from system calls. *)
Definition plain (i : Instruction.t) : bool :=
  match Instruction.opcode i with ECALL | EBREAK | UNIMP => false | _ => true end.

Definition emit_class (clk np : Z) (i : Instruction.t) (code : SyscallCode.t) (a b c : Z) (z : bool)
  (r : MemoryAccessRecord.t) (ec : Z) : M unit :=
  if Instruction.is_alu_instruction i then emit_alu_event i a b c r z
  else if Instruction.is_memory_load_instruction i || Instruction.is_memory_store_instruction i then
    emit_mem_instr_event i a b c r z
  else if Instruction.is_branch_instruction i then emit_branch_event i a b c r z np
  else if Instruction.is_jal_instruction i then emit_jal_event i a b c r z np
  else if Instruction.is_jalr_instruction i then emit_jalr_event i a b c r z np
  else if Instruction.is_utype_instruction i then emit_utype_event i a b c r z
  else if Instruction.is_ecall_instruction i then emit_syscall_event clk code b c r z np ec i
  else panic.

Lemma emit_class_wp clk np i code a b c z r ec s :
  recorded i r -> recorded i (Executor.memory_accesses s) -> format_ok i = true -> plain i = true ->
  wp (emit_class clk np i code a b c z r ec) (fun _ => quiet s) s.
Proof.
  intros Hr Hs Hf Hp. unfold emit_class.
  destruct (Instruction.is_alu_instruction i) eqn:Ha; [now apply emit_alu_event_calm|].
  fold (uses_memory i). destruct (uses_memory i) eqn:Hm.
  { apply emit_mem_instr_event_wp; try done. now apply Hs. }
  unfold plain, format_ok, Instruction.is_alu_instruction, uses_memory, Instruction.is_memory_load_instruction,
    Instruction.is_memory_store_instruction, Instruction.is_branch_instruction, Instruction.is_jal_instruction,
    Instruction.is_jalr_instruction, Instruction.is_utype_instruction, Instruction.is_ecall_instruction,
    emit_branch_event, emit_jal_event, emit_jalr_event, emit_utype_event in *.
  destruct (Instruction.opcode i); try discriminate; case_bool; apply wp_calm; try (now intros); calm; eauto 4 with exec.
Qed.

Lemma bump_register_calm x a : calm (bump_register x a).
Proof. unfold bump_register. calm. Qed.
#[export] Hint Resolve bump_register_calm : exec.

Lemma recorded_mono i r r' : acc_le r r' -> recorded i r -> recorded i r'.
Proof. unfold acc_le, recorded. naive_solver. Qed.

Lemma emit_events_class clk np i code a b c z ec s :
  (forall s', acc_le (Executor.memory_accesses s) (Executor.memory_accesses s') ->
     wp (emit_class clk np i code a b c z (Executor.memory_accesses s) ec) (fun _ => quiet s') s') ->
  wp (emit_events clk np i code a b c z (Executor.memory_accesses s) ec) (fun _ => quiet s) s.
Proof.
  intros Hc. unfold emit_events. apply wp_bind, wp_gets. unfold upd_record. cbv zeta.
  do 4 (apply wp_bind; eapply wp_calm; [calm|]; intros _ ? ?).
  apply wp_bind; eapply wp_calm; [calm|]; intros _ s5 H5. apply wp_bind, wp_gets.
  do 3 (apply wp_bind; eapply wp_calm; [calm|]; intros _ ? ?).
  apply wp_bind. eapply wp_mono; [apply Hc|].
  - repeat (etransitivity; [eapply frame_acc; eassumption|]). reflexivity.
  - intros ? s9 H9. cbv beta in H9. unfold emit_instruction_fetch_event.
    apply wp_calm; [calm|]. intros _ s10 H10. repeat (etransitivity; [eassumption|]). reflexivity.
Qed.
Lemma emit_events_wp clk np i code a b c z ec s :
  recorded i (Executor.memory_accesses s) -> format_ok i = true -> plain i = true ->
  wp (emit_events clk np i code a b c z (Executor.memory_accesses s) ec) (fun _ => quiet s) s.
Proof.
  intros Hr Hf Hp. apply emit_events_class. intros s' Hs'. apply emit_class_wp; try done.
  eapply recorded_mono; eassumption.
Qed.

(** The event of a system call is made from three registers. *)
Lemma emit_ecall_wp clk np i code a b c z ec s : Instruction.opcode i = ECALL ->
  is_Some (RTypeRecord.new (Executor.memory_accesses s) i) ->
  wp (emit_events clk np i code a b c z (Executor.memory_accesses s) ec) (fun _ => quiet s) s.
Proof.
  intros Hi [x Hx]. apply emit_events_class. intros s' _. unfold emit_class.
  assert (Hc : Instruction.is_ecall_instruction i = true /\ Instruction.is_alu_instruction i = false /\ uses_memory i = false /\
    Instruction.is_branch_instruction i = false /\ Instruction.is_jal_instruction i = false /\
    Instruction.is_jalr_instruction i = false /\ Instruction.is_utype_instruction i = false).
  { unfold Instruction.is_ecall_instruction, Instruction.is_alu_instruction, uses_memory,
      Instruction.is_memory_load_instruction, Instruction.is_memory_store_instruction, Instruction.is_branch_instruction,
      Instruction.is_jal_instruction, Instruction.is_jalr_instruction, Instruction.is_utype_instruction. now rewrite Hi. }
  destruct Hc as (-> & -> & Hm & -> & -> & -> & ->). unfold uses_memory in Hm. rewrite Hm.
  unfold emit_syscall_event. rewrite Hx. apply wp_calm; [calm|]. auto.
Qed.
(** ** Operands and results *)
Lemma operand_reg x : 0 <= x < 32 -> Operands.reg x = ret x.
Proof.
  intros Hx. unfold Operands.reg. replace (u8 x) with x by solve_ints. unfold Register.from_u8.
  replace ((0 <=? x) && (x <=? 31)) with true; [done|].
  symmetry. apply andb_true_iff. rewrite !Z.leb_le. lia.
Qed.

Record operands (i : Instruction.t) : Prop := {
  op_a_reg : 0 <= Instruction.op_a i < 32;
  op_b_reg : Instruction.imm_b i = false -> 0 <= Instruction.op_b i < 32;
  op_b_imm : Instruction.imm_b i = true -> is_u64 (Instruction.op_b i);
  op_c_reg : Instruction.imm_c i = false -> 0 <= Instruction.op_c i < 32;
  op_c_imm : Instruction.imm_c i = true -> is_u64 (Instruction.op_c i);
  op_format : format_ok i = true }.
Lemma well_formed_operands i : well_formed i = true -> operands i.
Proof.
  unfold well_formed, operand_ok. rewrite !andb_true_iff. intros [[[[Ha1 Ha2] Hb] Hc] Hf].
  apply Z.leb_le in Ha1. apply Z.ltb_lt in Ha2.
  split; try done; intros E; rewrite E in *; rewrite ?fitsb_spec, ?andb_true_iff, ?Z.leb_le, ?Z.ltb_lt in *; done.
Qed.

Lemma get_abs s r : wf s -> Rv64.get (abs s) r = value_at s (inl r).
Proof. intros H. unfold Rv64.get. destruct (Z.eqb_spec r 0) as [->|]; [now rewrite (wf_x0 s H)|done]. Qed.

Lemma reg_u64 v : is_u64 (Rv64.reg v).
Proof. apply (wrap_fits 64). lia. Qed.

Lemma bitop_u64 (f : Z -> Z -> Z) (g : bool -> bool -> bool) b c :
  (forall x y i, Z.testbit (f x y) i = g (Z.testbit x i) (Z.testbit y i)) -> g false false = false ->
  is_u64 b -> is_u64 c -> is_u64 (f b c).
Proof. intros Hf Hg Hb Hc. apply u64_of_bits. intros i Hi. now rewrite Hf, !u64_high_bits. Qed.

Lemma alu_u64 op b c v : Rv64.alu op b c = Some v -> is_u64 v.
Proof.
  pose proof (wrap_fits 64 b ltac:(lia)) as Hb. pose proof (wrap_fits 64 c ltac:(lia)) as Hc.
  unfold Rv64.alu. cbv zeta. change (Rv64.unsigned 64) with (wrap 64).
  destruct op; intros [= <-]; try apply reg_u64;
    try (destruct (_ <? _); unfold fits; lia).
  - eapply bitop_u64; [apply Z.lxor_spec|..]; done.
  - eapply bitop_u64; [apply Z.lor_spec|..]; done.
  - eapply bitop_u64; [apply Z.land_spec|..]; done.
  - unfold fits in *. pose proof (Z.mod_pos_bound (wrap 64 c) 64).
    assert (0 < 2 ^ (wrap 64 c mod 64)) by (apply Z.pow_pos_nonneg; lia).
    split; [apply Z.div_pos; lia|]. apply Z.div_lt_upper_bound; nia.
Qed.

Lemma alu_total i b c : Instruction.is_alu_instruction i = true ->
  is_Some (Rv64.alu (Instruction.opcode i) b c).
Proof. unfold Instruction.is_alu_instruction. destruct (Instruction.opcode i); try discriminate; cbn; eauto. Qed.
Section Instructions.
Context (E : ExecutorConfig).

(** A register read followed by the rest of the program. *)
Lemma rr_then {A} r p (k : Z -> M A) Q s :
  p <> MemoryAccessPosition.UntrustedInstruction ->
  (forall s', quiet s s' -> (traced E = true -> at_position p (Executor.memory_accesses s')) ->
    wp (k (value_at s (inl r))) Q s') ->
  wp (let! v := rr_cpu E r p in k v) Q s.
Proof.
  intros Hp H. apply wp_bind. eapply wp_mono; [now apply rr_cpu_wp|]. intros v s' (-> & Hq & Ha). auto.
Qed.

(** The accesses of the source operands. *)
Definition sources (i : Instruction.t) (s : Executor.t) : Prop :=
  traced E = true ->
  (uses_b i = true -> is_Some (MemoryAccessRecord.b (Executor.memory_accesses s))) /\
  (Instruction.imm_c i = false -> is_Some (MemoryAccessRecord.c (Executor.memory_accesses s))).

Lemma alu_rr_wp i s : wf s -> operands i -> Instruction.imm_b i = false ->
  wp (alu_rr E i) (fun r s' =>
    r = (Instruction.op_a i, Rv64.operand_b i (abs s), Rv64.operand_c i (abs s)) /\ quiet s s' /\ sources i s') s.
Proof.
  intros Hs Hi Eb. unfold alu_rr, Operands.r_type, Operands.i_type, Rv64.operand_b, Rv64.operand_c, sources.
  rewrite Eb, !get_abs by done. rewrite (operand_reg (Instruction.op_a i)), (operand_reg (Instruction.op_b i)) by now apply Hi.
  destruct (Instruction.imm_c i) eqn:Ec; cbn [negb andb].
  - apply wp_bind, wp_bind, wp_ret, wp_bind, wp_ret, wp_ret, rr_then; [done|].
    intros s1 H1 B1. apply wp_ret. split; [done|]. split; [done|].
    intros Ht. split; [intros _; now apply B1|discriminate].
  - rewrite (operand_reg (Instruction.op_c i)) by now apply Hi.
    apply wp_bind, wp_bind, wp_ret, wp_bind, wp_ret, wp_bind, wp_ret, wp_ret, rr_then; [done|].
    intros s1 H1 C1. apply rr_then; [done|]. intros s2 H2 B2. apply wp_ret.
    rewrite (frame_value _ _ _ H1). split; [done|]. split; [etransitivity; eassumption|].
    intros Ht. split; intros _; [now apply B2|]. now apply (frame_acc _ _ _ H2), C1.
Qed.

(** The end of an instruction that writes its destination register. *)
Definition writes (i : Instruction.t) (v : Z) (s s' : Executor.t) : Prop :=
  frame (Some (inl (Instruction.op_a i), if Instruction.op_a i =? 0 then 0 else v)) s s' /\
  (traced E = true ->
   (uses_memory i = true -> is_Some (MemoryAccessRecord.memory (Executor.memory_accesses s))) -> sources i s ->
   recorded i (Executor.memory_accesses s')).

Lemma rw_then {A} i v (k : M A) Q s :
  (forall s', writes i v s s' -> wp k Q s') -> wp (rw_cpu E (Instruction.op_a i) v ;;! k) Q s.
Proof.
  intros H. apply wp_bind. eapply wp_mono; [apply rw_cpu_wp|]. intros [] s' [Hf Ha]. apply H.
  split; [done|]. intros Ht Hm Hsrc. destruct (Hsrc Ht) as [Hb Hc], (frame_acc _ _ _ Hf) as (_ & B & C & D).
  split_and!; auto.
Qed.

Lemma writes_quiet i v s s1 s2 : quiet s s1 -> writes i v s1 s2 ->
  frame (Some (inl (Instruction.op_a i), if Instruction.op_a i =? 0 then 0 else v)) s s2.
Proof. intros H1 [H2 _]. eapply frame_quiet_l; eassumption. Qed.

Lemma alu_imm_b i : operands i -> Instruction.is_alu_instruction i = true ->
  Instruction.imm_b i = false /\ uses_memory i = false.
Proof.
  intros Hi Ha. pose proof (op_format i Hi) as Hf.
  unfold format_ok, uses_memory, Instruction.is_memory_load_instruction, Instruction.is_memory_store_instruction,
    Instruction.is_alu_instruction in *.
  destruct (Instruction.opcode i); try discriminate; now case_bool.
Qed.

Lemma operand_u64 i s : wf s -> operands i -> Instruction.imm_b i = false ->
  is_u64 (Rv64.operand_b i (abs s)) /\ is_u64 (Rv64.operand_c i (abs s)).
Proof.
  intros Hs Hi Eb. unfold Rv64.operand_b, Rv64.operand_c. rewrite Eb, !get_abs by done.
  destruct (Instruction.imm_c i) eqn:Ec; split; try apply Hs. now apply Hi.
Qed.

(** What the instruction part of [execute_instruction] does to the state:
    the value it writes and the accesses its events need. *)
Definition done_with (i : Instruction.t) (w : option (loc * Z)) (s s' : Executor.t) : Prop :=
  frame w s s' /\ (traced E = true -> recorded i (Executor.memory_accesses s')).

Lemma execute_alu_wp i s : wf s -> operands i -> Instruction.is_alu_instruction i = true ->
  wp (execute_alu E i) (fun _ s' => exists v,
    Rv64.alu (Instruction.opcode i) (Rv64.operand_b i (abs s)) (Rv64.operand_c i (abs s)) = Some v /\
    done_with i (Some (inl (Instruction.op_a i), if Instruction.op_a i =? 0 then 0 else v)) s s') s.
Proof.
  intros Hs Hi Ha. destruct (alu_imm_b i Hi Ha) as [Eb Hm]. destruct (operand_u64 i s Hs Hi Eb) as [Ub Uc].
  unfold execute_alu, alu_rw. apply wp_bind. eapply wp_mono; [now apply alu_rr_wp|].
  intros r s1 (-> & H1 & Hsrc). destruct (alu_total i (Rv64.operand_b i (abs s)) (Rv64.operand_c i (abs s)) Ha) as [v Hv].
  rewrite alu_result_spec, Hv by done. apply wp_bind, wp_ret, rw_then. intros s2 H2. apply wp_ret.
  exists v. split; [done|]. split; [eapply writes_quiet; eassumption|].
  intros Ht. apply H2; [done| |done]. rewrite Hm. discriminate.
Qed.
End Instructions.
(** ** Partial outcomes: values, errors and panics *)
Definition wpx {A} (m : M A) (Q : A -> Executor.t -> Prop) (Qe : ExecutionError -> Prop) (P : Prop)
  (s : Executor.t) : Prop :=
  match m s with Ret a s' => Q a s' | Err e _ => Qe e | Panic => P | OutOfFuel => False end.
Arguments wpx : simpl never.

Lemma wpx_bind {A B} (m : M A) (k : A -> M B) Q Qe P s :
  wpx m (fun a => wpx (k a) Q Qe P) Qe P s -> wpx (bind m k) Q Qe P s.
Proof. unfold wpx, bind. now destruct (m s). Qed.
Lemma wpx_wp {A} (m : M A) (Q : A -> Executor.t -> Prop) Qe P s : wp m Q s -> wpx m Q Qe P s.
Proof. unfold wpx, wp. now destruct (m s). Qed.
Lemma wpx_guarded {A} b (m : M A) (Q Q' : A -> Executor.t -> Prop) Qe (P : Prop) s :
  guarded b m Q s -> (b = true -> forall a s', Q a s' -> Q' a s') -> (b = false -> P) -> wpx m Q' Qe P s.
Proof. unfold guarded, wpx, wp. destruct b; destruct (m s); naive_solver. Qed.

Section MemoryInstructions.
Context (E : ExecutorConfig).

(** The address of a load or store. *)
Definition address (i : Instruction.t) (s : Executor.t) : Z :=
  Rv64.reg (Rv64.get (abs s) (Instruction.op_b i) + Instruction.op_c i).

Lemma memory_format i : operands i -> uses_memory i = true ->
  Instruction.imm_b i = false /\ Instruction.imm_c i = true.
Proof.
  intros Hi Hm. pose proof (op_format i Hi) as Hf.
  unfold format_ok, uses_memory, Instruction.is_memory_load_instruction, Instruction.is_memory_store_instruction in *.
  destruct (Instruction.opcode i); try discriminate; now case_bool.
Qed.

Lemma mem_of_value s addr a : a / 8 = addr / 8 -> Rv64.mem (abs s) a = byte_of (value_at s (inr (addr / 8))) a.
Proof. intros H. cbn. now rewrite H. Qed.

Lemma execute_load_wpx i s n sign : wf s -> operands i -> Rv64.load_format (Instruction.opcode i) = Some (n, sign) ->
  let addr := address i s in
  let ok := Rv64.mapped addr && permits s PROT_READ addr in
  wpx (execute_load E i)
    (fun _ s' => ok && Rv64.aligned n addr = true /\
      done_with E i (Some (inl (Instruction.op_a i), if Instruction.op_a i =? 0 then 0
                           else Rv64.load (Rv64.mem (abs s)) n sign addr)) s s')
    (fun e => e = InvalidMemoryAccess (Instruction.opcode i) addr /\ Rv64.aligned n addr = false)
    (ok = false) s.
Proof.
  intros Hs Hi Hl addr ok.
  destruct (memory_format i Hi) as [Eb Ec]; [unfold uses_memory, Instruction.is_memory_load_instruction;
    now destruct (Instruction.opcode i)|].
  unfold execute_load, load_rr, Operands.i_type. rewrite !operand_reg by (now apply Hi).
  apply wpx_bind, wpx_bind, wpx_bind, wpx_wp, wp_ret, wpx_bind, wpx_wp, wp_ret, wpx_wp, wp_ret.
  apply wpx_bind, wpx_wp. eapply wp_mono; [now apply rr_cpu_wp|]. intros b s1 (-> & H1 & B1). cbv zeta.
  change (_ +ₗ _) with (Rv64.reg (value_at s (inl (Instruction.op_b i)) + Instruction.op_c i)).
  rewrite <- get_abs by done. fold (address i s). fold addr.
  apply wpx_bind. eapply (wpx_guarded ok).
  { unfold ok. rewrite <- (permits_frame _ _ _ _ _ H1). apply mr_cpu_wp. }
  2: done.
  intros Hok v s2 (-> & H2 & M2). rewrite (frame_value _ _ _ H1). cbn [written].
  apply wpx_wp, wp_ret. apply wpx_bind.
  rewrite (load_result_spec _ _ _ (Rv64.mem (abs s))), Hl by (apply Hs || apply mem_of_value).
  cbn [mbind option_bind]. destruct (Rv64.aligned n addr) eqn:Hal; [|now split].
  apply wpx_wp, wp_ret, wpx_wp, rw_then. intros s3 H3. apply wp_ret. rewrite Hok. split; [done|].
  assert (H12 : quiet s s2) by (etransitivity; eassumption).
  split; [eapply writes_quiet; eassumption|]. intros Ht. apply H3; [done|..].
  - intros _. apply M2. unfold traced in Ht. now apply andb_true_iff in Ht.
  - intros _. split; [intros _|congruence]. now apply (frame_acc _ _ _ H2), B1.
Qed.

(** A store narrower than a double word keeps the other bytes of a location
    that was accessed before, or that has no initial value. *)
Definition hint_safe (i : Instruction.t) (s : Executor.t) : Prop :=
  Instruction.opcode i = SD \/ entry_at (inr (address i s / 8)) s <> None \/
  initial_value s (inr (address i s / 8)) = 0.

Definition stored_value (s : Executor.t) (l : loc) : Z :=
  match entry_at l s with Some e => MemoryEntry.value e | None => 0 end.

Lemma double_word_wp addr s :
  guarded (align addr <? 2 ^ MAX_LOG_ADDR) (double_word E (align addr))
    (fun v s' => v = stored_value s (inr (addr / 8)) /\ quiet s s') s.
Proof.
  unfold double_word, page_loc. replace (align addr / 8) with (addr / 8) by (unfold align; lia_mod).
  destruct (align addr <? 2 ^ MAX_LOG_ADDR); [|reflexivity].
  apply wp_bind, wp_ret, wp_bind, wp_gets, wp_bind, wp_calm; [calm|]. intros _ s1 H1. now apply wp_ret.
Qed.

Lemma stored_value_u64 s l : wf s -> is_u64 (stored_value s l).
Proof.
  intros Hs. pose proof (wf_values s Hs l) as H. unfold value_at, stored_value in *.
  destruct (entry_at l s); [done|]. unfold fits. lia.
Qed.

(** The double word written back is that of the machine. *)
Lemma hint_safe_merged i s n v : wf s -> hint_safe i s ->
  Rv64.store_format (Instruction.opcode i) = Some n -> Rv64.aligned n (address i s) = true -> is_u64 v ->
  merged v (stored_value s (inr (address i s / 8))) (address i s mod 8) (Z.of_nat n) =
  merged v (value_at s (inr (address i s / 8))) (address i s mod 8) (Z.of_nat n).
Proof.
  intros Hs H Hf Ha Hv. pose proof (stored_value_u64 s (inr (address i s / 8)) Hs) as Hu. destruct H as [H|H].
  - rewrite H in Hf. injection Hf as <-. apply offset_8 in Ha. replace (address i s mod 8) with 0 by lia.
    rewrite !merged_8; [done|done|apply Hs|done..].
  - f_equal. unfold stored_value, value_at. destruct (entry_at _ s); [done|]. now destruct H as [H|H].
Qed.

(** Reading a register leaves the entries of memory as they are. *)
Lemma rr_cpu_entry r p k : preserves (same (entry_at (inr k))) (rr_cpu E r p).
Proof.
  assert (forall e, preserves (same (entry_at (inr k))) (set_entry (inl r) e)) as Hset.
  { intros e. apply preserves_modify. intros s. unfold same, entry_at. cbn. now rewrite lookup_insert_ne. }
  unfold rr_cpu, rr_traced, rr, timestamp, init_entry, count_local_mem, record_local, save_checkpoint, save_fork,
    upd_counts, upd_accesses. walk_same.
Qed.
Lemma rr_cpu_memory_wp r p k s :
  p <> MemoryAccessPosition.UntrustedInstruction ->
  wp (rr_cpu E r p) (fun v s' => (v = value_at s (inl r) /\ quiet s s' /\
    (traced E = true -> at_position p (Executor.memory_accesses s'))) /\ entry_at (inr k) s' = entry_at (inr k) s) s.
Proof.
  intros Hp. pose proof (rr_cpu_wp E r p s Hp) as W. pose proof (rr_cpu_entry r p k s) as N.
  unfold wp in *. now destruct (rr_cpu E r p s).
Qed.

Lemma execute_store_wpx i s n : wf s -> operands i ->
  Rv64.store_format (Instruction.opcode i) = Some n ->
  let addr := address i s in
  let ok := Rv64.mapped addr && permits s PROT_WRITE addr in
  wpx (execute_store E i)
    (fun _ s' => ok && Rv64.aligned n addr = true /\
      done_with E i (Some (inr (addr / 8),
        merged (Rv64.get (abs s) (Instruction.op_a i)) (stored_value s (inr (addr / 8))) (addr mod 8) (Z.of_nat n))) s s')
    (fun e => e = InvalidMemoryAccess (Instruction.opcode i) addr /\ Rv64.aligned n addr = false)
    (ok = false) s.
Proof.
  intros Hs Hi Hl addr ok.
  destruct (memory_format i Hi) as [Eb Ec]; [unfold uses_memory, Instruction.is_memory_store_instruction;
    rewrite orb_comm; now destruct (Instruction.opcode i)|].
  unfold execute_store, store_rr, Operands.s_type. rewrite !operand_reg by (now apply Hi).
  apply wpx_bind, wpx_bind, wpx_bind, wpx_wp, wp_ret, wpx_bind, wpx_wp, wp_ret, wpx_wp, wp_ret. cbv zeta.
  apply wpx_bind, wpx_wp. eapply wp_mono; [now apply (rr_cpu_memory_wp _ _ (addr / 8))|].
  intros b s1 [(-> & H1 & B1) N1].
  apply wpx_bind, wpx_wp. eapply wp_mono; [now apply (rr_cpu_memory_wp _ _ (addr / 8))|].
  intros a s2 [(-> & H2 & A2) N2].
  change (_ +ₗ _) with (Rv64.reg (value_at s (inl (Instruction.op_b i)) + Instruction.op_c i)).
  rewrite (frame_value _ _ _ H1). cbn [written]. rewrite <- !get_abs by done. fold (address i s). fold addr.
  assert (H12 : quiet s s2) by (etransitivity; eassumption).
  apply wpx_bind. eapply wpx_guarded; [apply double_word_wp| |].
  2: { intros Hn. unfold ok. rewrite double_word_addr, Hn. now rewrite andb_false_r. }
  intros _ v s3 (-> & H3). assert (H13 : quiet s s3) by (etransitivity; eassumption).
  pose proof (stored_value_u64 s (inr (addr / 8)) Hs) as Hu.
  assert (stored_value s2 (inr (addr / 8)) = stored_value s (inr (addr / 8))) as ->
    by (unfold stored_value; now rewrite N2, N1).
  assert (Ua : is_u64 (Rv64.get (abs s) (Instruction.op_a i))) by (rewrite get_abs; [apply Hs|done]).
  apply wpx_wp, wp_ret, wpx_bind. rewrite store_result_spec, Hl by done. cbn [mbind option_bind].
  destruct (Rv64.aligned n addr) eqn:Hal; [|now split].
  apply wpx_wp, wp_ret. apply wpx_bind. eapply (wpx_guarded ok).
  { unfold ok. rewrite <- (permits_frame _ _ _ _ _ H13). apply mw_cpu_wp. }
  2: done.
  intros -> [] s4 [H4 M4]. apply wpx_wp, wp_ret. split; [done|].
  split; [eapply frame_quiet_l; eassumption|]. intros Ht. pose proof (frame_acc _ _ _ H4) as (A4 & B4 & _).
  pose proof (frame_acc _ _ _ H3) as (A3 & B3 & _). pose proof (frame_acc _ _ _ H2) as (_ & B2' & _).
  split_and!; [now apply A4, A3, A2|intros _; now apply B4, B3, B2', B1|congruence|].
  intros _. apply M4. unfold traced in Ht. now apply andb_true_iff in Ht.
Qed.
End MemoryInstructions.
(** ** Control flow *)
Lemma sign_extend_imm_21 v : sign_extend_imm v 21 = sext 21 v.
Proof.
  unfold sign_extend_imm. cbv zeta. rewrite Z.shiftl_mul_pow2, Z.shiftr_div_pow2 by lia.
  change (64 - 21) with 43. solve_ints.
Qed.
Lemma sign_extend_imm_12 v : sign_extend_imm v 12 = sext 12 v.
Proof.
  unfold sign_extend_imm. cbv zeta. rewrite Z.shiftl_mul_pow2, Z.shiftr_div_pow2 by lia.
  change (64 - 12) with 52. solve_ints.
Qed.

(** The target of a jump, through signed arithmetic. *)
Lemma jump_target b c w : 0 < w <= 64 -> c = u64 (sext w c) -> u64 (i64 (i64 b + sext w c)) = Rv64.reg (b + c).
Proof.
  intros Hw Hc. unfold Rv64.reg. change (Z.modulo (b + c) (2 ^ 64)) with (u64 (b + c)). rewrite Hc at 2.
  generalize (sext w c). intros d. solve_ints.
Qed.

Lemma clear_lsb t : is_u64 t -> Z.land t (not64 1) = t - t mod 2.
Proof.
  intros Ht. replace (t - t mod 2) with ((t / 2) * 2 ^ 1) by lia_mod.
  rewrite <- Z.shiftl_mul_pow2 by lia. apply Z.bits_inj'. intros i Hi.
  rewrite Z.land_spec, Z.shiftl_spec by lia. destruct (Z.eq_dec i 0) as [->|Hi0].
  { rewrite (Z.testbit_neg_r (t / 2)) by lia. apply andb_false_r. }
  change (t / 2) with (t / 2 ^ 1). rewrite Z.div_pow2_bits, Z.sub_add by lia.
  destruct (Z.lt_ge_cases i 64).
  - rewrite not64_testbit by lia. change 1 with (2 ^ 0) at 1. rewrite Z.pow2_bits_eqb by lia.
    destruct (Z.eqb_spec 0 i); [lia|]. apply andb_true_r.
  - now rewrite (u64_high_bits t i).
Qed.

Section ControlFlow.
Context (E : ExecutorConfig).

Lemma execute_branch_wp i np s : wf s -> operands i -> Instruction.is_branch_instruction i = true ->
  wp (execute_branch E i np) (fun r s' =>
    exists taken, Rv64.branch (Instruction.opcode i) (Rv64.get (abs s) (Instruction.op_a i))
                    (Rv64.get (abs s) (Instruction.op_b i)) = Some taken /\
    r.2 = (if taken then Rv64.reg (Rv64.pc (abs s) + Instruction.op_c i) else np) /\
    done_with E i None s s') s.
Proof.
  intros Hs Hi Hb.
  assert (Instruction.imm_b i = false /\ Instruction.imm_c i = true /\ uses_memory i = false) as (Eb & Ec & Em).
  { pose proof (op_format i Hi) as Hf. unfold format_ok, Instruction.is_branch_instruction, uses_memory,
      Instruction.is_memory_load_instruction, Instruction.is_memory_store_instruction in *.
    destruct (Instruction.opcode i); try discriminate; now case_bool. }
  unfold execute_branch, branch_rr, Operands.b_type, get_pc. rewrite !operand_reg by (now apply Hi).
  apply wp_bind, wp_bind, wp_bind, wp_ret, wp_bind, wp_ret, wp_ret. cbv zeta.
  apply rr_then; [done|]. intros s1 H1 B1. apply rr_then; [done|]. intros s2 H2 A2. apply wp_ret.
  rewrite (frame_value _ _ _ H1). cbn [written]. rewrite <- !get_abs by done.
  rewrite branch_taken_spec by (rewrite get_abs; [apply Hs|done]).
  assert (exists t, Rv64.branch (Instruction.opcode i) (Rv64.get (abs s) (Instruction.op_a i))
                      (Rv64.get (abs s) (Instruction.op_b i)) = Some t) as [t Ht].
  { unfold Instruction.is_branch_instruction in Hb. destruct (Instruction.opcode i); try discriminate; cbn; eauto. }
  rewrite Ht. apply wp_bind, wp_ret, wp_bind, wp_gets, wp_ret. exists t. split; [done|].
  assert (H12 : quiet s s2) by (etransitivity; eassumption). split; [now rewrite (frame_pc _ _ _ H12)|].
  split; [done|]. intros Htr. pose proof (frame_acc _ _ _ H2) as (_ & B2 & _).
  split_and!; [now apply A2|intros _; now apply B2, B1|congruence|congruence].
Qed.

Lemma execute_jump_wp i s : wf s -> operands i -> Instruction.is_jump_instruction i = true ->
  wp (execute_jump E i) (fun r s' =>
    r.2 = match Instruction.opcode i with
          | JAL => Rv64.reg (Rv64.pc (abs s) + Instruction.op_b i)
          | _ => let t := Rv64.reg (Rv64.get (abs s) (Instruction.op_b i) + Instruction.op_c i) in t - t mod 2
          end /\
    done_with E i (Some (inl (Instruction.op_a i),
      if Instruction.op_a i =? 0 then 0 else Rv64.reg (Rv64.pc (abs s) + 4))) s s') s.
Proof.
  intros Hs Hi Hj. pose proof (op_format i Hi) as Hf.
  assert (Em : uses_memory i = false).
  { unfold uses_memory, Instruction.is_jump_instruction, Instruction.is_memory_load_instruction,
      Instruction.is_memory_store_instruction in *. now destruct (Instruction.opcode i). }
  unfold Instruction.is_jump_instruction, format_ok, execute_jump, Operands.j_type, Operands.i_type, get_pc in *.
  destruct (Instruction.opcode i) eqn:Eop; try discriminate;
    apply andb_true_iff in Hf as [[F1 F2]%andb_true_iff F3%Z.eqb_eq]; rewrite ?negb_true_iff in F1;
    rewrite ?(operand_reg (Instruction.op_a i)), ?(operand_reg (Instruction.op_b i)) by now apply Hi.
  - apply wp_bind, wp_bind, wp_ret, wp_ret. cbv zeta. apply wp_bind, wp_gets, rw_then. intros s1 H1. apply wp_ret.
    rewrite sign_extend_imm_21. split; [now apply jump_target|]. split; [apply H1|].
    intros Ht. apply H1; [done|congruence|]. intros _. unfold uses_b. split; intros; [|congruence].
    now rewrite F1 in *.
  - apply wp_bind, wp_bind, wp_ret, wp_bind, wp_ret, wp_ret. cbv zeta.
    apply rr_then; [done|]. intros s1 H1 B1. apply wp_bind, wp_gets, rw_then. intros s2 H2. apply wp_ret.
    rewrite sign_extend_imm_12, jump_target, <- get_abs, clear_lsb by (done || lia || apply reg_u64).
    split; [done|]. change (Rv64.pc (abs s)) with (ExecutionState.pc (Executor.state s)).
    rewrite <- (frame_pc _ _ _ H1). split; [eapply writes_quiet; eassumption|].
    intros Ht. apply H2; [done|congruence|]. intros _. split; [intros _; now apply B1|congruence].
Qed.
End ControlFlow.
(** ** Retiring an instruction *)

(** From the state before an instruction to the state after it. *)
Record steps (w : option (loc * Z)) (np : Z) (s s' : Executor.t) : Prop := {
  steps_pc : ExecutionState.pc (Executor.state s') = np;
  steps_clk : ExecutionState.clk (Executor.state s') = ExecutionState.clk (Executor.state s) +ₗ 8;
  steps_context : Executor.context s' = Executor.context s;
  steps_value : forall l, value_at s' l = written w (value_at s) l;
  steps_prot : forall p, prot_at s' p = prot_at s p }.

Lemma count_instruction_calm E i : calm (count_instruction E i).
Proof. unfold count_instruction, upd_report, upd_counts. calm. Qed.

Lemma retire_wp E i w a b c clk np code ec s s1 :
  traced E = is_trace E -> done_with E i w s s1 -> format_ok i = true -> plain i = true ->
  wp (retire_instruction E i (a, b, c, clk, np, code, ec)) (fun _ => steps w np s) s1.
Proof.
  intros HE [H1 Hr] Hf Hp. unfold retire_instruction, get_pc. cbv zeta. apply wp_bind, wp_gets.
  apply wp_bind, wp_calm; [unfold upd_counts; calm|]. intros _ s2 H2. apply wp_bind.
  eapply (wp_mono _ (fun _ => quiet s2)).
  { destruct (is_trace E); [|now apply wp_ret]. apply wp_bind, wp_gets, emit_events_wp; [|done..].
    eapply recorded_mono; [apply (frame_acc _ _ _ H2)|auto]. }
  intros [] s3 H3. cbv beta in H3.
  assert (H : frame w s s3) by (eapply frame_quiet_r; [exact H1|]; etransitivity; eassumption).
  clear -H. destruct H as [P C X I N V R A]. split; cbn; congruence || done.
Qed.

(** ** The machine after the instruction *)
Lemma steps_permits w np s s' bit addr : steps w np s s' -> permits s' bit addr = permits s bit addr.
Proof. intros H. unfold permits, Executor.program. now rewrite (steps_context _ _ _ _ H), (steps_prot _ _ _ _ H). Qed.

Lemma steps_wf w np s s' : wf s -> steps w np s s' -> is_u64 np ->
  (forall l v, w = Some (l, v) -> is_u64 v /\ (l = inl 0 -> v = 0)) -> wf s'.
Proof.
  intros [P V X] H Hn Hw. split; [now rewrite (steps_pc _ _ _ _ H)|intros l|]; rewrite (steps_value _ _ _ _ H).
  - unfold written. destruct w as [[l' v]|]; [|apply V]. case_decide; [now apply (Hw l' v)|apply V].
  - unfold written. destruct w as [[l' v]|]; [|done]. case_decide; [now apply (Hw l' v)|done].
Qed.

Lemma steps_none np s s' : wf s -> steps None (Rv64.reg np) s s' -> abs s' ≡ Rv64.jump (abs s) np /\ wf s'.
Proof.
  intros Hs H. split; [|eapply steps_wf; [done..|apply reg_u64|discriminate]].
  split; intros; cbn; rewrite ?(steps_value _ _ _ _ H), ?(steps_permits _ _ _ _ _ _ H); try done. apply H.
Qed.

Lemma steps_reg rd v np s s' : wf s -> is_u64 v -> 
  steps (Some (inl rd, if rd =? 0 then 0 else v)) (Rv64.reg np) s s' ->
  abs s' ≡ Rv64.jump (Rv64.set (abs s) rd v) np /\ wf s'.
Proof.
  intros Hs Hv H. split.
  - split; intros; cbn; rewrite ?(steps_value _ _ _ _ H), ?(steps_permits _ _ _ _ _ _ H); try done; [apply H|].
    cbn. case_decide as D; [injection D as ->; now rewrite Z.eqb_refl|].
    destruct (Z.eqb_spec r rd); [congruence|done].
  - eapply steps_wf; [done..|apply reg_u64|]. intros l v' [= <- <-].
    destruct (Z.eqb_spec rd 0) as [->|]; [split; [unfold fits; lia|done]|split; [done|congruence]].
Qed.

Lemma steps_mem i s s' n : wf s -> Rv64.store_format (Instruction.opcode i) = Some n ->
  Rv64.aligned n (address i s) = true ->
  steps (Some (inr (address i s / 8), merged (Rv64.get (abs s) (Instruction.op_a i))
    (value_at s (inr (address i s / 8))) (address i s mod 8) (Z.of_nat n)))
    (Rv64.reg (Rv64.pc (abs s) + 4)) s s' ->
  abs s' ≡ Rv64.next (Rv64.set_mem (abs s)
             (Rv64.store (Rv64.mem (abs s)) n (address i s) (Rv64.get (abs s) (Instruction.op_a i)))) /\ wf s'.
Proof.
  intros Hs Hf Ha H. set (addr := address i s) in *.
  assert (Hin : addr mod 8 + Z.of_nat n <= 8).
  { apply aligned_inside; [|done]. unfold width. destruct (Instruction.opcode i); try discriminate; injection Hf as <-; lia. }
  split.
  - split; intros; cbn; rewrite ?(steps_value _ _ _ _ H), ?(steps_permits _ _ _ _ _ _ H); try done; [apply H|].
    cbn. case_decide as D.
    + injection D as D. apply merged_bytes; [done|done|]. cbn. now rewrite D.
    + unfold Rv64.store. destruct (Z.leb_spec addr addr0), (Z.ltb_spec addr0 (addr + Z.of_nat n)); cbn; try done.
      exfalso. apply D. f_equal. lia_mod.
  - eapply steps_wf; [done..|apply reg_u64|]. intros l v [= <- <-]. split; [apply merged_u64, Hs|done].
Qed.
(** ** The refinement *)

(** The outcomes of the executor against those of the machine: a step, a
    misaligned access reported as an error, a denied one as a panic. *)
Definition stepped (i : Instruction.t) (s s' : Executor.t) : Prop :=
  exists a, Rv64.step i (abs s) = Rv64.Next a /\ abs s' ≡ a /\ wf s' /\
    ExecutionState.clk (Executor.state s') = ExecutionState.clk (Executor.state s) +ₗ 8.
Definition trapped (i : Instruction.t) (s : Executor.t) (e : ExecutionError) : Prop :=
  match Rv64.step i (abs s) with
  | Rv64.Trap op addr misaligned _ => e = InvalidMemoryAccess op addr /\ misaligned = true
  | Rv64.Break => e = Breakpoint
  | Rv64.Illegal => e = Unimplemented
  | _ => False
  end.
Definition denied (i : Instruction.t) (s : Executor.t) : Prop :=
  match Rv64.step i (abs s) with Rv64.Trap _ _ _ d => d = true | _ => False end.

Lemma stepped_intro i s s' w np a : Rv64.step i (abs s) = Rv64.Next a -> steps w np s s' ->
  abs s' ≡ a /\ wf s' -> stepped i s s'.
Proof. intros Ha H [H1 H2]. exists a. split_and!; [done..|apply H]. Qed.

(** An instruction is in one class of opcodes. *)
Ltac solve_class :=
  unfold plain, Instruction.is_alu_instruction, Instruction.is_memory_load_instruction,
    Instruction.is_memory_store_instruction, Instruction.is_branch_instruction, Instruction.is_jump_instruction,
    Instruction.is_utype_instruction, Instruction.is_ecall_instruction, Instruction.is_ebreak_instruction,
    Instruction.is_unimp_instruction in *;
  match goal with |- context [Instruction.opcode ?i] => now destruct (Instruction.opcode i) end.

(** The opcode classes of the code are those of the manual. *)
Lemma load_class i : Instruction.is_memory_load_instruction i = true -> exists n sign,
  Rv64.load_format (Instruction.opcode i) = Some (n, sign) /\ forall a,
  Rv64.step i a =
    let addr := Rv64.reg (Rv64.get a (Instruction.op_b i) + Instruction.op_c i) in
    if Rv64.mapped addr && Rv64.may_read a addr && Rv64.aligned n addr then
      Rv64.Next (Rv64.next (Rv64.set a (Instruction.op_a i) (Rv64.load (Rv64.mem a) n sign addr)))
    else Rv64.Trap (Instruction.opcode i) addr (negb (Rv64.aligned n addr)) (negb (Rv64.mapped addr && Rv64.may_read a addr)).
Proof.
  unfold Instruction.is_memory_load_instruction, Rv64.step.
  destruct (Instruction.opcode i); try discriminate; intros _; cbn; eauto.
Qed.
Lemma store_class i : Instruction.is_memory_store_instruction i = true -> exists n,
  Rv64.store_format (Instruction.opcode i) = Some n /\ forall a,
  Rv64.step i a =
    let addr := Rv64.reg (Rv64.get a (Instruction.op_b i) + Instruction.op_c i) in
    if Rv64.mapped addr && Rv64.may_write a addr && Rv64.aligned n addr then
      Rv64.Next (Rv64.next (Rv64.set_mem a (Rv64.store (Rv64.mem a) n addr (Rv64.get a (Instruction.op_a i)))))
    else Rv64.Trap (Instruction.opcode i) addr (negb (Rv64.aligned n addr)) (negb (Rv64.mapped addr && Rv64.may_write a addr)).
Proof.
  unfold Instruction.is_memory_store_instruction, Rv64.step.
  destruct (Instruction.opcode i); try discriminate; intros _; cbn; eauto.
Qed.

Section Refines.
Context (precompile : SyscallCode.t -> Z -> Z -> Api.t) (run : M unit) (E : ExecutorConfig).
Context (i : Instruction.t) (s : Executor.t) (Hs : wf s) (Hi : operands i).
Abbreviation dispatch := (dispatch_instruction precompile run E i
  (ExecutionState.clk (Executor.state s)) (ExecutionState.pc (Executor.state s))).

(** What the instruction part leaves to [retire_instruction]. *)
Definition dispatched (r : Z * Z * Z * Z * Z * SyscallCode.t * Z) (s1 : Executor.t) : Prop :=
  exists w, done_with E i w s s1 /\ plain i = true /\
    forall s', steps w (let '(_, _, _, _, np, _, _) := r in np) s s' -> stepped i s s'.

Lemma load_u64 n sign addr : Rv64.load_format (Instruction.opcode i) = Some (n, sign) ->
  Rv64.aligned n addr = true -> is_u64 (Rv64.load (Rv64.mem (abs s)) n sign addr).
Proof using.
  intros Hf Ha. unfold Rv64.load. destruct sign; [apply reg_u64|].
  assert (Hw : width n) by (unfold width; destruct (Instruction.opcode i); try discriminate; injection Hf as <-; lia).
  eapply fits_mono; [|eapply load_bytes_fits; [exact Ha|exact Hw|intros a; apply mem_of_value]].
  unfold width in Hw. lia.
Qed.

Lemma dispatch_alu : Instruction.is_alu_instruction i = true ->
  wpx dispatch dispatched (trapped i s) (denied i s) s.
Proof using Hs Hi.
  intros Ha. unfold dispatch_instruction. rewrite Ha. apply wpx_wp, wp_bind.
  eapply wp_mono; [now apply execute_alu_wp|]. intros [[a b] c] s1 (v & Hv & H1). apply wp_ret.
  eexists. split; [exact H1|]. split; [solve_class|].
  intros s' H. eapply stepped_intro; [|exact H|apply steps_reg; [done|eapply alu_u64; exact Hv|exact H]].
  unfold Rv64.step. now rewrite Hv.
Qed.

Lemma dispatch_load : Instruction.is_memory_load_instruction i = true ->
  wpx dispatch dispatched (trapped i s) (denied i s) s.
Proof using Hs Hi.
  intros Hl. destruct (load_class i Hl) as (n & sign & Hf & Hst).
  assert (Ha : Instruction.is_alu_instruction i = false /\ plain i = true)
    by solve_class.
  destruct Ha as [Ha Hp]. unfold dispatch_instruction, trapped, denied. rewrite Ha, Hl, !Hst. fold (address i s).
  set (addr := address i s). cbv zeta. cbn [Rv64.may_read abs].
  apply wpx_bind. pose proof (execute_load_wpx E i s n sign Hs Hi Hf) as W. cbv zeta in W. fold addr in W.
  unfold wpx in *. destruct (execute_load E i s) as [[[a b] c] s1|e s1| |].
  - destruct W as [Hok H1]. eexists. split; [exact H1|]. split; [done|]. intros s' H.
    eapply stepped_intro; [|exact H|apply steps_reg; [done| |exact H]].
    + rewrite Hst. fold (address i s). fold addr. cbn [Rv64.may_read abs]. now rewrite Hok.
    + apply load_u64; [done|]. now apply andb_true_iff in Hok.
  - destruct W as [-> Hal]. rewrite Hal, andb_false_r. done.
  - rewrite W. done.
  - done.
Qed.

Lemma dispatch_store : Instruction.is_memory_store_instruction i = true -> hint_safe i s ->
  wpx dispatch dispatched (trapped i s) (denied i s) s.
Proof using Hs Hi.
  intros Hl Hh. destruct (store_class i Hl) as (n & Hf & Hst).
  assert (Ha : Instruction.is_alu_instruction i = false /\ Instruction.is_memory_load_instruction i = false /\ plain i = true)
    by solve_class.
  destruct Ha as (Ha & Hm & Hp). unfold dispatch_instruction, trapped, denied. rewrite Ha, Hm, Hl, !Hst. fold (address i s).
  cbv zeta. cbn [Rv64.may_write abs].
  apply wpx_bind. pose proof (execute_store_wpx E i s n Hs Hi Hf) as W. cbv zeta in W.
  unfold wpx in *. destruct (execute_store E i s) as [[[a b] c] s1|e s1| |].
  - destruct W as [Hok H1]. rewrite (hint_safe_merged i s n) in H1
      by (done || (now apply andb_true_iff in Hok) || (rewrite get_abs; [apply Hs|done])).
    eexists. split; [exact H1|]. split; [done|]. intros s' H.
    eapply stepped_intro; [|exact H|apply steps_mem; [done|done| |exact H]].
    + rewrite Hst. fold (address i s). cbn [Rv64.may_write abs]. now rewrite Hok.
    + now apply andb_true_iff in Hok.
  - destruct W as [-> Hal]. rewrite Hal, andb_false_r. done.
  - rewrite W. done.
  - done.
Qed.

Lemma dispatch_branch : Instruction.is_branch_instruction i = true ->
  wpx dispatch dispatched (trapped i s) (denied i s) s.
Proof using Hs Hi.
  intros Hb.
  assert (Ha : Instruction.is_alu_instruction i = false /\ Instruction.is_memory_load_instruction i = false /\
    Instruction.is_memory_store_instruction i = false /\ plain i = true)
    by solve_class.
  destruct Ha as (Ha & Hm & Hm' & Hp). unfold dispatch_instruction. rewrite Ha, Hm, Hm', Hb.
  apply wpx_wp, wp_bind. eapply wp_mono; [now apply execute_branch_wp|].
  intros [[[a b] c] np] s1 (t & Ht & Hnp & H1). cbn [snd] in Hnp. subst np. apply wp_ret.
  eexists. split; [exact H1|]. split; [done|]. intros s' H.
  eapply (stepped_intro _ _ _ _ _ (Rv64.jump (abs s) (if t then Rv64.pc (abs s) + Instruction.op_c i else Rv64.pc (abs s) + 4)));
    [|exact H|apply steps_none; [done|]].
  - unfold Rv64.step. rewrite Ht. unfold Instruction.is_branch_instruction in Hb. now destruct (Instruction.opcode i).
  - now destruct t.
Qed.

Lemma dispatch_jump : Instruction.is_jump_instruction i = true ->
  wpx dispatch dispatched (trapped i s) (denied i s) s.
Proof using Hs Hi.
  intros Hb.
  assert (Ha : Instruction.is_alu_instruction i = false /\ Instruction.is_memory_load_instruction i = false /\
    Instruction.is_memory_store_instruction i = false /\ Instruction.is_branch_instruction i = false /\ plain i = true)
    by solve_class.
  destruct Ha as (Ha & Hm & Hm' & Hb' & Hp). unfold dispatch_instruction. rewrite Ha, Hm, Hm', Hb', Hb.
  apply wpx_wp, wp_bind. eapply wp_mono; [now apply execute_jump_wp|].
  intros [[[a b] c] np] s1 (Hnp & H1). cbn [snd] in Hnp. subst np. apply wp_ret.
  eexists. split; [exact H1|]. split; [done|]. intros s' H. clear H1.
  unfold Instruction.is_jump_instruction, Rv64.step in *.
  destruct (Instruction.opcode i) eqn:Eop; try discriminate.
  - eapply stepped_intro; [unfold Rv64.step; rewrite Eop; reflexivity|exact H|].
    apply steps_reg; [done|apply reg_u64|exact H].
  - eapply stepped_intro; [unfold Rv64.step; rewrite Eop; reflexivity|exact H|].
    apply steps_reg; [done|apply reg_u64|]. pose proof (reg_u64 (Rv64.get (abs s) (Instruction.op_b i) + Instruction.op_c i)) as T.
    set (t := Rv64.reg (_ + Instruction.op_c i)) in *. unfold Rv64.reg at 2. rewrite Z.mod_small; [exact H|].
    unfold fits in T. lia_mod.
Qed.

Lemma dispatch_utype : Instruction.is_utype_instruction i = true ->
  wpx dispatch dispatched (trapped i s) (denied i s) s.
Proof using Hs Hi.
  intros Hu.
  assert (Ha : Instruction.is_alu_instruction i = false /\ Instruction.is_memory_load_instruction i = false /\
    Instruction.is_memory_store_instruction i = false /\ Instruction.is_branch_instruction i = false /\
    Instruction.is_jump_instruction i = false /\ plain i = true) by solve_class.
  destruct Ha as (Ha & Hm & Hm' & Hb' & Hj & Hp). unfold dispatch_instruction. rewrite Ha, Hm, Hm', Hb', Hj, Hu.
  assert (F : Instruction.imm_b i = true /\ Instruction.imm_c i = true /\ uses_memory i = false).
  { pose proof (op_format i Hi) as Hf. unfold format_ok, uses_memory in *. rewrite Hm, Hm'.
    unfold Instruction.is_utype_instruction in Hu. destruct (Instruction.opcode i); try discriminate; now case_bool. }
  destruct F as (Eb & Ec & Em). pose proof (op_b_imm i Hi Eb) as Ub.
  unfold Operands.u_type. rewrite operand_reg by apply Hi.
  apply wpx_wp, wp_bind, wp_bind, wp_ret, wp_ret, rw_then. intros s1 H1. apply wp_ret.
  eexists. split; [split; [apply H1|]|].
  { intros Ht. apply H1; [done|congruence|]. intros _. unfold uses_b. rewrite Eb, Ec. now split. }
  split; [done|]. intros s' H. unfold Instruction.is_utype_instruction in Hu.
  destruct (Instruction.opcode i) eqn:Eop; try discriminate;
    (eapply stepped_intro; [unfold Rv64.step; rewrite Eop; reflexivity|exact H|]);
    (apply steps_reg; [done| |exact H]); [apply reg_u64|done].
Qed.

Lemma dispatch_wpx : (Instruction.is_memory_store_instruction i = true -> hint_safe i s) ->
  wpx dispatch dispatched (trapped i s) (denied i s) s.
Proof using Hs Hi.
  intros Hh. destruct (Instruction.is_alu_instruction i) eqn:Ha; [now apply dispatch_alu|].
  destruct (Instruction.is_memory_load_instruction i) eqn:Hl; [now apply dispatch_load|].
  destruct (Instruction.is_memory_store_instruction i) eqn:Hst; [apply dispatch_store; auto|].
  destruct (Instruction.is_branch_instruction i) eqn:Hb; [now apply dispatch_branch|].
  destruct (Instruction.is_jump_instruction i) eqn:Hj; [now apply dispatch_jump|].
  destruct (Instruction.is_utype_instruction i) eqn:Hu; [now apply dispatch_utype|].
  pose proof (op_format i Hi) as Hf. unfold dispatch_instruction. rewrite Ha, Hl, Hst, Hb, Hj, Hu.
  unfold format_ok, wpx, trapped, Rv64.step, Instruction.is_alu_instruction, Instruction.is_memory_load_instruction,
    Instruction.is_memory_store_instruction, Instruction.is_branch_instruction, Instruction.is_jump_instruction,
    Instruction.is_utype_instruction, Instruction.is_ecall_instruction, Instruction.is_ebreak_instruction,
    Instruction.is_unimp_instruction in *.
  now destruct (Instruction.opcode i).
Qed.
End Refines.

(** [count_instruction] is not seen by the machine. *)
Lemma count_instruction_same E i s : exists s0, count_instruction E i s = Ret tt s0 /\
  Executor.state s0 = Executor.state s /\ Executor.context s0 = Executor.context s.
Proof.
  unfold count_instruction, upd_report, upd_counts, when, bind, gets, modify, ret.
  destruct (negb (UNCONSTRAINED E)), (Executor.print_report s),
    (Instruction.is_memory_load_instruction i && (Instruction.op_a i =? Register.X0)); cbn; eauto.
Qed.
Lemma abs_same s s0 : Executor.state s0 = Executor.state s -> Executor.context s0 = Executor.context s -> abs s0 = abs s.
Proof.
  intros H1 H2. unfold abs, permits, prot_at, value_at, entry_at, initial_value, Executor.program. now rewrite H1, H2.
Qed.
Lemma value_at_same s s0 l : Executor.state s0 = Executor.state s -> value_at s0 l = value_at s l.
Proof. intros H. unfold value_at, entry_at, initial_value. now rewrite H. Qed.
Lemma modes_traced E : In E [Simple; Checkpoint; Trace; Unconstrained] -> traced E = is_trace E.
Proof. intros [<-|[<-|[<-|[<-|[]]]]]; reflexivity. Qed.

(** C1. The executor implements RV64IM.  In each of its four modes, on every
    instruction other than ECALL with the operands the transpiler gives it, and
    in every state with 64-bit values and register 0 at zero,
    [execute_instruction] returns exactly when the reference machine of [Rv64]
    takes a step, and the new state reads as that machine: program counter,
    every register, every byte of memory, with the clock advanced by 8 and the
    invariant kept.  It returns [InvalidMemoryAccess] only for a misaligned
    access, panics only for an access outside of memory or denied by the page
    protections, and returns [Breakpoint] and [Unimplemented] for EBREAK and
    UNIMP.  In trace mode no event is missing an access record.  A store
    narrower than a double word is assumed to go to a location that was
    accessed before or has no hinted value. *)
Theorem execute_instruction_refines precompile run E i s
  (HE : In E [Simple; Checkpoint; Trace; Unconstrained]) (Hs : wf s) (Hi : well_formed i = true)
  (Hh : Instruction.is_memory_store_instruction i = true -> hint_safe i s) :
  match execute_instruction precompile run E i s with
  | Ret _ s' => stepped i s s'
  | Err e _ => trapped i s e
  | Panic => denied i s
  | OutOfFuel => False
  end.
Proof.
  apply modes_traced in HE. apply well_formed_operands in Hi. unfold execute_instruction, get_pc, gets, bind.
  destruct (count_instruction_same E i s) as (s0 & -> & H1 & H2). cbn beta iota.
  assert (Hs0 : wf s0).
  { destruct Hs as [P V X]. split; [now rewrite H1|intros l|]; now rewrite (value_at_same s). }
  assert (Hh0 : Instruction.is_memory_store_instruction i = true -> hint_safe i s0).
  { unfold hint_safe, address, entry_at, initial_value in *. now rewrite (abs_same s s0 H1 H2), H1. }
  pose proof (dispatch_wpx precompile run E i s0 Hs0 Hi Hh0) as W.
  unfold wpx, trapped, denied in W. rewrite (abs_same s s0 H1 H2), H1 in W.
  destruct (dispatch_instruction _ _ _ _ _ _ s0) as [r s1|e s1| |]; try done.
  destruct W as (w & Hd & Hp & Hst). destruct r as [[[[[[a b] c] clk] np] code] ec].
  pose proof (retire_wp E i w a b c clk np code ec s0 s1 HE Hd (op_format i Hi) Hp) as R.
  unfold wp in R. destruct (retire_instruction _ _ _ s1) as [[] s'| | |]; try done.
  apply Hst in R as (m & Hm & Heq & Hw & Hc). exists m. rewrite (abs_same s s0 H1 H2) in Hm.
  rewrite H1 in Hc. auto.
Qed.

Lemma sample_wf : wf (sample 0 0).
Proof.
  split; [cbn; unfold fits; lia|intros l|reflexivity].
  unfold value_at, entry_at, initial_value. cbn. rewrite !lookup_empty. unfold fits. cbn. lia.
Qed.

Lemma execute_instruction_refines_witness :
  exists s', execute_instruction no_precompile panic Trace (Instruction.new SB 6 0 0x1009 false true) (sample 0 0)
             = Ret tt s' /\ stepped (Instruction.new SB 6 0 0x1009 false true) (sample 0 0) s'.
Proof.
  set (i := Instruction.new SB 6 0 0x1009 false true).
  assert (H : returns (execute_instruction no_precompile panic Trace i (sample 0 0)) = true)
    by (vm_compute; reflexivity).
  apply returns_eq in H as ([] & s' & H). exists s'. split; [exact H|].
  pose proof (execute_instruction_refines no_precompile panic Trace i (sample 0 0)) as R. rewrite H in R.
  apply R; [now right; right; left|exact sample_wf|vm_compute; reflexivity|]. intros _. right. right. reflexivity.
Defined.
(** The sample program with a hinted double word at 0x1008. *)
Definition sample_hinted : Executor.t :=
  Executor.set_state (ExecutionState.set_uninitialized_memory {[ inr 0x201 := 0x1122334455667788 ]}
    (Executor.state (sample 0 0))) (sample 0 0).

Lemma steps_same s s0 s' w np : Executor.state s0 = Executor.state s -> Executor.context s0 = Executor.context s ->
  steps w np s0 s' -> steps w np s s'.
Proof.
  intros H1 H2 [P C X V R]. split; [done|now rewrite <- H1|now rewrite <- H2| |].
  - intros l. rewrite V. unfold written. destruct w as [[l' v]|]; [case_decide; [done|]|]; now apply value_at_same.
  - intros p. rewrite R. unfold prot_at. now rewrite H1.
Qed.

(** What any accepted store leaves in its double word. *)
Lemma accepted_store_steps precompile run E i s n :
  traced E = is_trace E -> wf s -> operands i -> Rv64.store_format (Instruction.opcode i) = Some n ->
  Rv64.mapped (address i s) && permits s PROT_WRITE (address i s) && Rv64.aligned n (address i s) = true ->
  exists s', execute_instruction precompile run E i s = Ret tt s' /\
    steps (Some (inr (address i s / 8), merged (Rv64.get (abs s) (Instruction.op_a i))
      (stored_value s (inr (address i s / 8))) (address i s mod 8) (Z.of_nat n))) (Rv64.reg (Rv64.pc (abs s) + 4)) s s'.
Proof.
  intros HE Hs Hi Hf Hok. unfold execute_instruction, get_pc, gets, bind.
  destruct (count_instruction_same E i s) as (s0 & -> & H1 & H2). cbn beta iota.
  assert (Hs0 : wf s0) by (destruct Hs as [P V X]; split; [now rewrite H1|intros l|]; now rewrite (value_at_same s)).
  pose proof (execute_store_wpx E i s0 n Hs0 Hi Hf) as W. cbv zeta in W.
  unfold address, stored_value, entry_at in *. rewrite (abs_same s s0 H1 H2), H1 in W.
  change (permits s0 PROT_WRITE ?a) with (Rv64.may_write (abs s0) a) in W. rewrite (abs_same s s0 H1 H2) in W.
  cbn [Rv64.may_write abs] in W.
  assert (Hc : Instruction.is_alu_instruction i = false /\ Instruction.is_memory_load_instruction i = false /\
    Instruction.is_memory_store_instruction i = true /\ plain i = true)
    by (revert Hf; unfold Instruction.is_memory_store_instruction, Rv64.store_format; solve_class).
  destruct Hc as (Ha & Hl & Hst & Hp). unfold dispatch_instruction. rewrite Ha, Hl, Hst. unfold bind, ret.
  unfold wpx in W. destruct (execute_store E i s0) as [[[a b] c] s1|e s1| |].
  - destruct W as [_ Hd].
    pose proof (retire_wp E i _ a b c (ExecutionState.clk (Executor.state s))
      (ExecutionState.pc (Executor.state s) +ₗ 4) SyscallCode.default 0 s0 s1 HE Hd (op_format i Hi) Hp) as R.
    unfold wp in R. destruct (retire_instruction _ _ _ s1) as [[] s'| | |]; try done.
    exists s'. split; [done|]. now apply (steps_same s s0).
  - destruct W as [_ Hal]. now rewrite Hal, andb_false_r in Hok.
  - now rewrite W in Hok.
  - done.
Qed.

(** C40. The assumption of the refinement is needed.  [store_rr] reads the old
    double word with [double_word], which gives 0 for a location that was never
    accessed, where [mw] initialises it from [uninitialized_memory].  In each
    mode, an accepted store of a well-formed instruction to a double word that
    was never accessed returns, and so does the reference machine, with the
    same memory but for the other bytes of that double word: they are 0, where
    the reference machine keeps the bytes of the hinted value. *)
Theorem narrow_store_drops_hint precompile run E i s n
  (HE : In E [Simple; Checkpoint; Trace; Unconstrained]) (Hs : wf s) (Hi : well_formed i = true)
  (Hf : Rv64.store_format (Instruction.opcode i) = Some n) :
  let addr := address i s in
  entry_at (inr (addr / 8)) s = None ->
  Rv64.mapped addr && permits s PROT_WRITE addr && Rv64.aligned n addr = true ->
  exists s' m, execute_instruction precompile run E i s = Ret tt s' /\ Rv64.step i (abs s) = Rv64.Next m /\
    forall a, if decide (a / 8 = addr / 8 /\ ~ addr <= a < addr + Z.of_nat n)
              then Rv64.mem (abs s') a = 0 /\ Rv64.mem m a = byte_of (initial_value s (inr (addr / 8))) a
              else Rv64.mem (abs s') a = Rv64.mem m a.
Proof.
  intros addr Hn Hok. apply modes_traced in HE. apply well_formed_operands in Hi.
  destruct (accepted_store_steps precompile run E i s n HE Hs Hi Hf Hok) as (s' & Hx & H). fold addr in H.
  assert (Hst : Instruction.is_memory_store_instruction i = true)
    by (revert Hf; unfold Instruction.is_memory_store_instruction; now destruct (Instruction.opcode i)).
  destruct (store_class i Hst) as (n' & Hf' & Hstep). assert (n' = n) as -> by congruence.
  exists s'. eexists. split; [done|]. rewrite Hstep. fold (address i s). fold addr. cbv zeta.
  cbn [Rv64.may_write abs]. rewrite Hok. split; [done|]. intros a. cbn [Rv64.mem Rv64.next Rv64.jump Rv64.set_mem].
  assert (addr mod 8 + Z.of_nat n <= 8) as Hin.
  { apply aligned_inside; [unfold width; destruct (Instruction.opcode i); try discriminate; injection Hf as <-; lia|].
    now apply andb_true_iff in Hok. }
  assert (stored_value s (inr (addr / 8)) = 0) as H0 by (unfold stored_value; now rewrite Hn).
  assert (value_at s (inr (addr / 8)) = initial_value s (inr (addr / 8))) as Hv by (unfold value_at; now rewrite Hn).
  assert (a / 8 = addr / 8 -> Rv64.mem (abs s') a =
    Rv64.store (fun _ => 0) n addr (Rv64.get (abs s) (Instruction.op_a i)) a) as Hw.
  { intros Ha. cbn. rewrite (steps_value _ _ _ _ H), Ha. cbn [written]. rewrite decide_True, H0 by done.
    apply merged_bytes; [done..|]. unfold byte_of. rewrite Z.div_0_l; [done|]. apply Z.pow_nonzero; lia_mod. }
  unfold Rv64.store in *. case_decide as Ha.
  - destruct Ha as [Ha Hout]. rewrite (Hw Ha).
    destruct (Z.leb_spec addr a), (Z.ltb_spec a (addr + Z.of_nat n)); cbn [andb]; try lia;
      rewrite (mem_of_value s addr a Ha), Hv; auto.
  - destruct (decide (a / 8 = addr / 8)) as [E8|N8].
    + rewrite (Hw E8). destruct (Z.leb_spec addr a), (Z.ltb_spec a (addr + Z.of_nat n)); cbn [andb]; try done; lia.
    + cbn. rewrite (steps_value _ _ _ _ H). cbn [written]. rewrite decide_False by congruence.
      destruct (Z.leb_spec addr a), (Z.ltb_spec a (addr + Z.of_nat n)); cbn [andb]; try done. lia_mod.
Qed.

Lemma sample_hinted_wf : wf sample_hinted.
Proof.
  split; [cbn; unfold fits; lia|intros l|reflexivity].
  unfold value_at, entry_at, initial_value. cbn. rewrite lookup_empty, lookup_singleton. case_decide; cbn; unfold fits; lia.
Qed.
Lemma narrow_store_drops_hint_witness :
  exists s' m, execute_instruction no_precompile panic Simple (Instruction.new SB 6 0 0x1009 false true) sample_hinted
             = Ret tt s' /\
    Rv64.step (Instruction.new SB 6 0 0x1009 false true) (abs sample_hinted) = Rv64.Next m /\
    Rv64.mem (abs s') 0x1008 = 0 /\ Rv64.mem m 0x1008 = 0x88.
Proof.
  destruct (narrow_store_drops_hint no_precompile panic Simple (Instruction.new SB 6 0 0x1009 false true) sample_hinted 1)
    as (s' & m & Hx & Hm & Ha); [now left|exact sample_hinted_wf|vm_compute; reflexivity..|].
  exists s', m. split; [exact Hx|]. split; [exact Hm|]. specialize (Ha 0x1008). rewrite decide_True in Ha.
  - destruct Ha as [-> ->]. split; [reflexivity|]. vm_compute. reflexivity.
  - replace (address (Instruction.new SB 6 0 0x1009 false true) sample_hinted) with 0x1009 by (vm_compute; reflexivity).
    split; [reflexivity|lia].
Defined.

(** ** Decoded instructions *)
Import Manual.

Lemma imm_i_sext w : exists x, imm_i w = sext 12 x.
Proof. unfold imm_i. eauto. Qed.
Lemma imm_j_sext w : exists x, imm_j w = sext 21 x.
Proof. unfold imm_j. eauto. Qed.
Lemma imm_u_operand w : operand_ok true (imm_u w) = true.
Proof. apply fitsb_spec, u64_fits. Qed.

#[local] Opaque bits imm_i imm_s imm_b imm_u imm_j.

Lemma bits_reg w lo : 0 <= bits w lo 5 < 32.
Proof. apply (bits_range w lo 5). lia. Qed.

Lemma reg_operand w lo : operand_ok false (bits w lo 5) = true.
Proof. pose proof (bits_reg w lo). unfold operand_ok. rewrite andb_true_iff, Z.leb_le, Z.ltb_lt. lia. Qed.
Lemma dest_operand w lo : operand_ok false (u8 (bits w lo 5)) = true.
Proof. pose proof (bits_reg w lo). replace (u8 _) with (bits w lo 5) by solve_ints. apply reg_operand. Qed.
Lemma imm_operand x : operand_ok true (u64 x) = true.
Proof. apply fitsb_spec, u64_fits. Qed.
Lemma shamt_operand w lo n : 0 <= n <= 64 -> operand_ok true (bits w lo n) = true.
Proof. intros Hn. pose proof (bits_range w lo n). apply fitsb_spec. apply (fits_mono n); [lia|]. unfold fits. lia. Qed.
Lemma sext_u64 k x : 0 < k <= 64 -> sext k (u64 (sext k x)) = sext k x.
Proof.
  intros Hk. rewrite <- (sext_wrap k (u64 _)) by lia. rewrite <- (sext_wrap k x) at 2 by lia. f_equal.
  rewrite <- (wrap_sext k x) by lia. unfold u64, wrap.
  rewrite <- Znumtheory.Zmod_div_mod; [done|apply Z.pow_pos_nonneg; lia..|].
  exists (2 ^ (64 - k)). rewrite <- Z.pow_add_r by lia. f_equal. lia.
Qed.

(** One goal per row of a decoding table. *)
Ltac table_rows H :=
  apply assoc_Some in H; cbn [In] in H;
  repeat match type of H with _ \/ _ => destruct H as [H|H] | False => destruct H end;
  injection H as _ <-.

Lemma decoded_operands w c : decode w = Some c -> c <> Rrs.ecall -> well_formed (Transpiler.process c) = true.
Proof.
  intros Hd Hc. unfold decode in Hd. cbv zeta in Hd.
  repeat match type of Hd with (if ?b then _ else _) = _ => destruct b end; try discriminate.
  all: try (table_rows Hd); try (injection Hd as <-); try done.
  all: unfold well_formed; cbn [Transpiler.process Instruction.from_r_type Instruction.from_i_type
    Instruction.from_i_type_shamt Instruction.from_i_type_shamt_w Instruction.from_s_type Instruction.from_b_type
    Instruction.from_u_type Instruction.op_a Instruction.op_b Instruction.op_c Instruction.imm_b
    Instruction.imm_c Instruction.opcode r_rd r_rs1 r_rs2 i_rd i_rs1 i_imm sh_rd sh_rs1 sh_shamt s_rs1 s_rs2 s_imm
    b_rs1 b_rs2 b_imm u_rd u_imm j_rd j_imm format_ok rd rs1 rs2 negb andb].
  all: unfold rd, rs1, rs2; rewrite ?dest_operand, ?reg_operand, ?imm_operand, ?shamt_operand by lia; try reflexivity.
  - destruct (imm_j_sext w) as [x ->]. rewrite sext_u64, Z.eqb_refl by lia. reflexivity.
  - destruct (imm_i_sext w) as [x ->]. rewrite sext_u64, Z.eqb_refl by lia. reflexivity.
  - now rewrite imm_u_operand.
  - now rewrite imm_u_operand.
Qed.

(** C12. What the transpiler produces is what the refinement asks for: when
    [rrs_lib]'s decoder returns, on the words of the RV64IM opcode tables, the
    fields the manual assigns, [transpile] succeeds on every sequence of such
    words, and every instruction it returns other than ECALL has register
    numbers below 32, 64-bit immediates and the operand format of its opcode. *)
Theorem transpiled_well_formed (dec : Z -> option Rrs.call)
  (decode_manual : forall w c, Manual.decode w = Some c -> dec w = Some c) (ws : list Z)
  (Hws : Forall (fun w => is_Some (Manual.decode w)) ws) :
  exists js, Transpiler.transpile dec ws = Some js /\
    Forall (fun '(i, _) => Instruction.opcode i = ECALL \/ well_formed i = true) js.
Proof.
  induction Hws as [|w ws [c Hc] _ (js & Et & Hj)]; [now exists []|].
  exists ((Transpiler.process c, w) :: js). unfold Transpiler.transpile in *. cbn [mapM].
  rewrite (decode_manual _ _ Hc). cbn [mbind option_bind]. rewrite Et. split; [done|]. constructor; [|done].
  assert (Hd : c = Rrs.ecall \/ c <> Rrs.ecall) by (destruct c; auto || (right; discriminate)).
  destruct Hd as [->|Hd]; [now left|right]. eapply decoded_operands; eassumption.
Qed.

Lemma transpiled_well_formed_witness :
  exists js, Transpiler.transpile Manual.decode [0x00500093; 0x40208133; 0xfe209ee3; 0x00000073] = Some js /\
    Forall (fun '(i, _) => Instruction.opcode i = ECALL \/ well_formed i = true) js.
Proof.
  apply (transpiled_well_formed Manual.decode); [auto|].
  repeat constructor; vm_compute; eexists; reflexivity.
Defined.
