(* ===== verification/SliceLogic.v ===== *)
(** * SliceLogic: total correctness of the methods of SyscallContext

    What a program over the context does to the machine: [changes m] says that
    the locations of [m] have new values and nothing else of the machine
    changes.  The slice accesses of [SyscallContext] return, read the words of
    the slice and write them, for slices in range whose pages permit the
    access. *)
From Stdlib Require Import ZArith Lia Bool.
From stdpp Require Import base numbers option list gmap sorting.
From S2P Require Import Prelude BigUint Isa PagedMemory SyscallCode State ExecMemory Interpreter Cost Syscalls Logic Rv64 Refinement.

(** ** Effects on several locations *)
Record changes (m : gmap loc Z) (s s' : Executor.t) : Prop := {
  changes_pc : ExecutionState.pc (Executor.state s') = ExecutionState.pc (Executor.state s);
  changes_clk : ExecutionState.clk (Executor.state s') = ExecutionState.clk (Executor.state s);
  changes_context : Executor.context s' = Executor.context s;
  changes_entries : forall l, entry_at l s <> None -> entry_at l s' <> None;
  changes_value : forall l, value_at s' l = default (value_at s l) (m !! l);
  changes_prot : forall p, prot_at s' p = prot_at s p }.

Lemma quiet_changes s s' : quiet s s' -> changes ∅ s s'.
Proof. intros []. now split. Qed.
Lemma frame_changes l v s s' : frame (Some (l, v)) s s' -> changes {[l := v]} s s'.
Proof.
  intros [? ? ? ? ? V ? ?]. split; try done. intros l'. rewrite V. cbn. rewrite lookup_singleton.
  repeat case_decide; congruence || done.
Qed.
Lemma changes_trans m1 m2 s1 s2 s3 : changes m1 s1 s2 -> changes m2 s2 s3 -> changes (m2 ∪ m1) s1 s3.
Proof.
  intros [P1 C1 X1 N1 V1 R1] [P2 C2 X2 N2 V2 R2].
  split; [congruence..|auto| |intros p; now rewrite R2].
  intros l. rewrite V2, V1, lookup_union. now destruct (m2 !! l), (m1 !! l).
Qed.
Lemma changes_quiet_l m s1 s2 s3 : quiet s1 s2 -> changes m s2 s3 -> changes m s1 s3.
Proof. intros H1%quiet_changes H2. rewrite <- (map_union_empty m). eapply changes_trans; eassumption. Qed.
Lemma changes_quiet_r m s1 s2 s3 : changes m s1 s2 -> quiet s2 s3 -> changes m s1 s3.
Proof. intros H1 H2%quiet_changes. rewrite <- (map_empty_union m). eapply changes_trans; eassumption. Qed.

Definition untrusted (s : Executor.t) : bool := Program.enable_untrusted_programs (Executor.program s).
Lemma changes_untrusted m s s' : changes m s s' -> untrusted s' = untrusted s.
Proof. intros H. unfold untrusted, Executor.program. now rewrite (changes_context _ _ _ H). Qed.

(** ** Slices *)

(** [n] aligned double words of memory. *)
Record slice (addr n : Z) : Prop := {
  slice_aligned : addr mod 8 = 0;
  slice_low : 32 <= addr;
  slice_high : addr + 8 * n <= 2 ^ 40;
  slice_length : 0 <= n }.

Definition words_at (s : Executor.t) (addr : Z) (n : nat) : list Z :=
  (fun i => value_at s (inr (addr / 8 + Z.of_nat i))) <$> seq 0 n.
Fixpoint slice_map (addr : Z) (ws : list Z) : gmap loc Z :=
  match ws with
  | [] => ∅
  | w :: ws => <[inr (addr / 8) := w]> (slice_map (addr + 8) ws)
  end.

Lemma slice_tail addr n : slice addr (Z.succ n) -> 0 <= n -> slice (addr + 8) n.
Proof. intros [A L H N] Hn. split; [lia_mod|lia..]. Qed.
Lemma slice_next addr n : slice addr n -> 0 < n -> addr +ₗ 8 = addr + 8.
Proof. intros [A L H N] Hn. apply u64_small. split; lia. Qed.
Lemma slice_mapped addr n : slice addr n -> 0 < n -> Rv64.mapped addr = true /\ align addr = addr.
Proof. intros [A L H N] Hn. unfold Rv64.mapped, align. split; [lia|]. rewrite A. lia. Qed.

Lemma words_at_cons s addr n : words_at s addr (S n) = value_at s (inr (addr / 8)) :: words_at s (addr + 8) n.
Proof.
  unfold words_at. cbn [seq]. rewrite <- fmap_S_seq, fmap_cons, <- list_fmap_compose. f_equal.
  - now rewrite Z.add_0_r.
  - apply list_fmap_ext. intros i j _. unfold compose. do 2 f_equal. lia_mod.
Qed.
Lemma words_at_length s addr n : length (words_at s addr n) = n.
Proof. unfold words_at. now rewrite length_fmap, length_seq. Qed.
Lemma words_at_quiet s s' addr n : quiet s s' -> words_at s' addr n = words_at s addr n.
Proof. intros H. apply list_fmap_ext. intros. apply (frame_value _ _ _ H). Qed.

Lemma slice_map_lookup addr ws l :
  slice_map addr ws !! l =
  match l with
  | inl _ => None
  | inr k => if addr / 8 <=? k then ws !! Z.to_nat (k - addr / 8) else None
  end.
Proof.
  revert addr. induction ws as [|w ws IH]; intros addr; cbn [slice_map].
  - rewrite lookup_empty. destruct l as [|k]; [done|]. now case_match.
  - rewrite lookup_insert, IH. replace ((addr + 8) / 8) with (addr / 8 + 1) by lia_mod.
    destruct l as [r|k]; [now case_decide|]. case_decide as Hk; [injection Hk as ->|].
    + now rewrite Z.leb_refl, Z.sub_diag.
    + assert (k <> addr / 8) by congruence. destruct (Z.leb_spec (addr / 8 + 1) k), (Z.leb_spec (addr / 8) k); [|lia|lia|done].
      replace (Z.to_nat (k - addr / 8)) with (S (Z.to_nat (k - (addr / 8 + 1)))) by lia. done.
Qed.

Lemma slice_map_cons addr w ws : slice_map (addr + 8) ws ∪ {[inr (addr / 8) := w]} = slice_map addr (w :: ws).
Proof.
  cbn [slice_map]. rewrite <- (map_union_empty (slice_map (addr + 8) ws)) at 2. rewrite insert_union_r; [done|].
  rewrite slice_map_lookup. destruct (Z.leb_spec ((addr + 8) / 8) (addr / 8)); [lia_mod|done].
Qed.

Lemma words_at_lookup s addr n i : (i < n)%nat -> words_at s addr n !! i = Some (value_at s (inr (addr / 8 + Z.of_nat i))).
Proof. intros Hi. unfold words_at. rewrite list_lookup_fmap, lookup_seq_lt by done. done. Qed.
Lemma words_at_app s addr n m : words_at s addr (n + m) = words_at s addr n ++ words_at s (addr + 8 * Z.of_nat n) m.
Proof.
  revert addr. induction n as [|n IH]; intros addr.
  - cbn. now rewrite Z.add_0_r.
  - cbn [Nat.add]. rewrite !words_at_cons, IH. cbn [app]. do 3 f_equal. lia.
Qed.
(** The words of a slice that was written, and of one that was not. *)
Lemma words_at_written addr ws s s' : changes (slice_map addr ws) s s' -> words_at s' addr (length ws) = ws.
Proof.
  intros H. apply list_eq. intros i. destruct (decide (i < length ws)%nat) as [Hi|Hi].
  - rewrite words_at_lookup, (changes_value _ _ _ H), slice_map_lookup by done.
    rewrite (proj2 (Z.leb_le _ _)) by lia. replace (Z.to_nat _) with i by lia.
    destruct (lookup_lt_is_Some_2 ws i Hi) as [w ->]. done.
  - rewrite !lookup_ge_None_2; [done|lia|]. rewrite words_at_length. lia.
Qed.
Lemma words_at_kept addr n ws a s s' :
  changes (slice_map a ws) s s' -> addr + 8 * Z.of_nat n <= a \/ a + 8 * Z.of_nat (length ws) <= addr ->
  addr mod 8 = 0 -> a mod 8 = 0 -> words_at s' addr n = words_at s addr n.
Proof.
  intros H Hd H8 Ha. apply list_fmap_ext. intros j i [Hi Hn]%lookup_seq. cbn in Hi. subst i.
  rewrite (changes_value _ _ _ H), slice_map_lookup. destruct (Z.leb_spec (a / 8) (addr / 8 + Z.of_nat j)); [|done].
  rewrite lookup_ge_None_2; [done|]. lia_mod.
Qed.
Lemma words_at_fits s addr n : wf s -> Forall (fits 64) (words_at s addr n).
Proof. intros Hs. apply Forall_fmap, Forall_true. intros i. apply (wf_values s Hs). Qed.

(** ** Page protections *)
Definition slice_permits (s : Executor.t) (bit addr n : Z) : Prop :=
  untrusted s = true -> forall i, 0 <= i < n -> Z.land (prot_at s ((addr + i * 8) / PAGE_SIZE)) bit <> 0.

Lemma slice_permits_changes m s s' bit addr n : changes m s s' -> slice_permits s bit addr n -> slice_permits s' bit addr n.
Proof.
  intros H P Hu i Hi. rewrite (changes_prot _ _ _ H). apply P; [|done]. now rewrite <- (changes_untrusted _ _ _ H).
Qed.

Lemma touched_inv addr len prot q b :
  SyscallContext.touched addr len prot !! q = Some b ->
  b = prot /\ exists i, 0 <= i < len /\ q = u64 (addr + i * 8) / PAGE_SIZE.
Proof.
  unfold SyscallContext.touched. intros H.
  assert (Hf : forall l m, (forall i, i ∈ l -> 0 <= i < len) ->
    (m !! q = Some b -> b = prot /\ exists i, 0 <= i < len /\ q = u64 (addr + i * 8) / PAGE_SIZE) ->
    foldl (fun m i => or_insert (u64 (addr + i * 8) / PAGE_SIZE) prot m) m l !! q = Some b ->
    b = prot /\ exists i, 0 <= i < len /\ q = u64 (addr + i * 8) / PAGE_SIZE).
  { induction l as [|i l IH]; intros m Hl Hm; cbn [foldl]; [done|]. apply IH; [intros; apply Hl; now right|].
    unfold or_insert. destruct (m !! (_ / _)); [done|]. rewrite lookup_insert. case_decide as Hq; [|done].
    intros [= <-]. split; [done|]. exists i. split; [apply Hl; now left|done]. }
  eapply Hf; [|intros Hm; now rewrite lookup_empty in Hm|exact H]. intros i. rewrite elem_of_seqZ. lia.
Qed.

(** At most 512 words lie in two consecutive pages. *)
Lemma touched_pages addr n prot q b :
  slice addr n -> n <= 512 -> SyscallContext.touched addr n prot !! q = Some b ->
  b = prot /\ (q = addr / PAGE_SIZE \/ q = addr / PAGE_SIZE + 1) /\
  exists i, 0 <= i < n /\ q = (addr + i * 8) / PAGE_SIZE.
Proof.
  intros [A L H N] Hn (-> & i & Hi & ->)%touched_inv. rewrite u64_small by (split; lia).
  split; [done|]. split; [|now exists i]. unfold PAGE_SIZE. change (1 ≪ 12) with 4096. lia_mod.
Qed.

Lemma sorted_pages_adjacent m p0 :
  (forall q b, m !! q = Some b -> q = p0 \/ q = p0 + 1) ->
  Z.of_nat (length (SyscallContext.sorted_pages m)) <= 2 /\
  match SyscallContext.sorted_pages m with [(p, _); (q, _)] => q - p = 1 | _ => True end.
Proof.
  intros Hm. unfold SyscallContext.sorted_pages. set (l := merge_sort _ _).
  assert (Hp : l ≡ₚ map_to_list m) by apply merge_sort_Permutation.
  assert (Hnd : NoDup l.*1) by (rewrite Hp; apply NoDup_fst_map_to_list).
  assert (Hin : forall q, q ∈ l.*1 -> q = p0 \/ q = p0 + 1).
  { intros q Hq. rewrite Hp in Hq. apply list_elem_of_fmap in Hq as ([q' b] & -> & Hq).
    apply elem_of_map_to_list in Hq. now apply (Hm _ b). }
  assert (Hlen : (length l <= 2)%nat).
  { rewrite <- (length_fmap fst). change 2%nat with (length [p0; p0 + 1]). apply submseteq_length, NoDup_submseteq; [done|].
    intros q Hq. destruct (Hin q Hq) as [-> | ->]; set_solver. }
  split; [lia|].
  assert (Hs : Sorted SyscallContext.page_le l).
  { apply Sorted_merge_sort. intros x y. unfold SyscallContext.page_le. lia. }
  destruct l as [|[p b] [|[q b'] [|]]]; try done. cbn in Hin, Hnd.
  apply Sorted_inv in Hs as [_ Hs]. apply HdRel_inv in Hs. unfold SyscallContext.page_le in Hs. cbn in Hs.
  apply NoDup_cons in Hnd as [Hne _]. assert (p <> q) by set_solver.
  assert (Hp' : p = p0 \/ p = p0 + 1) by (apply Hin; set_solver).
  assert (Hq' : q = p0 \/ q = p0 + 1) by (apply Hin; set_solver). lia.
Qed.

Section Methods.
Context (E : ExecutorConfig).

Lemma mr_words_wp n : forall c addr s, slice addr (Z.of_nat n) ->
  wp (SyscallContext.mr_words E c addr n) (fun r s' =>
    MemoryReadRecord.value <$> r.1 = words_at s addr n /\ quiet s s') s.
Proof.
  induction n as [|n IH]; intros c addr s Hs; cbn [SyscallContext.mr_words].
  - now apply wp_ret.
  - rewrite Nat2Z.inj_succ in Hs. destruct (slice_mapped _ _ Hs) as [Hm Ha]; [lia|].
    pose proof (mr_wp E addr (SyscallContext.external_flag c) (SyscallContext.clk c) (SyscallContext.local_memory_access c) s) as H1.
    rewrite Hm, Ha in H1. apply wp_bind. eapply wp_mono; [exact H1|]. clear H1. intros [r lma] s1 [Hv H1].
    rewrite (slice_next _ _ Hs) by lia. apply wp_bind. eapply wp_mono; [apply IH, slice_tail; [exact Hs|lia]|].
    intros [rs c'] s2 [Hvs H2]. apply wp_ret. split; [|etransitivity; eassumption].
    cbn [fst] in *. rewrite words_at_cons, fmap_cons, Hv, Hvs. f_equal. now apply words_at_quiet.
Qed.

Lemma mw_words_wp ws : forall c addr s, slice addr (Z.of_nat (length ws)) ->
  wp (SyscallContext.mw_words E c addr ws) (fun _ s' => changes (slice_map addr ws) s s') s.
Proof.
  induction ws as [|w ws IH]; intros c addr s Hs; cbn [SyscallContext.mw_words slice_map].
  - apply wp_ret. now apply quiet_changes.
  - cbn [length] in Hs. rewrite Nat2Z.inj_succ in Hs. destruct (slice_mapped _ _ Hs) as [Hm Ha]; [lia|].
    pose proof (mw_wp E addr w (SyscallContext.external_flag c) (SyscallContext.clk c) (SyscallContext.local_memory_access c) s) as H1.
    rewrite Hm, Ha in H1. apply wp_bind. eapply wp_mono; [exact H1|]. clear H1. intros [r lma] s1 H1.
    rewrite (slice_next _ _ Hs) by lia. apply wp_bind. eapply wp_mono; [apply IH, slice_tail; [exact Hs|lia]|].
    intros [rs c'] s2 H2. apply wp_ret. apply frame_changes in H1.
    change (<[_ := w]> _) with (slice_map addr (w :: ws)). rewrite <- slice_map_cons.
    eapply changes_trans; eassumption.
Qed.

Lemma access_pages_wp l : forall c s,
  Forall (fun pb => Z.land (prot_at s pb.1) pb.2 <> 0) l ->
  wp (SyscallContext.access_pages E c l) (fun _ s' => quiet s s') s.
Proof.
  induction l as [|[p b] l IH]; intros c s Hl; cbn [SyscallContext.access_pages]; [now apply wp_ret|].
  apply Forall_cons in Hl as [Hp Hl]. cbn [fst snd] in Hp.
  pose proof (page_prot_access_wp E p b (SyscallContext.external_flag c) (SyscallContext.clk c)
    (SyscallContext.local_page_prot_access c) s) as H1. rewrite (proj2 (Z.eqb_neq _ _) Hp) in H1.
  apply wp_bind. eapply wp_mono; [exact H1|]. clear H1. intros [r lpa] s1 H1.
  apply wp_bind. eapply wp_mono; [apply IH|].
  - eapply Forall_impl; [exact Hl|]. intros pb. now rewrite (frame_prot _ _ _ H1).
  - intros [rs c'] s2 H2. apply wp_ret. etransitivity; eassumption.
Qed.

Lemma slice_pages_wp c addr n prot s :
  slice addr n -> n <= 512 -> slice_permits s prot addr n ->
  wp (SyscallContext.slice_pages E c (SyscallContext.touched addr n prot)) (fun _ s' => quiet s s') s.
Proof.
  intros Hs Hn Hp. unfold SyscallContext.slice_pages, enable_untrusted_programs.
  apply wp_bind, wp_gets. unfold slice_permits, untrusted in Hp.
  destruct (Program.enable_untrusted_programs _); [|now apply wp_ret]. specialize (Hp eq_refl).
  destruct (sorted_pages_adjacent (SyscallContext.touched addr n prot) (addr / PAGE_SIZE)) as [Hl Ha].
  { intros q b Hq. now destruct (touched_pages _ _ _ _ _ Hs Hn Hq) as (_ & ? & _). }
  cbv zeta. apply wp_bind. rewrite (proj2 (Z.leb_le _ _) Hl). apply wp_ret, wp_bind.
  assert (Hall : Forall (fun pb => Z.land (prot_at s pb.1) pb.2 <> 0)
                   (SyscallContext.sorted_pages (SyscallContext.touched addr n prot))).
  { apply Forall_forall. intros [q b] Hq. unfold SyscallContext.sorted_pages in Hq.
    rewrite merge_sort_Permutation in Hq. apply elem_of_map_to_list in Hq.
    destruct (touched_pages _ _ _ _ _ Hs Hn Hq) as (-> & _ & i & Hi & ->). now apply Hp. }
  destruct (SyscallContext.sorted_pages _) as [|[p b] [|[q b'] [|]]]; try (apply wp_ret, access_pages_wp; exact Hall).
  rewrite (proj2 (Z.eqb_eq _ _) Ha). apply wp_ret, access_pages_wp. exact Hall.
Qed.
End Methods.

Lemma calm_for_each {A} (l : list A) (f : A -> M unit) : (forall x, calm (f x)) -> calm (for_each l f).
Proof. intros Hf. induction l as [|x l IH]; cbn [for_each]; [apply calm_ret|]. now apply calm_bind. Qed.

(** ** Programs over the context *)
Section Programs.
Context (E : ExecutorConfig) (code : SyscallCode.t) (arg1 arg2 : Z) (ok : bool).

(** The program returns with [Q] when [ok] holds, and panics otherwise. *)
Definition run (p : Api.t) (c : SyscallContext.t) (Q : option Z -> Executor.t -> Prop) (s : Executor.t) : Prop :=
  guarded ok (Api.interp E code arg1 arg2 p c) (fun r => Q (fst r)) s.

Lemma run_mr_slice addr n k c Q s :
  slice addr n -> n <= 512 -> slice_permits s PROT_READ addr n ->
  (forall recs pages c' s', quiet s s' -> run (k recs (words_at s addr (Z.to_nat n)) pages) c' Q s') ->
  run (Api.MrSlice addr n k) c Q s.
Proof.
  intros Hs Hn Hp Hk. unfold run. cbn [Api.interp]. apply guarded_bind. unfold SyscallContext.mr_slice.
  apply wp_bind. eapply wp_mono; [apply mr_words_wp; rewrite Z2Nat.id; [exact Hs|apply Hs]|].
  intros [recs c1] s1 [Hv H1]. cbn [fst] in Hv. apply wp_bind.
  eapply wp_mono; [apply slice_pages_wp; [done..|]|].
  { eapply slice_permits_changes; [apply quiet_changes; exact H1|exact Hp]. }
  intros [pages c2] s2 H2. apply wp_ret. rewrite Hv. apply Hk. etransitivity; eassumption.
Qed.

Lemma run_mw_slice addr ws (rw : bool) k c Q s :
  slice addr (Z.of_nat (length ws)) -> Z.of_nat (length ws) <= 512 ->
  slice_permits s (if rw then Z.lor PROT_READ PROT_WRITE else PROT_WRITE) addr (Z.of_nat (length ws)) ->
  (forall recs pages c' s', changes (slice_map addr ws) s s' -> run (k recs pages) c' Q s') ->
  run (Api.MwSlice addr ws rw k) c Q s.
Proof.
  intros Hs Hn Hp Hk. unfold run. cbn [Api.interp]. apply guarded_bind. unfold SyscallContext.mw_slice.
  apply wp_bind. eapply wp_mono; [now apply mw_words_wp|]. intros [recs c1] s1 H1. cbv zeta. apply wp_bind.
  eapply wp_mono; [apply slice_pages_wp; [done..|]|].
  { eapply slice_permits_changes; [exact H1|exact Hp]. }
  intros [pages c2] s2 H2. apply wp_ret. apply Hk. eapply changes_quiet_r; eassumption.
Qed.

Lemma run_mr addr k c Q s :
  slice addr 1 -> (forall rec c' s', MemoryReadRecord.value rec = value_at s (inr (addr / 8)) -> quiet s s' -> run (k rec) c' Q s') ->
  run (Api.Mr addr k) c Q s.
Proof.
  intros Hs Hk. destruct (slice_mapped _ _ Hs) as [Hm Ha]; [lia|]. unfold run. cbn [Api.interp]. apply guarded_bind.
  pose proof (mr_wp E addr (SyscallContext.external_flag c) (SyscallContext.clk c) (SyscallContext.local_memory_access c) s) as H1.
  rewrite Hm, Ha in H1. eapply wp_mono; [exact H1|]. intros [r lma] s1 [Hv H2]. now apply Hk.
Qed.
Lemma run_mw addr v k c Q s :
  slice addr 1 -> (forall rec c' s', changes {[inr (addr / 8) := v]} s s' -> run (k rec) c' Q s') ->
  run (Api.Mw addr v k) c Q s.
Proof.
  intros Hs Hk. destruct (slice_mapped _ _ Hs) as [Hm Ha]; [lia|]. unfold run. cbn [Api.interp]. apply guarded_bind.
  pose proof (mw_wp E addr v (SyscallContext.external_flag c) (SyscallContext.clk c) (SyscallContext.local_memory_access c) s) as H1.
  rewrite Hm, Ha in H1. eapply wp_mono; [exact H1|]. intros [r lma] s1 H2. now apply Hk, frame_changes.
Qed.

(** The words of the entries, 0 where there is none. *)
Definition stored_words (s : Executor.t) (addr : Z) (n : nat) : list Z :=
  (fun i => stored_value s (inr (addr / 8 + Z.of_nat i))) <$> seq 0 n.

Definition keeps (s s' : Executor.t) : Prop := quiet s s' /\ forall l, entry_at l s' = entry_at l s.

Lemma double_word_keeps addr s :
  slice addr 1 -> wp (double_word E addr) (fun v s' => v = stored_value s (inr (addr / 8)) /\ keeps s s') s.
Proof.
  intros [A L H N]. unfold double_word, page_loc.
  rewrite (proj2 (Z.ltb_lt addr (2 ^ MAX_LOG_ADDR))) by (unfold MAX_LOG_ADDR; lia).
  apply wp_bind, wp_ret, wp_bind, wp_gets, wp_bind. destruct (is_checkpoint E || UNCONSTRAINED E); now repeat split.
Qed.

Lemma slice_unsafe_wp n : forall addr j s, 0 <= j -> slice (addr + 8 * j) (Z.of_nat n) -> 32 <= addr ->
  wp (map_m (seqZ j (Z.of_nat n)) (fun i => double_word E (addr +ₗ i * 8))) (fun ws s' =>
    ws = stored_words s (addr + 8 * j) n /\ keeps s s') s.
Proof.
  induction n as [|n IH]; intros addr j s Hj Hs Ha; [now apply wp_ret|].
  rewrite Nat2Z.inj_succ in *. rewrite seqZ_cons by lia. cbn [map_m]. rewrite Z.pred_succ.
  assert (H1 : slice (addr + 8 * j) 1) by (destruct Hs; split; lia).
  replace (addr +ₗ j * 8) with (addr + 8 * j) by (rewrite u64_small; [lia|]; destruct Hs; split; lia).
  apply wp_bind. eapply wp_mono; [now apply double_word_keeps|]. intros v s1 [-> [H2 H3]].
  apply wp_bind. eapply wp_mono; [apply IH; [lia| |done]|].
  { replace (addr + 8 * Z.succ j) with (addr + 8 * j + 8) by lia. apply slice_tail; [done|lia]. }
  intros ws s2 [-> [H4 H5]]. apply wp_ret. split.
  - unfold stored_words. cbn [seq]. rewrite <- fmap_S_seq, fmap_cons, <- list_fmap_compose. f_equal.
    + now rewrite Z.add_0_r.
    + apply list_fmap_ext. intros ? i _. unfold compose, stored_value. rewrite H3.
      replace ((addr + 8 * j) / 8 + Z.of_nat (S i)) with ((addr + 8 * Z.succ j) / 8 + Z.of_nat i) by lia_mod. done.
  - split; [etransitivity; eassumption|]. intros l. now rewrite H5.
Qed.

Lemma run_slice_unsafe addr n k c Q s :
  slice addr (Z.of_nat n) ->
  (forall s', keeps s s' -> run (k (stored_words s addr n)) c Q s') ->
  run (Api.SliceUnsafe addr (Z.of_nat n) k) c Q s.
Proof.
  intros Hs Hk. unfold run. cbn [Api.interp]. apply guarded_bind.
  pose proof (slice_unsafe_wp n addr 0 s) as H. rewrite Z.mul_0_r, Z.add_0_r in H.
  eapply wp_mono; [apply H; [done..|apply Hs]|]. intros ws s' [-> H']. now apply Hk.
Qed.

Lemma postprocess_calm c : calm (SyscallContext.postprocess E c).
Proof.
  unfold SyscallContext.postprocess, push_event, upd_record, enable_untrusted_programs.
  repeat first [apply calm_for_each; intros [? ?] | calm_step | apply calm_gets | apply calm_ret].
Qed.

Lemma run_event key clk ev k c Q s :
  (forall c' s', quiet s s' -> run k c' Q s') -> run (Api.AddPrecompileEvent key clk ev k) c Q s.
Proof.
  intros Hk. unfold run. cbn [Api.interp]. apply guarded_bind, wp_calm; [apply postprocess_calm|].
  intros [[lm lp] c1] s1 H1. apply guarded_bind, wp_gets, guarded_bind, wp_calm; [unfold push_event, upd_record; calm|].
  intros _ s2 H2. apply Hk. etransitivity; eassumption.
Qed.

Lemma run_rr_traced r k c Q s :
  0 <= r < 32 ->
  (forall rec c' s', MemoryReadRecord.value rec = value_at s (inl r) -> quiet s s' -> run (k rec) c' Q s') ->
  run (Api.RrTraced r k) c Q s.
Proof.
  intros Hr Hk. unfold run. cbn [Api.interp]. unfold Register.from_u8.
  rewrite (proj2 (Z.leb_le 0 r)), (proj2 (Z.leb_le r 31)) by lia. apply guarded_bind, wp_ret, guarded_bind.
  unfold SyscallContext.rr_traced. apply wp_bind. eapply wp_eqv; [apply rr_traced_eq|]. apply wp_bind.
  eapply wp_mono; [apply access_wp|]. intros prev s1 [Hv H1]. cbv zeta. apply frame_same in H1; [|done].
  apply wp_bind, wp_calm; [calm|]. intros lma s2 H2. apply wp_ret, wp_ret. apply Hk; [exact Hv|].
  etransitivity; eassumption.
Qed.

Lemma run_page_range addr n bit k c Q s :
  slice addr n -> 0 < n <= 512 -> slice_permits s bit addr n ->
  (forall pages c' s', quiet s s' -> run (k pages) c' Q s') ->
  run (Api.PageProtRangeAccess addr (addr + 8 * (n - 1)) bit k) c Q s.
Proof.
  intros Hs Hn Hp Hk. unfold run. cbn [Api.interp]. apply guarded_bind.
  unfold SyscallContext.page_prot_range_access, enable_untrusted_programs. apply wp_bind, wp_gets.
  unfold slice_permits, untrusted in Hp.
  destruct (Program.enable_untrusted_programs _); [|apply wp_ret; now apply Hk]. specialize (Hp eq_refl).
  cbv zeta. apply wp_bind. set (p := addr / PAGE_SIZE). set (q := (addr + 8 * (n - 1)) / PAGE_SIZE).
  assert (Hq : q = p \/ q = p + 1).
  { destruct Hs as [A L H N]. subst p q. unfold PAGE_SIZE. change (1 ≪ 12) with 4096. lia_mod. }
  assert (H0 : Z.land (prot_at s p) bit <> 0) by (pose proof (Hp 0 ltac:(lia)) as H0; now rewrite Z.mul_0_l, Z.add_0_r in H0).
  assert (H1 : Z.land (prot_at s q) bit <> 0).
  { pose proof (Hp (n - 1) ltac:(lia)) as H1. now replace (addr + (n - 1) * 8) with (addr + 8 * (n - 1)) in H1 by lia. }
  replace ((q =? p) || (q =? p + 1)) with true by (destruct Hq as [-> | ->]; rewrite Z.eqb_refl, ?orb_true_r; done).
  apply wp_ret. eapply wp_mono; [apply access_pages_wp|].
  - destruct (p <? q); repeat constructor; done.
  - intros [pages c'] s' H'. now apply Hk.
Qed.

Lemma run_get_clk k c Q s : run (k (SyscallContext.clk c)) c Q s -> run (Api.GetClk k) c Q s.
Proof. done. Qed.
Lemma run_incr_clk k c Q s : (forall c', run k c' Q s) -> run (Api.IncrClk k) c Q s.
Proof. intros H. apply H. Qed.
End Programs.

(** The same rules relative to an initial state [s0]: reads come first and
    leave it [quiet], writes accumulate. *)
Section From.
Context (E : ExecutorConfig) (code : SyscallCode.t) (arg1 arg2 : Z) (ok : bool) (s0 : Executor.t).
Abbreviation run := (run E code arg1 arg2 ok).

Lemma read_slice addr n k c Q s :
  quiet s0 s -> slice addr n -> n <= 512 -> slice_permits s0 PROT_READ addr n ->
  (forall recs pages c' s', quiet s0 s' -> run (k recs (words_at s0 addr (Z.to_nat n)) pages) c' Q s') ->
  run (Api.MrSlice addr n k) c Q s.
Proof.
  intros H Hs Hn Hp Hk. apply run_mr_slice; [done..| |].
  - eapply slice_permits_changes; [apply quiet_changes; exact H|exact Hp].
  - intros recs pages c' s' H'. rewrite (words_at_quiet _ _ _ _ H). apply Hk. etransitivity; eassumption.
Qed.
Lemma read_register r k c Q s :
  quiet s0 s -> 0 <= r < 32 ->
  (forall rec c' s', MemoryReadRecord.value rec = value_at s0 (inl r) -> quiet s0 s' -> run (k rec) c' Q s') ->
  run (Api.RrTraced r k) c Q s.
Proof.
  intros H Hr Hk. apply run_rr_traced; [done|]. intros rec c' s' Hv H'.
  apply Hk; [rewrite Hv; apply (frame_value _ _ _ H)|etransitivity; eassumption].
Qed.
Lemma read_unsafe addr n k c Q :
  slice addr (Z.of_nat n) -> (forall s', quiet s0 s' -> run (k (stored_words s0 addr n)) c Q s') ->
  run (Api.SliceUnsafe addr (Z.of_nat n) k) c Q s0.
Proof. intros Hs Hk. apply run_slice_unsafe; [done|]. intros s' [H' _]. now apply Hk. Qed.
Lemma write_slice m addr ws (rw : bool) k c Q s :
  changes m s0 s -> slice addr (Z.of_nat (length ws)) -> Z.of_nat (length ws) <= 512 ->
  slice_permits s0 (if rw then Z.lor PROT_READ PROT_WRITE else PROT_WRITE) addr (Z.of_nat (length ws)) ->
  (forall recs pages c' s', changes (slice_map addr ws ∪ m) s0 s' -> run (k recs pages) c' Q s') ->
  run (Api.MwSlice addr ws rw k) c Q s.
Proof.
  intros H Hs Hn Hp Hk. apply run_mw_slice; [done..| |].
  - eapply slice_permits_changes; eassumption.
  - intros recs pages c' s' H'. apply Hk. eapply changes_trans; eassumption.
Qed.
Lemma write_result addr ws (rw : bool) k c Q s :
  quiet s0 s -> slice addr (Z.of_nat (length ws)) -> Z.of_nat (length ws) <= 512 ->
  slice_permits s0 (if rw then Z.lor PROT_READ PROT_WRITE else PROT_WRITE) addr (Z.of_nat (length ws)) ->
  (forall recs pages c' s', changes (slice_map addr ws) s0 s' -> run (k recs pages) c' Q s') ->
  run (Api.MwSlice addr ws rw k) c Q s.
Proof.
  intros H%quiet_changes Hs Hn Hp Hk. eapply write_slice; [exact H|done..|].
  intros recs pages c' s' H'. rewrite map_union_empty in H'. now apply (Hk recs pages).
Qed.
End From.

Lemma finish E code arg1 arg2 s0 m key clk ev c (Q : option Z -> Executor.t -> Prop) s :
  changes m s0 s -> (forall s', changes m s0 s' -> Q None s') ->
  run E code arg1 arg2 true (Api.AddPrecompileEvent key clk ev (Api.Return None)) c Q s.
Proof. intros H HQ. apply run_event. intros c' s' H'. apply HQ. eapply changes_quiet_r; eassumption. Qed.

Lemma run_return E code arg1 arg2 r c (Q : option Z -> Executor.t -> Prop) s :
  Q r s -> run E code arg1 arg2 true (Api.Return r) c Q s.
Proof. done. Qed.
Lemma run_abort E code arg1 arg2 c Q s : run E code arg1 arg2 false Api.Abort c Q s.
Proof. done. Qed.
