(* ===== verification/Fips180.v ===== *)
(** * Fips180: the SHA-256 block function of FIPS 180-4

    The functions of the standard on 32-bit words, with its constants computed
    from their definition: the first 32 bits of the fractional parts of the
    cube roots of the first 64 primes, and of the square roots of the first 8.
    [abc_digest] checks the specification on the standard's example. *)
From Stdlib Require Import ZArith Lia Bool.
From stdpp Require Import base numbers option list.
From S2P Require Import Prelude.

Module Fips.
(** ** Functions *)
Definition ROTR (n x : Z) : Z := Z.lor (x / 2 ^ n) ((x * 2 ^ (32 - n)) mod 2 ^ 32).
Definition SHR (n x : Z) : Z := x / 2 ^ n.
Definition complement (x : Z) : Z := 2 ^ 32 - 1 - x.
Definition Ch (x y z : Z) : Z := Z.lxor (Z.land x y) (Z.land (complement x) z).
Definition Maj (x y z : Z) : Z := Z.lxor (Z.land x y) (Z.lxor (Z.land x z) (Z.land y z)).
Definition Sigma0 (x : Z) : Z := Z.lxor (ROTR 2 x) (Z.lxor (ROTR 13 x) (ROTR 22 x)).
Definition Sigma1 (x : Z) : Z := Z.lxor (ROTR 6 x) (Z.lxor (ROTR 11 x) (ROTR 25 x)).
Definition sigma0 (x : Z) : Z := Z.lxor (ROTR 7 x) (Z.lxor (ROTR 18 x) (SHR 3 x)).
Definition sigma1 (x : Z) : Z := Z.lxor (ROTR 17 x) (Z.lxor (ROTR 19 x) (SHR 10 x)).

(** ** Constants *)
Definition is_prime (n : Z) : bool := forallb (fun d => negb (n mod d =? 0)) (seqZ 2 (n - 2)).
Definition primes : list Z := List.filter is_prime (seqZ 2 310).

(** The greatest [r < acc + 2 ^ bits] with [r ^ 3 <= n], from the top bit down. *)
Fixpoint cube_root (bits : nat) (acc n : Z) : Z :=
  match bits with
  | O => acc
  | S bits =>
      let next := acc + 2 ^ Z.of_nat bits in
      cube_root bits (if next ^ 3 <=? n then next else acc) n
  end.
Definition K : list Z := (fun p => cube_root 40 0 (p * 2 ^ 96) mod 2 ^ 32) <$> primes.
Definition H0 : list Z := (fun p => Z.sqrt (p * 2 ^ 64) mod 2 ^ 32) <$> take 8 primes.

(** ** The block function *)
Definition word (W : list Z) (t : nat) : Z := default 0 (W !! t).

(** The next word of the message schedule. *)
Definition next_word (W : list Z) : Z :=
  let t := length W in
  (sigma1 (word W (t - 2)) + word W (t - 7) + sigma0 (word W (t - 15)) + word W (t - 16)) mod 2 ^ 32.
Fixpoint schedule (n : nat) (W : list Z) : list Z :=
  match n with O => W | S n => schedule n (W ++ [next_word W]) end.

(** One round, on the working variables [a] to [h]. *)
Definition round (v : list Z) (kw : Z * Z) : list Z :=
  let a := word v 0 in let b := word v 1 in let c := word v 2 in let d := word v 3 in
  let e := word v 4 in let f := word v 5 in let g := word v 6 in let h := word v 7 in
  let T1 := (h + Sigma1 e + Ch e f g + kw.1 + kw.2) mod 2 ^ 32 in
  let T2 := (Sigma0 a + Maj a b c) mod 2 ^ 32 in
  [(T1 + T2) mod 2 ^ 32; a; b; c; (d + T1) mod 2 ^ 32; e; f; g].
Definition compress (H W : list Z) : list Z :=
  zip_with (fun x y => (x + y) mod 2 ^ 32) H (foldl round H (zip K W)).

(** The hash value after a block of 16 words. *)
Definition block (H M : list Z) : list Z := compress H (schedule 48 M).
End Fips.

Lemma abc_digest :
  Fips.block Fips.H0 ([0x61626380] ++ replicate 14 0 ++ [0x18]) =
  [0xba7816bf; 0x8f01cfea; 0x414140de; 0x5dae2223; 0xb00361a3; 0x96177a9c; 0xb410ff61; 0xf20015ad].
Proof. vm_compute. reflexivity. Qed.
