(* ===== verification/Sha256Proofs.v ===== *)
(** * Sha256Proofs: the SHA-256 precompiles compute the block function

    [sha256_extend_syscall] leaves in memory the message schedule of FIPS
    180-4, and [sha256_compress_syscall] adds to the hash value what the 64
    rounds give.  Run one after the other they are [Fips.block]. *)
From Stdlib Require Import ZArith Lia Bool.
From stdpp Require Import base numbers option list gmap.
From S2P Require Import Prelude BigUint Curves Isa PagedMemory SyscallCode State ExecMemory Interpreter Cost Syscalls Precompiles Samples Logic Rv64 Refinement SliceLogic Fips180.
Import Sha256.

(** ** The functions on words *)
Lemma K_constants : SHA_COMPRESS_K = Fips.K.
Proof. vm_compute. reflexivity. Qed.

Lemma rotate_right_ROTR x n : 0 <= n <= 32 -> rotate_right x n = Fips.ROTR n x.
Proof.
  intros Hn. unfold rotate_right, Fips.ROTR, u32, wrap. rewrite Z.shiftr_div_pow2, Z.shiftl_mul_pow2 by lia. done.
Qed.

Lemma not32_complement x : is_u32 x -> not32 x = Fips.complement x.
Proof. intros Hx. exact (lxor_ones_value x 32 ltac:(lia) Hx). Qed.

(** Nested wrapping additions are one sum modulo [2 ^ 32]. *)
Lemma wrapping_add4 x y z u : wrapping_add (wrapping_add (wrapping_add x y) z) u = (x + y + z + u) mod 2 ^ 32.
Proof. unfold wrapping_add, u32, wrap. now rewrite (Zplus_mod_idemp_l (x + y)), Zplus_mod_idemp_l. Qed.
Lemma wrapping_add5 x y z u v :
  wrapping_add (wrapping_add (wrapping_add (wrapping_add x y) z) u) v = (x + y + z + u + v) mod 2 ^ 32.
Proof. rewrite (wrapping_add4 x y z u). apply Zplus_mod_idemp_l. Qed.

Definition as_list (v : vars) : list Z := [a v; b v; c v; d v; e v; f v; g v; h v].

Lemma compress_step_round v kw : is_u32 (e v) -> as_list (compress_step v kw) = Fips.round (as_list v) kw.
Proof.
  intros He. destruct v as [a b c d e f g h], kw as [k w]. cbn [Sha256.e] in He.
  unfold compress_step, as_list, Fips.round, Fips.Sigma1, Fips.Sigma0, Fips.Ch, Fips.Maj, Fips.word.
  cbn [Sha256.a Sha256.b Sha256.c Sha256.d Sha256.e Sha256.f Sha256.g Sha256.h lookup list_lookup default fst snd].
  unfold id. rewrite !rotate_right_ROTR, not32_complement by done || lia.
  rewrite !Z.lxor_assoc, !(wrapping_add5 h). reflexivity.
Qed.

Lemma compress_step_u32 v kw : Forall is_u32 (as_list v) -> Forall is_u32 (as_list (compress_step v kw)).
Proof.
  destruct v as [a b c d e f g h], kw as [k w]. unfold as_list, compress_step.
  cbn [Sha256.a Sha256.b Sha256.c Sha256.d Sha256.e Sha256.f Sha256.g Sha256.h]. rewrite !Forall_cons. intros H.
  split_and!; try apply H; apply u32_fits.
Qed.

Lemma rounds_fold l : forall v, Forall is_u32 (as_list v) ->
  as_list (foldl compress_step v l) = foldl Fips.round (as_list v) l.
Proof.
  induction l as [|kw l IH]; intros v Hv; cbn [foldl]; [done|].
  rewrite IH by now apply compress_step_u32. rewrite compress_step_round; [done|].
  unfold as_list in Hv. rewrite !Forall_cons in Hv. apply Hv.
Qed.

(** ** The schedule *)
Lemma schedule_app n : forall W, exists l, Fips.schedule n W = W ++ l /\ length l = n /\ Forall is_u32 l.
Proof.
  induction n as [|n IH]; intros W; cbn [Fips.schedule]; [exists []; now rewrite app_nil_r|].
  destruct (IH (W ++ [Fips.next_word W])) as (l & -> & Hl & Hf). exists (Fips.next_word W :: l).
  rewrite <- app_assoc. split; [done|]. cbn. split; [lia|]. constructor; [|done].
  unfold Fips.next_word. apply Z.mod_pos_bound. lia.
Qed.

Section Handlers.
Context (E : ExecutorConfig) (code : SyscallCode.t) (arg1 arg2 : Z).
Abbreviation run := (run E code arg1 arg2 true).

(** The word the loop computes from the four it reads. *)
Lemma extend_word W x15 x2 x16 x7 :
  u32 x15 = Fips.word W (length W - 15) -> u32 x2 = Fips.word W (length W - 2) ->
  u32 x16 = Fips.word W (length W - 16) -> u32 x7 = Fips.word W (length W - 7) ->
  wrapping_add (wrapping_add (wrapping_add
    (Z.lxor (Z.lxor (rotate_right (u32 x2) 17) (rotate_right (u32 x2) 19)) (u32 x2 ≫ 10)) (u32 x16))
    (Z.lxor (Z.lxor (rotate_right (u32 x15) 7) (rotate_right (u32 x15) 18)) (u32 x15 ≫ 3))) (u32 x7) =
  Fips.next_word W.
Proof.
  intros -> -> -> ->. unfold Fips.next_word, Fips.sigma0, Fips.sigma1, Fips.SHR.
  rewrite wrapping_add4, !rotate_right_ROTR, !Z.shiftr_div_pow2, !Z.lxor_assoc by lia. f_equal. lia.
Qed.

(** The first [length W] words of memory are [W], up to the high halves. *)
Definition holds_words (w_ptr : Z) (W : list Z) (s : Executor.t) : Prop :=
  forall j, (j < length W)%nat -> u32 (value_at s (inr (w_ptr / 8 + Z.of_nat j))) = Fips.word W j.

Lemma holds_words_quiet w_ptr W s s' : quiet s s' -> holds_words w_ptr W s -> holds_words w_ptr W s'.
Proof. intros H HW j Hj. rewrite (frame_value _ _ _ H). now apply HW. Qed.

Lemma holds_words_push w_ptr W s s' :
  changes {[inr (w_ptr / 8 + Z.of_nat (length W)) := Fips.next_word W]} s s' ->
  holds_words w_ptr W s -> holds_words w_ptr (W ++ [Fips.next_word W]) s'.
Proof.
  intros H HW j Hj. rewrite length_app in Hj. cbn in Hj. rewrite (changes_value _ _ _ H), lookup_singleton.
  unfold Fips.word. case_decide as He.
  - injection He as He. assert (j = length W) as -> by lia. rewrite lookup_app_r, Nat.sub_diag by lia. cbn.
    unfold u32, wrap, Fips.next_word. apply Zmod_mod.
  - rewrite lookup_app_l; [|destruct (decide (j = length W)); [congruence|lia]].
    apply HW. destruct (decide (j = length W)); [congruence|lia].
Qed.

Lemma run_extend_read w_ptr W j k c Q s :
  slice w_ptr 64 -> (j < length W <= 64)%nat -> holds_words w_ptr W s ->
  (forall rec c' s', u32 (MemoryReadRecord.value rec) = Fips.word W j -> quiet s s' -> run (k rec) c' Q s') ->
  run (Api.Mr (w_ptr +ₗ Z.of_nat j * 8) k) c Q s.
Proof.
  intros Hs Hj HW Hk. assert (Ha : w_ptr +ₗ Z.of_nat j * 8 = w_ptr + Z.of_nat j * 8).
  { destruct Hs. apply u64_small. split; lia. }
  rewrite Ha. apply run_mr; [destruct Hs; split; [lia_mod|lia..]|]. intros rec c' s' Hv Hq. apply Hk; [|done].
  rewrite Hv. replace ((w_ptr + Z.of_nat j * 8) / 8) with (w_ptr / 8 + Z.of_nat j) by (destruct Hs; lia_mod).
  apply HW. lia.
Qed.

Lemma extend_loop_run w_ptr k Q : slice w_ptr 64 -> forall n W recs c s,
  (16 <= length W)%nat -> (n + length W = 64)%nat -> holds_words w_ptr W s ->
  (forall recs' c' s',
    changes (slice_map (w_ptr + 8 * Z.of_nat (length W)) (drop (length W) (Fips.schedule n W))) s s' ->
    run (k recs') c' Q s') ->
  run (extend_loop w_ptr n (Z.of_nat (length W)) recs k) c Q s.
Proof.
  intros Hs n. induction n as [|n IH]; intros W recs c s HL Hn HW Hk; cbn [extend_loop].
  - apply Hk. cbn [Fips.schedule]. rewrite drop_all. apply quiet_changes. reflexivity.
  - replace (Z.of_nat (length W) - 15) with (Z.of_nat (length W - 15)) by lia.
    apply run_extend_read with W; [done|lia|done|]. intros r15 c1 s1 H15 Q1.
    pose proof (holds_words_quiet _ _ _ _ Q1 HW) as HW1. cbv zeta.
    replace (Z.of_nat (length W) - 2) with (Z.of_nat (length W - 2)) by lia.
    apply run_extend_read with W; [done|lia|done|]. intros r2 c2 s2 H2 Q2.
    pose proof (holds_words_quiet _ _ _ _ Q2 HW1) as HW2.
    replace (Z.of_nat (length W) - 16) with (Z.of_nat (length W - 16)) by lia.
    apply run_extend_read with W; [done|lia|done|]. intros r16 c3 s3 H16 Q3.
    pose proof (holds_words_quiet _ _ _ _ Q3 HW2) as HW3.
    replace (Z.of_nat (length W) - 7) with (Z.of_nat (length W - 7)) by lia.
    apply run_extend_read with W; [done|lia|done|]. intros r7 c4 s4 H7 Q4.
    pose proof (holds_words_quiet _ _ _ _ Q4 HW3) as HW4. rewrite (extend_word W) by done.
    assert (Q14 : quiet s s4) by (do 3 (etransitivity; [eassumption|]); exact Q4). clear Q1 Q2 Q3 Q4 HW1 HW2 HW3.
    rewrite u64_small by (destruct Hs; split; lia).
    apply run_mw; [destruct Hs; split; [lia_mod|lia..]|]. intros rw c5 s5 H5. apply run_incr_clk. intros c6.
    replace (Z.of_nat (length W) + 1) with (Z.of_nat (length (W ++ [Fips.next_word W]))) by (rewrite length_app; cbn; lia).
    assert (Hd : (w_ptr + Z.of_nat (length W) * 8) / 8 = w_ptr / 8 + Z.of_nat (length W)) by (destruct Hs; lia_mod).
    apply IH; [rewrite length_app; cbn; lia..| |].
    { rewrite Hd in H5. eapply holds_words_push; [exact H5|exact HW4]. }
    intros recs' c' s' H6. apply Hk. eapply changes_quiet_l; [exact Q14|]. cbn [Fips.schedule].
    destruct (schedule_app n (W ++ [Fips.next_word W])) as (l & Hl & _). rewrite Hl, length_app in *.
    rewrite drop_app_length' in H6 by (rewrite length_app; done).
    rewrite <- app_assoc, drop_app_length. cbn [app].
    replace (w_ptr + 8 * Z.of_nat (length W)) with (w_ptr + Z.of_nat (length W) * 8) by lia.
    rewrite <- slice_map_cons. eapply changes_trans; [exact H5|].
    replace (w_ptr + Z.of_nat (length W) * 8 + 8) with (w_ptr + 8 * Z.of_nat (length W + 1)) by lia. exact H6.
Qed.

Definition message (w_ptr : Z) (s : Executor.t) : list Z := u32 <$> words_at s w_ptr 16.
Definition hash (h_ptr : Z) (s : Executor.t) : list Z := u32 <$> words_at s h_ptr 8.

Lemma message_holds w_ptr s : holds_words w_ptr (message w_ptr s) s.
Proof.
  intros j Hj. unfold message, Fips.word in *. rewrite length_fmap, words_at_length in Hj.
  now rewrite list_lookup_fmap, words_at_lookup.
Qed.

Lemma extend_run w_ptr c Q s :
  slice w_ptr 64 -> slice_permits s PROT_READ w_ptr 16 ->
  slice_permits s (Z.lor PROT_READ PROT_WRITE) (w_ptr + 128) 48 ->
  (forall s', changes (slice_map (w_ptr + 128) (drop 16 (Fips.schedule 48 (message w_ptr s)))) s s' -> Q None s') ->
  run (sha256_extend_syscall code w_ptr 0) c Q s.
Proof.
  intros Hs Hr Hw HQ. unfold sha256_extend_syscall. apply run_get_clk. cbv zeta.
  unfold is_multiple_of. rewrite (slice_aligned _ _ Hs). cbn [Z.eqb].
  destruct Hs as [A L H N]. rewrite !u64_small by (split; lia).
  apply (run_page_range E code arg1 arg2 true w_ptr 16); [split; lia|lia|done|]. intros pages c1 s1 H1.
  apply run_incr_clk. intros c2. replace (w_ptr + 63 * 8) with (w_ptr + 128 + 8 * (48 - 1)) by lia.
  apply (run_page_range E code arg1 arg2 true (w_ptr + 128) 48); [split; [lia_mod|lia..]|lia| |].
  { eapply slice_permits_changes; [apply quiet_changes; exact H1|exact Hw]. }
  intros pages' c3 s2 H2. assert (H12 : quiet s s2) by (etransitivity; eassumption).
  apply (extend_loop_run w_ptr _ Q) with (W := message w_ptr s); [split; lia|done..| |].
  - eapply holds_words_quiet; [exact H12|]. apply message_holds.
  - intros recs c4 s3 H3. apply run_event. intros c5 s4 H4. apply run_return, HQ.
    eapply changes_quiet_l; [exact H12|]. eapply changes_quiet_r; [exact H3|exact H4].
Qed.

Lemma compress_run w_ptr h_ptr c Q s :
  w_ptr <> h_ptr -> slice w_ptr 64 -> slice h_ptr 8 ->
  slice_permits s PROT_READ w_ptr 64 -> slice_permits s PROT_READ h_ptr 8 ->
  slice_permits s (Z.lor PROT_READ PROT_WRITE) h_ptr 8 ->
  (forall s', changes (slice_map h_ptr (Fips.compress (hash h_ptr s) (u32 <$> words_at s w_ptr 64))) s s' -> Q None s') ->
  run (sha256_compress_syscall code w_ptr h_ptr) c Q s.
Proof.
  intros Hne Hsw Hsh Hrw Hrh Hwh HQ. unfold sha256_compress_syscall. cbv zeta. unfold is_multiple_of.
  rewrite (slice_aligned _ _ Hsw), (slice_aligned _ _ Hsh), (proj2 (Z.eqb_neq _ _) Hne). cbn [negb Z.eqb].
  apply run_get_clk, run_mr_slice; [done|lia|done|]. intros recs pages c1 s1 H1. apply run_incr_clk. intros c2.
  apply run_mr_slice; [done|lia|eapply slice_permits_changes; [apply quiet_changes; exact H1|done]|].
  intros recs' pages' c3 s2 H2. assert (H12 : quiet s s2) by (etransitivity; eassumption).
  rewrite (words_at_quiet _ _ _ _ H1). change (Z.to_nat 8) with 8%nat. change (Z.to_nat 64) with 64%nat.
  unfold hash in HQ. remember (u32 <$> words_at s h_ptr 8) as H eqn:HH. assert (Hu : Forall is_u32 H).
  { subst H. apply Forall_fmap, Forall_true. intros x. apply u32_fits. }
  assert (Hl : length H = 8%nat) by (subst H; now rewrite length_fmap, words_at_length). clear HH.
  destruct H as [|a [|b [|c' [|d [|e [|f [|g [|h [|]]]]]]]]]; try discriminate Hl.
  pose proof (rounds_fold (zip SHA_COMPRESS_K (u32 <$> words_at s w_ptr 64)) (mkVars a b c' d e f g h) Hu) as Hf.
  destruct (foldl compress_step _ _) as [a' b' c'' d' e' f' g' h'] eqn:Hfold. unfold as_list in Hf.
  cbn [Sha256.a Sha256.b Sha256.c Sha256.d Sha256.e Sha256.f Sha256.g Sha256.h] in Hf.
  apply run_incr_clk. intros c4. apply run_mw_slice; [exact Hsh|done|eapply slice_permits_changes; [apply quiet_changes; exact H12|done]|].
  intros recs'' pages'' c5 s3 H3. apply run_event. intros c6 s4 H4. apply run_return, HQ.
  eapply changes_quiet_l; [exact H12|]. eapply changes_quiet_r; [|exact H4].
  unfold Fips.compress. rewrite <- K_constants, <- Hf. exact H3.
Qed.
End Handlers.

(** After the extension the 64 words are the schedule. *)
Lemma schedule_in_memory w_ptr s s' :
  slice w_ptr 64 -> changes (slice_map (w_ptr + 128) (drop 16 (Fips.schedule 48 (message w_ptr s)))) s s' ->
  u32 <$> words_at s' w_ptr 64 = Fips.schedule 48 (message w_ptr s).
Proof.
  intros Hs H. destruct (schedule_app 48 (message w_ptr s)) as (l & Hl & Hn & Hf). rewrite Hl in *.
  assert (HM : length (message w_ptr s) = 16%nat) by (unfold message; now rewrite length_fmap, words_at_length).
  rewrite drop_app_length' in H by done. change 64%nat with (16 + 48)%nat. rewrite words_at_app, fmap_app.
  change (8 * Z.of_nat 16) with 128. rewrite (words_at_kept w_ptr 16 _ _ _ _ H);
    [|left; lia|apply (slice_aligned _ _ Hs)|pose proof (slice_aligned _ _ Hs); lia_mod].
  rewrite <- Hn, (words_at_written _ _ _ _ H). unfold message. f_equal.
  rewrite <- (list_fmap_id l) at 2. apply list_fmap_ext. intros i x Hx.
  apply wrap_small. exact (Forall_lookup_1 _ _ _ _ Hf Hx).
Qed.

Lemma compress_shape H W : length H = 8%nat -> length (Fips.compress H W) = 8%nat /\ Forall is_u32 (Fips.compress H W).
Proof.
  intros HH. unfold Fips.compress. generalize (zip Fips.K W) as l. intros l.
  assert (Hl : forall v, length v = 8%nat -> length (foldl Fips.round v l) = 8%nat)
    by (induction l as [|kw l IH]; intros v Hv; cbn [foldl]; [done|]; now apply IH).
  split; [rewrite length_zip_with, HH, Hl by done; lia|].
  generalize (foldl Fips.round H l) as v. clear. induction H as [|x H IH]; intros [|y v]; constructor; [|apply IH].
  apply Z.mod_pos_bound. lia.
Qed.

Lemma hash_written h_ptr v s s' :
  length v = 8%nat -> Forall is_u32 v -> changes (slice_map h_ptr v) s s' -> hash h_ptr s' = v.
Proof.
  intros Hl Hf H. unfold hash. rewrite <- Hl, (words_at_written _ _ _ _ H).
  rewrite <- (list_fmap_id v) at 2. apply list_fmap_ext. intros i x Hx.
  apply wrap_small. exact (Forall_lookup_1 _ _ _ _ Hf Hx).
Qed.

(** A block of SHA-256: the two system calls, one after the other. *)
Definition sha256_block `{CurveCrates, HashCrates} (unconstrained : M unit) (E : ExecutorConfig)
  (c1 c2 : SyscallContext.t) (w_ptr h_ptr : Z) : M (option Z) :=
  let! _ := get_syscall precompile unconstrained E SyscallCode.SHA_EXTEND c1 SyscallCode.SHA_EXTEND w_ptr 0 in
  let! '(r, _) := get_syscall precompile unconstrained E SyscallCode.SHA_COMPRESS c2 SyscallCode.SHA_COMPRESS w_ptr h_ptr in
  ret r.

(** C13. The system calls SHA_EXTEND and SHA_COMPRESS, run one after the other
    in any mode, return and replace the hash value in memory by the SHA-256
    block function of FIPS 180-4 applied to it and to the 16 message words;
    besides the hash value only the 48 words of the schedule change.  The
    slices are in range, their pages permit the accesses, and the hash value
    does not overlap the 48 words. *)
Theorem sha256_block_correct `{CurveCrates, HashCrates} unconstrained E c1 c2 w_ptr h_ptr s :
  slice w_ptr 64 -> slice h_ptr 8 -> w_ptr <> h_ptr ->
  h_ptr + 64 <= w_ptr + 128 \/ w_ptr + 512 <= h_ptr ->
  slice_permits s PROT_READ w_ptr 64 -> slice_permits s (Z.lor PROT_READ PROT_WRITE) (w_ptr + 128) 48 ->
  slice_permits s PROT_READ h_ptr 8 -> slice_permits s (Z.lor PROT_READ PROT_WRITE) h_ptr 8 ->
  let block := Fips.block (hash h_ptr s) (message w_ptr s) in
  wp (sha256_block unconstrained E c1 c2 w_ptr h_ptr) (fun r s' =>
    r = None /\ hash h_ptr s' = block /\
    changes (slice_map h_ptr block ∪ slice_map (w_ptr + 128) (drop 16 (Fips.schedule 48 (message w_ptr s)))) s s') s.
Proof.
  intros Hsw Hsh Hne Hov Hrw Hww Hrh Hwh block. unfold sha256_block, get_syscall. apply wp_bind.
  assert (Hr16 : slice_permits s PROT_READ w_ptr 16) by (intros Hu i Hi; apply Hrw; [done|lia]).
  eapply wp_mono; [apply (extend_run E SyscallCode.SHA_EXTEND w_ptr 0 w_ptr c1
    (fun r s1 => changes (slice_map (w_ptr + 128) (drop 16 (Fips.schedule 48 (message w_ptr s)))) s s1)); auto|].
  intros [r c1'] s1 H1. cbn [fst] in H1.
  assert (Hp : forall bit a n, slice_permits s bit a n -> slice_permits s1 bit a n)
    by (intros; eapply slice_permits_changes; eassumption).
  assert (Hh : hash h_ptr s1 = hash h_ptr s).
  { unfold hash. f_equal. eapply words_at_kept; [exact H1| |apply (slice_aligned _ _ Hsh)|pose proof (slice_aligned _ _ Hsw); lia_mod].
    destruct (schedule_app 48 (message w_ptr s)) as (l & Hl & Hn & _). rewrite Hl, drop_app_length' by
      (unfold message; now rewrite length_fmap, words_at_length). rewrite Hn. lia. }
  apply wp_bind. eapply wp_mono; [apply (compress_run E SyscallCode.SHA_COMPRESS w_ptr h_ptr w_ptr h_ptr c2
    (fun r s2 => r = None /\ changes (slice_map h_ptr block) s1 s2)); auto|].
  { intros s2 H2. split; [done|]. now rewrite Hh, (schedule_in_memory w_ptr s s1) in H2 by done. }
  intros [r' c2'] s2 [Hr H2]. apply wp_ret. split; [exact Hr|].
  split; [|eapply changes_trans; eassumption].
  destruct (compress_shape (hash h_ptr s) (Fips.schedule 48 (message w_ptr s))) as [Hbl Hbf];
    [unfold hash; now rewrite length_fmap, words_at_length|]. eapply hash_written; [exact Hbl|exact Hbf|exact H2].
Qed.

(** ** The block of the message "abc" *)
Definition abc_block : list Z := [0x61626380] ++ replicate 14 0 ++ [0x18].
Definition abc_state : Executor.t := store_words 512 abc_block (store_words 1024 Fips.H0 (sample 0 0)).

Lemma sha256_block_correct_witness :
  wp (sha256_block (H := sample_curve_crates) (H0 := sample_hash_crates) (ret tt) Trace
        sample_syscall_context sample_syscall_context 4096 8192) (fun _ s' =>
    hash 8192 s' = [0xba7816bf; 0x8f01cfea; 0x414140de; 0x5dae2223; 0xb00361a3; 0x96177a9c; 0xb410ff61; 0xf20015ad])
  abc_state.
Proof.
  eapply wp_mono.
  - apply (sha256_block_correct (H := sample_curve_crates) (H0 := sample_hash_crates) (ret tt) Trace
      sample_syscall_context sample_syscall_context 4096 8192 abc_state);
      [split; lia || reflexivity|split; lia || reflexivity|lia|right; lia|intros [=]..].
  - intros r s' (_ & Hh & _). rewrite Hh.
    replace (hash 8192 abc_state) with Fips.H0 by (vm_compute; reflexivity).
    replace (message 4096 abc_state) with abc_block by (vm_compute; reflexivity). exact abc_digest.
Defined.
