(* ===== verification/PrecompileProofs.v ===== *)
(** * PrecompileProofs: the arithmetic precompiles

    What the handlers of [Precompiles] leave in memory, in every mode: the
    exact results of the 256-bit integer operations, the field operations of
    the pairing curves with the panic of an unreduced subtraction, and the
    chord and tangent rule on the short Weierstrass curves.  The first operand
    of most of them is read with [slice_unsafe], which gives the words of the
    entries ([stored_words]) and 0 for a word without one. *)
From Stdlib Require Import ZArith Lia Bool.
From stdpp Require Import base numbers option list gmap.
From S2P Require Import Prelude BigUint Curves Isa PagedMemory SyscallCode State ExecMemory Interpreter Cost Syscalls Precompiles Samples Logic Rv64 Refinement SliceLogic.
Import FieldParameters (NB_LIMBS, MODULUS, modulus, WordsFieldElement, WordsCurvePoint).

(** ** Operands *)
Lemma stored_words_length s addr n : length (stored_words s addr n) = n.
Proof. unfold stored_words. now rewrite length_fmap, length_seq. Qed.
Lemma stored_words_fits s addr n : wf s -> Forall (fits 64) (stored_words s addr n).
Proof. intros Hs. apply Forall_fmap, Forall_true. intros i. now apply stored_value_u64. Qed.

(** Every word of the slice was accessed before. *)
Definition accessed (s : Executor.t) (addr : Z) (n : nat) : Prop :=
  forall i, (i < n)%nat -> entry_at (inr (addr / 8 + Z.of_nat i)) s <> None.
Lemma accessed_words s addr n : accessed s addr n -> stored_words s addr n = words_at s addr n.
Proof.
  intros H. apply list_fmap_ext. intros j i [-> Hj]%lookup_seq. unfold stored_value, value_at.
  destruct (entry_at (inr (addr / 8 + Z.of_nat (0 + j))) s) eqn:He; [done|]. now destruct (H j Hj).
Qed.

Lemma quiet_wf s s' : quiet s s' -> wf s -> wf s'.
Proof.
  intros H [P V X]. split.
  - now rewrite (frame_pc _ _ _ H).
  - intros l. rewrite (frame_value _ _ _ H). apply V.
  - now rewrite (frame_value _ _ _ H).
Qed.
Lemma slice_permits_quiet s s' bit addr n : quiet s s' -> slice_permits s bit addr n -> slice_permits s' bit addr n.
Proof. intros H%quiet_changes Hp. eapply slice_permits_changes; eassumption. Qed.

Lemma aligned_multiple addr n : slice addr n -> is_multiple_of addr 8 = true.
Proof. intros H. unfold is_multiple_of. now rewrite (slice_aligned _ _ H). Qed.

Abbreviation READ_WRITE := (Z.lor PROT_READ PROT_WRITE).

(** The two halves of [2 * n] words. *)
Lemma words_at_take s addr n m : take n (words_at s addr (n + m)) = words_at s addr n.
Proof. rewrite words_at_app, take_app_length'; [done|now rewrite words_at_length]. Qed.
Lemma words_at_drop s addr n m : drop n (words_at s addr (n + m)) = words_at s (addr + 8 * Z.of_nat n) m.
Proof. rewrite words_at_app, drop_app_length'; [done|now rewrite words_at_length]. Qed.

(** ** 256-bit integers *)
Lemma value_range k l : Forall (fits 64) l -> length l = k -> 0 <= value l < 2 ^ (64 * Z.of_nat k).
Proof. intros Hl <-. split; [now apply radix_nonneg|now apply radix_bound]. Qed.
Lemma words_at_range s addr k : wf s -> 0 <= value (words_at s addr k) < 2 ^ (64 * Z.of_nat k).
Proof. intros Hs. apply value_range; [now apply words_at_fits|apply words_at_length]. Qed.
Lemma stored_words_range s addr k : wf s -> 0 <= value (stored_words s addr k) < 2 ^ (64 * Z.of_nat k).
Proof. intros Hs. apply value_range; [now apply stored_words_fits|apply stored_words_length]. Qed.
Lemma mulmod_range a b m : 0 <= m < 2 ^ 256 -> 0 <= uint256_mulmod a b m < 2 ^ 256.
Proof.
  intros Hm. unfold uint256_mulmod. destruct (Z.eqb_spec m 0) as [|Hz].
  - change (1 ≪ 256) with (2 ^ 256). now apply Z.mod_pos_bound.
  - pose proof (Z.mod_pos_bound (a * b) m). lia.
Qed.

Section Integers.
Context (E : ExecutorConfig) (code : SyscallCode.t) (arg1 arg2 : Z).
Abbreviation run := (run E code arg1 arg2 true).

Lemma uint256_mul_run x_ptr y_ptr c Q s :
  wf s -> slice x_ptr 4 -> slice y_ptr 8 -> slice_permits s READ_WRITE x_ptr 4 -> slice_permits s PROT_READ y_ptr 8 ->
  (forall s', changes (slice_map x_ptr (limbs 64 4 (uint256_mulmod (value (stored_words s x_ptr 4))
                 (value (words_at s y_ptr 4)) (value (words_at s (y_ptr + 32) 4))))) s s' -> Q None s') ->
  run (uint256_mul code x_ptr y_ptr) c Q s.
Proof.
  intros Hwf Hsx Hsy Hpx Hpy HQ. unfold uint256_mul. apply run_get_clk. cbv zeta.
  rewrite (aligned_multiple _ _ Hsx), (aligned_multiple _ _ Hsy).
  apply (read_unsafe _ _ _ _ _ s x_ptr 4 _ _ _ Hsx). intros s1 H1.
  eapply read_slice; [exact H1|done..|]. intros recs pages c1 s2 H2.
  change (Z.to_nat (Z.of_nat WORDS_FIELD_ELEMENT * 2)) with (4 + 4)%nat. change WORDS_FIELD_ELEMENT with 4%nat.
  rewrite words_at_take, words_at_drop, !value_bytes by (apply stored_words_fits || apply words_at_fits; exact Hwf).
  change (8 * Z.of_nat 4) with 32. set (r := uint256_mulmod _ _ _) in *.
  assert (Hr : 0 <= r < 2 ^ 256) by apply mulmod_range, (words_at_range s _ 4 Hwf).
  rewrite (bytes_to_words_pad 4) by lia. apply run_incr_clk. intros c2.
  eapply write_result; [exact H2|done..|]. intros recs' pages' c3 s3 H3. eapply finish; [exact H3|exact HQ].
Qed.

Definition uint256_op_value (op : SyscallCode.Uint256Operation) (a b c : Z) : Z :=
  match op with
  | SyscallCode.Uint256Op.Add => a + b + c
  | SyscallCode.Uint256Op.Mul => a * b + c
  end.

Lemma uint256_op_nonneg op a b c : 0 <= a < 2 ^ 256 -> 0 <= b < 2 ^ 256 -> 0 <= c < 2 ^ 256 ->
  0 <= uint256_op_value op a b c < 2 ^ 512.
Proof. intros Ha Hb Hc. destruct op; cbn; [lia|]. change (2 ^ 512) with (2 ^ 256 * 2 ^ 256). nia. Qed.

Lemma uint256_ops_run op a_ptr b_ptr c Q s :
  let c_ptr := value_at s (inl 12) in
  let d_ptr := value_at s (inl 13) in
  let e_ptr := value_at s (inl 14) in
  wf s -> SyscallCode.uint256_op_map code = Some op ->
  slice a_ptr 4 -> slice b_ptr 4 -> slice c_ptr 4 -> slice d_ptr 4 -> slice e_ptr 4 ->
  slice_permits s PROT_READ a_ptr 4 -> slice_permits s PROT_READ b_ptr 4 -> slice_permits s PROT_READ c_ptr 4 ->
  slice_permits s PROT_WRITE d_ptr 4 -> slice_permits s PROT_WRITE e_ptr 4 ->
  let total := uint256_op_value op (value (words_at s a_ptr 4)) (value (words_at s b_ptr 4)) (value (words_at s c_ptr 4)) in
  (forall s', changes (slice_map e_ptr (limbs 64 4 (total / 2 ^ 256)) ∪ slice_map d_ptr (limbs 64 4 total)) s s' -> Q None s') ->
  run (uint256_ops code a_ptr b_ptr) c Q s.
Proof.
  intros c_ptr d_ptr e_ptr Hwf Hop Sa Sb Sc Sd Se Pa Pb Pc Pd Pe total HQ.
  unfold uint256_ops. apply run_get_clk. rewrite Hop. cbv zeta.
  eapply read_register; [reflexivity|done|]. intros r12 c1 s1 V12 H1.
  eapply read_register; [exact H1|done|]. intros r13 c2 s2 V13 H2.
  eapply read_register; [exact H2|done|]. intros r14 c3 s3 V14 H3.
  change (MemoryReadRecord.value r12 = c_ptr) in V12. change (MemoryReadRecord.value r13 = d_ptr) in V13.
  change (MemoryReadRecord.value r14 = e_ptr) in V14. rewrite V12, V13, V14.
  eapply read_slice; [exact H3|done..|]. intros recs pages c4 s4 H4. apply run_incr_clk. intros c5.
  eapply read_slice; [exact H4|done..|]. intros recs' pages' c6 s5 H5. apply run_incr_clk. intros c7.
  eapply read_slice; [exact H5|done..|]. intros recs'' pages'' c8 s6 H6.
  change (Z.to_nat (Z.of_nat U256_NUM_WORDS)) with 4%nat. rewrite !value_u32 by (apply words_at_fits, Hwf).
  fold (uint256_op_value op (value (words_at s a_ptr 4)) (value (words_at s b_ptr 4)) (value (words_at s c_ptr 4))).
  fold total. assert (Ht : 0 <= total < 2 ^ 512) by (apply uint256_op_nonneg; apply (words_at_range s _ 4 Hwf)).
  rewrite u64_digits_pad by lia.
  rewrite (limbs_app 64 4 4) by done. rewrite take_app_length', drop_app_length' by now rewrite limbs_length.
  change (64 * Z.of_nat 4) with 256. apply run_incr_clk. intros c9.
  eapply write_result; [exact H6|rewrite ?limbs_length; done..|]. intros r1 p1 c10 s7 H7. apply run_incr_clk. intros c11.
  eapply write_slice; [exact H7|rewrite ?limbs_length; done..|]. intros r2 p2 c12 s8 H8. eapply finish; [exact H8|exact HQ].
Qed.

Lemma u256x2048_mul_run a_ptr b_ptr c Q s :
  let lo_ptr := value_at s (inl 12) in
  let hi_ptr := value_at s (inl 13) in
  wf s -> slice a_ptr 4 -> slice b_ptr 32 -> slice lo_ptr 32 -> slice hi_ptr 4 ->
  slice_permits s PROT_READ a_ptr 4 -> slice_permits s PROT_READ b_ptr 32 ->
  slice_permits s PROT_WRITE lo_ptr 32 -> slice_permits s PROT_WRITE hi_ptr 4 ->
  let total := value (words_at s a_ptr 4) * value (words_at s b_ptr 32) in
  (forall s', changes (slice_map hi_ptr (limbs 64 4 (total / 2 ^ 2048)) ∪
                       slice_map lo_ptr (limbs 64 32 (total mod 2 ^ 2048))) s s' -> Q None s') ->
  run (u256x2048_mul code a_ptr b_ptr) c Q s.
Proof.
  intros lo_ptr hi_ptr Hwf Sa Sb Sl Sh Pa Pb Pl Ph total HQ. unfold u256x2048_mul. apply run_get_clk. cbv zeta.
  eapply read_register; [reflexivity|done|]. intros r12 c1 s1 V12 H1.
  eapply read_register; [exact H1|done|]. intros r13 c2 s2 V13 H2.
  change (MemoryReadRecord.value r12 = lo_ptr) in V12. change (MemoryReadRecord.value r13 = hi_ptr) in V13.
  rewrite V12, V13.
  eapply read_slice; [exact H2|done..|]. intros recs pages c3 s3 H3. apply run_incr_clk. intros c4.
  eapply read_slice; [exact H3|done..|]. intros recs' pages' c5 s4 H4.
  change (Z.to_nat (Z.of_nat U256_NUM_WORDS)) with 4%nat. change (Z.to_nat (Z.of_nat U2048_NUM_WORDS)) with 32%nat.
  rewrite !value_bytes by (apply words_at_fits, Hwf). fold total.
  rewrite (Z.shiftl_mul_pow2 1 2048), Z.mul_1_l by done.
  assert (Ht : 0 <= total) by (apply Z.mul_nonneg_nonneg; apply words_at_range, Hwf).
  change U2048_NUM_WORDS with 32%nat. change U256_NUM_WORDS with 4%nat.
  rewrite (bytes_to_words_pad 32), (bytes_to_words_pad 4) by (apply Z.mod_pos_bound || apply Z.div_pos; lia).
  apply run_incr_clk. intros c6.
  eapply write_result; [exact H4|rewrite ?limbs_length; done..|]. intros r1 p1 c7 s5 H5. apply run_incr_clk. intros c8.
  eapply write_slice; [exact H5|rewrite ?limbs_length; done..|]. intros r2 p2 c9 s6 H6. eapply finish; [exact H6|exact HQ].
Qed.
End Integers.

(** ** Fields *)

(** The parameters of a field of [n] words. *)
Record field_words (F : FieldParameters.t) (n : nat) : Prop := {
  field_limbs : NB_LIMBS F = (8 * n)%nat;
  field_small : (n <= 32)%nat;
  field_bytes : BigUint.from_bytes_le (MODULUS F) = modulus F;
  field_modulus : 0 < modulus F < 2 ^ (64 * Z.of_nat n) }.

Lemma bn254_words : field_words Bn254BaseField 4.
Proof. split; [done|lia|vm_compute; done..]. Qed.
Lemma bls12381_words : field_words Bls12381BaseField 6.
Proof. split; [done|lia|vm_compute; done..]. Qed.

Definition field_value (op : SyscallCode.FieldOperation) (a b : Z) : Z :=
  match op with
  | SyscallCode.Add => a + b
  | SyscallCode.Sub => a - b
  | SyscallCode.Mul => a * b
  | SyscallCode.Div => 0
  end.

Lemma fp_result_spec op m a b :
  0 < m -> op <> SyscallCode.Div -> fp_result op m (a mod m) (b mod m) = Some (field_value op a b mod m).
Proof.
  intros Hm Hop. destruct op; cbn; [now rewrite <- Zplus_mod|now rewrite <- Zmult_mod| |done].
  pose proof (Z.mod_pos_bound a m Hm). pose proof (Z.mod_pos_bound b m Hm). rewrite sub_le by lia. cbn.
  rewrite (Zminus_mod a b). replace (a mod m + m - b mod m) with (a mod m - b mod m + 1 * m) by ring.
  now rewrite Z_mod_plus_full.
Qed.

Lemma fp2_words_limbs n c0 c1 : 0 <= c0 -> 0 <= c1 -> fp2_words (2 * n) c0 c1 = limbs 64 n c0 ++ limbs 64 n c1.
Proof.
  intros H0 H1. unfold fp2_words. rewrite Nat.mul_comm, Nat.div_mul by done. rewrite u64_digits_pad by done.
  rewrite resize_app_ge by (rewrite limbs_length; lia). rewrite limbs_length.
  replace (n * 2 - n)%nat with n by lia. now rewrite u64_digits_pad.
Qed.

(** The two coefficients of an element of the quadratic extension. *)
Definition halves (l : list Z) : Z * Z := (value (take (length l / 2) l), value (drop (length l / 2) l)).

(** [u * u = -1]. *)
Definition fp2_value (op : SyscallCode.FieldOperation) (a b : Z * Z) : Z * Z :=
  match op with
  | SyscallCode.Add => (a.1 + b.1, a.2 + b.2)
  | SyscallCode.Sub => (a.1 - b.1, a.2 - b.2)
  | SyscallCode.Mul => (a.1 * b.1 - a.2 * b.2, a.1 * b.2 + a.2 * b.1)
  | SyscallCode.Div => (0, 0)
  end.
Definition reduce2 (m : Z) (a : Z * Z) : Z * Z := (a.1 mod m, a.2 mod m).

(** A subtraction needs the coefficients of [b] at most [m] above those of [a]. *)
Definition fp2_defined (op : SyscallCode.FieldOperation) (m : Z) (a b : Z * Z) : bool :=
  match op with
  | SyscallCode.Sub => (b.1 <=? a.1 + m) && (b.2 <=? a.2 + m)
  | _ => true
  end.

Lemma fp2_addsub_spec op m a b : op = SyscallCode.Add \/ op = SyscallCode.Sub ->
  fp2_addsub_result op m a.1 a.2 b.1 b.2 = if fp2_defined op m a b then Some (reduce2 m (fp2_value op a b)) else None.
Proof.
  intros [-> | ->]; [done|]. destruct a as [a0 a1], b as [b0 b1]. cbn. unfold BigUint.sub.
  rewrite !(Z.ltb_antisym _ (_ + _)). destruct (b0 <=? a0 + m); cbn; [|done]. destruct (b1 <=? a1 + m); cbn; [|done].
  unfold reduce2. cbn. do 2 f_equal.
  - replace (a0 + m - b0) with (a0 - b0 + 1 * m) by ring. apply Z_mod_plus_full.
  - replace (a1 + m - b1) with (a1 - b1 + 1 * m) by ring. apply Z_mod_plus_full.
Qed.

Lemma fp2_mul_spec m a b : 0 < m ->
  fp2_mul_result m a.1 a.2 b.1 b.2 = Some (reduce2 m (fp2_value SyscallCode.Mul a b)).
Proof.
  intros Hm. destruct a as [a0 a1], b as [b0 b1]. cbn. unfold fp2_mul_result, reduce2. cbn.
  pose proof (Z.mod_pos_bound (a0 * b0) m Hm). pose proof (Z.mod_pos_bound (a1 * b1) m Hm).
  rewrite <- Zplus_mod. rewrite (Zminus_mod (a0 * b0)).
  destruct (Z.ltb_spec ((a0 * b0) mod m) ((a1 * b1) mod m)); rewrite sub_le by lia; cbn; [|done].
  replace (m + (a0 * b0) mod m - (a1 * b1) mod m) with ((a0 * b0) mod m - (a1 * b1) mod m + 1 * m) by ring.
  now rewrite Z_mod_plus_full.
Qed.

Lemma halves_u32 n l : length l = (2 * n)%nat -> Forall (fits 64) l ->
  BigUint.from_slice (take (length (u64_to_u32 l) / 2) (u64_to_u32 l)) = (halves l).1 /\
  BigUint.from_slice (drop (length (u64_to_u32 l) / 2) (u64_to_u32 l)) = (halves l).2.
Proof.
  intros Hl Hf. destruct (u64_to_u32_split l n Hl) as [-> ->]. unfold halves. cbn [fst snd].
  rewrite Hl, Nat.mul_comm, Nat.div_mul by done. rewrite !value_u32; [done|now apply Forall_drop|now apply Forall_take].
Qed.

Lemma field_word_counts F n : field_words F n -> WordsFieldElement F = n /\ WordsCurvePoint F = (2 * n)%nat.
Proof.
  intros HF. unfold WordsFieldElement, WordsCurvePoint. rewrite (field_limbs _ _ HF).
  split; apply eq_sym, Nat.div_unique_exact; lia.
Qed.

Section Fields.
Context (E : ExecutorConfig) (code : SyscallCode.t) (arg1 arg2 : Z) (P : FpOpField) (n : nat).
Context (HF : field_words (fp_field P) n).
Let m : Z := modulus (fp_field P).

Lemma fp_op_run op key x_ptr y_ptr c Q s :
  wf s -> SyscallCode.fp_op_map code = Some op -> fp_key (FIELD_TYPE P) code = Some key ->
  slice x_ptr (Z.of_nat n) -> slice y_ptr (Z.of_nat n) ->
  slice_permits s READ_WRITE x_ptr (Z.of_nat n) -> slice_permits s PROT_READ y_ptr (Z.of_nat n) ->
  (forall s', changes (slice_map x_ptr (limbs 64 n
                (field_value op (value (stored_words s x_ptr n)) (value (words_at s y_ptr n)) mod m))) s s' -> Q None s') ->
  run E code arg1 arg2 true (fp_op_syscall P code x_ptr y_ptr) c Q s.
Proof using HF.
  intros Hwf Hop Hkey Sx Sy Px Py HQ. pose proof (field_small _ _ HF). pose proof (field_modulus _ _ HF) as Hm. fold m in Hm.
  unfold fp_op_syscall. apply run_get_clk. rewrite (aligned_multiple _ _ Sx), (aligned_multiple _ _ Sy), Hop.
  rewrite (proj1 (field_word_counts _ _ HF)). cbv zeta.
  apply read_unsafe; [done|]. intros s1 H1. eapply read_slice; [exact H1|done|lia|done|]. intros recs pages c1 s2 H2.
  rewrite Nat2Z.id, (field_bytes _ _ HF), !value_u32 by (apply stored_words_fits || apply words_at_fits; exact Hwf).
  fold m. rewrite fp_result_spec by (lia || (intros ->; now destruct code)).
  rewrite u64_digits_pad by (apply Z.mod_pos_bound; lia). apply run_incr_clk. intros c2.
  eapply write_result; [exact H2|rewrite ?limbs_length; done || lia..|]. intros recs' pages' c3 s3 H3. rewrite Hkey.
  eapply finish; [exact H3|exact HQ].
Qed.

(** The words of an element of the extension. *)
Definition fp2_limbs (a : Z * Z) : list Z := limbs 64 n a.1 ++ limbs 64 n a.2.

Lemma fp2_addsub_run op key x_ptr y_ptr c Q s :
  wf s -> SyscallCode.fp_op_map code = Some op -> op = SyscallCode.Add \/ op = SyscallCode.Sub ->
  fp2_addsub_key (FIELD_TYPE P) code = Some key ->
  slice x_ptr (Z.of_nat (2 * n)) -> slice y_ptr (Z.of_nat (2 * n)) ->
  slice_permits s READ_WRITE x_ptr (Z.of_nat (2 * n)) -> slice_permits s PROT_READ y_ptr (Z.of_nat (2 * n)) ->
  let a := halves (stored_words s x_ptr (2 * n)) in
  let b := halves (words_at s y_ptr (2 * n)) in
  (forall s', changes (slice_map x_ptr (fp2_limbs (reduce2 m (fp2_value op a b)))) s s' -> Q None s') ->
  run E code arg1 arg2 (fp2_defined op m a b) (fp2_addsub_syscall P code x_ptr y_ptr) c Q s.
Proof using HF.
  intros Hwf Hop Has Hkey Sx Sy Px Py a b HQ. pose proof (field_small _ _ HF). pose proof (field_modulus _ _ HF) as Hm. fold m in Hm.
  unfold fp2_addsub_syscall. apply run_get_clk. rewrite (aligned_multiple _ _ Sx), (aligned_multiple _ _ Sy), Hop.
  rewrite (proj2 (field_word_counts _ _ HF)). cbv zeta.
  apply read_unsafe; [done|]. intros s1 H1. eapply read_slice; [exact H1|done|lia|done|]. intros recs pages c1 s2 H2.
  apply run_incr_clk. intros c2. rewrite Nat2Z.id, (field_bytes _ _ HF). fold m.
  destruct (halves_u32 n (stored_words s x_ptr (2 * n))) as [-> ->]; [apply stored_words_length|now apply stored_words_fits|].
  destruct (halves_u32 n (words_at s y_ptr (2 * n))) as [-> ->]; [apply words_at_length|now apply words_at_fits|].
  fold a b. rewrite fp2_addsub_spec by done. destruct (fp2_defined op m a b); [|apply run_abort].
  destruct (fp2_value op a b) as [v0 v1]. cbn [reduce2 fst snd] in *.
  rewrite fp2_words_limbs by (apply Z.mod_pos_bound; lia).
  assert (Hl : length (limbs 64 n (v0 mod m) ++ limbs 64 n (v1 mod m)) = (2 * n)%nat)
    by (rewrite length_app, !limbs_length; lia).
  eapply write_result; [exact H2|rewrite ?Hl; done || lia..|]. intros recs' pages' c3 s3 H3. rewrite Hkey.
  eapply finish; [exact H3|exact HQ].
Qed.

Lemma fp2_mul_run x_ptr y_ptr c Q s :
  wf s -> slice x_ptr (Z.of_nat (2 * n)) -> slice y_ptr (Z.of_nat (2 * n)) ->
  slice_permits s READ_WRITE x_ptr (Z.of_nat (2 * n)) -> slice_permits s PROT_READ y_ptr (Z.of_nat (2 * n)) ->
  let a := halves (stored_words s x_ptr (2 * n)) in
  let b := halves (words_at s y_ptr (2 * n)) in
  (forall s', changes (slice_map x_ptr (fp2_limbs (reduce2 m (fp2_value SyscallCode.Mul a b)))) s s' -> Q None s') ->
  run E code arg1 arg2 true (fp2_mul_syscall P code x_ptr y_ptr) c Q s.
Proof using HF.
  intros Hwf Sx Sy Px Py a b HQ. pose proof (field_small _ _ HF). pose proof (field_modulus _ _ HF) as Hm. fold m in Hm.
  unfold fp2_mul_syscall. apply run_get_clk. rewrite (aligned_multiple _ _ Sx), (aligned_multiple _ _ Sy).
  rewrite (proj2 (field_word_counts _ _ HF)). cbv zeta.
  apply read_unsafe; [done|]. intros s1 H1. eapply read_slice; [exact H1|done|lia|done|]. intros recs pages c1 s2 H2.
  apply run_incr_clk. intros c2. rewrite Nat2Z.id, (field_bytes _ _ HF). fold m.
  destruct (halves_u32 n (stored_words s x_ptr (2 * n))) as [-> ->]; [apply stored_words_length|now apply stored_words_fits|].
  destruct (halves_u32 n (words_at s y_ptr (2 * n))) as [-> ->]; [apply words_at_length|now apply words_at_fits|].
  fold a b. rewrite fp2_mul_spec by lia. unfold reduce2 in *. set (v := fp2_value SyscallCode.Mul a b) in *.
  rewrite fp2_words_limbs by (apply Z.mod_pos_bound; lia).
  assert (Hl : length (limbs 64 n (v.1 mod m) ++ limbs 64 n (v.2 mod m)) = (2 * n)%nat)
    by (rewrite length_app, !limbs_length; lia).
  eapply write_result; [exact H2|rewrite ?Hl; done || lia..|]. intros recs' pages' c3 s3 H3.
  eapply finish; [exact H3|exact HQ].
Qed.
End Fields.

(** ** Short Weierstrass curves *)
Definition point_of (l : list Z) : AffinePoint.t := AffinePoint.mk (halves l).1 (halves l).2.

Lemma from_words_point n l : length l = (2 * n)%nat -> Forall (fits 64) l -> AffinePoint.from_words_le l = point_of l.
Proof.
  intros Hl Hf. rewrite (from_words_value n) by done. unfold point_of, halves. cbn [fst snd].
  now rewrite Hl, Nat.mul_comm, Nat.div_mul.
Qed.

Section Weierstrass.
Context `{CurveCrates} (E : ExecutorConfig) (code : SyscallCode.t) (arg1 arg2 : Z).
Context (W : WeierstrassParameters.t) (n : nat).
Context (HF : field_words (WeierstrassParameters.BaseField W) n).
Context (Hprime : Z.prime (modulus (WeierstrassParameters.BaseField W))).
Context (Htype : WeierstrassParameters.CURVE_TYPE W <> CurveType.Ed25519).
Abbreviation run := (run E code arg1 arg2 true).

Lemma point_words_length R : length (point_words n R) = (2 * n)%nat.
Proof using. unfold point_words. rewrite length_app, !limbs_length. lia. Qed.

Lemma weierstrass_add_run p_ptr q_ptr c Q s :
  let P1 := point_of (stored_words s p_ptr (2 * n)) in
  let P2 := point_of (words_at s q_ptr (2 * n)) in
  wf s -> slice p_ptr (Z.of_nat (2 * n)) -> slice q_ptr (Z.of_nat (2 * n)) ->
  slice_permits s READ_WRITE p_ptr (Z.of_nat (2 * n)) -> slice_permits s PROT_READ q_ptr (Z.of_nat (2 * n)) ->
  reduced W P1 -> reduced W P2 -> on_curve W P1 -> on_curve W P2 -> AffinePoint.x P1 <> AffinePoint.x P2 ->
  (forall R s', reduced W R -> on_curve W R -> is_sum W P1 P2 R ->
     changes (slice_map p_ptr (point_words n R)) s s' -> Q None s') ->
  run (weierstrass_add_assign_syscall (SwCurve W) code p_ptr q_ptr) c Q s.
Proof using HF Hprime Htype.
  intros P1 P2 Hwf Sp Sq Pp Pq R1 R2 C1 C2 Hx HQ. pose proof (field_small _ _ HF).
  destruct (sw_add_correct W Hprime P1 P2) as (R & HR & Rred & Rcurve & Rsum); [done..|].
  unfold weierstrass_add_assign_syscall, create_ec_add_event. apply run_get_clk.
  rewrite (aligned_multiple _ _ Sp), (aligned_multiple _ _ Sq). cbn [SwCurve curve_field ec_add CURVE_TYPE].
  rewrite (proj2 (field_word_counts _ _ HF)). cbv zeta.
  apply read_unsafe; [done|]. intros s1 H1. eapply read_slice; [exact H1|done|lia|done|]. intros recs pages c1 s2 H2.
  apply run_incr_clk. intros c2. rewrite Nat2Z.id.
  rewrite (from_words_point n (stored_words _ _ _)) by (apply stored_words_length || now apply stored_words_fits).
  rewrite (from_words_point n (words_at _ _ _)) by (apply words_at_length || now apply words_at_fits).
  fold P1 P2. rewrite HR, (to_words_limbs _ n) by (apply HF || apply Rred).
  eapply write_result; [exact H2|rewrite ?point_words_length; done || lia..|]. intros recs' pages' c3 s3 H3.
  destruct (WeierstrassParameters.CURVE_TYPE W); try done; (eapply finish; [exact H3|]; intros s' H'; now apply (HQ R)).
Qed.

Lemma weierstrass_double_run p_ptr q_ptr c Q s :
  let P := point_of (stored_words s p_ptr (2 * n)) in
  wf s -> slice p_ptr (Z.of_nat (2 * n)) -> slice_permits s READ_WRITE p_ptr (Z.of_nat (2 * n)) ->
  2 < modulus (WeierstrassParameters.BaseField W) -> reduced W P -> on_curve W P -> AffinePoint.y P <> 0 ->
  (forall R s', reduced W R -> on_curve W R -> is_double W P R ->
     changes (slice_map p_ptr (point_words n R)) s s' -> Q None s') ->
  run (weierstrass_double_assign_syscall (SwCurve W) code p_ptr q_ptr) c Q s.
Proof using HF Hprime Htype.
  intros P Hwf Sp Pp H2 R1 C1 Hy HQ. pose proof (field_small _ _ HF).
  destruct (sw_double_correct W Hprime P) as (R & HR & Rred & Rcurve & Rdouble); [done..|].
  unfold weierstrass_double_assign_syscall, create_ec_double_event. apply run_get_clk.
  rewrite (aligned_multiple _ _ Sp). cbn [SwCurve curve_field ec_double CURVE_TYPE].
  rewrite (proj2 (field_word_counts _ _ HF)). cbv zeta. apply read_unsafe; [done|]. intros s1 H1.
  rewrite (from_words_point n (stored_words _ _ _)) by (apply stored_words_length || now apply stored_words_fits).
  fold P. rewrite HR, (to_words_limbs _ n) by (apply HF || apply Rred).
  eapply write_result; [exact H1|rewrite ?point_words_length; done || lia..|]. intros recs' pages' c3 s3 H3.
  destruct (WeierstrassParameters.CURVE_TYPE W); try done; (eapply finish; [exact H3|]; intros s' H'; now apply (HQ R)).
Qed.
End Weierstrass.
