(* ===== verification/Calls.v ===== *)
(** * Calls: the arithmetic precompiles as system calls

    The theorems of [PrecompileProofs] stated for the handlers that
    [get_syscall] selects: what a call leaves in memory, as integers, field
    elements and curve points.  The base field of BN254 is a prime field
    ([Pocklington]), so that the curve theorems apply to it. *)
From Stdlib Require Import ZArith Lia Bool.
From stdpp Require Import base numbers option list gmap.
From S2P Require Import Prelude BigUint Curves Pocklington Isa PagedMemory SyscallCode State ExecMemory Interpreter Cost Syscalls Precompiles Samples Logic Rv64 Refinement SliceLogic PrecompileProofs.
Import FieldParameters (modulus).

(** ** Operands in memory *)

(** [n] words that the guest may read, may write, and may update in place.  An
    operand that is updated was accessed before. *)
Definition readable (s : Executor.t) (addr n : Z) : Prop := slice addr n /\ slice_permits s PROT_READ addr n.
Definition writable (s : Executor.t) (addr n : Z) : Prop := slice addr n /\ slice_permits s PROT_WRITE addr n.
Definition updatable (s : Executor.t) (addr : Z) (n : nat) : Prop :=
  slice addr (Z.of_nat n) /\ slice_permits s READ_WRITE addr (Z.of_nat n) /\ accessed s addr n.

(** The only effect is that the [n] words at [addr] are now [ws]. *)
Definition stores (addr : Z) (ws : list Z) (s s' : Executor.t) : Prop :=
  words_at s' addr (length ws) = ws /\ changes (slice_map addr ws) s s'.
Lemma changes_stores addr ws s s' : changes (slice_map addr ws) s s' -> stores addr ws s s'.
Proof. intros H. split; [exact (words_at_written _ _ _ _ H)|exact H]. Qed.

(** The effect is that the words at [a] are [l] and the words at [b] are [l']. *)
Definition stores2 (a : Z) (l : list Z) (b : Z) (l' : list Z) (s s' : Executor.t) : Prop :=
  words_at s' a (length l) = l /\ words_at s' b (length l') = l' /\ changes (slice_map b l' ∪ slice_map a l) s s'.

Definition disjoint_slices (a n b m : Z) : Prop := a + 8 * n <= b \/ b + 8 * m <= a.

Lemma changes_stores2 a l b l' s s' :
  a mod 8 = 0 -> b mod 8 = 0 -> disjoint_slices a (Z.of_nat (length l)) b (Z.of_nat (length l')) ->
  changes (slice_map b l' ∪ slice_map a l) s s' -> stores2 a l b l' s s'.
Proof.
  intros Ha Hb Hd H. unfold disjoint_slices in Hd. split; [|split; [|exact H]]; apply list_eq; intros i.
  - destruct (decide (i < length l)%nat) as [Hi|Hi]; [|rewrite !lookup_ge_None_2; [done|lia|rewrite words_at_length; lia]].
    rewrite words_at_lookup, (changes_value _ _ _ H), lookup_union, !slice_map_lookup by done.
    rewrite (proj2 (Z.leb_le (a / 8) _)) by lia. replace (Z.to_nat (a / 8 + Z.of_nat i - a / 8)) with i by lia.
    destruct (lookup_lt_is_Some_2 l i Hi) as [w ->].
    destruct (Z.leb_spec (b / 8) (a / 8 + Z.of_nat i)); [|done]. rewrite lookup_ge_None_2; [done|]. lia_mod.
  - destruct (decide (i < length l')%nat) as [Hi|Hi]; [|rewrite !lookup_ge_None_2; [done|lia|rewrite words_at_length; lia]].
    rewrite words_at_lookup, (changes_value _ _ _ H), lookup_union, !slice_map_lookup by done.
    rewrite (proj2 (Z.leb_le (b / 8) _)) by lia. replace (Z.to_nat (b / 8 + Z.of_nat i - b / 8)) with i by lia.
    destruct (lookup_lt_is_Some_2 l' i Hi) as [w ->]. destruct (a / 8 <=? _); [destruct (l !! _)|]; done.
Qed.

Lemma value_limbs k v : 0 <= v < 2 ^ (64 * Z.of_nat k) -> value (limbs 64 k v) = v.
Proof. intros Hv. rewrite radix_limbs by lia. now apply Z.mod_small. Qed.

Lemma secp256r1_words : field_words Secp256r1BaseField 4.
Proof. split; [done|lia|vm_compute; done..]. Qed.

Section Calls.
Context `{CurveCrates, HashCrates} (unconstrained : M unit) (E : ExecutorConfig) (c : SyscallContext.t).

(** The handler of [code] on the two arguments. *)
Definition call (code : SyscallCode.t) (arg1 arg2 : Z) : M (option Z * SyscallContext.t) :=
  get_syscall precompile unconstrained E code c code arg1 arg2.

(** A call without a result that leaves a state with [Q]. *)
Definition completes (Q : Executor.t -> Prop) (r : option Z * SyscallContext.t) (s' : Executor.t) : Prop :=
  fst r = None /\ Q s'.
Lemma completes_run ok code arg1 arg2 p Q s :
  run E code arg1 arg2 ok p c (fun r s' => r = None /\ Q s') s ->
  guarded ok (Api.interp E code arg1 arg2 p c) (completes Q) s.
Proof using. done. Qed.

Lemma completes_mono (Q Q' : Executor.t -> Prop) r s : (forall s', Q s' -> Q' s') -> completes Q r s -> completes Q' r s.
Proof using. intros HQ [Hr Hs]. split; auto. Qed.

Lemma mulmod_value a b m : uint256_mulmod a b m = (a * b) mod (if m =? 0 then 2 ^ 256 else m).
Proof using. unfold uint256_mulmod. change (1 ≪ 256) with (2 ^ 256). now destruct (m =? 0). Qed.

Lemma call_uint256_mul s x y :
  wf s -> updatable s x 4 -> readable s y 8 ->
  let a := value (words_at s x 4) in
  let b := value (words_at s y 4) in
  let m := value (words_at s (y + 32) 4) in
  wp (call SyscallCode.UINT256_MUL x y) (completes (fun s' => exists ws,
    stores x ws s s' /\ length ws = 4%nat /\
    value ws = (a * b) mod (if m =? 0 then 2 ^ 256 else m))) s.
Proof using.
  intros Hwf (Sx & Px & Ax) [Sy Py] a b m. pose proof (words_at_range s (y + 32) 4 Hwf) as Hm.
  apply (completes_run true SyscallCode.UINT256_MUL), uint256_mul_run; [done..|]. intros s' H'. split; [done|].
  rewrite (accessed_words _ _ _ Ax) in H'. eexists. split; [apply changes_stores, H'|].
  split; [apply limbs_length|]. rewrite <- mulmod_value. apply value_limbs, mulmod_range, Hm.
Qed.

(** The two halves of a result, one after the other. *)
Lemma stores_halves d e j k v s s' :
  slice d (Z.of_nat j) -> slice e (Z.of_nat k) -> disjoint_slices d (Z.of_nat j) e (Z.of_nat k) ->
  0 <= v < 2 ^ (64 * Z.of_nat (j + k)) ->
  changes (slice_map e (limbs 64 k (v / 2 ^ (64 * Z.of_nat j))) ∪ slice_map d (limbs 64 j v)) s s' ->
  exists lo hi, stores2 d lo e hi s s' /\ length lo = j /\ length hi = k /\ value lo + 2 ^ (64 * Z.of_nat j) * value hi = v.
Proof using.
  intros Sd Se Hd Hv H'. do 2 eexists. split.
  - apply changes_stores2; [apply Sd|apply Se|rewrite !limbs_length; exact Hd|exact H'].
  - split; [apply limbs_length|]. split; [apply limbs_length|]. rewrite (radix_limbs 64 j) by lia.
    rewrite Nat2Z.inj_add, Z.mul_add_distr_l, Z.pow_add_r in Hv by lia.
    rewrite value_limbs by (split; [apply Z.div_pos; lia|apply Z.div_lt_upper_bound; lia]).
    rewrite Z.add_comm. symmetry. apply Z.div_mod. lia.
Qed.

Lemma call_uint256_ops s code op a b :
  wf s -> SyscallCode.uint256_op_map code = Some op ->
  let c := value_at s (inl 12) in
  let d := value_at s (inl 13) in
  let e := value_at s (inl 14) in
  readable s a 4 -> readable s b 4 -> readable s c 4 -> writable s d 4 -> writable s e 4 -> disjoint_slices d 4 e 4 ->
  wp (call code a b) (completes (fun s' => exists lo hi,
    stores2 d lo e hi s s' /\ length lo = 4%nat /\ length hi = 4%nat /\
    value lo + 2 ^ 256 * value hi =
      uint256_op_value op (value (words_at s a 4)) (value (words_at s b 4)) (value (words_at s c 4)))) s.
Proof using.
  intros Hwf Hop c0 d e [Sa Pa] [Sb Pb] [Sc Pc] [Sd Pd] [Se Pe] Hd.
  assert (Hc : call code a b = Api.interp E code a b (uint256_ops code a b) c) by now destruct code.
  rewrite Hc. apply (completes_run true), (uint256_ops_run E code a b op); [done..|]. intros s' H'. split; [done|].
  apply (stores_halves d e 4 4); [done..| |exact H']. apply uint256_op_nonneg; apply (words_at_range s _ 4 Hwf).
Qed.

Lemma call_u256x2048 s a b :
  wf s ->
  let lo_ptr := value_at s (inl 12) in
  let hi_ptr := value_at s (inl 13) in
  readable s a 4 -> readable s b 32 -> writable s lo_ptr 32 -> writable s hi_ptr 4 -> disjoint_slices lo_ptr 32 hi_ptr 4 ->
  wp (call SyscallCode.U256XU2048_MUL a b) (completes (fun s' => exists lo hi,
    stores2 lo_ptr lo hi_ptr hi s s' /\ length lo = 32%nat /\ length hi = 4%nat /\
    value lo + 2 ^ 2048 * value hi = value (words_at s a 4) * value (words_at s b 32))) s.
Proof using.
  intros Hwf lo_ptr hi_ptr [Sa Pa] [Sb Pb] [Sl Pl] [Sh Ph] Hd.
  apply (completes_run true SyscallCode.U256XU2048_MUL), u256x2048_mul_run; [done..|]. intros s' H'. split; [done|].
  rewrite (limbs_mod 64 32) in H' by lia.
  apply (stores_halves lo_ptr hi_ptr 32 4); [done..| |exact H'].
  pose proof (words_at_range s a 4 Hwf). pose proof (words_at_range s b 32 Hwf).
  change (64 * Z.of_nat (32 + 4)) with (64 * Z.of_nat 4 + 64 * Z.of_nat 32). rewrite Z.pow_add_r by lia.
  split; [apply Z.mul_nonneg_nonneg|apply Z.mul_lt_mono_nonneg]; lia.
Qed.

(** C16. UINT256_MUL replaces its first operand by the product modulo the
    third one, or modulo 2 ^ 256 when that is 0. UINT256_ADD_CARRY and
    UINT256_MUL_CARRY store the exact value of [a + b + c] and [a * b + c] in
    two 256-bit results, and U256XU2048_MUL stores the exact product of 2304
    bits in its two results: nothing of the result is lost. No other
    location changes. *)
Theorem integer_precompiles_exact s :
  wf s ->
  (forall x y, updatable s x 4 -> readable s y 8 ->
     let a := value (words_at s x 4) in
     let b := value (words_at s y 4) in
     let m := value (words_at s (y + 32) 4) in
     wp (call SyscallCode.UINT256_MUL x y) (completes (fun s' => exists ws,
       stores x ws s s' /\ length ws = 4%nat /\
       value ws = (a * b) mod (if m =? 0 then 2 ^ 256 else m))) s) /\
  (forall code op a b, SyscallCode.uint256_op_map code = Some op ->
     let c := value_at s (inl 12) in
     let d := value_at s (inl 13) in
     let e := value_at s (inl 14) in
     readable s a 4 -> readable s b 4 -> readable s c 4 -> writable s d 4 -> writable s e 4 -> disjoint_slices d 4 e 4 ->
     wp (call code a b) (completes (fun s' => exists lo hi,
       stores2 d lo e hi s s' /\ length lo = 4%nat /\ length hi = 4%nat /\
       value lo + 2 ^ 256 * value hi =
         uint256_op_value op (value (words_at s a 4)) (value (words_at s b 4)) (value (words_at s c 4)))) s) /\
  (forall a b,
     let lo_ptr := value_at s (inl 12) in
     let hi_ptr := value_at s (inl 13) in
     readable s a 4 -> readable s b 32 -> writable s lo_ptr 32 -> writable s hi_ptr 4 -> disjoint_slices lo_ptr 32 hi_ptr 4 ->
     wp (call SyscallCode.U256XU2048_MUL a b) (completes (fun s' => exists lo hi,
       stores2 lo_ptr lo hi_ptr hi s s' /\ length lo = 32%nat /\ length hi = 4%nat /\
       value lo + 2 ^ 2048 * value hi = value (words_at s a 4) * value (words_at s b 32))) s).
Proof using.
  intros Hwf. split; [|split]; intros; [now apply call_uint256_mul|now apply call_uint256_ops|now apply call_u256x2048].
Qed.

(** *** Fields *)

(** The field operation of a code on the base field and on its quadratic
    extension; the elements of the base field have [n] words. *)
Inductive field_codes : FpOpField -> nat -> SyscallCode.FieldOperation -> SyscallCode.t -> SyscallCode.t -> Prop :=
| bn254_add : field_codes Bn254Fp 4 SyscallCode.Add SyscallCode.BN254_FP_ADD SyscallCode.BN254_FP2_ADD
| bn254_sub : field_codes Bn254Fp 4 SyscallCode.Sub SyscallCode.BN254_FP_SUB SyscallCode.BN254_FP2_SUB
| bn254_mul : field_codes Bn254Fp 4 SyscallCode.Mul SyscallCode.BN254_FP_MUL SyscallCode.BN254_FP2_MUL
| bls12381_add : field_codes Bls12381Fp 6 SyscallCode.Add SyscallCode.BLS12381_FP_ADD SyscallCode.BLS12381_FP2_ADD
| bls12381_sub : field_codes Bls12381Fp 6 SyscallCode.Sub SyscallCode.BLS12381_FP_SUB SyscallCode.BLS12381_FP2_SUB
| bls12381_mul : field_codes Bls12381Fp 6 SyscallCode.Mul SyscallCode.BLS12381_FP_MUL SyscallCode.BLS12381_FP2_MUL.

Lemma field_codes_words P n op fp fp2 : field_codes P n op fp fp2 -> field_words (fp_field P) n.
Proof using. intros []; apply bn254_words || apply bls12381_words. Qed.

Lemma halves_app n l l' : length l = n -> length l' = n -> halves (l ++ l') = (value l, value l').
Proof using.
  intros Hl Hl'. unfold halves. rewrite length_app, Hl, Hl'. replace (n + n)%nat with (n * 2)%nat by lia.
  rewrite Nat.div_mul by done. now rewrite take_app_length', drop_app_length'.
Qed.
Lemma fp2_limbs_halves P n a : field_words (fp_field P) n ->
  halves (fp2_limbs n (reduce2 (modulus (fp_field P)) a)) = reduce2 (modulus (fp_field P)) a.
Proof using.
  intros HF. pose proof (field_modulus _ _ HF) as Hm. unfold fp2_limbs. rewrite (halves_app n) by apply limbs_length.
  unfold reduce2. cbn [fst snd]. pose proof (Z.mod_pos_bound a.1 (modulus (fp_field P)) ltac:(lia)).
  pose proof (Z.mod_pos_bound a.2 (modulus (fp_field P)) ltac:(lia)). rewrite !value_limbs by lia. done.
Qed.

Lemma call_fp2 s P n op fp fp2 x y :
  wf s -> field_codes P n op fp fp2 -> updatable s x (2 * n) -> readable s y (Z.of_nat (2 * n)) ->
  let m := modulus (fp_field P) in
  let a := halves (words_at s x (2 * n)) in
  let b := halves (words_at s y (2 * n)) in
  guarded (fp2_defined op m a b) (call fp2 x y) (completes (fun s' =>
    stores x (fp2_limbs n (reduce2 m (fp2_value op a b))) s s')) s.
Proof using.
  intros Hwf Hc (Sx & Px & Ax) [Sy Py] m a b. pose proof (field_codes_words _ _ _ _ _ Hc) as HF.
  subst a. rewrite <- (accessed_words _ _ _ Ax).
  destruct Hc; apply completes_run;
    (eapply fp2_addsub_run || eapply fp2_mul_run); try done; try (now left); try (now right);
    intros s' H'; (split; [done|apply changes_stores, H']).
Qed.

Lemma call_fp s P n op fp fp2 x y :
  wf s -> field_codes P n op fp fp2 -> updatable s x n -> readable s y (Z.of_nat n) ->
  wp (call fp x y) (completes (fun s' => stores x (limbs 64 n
    (field_value op (value (words_at s x n)) (value (words_at s y n)) mod modulus (fp_field P))) s s')) s.
Proof using.
  intros Hwf Hc (Sx & Px & Ax) [Sy Py]. pose proof (field_codes_words _ _ _ _ _ Hc) as HF.
  rewrite <- (accessed_words _ _ _ Ax).
  destruct Hc; apply (completes_run true); (eapply fp_op_run; try done); intros s' H'; (split; [done|apply changes_stores, H']).
Qed.

(** C17. The field precompiles of BN254 and BLS12-381 replace their first
    operand by the sum, difference or product in the base field, reduced, for
    any operands. Those of the quadratic extension ([u * u = -1]) do the same,
    except that a subtraction panics when a coefficient of the second operand
    exceeds that of the first by more than the modulus. No other location
    changes. *)
Theorem field_precompiles_correct s P n op fp fp2 :
  wf s -> field_codes P n op fp fp2 ->
  let m := modulus (fp_field P) in
  (forall x y, updatable s x n -> readable s y (Z.of_nat n) ->
     wp (call fp x y) (completes (fun s' => exists ws, stores x ws s s' /\ length ws = n /\
       value ws = field_value op (value (words_at s x n)) (value (words_at s y n)) mod m)) s) /\
  (forall x y, updatable s x (2 * n) -> readable s y (Z.of_nat (2 * n)) ->
     let a := halves (words_at s x (2 * n)) in
     let b := halves (words_at s y (2 * n)) in
     guarded (fp2_defined op m a b) (call fp2 x y) (completes (fun s' => exists ws, stores x ws s s' /\
       length ws = (2 * n)%nat /\ halves ws = reduce2 m (fp2_value op a b))) s).
Proof using.
  intros Hwf Hc m. pose proof (field_codes_words _ _ _ _ _ Hc) as HF. pose proof (field_modulus _ _ HF) as Hm. fold m in Hm.
  split; intros x y Hx Hy.
  - eapply wp_mono; [eapply call_fp; eassumption|]. intros r s' [Hr Hs]. split; [done|]. eexists. split; [exact Hs|].
    split; [apply limbs_length|]. apply value_limbs. pose proof (Z.mod_pos_bound (field_value op (value (words_at s x n))
      (value (words_at s y n))) m). fold m. lia.
  - intros a b. eapply guarded_mono; [eapply call_fp2; eassumption|]. intros r s' [Hr Hs]. split; [done|]. eexists.
    split; [exact Hs|]. split; [unfold fp2_limbs; rewrite length_app, !limbs_length; lia|now apply fp2_limbs_halves].
Qed.

(** *** Curves *)

(** The codes of a curve whose arithmetic is the generic one, and the number
    of words of its coordinates. *)
Inductive curve_codes : WeierstrassParameters.t -> nat -> SyscallCode.t -> SyscallCode.t -> Prop :=
| bn254_codes : curve_codes Bn254Parameters 4 SyscallCode.BN254_ADD SyscallCode.BN254_DOUBLE
| secp256r1_codes : curve_codes Secp256r1Parameters 4 SyscallCode.SECP256R1_ADD SyscallCode.SECP256R1_DOUBLE
| bls12381_codes : curve_codes Bls12381Parameters 6 SyscallCode.BLS12381_ADD SyscallCode.BLS12381_DOUBLE.

Lemma curve_codes_words W n add double : curve_codes W n add double ->
  field_words (WeierstrassParameters.BaseField W) n /\ WeierstrassParameters.CURVE_TYPE W <> CurveType.Ed25519 /\
  2 < modulus (WeierstrassParameters.BaseField W).
Proof using. intros []; (split; [apply bn254_words || apply secp256r1_words || apply bls12381_words|]); now vm_compute. Qed.

Lemma point_of_words W n R : field_words (WeierstrassParameters.BaseField W) n -> reduced W R -> point_of (point_words n R) = R.
Proof using.
  intros HF [Hx Hy]. pose proof (field_modulus _ _ HF). unfold point_of, point_words.
  rewrite (halves_app n) by apply limbs_length. cbn [fst snd]. rewrite !value_limbs by lia. now destruct R.
Qed.

Lemma point_stored W n (Φ : AffinePoint.t -> Prop) R p s s' :
  field_words (WeierstrassParameters.BaseField W) n -> reduced W R -> on_curve W R -> Φ R ->
  changes (slice_map p (point_words n R)) s s' ->
  exists ws, stores p ws s s' /\ length ws = (2 * n)%nat /\
    let R := point_of ws in reduced W R /\ on_curve W R /\ Φ R.
Proof using.
  intros HF HR CR SR H'. exists (point_words n R). split; [apply changes_stores, H'|]. split; [apply point_words_length|].
  cbv zeta. now rewrite (point_of_words W).
Qed.

(** C14. The addition precompiles of BN254, secp256r1 and BLS12-381 replace
    the point at [p] by the sum of the points at [p] and [q]: reduced
    coordinates, on the curve, and the mirrored third intersection of the
    chord, for points of the curve with reduced and distinct first
    coordinates. No other location changes. *)
Theorem weierstrass_add_correct s W n add double p q :
  wf s -> curve_codes W n add double -> Z.prime (modulus (WeierstrassParameters.BaseField W)) ->
  updatable s p (2 * n) -> readable s q (Z.of_nat (2 * n)) ->
  let P := point_of (words_at s p (2 * n)) in
  let Q := point_of (words_at s q (2 * n)) in
  reduced W P -> reduced W Q -> on_curve W P -> on_curve W Q -> AffinePoint.x P <> AffinePoint.x Q ->
  wp (call add p q) (completes (fun s' => exists ws, stores p ws s s' /\ length ws = (2 * n)%nat /\
    let R := point_of ws in reduced W R /\ on_curve W R /\ is_sum W P Q R)) s.
Proof using.
  intros Hwf Hc Hprime (Sp & Pp & Ap) [Sq Pq] P Q. subst P. rewrite <- (accessed_words _ _ _ Ap). intros HP HQ CP CQ Hx.
  destruct (curve_codes_words _ _ _ _ Hc) as (HF & Ht & _).
  destruct Hc; apply (completes_run true); (eapply weierstrass_add_run; try done); intros R s' HR CR SR H';
    (split; [done|]); eapply point_stored; eassumption.
Qed.

(** C15. The doubling precompiles of BN254, secp256r1 and BLS12-381 replace
    the point at [p] by its double: reduced coordinates, on the curve, and the
    mirrored second intersection of the tangent, for a point of the curve with
    reduced coordinates whose second coordinate is not 0. No other location
    changes. *)
Theorem weierstrass_double_correct s W n add double p q :
  wf s -> curve_codes W n add double -> Z.prime (modulus (WeierstrassParameters.BaseField W)) ->
  updatable s p (2 * n) ->
  let P := point_of (words_at s p (2 * n)) in
  reduced W P -> on_curve W P -> AffinePoint.y P <> 0 ->
  wp (call double p q) (completes (fun s' => exists ws, stores p ws s s' /\ length ws = (2 * n)%nat /\
    let R := point_of ws in reduced W R /\ on_curve W R /\ is_double W P R)) s.
Proof using.
  intros Hwf Hc Hprime (Sp & Pp & Ap) P. subst P. rewrite <- (accessed_words _ _ _ Ap). intros HP CP Hy.
  destruct (curve_codes_words _ _ _ _ Hc) as (HF & Ht & H2).
  destruct Hc; apply (completes_run true); (eapply weierstrass_double_run; try done); intros R s' HR CR SR H';
    (split; [done|]); eapply point_stored; eassumption.
Qed.

(** *** Read-only pages *)

(** C18. In a program with page protections, UINT256_MUL writes its result to
    pages that may be read and not written, where the store of an instruction
    panics: the check of a read-and-write access passes when one of the two
    permissions is there. *)
Theorem precompile_writes_read_only_page s x y v :
  wf s -> untrusted s = true -> slice x 4 -> readable s y 8 -> accessed s x 4 ->
  (forall i, 0 <= i < 4 -> prot_at s ((x + i * 8) / PAGE_SIZE) = PROT_READ) ->
  mw_cpu E x v s = Panic /\
  wp (call SyscallCode.UINT256_MUL x y) (completes (fun s' => exists ws, stores x ws s s' /\
    value ws = uint256_mulmod (value (words_at s x 4)) (value (words_at s y 4)) (value (words_at s (y + 32) 4)))) s.
Proof using.
  intros Hwf Hu Sx Hy Ax Hp. destruct (slice_mapped x 4 Sx ltac:(lia)) as [Hm Ha]. split.
  - pose proof (mw_cpu_wp E x v s) as H'. rewrite Ha, Hm in H'.
    assert (Hn : permits s PROT_WRITE x = false); [|now rewrite Hn in H'].
    unfold permits. unfold untrusted in Hu. rewrite Hu. cbn [negb orb].
    specialize (Hp 0 ltac:(lia)). replace (x + 0 * 8) with x in Hp by lia. now rewrite Ha, Hp.
  - eapply wp_mono; [apply call_uint256_mul; [done| |exact Hy]|].
    + split; [done|]. split; [|done]. intros _ i Hi. rewrite Hp by lia. done.
    + intros r s' (Hr & ws & Hs & _ & Hv). split; [done|]. exists ws. split; [done|]. now rewrite mulmod_value.
Qed.
End Calls.

(** ** Instances *)
Definition wfb (s : Executor.t) : bool :=
  fitsb 64 (ExecutionState.pc (Executor.state s)) &&
  forallb (fun le => fitsb 64 (MemoryEntry.value (snd le))) (map_to_list (ExecutionState.memory (Executor.state s))) &&
  forallb (fun lv => fitsb 64 (snd lv)) (map_to_list (ExecutionState.uninitialized_memory (Executor.state s))) &&
  (value_at s (inl 0) =? 0).
Lemma wfb_sound s : wfb s = true -> wf s.
Proof.
  unfold wfb. rewrite !andb_true_iff, !forallb_forall, Z.eqb_eq. intros [[[Hpc Hm] Hu] Hx].
  split; [now apply fitsb_spec|intros l|done]. unfold value_at, entry_at, initial_value.
  destruct (ExecutionState.memory (Executor.state s) !! l) as [e|] eqn:He.
  - apply fitsb_spec, (Hm (l, e)), list_elem_of_In, elem_of_map_to_list, He.
  - destruct (ExecutionState.uninitialized_memory (Executor.state s) !! l) as [v|] eqn:Hv; [|done].
    apply fitsb_spec, (Hu (l, v)), list_elem_of_In, elem_of_map_to_list, Hv.
Qed.

Definition accessedb (s : Executor.t) (addr : Z) (n : nat) : bool :=
  forallb (fun i => bool_decide (is_Some (entry_at (inr (addr / 8 + Z.of_nat i)) s))) (seq 0 n).
Lemma accessedb_sound s addr n : accessedb s addr n = true -> accessed s addr n.
Proof.
  unfold accessedb. rewrite forallb_forall. intros Hall i Hi. specialize (Hall i).
  rewrite bool_decide_eq_true, in_seq in Hall. destruct Hall as [e ->]; [lia|done].
Qed.

(** Operands at 0x1000, 0x2000 and 0x3000; the registers 12 to 14 have the
    addresses 0x3000, 0x4000 and 0x5000. *)
Definition operand_state (program : Program.t -> Program.t) (a b c : list Z) : Executor.t :=
  let s := Executor.with_context (Context.mk (program (sample_program 0)) None 16 (Some (1000000, 1000)) (fun _ => 1) [] [] 0 []
    None false (fun _ => None) None None Manual.decode) in
  let s := store_words 512 a (store_words 1024 b (store_words 1536 c s)) in
  Executor.set_state (ExecutionState.set_memory
    (<[(inl 12 : loc) := MemoryEntry.mk false 0 0x3000]> (<[(inl 13 : loc) := MemoryEntry.mk false 0 0x4000]>
    (<[(inl 14 : loc) := MemoryEntry.mk false 0 0x5000]> (ExecutionState.memory (Executor.state s))))) (Executor.state s)) s.

Ltac concrete :=
  match goal with
  | |- wf _ => apply wfb_sound; vm_compute; reflexivity
  | |- accessed _ _ _ => apply accessedb_sound; vm_compute; reflexivity
  | |- slice _ _ => split; lia || reflexivity
  | |- slice_permits _ _ _ _ => solve [intros [=]]
  | |- readable _ _ _ => split; concrete
  | |- writable _ _ _ => split; concrete
  | |- updatable _ _ _ => split; [concrete|split; concrete]
  end.

Definition max_operands : Executor.t :=
  operand_state (fun p => p) (limbs 64 4 (2 ^ 256 - 1)) (limbs 64 4 (2 ^ 256 - 1) ++ limbs 64 4 7 ++ replicate 24 0)
    (limbs 64 4 (2 ^ 256 - 1)).

Abbreviation sample_call := (call (H := sample_curve_crates) (H0 := sample_hash_crates) (ret tt) Trace sample_syscall_context).

(** The largest operands: the sum and the product of the carry operations fill
    both results. *)
Lemma integer_precompiles_exact_witness :
  wp (sample_call SyscallCode.UINT256_MUL 0x1000 0x2000) (completes (fun s' => exists ws,
    stores 0x1000 ws max_operands s' /\ length ws = 4%nat /\ value ws = 1)) max_operands /\
  wp (sample_call SyscallCode.UINT256_MUL_CARRY 0x1000 0x2000) (completes (fun s' => exists lo hi,
    stores2 0x4000 lo 0x5000 hi max_operands s' /\ length lo = 4%nat /\ length hi = 4%nat /\
    value lo + 2 ^ 256 * value hi = 2 ^ 256 * (2 ^ 256 - 1))) max_operands /\
  wp (sample_call SyscallCode.U256XU2048_MUL 0x1000 0x2000) (completes (fun s' => exists lo hi,
    stores2 0x3000 lo 0x4000 hi max_operands s' /\ length lo = 32%nat /\ length hi = 4%nat /\
    value lo + 2 ^ 2048 * value hi = (2 ^ 256 - 1) * (2 ^ 256 - 1 + 7 * 2 ^ 256))) max_operands.
Proof.
  pose proof (integer_precompiles_exact (H := sample_curve_crates) (H0 := sample_hash_crates) (ret tt) Trace
    sample_syscall_context max_operands ltac:(concrete)) as (H1 & H2 & H3).
  assert (R12 : value_at max_operands (inl 12) = 0x3000) by (vm_compute; reflexivity).
  assert (R13 : value_at max_operands (inl 13) = 0x4000) by (vm_compute; reflexivity).
  assert (R14 : value_at max_operands (inl 14) = 0x5000) by (vm_compute; reflexivity).
  rewrite ?R12, ?R13, ?R14 in H2, H3. split; [|split]; (eapply wp_mono; [|intros r s'; apply completes_mono; clear s']).
  - apply (H1 0x1000 0x2000); concrete.
  - intros s' (ws & Hs & Hl & Hv). exists ws. split; [exact Hs|]. split; [exact Hl|]. rewrite Hv. vm_compute. reflexivity.
  - apply (H2 SyscallCode.UINT256_MUL_CARRY SyscallCode.Uint256Op.Mul 0x1000 0x2000 eq_refl); try concrete. left. lia.
  - intros s' (lo & hi & Hs & Hl & Hh & Hv). exists lo, hi. split; [exact Hs|]. split; [exact Hl|]. split; [exact Hh|].
    rewrite Hv. vm_compute. reflexivity.
  - apply (H3 0x1000 0x2000); try concrete. left. lia.
  - intros s' (lo & hi & Hs & Hl & Hh & Hv). exists lo, hi. split; [exact Hs|]. split; [exact Hl|]. split; [exact Hh|].
    rewrite Hv. vm_compute. reflexivity.
Defined.

(** A difference of unreduced operands in the base field of BN254; in the
    extension it panics. *)
Definition unreduced_operands : Executor.t :=
  operand_state (fun p => p) (limbs 64 4 5 ++ replicate 4 0) (limbs 64 4 (2 ^ 256 - 1) ++ replicate 4 0) [].
Lemma field_precompiles_correct_witness :
  wp (sample_call SyscallCode.BN254_FP_SUB 0x1000 0x2000) (completes (fun s' => exists ws,
    stores 0x1000 ws unreduced_operands s' /\ length ws = 4%nat /\
    value ws = 15537367993719455909907449462855742678907882278146377936676643359958227611568)) unreduced_operands /\
  sample_call SyscallCode.BN254_FP2_SUB 0x1000 0x2000 unreduced_operands = Panic.
Proof.
  pose proof (field_precompiles_correct (H := sample_curve_crates) (H0 := sample_hash_crates) (ret tt) Trace
    sample_syscall_context unreduced_operands _ _ _ _ _ ltac:(concrete) bn254_sub) as [H1 H2]. split.
  - eapply wp_mono; [apply (H1 0x1000 0x2000); concrete|]. intros r s'. apply completes_mono. clear s'.
    intros s' (ws & Hs & Hl & Hv). exists ws. split; [exact Hs|]. split; [exact Hl|]. rewrite Hv. vm_compute. reflexivity.
  - specialize (H2 0x1000 0x2000 ltac:(concrete) ltac:(concrete)). cbv zeta in H2.
    destruct (fp2_defined _ _ _ _) eqn:Hd; [|exact H2]. clear H2. vm_compute in Hd. discriminate Hd.
Defined.

(** The generator [(1, 2)] of BN254 and its double. *)
Definition bn254_generator : AffinePoint.t := AffinePoint.mk 1 2.
Definition bn254_twice : AffinePoint.t :=
  AffinePoint.mk 1368015179489954701390400359078579693043519447331113978918064868415326638035
    9918110051302171585080402603319702774565515993150576347155970296011118125764.
Definition curve_operands : Executor.t :=
  operand_state (fun p => p) (point_words 4 bn254_generator) (point_words 4 bn254_twice) [].

Ltac by_reduced := split; (split; [apply Z.leb_le|apply Z.ltb_lt]; vm_compute; reflexivity).

Lemma curve_operand_p : point_of (words_at curve_operands 0x1000 (2 * 4)) = bn254_generator.
Proof. vm_compute. reflexivity. Qed.
Lemma curve_operand_q : point_of (words_at curve_operands 0x2000 (2 * 4)) = bn254_twice.
Proof. vm_compute. reflexivity. Qed.

Lemma weierstrass_add_correct_witness :
  wp (sample_call SyscallCode.BN254_ADD 0x1000 0x2000) (completes (fun s' => exists ws,
    stores 0x1000 ws curve_operands s' /\ length ws = 8%nat /\
    let R := point_of ws in
    reduced Bn254Parameters R /\ on_curve Bn254Parameters R /\ is_sum Bn254Parameters bn254_generator bn254_twice R))
  curve_operands.
Proof.
  pose proof (weierstrass_add_correct (H := sample_curve_crates) (H0 := sample_hash_crates) (ret tt) Trace
    sample_syscall_context curve_operands _ _ _ _ 0x1000 0x2000 ltac:(concrete) bn254_codes bn254_prime
    ltac:(concrete) ltac:(concrete)) as Hadd. cbv zeta in Hadd. rewrite curve_operand_p, curve_operand_q in Hadd.
  apply Hadd; [by_reduced|by_reduced|split; vm_compute; reflexivity|split; vm_compute; reflexivity|apply Z.eqb_neq; vm_compute; reflexivity].
Defined.

Lemma weierstrass_double_correct_witness :
  wp (sample_call SyscallCode.BN254_DOUBLE 0x1000 0) (completes (fun s' => exists ws,
    stores 0x1000 ws curve_operands s' /\ length ws = 8%nat /\
    let R := point_of ws in
    reduced Bn254Parameters R /\ on_curve Bn254Parameters R /\ is_double Bn254Parameters bn254_generator R))
  curve_operands.
Proof.
  pose proof (weierstrass_double_correct (H := sample_curve_crates) (H0 := sample_hash_crates) (ret tt) Trace
    sample_syscall_context curve_operands _ _ _ _ 0x1000 0 ltac:(concrete) bn254_codes bn254_prime
    ltac:(concrete)) as Hdouble. cbv zeta in Hdouble. rewrite curve_operand_p in Hdouble.
  apply Hdouble; [by_reduced|split; vm_compute; reflexivity|apply Z.eqb_neq; vm_compute; reflexivity].
Defined.

(** A program with page protections whose page at 0x1000 is read-only. *)
Definition read_only_state : Executor.t :=
  let s := operand_state (fun p => Program.mk (Program.instructions p) (Program.pc_start_abs p) (Program.pc_base p)
    (Program.memory_image p) (Program.page_prot_image p) true) (limbs 64 4 6) (limbs 64 4 7 ++ limbs 64 4 100) [] in
  Executor.set_state (ExecutionState.set_page_prots {[ 1 := PageProtRecord.mk false 0 PROT_READ ]} (Executor.state s)) s.
Lemma precompile_writes_read_only_page_witness :
  mw_cpu Trace 0x1000 0 read_only_state = Panic /\
  wp (sample_call SyscallCode.UINT256_MUL 0x1000 0x2000) (completes (fun s' => exists ws,
    stores 0x1000 ws read_only_state s' /\ value ws = 42)) read_only_state.
Proof.
  destruct (precompile_writes_read_only_page (H := sample_curve_crates) (H0 := sample_hash_crates) (ret tt) Trace
    sample_syscall_context read_only_state 0x1000 0x2000 0) as [Hm Hc]; try concrete.
  - reflexivity.
  - split; [concrete|]. intros _ i Hi. replace ((0x2000 + i * 8) / PAGE_SIZE) with 2; [vm_compute; congruence|].
    change PAGE_SIZE with 4096. lia_mod.
  - intros i Hi. replace ((0x1000 + i * 8) / PAGE_SIZE) with 1; [vm_compute; reflexivity|]. change PAGE_SIZE with 4096. lia_mod.
  - split; [exact Hm|]. eapply wp_mono; [exact Hc|]. intros r s'. apply completes_mono. clear s'.
    intros s' (ws & Hs & Hv). exists ws. split; [exact Hs|]. rewrite Hv. vm_compute. reflexivity.
Defined.
