(* ===== verification/NonTrace.v ===== *)
(** * NonTrace: what execution without a trace leaves unwritten

    Outside of trace mode the record never learns the exit code of the program,
    and in the constrained modes the number of unconstrained cycles is never
    counted: two checks of [execute] compare constants. *)
From Stdlib Require Import ZArith Lia Bool.
From stdpp Require Import base numbers option list gmap.
From S2P Require Import Prelude Isa PagedMemory SyscallCode State ExecMemory Interpreter Cost Syscalls Samples Logic Checkpoint.

(** What an instruction does not write: the global clock, in unconstrained mode
    also the one to resume with, outside of trace mode the exit code of the
    record and the accesses, the counter of unconstrained cycles, and the
    context. *)
Definition tally (u t : bool) (s : Executor.t) : Z * Z * Z * MemoryAccessRecord.t * Z * Context.t :=
  (ExecutionState.global_clk (Executor.state s),
   if u then ForkState.global_clk (Executor.unconstrained_state s) else 0,
   if t then 0 else ExecutionRecord.exit_code (Executor.record s),
   if t then MemoryAccessRecord.default else Executor.memory_accesses s,
   Executor.total_unconstrained_cycles s, Executor.context s).

Section Still.
Context (u t : bool) (E : ExecutorConfig).
Local Abbreviation still := (preserves (same (tally u t))).

Lemma access_still b l v f ts : still (access E b l v f ts).
Proof using.
  unfold access, save_checkpoint, save_fork, init_entry, count_local_mem, set_entry, upd_counts, upd_state. walk_same.
Qed.
Lemma still_eqv {A} (m m' : M A) : eqv m m' -> still m' -> still m.
Proof using. intros H Hm s. rewrite H. apply Hm. Qed.
Hint Resolve access_still : exec.

Lemma record_local_still lma a r r' : still (record_local lma a r r').
Proof using. unfold record_local. walk_same. Qed.
Lemma page_loc_still a : still (page_loc a).
Proof using. unfold page_loc. walk_same. Qed.
Hint Resolve record_local_still page_loc_still : exec.

Lemma rr_still r f ts : still (rr E r f ts).
Proof using. eapply still_eqv; [apply rr_eq|]. walk_same. Qed.
Lemma rw_still r v f ts : still (rw E r v f ts).
Proof using. eapply still_eqv; [apply rw_eq|]. walk_same. Qed.
Lemma rr_traced_still r f ts l : still (rr_traced E r f ts l).
Proof using. eapply still_eqv; [apply rr_traced_eq|]. walk_same. Qed.
Lemma rw_traced_still r v f ts l : still (rw_traced E r v f ts l).
Proof using. eapply still_eqv; [apply rw_traced_eq|]. walk_same. Qed.
Lemma mr_still a f ts l : still (mr E a f ts l).
Proof using. eapply still_eqv; [apply mr_eq|]. walk_same. Qed.
Lemma mw_still a v f ts l : still (mw E a v f ts l).
Proof using. eapply still_eqv; [apply mw_eq|]. walk_same. Qed.
Lemma register_still r : still (register E r).
Proof using. unfold register, save_checkpoint. walk_same. Qed.
Lemma double_word_still a : still (double_word E a).
Proof using. unfold double_word, save_checkpoint. walk_same. Qed.
Lemma page_prot_access_still p b f ts l : still (page_prot_access E p b f ts l).
Proof using. unfold page_prot_access, upd_state, upd_fork, upd_counts. walk_same. Qed.
Hint Resolve rr_still rw_still rr_traced_still rw_traced_still mr_still mw_still register_still double_word_still
  page_prot_access_still : exec.

Ltac by_mode HE :=
  destruct (is_trace E); [specialize (HE eq_refl)|clear HE]; cbn [when]; walk_same;
  apply preserves_modify; intros ?; unfold same, tally; now rewrite HE.
Lemma mr_cpu_still a : (is_trace E = true -> t = true) -> still (mr_cpu E a).
Proof using. intros HE. unfold mr_cpu, timestamp, enable_untrusted_programs, upd_accesses. by_mode HE. Qed.
Lemma mw_cpu_still a v : (is_trace E = true -> t = true) -> still (mw_cpu E a v).
Proof using. intros HE. unfold mw_cpu, timestamp, enable_untrusted_programs, upd_accesses. by_mode HE. Qed.
Lemma rr_cpu_still r p : (is_trace E = true -> t = true) -> still (rr_cpu E r p).
Proof using. intros HE. unfold rr_cpu, timestamp, upd_accesses. by_mode HE. Qed.
Lemma rw_cpu_still r v : (is_trace E = true -> t = true) -> still (rw_cpu E r v).
Proof using. intros HE. unfold rw_cpu, timestamp, upd_accesses. by_mode HE. Qed.

Lemma fetch_still : (is_trace E = true -> t = true) -> still (fetch E).
Proof using. intros HE. unfold fetch, get_pc, timestamp, upd_counts, upd_accesses. by_mode HE. Qed.

Lemma access_pages_still l : forall c, still (SyscallContext.access_pages E c l).
Proof using. induction l as [|[p b] l IH]; intros c; cbn; walk_same. Qed.
Hint Resolve access_pages_still : exec.
Lemma slice_pages_still c m : still (SyscallContext.slice_pages E c m).
Proof using. unfold SyscallContext.slice_pages, enable_untrusted_programs. walk_same. Qed.
Lemma mr_words_still n : forall c a, still (SyscallContext.mr_words E c a n).
Proof using. induction n as [|n IH]; intros c a; cbn; walk_same. Qed.
Lemma mw_words_still l : forall c a, still (SyscallContext.mw_words E c a l).
Proof using. induction l as [|v l IH]; intros c a; cbn; walk_same. Qed.
Lemma ctx_postprocess_still c : still (SyscallContext.postprocess E c).
Proof using. unfold SyscallContext.postprocess. walk_same. Qed.
Hint Resolve slice_pages_still mr_words_still mw_words_still ctx_postprocess_still : exec.

Lemma interp_still code a b p : forall c, still (Api.interp E code a b p c).
Proof using.
  induction p; intros c; cbn [Api.interp]; unfold SyscallContext.mr_slice, SyscallContext.mw_slice,
    SyscallContext.page_prot_range_access, SyscallContext.rr_traced, enable_untrusted_programs;
    walk_same; apply H.
Qed.
Lemma write_still c k a b : still (write_syscall E c k a b).
Proof using.
  unfold write_syscall, byte, handle_cycle_tracker_command, start_cycle_tracker, end_cycle_tracker,
    update_io_buf, push_results, upd_state, upd_report. walk_same.
Qed.
Lemma verify_still c k a b : still (verify_syscall E c k a b).
Proof using. unfold verify_syscall, upd_state. walk_same. Qed.
Lemma mprotect_still c k a b : still (mprotect_syscall E c k a b).
Proof using. unfold mprotect_syscall, upd_state. walk_same. Qed.

Lemma emit_events_still clk np i k a b c z r x : t = true -> still (emit_events clk np i k a b c z r x).
Proof using.
  intros ->. unfold emit_events, bump_register, emit_alu_event, emit_mem_instr_event, emit_branch_event, emit_jal_event,
    emit_jalr_event, emit_utype_event, emit_syscall_event, emit_instruction_fetch_event, push_event, upd_record. walk_same.
Qed.
End Still.
#[export] Hint Resolve fetch_still rw_cpu_still rr_still mr_cpu_still mw_cpu_still rr_cpu_still register_still
  double_word_still rr_traced_still mr_still mw_still page_prot_access_still emit_events_still : exec.

Section Machine.
Context (precompile : SyscallCode.t -> Z -> Z -> Api.t).

Section Instruction.
Context (t : bool) (E : ExecutorConfig) (HE : is_trace E = true -> t = true) (run : M unit).
Context (Hrun : UNCONSTRAINED E = false -> preserves (same (tally true t)) run).
Local Abbreviation still := (preserves (same (tally (UNCONSTRAINED E) t))).

Lemma enter_still c k a b : still (enter_unconstrained_syscall E run c k a b).
Proof using Hrun.
  intros s. destruct (UNCONSTRAINED E) eqn:HU.
  { unfold enter_unconstrained_syscall, assert. rewrite HU. exact I. }
  rewrite enter_eq by done.
  assert (B : preserves (same (tally true t)) (block run)).
  { specialize (Hrun eq_refl). unfold block, upd_state. apply preserves_bind; [apply _|now apply rw_cpu_still|]. intros _. walk_same. }
  specialize (B (forked s)). destruct (block run (forked s)) as [[] s1|e s1| |]; try exact I.
  all: cbn in *; unfold same, tally in *; cbn in *; congruence.
Qed.

Lemma get_syscall_still code c a b : still (get_syscall precompile run E code c code a b).
Proof using Hrun.
  destruct code; cbn [get_syscall]; first
    [now apply interp_still|now apply write_still|now apply mprotect_still|now apply verify_still
    |now apply enter_still|idtac].
  - unfold halt_syscall. walk_same.
  - unfold exit_unconstrained_syscall. walk_same.
  - unfold commit_syscall, upd_record. walk_same.
  - unfold commit_deferred_proofs_syscall, upd_record. walk_same.
  - unfold hint_len_syscall. walk_same.
  - unfold hint_read_syscall, hint_word, upd_state. walk_same.
Qed.
Hint Resolve get_syscall_still : exec.

Lemma execute_ecall_still : still (execute_ecall precompile run E).
Proof using HE Hrun. unfold execute_ecall, upd_report, upd_state, upd_counts. walk_same. Qed.
Hint Resolve execute_ecall_still : exec.

Lemma execute_instruction_still i : still (execute_instruction precompile run E i).
Proof using HE Hrun.
  pose proof execute_ecall_still as Hcall. pose proof (fun a => mr_cpu_still (UNCONSTRAINED E) t E a HE) as Hmr.
  pose proof (fun a v => mw_cpu_still (UNCONSTRAINED E) t E a v HE) as Hmw.
  pose proof (fun x p => rr_cpu_still (UNCONSTRAINED E) t E x p HE) as Hrr.
  pose proof (fun x v => rw_cpu_still (UNCONSTRAINED E) t E x v HE) as Hrw.
  unfold execute_instruction, dispatch_instruction, retire_instruction, count_instruction, execute_alu, execute_load,
    execute_store, execute_branch, execute_jump, alu_rr, alu_rw, load_rr, store_rr, branch_rr, Operands.r_type,
    Operands.i_type, Operands.s_type, Operands.b_type, Operands.j_type, Operands.u_type, Operands.reg, get_pc,
    upd_report, upd_counts, upd_state.
  destruct (is_trace E); [specialize (HE eq_refl)|]; walk_same.
Qed.
End Instruction.

Lemma run_unconstrained_still t fuel : preserves (same (tally true t)) (run_unconstrained precompile fuel).
Proof.
  induction fuel as [|fuel IH]; cbn [run_unconstrained]; [walk_same|]. unfold get_pc.
  apply preserves_bind; [apply _|now apply fetch_still|intros i].
  apply preserves_bind; [apply _|now apply (execute_instruction_still t Unconstrained)|intros _]. walk_same.
Qed.
Hint Resolve run_unconstrained_still : exec.

(** The two values the checks of [execute] compare. *)
Definition checked (s : Executor.t) : Z * Z :=
  (ExecutionRecord.exit_code (Executor.record s), Executor.total_unconstrained_cycles s).
Local Abbreviation still := (preserves (same checked)).

Lemma tally_checked {A} u (m : M A) : preserves (same (tally u false)) m -> still m.
Proof. apply preserves_impl. unfold same, tally, checked. cbn. congruence. Qed.

Section Shard.
Context (E : ExecutorConfig) (HE : is_trace E = false) (HU : UNCONSTRAINED E = false) (fuel : nat).

Lemma bump_record_still : still (bump_record E).
Proof using HE.
  unfold bump_record, update_event_counts, upd_record. rewrite HE. walk_same.
  apply preserves_modify. intros s. unfold same, checked. cbn. now destruct (_ =? 0).
Qed.
Hint Resolve bump_record_still : exec.

Lemma execute_cycle_still : still (execute_cycle precompile fuel E).
Proof using HE HU.
  unfold execute_cycle, size_reached, update_event_counts, finish_shard, get_pc, upd_state, upd_record. rewrite HE, HU.
  cbn [when]. walk_same; eapply (tally_checked false); auto with exec.
  - apply fetch_still. now rewrite HE.
  - rewrite <- HU. apply execute_instruction_still; [now rewrite HE|auto with exec].
Qed.
Hint Resolve execute_cycle_still : exec.
Lemma execute_loop_still n : still (execute_loop precompile fuel E n).
Proof using HE HU. induction n as [|n IH]; cbn [execute_loop]; walk_same. Qed.
Hint Resolve execute_loop_still : exec.

Lemma postprocess_still : still (postprocess E).
Proof using.
  unfold postprocess, emit_global_memory, emit_global_page_prots, push_event, upd_record, upd_report. walk_same.
Qed.
Hint Resolve postprocess_still : exec.

Lemma execute_still : still (execute precompile fuel E).
Proof using HE HU.
  unfold execute, initialize, set_entry, upd_state, upd_record. walk_same.
Qed.
End Shard.
End Machine.

(** C36. Without a trace, neither the exit code nor the unconstrained cycles
    are tracked.  In simple and checkpoint mode, whatever the program does,
    [execute] ends, with a value or an error, with the exit code in the record
    and the counter of unconstrained cycles it started with: the comparison
    with the expected exit code sees the initial 0 also after a HALT with
    another code, and the limit on unconstrained cycles never sees a cycle. *)
Theorem exit_code_and_cycles_untracked precompile fuel E s (HE : In E [Simple; Checkpoint]) :
  match execute precompile fuel E s with
  | Ret _ s' | Err _ s' =>
      ExecutionRecord.exit_code (Executor.record s') = ExecutionRecord.exit_code (Executor.record s) /\
      Executor.total_unconstrained_cycles s' = Executor.total_unconstrained_cycles s
  | Panic | OutOfFuel => True
  end.
Proof.
  assert (H : is_trace E = false /\ UNCONSTRAINED E = false) by (destruct HE as [<-|[<-|[]]]; done).
  destruct H as [H1 H2]. pose proof (execute_still precompile E H1 H2 fuel s) as H. unfold final, same, checked in H.
  destruct (execute precompile fuel E s); try done; injection H; auto.
Qed.

(** The sample program halts with code 1, is expected to halt with code 0, and
    is accepted. *)
Lemma exit_code_and_cycles_untracked_witness : exists s',
  execute no_precompile 20 Simple (sample 1 0) = Ret true s' /\
  ExecutionRecord.exit_code (Executor.record s') = 0 /\
  returns (execute no_precompile 20 Trace (sample 1 0)) = false.
Proof.
  assert (H : match execute no_precompile 20 Simple (sample 1 0) with Ret b _ => b | _ => false end = true)
    by (vm_compute; reflexivity).
  pose proof (exit_code_and_cycles_untracked no_precompile 20 Simple (sample 1 0)) as A.
  destruct (execute no_precompile 20 Simple (sample 1 0)) as [b s'| | |]; [|discriminate H..]. subst b.
  exists s'. split; [reflexivity|]. split; [apply A; now left|vm_compute; reflexivity].
Defined.
