(* ===== verification/Modes.v ===== *)
(** * Modes: the executor does the same in every mode

    Proving a program runs it several times: without records, with checkpoints
    and, shard by shard, with a full trace.  The runs must agree.  [agree] is
    equality of the parts of the executor that execution depends on; [sim]
    relates two programs that keep it.  A trace makes checks of its own, which
    programs without untrusted code pass ([trusted]); an untrusted system call
    does not. *)
From Stdlib Require Import ZArith Lia Bool.
From stdpp Require Import base numbers option list gmap.
From S2P Require Import Prelude Isa PagedMemory SyscallCode State ExecMemory Interpreter Cost Syscalls Samples Logic Rv64 Refinement NonTrace.

(** A run without untrusted code: the program does not enable it, its
    instructions have the operands the transpiler gives them, and nothing was
    recorded for untrusted code. *)
Definition formed (i : Instruction.t) : Prop := plain i = true -> well_formed i = true.
Record trusted (s : Executor.t) : Prop := {
  trusted_program : Program.enable_untrusted_programs (Executor.program s) = false;
  trusted_code : forall pc i, Program.fetch (Executor.program s) pc = Some i -> formed i;
  trusted_pages : Executor.local_page_prot_access s = ∅;
  trusted_decoded : Executor.decoded_instruction_events s = ∅;
  trusted_fetch : MemoryAccessRecord.untrusted_instruction (Executor.memory_accesses s) = None }.

(** ** The accesses an instruction records

    [marks l l' m]: when the positions [l] of the record of accesses are set,
    those of [l'] are set after [m]. *)
Definition has (l : list MemoryAccessPosition.t) (s : Executor.t) : Prop :=
  Forall (fun p => at_position p (Executor.memory_accesses s)) l.
Definition marks (l l' : list MemoryAccessPosition.t) {A} (m : M A) : Prop :=
  forall s, has l s -> match m s with Ret _ s' => has l' s' | _ => True end.

Lemma has_le l s s' : acc_le (Executor.memory_accesses s) (Executor.memory_accesses s') -> has l s -> has l s'.
Proof.
  intros H Hl. eapply Forall_impl; [exact Hl|]. intros p. unfold acc_le in H. destruct p; cbn; naive_solver.
Qed.
Lemma marks_bind {A B} l1 l2 l3 (m : M A) (k : A -> M B) :
  marks l1 l2 m -> (forall a, marks l2 l3 (k a)) -> marks l1 l3 (bind m k).
Proof. intros Hm Hk s H. specialize (Hm s H). unfold bind. destruct (m s); try done. now apply Hk. Qed.
Lemma marks_ret {A} l l' (a : A) : l' ⊆ l -> marks l l' (ret a).
Proof. intros Hl s H. cbn. unfold has in *. rewrite Forall_forall in *. auto. Qed.
Lemma marks_stop {A} l l' (m : M A) : (forall s, match m s with Ret _ _ => False | _ => True end) -> marks l l' m.
Proof. intros Hm s H. specialize (Hm s). now destruct (m s). Qed.
Lemma marks_still {A} u l (m : M A) : preserves (same (tally u false)) m -> marks l l m.
Proof.
  intros Hm s H. specialize (Hm s). destruct (m s) as [a s'| | |]; try done. cbn in Hm. unfold same, tally in Hm.
  unfold has. replace (Executor.memory_accesses s') with (Executor.memory_accesses s) by congruence. done.
Qed.
Lemma marks_wp {A} l l' (m : M A) : (forall s, has l s -> wp m (fun _ => has l') s) -> marks l l' m.
Proof. intros Hm s H. specialize (Hm s H). unfold wp in Hm. now destruct (m s). Qed.
Lemma marks_expect {A} l (o : option A) : marks l l (expect o).
Proof. now destruct o. Qed.
Lemma marks_or_throw {A} l (o : option (A + ExecutionError)) : marks l l (or_throw o).
Proof. now destruct o as [[]|]. Qed.

Section Marks.
Context (E : ExecutorConfig) (HE : traced E = true).

Lemma rr_cpu_marks l r p : p <> MemoryAccessPosition.UntrustedInstruction -> marks l (p :: l) (rr_cpu E r p).
Proof using HE.
  intros Hp. apply marks_wp. intros s H. eapply wp_mono; [now apply rr_cpu_wp|]. intros v s' (_ & Hq & Ha).
  apply Forall_cons. split; [auto|]. eapply has_le; [apply Hq|done].
Qed.
Lemma rw_cpu_marks l r v : marks l (MemoryAccessPosition.A :: l) (rw_cpu E r v).
Proof using HE.
  apply marks_wp. intros s H. eapply wp_mono; [apply rw_cpu_wp|]. intros x s' (Hq & Ha).
  apply Forall_cons. split; [now apply Ha|]. eapply has_le; [apply Hq|done].
Qed.
Lemma set_memory_marks l x :
  marks l (MemoryAccessPosition.Memory :: l) (when (is_trace E) (upd_accesses (MemoryAccessRecord.set_memory (Some x)))).
Proof using HE.
  unfold traced in HE. apply andb_true_iff in HE as [-> _]. intros s H. cbn. apply Forall_cons. split; [cbn; eauto|].
  eapply has_le; [|exact H]. unfold acc_le. cbn. naive_solver eauto.
Qed.

Ltac marks_step :=
  match goal with
  | |- marks _ _ (bind _ _) => eapply marks_bind; [|intros ?]
  | |- marks _ _ (throw _) => apply marks_stop; now intros ?
  | |- marks _ _ panic => apply marks_stop; now intros ?
  | |- marks _ _ (expect _) => apply marks_expect
  | |- marks _ _ (or_throw _) => apply marks_or_throw
  | |- marks _ _ (if ?b then _ else _) => destruct b eqn:?
  | |- marks _ _ (match ?x with _ => _ end) => destruct x
  | |- marks _ _ (let _ := _ in _) => cbv zeta
  | |- marks _ _ (rr_cpu _ _ _) => apply rr_cpu_marks; discriminate
  | |- marks _ _ (rw_cpu _ _ _) => apply rw_cpu_marks
  | |- marks _ _ (when (is_trace _) _) => apply set_memory_marks
  | |- marks _ _ (ret _) => apply marks_ret; first [reflexivity | set_solver]
  | |- marks _ _ _ => first [solve [eauto 1 with exec] | apply (marks_still false); solve [auto with exec | walk_same]]
  end.
Ltac mark := repeat marks_step.

Lemma mr_cpu_marks l a : marks l (MemoryAccessPosition.Memory :: l) (mr_cpu E a).
Proof using HE. unfold mr_cpu, timestamp, enable_untrusted_programs. mark. Qed.
Lemma mw_cpu_marks l a v : marks l (MemoryAccessPosition.Memory :: l) (mw_cpu E a v).
Proof using HE. unfold mw_cpu, timestamp, enable_untrusted_programs. mark. Qed.
Hint Resolve mr_cpu_marks mw_cpu_marks : exec.

Local Abbreviation A := MemoryAccessPosition.A.
Local Abbreviation B := MemoryAccessPosition.B.
Local Abbreviation C := MemoryAccessPosition.C.
Local Abbreviation Memory := MemoryAccessPosition.Memory.

(** The accesses of an instruction that is not a system call. *)
Definition used (i : Instruction.t) : list MemoryAccessPosition.t :=
  A :: (if uses_b i then [B] else []) ++ (if Instruction.imm_c i then [] else [C]) ++ (if uses_memory i then [Memory] else []).
Lemma used_recorded i s : has (used i) s -> recorded i (Executor.memory_accesses s).
Proof using.
  unfold has, used, recorded. rewrite Forall_cons, !Forall_app.
  destruct (uses_b i), (Instruction.imm_c i), (uses_memory i); cbn; rewrite ?Forall_cons; intuition congruence.
Qed.

Lemma execute_alu_marks i : format_ok i = true -> Instruction.is_alu_instruction i = true -> marks [] (used i) (execute_alu E i).
Proof using HE.
  intros Hf Ha. assert (H : Instruction.imm_b i = false /\ uses_memory i = false).
  { unfold format_ok, Instruction.is_alu_instruction, uses_memory, Instruction.is_memory_load_instruction,
      Instruction.is_memory_store_instruction in *. destruct (Instruction.opcode i); try discriminate; now case_bool. }
  unfold execute_alu, alu_rr, alu_rw, Operands.r_type, Operands.i_type, Operands.reg, used, uses_b.
  destruct H as [-> ->]. destruct (Instruction.imm_c i); cbn [negb andb app]; mark.
Qed.
Lemma execute_load_marks i : marks [] [A; B; Memory] (execute_load E i).
Proof using HE. unfold execute_load, load_rr, Operands.i_type, Operands.reg. mark. Qed.
Lemma execute_store_marks i : marks [] [A; B; Memory] (execute_store E i).
Proof using HE. unfold execute_store, store_rr, Operands.s_type, Operands.reg. mark. Qed.
Lemma execute_branch_marks i n : marks [] [A; B] (execute_branch E i n).
Proof using HE. unfold execute_branch, branch_rr, Operands.b_type, Operands.reg, get_pc. mark. Qed.

Section Dispatch.
Context (precompile : SyscallCode.t -> Z -> Z -> Api.t) (run : M unit) (Hrun : preserves (same (tally true false)) run).

(** The handlers leave the accesses of the instruction alone, also when they
    run an unconstrained block. *)
Lemma get_syscall_marks l code c a b : marks l l (get_syscall precompile run E code c code a b).
Proof using Hrun. apply (marks_still (UNCONSTRAINED E)). now apply get_syscall_still. Qed.
Hint Resolve get_syscall_marks : exec.
Lemma execute_ecall_marks : marks [] [A; B; C] (execute_ecall precompile run E).
Proof using HE Hrun. unfold execute_ecall, upd_report, upd_state, upd_counts. mark. Qed.

Lemma dispatch_marks i clk pc : format_ok i = true -> marks [] (used i) (dispatch_instruction precompile run E i clk pc).
Proof using HE.
  intros Hf. unfold dispatch_instruction. cbv zeta.
  destruct (Instruction.is_alu_instruction i) eqn:Ha; [eapply marks_bind; [now apply execute_alu_marks|intros [[a b] c]; mark]|].
  pose proof (execute_load_marks i) as Hl. pose proof (execute_store_marks i) as Hs. pose proof (execute_branch_marks i) as Hb.
  unfold used, uses_b, uses_memory, format_ok, Instruction.is_memory_load_instruction, Instruction.is_memory_store_instruction,
    Instruction.is_branch_instruction, Instruction.is_jump_instruction, Instruction.is_jal_instruction, Instruction.is_jalr_instruction,
    Instruction.is_utype_instruction, Instruction.is_ecall_instruction, Instruction.is_alu_instruction, execute_jump,
    Operands.j_type, Operands.i_type, Operands.u_type, Operands.reg, get_pc in *.
  destruct (Instruction.opcode i); try discriminate; cbn in *;
    destruct (Instruction.imm_b i), (Instruction.imm_c i); try discriminate; cbn; mark.
Qed.
End Dispatch.
End Marks.

(** What the events of an instruction need. *)
Definition ready (i : Instruction.t) (s : Executor.t) : Prop :=
  format_ok i = true /\ plain i = true /\ recorded i (Executor.memory_accesses s) \/
  Instruction.opcode i = Opcode.ECALL /\ is_Some (RTypeRecord.new (Executor.memory_accesses s) i).
Lemma ready_same i s s' : Executor.memory_accesses s' = Executor.memory_accesses s -> ready i s -> ready i s'.
Proof. unfold ready. now intros ->. Qed.
Lemma emit_ready_wp clk np i code a b c z ec s : ready i s ->
  wp (emit_events clk np i code a b c z (Executor.memory_accesses s) ec) (fun _ => quiet s) s.
Proof. intros [(Hf & Hp & Hr)|[Hi Hr]]; [now apply emit_events_wp|now apply emit_ecall_wp]. Qed.
Lemma dispatch_ready E precompile run i clk pc s r s' : traced E = true -> preserves (same (tally true false)) run ->
  formed i -> dispatch_instruction precompile run E i clk pc s = Ret r s' -> ready i s'.
Proof.
  intros HE Hrun Hf Hd. destruct (plain i) eqn:Hp.
  - left. specialize (Hf Hp). unfold well_formed in Hf. apply andb_true_iff in Hf as [_ Hf].
    pose proof (dispatch_marks E HE precompile run i clk pc Hf s (Forall_nil_2 _)) as H. rewrite Hd in H.
    split_and!; [done..|now apply used_recorded].
  - right. pose proof (execute_ecall_marks E HE precompile run Hrun s (Forall_nil_2 _)) as H.
    assert (Hd' : Instruction.opcode i = Opcode.ECALL /\ execute_ecall precompile run E s = Ret r s').
    { revert Hp Hd. unfold dispatch_instruction, plain, Instruction.is_alu_instruction, Instruction.is_memory_load_instruction,
        Instruction.is_memory_store_instruction, Instruction.is_branch_instruction, Instruction.is_jump_instruction,
        Instruction.is_utype_instruction, Instruction.is_ecall_instruction, Instruction.is_ebreak_instruction,
        Instruction.is_unimp_instruction. destruct (Instruction.opcode i); intros [=] Hd; try discriminate Hd. auto. }
    destruct Hd' as [Hi Hd']. rewrite Hd' in H. split; [done|].
    apply Forall_cons in H as [[a Ha] [[b Hb] [[c Hc] _]%Forall_cons]%Forall_cons].
    unfold RTypeRecord.new. rewrite Ha, Hb, Hc. cbn. eauto.
Qed.

Create HintDb modes discriminated.

(** The lemmas hold for [strict] runs, where the first state is trusted and
    panics agree, and for the others, where the first run may panic alone. *)

Section Simulation.
Context (strict : bool).

(** The whole [ExecutionState], with every memory entry and its timestamp, and
    what else is read: not the records, reports, checkpoints and local events.
    The second state is in a mode without trace, which never records the
    memory an instruction was fetched from. *)
Record agree (s1 s2 : Executor.t) : Prop := {
  agree_context : Executor.context s1 = Executor.context s2;
  agree_state : Executor.state s1 = Executor.state s2;
  agree_counts : Executor.local_counts s1 = Executor.local_counts s2;
  agree_estimator : Executor.record_estimator s1 = Executor.record_estimator s2;
  agree_public_values :
    ExecutionRecord.public_values (Executor.record s1) = ExecutionRecord.public_values (Executor.record s2);
  agree_initial_timestamp :
    ExecutionRecord.initial_timestamp (Executor.record s1) = ExecutionRecord.initial_timestamp (Executor.record s2);
  agree_cycle_tracker : Executor.cycle_tracker s1 = Executor.cycle_tracker s2;
  agree_io_buf : Executor.io_buf s1 = Executor.io_buf s2;
  agree_fork : Executor.unconstrained_state s1 = Executor.unconstrained_state s2;
  agree_cycles : Executor.total_unconstrained_cycles s1 = Executor.total_unconstrained_cycles s2;
  agree_event_counts : Executor.event_counts s1 = Executor.event_counts s2;
  agree_cache : Executor.decoded_instruction_cache s1 = Executor.decoded_instruction_cache s2;
  agree_untraced : MemoryAccessRecord.untrusted_instruction (Executor.memory_accesses s2) = None;
  agree_trusted : strict = true -> trusted s1 }.

(** The second run returns what the first returns, with values related by [V],
    or its error; unless strict, the first may panic where the second goes on. *)
Definition related {A1 A2} (V : A1 -> A2 -> Prop) (o1 : res A1) (o2 : res A2) : Prop :=
  match o1 with
  | Ret a1 s1' => exists a2 s2', o2 = Ret a2 s2' /\ V a1 a2 /\ agree s1' s2'
  | Err e s1' => exists s2', o2 = Err e s2' /\ agree s1' s2'
  | Panic => strict = true -> o2 = Panic
  | OutOfFuel => o2 = OutOfFuel
  end.
Definition sim {A1 A2} (V : A1 -> A2 -> Prop) (m1 : M A1) (m2 : M A2) : Prop :=
  forall s1 s2, agree s1 s2 -> related V (m1 s1) (m2 s2).

Lemma sim_related {A1 A2} (V : A1 -> A2 -> Prop) m1 m2 s1 s2 : sim V m1 m2 -> agree s1 s2 -> related V (m1 s1) (m2 s2).
Proof. auto. Qed.
Lemma related_bind {A1 A2 B1 B2} (V : A1 -> A2 -> Prop) (W : B1 -> B2 -> Prop) m1 m2 k1 k2 s1 s2 :
  related V (m1 s1) (m2 s2) ->
  (forall a1 a2 s1' s2', m1 s1 = Ret a1 s1' -> V a1 a2 -> agree s1' s2' -> related W (k1 a1 s1') (k2 a2 s2')) ->
  related W (bind m1 k1 s1) (bind m2 k2 s2).
Proof.
  intros Hm Hk. unfold bind, related in Hm |- *.
  destruct (m1 s1) as [a1 s1'|e s1'| |]; [|destruct Hm as (s2' & -> & H'); eauto
    |intros Hst; now rewrite Hm|now rewrite Hm].
  destruct Hm as (a2 & s2' & -> & Hv & H'). now apply Hk.
Qed.
Lemma sim_bind {A1 A2 B1 B2} (V : A1 -> A2 -> Prop) (W : B1 -> B2 -> Prop) m1 m2 k1 k2 :
  sim V m1 m2 -> (forall a1 a2, V a1 a2 -> sim W (k1 a1) (k2 a2)) -> sim W (bind m1 k1) (bind m2 k2).
Proof. intros Hm Hk s1 s2 H. eapply related_bind; [now apply Hm|]. intros a1 a2 s1' s2' _ Hv. now apply Hk. Qed.
Lemma sim_ret {A1 A2} (V : A1 -> A2 -> Prop) a1 a2 : V a1 a2 -> sim V (ret a1) (ret a2).
Proof. intros Hv s1 s2 H. cbn. eauto. Qed.
Lemma sim_gets {A1 A2} (V : A1 -> A2 -> Prop) f1 f2 :
  (forall s1 s2, agree s1 s2 -> V (f1 s1) (f2 s2)) -> sim V (gets f1) (gets f2).
Proof. intros Hf s1 s2 H. exists (f2 s2), s2. auto. Qed.
Lemma sim_modify f1 f2 : (forall s1 s2, agree s1 s2 -> agree (f1 s1) (f2 s2)) -> sim eq (modify f1) (modify f2).
Proof. intros Hf s1 s2 H. exists tt, (f2 s2). auto. Qed.
Lemma sim_throw {A} (e : ExecutionError) : sim (@eq A) (throw e) (throw e).
Proof. intros s1 s2 H. cbn. eauto. Qed.
Lemma sim_panic {A1 A2} (V : A1 -> A2 -> Prop) : sim V panic panic.
Proof. now intros s1 s2 H. Qed.
Lemma sim_fuel {A} : sim (@eq A) (fun _ => OutOfFuel) (fun _ => OutOfFuel).
Proof. intros s1 s2 H. reflexivity. Qed.
Lemma sim_assert b : sim eq (assert b) (assert b).
Proof. destruct b; [now apply sim_ret|apply sim_panic]. Qed.
Lemma sim_expect {A} (o : option A) : sim eq (expect o) (expect o).
Proof. destruct o; [now apply sim_ret|apply sim_panic]. Qed.
Lemma sim_or_throw {A} (o : option (A + ExecutionError)) : sim eq (or_throw o) (or_throw o).
Proof. destruct o as [[]|]; [now apply sim_ret|apply sim_throw|apply sim_panic]. Qed.
Lemma sim_when b m1 m2 : sim eq m1 m2 -> sim eq (when b m1) (when b m2).
Proof. intros H. destruct b; [done|now apply sim_ret]. Qed.
Lemma sim_unwrap {A} (m1 m2 : M A) : sim eq m1 m2 -> sim eq (unwrap m1) (unwrap m2).
Proof.
  intros Hm s1 s2 H. specialize (Hm s1 s2 H). unfold unwrap, related in *.
  destruct (m1 s1); [|destruct Hm as (s2' & -> & _); done|intros Hst; now rewrite Hm|now rewrite Hm].
  destruct Hm as (a2 & s2' & -> & Hv). eauto.
Qed.
Lemma sim_for_each {A} (l : list A) f1 f2 : (forall x, sim eq (f1 x) (f2 x)) -> sim eq (for_each l f1) (for_each l f2).
Proof.
  intros Hf. induction l as [|x l IH]; cbn; [now apply sim_ret|]. now apply (sim_bind eq); [|intros ? ? _].
Qed.
Lemma sim_map_m {A B} (l : list A) (f1 f2 : A -> M B) :
  (forall x, sim eq (f1 x) (f2 x)) -> sim eq (map_m l f1) (map_m l f2).
Proof.
  intros Hf. induction l as [|x l IH]; cbn; [now apply sim_ret|].
  apply (sim_bind eq); [done|]. intros y ? <-. apply (sim_bind eq); [done|]. intros ys ? <-. now apply sim_ret.
Qed.

(** Programs of one run that the other does not see; with [total] they do not
    panic. *)
Definition silent (total : bool) {A} (m : M A) : Prop := forall s1 s2, agree s1 s2 ->
  match m s1 with Ret _ s1' => agree s1' s2 | Err _ _ | OutOfFuel => False | Panic => total = false end.

Lemma silent_sim (m : M unit) : silent strict m -> sim eq m (ret tt).
Proof.
  intros Hm s1 s2 H. specialize (Hm s1 s2 H). destruct (m s1) as [[]| | |]; try done; [|congruence].
  exists tt, s2. auto.
Qed.
Lemma silent_weaken {A} total (m : M A) : silent true m -> silent total m.
Proof. intros Hm s1 s2 H. specialize (Hm s1 s2 H). now destruct (m s1). Qed.
Section Silent.
Context (total : bool).
Lemma silent_ret {A} (a : A) : silent total (ret a).
Proof. now intros s1 s2 H. Qed.
Lemma silent_gets {A} (f : Executor.t -> A) : silent total (gets f).
Proof. now intros s1 s2 H. Qed.
Lemma silent_panic {A} : silent false (panic (A := A)).
Proof using. now intros s1 s2 H. Qed.
Lemma silent_expect {A} (o : option A) : silent false (expect o).
Proof using. destruct o; [now intros s1 s2 H|apply silent_panic]. Qed.
Lemma silent_bind {A B} (m : M A) (k : A -> M B) :
  silent total m -> (forall a, silent total (k a)) -> silent total (bind m k).
Proof.
  intros Hm Hk s1 s2 H. specialize (Hm s1 s2 H). unfold bind. destruct (m s1); try done. now apply Hk.
Qed.
Lemma silent_bind_gets {A B} (P : A -> Prop) f (k : A -> M B) : (forall s1 s2, agree s1 s2 -> P (f s1)) ->
  (forall a, P a -> silent total (k a)) -> silent total (bind (gets f) k).
Proof. intros Hf Hk s1 s2 H. apply Hk; [|done]. now apply (Hf s1 s2). Qed.
Lemma silent_when b m : silent total m -> silent total (when b m).
Proof. intros Hm. destruct b; [done|apply silent_ret]. Qed.
Lemma silent_for_each {A} (l : list A) f : (forall x, silent total (f x)) -> silent total (for_each l f).
Proof. intros Hf. induction l; cbn; [apply silent_ret|now apply silent_bind]. Qed.
Lemma silent_modify f : (forall s1 s2, agree s1 s2 -> agree (f s1) s2) -> silent total (modify f).
Proof. intros Hf s1 s2 H. now apply Hf. Qed.
End Silent.

Hint Resolve sim_throw sim_panic sim_fuel sim_assert sim_expect sim_or_throw silent_ret silent_gets
  silent_panic silent_expect : modes.
Hint Extern 1 (_ <> _) => discriminate : modes.

(** A hypothesis that fails in strict runs. *)
Ltac not_strict H := assert (strict <> true) by (intros Hstrict; now specialize (H Hstrict)).

(** Field-wise proof of [agree] after an update. *)
Ltac trusted_leaf :=
  match goal with Ht : strict = true -> trusted _ |- strict = true -> trusted _ =>
    let H := fresh in intros H; first [contradiction | destruct (Ht H); split; (assumption || (cbn; congruence))]
  end.
Ltac agree_leaf :=
  intros ? ? []; cbv beta; split; try trusted_leaf; cbn; congruence || assumption || (f_equal; congruence).
Ltac silent_step :=
  match goal with
  | |- silent _ (bind _ _) => apply silent_bind; [|intros ?]
  | |- silent _ (when _ _) => apply silent_when
  | |- silent _ (for_each _ _) => apply silent_for_each; intros ?
  | |- silent _ (if ?b then _ else _) => destruct b
  | |- silent _ (match ?x with _ => _ end) => destruct x
  | |- silent _ (modify _) => apply silent_modify; agree_leaf
  end.
Ltac silent := repeat (first [solve [eauto 2 with modes] | silent_step]).

(** Both programs step by step; values are equal unless a lemma says otherwise. *)
Ltac agree_gets :=
  apply sim_gets; intros ? ? []; cbv beta; unfold entry_at in *;
  first [congruence | solve [f_equal; congruence]
        | repeat match goal with E : _ = _ |- _ => rewrite E; clear E end; reflexivity].
Ltac sim_step :=
  match goal with
  | |- sim _ (ret _) (ret _) => apply sim_ret
  | |- sim _ (gets _) (gets _) => agree_gets
  | |- sim _ (modify _) (modify _) => apply sim_modify; agree_leaf
  | |- sim _ (when ?b _) (when ?b _) => apply sim_when
  | |- sim _ (unwrap _) (unwrap _) => apply sim_unwrap
  | |- sim _ (for_each ?l _) (for_each ?l _) => apply sim_for_each; intros ?
  | |- sim _ (map_m ?l _) (map_m ?l _) => apply sim_map_m; intros ?
  | |- sim _ (if ?b then _ else _) (if ?b then _ else _) => destruct b
  | |- sim _ (match ?x with _ => _ end) (match ?x with _ => _ end) => destruct x
  | |- sim _ (bind _ _) (bind _ _) => apply (sim_bind eq); [|intros ? ? <-]
  end.
Ltac sims := repeat (first [solve [eauto 3 with modes] | sim_step | reflexivity]).
(** ** Accesses *)
Lemma silent_any {A B} (m : M A) (b : B) : silent strict m -> sim (fun _ _ => True) m (ret b).
Proof.
  intros Hm s1 s2 H. specialize (Hm s1 s2 H). destruct (m s1); try done; [|congruence]. exists b, s2. auto.
Qed.

Lemma sim_eqv {A1 A2} (V : A1 -> A2 -> Prop) m1 m1' m2 m2' : eqv m1 m1' -> eqv m2 m2' -> sim V m1' m2' -> sim V m1 m2.
Proof. intros H1 H2 H s1 s2. rewrite H1, H2. apply H. Qed.

Lemma eqv_ret_l {A B} (a : A) (m : M B) : eqv m (let! _ := ret a in m).
Proof. now intros s. Qed.
Lemma eqv_ret_r {A} (m : M A) : eqv m (let! x := m in ret x).
Proof. intros s. unfold bind. now destruct (m s). Qed.

Lemma saves_sim b1 b2 l : sim eq (when b1 (save_checkpoint l)) (when b2 (save_checkpoint l)).
Proof.
  intros s1 s2 H. destruct b1, b2; cbn; (eexists tt, _; split; [reflexivity|]; split; [done|]); revert H; revert s1 s2; try agree_leaf; done.
Qed.
Lemma save_fork_sim l : sim eq (save_fork l) (save_fork l).
Proof.
  apply sim_modify. intros s1 s2 H. assert (entry_at l s1 = entry_at l s2) as -> by (unfold entry_at; now rewrite (agree_state _ _ H)).
  destruct H. split; try trusted_leaf; cbn; congruence.
Qed.
Lemma set_entry_sim l r : sim eq (set_entry l r) (set_entry l r).
Proof. apply sim_modify. agree_leaf. Qed.
Hint Resolve saves_sim save_fork_sim set_entry_sim : modes.
Lemma init_entry_sim l : sim eq (init_entry l) (init_entry l).
Proof. unfold init_entry. sims. Qed.
Hint Resolve init_entry_sim : modes.
Lemma record_local_silent total lma a r r' : silent total (record_local lma a r r').
Proof. unfold record_local. silent. Qed.
Hint Resolve record_local_silent : modes.

Section Accesses.
Context (E1 E2 : ExecutorConfig) (HU : UNCONSTRAINED E1 = UNCONSTRAINED E2) (HT : is_trace E2 = false).

Lemma count_local_mem_sim r f : sim eq (count_local_mem E1 r f) (count_local_mem E2 r f).
Proof. unfold count_local_mem, upd_counts. rewrite HU. sims. Qed.
Hint Resolve count_local_mem_sim : modes.

Lemma access_sim b1 b2 l v f ts : sim eq (access E1 b1 l v f ts) (access E2 b2 l v f ts).
Proof. unfold access. rewrite HU. sims. Qed.

Lemma rr_sim r f ts : sim eq (rr E1 r f ts) (rr E2 r f ts).
Proof. eapply sim_eqv; [apply rr_eq..|]. apply (sim_bind eq); [apply access_sim|]. intros p ? <-. now apply sim_ret. Qed.

(** The results of accesses carry local event maps, which may differ. *)
Definition first {A B1 B2} (x : A * B1) (y : A * B2) : Prop := fst x = fst y.

Lemma local_sim l1 l2 a r r' :
  sim (fun _ _ => True) (if negb (UNCONSTRAINED E1) && is_trace E1 then record_local l1 a r r' else ret l1)
      (if negb (UNCONSTRAINED E2) && is_trace E2 then record_local l2 a r r' else ret l2).
Proof using HT. rewrite HT, andb_false_r. apply silent_any. silent. Qed.

Ltac by_access eq1 eq2 := eapply sim_eqv; [apply eq1|apply eq2|].

Lemma rr_traced_sim r f ts l1 l2 : sim first (rr_traced E1 r f ts l1) (rr_traced E2 r f ts l2).
Proof using HU HT.
  by_access rr_traced_eq rr_traced_eq. apply (sim_bind eq); [now apply access_sim|]. intros p ? <-. cbv zeta.
  eapply sim_bind; [apply local_sim|]. intros x y _. now apply sim_ret.
Qed.
Lemma rw_sim r v f ts : sim eq (rw E1 r v f ts) (rw E2 r v f ts).
Proof using HU. by_access rw_eq rw_eq. apply (sim_bind eq); [now apply access_sim|]. intros p ? <-. now apply sim_ret. Qed.

Lemma rr_traced_rr_sim r f ts l : sim (fun x v => MemoryReadRecord.value x.1 = v) (rr_traced E1 r f ts l) (rr E2 r f ts).
Proof using HU.
  by_access rr_traced_eq rr_eq. apply (sim_bind eq); [now apply access_sim|]. intros p ? <-. cbv zeta.
  eapply sim_eqv; [intros ?; reflexivity|apply (eqv_ret_l tt)|].
  eapply sim_bind; [apply silent_any; silent|]. intros x y _. now apply sim_ret.
Qed.
Lemma rw_traced_rw_sim r v f ts l : sim (fun _ _ => True) (rw_traced E1 r v f ts l) (rw E2 r v f ts).
Proof using HU.
  by_access rw_traced_eq rw_eq. apply (sim_bind eq); [now apply access_sim|]. intros p ? <-. cbv zeta.
  eapply sim_eqv; [intros ?; reflexivity|apply (eqv_ret_l tt)|].
  eapply sim_bind; [apply silent_any; silent|]. intros x y _. now apply sim_ret.
Qed.

Lemma page_loc_sim a : sim eq (page_loc a) (page_loc a).
Proof using. unfold page_loc. sims. Qed.
Lemma mr_sim a f ts l1 l2 : sim first (mr E1 a f ts l1) (mr E2 a f ts l2).
Proof using HU HT.
  by_access mr_eq mr_eq. apply (sim_bind eq); [apply sim_assert|intros _ _ _].
  apply (sim_bind eq); [apply page_loc_sim|intros l ? <-].
  apply (sim_bind eq); [now apply access_sim|]. intros p ? <-. cbv zeta.
  eapply sim_bind; [apply local_sim|]. intros x y _. now apply sim_ret.
Qed.
Lemma mw_sim a v f ts l1 l2 : sim first (mw E1 a v f ts l1) (mw E2 a v f ts l2).
Proof using HU HT.
  by_access mw_eq mw_eq. apply (sim_bind eq); [apply sim_assert|intros _ _ _].
  apply (sim_bind eq); [apply page_loc_sim|intros l ? <-].
  apply (sim_bind eq); [now apply access_sim|]. intros p ? <-. cbv zeta.
  eapply sim_bind; [apply local_sim|]. intros x y _. now apply sim_ret.
Qed.

Lemma read_saves_sim l : sim eq (when (is_checkpoint E1 || UNCONSTRAINED E1) (save_checkpoint l))
  (when (is_checkpoint E2 || UNCONSTRAINED E2) (save_checkpoint l)).
Proof using. apply saves_sim. Qed.
Lemma register_sim r : sim eq (register E1 r) (register E2 r).
Proof using. unfold register. sims. Qed.
Lemma double_word_sim a : sim eq (double_word E1 a) (double_word E2 a).
Proof using. unfold double_word, page_loc. sims. Qed.
Lemma byte_sim a : sim eq (byte E1 a) (byte E2 a).
Proof using. unfold byte. apply (sim_bind eq); [apply double_word_sim|]. intros w ? <-. now apply sim_ret. Qed.

Lemma page_prot_access_sim p b f ts l1 l2 : (strict = true -> l1 <> None) ->
  sim first (page_prot_access E1 p b f ts l1) (page_prot_access E2 p b f ts l2).
Proof using HU HT.
  intros Hl. unfold page_prot_access, upd_state, upd_fork, upd_counts. rewrite HU, HT, andb_false_r.
  do 7 (apply (sim_bind eq); [sims|intros ? ? <-]). cbv zeta. eapply sim_bind.
  { apply silent_any. destruct (_ && _); [|silent]. destruct l1 as [m|]; [silent|].
    apply silent_bind; [|silent]. apply silent_modify. intros s1 s2 []. split; try done. intros Hst. now destruct (Hl Hst). }
  intros x y _.
  apply (sim_bind eq); [sims|intros ? ? <-]. now apply sim_ret.
Qed.
End Accesses.
Hint Resolve rr_sim rr_traced_sim rw_sim mr_sim mw_sim register_sim double_word_sim byte_sim
  page_prot_access_sim page_loc_sim : modes.

Section Cpu.
Context (E1 E2 : ExecutorConfig) (HU : UNCONSTRAINED E1 = UNCONSTRAINED E2) (HT : is_trace E2 = false).

Lemma untrusted_sim : sim (fun u1 u2 => u1 = u2 /\ (strict = true -> u1 = false))
  enable_untrusted_programs enable_untrusted_programs.
Proof using.
  apply sim_gets. intros s1 s2 H. split; [unfold Executor.program; now rewrite (agree_context _ _ H)|].
  intros Hst. apply (agree_trusted _ _ H Hst).
Qed.
Hint Resolve untrusted_sim : modes.

Lemma timestamp_sim p : sim eq (timestamp p) (timestamp p).
Proof using. unfold timestamp. sims. Qed.
Hint Resolve timestamp_sim : modes.

Lemma mr_cpu_sim a : sim eq (mr_cpu E1 a) (mr_cpu E2 a).
Proof using HU HT.
  unfold mr_cpu, upd_accesses. rewrite HT. apply (sim_bind eq); [auto with modes|intros ts ? <-].
  eapply sim_bind; [now apply mr_sim|]. intros [r l1] [r' l2] H. cbv [first fst] in H. subst r'.
  eapply sim_bind; [apply untrusted_sim|intros u ? [<- Hu]].
  apply (sim_bind eq).
  { destruct u; [|sims]. eapply sim_bind; [apply page_prot_access_sim; [done..|intros Hst; now specialize (Hu Hst)]|].
    intros [x y] [x' y'] H. cbv [first fst] in H. subst x'. now apply sim_ret. }
  intros rec ? <-. apply (sim_bind eq); [apply silent_sim; silent|intros [] ? <-]. now apply sim_ret.
Qed.

Lemma mw_cpu_sim a v : sim eq (mw_cpu E1 a v) (mw_cpu E2 a v).
Proof using HU HT.
  unfold mw_cpu, upd_accesses. rewrite HT. apply (sim_bind eq); [auto with modes|intros ts ? <-].
  eapply sim_bind; [now apply mw_sim|]. intros [r l1] [r' l2] H. cbv [first fst] in H. subst r'.
  eapply sim_bind; [apply untrusted_sim|intros u ? [<- Hu]].
  apply (sim_bind eq).
  { destruct u; [|sims]. eapply sim_bind; [apply page_prot_access_sim; [done..|intros Hst; now specialize (Hu Hst)]|].
    intros [x y] [x' y'] H. cbv [first fst] in H. subst x'. now apply sim_ret. }
  intros rec ? <-. apply silent_sim; silent.
Qed.

Lemma rr_cpu_sim r p : p <> MemoryAccessPosition.UntrustedInstruction ->
  sim eq (rr_cpu E1 r p) (rr_cpu E2 r p).
Proof using HU HT.
  intros Hp. unfold rr_cpu, upd_accesses. rewrite HT. apply (sim_bind eq); [auto with modes|intros ts ? <-].
  destruct (is_trace E1); [|now apply rr_sim].
  eapply sim_eqv; [intros ?; reflexivity|apply eqv_ret_r|]. eapply sim_bind; [now apply rr_traced_rr_sim|].
  intros [rec l] v <-. eapply sim_eqv; [intros ?; reflexivity|apply (eqv_ret_l tt)|].
  apply (sim_bind eq); [|intros ? ? <-; now apply sim_ret].
  apply silent_sim. destruct p; first [now destruct Hp|silent].
Qed.

Lemma rw_cpu_sim r v : sim eq (rw_cpu E1 r v) (rw_cpu E2 r v).
Proof using HU HT.
  unfold rw_cpu, upd_accesses. rewrite HT. apply (sim_bind eq); [auto with modes|intros ts ? <-].
  destruct (is_trace E1); [|now apply rw_sim].
  eapply sim_eqv; [intros ?; reflexivity|apply eqv_ret_r|]. eapply sim_bind; [now apply rw_traced_rw_sim|].
  intros [rec l] [] _. apply silent_sim. silent.
Qed.
End Cpu.
Hint Resolve untrusted_sim timestamp_sim mr_cpu_sim mw_cpu_sim rr_cpu_sim rw_cpu_sim : modes.
(** ** Instructions *)
Section Instructions.
Context (E1 E2 : ExecutorConfig) (HU : UNCONSTRAINED E1 = UNCONSTRAINED E2) (HT : is_trace E2 = false).

Lemma execute_alu_sim i : sim eq (execute_alu E1 i) (execute_alu E2 i).
Proof using HU HT. unfold execute_alu, alu_rr, alu_rw, Operands.r_type, Operands.i_type, Operands.reg. sims. Qed.
Lemma execute_load_sim i : sim eq (execute_load E1 i) (execute_load E2 i).
Proof using HU HT. unfold execute_load, load_rr, Operands.i_type, Operands.reg. sims. Qed.
Lemma execute_store_sim i : sim eq (execute_store E1 i) (execute_store E2 i).
Proof using HU HT. unfold execute_store, store_rr, Operands.s_type, Operands.reg. sims. Qed.
Lemma execute_branch_sim i np : sim eq (execute_branch E1 i np) (execute_branch E2 i np).
Proof using HU HT. unfold execute_branch, branch_rr, Operands.b_type, Operands.reg, get_pc. sims. Qed.
Lemma execute_jump_sim i : sim eq (execute_jump E1 i) (execute_jump E2 i).
Proof using HU HT. unfold execute_jump, Operands.j_type, Operands.i_type, Operands.reg, get_pc. sims. Qed.

Lemma when_report_sim b1 b2 f1 f2 : sim eq (when b1 (upd_report f1)) (when b2 (upd_report f2)).
Proof using.
  intros s1 s2 H. destruct b1, b2; cbn; (eexists tt, _; split; [reflexivity|]; split; [done|]);
    revert H; revert s1 s2; try agree_leaf; done.
Qed.
Lemma count_instruction_sim i : sim eq (count_instruction E1 i) (count_instruction E2 i).
Proof using HU.
  unfold count_instruction. rewrite HU. destruct (negb (UNCONSTRAINED E2)); [|sims]. cbv zeta.
  eapply (sim_bind (fun _ _ => True)); [now apply sim_gets|]. intros b1 b2 _.
  apply (sim_bind eq); [apply when_report_sim|intros ? ? <-]. unfold upd_counts. sims.
Qed.

(** What is known of the program, and of the instruction that is fetched. *)
Definition formed_if (i1 i2 : Instruction.t) : Prop := i1 = i2 /\ (strict = true -> formed i1).
Definition program_if (p1 p2 : Program.t) : Prop :=
  p1 = p2 /\ (strict = true -> Program.enable_untrusted_programs p1 = false /\
    forall pc i, Program.fetch p1 pc = Some i -> formed i).

Lemma program_sim : sim program_if (gets Executor.program) (gets Executor.program).
Proof using.
  apply sim_gets. intros s1 s2 H. split; [unfold Executor.program; now rewrite (agree_context _ _ H)|].
  intros Hst. now destruct (agree_trusted _ _ H Hst).
Qed.
Lemma fetch_sim : sim formed_if (fetch E1) (fetch E2).
Proof using HU HT.
  unfold fetch, get_pc. rewrite HT. apply (sim_bind eq); [sims|intros pc ? <-].
  eapply sim_bind; [apply program_sim|intros prog ? [<- Hp]]. destruct (Program.fetch prog pc) as [i|] eqn:Hi.
  { apply sim_ret. split; [done|]. intros Hst. now apply (Hp Hst) in Hi. }
  destruct (Program.enable_untrusted_programs prog); [|intros s1 s2 H; cbn; eauto]. cbv zeta.
  assert (Hst : strict <> true) by (intros Hst; now destruct (Hp Hst)).
  apply (sim_bind eq); [auto with modes|intros ts ? <-].
  eapply sim_bind; [now apply mr_sim|]. intros [r l1] [r' l2] H. cbv [first fst] in H. subst r'.
  apply (sim_bind eq); [unfold upd_counts; sims|intros ? ? <-].
  eapply sim_bind; [now apply page_prot_access_sim|]. intros [p l3] [p' l4] H. cbv [first fst] in H. subst p'.
  destruct (negb _); [intros s1 s2 H; cbn; eauto|]. apply (sim_bind eq).
  { apply silent_sim. destruct (is_trace E1); [|silent]. apply silent_modify. intros s1 s2 []. now split. }
  intros [] ? <-. eapply (sim_bind eq); [sims|intros cached ? <-]. eapply (sim_bind eq); [destruct cached; sims|intros i ? <-].
  apply (sim_bind eq); [unfold upd_counts; sims|intros ? ? <-]. now apply sim_ret.
Qed.
End Instructions.
Hint Resolve execute_alu_sim execute_load_sim execute_store_sim execute_branch_sim execute_jump_sim
  count_instruction_sim fetch_sim : modes.
(** ** System calls *)

(** Contexts agree but for the local events. *)
Definition ctx_agree (c1 c2 : SyscallContext.t) : Prop :=
  SyscallContext.external_flag c1 = SyscallContext.external_flag c2 /\
  SyscallContext.clk c1 = SyscallContext.clk c2 /\
  SyscallContext.next_pc c1 = SyscallContext.next_pc c2 /\
  SyscallContext.exit_code c1 = SyscallContext.exit_code c2.
Definition with_ctx {A} (x y : A * SyscallContext.t) : Prop := fst x = fst y /\ ctx_agree (snd x) (snd y).

#[local] Instance ctx_agree_refl : Reflexive ctx_agree.
Proof. now intros c. Qed.

Lemma sim_silent_bind {A B C} (V : B -> C -> Prop) (m1 : M A) (k : A -> M B) m2 :
  silent strict m1 -> (forall a, sim V (k a) m2) -> sim V (bind m1 k) m2.
Proof.
  intros Hm Hk. eapply sim_eqv; [intros ?; reflexivity|apply (eqv_ret_l tt)|].
  eapply sim_bind; [now apply silent_any|]. intros a [] _. apply Hk.
Qed.

Lemma sim_gets_bind {A B C} (P : A -> Prop) (V : B -> C -> Prop) f (k : A -> M B) m2 :
  (forall s1 s2, agree s1 s2 -> P (f s1)) -> (forall a, P a -> sim V (k a) m2) -> sim V (bind (gets f) k) m2.
Proof. intros Hf Hk s1 s2 H. apply Hk; [|done]. now apply (Hf s1 s2). Qed.

Section Handlers.
Context (E1 E2 : ExecutorConfig) (HU : UNCONSTRAINED E1 = UNCONSTRAINED E2) (HT : is_trace E2 = false).

Lemma access_pages_sim l : strict <> true -> forall c1 c2, ctx_agree c1 c2 ->
  sim with_ctx (SyscallContext.access_pages E1 c1 l) (SyscallContext.access_pages E2 c2 l).
Proof using HU HT.
  intros Hst.
  induction l as [|[p b] l IH]; intros c1 c2 (Hf & Hc & Hn & He); cbn [SyscallContext.access_pages]; [now apply sim_ret|].
  rewrite Hf, Hc. eapply sim_bind; [now apply page_prot_access_sim|]. intros [x y] [x' y'] H. cbv [first fst] in H. subst x'.
  eapply sim_bind; [apply IH; unfold ctx_agree; cbn; auto|]. intros [ps d1] [ps' d2] [H1 H2]. cbn in H1, H2. subst ps'.
  now apply sim_ret.
Qed.
Lemma mr_words_sim n : forall c1 c2 a, ctx_agree c1 c2 ->
  sim with_ctx (SyscallContext.mr_words E1 c1 a n) (SyscallContext.mr_words E2 c2 a n).
Proof using HU HT.
  induction n as [|n IH]; intros c1 c2 a (Hf & Hc & Hn & He); cbn [SyscallContext.mr_words]; [now apply sim_ret|].
  rewrite Hf, Hc. eapply sim_bind; [now apply mr_sim|]. intros [x y] [x' y'] H. cbv [first fst] in H. subst x'.
  eapply sim_bind; [apply IH; unfold ctx_agree; cbn; auto|]. intros [ps d1] [ps' d2] [H1 H2]. cbn in H1, H2. subst ps'.
  now apply sim_ret.
Qed.
Lemma mw_words_sim l : forall c1 c2 a, ctx_agree c1 c2 ->
  sim with_ctx (SyscallContext.mw_words E1 c1 a l) (SyscallContext.mw_words E2 c2 a l).
Proof using HU HT.
  induction l as [|v l IH]; intros c1 c2 a (Hf & Hc & Hn & He); cbn [SyscallContext.mw_words]; [now apply sim_ret|].
  rewrite Hf, Hc. eapply sim_bind; [now apply mw_sim|]. intros [x y] [x' y'] H. cbv [first fst] in H. subst x'.
  eapply sim_bind; [apply IH; unfold ctx_agree; cbn; auto|]. intros [ps d1] [ps' d2] [H1 H2]. cbn in H1, H2. subst ps'.
  now apply sim_ret.
Qed.

Lemma slice_pages_sim c1 c2 m : ctx_agree c1 c2 ->
  sim with_ctx (SyscallContext.slice_pages E1 c1 m) (SyscallContext.slice_pages E2 c2 m).
Proof using HU HT.
  intros Hc. unfold SyscallContext.slice_pages. eapply sim_bind; [apply untrusted_sim|intros u ? [<- Hu]].
  destruct u; [|now apply sim_ret]. not_strict Hu. cbv zeta. apply (sim_bind eq); [sims|intros ? ? <-].
  apply (sim_bind eq); [sims|intros ? ? <-]. now apply access_pages_sim.
Qed.

Lemma mr_slice_sim c1 c2 a n : ctx_agree c1 c2 ->
  sim with_ctx (SyscallContext.mr_slice E1 c1 a n) (SyscallContext.mr_slice E2 c2 a n).
Proof using HU HT.
  intros Hc. unfold SyscallContext.mr_slice. eapply sim_bind; [now apply mr_words_sim|].
  intros [x d1] [x' d2] [H1 H2]. cbn in H1, H2. subst x'. eapply sim_bind; [now apply slice_pages_sim|].
  intros [y e1] [y' e2] [H1 H3]. cbn in H1, H3. subst y'. now apply sim_ret.
Qed.
Lemma mw_slice_sim c1 c2 a l b : ctx_agree c1 c2 ->
  sim with_ctx (SyscallContext.mw_slice E1 c1 a l b) (SyscallContext.mw_slice E2 c2 a l b).
Proof using HU HT.
  intros Hc. unfold SyscallContext.mw_slice. eapply sim_bind; [now apply mw_words_sim|].
  intros [x d1] [x' d2] [H1 H2]. cbn in H1, H2. subst x'. cbv zeta. eapply sim_bind; [now apply slice_pages_sim|].
  intros [y e1] [y' e2] [H1 H3]. cbn in H1, H3. subst y'. now apply sim_ret.
Qed.
Lemma page_prot_range_access_sim c1 c2 a b p : ctx_agree c1 c2 ->
  sim with_ctx (SyscallContext.page_prot_range_access E1 c1 a b p) (SyscallContext.page_prot_range_access E2 c2 a b p).
Proof using HU HT.
  intros Hc. unfold SyscallContext.page_prot_range_access. eapply sim_bind; [apply untrusted_sim|intros u ? [<- Hu]].
  destruct u; [|now apply sim_ret]. not_strict Hu. cbv zeta. apply (sim_bind eq); [sims|intros ? ? <-]. now apply access_pages_sim.
Qed.
Lemma ctx_rr_traced_sim c1 c2 r : ctx_agree c1 c2 ->
  sim with_ctx (SyscallContext.rr_traced E1 c1 r) (SyscallContext.rr_traced E2 c2 r).
Proof using HU HT.
  intros (Hf & Hc & Hn & He). unfold SyscallContext.rr_traced. rewrite Hf, Hc.
  eapply sim_bind; [now apply rr_traced_sim|]. intros [x y] [x' y'] H. cbv [first fst] in H. subst x'.
  apply sim_ret. now split.
Qed.

Lemma push_event_silent total e : silent total (push_event e).
Proof using. unfold push_event, upd_record. silent. Qed.
Hint Resolve push_event_silent : modes.

Lemma ctx_postprocess_sim c1 c2 : ctx_agree c1 c2 ->
  sim (fun x y => ctx_agree x.2 y.2) (SyscallContext.postprocess E1 c1) (SyscallContext.postprocess E2 c2).
Proof using HT.
  intros Hc. unfold SyscallContext.postprocess. rewrite HT. cbn [andb].
  destruct (is_trace E1 && negb (UNCONSTRAINED E1)); [|now apply sim_ret]. cbv zeta.
  apply sim_silent_bind; [silent|intros _].
  apply (sim_gets_bind (fun u => strict = true -> u = false)); [intros s1 s2 H Hst; apply (agree_trusted _ _ H Hst)|].
  intros u Hu. destruct u; [|now apply sim_ret]. not_strict Hu. apply sim_silent_bind; [silent|intros _]. now apply sim_ret.
Qed.
End Handlers.
Hint Resolve push_event_silent : modes.

Section Calls.
Context (E1 E2 : ExecutorConfig) (HU : UNCONSTRAINED E1 = UNCONSTRAINED E2) (HT : is_trace E2 = false).

(** The event of a precompile is pushed in trace mode only. *)
Lemma precompile_event_sim b (f : Executor.t -> SyscallEvent.t) (p : SyscallEvent.t -> Event)
  (g : Executor.t -> SyscallEvent.t) {A1 A2} (V : A1 -> A2 -> Prop) (k1 : M A1) (k2 : M A2) :
  sim V k1 k2 ->
  sim V (let! e := gets f in when b (push_event (p e)) ;;! k1) (let! _ := gets g in ret tt ;;! k2).
Proof using.
  intros Hk. apply sim_silent_bind; [silent|intros e].
  eapply (sim_eqv V _ _ _ (ret tt ;;! k2)); [intros ?; reflexivity..|].
  apply (sim_bind eq); [apply silent_sim; silent|]. now intros ? ? _.
Qed.

Lemma interp_sim code a b p : forall c1 c2, ctx_agree c1 c2 ->
  sim with_ctx (Api.interp E1 code a b p c1) (Api.interp E2 code a b p c2).
Proof using HU HT.
  induction p as [res| |addr k IH|addr v k IH|addr n k IH|addr vs rw k IH|x y bm k IH|r k IH|addr n k IH|k IH|k IH|key t ev k IH];
    intros c1 c2 Hc; cbn [Api.interp]; [now apply sim_ret|apply sim_panic|..].
  - destruct Hc as (Hf & Hc & Hn & He). rewrite Hf, Hc. eapply sim_bind; [now apply mr_sim|].
    intros [u l1] [u' l2] H. cbv [first fst] in H. subst u'. now apply IH.
  - destruct Hc as (Hf & Hc & Hn & He). rewrite Hf, Hc. eapply sim_bind; [now apply mw_sim|].
    intros [u l1] [u' l2] H. cbv [first fst] in H. subst u'. now apply IH.
  - eapply sim_bind; [now apply mr_slice_sim|]. intros [[[u v] w] d1] [[[u' v'] w'] d2] [[= -> -> ->] H2]. now apply IH.
  - eapply sim_bind; [now apply mw_slice_sim|]. intros [[u v] d1] [[u' v'] d2] [[= -> ->] H2]. now apply IH.
  - eapply sim_bind; [now apply page_prot_range_access_sim|]. intros [u d1] [u' d2] [[= ->] H2]. now apply IH.
  - apply (sim_bind eq); [sims|intros q ? <-]. eapply sim_bind; [now apply ctx_rr_traced_sim|].
    intros [[u v] d1] [[u' v'] d2] [[= -> ->] H2]. now apply IH.
  - apply (sim_bind eq); [apply sim_map_m; intros ?; apply double_word_sim|intros vs ? <-]. now apply IH.
  - destruct Hc as (Hf & Hc & Hn & He). rewrite Hc. now apply IH.
  - destruct Hc as (Hf & Hc & Hn & He). rewrite Hc. now apply IH.
  - eapply sim_bind; [now apply ctx_postprocess_sim|]. intros [[u v] d1] [[u' v'] d2] H. rewrite HT.
    apply precompile_event_sim. now apply IH.
Qed.

Lemma write_sim c k a b : sim with_ctx (write_syscall E1 c k a b) (write_syscall E2 c k a b).
Proof using HU HT.
  unfold write_syscall, handle_cycle_tracker_command, start_cycle_tracker, end_cycle_tracker,
    update_io_buf, push_results, upd_state, upd_report. sims.
Qed.

Lemma with_ctx_refl {A} (x : A * SyscallContext.t) : with_ctx x x.
Proof using. now split. Qed.
Hint Resolve with_ctx_refl : modes.

Lemma commit_sim c k a b : sim with_ctx (commit_syscall c k a b) (commit_syscall c k a b).
Proof using. unfold commit_syscall, upd_record. sims. Qed.
Lemma commit_deferred_sim c k a b :
  sim with_ctx (commit_deferred_proofs_syscall c k a b) (commit_deferred_proofs_syscall c k a b).
Proof using. unfold commit_deferred_proofs_syscall, upd_record. sims. Qed.
Lemma hint_len_sim c k a b : sim with_ctx (hint_len_syscall c k a b) (hint_len_syscall c k a b).
Proof using. unfold hint_len_syscall. sims. Qed.
Lemma hint_read_sim c k a b : sim with_ctx (hint_read_syscall c k a b) (hint_read_syscall c k a b).
Proof using. unfold hint_read_syscall, hint_word, upd_state. sims. Qed.
Lemma verify_sim c k a b : sim with_ctx (verify_syscall E1 c k a b) (verify_syscall E2 c k a b).
Proof using HU HT. unfold verify_syscall, upd_state. sims. Qed.

Lemma mprotect_sim c k a b : sim with_ctx (mprotect_syscall E1 c k a b) (mprotect_syscall E2 c k a b).
Proof using HU HT.
  unfold mprotect_syscall, upd_state. rewrite HT. cbv zeta.
  do 4 (apply (sim_bind eq); [sims|intros ? ? <-]).
  apply (sim_bind eq); [sims|intros st ? <-]. apply (sim_bind eq); [sims|intros lpa ? <-].
  do 2 (apply (sim_bind eq); [sims|intros ? ? <-]).
  eapply sim_bind; [now apply ctx_postprocess_sim|]. intros [[u v] d1] [[u' v'] d2] H.
  apply precompile_event_sim. now apply sim_ret.
Qed.

Lemma enter_sim run1 run2 c k a b : sim eq run1 run2 ->
  sim with_ctx (enter_unconstrained_syscall E1 run1 c k a b) (enter_unconstrained_syscall E2 run2 c k a b).
Proof using HU HT.
  intros Hrun. unfold enter_unconstrained_syscall, upd_state. rewrite HU.
  assert (HT' : is_trace Unconstrained = false) by reflexivity. sims.
Qed.

Section Dispatch.
Context (precompile : SyscallCode.t -> Z -> Z -> Api.t) (run1 run2 : M unit).
Context (Hrun : UNCONSTRAINED E2 = false -> sim eq run1 run2).

Lemma get_syscall_sim code c a b :
  sim with_ctx (get_syscall precompile run1 E1 code c code a b) (get_syscall precompile run2 E2 code c code a b).
Proof using HU HT Hrun.
  destruct code; cbn [get_syscall]; first
    [now apply interp_sim|apply write_sim|apply mprotect_sim|apply verify_sim
    |apply commit_sim|apply commit_deferred_sim|apply hint_len_sim|apply hint_read_sim|idtac].
  - unfold halt_syscall. sims.
  - destruct (bool_dec (UNCONSTRAINED E2) true) as [H2|H2%not_true_is_false]; [|now apply enter_sim, Hrun].
    unfold enter_unconstrained_syscall. rewrite HU, H2. now intros s1 s2 _.
  - unfold exit_unconstrained_syscall. rewrite HU. sims.
Qed.

Lemma execute_ecall_sim : sim eq (execute_ecall precompile run1 E1) (execute_ecall precompile run2 E2).
Proof using HU HT Hrun.
  unfold execute_ecall. eapply (sim_bind (fun a1 a2 => MemoryAccessRecord.untrusted_instruction a2 = None /\
    (strict = true -> MemoryAccessRecord.untrusted_instruction a1 = None))).
  { apply sim_gets. intros s1 s2 H. split; [apply H|]. intros Hst. apply (agree_trusted _ _ H Hst). }
  intros acc1 acc2 [Hacc Hst]. apply (sim_bind eq).
  { rewrite Hacc. case_bool_decide as Ha; [now apply sim_ret|]. intros s1 s2 H Hs. now destruct (Ha (Hst Hs)). }
  intros ? ? _. apply (sim_bind eq); [auto with modes|intros id ? <-].
  apply (sim_bind eq); [auto with modes|intros c ? <-]. apply (sim_bind eq); [auto with modes|intros b ? <-].
  apply (sim_bind eq); [sims|intros code ? <-].
  eapply (sim_bind (fun _ _ => True)); [now apply sim_gets|]. intros p1 p2 _.
  apply (sim_bind eq); [apply when_report_sim|intros ? ? <-]. rewrite HU.
  destruct (_ && _); [sims|]. unfold upd_state, upd_counts.
  apply (sim_bind eq); [sims|intros ? ? <-]. cbv zeta.
  apply (sim_bind eq); [sims|intros ext ? <-]. apply (sim_bind eq); [sims|intros ? ? <-].
  apply (sim_bind eq); [unfold SyscallContext.new; sims|intros ctx ? <-].
  eapply sim_bind; [apply get_syscall_sim|]. intros [r c1] [r' c2] [H1 (Hf & Hc & Hn & He)]. cbn in H1, Hf, Hc, Hn, He.
  subst r'. rewrite Hn, He. sims.
Qed.
End Dispatch.
End Calls.
Hint Resolve execute_ecall_sim : modes.
(** ** Events are silent *)
Lemma emit_events_silent clk np i code a b c z r ec : silent false (emit_events clk np i code a b c z r ec).
Proof.
  unfold emit_events, upd_record, bump_register, emit_alu_event, emit_mem_instr_event, emit_branch_event,
    emit_jal_event, emit_jalr_event, emit_utype_event, emit_syscall_event, emit_instruction_fetch_event.
  apply silent_bind; [silent|intros st]. cbv zeta. do 5 (apply silent_bind; [silent|intros _]).
  apply (silent_bind_gets false (fun x => strict = true -> MemoryAccessRecord.untrusted_instruction x = None)).
  { intros s1 s2 H Hst. apply (agree_trusted _ _ H Hst). }
  intros acc Hacc. do 4 (apply silent_bind; [silent|intros _]).
  destruct (MemoryAccessRecord.untrusted_instruction acc) as [[x w]|]; [|silent].
  not_strict Hacc. silent.
Qed.
Lemma emit_related clk np i code a b c z ec s1 s2 : agree s1 s2 -> (strict = true -> ready i s1) ->
  related eq ((let! x := gets Executor.memory_accesses in emit_events clk np i code a b c z x ec) s1) (ret tt s2).
Proof.
  intros H Hr. cbn -[emit_events]. pose proof (emit_events_silent clk np i code a b c z (Executor.memory_accesses s1) ec s1 s2 H) as Hs.
  destruct (emit_events _ _ _ _ _ _ _ _ _ _ s1) as [[] s1'| | |] eqn:He; try done; [exists tt, s2; auto|].
  intros Hst. pose proof (emit_ready_wp clk np i code a b c z ec s1 (Hr Hst)) as W. unfold wp in W. now rewrite He in W.
Qed.

Section Machine.
Context (precompile : SyscallCode.t -> Z -> Z -> Api.t).

Section Instruction.
Context (E1 E2 : ExecutorConfig) (HU : UNCONSTRAINED E1 = UNCONSTRAINED E2) (HT : is_trace E2 = false).

Lemma retire_related i r s1 s2 : agree s1 s2 -> (strict = true -> is_trace E1 = true -> ready i s1) ->
  related eq (retire_instruction E1 i r s1) (retire_instruction E2 i r s2).
Proof using HU HT.
  intros H Hr. unfold retire_instruction, get_pc, upd_state, upd_counts. rewrite HU, HT.
  destruct r as [[[[[[a b] c] clk] np] code] ec]. cbv zeta.
  eapply (related_bind eq); [apply sim_related; [sims|done]|].
  intros pc ? t1 t2 [= <- <-] <- H'. eapply (related_bind eq); [apply sim_related; [sims|done]|].
  intros [] ? u1 u2 He <- Hu. assert (Hm : Executor.memory_accesses u1 = Executor.memory_accesses s1)
    by (revert He; destruct (_ && _); intros [= <-]; reflexivity).
  eapply (related_bind eq).
  { destruct (is_trace E1); [|now apply sim_ret]. apply emit_related; [done|]. intros Hst. apply (ready_same i s1); auto. }
  intros ? ? v1 v2 _ <- Hv. apply sim_related; [sims|done].
Qed.

Lemma execute_instruction_sim run1 run2 i : (UNCONSTRAINED E2 = false -> sim eq run1 run2) ->
  (strict = true -> is_trace E1 = true -> formed i /\ UNCONSTRAINED E1 = false /\ preserves (same (tally true false)) run1) ->
  sim eq (execute_instruction precompile run1 E1 i) (execute_instruction precompile run2 E2 i).
Proof using HU HT.
  intros Hrun Hi. unfold execute_instruction, get_pc.
  apply (sim_bind eq); [sims|intros clk ? <-]. apply (sim_bind eq); [sims|intros pc ? <-].
  apply (sim_bind eq); [auto with modes|intros ? ? <-]. intros s1 s2 H. eapply (related_bind eq).
  { apply sim_related; [|done]. unfold dispatch_instruction, Operands.u_type, Operands.reg. sims. }
  intros r ? t1 t2 Hd <- H'. apply retire_related; [done|]. intros Hst Ht. destruct (Hi Hst Ht) as (Hf & Hc & Hp).
  eapply dispatch_ready; eauto. unfold traced. now rewrite Ht, Hc.
Qed.
End Instruction.

Lemma run_unconstrained_sim fuel : sim eq (run_unconstrained precompile fuel) (run_unconstrained precompile fuel).
Proof.
  induction fuel as [|fuel IH]; cbn [run_unconstrained]; [sims|]. unfold get_pc, Executor.program.
  eapply sim_bind; [now apply fetch_sim|intros i ? [<- _]].
  apply (sim_bind eq); [now apply execute_instruction_sim|intros ? ? <-]. sims.
Qed.
End Machine.
Hint Resolve run_unconstrained_sim : modes.

(** ** Shards *)
Lemma update_event_counts_sim : sim eq update_event_counts update_event_counts.
Proof.
  apply sim_modify. intros s1 s2 H. unfold bump_clk_high.
  rewrite (agree_state _ _ H), (agree_initial_timestamp _ _ H), (agree_counts _ _ H), (agree_event_counts _ _ H), (agree_context _ _ H).
  destruct H. split; try trusted_leaf; cbn; congruence.
Qed.
Hint Resolve update_event_counts_sim : modes.
Lemma size_reached_sim : sim eq size_reached size_reached.
Proof. unfold size_reached, program_len, Executor.program. sims. Qed.

Section Shard.
Context (E1 E2 : ExecutorConfig) (HU : UNCONSTRAINED E1 = UNCONSTRAINED E2) (HT : is_trace E2 = false).

Lemma silent_assert b : (strict = true -> b = true) -> silent strict (assert b).
Proof using. intros Hb s1 s2 H. destruct b; [done|]. cbn. now destruct strict; [specialize (Hb eq_refl)|]. Qed.
(** The local events are moved to the record, those of untrusted code when it
    is enabled; else there are none. *)
Lemma flush_silent : silent strict (if is_trace E1 then
     let! lma := gets Executor.local_memory_access in
     modify (Executor.set_local_memory_access ∅) ;;!
     for_each (map_to_list lma) (fun '(_, e) => push_event (cpu_local_memory_access e)) ;;!
     let! untrusted := enable_untrusted_programs in
     let! lpa := gets Executor.local_page_prot_access in
     let! decoded := gets Executor.decoded_instruction_events in
     if untrusted then
       modify (Executor.set_local_page_prot_access ∅) ;;!
       for_each (map_to_list lpa) (fun '(_, e) => push_event (cpu_local_page_prot_access e)) ;;!
       modify (Executor.set_decoded_instruction_events ∅) ;;!
       for_each (map_to_list decoded) (fun '(_, e) => push_event (instruction_decode_events e))
     else
       assert (Z.of_nat (size lpa) =? 0) ;;! assert (Z.of_nat (size decoded) =? 0)
   else ret tt).
Proof using.
  destruct (is_trace E1); [|silent]. do 3 (apply silent_bind; [silent|intros ?]).
  apply silent_bind; [unfold enable_untrusted_programs; silent|intros u].
  apply (silent_bind_gets _ (fun x => strict = true -> x = ∅)); [intros s1 s2 H Hst; apply (agree_trusted _ _ H Hst)|intros lpa Hl].
  apply (silent_bind_gets _ (fun x => strict = true -> x = ∅)); [intros s1 s2 H Hst; apply (agree_trusted _ _ H Hst)|intros dec Hd].
  destruct u; [silent|]. apply silent_bind; [|intros _]; apply silent_assert; intros Hst; [rewrite (Hl Hst)|rewrite (Hd Hst)];
    reflexivity.
Qed.

Lemma bump_record_sim : sim eq (bump_record E1) (bump_record E2).
Proof using HT.
  unfold bump_record, program_len, Executor.program. rewrite HT.
  apply (sim_bind eq); [sims|intros est ? <-]. apply (sim_bind eq); [sims|intros ? ? <-].
  apply (sim_bind eq); [sims|intros e ? <-]. apply (sim_bind eq); [sims|intros [x y] ? <-].
  apply (sim_bind eq); [unfold upd_record; sims|intros ? ? <-]. apply (sim_bind eq); [sims|intros ? ? <-].
  apply (sim_bind eq); [apply silent_sim, flush_silent|intros ? ? <-].
  apply (sim_bind eq); [sims|intros clk ? <-]. unfold upd_record. apply sim_modify. intros s1 s2 [].
  destruct (ExecutionRecord.last_timestamp (Executor.record s1) =? 0),
    (ExecutionRecord.last_timestamp (Executor.record s2) =? 0); split; try trusted_leaf; cbn; congruence.
Qed.

Lemma finish_shard_sim : sim eq (finish_shard E1) (finish_shard E2).
Proof using HU HT.
  unfold finish_shard, upd_state. rewrite HT.
  apply (sim_bind eq); [sims|intros ? ? <-]. apply (sim_bind eq); [sims|intros clk ? <-].
  apply (sim_bind eq).
  { apply sim_for_each. intros r. destruct (is_trace E1).
    - eapply sim_bind; [now apply rr_traced_rr_sim|]. intros [x l] v _. apply silent_sim. silent.
    - apply (sim_bind eq); [now apply rr_sim|intros ? ? <-]. now apply sim_ret. }
  intros ? ? _. apply (sim_bind eq); [unfold upd_record; sims|intros ? ? <-].
  apply (sim_bind eq); [sims|intros ? ? <-]. apply bump_record_sim.
Qed.

Context (precompile : SyscallCode.t -> Z -> Z -> Api.t) (fuel : nat) (HC : UNCONSTRAINED E1 = false).

Lemma execute_cycle_sim : sim eq (execute_cycle precompile fuel E1) (execute_cycle precompile fuel E2).
Proof using HU HT HC.
  unfold execute_cycle, get_pc, upd_state. rewrite HU, HT.
  apply (sim_bind eq); [apply silent_sim; silent|intros ? ? <-].
  eapply sim_bind; [now apply fetch_sim|intros i ? [<- Hi]].
  apply (sim_bind eq); [apply execute_instruction_sim; auto with modes|intros ? ? <-].
  { intros Hst Ht. split_and!; [auto|done|apply run_unconstrained_still]. }
  apply (sim_bind eq); [sims|intros ? ? <-]. apply (sim_bind eq); [sims|intros ? ? <-].
  apply (sim_bind eq); [|intros ? ? <-; sims]. destruct (negb (UNCONSTRAINED E2)); [|sims].
  apply (sim_bind eq); [apply size_reached_sim|intros stop ? <-].
  apply (sim_bind eq); [apply sim_when, finish_shard_sim|intros ? ? <-]. sims.
Qed.

Lemma execute_loop_sim n : sim eq (execute_loop precompile fuel E1 n) (execute_loop precompile fuel E2 n).
Proof using HU HT HC.
  induction n as [|n IH]; cbn [execute_loop]; [sims|].
  apply (sim_bind eq); [apply execute_cycle_sim|intros d ? <-]. sims.
Qed.
End Shard.

End Simulation.

(** ** Trusted programs and both orders *)
Lemma agree_weaken strict s1 s2 : agree strict s1 s2 -> agree false s1 s2.
Proof. now intros []. Qed.
Lemma agree_sym s1 s2 : agree false s1 s2 ->
  MemoryAccessRecord.untrusted_instruction (Executor.memory_accesses s1) = None -> agree false s2 s1.
Proof. intros [] H. now split. Qed.
Lemma related_panic {A} (o1 o2 : res A) : related false eq o2 o1 -> o1 = Panic -> o2 = Panic.
Proof. intros H ->. destruct o2; cbn in H; [destruct H as (? & ? & [=] & _)|destruct H as (? & [=] & _)|done|discriminate H]. Qed.

Definition trustedb (s : Executor.t) : bool :=
  negb (Program.enable_untrusted_programs (Executor.program s)) &&
  forallb (fun i => negb (plain i) || well_formed i) (Program.instructions (Executor.program s)) &&
  bool_decide (Executor.local_page_prot_access s = ∅) && bool_decide (Executor.decoded_instruction_events s = ∅) &&
  bool_decide (MemoryAccessRecord.untrusted_instruction (Executor.memory_accesses s) = None).
Lemma trustedb_sound s : trustedb s = true -> trusted s.
Proof.
  unfold trustedb. rewrite !andb_true_iff, !bool_decide_eq_true, negb_true_iff, forallb_forall.
  intros [[[[Hu Hc] Hp] Hd] Hf]. split; try done. intros pc i. unfold Program.fetch.
  destruct (_ <? _); [|done]. intros Hi%list_elem_of_lookup_2%list_elem_of_In Hpl. specialize (Hc i Hi).
  now rewrite Hpl in Hc.
Qed.

(** C7. All modes execute the same program.  From states that agree on the
    execution state (memory entries with their timestamps, program counter,
    clocks, streams, page protections), the counters and the context, when the
    loop of [execute] in any mode returns, after any number of cycles and
    system calls and for any precompiles, the loop in simple or checkpoint mode
    returns the same flag, in a state that agrees again; when it stops with an
    error, the other stops with the same error.  In particular the shards are
    cut at the same cycles in checkpoint and in trace mode.  Simple and
    checkpoint mode also panic together, and so does trace mode when the
    program is trusted, which it then stays; the trace of a program that
    enables untrusted code may panic where the other modes go on. *)
Theorem modes_agree strict precompile fuel n E1 E2 s1 s2
  (H1 : In E1 [Simple; Checkpoint; Trace]) (H2 : In E2 [Simple; Checkpoint]) (Hs : agree strict s1 s2) :
  match execute_loop precompile fuel E1 n s1 with
  | Ret done s1' => exists s2', execute_loop precompile fuel E2 n s2 = Ret done s2' /\ agree strict s1' s2'
  | Err e s1' => exists s2', execute_loop precompile fuel E2 n s2 = Err e s2' /\ agree strict s1' s2'
  | Panic =>
      trusted s1 \/ (E1 <> Trace /\ MemoryAccessRecord.untrusted_instruction (Executor.memory_accesses s1) = None) ->
      execute_loop precompile fuel E2 n s2 = Panic
  | OutOfFuel => execute_loop precompile fuel E2 n s2 = OutOfFuel
  end.
Proof.
  assert (HU : UNCONSTRAINED E1 = UNCONSTRAINED E2 /\ UNCONSTRAINED E1 = false /\ is_trace E2 = false /\
    (E1 <> Trace -> is_trace E1 = false)) by (destruct H1 as [<-|[<-|[<-|[]]]], H2 as [<-|[<-|[]]]; done).
  destruct HU as (HU & HC & HT & HT1). pose proof (execute_loop_sim strict E1 E2 HU HT precompile fuel HC n s1 s2 Hs) as H.
  destruct (execute_loop precompile fuel E1 n s1) eqn:E; try done; [destruct H as (? & s2' & ? & <- & ?); eauto|].
  intros [Ht|[Hn Hu]].
  - assert (Hs' : agree true s1 s2) by (now destruct Hs). 
    pose proof (execute_loop_sim true E1 E2 HU HT precompile fuel HC n s1 s2 Hs') as H'. rewrite E in H'. now apply H'.
  - eapply related_panic; [|exact E]. apply execute_loop_sim; [done|auto|congruence|].
    apply agree_sym; [now apply agree_weaken in Hs|done].
Qed.

(** The sample program is trusted; so is one that loads from address 0, which
    panics in every mode. *)
Definition low_load : Executor.t :=
  Executor.with_context (Context.mk (Program.mk [Instruction.new Opcode.LD 6 0 0 false true] 0x100 0x100 ∅ ∅ false)
    None 16 (Some (1000000, 1000)) (fun _ => 1) [] [] 0 [] None false (fun _ => None) None None Manual.decode).
Lemma trusted_refl s : trustedb s = true -> agree true s s.
Proof. intros H%trustedb_sound. split; try done. apply H. Qed.
Lemma modes_agree_witness :
  (exists s1 s2, execute_loop no_precompile 20 Trace 20 (sample 0 0) = Ret true s1 /\
     execute_loop no_precompile 20 Checkpoint 20 (sample 0 0) = Ret true s2 /\ agree true s1 s2) /\
  execute_loop no_precompile 20 Trace 20 low_load = Panic /\ execute_loop no_precompile 20 Simple 20 low_load = Panic.
Proof.
  assert (H : match execute_loop no_precompile 20 Trace 20 (sample 0 0) with Ret b _ => b | _ => false end = true)
    by (vm_compute; reflexivity).
  pose proof (modes_agree true no_precompile 20 20 Trace Checkpoint (sample 0 0) (sample 0 0)) as A.
  assert (H' : execute_loop no_precompile 20 Trace 20 low_load = Panic) by (vm_compute; reflexivity).
  pose proof (modes_agree true no_precompile 20 20 Trace Simple low_load low_load) as A'.
  destruct (execute_loop no_precompile 20 Trace 20 (sample 0 0)) as [b s1| | |]; [|discriminate H..]. subst b. split.
  - destruct A as (s2 & Hs2 & Ha); [now right; right; left|now right; left|apply trusted_refl; vm_compute; reflexivity|]. eauto.
  - split; [exact H'|]. rewrite H' in A'. apply A'; [now right; right; left|now left|apply trusted_refl; vm_compute; reflexivity|].
    left. apply trustedb_sound. vm_compute. reflexivity.
Defined.

(** ** System calls of untrusted code *)
Lemma count_instruction_accesses E i : preserves (same Executor.memory_accesses) (count_instruction E i).
Proof. unfold count_instruction, upd_report, upd_counts. walk_same. Qed.

(** Programs that end with a record of the memory the instruction came from. *)
Definition fetched (s : Executor.t) : Prop :=
  MemoryAccessRecord.untrusted_instruction (Executor.memory_accesses s) <> None.
Definition ends {A} (m : M A) : Prop := forall s, match m s with Ret _ s' => fetched s' | _ => True end.
Lemma ends_bind {A B} (m : M A) (k : A -> M B) : (forall a, ends (k a)) -> ends (bind m k).
Proof. intros Hk s. unfold bind. destruct (m s); try done. apply Hk. Qed.
Lemma ends_then {A B} (m : M A) (k : A -> M B) :
  ends m -> (forall a, preserves (same Executor.memory_accesses) (k a)) -> ends (bind m k).
Proof.
  intros Hm Hk s. specialize (Hm s). unfold bind. destruct (m s) as [a s1| | |]; try done.
  specialize (Hk a s1). destruct (k a s1) as [b s2| | |]; try done. cbn in Hk. unfold fetched, same in *. congruence.
Qed.
Lemma fetch_untrusted s i s' : Program.fetch (Executor.program s) (ExecutionState.pc (Executor.state s)) = None ->
  fetch Trace s = Ret i s' -> fetched s'.
Proof.
  intros Hp Hf. unfold fetch, get_pc, bind at 1 2, gets at 1 2 in Hf. rewrite Hp in Hf.
  destruct (Program.enable_untrusted_programs _); [|discriminate Hf]. cbv zeta in Hf.
  match type of Hf with ?m s = _ => assert (H : ends m) end; [|specialize (H s); now rewrite Hf in H].
  apply ends_bind. intros ts. apply ends_bind. intros [r l]. apply ends_bind. intros _. apply ends_bind. intros [p l'].
  destruct (negb _); [now intros ?|]. cbn [is_trace Trace]. apply ends_then; [now intros ?|]. intros _. unfold upd_counts. walk_same.
Qed.

Lemma dispatch_ecall precompile run E i clk pc : Instruction.opcode i = Opcode.ECALL ->
  dispatch_instruction precompile run E i clk pc = execute_ecall precompile run E.
Proof.
  intros Hi. unfold dispatch_instruction, Instruction.is_alu_instruction, Instruction.is_memory_load_instruction,
    Instruction.is_memory_store_instruction, Instruction.is_branch_instruction, Instruction.is_jump_instruction,
    Instruction.is_utype_instruction, Instruction.is_ecall_instruction. now rewrite Hi.
Qed.
Lemma untrusted_ecall_panics precompile run E i s : Instruction.opcode i = Opcode.ECALL -> fetched s ->
  execute_instruction precompile run E i s = Panic.
Proof.
  intros Hi Hf. unfold execute_instruction, get_pc, bind at 1 2 3, gets at 1 2.
  destruct (count_instruction_same E i s) as (s0 & Hc & _ & _). rewrite Hc.
  pose proof (count_instruction_accesses E i s) as Ha. rewrite Hc in Ha. cbn in Ha. unfold same in Ha.
  rewrite dispatch_ecall by done. unfold execute_ecall, bind, gets, assert.
  rewrite bool_decide_eq_false_2; [reflexivity|]. unfold fetched in Hf. congruence.
Qed.

Lemma register_wp E r s : wp (register E r) (fun v s' => v = stored_value s (inl r) /\ quiet s s') s.
Proof.
  unfold register. apply wp_bind, wp_gets, wp_bind, wp_calm; [calm|]. intros _ s' H. apply wp_ret. now split.
Qed.
(** [HALT] returns, with the program counter at which the loop ends. *)
Lemma execute_ecall_halt precompile run E s : UNCONSTRAINED E = false ->
  MemoryAccessRecord.untrusted_instruction (Executor.memory_accesses s) = None ->
  SyscallCode.from_u32 (u32 (stored_value s (inl Register.X5))) = Some SyscallCode.HALT ->
  wp (execute_ecall precompile run E) (fun '(_, _, _, _, np, _, _) _ => np = HALT_PC) s.
Proof.
  intros HU Hu Hx. unfold execute_ecall, upd_report, upd_state, upd_counts. rewrite HU.
  apply wp_bind, wp_gets. rewrite Hu. apply wp_bind, wp_ret, wp_bind.
  eapply wp_mono; [apply register_wp|]. intros v s1 [-> _]. cbv beta.
  do 2 (apply wp_bind; eapply wp_mono; [now apply rr_cpu_wp|]; intros ? ? _; cbv beta).
  rewrite Hx. apply wp_bind, wp_ret, wp_bind, wp_gets, wp_bind, wp_calm; [calm|]. intros _ ? _. cbn [andb].
  apply wp_bind, wp_calm; [calm|]. intros _ ? _. cbv zeta. apply wp_bind, wp_gets, wp_bind, wp_ret.
  apply wp_bind, wp_gets, wp_bind, wp_ret, wp_bind, wp_ret, wp_bind.
  eapply wp_mono; [apply rw_cpu_wp|]. intros ? ? _. cbv beta. apply wp_bind, wp_gets, wp_bind. now apply wp_ret.
Qed.
Lemma ecall_halts precompile run E i s : In E [Simple; Checkpoint] -> Instruction.opcode i = Opcode.ECALL ->
  MemoryAccessRecord.untrusted_instruction (Executor.memory_accesses s) = None ->
  SyscallCode.from_u32 (u32 (stored_value s (inl Register.X5))) = Some SyscallCode.HALT ->
  wp (execute_instruction precompile run E i) (fun _ s' => ExecutionState.pc (Executor.state s') = HALT_PC) s.
Proof.
  intros HE Hi Hu Hx. assert (H : UNCONSTRAINED E = false /\ is_trace E = false) by (now destruct HE as [<-|[<-|[]]]).
  destruct H as [HU HT]. unfold execute_instruction, get_pc. apply wp_bind, wp_gets, wp_bind, wp_gets, wp_bind.
  destruct (count_instruction_same E i s) as (s0 & Hc & Hst & _). unfold wp at 1. rewrite Hc.
  pose proof (count_instruction_accesses E i s) as Ha. rewrite Hc in Ha. cbn in Ha. unfold same in Ha.
  apply wp_bind. rewrite dispatch_ecall by done. eapply wp_mono.
  - apply execute_ecall_halt; [done|congruence|]. unfold stored_value, entry_at in *. now rewrite Hst.
  - intros [[[[[[a b] c] clk] np] code] ec] s1 ->. unfold retire_instruction, get_pc. rewrite HT.
    apply wp_bind, wp_gets, wp_bind, wp_calm; [unfold upd_counts; calm|]. intros _ s2 _. apply wp_bind, wp_ret. reflexivity.
Qed.

(** C31. A system call of untrusted code ends the trace.  When an ECALL is
    fetched from memory and not from the program, executing it in trace mode
    panics, whatever the call; in simple and checkpoint mode the same
    instruction is fetched, and a HALT is executed. *)
Theorem untrusted_ecall_diverges precompile run E i s1 s1' s2
  (HE : In E [Simple; Checkpoint]) (Hs : agree false s1 s2)
  (Hp : Program.fetch (Executor.program s1) (ExecutionState.pc (Executor.state s1)) = None)
  (Hf : fetch Trace s1 = Ret i s1') (Hi : Instruction.opcode i = Opcode.ECALL) :
  execute_instruction precompile run Trace i s1' = Panic /\
  exists s2', fetch E s2 = Ret i s2' /\ agree false s1' s2' /\
    (SyscallCode.from_u32 (u32 (stored_value s1' (inl Register.X5))) = Some SyscallCode.HALT ->
     exists s2'', execute_instruction precompile run E i s2' = Ret tt s2'' /\
       ExecutionState.pc (Executor.state s2'') = HALT_PC).
Proof.
  split; [apply untrusted_ecall_panics, (fetch_untrusted s1 i); done|].
  assert (H : UNCONSTRAINED Trace = UNCONSTRAINED E /\ is_trace E = false) by (now destruct HE as [<-|[<-|[]]]).
  pose proof (fetch_sim false Trace E (proj1 H) (proj2 H) s1 s2 Hs) as Hsim. rewrite Hf in Hsim.
  destruct Hsim as (i2 & s2' & H2 & [<- _] & Ha). exists s2'. split; [done|]. split; [done|]. intros Hx.
  assert (W : wp (execute_instruction precompile run E i) (fun _ s' => ExecutionState.pc (Executor.state s') = HALT_PC) s2').
  { apply ecall_halts; [done..|apply Ha|]. unfold stored_value, entry_at in *. now rewrite <- (agree_state _ _ _ Ha). }
  unfold wp in W. destruct (execute_instruction precompile run E i s2') as [[] s''| | |]; try done. eauto.
Qed.

(** A program whose only code is an ECALL in an executable page. *)
Definition untrusted_ecall : Executor.t :=
  let s := Executor.with_context (Context.mk (Program.mk [] 0x2000 0x100 ∅ ∅ true)
    None 16 (Some (1000000, 1000)) (fun _ => 1) [] [] 0 [] None false (fun _ => None) None None Manual.decode) in
  Executor.set_state (ExecutionState.set_page_prots {[ 2 := PageProtRecord.mk false 0 PROT_EXEC ]}
    (ExecutionState.set_memory {[ inr 0x400 := MemoryEntry.mk false 0 0x73 ]} (Executor.state s))) s.
Lemma untrusted_ecall_diverges_witness : exists s1 s2 s3,
  fetch Trace untrusted_ecall = Ret (Instruction.new Opcode.ECALL 5 10 11 false false) s1 /\
  execute_instruction no_precompile panic Trace (Instruction.new Opcode.ECALL 5 10 11 false false) s1 = Panic /\
  fetch Checkpoint untrusted_ecall = Ret (Instruction.new Opcode.ECALL 5 10 11 false false) s2 /\
  execute_instruction no_precompile panic Checkpoint (Instruction.new Opcode.ECALL 5 10 11 false false) s2 = Ret tt s3.
Proof.
  assert (Hi : match fetch Trace untrusted_ecall with
               | Ret i s => Some (i, SyscallCode.from_u32 (u32 (stored_value s (inl Register.X5)))) | _ => None end =
               Some (Instruction.new Opcode.ECALL 5 10 11 false false, Some SyscallCode.HALT)) by (vm_compute; reflexivity).
  destruct (fetch Trace untrusted_ecall) as [i s1| | |] eqn:Hf; [|discriminate Hi..]. injection Hi as -> Hx.
  destruct (untrusted_ecall_diverges no_precompile panic Checkpoint (Instruction.new Opcode.ECALL 5 10 11 false false) untrusted_ecall s1 untrusted_ecall
    (or_intror (or_introl eq_refl))) as (H1 & s2 & H2 & _ & H3); [now split|reflexivity|exact Hf|reflexivity|].
  destruct (H3 Hx) as (s3 & H4 & _). exists s1, s2, s3. auto.
Defined.
