(* ===== verification/Termination.v ===== *)
(** * Termination: fuel and the limit on cycles

    The loops of the executor take fuel.  [below] compares programs that differ
    in their fuel: the one with less either runs out of it or does the same.
    It is a congruence for the combinators, so that a run that ends is the run
    of every larger bound; and with a limit on cycles the loop of a shard ends
    when the unconstrained blocks it starts do. *)
From Stdlib Require Import ZArith Lia Bool.
From stdpp Require Import base numbers option list gmap.
From S2P Require Import Prelude Isa PagedMemory SyscallCode State ExecMemory Interpreter Cost Syscalls Samples Logic Checkpoint NonTrace.

(** ** Less fuel *)
Definition below {A} (m m' : M A) : Prop := forall s, m s = OutOfFuel \/ m s = m' s.

Lemma below_refl {A} (m : M A) : below m m.
Proof. intros s. now right. Qed.
Lemma below_trans {A} (m1 m2 m3 : M A) : below m1 m2 -> below m2 m3 -> below m1 m3.
Proof. intros H1 H2 s. destruct (H1 s) as [E|E]; [auto|]. rewrite E. apply H2. Qed.
#[export] Instance below_preorder A : PreOrder (@below A).
Proof. split; [exact below_refl|exact below_trans]. Qed.
Lemma below_none {A} (m : M A) : below (fun _ => OutOfFuel) m.
Proof. intros s. now left. Qed.
Lemma below_bind {A B} (m m' : M A) (k k' : A -> M B) :
  below m m' -> (forall a, below (k a) (k' a)) -> below (bind m k) (bind m' k').
Proof.
  intros Hm Hk s. unfold bind. destruct (Hm s) as [E|E]; rewrite E; [auto|]. destruct (m' s); try auto. apply Hk.
Qed.
Lemma below_unwrap {A} (m m' : M A) : below m m' -> below (unwrap m) (unwrap m').
Proof. intros Hm s. unfold unwrap. destruct (Hm s) as [E|E]; rewrite E; auto. Qed.

Create HintDb fuel discriminated.
#[export] Hint Resolve below_none : fuel.
Ltac below_step :=
  match goal with
  | |- below ?m ?m => apply below_refl
  | |- below (bind _ _) (bind _ _) => apply below_bind; [|intros ?]
  | |- below (unwrap _) (unwrap _) => apply below_unwrap
  | |- below (let _ := _ in _) _ => cbv zeta
  | |- below (if ?b then _ else _) _ => destruct b
  | |- below (match ?x with _ => _ end) _ => destruct x
  end.
Ltac belows := repeat (first [below_step | solve [eauto 2 with fuel]]).

Section Machine.
Context (precompile : SyscallCode.t -> Z -> Z -> Api.t).

Section Run.
Context (run run' : M unit) (Hrun : below run run') (E : ExecutorConfig).
Hint Resolve Hrun : fuel.

Lemma get_syscall_below code c a b :
  below (get_syscall precompile run E code c code a b) (get_syscall precompile run' E code c code a b).
Proof using Hrun. destruct code; cbn [get_syscall]; try reflexivity. unfold enter_unconstrained_syscall. belows. Qed.
Hint Resolve get_syscall_below : fuel.
Lemma execute_ecall_below : below (execute_ecall precompile run E) (execute_ecall precompile run' E).
Proof using Hrun. unfold execute_ecall. belows. Qed.
Hint Resolve execute_ecall_below : fuel.
Lemma execute_instruction_below i :
  below (execute_instruction precompile run E i) (execute_instruction precompile run' E i).
Proof using Hrun. unfold execute_instruction, dispatch_instruction. belows. Qed.
End Run.

Lemma run_unconstrained_below fuel fuel' : (fuel <= fuel')%nat ->
  below (run_unconstrained precompile fuel) (run_unconstrained precompile fuel').
Proof.
  revert fuel'. induction fuel as [|fuel IH]; intros [|fuel'] H; [belows..|lia|]. cbn [run_unconstrained].
  specialize (IH fuel' ltac:(lia)). belows.
Qed.

Section Shard.
Context (E : ExecutorConfig) (fuel fuel' : nat) (Hfuel : (fuel <= fuel')%nat).

Lemma execute_cycle_below : below (execute_cycle precompile fuel E) (execute_cycle precompile fuel' E).
Proof using Hfuel.
  unfold execute_cycle. belows. apply execute_instruction_below. now apply run_unconstrained_below.
Qed.
Hint Resolve execute_cycle_below : fuel.
Lemma execute_loop_below n n' : (n <= n')%nat ->
  below (execute_loop precompile fuel E n) (execute_loop precompile fuel' E n').
Proof using Hfuel.
  revert n'. induction n as [|n IH]; intros [|n'] H; [belows..|lia|]. cbn [execute_loop].
  specialize (IH n' ltac:(lia)). belows.
Qed.
End Shard.
End Machine.

(** ** The limit on cycles *)
Lemma bind_ret {A B} (m : M A) (k : A -> M B) s b s' :
  bind m k s = Ret b s' -> exists a s1, m s = Ret a s1 /\ k a s1 = Ret b s'.
Proof. unfold bind. destruct (m s); try discriminate. eauto. Qed.

Definition global_clk (s : Executor.t) : Z := ExecutionState.global_clk (Executor.state s).

Section Limit.
Context (precompile : SyscallCode.t -> Z -> Z -> Api.t) (E : ExecutorConfig) (HU : UNCONSTRAINED E = false).
Local Abbreviation still := (preserves (same (tally false true))).

Lemma bump_record_clk : still (bump_record E).
Proof using.
  unfold bump_record, update_event_counts, push_event, upd_record, enable_untrusted_programs. walk_same.
Qed.
Hint Resolve bump_record_clk : exec.
Lemma finish_shard_clk : still (finish_shard E).
Proof using. unfold finish_shard, push_event, upd_state, upd_record. walk_same. Qed.
Lemma size_reached_clk : still size_reached.
Proof using. unfold size_reached, update_event_counts. walk_same. Qed.
Hint Resolve finish_shard_clk size_reached_clk : exec.

(** Until the clock is advanced, and from there to the check. *)
Lemma instruction_clk fuel i : still (execute_instruction precompile (run_unconstrained precompile fuel) E i).
Proof using HU.
  rewrite <- HU. apply execute_instruction_still; [done|]. intros _. apply run_unconstrained_still.
Qed.
Lemma still_ret {A} (m : M A) s a s' : still m -> m s = Ret a s' ->
  global_clk s' = global_clk s /\ Executor.context s' = Executor.context s.
Proof using. intros Hm H. specialize (Hm s). rewrite H in Hm. unfold final, same, tally in Hm. now injection Hm. Qed.

Lemma cycle_clk fuel s b s' : execute_cycle precompile fuel E s = Ret b s' ->
  Executor.context s' = Executor.context s /\ global_clk s' = global_clk s +ₗ 1 /\
  forall m, Context.max_cycles (Executor.context s) = Some m -> global_clk s' <= m.
Proof using HU.
  unfold execute_cycle. rewrite HU. cbn [negb]. intros H.
  apply bind_ret in H as ([] & s0 & E0 & H). apply bind_ret in H as (i & s1 & E1 & H).
  apply bind_ret in H as ([] & s2 & E2 & H). apply bind_ret in H as ([] & s3 & [= <-] & H).
  apply bind_ret in H as ([] & s4 & [= <-] & H). apply bind_ret in H as ([] & s5 & E5 & H).
  apply bind_ret in H as (pc & s6 & [= <- <-] & H). rewrite andb_false_r in H. injection H as <- <-.
  apply bind_ret in E5 as (stop & s7 & E7 & H). apply bind_ret in H as ([] & s8 & E8 & H).
  apply bind_ret in H as (ctx & s9 & [= <- <-] & H). apply bind_ret in H as (g & s10 & [= <- <-] & H).
  apply still_ret in E0 as [C0 X0]; [|walk_same]. apply still_ret in E1 as [C1 X1]; [|auto with exec].
  apply still_ret in E2 as [C2 X2]; [|apply instruction_clk]. apply still_ret in E7 as [C7 X7]; [|auto with exec].
  apply still_ret in E8 as [C8 X8]; [|walk_same].
  unfold global_clk in *. cbn in C7, X7.
  destruct (Context.max_cycles _) as [m|] eqn:Em; [destruct (_ <? _) eqn:L; [discriminate|]|]; injection H as <-.
  - rewrite X8, X7, X2, X1, X0 in *. split_and!; [done|congruence|]. intros m' [= <-]%(eq_trans (eq_sym Em)). lia.
  - rewrite X8, X7, X2, X1, X0 in *. split_and!; [done|congruence|]. congruence.
Qed.

(** The states in which the loop of a shard starts a cycle. *)
Inductive reaches : Executor.t -> Executor.t -> Prop :=
| reaches_refl s : reaches s s
| reaches_step fuel s s1 s2 : execute_cycle precompile fuel E s = Ret false s1 ->
    ExecutionState.shard_finished (Executor.state s1) = false -> reaches s1 s2 -> reaches s s2.

Lemma below_eq {A} (m m' : M A) s : below m m' -> m s <> OutOfFuel -> m' s = m s.
Proof using. intros H. destruct (H s); congruence. Qed.

(** One cycle, with enough fuel for it and for the rest of the loop. *)
Lemma loop_step fuel s : execute_cycle precompile fuel E s <> OutOfFuel ->
  (forall s1, execute_cycle precompile fuel E s = Ret false s1 ->
    ExecutionState.shard_finished (Executor.state s1) = false ->
    exists n, execute_loop precompile n E n s1 <> OutOfFuel) ->
  exists n, execute_loop precompile n E n s <> OutOfFuel.
Proof using.
  intros Hc Hs.
  assert (Hn : exists n, forall s1, execute_cycle precompile fuel E s = Ret false s1 ->
    ExecutionState.shard_finished (Executor.state s1) = true \/ execute_loop precompile n E n s1 <> OutOfFuel).
  { destruct (execute_cycle precompile fuel E s) as [[] s1| | |] eqn:Ec; [now exists O| |now exists O..].
    destruct (ExecutionState.shard_finished (Executor.state s1)) eqn:F; [exists O; intros ? [= <-]; auto|].
    destruct (Hs s1 eq_refl F) as [n H]. exists n. intros ? [= <-]. auto. }
  destruct Hn as [n Hn]. exists (S (fuel + n)). cbn [execute_loop]. unfold bind at 1.
  rewrite (below_eq _ _ _ (execute_cycle_below precompile E fuel (S (fuel + n)) ltac:(lia)) Hc).
  destruct (execute_cycle precompile fuel E s) as [[] s1| | |] eqn:Ec; try done. cbn.
  destruct (Context.unconstrained_cycle_limit _); [destruct (_ <? _); [done|]|];
    (destruct (Hn s1 eq_refl) as [->|H]; [done|]; destruct (ExecutionState.shard_finished _); [done|];
     now rewrite (below_eq _ _ s1 (execute_loop_below precompile E n (S (fuel + n)) ltac:(lia) n (fuel + n) ltac:(lia)))).
Qed.

Lemma limited_loop_ends m s : Context.max_cycles (Executor.context s) = Some m ->
  0 <= global_clk s <= m -> m < 2 ^ 64 - 1 ->
  (forall s', reaches s s' -> exists fuel, execute_cycle precompile fuel E s' <> OutOfFuel) ->
  exists n, execute_loop precompile n E n s <> OutOfFuel.
Proof using HU.
  remember (Z.to_nat (m - global_clk s)) as k eqn:Ek. revert s Ek. induction k as [|k IH]; intros s Ek Hm Hg Hlt Hr;
    destruct (Hr s (reaches_refl s)) as [fuel Hc]; apply (loop_step fuel s Hc); intros s1 E1 F1;
    destruct (cycle_clk fuel s false s1 E1) as (X & G & L); specialize (L m Hm);
    rewrite u64_small in G by (unfold fits; lia); [lia|].
  apply IH; [lia|congruence|lia|lia|]. intros s' H'. apply Hr. now apply (reaches_step fuel _ s1).
Qed.
End Limit.

(** C30. Termination with a limit on cycles.  In a constrained mode, if the
    context has a limit, not exceeded yet, and every cycle that the loop of a
    shard starts ends (only an unconstrained block can fail to), then the loop
    ends, with a value, an error or a panic; and from some bound on, it has
    the same result for all bounds on cycles and blocks. *)
Theorem limited_loop_terminates precompile E s m : UNCONSTRAINED E = false ->
  Context.max_cycles (Executor.context s) = Some m -> 0 <= global_clk s <= m -> m < 2 ^ 64 - 1 ->
  (forall s', reaches precompile E s s' -> exists fuel, execute_cycle precompile fuel E s' <> OutOfFuel) ->
  exists n r, r <> OutOfFuel /\ forall fuel, (n <= fuel)%nat -> execute_loop precompile fuel E fuel s = r.
Proof.
  intros HU Hm Hg Hlt Hr. destruct (limited_loop_ends precompile E HU m s Hm Hg Hlt Hr) as [n Hn].
  exists n, (execute_loop precompile n E n s). split; [done|]. intros fuel Hf.
  apply (below_eq _ _ _ (execute_loop_below precompile E n fuel Hf n fuel Hf) Hn).
Qed.

(** The reached states of a run that ends within [n] cycles. *)
Fixpoint cycles_end (precompile : SyscallCode.t -> Z -> Z -> Api.t) (E : ExecutorConfig) (fuel n : nat) (s : Executor.t) :
  bool :=
  match n with
  | O => false
  | S n => match execute_cycle precompile fuel E s with
           | OutOfFuel => false
           | Ret false s1 => if ExecutionState.shard_finished (Executor.state s1) then true
                             else cycles_end precompile E fuel n s1
           | _ => true
           end
  end.
Lemma cycles_end_spec precompile E fuel n s s' : cycles_end precompile E fuel n s = true ->
  reaches precompile E s s' -> exists fuel, execute_cycle precompile fuel E s' <> OutOfFuel.
Proof.
  intros Hn H. revert n Hn. induction H as [s|fuel0 s s1 s2 E1 F _ IH]; intros [|n]; cbn [cycles_end]; try done.
  - intros Hn. exists fuel. intros Ec. now rewrite Ec in Hn.
  - intros Hn. apply (IH n). destruct (execute_cycle precompile fuel E s) as [b s1'| | |] eqn:Ec; [|exfalso..|done].
    all: assert (Eq : execute_cycle precompile fuel E s = execute_cycle precompile fuel0 E s) by
      (rewrite <- (below_eq _ _ s (execute_cycle_below precompile E fuel (fuel + fuel0) ltac:(lia))) by congruence;
       now rewrite (below_eq _ _ s (execute_cycle_below precompile E fuel0 (fuel + fuel0) ltac:(lia))) by congruence).
    all: rewrite Ec, E1 in Eq; try discriminate. injection Eq as -> ->. now rewrite F in Hn.
Qed.

(** The sample program, which runs an unconstrained block, with a limit. *)
Definition limited_sample (limit : Z) : Executor.t :=
  let c := sample_context 0 0 in
  Executor.with_context (Context.mk (Context.program c) (Some limit) (Context.size_check_frequency c)
    (Context.sharding_threshold c) (Context.costs c) (Context.internal_syscalls_override c)
    (Context.internal_syscalls_air_id c) (Context.expected_exit_code c) [] None false (fun _ => None) None None Manual.decode).

Lemma limited_loop_terminates_witness :
  exists n r, r <> OutOfFuel /\
    forall fuel, (n <= fuel)%nat -> execute_loop no_precompile fuel Trace fuel (limited_sample 50) = r.
Proof.
  apply (limited_loop_terminates no_precompile Trace (limited_sample 50) 50); [reflexivity|reflexivity| |lia|].
  - split; vm_compute; discriminate.
  - intros s'. apply (cycles_end_spec no_precompile Trace 10 20). vm_compute. reflexivity.
Defined.
