(* ===== verification/Air.v ===== *)
(** * Air: the constraint language of the circuits

    What the [eval] functions of the chips and operations are written in: the
    prime field the traces live in, the calls an [eval] makes on its builder
    ([hypercube/src/air/builder.rs]), the messages it sends on the lookup bus
    ([hypercube/src/lookup/interaction.rs]) and 64-bit words as four 16-bit
    limbs ([hypercube/src/word.rs]).

    An [eval] function is modelled as the list of builder calls it makes.  The
    field and the builder come from the Plonky3 crates the sources depend on,
    so each is a type class carrying what those crates document. *)
From Stdlib Require Import ZArith Lia Bool Zcong.
From stdpp Require Import base numbers list.
From S2P Require Import Prelude.

(** ** The field *)

(** A prime field of at least 30 bits.  Elements are integers, read modulo
    [order]; [finv] is the multiplicative inverse. *)
Class PrimeField := {
  order : Z;
  finv : Z -> Z;
  order_prime : Z.prime order;
  order_large : 2 ^ 30 < order < 2 ^ 32;
  finv_spec : forall x, x mod order <> 0 -> (finv x * x) mod order = 1 }.

Definition feq `{PrimeField} (x y : Z) : Prop := x mod order = y mod order.
Infix "≐" := feq (at level 70, no associativity) : sp1_scope.
Notation "x ≭ y" := (~ feq x y) (at level 70, no associativity) : sp1_scope.

#[global] Instance feq_dec `{PrimeField} x y : Decision (x ≐ y).
Proof. unfold feq. apply _. Defined.

(** [F::from_bool] and [as_canonical_u32]. *)
Definition from_bool (b : bool) : Z := if b then 1 else 0.
Definition as_canonical `{PrimeField} (x : Z) : Z := x mod order.

(** ** Builder calls *)

Module InteractionKind.
Inductive t :=
| Memory | Program | Instruction | Alu | Byte | Range | State | Syscall | Global
| ShaExtend | ShaCompress | Keccak | GlobalAccumulation
| MemoryGlobalInitControl | MemoryGlobalFinalizeControl
| InstructionFetch | InstructionDecode | PageProt | PageProtAccess
| PageProtGlobalInitControl | PageProtGlobalFinalizeControl.
End InteractionKind.
#[global] Instance InteractionKind_eq_dec : EqDecision InteractionKind.t.
Proof. solve_decision. Defined.

Record AirInteraction := mkInteraction {
  values : list Z;
  multiplicity : Z;
  kind : InteractionKind.t }.

(** Assertions, with the [when] filters in front of them. *)
Inductive assertion :=
| AssertZero (e : Z)
| AssertBool (e : Z)
| AssertEq (a b : Z)
| When (c : Z) (k : assertion)
| WhenNe (a b : Z) (k : assertion).

Definition AssertOne (e : Z) : assertion := AssertEq e 1.
Definition when_not (c : Z) (k : assertion) : assertion := WhenNe c 1 k.

(** One call of an [eval] on its builder.  A send made through a filtered
    builder is forwarded unfiltered, so sends carry no [when]. *)
Inductive call :=
| Assert (k : assertion)
| Send (i : AirInteraction)
| Receive (i : AirInteraction).
Coercion Assert : assertion >-> call.

Definition send_byte (opcode a b c mult : Z) : call :=
  Send (mkInteraction [opcode; a; b; c] mult InteractionKind.Byte).
Definition receive_byte (opcode a b c mult : Z) : call :=
  Receive (mkInteraction [opcode; a; b; c] mult InteractionKind.Byte).

Definition when_all (c : Z) (ks : list assertion) : list call :=
  map (fun k => Assert (When c k)) ks.

Definition if_else (condition a b : Z) : Z := condition * a + (1 - condition) * b.

Definition index_array (array index_bitmap : list Z) : Z :=
  fold_left (fun result '(value, i) => result + value * i)
    (zip array index_bitmap) 0.

(** What the builder enforces of an assertion: Plonky3 documents
    [assert_bool], [assert_eq], [assert_zero], and that the constraints of
    [when c] ([when_ne a b]) are enforced only when [c] is nonzero
    ([a] and [b] differ). *)
Class AirBuilder `{PrimeField} := {
  holds : assertion -> Prop;
  holds_assert_zero e : holds (AssertZero e) <-> e ≐ 0;
  holds_assert_bool e : holds (AssertBool e) <-> e ≐ 0 \/ e ≐ 1;
  holds_assert_eq a b : holds (AssertEq a b) <-> a ≐ b;
  holds_when c k : holds (When c k) <-> (c ≭ 0 -> holds k);
  holds_when_ne a b k : holds (WhenNe a b k) <-> (a ≭ b -> holds k) }.

(** The polynomial the builder receives for an assertion under the filter
    [c]: the reading of the class used by the witnesses. *)
Fixpoint polynomial (c : Z) (k : assertion) : Z :=
  match k with
  | AssertZero e => c * e
  | AssertBool e => c * (e * (e - 1))
  | AssertEq a b => c * (a - b)
  | When d k => polynomial (c * d) k
  | WhenNe a b k => polynomial (c * (a - b)) k
  end.

(** ** Words ([hypercube/src/word.rs]) *)

Record Word := mkWord { limb0 : Z; limb1 : Z; limb2 : Z; limb3 : Z }.

Definition WORD_SIZE : nat := 4.
Definition word_limbs (w : Word) : list Z := [limb0 w; limb1 w; limb2 w; limb3 w].
Definition limb (w : Word) (i : nat) : Z := nth i (word_limbs w) 0.
Notation "w .[ i ]" := (limb w i) (at level 1, left associativity, format "w .[ i ]") : sp1_scope.

Definition Word_of_fn (f : nat -> Z) : Word := mkWord (f 0%nat) (f 1%nat) (f 2%nat) (f 3%nat).
Definition word_zero : Word := mkWord 0 0 0 0.
Definition Word_map (f : Z -> Z) (w : Word) : Word := Word_of_fn (fun i => f w.[i]).

(** Casts of integers to limbs: [primitives/src/consts.rs] and
    [From<u64>], [From<u32>] for [Word]. *)
Definition u32_to_u16_limbs (value : Z) : list Z :=
  [u16 (Z.land value 0xFFFF); u16 (value ≫ 16)].
Definition u64_to_u16_limbs (value : Z) : list Z :=
  [u16 (Z.land value 0xFFFF); u16 (value ≫ 16); u16 (value ≫ 32); u16 (value ≫ 48)].
Definition Word_from_u64 (value : Z) : Word :=
  mkWord (u16 (Z.land value 0xFFFF)) (u16 (value ≫ 16)) (u16 (value ≫ 32)) (u16 (value ≫ 48)).
Definition Word_from_u32 (value : Z) : Word :=
  mkWord (u16 (Z.land value 0xFFFF)) (u16 (value ≫ 16)) 0 0.

Definition extend_half (v0 v1 : Z) : Word := mkWord (0 + v0) (0 + v1) 0 0.
Definition extend_expr (e : Z) : Word := mkWord (0 + e) 0 0 0.

(** [w] represents the 64-bit integer [v]: its limbs are, as field elements,
    the four 16-bit limbs of [v]. *)
Definition represents `{PrimeField} (w : Word) (v : Z) : Prop :=
  is_u64 v /\ Forall2 feq (word_limbs w) (word_limbs (Word_from_u64 v)).
Infix "∼" := represents (at level 70, no associativity) : sp1_scope.

(** ** Field lemmas *)

Section Field.
Context `{PrimeField}.

#[global] Instance feq_equivalence : Equivalence feq.
Proof. split; unfold feq; [intros ?|intros ??|intros ???]; congruence. Qed.
#[global] Instance feq_add : Proper (feq ==> feq ==> feq) Z.add.
Proof. intros a b E c d E'. unfold feq in *. now rewrite Zplus_mod, E, E', <- Zplus_mod. Qed.
#[global] Instance feq_sub : Proper (feq ==> feq ==> feq) Z.sub.
Proof. intros a b E c d E'. unfold feq in *. now rewrite Zminus_mod, E, E', <- Zminus_mod. Qed.
#[global] Instance feq_mul : Proper (feq ==> feq ==> feq) Z.mul.
Proof. intros a b E c d E'. unfold feq in *. now rewrite Zmult_mod, E, E', <- Zmult_mod. Qed.
#[global] Instance feq_opp : Proper (feq ==> feq) Z.opp.
Proof. intros a b E. now rewrite <- !Z.sub_0_l, E. Qed.

Lemma feq_sub_zero x y : x - y ≐ 0 <-> x ≐ y.
Proof.
  split; intros E.
  - now rewrite <- (Z.sub_add y x), E.
  - now rewrite E, Z.sub_diag.
Qed.

Lemma feq_exists x y : x ≐ y <-> exists k, x = y + k * order.
Proof.
  pose proof order_large. unfold feq. split.
  - intros E. exists (x / order - y / order).
    rewrite (Z.div_mod x order), (Z.div_mod y order) by lia.
    rewrite E, Z.mul_sub_distr_r, !(Z.mul_comm order), !Z.div_add_l by lia.
    rewrite (Z.div_small (y mod order)) by (apply Z.mod_pos_bound; lia). lia.
  - intros [k ->]. now rewrite Z.mod_add by lia.
Qed.

(** Congruent integers at distance less than the order are equal. *)
Lemma feq_small x y : x ≐ y -> Z.abs (x - y) < order -> x = y.
Proof. rewrite feq_exists. intros [k ->] Hb. assert (k = 0) by nia. lia. Qed.

Lemma feq_integral x y : x * y ≐ 0 <-> x ≐ 0 \/ y ≐ 0.
Proof.
  pose proof order_large. split.
  - unfold feq. rewrite Z.mod_0_l by lia. rewrite !Z.mod_divide by lia.
    apply Z.divide_prime_mul, order_prime.
  - intros [E|E]; rewrite E; [|rewrite Z.mul_0_r]; reflexivity.
Qed.

Lemma feq_mul_cancel_l a x y : a ≭ 0 -> a * x ≐ a * y -> x ≐ y.
Proof.
  rewrite <- (feq_sub_zero x), <- (feq_sub_zero (a * x)), <- Z.mul_sub_distr_l, feq_integral.
  tauto.
Qed.

Lemma feq_mul_cancel_r a x y : a ≭ 0 -> x * a ≐ y * a -> x ≐ y.
Proof. rewrite !(Z.mul_comm _ a). apply feq_mul_cancel_l. Qed.

Lemma finv_mul x : x ≭ 0 -> finv x * x ≐ 1.
Proof.
  pose proof order_large. unfold feq. rewrite Z.mod_0_l, (Z.mod_small 1) by lia. apply finv_spec.
Qed.

Lemma as_canonical_feq x : as_canonical x ≐ x.
Proof. unfold feq, as_canonical. apply Zmod_mod. Qed.

Lemma feq_canonical x y : x ≐ y -> as_canonical x = as_canonical y.
Proof. auto. Qed.
End Field.

(** ** Words and limbs *)

Lemma limb_of_u64 v n :
  0 <= n -> u16 (v ≫ n) = (v / 2 ^ n) mod 2 ^ 16.
Proof. intros. unfold u16, wrap. now rewrite Z.shiftr_div_pow2. Qed.

Lemma low_limb v : u16 (Z.land v 0xFFFF) = v mod 2 ^ 16.
Proof.
  change 0xFFFF with (Z.ones 16). rewrite Z.land_ones by lia.
  unfold u16, wrap. now rewrite Zmod_mod.
Qed.

Lemma Word_from_u64_limbs l0 l1 l2 l3 :
  is_u16 l0 -> is_u16 l1 -> is_u16 l2 -> is_u16 l3 ->
  Word_from_u64 (l0 + 2 ^ 16 * l1 + 2 ^ 32 * l2 + 2 ^ 48 * l3) = mkWord l0 l1 l2 l3.
Proof.
  intros. unfold Word_from_u64. rewrite low_limb, !limb_of_u64 by lia.
  unfold fits in *. f_equal; lia_mod.
Qed.

Lemma Word_from_u64_split v : is_u64 v -> exists l0 l1 l2 l3,
  is_u16 l0 /\ is_u16 l1 /\ is_u16 l2 /\ is_u16 l3 /\
  v = l0 + 2 ^ 16 * l1 + 2 ^ 32 * l2 + 2 ^ 48 * l3.
Proof.
  intros. exists (v mod 2 ^ 16), (v / 2 ^ 16 mod 2 ^ 16), (v / 2 ^ 32 mod 2 ^ 16), (v / 2 ^ 48).
  unfold fits in *. repeat split; lia_mod.
Qed.

Section Represents.
Context `{PrimeField}.

Lemma represents_intro w l0 l1 l2 l3 :
  is_u16 l0 -> is_u16 l1 -> is_u16 l2 -> is_u16 l3 ->
  w.[0] ≐ l0 -> w.[1] ≐ l1 -> w.[2] ≐ l2 -> w.[3] ≐ l3 ->
  w ∼ l0 + 2 ^ 16 * l1 + 2 ^ 32 * l2 + 2 ^ 48 * l3.
Proof.
  intros. split; [unfold fits in *; lia|].
  rewrite Word_from_u64_limbs by assumption. destruct w. repeat constructor; assumption.
Qed.

Lemma represents_elim w v : w ∼ v -> exists l0 l1 l2 l3,
  is_u16 l0 /\ is_u16 l1 /\ is_u16 l2 /\ is_u16 l3 /\
  v = l0 + 2 ^ 16 * l1 + 2 ^ 32 * l2 + 2 ^ 48 * l3 /\
  w.[0] ≐ l0 /\ w.[1] ≐ l1 /\ w.[2] ≐ l2 /\ w.[3] ≐ l3.
Proof.
  intros [Hv F]. destruct (Word_from_u64_split v Hv) as (l0 & l1 & l2 & l3 & ? & ? & ? & ? & ->).
  rewrite Word_from_u64_limbs in F by assumption.
  exists l0, l1, l2, l3. destruct w. unfold word_limbs in F. simpl in F.
  decompose_Forall_hyps. tauto.
Qed.

Lemma represents_from_u64 v : is_u64 v -> Word_from_u64 v ∼ v.
Proof. split; [assumption|]. repeat constructor. Qed.

Lemma represents_inj w v v' : w ∼ v -> w ∼ v' -> v = v'.
Proof.
  intros (l0 & l1 & l2 & l3 & ? & ? & ? & ? & -> & E0 & E1 & E2 & E3)%represents_elim.
  intros (m0 & m1 & m2 & m3 & ? & ? & ? & ? & -> & F0 & F1 & F2 & F3)%represents_elim.
  rewrite E0 in F0; rewrite E1 in F1; rewrite E2 in F2; rewrite E3 in F3.
  pose proof order_large. unfold fits in *.
  repeat match goal with E : _ ≐ _ |- _ => apply feq_small in E; [|lia] end. lia.
Qed.
End Represents.

(** [destruct_word H] names the limbs of the integer a word represents. *)
Tactic Notation "destruct_word" hyp(Hw) "as" simple_intropattern(x0)
  simple_intropattern(x1) simple_intropattern(x2) simple_intropattern(x3) :=
  apply represents_elim in Hw as (x0 & x1 & x2 & x3 & ? & ? & ? & ? & ? & ? & ? & ? & ?).

(** ** The builder interface is implemented by filtered polynomials *)

Section Polynomial.
Context `{PrimeField}.

Lemma polynomial_filter c k : polynomial c k ≐ c * polynomial 1 k.
Proof.
  revert c. induction k; intros c0; simpl polynomial; rewrite ?Z.mul_1_l; try reflexivity.
  - rewrite IHk, (IHk c). now rewrite Z.mul_assoc.
  - rewrite IHk, (IHk (a - b)). now rewrite Z.mul_assoc.
Qed.

Definition polynomial_holds (k : assertion) : Prop := polynomial 1 k ≐ 0.

#[global] Instance polynomial_holds_dec k : Decision (polynomial_holds k).
Proof. unfold polynomial_holds. apply _. Defined.

#[global, refine] Instance polynomial_builder : AirBuilder := {| holds := polynomial_holds |}.
Proof.
  all: unfold polynomial_holds; simpl polynomial; intros; rewrite ?Z.mul_1_l.
  - reflexivity.
  - rewrite feq_integral. now rewrite <- (feq_sub_zero e 1).
  - apply feq_sub_zero.
  - rewrite polynomial_filter, feq_integral. destruct (decide (c ≐ 0)); tauto.
  - rewrite polynomial_filter, feq_integral, feq_sub_zero. destruct (decide (a ≐ b)); tauto.
Defined.
End Polynomial.
