(* ===== verification/KoalaBear.v ===== *)
(** * KoalaBear: the field the machine is instantiated at

    The prime [2^31 - 2^24 + 1] that the sources check against
    ([hypercube/src/septic_extension.rs] asserts the order of the base field),
    shown to satisfy the interface [Air.PrimeField].  Primality is checked by
    trial division up to the square root. *)
From Stdlib Require Import ZArith Lia Zcong.
From stdpp Require Import base numbers list.
From S2P Require Import Prelude Air.

Definition KOALA_BEAR_ORDER : Z := 2130706433.

(** No divisor of [p] among the [n] integers from [d] on. *)
Fixpoint no_divisor (n : nat) (d p : Z) : bool :=
  match n with
  | O => true
  | S n => negb (p mod d =? 0) && no_divisor n (d + 1) p
  end.

Lemma no_divisor_spec n d p : no_divisor n d p = true ->
  forall k, d <= k < d + Z.of_nat n -> p mod k <> 0.
Proof.
  revert d. induction n as [|n IH]; intros d Hn k Hk; [lia|].
  simpl in Hn. apply andb_true_iff in Hn as [H1 H2].
  destruct (decide (k = d)) as [->|].
  - now apply negb_true_iff, Z.eqb_neq in H1.
  - apply (IH (d + 1)); [assumption|lia].
Qed.

Lemma trial_division p n : 1 < p -> p < (Z.of_nat n + 2) * (Z.of_nat n + 2) ->
  no_divisor n 2 p = true -> Z.prime p.
Proof.
  intros Hp Hn Hd. split; [assumption|]. intros k Hk [q Hq].
  assert (Hlow : forall x y, 1 < x -> p = y * x -> Z.of_nat n + 2 <= x).
  { intros x y Hx Hy. destruct (Z_lt_le_dec x (Z.of_nat n + 2)); [|assumption].
    exfalso. apply (no_divisor_spec n 2 p Hd x); [lia|].
    subst p. now rewrite Hy, Z.mod_mul by lia. }
  assert (1 < q) by nia.
  pose proof (Hlow k q ltac:(lia) Hq).
  pose proof (Hlow q k ltac:(lia) ltac:(lia)). nia.
Qed.

Lemma koala_bear_prime : Z.prime KOALA_BEAR_ORDER.
Proof.
  apply (trial_division _ (Z.to_nat 46160)); [reflexivity|reflexivity|].
  vm_compute. reflexivity.
Qed.

#[refine] Instance koala_bear : PrimeField :=
  {| order := KOALA_BEAR_ORDER; finv x := Z.invmod x KOALA_BEAR_ORDER |}.
Proof.
  - exact koala_bear_prime.
  - split; reflexivity.
  - intros x Hx. apply Z.invmod_prime; [exact koala_bear_prime|assumption].
Defined.
