(* ===== verification/ByteTable.v ===== *)
(** * ByteTable: the byte and range lookup tables

    [ByteOpcode] and [ByteLookupEvent] ([core/executor/src/opcode.rs],
    [events/byte.rs]), the preprocessed tables and the receives of the byte
    chip ([core/machine/src/bytes]) and of the range chip
    ([core/machine/src/range]), the trace columns that count the lookups, and
    [sat]: what it means for the calls of an [eval] to be satisfied, with a
    byte send answered by one of the two tables. *)
From Stdlib Require Import ZArith Lia Bool.
From stdpp Require Import base numbers list option.
From S2P Require Import Prelude Air KoalaBear.

Module ByteOpcode.
Inductive t := AND | OR | XOR | U8Range | LTU | MSB | Range.

(** [self as u8], and the field element of it. *)
Definition as_u8 (op : t) : Z :=
  match op with
  | AND => 0 | OR => 1 | XOR => 2 | U8Range => 3 | LTU => 4 | MSB => 5 | Range => 6
  end.
Definition as_field (op : t) : Z := as_u8 op.

Definition byte_table : list t := [AND; OR; XOR; U8Range; LTU; MSB].
End ByteOpcode.
Import ByteOpcode (as_field).

#[global] Instance ByteOpcode_eq_dec : EqDecision ByteOpcode.t.
Proof. solve_decision. Defined.

Record ByteLookupEvent := mkByteLookupEvent {
  ev_opcode : ByteOpcode.t; ev_a : Z; ev_b : Z; ev_c : Z }.

#[global] Instance ByteLookupEvent_eq_dec : EqDecision ByteLookupEvent.
Proof. solve_decision. Defined.

(** ** [ByteRecord]: a record is the list of the events added to it *)
Section ByteRecord.
Definition add_byte_lookup_event (r : list ByteLookupEvent) (e : ByteLookupEvent) :
  list ByteLookupEvent := r ++ [e].
Definition add_u8_range_check (r : list ByteLookupEvent) (x y : Z) :=
  add_byte_lookup_event r (mkByteLookupEvent ByteOpcode.U8Range 0 x y).
Definition add_u16_range_check (r : list ByteLookupEvent) (x : Z) :=
  add_byte_lookup_event r (mkByteLookupEvent ByteOpcode.Range x 16 0).
Definition add_bit_range_check (r : list ByteLookupEvent) (x bits : Z) :=
  add_byte_lookup_event r (mkByteLookupEvent ByteOpcode.Range x bits 0).
Fixpoint add_u8_range_checks (r : list ByteLookupEvent) (bytes : list Z) :=
  match bytes with
  | x :: y :: bytes => add_u8_range_checks (add_u8_range_check r x y) bytes
  | [x] => add_u8_range_check r x 0
  | [] => r
  end.
Definition add_u16_range_checks (r : list ByteLookupEvent) (ls : list Z) :=
  fold_left add_u16_range_check ls r.
Definition lookup_or (r : list ByteLookupEvent) (x y : Z) :=
  add_byte_lookup_event r (mkByteLookupEvent ByteOpcode.OR (Z.lor x y) x y).
End ByteRecord.

(** ** The byte chip *)
Module ByteChip.
Record BytePreprocessedCols := mkCols {
  col_b : Z; col_c : Z; col_and : Z; col_or : Z; col_xor : Z; col_ltu : Z; col_msb : Z }.

(** The body of the loop over the opcodes; [None] is its panic. *)
Definition set_op (vb vc : Z) (col : BytePreprocessedCols) (op : ByteOpcode.t) :
  option BytePreprocessedCols :=
  let '(mkCols b c and or xor ltu msb) := col in
  match op with
  | ByteOpcode.AND => Some (mkCols b c (Z.land vb vc) or xor ltu msb)
  | ByteOpcode.OR => Some (mkCols b c and (Z.lor vb vc) xor ltu msb)
  | ByteOpcode.XOR => Some (mkCols b c and or (Z.lxor vb vc) ltu msb)
  | ByteOpcode.U8Range => Some col
  | ByteOpcode.LTU => Some (mkCols b c and or xor (from_bool (vb <? vc)) msb)
  | ByteOpcode.MSB =>
      Some (mkCols b c and or xor ltu (from_bool (negb (Z.land vb 0x80 =? 0))))
  | _ => None
  end.

Definition trace_row (vb vc : Z) : option BytePreprocessedCols :=
  foldl (fun col op => col ← col; set_op vb vc col op)
    (Some (mkCols vb vc 0 0 0 0 0)) ByteOpcode.byte_table.

(** The preprocessed table: row [256 * b + c] holds the pair [(b, c)]. *)
Definition trace : option (list BytePreprocessedCols) :=
  mapM (fun '(vb, vc) => trace_row vb vc)
    (vb ← seqZ 0 256; vc ← seqZ 0 256; [(vb, vc)]).

Definition eval_op (local : BytePreprocessedCols) (mult : Z) (op : ByteOpcode.t) : option call :=
  let field_op := as_field op in
  match op with
  | ByteOpcode.AND => Some (receive_byte field_op (col_and local) (col_b local) (col_c local) mult)
  | ByteOpcode.OR => Some (receive_byte field_op (col_or local) (col_b local) (col_c local) mult)
  | ByteOpcode.XOR => Some (receive_byte field_op (col_xor local) (col_b local) (col_c local) mult)
  | ByteOpcode.U8Range => Some (receive_byte field_op 0 (col_b local) (col_c local) mult)
  | ByteOpcode.LTU => Some (receive_byte field_op (col_ltu local) (col_b local) (col_c local) mult)
  | ByteOpcode.MSB => Some (receive_byte field_op (col_msb local) (col_b local) 0 mult)
  | _ => None
  end.

(** [eval], with [multiplicities] the main columns of the row. *)
Definition eval (local : BytePreprocessedCols) (multiplicities : list Z) : option (list call) :=
  mapM (fun '(i, op) => eval_op local (nth i multiplicities 0) op)
    (imap (fun i op => (i, op)) ByteOpcode.byte_table).

(** [generate_trace]: the multiplicity columns, by row and opcode index. *)
Definition event_row (e : ByteLookupEvent) : Z := u16 (u16 (ev_b e ≪ 8) + ev_c e).
Definition multiplicity_of (byte_lookups : list (ByteLookupEvent * Z)) (row : Z) (index : Z) : Z :=
  foldl (fun m '(lookup, mult) =>
    if decide (ev_opcode lookup = ByteOpcode.Range) then m
    else if (event_row lookup =? row) && (ByteOpcode.as_u8 (ev_opcode lookup) =? index)
    then m + mult else m) 0 byte_lookups.
Definition generate_row (byte_lookups : list (ByteLookupEvent * Z)) (row : Z) : list Z :=
  (fun op => multiplicity_of byte_lookups row (ByteOpcode.as_u8 op)) <$> ByteOpcode.byte_table.
End ByteChip.

(** ** The range chip *)
Module RangeChip.
Record RangePreprocessedCols := mkRange { col_a : Z; col_bits : Z }.

(** Row [0] is [(0, 0)], row [2^bits + a] is [(a, bits)]. *)
Definition trace : list RangePreprocessedCols :=
  mkRange 0 0 ::
  (bits ← seqZ 0 17; a ← seqZ 0 (1 ≪ bits); [mkRange a bits]).

Definition eval (local : RangePreprocessedCols) (mult : Z) : list call :=
  [receive_byte (as_field ByteOpcode.Range) (col_a local) (col_bits local) 0 mult].

Definition event_row (e : ByteLookupEvent) : Z := ev_a e + (1 ≪ ev_b e).
Definition generate_row (byte_lookups : list (ByteLookupEvent * Z)) (row : Z) : Z :=
  foldl (fun m '(lookup, mult) =>
    if negb (bool_decide (ev_opcode lookup = ByteOpcode.Range)) then m
    else if event_row lookup =? row then m + mult else m) 0 byte_lookups.
End RangeChip.

(** ** Satisfied calls *)

(** The tuples the two chips receive. *)
Definition byte_receives (t : list Z) : Prop :=
  exists rows row mults calls m, ByteChip.trace = Some rows /\ row ∈ rows /\
    ByteChip.eval row mults = Some calls /\ Receive (mkInteraction t m InteractionKind.Byte) ∈ calls.
Definition range_receives (t : list Z) : Prop :=
  exists row mult m, row ∈ RangeChip.trace /\
    Receive (mkInteraction t m InteractionKind.Byte) ∈ RangeChip.eval row mult.

(** What a lookup event must be for a table to hold it. *)
Definition event_ok (e : ByteLookupEvent) : Prop :=
  match ev_opcode e with
  | ByteOpcode.AND => is_u8 (ev_b e) /\ is_u8 (ev_c e) /\ ev_a e = Z.land (ev_b e) (ev_c e)
  | ByteOpcode.OR => is_u8 (ev_b e) /\ is_u8 (ev_c e) /\ ev_a e = Z.lor (ev_b e) (ev_c e)
  | ByteOpcode.XOR => is_u8 (ev_b e) /\ is_u8 (ev_c e) /\ ev_a e = Z.lxor (ev_b e) (ev_c e)
  | ByteOpcode.U8Range => is_u8 (ev_b e) /\ is_u8 (ev_c e) /\ ev_a e = 0
  | ByteOpcode.LTU => is_u8 (ev_b e) /\ is_u8 (ev_c e) /\ ev_a e = from_bool (ev_b e <? ev_c e)
  | ByteOpcode.MSB => is_u8 (ev_b e) /\ ev_c e = 0 /\ ev_a e = ev_b e / 2 ^ 7
  | ByteOpcode.Range => 0 <= ev_b e <= 16 /\ fits (ev_b e) (ev_a e) /\ ev_c e = 0
  end.
Definition event_tuple (e : ByteLookupEvent) : list Z :=
  [as_field (ev_opcode e); ev_a e; ev_b e; ev_c e].

(** A byte send is answered when its multiplicity is zero or one of the tables
    holds its tuple; the other buses connect chips with each other. *)
Definition answered `{PrimeField} (i : AirInteraction) : Prop :=
  multiplicity i ≐ 0 \/
  exists t, (byte_receives t \/ range_receives t) /\ Forall2 feq (values i) t.
Definition sat_call `{AirBuilder} (x : call) : Prop :=
  match x with
  | Assert k => holds k
  | Send i => kind i = InteractionKind.Byte -> answered i
  | Receive _ => True
  end.
Definition sat `{AirBuilder} (cs : list call) : Prop := Forall sat_call cs.

(** ** What the tables hold *)

Lemma trace_row_eq vb vc : ByteChip.trace_row vb vc =
  Some (ByteChip.mkCols vb vc (Z.land vb vc) (Z.lor vb vc) (Z.lxor vb vc)
    (from_bool (vb <? vc)) (from_bool (negb (Z.land vb 0x80 =? 0)))).
Proof. reflexivity. Qed.

Lemma byte_msb x : is_u8 x -> from_bool (negb (Z.land x 0x80 =? 0)) = x / 2 ^ 7.
Proof.
  intros Hx. apply Z.eqb_eq. revert x Hx.
  apply (u8_forall (fun x => from_bool (negb (Z.land x 0x80 =? 0)) =? x / 2 ^ 7)).
  vm_compute. reflexivity.
Qed.

Lemma byte_trace_eq : ByteChip.trace = Some
  ((fun '(vb, vc) => ByteChip.mkCols vb vc (Z.land vb vc) (Z.lor vb vc) (Z.lxor vb vc)
     (from_bool (vb <? vc)) (from_bool (negb (Z.land vb 0x80 =? 0)))) <$>
   (vb ← seqZ 0 256; vc ← seqZ 0 256; [(vb, vc)])).
Proof. apply mapM_total. now intros [vb vc]. Qed.

Lemma elem_of_pairs (vb vc : Z) :
  (vb, vc) ∈ (x ← seqZ 0 256; y ← seqZ 0 256; [(x, y)]) <-> is_u8 vb /\ is_u8 vc.
Proof.
  unfold fits. rewrite list_elem_of_bind. split.
  - intros (x & (y & [= -> ->]%list_elem_of_singleton & Hy)%list_elem_of_bind & Hx).
    rewrite elem_of_seqZ in Hx, Hy. lia.
  - intros [Hb Hc]. exists vb. rewrite list_elem_of_bind, elem_of_seqZ.
    split; [|lia]. exists vc. rewrite elem_of_seqZ. split; [now left|lia].
Qed.

Lemma byte_trace_total : exists rows, ByteChip.trace = Some rows /\
  forall row, row ∈ rows <-> exists vb vc,
    ByteChip.trace_row vb vc = Some row /\ is_u8 vb /\ is_u8 vc.
Proof.
  eexists. split; [apply byte_trace_eq|]. intros row. rewrite list_elem_of_fmap. split.
  - intros ([vb vc] & -> & ?%elem_of_pairs). exists vb, vc. now rewrite trace_row_eq.
  - intros (vb & vc & E & ?). rewrite trace_row_eq in E. apply (inj Some) in E as <-.
    exists (vb, vc). split; [reflexivity|now apply elem_of_pairs].
Qed.

Lemma byte_receives_iff t : byte_receives t <->
  exists e, ev_opcode e <> ByteOpcode.Range /\ event_ok e /\ t = event_tuple e.
Proof.
  destruct byte_trace_total as (rows & Htr & Hrows). split.
  - intros (rows' & row & mults & calls & m & Htr' & Hrow & [= <-] & Hin).
    rewrite Htr in Htr'. apply (inj Some) in Htr' as <-. clear Htr.
    apply Hrows in Hrow as (vb & vc & [= <-] & Hb & Hc).
    pose proof (byte_msb vb Hb) as Hmsb.
    rewrite !elem_of_cons, elem_of_nil in Hin. unfold receive_byte in Hin. simpl in Hin.
    destruct Hin as [E|[E|[E|[E|[E|[E|[]]]]]]]; injection E as -> ->.
    1: exists (mkByteLookupEvent ByteOpcode.AND (Z.land vb vc) vb vc).
    2: exists (mkByteLookupEvent ByteOpcode.OR (Z.lor vb vc) vb vc).
    3: exists (mkByteLookupEvent ByteOpcode.XOR (Z.lxor vb vc) vb vc).
    4: exists (mkByteLookupEvent ByteOpcode.U8Range 0 vb vc).
    5: exists (mkByteLookupEvent ByteOpcode.LTU (from_bool (vb <? vc)) vb vc).
    6: exists (mkByteLookupEvent ByteOpcode.MSB (vb / 2 ^ 7) vb 0); rewrite Hmsb.
    all: split; [discriminate|]; split; [now simpl|reflexivity].
  - intros ([op va vb vc] & Hop & Hok & ->).
    assert (exists vc', is_u8 vb /\ is_u8 vc' /\ (vc = vc' \/ op = ByteOpcode.MSB))
      as (vc' & Hb & Hc & Hvc).
    { clear Htr Hrows. destruct op; unfold event_ok in Hok; simpl in Hok; try (now destruct Hop); try (exists vc; tauto).
      exists 0. split; [tauto|]. split; [unfold fits; lia|auto]. }
    eexists rows, _, (repeat 0 6), _, 0. split; [assumption|]. split.
    { apply Hrows. exists vb, vc'. exact (conj (trace_row_eq vb vc') (conj Hb Hc)). }
    split; [reflexivity|]. clear Htr Hrows. rewrite !elem_of_cons. unfold event_tuple, receive_byte. simpl.
    pose proof (byte_msb vb Hb) as Hmsb.
    destruct op; unfold event_ok in Hok; simpl in Hok; try (now destruct Hop); destruct Hok as (_ & ? & Ha);
      destruct Hvc as [->|?]; try discriminate; subst; rewrite ?Hmsb; auto 8.
Qed.

Lemma elem_of_range_trace va bits : RangeChip.mkRange va bits ∈ RangeChip.trace <->
  0 <= bits <= 16 /\ fits bits va.
Proof.
  unfold RangeChip.trace, fits. rewrite elem_of_cons, list_elem_of_bind. split.
  - intros [[= -> ->]|(n & (x & [= -> ->]%list_elem_of_singleton & Hx)%list_elem_of_bind & Hn)];
      [lia|].
    rewrite elem_of_seqZ in Hx, Hn. rewrite Z.shiftl_1_l in Hx. lia.
  - intros [Hn Hx]. right. exists bits. rewrite list_elem_of_bind, elem_of_seqZ.
    split; [|lia]. exists va. rewrite elem_of_seqZ, Z.shiftl_1_l. split; [now left|lia].
Qed.

Lemma range_receives_iff t : range_receives t <->
  exists e, ev_opcode e = ByteOpcode.Range /\ event_ok e /\ t = event_tuple e.
Proof.
  unfold range_receives, event_ok, event_tuple. split.
  - intros ([va bits] & mult & m & Hrow%elem_of_range_trace & E%list_elem_of_singleton).
    injection E as -> ->. exists (mkByteLookupEvent ByteOpcode.Range va bits 0). simpl. tauto.
  - intros ([op va bits vc] & Hop & Hok & ->). simpl in *. subst op. destruct Hok as (? & ? & ->).
    exists (RangeChip.mkRange va bits), 0, 0. rewrite elem_of_range_trace.
    split; [tauto|now left].
Qed.

(** The two tables together hold exactly the tuples of the valid events. *)
Lemma tables_iff t : byte_receives t \/ range_receives t <->
  exists e, event_ok e /\ t = event_tuple e.
Proof.
  rewrite byte_receives_iff, range_receives_iff. split.
  - intros [(e & _ & ?)|(e & _ & ?)]; eauto.
  - intros (e & ? & ?). destruct (decide (ev_opcode e = ByteOpcode.Range)); eauto.
Qed.

Section Sat.
Context `{AirBuilder}.

Lemma answered_iff i : answered i <->
  multiplicity i ≐ 0 \/ exists e, event_ok e /\ Forall2 feq (values i) (event_tuple e).
Proof.
  unfold answered. setoid_rewrite tables_iff. split; (intros [?|Ht]; [now left|right]).
  - destruct Ht as (t & (e & ? & ->) & ?). eauto.
  - destruct Ht as (e & ? & ?). eauto.
Qed.

Lemma sat_nil : sat [] <-> True.
Proof. split; [done|constructor]. Qed.
Lemma sat_cons x cs : sat (x :: cs) <-> sat_call x /\ sat cs.
Proof. apply Forall_cons_iff. Qed.
Lemma sat_app cs cs' : sat (cs ++ cs') <-> sat cs /\ sat cs'.
Proof. apply Forall_app. Qed.
Lemma sat_assert k : sat_call (Assert k) <-> holds k.
Proof. reflexivity. Qed.

Lemma one_not_zero : 1 ≭ 0.
Proof. intros E. pose proof order_large. apply feq_small in E; lia. Qed.

(** A byte send with multiplicity one determines an event of the tables. *)
Lemma sat_send_byte op x y z m : sat_call (send_byte op x y z m) -> m ≐ 1 ->
  exists e, event_ok e /\ op ≐ as_field (ev_opcode e) /\ x ≐ ev_a e /\ y ≐ ev_b e /\ z ≐ ev_c e.
Proof.
  intros Hs Hm. specialize (Hs eq_refl). apply answered_iff in Hs as [E|(e & Hok & F)].
  - simpl in E. rewrite Hm in E. now destruct one_not_zero.
  - exists e. unfold event_tuple in F. simpl in F. decompose_Forall_hyps. auto.
Qed.

Lemma as_field_inj o o' : as_field o ≐ as_field o' -> o = o'.
Proof.
  pose proof order_large. intros E. apply feq_small in E; destruct o, o'; simpl in *; congruence || lia.
Qed.

Lemma sat_send_op o x y z m : sat_call (send_byte (as_field o) x y z m) -> m ≐ 1 ->
  exists e, event_ok e /\ ev_opcode e = o /\ x ≐ ev_a e /\ y ≐ ev_b e /\ z ≐ ev_c e.
Proof.
  intros Hs Hm. destruct (sat_send_byte _ _ _ _ _ Hs Hm) as (e & ? & E & ?).
  apply as_field_inj in E. eauto.
Qed.

(** Range checks: the element is a canonical integer of that many bits. *)
Lemma sat_range n x bits z m : sat_call (send_byte (as_field ByteOpcode.Range) x bits z m) ->
  m ≐ 1 -> bits ≐ n -> 0 <= n <= 16 -> exists x', fits n x' /\ x ≐ x'.
Proof.
  intros Hs Hm Hn Hb. destruct (sat_send_op _ _ _ _ _ Hs Hm) as (e & Hok & Ho & Hx & Hy & _).
  unfold event_ok in Hok. rewrite Ho in Hok. destruct Hok as (? & ? & _).
  rewrite Hn in Hy. pose proof order_large. apply feq_small in Hy; [|lia]. subst n. eauto.
Qed.

(** A send whose tuple is a valid event is answered, whatever its multiplicity;
    so is any send of multiplicity zero. *)
Lemma sat_send_event e op x y z m : event_ok e ->
  op ≐ as_field (ev_opcode e) -> x ≐ ev_a e -> y ≐ ev_b e -> z ≐ ev_c e ->
  sat_call (send_byte op x y z m).
Proof.
  intros ????? _. apply answered_iff. right. exists e. split; [assumption|].
  repeat constructor; assumption.
Qed.

Lemma sat_send_zero op x y z : sat_call (send_byte op x y z 0).
Proof. intros _. now left. Qed.
End Sat.

(** ** The lookup bus

    The sum of the multiplicities with which a tuple is sent (received), as
    field elements.  A balanced bus is one where the two sums agree for every
    tuple, which is what the lookup argument of the proof system checks. *)
Section Bus.
Context `{PrimeField}.

#[global] Instance matches_dec (i : AirInteraction) t : Decision (Forall2 feq (values i) t).
Proof. apply _. Defined.

Definition total (l : list AirInteraction) (t : list Z) : Z :=
  foldr (fun i s => if decide (Forall2 feq (values i) t) then multiplicity i + s else s) 0 l.
Definition balanced (sends receives : list AirInteraction) : Prop :=
  forall t, total sends t ≐ total receives t.
Definition boolean_mult (i : AirInteraction) : Prop := multiplicity i ≐ 0 \/ multiplicity i ≐ 1.

Lemma total_boolean l t : Forall boolean_mult l -> exists n, 0 <= n <= Z.of_nat (length l) /\
  total l t ≐ n /\
  forall i, i ∈ l -> Forall2 feq (values i) t -> multiplicity i ≐ 1 -> 1 <= n.
Proof.
  induction 1 as [|i l Hi _ (n & Hn & En & Hin)].
  - exists 0. split; [simpl; lia|]. split; [reflexivity|]. intros i Hi. now apply elem_of_nil in Hi.
  - simpl total. simpl length. case_decide.
    + exists ((if decide (multiplicity i ≐ 1) then 1 else 0) + n). split; [case_decide; lia|]. split.
      * rewrite En. case_decide as D; [now rewrite D|].
        destruct Hi as [E|E]; [now rewrite E|contradiction].
      * intros j [->|Hj]%elem_of_cons Hm Hb; [rewrite decide_True by assumption|case_decide];
          try specialize (Hin j Hj Hm Hb); lia.
    + exists n. split; [lia|]. split; [assumption|]. intros j [->|Hj]%elem_of_cons Hm Hb; eauto.
      contradiction.
Qed.

Lemma total_nonzero l t : total l t ≭ 0 -> exists i, i ∈ l /\ Forall2 feq (values i) t.
Proof.
  induction l as [|i l IH]; simpl total; intros Ht; [now destruct Ht|].
  case_decide.
  - exists i. split; [now left|assumption].
  - destruct (IH Ht) as (j & ? & ?). exists j. split; [now right|assumption].
Qed.

Lemma lookups_answered (sends receives : list AirInteraction) :
  Forall boolean_mult sends ->
  Z.of_nat (length sends) < order ->
  Forall (fun i => byte_receives (values i) \/ range_receives (values i)) receives ->
  balanced sends receives ->
  Forall answered sends.
Proof.
  intros Hb Hlen Hrec Hbal. apply list.Forall_forall. intros i Hi.
  rewrite list.Forall_forall in Hb. destruct (Hb i Hi) as [E|E]; [now left|right].
  rewrite <- list.Forall_forall in Hb.
  destruct (total_boolean sends (values i) Hb) as (n & Hn & En & Hin).
  specialize (Hin i Hi (reflexivity _) E).
  destruct (total_nonzero receives (values i)) as (j & Hj & Hmatch).
  { rewrite <- (Hbal (values i)), En. intros E0. apply feq_small in E0; lia. }
  exists (values j). rewrite list.Forall_forall in Hrec. split; [now apply Hrec|].
  now symmetry.
Qed.

(** What the two chips receive, for any multiplicity columns: [None] is a panic
    of the table or of [eval]. *)
Definition table_calls (byte_mults : nat -> list Z) (range_mults : nat -> Z) : option (list call) :=
  rows ← ByteChip.trace;
  byte ← mapM (fun '(i, row) => ByteChip.eval row (byte_mults i)) (imap pair rows);
  Some (concat byte ++ concat (imap (fun i row => RangeChip.eval row (range_mults i)) RangeChip.trace)).
Definition received (cs : list call) : list AirInteraction :=
  omap (fun c => match c with Receive i => Some i | _ => None end) cs.

Lemma byte_eval_total row mults : exists calls, ByteChip.eval row mults = Some calls /\
  forall c, c ∈ calls -> exists t m, c = Receive (mkInteraction t m InteractionKind.Byte).
Proof.
  eexists. split; [reflexivity|]. intros c. rewrite !elem_of_cons, elem_of_nil.
  intros [->|[->|[->|[->|[->|[->|[]]]]]]]; unfold receive_byte; eauto.
Qed.

Lemma table_calls_received byte_mults range_mults : exists calls, table_calls byte_mults range_mults = Some calls /\
  Forall (fun i => byte_receives (values i) \/ range_receives (values i)) (received calls).
Proof.
  unfold table_calls. destruct byte_trace_total as (rows & Htr & _). rewrite Htr. cbn [mbind option_bind].
  destruct (mapM _ (imap pair rows)) as [byte|] eqn:Hb.
  2: { apply mapM_None, list.Exists_exists in Hb as ([k row] & _ & E). now destruct (byte_eval_total row (byte_mults k)) as (? & E' & _); rewrite E' in E. }
  eexists. split; [reflexivity|]. apply list.Forall_forall. intros i (c & Hc & E)%list_elem_of_omap.
  destruct c as [|?|i']; [discriminate E..|]. injection E as ->. apply elem_of_app in Hc as [Hc|Hc].
  - left. apply list_elem_of_In, in_concat in Hc as (calls & Hcalls & Hi%list_elem_of_In).
    apply list_elem_of_In, list_elem_of_lookup_1 in Hcalls as [n Hn]. apply mapM_Some in Hb.
    destruct (Forall2_lookup_r _ _ _ _ _ Hb Hn) as ([k row] & Hrow%list_elem_of_lookup_2 & E).
    apply elem_of_lookup_imap in Hrow as (k' & row' & [= -> ->] & Hrow%list_elem_of_lookup_2).
    destruct (byte_eval_total row' (byte_mults k')) as (calls' & E' & Hall).
    rewrite E in E'. injection E' as <-. destruct (Hall _ Hi) as (t & m & [= ->]).
    exists rows, row', (byte_mults k'), calls, m. auto.
  - right. apply list_elem_of_In, in_concat in Hc as (calls & Hcalls & Hi%list_elem_of_In).
    apply list_elem_of_In, elem_of_lookup_imap in Hcalls as (k & row & -> & Hrow%list_elem_of_lookup_2).
    exists row, (range_mults k), (range_mults k). split; [done|].
    apply list_elem_of_singleton in Hi as [= ->]. now left.
Qed.

(** C21. The byte bus computes.  The byte and range tables and their [eval]
    are built without a panic, and whatever their multiplicity columns, when
    the byte sends of a shard, of boolean multiplicity and fewer than the order
    of the field, balance with what the rows of the two tables receive, every
    send of nonzero multiplicity is a result of its operation: its four
    elements are an opcode with [a] the AND, OR or XOR of two bytes [b] and [c],
    the truth value of [b < c], the highest bit of a byte [b], 0 next to two
    bytes, or a number [a] of at most [b <= 16] bits. *)
Theorem balanced_bus_computes byte_mults range_mults : exists calls,
  table_calls byte_mults range_mults = Some calls /\
  forall sends, Forall boolean_mult sends -> Z.of_nat (length sends) < order -> balanced sends (received calls) ->
  forall i, i ∈ sends -> multiplicity i ≭ 0 ->
  exists op a b c, Forall2 feq (values i) [as_field op; a; b; c] /\
    match op with
    | ByteOpcode.AND => is_u8 b /\ is_u8 c /\ a = Z.land b c
    | ByteOpcode.OR => is_u8 b /\ is_u8 c /\ a = Z.lor b c
    | ByteOpcode.XOR => is_u8 b /\ is_u8 c /\ a = Z.lxor b c
    | ByteOpcode.U8Range => is_u8 b /\ is_u8 c /\ a = 0
    | ByteOpcode.LTU => is_u8 b /\ is_u8 c /\ a = from_bool (b <? c)
    | ByteOpcode.MSB => is_u8 b /\ c = 0 /\ a = b / 2 ^ 7
    | ByteOpcode.Range => 0 <= b <= 16 /\ fits b a /\ c = 0
    end.
Proof.
  destruct (table_calls_received byte_mults range_mults) as (calls & Hcalls & Hrec). exists calls. split; [done|].
  intros sends Hb Hlen Hbal i Hi Hm. pose proof (lookups_answered _ _ Hb Hlen Hrec Hbal) as A.
  clear Hcalls Hrec Hbal. rewrite list.Forall_forall in A.
  destruct (A i Hi) as [?|(t & (e & He & ->)%tables_iff & Hv)]; [contradiction|].
  destruct e as [op va vb vc]. exists op, va, vb, vc. split; [exact Hv|exact He].
Qed.
End Bus.

(** ** The trace columns count the lookups of a record *)
Section GenerateTrace.

Lemma length_pairs (k : nat) :
  length (x ← seqZ 0 (Z.of_nat k); y ← seqZ 0 256; [(x, y)]) = (k * 256)%nat.
Proof.
  induction k as [|k IH]; [reflexivity|].
  rewrite Nat2Z.inj_succ, <- Z.add_1_r, seqZ_app, bind_app, length_app, IH by lia.
  rewrite (seqZ_cons _ 1), bind_cons, length_app, bind_singleton, length_fmap by lia.
  simpl. lia.
Qed.

Lemma pairs_lookup vb vc : is_u8 vb -> is_u8 vc ->
  (x ← seqZ 0 256; y ← seqZ 0 256; [(x, y)]) !! Z.to_nat (256 * vb + vc) = Some (vb, vc).
Proof.
  unfold fits. intros Hb Hc.
  transitivity ((y ← seqZ 0 256; [(vb, y)]) !! Z.to_nat vc).
  - rewrite <- (bind_lookup (fun x => y ← seqZ 0 256; [(x, y)]) (seqZ 0 256) (Z.to_nat vb) vb).
    + f_equal. rewrite take_seqZ, length_pairs by lia. lia.
    + rewrite lookup_seqZ_lt by lia. f_equal. lia.
    + rewrite bind_singleton, length_fmap, length_seqZ. lia.
  - rewrite bind_singleton, list_lookup_fmap, lookup_seqZ_lt by lia. simpl. do 2 f_equal. lia.
Qed.

Lemma byte_row_lookup rows vb vc : ByteChip.trace = Some rows -> is_u8 vb -> is_u8 vc ->
  rows !! Z.to_nat (256 * vb + vc) = ByteChip.trace_row vb vc.
Proof.
  rewrite byte_trace_eq. intros E Hb Hc. apply (inj Some) in E as <-.
  rewrite list_lookup_fmap, pairs_lookup by assumption. reflexivity.
Qed.

Lemma length_range_rows (k : nat) :
  length (n ← seqZ 0 (Z.of_nat k); x ← seqZ 0 (1 ≪ n); [RangeChip.mkRange x n]) = (2 ^ k - 1)%nat.
Proof.
  induction k as [|k IH]; [reflexivity|].
  rewrite Nat2Z.inj_succ, <- Z.add_1_r, seqZ_app, bind_app, length_app, IH by lia.
  rewrite (seqZ_cons _ 1), bind_cons, length_app, bind_singleton, length_fmap, length_seqZ by lia.
  simpl. rewrite Z.shiftl_1_l, Z.add_0_l, to_nat_pow2 by lia. rewrite Nat2Z.id, Nat.add_0_r.
  pose proof (Nat.pow_nonzero 2 k).  lia.
Qed.

Lemma range_row_lookup va bits : 0 <= bits <= 16 -> fits bits va ->
  RangeChip.trace !! Z.to_nat (va + (1 ≪ bits)) = Some (RangeChip.mkRange va bits).
Proof.
  unfold fits. intros Hn Ha. rewrite Z.shiftl_1_l. unfold RangeChip.trace.
  replace (Z.to_nat (va + 2 ^ bits)) with (S ((2 ^ Z.to_nat bits - 1) + Z.to_nat va)%nat).
  2: { rewrite Z2Nat.inj_add, to_nat_pow2 by lia. 
       pose proof (Nat.pow_nonzero 2 (Z.to_nat bits)). lia. }
  rewrite <- length_range_rows, <- (take_seqZ (Z.to_nat bits) 0 17) by lia.
  rewrite lookup_cons, (bind_lookup _ _ _ bits).
  - rewrite bind_singleton, list_lookup_fmap, lookup_seqZ_lt; [simpl; do 2 f_equal; lia|].
    rewrite Z.shiftl_1_l. lia.
  - rewrite lookup_seqZ_lt by lia. f_equal. lia.
  - rewrite bind_singleton, length_fmap, length_seqZ, Z.shiftl_1_l. lia.
Qed.

Definition lookup_count (byte_lookups : list (ByteLookupEvent * Z)) (e : ByteLookupEvent) : Z :=
  foldl (fun m '(lookup, mult) => if decide (lookup = e) then m + mult else m) 0 byte_lookups.

Lemma event_row_eq e : event_ok e -> ev_opcode e <> ByteOpcode.Range ->
  is_u8 (ev_b e) /\ is_u8 (ev_c e) /\ ByteChip.event_row e = 256 * ev_b e + ev_c e.
Proof.
  intros Hok Hop.
  assert (is_u8 (ev_b e) /\ is_u8 (ev_c e)) as [Hb Hc].
  { unfold event_ok in Hok. destruct (ev_opcode e); try tauto; unfold fits in *; lia. }
  split; [assumption|]. split; [assumption|]. unfold ByteChip.event_row.
  rewrite Z.shiftl_mul_pow2 by lia. unfold_ints. lia_mod.
Qed.

(** Valid events of one opcode are determined by the row they are counted in. *)
Lemma byte_row_inj e e' : event_ok e -> event_ok e' -> ev_opcode e = ev_opcode e' ->
  ev_opcode e <> ByteOpcode.Range -> ByteChip.event_row e = ByteChip.event_row e' -> e = e'.
Proof.
  intros Hok Hok' Hop Hr Hrow.
  destruct (event_row_eq e) as (Hb & Hc & E); try assumption.
  destruct (event_row_eq e') as (Hb' & Hc' & E'); try congruence.
  rewrite E, E' in Hrow. unfold fits in *.
  assert (ev_b e = ev_b e' /\ ev_c e = ev_c e') as [Eb Ec] by lia.
  destruct e as [op va vb vc], e' as [op' va' vb' vc']. simpl in *. subst.
  unfold event_ok in *. simpl in *. destruct op'; try contradiction; f_equal; intuition congruence.
Qed.

Lemma range_row_inj e e' : event_ok e -> event_ok e' -> ev_opcode e = ByteOpcode.Range ->
  ev_opcode e' = ByteOpcode.Range -> RangeChip.event_row e = RangeChip.event_row e' -> e = e'.
Proof.
  destruct e as [op va vb vc], e' as [op' va' vb' vc'].
  unfold event_ok, RangeChip.event_row, fits. simpl. intros Hok Hok' -> ->.
  destruct Hok as (Hb & Ha & ->), Hok' as (Hb' & Ha' & ->).
  rewrite !Z.shiftl_1_l. intros E.
  assert (vb = vb').
  { destruct (Z.lt_trichotomy vb vb') as [L|[L|L]]; [|assumption|].
    - pose proof (Z.pow_le_mono_r 2 (vb + 1) vb'). rewrite Z.pow_add_r in * by lia. lia.
    - pose proof (Z.pow_le_mono_r 2 (vb' + 1) vb). rewrite Z.pow_add_r in * by lia. lia. }
  subst. f_equal. lia.
Qed.

Lemma foldl_count_ext {A} (f g : Z -> A -> Z) (l : list A) :
  Forall (fun x => forall m, f m x = g m x) l -> forall m, foldl f m l = foldl g m l.
Proof. induction 1 as [|x l Hx _ IH]; intros m; [reflexivity|]. simpl. now rewrite Hx, IH. Qed.

Lemma byte_multiplicity lookups e : Forall (fun l => event_ok l.1) lookups ->
  event_ok e -> ev_opcode e <> ByteOpcode.Range ->
  ByteChip.multiplicity_of lookups (ByteChip.event_row e) (ByteOpcode.as_u8 (ev_opcode e)) =
  lookup_count lookups e.
Proof.
  intros Hl He Hop. apply foldl_count_ext. revert Hl. apply Forall_impl.
  intros [l n] Hok m. simpl in Hok.
  destruct (decide (l = e)) as [->|Hne].
  - rewrite decide_False by assumption. now rewrite !Z.eqb_refl.
  - case_decide; [reflexivity|]. destruct (Z.eqb_spec (ByteChip.event_row l) (ByteChip.event_row e));
      [|reflexivity].
    destruct (Z.eqb_spec (ByteOpcode.as_u8 (ev_opcode l)) (ByteOpcode.as_u8 (ev_opcode e))) as [E|];
      [|reflexivity].
    destruct Hne. apply byte_row_inj; try assumption.
    destruct (ev_opcode l), (ev_opcode e); simpl in E; try lia; reflexivity.
Qed.

Lemma range_multiplicity lookups e : Forall (fun l => event_ok l.1) lookups ->
  event_ok e -> ev_opcode e = ByteOpcode.Range ->
  RangeChip.generate_row lookups (RangeChip.event_row e) = lookup_count lookups e.
Proof.
  intros Hl He Hop. apply foldl_count_ext. revert Hl. apply Forall_impl.
  intros [l n] Hok m. simpl in Hok.
  destruct (decide (l = e)) as [->|Hne].
  - rewrite bool_decide_true by assumption. simpl. now rewrite Z.eqb_refl.
  - case_bool_decide; [|reflexivity]. simpl.
    destruct (Z.eqb_spec (RangeChip.event_row l) (RangeChip.event_row e)); [|reflexivity].
    destruct Hne. now apply range_row_inj.
Qed.

(** C22. Completeness of the lookup tables.  For a record whose byte lookups
    are valid events, the row in which [generate_trace] of the byte chip (of
    the range chip, for range checks) counts an event [e] exists in the
    preprocessed table (which is built without a panic), and the chip receives the tuple of [e] there with
    exactly the recorded number of lookups of [e] as its multiplicity. *)
Theorem generate_trace_counts (lookups : list (ByteLookupEvent * Z)) (e : ByteLookupEvent) :
  Forall (fun l => event_ok l.1) lookups -> event_ok e ->
  exists rows, ByteChip.trace = Some rows /\
  if decide (ev_opcode e = ByteOpcode.Range)
  then exists row, RangeChip.trace !! Z.to_nat (RangeChip.event_row e) = Some row /\
    RangeChip.eval row (RangeChip.generate_row lookups (RangeChip.event_row e)) =
      [Receive (mkInteraction (event_tuple e) (lookup_count lookups e) InteractionKind.Byte)]
  else exists row calls, rows !! Z.to_nat (ByteChip.event_row e) = Some row /\
    ByteChip.eval row (ByteChip.generate_row lookups (ByteChip.event_row e)) = Some calls /\
    calls !! Z.to_nat (ByteOpcode.as_u8 (ev_opcode e)) =
      Some (Receive (mkInteraction (event_tuple e) (lookup_count lookups e) InteractionKind.Byte)).
Proof.
  intros Hl He. destruct byte_trace_total as (rows & Htr & _).
  exists rows. split; [exact Htr|]. case_decide as Hop.
  - rewrite (range_multiplicity lookups e) by assumption.
    destruct e as [op va bits vc]. simpl in Hop. subst op. destruct He as (? & ? & ?). simpl in *. subst vc.
    eexists. split; [now apply range_row_lookup|reflexivity].
  - pose proof (byte_multiplicity lookups e Hl He Hop) as Hm.
    destruct (event_row_eq e He Hop) as (Hb & Hc & Erow).
    eexists _, _. split; [|split].
    + rewrite Erow, (byte_row_lookup rows) by assumption. apply trace_row_eq.
    + reflexivity.
    + clear Htr. destruct e as [op va vb vc]. unfold event_ok in He. simpl in *.
      destruct op; try contradiction; simpl in *; rewrite Hm; destruct He as (? & ? & ->);
        try subst vc; rewrite ?byte_msb by assumption; reflexivity.
Qed.
End GenerateTrace.

(** ** Witnesses over the KoalaBear field *)

Definition sample_lookups : list (ByteLookupEvent * Z) :=
  [(mkByteLookupEvent ByteOpcode.XOR 6 5 3, 4); (mkByteLookupEvent ByteOpcode.MSB 1 200 0, 1);
   (mkByteLookupEvent ByteOpcode.Range 77 7 0, 2)].

Lemma sample_lookups_ok : Forall (fun l => event_ok l.1) sample_lookups.
Proof. repeat constructor; simpl; lia. Qed.

Lemma generate_trace_counts_witness :
  exists rows, ByteChip.trace = Some rows /\ exists row calls,
    rows !! 1283%nat = Some row /\
    ByteChip.eval row (ByteChip.generate_row sample_lookups 1283) = Some calls /\
    calls !! 2%nat = Some (receive_byte 2 6 5 3 4).
Proof.
  refine (generate_trace_counts sample_lookups (mkByteLookupEvent ByteOpcode.XOR 6 5 3)
    sample_lookups_ok _).
  repeat split; now vm_compute.
Defined.

(** Two checks that 77 has 7 bits, counted in the row of the range table. *)
Definition sample_send : AirInteraction := mkInteraction [6; 77; 7; 0] 1 InteractionKind.Byte.
Definition sample_mults (row : nat) : Z := if (row =? 205)%nat then 2 else 0.

Lemma total_interactions_app l l' t : total (l ++ l') t = total l t + total l' t.
Proof. induction l as [|i l IH]; [done|]. simpl. case_decide; lia. Qed.
Lemma total_zero l t : (forall i, i ∈ l -> multiplicity i = 0) -> total l t = 0.
Proof.
  induction l as [|i l IH]; intros Hl; [done|]. simpl. rewrite IH by (intros j Hj; apply Hl; now right).
  case_decide; [|done]. now rewrite Hl by now left.
Qed.
Lemma received_app cs cs' : received (cs ++ cs') = received cs ++ received cs'.
Proof. apply omap_app. Qed.

(** A table of one receive per row, all but one with multiplicity 0. *)
Lemma total_one_row (rows : list RangeChip.RangePreprocessedCols) row t : rows !! 205%nat = Some row ->
  total (received (concat (imap (fun i row => RangeChip.eval row (sample_mults i)) rows))) t =
  total (received (RangeChip.eval row 2)) t.
Proof.
  intros H. assert (forall rs n, (n + length rs <= 205 \/ 205 < n)%nat ->
    total (received (concat (imap (fun i row => RangeChip.eval row (sample_mults (n + i))) rs))) t = 0) as Z0.
  { intros rs n Hn. apply total_zero. intros i (c & Hc & E)%list_elem_of_omap.
    apply list_elem_of_In, in_concat in Hc as (calls & Hcalls & Hi%list_elem_of_In).
    apply list_elem_of_In, elem_of_lookup_imap in Hcalls as (k & r & -> & Hk%lookup_lt_Some).
    apply list_elem_of_singleton in Hi as ->. injection E as <-. simpl. unfold sample_mults.
    destruct (Nat.eqb_spec (n + k) 205); [lia|done]. }
  pose proof (lookup_lt_Some _ _ _ H). rewrite <- (take_drop_middle rows 205 row H), imap_app, imap_cons.
  rewrite concat_app, concat_cons, !received_app, !total_interactions_app, length_take, Nat.min_l by lia.
  pose proof (Z0 (take 205 rows) 0%nat ltac:(rewrite length_take; lia)) as Z1. cbn [Nat.add] in Z1. rewrite Z1.
  match goal with |- context [imap ?f (drop 206 rows)] =>
    rewrite (imap_ext f (fun i row => RangeChip.eval row (sample_mults (206 + i)))) by
      (intros; unfold compose; f_equal; f_equal; lia)
  end.
  rewrite (Z0 (drop 206 rows) 206%nat) by lia. rewrite Nat.add_0_r. change (sample_mults 205) with 2. lia.
Qed.

Lemma sample_balanced calls : table_calls (fun _ => []) sample_mults = Some calls ->
  balanced [sample_send; sample_send] (received calls).
Proof.
  unfold table_calls. destruct byte_trace_total as (rows & -> & _). cbn [mbind option_bind].
  destruct (mapM _ (imap pair rows)) as [byte|] eqn:Hb; [|discriminate]. cbn [mbind option_bind].
  intros E. apply (inj Some) in E. subst calls. intros t. rewrite received_app, total_interactions_app.
  pose proof (range_row_lookup 77 7 ltac:(lia) ltac:(unfold fits; lia)) as L.
  change (Z.to_nat (77 + (1 ≪ 7))) with 205%nat in L. rewrite (total_one_row _ _ t L). clear L.
  rewrite (total_zero (received (concat byte))).
  - simpl. repeat case_decide; reflexivity || contradiction.
  - intros i (c & Hc & E)%list_elem_of_omap.
    apply list_elem_of_In, in_concat in Hc as (calls & Hcalls & Hi%list_elem_of_In).
    apply list_elem_of_In, list_elem_of_lookup_1 in Hcalls as [n Hn]. apply mapM_Some in Hb.
    destruct (Forall2_lookup_r _ _ _ _ _ Hb Hn) as ([k row] & _ & Ec). clear Hb Hn.
    injection Ec as <-. rewrite !elem_of_cons, elem_of_nil in Hi.
    destruct Hi as [->|[->|[->|[->|[->|[->|[]]]]]]]; injection E as <-; reflexivity.
Qed.

Lemma balanced_bus_computes_witness : exists calls,
  table_calls (fun _ => []) sample_mults = Some calls /\
  balanced [sample_send; sample_send] (received calls) /\
  exists op a b c, Forall2 feq (values sample_send) [as_field op; a; b; c] /\ (op = ByteOpcode.Range -> fits b a).
Proof.
  destruct (balanced_bus_computes (fun _ => []) sample_mults) as (calls & Hcalls & H).
  exists calls. split; [exact Hcalls|]. pose proof (sample_balanced calls Hcalls) as B. split; [exact B|].
  destruct (H [sample_send; sample_send]) with (i := sample_send) as (op & a & b & c & Hv & Ho).
  - repeat (apply List.Forall_cons; [now right|]). constructor.
  - reflexivity.
  - exact B.
  - now left.
  - exact one_not_zero.
  - exists op, a, b, c. split; [exact Hv|]. intros ->. apply Ho.
Defined.
