(* ===== verification/WordAir.v ===== *)
(** * WordAir: constraints on words, carry chains and trace completeness

    The helpers of [core/machine/src/air/word.rs] (equality of words, range
    checks of slices), the limb arithmetic shared by the operations that add
    with carries, and [complete]: what the columns and the lookup events
    written by a [populate] owe to the [eval] they are written for. *)
From Stdlib Require Import ZArith Lia Bool.
From stdpp Require Import base numbers option list.
From S2P Require Import Prelude Air ByteTable.
Import ByteOpcode (as_field).

Definition assert_word_eq (left right : Word) : list assertion :=
  zip_with AssertEq (word_limbs left) (word_limbs right).
Definition assert_word_zero (word : Word) : list assertion :=
  AssertZero <$> word_limbs word.

Definition index_word_array (array : list Word) (index_bitmap : list Z) : Word :=
  Word_of_fn (fun i => index_array ((fun word => word.[i]) <$> array) index_bitmap).
Definition select_word (condition : Z) (x y : Word) : Word :=
  Word_of_fn (fun i => if_else condition x.[i] y.[i]).

Fixpoint slice_range_check_u8 (input : list Z) (mult : Z) : list call :=
  match input with
  | x :: y :: input =>
      send_byte (ByteOpcode.as_u8 ByteOpcode.U8Range) 0 x y mult :: slice_range_check_u8 input mult
  | [x] => [send_byte (ByteOpcode.as_u8 ByteOpcode.U8Range) 0 x 0 mult]
  | [] => []
  end.
Definition slice_range_check_u16 (input : list Z) (mult : Z) : list call :=
  (fun limb => send_byte (ByteOpcode.as_u8 ByteOpcode.Range) limb 16 0 mult) <$> input.

(** The carries of an addition in base [2^16]: [terms] are the sums of the
    limbs added at each position, [value] the limbs of the result. *)
Fixpoint carries `{PrimeField} (terms value : list Z) (carry : Z) : list Z :=
  match terms, value with
  | t :: terms, v :: value =>
      let carry := (t - v + carry) * finv (2 ^ 16) in
      carry :: carries terms value carry
  | _, _ => []
  end.

(** The integer of a list of 16-bit limbs, least significant first. *)
Definition limbs_value (ls : list Z) : Z := foldr (fun l acc => l + 2 ^ 16 * acc) 0 ls.

(** ** Completeness of a trace row *)

(** The byte lookups that are sent, those of multiplicity zero left out. *)
Definition byte_sends `{PrimeField} (cs : list call) : list AirInteraction :=
  omap (fun x => match x with
    | Send i => if decide (kind i = InteractionKind.Byte /\ multiplicity i ≭ 0) then Some i else None
    | _ => None end) cs.
Definition asserts (cs : list call) : list assertion :=
  omap (fun x => match x with Assert k => Some k | _ => None end) cs.

(** The recorded events are valid, they are the byte lookups that the [eval]
    sends (as multisets of tuples, each with multiplicity one), and every
    assertion of the [eval] holds. *)
Definition complete `{AirBuilder} (cs : list call) (record : list ByteLookupEvent) : Prop :=
  Forall holds (asserts cs) /\ Forall event_ok record /\
  exists record', record' ≡ₚ record /\
    Forall2 (fun i e => multiplicity i ≐ 1 /\ Forall2 feq (values i) (event_tuple e))
      (byte_sends cs) record'.

Section Lemmas.
Context `{AirBuilder}.

Lemma byte_sends_app cs cs' : byte_sends (cs ++ cs') = byte_sends cs ++ byte_sends cs'.
Proof. apply omap_app. Qed.
Lemma asserts_app cs cs' : asserts (cs ++ cs') = asserts cs ++ asserts cs'.
Proof. apply omap_app. Qed.

Lemma complete_nil : complete [] [].
Proof. repeat split; try constructor. exists []. split; constructor. Qed.

Lemma complete_app cs cs' r r' : complete cs r -> complete cs' r' -> complete (cs ++ cs') (r ++ r').
Proof.
  intros (Ha & Hr & p & Hp & Hs) (Ha' & Hr' & p' & Hp' & Hs').
  unfold complete. rewrite asserts_app, byte_sends_app, !Forall_app.
  repeat split; try assumption. exists (p ++ p'). split; [now rewrite Hp, Hp'|].
  now apply Forall2_app.
Qed.

Lemma complete_assert k cs r : holds k -> complete cs r -> complete (Assert k :: cs) r.
Proof. intros Hk (? & ?). split; [now constructor|assumption]. Qed.

Lemma complete_asserts ks cs r : Forall holds ks -> complete cs r -> complete (map Assert ks ++ cs) r.
Proof. intros Hk Hc. induction Hk; [assumption|]. now apply complete_assert. Qed.

Lemma complete_send op x y z m e cs r : event_ok e -> m ≐ 1 ->
  op ≐ as_field (ev_opcode e) -> x ≐ ev_a e -> y ≐ ev_b e -> z ≐ ev_c e ->
  complete cs r -> complete (send_byte op x y z m :: cs) (e :: r).
Proof.
  intros He Hm ???? (Ha & Hr & p & Hp & Hs). split; [assumption|].
  split; [now constructor|]. exists (e :: p). split; [now constructor|].
  unfold byte_sends. simpl. rewrite decide_True
    by (split; [reflexivity|]; simpl; rewrite Hm; apply one_not_zero).
  constructor; [|assumption]. split; [assumption|]. repeat constructor; assumption.
Qed.

Lemma complete_send_zero op x y z m cs r : m ≐ 0 ->
  complete cs r -> complete (send_byte op x y z m :: cs) r.
Proof.
  intros Hm (Ha & Hr & p & Hp & Hs). split; [assumption|]. split; [assumption|].
  exists p. split; [assumption|]. unfold byte_sends. simpl. now rewrite decide_False by tauto.
Qed.

(** Calls on the other buses do not concern the byte lookups. *)
Lemma complete_send_other i cs r : kind i <> InteractionKind.Byte -> complete cs r -> complete (Send i :: cs) r.
Proof.
  intros Hk (Ha & Hr & p & Hp & Hs). split; [assumption|]. split; [assumption|].
  exists p. split; [assumption|]. unfold byte_sends. simpl. now rewrite decide_False by tauto.
Qed.
Lemma complete_receive i cs r : complete cs r -> complete (Receive i :: cs) r.
Proof. intros (Ha & Hr & Hs). split; [assumption|]. split; [assumption|exact Hs]. Qed.

Lemma complete_perm cs r r' : r ≡ₚ r' -> complete cs r -> complete cs r'.
Proof.
  intros Hp (Ha & Hr & p & Hp' & Hs). split; [assumption|]. rewrite <- Hp.
  split; [assumption|]. exists p. split; [now rewrite Hp'|assumption].
Qed.

(** A complete row is satisfied. *)
Lemma complete_sat cs r : complete cs r -> sat cs.
Proof.
  intros (Ha & Hr & p & Hp & Hs). rewrite <- Hp in Hr. clear Hp.
  revert p Hr Hs. induction cs as [|[k|i|i] cs IH]; intros p Hr Hs; [constructor|..].
  - inversion_clear Ha. constructor; [assumption|eapply IH; eassumption].
  - unfold byte_sends in Hs. simpl in Hs. case_decide as E.
    + inversion Hs as [|? e ? p' [Hm He] Hs']; subst. inversion_clear Hr.
      constructor; [|eapply IH; eassumption]. intros _. apply answered_iff. right. eauto.
    + constructor; [|eapply IH; eassumption]. intros E'. left. destruct (decide (multiplicity i ≐ 0)); tauto.
  - constructor; [exact I|eapply IH; eassumption].
Qed.

Lemma sat_bind {A} (f : A -> list call) l : sat (l ≫= f) <-> forall x, x ∈ l -> sat (f x).
Proof.
  induction l as [|x l IH]; [split; [intros _ x Hx; now apply elem_of_nil in Hx|constructor]|].
  rewrite bind_cons, sat_app, IH. split.
  - intros [Hx Hl] y [->|Hy]%elem_of_cons; auto.
  - intros Hl. split; [|intros y Hy]; apply Hl, elem_of_cons; auto.
Qed.
Lemma sat_fmap {A} (f : A -> call) l x : sat (f <$> l) -> x ∈ l -> sat_call (f x).
Proof.
  intros Hs Hx. eapply list.Forall_forall; [exact Hs|]. now apply list_elem_of_fmap_2.
Qed.

(** Words equal limb by limb. *)
Lemma word_feq_limb w w' i : Forall2 feq (word_limbs w) (word_limbs w') -> w.[i] ≐ w'.[i].
Proof.
  unfold limb. intros F. revert i. induction F; intros [|i]; simpl; auto; reflexivity.
Qed.

Lemma word_feq_intro w w' : (forall i, w.[i] ≐ w'.[i]) -> Forall2 feq (word_limbs w) (word_limbs w').
Proof.
  intros Hi. pose proof (Hi 0%nat). pose proof (Hi 1%nat). pose proof (Hi 2%nat).
  pose proof (Hi 3%nat). repeat apply List.Forall2_cons; try apply List.Forall2_nil; assumption.
Qed.

(** ** Range checks *)

Lemma event_ok_range n x : 0 <= n <= 16 -> fits n x ->
  event_ok (mkByteLookupEvent ByteOpcode.Range x n 0).
Proof. intros Hn Hx. exact (conj Hn (conj Hx eq_refl)). Qed.

Lemma sat_slice_u16 l m : sat (slice_range_check_u16 l m) -> m ≐ 1 ->
  exists l', Forall is_u16 l' /\ Forall2 feq l l'.
Proof.
  intros Hs Hm. induction l as [|x l IH]; [exists []; auto|].
  apply sat_cons in Hs as [Hx Hs]. destruct (IH Hs) as (l' & ? & ?).
  destruct (sat_range 16 x 16 0 m Hx Hm) as (x' & ? & ?); [reflexivity|lia|].
  exists (x' :: l'). split; constructor; assumption.
Qed.

Lemma sat_slice_u8_pair x y m : sat (slice_range_check_u8 [x; y] m) -> m ≐ 1 ->
  exists x' y', is_u8 x' /\ is_u8 y' /\ x ≐ x' /\ y ≐ y'.
Proof.
  intros Hs Hm. apply sat_cons in Hs as [Hx _].
  destruct (sat_send_op ByteOpcode.U8Range 0 x y m Hx Hm) as (e & Hok & Ho & _ & ? & ?).
  unfold event_ok in Hok. rewrite Ho in Hok. exists (ev_b e), (ev_c e). tauto.
Qed.

Lemma fold_add_u16 l r :
  add_u16_range_checks r l = r ++ ((fun x => mkByteLookupEvent ByteOpcode.Range x 16 0) <$> l).
Proof.
  unfold add_u16_range_checks. revert r. induction l as [|x l IH]; intros r; simpl.
  - now rewrite app_nil_r.
  - rewrite IH. unfold add_u16_range_check, add_byte_lookup_event. now rewrite <- app_assoc.
Qed.

(** [slice_range_check_u16] is complete for the events of
    [add_u16_range_checks] on the limbs the columns hold. *)
Lemma complete_slice_u16 l l' m : Forall is_u16 l' -> Forall2 feq l l' -> m ≐ 1 ->
  complete (slice_range_check_u16 l m) (add_u16_range_checks [] l').
Proof.
  intros Hl Hf Hm. rewrite fold_add_u16, app_nil_l. revert Hl.
  induction Hf as [|x x' l l' Hx _ IH]; intros Hl; [apply complete_nil|].
  inversion_clear Hl. apply complete_send; try reflexivity; try assumption; [|now apply IH].
  apply event_ok_range; [lia|assumption].
Qed.

Lemma complete_slice_u8_pair x y x' y' m : is_u8 x' -> is_u8 y' -> x ≐ x' -> y ≐ y' -> m ≐ 1 ->
  complete (slice_range_check_u8 [x; y] m) (add_u8_range_checks [] [x'; y']).
Proof.
  intros H1 H2 Hx Hy Hm. apply complete_send; try reflexivity; try assumption; [|apply complete_nil].
  exact (conj H1 (conj H2 eq_refl)).
Qed.

(** ** Carry chains *)

Lemma base_not_zero : 2 ^ 16 ≭ 0.
Proof. intros E. pose proof order_large. apply feq_small in E; lia. Qed.

Lemma carry_step t v c c' : c' ≐ (t - v + c) * finv (2 ^ 16) -> 2 ^ 16 * c' + v ≐ t + c.
Proof.
  intros E. rewrite E, Z.mul_comm, <- Z.mul_assoc, (finv_mul _ base_not_zero).
  apply feq_exists. exists 0. lia.
Qed.

Lemma carry_value t v c k : t + c ≐ 2 ^ 16 * k + v -> (t - v + c) * finv (2 ^ 16) ≐ k.
Proof.
  intros E. replace (t - v + c) with (t + c - v) by lia. rewrite E.
  replace (2 ^ 16 * k + v - v) with (k * 2 ^ 16) by lia.
  rewrite <- Z.mul_assoc, (Z.mul_comm (2 ^ 16)), (finv_mul _ base_not_zero). now rewrite Z.mul_1_r.
Qed.

Definition small_carry (x : Z) : Prop := exists x', x ≐ x' /\ is_u8 x'.

(** Soundness: with carries that are bytes, a chain adds the limbs exactly. *)
Lemma carries_sound ts ts' vs vs' c c' :
  Forall2 (fun t t' => t ≐ t' /\ fits 20 t') ts ts' ->
  Forall2 (fun v v' => v ≐ v' /\ is_u16 v') vs vs' ->
  length ts = length vs -> c ≐ c' -> is_u8 c' ->
  Forall small_carry (carries ts vs c) ->
  exists k, limbs_value ts' + c' = limbs_value vs' + 2 ^ (16 * Z.of_nat (length vs)) * k.
Proof.
  intros Ht. revert vs vs' c c'. induction Ht as [|t t' ts ts' [Et Bt] _ IH];
    intros vs vs' c c' Hv Hlen Hc Bc Hs; inversion Hv as [|v v' vs0 vs0' [Ev Bv] Hv0]; subst;
    try discriminate; [exists c'; simpl; lia|].
  simpl in Hs. inversion_clear Hs as [|? ? (k & Ek & Bk) Hs0].
  assert (E : 2 ^ 16 * k + v' = t' + c').
  { pose proof order_large. apply feq_small; [|unfold fits in *; lia].
    rewrite <- Et, <- Ev, <- Hc. apply carry_step. now symmetry. }
  simpl in Hlen. injection Hlen as Hlen.
  destruct (IH vs0 vs0' _ k Hv0 Hlen Ek Bk Hs0) as [q Eq].
  exists q. simpl limbs_value. cbn [length]. rewrite Nat2Z.inj_succ.
  replace (16 * Z.succ (Z.of_nat (length vs0))) with (16 + 16 * Z.of_nat (length vs0)) by lia.
  rewrite Z.pow_add_r by lia. lia.
Qed.
End Lemmas.

(** Limbs of bounded integers. *)
Lemma limbs_value_bound l : Forall is_u16 l -> fits (16 * Z.of_nat (length l)) (limbs_value l).
Proof.
  unfold fits. induction 1 as [|x l Hx _ IH]; [simpl; lia|].
  cbn [length limbs_value foldr]. fold (limbs_value l).
  rewrite Nat2Z.inj_succ.
  replace (16 * Z.succ (Z.of_nat (length l))) with (16 + 16 * Z.of_nat (length l)) by lia.
  rewrite Z.pow_add_r by lia. unfold fits in Hx. lia.
Qed.

(** The carries over the integers, as the trace generation computes them. *)
Fixpoint int_carries (terms value : list Z) (carry : Z) : list Z :=
  match terms, value with
  | t :: terms, v :: value =>
      let carry := (t + carry - v) / 2 ^ 16 in carry :: int_carries terms value carry
  | _, _ => []
  end.

Section CarriesComplete.
Context `{PrimeField} (B : Z) (HB : 0 <= B).

#[global] Instance carries_proper :
  Proper (Forall2 feq ==> Forall2 feq ==> feq ==> Forall2 feq) carries.
Proof.
  intros ts ts' Ht. induction Ht as [|t t' ts ts' Et _ IH]; intros vs vs' Hv c c' Hc.
  - constructor.
  - destruct Hv as [|v v' vs vs' Ev Hv]; [constructor|]. simpl.
    assert (E : (t - v + c) * finv (2 ^ 16) ≐ (t' - v' + c') * finv (2 ^ 16))
      by now rewrite Et, Ev, Hc.
    constructor; [assumption|]. now apply IH.
Qed.

Lemma int_carries_bound ts vs c k :
  Forall (fun t => 0 <= t <= 2 ^ 16 * B + 2 ^ 16 - 1 - B) ts -> Forall is_u16 vs ->
  length ts = length vs -> 0 <= c <= B ->
  limbs_value ts + c = limbs_value vs + 2 ^ (16 * Z.of_nat (length vs)) * k ->
  Forall (fun x => 0 <= x <= B) (int_carries ts vs c) /\
  Forall2 feq (carries ts vs c) (int_carries ts vs c).
Proof.
  intros Ht Hv. revert ts c Ht. induction Hv as [|v vs Bv _ IH];
    intros [|t ts] c Ht Hlen Hc E; try discriminate; [split; constructor|].
  inversion_clear Ht as [|? ? Bt Ht0]. injection Hlen as Hlen.
  cbn [limbs_value foldr length] in E. fold (limbs_value ts) (limbs_value vs) in E.
  rewrite Nat2Z.inj_succ in E.
  replace (16 * Z.succ (Z.of_nat (length vs))) with (16 + 16 * Z.of_nat (length vs)) in E by lia.
  rewrite Z.pow_add_r in E by lia.
  simpl. set (q := (t + c - v) / 2 ^ 16).
  assert (Eq : t + c = v + 2 ^ 16 * q).
  { subst q. enough (E0 : (t + c - v) mod 2 ^ 16 = 0)
      by (pose proof (Z.div_mod (t + c - v) (2 ^ 16)); lia).
    apply Z.mod_divide; [lia|].
    exists (limbs_value vs + 2 ^ (16 * Z.of_nat (length vs)) * k - limbs_value ts). lia. }
  unfold fits in Bv. assert (Bq : 0 <= q <= B) by nia.
  destruct (IH ts q Ht0 Hlen Bq) as [IH1 IH2]; [nia|].
  assert (Ec : (t - v + c) * finv (2 ^ 16) ≐ q).
  { apply carry_value. apply feq_exists. exists 0. lia. }
  split; [constructor; assumption|]. constructor; [assumption|].
  now rewrite Ec.
Qed.
End CarriesComplete.

(** ** Adders: a carry chain with range-checked result limbs *)

Lemma limbs_of_u64 v : is_u64 v -> limbs_value (u64_to_u16_limbs v) = v.
Proof.
  intros (l0 & l1 & l2 & l3 & ? & ? & ? & ? & E)%Word_from_u64_split.
  change (u64_to_u16_limbs v) with (word_limbs (Word_from_u64 v)). subst v.
  rewrite Word_from_u64_limbs by assumption. simpl. lia.
Qed.

Lemma limbs_u16 v : Forall is_u16 (u64_to_u16_limbs v).
Proof. repeat apply List.Forall_cons; auto with ints. Qed.

Lemma limbs_of_u32 v : is_u32 v -> limbs_value (u32_to_u16_limbs v) = v.
Proof.
  intros Hv. unfold u32_to_u16_limbs. rewrite low_limb, limb_of_u64 by lia.
  simpl. unfold fits in Hv. lia_mod.
Qed.

Lemma limbs32_u16 v : Forall is_u16 (u32_to_u16_limbs v).
Proof. repeat apply List.Forall_cons; auto with ints. Qed.

Section Adder.
Context `{AirBuilder}.

(** The limbs [ls] hold an integer of [16 * length ls] bits. *)
Definition holds_value (ls : list Z) (v : Z) : Prop :=
  exists ls', Forall is_u16 ls' /\ Forall2 feq ls ls' /\ limbs_value ls' = v.

Lemma holds_value_word w v : holds_value (word_limbs w) v <-> w ∼ v.
Proof.
  split.
  - intros (ls & Hu & Hf & <-). destruct w. unfold word_limbs in Hf. simpl in Hf.
    apply Forall2_cons_inv_l in Hf as (l0 & ? & ? & Hf & ->).
    apply Forall2_cons_inv_l in Hf as (l1 & ? & ? & Hf & ->).
    apply Forall2_cons_inv_l in Hf as (l2 & ? & ? & Hf & ->).
    apply Forall2_cons_inv_l in Hf as (l3 & ? & ? & Hf & ->).
    apply Forall2_nil_inv_l in Hf as ->. decompose_Forall_hyps.
    match goal with |- _ ∼ ?v =>
      replace v with (l0 + 2 ^ 16 * l1 + 2 ^ 32 * l2 + 2 ^ 48 * l3) by (simpl; lia) end.
    now apply represents_intro.
  - intros [Hv Hf]. exists (u64_to_u16_limbs v). split; [apply limbs_u16|].
    split; [assumption|]. now apply limbs_of_u64.
Qed.

Lemma holds_value_u32 l0 l1 v : is_u32 v -> l0 ≐ u16 (Z.land v 0xFFFF) -> l1 ≐ u16 (v ≫ 16) ->
  holds_value [l0; l1] v.
Proof.
  intros Hv E0 E1. exists (u32_to_u16_limbs v). split; [apply limbs32_u16|].
  split; [repeat constructor; assumption|]. now apply limbs_of_u32.
Qed.

Lemma sat_when_bool r ls : sat (when_all r (AssertBool <$> ls)) -> r ≐ 1 -> Forall small_carry ls.
Proof.
  intros Hs Hr. induction ls as [|x ls IH]; [constructor|].
  apply sat_cons in Hs as [Hx Hs]. constructor; [|now apply IH].
  apply holds_when, holds_assert_bool in Hx; [|rewrite Hr; apply one_not_zero].
  destruct Hx as [E|E]; eexists; (split; [exact E|unfold fits; lia]).
Qed.

Lemma adder_sound r ts ts' vs c c' :
  Forall2 (fun t t' => t ≐ t' /\ fits 20 t') ts ts' -> length ts = length vs ->
  c ≐ c' -> is_u8 c' -> Forall small_carry (carries ts vs c) ->
  sat (slice_range_check_u16 vs r) -> r ≐ 1 ->
  holds_value vs ((limbs_value ts' + c') mod 2 ^ (16 * Z.of_nat (length vs))).
Proof.
  intros Ht Hlen Hc Bc Hs Hv Hr. destruct (sat_slice_u16 vs r Hv Hr) as (vs' & Hu & Hf).
  exists vs'. split; [assumption|]. split; [assumption|].
  destruct (carries_sound ts ts' vs vs' c c') as [k Ek]; try assumption.
  { clear - Hu Hf. induction Hf; inversion_clear Hu; constructor; auto. }
  rewrite Ek, Z.mul_comm, Z.mod_add by lia. symmetry.
  pose proof (limbs_value_bound vs' Hu) as B. rewrite <- (Forall2_length _ _ _ Hf) in B.
  now apply Z.mod_small.
Qed.

Lemma complete_when_bool r ls : r ≐ 1 -> Forall (fun x => x ≐ 0 \/ x ≐ 1) ls ->
  complete (when_all r (AssertBool <$> ls)) [].
Proof.
  intros Hr Hl. induction Hl as [|x ls Hx _ IH]; [apply complete_nil|].
  apply complete_assert; [|assumption]. apply holds_when. intros _. now apply holds_assert_bool.
Qed.

Lemma int_carries_ok B ts ts' vs vs' c c' :
  0 <= B -> Forall2 feq ts ts' -> Forall2 feq vs vs' -> c ≐ c' ->
  Forall (fun t => 0 <= t <= 2 ^ 16 * B + 2 ^ 16 - 1 - B) ts' -> Forall is_u16 vs' ->
  length ts = length vs -> 0 <= c' <= B ->
  limbs_value vs' = (limbs_value ts' + c') mod 2 ^ (16 * Z.of_nat (length vs)) ->
  Forall (fun x => 0 <= x <= B) (int_carries ts' vs' c') /\
  Forall2 feq (carries ts vs c) (int_carries ts' vs' c').
Proof.
  intros HB Hts Hvs Hc Ht Hv Hlen Bc E.
  destruct (int_carries_bound B HB ts' vs' c'
    ((limbs_value ts' + c') / 2 ^ (16 * Z.of_nat (length vs)))) as [B1 B2]; try assumption.
  - now rewrite <- (Forall2_length _ _ _ Hts), <- (Forall2_length _ _ _ Hvs).
  - rewrite E, <- (Forall2_length _ _ _ Hvs).
    rewrite (Z.div_mod (limbs_value ts' + c') (2 ^ (16 * Z.of_nat (length vs)))) at 1 by lia. lia.
  - split; [assumption|]. etransitivity; [|exact B2]. now apply carries_proper.
Qed.

Lemma bit_carries_complete r ts ts' vs vs' c c' :
  r ≐ 1 -> Forall2 feq ts ts' -> Forall2 feq vs vs' -> c ≐ c' ->
  Forall (fun t => 0 <= t <= 131070) ts' -> Forall is_u16 vs' ->
  length ts = length vs -> 0 <= c' <= 1 ->
  limbs_value vs' = (limbs_value ts' + c') mod 2 ^ (16 * Z.of_nat (length vs)) ->
  complete (when_all r (AssertBool <$> carries ts vs c)) [].
Proof.
  intros Hr Hts Hvs Hc Ht Hv Hlen Bc E.
  destruct (int_carries_ok 1 ts ts' vs vs' c c') as [B1 B2]; try assumption; try lia.
  apply complete_when_bool; [assumption|]. clear - B1 B2.
  induction B2 as [|x y l l' E _ IH]; [constructor|].
  inversion_clear B1. constructor; [|auto]. rewrite E.
  assert (y = 0 \/ y = 1) as [-> | ->] by lia; [left|right]; reflexivity.
Qed.

Lemma adder_complete r ts ts' vs vs' c c' :
  r ≐ 1 -> Forall2 feq ts ts' -> Forall2 feq vs vs' -> c ≐ c' ->
  Forall (fun t => 0 <= t <= 131070) ts' -> Forall is_u16 vs' ->
  length ts = length vs -> 0 <= c' <= 1 ->
  limbs_value vs' = (limbs_value ts' + c') mod 2 ^ (16 * Z.of_nat (length vs)) ->
  complete (when_all r (AssertBool <$> carries ts vs c) ++ slice_range_check_u16 vs r)
    (add_u16_range_checks [] vs').
Proof.
  intros. apply (complete_app _ _ [] _); [|now apply complete_slice_u16].
  now apply (bit_carries_complete r ts ts' vs vs' c c').
Qed.
End Adder.
