(* ===== verification/AddOps.v ===== *)
(** * AddOps: the adders of the arithmetic chips

    [operations/{msb,add,sub,addw,subw,add_u32,add4,add5,addrs_add,address,clk}.rs]
    of [core/machine].  Each operation is its columns, the [populate] that
    fills them and records byte lookups, and the [eval] that constrains them.
    For each, one theorem: the constraints force the columns to the intended
    integer, and the columns of [populate] satisfy them with exactly the
    recorded lookups. *)
From Stdlib Require Import ZArith Lia Bool.
From stdpp Require Import base numbers option list.
From S2P Require Import Prelude Air KoalaBear ByteTable WordAir.
Import ByteOpcode (as_field).

(** Arrays [[T; 2]] (a u32) and [[T; 3]] (a 48-bit address). *)
Definition half : Type := Z * Z.
Definition half_limbs (h : half) : list Z := [h.1; h.2].
Definition addr_limbs (x : Z * Z * Z) : list Z := [x.1.1; x.1.2; x.2].
Definition u32_to_half_word (value : Z) : half := (u16 (Z.land value 0xFFFF), u16 (value ≫ 16)).

Module U16MSBOperation.
Record t := mk { msb : Z }.

Definition populate_msb (record : list ByteLookupEvent) (a_u16 : Z) :
  t * list ByteLookupEvent * Z :=
  let msb := Z.land (a_u16 ≫ 15) 1 in
  let diff := u16 (a_u16 * 2) in
  (mk msb,
   add_byte_lookup_event record (mkByteLookupEvent ByteOpcode.Range diff 16 0), msb).

Definition eval_msb (a : Z) (cols : t) (is_real : Z) : list call :=
  let diff := 2 * a - msb cols * (1 ≪ 16) in
  [Assert (AssertBool is_real);
   Assert (AssertBool (msb cols));
   send_byte (ByteOpcode.as_u8 ByteOpcode.Range) diff 16 0 is_real].
End U16MSBOperation.

Module AddOperation.
Record t := mk { value : Word }.

Definition populate (record : list ByteLookupEvent) (a_u64 b_u64 : Z) :
  t * list ByteLookupEvent * Z :=
  let expected := u64 (a_u64 + b_u64) in
  (mk (Word_from_u64 expected),
   add_u16_range_checks record (u64_to_u16_limbs expected), expected).

Definition eval `{PrimeField} (a b : Word) (cols : t) (is_real : Z) : list call :=
  Assert (AssertBool is_real) ::
  when_all is_real (AssertBool <$>
    carries ((fun i => a.[i] + b.[i]) <$> seq 0 WORD_SIZE) (word_limbs (value cols)) 0) ++
  slice_range_check_u16 (word_limbs (value cols)) is_real.
End AddOperation.

Module SubOperation.
Record t := mk { value : Word }.

Definition populate (record : list ByteLookupEvent) (a_u64 b_u64 : Z) :
  t * list ByteLookupEvent * Z :=
  let expected := u64 (a_u64 - b_u64) in
  (mk (Word_from_u64 expected),
   add_u16_range_checks record (u64_to_u16_limbs expected), expected).

Definition eval `{PrimeField} (a b : Word) (cols : t) (is_real : Z) : list call :=
  Assert (AssertBool is_real) ::
  when_all is_real (AssertBool <$>
    carries ((fun i => a.[i] + (1 ≪ 16) - 1 - b.[i]) <$> seq 0 WORD_SIZE)
      (word_limbs (value cols)) 1) ++
  slice_range_check_u16 (word_limbs (value cols)) is_real.
End SubOperation.

Module AddwOperation.
Record t := mk { value : half; msb : U16MSBOperation.t }.

Definition populate (record : list ByteLookupEvent) (a_u64 b_u64 : Z) :
  t * list ByteLookupEvent :=
  let value := u32 (u32 a_u64 + u32 b_u64) in
  let limbs := u32_to_u16_limbs value in
  let record := add_u16_range_checks record limbs in
  let '(msb, record, _) := U16MSBOperation.populate_msb record (nth 1 limbs 0) in
  (mk (nth 0 limbs 0, nth 1 limbs 0) msb, record).

Definition eval `{PrimeField} (a b : Word) (cols : t) (is_real : Z) : list call :=
  Assert (AssertBool is_real) ::
  when_all is_real (AssertBool <$>
    carries ((fun i => a.[i] + b.[i]) <$> seq 0 (WORD_SIZE / 2)) (half_limbs (value cols)) 0) ++
  slice_range_check_u16 (half_limbs (value cols)) is_real ++
  U16MSBOperation.eval_msb (value cols).2 (msb cols) is_real.
End AddwOperation.

Module SubwOperation.
Record t := mk { value : half; msb : U16MSBOperation.t }.

Definition populate (record : list ByteLookupEvent) (a_u64 b_u64 : Z) :
  t * list ByteLookupEvent :=
  let value := u64 (i32 (i32 a_u64 - i32 b_u64)) in
  let limbs := u64_to_u16_limbs value in
  let record := add_u16_range_checks record (take (WORD_SIZE / 2) limbs) in
  let '(msb, record, _) := U16MSBOperation.populate_msb record (nth 1 limbs 0) in
  (mk (nth 0 limbs 0, nth 1 limbs 0) msb, record).

Definition eval `{PrimeField} (a b : Word) (cols : t) (is_real : Z) : list call :=
  Assert (AssertBool is_real) ::
  when_all is_real (AssertBool <$>
    carries ((fun i => a.[i] + (1 ≪ 16) - 1 - b.[i]) <$> seq 0 (WORD_SIZE / 2)) (half_limbs (value cols)) 1) ++
  slice_range_check_u16 (half_limbs (value cols)) is_real ++
  U16MSBOperation.eval_msb (value cols).2 (msb cols) is_real.
End SubwOperation.

Module AddU32Operation.
Record t := mk { value : half }.

Definition populate (record : list ByteLookupEvent) (a_u32 b_u32 : Z) :
  t * list ByteLookupEvent * Z :=
  let expected := u32 (a_u32 + b_u32) in
  (mk (u32_to_half_word expected),
   add_u16_range_checks record (u32_to_u16_limbs expected), expected).

Definition eval `{PrimeField} (a b : half) (cols : t) (is_real : Z) : list call :=
  Assert (AssertBool is_real) ::
  when_all is_real (AssertBool <$>
    carries [a.1 + b.1; a.2 + b.2] (half_limbs (value cols)) 0) ++
  slice_range_check_u16 (half_limbs (value cols)) is_real.
End AddU32Operation.

(** [Add4Operation] and [Add5Operation], which differ in the number of u32s
    summed: the carries are bytes instead of bits. *)
Module AddNOperation.
Record t := mk { value : half }.

Definition column_sum (words : list (list Z)) (i : nat) : Z :=
  foldl (fun acc w => acc + nth i w 0) 0 words.

Definition populate (record : list ByteLookupEvent) (words_u32 : list Z) :
  t * list ByteLookupEvent * Z :=
  let expected := foldl (fun acc w => u32 (acc + w)) 0 words_u32 in
  let expected_limbs := u32_to_u16_limbs expected in
  let words := u32_to_u16_limbs <$> words_u32 in
  let carry_limbs := u8 <$> int_carries (column_sum words <$> seq 0 2) expected_limbs 0 in
  let record := add_u16_range_checks record expected_limbs in
  (mk (u32_to_half_word expected), add_u8_range_checks record carry_limbs, expected).

Definition eval `{PrimeField} (words : list half) (is_real : Z) (cols : t) : list call :=
  Assert (AssertBool is_real) ::
  slice_range_check_u16 (half_limbs (value cols)) is_real ++
  slice_range_check_u8 (carries (column_sum (half_limbs <$> words) <$> seq 0 2) (half_limbs (value cols)) 0) is_real.
End AddNOperation.

Module Add4Operation.
Definition populate (record : list ByteLookupEvent) (a_u32 b_u32 c_u32 d_u32 : Z) :=
  AddNOperation.populate record [a_u32; b_u32; c_u32; d_u32].
Definition eval `{PrimeField} (a b c d : half) (is_real : Z) (cols : AddNOperation.t) :=
  AddNOperation.eval [a; b; c; d] is_real cols.
End Add4Operation.

Module Add5Operation.
Definition populate (record : list ByteLookupEvent) (a_u32 b_u32 c_u32 d_u32 e_u32 : Z) :=
  AddNOperation.populate record [a_u32; b_u32; c_u32; d_u32; e_u32].
Definition eval `{PrimeField} (words : list half) (is_real : Z) (cols : AddNOperation.t) :=
  AddNOperation.eval words is_real cols.
End Add5Operation.

Module AddrAddOperation.
Record t := mk { value : Z * Z * Z }.

(** [None] is the failed assertion that the sum is a 48-bit address. *)
Definition populate (record : list ByteLookupEvent) (a_u64 b_u64 : Z) :
  option (t * list ByteLookupEvent * Z) :=
  let expected := u64 (a_u64 + b_u64) in
  if expected ≫ 48 =? 0 then
    Some (mk (u16 (Z.land expected 0xFFFF), u16 (expected ≫ 16), u16 (expected ≫ 32)),
          add_u16_range_checks record (take 3 (u64_to_u16_limbs expected)), expected)
  else None.

Definition eval `{PrimeField} (a b : Word) (cols : t) (is_real : Z) : list call :=
  Assert (AssertBool is_real) ::
  when_all is_real (AssertBool <$>
    carries ((fun i => a.[i] + b.[i]) <$> seq 0 WORD_SIZE)
      ((fun i => if (i <? WORD_SIZE - 1)%nat then nth i (addr_limbs (value cols)) 0 else 0) <$> seq 0 WORD_SIZE)
      0) ++
  slice_range_check_u16 (addr_limbs (value cols)) is_real.
End AddrAddOperation.

Module AddressOperation.
Record t := mk { addr_operation : AddrAddOperation.t; top_two_limb_inv : Z }.

(** [inverse] of zero is a panic of the field crate, so the columns exist only
    when the two upper limbs are not both zero. *)
Definition populate `{PrimeField} (record : list ByteLookupEvent) (b c : Z) :
  option (t * list ByteLookupEvent * Z) :=
  let memory_addr := u64 (b + c) in
  let limbs := u64_to_u16_limbs memory_addr in
  '(addr_operation, record, _) ← AddrAddOperation.populate record b c;
  let sum_top_two_limb := nth 1 limbs 0 + nth 2 limbs 0 in
  if decide (sum_top_two_limb ≐ 0) then None else
  Some (mk addr_operation (finv sum_top_two_limb),
        add_bit_range_check record (nth 0 limbs 0 / 8) 13, memory_addr).

(** The calls, and the aligned address the chip accesses. *)
Definition eval `{PrimeField} (b c : Word) (offset_bit0 offset_bit1 offset_bit2 is_real : Z)
  (cols : t) : list call * list Z :=
  let addr := addr_limbs (AddrAddOperation.value (addr_operation cols)) in
  let sum_top_two_limb := nth 1 addr 0 + nth 2 addr 0 in
  ([Assert (AssertBool is_real); Assert (AssertBool offset_bit0);
    Assert (AssertBool offset_bit1); Assert (AssertBool offset_bit2)] ++
   AddrAddOperation.eval b c (addr_operation cols) is_real ++
   [Assert (AssertEq (top_two_limb_inv cols * sum_top_two_limb) is_real);
    send_byte (ByteOpcode.as_u8 ByteOpcode.Range)
      ((nth 0 addr 0 - 4 * offset_bit2 - 2 * offset_bit1 - offset_bit0) * finv 8) 13 0 is_real],
   [nth 0 addr 0 - 4 * offset_bit2 - 2 * offset_bit1 - offset_bit0; nth 1 addr 0; nth 2 addr 0]).
End AddressOperation.

Module ClkOperation.
Record t := mk { next_clk_16_24 : Z; next_clk_0_16 : Z; is_overflow : Z }.

Definition next_clk_high (cols : t) (clk_high : Z) : Z := clk_high + is_overflow cols.
Definition next_clk_low (cols : t) : Z := next_clk_0_16 cols + next_clk_16_24 cols * (1 ≪ 16).

(** The sum of the code is of 64 bits; [next_clk_wraps] below shows that the
    columns do not depend on a carry out of it. *)
Definition populate (record : list ByteLookupEvent) (clk increment : Z) :
  t * list ByteLookupEvent :=
  let next_clk := clk + increment in
  let next_clk_16_24 := u8 (Z.land (next_clk ≫ 16) 0xFF) in
  let next_clk_0_16 := u16 (Z.land next_clk 0xFFFF) in
  let is_overflow := negb (next_clk ≫ 24 =? clk ≫ 24) in
  let record := add_bit_range_check record next_clk_0_16 16 in
  (mk next_clk_16_24 next_clk_0_16 (from_bool is_overflow),
   add_u8_range_checks record [next_clk_16_24; 0]).

Definition eval (clk_low increment : Z) (cols : t) (is_real : Z) : list call :=
  [Assert (AssertBool is_real);
   Assert (AssertBool (is_overflow cols));
   Assert (When is_real (AssertEq (clk_low + increment - is_overflow cols * (1 ≪ 24))
                                  (next_clk_low cols)));
   send_byte (ByteOpcode.as_u8 ByteOpcode.Range) (next_clk_0_16 cols) 16 0 is_real] ++
  slice_range_check_u8 [next_clk_16_24 cols; 0] is_real.
End ClkOperation.

(** ** Correctness *)

Section Adders.
Context `{AirBuilder}.

(** Turn the satisfied calls of [eval] into facts about the columns. *)
Ltac sat_split Hs := repeat first
  [ rewrite sat_app in Hs | rewrite sat_cons in Hs | rewrite sat_nil in Hs ].

Lemma word_terms a b va vb : a ∼ va -> b ∼ vb ->
  exists ts, Forall2 feq ((fun i => a.[i] + b.[i]) <$> seq 0 WORD_SIZE) ts /\
    Forall (fun t => 0 <= t <= 131070) ts /\ limbs_value ts = va + vb.
Proof.
  intros Ha Hb. destruct_word Ha as x0 x1 x2 x3. destruct_word Hb as y0 y1 y2 y3.
  exists [x0 + y0; x1 + y1; x2 + y2; x3 + y3]. unfold fits in *. simpl. split; [|split].
  - repeat constructor; now apply feq_add.
  - repeat apply List.Forall_cons; try lia. constructor.
  - lia.
Qed.

Lemma word_sub_terms a b va vb : a ∼ va -> b ∼ vb ->
  exists ts, Forall2 feq ((fun i => a.[i] + (1 ≪ 16) - 1 - b.[i]) <$> seq 0 WORD_SIZE) ts /\
    Forall (fun t => 0 <= t <= 131070) ts /\ limbs_value ts = va - vb + (2 ^ 64 - 1).
Proof.
  intros Ha Hb. destruct_word Ha as x0 x1 x2 x3. destruct_word Hb as y0 y1 y2 y3.
  exists [x0 + 65536 - 1 - y0; x1 + 65536 - 1 - y1; x2 + 65536 - 1 - y2; x3 + 65536 - 1 - y3].
  unfold fits in *. simpl. split; [|split].
  - change (1 ≪ 16) with 65536.
    repeat constructor; (apply feq_sub; [|assumption]); apply feq_sub; try reflexivity;
      now apply feq_add.
  - repeat apply List.Forall_cons; try lia. constructor.
  - lia.
Qed.

Lemma half_terms a b va vb : a ∼ va -> b ∼ vb ->
  exists ts, Forall2 feq ((fun i => a.[i] + b.[i]) <$> seq 0 (WORD_SIZE / 2)) ts /\
    Forall (fun t => 0 <= t <= 131070) ts /\ limbs_value ts = u32 va + u32 vb.
Proof.
  intros Ha Hb. destruct_word Ha as x0 x1 x2 x3. destruct_word Hb as y0 y1 y2 y3. subst.
  exists [x0 + y0; x1 + y1]. unfold_ints. simpl. split; [|split].
  - repeat constructor; now apply feq_add.
  - repeat apply List.Forall_cons; try lia. constructor.
  - lia_mod.
Qed.

Lemma half_sub_terms a b va vb : a ∼ va -> b ∼ vb ->
  exists ts, Forall2 feq ((fun i => a.[i] + (1 ≪ 16) - 1 - b.[i]) <$> seq 0 (WORD_SIZE / 2)) ts /\
    Forall (fun t => 0 <= t <= 131070) ts /\ limbs_value ts = u32 va - u32 vb + (2 ^ 32 - 1).
Proof.
  intros Ha Hb. destruct_word Ha as x0 x1 x2 x3. destruct_word Hb as y0 y1 y2 y3. subst.
  exists [x0 + 65536 - 1 - y0; x1 + 65536 - 1 - y1]. unfold_ints. simpl. split; [|split].
  - change (1 ≪ 16) with 65536.
    repeat constructor; (apply feq_sub; [|assumption]); apply feq_sub; try reflexivity;
      now apply feq_add.
  - repeat apply List.Forall_cons; try lia. constructor.
  - lia_mod.
Qed.

Lemma terms_bounded ts ts' : Forall2 feq ts ts' -> Forall (fun t => 0 <= t <= 131070) ts' ->
  Forall2 (fun t t' => t ≐ t' /\ fits 20 t') ts ts'.
Proof.
  induction 1; intros Hb; inversion_clear Hb; constructor; auto.
  split; [assumption|]. unfold fits. lia.
Qed.

(** A bit-carry adder forces its result limbs. *)
Lemma bit_adder_sound r ts ts' vs c :
  Forall2 feq ts ts' -> Forall (fun t => 0 <= t <= 131070) ts' -> length ts = length vs ->
  0 <= c <= 1 -> r ≐ 1 -> sat (when_all r (AssertBool <$> carries ts vs c)) ->
  sat (slice_range_check_u16 vs r) ->
  holds_value vs ((limbs_value ts' + c) mod 2 ^ (16 * Z.of_nat (length vs))).
Proof.
  intros Hts Hb Hlen Hc Hr Hs Hv.
  apply (adder_sound r ts ts' vs c c); try assumption; try reflexivity.
  - now apply terms_bounded.
  - unfold fits. lia.
  - now apply (sat_when_bool r).
Qed.
End Adders.

Section AddSub.
Context `{AirBuilder}.

Lemma add_sound a b va vb cols r : a ∼ va -> b ∼ vb -> r ≐ 1 -> sat (AddOperation.eval a b cols r) ->
  AddOperation.value cols ∼ u64 (va + vb).
Proof.
  intros Ha Hb Hr Hs. destruct (word_terms a b va vb Ha Hb) as (ts & Hts & Bts & Ets).
  unfold AddOperation.eval in Hs. rewrite sat_cons, sat_app in Hs. destruct Hs as (_ & Hc & Hv).
  apply holds_value_word. unfold u64, wrap. rewrite <- (Z.add_0_r (va + vb)), <- Ets.
  exact (bit_adder_sound r _ ts (word_limbs _) 0 Hts Bts eq_refl ltac:(lia) Hr Hc Hv).
Qed.

Lemma add_complete a b va vb : a ∼ va -> b ∼ vb ->
  let '(cols, events, result) := AddOperation.populate [] va vb in
  result = u64 (va + vb) /\ complete (AddOperation.eval a b cols 1) events.
Proof.
  intros Ha Hb. destruct (word_terms a b va vb Ha Hb) as (ts & Hts & Bts & Ets).
  split; [reflexivity|]. apply complete_assert; [now apply holds_assert_bool; right|].
  apply (adder_complete 1 _ ts _ _ 0 0); try reflexivity; try assumption; try lia.
  - apply limbs_u16.
  - rewrite limbs_of_u64 by auto with ints. now rewrite Z.add_0_r, Ets.
Qed.

Lemma sub_sound a b va vb cols r : a ∼ va -> b ∼ vb -> r ≐ 1 -> sat (SubOperation.eval a b cols r) ->
  SubOperation.value cols ∼ u64 (va - vb).
Proof.
  intros Ha Hb Hr Hs. destruct (word_sub_terms a b va vb Ha Hb) as (ts & Hts & Bts & Ets).
  unfold SubOperation.eval in Hs. rewrite sat_cons, sat_app in Hs. destruct Hs as (_ & Hc & Hv).
  apply holds_value_word. replace (u64 (va - vb)) with ((limbs_value ts + 1) mod 2 ^ 64)
    by (rewrite Ets; apply (wrap_eq_intro 64 _ _ 1); lia).
  exact (bit_adder_sound r _ ts (word_limbs _) 1 Hts Bts eq_refl ltac:(lia) Hr Hc Hv).
Qed.

Lemma sub_complete a b va vb : a ∼ va -> b ∼ vb ->
  let '(cols, events, result) := SubOperation.populate [] va vb in
  result = u64 (va - vb) /\ complete (SubOperation.eval a b cols 1) events.
Proof.
  intros Ha Hb. destruct (word_sub_terms a b va vb Ha Hb) as (ts & Hts & Bts & Ets).
  split; [reflexivity|]. apply complete_assert; [now apply holds_assert_bool; right|].
  apply (adder_complete 1 _ ts _ _ 1 1); try reflexivity; try assumption; try lia.
  - apply limbs_u16.
  - rewrite limbs_of_u64 by auto with ints. rewrite Ets. symmetry. apply (wrap_eq_intro 64 _ _ 1); lia.
Qed.

End AddSub.

(** ** Sign bits and 32-bit adders *)

Section Half.
Context `{AirBuilder}.

Lemma sat_bool r x : r ≐ 1 -> sat_call (Assert (AssertBool x)) -> exists b, (b = 0 \/ b = 1) /\ x ≐ b.
Proof. intros _ [E|E]%holds_assert_bool; eauto. Qed.

Lemma msb_sound a x cols r : a ≐ x -> is_u16 x -> r ≐ 1 ->
  sat (U16MSBOperation.eval_msb a cols r) -> U16MSBOperation.msb cols ≐ x / 2 ^ 15.
Proof.
  intros Ha Hx Hr Hs. unfold U16MSBOperation.eval_msb in Hs. rewrite !sat_cons in Hs.
  destruct Hs as (_ & Hb & Hd & _).
  apply (sat_bool r) in Hb as (m & Hm & Em); [|assumption].
  destruct (sat_range 16 _ _ _ _ Hd Hr) as (d & Bd & Ed); [reflexivity|lia|].
  rewrite Ha, Em in Ed. change (1 ≪ 16) with 65536 in Ed.
  pose proof order_large. unfold fits in *. apply feq_small in Ed; [|lia].
  rewrite Em. replace (x / 2 ^ 15) with m by lia_mod. reflexivity.
Qed.

Lemma msb_bit x : is_u16 x -> Z.land (x ≫ 15) 1 = x / 2 ^ 15.
Proof.
  intros Hx. rewrite Z.shiftr_div_pow2 by lia. change 1 with (Z.ones 1).
  rewrite Z.land_ones by lia. unfold fits in Hx. lia_mod.
Qed.

Lemma msb_complete a x r : a ≐ x -> is_u16 x -> r ≐ 1 ->
  let '(cols, events, _) := U16MSBOperation.populate_msb [] x in
  complete (U16MSBOperation.eval_msb a cols r) events.
Proof.
  intros Ha Hx Hr. unfold U16MSBOperation.populate_msb, U16MSBOperation.eval_msb. simpl.
  apply complete_assert; [now apply holds_assert_bool; right|].
  rewrite msb_bit by assumption. unfold fits in Hx.
  apply complete_assert.
  { apply holds_assert_bool. assert (x / 2 ^ 15 = 0 \/ x / 2 ^ 15 = 1) as [-> | ->] by lia_mod;
      [left|right]; reflexivity. }
  apply complete_send; try reflexivity; try assumption; [| |apply complete_nil].
  - apply event_ok_range; [lia|]. auto with ints.
  - rewrite Ha. apply feq_exists. exists 0. change (1 ≪ 16) with 65536. simpl ev_a.
    unfold u16, wrap. lia_mod.
Qed.

(** A 32-bit result and its sign bit extend to the sign-extended word. *)
Definition sign_extended (value : half) (msb : U16MSBOperation.t) : Word :=
  mkWord value.1 value.2 (U16MSBOperation.msb msb * 65535) (U16MSBOperation.msb msb * 65535).

Lemma sign_extended_spec value msb l0 l1 : value.1 ≐ l0 -> value.2 ≐ l1 ->
  is_u16 l0 -> is_u16 l1 -> U16MSBOperation.msb msb ≐ l1 / 2 ^ 15 ->
  sign_extended value msb ∼ u64 (i32 (l0 + 2 ^ 16 * l1)).
Proof.
  intros E0 E1 B0 B1 Em. set (m := l1 / 2 ^ 15) in *.
  replace (u64 (i32 (l0 + 2 ^ 16 * l1)))
    with (l0 + 2 ^ 16 * l1 + 2 ^ 32 * (m * 65535) + 2 ^ 48 * (m * 65535)).
  - apply represents_intro; try assumption; try (now apply feq_mul);
      subst m; unfold fits in *; lia_mod.
  - subst m. unfold_ints. lia_mod.
Qed.

Lemma half_sound a r value msb V : holds_value (half_limbs value) (V mod 2 ^ 32) -> r ≐ 1 ->
  a ≐ value.2 -> sat (U16MSBOperation.eval_msb a msb r) ->
  sign_extended value msb ∼ u64 (i32 V).
Proof.
  intros (ls & Hu & Hf & E) Hr Ha Hs. destruct value as [v0 v1]. unfold half_limbs in Hf.
  apply Forall2_cons_inv_l in Hf as (l0 & ? & ? & Hf & ->).
  apply Forall2_cons_inv_l in Hf as (l1 & ? & ? & Hf & ->).
  apply Forall2_nil_inv_l in Hf as ->. simpl in *. decompose_Forall_hyps.
  replace (u64 (i32 V)) with (u64 (i32 (l0 + 2 ^ 16 * l1))).
  - apply sign_extended_spec; try assumption. apply (msb_sound a l1 msb r); try assumption.
    now rewrite Ha.
  - f_equal. replace (l0 + 2 ^ 16 * l1) with (wrap 32 V) by (unfold wrap; lia).
    now apply sext_wrap.
Qed.
End Half.

Section AddwSubw.
Context `{AirBuilder}.

(** Shared completeness of the word adders with a sign bit. *)
Lemma half_complete ts ts' c E : Forall2 feq ts ts' ->
  Forall (fun t => 0 <= t <= 131070) ts' -> length ts = 2%nat -> 0 <= c <= 1 ->
  is_u32 E -> E = (limbs_value ts' + c) mod 2 ^ 32 ->
  let limbs := u32_to_u16_limbs E in
  let l1 := u16 (E ≫ 16) in
  complete (Assert (AssertBool 1) ::
     when_all 1 (AssertBool <$> carries ts limbs c) ++
     slice_range_check_u16 limbs 1 ++
     U16MSBOperation.eval_msb l1 (U16MSBOperation.mk (Z.land (l1 ≫ 15) 1)) 1)
    (add_u16_range_checks [] limbs ++ [mkByteLookupEvent ByteOpcode.Range (u16 (l1 * 2)) 16 0]).
Proof.
  intros Hts Bts Hlen Hc HE EE limbs l1.
  apply complete_assert; [now apply holds_assert_bool; right|].
  rewrite app_assoc. apply complete_app.
  - apply (adder_complete 1 ts ts' _ _ c c); try reflexivity; try assumption.
    + apply limbs32_u16.
    + unfold limbs. rewrite limbs_of_u32 by assumption. exact EE.
  - apply (msb_complete l1 l1 1); try reflexivity. apply u16_fits.
Qed.

Lemma addw_sound a b va vb cols r : a ∼ va -> b ∼ vb -> r ≐ 1 -> sat (AddwOperation.eval a b cols r) ->
  sign_extended (AddwOperation.value cols) (AddwOperation.msb cols) ∼ u64 (i32 (va + vb)).
Proof.
  intros Ha Hb Hr Hs. destruct (half_terms a b va vb Ha Hb) as (ts & Hts & Bts & Ets).
  unfold AddwOperation.eval in Hs. rewrite sat_cons, !sat_app in Hs. destruct Hs as (_ & Hc & Hv & Hm).
  apply (half_sound (AddwOperation.value cols).2 r); try assumption; [|reflexivity].
  replace ((va + vb) mod 2 ^ 32) with ((limbs_value ts + 0) mod 2 ^ 32)
    by (rewrite Ets; unfold_ints; lia_mod).
  exact (bit_adder_sound r _ ts (half_limbs _) 0 Hts Bts eq_refl ltac:(lia) Hr Hc Hv).
Qed.

Lemma addw_complete a b va vb : a ∼ va -> b ∼ vb ->
  let '(cols, events) := AddwOperation.populate [] va vb in complete (AddwOperation.eval a b cols 1) events.
Proof.
  intros Ha Hb. destruct (half_terms a b va vb Ha Hb) as (ts & Hts & Bts & Ets).
  apply (half_complete _ ts 0 (u32 (u32 va + u32 vb))); try assumption; try reflexivity;
    auto with ints; [lia|]. now rewrite Ets, Z.add_0_r.
Qed.

Lemma subw_sound a b va vb cols r : a ∼ va -> b ∼ vb -> r ≐ 1 -> sat (SubwOperation.eval a b cols r) ->
  sign_extended (SubwOperation.value cols) (SubwOperation.msb cols) ∼ u64 (i32 (va - vb)).
Proof.
  intros Ha Hb Hr Hs. destruct (half_sub_terms a b va vb Ha Hb) as (ts & Hts & Bts & Ets).
  unfold SubwOperation.eval in Hs. rewrite sat_cons, !sat_app in Hs. destruct Hs as (_ & Hc & Hv & Hm).
  apply (half_sound (SubwOperation.value cols).2 r); try assumption; [|reflexivity].
  replace ((va - vb) mod 2 ^ 32) with ((limbs_value ts + 1) mod 2 ^ 32)
    by (rewrite Ets; unfold_ints; lia_mod).
  exact (bit_adder_sound r _ ts (half_limbs _) 1 Hts Bts eq_refl ltac:(lia) Hr Hc Hv).
Qed.

Lemma subw_complete a b va vb : a ∼ va -> b ∼ vb ->
  let '(cols, events) := SubwOperation.populate [] va vb in complete (SubwOperation.eval a b cols 1) events.
Proof.
  intros Ha Hb. destruct (half_sub_terms a b va vb Ha Hb) as (ts & Hts & Bts & Ets).
  set (V := u64 (i32 (i32 va - i32 vb))).
  assert (L : take 2 (u64_to_u16_limbs V) = u32_to_u16_limbs (u32 V)).
  { unfold u64_to_u16_limbs, u32_to_u16_limbs. simpl. rewrite !low_limb, !limb_of_u64 by lia.
    unfold u32, wrap. f_equal; [|f_equal]; lia_mod. }
  unfold SubwOperation.populate. fold V. cbv zeta. change (WORD_SIZE / 2)%nat with 2%nat.
  rewrite L. injection L as L0 L1. simpl nth. rewrite L0, L1.
  apply (half_complete _ ts 1 (u32 V)); try assumption; try reflexivity; auto with ints; [lia|].
  rewrite Ets. subst V. unfold_ints. lia_mod.
Qed.

End AddwSubw.

Section AddN.
Context `{AirBuilder}.

(** [h] holds the limbs of the u32 [v]. *)
Definition half_repr (h : half) (v : Z) : Prop :=
  is_u32 v /\ Forall2 feq (half_limbs h) (u32_to_u16_limbs v).

Lemma foldl_sum {A} (f : A -> Z) (l : list A) x :
  foldl (fun acc w => acc + f w) x l = x + foldl (fun acc w => acc + f w) 0 l.
Proof.
  revert x. induction l as [|w l IH]; intros x; cbn [foldl]; [lia|].
  rewrite (IH (x + f w)), (IH (0 + f w)). lia.
Qed.

Lemma foldl_add l x : foldl Z.add x l = x + foldl Z.add 0 l.
Proof. apply (foldl_sum (fun x => x)). Qed.

Lemma column_sum_cons w ws i :
  AddNOperation.column_sum (w :: ws) i = nth i w 0 + AddNOperation.column_sum ws i.
Proof.
  unfold AddNOperation.column_sum. cbn [foldl].
  apply (foldl_sum (fun w => nth i w 0) ws (0 + nth i w 0)).
Qed.

Lemma u32_limbs_split v : is_u32 v -> exists l0 l1, u32_to_u16_limbs v = [l0; l1] /\
  is_u16 l0 /\ is_u16 l1 /\ v = l0 + 2 ^ 16 * l1.
Proof.
  intros Hv. pose proof (limbs32_u16 v) as Hl. pose proof (limbs_of_u32 v Hv) as E.
  unfold u32_to_u16_limbs in *. eexists _, _. split; [reflexivity|].
  inversion_clear Hl as [|? ? B0 Hl']. inversion_clear Hl' as [|? ? B1 _].
  split; [assumption|]. split; [assumption|]. rewrite <- E at 1. simpl. lia.
Qed.

(** The column sums of the limbs, over the field and over the integers. *)
Lemma column_terms words vs : Forall2 half_repr words vs ->
  let ts := AddNOperation.column_sum (half_limbs <$> words) <$> seq 0 2 in
  let ts' := AddNOperation.column_sum (u32_to_u16_limbs <$> vs) <$> seq 0 2 in
  Forall2 feq ts ts' /\
  Forall (fun t => 0 <= t <= 65535 * Z.of_nat (length words)) ts' /\
  limbs_value ts' = foldl Z.add 0 vs.
Proof.
  induction 1 as [|h v words vs [Hv Hf] _ (IH1 & IH2 & IH3)].
  - split; [repeat constructor|]. split; [|reflexivity].
    repeat apply List.Forall_cons; try apply List.Forall_nil; vm_compute; split; discriminate.
  - rewrite !fmap_cons. destruct (u32_limbs_split v Hv) as (l0 & l1 & El & B0 & B1 & Ev).
    cbn [fmap list_fmap seq] in *. rewrite !column_sum_cons, El.
    rewrite El in Hf. unfold half_limbs in *. decompose_Forall_hyps.
    unfold fits in *. split; [repeat constructor; now apply feq_add|].
    split; [repeat apply List.Forall_cons; try apply List.Forall_nil; cbn [length]; lia|].
    cbn [foldl]. rewrite (foldl_add vs). simpl limbs_value in *. lia.
Qed.

Lemma foldl_u32 vs x : foldl (fun acc w => u32 (acc + w)) (u32 x) vs = u32 (x + foldl Z.add 0 vs).
Proof.
  revert x. induction vs as [|v vs IH]; intros x; cbn [foldl]; [f_equal; lia|].
  replace (u32 (u32 x + v)) with (u32 (x + v)) by (unfold_ints; lia_mod).
  rewrite IH. rewrite (foldl_add vs (0 + v)). f_equal. lia.
Qed.

Lemma add_n_sound words vs cols r : Forall2 half_repr words vs -> (length words <= 5)%nat ->
  r ≐ 1 -> sat (AddNOperation.eval words r cols) ->
  half_repr (AddNOperation.value cols) (u32 (foldl Z.add 0 vs)).
Proof.
  intros Hw Hlen. destruct (column_terms words vs Hw) as (Hts & Bts & Ets).
  set (ts := _ <$> _) in Hts. set (ts' := _ <$> _) in Hts, Bts, Ets.
  assert (B : Forall (fun t => 0 <= t <= 327675) ts').
  { apply (Forall_impl _ _ _ Bts). simpl. lia. }
  intros Hr Hs. unfold AddNOperation.eval in Hs.
  rewrite sat_cons, sat_app in Hs. destruct Hs as (_ & Hv & Hc). fold ts in Hc.
  assert (Hh : holds_value (half_limbs (AddNOperation.value cols)) ((limbs_value ts' + 0) mod 2 ^ 32)).
  { apply (adder_sound r ts ts' (half_limbs _) 0 0); try assumption; try reflexivity.
    - clear - Hts B. revert B. induction Hts; intros B; inversion_clear B; constructor; auto.
      split; [assumption|]. unfold fits. lia.
    - unfold fits. lia.
    - apply sat_slice_u8_pair in Hc as (x & y & ? & ? & ? & ?); [|assumption].
      repeat apply List.Forall_cons; try apply List.Forall_nil; eexists; eauto. }
  destruct Hh as (ls & Hu & Hf & E). rewrite Z.add_0_r, Ets in E.
  split; [auto with ints|]. unfold half_limbs in Hf.
  apply Forall2_cons_inv_l in Hf as (l0 & ? & ? & Hf & ->).
  apply Forall2_cons_inv_l in Hf as (l1 & ? & ? & Hf & ->).
  apply Forall2_nil_inv_l in Hf as ->. unfold u32, wrap. rewrite <- E.
  decompose_Forall_hyps. unfold u32_to_u16_limbs. rewrite low_limb, limb_of_u64 by lia.
  unfold fits in *. simpl. repeat constructor.
  + replace (_ mod _) with l0 by lia_mod. assumption.
  + replace (_ mod _) with l1 by lia_mod. assumption.
Qed.

Lemma add_n_complete words vs : Forall2 half_repr words vs -> (length words <= 5)%nat ->
  let '(cols, events, result) := AddNOperation.populate [] vs in
  result = u32 (foldl Z.add 0 vs) /\ complete (AddNOperation.eval words 1 cols) events.
Proof.
  intros Hw Hlen. destruct (column_terms words vs Hw) as (Hts & Bts & Ets).
  set (ts := _ <$> _) in Hts. set (ts' := _ <$> _) in Hts, Bts, Ets.
  assert (B : Forall (fun t => 0 <= t <= 327675) ts').
  { apply (Forall_impl _ _ _ Bts). simpl. lia. }
  unfold AddNOperation.populate. cbv zeta.
  replace (foldl _ 0 vs) with (u32 (foldl Z.add 0 vs))
    by (rewrite <- (Z.add_0_l (foldl Z.add 0 vs)), <- foldl_u32; reflexivity).
  split; [reflexivity|]. set (E := u32 (foldl Z.add 0 vs)).
  apply complete_assert; [now apply holds_assert_bool; right|].
  destruct (int_carries_ok 4 ts ts' (u32_to_u16_limbs E) (u32_to_u16_limbs E) 0 0)
    as [Bc Ec]; try reflexivity; try assumption; try lia.
  { apply limbs32_u16. }
  { rewrite limbs_of_u32 by (unfold E; auto with ints). unfold E. now rewrite Z.add_0_r, Ets. }
  fold ts ts'. replace (add_u8_range_checks (add_u16_range_checks [] (u32_to_u16_limbs E)) _)
    with (add_u16_range_checks [] (u32_to_u16_limbs E) ++
          add_u8_range_checks [] (u8 <$> int_carries ts' (u32_to_u16_limbs E) 0)) by reflexivity.
  apply complete_app.
  + apply complete_slice_u16; try reflexivity. apply limbs32_u16.
  + simpl in Bc, Ec. decompose_Forall_hyps.
    apply complete_slice_u8_pair; auto with ints; try reflexivity.
    * unfold u8. rewrite wrap_small by (unfold fits; lia). assumption.
    * unfold u8. rewrite wrap_small by (unfold fits; lia). assumption.
Qed.
End AddN.

Section Address.
Context `{AirBuilder}.

(** The three limbs of a 48-bit address. *)
Definition addr_repr (ls : list Z) (v : Z) : Prop :=
  fits 48 v /\ Forall2 feq ls (take 3 (u64_to_u16_limbs v)).

Lemma addr_repr_intro x l0 l1 l2 : Forall2 feq x [l0; l1; l2] ->
  is_u16 l0 -> is_u16 l1 -> is_u16 l2 -> addr_repr x (l0 + 2 ^ 16 * l1 + 2 ^ 32 * l2).
Proof.
  intros Hx B0 B1 B2. split; [unfold fits in *; lia|].
  replace (take 3 _) with [l0; l1; l2]; [assumption|].
  pose proof (Word_from_u64_limbs l0 l1 l2 0 B0 B1 B2 ltac:(unfold fits; lia)) as E.
  replace (_ + 2 ^ 48 * 0) with (l0 + 2 ^ 16 * l1 + 2 ^ 32 * l2) in E by lia.
  unfold Word_from_u64 in E. injection E as E0 E1 E2 _.
  unfold u64_to_u16_limbs. simpl. congruence.
Qed.

Lemma addr_add_sound a b va vb cols r : a ∼ va -> b ∼ vb -> r ≐ 1 ->
  sat (AddrAddOperation.eval a b cols r) ->
  exists l0 l1 l2, Forall2 feq (addr_limbs (AddrAddOperation.value cols)) [l0; l1; l2] /\
    is_u16 l0 /\ is_u16 l1 /\ is_u16 l2 /\ u64 (va + vb) = l0 + 2 ^ 16 * l1 + 2 ^ 32 * l2.
Proof.
  intros Ha Hb Hr Hs. destruct (word_terms a b va vb Ha Hb) as (ts & Hts & Bts & Ets).
  unfold AddrAddOperation.eval in Hs. rewrite sat_cons, sat_app in Hs.
  destruct Hs as (_ & Hc & Hv). destruct (sat_slice_u16 _ r Hv Hr) as (ls & Hu & Hf).
  pose proof Hf as Hf0. unfold addr_limbs in Hf.
  apply Forall2_cons_inv_l in Hf as (l0 & ? & ? & Hf & ->).
  apply Forall2_cons_inv_l in Hf as (l1 & ? & ? & Hf & ->).
  apply Forall2_cons_inv_l in Hf as (l2 & ? & ? & Hf & ->).
  apply Forall2_nil_inv_l in Hf as ->. exists l0, l1, l2. split; [assumption|].
  apply (sat_when_bool r) in Hc; [|assumption].
  inversion_clear Hu as [|? ? B0 Hu']. inversion_clear Hu' as [|? ? B1 Hu''].
  inversion_clear Hu'' as [|? ? B2 _].
  assert (Hvs : Forall2 (fun v v' => v ≐ v' /\ is_u16 v')
    ((fun i => if (i <? WORD_SIZE - 1)%nat then nth i (addr_limbs (AddrAddOperation.value cols)) 0
               else 0) <$> seq 0 WORD_SIZE) [l0; l1; l2; 0]).
  { repeat apply List.Forall2_cons; try apply List.Forall2_nil; split; try assumption;
      reflexivity || (unfold fits; lia). }
  destruct (carries_sound _ ts _ _ 0 0 (terms_bounded _ _ Hts Bts) Hvs eq_refl (reflexivity 0)
    ltac:(unfold fits; lia) Hc) as [k Ek].
  rewrite Ets in Ek. do 3 (split; [assumption|]).
  simpl in Ek. unfold_ints. lia_mod.
Qed.

Lemma eight_not_zero : 8 ≭ 0.
Proof. intros E. pose proof order_large. apply feq_small in E; lia. Qed.

Lemma address_sound b c vb vc o0 o1 o2 r cols : b ∼ vb -> c ∼ vc -> r ≐ 1 ->
  sat (AddressOperation.eval b c o0 o1 o2 r cols).1 ->
  let addr := u64 (vb + vc) in
  2 ^ 16 <= addr < 2 ^ 48 /\
  o0 ≐ addr mod 2 /\ o1 ≐ addr / 2 mod 2 /\ o2 ≐ addr / 4 mod 2 /\
  addr_repr (AddressOperation.eval b c o0 o1 o2 r cols).2 (addr - addr mod 8).
Proof.
  intros Hb Hc Hr Hs addr. unfold AddressOperation.eval in *. cbn [fst snd] in *.
  rewrite !sat_app, !sat_cons in Hs. destruct Hs as ((_ & K0 & K1 & K2 & _) & Hadd & Hinv & Hrange & _).
  destruct (addr_add_sound b c vb vc _ r Hb Hc Hr Hadd) as (l0 & l1 & l2 & Hf & B0 & B1 & B2 & E).
  apply (sat_bool r) in K0 as (b0 & D0 & E0); [|assumption].
  apply (sat_bool r) in K1 as (b1 & D1 & E1); [|assumption].
  apply (sat_bool r) in K2 as (b2 & D2 & E2); [|assumption].
  fold addr in E. apply holds_assert_eq in Hinv.
  pose proof (Forall2_lookup_lr _ _ _ 0 _ _ Hf eq_refl eq_refl) as F0.
  pose proof (Forall2_lookup_lr _ _ _ 1 _ _ Hf eq_refl eq_refl) as F1.
  pose proof (Forall2_lookup_lr _ _ _ 2 _ _ Hf eq_refl eq_refl) as F2.
  unfold addr_limbs in *. simpl nth in *.
  destruct (sat_range 13 _ _ _ _ Hrange Hr) as (q & Bq & Eq); [reflexivity|lia|].
  assert (El : l0 = 8 * q + 4 * b2 + 2 * b1 + b0).
  { pose proof order_large. unfold fits in *. apply feq_small; [|lia].
    rewrite <- Eq, (Z.mul_comm 8), <- Z.mul_assoc, (finv_mul _ eight_not_zero).
    rewrite E2, E1, E0, F0. apply feq_exists. exists 0. simpl. lia. }
  assert (Htop : l1 + l2 <> 0).
  { intros Ez. rewrite F1, F2, Ez, Z.mul_0_r, Hr in Hinv.
    symmetry in Hinv. now apply one_not_zero in Hinv. }
  unfold fits in *.
  replace (addr mod 2) with b0 by lia_mod. replace (addr / 2 mod 2) with b1 by lia_mod.
  replace (addr / 4 mod 2) with b2 by lia_mod.
  replace (addr - addr mod 8) with (8 * q + 2 ^ 16 * l1 + 2 ^ 32 * l2) by lia_mod.
  split; [lia|]. do 3 (split; [assumption|]).
  apply addr_repr_intro; unfold fits; try lia.
  repeat constructor; try assumption. rewrite E0, E1, E2, F0, El. apply feq_exists. exists 0. lia.
Qed.

Lemma addr_limbs_small addr : fits 48 addr ->
  word_limbs (Word_from_u64 addr) = take 3 (u64_to_u16_limbs addr) ++ [0].
Proof.
  intros Ha. unfold Word_from_u64, u64_to_u16_limbs, word_limbs. simpl.
  rewrite (limb_of_u64 addr 48) by lia. unfold fits in Ha.
  replace (addr / 2 ^ 48 mod 2 ^ 16) with 0 by lia_mod. reflexivity.
Qed.

Lemma addr_add_complete b c vb vc : b ∼ vb -> c ∼ vc -> fits 48 (u64 (vb + vc)) ->
  exists cols events, AddrAddOperation.populate [] vb vc = Some (cols, events, u64 (vb + vc)) /\
    addr_limbs (AddrAddOperation.value cols) = take 3 (u64_to_u16_limbs (u64 (vb + vc))) /\
    events = add_u16_range_checks [] (take 3 (u64_to_u16_limbs (u64 (vb + vc)))) /\
    complete (AddrAddOperation.eval b c cols 1) events.
Proof.
  intros Hb Hc Ha. destruct (word_terms b c vb vc Hb Hc) as (ts & Hts & Bts & Ets).
  unfold AddrAddOperation.populate. set (addr := u64 (vb + vc)) in *.
  replace (addr ≫ 48 =? 0) with true
    by (symmetry; apply Z.eqb_eq; rewrite Z.shiftr_div_pow2 by lia; unfold fits in Ha; lia_mod).
  eexists _, _. do 3 (split; [reflexivity|]).
  apply complete_assert; [now apply holds_assert_bool; right|].
  apply (complete_app _ _ [] _).
  - apply (bit_carries_complete 1 _ ts _ (u64_to_u16_limbs addr) 0 0); try reflexivity;
      try assumption; try lia.
    + change (u64_to_u16_limbs addr) with (word_limbs (Word_from_u64 addr)).
      rewrite addr_limbs_small by assumption. reflexivity.
    + apply limbs_u16.
    + rewrite limbs_of_u64 by apply u64_fits. now rewrite Ets, Z.add_0_r.
  - apply (complete_slice_u16 _ (take 3 (u64_to_u16_limbs addr))); try reflexivity.
    apply Forall_take, limbs_u16.
Qed.

Lemma address_complete b c vb vc : b ∼ vb -> c ∼ vc -> 2 ^ 16 <= u64 (vb + vc) < 2 ^ 48 ->
  let addr := u64 (vb + vc) in
  exists cols events, AddressOperation.populate [] vb vc = Some (cols, events, addr) /\
    complete (AddressOperation.eval b c (addr mod 2) (addr / 2 mod 2) (addr / 4 mod 2) 1 cols).1 events.
Proof.
  intros Hb Hc Hr addr. fold addr in Hr.
  destruct (addr_add_complete b c vb vc Hb Hc) as (acols & aevents & Epop & Elimbs & _ & Hcomp);
    [unfold fits; fold addr; lia|].
  unfold AddressOperation.populate. rewrite Epop. fold addr in Elimbs |- *.
  pose proof order_large.
  assert (Htop : u16 (addr ≫ 16) + u16 (addr ≫ 32) ≭ 0).
  { rewrite !limb_of_u64 by lia. intros E. apply feq_small in E; lia_mod. }
  cbn [mbind option_bind]. rewrite decide_False by exact Htop.
  eexists _, _. split; [reflexivity|]. unfold AddressOperation.eval. cbn [fst].
  cbn [AddressOperation.addr_operation AddressOperation.top_two_limb_inv]. rewrite Elimbs.
  assert (Hbit : forall x, holds (AssertBool (x mod 2))).
  { intros x. apply holds_assert_bool.
    assert (x mod 2 = 0 \/ x mod 2 = 1) as [-> | ->] by lia_mod; [left|right]; reflexivity. }
  do 4 (apply complete_assert; [try apply Hbit; now apply holds_assert_bool; right|]).
  apply complete_app; [exact Hcomp|]. apply complete_assert.
  { apply holds_assert_eq. now apply finv_mul. }
  apply complete_send; try reflexivity; [| |apply complete_nil].
  - apply event_ok_range; [lia|]. cbn [nth u64_to_u16_limbs]. rewrite low_limb.
    unfold fits. lia_mod.
  - cbn [nth take u64_to_u16_limbs ev_a]. rewrite low_limb.
    replace (_ - _ - _ - _) with (addr mod 2 ^ 16 / 8 * 8) by lia_mod.
    rewrite <- Z.mul_assoc, (Z.mul_comm 8), (finv_mul _ eight_not_zero). now rewrite Z.mul_1_r.
Qed.

(** C20. [AddressOperation] is correct: on a real row its constraints force
    [b + c] (wrapping) to be an address of the range [[2^16, 2^48)], the
    offset bits to be its low three bits and the returned limbs to be the
    aligned address; and for every such sum the row of [populate] satisfies
    them with exactly the recorded byte lookups. *)
Theorem address_operation_correct b c vb vc : b ∼ vb -> c ∼ vc ->
  let addr := u64 (vb + vc) in
  (forall o0 o1 o2 r cols, r ≐ 1 -> sat (AddressOperation.eval b c o0 o1 o2 r cols).1 ->
    2 ^ 16 <= addr < 2 ^ 48 /\
    o0 ≐ addr mod 2 /\ o1 ≐ addr / 2 mod 2 /\ o2 ≐ addr / 4 mod 2 /\
    addr_repr (AddressOperation.eval b c o0 o1 o2 r cols).2 (addr - addr mod 8)) /\
  (2 ^ 16 <= addr < 2 ^ 48 ->
    exists cols events, AddressOperation.populate [] vb vc = Some (cols, events, addr) /\
      complete (AddressOperation.eval b c (addr mod 2) (addr / 2 mod 2) (addr / 4 mod 2) 1 cols).1
        events).
Proof.
  intros Hb Hc addr. split.
  - intros. now apply address_sound.
  - intros. now apply address_complete.
Qed.
End Address.

Section Clk.
Context `{AirBuilder}.

Lemma clk_operation_sound clk increment cols r clk_low inc : 0 <= clk -> fits 24 increment -> r ≐ 1 ->
  clk_low ≐ clk mod 2 ^ 24 -> inc ≐ increment -> sat (ClkOperation.eval clk_low inc cols r) ->
  ClkOperation.next_clk_low cols ≐ (clk + increment) mod 2 ^ 24 /\
  ClkOperation.next_clk_high cols (clk / 2 ^ 24) ≐ (clk + increment) / 2 ^ 24.
Proof.
  intros Hclk Hinc Hr Ecl Einc Hs. pose proof order_large. unfold fits in Hinc. unfold ClkOperation.eval in Hs.
  rewrite sat_app, !sat_cons in Hs. destruct Hs as ((_ & Hb & Heq & Hlo & _) & Hhi).
  apply (sat_bool r) in Hb as (o & Ho & Eo); [|assumption].
  apply holds_when in Heq; [|rewrite Hr; apply one_not_zero]. apply holds_assert_eq in Heq.
  destruct (sat_range 16 _ _ _ _ Hlo Hr) as (lo & Blo & Elo); [reflexivity|lia|].
  destruct (sat_slice_u8_pair _ _ _ Hhi Hr) as (hi & z & Bhi & _ & Ehi & _).
  unfold ClkOperation.next_clk_low, ClkOperation.next_clk_high in *.
  rewrite Elo, Ehi, Eo, Ecl, Einc in *. change (1 ≪ 16) with 65536 in *.
  change (1 ≪ 24) with 16777216 in *. unfold fits in *.
  apply feq_small in Heq; [|lia_mod].
  split; apply feq_exists; exists 0; lia_mod.
Qed.

(** The parts of the next clock that [populate] uses are those of the wrapping
    sum: a carry out of 64 bits changes the clock above bit 24 as well. *)
Lemma next_clk_wraps clk increment : fits 64 clk -> fits 24 increment ->
  let next := u64 (clk + increment) in
  u8 (Z.land (next ≫ 16) 0xFF) = u8 (Z.land ((clk + increment) ≫ 16) 0xFF) /\
  u16 (Z.land next 0xFFFF) = u16 (Z.land (clk + increment) 0xFFFF) /\
  (next ≫ 24 =? clk ≫ 24) = ((clk + increment) ≫ 24 =? clk ≫ 24).
Proof.
  intros Hc Hi. unfold fits in *. cbv zeta.
  change 0xFF with (Z.ones 8). change 0xFFFF with (Z.ones 16). rewrite !Z.land_ones, !Z.shiftr_div_pow2 by lia.
  unfold u64, u8, u16, wrap. split; [f_equal; lia_mod|]. split; [f_equal; lia_mod|].
  destruct (Z.eqb_spec ((clk + increment) / 2 ^ 24) (clk / 2 ^ 24)), (Z.eqb_spec ((clk + increment) mod 2 ^ 64 / 2 ^ 24) (clk / 2 ^ 24));
    lia_mod.
Qed.

Lemma clk_operation_complete clk increment : 0 <= clk -> fits 24 increment ->
  let '(cols, events) := ClkOperation.populate [] clk increment in
  complete (ClkOperation.eval (clk mod 2 ^ 24) increment cols 1) events.
Proof.
  intros Hclk Hinc. unfold fits in Hinc. unfold ClkOperation.populate. cbv zeta. set (next := clk + increment).
  assert (E16 : u8 (Z.land (next ≫ 16) 0xFF) = next / 2 ^ 16 mod 2 ^ 8).
  { change 0xFF with (Z.ones 8). rewrite Z.land_ones, Z.shiftr_div_pow2 by lia.
    unfold u8, wrap. now rewrite Zmod_mod. }
  assert (Eo : exists o, (o = 0 \/ o = 1) /\ from_bool (negb (next ≫ 24 =? clk ≫ 24)) = o /\
    next / 2 ^ 24 = clk / 2 ^ 24 + o).
  { eexists. split; [|split; [reflexivity|]]; rewrite !Z.shiftr_div_pow2 by lia;
      destruct (Z.eqb_spec (next / 2 ^ 24) (clk / 2 ^ 24)); simpl; subst next; lia_mod. }
  destruct Eo as (o & Ho & -> & Enext). rewrite E16, low_limb.
  apply complete_assert; [now apply holds_assert_bool; right|].
  apply complete_assert; [apply holds_assert_bool; destruct Ho as [-> | ->]; [left|right]; reflexivity|].
  apply complete_assert.
  { apply holds_when. intros _. apply holds_assert_eq. unfold ClkOperation.next_clk_low. simpl.
    change (1 ≪ 16) with 65536. change (1 ≪ 24) with 16777216.
    apply feq_exists. exists 0. subst next. lia_mod. }
  apply complete_send; try reflexivity.
  + apply event_ok_range; [lia|]. unfold fits. lia_mod.
  + apply complete_slice_u8_pair; try reflexivity; unfold fits; lia_mod.
Qed.
End Clk.

Section AddersCorrect.
Context `{AirBuilder}.

(** C19. The adders are correct: when the constraints of [AddOperation] or
    [SubOperation] hold on a real row, the result columns are the limbs of the
    wrapping 64-bit sum or difference; those of [AddwOperation] and
    [SubwOperation] force the two result limbs and the sign bit so that their
    sign extension is the 64-bit word of RISC-V [ADDW] or [SUBW]; those of
    [ClkOperation] force the two parts, split at bit 24, of the clock plus an
    increment of at most 24 bits.  The row that [populate] writes satisfies the
    constraints, the sends being exactly the recorded byte lookups. *)
Theorem adder_operations_correct a b va vb : a ∼ va -> b ∼ vb ->
  ((forall cols r, r ≐ 1 -> sat (AddOperation.eval a b cols r) -> AddOperation.value cols ∼ u64 (va + vb)) /\
   (let '(cols, events, result) := AddOperation.populate [] va vb in
    result = u64 (va + vb) /\ complete (AddOperation.eval a b cols 1) events)) /\
  ((forall cols r, r ≐ 1 -> sat (SubOperation.eval a b cols r) -> SubOperation.value cols ∼ u64 (va - vb)) /\
   (let '(cols, events, result) := SubOperation.populate [] va vb in
    result = u64 (va - vb) /\ complete (SubOperation.eval a b cols 1) events)) /\
  ((forall cols r, r ≐ 1 -> sat (AddwOperation.eval a b cols r) ->
      sign_extended (AddwOperation.value cols) (AddwOperation.msb cols) ∼ u64 (i32 (va + vb))) /\
   (let '(cols, events) := AddwOperation.populate [] va vb in
    complete (AddwOperation.eval a b cols 1) events)) /\
  ((forall cols r, r ≐ 1 -> sat (SubwOperation.eval a b cols r) ->
      sign_extended (SubwOperation.value cols) (SubwOperation.msb cols) ∼ u64 (i32 (va - vb))) /\
   (let '(cols, events) := SubwOperation.populate [] va vb in
    complete (SubwOperation.eval a b cols 1) events)) /\
  (forall clk increment, 0 <= clk -> fits 24 increment ->
   (forall cols r clk_low inc, r ≐ 1 -> clk_low ≐ clk mod 2 ^ 24 -> inc ≐ increment ->
      sat (ClkOperation.eval clk_low inc cols r) ->
      ClkOperation.next_clk_low cols ≐ (clk + increment) mod 2 ^ 24 /\
      ClkOperation.next_clk_high cols (clk / 2 ^ 24) ≐ (clk + increment) / 2 ^ 24) /\
   (let '(cols, events) := ClkOperation.populate [] clk increment in
    complete (ClkOperation.eval (clk mod 2 ^ 24) increment cols 1) events)).
Proof.
  intros Ha Hb. split; [|split; [|split; [|split]]]; [split..|].
  - intros cols r Hr Hs. now apply (add_sound a b _ _ _ r).
  - now apply add_complete.
  - intros cols r Hr Hs. now apply (sub_sound a b _ _ _ r).
  - now apply sub_complete.
  - intros cols r Hr Hs. now apply (addw_sound a b _ _ _ r).
  - now apply addw_complete.
  - intros cols r Hr Hs. now apply (subw_sound a b _ _ _ r).
  - now apply subw_complete.
  - intros clk increment Hclk Hinc. split; [|now apply clk_operation_complete].
    intros cols r clk_low inc Hr El Ei Hs. exact (clk_operation_sound clk increment cols r clk_low inc Hclk Hinc Hr El Ei Hs).
Qed.
End AddersCorrect.

(** ** Witnesses over the KoalaBear field

    Each correctness theorem at the limbs of two concrete words, with columns
    built by [populate]. *)
Section Witnesses.
Local Definition wa : Z := 0xFFFF_FFFF_8000_0001.
Local Definition wb : Z := 0x1_7FFF_FFFF.

Lemma wa_word : Word_from_u64 wa ∼ wa.
Proof. apply represents_from_u64. split; now vm_compute. Qed.
Lemma wb_word : Word_from_u64 wb ∼ wb.
Proof. apply represents_from_u64. split; now vm_compute. Qed.

Lemma adder_operations_correct_witness :
  complete (AddOperation.eval (Word_from_u64 wa) (Word_from_u64 wb)
    (AddOperation.populate [] wa wb).1.1 1) (AddOperation.populate [] wa wb).1.2 /\
  (AddOperation.populate [] wa wb).2 = 0x1_0000_0000 /\
  complete (SubwOperation.eval (Word_from_u64 wa) (Word_from_u64 wb)
    (SubwOperation.populate [] wa wb).1 1) (SubwOperation.populate [] wa wb).2.
Proof.
  pose proof (adder_operations_correct _ _ _ _ wa_word wb_word) as ([_ [E C]] & _ & _ & [_ Cw] & _).
  split; [exact C|]. split; [vm_compute; reflexivity|exact Cw].
Defined.

Lemma address_operation_correct_witness :
  exists cols events, AddressOperation.populate [] wa wb = Some (cols, events, 0x1_0000_0000) /\
    complete (AddressOperation.eval (Word_from_u64 wa) (Word_from_u64 wb) 0 0 0 1 cols).1 events.
Proof.
  refine (proj2 (address_operation_correct _ _ _ _ wa_word wb_word) _). split; now vm_compute.
Defined.
End Witnesses.
