(* ===== verification/LtOps.v ===== *)
(** * LtOps: comparisons and zero tests

    [operations/{u16_compare,is_zero,is_zero_word,is_equal_word,slt}.rs] of
    [core/machine]: the columns, [populate] and [eval] of each operation, and
    for each one theorem that its constraints decide the comparison and that
    the row written by [populate] satisfies them. *)
From Stdlib Require Import ZArith Lia Bool.
From stdpp Require Import base numbers option list.
From S2P Require Import Prelude Air KoalaBear ByteTable WordAir AddOps.
Import ByteOpcode (as_field).

Module U16CompareOperation.
Record t := mk { bit : Z }.

Definition populate (record : list ByteLookupEvent) (a_u16 b_u16 c_u16 : Z) :
  t * list ByteLookupEvent :=
  let diff := u16 (b_u16 - c_u16) in
  (mk a_u16,
   add_byte_lookup_event record (mkByteLookupEvent ByteOpcode.Range diff 16 0)).

Definition eval_compare_u16 (a b : Z) (cols : t) (is_real : Z) : list call :=
  let diff := a - b + bit cols * (1 ≪ 16) in
  [Assert (AssertBool is_real);
   Assert (AssertBool (bit cols));
   send_byte (ByteOpcode.as_u8 ByteOpcode.Range) diff 16 0 is_real].
End U16CompareOperation.

Module IsZeroOperation.
Record t := mk { inverse : Z; result : Z }.

Definition populate_from_field_element `{PrimeField} (a : Z) : t * Z :=
  if decide (a ≐ 0) then (mk 0 1, 1) else (mk (finv a) 0, 0).
Definition populate `{PrimeField} (a : Z) : t * Z := populate_from_field_element a.

Definition eval_is_zero (a : Z) (cols : t) (is_real : Z) : list call :=
  let is_zero := 1 - inverse cols * a in
  [Assert (When is_real (AssertEq is_zero (result cols)));
   Assert (When is_real (AssertBool (result cols)));
   Assert (When is_real (When (result cols) (AssertZero a)))].
End IsZeroOperation.

Module IsZeroWordOperation.
Record t := mk {
  is_zero_limb : list IsZeroOperation.t;
  is_zero_first_half : Z;
  is_zero_second_half : Z;
  result : Z }.

Definition limb_result (l : list IsZeroOperation.t) (i : nat) : Z :=
  IsZeroOperation.result (nth i l (IsZeroOperation.mk 0 0)).

Definition populate_from_field_element `{PrimeField} (a : Word) : t * Z :=
  let limbs := IsZeroOperation.populate_from_field_element <$> word_limbs a in
  let is_zero := forallb (fun x => x.2 =? 1) limbs in
  let is_zero_limb := limbs.*1 in
  (mk is_zero_limb
     (limb_result is_zero_limb 0 * limb_result is_zero_limb 1)
     (limb_result is_zero_limb 2 * limb_result is_zero_limb 3)
     (from_bool is_zero), from_bool is_zero).
Definition populate `{PrimeField} (a_u64 : Z) : t * Z :=
  populate_from_field_element (Word_from_u64 a_u64).

Definition eval_zero_word (a : Word) (cols : t) (is_real : Z) : list call :=
  concat ((fun i => IsZeroOperation.eval_is_zero a.[i]
    (nth i (is_zero_limb cols) (IsZeroOperation.mk 0 0)) is_real) <$> seq 0 WORD_SIZE) ++
  [Assert (AssertBool is_real);
   Assert (AssertBool (result cols));
   Assert (AssertEq (is_zero_first_half cols)
     (limb_result (is_zero_limb cols) 0 * limb_result (is_zero_limb cols) 1));
   Assert (AssertEq (is_zero_second_half cols)
     (limb_result (is_zero_limb cols) 2 * limb_result (is_zero_limb cols) 3));
   Assert (When is_real
     (AssertEq (result cols) (is_zero_first_half cols * is_zero_second_half cols)))].
End IsZeroWordOperation.

Module IsEqualWordOperation.
Record t := mk { is_diff_zero : IsZeroWordOperation.t }.

Definition populate `{PrimeField} (a_u64 b_u64 : Z) : t * Z :=
  let a := u64_to_u16_limbs a_u64 in
  let b := u64_to_u16_limbs b_u64 in
  let diff := Word_of_fn (fun i => nth i a 0 - nth i b 0) in
  (mk (IsZeroWordOperation.populate_from_field_element diff).1, from_bool (a_u64 =? b_u64)).

Definition eval_is_equal_word (a b : Word) (cols : t) (is_real : Z) : list call :=
  let diff := Word_of_fn (fun i => a.[i] - b.[i]) in
  Assert (AssertBool is_real) ::
  IsZeroWordOperation.eval_zero_word diff (is_diff_zero cols) is_real.
End IsEqualWordOperation.

Module LtOperationUnsigned.
Record t := mk {
  u16_compare_operation : U16CompareOperation.t;
  u16_flags : Word;
  not_eq_inv : Z;
  comparison_limbs : half }.
Definition default : t := mk (U16CompareOperation.mk 0) word_zero 0 (0, 0).

Definition set_flag (flags : Word) (i : nat) : Word :=
  Word_of_fn (fun j => if decide (i = j) then 1 else flags.[j]).

(** The loop from the most significant limb, up to the first pair that
    differs; [indices] are the limb indices still to visit. *)
Fixpoint find_limb `{PrimeField} (self : t) (b_limbs c_limbs : list Z) (indices : list nat) :
  t * (Z * Z) :=
  match indices with
  | [] => (self, (0, 0))
  | i :: indices =>
      let b_limb := nth i b_limbs 0 in
      let c_limb := nth i c_limbs 0 in
      if b_limb =? c_limb then find_limb self b_limbs c_limbs indices
      else (mk (u16_compare_operation self) (set_flag (u16_flags self) i)
              (finv (b_limb - c_limb)) (b_limb, c_limb), (b_limb, c_limb))
  end.

Definition populate_unsigned `{PrimeField} (self : t) (record : list ByteLookupEvent)
  (a_u64 b_u64 c_u64 : Z) : t * list ByteLookupEvent :=
  let a_u16 := nth 0 (u64_to_u16_limbs a_u64) 0 in
  let '(self, (b_comp, c_comp)) :=
    find_limb self (u64_to_u16_limbs b_u64) (u64_to_u16_limbs c_u64) [3; 2; 1; 0]%nat in
  let '(compare, record) := U16CompareOperation.populate record a_u16 b_comp c_comp in
  (mk compare (u16_flags self) (not_eq_inv self) (comparison_limbs self), record).

(** The body of the loop over the limbs: the inequality flag, the two
    comparison limbs and the calls so far. *)
Definition loop_body (b c flags : Word) (is_real : Z) (st : Z * Z * Z * list call) (i : nat) :
  Z * Z * Z * list call :=
  let '(is_inequality_visited, b_comparison_limb, c_comparison_limb, calls) := st in
  let is_inequality_visited := is_inequality_visited + flags.[i] in
  (is_inequality_visited,
   b_comparison_limb + b.[i] * flags.[i],
   c_comparison_limb + c.[i] * flags.[i],
   calls ++ [Assert (When (is_real - is_inequality_visited) (AssertEq b.[i] c.[i]))]).

Definition eval_lt_unsigned (b c : Word) (cols : t) (is_real : Z) : list call :=
  let flags := u16_flags cols in
  let sum_flags := flags.[0] + flags.[1] + flags.[2] + flags.[3] in
  let is_comp_eq := 1 - sum_flags in
  let '(_, b_comparison_limb, c_comparison_limb, calls) :=
    fold_left (loop_body b c flags is_real) [3; 2; 1; 0]%nat (0, 0, 0, []) in
  let '(b_comp_limb, c_comp_limb) := comparison_limbs cols in
  [Assert (AssertBool is_real); Assert (AssertBool flags.[0]); Assert (AssertBool flags.[1]);
   Assert (AssertBool flags.[2]); Assert (AssertBool flags.[3]); Assert (AssertBool sum_flags)] ++
  calls ++
  [Assert (AssertEq b_comparison_limb b_comp_limb);
   Assert (AssertEq c_comparison_limb c_comp_limb);
   Assert (when_not is_comp_eq
     (AssertEq (not_eq_inv cols * (b_comp_limb - c_comp_limb)) is_real))] ++
  U16CompareOperation.eval_compare_u16 b_comp_limb c_comp_limb (u16_compare_operation cols) is_real.
End LtOperationUnsigned.

Module LtOperationSigned.
Record t := mk {
  result : LtOperationUnsigned.t;
  b_msb : U16MSBOperation.t;
  c_msb : U16MSBOperation.t }.
Definition default : t :=
  mk LtOperationUnsigned.default (U16MSBOperation.mk 0) (U16MSBOperation.mk 0).

Definition populate_signed `{PrimeField} (self : t) (record : list ByteLookupEvent)
  (a_u64 b_u64 c_u64 : Z) (is_signed : bool) : t * list ByteLookupEvent :=
  let b_comp := u64_to_u16_limbs b_u64 in
  let c_comp := u64_to_u16_limbs c_u64 in
  if is_signed then
    let '(b_msb, record, _) := U16MSBOperation.populate_msb record (nth 3 b_comp 0) in
    let '(c_msb, record, _) := U16MSBOperation.populate_msb record (nth 3 c_comp 0) in
    let '(result, record) := LtOperationUnsigned.populate_unsigned (result self) record
      a_u64 (Z.lxor b_u64 (1 ≪ 63)) (Z.lxor c_u64 (1 ≪ 63)) in
    (mk result b_msb c_msb, record)
  else
    let '(result, record) :=
      LtOperationUnsigned.populate_unsigned (result self) record a_u64 b_u64 c_u64 in
    (mk result (b_msb self) (c_msb self), record).

Definition flip_sign (w : Word) (is_signed msb : Z) : Word :=
  mkWord w.[0] w.[1] w.[2] (w.[3] + is_signed * (1 ≪ 15) - (1 ≪ 16) * msb).

Definition eval_lt_signed (b c : Word) (cols : t) (is_signed is_real : Z) : list call :=
  let msb_b := U16MSBOperation.msb (b_msb cols) in
  let msb_c := U16MSBOperation.msb (c_msb cols) in
  [Assert (AssertBool is_signed); Assert (AssertBool is_real);
   Assert (when_not is_real (AssertZero is_signed))] ++
  U16MSBOperation.eval_msb b.[3] (b_msb cols) is_signed ++
  U16MSBOperation.eval_msb c.[3] (c_msb cols) is_signed ++
  [Assert (when_not is_signed (AssertZero msb_b));
   Assert (when_not is_signed (AssertZero msb_c))] ++
  LtOperationUnsigned.eval_lt_unsigned (flip_sign b is_signed msb_b) (flip_sign c is_signed msb_c)
    (result cols) is_real.
End LtOperationSigned.

(** ** Correctness *)

Section ZeroTests.
Context `{AirBuilder}.

Lemma feq_from_bool (b b' : bool) : from_bool b ≐ from_bool b' -> b = b'.
Proof.
  pose proof order_large. intros E. apply feq_small in E; destruct b, b'; simpl in *; congruence || lia.
Qed.

(** The constraints under [when is_real] of a real row. *)
Lemma holds_when_real r k : r ≐ 1 -> holds (When r k) <-> holds k.
Proof. intros Hr. rewrite holds_when, Hr. pose proof one_not_zero. tauto. Qed.

Lemma is_zero_sound a cols r : r ≐ 1 -> sat (IsZeroOperation.eval_is_zero a cols r) ->
  IsZeroOperation.result cols ≐ from_bool (bool_decide (a ≐ 0)).
Proof.
  intros Hr Hs. unfold IsZeroOperation.eval_is_zero in Hs. rewrite !sat_cons in Hs.
  destruct Hs as (H1 & H2 & H3 & _).
  rewrite sat_assert in H1, H2, H3. rewrite holds_when_real in H1, H2, H3 by assumption.
  rewrite holds_assert_eq in H1. rewrite holds_assert_bool in H2.
  rewrite holds_when, holds_assert_zero in H3.
  case_bool_decide as Ha.
  - rewrite <- H1, Ha, Z.mul_0_r. reflexivity.
  - destruct H2 as [E|E]; [exact E|]. exfalso. apply Ha, H3. rewrite E. apply one_not_zero.
Qed.

Lemma is_zero_complete a a' r : a ≐ a' -> r ≐ 1 ->
  let '(cols, result) := IsZeroOperation.populate_from_field_element a' in
  IsZeroOperation.result cols = result /\ result = from_bool (bool_decide (a' ≐ 0)) /\
  complete (IsZeroOperation.eval_is_zero a cols r) [].
Proof.
  intros Ea Hr. unfold IsZeroOperation.populate_from_field_element.
  destruct (decide (a' ≐ 0)) as [E|E].
  - rewrite bool_decide_true by assumption. do 2 (split; [reflexivity|]).
    repeat apply complete_assert; try apply complete_nil;
      apply holds_when; intros _; simpl.
    + apply holds_assert_eq. reflexivity.
    + apply holds_assert_bool. now right.
    + apply holds_when. intros _. apply holds_assert_zero. now rewrite Ea.
  - rewrite bool_decide_false by assumption. do 2 (split; [reflexivity|]).
    repeat apply complete_assert; try apply complete_nil;
      apply holds_when; intros _; simpl.
    + apply holds_assert_eq. rewrite Ea, (finv_mul _ E). reflexivity.
    + apply holds_assert_bool. now left.
    + apply holds_when. intros N. now destruct N.
Qed.

Lemma from_bool_mul x y : from_bool x * from_bool y = from_bool (x && y).
Proof. destruct x, y; reflexivity. Qed.

Definition word_is_zero (w : Word) : bool :=
  bool_decide (w.[0] ≐ 0) && bool_decide (w.[1] ≐ 0) &&
  (bool_decide (w.[2] ≐ 0) && bool_decide (w.[3] ≐ 0)).

Lemma is_zero_word_sound a cols r : r ≐ 1 ->
  sat (IsZeroWordOperation.eval_zero_word a cols r) ->
  IsZeroWordOperation.result cols ≐ from_bool (word_is_zero a).
Proof.
  intros Hr Hs. unfold IsZeroWordOperation.eval_zero_word in Hs. rewrite sat_app in Hs.
  destruct Hs as [Hl Hs]. cbn [fmap list_fmap seq WORD_SIZE concat] in Hl.
  rewrite !sat_app in Hl. destruct Hl as (L0 & L1 & L2 & L3 & _).
  apply is_zero_sound in L0, L1, L2, L3; try assumption.
  rewrite !sat_cons in Hs. destruct Hs as (_ & _ & H1 & H2 & H3 & _).
  rewrite sat_assert in H1, H2, H3. rewrite holds_when_real in H3 by assumption.
  rewrite holds_assert_eq in H1, H2, H3. rewrite H3, H1, H2.
  unfold IsZeroWordOperation.limb_result. rewrite L0, L1, L2, L3, !from_bool_mul. reflexivity.
Qed.
End ZeroTests.

Section EqualWord.
Context `{AirBuilder}.

Lemma is_zero_word_complete w w' : Forall2 feq (word_limbs w) (word_limbs w') ->
  let '(cols, result) := IsZeroWordOperation.populate_from_field_element w' in
  result = from_bool (word_is_zero w') /\ IsZeroWordOperation.result cols = result /\
  complete (IsZeroWordOperation.eval_zero_word w cols 1) [].
Proof.
  intros Hw. unfold IsZeroWordOperation.populate_from_field_element.
  pose proof (fun i => word_feq_limb w w' i Hw) as Hi.
  pose proof (is_zero_complete w.[0] w'.[0] 1 (Hi 0%nat) (reflexivity 1)) as L0.
  pose proof (is_zero_complete w.[1] w'.[1] 1 (Hi 1%nat) (reflexivity 1)) as L1.
  pose proof (is_zero_complete w.[2] w'.[2] 1 (Hi 2%nat) (reflexivity 1)) as L2.
  pose proof (is_zero_complete w.[3] w'.[3] 1 (Hi 3%nat) (reflexivity 1)) as L3.
  unfold word_limbs. unfold limb in L0, L1, L2, L3. cbn [nth word_limbs] in L0, L1, L2, L3.
  cbn [fmap list_fmap].
  destruct (IsZeroOperation.populate_from_field_element (limb0 w')) as [c0 r0] eqn:P0.
  destruct (IsZeroOperation.populate_from_field_element (limb1 w')) as [c1 r1] eqn:P1.
  destruct (IsZeroOperation.populate_from_field_element (limb2 w')) as [c2 r2] eqn:P2.
  destruct (IsZeroOperation.populate_from_field_element (limb3 w')) as [c3 r3] eqn:P3.
  destruct L0 as (R0 & B0 & C0), L1 as (R1 & B1 & C1), L2 as (R2 & B2 & C2), L3 as (R3 & B3 & C3).
  cbn [forallb fst snd]. unfold word_is_zero, limb. cbn [nth word_limbs].
  set (z0 := bool_decide (limb0 w' ≐ 0)) in *. set (z1 := bool_decide (limb1 w' ≐ 0)) in *.
  set (z2 := bool_decide (limb2 w' ≐ 0)) in *. set (z3 := bool_decide (limb3 w' ≐ 0)) in *.
  assert (Ez : (r0 =? 1) && ((r1 =? 1) && ((r2 =? 1) && ((r3 =? 1) && true)))
    = z0 && z1 && (z2 && z3)) by (rewrite B0, B1, B2, B3; destruct z0, z1, z2, z3; reflexivity).
  rewrite Ez. do 2 (split; [reflexivity|]).
  apply (complete_app _ _ [] []).
  - repeat (apply (complete_app _ _ [] []); [assumption|]). apply complete_nil.
  - unfold IsZeroWordOperation.limb_result. cbn [nth IsZeroWordOperation.is_zero_limb
      IsZeroWordOperation.is_zero_first_half IsZeroWordOperation.is_zero_second_half
      IsZeroWordOperation.result]. rewrite R0, R1, R2, R3, B0, B1, B2, B3.
    repeat apply complete_assert; try apply complete_nil.
    + now apply holds_assert_bool; right.
    + apply holds_assert_bool. destruct (z0 && z1 && (z2 && z3)); [right|left]; reflexivity.
    + now apply holds_assert_eq.
    + now apply holds_assert_eq.
    + apply holds_when. intros _. apply holds_assert_eq. rewrite !from_bool_mul. reflexivity.
Qed.

Lemma diff_is_zero a b va vb : a ∼ va -> b ∼ vb ->
  word_is_zero (Word_of_fn (fun i => a.[i] - b.[i])) = (va =? vb).
Proof.
  intros Ha Hb. destruct_word Ha as x0 x1 x2 x3. destruct_word Hb as y0 y1 y2 y3.
  assert (D : forall x y x' y', x ≐ x' -> y ≐ y' -> is_u16 x' -> is_u16 y' ->
    bool_decide (x - y ≐ 0) = (x' =? y')).
  { intros x y x' y' Ex Ey Bx By. pose proof order_large. unfold fits in *.
    destruct (Z.eqb_spec x' y') as [->|N].
    - apply bool_decide_true. now rewrite Ex, Ey, Z.sub_diag.
    - apply bool_decide_false. rewrite Ex, Ey. intros E. apply feq_small in E; lia. }
  unfold word_is_zero. change (Word_of_fn _).[0] with (a.[0] - b.[0]).
  change (Word_of_fn _).[1] with (a.[1] - b.[1]). change (Word_of_fn _).[2] with (a.[2] - b.[2]).
  change (Word_of_fn _).[3] with (a.[3] - b.[3]).
  rewrite (D _ _ x0 y0), (D _ _ x1 y1), (D _ _ x2 y2), (D _ _ x3 y3) by assumption.
  subst va vb. unfold fits in *.
  apply eq_true_iff_eq. rewrite !andb_true_iff, !Z.eqb_eq. lia.
Qed.

(** C23. [IsEqualWordOperation] decides equality of words: on a real row its
    constraints force the result column to the truth value of [a = b], and the
    row of [populate] satisfies them without byte lookups. *)
Theorem is_equal_word_correct a b va vb : a ∼ va -> b ∼ vb ->
  (forall cols r, r ≐ 1 -> sat (IsEqualWordOperation.eval_is_equal_word a b cols r) ->
     IsZeroWordOperation.result (IsEqualWordOperation.is_diff_zero cols) ≐ from_bool (va =? vb)) /\
  (let '(cols, result) := IsEqualWordOperation.populate va vb in
   result = from_bool (va =? vb) /\
   IsZeroWordOperation.result (IsEqualWordOperation.is_diff_zero cols) = result /\
   complete (IsEqualWordOperation.eval_is_equal_word a b cols 1) []).
Proof.
  intros Ha Hb. split.
  - intros cols r Hr Hs. apply sat_cons in Hs as [_ Hs].
    apply is_zero_word_sound in Hs; [|assumption]. now rewrite (diff_is_zero a b va vb) in Hs.
  - unfold IsEqualWordOperation.populate. cbv zeta.
    set (d' := Word_of_fn (fun i => nth i (u64_to_u16_limbs va) 0 - nth i (u64_to_u16_limbs vb) 0)).
    pose proof (is_zero_word_complete (Word_of_fn (fun i => a.[i] - b.[i])) d') as C.
    assert (Ed : word_is_zero d' = (va =? vb)).
    { apply (diff_is_zero (Word_from_u64 va) (Word_from_u64 vb)); apply represents_from_u64;
        [apply Ha|apply Hb]. }
    destruct (IsZeroWordOperation.populate_from_field_element d') as [cols res].
    destruct C as (E1 & E2 & C).
    { apply word_feq_intro. destruct Ha as [_ Fa], Hb as [_ Fb].
      pose proof (fun i => word_feq_limb _ _ i Fa) as Ia.
      pose proof (fun i => word_feq_limb _ _ i Fb) as Ib.
      intros [|[|[|[|i]]]]; try reflexivity; now apply feq_sub. }
    simpl. rewrite E2, E1, Ed. do 2 (split; [reflexivity|]).
    apply complete_assert; [now apply holds_assert_bool; right|exact C].
Qed.
End EqualWord.

Section Lt.
Context `{AirBuilder}.

Lemma compare_sound a b x y cols r : a ≐ x -> b ≐ y -> is_u16 x -> is_u16 y -> r ≐ 1 ->
  sat (U16CompareOperation.eval_compare_u16 a b cols r) ->
  U16CompareOperation.bit cols ≐ from_bool (x <? y).
Proof.
  intros Ea Eb Bx By Hr Hs. unfold U16CompareOperation.eval_compare_u16 in Hs.
  rewrite !sat_cons in Hs. destruct Hs as (_ & Hb & Hd & _).
  apply (sat_bool r) in Hb as (m & Hm & Em); [|assumption].
  destruct (sat_range 16 _ _ _ _ Hd Hr) as (d & Bd & Ed); [reflexivity|lia|].
  rewrite Ea, Eb, Em in Ed. change (1 ≪ 16) with 65536 in Ed.
  pose proof order_large. unfold fits in *. apply feq_small in Ed; [|lia].
  rewrite Em. replace (from_bool (x <? y)) with m; [reflexivity|].
  destruct (Z.ltb_spec x y); simpl; lia.
Qed.

Lemma compare_complete a b x y : a ≐ x -> b ≐ y -> is_u16 x -> is_u16 y ->
  let '(cols, events) := U16CompareOperation.populate [] (from_bool (x <? y)) x y in
  complete (U16CompareOperation.eval_compare_u16 a b cols 1) events.
Proof.
  intros Ea Eb Bx By. unfold U16CompareOperation.populate, fits in *.
  apply complete_assert; [now apply holds_assert_bool; right|].
  apply complete_assert.
  { apply holds_assert_bool. cbn. destruct (x <? y); [right|left]; reflexivity. }
  apply complete_send; try reflexivity; [| |apply complete_nil].
  - apply event_ok_range; [lia|]. auto with ints.
  - cbn [U16CompareOperation.bit ev_a]. rewrite Ea, Eb. apply feq_exists. exists 0.
    change (1 ≪ 16) with 65536. unfold u16, wrap.
    destruct (Z.ltb_spec x y); simpl from_bool; lia_mod.
Qed.

Lemma flags_cases f0 f1 f2 f3 :
  (f0 = 0 \/ f0 = 1) -> (f1 = 0 \/ f1 = 1) -> (f2 = 0 \/ f2 = 1) -> (f3 = 0 \/ f3 = 1) ->
  f0 + f1 + f2 + f3 ≐ 0 \/ f0 + f1 + f2 + f3 ≐ 1 ->
  (f0, f1, f2, f3) ∈ [(0, 0, 0, 0); (0, 0, 0, 1); (0, 0, 1, 0); (0, 1, 0, 0); (1, 0, 0, 0)].
Proof.
  intros H0' H1' H2' H3' Hs. pose proof order_large.
  assert (f0 + f1 + f2 + f3 = 0 \/ f0 + f1 + f2 + f3 = 1) as Hs'
    by (destruct Hs as [E|E]; apply feq_small in E; lia).
  rewrite !elem_of_cons.
  destruct H0' as [-> | ->], H1' as [-> | ->], H2' as [-> | ->], H3' as [-> | ->];
    try (exfalso; lia); tauto.
Qed.

Lemma when_eq r k : ~ r ≐ 0 -> holds (When r k) -> holds k.
Proof. rewrite holds_when. tauto. Qed.

(** The inverse hint shows that the two limbs differ. *)
Lemma inverse_differs i x y : i * (x - y) ≐ 1 -> x <> y.
Proof. intros E ->. rewrite Z.sub_diag, Z.mul_0_r in E. symmetry in E. now apply one_not_zero in E. Qed.

Lemma compare_at a b x y cols r : a ≐ x -> b ≐ y -> r ≐ 1 ->
  sat (U16CompareOperation.eval_compare_u16 a b cols r) -> is_u16 x -> is_u16 y ->
  U16CompareOperation.bit cols ≐ from_bool (x <? y).
Proof. intros. now apply (compare_sound a b x y cols r). Qed.

Lemma feq_ltb u v u' v' : (u < v <-> u' < v') -> from_bool (u <? v) ≐ from_bool (u' <? v').
Proof.
  intros E. replace (u <? v) with (u' <? v'); [reflexivity|].
  apply eq_true_iff_eq. rewrite !Z.ltb_lt. tauto.
Qed.

(** Use a guarded equation of the loop when its guard is a nonzero constant. *)
Ltac use_guard W :=
  match type of W with ?P -> _ =>
    let N := fresh "N" in
    first [ assert (N : P) by
              (let E := fresh in let L := fresh in intros E; pose proof order_large as L;
               apply feq_small in E; lia);
            specialize (W N); clear N
          | clear W ] end.
Ltac use_limbs W :=
  use_guard W; try (apply feq_small in W; [|pose proof order_large; unfold fits in *; lia]).

(** No flag is set exactly when the words are equal. *)
Definition flags_equal (cols : LtOperationUnsigned.t) : Z :=
  1 - ((LtOperationUnsigned.u16_flags cols).[0] + (LtOperationUnsigned.u16_flags cols).[1] +
       (LtOperationUnsigned.u16_flags cols).[2] + (LtOperationUnsigned.u16_flags cols).[3]).

Lemma feq_eqb u v x y : (u = v <-> x = y) -> from_bool (u =? v) ≐ from_bool (x =? y).
Proof.
  intros E. replace (u =? v) with (x =? y); [reflexivity|]. apply eq_true_iff_eq. rewrite !Z.eqb_eq. tauto.
Qed.

Lemma lt_unsigned_sound b c vb vc cols r : b ∼ vb -> c ∼ vc -> r ≐ 1 ->
  sat (LtOperationUnsigned.eval_lt_unsigned b c cols r) ->
  U16CompareOperation.bit (LtOperationUnsigned.u16_compare_operation cols) ≐ from_bool (vb <? vc) /\
  flags_equal cols ≐ from_bool (vb =? vc).
Proof.
  intros Hb Hc Hr Hs. destruct_word Hb as x0 x1 x2 x3. destruct_word Hc as y0 y1 y2 y3.
  destruct cols as [cmp fl inv [bl cl]]. unfold LtOperationUnsigned.eval_lt_unsigned in Hs.
  cbn [LtOperationUnsigned.u16_flags LtOperationUnsigned.comparison_limbs fold_left
       LtOperationUnsigned.loop_body LtOperationUnsigned.not_eq_inv
       LtOperationUnsigned.u16_compare_operation] in Hs |- *.
  rewrite !sat_app, !sat_cons in Hs.
  destruct Hs as ((_ & F0 & F1 & F2 & F3 & FS & _) & W & (HB & HC & HI & _) & Hcmp).
  apply (sat_bool r) in F0 as (f0 & D0 & E0); [|assumption].
  apply (sat_bool r) in F1 as (f1 & D1 & E1); [|assumption].
  apply (sat_bool r) in F2 as (f2 & D2 & E2); [|assumption].
  apply (sat_bool r) in F3 as (f3 & D3 & E3); [|assumption].
  destruct W as ((((_ & W3 & _) & W2 & _) & W1 & _) & W0 & _).
  rewrite sat_assert in W0, W1, W2, W3, HB, HC, HI, FS.
  rewrite holds_when, holds_assert_eq in W0, W1, W2, W3. unfold when_not in HI.
  rewrite holds_assert_eq in HB, HC. rewrite holds_when_ne, holds_assert_eq in HI.
  rewrite holds_assert_bool in FS.
  rewrite E0, E1, E2, E3 in FS. rewrite E3, Hr in W3. rewrite E3, E2, Hr in W2.
  rewrite E3, E2, E1, Hr in W1. rewrite E3, E2, E1, E0, Hr in W0.
  rewrite E0, E1, E2, E3 in HB, HC, HI. rewrite Hr in HI.
  rewrite H6, H7, H8, H9 in HB. rewrite H15, H16, H17, H18 in HC.
  rewrite H6, H15 in W0. rewrite H7, H16 in W1. rewrite H8, H17 in W2. rewrite H9, H18 in W3.
  pose proof (flags_cases f0 f1 f2 f3 D0 D1 D2 D3 FS) as Hf.
  symmetry in HB, HC. rewrite HB, HC in HI. rewrite !elem_of_cons, elem_of_nil in Hf.
  destruct Hf as [[= -> -> -> ->]|[[= -> -> -> ->]|[[= -> -> -> ->]|[[= -> -> -> ->]|[[= -> -> -> ->]|[]]]]]];
    use_limbs W0; use_limbs W1; use_limbs W2; use_limbs W3; use_guard HI;
    try apply inverse_differs in HI; unfold flags_equal; cbn [LtOperationUnsigned.u16_flags];
    (split; [rewrite (compare_at _ _ _ _ _ _ HB HC Hr Hcmp) by (unfold fits in *; lia);
             apply feq_ltb; unfold fits in *; lia
            |rewrite E0, E1, E2, E3; first [apply (feq_eqb 0 0); unfold fits in *; lia
                                           |apply (feq_eqb 0 1); unfold fits in *; lia]]).
Qed.

(** The row for given flags, when the limbs above the flagged one agree. *)
Lemma lt_row_complete b c x0 x1 x2 x3 y0 y1 y2 y3 f0 f1 f2 f3 inv u v z :
  b.[0] ≐ x0 -> b.[1] ≐ x1 -> b.[2] ≐ x2 -> b.[3] ≐ x3 ->
  c.[0] ≐ y0 -> c.[1] ≐ y1 -> c.[2] ≐ y2 -> c.[3] ≐ y3 ->
  0 <= f0 -> 0 <= f1 -> 0 <= f2 -> 0 <= f3 -> f0 + f1 + f2 + f3 <= 1 ->
  (f3 = 0 -> x3 = y3) -> (f3 + f2 = 0 -> x2 = y2) -> (f3 + f2 + f1 = 0 -> x1 = y1) ->
  (f3 + f2 + f1 + f0 = 0 -> x0 = y0) ->
  u = x3 * f3 + x2 * f2 + x1 * f1 + x0 * f0 -> v = y3 * f3 + y2 * f2 + y1 * f1 + y0 * f0 ->
  is_u16 u -> is_u16 v -> (f0 + f1 + f2 + f3 = 1 -> inv * (u - v) ≐ 1) ->
  z = from_bool (u <? v) ->
  complete (LtOperationUnsigned.eval_lt_unsigned b c
    (LtOperationUnsigned.mk (U16CompareOperation.mk z) (mkWord f0 f1 f2 f3) inv (u, v)) 1)
    [mkByteLookupEvent ByteOpcode.Range (u16 (u - v)) 16 0].
Proof.
  intros X0 X1 X2 X3 Y0 Y1 Y2 Y3 P0 P1 P2 P3 Hf G3 G2 G1 G0 Eu Ev Bu Bv Hinv ->.
  pose proof (compare_complete u v u v (reflexivity u) (reflexivity v) Bu Bv) as Hcmp.
  unfold U16CompareOperation.populate in Hcmp.
  unfold LtOperationUnsigned.eval_lt_unsigned.
  cbn [LtOperationUnsigned.u16_flags LtOperationUnsigned.comparison_limbs fold_left
       LtOperationUnsigned.loop_body LtOperationUnsigned.not_eq_inv
       LtOperationUnsigned.u16_compare_operation app].
  change (mkWord f0 f1 f2 f3).[0] with f0. change (mkWord f0 f1 f2 f3).[1] with f1.
  change (mkWord f0 f1 f2 f3).[2] with f2. change (mkWord f0 f1 f2 f3).[3] with f3.
  assert (Hbool : forall k, k = 0 \/ k = 1 -> holds (AssertBool k)).
  { intros k [-> | ->]; apply holds_assert_bool; [left|right]; reflexivity. }
  assert (Hguard : forall g p q p' q', p ≐ p' -> q ≐ q' -> (g <> 0 -> p' = q') ->
    holds (When g (AssertEq p q))).
  { intros g p q p' q' Ep Eq Hg. apply holds_when. intros N. apply holds_assert_eq.
    rewrite Ep, Eq, Hg; [reflexivity|]. intros ->. now apply N. }
  do 6 (apply complete_assert; [apply Hbool; lia|]).
  apply complete_assert; [apply (Hguard _ _ _ x3 y3); try assumption; lia|].
  apply complete_assert; [apply (Hguard _ _ _ x2 y2); try assumption; lia|].
  apply complete_assert; [apply (Hguard _ _ _ x1 y1); try assumption; lia|].
  apply complete_assert; [apply (Hguard _ _ _ x0 y0); try assumption; lia|].
  apply complete_assert; [apply holds_assert_eq; now rewrite X0, X1, X2, X3, Eu|].
  apply complete_assert; [apply holds_assert_eq; now rewrite Y0, Y1, Y2, Y3, Ev|].
  apply complete_assert; [|exact Hcmp].
  apply holds_when_ne. intros N. apply holds_assert_eq, Hinv.
  destruct (Z.eq_dec (f0 + f1 + f2 + f3) 0) as [E|]; [|lia]. rewrite E in N. now destruct N.
Qed.

Lemma limbs_of_repr w v : w ∼ v -> exists x0 x1 x2 x3, u64_to_u16_limbs v = [x0; x1; x2; x3] /\
  is_u16 x0 /\ is_u16 x1 /\ is_u16 x2 /\ is_u16 x3 /\
  v = x0 + 2 ^ 16 * x1 + 2 ^ 32 * x2 + 2 ^ 48 * x3 /\
  w.[0] ≐ x0 /\ w.[1] ≐ x1 /\ w.[2] ≐ x2 /\ w.[3] ≐ x3.
Proof.
  intros Hw. destruct_word Hw as x0 x1 x2 x3. exists x0, x1, x2, x3.
  split; [|repeat (split; [assumption|]); assumption].
  change (u64_to_u16_limbs v) with (word_limbs (Word_from_u64 v)). subst v.
  now rewrite Word_from_u64_limbs.
Qed.

Lemma lt_unsigned_complete b c vb vc : b ∼ vb -> c ∼ vc ->
  let '(cols, events) := LtOperationUnsigned.populate_unsigned LtOperationUnsigned.default []
    (from_bool (vb <? vc)) vb vc in
  complete (LtOperationUnsigned.eval_lt_unsigned b c cols 1) events.
Proof.
  intros Hb Hc. unfold LtOperationUnsigned.populate_unsigned.
  destruct (limbs_of_repr b vb Hb) as (x0 & x1 & x2 & x3 & -> & ? & ? & ? & ? & ? & ? & ? & ? & ?).
  destruct (limbs_of_repr c vc Hc) as (y0 & y1 & y2 & y3 & -> & ? & ? & ? & ? & ? & ? & ? & ? & ?).
  replace (nth 0 (u64_to_u16_limbs (from_bool (vb <? vc))) 0) with (from_bool (vb <? vc))
    by (destruct (vb <? vc); reflexivity).
  cbn [LtOperationUnsigned.find_limb nth]. unfold fits in *.
  assert (Hinv : forall x y, x <> y -> 0 <= x < 2 ^ 16 -> 0 <= y < 2 ^ 16 -> finv (x - y) * (x - y) ≐ 1).
  { intros x y N Bx By. apply finv_mul. intros E. pose proof order_large. apply feq_small in E; lia. }
  assert (Hz : forall u v, (vb < vc <-> u < v) -> from_bool (vb <? vc) = from_bool (u <? v)).
  { intros u v E. f_equal. apply eq_true_iff_eq. now rewrite !Z.ltb_lt. }
  destruct (Z.eqb_spec x3 y3); [destruct (Z.eqb_spec x2 y2); [destruct (Z.eqb_spec x1 y1);
    [destruct (Z.eqb_spec x0 y0)|]|]|];
  [apply (lt_row_complete b c x0 x1 x2 x3 y0 y1 y2 y3 0 0 0 0)
  |apply (lt_row_complete b c x0 x1 x2 x3 y0 y1 y2 y3 1 0 0 0)
  |apply (lt_row_complete b c x0 x1 x2 x3 y0 y1 y2 y3 0 1 0 0)
  |apply (lt_row_complete b c x0 x1 x2 x3 y0 y1 y2 y3 0 0 1 0)
  |apply (lt_row_complete b c x0 x1 x2 x3 y0 y1 y2 y3 0 0 0 1)];
  try assumption; try lia; unfold fits; try lia; try (intros _; apply Hinv; lia); apply Hz; lia.
Qed.
End Lt.

Lemma lxor_sign_small v : 0 <= v < 2 ^ 63 -> Z.lxor v (2 ^ 63) = v + 2 ^ 63.
Proof.
  intros Hv. symmetry. apply Z.add_nocarry_lxor, Z.bits_inj'. intros n Hn.
  rewrite Z.land_spec, Z.bits_0, Z.pow2_bits_eqb by lia.
  destruct (Z.eqb_spec 63 n) as [<-|]; [|apply andb_false_r]. rewrite andb_true_r.
  apply Z.testbit_false; [lia|]. rewrite Z.div_small by lia. reflexivity.
Qed.

Lemma lxor_sign v : is_u64 v -> Z.lxor v (1 ≪ 63) = u64 (v + 2 ^ 63).
Proof.
  intros Hv. change (1 ≪ 63) with (2 ^ 63). unfold fits in Hv.
  destruct (Z_lt_le_dec v (2 ^ 63)) as [L|L].
  - rewrite lxor_sign_small by lia. unfold u64, wrap. lia_mod.
  - replace v with (Z.lxor (v - 2 ^ 63) (2 ^ 63)) at 1 by (rewrite lxor_sign_small by lia; lia).
    rewrite Z.lxor_assoc, Z.lxor_nilpotent, Z.lxor_0_r. unfold u64, wrap. lia_mod.
Qed.

Section Signed.
Context `{AirBuilder}.

Lemma flip_sign_repr w v msb s : w ∼ v -> s ≐ 1 -> msb ≐ v / 2 ^ 63 ->
  LtOperationSigned.flip_sign w s msb ∼ u64 (v + 2 ^ 63).
Proof.
  intros Hw Hs Hm. destruct_word Hw as x0 x1 x2 x3. unfold fits in *.
  set (x3' := x3 + 2 ^ 15 - 2 ^ 16 * (v / 2 ^ 63)).
  replace (u64 (v + 2 ^ 63)) with (x0 + 2 ^ 16 * x1 + 2 ^ 32 * x2 + 2 ^ 48 * x3')
    by (subst x3'; unfold u64, wrap; lia_mod).
  apply represents_intro; try assumption; try (subst x3'; unfold fits; lia_mod).
  unfold LtOperationSigned.flip_sign. change (mkWord _ _ _ ?x).[3] with x.
  subst x3'. change (1 ≪ 15) with (2 ^ 15). change (1 ≪ 16) with (2 ^ 16).
  match goal with E : w.[3] ≐ _ |- _ => rewrite Hs, Hm, E end. apply feq_exists. exists 0. lia.
Qed.

Lemma flip_sign_id w v msb s : w ∼ v -> s ≐ 0 -> msb ≐ 0 ->
  LtOperationSigned.flip_sign w s msb ∼ v.
Proof.
  intros Hw Hs Hm. destruct_word Hw as x0 x1 x2 x3. subst v.
  apply represents_intro; try assumption.
  unfold LtOperationSigned.flip_sign. change (mkWord _ _ _ ?x).[3] with x.
  match goal with E : w.[3] ≐ _ |- _ => rewrite Hs, Hm, E end. apply feq_exists. exists 0. lia.
Qed.

Lemma word_top_limb w v : w ∼ v -> exists x3, is_u16 x3 /\ w.[3] ≐ x3 /\
  x3 / 2 ^ 15 = v / 2 ^ 63 /\ nth 3 (u64_to_u16_limbs v) 0 = x3.
Proof.
  intros Hw. destruct (limbs_of_repr w v Hw) as (x0 & x1 & x2 & x3 & -> & ? & ? & ? & ? & ? & ? & ? & ? & ?).
  exists x3. unfold fits in *. repeat split; try assumption; lia_mod.
Qed.

Lemma signed_compare vb vc : is_u64 vb -> is_u64 vc ->
  (u64 (vb + 2 ^ 63) <? u64 (vc + 2 ^ 63)) = (i64 vb <? i64 vc).
Proof.
  intros. apply eq_true_iff_eq. rewrite !Z.ltb_lt. solve_ints.
Qed.

Definition less_than (is_signed : bool) (vb vc : Z) : bool :=
  if is_signed then i64 vb <? i64 vc else vb <? vc.

(** A signed comparison is an unsigned one of the words with flipped signs. *)
Lemma lt_signed_reduces b c vb vc cols (s : bool) is_signed r : b ∼ vb -> c ∼ vc -> r ≐ 1 ->
  is_signed ≐ from_bool s -> sat (LtOperationSigned.eval_lt_signed b c cols is_signed r) ->
  U16CompareOperation.bit (LtOperationUnsigned.u16_compare_operation (LtOperationSigned.result cols))
    ≐ from_bool (less_than s vb vc) /\
  flags_equal (LtOperationSigned.result cols) ≐ from_bool (vb =? vc).
Proof.
  intros Hb Hc Hr Hs Hsat. unfold LtOperationSigned.eval_lt_signed in Hsat.
  rewrite !sat_app, !sat_cons in Hsat.
  destruct Hsat as (_ & Mb & Mc & (Zb & Zc & _) & Hlt).
  unfold when_not in *. rewrite sat_assert, holds_when_ne, holds_assert_zero in Zb, Zc.
  destruct s; simpl in Hs.
  - destruct (word_top_limb b vb Hb) as (x3 & Bx & Ex & Dx & _).
    destruct (word_top_limb c vc Hc) as (y3 & By & Ey & Dy & _).
    apply (msb_sound _ x3) in Mb; try assumption. apply (msb_sound _ y3) in Mc; try assumption.
    rewrite Dx in Mb. rewrite Dy in Mc.
    apply (lt_unsigned_sound _ _ (u64 (vb + 2 ^ 63)) (u64 (vc + 2 ^ 63))) in Hlt;
      try assumption; try now apply flip_sign_repr.
    destruct Hlt as [Hlt Heq]. rewrite signed_compare in Hlt; [|apply Hb|apply Hc].
    split; [exact Hlt|]. rewrite Heq. destruct Hb as [Ub _], Hc as [Uc _]. apply feq_eqb. solve_ints.
  - assert (N : is_signed ≭ 1).
    { rewrite Hs. intros E. symmetry in E. now apply one_not_zero in E. }
    apply (lt_unsigned_sound _ _ vb vc) in Hlt; try assumption; apply flip_sign_id; auto.
Qed.

Lemma lt_signed_sound b c vb vc cols (s : bool) is_signed r : b ∼ vb -> c ∼ vc -> r ≐ 1 ->
  is_signed ≐ from_bool s -> sat (LtOperationSigned.eval_lt_signed b c cols is_signed r) ->
  U16CompareOperation.bit (LtOperationUnsigned.u16_compare_operation (LtOperationSigned.result cols))
    ≐ from_bool (less_than s vb vc).
Proof. intros Hb Hc Hr Hs Hsat. now apply (lt_signed_reduces b c vb vc cols s is_signed r). Qed.

Lemma msb_inactive a : complete (U16MSBOperation.eval_msb a (U16MSBOperation.mk 0) 0) [].
Proof.
  apply complete_assert; [now apply holds_assert_bool; left|].
  apply complete_assert; [now apply holds_assert_bool; left|].
  apply complete_send_zero; [reflexivity|apply complete_nil].
Qed.

Lemma populate_unsigned_app self r vz vb vc :
  let '(cols, events) := LtOperationUnsigned.populate_unsigned self [] vz vb vc in
  LtOperationUnsigned.populate_unsigned self r vz vb vc = (cols, r ++ events).
Proof.
  unfold LtOperationUnsigned.populate_unsigned.
  destruct (LtOperationUnsigned.find_limb self _ _ _) as [self' [u v]]. reflexivity.
Qed.

Lemma holds_bool_flag (k : bool) : holds (AssertBool (from_bool k)).
Proof. destruct k; apply holds_assert_bool; [right|left]; reflexivity. Qed.

Lemma holds_when_not_one k : holds (when_not 1 k).
Proof. apply holds_when_ne. intros N. now destruct N. Qed.

Lemma lt_signed_complete b c vb vc : b ∼ vb -> c ∼ vc ->
  let '(cols, events) := LtOperationSigned.populate_signed LtOperationSigned.default []
    (from_bool (i64 vb <? i64 vc)) vb vc true in
  complete (LtOperationSigned.eval_lt_signed b c cols 1 1) events.
Proof.
  intros Hb Hc. pose proof (proj1 Hb) as Ub. pose proof (proj1 Hc) as Uc.
  unfold LtOperationSigned.populate_signed.
  destruct (word_top_limb b vb Hb) as (x3 & Bx & Ex & Dx & ->).
  destruct (word_top_limb c vc Hc) as (y3 & By & Ey & Dy & ->).
  pose proof (msb_complete b.[3] x3 1 Ex Bx (reflexivity 1)) as Mb.
  pose proof (msb_complete c.[3] y3 1 Ey By (reflexivity 1)) as Mc.
  unfold U16MSBOperation.populate_msb in *. cbn [add_byte_lookup_event app] in *.
  rewrite !lxor_sign, <- signed_compare by assumption.
  pose proof (lt_unsigned_complete (LtOperationSigned.flip_sign b 1 (Z.land (x3 ≫ 15) 1))
    (LtOperationSigned.flip_sign c 1 (Z.land (y3 ≫ 15) 1)) (u64 (vb + 2 ^ 63)) (u64 (vc + 2 ^ 63))) as Hlt.
  rewrite msb_bit, Dx in Hlt by assumption. rewrite msb_bit, Dy in Hlt by assumption.
  specialize (Hlt (flip_sign_repr _ _ _ _ Hb (reflexivity 1) (reflexivity _))
                  (flip_sign_repr _ _ _ _ Hc (reflexivity 1) (reflexivity _))).
  pose proof (populate_unsigned_app LtOperationUnsigned.default
    [mkByteLookupEvent ByteOpcode.Range (u16 (x3 * 2)) 16 0;
     mkByteLookupEvent ByteOpcode.Range (u16 (y3 * 2)) 16 0]
    (from_bool (u64 (vb + 2 ^ 63) <? u64 (vc + 2 ^ 63))) (u64 (vb + 2 ^ 63)) (u64 (vc + 2 ^ 63))) as Happ.
  cbn [LtOperationSigned.result LtOperationSigned.default].
  destruct (LtOperationUnsigned.populate_unsigned _ [] _ _ _) as [cols events].
  rewrite Happ. unfold LtOperationSigned.eval_lt_signed.
  cbn [LtOperationSigned.b_msb LtOperationSigned.c_msb LtOperationSigned.result
       U16MSBOperation.msb app] in *.
  rewrite (msb_bit x3), (msb_bit y3), Dx, Dy in * by assumption.
  do 3 (apply complete_assert; [apply holds_when_not_one || apply (holds_bool_flag true)|]).
  apply (complete_app _ _ [_] (_ :: events)); [exact Mb|].
  apply (complete_app _ _ [_] events); [exact Mc|].
  do 2 (apply complete_assert; [apply holds_when_not_one|]). exact Hlt.
Qed.

Lemma lt_not_signed_complete b c vb vc : b ∼ vb -> c ∼ vc ->
  let '(cols, events) := LtOperationSigned.populate_signed LtOperationSigned.default []
    (from_bool (vb <? vc)) vb vc false in
  complete (LtOperationSigned.eval_lt_signed b c cols 0 1) events.
Proof.
  intros Hb Hc. unfold LtOperationSigned.populate_signed.
  pose proof (lt_unsigned_complete (LtOperationSigned.flip_sign b 0 0)
    (LtOperationSigned.flip_sign c 0 0) vb vc) as Hlt.
  specialize (Hlt (flip_sign_id _ _ _ _ Hb (reflexivity 0) (reflexivity 0))
                  (flip_sign_id _ _ _ _ Hc (reflexivity 0) (reflexivity 0))).
  cbn [LtOperationSigned.result LtOperationSigned.default].
  destruct (LtOperationUnsigned.populate_unsigned _ [] _ _ _) as [cols events].
  unfold LtOperationSigned.eval_lt_signed.
  do 3 (apply complete_assert; [apply holds_when_not_one || apply (holds_bool_flag false) || apply (holds_bool_flag true)|]).
  apply (complete_app _ _ [] events); [apply msb_inactive|].
  apply (complete_app _ _ [] events); [apply msb_inactive|].
  do 2 (apply complete_assert; [apply holds_when_ne; intros _; now apply holds_assert_zero|]).
  exact Hlt.
Qed.

(** C24. [LtOperationSigned] decides the comparison: on a real row its
    constraints force the result bit to [b < c], read as signed integers when
    the operation is signed and as unsigned ones otherwise; and the row of
    [populate_signed] satisfies them with exactly the recorded byte lookups. *)
Theorem lt_operation_correct b c vb vc (s : bool) : b ∼ vb -> c ∼ vc ->
  (forall cols is_signed r, r ≐ 1 -> is_signed ≐ from_bool s ->
     sat (LtOperationSigned.eval_lt_signed b c cols is_signed r) ->
     U16CompareOperation.bit (LtOperationUnsigned.u16_compare_operation (LtOperationSigned.result cols))
       ≐ from_bool (if s then i64 vb <? i64 vc else vb <? vc)) /\
  (let '(cols, events) := LtOperationSigned.populate_signed LtOperationSigned.default []
     (from_bool (if s then i64 vb <? i64 vc else vb <? vc)) vb vc s in
   complete (LtOperationSigned.eval_lt_signed b c cols (from_bool s) 1) events).
Proof.
  intros Hb Hc. split.
  - intros. now apply (lt_signed_sound b c vb vc cols s is_signed r).
  - destruct s; [now apply lt_signed_complete|now apply lt_not_signed_complete].
Qed.
End Signed.

(** ** Witnesses over the KoalaBear field *)
Section Witnesses.
Local Definition va : Z := 0xFFFF_FFFF_8000_0001.
Local Definition vb : Z := 0x1_7FFF_FFFF.
Local Lemma va_word : Word_from_u64 va ∼ va.
Proof. apply represents_from_u64. split; now vm_compute. Qed.
Local Lemma vb_word : Word_from_u64 vb ∼ vb.
Proof. apply represents_from_u64. split; now vm_compute. Qed.

Lemma is_equal_word_correct_witness :
  (IsEqualWordOperation.populate va vb).2 = 0 /\
  complete (IsEqualWordOperation.eval_is_equal_word (Word_from_u64 va) (Word_from_u64 vb)
    (IsEqualWordOperation.populate va vb).1 1) [].
Proof.
  pose proof (is_equal_word_correct _ _ _ _ va_word vb_word) as [_ [E [_ C]]].
  split; [exact E|exact C].
Defined.

Lemma lt_operation_correct_witness :
  let '(cols, events) := LtOperationSigned.populate_signed LtOperationSigned.default []
    1 va vb true in
  complete (LtOperationSigned.eval_lt_signed (Word_from_u64 va) (Word_from_u64 vb) cols 1 1) events.
Proof. exact (proj2 (lt_operation_correct _ _ _ _ true va_word vb_word)). Defined.
End Witnesses.
