(* ===== verification/Bus.v ===== *)
(** * Bus: what a balanced bus says about the rows of a shard

    The lookup argument checks that every tuple is sent as often as it is
    received, as field elements.  Here that sum becomes an equality of
    multisets of canonical tuples, and a multiset of read/write pairs on a
    bus whose writes come later than the reads they answer becomes a
    sequential history: sorted by time, every pair reads what the pair before
    it on the same key wrote.  The memory bus ([air/memory.rs]) and the state
    bus ([adapter/state.rs]) are both of this shape. *)
From Stdlib Require Import ZArith Lia Bool Permutation Sorted.
From stdpp Require Import base numbers list gmap sorting.
From S2P Require Import Prelude Air ByteTable.

(** The interactions of one kind a list of builder calls sends or receives. *)
Definition sends (k : InteractionKind.t) (cs : list call) : list AirInteraction :=
  omap (fun x => match x with Send i => if decide (kind i = k) then Some i else None | _ => None end) cs.
Definition receives (k : InteractionKind.t) (cs : list call) : list AirInteraction :=
  omap (fun x => match x with Receive i => if decide (kind i = k) then Some i else None | _ => None end) cs.

Lemma sends_app k cs cs' : sends k (cs ++ cs') = sends k cs ++ sends k cs'.
Proof. apply omap_app. Qed.
Lemma receives_app k cs cs' : receives k (cs ++ cs') = receives k cs ++ receives k cs'.
Proof. apply omap_app. Qed.

(** ** Multisets of tuples *)
Section Tuples.
Context `{PrimeField}.

Definition tuple_dec (x y : list Z) : {x = y} + {x <> y} := decide (x = y).

(** The tuple of an interaction, as canonical field elements. *)
Definition tuple (i : AirInteraction) : list Z := as_canonical <$> values i.
(** The tuples that take part in the sum once. *)
Definition active (l : list AirInteraction) : list (list Z) :=
  tuple <$> filter (fun i => multiplicity i ≐ 1) l.

Lemma canonical_matches vs t : Forall2 feq vs t <-> as_canonical <$> vs = as_canonical <$> t.
Proof.
  split.
  - induction 1 as [|x y vs t E _ IH]; [done|]. rewrite !fmap_cons, IH. f_equal. exact E.
  - revert t. induction vs as [|x vs IH]; intros [|y t] E; try discriminate; [constructor|].
    rewrite !fmap_cons in E. injection E as E1 E2. constructor; [exact E1|auto].
Qed.

Lemma active_app l l' : active (l ++ l') = active l ++ active l'.
Proof. unfold active. now rewrite filter_app, fmap_app. Qed.

Lemma total_count l t : Forall boolean_mult l ->
  total l t ≐ Z.of_nat (count_occ tuple_dec (active l) (as_canonical <$> t)).
Proof.
  unfold active. induction 1 as [|i l Hi _ IH]; [reflexivity|].
  rewrite filter_cons. simpl total. case_decide as E.
  - rewrite canonical_matches in E. case_decide as D.
    + rewrite fmap_cons, count_occ_cons_eq by exact E. rewrite Nat2Z.inj_succ, IH, D.
      apply feq_exists. exists 0. lia.
    + destruct Hi as [Z0|]; [|contradiction]. now rewrite Z0, IH.
  - rewrite canonical_matches in E. case_decide; [|exact IH].
    now rewrite fmap_cons, count_occ_cons_neq by exact E.
Qed.

Lemma count_occ_length {A} (dec : forall x y : A, {x = y} + {x <> y}) l x :
  (count_occ dec l x <= length l)%nat.
Proof. induction l as [|y l IH]; simpl; [lia|]. destruct (dec y x); lia. Qed.

Lemma active_length l : (length (active l) <= length l)%nat.
Proof. unfold active. rewrite length_fmap. apply length_filter. Qed.

(** A balanced bus with boolean multiplicities, shorter than the field is
    large, sends and receives the same multiset of tuples. *)
Lemma balanced_permutation (s r : list AirInteraction) :
  Forall boolean_mult s -> Forall boolean_mult r ->
  Z.of_nat (length s) < order -> Z.of_nat (length r) < order ->
  balanced s r -> active s ≡ₚ active r.
Proof.
  intros Hs Hr Ls Lr Hb. apply (Permutation_count_occ tuple_dec). intros t.
  destruct (decide (t ∈ active s ++ active r)) as [Hin|Hout].
  - assert (E : t = as_canonical <$> t).
    { rewrite <- active_app in Hin. apply list_elem_of_fmap in Hin as (i & -> & _).
      unfold tuple. rewrite <- list_fmap_compose. apply list_fmap_ext. intros _ x _.
      symmetry. unfold compose, as_canonical. apply Zmod_mod. }
    rewrite E. specialize (Hb t). rewrite !total_count in Hb by assumption.
    pose proof (count_occ_length tuple_dec (active s) (as_canonical <$> t)).
    pose proof (count_occ_length tuple_dec (active r) (as_canonical <$> t)).
    pose proof (active_length s). pose proof (active_length r).
    apply feq_small in Hb; lia.
  - rewrite elem_of_app in Hout.
    rewrite !(proj1 (count_occ_not_In _ _ _)) by (rewrite <- list_elem_of_In; tauto). reflexivity.
Qed.

(** Every send is answered by a receive, whatever the receives' multiplicities. *)
Lemma balanced_answered (s r : list AirInteraction) t :
  Forall boolean_mult s -> Z.of_nat (length s) < order -> balanced s r ->
  t ∈ active s -> exists i, i ∈ r /\ tuple i = t.
Proof.
  intros Hs Ls Hb Ht. pose proof Ht as Ht'. unfold active in Ht.
  apply list_elem_of_fmap in Ht as (i & -> & Hi).
  destruct (total_nonzero r (values i)) as (j & Hj & Hm).
  { rewrite <- (Hb (values i)), total_count by assumption. fold (tuple i).
    assert (P : (0 < count_occ tuple_dec (active s) (tuple i))%nat).
    { apply count_occ_In. now apply list_elem_of_In. }
    pose proof (count_occ_length tuple_dec (active s) (tuple i)).
    pose proof (active_length s). intros E. apply feq_small in E; lia. }
  exists j. split; [exact Hj|]. now apply canonical_matches.
Qed.
End Tuples.

(** ** Histories

    A pair [(src, dst)] takes [src] off a bus and puts [dst] on it.  The bus
    holds at most one value per key; [time] orders the values. *)
Section History.
Context `{Countable K} {T : Type} `{EqDecision T} (key : T -> K) (time : T -> Z).

Definition keyed (m : gmap K T) : Prop := map_Forall (fun k t => key t = k) m.
Definition contents (m : gmap K T) : list T := (map_to_list m).*2.
Definition initial (ts : list T) : gmap K T := list_to_map ((fun t => (key t, t)) <$> ts).

(** Take the pairs in order; [None] when one does not find its source. *)
Fixpoint replay (m : gmap K T) (es : list (T * T)) : option (gmap K T) :=
  match es with
  | [] => Some m
  | (src, dst) :: es => if decide (m !! key src = Some src) then replay (<[key src := dst]> m) es else None
  end.

Definition forward (e : T * T) : Prop := key e.1 = key e.2 /\ time e.1 < time e.2.
Definition later (e e' : T * T) : Prop := time e.2 <= time e'.2.

Lemma keyed_initial ts : keyed (initial ts).
Proof.
  intros k t Hk. apply elem_of_list_to_map_2, list_elem_of_fmap in Hk as (t' & [= -> ->] & _). done.
Qed.
Lemma contents_initial ts : NoDup (key <$> ts) -> contents (initial ts) ≡ₚ ts.
Proof.
  intros Hn. unfold contents, initial. rewrite map_to_list_to_map.
  - now rewrite <- list_fmap_compose, list_fmap_id.
  - rewrite <- list_fmap_compose. exact Hn.
Qed.

Lemma contents_lookup m t : keyed m -> t ∈ contents m <-> m !! key t = Some t.
Proof.
  intros Hk. unfold contents. rewrite list_elem_of_fmap. split.
  - intros ([k t'] & -> & Ht). apply elem_of_map_to_list in Ht. simpl. now rewrite (Hk k t' Ht).
  - intros Ht. exists (key t, t). split; [done|]. now apply elem_of_map_to_list.
Qed.

Lemma contents_update m src dst : m !! key src = Some src ->
  exists rest, contents m ≡ₚ src :: rest /\ contents (<[key src := dst]> m) ≡ₚ dst :: rest.
Proof.
  intros Hs. exists (contents (delete (key src) m)). unfold contents. split.
  - now rewrite <- (map_to_list_delete m (key src) src Hs).
  - rewrite <- insert_delete_eq. rewrite map_to_list_insert by apply lookup_delete_eq. done.
Qed.

Lemma keyed_insert m t t' : keyed m -> key t = key t' -> keyed (<[key t := t']> m).
Proof. intros Hm E. apply map_Forall_insert_2; [now symmetry|exact Hm]. Qed.

(** Sorted by the time of what they put on the bus, balanced pairs that move
    forward in time form a history. *)
Lemma history m es finals : keyed m -> StronglySorted later es -> Forall forward es ->
  contents m ++ es.*2 ≡ₚ finals ++ es.*1 ->
  exists m', replay m es = Some m' /\ keyed m' /\ contents m' ≡ₚ finals.
Proof.
  intros Hm Hs. revert m Hm. induction Hs as [|[src dst] es Hs IH Hl]; intros m Hm Hf Hp.
  - exists m. rewrite !app_nil_r in Hp. done.
  - inversion_clear Hf as [|? ? [Hk Ht] Hf']. simpl in *.
    assert (Hin : src ∈ contents m).
    { assert (Hsrc : src ∈ contents m ++ dst :: es.*2) by (rewrite Hp; set_solver).
      apply elem_of_app in Hsrc as [|Hsrc]; [done|exfalso].
      apply elem_of_cons in Hsrc as [->|Hsrc]; [lia|].
      apply list_elem_of_fmap in Hsrc as (e & -> & He).
      rewrite list.Forall_forall in Hl. specialize (Hl e He). unfold later in Hl. simpl in Hl. lia. }
    apply contents_lookup in Hin; [|done]. rewrite decide_True by done.
    destruct (contents_update m src dst Hin) as (rest & P1 & P2).
    apply IH; [now apply keyed_insert|done|].
    rewrite P2. apply (Permutation_cons_inv (a := src)).
    rewrite P1 in Hp. simpl in Hp. rewrite (Permutation_middle finals) . rewrite <- Hp.
    simpl. rewrite (Permutation_middle rest). done.
Qed.

(** Balanced pairs, in any order, have such an order. *)
#[local] Instance later_dec e e' : Decision (later e e').
Proof. unfold later. apply _. Defined.
#[local] Instance later_total : Total later.
Proof. intros e e'. unfold later. lia. Qed.
#[local] Instance later_trans : Transitive later.
Proof. intros e e' e'' ??. unfold later in *. lia. Qed.

Lemma history_exists inits finals es : NoDup (key <$> inits) -> Forall forward es ->
  inits ++ es.*2 ≡ₚ finals ++ es.*1 ->
  exists es' m', es' ≡ₚ es /\ StronglySorted later es' /\
    replay (initial inits) es' = Some m' /\ keyed m' /\ contents m' ≡ₚ finals.
Proof.
  intros Hn Hf Hp. exists (merge_sort later es). pose proof (merge_sort_Permutation later es) as P.
  destruct (history (initial inits) (merge_sort later es) finals) as (m' & Hr & Hk & Hc).
  - apply keyed_initial.
  - apply StronglySorted_merge_sort; apply _.
  - now rewrite P.
  - now rewrite contents_initial, P by done.
  - exists m'. split; [done|]. split; [|done]. apply StronglySorted_merge_sort; apply _.
Qed.

Lemma replay_app m es es' : replay m (es ++ es') = m' ← replay m es; replay m' es'.
Proof.
  revert m. induction es as [|[s d] es IH]; intros m; [done|]. simpl. case_decide; [apply IH|done].
Qed.

(** A map with these contents is the one made of them. *)
Lemma keyed_contents m ts : keyed m -> NoDup (key <$> ts) -> contents m ≡ₚ ts -> m = initial ts.
Proof.
  intros Hm Hn Hc. rewrite <- (list_to_map_to_list m). unfold initial.
  assert (E : map_to_list m = (fun t => (key t, t)) <$> contents m).
  { unfold contents. rewrite <- list_fmap_compose. rewrite <- (list_fmap_id (map_to_list m)) at 1.
    apply list_fmap_ext. intros i [k t] Hi. apply list_elem_of_lookup_2, elem_of_map_to_list in Hi. cbn.
    now rewrite (Hm k t Hi). }
  rewrite E. apply list_to_map_proper; [|now rewrite Hc].
  rewrite <- E. apply NoDup_fst_map_to_list.
Qed.

Section Tagged.
Context {I : Type} (edge : I -> T * T).

(** Pairs that put back what they take can be left out. *)
Lemma drop_loops inits finals items : inits ++ (edge <$> items).*2 ≡ₚ finals ++ (edge <$> items).*1 ->
  let items' := filter (fun i => (edge i).1 <> (edge i).2) items in
  inits ++ (edge <$> items').*2 ≡ₚ finals ++ (edge <$> items').*1.
Proof.
  cbn. revert inits finals. induction items as [|i items IH]; intros inits finals Hp; [done|].
  rewrite filter_cons. rewrite !fmap_cons in Hp. case_decide as D.
  - rewrite !fmap_cons. rewrite <- !Permutation_middle in Hp |- *.
    specialize (IH ((edge i).2 :: inits) ((edge i).1 :: finals) Hp). exact IH.
  - apply IH. rewrite <- !Permutation_middle, D in Hp. now apply Permutation_cons_inv in Hp.
Qed.

Lemma tagged_history inits finals items : NoDup (key <$> inits) -> Forall (fun i => forward (edge i)) items ->
  inits ++ (edge <$> items).*2 ≡ₚ finals ++ (edge <$> items).*1 ->
  exists items' m', items' ≡ₚ items /\ StronglySorted (fun i j => later (edge i) (edge j)) items' /\
    replay (initial inits) (edge <$> items') = Some m' /\ keyed m' /\ contents m' ≡ₚ finals.
Proof.
  intros Hn Hf Hp. destruct (history_exists inits finals (edge <$> items) Hn) as (es & m' & P & Hs & Hr & Hk & Hc);
    [now apply list.Forall_fmap|done|].
  destruct (Permutation_map_inv edge items P) as (items' & -> & P').
  exists items', m'. split; [now symmetry|]. split; [|auto]. clear - Hs.
  induction items' as [|i items IH]; [constructor|]. inversion_clear Hs as [|? ? Hs' Hl]. constructor; [auto|].
  apply (proj1 (list.Forall_fmap _ _ _)) in Hl. exact Hl.
Qed.
End Tagged.
End History.

(** On a bus that holds one value a history is a path. *)
Section Path.
Context {T I : Type} `{EqDecision T} (edge : I -> T * T).

Fixpoint path (x : T) (items : list I) (y : T) : Prop :=
  match items with
  | [] => x = y
  | i :: items => (edge i).1 = x /\ path (edge i).2 items y
  end.

Lemma replay_path items x y m' : replay (fun _ : T => tt) {[tt := x]} (edge <$> items) = Some m' ->
  contents m' ≡ₚ [y] -> path x items y.
Proof.
  revert x. induction items as [|i items IH]; intros x Hr Hc; cbn in *.
  - injection Hr as <-. unfold contents in Hc. rewrite map_to_list_singleton in Hc. cbn in Hc.
    now apply Permutation_singleton_inj in Hc.
  - destruct (edge i) as [src dst] eqn:E. cbn in *. rewrite lookup_singleton_eq in Hr. case_decide as D; [|discriminate].
    injection D as ->. split; [done|]. rewrite insert_singleton_eq in Hr. eauto.
Qed.
End Path.

(** Two orders of the same elements by time agree when no two times do. *)
Lemma sorted_by_time_unique {A} (f : A -> Z) l l' : StronglySorted (fun x y => f x <= f y) l ->
  StronglySorted (fun x y => f x < f y) l' -> l ≡ₚ l' -> l = l'.
Proof.
  revert l. induction l' as [|y l' IH]; intros l Hs Hs' P; [now apply Permutation_nil_r in P|].
  inversion_clear Hs' as [|? ? Hs2 Hl]. rewrite list.Forall_forall in Hl.
  destruct l as [|x l]; [now apply Permutation_nil_l in P|]. inversion_clear Hs as [|? ? Hs1 Hl1].
  rewrite list.Forall_forall in Hl1.
  assert (E : x = y).
  { assert (Hx : x ∈ y :: l') by (rewrite <- P; set_solver). apply elem_of_cons in Hx as [|Hx]; [done|].
    assert (Hy : y ∈ x :: l) by (rewrite P; set_solver). apply elem_of_cons in Hy as [|Hy]; [done|].
    specialize (Hl x Hx). specialize (Hl1 y Hy). cbn in *. lia. }
  subst y. apply Permutation_cons_inv in P. f_equal. auto.
Qed.

Lemma sorted_omap {A B} (R : A -> A -> Prop) (R' : B -> B -> Prop) (f : A -> option B) l :
  (forall x y x' y', f x = Some x' -> f y = Some y' -> R x y -> R' x' y') ->
  StronglySorted R l -> StronglySorted R' (omap f l).
Proof.
  intros Hf. induction 1 as [|x l Hs IH Hl]; [constructor|]. cbn. destruct (f x) as [x'|] eqn:E; [|exact IH].
  constructor; [exact IH|]. rewrite list.Forall_forall in Hl. apply list.Forall_forall. intros y' Hy.
  apply list_elem_of_omap in Hy as (y & Hy & Ey). eauto.
Qed.
Lemma sorted_filter {A} (R : A -> A -> Prop) (P : A -> Prop) `{!forall x, Decision (P x)} l :
  StronglySorted R l -> StronglySorted R (filter P l).
Proof.
  induction 1 as [|x l Hs IH Hl]; [constructor|]. rewrite filter_cons. case_decide; [|exact IH].
  constructor; [exact IH|]. rewrite list.Forall_forall in Hl. apply list.Forall_forall. intros y Hy. apply Hl. now apply list_elem_of_filter in Hy.
Qed.
Lemma forall_filter {A} (Q P : A -> Prop) `{!forall x, Decision (P x)} l : Forall Q l -> Forall Q (filter P l).
Proof. rewrite !list.Forall_forall. intros Hl x Hx. apply Hl. now apply list_elem_of_filter in Hx. Qed.
