(* ===== verification/BitOps.v ===== *)
(** * BitOps: bytes of words and bitwise operations

    [operations/{u16_operation,bitwise,bitwise_u16}.rs] of [core/machine]: the
    bytes of a word, with and without range checks, and the bitwise operations
    looked up byte by byte in the byte table. *)
From Stdlib Require Import ZArith Lia Bool.
From stdpp Require Import base numbers option list.
From S2P Require Import Prelude Isa Air KoalaBear ByteTable WordAir AddOps.
Import ByteOpcode (as_field).

Definition WORD_BYTE_SIZE : nat := 8.
(** [u64::to_le_bytes]. *)
Definition to_le_bytes (x : Z) : list Z := (fun i => u8 (x ≫ (8 * i))) <$> seqZ 0 8.

(** [ByteOpcode::from]; [None] is its panic. *)
Definition byte_opcode_of (op : Opcode.t) : option ByteOpcode.t :=
  match op with
  | Opcode.AND => Some ByteOpcode.AND
  | Opcode.OR => Some ByteOpcode.OR
  | Opcode.XOR => Some ByteOpcode.XOR
  | _ => None
  end.

Module U16toU8Operation.
Record t := mk { low_bytes : list Z }.
Definition zero : t := mk (replicate WORD_SIZE 0).

Definition low_byte (a_limb : Z) : Z := u8 (Z.land a_limb 0xFF).
Definition high_byte (a_limb : Z) : Z := u8 (Z.land (a_limb ≫ 8) 0xFF).

Definition populate_u16_to_u8_unsafe (a_u64 : Z) : t := mk (low_byte <$> u64_to_u16_limbs a_u64).

Definition populate_u16_to_u8_safe (record : list ByteLookupEvent) (a_u64 : Z) :
  t * list ByteLookupEvent :=
  let a_limbs := u64_to_u16_limbs a_u64 in
  (mk (low_byte <$> a_limbs),
   fold_left (fun record a => add_u8_range_check record (low_byte a) (high_byte a)) a_limbs record).

Definition eval_u16_to_u8_unsafe `{PrimeField} (u16_values : Word) (cols : t) : list Z :=
  i ← seq 0 WORD_SIZE;
  let low := nth i (low_bytes cols) 0 in [low; (u16_values.[i] - low) * finv (1 ≪ 8)].

(** The calls, and the bytes. *)
Definition eval_u16_to_u8_safe `{PrimeField} (u16_values : Word) (cols : t) (is_real : Z) :
  list call * list Z :=
  let ret := eval_u16_to_u8_unsafe u16_values cols in
  (slice_range_check_u8 ret is_real, ret).
End U16toU8Operation.

Module BitwiseOperation.
Record t := mk { result : list Z }.

Definition populate_bitwise (record : list ByteLookupEvent) (a_u64 b_u64 c_u64 : Z)
  (opcode : Opcode.t) : option (t * list ByteLookupEvent) :=
  let a := to_le_bytes a_u64 in
  let b := to_le_bytes b_u64 in
  let c := to_le_bytes c_u64 in
  op ← byte_opcode_of opcode;
  Some (mk a, fold_left (fun record '(b_a, b_b, b_c) =>
    add_byte_lookup_event record (mkByteLookupEvent op b_a b_b b_c)) (zip (zip a b) c) record).

Definition eval_bitwise (a b : list Z) (cols : t) (opcode is_real : Z) : list call :=
  (fun i => send_byte opcode (nth i (result cols) 0) (nth i a 0) (nth i b 0) is_real)
    <$> seq 0 WORD_BYTE_SIZE.
End BitwiseOperation.

(** The limbs of eight bytes. *)
Definition word_of_bytes (r : list Z) : Word :=
  Word_of_fn (fun i => nth (2 * i) r 0 + nth (2 * i + 1) r 0 * (1 ≪ 8)).

Module BitwiseU16Operation.
Record t := mk {
  b_low_bytes : U16toU8Operation.t;
  c_low_bytes : U16toU8Operation.t;
  bitwise_operation : BitwiseOperation.t }.
Definition zero : t :=
  mk U16toU8Operation.zero U16toU8Operation.zero (BitwiseOperation.mk (replicate WORD_BYTE_SIZE 0)).

Definition populate_bitwise (record : list ByteLookupEvent) (a_u64 b_u64 c_u64 : Z)
  (opcode : Opcode.t) : option (t * list ByteLookupEvent) :=
  '(op, record) ← BitwiseOperation.populate_bitwise record a_u64 b_u64 c_u64 opcode;
  Some (mk (U16toU8Operation.populate_u16_to_u8_unsafe b_u64)
           (U16toU8Operation.populate_u16_to_u8_unsafe c_u64) op, record).

(** The calls, and the result word. *)
Definition eval_bitwise_u16 `{PrimeField} (b c : Word) (cols : t) (opcode is_real : Z) :
  list call * Word :=
  let b_bytes := U16toU8Operation.eval_u16_to_u8_unsafe b (b_low_bytes cols) in
  let c_bytes := U16toU8Operation.eval_u16_to_u8_unsafe c (c_low_bytes cols) in
  (Assert (AssertBool is_real) ::
   BitwiseOperation.eval_bitwise b_bytes c_bytes (bitwise_operation cols) opcode is_real,
   word_of_bytes (BitwiseOperation.result (bitwise_operation cols))).
End BitwiseU16Operation.

(** ** Bytes *)

Definition bytes_value (bs : list Z) : Z := foldr (fun b acc => b + 2 ^ 8 * acc) 0 bs.

Lemma bytes_value_cons b bs : bytes_value (b :: bs) = b + 2 ^ 8 * bytes_value bs.
Proof. reflexivity. Qed.

Lemma to_le_bytes_eq x : to_le_bytes x =
  [x mod 2 ^ 8; x / 2 ^ 8 mod 2 ^ 8; x / 2 ^ 16 mod 2 ^ 8; x / 2 ^ 24 mod 2 ^ 8;
   x / 2 ^ 32 mod 2 ^ 8; x / 2 ^ 40 mod 2 ^ 8; x / 2 ^ 48 mod 2 ^ 8; x / 2 ^ 56 mod 2 ^ 8].
Proof.
  unfold to_le_bytes. change (seqZ 0 8) with [0; 1; 2; 3; 4; 5; 6; 7]. simpl.
  rewrite !Z.shiftr_div_pow2 by lia. now rewrite Z.div_1_r.
Qed.

Lemma bytes_le_value x : is_u64 x -> bytes_value (to_le_bytes x) = x.
Proof. intros Hx. rewrite to_le_bytes_eq. unfold fits in Hx. simpl. lia_mod. Qed.
Lemma to_le_bytes_u8 x : Forall is_u8 (to_le_bytes x).
Proof. apply list.Forall_fmap, list.Forall_forall. intros. unfold compose. auto with ints. Qed.

Lemma byte_of_limb x : U16toU8Operation.low_byte x = x mod 2 ^ 8.
Proof.
  unfold U16toU8Operation.low_byte. change 0xFF with (Z.ones 8). rewrite Z.land_ones by lia.
  unfold u8, wrap. apply Zmod_mod.
Qed.
Lemma high_byte_of_limb x : is_u16 x -> U16toU8Operation.high_byte x = x / 2 ^ 8.
Proof.
  intros Hx. unfold U16toU8Operation.high_byte. change 0xFF with (Z.ones 8).
  rewrite Z.land_ones, Z.shiftr_div_pow2 by lia. unfold_ints. lia_mod.
Qed.

Lemma limbs_le_bytes x0 x1 x2 x3 : is_u16 x0 -> is_u16 x1 -> is_u16 x2 -> is_u16 x3 ->
  to_le_bytes (x0 + 2 ^ 16 * x1 + 2 ^ 32 * x2 + 2 ^ 48 * x3) =
  [x0 mod 2 ^ 8; x0 / 2 ^ 8; x1 mod 2 ^ 8; x1 / 2 ^ 8; x2 mod 2 ^ 8; x2 / 2 ^ 8; x3 mod 2 ^ 8; x3 / 2 ^ 8].
Proof. intros. rewrite to_le_bytes_eq. unfold fits in *.
  repeat (apply (f_equal2 cons); [lia_mod|]). reflexivity.
Qed.

(** Undo the unfolding of the limbs of a word. *)
Ltac fold_limbs w :=
  change (limb0 w) with w.[0] in *; change (limb1 w) with w.[1] in *;
  change (limb2 w) with w.[2] in *; change (limb3 w) with w.[3] in *.

Section Bytes.
Context `{AirBuilder}.

Lemma byte_base_not_zero : 1 ≪ 8 ≭ 0.
Proof. intros E. pose proof order_large. change (1 ≪ 8) with 256 in E. apply feq_small in E; lia. Qed.

Lemma byte_split w x low l h : w ≐ x -> is_u16 x -> low ≐ l -> (w - low) * finv (1 ≪ 8) ≐ h ->
  is_u8 l -> is_u8 h -> l = x mod 2 ^ 8 /\ h = x / 2 ^ 8.
Proof.
  intros Ew Bx El Eh Bl Bh. pose proof order_large. unfold fits in *.
  assert (E : x = l + 2 ^ 8 * h); [|lia_mod].
  apply feq_small; [|lia]. rewrite <- Eh, <- El, <- Ew.
  change (2 ^ 8) with (1 ≪ 8). rewrite Z.mul_comm, <- Z.mul_assoc, (finv_mul _ byte_base_not_zero).
  apply feq_exists. exists 0. lia.
Qed.

Lemma byte_join w x low : w ≐ x -> is_u16 x -> low ≐ x mod 2 ^ 8 ->
  (w - low) * finv (1 ≪ 8) ≐ x / 2 ^ 8.
Proof.
  intros Ew Bx El. rewrite Ew, El.
  replace (x - x mod 2 ^ 8) with (x / 2 ^ 8 * (1 ≪ 8)) by (change (1 ≪ 8) with (2 ^ 8); lia_mod).
  rewrite <- Z.mul_assoc, (Z.mul_comm (1 ≪ 8)), (finv_mul _ byte_base_not_zero). now rewrite Z.mul_1_r.
Qed.

(** Range-checked bytes of a word are its little-endian bytes. *)
Lemma u16_to_u8_sound w v cols bs : w ∼ v -> Forall is_u8 bs ->
  Forall2 feq (U16toU8Operation.eval_u16_to_u8_unsafe w cols) bs -> bs = to_le_bytes v.
Proof.
  intros Hw Hb Hf. destruct_word Hw as x0 x1 x2 x3. subst v. rewrite limbs_le_bytes by assumption.
  unfold U16toU8Operation.eval_u16_to_u8_unsafe in Hf. cbn in Hf.
  do 8 (apply Forall2_cons_inv_l in Hf as (? & ? & ? & Hf & ->)).
  apply Forall2_nil_inv_l in Hf as ->. decompose_Forall_hyps. fold_limbs w.
  repeat match goal with
  | Ew : w.[?i] ≐ _, El : ?low ≐ _, Eh : (w.[?i] - ?low) * _ ≐ _ |- _ =>
      destruct (byte_split _ _ _ _ _ Ew ltac:(assumption) El Eh) as [-> ->]; [assumption..|]; clear Eh
  end. reflexivity.
Qed.

Lemma u16_to_u8_complete w v : w ∼ v ->
  Forall2 feq (U16toU8Operation.eval_u16_to_u8_unsafe w (U16toU8Operation.populate_u16_to_u8_unsafe v))
    (to_le_bytes v).
Proof.
  intros Hw. pose proof Hw as [Hv _]. destruct_word Hw as x0 x1 x2 x3. subst v.
  rewrite limbs_le_bytes by assumption. unfold U16toU8Operation.populate_u16_to_u8_unsafe.
  change (u64_to_u16_limbs ?x) with (word_limbs (Word_from_u64 x)).
  rewrite Word_from_u64_limbs by assumption. cbn. fold_limbs w. rewrite !byte_of_limb.
  repeat (apply List.Forall2_cons; [first [reflexivity|now apply byte_join]|]). constructor.
Qed.

Lemma sat_slice_u8 ls m : sat (slice_range_check_u8 ls m) -> m ≐ 1 ->
  exists ls', Forall is_u8 ls' /\ Forall2 feq ls ls'.
Proof.
  set (P ls := sat (slice_range_check_u8 ls m) -> m ≐ 1 ->
    exists ls', Forall is_u8 ls' /\ Forall2 feq ls ls').
  enough (G : P ls /\ forall x, P (x :: ls)) by apply G. subst P.
  induction ls as [|y ls [IH IH1]]; (split; [|intros x]).
  - intros _ _. exists []. auto.
  - intros [Hx _]%sat_cons Hm. destruct (sat_send_op ByteOpcode.U8Range 0 x 0 m Hx Hm) as (e & Hok & Ho & _ & Ex & _).
    unfold event_ok in Hok. rewrite Ho in Hok. exists [ev_b e]. split; [apply list.Forall_singleton; tauto|].
    repeat (constructor; [done|]). constructor.
  - apply IH1.
  - intros [Hx Hs]%sat_cons Hm. destruct (sat_send_op ByteOpcode.U8Range 0 x y m Hx Hm) as (e & Hok & Ho & _ & Ex & Ey).
    unfold event_ok in Hok. rewrite Ho in Hok. destruct (IH Hs Hm) as (ls' & B & F).
    exists (ev_b e :: ev_c e :: ls'). split; [repeat (constructor; [tauto|]); done|].
    repeat (constructor; [done|]). done.
Qed.
End Bytes.

(** ** Bitwise operations, byte by byte *)

Definition bitop (o : ByteOpcode.t) : Z -> Z -> Z :=
  match o with ByteOpcode.AND => Z.land | ByteOpcode.OR => Z.lor | _ => Z.lxor end.
Definition is_bitop (o : ByteOpcode.t) : Prop :=
  o = ByteOpcode.AND \/ o = ByteOpcode.OR \/ o = ByteOpcode.XOR.

Lemma testbit_split x y n : is_u8 x -> 0 <= n ->
  Z.testbit (x + 2 ^ 8 * y) n = if n <? 8 then Z.testbit x n else Z.testbit y (n - 8).
Proof.
  intros Hx Hn. unfold fits in Hx. case_bool.
  - rewrite <- (Z.mod_pow2_bits_low (x + 2 ^ 8 * y) 8 n) by lia. f_equal. lia_mod.
  - replace n with (n - 8 + 8) at 1 by lia. rewrite <- Z.div_pow2_bits by lia. f_equal. lia_mod.
Qed.

Lemma bitop_spec o x y n : is_bitop o -> 0 <= n -> Z.testbit (bitop o x y) n =
  match o with ByteOpcode.AND => andb | ByteOpcode.OR => orb | _ => xorb end (Z.testbit x n) (Z.testbit y n).
Proof. intros [->|[->| ->]] Hn; [apply Z.land_spec|apply Z.lor_spec|apply Z.lxor_spec]. Qed.

Lemma bitop_u8 o x y : is_bitop o -> is_u8 x -> is_u8 y -> is_u8 (bitop o x y).
Proof.
  intros Ho Hx Hy. assert (E : bitop o x y = bitop o x y mod 2 ^ 8).
  { apply Z.bits_inj'. intros n Hn. destruct (Z.ltb_spec n 8).
    - now rewrite Z.mod_pow2_bits_low by lia.
    - rewrite Z.mod_pow2_bits_high, bitop_spec by (done || lia).
      rewrite <- (Z.mod_small x (2 ^ 8)), <- (Z.mod_small y (2 ^ 8)) by assumption.
      rewrite !Z.mod_pow2_bits_high by lia. now destruct o. }
  rewrite E. apply (wrap_fits 8). lia.
Qed.

Lemma bitop_split o x y x' y' : is_bitop o -> is_u8 x -> is_u8 x' ->
  bitop o (x + 2 ^ 8 * y) (x' + 2 ^ 8 * y') = bitop o x x' + 2 ^ 8 * bitop o y y'.
Proof.
  intros Ho Hx Hx'. apply Z.bits_inj'. intros n Hn.
  pose proof (bitop_u8 o x x' Ho Hx Hx').
  rewrite bitop_spec, !testbit_split by assumption. case_bool; now rewrite bitop_spec by (done || lia).
Qed.

Lemma bitop_bytes o bs cs : is_bitop o -> Forall is_u8 bs -> Forall is_u8 cs -> length bs = length cs ->
  bitop o (bytes_value bs) (bytes_value cs) = bytes_value (zip_with (bitop o) bs cs).
Proof.
  intros Ho Hb. revert cs. induction Hb as [|b bs Hb _ IH]; intros [|c cs] Hc E; try discriminate.
  - now destruct Ho as [->|[->| ->]].
  - inversion_clear Hc. injection E as E. simpl. now rewrite bitop_split, IH.
Qed.

Lemma bytes_value_word r0 r1 r2 r3 r4 r5 r6 r7 :
  bytes_value [r0; r1; r2; r3; r4; r5; r6; r7] =
  r0 + 2 ^ 8 * r1 + 2 ^ 16 * (r2 + 2 ^ 8 * r3) + 2 ^ 32 * (r4 + 2 ^ 8 * r5) + 2 ^ 48 * (r6 + 2 ^ 8 * r7).
Proof. simpl. lia. Qed.

Lemma bitop_bytes_u8 o bs cs : is_bitop o -> Forall is_u8 bs -> Forall is_u8 cs ->
  Forall is_u8 (zip_with (bitop o) bs cs).
Proof.
  intros Ho Hb. revert cs. induction Hb as [|b bs Hb _ IH]; intros cs Hc; [constructor|].
  destruct Hc; constructor; [now apply bitop_u8|now apply IH].
Qed.

Lemma le_bytes_value bs : Forall is_u8 bs -> length bs = 8%nat -> to_le_bytes (bytes_value bs) = bs.
Proof.
  intros Hb Hl. do 8 (destruct bs as [|? bs]; [discriminate|]). destruct bs; [|discriminate].
  rewrite bytes_value_word, to_le_bytes_eq. repeat apply Forall_cons_iff in Hb as [? Hb].
  unfold fits in *. repeat (apply (f_equal2 cons); [lia_mod|]). reflexivity.
Qed.

Lemma add_u8_range_checks_app ls r : add_u8_range_checks r ls = r ++ add_u8_range_checks [] ls.
Proof.
  enough (G : (forall r, add_u8_range_checks r ls = r ++ add_u8_range_checks [] ls) /\
    forall x r, add_u8_range_checks r (x :: ls) = r ++ add_u8_range_checks [] (x :: ls)) by apply G. clear r.
  induction ls as [|y ls [IH IH1]]; (split; [|intros x]); intros r; try reflexivity.
  - simpl. now rewrite app_nil_r.
  - apply IH1.
  - simpl. unfold add_u8_range_check, add_byte_lookup_event. rewrite (IH (_ ++ _)), (IH ([] ++ _)). now rewrite <- app_assoc.
Qed.

Section Bitwise.
Context `{AirBuilder}.

Lemma word_of_bytes_repr rs bs : Forall is_u8 bs -> Forall2 feq rs bs -> length bs = 8%nat ->
  word_of_bytes rs ∼ bytes_value bs.
Proof.
  intros Hb Hf Hl. do 8 (destruct bs as [|? bs]; [discriminate|]). destruct bs; [|discriminate].
  rewrite bytes_value_word. do 8 (apply Forall2_cons_inv_r in Hf as (? & ? & ? & Hf & ->)).
  apply Forall2_nil_inv_r in Hf as ->. decompose_Forall_hyps.
  unfold fits in *. apply represents_intro; unfold fits; try lia.
  all: cbn; change (1 ≪ 8) with (2 ^ 8); rewrite (Z.mul_comm (2 ^ 8)); apply feq_add; [assumption|].
  all: apply feq_mul; [assumption|reflexivity].
Qed.

Lemma bitwise_sends_sound o op xs ys rs r : is_bitop o -> op ≐ as_field o -> r ≐ 1 ->
  length xs = length rs -> length ys = length rs ->
  sat ((fun i => send_byte op (nth i rs 0) (nth i xs 0) (nth i ys 0) r) <$> seq 0 (length rs)) ->
  exists bs cs, Forall2 feq xs bs /\ Forall2 feq ys cs /\ Forall is_u8 bs /\ Forall is_u8 cs /\
    Forall2 feq rs (zip_with (bitop o) bs cs).
Proof.
  intros Ho Eop Hr. revert xs ys. induction rs as [|x rs IH]; intros [|b xs] [|c ys] Lx Ly Hs; try discriminate.
  - exists [], []. auto.
  - cbn [length seq] in Hs. rewrite fmap_cons, <- fmap_S_seq in Hs. apply sat_cons in Hs as [Hx Hs].
    rewrite <- list_fmap_compose in Hs.
    injection Lx as Lx. injection Ly as Ly. destruct (IH xs ys Lx Ly Hs) as (bs & cs & ? & ? & ? & ? & ?).
    cbn [nth] in Hx. destruct (sat_send_byte _ _ _ _ _ Hx Hr) as (e & Hok & E & Ex & Eb & Ec).
    rewrite Eop in E. apply as_field_inj in E.
    assert (Hev : is_u8 (ev_b e) /\ is_u8 (ev_c e) /\ ev_a e = bitop o (ev_b e) (ev_c e)).
    { unfold event_ok in Hok. rewrite <- E in Hok. now destruct Ho as [->|[->| ->]]. }
    destruct Hev as (? & ? & Ea). exists (ev_b e :: bs), (ev_c e :: cs). simpl. rewrite <- Ea.
    repeat split; constructor; assumption.
Qed.

Lemma bitwise_u16_sound b c vb vc o op cols r : is_bitop o -> b ∼ vb -> c ∼ vc -> op ≐ as_field o -> r ≐ 1 ->
  sat (BitwiseU16Operation.eval_bitwise_u16 b c cols op r).1 ->
  (BitwiseU16Operation.eval_bitwise_u16 b c cols op r).2 ∼ bitop o vb vc.
Proof.
  intros Ho Hb Hc Eop Hr Hs. unfold BitwiseU16Operation.eval_bitwise_u16 in *. cbn [fst snd] in *.
  apply sat_cons in Hs as [_ Hs]. unfold BitwiseOperation.eval_bitwise in Hs.
  set (res := BitwiseOperation.result _) in *.
  set (rs := (fun i => nth i res 0) <$> seq 0 WORD_BYTE_SIZE).
  change (word_of_bytes res) with (word_of_bytes rs).
  destruct (bitwise_sends_sound o op (U16toU8Operation.eval_u16_to_u8_unsafe b (BitwiseU16Operation.b_low_bytes cols))
    (U16toU8Operation.eval_u16_to_u8_unsafe c (BitwiseU16Operation.c_low_bytes cols))
    rs r Ho Eop Hr eq_refl eq_refl Hs) as (bs & cs & Fb & Fc & Bb & Bc & Fr).
  apply (u16_to_u8_sound b vb) in Fb; [|assumption..]. apply (u16_to_u8_sound c vc) in Fc; [|assumption..]. subst.
  rewrite <- (bytes_le_value vb), <- (bytes_le_value vc) by (apply Hb || apply Hc).
  rewrite bitop_bytes by (done || rewrite !to_le_bytes_eq; done).
  apply word_of_bytes_repr; [|exact Fr|now rewrite !to_le_bytes_eq].
  now apply bitop_bytes_u8.
Qed.

(** The recorded events of one opcode on lists of bytes. *)
Lemma bitwise_sends_complete o op rs xs ys bs cs r : is_bitop o -> op ≐ as_field o -> r ≐ 1 ->
  Forall is_u8 bs -> Forall is_u8 cs -> Forall2 feq xs bs -> Forall2 feq ys cs ->
  Forall2 feq rs (zip_with (bitop o) bs cs) -> length bs = length cs ->
  complete ((fun i => send_byte op (nth i rs 0) (nth i xs 0) (nth i ys 0) r) <$> seq 0 (length rs))
    ((fun '(x, b, c) => mkByteLookupEvent o x b c) <$> zip (zip (zip_with (bitop o) bs cs) bs) cs).
Proof.
  intros Ho Eop Hr Hb. revert rs xs ys cs. induction Hb as [|b bs Hb _ IH];
    intros rs xs ys [|c cs] Hc Fx Fy Fr E; try discriminate.
  - apply Forall2_nil_inv_r in Fr as ->. apply complete_nil.
  - injection E as E. inversion_clear Hc as [|? ? Bc Hc']. simpl in Fr.
    apply Forall2_cons_inv_r in Fr as (x & rs' & Ex & Fr & ->).
    apply Forall2_cons_inv_r in Fx as (x1 & xs' & E1 & Fx & ->).
    apply Forall2_cons_inv_r in Fy as (x2 & ys' & E2 & Fy & ->).
    cbn [length seq zip zip_with]. rewrite !fmap_cons, <- fmap_S_seq, <- list_fmap_compose.
    apply complete_send; try assumption; [|now apply IH].
    unfold event_ok. simpl. destruct Ho as [->|[->| ->]]; auto.
Qed.

Lemma fold_add_events {A} (f : A -> ByteLookupEvent) g l r :
  (forall r x, g r x = add_byte_lookup_event r (f x)) -> fold_left g l r = r ++ (f <$> l).
Proof.
  intros Hg. revert r. induction l as [|x l IH]; intros r; simpl; [now rewrite app_nil_r|].
  rewrite IH, Hg. unfold add_byte_lookup_event. now rewrite <- app_assoc.
Qed.

Lemma bitop_le_bytes o b c : is_bitop o -> is_u64 b -> is_u64 c ->
  to_le_bytes (bitop o b c) = zip_with (bitop o) (to_le_bytes b) (to_le_bytes c).
Proof.
  intros Ho Hb Hc. rewrite <- (bytes_le_value b Hb), <- (bytes_le_value c Hc) at 1.
  pose proof (to_le_bytes_u8 b) as Bb. pose proof (to_le_bytes_u8 c) as Bc.
  rewrite bitop_bytes by (done || now rewrite !to_le_bytes_eq).
  apply le_bytes_value; [now apply bitop_bytes_u8|now rewrite !to_le_bytes_eq].
Qed.

Lemma bitwise_u16_complete b c vb vc opcode o op : byte_opcode_of opcode = Some o -> b ∼ vb -> c ∼ vc ->
  op ≐ as_field o ->
  exists cols events, BitwiseU16Operation.populate_bitwise [] (bitop o vb vc) vb vc opcode = Some (cols, events) /\
    complete (BitwiseU16Operation.eval_bitwise_u16 b c cols op 1).1 events.
Proof.
  intros Eo Hb Hc Eop. assert (Ho : is_bitop o) by (destruct opcode; try discriminate; injection Eo as <-; unfold is_bitop; auto).
  unfold BitwiseU16Operation.populate_bitwise, BitwiseOperation.populate_bitwise. rewrite Eo. cbn [mbind option_bind].
  eexists _, _. split; [reflexivity|]. apply complete_assert; [now apply holds_assert_bool; right|].
  rewrite (bitop_le_bytes o) by (done || apply Hb || apply Hc).
  rewrite (fold_add_events (fun '(x, b, c) => mkByteLookupEvent o x b c)) by (now intros ? [[? ?] ?]).
  unfold BitwiseOperation.eval_bitwise. cbn [BitwiseU16Operation.bitwise_operation BitwiseOperation.result
    BitwiseU16Operation.b_low_bytes BitwiseU16Operation.c_low_bytes].
  replace WORD_BYTE_SIZE with (length (zip_with (bitop o) (to_le_bytes vb) (to_le_bytes vc))) by (rewrite !to_le_bytes_eq; done).
  apply bitwise_sends_complete; try done; try apply to_le_bytes_u8; try now apply u16_to_u8_complete.
Qed.

Lemma complete_slice_u8 ls ls' m : Forall is_u8 ls' -> Forall2 feq ls ls' -> m ≐ 1 -> Nat.Even (length ls) ->
  complete (slice_range_check_u8 ls m) (add_u8_range_checks [] ls').
Proof.
  intros Hb Hf Hm [k Hk]. revert ls ls' Hb Hf Hk. induction k as [|k IH]; intros ls ls' Hb Hf Hk.
  - destruct ls; [|discriminate]. apply Forall2_nil_inv_l in Hf as ->. apply complete_nil.
  - destruct ls as [|x [|y ls]]; try (simpl in Hk; lia).
    apply Forall2_cons_inv_l in Hf as (x' & l1 & Ex & Hf & ->).
    apply Forall2_cons_inv_l in Hf as (y' & l2 & Ey & Hf & ->).
    apply Forall_cons_iff in Hb as [Bx Hb]. apply Forall_cons_iff in Hb as [By Hb].
    simpl. rewrite add_u8_range_checks_app. apply complete_send; try assumption; try reflexivity.
    + exact (conj Bx (conj By eq_refl)).
    + apply IH; try assumption. simpl in Hk. lia.
Qed.
End Bitwise.

Section BitwiseCorrect.
Context `{AirBuilder}.

(** C26. [BitwiseU16Operation] is correct for [AND], [OR] and [XOR]: when its
    constraints hold on a real row with the byte opcode of [opcode], the
    returned word is the 64-bit conjunction, disjunction or exclusive or of
    the operands; and the row of [populate_bitwise] satisfies the constraints,
    the sends being exactly the recorded byte lookups. *)
Theorem bitwise_operation_correct b c vb vc opcode o op :
  byte_opcode_of opcode = Some o -> op ≐ as_field o -> b ∼ vb -> c ∼ vc ->
  (forall cols r, r ≐ 1 -> sat (BitwiseU16Operation.eval_bitwise_u16 b c cols op r).1 ->
     (BitwiseU16Operation.eval_bitwise_u16 b c cols op r).2 ∼ bitop o vb vc) /\
  (exists cols events,
     BitwiseU16Operation.populate_bitwise [] (bitop o vb vc) vb vc opcode = Some (cols, events) /\
     complete (BitwiseU16Operation.eval_bitwise_u16 b c cols op 1).1 events).
Proof.
  intros Eo Eop Hb Hc. split; [|now apply bitwise_u16_complete].
  intros cols r Hr. apply bitwise_u16_sound; try assumption.
  destruct opcode; try discriminate; injection Eo as <-; unfold is_bitop; auto.
Qed.
End BitwiseCorrect.

Lemma bitwise_operation_correct_witness :
  exists cols events,
    BitwiseU16Operation.populate_bitwise [] 0xff00ff00aa00aa99 0xffff0000aaaaaa99 0x00ffff0000aa0000 Opcode.XOR = Some (cols, events) /\
    complete (BitwiseU16Operation.eval_bitwise_u16 (Word_from_u64 0xffff0000aaaaaa99) (Word_from_u64 0x00ffff0000aa0000) cols 2 1).1 events.
Proof.
  refine (proj2 (bitwise_operation_correct (Word_from_u64 0xffff0000aaaaaa99) (Word_from_u64 0x00ffff0000aa0000)
    0xffff0000aaaaaa99 0x00ffff0000aa0000 Opcode.XOR ByteOpcode.XOR 2 eq_refl (reflexivity _) _ _)).
  - apply represents_from_u64. unfold fits. lia.
  - apply represents_from_u64. unfold fits. lia.
Defined.
