(* ===== verification/MulOps.v ===== *)
(** * MulOps: the multiplier

    [operations/mul.rs] of [core/machine]: the 128-bit product of two words
    from the convolution of their sign-extended bytes, its carries, and the
    selection of the half that [MUL], [MULH], [MULHU], [MULHSU] or [MULW]
    writes. *)
From Stdlib Require Import ZArith Lia Bool.
From stdpp Require Import base numbers option list sets.
From S2P Require Import Prelude Isa Air KoalaBear ByteTable WordAir AddOps LtOps BitOps Rv64.
Import ByteOpcode (as_field).

Definition LONG_WORD_BYTE_SIZE : nat := 16.
Definition BYTE_MASK : Z := 0xff.

(** [product[k] += t]. *)
Definition add_at (k : nat) (t : Z) (m : list Z) : list Z :=
  if (k <? LONG_WORD_BYTE_SIZE)%nat then alter (fun x => x + t) k m else m.
(** The inner loop: [bi] times the bytes of [c], from position [k] on. *)
Fixpoint mul_row (k : nat) (bi : Z) (c m : list Z) : list Z :=
  match c with [] => m | cj :: c => mul_row (S k) bi c (add_at k (bi * cj) m) end.
(** The outer loop, from byte [i] of [b] on. *)
Fixpoint mul_rows (i : nat) (b c m : list Z) : list Z :=
  match b with [] => m | bi :: b => mul_rows (S i) b c (mul_row i bi c m) end.
Definition uncarried (b c : list Z) : list Z := mul_rows 0 b c (replicate LONG_WORD_BYTE_SIZE 0).

Module MulOperation.
Record t := mk {
  carry : list Z;
  product : list Z;
  b_lower_byte : U16toU8Operation.t;
  c_lower_byte : U16toU8Operation.t;
  b_msb : Z;
  c_msb : Z;
  product_msb : U16MSBOperation.t;
  b_sign_extend : Z;
  c_sign_extend : Z }.
Definition zero : t :=
  mk (replicate LONG_WORD_BYTE_SIZE 0) (replicate LONG_WORD_BYTE_SIZE 0) U16toU8Operation.zero U16toU8Operation.zero 0 0
    (U16MSBOperation.mk 0) 0 0.

Definition get_msb (a : list Z) : Z := Z.land (nth 7 a 0 ≫ (8 - 1)) 1.

(** The loop that takes the carries out of the columns of the product: the
    carries and the bytes left. *)
Fixpoint propagate (product : list Z) (carry : Z) : list Z * list Z :=
  match product with
  | [] => ([], [])
  | x :: product =>
      let x := x + carry in
      let '(cs, ps) := propagate product (x / 2 ^ 8) in (x / 2 ^ 8 :: cs, x mod 2 ^ 8 :: ps)
  end.

(** [Vec::resize] to sixteen bytes. *)
Definition resize (a : list Z) : list Z := a ++ replicate (LONG_WORD_BYTE_SIZE - length a) BYTE_MASK.

Definition populate (record : list ByteLookupEvent) (b_u64 c_u64 : Z) (is_mulh is_mulhsu is_mulw : bool) :
  t * list ByteLookupEvent :=
  let b_word := to_le_bytes b_u64 in
  let c_word := to_le_bytes c_u64 in
  let mulw_value := u64 (i32 (i32 b_u64 * i32 c_u64)) in
  let limbs := u64_to_u16_limbs mulw_value in
  let '(product_msb, record) :=
    if is_mulw then let '(m, record, _) := U16MSBOperation.populate_msb record (nth 1 limbs 0) in (m, record)
    else (U16MSBOperation.mk 0, record) in
  let '(b_lower_byte, record) := U16toU8Operation.populate_u16_to_u8_safe record b_u64 in
  let '(c_lower_byte, record) := U16toU8Operation.populate_u16_to_u8_safe record c_u64 in
  let b_msb := get_msb b_word in
  let c_msb := get_msb c_word in
  let extend_b := (is_mulh || is_mulhsu) && (b_msb =? 1) in
  let extend_c := is_mulh && (c_msb =? 1) in
  let b := if extend_b then resize b_word else b_word in
  let c := if extend_c then resize c_word else c_word in
  let record := add_byte_lookup_event record (mkByteLookupEvent ByteOpcode.MSB b_msb (nth 7 b_word 0) 0) in
  let record := add_byte_lookup_event record (mkByteLookupEvent ByteOpcode.MSB c_msb (nth 7 c_word 0) 0) in
  let '(carry, product) := propagate (uncarried b c) 0 in
  let record := add_u16_range_checks record (u16 <$> carry) in
  let record := add_u8_range_checks record (u8 <$> product) in
  (mk carry product b_lower_byte c_lower_byte b_msb c_msb product_msb (from_bool extend_b) (from_bool extend_c),
   record).

(** The bytes of an operand, sign-extended. *)
Definition extended (b : list Z) (sign_extend : Z) : list Z :=
  (fun i => if (i <? WORD_BYTE_SIZE)%nat then nth i b 0 else sign_extend * BYTE_MASK)
    <$> seq 0 LONG_WORD_BYTE_SIZE.

Definition carry_calls (m : list Z) (cols : t) (is_real : Z) : list call :=
  (fun i => Assert (When is_real (AssertEq (nth i (product cols) 0)
     (if (i =? 0)%nat then nth i m 0 - nth i (carry cols) 0 * (1 ≪ 8)
      else nth i m 0 + nth (i - 1) (carry cols) 0 - nth i (carry cols) 0 * (1 ≪ 8)))))
    <$> seq 0 LONG_WORD_BYTE_SIZE.

Definition result_calls (a_word : Word) (cols : t) (is_lower is_upper is_word : Z) : list call :=
  i ← seq 0 WORD_SIZE;
  let p k := nth k (product cols) 0 in
  [ (if (i <? WORD_SIZE / 2)%nat
     then Assert (When is_word (AssertEq (p (2 * i)%nat + p (2 * i + 1)%nat * (1 ≪ 8)) a_word.[i]))
     else Assert (When is_word (AssertEq (U16MSBOperation.msb (product_msb cols) * ((1 ≪ 16) - 1)) a_word.[i])));
    Assert (When is_lower (AssertEq (p (2 * i)%nat + p (2 * i + 1)%nat * (1 ≪ 8)) a_word.[i]));
    Assert (When is_upper (AssertEq (p (2 * i + WORD_BYTE_SIZE)%nat + p (2 * i + 1 + WORD_BYTE_SIZE)%nat * (1 ≪ 8))
      a_word.[i])) ].

Definition eval `{PrimeField} (a_word b_word c_word : Word) (cols : t)
  (is_real is_mul is_mulh is_mulw is_mulhu is_mulhsu : Z) : list call :=
  let '(b_calls, b) := U16toU8Operation.eval_u16_to_u8_safe b_word (b_lower_byte cols) is_real in
  let '(c_calls, c) := U16toU8Operation.eval_u16_to_u8_safe c_word (c_lower_byte cols) is_real in
  let is_b_i64 := is_mulh + is_mulhsu in
  let is_c_i64 := is_mulh in
  let m := uncarried (extended b (b_sign_extend cols)) (extended c (c_sign_extend cols)) in
  b_calls ++ c_calls ++
  [send_byte (ByteOpcode.as_u8 ByteOpcode.MSB) (b_msb cols) (nth (WORD_BYTE_SIZE - 1) b 0) 0 is_real;
   send_byte (ByteOpcode.as_u8 ByteOpcode.MSB) (c_msb cols) (nth (WORD_BYTE_SIZE - 1) c 0) 0 is_real] ++
  U16MSBOperation.eval_msb a_word.[1] (product_msb cols) is_mulw ++
  [Assert (AssertEq (b_sign_extend cols) (is_b_i64 * b_msb cols));
   Assert (AssertEq (c_sign_extend cols) (is_c_i64 * c_msb cols))] ++
  carry_calls m cols is_real ++
  result_calls a_word cols is_mul (is_mulh + is_mulhu + is_mulhsu) is_mulw ++
  ((fun x => Assert (AssertBool x)) <$>
    [b_msb cols; c_msb cols; b_sign_extend cols; c_sign_extend cols;
     is_mul; is_mulh; is_mulhu; is_mulhsu; is_mulw; is_mul + is_mulh + is_mulhu + is_mulhsu + is_mulw; is_real]) ++
  [Assert (When (b_sign_extend cols) (AssertEq (b_msb cols) 1));
   Assert (When (c_sign_extend cols) (AssertEq (c_msb cols) 1))] ++
  slice_range_check_u16 ((fun i => nth i (carry cols) 0) <$> seq 0 LONG_WORD_BYTE_SIZE) is_real ++
  slice_range_check_u8 ((fun i => nth i (product cols) 0) <$> seq 0 LONG_WORD_BYTE_SIZE) is_real.
End MulOperation.

(** ** The convolution of the bytes *)

Lemma length_mul_rows i b c m : length (mul_rows i b c m) = length m.
Proof.
  assert (R : forall k bi c m, length (mul_row k bi c m) = length m).
  { intros k bi c'. revert k. induction c' as [|x c' IH]; intros k m'; [done|]. simpl. rewrite IH.
    unfold add_at. destruct (_ <? _)%nat; [apply length_alter|done]. }
  revert i m. induction b as [|x b IH]; intros i m; [done|]. simpl. now rewrite IH, R.
Qed.

Lemma bytes_value_alter k t m : (k < length m)%nat ->
  bytes_value (alter (fun x => x + t) k m) = bytes_value m + 2 ^ (8 * Z.of_nat k) * t.
Proof.
  revert k. induction m as [|x m IH]; intros [|k] Hk; simpl in Hk; try lia.
  - simpl. lia.
  - cbn [alter list_alter]. rewrite !bytes_value_cons, IH by lia. rewrite Nat2Z.inj_succ.
    replace (8 * Z.succ (Z.of_nat k)) with (8 + 8 * Z.of_nat k) by lia. rewrite Z.pow_add_r by lia. lia.
Qed.

Lemma add_at_value k t m : length m = LONG_WORD_BYTE_SIZE ->
  exists q, bytes_value (add_at k t m) + 2 ^ 128 * q = bytes_value m + 2 ^ (8 * Z.of_nat k) * t.
Proof.
  intros Hm. unfold add_at. destruct (Nat.ltb_spec k LONG_WORD_BYTE_SIZE).
  - exists 0. rewrite bytes_value_alter by (now rewrite Hm). lia.
  - exists (2 ^ (8 * Z.of_nat k - 128) * t). rewrite Z.mul_assoc, <- Z.pow_add_r; unfold LONG_WORD_BYTE_SIZE in *; try lia.
    do 3 f_equal. lia.
Qed.

Lemma length_add_at k t m : length (add_at k t m) = length m.
Proof. unfold add_at. destruct (_ <? _)%nat; [apply length_alter|done]. Qed.

Lemma pow8_succ k : 2 ^ (8 * Z.of_nat (S k)) = 2 ^ (8 * Z.of_nat k) * 2 ^ 8.
Proof. rewrite <- Z.pow_add_r by lia. f_equal. lia. Qed.

Lemma mul_row_value k bi c m : length m = LONG_WORD_BYTE_SIZE ->
  length (mul_row k bi c m) = LONG_WORD_BYTE_SIZE /\
  exists q, bytes_value (mul_row k bi c m) + 2 ^ 128 * q =
            bytes_value m + 2 ^ (8 * Z.of_nat k) * (bi * bytes_value c).
Proof.
  revert k m. induction c as [|x c IH]; intros k m Hm.
  - split; [done|]. exists 0. simpl. lia.
  - destruct (add_at_value k (bi * x) m Hm) as [q Hq].
    destruct (IH (S k) (add_at k (bi * x) m)) as [Hl [q' Hq']]; [now rewrite length_add_at|].
    split; [exact Hl|]. exists (q + q'). cbn [mul_row]. rewrite bytes_value_cons.
    rewrite pow8_succ in Hq'. lia.
Qed.

Lemma mul_rows_value i b c m : length m = LONG_WORD_BYTE_SIZE ->
  exists q, bytes_value (mul_rows i b c m) + 2 ^ 128 * q =
            bytes_value m + 2 ^ (8 * Z.of_nat i) * (bytes_value b * bytes_value c).
Proof.
  revert i m. induction b as [|x b IH]; intros i m Hm.
  - exists 0. simpl. lia.
  - destruct (mul_row_value i x c m Hm) as [Hl [q Hq]]. destruct (IH (S i) (mul_row i x c m) Hl) as [q' Hq'].
    exists (q + q'). cbn [mul_rows]. rewrite bytes_value_cons.
    rewrite pow8_succ in Hq'. lia.
Qed.

Lemma uncarried_value b c :
  bytes_value (uncarried b c) mod 2 ^ 128 = (bytes_value b * bytes_value c) mod 2 ^ 128.
Proof.
  destruct (mul_rows_value 0 b c (replicate LONG_WORD_BYTE_SIZE 0) eq_refl) as [q Hq].
  change (bytes_value (replicate LONG_WORD_BYTE_SIZE 0)) with 0 in Hq. simpl Z.of_nat in Hq.
  fold (uncarried b c) in Hq. apply (wrap_eq_intro 128 _ _ (- q)); [|lia]. lia.
Qed.

Lemma uncarried_bound b c : Forall is_u8 b -> Forall is_u8 c ->
  Forall (fun x => 0 <= x <= 65025 * Z.of_nat (length b * length c)) (uncarried b c).
Proof.
  intros Hb Hc.
  assert (A : forall B k t m, 0 <= t <= 65025 -> Forall (fun x => 0 <= x <= B) m ->
    Forall (fun x => 0 <= x <= B + 65025) (add_at k t m)).
  { intros B k t m Ht Hm. assert (Forall (fun x => 0 <= x <= B + 65025) m)
      by (eapply Forall_impl; [exact Hm|simpl; lia]).
    unfold add_at. destruct (_ <? _)%nat; [|done].
    revert k. clear - Hm Ht H. induction Hm as [|x m Hx Hm IH]; intros [|k]; try done;
      inversion_clear H; constructor; try done; simpl; [lia|now apply IH]. }
  assert (R : forall B k bi m, is_u8 bi -> Forall (fun x => 0 <= x <= B) m ->
    Forall (fun x => 0 <= x <= B + 65025 * Z.of_nat (length c)) (mul_row k bi c m)).
  { intros B k bi m Hbi. revert B k m. induction Hc as [|x c Hx _ IH]; intros B k m Hm.
    - eapply Forall_impl; [exact Hm|simpl; lia].
    - cbn [mul_row length]. rewrite Nat2Z.inj_succ.
      eapply Forall_impl; [apply (IH (B + 65025)); apply A; [unfold fits in *; nia|exact Hm]|simpl; lia]. }
  assert (G : forall B i m, Forall (fun x => 0 <= x <= B) m ->
    Forall (fun x => 0 <= x <= B + 65025 * Z.of_nat (length b * length c)) (mul_rows i b c m)).
  { induction Hb as [|x b Hx _ IH]; intros B i m Hm.
    - eapply Forall_impl; [exact Hm|simpl; lia].
    - cbn [mul_rows length]. eapply Forall_impl;
        [apply (IH (B + 65025 * Z.of_nat (length c))); apply R; [exact Hx|exact Hm]|simpl; lia]. }
  apply (G 0). apply Forall_replicate. lia.
Qed.

(** Carries taken out of the columns leave the value unchanged, up to what
    leaves at the top. *)
Lemma carry_chain_value ps cs ms c : length ps = length ms -> length cs = length ms ->
  (forall i, (i < length ms)%nat ->
    nth i ps 0 + 2 ^ 8 * nth i cs 0 = nth i ms 0 + match i with O => c | S j => nth j cs 0 end) ->
  exists q, bytes_value ps + 2 ^ (8 * Z.of_nat (length ms)) * q = bytes_value ms + c.
Proof.
  revert ps cs c. induction ms as [|m ms IH]; intros [|p ps] [|k cs] c Hp Hc Hi; try discriminate.
  - exists c. simpl. lia.
  - simpl in Hp, Hc. destruct (IH ps cs k) as [q Hq]; [lia|lia| |].
    + intros i Hl. specialize (Hi (S i) ltac:(simpl; lia)). simpl in Hi. now destruct i.
    + exists q. specialize (Hi 0%nat ltac:(simpl; lia)). cbn [nth] in Hi. cbn [length]. rewrite !bytes_value_cons, pow8_succ. lia.
Qed.

Lemma bytes_value_bound bs : Forall is_u8 bs -> 0 <= bytes_value bs < 2 ^ (8 * Z.of_nat (length bs)).
Proof.
  induction 1 as [|b bs Hb _ IH]; [simpl; lia|]. cbn [length]. rewrite bytes_value_cons, pow8_succ.
  unfold fits in Hb. lia.
Qed.

Lemma bytes_value_app bs cs :
  bytes_value (bs ++ cs) = bytes_value bs + 2 ^ (8 * Z.of_nat (length bs)) * bytes_value cs.
Proof.
  induction bs as [|b bs IH]; [simpl; lia|]. cbn [app length]. rewrite !bytes_value_cons, IH, pow8_succ. lia.
Qed.

Lemma chain_product ps cs b c : Forall is_u8 ps -> length ps = 16%nat -> length cs = 16%nat ->
  (forall i, (i < 16)%nat ->
    nth i ps 0 + 2 ^ 8 * nth i cs 0 = nth i (uncarried b c) 0 + match i with O => 0 | S j => nth j cs 0 end) ->
  bytes_value ps = (bytes_value b * bytes_value c) mod 2 ^ 128.
Proof.
  intros Bps Lps Lcs Hi. assert (Lm : length (uncarried b c) = 16%nat) by apply length_mul_rows.
  destruct (carry_chain_value ps cs (uncarried b c) 0) as [q Hq]; [lia..|now rewrite Lm|].
  rewrite Lm in Hq. change (8 * Z.of_nat 16) with 128 in Hq.
  pose proof (bytes_value_bound ps Bps) as B. rewrite Lps in B. change (8 * Z.of_nat 16) with 128 in B.
  rewrite <- uncarried_value. replace (bytes_value (uncarried b c)) with (bytes_value ps + q * 2 ^ 128) by lia.
  rewrite Z.mod_add by lia. symmetry. now apply Z.mod_small.
Qed.

Section Multiplier.
Context `{AirBuilder}.

Lemma uncarried_feq b b' c c' : Forall2 feq b b' -> Forall2 feq c c' ->
  Forall2 feq (uncarried b c) (uncarried b' c').
Proof.
  intros Hb Hc.
  assert (A : forall k t t' m m', t ≐ t' -> Forall2 feq m m' -> Forall2 feq (add_at k t m) (add_at k t' m')).
  { intros k t t' m m' Ht Hm. unfold add_at. destruct (_ <? _)%nat; [|done].
    revert k. induction Hm; intros [|k]; try (constructor; fail); simpl; constructor; try done;
      [now apply feq_add|apply IHHm]. }
  assert (R : forall k x x' m m', x ≐ x' -> Forall2 feq m m' -> Forall2 feq (mul_row k x c m) (mul_row k x' c' m')).
  { intros k x x' m m' Hx. revert k m m'. induction Hc; intros k m m' Hm; [done|].
    simpl. apply IHHc, A; [now apply feq_mul|done]. }
  unfold uncarried. assert (Hm : Forall2 feq (replicate LONG_WORD_BYTE_SIZE 0) (replicate LONG_WORD_BYTE_SIZE 0)) by reflexivity.
  revert Hm. generalize 0%nat. generalize (replicate LONG_WORD_BYTE_SIZE 0) at 1 3.
  generalize (replicate LONG_WORD_BYTE_SIZE 0).
  induction Hb; intros m' m i Hm; [done|]. simpl. apply IHHb. now apply R.
Qed.

Lemma nth_feq ls ls' i : Forall2 feq ls ls' -> nth i ls 0 ≐ nth i ls' 0.
Proof. intros F. revert i. induction F; intros [|i]; simpl; done || reflexivity || auto. Qed.

Lemma nth_bound (P : Z -> Prop) ls i : Forall P ls -> P 0 -> P (nth i ls 0).
Proof. intros F P0. revert i. induction F; intros [|i]; simpl; auto. Qed.

Lemma nth_columns (l : list Z) n i : (i < n)%nat -> nth i ((fun i => nth i l 0) <$> seq 0 n) 0 = nth i l 0.
Proof. intros Hi. apply nth_lookup_Some. rewrite list_lookup_fmap, lookup_seq_lt by done. done. Qed.

(** The product columns hold the 128-bit product of the extended operands. *)
Lemma product_sound b c b' c' cols r : r ≐ 1 ->
  Forall2 feq b b' -> Forall2 feq c c' -> Forall is_u8 b' -> Forall is_u8 c' -> length b' = 16%nat -> length c' = 16%nat ->
  sat (MulOperation.carry_calls (uncarried b c) cols r) ->
  sat (slice_range_check_u16 ((fun i => nth i (MulOperation.carry cols) 0) <$> seq 0 LONG_WORD_BYTE_SIZE) r) ->
  sat (slice_range_check_u8 ((fun i => nth i (MulOperation.product cols) 0) <$> seq 0 LONG_WORD_BYTE_SIZE) r) ->
  exists ps, Forall is_u8 ps /\ Forall2 feq ((fun i => nth i (MulOperation.product cols) 0) <$> seq 0 LONG_WORD_BYTE_SIZE) ps /\
    length ps = 16%nat /\ bytes_value ps = (bytes_value b' * bytes_value c') mod 2 ^ 128.
Proof.
  intros Hr Fb Fc Bb Bc Lb Lc Hcarry H16 H8.
  destruct (sat_slice_u16 _ r H16 Hr) as (cs & Bcs & Fcs).
  destruct (sat_slice_u8 _ r H8 Hr) as (ps & Bps & Fps).
  pose proof (Forall2_length _ _ _ Fps) as Lps. pose proof (Forall2_length _ _ _ Fcs) as Lcs.
  rewrite length_fmap, length_seq in Lps, Lcs.
  exists ps. split; [done|]. split; [done|]. split; [done|].
  pose proof (uncarried_bound b' c' Bb Bc) as Bm. rewrite Lb, Lc in Bm.
  pose proof (uncarried_feq b b' c c' Fb Fc) as Fm.
  assert (Lm : length (uncarried b' c') = LONG_WORD_BYTE_SIZE) by apply length_mul_rows.
  apply (chain_product ps cs); [done|done|done|].
  intros i Hi. pose proof order_large.
  pose proof (nth_bound _ ps i Bps ltac:(unfold fits; lia)) as B1.
  pose proof (nth_bound _ cs i Bcs ltac:(unfold fits; lia)) as B2.
  pose proof (nth_bound _ _ i Bm ltac:(simpl; lia)) as B3. simpl in B3.
  pose proof (nth_feq _ _ i Fps) as E1. pose proof (nth_feq _ _ i Fcs) as E2. rewrite nth_columns in E1, E2 by done.
  pose proof (nth_feq _ _ i Fm) as E3.
  assert (E : nth i (MulOperation.product cols) 0 + 2 ^ 8 * nth i (MulOperation.carry cols) 0 ≐
    nth i (uncarried b c) 0 + match i with O => 0 | S j => nth j (MulOperation.carry cols) 0 end).
  { assert (Hin : i ∈ seq 0 LONG_WORD_BYTE_SIZE) by (apply elem_of_seq; unfold LONG_WORD_BYTE_SIZE; lia).
    apply (fun h => sat_fmap _ _ i h Hin) in Hcarry. apply holds_when in Hcarry; [|rewrite Hr; apply one_not_zero].
    apply holds_assert_eq in Hcarry. rewrite Hcarry. apply feq_exists. exists 0.
    change (1 ≪ 8) with (2 ^ 8). destruct i as [|j]; simpl; rewrite ?Nat.sub_0_r; lia. }
  rewrite E1, E2, E3 in E. destruct i as [|j]; [apply feq_small; [exact E|unfold fits in *; lia]|].
  pose proof (nth_feq _ _ j Fcs) as E4. rewrite nth_columns in E4 by (unfold LONG_WORD_BYTE_SIZE; lia). rewrite E4 in E.
  pose proof (nth_bound _ cs j Bcs ltac:(unfold fits; lia)). apply feq_small; [exact E|unfold fits in *; lia].
Qed.

Lemma represents_feq w w' v : Forall2 feq (word_limbs w) (word_limbs w') -> w' ∼ v -> w ∼ v.
Proof. intros F [Hv F']. split; [done|]. etransitivity; eassumption. Qed.

(** The operand bytes, range-checked, and the sign bit looked up. *)
Lemma operand_sound w v cols msb r : w ∼ v -> r ≐ 1 ->
  sat (U16toU8Operation.eval_u16_to_u8_safe w cols r).1 ->
  sat_call (send_byte (ByteOpcode.as_u8 ByteOpcode.MSB) msb
    (nth 7 (U16toU8Operation.eval_u16_to_u8_safe w cols r).2 0) 0 r) ->
  Forall2 feq (U16toU8Operation.eval_u16_to_u8_safe w cols r).2 (to_le_bytes v) /\ msb ≐ v / 2 ^ 63.
Proof.
  intros Hw Hr Hs Hm. cbn [fst snd U16toU8Operation.eval_u16_to_u8_safe] in *.
  destruct (sat_slice_u8 _ r Hs Hr) as (bs & B & F).
  pose proof (u16_to_u8_sound w v cols bs Hw B F) as E. subst bs. split; [done|].
  destruct (sat_send_op ByteOpcode.MSB _ _ _ _ Hm Hr) as (e & Hok & Ho & Ea & Eb & _).
  unfold event_ok in Hok. rewrite Ho in Hok. destruct Hok as (Be & _ & Ee). rewrite Ea, Ee.
  pose proof (nth_feq _ _ 7 F) as E7. rewrite Eb, to_le_bytes_eq in E7. simpl nth in E7.
  pose proof order_large. destruct Hw as [Hv _]. unfold fits in *. apply feq_small in E7; [|lia_mod].
  rewrite E7. apply feq_exists. exists 0. lia_mod.
Qed.

(** An operand's sixteen bytes. *)
Definition operand_bytes (v s : Z) : list Z := to_le_bytes v ++ replicate 8 (s * 255).

Lemma extended_feq b v s s' : Forall2 feq b (to_le_bytes v) -> s ≐ s' ->
  Forall2 feq (MulOperation.extended b s) (operand_bytes v s').
Proof.
  intros Fb Es. unfold operand_bytes. rewrite to_le_bytes_eq in *.
  do 8 (apply Forall2_cons_inv_r in Fb as (? & ? & ? & Fb & ->)). apply Forall2_nil_inv_r in Fb as ->.
  cbn. repeat (apply List.Forall2_cons; [first [assumption|now apply feq_mul]|]). constructor.
Qed.

Lemma operand_bytes_value v s : is_u64 v ->
  bytes_value (operand_bytes v s) = v + 2 ^ 64 * (s * (2 ^ 64 - 1)).
Proof.
  intros Hv. unfold operand_bytes. rewrite bytes_value_app, bytes_le_value by done.
  rewrite to_le_bytes_eq. cbn [length replicate]. rewrite !bytes_value_cons. change (bytes_value []) with 0.
  change (8 * Z.of_nat 8) with 64. lia.
Qed.

Lemma operand_bytes_u8 v s : s = 0 \/ s = 1 -> Forall is_u8 (operand_bytes v s).
Proof.
  intros Hs. apply Forall_app_2; [apply to_le_bytes_u8|]. apply Forall_replicate. unfold fits. lia.
Qed.

(** The 128-bit reading of an operand: signed when it is sign-extended. *)
Lemma operand_mod v (sg : bool) : is_u64 v ->
  exists k, v + 2 ^ 64 * (from_bool sg * (v / 2 ^ 63) * (2 ^ 64 - 1)) =
            (if sg then Rv64.signed 64 v else Rv64.unsigned 64 v) + k * 2 ^ 128.
Proof.
  intros Hv. unfold fits, Rv64.signed, Rv64.unsigned in *. rewrite Z.mod_small by lia.
  destruct sg; simpl from_bool; [|exists 0; lia].
  destruct (Z.ltb_spec v (2 ^ (64 - 1))).
  - exists 0. replace (v / 2 ^ 63) with 0 by lia_mod. lia.
  - exists 1. replace (v / 2 ^ 63) with 1 by lia_mod. lia.
Qed.

Lemma readings_product vb vc (s s' : bool) : is_u64 vb -> is_u64 vc ->
  (bytes_value (operand_bytes vb (from_bool s * (vb / 2 ^ 63))) *
   bytes_value (operand_bytes vc (from_bool s' * (vc / 2 ^ 63)))) mod 2 ^ 128 =
  ((if s then Rv64.signed 64 vb else Rv64.unsigned 64 vb) *
   (if s' then Rv64.signed 64 vc else Rv64.unsigned 64 vc)) mod 2 ^ 128.
Proof.
  intros Hb Hc. rewrite !operand_bytes_value by done.
  destruct (operand_mod vb s Hb) as [k ->]. destruct (operand_mod vc s' Hc) as [k' ->].
  now rewrite (Zmult_mod (_ + k * _)), !Z.mod_add, <- Zmult_mod by lia.
Qed.

(** The value of a word's worth of product bytes. *)
Lemma product_word (f : nat -> Z) ps a k : Forall is_u8 ps -> length ps = 16%nat -> (k = 0 \/ k = 8)%nat ->
  Forall2 feq (f <$> seq 0 16) ps ->
  (forall i, (i < 4)%nat -> f (2 * i + k)%nat + f (2 * i + 1 + k)%nat * (1 ≪ 8) ≐ a.[i]) ->
  a ∼ bytes_value (take 8 (drop k ps)).
Proof.
  intros Bp Lp Hk Fp Ha. apply (represents_feq _ (word_of_bytes (f <$> seq k 8))).
  - apply word_feq_intro. intros i. destruct (decide (i < 4)%nat) as [Hi|Hi].
    + rewrite <- Ha by done. destruct Hk as [-> | ->]; do 4 (destruct i as [|i]; [reflexivity|]); lia.
    + unfold limb. rewrite !nth_overflow by (simpl; lia). reflexivity.
  - apply word_of_bytes_repr.
    + now apply Forall_take, Forall_drop.
    + replace (f <$> seq k 8) with (take 8 (drop k (f <$> seq 0 16))) by (destruct Hk as [-> | ->]; reflexivity).
      now apply Forall2_take, Forall2_drop.
    + rewrite length_take, length_drop. destruct Hk as [-> | ->]; lia.
Qed.

Lemma bytes_value_take_drop ps k : Forall is_u8 ps -> length ps = 16%nat -> (k = 0 \/ k = 8)%nat ->
  bytes_value (take 8 (drop k ps)) = bytes_value ps / 2 ^ (8 * Z.of_nat k) mod 2 ^ 64.
Proof.
  intros Bp Lp Hk. rewrite <- (take_drop 8 ps) at 2. rewrite bytes_value_app.
  pose proof (bytes_value_bound (take 8 ps) ltac:(now apply Forall_take)) as B1.
  pose proof (bytes_value_bound (drop 8 ps) ltac:(now apply Forall_drop)) as B2.
  rewrite length_take, ?length_drop, Lp in *. change (8 * Z.of_nat (8 `min` 16)) with 64 in *.
  change (8 * Z.of_nat (16 - 8)) with 64 in *.
  destruct Hk as [-> | ->].
  - rewrite drop_0. change (8 * Z.of_nat 0) with 0. lia_mod.
  - rewrite take_ge by (rewrite length_drop; lia). change (8 * Z.of_nat 8) with 64. lia_mod.
Qed.

Definition flag (op o : Opcode.t) : Z := from_bool (bool_decide (op = o)).
Definition mul_opcodes : list Opcode.t :=
  [Opcode.MUL; Opcode.MULH; Opcode.MULHU; Opcode.MULHSU; Opcode.MULW].
Definition signed_b (op : Opcode.t) : bool := bool_decide (op = Opcode.MULH) || bool_decide (op = Opcode.MULHSU).
Definition signed_c (op : Opcode.t) : bool := bool_decide (op = Opcode.MULH).

Lemma sign_ext_bit v (sg : bool) : is_u64 v -> from_bool sg * (v / 2 ^ 63) = 0 \/ from_bool sg * (v / 2 ^ 63) = 1.
Proof. intros Hv. unfold fits in Hv. destruct sg; simpl from_bool; lia_mod. Qed.

Lemma high_half z : z mod 2 ^ 128 / 2 ^ 64 mod 2 ^ 64 = z / 2 ^ 64 mod 2 ^ 64.
Proof. lia_mod. Qed.
Lemma low_half z : z mod 2 ^ 128 / 2 ^ 0 mod 2 ^ 64 = z mod 2 ^ 64.
Proof. lia_mod. Qed.
Lemma signed_mod w x : 0 < w -> Rv64.signed w x mod 2 ^ w = x mod 2 ^ w.
Proof. intros Hw. rewrite <- sext_signed by done. now apply wrap_sext. Qed.
Lemma signed_product_low b c :
  (Rv64.signed 64 b * Rv64.signed 64 c) mod 2 ^ 64 = (Rv64.unsigned 64 b * Rv64.unsigned 64 c) mod 2 ^ 64.
Proof. rewrite Zmult_mod, !signed_mod by lia. rewrite (Zmult_mod (Rv64.unsigned _ _)). unfold Rv64.unsigned. now rewrite !Zmod_mod. Qed.

(** What the low and high halves of the product of the readings are. *)
Lemma mul_halves op b c X Y : In op mul_opcodes -> op <> Opcode.MULW -> is_u64 b -> is_u64 c ->
  X = (if signed_b op then Rv64.signed 64 b else Rv64.unsigned 64 b) ->
  Y = (if signed_c op then Rv64.signed 64 c else Rv64.unsigned 64 c) ->
  Rv64.alu op b c = Some ((X * Y) mod 2 ^ 128 / 2 ^ (if bool_decide (op = Opcode.MUL) then 0 else 64) mod 2 ^ 64).
Proof.
  intros Hop Hw Hb Hc -> ->. simpl in Hop.
  destruct Hop as [<-|[<-|[<-|[<-|[<-|[]]]]]]; try done; cbn [Rv64.alu]; unfold Rv64.reg; f_equal.
  1: change (signed_b _) with false; change (signed_c _) with false;
     change (bool_decide _) with true; cbn iota; rewrite low_half; apply signed_product_low.
  all: change (bool_decide _) with false; cbn iota; rewrite high_half; reflexivity.
Qed.

Lemma mulw_value b c : is_u64 b -> is_u64 c ->
  Rv64.alu Opcode.MULW b c = Some (u64 (i32 (b * c))).
Proof.
  intros Hb Hc. cbn [Rv64.alu]. f_equal. rewrite word_i32. f_equal.
  rewrite <- (sext_mod32 (_ * _)), <- (sext_mod32 (b * c)). f_equal.
  rewrite Zmult_mod, !signed_mod by lia. now rewrite <- Zmult_mod.
Qed.

(** The sends and assertions of the result, opened. *)
Lemma result_calls_sound a cols lower upper word :
  sat (MulOperation.result_calls a cols lower upper word) ->
  let p k := nth k (MulOperation.product cols) 0 in
  (lower ≐ 1 -> forall i, (i < 4)%nat -> p (2 * i + 0)%nat + p (2 * i + 1 + 0)%nat * (1 ≪ 8) ≐ a.[i]) /\
  (upper ≐ 1 -> forall i, (i < 4)%nat -> p (2 * i + 8)%nat + p (2 * i + 1 + 8)%nat * (1 ≪ 8) ≐ a.[i]) /\
  (word ≐ 1 -> (forall i, (i < 2)%nat -> p (2 * i)%nat + p (2 * i + 1)%nat * (1 ≪ 8) ≐ a.[i]) /\
    U16MSBOperation.msb (MulOperation.product_msb cols) * 65535 ≐ a.[2] /\
    U16MSBOperation.msb (MulOperation.product_msb cols) * 65535 ≐ a.[3]).
Proof.
  intros Hs p. cbn -[nth limb Z.shiftl Z.mul Z.add] in Hs. rewrite !sat_cons in Hs.
  destruct Hs as (W0 & L0 & U0 & W1 & L1 & U1 & W2 & L2 & U2 & W3 & L3 & U3 & _).
  assert (G : forall f x y, f ≐ 1 -> sat_call (Assert (When f (AssertEq x y))) -> x ≐ y).
  { intros f x y Hf Hh. apply holds_when, holds_assert_eq in Hh; [done|]. rewrite Hf. apply one_not_zero. }
  split; [|split]; intros Hf.
  - intros i Hi. do 4 (destruct i as [|i]; [eapply G; [exact Hf|assumption]|]). lia.
  - intros i Hi. do 4 (destruct i as [|i]; [eapply G; [exact Hf|assumption]|]). lia.
  - split; [|split; eapply G; [exact Hf|eassumption|exact Hf|eassumption]].
    intros i Hi. do 2 (destruct i as [|i]; [eapply G; [exact Hf|assumption]|]). lia.
Qed.

Lemma mulw_word_sound a V f ps m r : Forall is_u8 ps -> length ps = 16%nat -> Forall2 feq (f <$> seq 0 16) ps ->
  r ≐ 1 -> bytes_value ps mod 2 ^ 32 = V mod 2 ^ 32 ->
  (forall i, (i < 2)%nat -> f (2 * i)%nat + f (2 * i + 1)%nat * (1 ≪ 8) ≐ a.[i]) ->
  U16MSBOperation.msb m * 65535 ≐ a.[2] -> U16MSBOperation.msb m * 65535 ≐ a.[3] ->
  sat (U16MSBOperation.eval_msb a.[1] m r) -> a ∼ u64 (i32 V).
Proof.
  intros Bp Lp Fp Hr EV Hlow E2 E3 Hs. apply (represents_feq _ (sign_extended (a.[0], a.[1]) m)).
  { apply word_feq_intro. intros i. do 2 (destruct i as [|i]; [reflexivity|]).
    destruct i as [|[|i]]; [now symmetry..|]. unfold limb. rewrite !nth_overflow by (simpl; lia). reflexivity. }
  apply (half_sound a.[1] r); [|done|reflexivity|done]. rewrite <- EV.
  do 16 (destruct ps as [|? ps]; [discriminate|]). destruct ps; [|discriminate].
  cbn [seq fmap list_fmap] in Fp. do 16 (apply Forall2_cons_inv_l in Fp as (? & ? & ? & Fp & E); injection E as <- <-).
  repeat apply Forall_cons_iff in Bp as [? Bp].
  exists [z + 2 ^ 8 * z0; z1 + 2 ^ 8 * z2]. unfold fits in *.
  split; [repeat (constructor; [unfold fits; lia|]); constructor|]. split.
  - repeat (apply List.Forall2_cons); try constructor; cbn [fst snd].
    + rewrite <- (Hlow 0%nat) by lia. rewrite Z.mul_comm. apply feq_add; [done|]. now apply feq_mul.
    + rewrite <- (Hlow 1%nat) by lia. rewrite Z.mul_comm. apply feq_add; [done|]. now apply feq_mul.
  - rewrite !bytes_value_cons. cbn [limbs_value foldr]. lia_mod.
Qed.

(** On a real row the result is the product that the opcode selects. *)
Lemma mul_sound op a b c vb vc cols r m mh mw mhu mhsu :
  In op mul_opcodes -> b ∼ vb -> c ∼ vc -> r ≐ 1 ->
  m ≐ flag op Opcode.MUL -> mh ≐ flag op Opcode.MULH -> mw ≐ flag op Opcode.MULW ->
  mhu ≐ flag op Opcode.MULHU -> mhsu ≐ flag op Opcode.MULHSU ->
  sat (MulOperation.eval a b c cols r m mh mw mhu mhsu) ->
  exists v, Rv64.alu op vb vc = Some v /\ a ∼ v.
Proof.
  intros Hop Hb Hc Hr Em Emh Emw Emhu Emhsu Hs. unfold MulOperation.eval in Hs.
  destruct (U16toU8Operation.eval_u16_to_u8_safe b _ r) as [bcalls bb] eqn:Eb.
  destruct (U16toU8Operation.eval_u16_to_u8_safe c _ r) as [ccalls cc] eqn:Ec.
  rewrite !sat_app, !sat_cons in Hs.
  destruct Hs as (Hbc & Hcc & (Mb & Mc & _) & Hmsb & (Sb & Sc & _) & Hcarry & Hres & _ & _ & H16 & H8).
  destruct (operand_sound b vb (MulOperation.b_lower_byte cols) (MulOperation.b_msb cols) r) as [Fb Eb1];
    [done|done|now rewrite Eb|now rewrite Eb|].
  destruct (operand_sound c vc (MulOperation.c_lower_byte cols) (MulOperation.c_msb cols) r) as [Fc Ec1];
    [done|done|now rewrite Ec|now rewrite Ec|].
  rewrite Eb in Fb. rewrite Ec in Fc. cbn [snd] in Fb, Fc.
  pose proof (proj1 Hb) as Bvb. pose proof (proj1 Hc) as Bvc.
  set (sb := from_bool (signed_b op) * (vb / 2 ^ 63)). set (sc := from_bool (signed_c op) * (vc / 2 ^ 63)).
  assert (Esb : MulOperation.b_sign_extend cols ≐ sb).
  { apply holds_assert_eq in Sb. rewrite Sb, Eb1, Emh, Emhsu. subst sb. apply feq_mul; [|reflexivity].
    unfold flag, signed_b. clear - Hop. simpl in Hop. destruct Hop as [<-|[<-|[<-|[<-|[<-|[]]]]]]; reflexivity. }
  assert (Esc : MulOperation.c_sign_extend cols ≐ sc).
  { apply holds_assert_eq in Sc. now rewrite Sc, Ec1, Emh. }
  destruct (product_sound _ _ (operand_bytes vb sb) (operand_bytes vc sc) cols r Hr
    (extended_feq bb vb _ sb Fb Esb) (extended_feq cc vc _ sc Fc Esc)
    (operand_bytes_u8 vb sb (sign_ext_bit vb _ Bvb)) (operand_bytes_u8 vc sc (sign_ext_bit vc _ Bvc))
    ltac:(unfold operand_bytes; now rewrite to_le_bytes_eq) ltac:(unfold operand_bytes; now rewrite to_le_bytes_eq)
    Hcarry H16 H8) as (ps & Bps & Fps & Lps & Vps).
  subst sb sc. rewrite readings_product in Vps by done.
  set (X := if signed_b op then _ else _) in *. set (Y := if signed_c op then _ else _) in *.
  destruct (result_calls_sound _ _ _ _ _ Hres) as (HL & HU & HW).
  destruct (decide (op = Opcode.MULW)) as [->|Hw].
  - rewrite mulw_value by done. eexists. split; [reflexivity|].
    destruct (HW Emw) as (Hlow & E2 & E3).
    eapply (mulw_word_sound a _ _ ps _ mw); try eassumption; try exact Emw.
    rewrite Vps. subst X Y. change (signed_b _) with false. change (signed_c _) with false. cbn iota.
    unfold Rv64.unsigned. rewrite (Z.mod_small vb), (Z.mod_small vc) by assumption.
    generalize (vb * vc). intros. lia_mod.
  - rewrite (mul_halves op vb vc X Y) by done. eexists. split; [reflexivity|].
    destruct (bool_decide (op = Opcode.MUL)) eqn:Ed.
    + rewrite <- Vps. change 0 with (8 * Z.of_nat 0). rewrite <- bytes_value_take_drop by auto.
      apply (product_word (fun k => nth k (MulOperation.product cols) 0)); auto. apply HL.
      rewrite Em. unfold flag. now rewrite Ed.
    + rewrite <- Vps. change 64 with (8 * Z.of_nat 8) at 1. rewrite <- bytes_value_take_drop by auto.
      apply (product_word (fun k => nth k (MulOperation.product cols) 0)); auto. apply HU.
      rewrite Emh, Emhu, Emhsu. unfold flag. apply bool_decide_eq_false in Ed.
      clear - Hop Hw Ed. simpl in Hop. destruct Hop as [<-|[<-|[<-|[<-|[<-|[]]]]]]; done || reflexivity.
Qed.
End Multiplier.

(** ** The row that [populate] writes *)

Lemma add_at_zero k m : add_at k 0 m = m.
Proof.
  unfold add_at. destruct (_ <? _)%nat; [|done]. revert k. induction m as [|x m IH]; intros [|k]; try done; simpl.
  - f_equal. lia.
  - f_equal. apply IH.
Qed.

Lemma mul_row_app k x c c' m : mul_row k x (c ++ c') m = mul_row (k + length c) x c' (mul_row k x c m).
Proof.
  revert k m. induction c as [|y c IH]; intros k m; simpl; [now rewrite Nat.add_0_r|].
  rewrite IH. f_equal. lia.
Qed.
Lemma mul_rows_app i b b' c m : mul_rows i (b ++ b') c m = mul_rows (i + length b) b' c (mul_rows i b c m).
Proof.
  revert i m. induction b as [|y b IH]; intros i m; simpl; [now rewrite Nat.add_0_r|].
  rewrite IH. f_equal. lia.
Qed.
Lemma mul_row_zeros k x n m : mul_row k x (replicate n 0) m = m.
Proof. revert k m. induction n as [|n IH]; intros k m; [done|]. simpl. now rewrite Z.mul_0_r, add_at_zero, IH. Qed.
Lemma mul_row_zero k c m : mul_row k 0 c m = m.
Proof. revert k m. induction c as [|y c IH]; intros k m; [done|]. simpl. now rewrite add_at_zero, IH. Qed.

(** Zero extension does not change the product. *)
Lemma uncarried_zeros b c n n' : uncarried (b ++ replicate n 0) (c ++ replicate n' 0) = uncarried b c.
Proof.
  assert (R : forall i b m, mul_rows i b (c ++ replicate n' 0) m = mul_rows i b c m).
  { intros i b'. revert i. induction b' as [|y b' IH]; intros i m; [done|]. simpl.
    now rewrite mul_row_app, mul_row_zeros, IH. }
  unfold uncarried. rewrite R, mul_rows_app. generalize (0 + length b)%nat as i.
  generalize (mul_rows 0 b c (replicate LONG_WORD_BYTE_SIZE 0)) as m.
  induction n as [|n IH]; intros m i; [done|]. simpl. now rewrite mul_row_zero, IH.
Qed.

Lemma propagate_spec ms c cs ps : MulOperation.propagate ms c = (cs, ps) ->
  0 <= c <= 65535 -> Forall (fun x => 0 <= x <= 16646400) ms ->
  length cs = length ms /\ length ps = length ms /\ Forall is_u16 cs /\ Forall is_u8 ps /\
  forall i, (i < length ms)%nat ->
    nth i ps 0 + 2 ^ 8 * nth i cs 0 = nth i ms 0 + match i with O => c | S j => nth j cs 0 end.
Proof.
  revert c cs ps. induction ms as [|x ms IH]; intros c cs ps E Hc Hm.
  - injection E as <- <-. repeat split; try constructor. simpl. lia.
  - simpl in E. destruct (MulOperation.propagate ms ((x + c) / 2 ^ 8)) as [cs' ps'] eqn:E'.
    injection E as <- <-. inversion_clear Hm as [|? ? Hx Hm'].
    assert (B : 0 <= (x + c) / 2 ^ 8 <= 65535) by lia_mod.
    destruct (IH _ _ _ E' B Hm') as (L1 & L2 & B1 & B2 & Hi). simpl length.
    split; [lia|]. split; [lia|]. split; [constructor; [unfold fits; lia|done]|].
    split; [constructor; [unfold fits; lia_mod|done]|]. intros [|i] Hl.
    + cbn [nth]. lia_mod.
    + cbn [nth]. rewrite Hi by lia. now destruct i.
Qed.

Lemma populate_safe_events v r : is_u64 v ->
  U16toU8Operation.populate_u16_to_u8_safe r v =
  (U16toU8Operation.populate_u16_to_u8_unsafe v, r ++ add_u8_range_checks [] (to_le_bytes v)).
Proof.
  intros (x0 & x1 & x2 & x3 & ? & ? & ? & ? & ->)%Word_from_u64_split.
  unfold U16toU8Operation.populate_u16_to_u8_safe, U16toU8Operation.populate_u16_to_u8_unsafe. f_equal.
  rewrite limbs_le_bytes by done. change (u64_to_u16_limbs ?x) with (word_limbs (Word_from_u64 x)).
  rewrite Word_from_u64_limbs by done. cbn. unfold add_u8_range_check, add_byte_lookup_event.
  rewrite !byte_of_limb, !high_byte_of_limb by done. now rewrite <- !app_assoc.
Qed.

Lemma get_msb_spec v : is_u64 v -> MulOperation.get_msb (to_le_bytes v) = v / 2 ^ 63.
Proof.
  intros Hv. unfold MulOperation.get_msb. rewrite to_le_bytes_eq. simpl nth.
  rewrite Z.shiftr_div_pow2 by lia. change 1 with (Z.ones 1) at 2. rewrite Z.land_ones by lia.
  unfold fits in Hv. simpl Z.sub. lia_mod.
Qed.

(** The operands as the trace generation extends them. *)
Lemma operand_resize v (sg : bool) : is_u64 v ->
  let extend := sg && (v / 2 ^ 63 =? 1) in
  from_bool extend = from_bool sg * (v / 2 ^ 63) /\
  exists n, (if extend then MulOperation.resize (to_le_bytes v) else to_le_bytes v) ++ replicate n 0 =
            operand_bytes v (from_bool sg * (v / 2 ^ 63)).
Proof.
  intros Hv extend. assert (E : from_bool extend = from_bool sg * (v / 2 ^ 63)).
  { subst extend. destruct sg; [|done]. unfold fits in Hv. cbn [andb]. 
    assert (v / 2 ^ 63 = 0 \/ v / 2 ^ 63 = 1) as [-> | ->] by lia_mod; reflexivity. }
  split; [done|]. rewrite <- E. unfold operand_bytes, MulOperation.resize. rewrite to_le_bytes_eq.
  destruct extend; [exists 0%nat|exists 8%nat]; reflexivity.
Qed.

Section Complete.
Context `{AirBuilder}.

Lemma carry_complete m cols r :
  (forall i, (i < 16)%nat -> nth i (MulOperation.product cols) 0 + 2 ^ 8 * nth i (MulOperation.carry cols) 0 ≐
     nth i m 0 + match i with O => 0 | S j => nth j (MulOperation.carry cols) 0 end) ->
  complete (MulOperation.carry_calls m cols r) [].
Proof.
  intros Hi. unfold MulOperation.carry_calls.
  assert (G : forall l, (forall i, i ∈ l -> (i < 16)%nat) -> complete
    ((fun i => Assert (When r (AssertEq (nth i (MulOperation.product cols) 0)
     (if (i =? 0)%nat then nth i m 0 - nth i (MulOperation.carry cols) 0 * (1 ≪ 8)
      else nth i m 0 + nth (i - 1) (MulOperation.carry cols) 0 - nth i (MulOperation.carry cols) 0 * (1 ≪ 8))))) <$> l) []).
  { induction l as [|i l IH]; intros Hl; [apply complete_nil|]. apply complete_assert; [|apply IH; set_solver].
    apply holds_when. intros _. apply holds_assert_eq. specialize (Hi i ltac:(apply Hl; set_solver)).
    change (1 ≪ 8) with (2 ^ 8). 
    rewrite <- (Z.add_simpl_r (nth i (MulOperation.product cols) 0) (2 ^ 8 * nth i (MulOperation.carry cols) 0)), Hi.
    apply feq_exists. exists 0. destruct i as [|j]; simpl; rewrite ?Nat.sub_0_r; lia. }
  apply G. intros i ?%elem_of_seq. unfold LONG_WORD_BYTE_SIZE in *. lia.
Qed.

Lemma complete_when_zero ks f : f ≐ 0 -> complete (when_all f ks) [].
Proof.
  intros Hf. induction ks as [|k ks IH]; [apply complete_nil|]. apply complete_assert; [|exact IH].
  apply holds_when. intros C. now destruct C.
Qed.

Lemma represents_limbs w w' v i : w ∼ v -> w' ∼ v -> w.[i] ≐ w'.[i].
Proof. intros [_ F] [_ F']. apply word_feq_limb. etransitivity; [exact F|now symmetry]. Qed.

Lemma complete_bools ls : Forall (fun x => x ≐ 0 \/ x ≐ 1) ls -> complete ((fun x => Assert (AssertBool x)) <$> ls) [].
Proof.
  induction 1 as [|x ls Hx _ IH]; [apply complete_nil|]. apply complete_assert; [now apply holds_assert_bool|exact IH].
Qed.
End Complete.

Lemma uncarried_extend vb vc (s s' : bool) : is_u64 vb -> is_u64 vc ->
  uncarried (if s && (vb / 2 ^ 63 =? 1) then MulOperation.resize (to_le_bytes vb) else to_le_bytes vb)
            (if s' && (vc / 2 ^ 63 =? 1) then MulOperation.resize (to_le_bytes vc) else to_le_bytes vc) =
  uncarried (operand_bytes vb (from_bool s * (vb / 2 ^ 63))) (operand_bytes vc (from_bool s' * (vc / 2 ^ 63))).
Proof.
  intros Hb Hc. destruct (operand_resize vb s Hb) as [_ [n <-]]. destruct (operand_resize vc s' Hc) as [_ [n' <-]].
  symmetry. apply uncarried_zeros.
Qed.

(** [populate], with the lookups in the order they are recorded. *)
Lemma populate_eq op vb vc : is_u64 vb -> is_u64 vc ->
  let sb := from_bool (signed_b op) * (vb / 2 ^ 63) in
  let sc := from_bool (signed_c op) * (vc / 2 ^ 63) in
  let l1 := nth 1 (u64_to_u16_limbs (u64 (i32 (i32 vb * i32 vc)))) 0 in
  exists cs ps, MulOperation.propagate (uncarried (operand_bytes vb sb) (operand_bytes vc sc)) 0 = (cs, ps) /\
    Forall is_u16 cs /\ Forall is_u8 ps /\ length cs = 16%nat /\ length ps = 16%nat /\
    MulOperation.populate [] vb vc (bool_decide (op = Opcode.MULH)) (bool_decide (op = Opcode.MULHSU))
      (bool_decide (op = Opcode.MULW)) =
    (MulOperation.mk cs ps (U16toU8Operation.populate_u16_to_u8_unsafe vb) (U16toU8Operation.populate_u16_to_u8_unsafe vc)
       (vb / 2 ^ 63) (vc / 2 ^ 63)
       (U16MSBOperation.mk (if bool_decide (op = Opcode.MULW) then Z.land (l1 ≫ 15) 1 else 0)) sb sc,
     (if bool_decide (op = Opcode.MULW) then [mkByteLookupEvent ByteOpcode.Range (u16 (l1 * 2)) 16 0] else []) ++
     add_u8_range_checks [] (to_le_bytes vb) ++ add_u8_range_checks [] (to_le_bytes vc) ++
     [mkByteLookupEvent ByteOpcode.MSB (vb / 2 ^ 63) (vb / 2 ^ 56 mod 2 ^ 8) 0;
      mkByteLookupEvent ByteOpcode.MSB (vc / 2 ^ 63) (vc / 2 ^ 56 mod 2 ^ 8) 0] ++
     add_u16_range_checks [] cs ++ add_u8_range_checks [] ps).
Proof.
  intros Hb Hc sb sc l1. destruct (MulOperation.propagate (uncarried _ _) 0) as [cs ps] eqn:Ep.
  assert (Bo : Forall (fun x => 0 <= x <= 16646400) (uncarried (operand_bytes vb sb) (operand_bytes vc sc))).
  { eapply Forall_impl; [apply uncarried_bound; apply operand_bytes_u8, sign_ext_bit; done|].
    unfold operand_bytes. rewrite !length_app, !to_le_bytes_eq. simpl. lia. }
  destruct (propagate_spec _ _ _ _ Ep ltac:(lia) Bo) as (L1 & L2 & B1 & B2 & _).
  assert (Lm : length (uncarried (operand_bytes vb sb) (operand_bytes vc sc)) = 16%nat) by apply length_mul_rows.
  rewrite Lm in L1, L2. exists cs, ps. do 5 (split; [done|]).
  assert (E16 : u16 <$> cs = cs).
  { rewrite <- (list_fmap_id cs) at 2. apply list_fmap_ext. intros i x Hx. apply wrap_small.
    exact (list.Forall_lookup_1 _ _ _ _ B1 Hx). }
  assert (E8 : u8 <$> ps = ps).
  { rewrite <- (list_fmap_id ps) at 2. apply list_fmap_ext. intros i x Hx. apply wrap_small.
    exact (list.Forall_lookup_1 _ _ _ _ B2 Hx). }
  unfold MulOperation.populate, U16MSBOperation.populate_msb. cbv zeta. fold l1. rewrite !get_msb_spec by done.
  fold (signed_b op) (signed_c op). rewrite uncarried_extend by done.
  rewrite (proj1 (operand_resize vb _ Hb)), (proj1 (operand_resize vc _ Hc)). fold sb sc. rewrite Ep.
  destruct (bool_decide (op = Opcode.MULW)); cbv beta iota zeta; rewrite !populate_safe_events by done; cbv beta iota;
    rewrite E16, E8, add_u8_range_checks_app, fold_add_u16, (fold_add_u16 cs []); rewrite !to_le_bytes_eq;
    unfold add_byte_lookup_event; cbn [nth app]; rewrite <- ?app_assoc; reflexivity.
Qed.

Section MulComplete.
Context `{AirBuilder}.

Lemma result_complete a cols lower upper word :
  let p k := nth k (MulOperation.product cols) 0 in
  (lower ≭ 0 -> forall i, (i < 4)%nat -> p (2 * i)%nat + p (2 * i + 1)%nat * (1 ≪ 8) ≐ a.[i]) ->
  (upper ≭ 0 -> forall i, (i < 4)%nat -> p (2 * i + 8)%nat + p (2 * i + 1 + 8)%nat * (1 ≪ 8) ≐ a.[i]) ->
  (word ≭ 0 -> (forall i, (i < 2)%nat -> p (2 * i)%nat + p (2 * i + 1)%nat * (1 ≪ 8) ≐ a.[i]) /\
    U16MSBOperation.msb (MulOperation.product_msb cols) * 65535 ≐ a.[2] /\
    U16MSBOperation.msb (MulOperation.product_msb cols) * 65535 ≐ a.[3]) ->
  complete (MulOperation.result_calls a cols lower upper word) [].
Proof.
  intros p HL HU HW. unfold MulOperation.result_calls. cbn -[nth limb Z.shiftl Z.mul Z.add].
  repeat (apply complete_assert; [apply holds_when; intros Hf; apply holds_assert_eq|]); [..|apply complete_nil].
  - exact (proj1 (HW Hf) 0%nat ltac:(lia)).
  - exact (HL Hf 0%nat ltac:(lia)).
  - exact (HU Hf 0%nat ltac:(lia)).
  - exact (proj1 (HW Hf) 1%nat ltac:(lia)).
  - exact (HL Hf 1%nat ltac:(lia)).
  - exact (HU Hf 1%nat ltac:(lia)).
  - exact (proj1 (proj2 (HW Hf))).
  - exact (HL Hf 2%nat ltac:(lia)).
  - exact (HU Hf 2%nat ltac:(lia)).
  - exact (proj2 (proj2 (HW Hf))).
  - exact (HL Hf 3%nat ltac:(lia)).
  - exact (HU Hf 3%nat ltac:(lia)).
Qed.

Lemma product_limbs (ps : list Z) k a v : Forall is_u8 ps -> length ps = 16%nat -> (k = 0 \/ k = 8)%nat ->
  a ∼ v -> bytes_value ps / 2 ^ (8 * Z.of_nat k) mod 2 ^ 64 = v ->
  forall i, (i < 4)%nat -> nth (2 * i + k) ps 0 + nth (2 * i + 1 + k) ps 0 * (1 ≪ 8) ≐ a.[i].
Proof.
  intros Bp Lp Hk Ha E i Hi. rewrite <- bytes_value_take_drop in E by done.
  assert (Hw : word_of_bytes (take 8 (drop k ps)) ∼ v).
  { rewrite <- E. apply word_of_bytes_repr; [now apply Forall_take, Forall_drop|reflexivity|].
    rewrite length_take, length_drop. destruct Hk as [-> | ->]; lia. }
  rewrite <- (represents_limbs _ _ v i Hw Ha).
  do 16 (destruct ps as [|? ps]; [discriminate|]).
  destruct Hk as [-> | ->]; do 4 (destruct i as [|i]; [reflexivity|]); lia.
Qed.

Lemma flag_cases op o : flag op o = 0 \/ flag op o = 1.
Proof. unfold flag. destruct (bool_decide (op = o)); auto. Qed.
Lemma flag_true op o : flag op o ≭ 0 -> op = o.
Proof. unfold flag. case_bool_decide as E; [done|]. intros C. now destruct C. Qed.

Lemma columns_id (l : list Z) n : length l = n -> (fun i => nth i l 0) <$> seq 0 n = l.
Proof.
  intros <-. apply list_eq. intros i. destruct (decide (i < length l)%nat) as [Hi|Hi].
  - rewrite list_lookup_fmap, lookup_seq_lt by done. simpl. rewrite (nth_lookup l i 0).
    destruct (lookup_lt_is_Some_2 l i Hi) as [x ->]. done.
  - rewrite !lookup_ge_None_2; [done|lia|rewrite length_fmap, length_seq; lia].
Qed.

Lemma product_of_propagate op vb vc cs ps : is_u64 vb -> is_u64 vc ->
  let sb := from_bool (signed_b op) * (vb / 2 ^ 63) in
  let sc := from_bool (signed_c op) * (vc / 2 ^ 63) in
  MulOperation.propagate (uncarried (operand_bytes vb sb) (operand_bytes vc sc)) 0 = (cs, ps) ->
  (forall i, (i < 16)%nat -> nth i ps 0 + 2 ^ 8 * nth i cs 0 =
     nth i (uncarried (operand_bytes vb sb) (operand_bytes vc sc)) 0 + match i with O => 0 | S j => nth j cs 0 end) /\
  bytes_value ps = ((if signed_b op then Rv64.signed 64 vb else Rv64.unsigned 64 vb) *
                    (if signed_c op then Rv64.signed 64 vc else Rv64.unsigned 64 vc)) mod 2 ^ 128.
Proof.
  intros Hb Hc sb sc Ep.
  assert (Bo : Forall (fun x => 0 <= x <= 16646400) (uncarried (operand_bytes vb sb) (operand_bytes vc sc))).
  { eapply Forall_impl; [apply uncarried_bound; apply operand_bytes_u8, sign_ext_bit; done|].
    unfold operand_bytes. rewrite !length_app, !to_le_bytes_eq. simpl. lia. }
  assert (Lm : length (uncarried (operand_bytes vb sb) (operand_bytes vc sc)) = 16%nat) by apply length_mul_rows.
  destruct (propagate_spec _ _ _ _ Ep ltac:(lia) Bo) as (L1 & L2 & B1 & B2 & Hi). rewrite Lm in *.
  split; [done|]. rewrite (chain_product ps cs _ _ B2 L2 L1 Hi). now apply readings_product.
Qed.

(** The lookups of an operand and of its sign bit. *)
Lemma operand_complete w v : w ∼ v ->
  complete (U16toU8Operation.eval_u16_to_u8_safe w (U16toU8Operation.populate_u16_to_u8_unsafe v) 1).1
    (add_u8_range_checks [] (to_le_bytes v)) /\
  Forall2 feq (U16toU8Operation.eval_u16_to_u8_safe w (U16toU8Operation.populate_u16_to_u8_unsafe v) 1).2 (to_le_bytes v) /\
  event_ok (mkByteLookupEvent ByteOpcode.MSB (v / 2 ^ 63) (v / 2 ^ 56 mod 2 ^ 8) 0).
Proof.
  intros Hw. pose proof (u16_to_u8_complete w v Hw) as F. cbn [fst snd U16toU8Operation.eval_u16_to_u8_safe]. split; [|split].
  - apply complete_slice_u8; [apply to_le_bytes_u8|done|reflexivity|]. rewrite (Forall2_length _ _ _ F), to_le_bytes_eq.
    now exists 4%nat.
  - done.
  - destruct Hw as [Hv _]. unfold event_ok, fits in *. simpl. lia_mod.
Qed.

Lemma mulw_columns ps a v : Forall is_u8 ps -> length ps = 16%nat -> a ∼ v -> v = u64 (i32 v) ->
  bytes_value ps mod 2 ^ 32 = v mod 2 ^ 32 ->
  (forall i, (i < 2)%nat -> nth (2 * i) ps 0 + nth (2 * i + 1) ps 0 * (1 ≪ 8) ≐ a.[i]) /\
  nth 1 (u64_to_u16_limbs v) 0 / 2 ^ 15 * 65535 ≐ a.[2] /\ nth 1 (u64_to_u16_limbs v) 0 / 2 ^ 15 * 65535 ≐ a.[3].
Proof.
  intros Bp Lp Ha Hv E. pose proof (represents_from_u64 v (proj1 Ha)) as Hf.
  unfold u64_to_u16_limbs. simpl nth. rewrite limb_of_u64 by lia.
  split; [|split].
  - do 16 (destruct ps as [|? ps]; [discriminate|]). destruct ps; [|discriminate].
    repeat apply Forall_cons_iff in Bp as [? Bp]. rewrite !bytes_value_cons in E. unfold fits in *.
    intros [|[|i]] Hi; [..|lia]; rewrite (represents_limbs _ _ v _ Ha Hf); unfold Word_from_u64, limb; simpl nth;
      rewrite ?low_limb, ?limb_of_u64 by lia; apply feq_exists; exists 0; change (1 ≪ 8) with (2 ^ 8); lia_mod.
  - rewrite (represents_limbs _ _ v _ Ha Hf). unfold Word_from_u64, limb. simpl nth. rewrite limb_of_u64 by lia.
    apply feq_exists. exists 0. destruct Ha as [Bv _]. rewrite Hv. solve_ints.
  - rewrite (represents_limbs _ _ v _ Ha Hf). unfold Word_from_u64, limb. simpl nth. rewrite limb_of_u64 by lia.
    apply feq_exists. exists 0. destruct Ha as [Bv _]. rewrite Hv. solve_ints.
Qed.

(** The selected half of the product is in the columns. *)
Lemma result_columns op a vb vc v cols : In op mul_opcodes -> is_u64 vb -> is_u64 vc ->
  Rv64.alu op vb vc = Some v -> a ∼ v ->
  Forall is_u8 (MulOperation.product cols) -> length (MulOperation.product cols) = 16%nat ->
  bytes_value (MulOperation.product cols) =
    ((if signed_b op then Rv64.signed 64 vb else Rv64.unsigned 64 vb) *
     (if signed_c op then Rv64.signed 64 vc else Rv64.unsigned 64 vc)) mod 2 ^ 128 ->
  U16MSBOperation.msb (MulOperation.product_msb cols) =
    (if bool_decide (op = Opcode.MULW) then nth 1 (u64_to_u16_limbs v) 0 / 2 ^ 15 else 0) ->
  complete (MulOperation.result_calls a cols (flag op Opcode.MUL)
    (flag op Opcode.MULH + flag op Opcode.MULHU + flag op Opcode.MULHSU) (flag op Opcode.MULW)) [].
Proof.
  intros Hop Hb Hc Ev Ha Bp Lp Vp Em. apply result_complete.
  - intros ->%flag_true i Hi. rewrite (mul_halves Opcode.MUL vb vc _ _ Hop ltac:(done) Hb Hc eq_refl eq_refl) in Ev.
    injection Ev as Ev. pose proof (product_limbs _ 0 a v Bp Lp (or_introl eq_refl) Ha ltac:(now rewrite Vp) i Hi) as E.
    now rewrite !Nat.add_0_r in E.
  - intros Hf i Hi. assert (Hn : op <> Opcode.MULW /\ op <> Opcode.MUL).
    { split; intros ->; now destruct Hf. }
    destruct Hn as [Hw Hm]. rewrite (mul_halves op vb vc _ _ Hop Hw Hb Hc eq_refl eq_refl) in Ev.
    rewrite bool_decide_false in Ev by done. injection Ev as Ev. apply (product_limbs _ 8 a v); auto. now rewrite Vp.
  - intros ->%flag_true. rewrite mulw_value in Ev by done. injection Ev as Ev.
    rewrite Em, bool_decide_true by done. apply mulw_columns; try done.
    { subst v. generalize (vb * vc). intros. solve_ints. }
    rewrite Vp. subst v. change (signed_b _) with false. change (signed_c _) with false. cbn iota. unfold Rv64.unsigned.
    rewrite (Z.mod_small vb), (Z.mod_small vc) by assumption. generalize (vb * vc). intros. solve_ints.
Qed.

Lemma mulw_word vb vc v : Rv64.alu Opcode.MULW vb vc = Some v -> u64 (i32 (i32 vb * i32 vc)) = v.
Proof. cbn [Rv64.alu]. intros [= <-]. now rewrite word_i32, <- !sext_signed by lia. Qed.

(** The sign bit of the word product, looked up by [MULW] only. *)
Lemma product_msb_complete op a vb vc v : In op mul_opcodes -> is_u64 vb -> is_u64 vc ->
  Rv64.alu op vb vc = Some v -> a ∼ v ->
  let l1 := nth 1 (u64_to_u16_limbs (u64 (i32 (i32 vb * i32 vc)))) 0 in
  let m := U16MSBOperation.mk (if bool_decide (op = Opcode.MULW) then Z.land (l1 ≫ 15) 1 else 0) in
  complete (U16MSBOperation.eval_msb a.[1] m (flag op Opcode.MULW))
    (if bool_decide (op = Opcode.MULW) then [mkByteLookupEvent ByteOpcode.Range (u16 (l1 * 2)) 16 0] else []).
Proof.
  intros Hop Hb Hc Ev Ha l1 m. subst m. unfold flag. case_bool_decide as E; [|apply msb_inactive].
  subst op l1. rewrite (mulw_word vb vc v) by done. set (l1 := nth 1 _ 0).
  apply (msb_complete a.[1] l1 1); [|apply u16_fits|reflexivity].
  apply (represents_limbs a (Word_from_u64 v) v 1 Ha). now apply represents_from_u64, Ha.
Qed.

Lemma feq_bit x : x = 0 \/ x = 1 -> x ≐ 0 \/ x ≐ 1.
Proof. intros [-> | ->]; [left|right]; reflexivity. Qed.

Lemma sign_ext_msb v (s : bool) : is_u64 v -> from_bool s * (v / 2 ^ 63) ≭ 0 -> v / 2 ^ 63 ≐ 1.
Proof.
  intros Hv Hf. destruct (sign_ext_bit v true Hv) as [E|E]; cbn [from_bool] in E; rewrite Z.mul_1_l in E; rewrite E in *.
  - rewrite Z.mul_0_r in Hf. now destruct Hf.
  - reflexivity.
Qed.

Lemma mul_bools op vb vc : In op mul_opcodes -> is_u64 vb -> is_u64 vc ->
  Forall (fun x => x ≐ 0 \/ x ≐ 1)
    [vb / 2 ^ 63; vc / 2 ^ 63; from_bool (signed_b op) * (vb / 2 ^ 63); from_bool (signed_c op) * (vc / 2 ^ 63);
     flag op Opcode.MUL; flag op Opcode.MULH; flag op Opcode.MULHU; flag op Opcode.MULHSU; flag op Opcode.MULW;
     flag op Opcode.MUL + flag op Opcode.MULH + flag op Opcode.MULHU + flag op Opcode.MULHSU + flag op Opcode.MULW; 1].
Proof.
  intros Hop Hb Hc.
  pose proof (sign_ext_bit vb true Hb) as E1. pose proof (sign_ext_bit vc true Hc) as E2. cbn [from_bool] in E1, E2.
  rewrite Z.mul_1_l in E1, E2.
  repeat (apply List.Forall_cons; [apply feq_bit; try apply flag_cases; try now apply sign_ext_bit|]); try done; try (now right); try apply List.Forall_nil.
  right. simpl in Hop. destruct Hop as [<-|[<-|[<-|[<-|[<-|[]]]]]]; reflexivity.
Qed.

Lemma mul_complete op a b c vb vc v : In op mul_opcodes -> b ∼ vb -> c ∼ vc -> Rv64.alu op vb vc = Some v -> a ∼ v ->
  let '(cols, events) := MulOperation.populate [] vb vc (bool_decide (op = Opcode.MULH))
    (bool_decide (op = Opcode.MULHSU)) (bool_decide (op = Opcode.MULW)) in
  complete (MulOperation.eval a b c cols 1 (flag op Opcode.MUL) (flag op Opcode.MULH) (flag op Opcode.MULW)
    (flag op Opcode.MULHU) (flag op Opcode.MULHSU)) events.
Proof.
  intros Hop Hb Hc Ev Ha. pose proof (proj1 Hb) as Bb. pose proof (proj1 Hc) as Bc.
  destruct (populate_eq op vb vc Bb Bc) as (cs & ps & Ep & Bcs & Bps & Lcs & Lps & ->).
  destruct (product_of_propagate op vb vc cs ps Bb Bc Ep) as [Hi Vp].
  destruct (operand_complete b vb Hb) as (Cb & Nb & Eb). destruct (operand_complete c vc Hc) as (Cc & Nc & Ec).
  set (sb := from_bool (signed_b op) * (vb / 2 ^ 63)) in *. set (sc := from_bool (signed_c op) * (vc / 2 ^ 63)) in *.
  unfold MulOperation.eval. cbn [MulOperation.b_lower_byte MulOperation.c_lower_byte].
  destruct (U16toU8Operation.eval_u16_to_u8_safe b _ 1) as [bcalls bb]. destruct (U16toU8Operation.eval_u16_to_u8_safe c _ 1) as [ccalls cc].
  cbn [fst snd] in *. match goal with |- complete _ (?em ++ ?x ++ ?y ++ ?m ++ ?r) =>
    apply (complete_perm _ (x ++ y ++ m ++ em ++ r)) end.
  { symmetry. etransitivity; [apply Permutation_app_swap_app|]. apply Permutation_app_head.
    etransitivity; [apply Permutation_app_swap_app|]. apply Permutation_app_head. apply Permutation_app_swap_app. }
  apply complete_app; [done|]. apply complete_app; [done|]. apply (complete_app _ _ [_; _]).
  { pose proof (nth_feq _ _ 7 Nb) as N7. pose proof (nth_feq _ _ 7 Nc) as N7'. rewrite to_le_bytes_eq in N7, N7'.
    repeat (apply complete_send; [assumption|reflexivity|reflexivity|reflexivity|assumption|reflexivity|]). apply complete_nil. }
  apply complete_app; [now apply (product_msb_complete op a vb vc v)|].
  apply (complete_app _ _ []); [|apply (complete_app _ _ []); [|apply (complete_app _ _ []); [|apply (complete_app _ _ []);
    [|apply (complete_app _ _ []); [|apply complete_app]]]]].
  - repeat apply complete_assert; try apply complete_nil; apply holds_assert_eq; cbn [MulOperation.b_sign_extend
      MulOperation.c_sign_extend MulOperation.b_msb MulOperation.c_msb]; subst sb sc; [|reflexivity].
    apply feq_mul; [|reflexivity]. simpl in Hop. clear - Hop. destruct Hop as [<-|[<-|[<-|[<-|[<-|[]]]]]]; reflexivity.
  - apply carry_complete. cbn [MulOperation.product MulOperation.carry MulOperation.b_sign_extend MulOperation.c_sign_extend].
    intros i Hl. rewrite (Hi i Hl). apply feq_add; [|reflexivity]. symmetry. apply nth_feq, uncarried_feq;
      apply extended_feq; done || reflexivity.
  - apply (result_columns op a vb vc v); try done. cbn [MulOperation.product_msb U16MSBOperation.msb].
    case_bool_decide; [|done]. subst op. rewrite (mulw_word vb vc v) by done. apply msb_bit, u16_fits.
  - apply complete_bools. now apply mul_bools.
  - repeat apply complete_assert; try apply complete_nil; apply holds_when; intros Hf; apply holds_assert_eq.
    + now apply (sign_ext_msb vb (signed_b op)).
    + now apply (sign_ext_msb vc (signed_c op)).
  - apply complete_slice_u16; [done| |reflexivity]. cbn [MulOperation.carry]. rewrite columns_id by done. reflexivity.
  - cbn [MulOperation.product]. apply complete_slice_u8; [done| |reflexivity|].
    + rewrite columns_id by done. reflexivity.
    + rewrite length_fmap, length_seq. now exists 8%nat.
Qed.
End MulComplete.

Section MulCorrect.
Context `{AirBuilder}.

(** C25. [MulOperation] is correct for [MUL], [MULH], [MULHU], [MULHSU] and
    [MULW]: when its constraints hold on a real row whose selector is that of
    [op], the result word is the one the RISC-V manual gives ([Rv64.alu]); and
    the row [populate] writes for a correct result satisfies the constraints,
    the sends being exactly the recorded byte lookups. *)
Theorem mul_operation_correct op b c vb vc : In op mul_opcodes -> b ∼ vb -> c ∼ vc ->
  (forall a cols r m mh mw mhu mhsu, r ≐ 1 ->
     m ≐ flag op Opcode.MUL -> mh ≐ flag op Opcode.MULH -> mw ≐ flag op Opcode.MULW ->
     mhu ≐ flag op Opcode.MULHU -> mhsu ≐ flag op Opcode.MULHSU ->
     sat (MulOperation.eval a b c cols r m mh mw mhu mhsu) ->
     exists v, Rv64.alu op vb vc = Some v /\ a ∼ v) /\
  (forall a v, Rv64.alu op vb vc = Some v -> a ∼ v ->
     let '(cols, events) := MulOperation.populate [] vb vc (bool_decide (op = Opcode.MULH))
       (bool_decide (op = Opcode.MULHSU)) (bool_decide (op = Opcode.MULW)) in
     complete (MulOperation.eval a b c cols 1 (flag op Opcode.MUL) (flag op Opcode.MULH)
       (flag op Opcode.MULW) (flag op Opcode.MULHU) (flag op Opcode.MULHSU)) events).
Proof.
  intros Hop Hb Hc. split; [intros; now apply (mul_sound op a b c vb vc cols r m mh mw mhu mhsu)|].
  intros a v. now apply mul_complete.
Qed.
End MulCorrect.

Lemma mul_operation_correct_witness :
  let '(cols, events) := MulOperation.populate [] (2 ^ 64 - 3) 5 false true false in
  complete (MulOperation.eval (Word_from_u64 (2 ^ 64 - 1)) (Word_from_u64 (2 ^ 64 - 3)) (Word_from_u64 5) cols 1 0 0 0 0 1) events.
Proof.
  refine (proj2 (mul_operation_correct Opcode.MULHSU (Word_from_u64 (2 ^ 64 - 3)) (Word_from_u64 5) (2 ^ 64 - 3) 5 _ _ _)
    (Word_from_u64 (2 ^ 64 - 1)) (2 ^ 64 - 1) _ _).
  - simpl. auto.
  - apply represents_from_u64. unfold fits. lia.
  - apply represents_from_u64. unfold fits. lia.
  - reflexivity.
  - apply represents_from_u64. unfold fits. lia.
Defined.
