(* ===== verification/U32Ops.v ===== *)
(** * U32Ops: operations on 32-bit halves

    [operations/{u32_operation,and_u32,xor_u32,not_u32,fixed_rotate_right,
    fixed_shift_right,syscall_addr}.rs] of [core/machine]: the operations of
    the SHA-256 chips on numbers of two 16-bit limbs, and the address of a
    system call.  Each is sound and complete. *)
From Stdlib Require Import ZArith Lia Bool.
From stdpp Require Import base numbers option list.
From S2P Require Import Prelude Air KoalaBear ByteTable WordAir AddOps LtOps BitOps Precompiles.
Import ByteOpcode (as_field).

Definition half_at (h : half) (i : Z) : Z := nth (Z.to_nat i) (half_limbs h) 0.
(** [u32::to_le_bytes]. *)
Definition u32_to_le_bytes (x : Z) : list Z := (fun i => u8 (x ≫ (8 * i))) <$> seqZ 0 4.

Module U32toU8Operation.
Record t := mk { low_bytes : half }.

Definition populate_u32_to_u8_unsafe (a_u32 : Z) : t :=
  let a_limbs := u32_to_u16_limbs a_u32 in
  mk (u8 (Z.land (nth 0 a_limbs 0) 0xFF), u8 (Z.land (nth 1 a_limbs 0) 0xFF)).

Definition eval_u32_to_u8_unsafe `{PrimeField} (u32_values : half) (cols : t) : list Z :=
  let divisor := finv (1 ≪ 8) in
  i ← [0; 1];
  let low := half_at (low_bytes cols) i in [low; (half_at u32_values i - low) * divisor].
End U32toU8Operation.

(** The operations that look up four bytes in the byte table: [opcode] is AND
    for [AndU32Operation] and XOR for [XorU32Operation]. *)
Module ByteU32Operation.
Record t := mk {
  b_low_bytes : U32toU8Operation.t;
  c_low_bytes : U32toU8Operation.t;
  value : list Z }.

Definition populate (opcode : ByteOpcode.t) (op : Z -> Z -> Z) (record : list ByteLookupEvent) (b_u32 c_u32 : Z) :
  t * list ByteLookupEvent * Z :=
  let expected := op b_u32 c_u32 in
  let b_bytes := u32_to_le_bytes b_u32 in
  let c_bytes := u32_to_le_bytes c_u32 in
  (mk (U32toU8Operation.populate_u32_to_u8_unsafe b_u32) (U32toU8Operation.populate_u32_to_u8_unsafe c_u32)
      (zip_with op b_bytes c_bytes),
   fold_left (fun record '(b, c) => add_byte_lookup_event record (mkByteLookupEvent opcode (op b c) b c))
     (zip b_bytes c_bytes) record,
   expected).

(** The calls, and the two limbs of the result. *)
Definition eval `{PrimeField} (opcode : ByteOpcode.t) (b c : half) (cols : t) (is_real : Z) : list call * half :=
  let b_bytes := U32toU8Operation.eval_u32_to_u8_unsafe b (b_low_bytes cols) in
  let c_bytes := U32toU8Operation.eval_u32_to_u8_unsafe c (c_low_bytes cols) in
  let v i := nth i (value cols) 0 in
  (Assert (AssertBool is_real) ::
   ((fun i => send_byte (as_field opcode) (v i) (nth i b_bytes 0) (nth i c_bytes 0) is_real) <$> seq 0 4),
   (v 0%nat + v 1%nat * (1 ≪ 8), v 2%nat + v 3%nat * (1 ≪ 8))).
End ByteU32Operation.

Module AndU32Operation.
Definition populate_and_u32 := ByteU32Operation.populate ByteOpcode.AND Z.land.
Definition eval_and_u32 `{PrimeField} := ByteU32Operation.eval ByteOpcode.AND.
End AndU32Operation.

Module XorU32Operation.
Definition populate_xor_u32 := ByteU32Operation.populate ByteOpcode.XOR Z.lxor.
Definition eval_xor_u32 `{PrimeField} := ByteU32Operation.eval ByteOpcode.XOR.
End XorU32Operation.

Module NotU32Operation.
Record t := mk { value : half }.

Definition populate (x : Z) : t * Z :=
  let x_limbs := u32_to_u16_limbs x in
  (mk (Z.lxor (nth 0 x_limbs 0) 0xFFFF, Z.lxor (nth 1 x_limbs 0) 0xFFFF), Sha256.not32 x).

Definition eval (a : half) (cols : t) (is_real : Z) : list call :=
  (fun i => Assert (When is_real (AssertEq (half_at (value cols) i + half_at a i) 0xFFFF))) <$> [0; 1].
End NotU32Operation.

(** The lower [nb] bits of a limb and the others, in the trace and in the
    constraints. *)
Definition record_limb_parts (nb : Z) (record : list ByteLookupEvent) (limb : Z) : list ByteLookupEvent :=
  add_bit_range_check (add_bit_range_check record (u16 (Z.land limb ((1 ≪ nb) - 1))) nb) (u16 (limb ≫ nb)) (16 - nb).
Definition lower_part (nb limb higher : Z) : Z := limb - higher * (1 ≪ nb).
Definition limb_parts (nb limb higher is_real : Z) : list call :=
  [send_byte (as_field ByteOpcode.Range) (lower_part nb limb higher) nb 0 is_real;
   send_byte (as_field ByteOpcode.Range) higher (16 - nb) 0 is_real].

Module FixedRotateRightOperation.
Record t := mk { value : half; higher_limb : half }.

Definition nb_limbs_to_rotate (rotation : Z) : Z := rotation / 16.
Definition nb_bits_to_rotate (rotation : Z) : Z := rotation mod 16.
Definition carry_multiplier (rotation : Z) : Z := 1 ≪ (16 - nb_bits_to_rotate rotation).
Definition limbs_rotated (rotation : Z) (input : half) : half :=
  (half_at input (nb_limbs_to_rotate rotation mod 2), half_at input ((1 + nb_limbs_to_rotate rotation) mod 2)).

Definition populate (record : list ByteLookupEvent) (input rotation : Z) : t * list ByteLookupEvent * Z :=
  let input_limbs := u32_to_half_word input in
  let expected := Sha256.rotate_right input rotation in
  let nb := nb_bits_to_rotate rotation in
  let '(x0, x1) := limbs_rotated rotation input_limbs in
  (mk (u16 (Z.land expected 0xFFFF), u16 (expected ≫ 16)) (u16 (x0 ≫ nb), u16 (x1 ≫ nb)),
   record_limb_parts nb (record_limb_parts nb record x1) x0, expected).

Definition eval (input : half) (rotation : Z) (cols : t) (is_real : Z) : list call :=
  let nb := nb_bits_to_rotate rotation in
  let '(x0, x1) := limbs_rotated rotation input in
  let '(h0, h1) := higher_limb cols in
  Assert (AssertBool is_real) ::
  limb_parts nb x0 h0 is_real ++ limb_parts nb x1 h1 is_real ++
  [Assert (When is_real (AssertEq (value cols).2 (h1 + lower_part nb x0 h0 * carry_multiplier rotation)));
   Assert (When is_real (AssertEq (value cols).1 (h0 + lower_part nb x1 h1 * carry_multiplier rotation)))].
End FixedRotateRightOperation.

Module FixedShiftRightOperation.
Record t := mk { value : half; higher_limb : half }.

Definition nb_limbs_to_shift (rotation : Z) : Z := rotation / 16.
Definition nb_bits_to_shift (rotation : Z) : Z := rotation mod 16.
Definition carry_multiplier (rotation : Z) : Z := 1 ≪ (16 - nb_bits_to_shift rotation).
Definition limbs_shifted (rotation : Z) (input : half) : half :=
  let at_ i := if i + nb_limbs_to_shift rotation <? 2 then half_at input (i + nb_limbs_to_shift rotation) else 0 in
  (at_ 0, at_ 1).

Definition populate (record : list ByteLookupEvent) (input rotation : Z) : t * list ByteLookupEvent * Z :=
  let input_limbs := u32_to_half_word input in
  let expected := input ≫ rotation in
  let nb := nb_bits_to_shift rotation in
  let '(x0, x1) := limbs_shifted rotation input_limbs in
  (mk (u32_to_half_word expected) (u16 (x0 ≫ nb), u16 (x1 ≫ nb)),
   record_limb_parts nb (record_limb_parts nb record x1) x0, expected).

Definition eval (input : half) (rotation : Z) (cols : t) (is_real : Z) : list call :=
  let nb := nb_bits_to_shift rotation in
  let '(x0, x1) := limbs_shifted rotation input in
  let '(h0, h1) := higher_limb cols in
  Assert (AssertBool is_real) ::
  limb_parts nb x0 h0 is_real ++ limb_parts nb x1 h1 is_real ++
  [Assert (When is_real (AssertEq (value cols).2 h1));
   Assert (When is_real (AssertEq (value cols).1 (h0 + lower_part nb x1 h1 * carry_multiplier rotation)))].
End FixedShiftRightOperation.

Module SyscallAddrOperation.
Record t := mk { addr : Z * Z * Z; top_two_limb_min : Z; top_two_limb_max : IsZeroOperation.t }.

(** [None] is the panic of [inverse] on zero. *)
Definition populate `{PrimeField} (record : list ByteLookupEvent) (addr len : Z) : option (t * list ByteLookupEvent) :=
  let addr_limbs := u64_to_u16_limbs addr in
  let a i := nth i addr_limbs 0 in
  let sum_top_two_limb := a 1%nat + a 2%nat in
  let '(top_two_limb_max, is_max) := IsZeroOperation.populate_from_field_element (sum_top_two_limb - 0xFFFF * 2) in
  if decide (sum_top_two_limb ≐ 0) then None else
  Some (mk (a 0%nat, a 1%nat, a 2%nat) (finv sum_top_two_limb) top_two_limb_max,
        add_bit_range_check record ((if is_max =? 1 then u16 (a 0%nat + u16 len) else a 0%nat) / 8) 13).

Definition eval `{PrimeField} (len : Z) (cols : t) (is_real : Z) : list call :=
  let '(a0, a1, a2) := addr cols in
  let sum_top_two_limb := a1 + a2 in
  [Assert (AssertBool is_real); Assert (AssertEq (top_two_limb_min cols * sum_top_two_limb) is_real)] ++
  IsZeroOperation.eval_is_zero (sum_top_two_limb - 0xFFFF * 2) (top_two_limb_max cols) is_real ++
  [send_byte (as_field ByteOpcode.Range) ((a0 + IsZeroOperation.result (top_two_limb_max cols) * len) * finv 8) 13 0
     is_real].
End SyscallAddrOperation.

(** ** Halves *)
Section Halves.
Context `{PrimeField}.

Lemma half_intro h l0 l1 : is_u16 l0 -> is_u16 l1 -> h.1 ≐ l0 -> h.2 ≐ l1 -> half_repr h (l0 + 2 ^ 16 * l1).
Proof.
  intros B0 B1 E0 E1. split; [unfold fits in *; lia|]. unfold u32_to_u16_limbs. rewrite low_limb, limb_of_u64 by lia.
  unfold half_limbs. repeat constructor.
  - rewrite E0. replace ((l0 + 2 ^ 16 * l1) mod 2 ^ 16) with l0; [done|]. unfold fits in *. lia_mod.
  - rewrite E1. replace ((l0 + 2 ^ 16 * l1) / 2 ^ 16 mod 2 ^ 16) with l1; [done|]. unfold fits in *. lia_mod.
Qed.

Lemma half_elim h v : half_repr h v -> exists l0 l1,
  v = l0 + 2 ^ 16 * l1 /\ is_u16 l0 /\ is_u16 l1 /\ h.1 ≐ l0 /\ h.2 ≐ l1.
Proof.
  intros [Hv Hf]. destruct (u32_limbs_split v Hv) as (l0 & l1 & E & B0 & B1 & ->). exists l0, l1.
  rewrite E in Hf. destruct h as [h0 h1]. unfold half_limbs in Hf. cbn in *. decompose_Forall_hyps. auto.
Qed.

Lemma half_of_u32 v : is_u32 v -> half_repr (u32_to_half_word v) v.
Proof. intros Hv. split; [done|]. repeat constructor. Qed.
End Halves.

(** ** Bytes of a half *)
Lemma u32_bytes_eq x : u32_to_le_bytes x = [x mod 2 ^ 8; x / 2 ^ 8 mod 2 ^ 8; x / 2 ^ 16 mod 2 ^ 8; x / 2 ^ 24 mod 2 ^ 8].
Proof.
  unfold u32_to_le_bytes. change (seqZ 0 4) with [0; 1; 2; 3]. simpl.
  rewrite !Z.shiftr_div_pow2 by lia. now rewrite Z.div_1_r.
Qed.
Lemma u32_bytes_u8 x : Forall is_u8 (u32_to_le_bytes x).
Proof. apply list.Forall_fmap, list.Forall_forall. intros. unfold compose. auto with ints. Qed.
Lemma u32_bytes_value x : is_u32 x -> bytes_value (u32_to_le_bytes x) = x.
Proof. intros Hx. rewrite u32_bytes_eq. unfold fits in Hx. simpl. lia_mod. Qed.
Lemma half_bytes x0 x1 : is_u16 x0 -> is_u16 x1 ->
  u32_to_le_bytes (x0 + 2 ^ 16 * x1) = [x0 mod 2 ^ 8; x0 / 2 ^ 8; x1 mod 2 ^ 8; x1 / 2 ^ 8].
Proof.
  intros. rewrite u32_bytes_eq. unfold fits in *. repeat (apply (f_equal2 cons); [lia_mod|]). reflexivity.
Qed.

Section ByteOps.
Context `{AirBuilder}.

Lemma u32_to_u8_sound h v cols bs : half_repr h v -> Forall is_u8 bs ->
  Forall2 feq (U32toU8Operation.eval_u32_to_u8_unsafe h cols) bs -> bs = u32_to_le_bytes v.
Proof.
  intros (x0 & x1 & -> & B0 & B1 & E0 & E1)%half_elim Hb Hf. rewrite half_bytes by assumption.
  destruct h as [h0 h1], cols as [[c0 c1]]. unfold U32toU8Operation.eval_u32_to_u8_unsafe in Hf. cbn in *.
  do 4 (apply Forall2_cons_inv_l in Hf as (? & ? & ? & Hf & ->)).
  apply Forall2_nil_inv_l in Hf as ->. decompose_Forall_hyps.
  destruct (byte_split h0 x0 c0 _ _ E0 B0 ltac:(eassumption) ltac:(eassumption)) as [-> ->]; [assumption..|].
  destruct (byte_split h1 x1 c1 _ _ E1 B1 ltac:(eassumption) ltac:(eassumption)) as [-> ->]; [assumption..|]. reflexivity.
Qed.

Lemma u32_to_u8_complete h v : half_repr h v ->
  Forall2 feq (U32toU8Operation.eval_u32_to_u8_unsafe h (U32toU8Operation.populate_u32_to_u8_unsafe v)) (u32_to_le_bytes v).
Proof.
  intros Hh. pose proof Hh as [Hv _]. apply half_elim in Hh as (x0 & x1 & -> & B0 & B1 & E0 & E1).
  rewrite half_bytes by assumption. destruct h as [h0 h1]. cbn in E0, E1.
  unfold U32toU8Operation.populate_u32_to_u8_unsafe, u32_to_u16_limbs. rewrite low_limb, limb_of_u64 by lia.
  replace ((x0 + 2 ^ 16 * x1) mod 2 ^ 16) with x0 by (unfold fits in *; lia_mod).
  replace ((x0 + 2 ^ 16 * x1) / 2 ^ 16 mod 2 ^ 16) with x1 by (unfold fits in *; lia_mod).
  cbn. fold (U16toU8Operation.low_byte x0) (U16toU8Operation.low_byte x1). rewrite !byte_of_limb.
  repeat (apply List.Forall2_cons; [first [reflexivity|now apply byte_join]|]). constructor.
Qed.

(** The limbs of four bytes. *)
Lemma half_of_bytes rs bs : Forall is_u8 bs -> Forall2 feq rs bs -> length bs = 4%nat ->
  half_repr (nth 0 rs 0 + nth 1 rs 0 * (1 ≪ 8), nth 2 rs 0 + nth 3 rs 0 * (1 ≪ 8)) (bytes_value bs).
Proof.
  intros Hb Hf Hl. destruct bs as [|y0 [|y1 [|y2 [|y3 [|]]]]]; try discriminate.
  do 4 (apply Forall2_cons_inv_r in Hf as (? & ? & ? & Hf & ->)). apply Forall2_nil_inv_r in Hf as ->.
  rewrite !list.Forall_cons in Hb. destruct Hb as (B0 & B1 & B2 & B3 & _).
  replace (bytes_value _) with ((y0 + y1 * (1 ≪ 8)) + 2 ^ 16 * (y2 + y3 * (1 ≪ 8)))
    by (simpl; change (1 ≪ 8) with 256; lia).
  apply half_intro; cbn [fst snd nth];
    [unfold fits in *; change (1 ≪ 8) with 256; lia..| |]; (apply feq_add; [assumption|apply feq_mul; [assumption|reflexivity]]).
Qed.

Lemma byte_op_sound o b c vb vc cols r : is_bitop o -> half_repr b vb -> half_repr c vc -> r ≐ 1 ->
  sat (ByteU32Operation.eval o b c cols r).1 -> half_repr (ByteU32Operation.eval o b c cols r).2 (bitop o vb vc).
Proof.
  intros Ho Hb Hc Hr Hs. unfold ByteU32Operation.eval in *. cbn [fst snd] in *. apply sat_cons in Hs as [_ Hs].
  set (rs := (fun i => nth i (ByteU32Operation.value cols) 0) <$> seq 0 4).
  destruct (bitwise_sends_sound o (as_field o) (U32toU8Operation.eval_u32_to_u8_unsafe b (ByteU32Operation.b_low_bytes cols))
    (U32toU8Operation.eval_u32_to_u8_unsafe c (ByteU32Operation.c_low_bytes cols)) rs r Ho (reflexivity _) Hr eq_refl eq_refl Hs)
    as (bs & cs & Fb & Fc & Bb & Bc & Fr).
  apply (u32_to_u8_sound b vb) in Fb; [|assumption..]. apply (u32_to_u8_sound c vc) in Fc; [|assumption..]. subst.
  rewrite <- (u32_bytes_value vb), <- (u32_bytes_value vc) by (apply Hb || apply Hc).
  rewrite bitop_bytes by (done || rewrite !u32_bytes_eq; done).
  apply (half_of_bytes rs); [now apply bitop_bytes_u8|exact Fr|now rewrite !u32_bytes_eq].
Qed.

Lemma byte_op_complete o b c vb vc : is_bitop o -> half_repr b vb -> half_repr c vc ->
  let '(cols, events, result) := ByteU32Operation.populate o (bitop o) [] vb vc in
  result = bitop o vb vc /\ complete (ByteU32Operation.eval o b c cols 1).1 events /\
  half_repr (ByteU32Operation.eval o b c cols 1).2 (bitop o vb vc).
Proof.
  intros Ho Hb Hc. unfold ByteU32Operation.populate. split; [done|].
  set (cols := ByteU32Operation.mk _ _ _).
  assert (C : complete (ByteU32Operation.eval o b c cols 1).1 (fold_left (fun record '(b, c) =>
    add_byte_lookup_event record (mkByteLookupEvent o (bitop o b c) b c)) (zip (u32_to_le_bytes vb) (u32_to_le_bytes vc)) [])).
  { apply complete_assert; [now apply holds_assert_bool; right|].
    rewrite (fold_add_events (fun '(b, c) => mkByteLookupEvent o (bitop o b c) b c)) by (now intros ? [? ?]).
    replace ((fun '(b, c) => mkByteLookupEvent o (bitop o b c) b c) <$> zip (u32_to_le_bytes vb) (u32_to_le_bytes vc))
      with ((fun '(x, b, c) => mkByteLookupEvent o x b c) <$> zip (zip (zip_with (bitop o) (u32_to_le_bytes vb) (u32_to_le_bytes vc))
        (u32_to_le_bytes vb)) (u32_to_le_bytes vc)) by (rewrite !u32_bytes_eq; reflexivity).
    change 4%nat with (length (zip_with (bitop o) (u32_to_le_bytes vb) (u32_to_le_bytes vc))).
    apply bitwise_sends_complete; try done; try apply u32_bytes_u8; now apply u32_to_u8_complete. }
  split; [exact C|]. apply byte_op_sound; try done. exact (complete_sat _ _ C).
Qed.
End ByteOps.

(** ** Rotations and shifts *)
Lemma rotate_right_value x n : is_u32 x -> 0 <= n <= 32 ->
  Sha256.rotate_right x n = x / 2 ^ n + (x mod 2 ^ n) * 2 ^ (32 - n).
Proof.
  intros Hx Hn. unfold Sha256.rotate_right. rewrite Z.lor_comm, Z.shiftr_div_pow2, Z.shiftl_mul_pow2 by lia.
  assert (E : 2 ^ 32 = 2 ^ n * 2 ^ (32 - n)) by (rewrite <- Z.pow_add_r by lia; f_equal; lia).
  replace (u32 (x * 2 ^ (32 - n))) with ((x mod 2 ^ n) * 2 ^ (32 - n))
    by (unfold u32, wrap; rewrite E; now rewrite Z.mul_mod_distr_r by lia).
  rewrite (lor_disjoint _ _ (32 - n)); [lia|lia|apply Z.mod_mul; lia|]. unfold fits in Hx.
  split; [apply Z.div_pos; lia|]. apply Z.div_lt_upper_bound; lia.
Qed.

(** The two limbs of a number divided into [n] low bits and the others. *)
Lemma split_limb x n : is_u16 x -> 0 <= n < 16 ->
  x = x mod 2 ^ n + 2 ^ n * (x / 2 ^ n) /\ 0 <= x mod 2 ^ n < 2 ^ n /\ 0 <= x / 2 ^ n < 2 ^ (16 - n) /\
  2 ^ 16 = 2 ^ n * 2 ^ (16 - n).
Proof.
  intros Hx Hn. assert (0 < 2 ^ n) by (apply Z.pow_pos_nonneg; lia).
  assert (E : 2 ^ 16 = 2 ^ n * 2 ^ (16 - n)) by (rewrite <- Z.pow_add_r by lia; f_equal; lia).
  split; [rewrite Z.add_comm; now apply Z.div_mod; lia|]. split; [now apply Z.mod_pos_bound|].
  split; [|exact E]. unfold fits in Hx. split; [apply Z.div_pos; lia|apply Z.div_lt_upper_bound; lia].
Qed.

Lemma shift_limbs l0 l1 n : is_u16 l0 -> is_u16 l1 -> 0 <= n < 16 ->
  (l0 + 2 ^ 16 * l1) / 2 ^ n = (l0 / 2 ^ n + (l1 mod 2 ^ n) * 2 ^ (16 - n)) + 2 ^ 16 * (l1 / 2 ^ n) /\
  (l0 + 2 ^ 16 * l1) mod 2 ^ n = l0 mod 2 ^ n.
Proof.
  intros H0 H1 Hn. destruct (split_limb l0 n H0 Hn) as (E0 & L0 & G0 & E). destruct (split_limb l1 n H1 Hn) as (E1 & L1 & G1 & _).
  assert (D : l0 + 2 ^ 16 * l1 = 2 ^ n * (l0 / 2 ^ n + (l1 mod 2 ^ n) * 2 ^ (16 - n) + 2 ^ 16 * (l1 / 2 ^ n)) + l0 mod 2 ^ n)
    by (rewrite E0 at 1; rewrite E1 at 1; rewrite E; ring).
  split; symmetry; [eapply Z.div_unique|eapply Z.mod_unique]; [left; exact L0|exact D|left; exact L0|exact D].
Qed.
Lemma shift_limbs_16 l0 l1 n : is_u16 l0 -> is_u16 l1 -> 0 <= n < 16 ->
  (l0 + 2 ^ 16 * l1) / 2 ^ (16 + n) = l1 / 2 ^ n /\
  (l0 + 2 ^ 16 * l1) mod 2 ^ (16 + n) = l0 + 2 ^ 16 * (l1 mod 2 ^ n).
Proof.
  intros H0 H1 Hn. destruct (split_limb l1 n H1 Hn) as (E1 & L1 & G1 & _). unfold fits in H0.
  rewrite Z.pow_add_r by lia.
  assert (D : l0 + 2 ^ 16 * l1 = 2 ^ 16 * 2 ^ n * (l1 / 2 ^ n) + (l0 + 2 ^ 16 * (l1 mod 2 ^ n)))
    by (rewrite E1 at 1; ring).
  split; symmetry; [eapply Z.div_unique|eapply Z.mod_unique]; [left|exact D|left|exact D]; nia.
Qed.

(** The rotation and the shift, limb by limb. *)
Lemma rotate_limbs l0 l1 rotation : is_u16 l0 -> is_u16 l1 -> 0 <= rotation < 32 ->
  let n := rotation mod 16 in
  let '(x0, x1) := if rotation <? 16 then (l0, l1) else (l1, l0) in
  Sha256.rotate_right (l0 + 2 ^ 16 * l1) rotation =
    (x0 / 2 ^ n + (x1 mod 2 ^ n) * 2 ^ (16 - n)) + 2 ^ 16 * (x1 / 2 ^ n + (x0 mod 2 ^ n) * 2 ^ (16 - n)).
Proof.
  intros H0 H1 Hr. cbv zeta. remember (rotation mod 16) as n eqn:En.
  assert (Hn : 0 <= n < 16) by (subst n; apply Z.mod_pos_bound; lia).
  rewrite rotate_right_value by (unfold fits in *; lia).
  destruct (Z.ltb_spec rotation 16).
  - replace rotation with n by (subst n; now rewrite Z.mod_small).
    destruct (shift_limbs l0 l1 n H0 H1 Hn) as [-> ->].
    replace (2 ^ (32 - n)) with (2 ^ 16 * 2 ^ (16 - n)) by (rewrite <- Z.pow_add_r by lia; f_equal; lia). ring.
  - replace rotation with (16 + n) by (subst n; lia_mod).
    destruct (shift_limbs_16 l0 l1 n H0 H1 Hn) as [-> ->]. replace (32 - (16 + n)) with (16 - n) by lia.
    destruct (split_limb l0 n H0 Hn) as (E & _ & _ & P). rewrite E at 1. rewrite P. ring.
Qed.
Lemma shr_limbs l0 l1 rotation : is_u16 l0 -> is_u16 l1 -> 0 <= rotation < 32 ->
  let n := rotation mod 16 in
  let '(x0, x1) := if rotation <? 16 then (l0, l1) else (l1, 0) in
  (l0 + 2 ^ 16 * l1) ≫ rotation = (x0 / 2 ^ n + (x1 mod 2 ^ n) * 2 ^ (16 - n)) + 2 ^ 16 * (x1 / 2 ^ n).
Proof.
  intros H0 H1 Hr. cbv zeta. remember (rotation mod 16) as n eqn:En.
  assert (Hn : 0 <= n < 16) by (subst n; apply Z.mod_pos_bound; lia).
  rewrite Z.shiftr_div_pow2 by lia. destruct (Z.ltb_spec rotation 16).
  - replace rotation with n by (subst n; now rewrite Z.mod_small). now apply shift_limbs.
  - replace rotation with (16 + n) by (subst n; lia_mod).
    destruct (shift_limbs_16 l0 l1 n H0 H1 Hn) as [-> _]. rewrite Z.mod_0_l, Z.div_0_l by lia. lia.
Qed.
Lemma limbs_rotated_eq rotation h : 0 <= rotation < 32 ->
  FixedRotateRightOperation.limbs_rotated rotation h = if rotation <? 16 then h else (h.2, h.1).
Proof.
  intros Hr. destruct h. unfold FixedRotateRightOperation.limbs_rotated, FixedRotateRightOperation.nb_limbs_to_rotate.
  destruct (Z.ltb_spec rotation 16); [replace (rotation / 16) with 0 by lia_mod|replace (rotation / 16) with 1 by lia_mod];
    reflexivity.
Qed.
Lemma limbs_shifted_eq rotation h : 0 <= rotation < 32 ->
  FixedShiftRightOperation.limbs_shifted rotation h = if rotation <? 16 then h else (h.2, 0).
Proof.
  intros Hr. destruct h. unfold FixedShiftRightOperation.limbs_shifted, FixedShiftRightOperation.nb_limbs_to_shift.
  destruct (Z.ltb_spec rotation 16); [replace (rotation / 16) with 0 by lia_mod|replace (rotation / 16) with 1 by lia_mod];
    reflexivity.
Qed.

Section Shifts.
Context `{AirBuilder}.

Lemma limb_parts_sound nb x v h r : 0 <= nb < 16 -> x ≐ v -> is_u16 v -> r ≐ 1 -> sat (limb_parts nb x h r) ->
  lower_part nb x h ≐ v mod 2 ^ nb /\ h ≐ v / 2 ^ nb.
Proof.
  intros Hn Hx Hv Hr Hs. apply sat_cons in Hs as [Hl Hs]. apply sat_cons in Hs as [Hg _].
  destruct (sat_range nb _ _ _ _ Hl Hr (reflexivity _) ltac:(lia)) as (l & Bl & El).
  destruct (sat_range (16 - nb) _ _ _ _ Hg Hr (reflexivity _) ltac:(lia)) as (g & Bg & Eg).
  destruct (split_limb v nb Hv Hn) as (_ & _ & _ & E). unfold fits in *.
  assert (V : v ≐ l + g * 2 ^ nb).
  { rewrite <- Hx, <- El, <- Eg. unfold lower_part. rewrite Z.shiftl_1_l. now replace (x - h * 2 ^ nb + h * 2 ^ nb) with x by lia. }
  pose proof order_large. apply feq_small in V; [|nia].
  assert (D : v / 2 ^ nb = g) by (symmetry; apply (Z.div_unique _ _ _ l); [now left|lia]).
  assert (M : v mod 2 ^ nb = l) by (symmetry; apply (Z.mod_unique _ _ g l); [now left|lia]).
  now rewrite D, M.
Qed.

Lemma limb_parts_complete nb x v : 0 <= nb < 16 -> x ≐ v -> is_u16 v ->
  complete (limb_parts nb x (u16 (v ≫ nb)) 1) (record_limb_parts nb [] v).
Proof.
  intros Hn Hx Hv. destruct (split_limb v nb Hv Hn) as (E & L & G & P). unfold fits in Hv.
  assert (U : u16 (v ≫ nb) = v / 2 ^ nb).
  { rewrite Z.shiftr_div_pow2 by lia. apply wrap_small. unfold fits. nia. }
  assert (W : u16 (Z.land v ((1 ≪ nb) - 1)) = v mod 2 ^ nb).
  { rewrite Z.shiftl_1_l. replace (2 ^ nb - 1) with (Z.ones nb) by (rewrite Z.ones_equiv; lia). rewrite Z.land_ones by lia. apply wrap_small. unfold fits. nia. }
  unfold record_limb_parts, limb_parts. rewrite U, W.
  apply complete_send; [apply event_ok_range; unfold fits; lia|reflexivity|reflexivity| |reflexivity|reflexivity|].
  { cbn. unfold lower_part. rewrite Hx, Z.shiftl_1_l. now replace (v - v / 2 ^ nb * 2 ^ nb) with (v mod 2 ^ nb) by lia. }
  apply complete_send; [apply event_ok_range; unfold fits; lia|reflexivity..|]. apply complete_nil.
Qed.
(** The columns of a shift by [n] bits of the limbs [x0] and [x1]: what both
    operations have in common. *)
Lemma parts_sound n x0 x1 h0 h1 v0 v1 r : 0 <= n < 16 -> x0 ≐ v0 -> x1 ≐ v1 -> is_u16 v0 -> is_u16 v1 -> r ≐ 1 ->
  sat (limb_parts n x0 h0 r) -> sat (limb_parts n x1 h1 r) ->
  is_u16 (v0 / 2 ^ n + (v1 mod 2 ^ n) * 2 ^ (16 - n)) /\
  h0 ≐ v0 / 2 ^ n /\ h0 + lower_part n x1 h1 * (1 ≪ (16 - n)) ≐ v0 / 2 ^ n + (v1 mod 2 ^ n) * 2 ^ (16 - n).
Proof.
  intros Hn E0 E1 B0 B1 Hr S0 S1.
  destruct (limb_parts_sound n x0 v0 h0 r Hn E0 B0 Hr S0) as [_ G0].
  destruct (limb_parts_sound n x1 v1 h1 r Hn E1 B1 Hr S1) as [L1 _].
  destruct (split_limb v0 n B0 Hn) as (_ & _ & D0 & P). destruct (split_limb v1 n B1 Hn) as (_ & D1 & _ & _).
  split; [unfold fits; nia|]. split; [exact G0|]. rewrite Z.shiftl_1_l.
  apply feq_add; [exact G0|]. now apply feq_mul.
Qed.

Lemma rotate_sound input v rotation cols r : half_repr input v -> 0 <= rotation < 32 -> r ≐ 1 ->
  sat (FixedRotateRightOperation.eval input rotation cols r) ->
  half_repr (FixedRotateRightOperation.value cols) (Sha256.rotate_right v rotation).
Proof.
  intros (l0 & l1 & -> & B0 & B1 & E0 & E1)%half_elim Hrot Hr Hs.
  pose proof (rotate_limbs l0 l1 rotation B0 B1 Hrot) as V. cbv zeta in V.
  unfold FixedRotateRightOperation.eval in Hs. rewrite limbs_rotated_eq in Hs by assumption.
  assert (Hn : 0 <= FixedRotateRightOperation.nb_bits_to_rotate rotation < 16) by (apply Z.mod_pos_bound; lia).
  destruct input as [a0 a1], cols as [[c0 c1] [h0 h1]]. cbn [fst snd FixedRotateRightOperation.value FixedRotateRightOperation.higher_limb] in *.
  destruct (rotation <? 16); rewrite sat_cons, !sat_app, !sat_cons in Hs; destruct Hs as (_ & S0 & S1 & T1 & T0 & _);
    rewrite sat_assert, holds_when_real, holds_assert_eq in T0, T1 by assumption; rewrite V.
  - destruct (parts_sound _ a0 a1 h0 h1 l0 l1 r Hn) as (U0 & _ & W0); [assumption..|].
    destruct (parts_sound _ a1 a0 h1 h0 l1 l0 r Hn) as (U1 & _ & W1); [assumption..|].
    apply half_intro; cbn [fst snd]; [assumption..|now rewrite T0|now rewrite T1].
  - destruct (parts_sound _ a1 a0 h0 h1 l1 l0 r Hn) as (U0 & _ & W0); [assumption..|].
    destruct (parts_sound _ a0 a1 h1 h0 l0 l1 r Hn) as (U1 & _ & W1); [assumption..|].
    apply half_intro; cbn [fst snd]; [assumption..|now rewrite T0|now rewrite T1].
Qed.

Lemma shift_sound input v rotation cols r : half_repr input v -> 0 <= rotation < 32 -> r ≐ 1 ->
  sat (FixedShiftRightOperation.eval input rotation cols r) ->
  half_repr (FixedShiftRightOperation.value cols) (v ≫ rotation).
Proof.
  intros (l0 & l1 & -> & B0 & B1 & E0 & E1)%half_elim Hrot Hr Hs.
  pose proof (shr_limbs l0 l1 rotation B0 B1 Hrot) as V. cbv zeta in V.
  unfold FixedShiftRightOperation.eval in Hs. rewrite limbs_shifted_eq in Hs by assumption.
  assert (Hn : 0 <= FixedShiftRightOperation.nb_bits_to_shift rotation < 16) by (apply Z.mod_pos_bound; lia).
  assert (B : is_u16 0) by (unfold fits; lia).
  destruct input as [a0 a1], cols as [[c0 c1] [h0 h1]]. cbn [fst snd FixedShiftRightOperation.value FixedShiftRightOperation.higher_limb] in *.
  destruct (rotation <? 16); rewrite sat_cons, !sat_app, !sat_cons in Hs; destruct Hs as (_ & S0 & S1 & T1 & T0 & _);
    rewrite sat_assert, holds_when_real, holds_assert_eq in T0, T1 by assumption; rewrite V.
  - destruct (parts_sound _ a0 a1 h0 h1 l0 l1 r Hn) as (U0 & _ & W0); [assumption..|].
    destruct (parts_sound _ a1 a0 h1 h0 l1 l0 r Hn) as (U1 & W1 & _); [assumption..|].
    apply half_intro; cbn [fst snd]; [assumption| |now rewrite T0|now rewrite T1].
    destruct (split_limb l1 _ B1 Hn) as (? & ? & ? & P). unfold fits. unfold FixedShiftRightOperation.nb_bits_to_shift in *. nia.
  - destruct (parts_sound _ a1 0 h0 h1 l1 0 r Hn) as (U0 & _ & W0); [done..|].
    destruct (parts_sound _ 0 a1 h1 h0 0 l1 r Hn) as (_ & W1 & _); [done..|].
    apply half_intro; cbn [fst snd]; [assumption|now rewrite Zdiv_0_l|now rewrite T0|now rewrite T1].
Qed.
Lemma half_word_limbs l0 l1 : is_u16 l0 -> is_u16 l1 -> u32_to_half_word (l0 + 2 ^ 16 * l1) = (l0, l1).
Proof.
  intros B0 B1. unfold u32_to_half_word. rewrite low_limb, limb_of_u64 by lia. unfold fits in *. f_equal; lia_mod.
Qed.

(** The recorded lookups of two limbs are those the calls make, and the
    columns [populate] fills satisfy the equations of [eval]. *)
Lemma parts_complete n x0 x1 v0 v1 cs : 0 <= n < 16 -> x0 ≐ v0 -> x1 ≐ v1 -> is_u16 v0 -> is_u16 v1 -> Forall holds cs ->
  complete (Assert (AssertBool 1) :: limb_parts n x0 (u16 (v0 ≫ n)) 1 ++ limb_parts n x1 (u16 (v1 ≫ n)) 1 ++ map Assert cs)
    (record_limb_parts n (record_limb_parts n [] v1) v0).
Proof.
  intros Hn E0 E1 B0 B1 Hc. apply complete_assert; [now apply holds_assert_bool; right|].
  eapply (complete_perm _ (record_limb_parts n [] v0 ++ record_limb_parts n [] v1 ++ [])).
  { rewrite app_nil_r. unfold record_limb_parts, add_bit_range_check, add_byte_lookup_event. cbn. solve_Permutation. }
  apply complete_app; [now apply limb_parts_complete|]. apply complete_app; [now apply limb_parts_complete|].
  rewrite <- (app_nil_r (map Assert cs)). apply complete_asserts; [done|apply complete_nil].
Qed.

Lemma parts_columns n x0 x1 v0 v1 : 0 <= n < 16 -> x0 ≐ v0 -> x1 ≐ v1 -> is_u16 v0 -> is_u16 v1 ->
  let h v := u16 (v ≫ n) in
  is_u16 (v0 / 2 ^ n + (v1 mod 2 ^ n) * 2 ^ (16 - n)) /\ is_u16 (v0 / 2 ^ n) /\ h v0 ≐ v0 / 2 ^ n /\
  v0 / 2 ^ n + (v1 mod 2 ^ n) * 2 ^ (16 - n) ≐ h v0 + lower_part n x1 (h v1) * (1 ≪ (16 - n)).
Proof.
  intros Hn E0 E1 B0 B1 h.
  destruct (parts_sound n x0 x1 (h v0) (h v1) v0 v1 1 Hn E0 E1 B0 B1 (reflexivity _)) as (U & G & V);
    [eapply complete_sat; now apply limb_parts_complete..|].
  destruct (split_limb v0 n B0 Hn) as (_ & L & D & P). split; [exact U|].
  split; [unfold fits; nia|]. split; [exact G|now symmetry].
Qed.

Lemma rotate_complete input v rotation : half_repr input v -> 0 <= rotation < 32 ->
  let '(cols, events, result) := FixedRotateRightOperation.populate [] v rotation in
  result = Sha256.rotate_right v rotation /\ complete (FixedRotateRightOperation.eval input rotation cols 1) events.
Proof.
  intros (l0 & l1 & -> & B0 & B1 & E0 & E1)%half_elim Hrot.
  pose proof (rotate_limbs l0 l1 rotation B0 B1 Hrot) as V. cbv zeta in V.
  assert (Hn : 0 <= rotation mod 16 < 16) by (apply Z.mod_pos_bound; lia).
  unfold FixedRotateRightOperation.populate, FixedRotateRightOperation.eval, FixedRotateRightOperation.carry_multiplier.
  rewrite !limbs_rotated_eq, half_word_limbs by assumption. fold (u32_to_half_word (Sha256.rotate_right (l0 + 2 ^ 16 * l1) rotation)).
  destruct input as [a0 a1]. cbn [fst snd] in *. unfold FixedRotateRightOperation.nb_bits_to_rotate.
  destruct (rotation <? 16); rewrite V; (split; [reflexivity|]).
  - destruct (parts_columns _ a0 a1 l0 l1 Hn E0 E1 B0 B1) as (U0 & _ & _ & W0). destruct (parts_columns _ a1 a0 l1 l0 Hn E1 E0 B1 B0) as (U1 & _ & _ & W1).
    rewrite half_word_limbs by assumption. cbn [FixedRotateRightOperation.value FixedRotateRightOperation.higher_limb fst snd].
    apply (parts_complete _ a0 a1 l0 l1 [When 1 (AssertEq _ _); When 1 (AssertEq _ _)]); try assumption.
    repeat constructor; apply holds_when; intros _; now apply holds_assert_eq.
  - destruct (parts_columns _ a1 a0 l1 l0 Hn E1 E0 B1 B0) as (U0 & _ & _ & W0). destruct (parts_columns _ a0 a1 l0 l1 Hn E0 E1 B0 B1) as (U1 & _ & _ & W1).
    rewrite half_word_limbs by assumption. cbn [FixedRotateRightOperation.value FixedRotateRightOperation.higher_limb fst snd].
    apply (parts_complete _ a1 a0 l1 l0 [When 1 (AssertEq _ _); When 1 (AssertEq _ _)]); try assumption.
    repeat constructor; apply holds_when; intros _; now apply holds_assert_eq.
Qed.
Lemma shift_complete input v rotation : half_repr input v -> 0 <= rotation < 32 ->
  let '(cols, events, result) := FixedShiftRightOperation.populate [] v rotation in
  result = v ≫ rotation /\ complete (FixedShiftRightOperation.eval input rotation cols 1) events.
Proof.
  intros (l0 & l1 & -> & B0 & B1 & E0 & E1)%half_elim Hrot.
  pose proof (shr_limbs l0 l1 rotation B0 B1 Hrot) as V. cbv zeta in V.
  assert (Hn : 0 <= rotation mod 16 < 16) by (apply Z.mod_pos_bound; lia).
  assert (B : is_u16 0) by (unfold fits; lia).
  unfold FixedShiftRightOperation.populate, FixedShiftRightOperation.eval, FixedShiftRightOperation.carry_multiplier.
  rewrite !limbs_shifted_eq, half_word_limbs by assumption.
  destruct input as [a0 a1]. cbn [fst snd] in *. unfold FixedShiftRightOperation.nb_bits_to_shift.
  destruct (rotation <? 16); rewrite V; (split; [reflexivity|]).
  - destruct (parts_columns _ a0 a1 l0 l1 Hn E0 E1 B0 B1) as (U0 & _ & _ & W0). destruct (parts_columns _ a1 a0 l1 l0 Hn E1 E0 B1 B0) as (_ & U1 & W1 & _).
    rewrite half_word_limbs by assumption. cbn [FixedShiftRightOperation.value FixedShiftRightOperation.higher_limb fst snd].
    apply (parts_complete _ a0 a1 l0 l1 [When 1 (AssertEq _ _); When 1 (AssertEq _ _)]); try assumption.
    repeat constructor; apply holds_when; intros _; now apply holds_assert_eq.
  - destruct (parts_columns _ a1 0 l1 0 Hn E1 (reflexivity 0) B1 B) as (U0 & _ & _ & W0). destruct (parts_columns _ 0 a1 0 l1 Hn (reflexivity 0) E1 B B1) as (_ & U1 & W1 & _).
    rewrite half_word_limbs by assumption. cbn [FixedShiftRightOperation.value FixedShiftRightOperation.higher_limb fst snd].
    apply (parts_complete _ a1 0 l1 0 [When 1 (AssertEq _ _); When 1 (AssertEq _ _)]); try (assumption || reflexivity).
    repeat constructor; apply holds_when; intros _; now apply holds_assert_eq.
Qed.
End Shifts.

(** ** Negation *)
Section Negation.
Context `{AirBuilder}.

Lemma not_limbs l0 l1 : is_u16 l0 -> is_u16 l1 ->
  Sha256.not32 (l0 + 2 ^ 16 * l1) = (0xFFFF - l0) + 2 ^ 16 * (0xFFFF - l1).
Proof.
  intros B0 B1. unfold Sha256.not32. change 0xFFFFFFFF with (Z.ones 32). rewrite lxor_ones_value by (unfold fits in *; lia). change (2 ^ 32) with 4294967296. change (2 ^ 16) with 65536. lia.
Qed.

Lemma not_sound a v cols r : half_repr a v -> r ≐ 1 -> sat (NotU32Operation.eval a cols r) ->
  half_repr (NotU32Operation.value cols) (Sha256.not32 v).
Proof.
  intros (l0 & l1 & -> & B0 & B1 & E0 & E1)%half_elim Hr Hs. rewrite not_limbs by assumption.
  destruct a as [a0 a1], cols as [[c0 c1]]. unfold NotU32Operation.eval, half_at in Hs. cbn [fmap list_fmap] in Hs.
  change (Z.to_nat 0) with 0%nat in Hs. change (Z.to_nat 1) with 1%nat in Hs. cbn in *.
  rewrite !sat_cons in Hs. destruct Hs as (T0 & T1 & _). rewrite sat_assert, holds_when_real, holds_assert_eq in T0, T1 by assumption.
  apply half_intro; [unfold fits in *; lia..| |]; cbn [fst snd].
  - rewrite <- T0, <- E0. now replace (c0 + a0 - a0) with c0 by lia.
  - rewrite <- T1, <- E1. now replace (c1 + a1 - a1) with c1 by lia.
Qed.

Lemma not_complete a v : half_repr a v ->
  let '(cols, result) := NotU32Operation.populate v in
  result = Sha256.not32 v /\ complete (NotU32Operation.eval a cols 1) [].
Proof.
  intros (l0 & l1 & -> & B0 & B1 & E0 & E1)%half_elim. unfold NotU32Operation.populate. split; [reflexivity|].
  change (u32_to_u16_limbs (l0 + 2 ^ 16 * l1)) with (half_limbs (u32_to_half_word (l0 + 2 ^ 16 * l1))).
  rewrite half_word_limbs by assumption. destruct a as [a0 a1]. unfold NotU32Operation.eval, half_at. cbn [fmap list_fmap].
  change (Z.to_nat 0) with 0%nat. change (Z.to_nat 1) with 1%nat. cbn in *. change 0xFFFF with (Z.ones 16).
  unfold fits in *. rewrite !lxor_ones_value by lia. change (Z.ones 16) with 0xFFFF.
  repeat (apply complete_assert; [apply holds_when; intros _; apply holds_assert_eq|]); [| |apply complete_nil]; cbn.
  - rewrite E0. now replace (2 ^ 16 - 1 - l0 + l0) with 0xFFFF by lia.
  - rewrite E1. now replace (2 ^ 16 - 1 - l1 + l1) with 0xFFFF by lia.
Qed.
End Negation.

(** ** The address of a system call *)
Section SyscallAddress.
Context `{AirBuilder}.
Import SyscallAddrOperation.

(** The address of [len] bytes that a precompile may access. *)
Definition syscall_range (a len : Z) : Prop := a mod 8 = 0 /\ 2 ^ 16 <= a /\ a + len < 2 ^ 48.

Lemma eighth x k : x * finv 8 ≐ k -> x ≐ 8 * k.
Proof.
  intros <-. rewrite (Z.mul_comm x), Z.mul_assoc, (Z.mul_comm 8), (finv_mul _ eight_not_zero). now rewrite Z.mul_1_l.
Qed.

Lemma top_limbs_max l1 l2 : is_u16 l1 -> is_u16 l2 -> l1 + l2 - 0xFFFF * 2 ≐ 0 <-> l1 = 0xFFFF /\ l2 = 0xFFFF.
Proof.
  intros B1 B2. pose proof order_large. unfold fits in *. split; [intros E; apply feq_small in E; lia|].
  intros [-> ->]. reflexivity.
Qed.

Lemma syscall_addr_sound len cols r l0 l1 l2 : r ≐ 1 -> len mod 8 = 0 -> 0 <= len <= 2 ^ 16 ->
  Forall2 feq (addr_limbs (addr cols)) [l0; l1; l2] -> is_u16 l0 -> is_u16 l1 -> is_u16 l2 ->
  sat (eval len cols r) -> syscall_range (l0 + 2 ^ 16 * l1 + 2 ^ 32 * l2) len.
Proof.
  intros Hr Hl Bl Hf B0 B1 B2 Hs. destruct cols as [[[a0 a1] a2] mn mx]. unfold eval in Hs. cbn [addr top_two_limb_min top_two_limb_max] in *.
  unfold addr_limbs in Hf. cbn in Hf. apply list.Forall2_cons in Hf as [E0 Hf]. apply list.Forall2_cons in Hf as [E1 Hf]. apply list.Forall2_cons in Hf as [E2 _].
  rewrite !sat_app, !sat_cons in Hs. destruct Hs as ((_ & Hmin & _) & Hz & Hs & _). apply (is_zero_sound _ _ _ Hr) in Hz.
  assert (Ez : bool_decide (a1 + a2 - 0xFFFF * 2 ≐ 0) = bool_decide (l1 = 0xFFFF /\ l2 = 0xFFFF)).
  { apply bool_decide_ext. rewrite E1, E2. now apply top_limbs_max. }
  rewrite sat_assert, holds_assert_eq, E1, E2, Hr in Hmin.
  destruct (sat_range 13 _ _ _ _ Hs Hr (reflexivity _) ltac:(lia)) as (k & Bk & Ek). apply eighth in Ek.
  rewrite Hz, Ez, E0 in Ek. pose proof order_large. unfold fits in *.
  assert (Hn : l1 + l2 <> 0).
  { intros E. rewrite E, Z.mul_0_r in Hmin. now apply one_not_zero; symmetry. }
  apply feq_small in Ek; [|case_bool_decide; cbn; lia].
  unfold syscall_range. case_bool_decide as D; cbn [from_bool] in Ek; split_and!; lia_mod.
Qed.

Lemma syscall_addr_complete v len : len mod 8 = 0 -> 0 <= len < 2 ^ 16 -> syscall_range v len ->
  exists cols events, populate [] v len = Some (cols, events) /\
    addr_limbs (addr cols) = take 3 (u64_to_u16_limbs v) /\ complete (eval len cols 1) events.
Proof.
  intros Hl Bl (Hv & Lv & Uv). unfold populate.
  assert (Ev : exists l0 l1 l2, take 3 (u64_to_u16_limbs v) = [l0; l1; l2] /\ is_u16 l0 /\ is_u16 l1 /\ is_u16 l2 /\
    v = l0 + 2 ^ 16 * l1 + 2 ^ 32 * l2).
  { unfold u64_to_u16_limbs. rewrite low_limb, !limb_of_u64 by lia. eexists _, _, _. split; [reflexivity|]. unfold fits. lia_mod. }
  destruct Ev as (l0 & l1 & l2 & El & B0 & B1 & B2 & Ev). unfold u64_to_u16_limbs in *. cbn [take] in El. injection El as E0 E1 E2.
  cbn [nth]. rewrite E0, E1, E2. pose proof order_large. unfold fits in *.
  pose proof (is_zero_complete (l1 + l2 - 0xFFFF * 2) (l1 + l2 - 0xFFFF * 2) 1 (reflexivity _) (reflexivity _)) as Hz.
  destruct (IsZeroOperation.populate_from_field_element _) as [mx z]. destruct Hz as (Ez & Rz & Cz).
  assert (D : l1 + l2 ≭ 0) by (intros D; apply feq_small in D; lia). rewrite decide_False by exact D.
  eexists _, _. split; [reflexivity|]. split; [reflexivity|]. unfold eval. cbn [addr top_two_limb_min top_two_limb_max].
  apply complete_assert; [now apply holds_assert_bool; right|].
  apply complete_assert; [apply holds_assert_eq; now apply finv_mul|].
  rewrite <- (app_nil_l (add_bit_range_check _ _ _)). apply complete_app; [exact Cz|].
  assert (X : (if z =? 1 then u16 (l0 + u16 len) else l0) = l0 + z * len).
  { rewrite Rz. case_bool_decide as M; cbn [from_bool Z.eqb]; [|cbn; lia].
    apply top_limbs_max in M; [|unfold fits; lia..]. unfold u16. rewrite (wrap_small 16 len), wrap_small by (unfold fits; lia). cbn. lia. }
  rewrite X, Ez. assert (Bz : (z = 0 \/ z = 1 /\ l1 = 0xFFFF /\ l2 = 0xFFFF)).
  { rewrite Rz. case_bool_decide as M; [right|now left]. split; [done|]. now apply top_limbs_max. }
  assert (F : l0 + z * len = 8 * ((l0 + z * len) / 8)) by (destruct Bz as [->|(-> & -> & ->)]; lia_mod).
  apply complete_send; [apply event_ok_range; [lia|]|reflexivity|reflexivity| |reflexivity|reflexivity|apply complete_nil].
  - unfold fits. destruct Bz as [->|(-> & -> & ->)]; lia_mod.
  - cbn [ev_a]. rewrite F at 1. rewrite (Z.mul_comm 8), <- Z.mul_assoc, (Z.mul_comm 8), (finv_mul _ eight_not_zero). now rewrite Z.mul_1_r.
Qed.
End SyscallAddress.

(** ** The operations together *)
Section Correct.
Context `{AirBuilder}.

(** C27. The 32-bit operations of the SHA-256 chips are correct.  On a real
    row whose constraints hold, the two result limbs are those of the bitwise
    and, exclusive or and negation of the operands, of the rotation and the
    shift to the right by any number of bits below 32, and of the wrapping sum
    of up to five words ([Add4Operation], [Add5Operation]); the row that
    [populate] writes satisfies the constraints, the sends being exactly the
    recorded byte lookups. *)
Theorem u32_operations_correct b c vb vc : half_repr b vb -> half_repr c vc ->
  ((forall cols r, r ≐ 1 -> sat (AndU32Operation.eval_and_u32 b c cols r).1 ->
      half_repr (AndU32Operation.eval_and_u32 b c cols r).2 (Z.land vb vc)) /\
   (let '(cols, events, result) := AndU32Operation.populate_and_u32 [] vb vc in
    result = Z.land vb vc /\ complete (AndU32Operation.eval_and_u32 b c cols 1).1 events)) /\
  ((forall cols r, r ≐ 1 -> sat (XorU32Operation.eval_xor_u32 b c cols r).1 ->
      half_repr (XorU32Operation.eval_xor_u32 b c cols r).2 (Z.lxor vb vc)) /\
   (let '(cols, events, result) := XorU32Operation.populate_xor_u32 [] vb vc in
    result = Z.lxor vb vc /\ complete (XorU32Operation.eval_xor_u32 b c cols 1).1 events)) /\
  ((forall cols r, r ≐ 1 -> sat (NotU32Operation.eval b cols r) ->
      half_repr (NotU32Operation.value cols) (2 ^ 32 - 1 - vb)) /\
   (let '(cols, result) := NotU32Operation.populate vb in
    result = 2 ^ 32 - 1 - vb /\ complete (NotU32Operation.eval b cols 1) [])) /\
  (forall rotation, 0 <= rotation < 32 ->
    let rotated := vb / 2 ^ rotation + (vb mod 2 ^ rotation) * 2 ^ (32 - rotation) in
    ((forall cols r, r ≐ 1 -> sat (FixedRotateRightOperation.eval b rotation cols r) ->
        half_repr (FixedRotateRightOperation.value cols) rotated) /\
     (let '(cols, events, result) := FixedRotateRightOperation.populate [] vb rotation in
      result = rotated /\ complete (FixedRotateRightOperation.eval b rotation cols 1) events)) /\
    ((forall cols r, r ≐ 1 -> sat (FixedShiftRightOperation.eval b rotation cols r) ->
        half_repr (FixedShiftRightOperation.value cols) (vb / 2 ^ rotation)) /\
     (let '(cols, events, result) := FixedShiftRightOperation.populate [] vb rotation in
      result = vb / 2 ^ rotation /\ complete (FixedShiftRightOperation.eval b rotation cols 1) events))) /\
  (forall words vs, Forall2 half_repr words vs -> (length words <= 5)%nat ->
    (forall cols r, r ≐ 1 -> sat (AddNOperation.eval words r cols) ->
       half_repr (AddNOperation.value cols) (u32 (foldl Z.add 0 vs))) /\
    (let '(cols, events, result) := AddNOperation.populate [] vs in
     result = u32 (foldl Z.add 0 vs) /\ complete (AddNOperation.eval words 1 cols) events)).
Proof.
  intros Hb Hc. pose proof Hb as [Bb _].
  assert (En : Sha256.not32 vb = 2 ^ 32 - 1 - vb) by (apply (lxor_ones_value vb 32); [lia|exact Bb]).
  split; [|split; [|split; [|split]]].
  - split; [intros; now apply (byte_op_sound ByteOpcode.AND); [left|..]|].
    pose proof (byte_op_complete ByteOpcode.AND b c vb vc ltac:(now left) Hb Hc) as C. exact (conj (proj1 C) (proj1 (proj2 C))).
  - split; [intros; now apply (byte_op_sound ByteOpcode.XOR); [right; right|..]|].
    pose proof (byte_op_complete ByteOpcode.XOR b c vb vc ltac:(now right; right) Hb Hc) as C. exact (conj (proj1 C) (proj1 (proj2 C))).
  - rewrite <- En. split; [intros cols r; now apply not_sound|exact (not_complete b vb Hb)].
  - intros rotation Hr rotated. subst rotated. rewrite <- rotate_right_value, <- Z.shiftr_div_pow2 by (assumption || lia).
    split; (split; [intros cols r|]); [now apply rotate_sound|exact (rotate_complete b vb rotation Hb Hr)|
      now apply shift_sound|exact (shift_complete b vb rotation Hb Hr)].
  - intros words vs Hw Hl. split; [intros; now apply (add_n_sound words _ _ r)|now apply add_n_complete].
Qed.
End Correct.

Lemma u32_operations_correct_witness :
  let '(cols, events, result) := FixedRotateRightOperation.populate [] 0x12345678 20 in
  result = 0x45678123 /\ complete (FixedRotateRightOperation.eval (0x5678, 0x1234) 20 cols 1) events.
Proof.
  assert (Hb : half_repr (0x5678, 0x1234) 0x12345678) by (split; [split; lia|repeat constructor]).
  destruct (u32_operations_correct _ _ _ _ Hb Hb) as (_ & _ & _ & R & _).
  destruct (R 20 ltac:(lia)) as [[_ C] _]. exact C.
Defined.
