(* ===== verification/MemAir.v ===== *)
(** * MemAir: memory, register and page-permission accesses

    [air/memory.rs] and [memory/consistency] of [core/machine].  A memory
    cell, a register and a page's permissions live on a bus as tuples
    (timestamp, address, value): an access takes the previous tuple off the
    bus and puts the current one back.  The calls an access makes, the
    columns [populate] fills, and what the constraints force: the previous
    timestamp is earlier than the current one. *)
From Stdlib Require Import ZArith Lia Bool.
From stdpp Require Import base numbers option list.
From S2P Require Import Prelude State Air KoalaBear ByteTable WordAir AddOps BitOps Bus.
Import ByteOpcode (as_field).

(** ** Columns and trace generation ([memory/consistency]) *)

Module MemoryAccessTimestamp.
Record t := mk { prev_high : Z; prev_low : Z; compare_low : Z; diff_low_limb : Z; diff_high_limb : Z }.

(** [None] is the failed assertion that the access is later than the last. *)
Definition populate_timestamp (output : list ByteLookupEvent) (prev_timestamp current_timestamp : Z) :
  option (t * list ByteLookupEvent) :=
  check! prev_timestamp <? current_timestamp;
  let prev_high := u32 (prev_timestamp ≫ 24) in
  let prev_low := u32 (Z.land prev_timestamp 0xFFFFFF) in
  let current_high := u32 (current_timestamp ≫ 24) in
  let current_low := u32 (Z.land current_timestamp 0xFFFFFF) in
  let use_low_comparison := prev_high =? current_high in
  let prev_time_value := if use_low_comparison then prev_low else prev_high in
  let current_time_value := if use_low_comparison then current_low else current_high in
  let diff_minus_one := u32 (current_time_value - prev_time_value - 1) in
  let diff_low_limb := u16 (Z.land diff_minus_one 0xFFFF) in
  let diff_high_limb := u8 (diff_minus_one ≫ 16) in
  Some (mk prev_high prev_low (from_bool use_low_comparison) diff_low_limb diff_high_limb,
        add_u8_range_check (add_bit_range_check output diff_low_limb 16) diff_high_limb 0).
End MemoryAccessTimestamp.

Module RegisterAccessTimestamp.
Record t := mk { prev_low : Z; diff_low_limb : Z }.
Definition zero : t := mk 0 0.

Definition populate_timestamp (output : list ByteLookupEvent) (prev_timestamp current_timestamp : Z) :
  t * list ByteLookupEvent :=
  let prev_high := u32 (prev_timestamp ≫ 24) in
  let prev_low := u32 (Z.land prev_timestamp 0xFFFFFF) in
  let current_high := u32 (current_timestamp ≫ 24) in
  let current_low := u32 (Z.land current_timestamp 0xFFFFFF) in
  let old_timestamp := if prev_high =? current_high then prev_low else 0 in
  let diff_minus_one := u32 (current_low - old_timestamp - 1) in
  let diff_low_limb := u16 (Z.land diff_minus_one 0xFFFF) in
  let diff_high_limb := u8 (diff_minus_one ≫ 16) in
  (mk old_timestamp diff_low_limb,
   add_u8_range_check (add_bit_range_check output diff_low_limb 16) diff_high_limb 0).
End RegisterAccessTimestamp.

Module MemoryAccessCols.
Record t := mk { prev_value : Word; access_timestamp : MemoryAccessTimestamp.t }.
Definition populate (record : MemoryRecordEnum.t) (output : list ByteLookupEvent) :
  option (t * list ByteLookupEvent) :=
  let prev_record := MemoryRecordEnum.previous_record record in
  let current_record := MemoryRecordEnum.current_record record in
  '(ts, output) ← MemoryAccessTimestamp.populate_timestamp output
     (MemoryRecord.timestamp prev_record) (MemoryRecord.timestamp current_record);
  Some (mk (Word_from_u64 (MemoryRecord.value prev_record)) ts, output).
End MemoryAccessCols.

Module RegisterAccessCols.
Record t := mk { prev_value : Word; access_timestamp : RegisterAccessTimestamp.t }.
Definition zero : t := mk word_zero RegisterAccessTimestamp.zero.
Definition populate (record : MemoryRecordEnum.t) (output : list ByteLookupEvent) : t * list ByteLookupEvent :=
  let prev_record := MemoryRecordEnum.previous_record record in
  let current_record := MemoryRecordEnum.current_record record in
  let '(ts, output) := RegisterAccessTimestamp.populate_timestamp output
     (MemoryRecord.timestamp prev_record) (MemoryRecord.timestamp current_record) in
  (mk (Word_from_u64 (MemoryRecord.value prev_record)) ts, output).
End RegisterAccessCols.

Module MemoryAccessColsU8.
Record t := mk { memory_access : MemoryAccessCols.t; prev_value_u8 : U16toU8Operation.t }.
Definition populate (record : MemoryRecordEnum.t) (output : list ByteLookupEvent) :
  option (t * list ByteLookupEvent) :=
  let prev_record := MemoryRecordEnum.previous_record record in
  let current_record := MemoryRecordEnum.current_record record in
  let '(prev_value_u8, output) := U16toU8Operation.populate_u16_to_u8_safe output (MemoryRecord.value prev_record) in
  '(ts, output) ← MemoryAccessTimestamp.populate_timestamp output
     (MemoryRecord.timestamp prev_record) (MemoryRecord.timestamp current_record);
  Some (mk (MemoryAccessCols.mk (Word_from_u64 (MemoryRecord.value prev_record)) ts) prev_value_u8, output).
End MemoryAccessColsU8.

Module PageProtAccessCols.
Record t := mk { prev_prot_bitmap : Z; access_timestamp : MemoryAccessTimestamp.t }.
Definition populate (prev_page_prot : PageProtRecord.t) (current_timestamp : Z) (output : list ByteLookupEvent) :
  option (t * list ByteLookupEvent) :=
  '(ts, output) ← MemoryAccessTimestamp.populate_timestamp output
     (PageProtRecord.timestamp prev_page_prot) current_timestamp;
  Some (mk (PageProtRecord.page_prot prev_page_prot) ts, output).
End PageProtAccessCols.

(** ** The constraints ([air/memory.rs]) *)

(** The two bus calls of an access: the previous tuple is sent, the current
    one received. *)
Definition access_calls (kind : InteractionKind.t) (prev_values current_values : list Z) (do_check : Z) : list call :=
  [Send (mkInteraction prev_values do_check kind); Receive (mkInteraction current_values do_check kind)].

Definition eval_memory_access_timestamp (mem_access : MemoryAccessTimestamp.t) (do_check clk_high clk_low : Z) :
  list call :=
  let compare_low := MemoryAccessTimestamp.compare_low mem_access in
  let prev_high := MemoryAccessTimestamp.prev_high mem_access in
  let prev_comp_value := if_else compare_low (MemoryAccessTimestamp.prev_low mem_access)
                           (MemoryAccessTimestamp.prev_high mem_access) in
  let current_comp_val := if_else compare_low clk_low clk_high in
  let diff_minus_one := current_comp_val - prev_comp_value - 1 in
  [Assert (When do_check (AssertBool compare_low));
   Assert (When do_check (When compare_low (AssertEq clk_high prev_high)));
   Assert (When do_check (AssertEq diff_minus_one
     (MemoryAccessTimestamp.diff_low_limb mem_access + MemoryAccessTimestamp.diff_high_limb mem_access * (1 ≪ 16))));
   send_byte (ByteOpcode.as_u8 ByteOpcode.Range) (MemoryAccessTimestamp.diff_low_limb mem_access) 16 0 do_check;
   send_byte (ByteOpcode.as_u8 ByteOpcode.U8Range) 0 (MemoryAccessTimestamp.diff_high_limb mem_access) 0 do_check].

Definition eval_register_access_timestamp `{PrimeField} (reg_access : RegisterAccessTimestamp.t) (do_check clk : Z) :
  list call :=
  let diff_minus_one := clk - RegisterAccessTimestamp.prev_low reg_access - 1 in
  let diff_high_limb := (diff_minus_one - RegisterAccessTimestamp.diff_low_limb reg_access) * finv (1 ≪ 16) in
  [send_byte (ByteOpcode.as_u8 ByteOpcode.Range) (RegisterAccessTimestamp.diff_low_limb reg_access) 16 0 do_check;
   send_byte (ByteOpcode.as_u8 ByteOpcode.U8Range) 0 diff_high_limb 0 do_check].

Definition eval_memory_access_write (clk_high clk_low : Z) (addr : Z * Z * Z) (mem_access : MemoryAccessCols.t)
  (write_value : Word) (do_check : Z) : list call :=
  let ts := MemoryAccessCols.access_timestamp mem_access in
  Assert (AssertBool do_check) ::
  eval_memory_access_timestamp ts do_check clk_high clk_low ++
  access_calls InteractionKind.Memory
    ([MemoryAccessTimestamp.prev_high ts; MemoryAccessTimestamp.prev_low ts] ++ addr_limbs addr ++
     word_limbs (MemoryAccessCols.prev_value mem_access))
    ([clk_high; clk_low] ++ addr_limbs addr ++ word_limbs write_value) do_check.
Definition eval_memory_access_read (clk_high clk_low : Z) (addr : Z * Z * Z) (mem_access : MemoryAccessCols.t)
  (do_check : Z) : list call :=
  eval_memory_access_write clk_high clk_low addr mem_access (MemoryAccessCols.prev_value mem_access) do_check.

Definition eval_register_access_write `{PrimeField} (clk_high clk_low : Z) (addr : Z * Z * Z)
  (reg_access : RegisterAccessCols.t) (write_value : Word) (do_check : Z) : list call :=
  let ts := RegisterAccessCols.access_timestamp reg_access in
  Assert (AssertBool do_check) ::
  eval_register_access_timestamp ts do_check clk_low ++
  access_calls InteractionKind.Memory
    ([clk_high; RegisterAccessTimestamp.prev_low ts] ++ addr_limbs addr ++
     word_limbs (RegisterAccessCols.prev_value reg_access))
    ([clk_high; clk_low] ++ addr_limbs addr ++ word_limbs write_value) do_check.
Definition eval_register_access_read `{PrimeField} (clk_high clk_low : Z) (addr : Z * Z * Z)
  (reg_access : RegisterAccessCols.t) (do_check : Z) : list call :=
  eval_register_access_write clk_high clk_low addr reg_access (RegisterAccessCols.prev_value reg_access) do_check.

Definition eval_memory_access_slice_read (clk_high clk_low : Z) (addr_slice : list (Z * Z * Z))
  (memory_access_slice : list MemoryAccessCols.t) (verify_memory_access : Z) : list call :=
  '(access_slice, addr) ← zip memory_access_slice addr_slice;
  eval_memory_access_read clk_high clk_low addr access_slice verify_memory_access.
(** [zip_eq] panics on slices of different lengths. *)
Definition eval_memory_access_slice_write (clk_high clk_low : Z) (addr_slice : list (Z * Z * Z))
  (memory_access_slice : list MemoryAccessCols.t) (write_values : list Word) (verify_memory_access : Z) :
  option (list call) :=
  check! bool_decide (length memory_access_slice = length addr_slice) &&
         bool_decide (length memory_access_slice = length write_values);
  Some ('(access_slice, addr, write_value) ← zip (zip memory_access_slice addr_slice) write_values;
        eval_memory_access_write clk_high clk_low addr access_slice write_value verify_memory_access).

Definition send_page_prot (clk_high clk_low : Z) (addr : Z * Z * Z) (permissions multiplicity : Z) : call :=
  Send (mkInteraction ([clk_high; clk_low] ++ addr_limbs addr ++ [permissions]) multiplicity InteractionKind.PageProt).
Definition receive_page_prot (clk_high clk_low : Z) (addr : Z * Z * Z) (permissions multiplicity : Z) : call :=
  Receive (mkInteraction ([clk_high; clk_low] ++ addr_limbs addr ++ [permissions]) multiplicity InteractionKind.PageProt).

Definition eval_page_prot_access_write (clk_high clk_low : Z) (prot_page_idx : Z * Z * Z)
  (page_prot_access : PageProtAccessCols.t) (new_prot_bitmap do_check : Z) : list call :=
  let ts := PageProtAccessCols.access_timestamp page_prot_access in
  Assert (AssertBool do_check) ::
  eval_memory_access_timestamp ts do_check clk_high clk_low ++
  access_calls InteractionKind.PageProtAccess
    ([MemoryAccessTimestamp.prev_high ts; MemoryAccessTimestamp.prev_low ts] ++ addr_limbs prot_page_idx ++
     [PageProtAccessCols.prev_prot_bitmap page_prot_access])
    ([clk_high; clk_low] ++ addr_limbs prot_page_idx ++ [new_prot_bitmap]) do_check.
Definition eval_page_prot_access_read (clk_high clk_low : Z) (prot_page_idx : Z * Z * Z)
  (page_prot_access : PageProtAccessCols.t) (do_check : Z) : list call :=
  eval_page_prot_access_write clk_high clk_low prot_page_idx page_prot_access
    (PageProtAccessCols.prev_prot_bitmap page_prot_access) do_check.

(** ** Timestamps move forward *)

Section Time.
Context `{AirBuilder}.

(** A field element read as an integer around zero. *)
Definition signed_rep (x : Z) : Z := let c := as_canonical x in if c <? 2 ^ 25 then c else c - order.

(** The order of timestamps: by the high half, then by the low half, where a
    low half slightly below zero comes first. *)
Definition time_of (t : list Z) : Z :=
  match t with
  | high :: low :: _ => signed_rep high * order + as_canonical (low + 2 ^ 24)
  | _ => 0
  end.

Lemma canonical_small x k : x ≐ k -> 0 <= k < order -> as_canonical x = k.
Proof. intros E Hk. unfold as_canonical. rewrite E. now apply Z.mod_small. Qed.

Lemma signed_rep_small x k : x ≐ k -> - 2 ^ 24 <= k < 2 ^ 25 -> signed_rep x = k.
Proof.
  pose proof order_large. intros E Hk. unfold signed_rep. destruct (Z.ltb_spec k 0).
  - rewrite (canonical_small x (k + order)); [case_bool; lia| |lia].
    rewrite E. apply feq_exists. exists (-1). lia.
  - rewrite (canonical_small x k) by (done || lia). case_bool; lia.
Qed.

#[global] Instance signed_rep_feq : Proper (feq ==> eq) signed_rep.
Proof. intros x y E. unfold signed_rep, as_canonical. now rewrite E. Qed.

Lemma time_low h h' l l' k d ts ts' : h ≐ h' -> l ≐ k -> l' ≐ k - 1 - d -> 0 <= k < 2 ^ 25 -> 0 <= d < 2 ^ 24 ->
  time_of (h' :: l' :: ts') < time_of (h :: l :: ts).
Proof.
  pose proof order_large. intros Eh El El' Hk Hd. unfold time_of. rewrite Eh.
  rewrite (canonical_small (l + _) (k + 2 ^ 24)) by (lia || now rewrite El).
  rewrite (canonical_small (l' + _) (k - 1 - d + 2 ^ 24)) by (lia || now rewrite El'). lia.
Qed.

Lemma time_high h h' l l' k d ts ts' : h ≐ k -> h' ≐ k - 1 - d -> 0 <= k < 2 ^ 25 -> 0 <= d < 2 ^ 24 ->
  time_of (h' :: l' :: ts') < time_of (h :: l :: ts).
Proof.
  pose proof order_large. intros Eh Eh' Hk Hd. unfold time_of.
  rewrite (signed_rep_small h k), (signed_rep_small h' (k - 1 - d)) by (done || lia).
  assert (Ho : 0 < order) by lia.
  pose proof (Z.mod_pos_bound (l + 2 ^ 24) order Ho). pose proof (Z.mod_pos_bound (l' + 2 ^ 24) order Ho).
  unfold as_canonical. nia.
Qed.

Lemma limb_base_not_zero : 1 ≪ 16 ≭ 0.
Proof. apply base_not_zero. Qed.

(** The limbs of a difference, range-checked. *)
Lemma diff_sound lo hi r : r ≐ 1 ->
  sat_call (send_byte (ByteOpcode.as_u8 ByteOpcode.Range) lo 16 0 r) ->
  sat_call (send_byte (ByteOpcode.as_u8 ByteOpcode.U8Range) 0 hi 0 r) ->
  exists d, 0 <= d < 2 ^ 24 /\ lo + hi * (1 ≪ 16) ≐ d.
Proof.
  intros Hr Hl Hh. destruct (sat_range 16 lo 16 0 r Hl Hr) as (l & Bl & El); [reflexivity|lia|].
  destruct (sat_send_op ByteOpcode.U8Range _ _ _ _ Hh Hr) as (e & Hok & Ho & _ & Eh & _).
  unfold event_ok in Hok. rewrite Ho in Hok. destruct Hok as (Bh & _ & _).
  exists (l + ev_b e * (1 ≪ 16)). split; [change (1 ≪ 16) with 65536; unfold fits in *; lia|].
  now rewrite El, Eh.
Qed.

Lemma register_timestamp_sound ts r clk : r ≐ 1 -> sat (eval_register_access_timestamp ts r clk) ->
  exists d, 0 <= d < 2 ^ 24 /\ RegisterAccessTimestamp.prev_low ts ≐ clk - 1 - d.
Proof.
  intros Hr Hs. unfold eval_register_access_timestamp in Hs. rewrite !sat_cons in Hs.
  destruct Hs as (Hl & Hh & _). destruct (diff_sound _ _ r Hr Hl Hh) as (d & Hd & E).
  exists d. split; [done|]. rewrite <- Z.mul_assoc, (finv_mul _ limb_base_not_zero) in E.
  rewrite <- E. apply feq_exists. exists 0. lia.
Qed.

Lemma memory_timestamp_sound ts r clk_high clk_low : r ≐ 1 ->
  sat (eval_memory_access_timestamp ts r clk_high clk_low) ->
  exists d, 0 <= d < 2 ^ 24 /\
    ((clk_high ≐ MemoryAccessTimestamp.prev_high ts /\ MemoryAccessTimestamp.prev_low ts ≐ clk_low - 1 - d) \/
     MemoryAccessTimestamp.prev_high ts ≐ clk_high - 1 - d).
Proof.
  intros Hr Hs. unfold eval_memory_access_timestamp in Hs. rewrite !sat_cons in Hs.
  destruct Hs as (Hb & He & Hd & Hl & Hh & _). destruct (diff_sound _ _ r Hr Hl Hh) as (d & Bd & E).
  assert (R : r ≭ 0) by (rewrite Hr; apply one_not_zero).
  apply holds_when, holds_assert_eq in Hd; [|done]. apply holds_when, holds_assert_bool in Hb; [|done].
  rewrite E in Hd. exists d. split; [done|]. unfold if_else in Hd. destruct Hb as [Ec|Ec]; rewrite Ec in Hd.
  - right. rewrite <- Hd. apply feq_exists. exists 0. lia.
  - left. apply holds_when in He; [|done]. apply holds_when, holds_assert_eq in He; [|rewrite Ec; apply one_not_zero].
    split; [done|]. rewrite <- Hd. apply feq_exists. exists 0. lia.
Qed.
End Time.

Section Accesses.
Context `{AirBuilder}.

Lemma register_access_time h l addr cols w r kl : r ≐ 1 -> l ≐ kl -> 0 <= kl < 2 ^ 25 ->
  sat (eval_register_access_write h l addr cols w r) ->
  forall ts ts', time_of (h :: RegisterAccessTimestamp.prev_low (RegisterAccessCols.access_timestamp cols) :: ts')
    < time_of (h :: l :: ts).
Proof.
  intros Hr El Hk Hs ts ts'. unfold eval_register_access_write in Hs. rewrite sat_cons, sat_app in Hs.
  destruct Hs as (_ & Hs & _). destruct (register_timestamp_sound _ r l Hr Hs) as (d & Hd & E).
  rewrite El in E. now apply (time_low h h l _ kl d).
Qed.

Lemma memory_access_time h l addr cols w r kh kl : r ≐ 1 -> h ≐ kh -> l ≐ kl -> 0 <= kh < 2 ^ 25 -> 0 <= kl < 2 ^ 25 ->
  sat (eval_memory_access_write h l addr cols w r) ->
  forall ts ts', time_of (MemoryAccessTimestamp.prev_high (MemoryAccessCols.access_timestamp cols) ::
    MemoryAccessTimestamp.prev_low (MemoryAccessCols.access_timestamp cols) :: ts') < time_of (h :: l :: ts).
Proof.
  intros Hr Eh El Hkh Hkl Hs ts ts'. unfold eval_memory_access_write in Hs. rewrite sat_cons, sat_app in Hs.
  destruct Hs as (_ & Hs & _). destruct (memory_timestamp_sound _ r h l Hr Hs) as (d & Hd & [[E1 E2]|E]).
  - rewrite El in E2. now apply (time_low _ _ _ _ kl d).
  - rewrite Eh in E. now apply (time_high h _ l _ kh d).
Qed.

(** The recorded limbs of a difference below [2^24]. *)
Lemma diff_complete d lo hi r : 0 <= d < 2 ^ 24 -> r ≐ 1 -> lo ≐ u16 (Z.land d 0xFFFF) -> hi ≐ u8 (d ≫ 16) ->
  complete [send_byte (ByteOpcode.as_u8 ByteOpcode.Range) lo 16 0 r;
            send_byte (ByteOpcode.as_u8 ByteOpcode.U8Range) 0 hi 0 r]
    (add_u8_range_check (add_bit_range_check [] (u16 (Z.land d 0xFFFF)) 16) (u8 (d ≫ 16)) 0).
Proof.
  intros Hd Hr Elo Ehi. apply complete_send; try reflexivity; try assumption.
  - apply event_ok_range; [lia|auto with ints].
  - apply complete_send; try reflexivity; try assumption; [|apply complete_nil].
    unfold event_ok. simpl. split; [auto with ints|]. split; [unfold fits; lia|done].
Qed.

Lemma diff_limbs d : 0 <= d < 2 ^ 24 -> u16 (Z.land d 0xFFFF) + u8 (d ≫ 16) * (1 ≪ 16) = d.
Proof.
  intros Hd. change (1 ≪ 16) with (2 ^ 16). rewrite low_limb, Z.shiftr_div_pow2 by lia. unfold_ints. lia_mod.
Qed.

(** The halves of a timestamp. *)
Lemma ts_high t : fits 48 t -> u32 (t ≫ 24) = t / 2 ^ 24.
Proof. intros Ht. rewrite Z.shiftr_div_pow2 by lia. unfold_ints. lia_mod. Qed.
Lemma ts_low t : u32 (Z.land t 0xFFFFFF) = t mod 2 ^ 24.
Proof. change 0xFFFFFF with (Z.ones 24). rewrite Z.land_ones by lia. unfold_ints. lia_mod. Qed.

Lemma register_timestamp_complete prev cur clk : fits 48 prev -> fits 48 cur -> prev < cur ->
  (prev / 2 ^ 24 = cur / 2 ^ 24 \/ 0 < cur mod 2 ^ 24) -> clk ≐ cur mod 2 ^ 24 ->
  let '(cols, events) := RegisterAccessTimestamp.populate_timestamp [] prev cur in
  RegisterAccessTimestamp.prev_low cols = (if prev / 2 ^ 24 =? cur / 2 ^ 24 then prev mod 2 ^ 24 else 0) /\
  complete (eval_register_access_timestamp cols 1 clk) events.
Proof.
  intros Hp Hc Hlt Hh Eclk. unfold RegisterAccessTimestamp.populate_timestamp.
  rewrite !ts_high, !ts_low by done. set (old := if _ =? _ then _ else _). split; [done|].
  assert (Bo : 0 <= old < cur mod 2 ^ 24).
  { subst old. unfold fits in *. destruct (Z.eqb_spec (prev / 2 ^ 24) (cur / 2 ^ 24)); lia_mod. }
  set (d := cur mod 2 ^ 24 - old - 1). assert (Bd : 0 <= d < 2 ^ 24) by (subst d; lia_mod).
  replace (u32 d) with d by (symmetry; apply wrap_small; unfold fits; lia).
  apply diff_complete; [done|reflexivity|reflexivity|]. cbn [RegisterAccessTimestamp.prev_low RegisterAccessTimestamp.diff_low_limb].
  rewrite Eclk. fold d. rewrite <- (diff_limbs d Bd) at 1.
  rewrite Z.add_simpl_l, <- Z.mul_assoc, (Z.mul_comm (1 ≪ 16)), (finv_mul _ limb_base_not_zero). now rewrite Z.mul_1_r.
Qed.

Lemma memory_timestamp_complete prev cur h l : fits 48 prev -> fits 48 cur -> prev < cur ->
  h ≐ cur / 2 ^ 24 -> l ≐ cur mod 2 ^ 24 ->
  exists cols events, MemoryAccessTimestamp.populate_timestamp [] prev cur = Some (cols, events) /\
    MemoryAccessTimestamp.prev_high cols = prev / 2 ^ 24 /\ MemoryAccessTimestamp.prev_low cols = prev mod 2 ^ 24 /\
    complete (eval_memory_access_timestamp cols 1 h l) events.
Proof.
  intros Hp Hc Hlt Eh El. unfold MemoryAccessTimestamp.populate_timestamp.
  rewrite (proj2 (Z.ltb_lt prev cur) Hlt), !ts_high, !ts_low by done. eexists _, _. split; [reflexivity|].
  cbn [MemoryAccessTimestamp.prev_high MemoryAccessTimestamp.prev_low]. do 2 (split; [done|]).
  set (low := prev / 2 ^ 24 =? cur / 2 ^ 24).
  set (d := (if low then cur mod 2 ^ 24 else cur / 2 ^ 24) - (if low then prev mod 2 ^ 24 else prev / 2 ^ 24) - 1).
  assert (Bd : 0 <= d < 2 ^ 24).
  { subst d low. unfold fits in *. destruct (Z.eqb_spec (prev / 2 ^ 24) (cur / 2 ^ 24)); lia_mod. }
  replace (u32 d) with d by (symmetry; apply wrap_small; unfold fits; lia).
  unfold eval_memory_access_timestamp. cbn [MemoryAccessTimestamp.prev_high MemoryAccessTimestamp.prev_low
    MemoryAccessTimestamp.compare_low MemoryAccessTimestamp.diff_low_limb MemoryAccessTimestamp.diff_high_limb].
  apply complete_assert; [apply holds_when; intros _; apply holds_assert_bool; destruct low; [right|left]; reflexivity|].
  apply complete_assert; [|apply complete_assert; [|now apply diff_complete]].
  - apply holds_when. intros _. apply holds_when. intros Hl. apply holds_assert_eq. rewrite Eh.
    subst low. destruct (Z.eqb_spec (prev / 2 ^ 24) (cur / 2 ^ 24)) as [E|]; [now rewrite E|now destruct Hl].
  - apply holds_when. intros _. apply holds_assert_eq. rewrite diff_limbs by done. unfold if_else.
    rewrite Eh, El. subst d. apply feq_exists. exists 0. destruct low; simpl from_bool; lia.
Qed.

Lemma complete_access k p c r : k <> InteractionKind.Byte -> complete (access_calls k p c r) [].
Proof. intros Hk. apply complete_send_other; [done|]. apply complete_receive, complete_nil. Qed.

Lemma register_access_complete h l addr record w :
  let prev := MemoryRecord.timestamp (MemoryRecordEnum.previous_record record) in
  let cur := MemoryRecord.timestamp (MemoryRecordEnum.current_record record) in
  fits 48 prev -> fits 48 cur -> prev < cur ->
  (prev / 2 ^ 24 = cur / 2 ^ 24 \/ 0 < cur mod 2 ^ 24) -> l ≐ cur mod 2 ^ 24 ->
  let '(cols, events) := RegisterAccessCols.populate record [] in
  complete (eval_register_access_write h l addr cols w 1) events.
Proof.
  intros prev cur Hp Hc Hlt Hh El. unfold RegisterAccessCols.populate. fold prev cur.
  pose proof (register_timestamp_complete prev cur l Hp Hc Hlt Hh El) as T.
  destruct (RegisterAccessTimestamp.populate_timestamp [] prev cur) as [ts events]. destruct T as [_ T].
  apply complete_assert; [now apply holds_assert_bool; right|]. rewrite <- (app_nil_r events).
  apply complete_app; [exact T|now apply complete_access].
Qed.

Lemma memory_access_complete h l addr record w :
  let prev := MemoryRecord.timestamp (MemoryRecordEnum.previous_record record) in
  let cur := MemoryRecord.timestamp (MemoryRecordEnum.current_record record) in
  fits 48 prev -> fits 48 cur -> prev < cur -> h ≐ cur / 2 ^ 24 -> l ≐ cur mod 2 ^ 24 ->
  exists cols events, MemoryAccessCols.populate record [] = Some (cols, events) /\
    complete (eval_memory_access_write h l addr cols w 1) events.
Proof.
  intros prev cur Hp Hc Hlt Eh El. unfold MemoryAccessCols.populate. fold prev cur.
  destruct (memory_timestamp_complete prev cur h l Hp Hc Hlt Eh El) as (ts & events & -> & _ & _ & T).
  eexists _, _. split; [reflexivity|].
  apply complete_assert; [now apply holds_assert_bool; right|]. rewrite <- (app_nil_r events).
  apply complete_app; [exact T|now apply complete_access].
Qed.
End Accesses.

Section Ordered.
Context `{AirBuilder}.

(** C29. Accesses move forward in time.  On a row whose clock limbs are in
    range, an active memory or register access puts on the memory bus one
    tuple, later than the one tuple it takes off; and for a record of the
    executor whose access is later than the previous one (within the same
    [2^24] window, or not at its start, for a register), [populate] gives
    columns that satisfy the constraints with exactly the recorded lookups. *)
Theorem accesses_move_forward h l kh kl addr w : h ≐ kh -> l ≐ kl -> fits 24 kh -> fits 24 kl ->
  (forall cols r, r ≐ 1 -> sat (eval_memory_access_write h l addr cols w r) -> exists p c,
     sends InteractionKind.Memory (eval_memory_access_write h l addr cols w r) = [p] /\
     receives InteractionKind.Memory (eval_memory_access_write h l addr cols w r) = [c] /\
     time_of (values p) < time_of (values c)) /\
  (forall cols r, r ≐ 1 -> sat (eval_register_access_write h l addr cols w r) -> exists p c,
     sends InteractionKind.Memory (eval_register_access_write h l addr cols w r) = [p] /\
     receives InteractionKind.Memory (eval_register_access_write h l addr cols w r) = [c] /\
     time_of (values p) < time_of (values c)) /\
  (forall record, let prev := MemoryRecord.timestamp (MemoryRecordEnum.previous_record record) in
     MemoryRecord.timestamp (MemoryRecordEnum.current_record record) = kh * 2 ^ 24 + kl ->
     0 <= prev < kh * 2 ^ 24 + kl ->
     (exists cols events, MemoryAccessCols.populate record [] = Some (cols, events) /\
        complete (eval_memory_access_write h l addr cols w 1) events) /\
     (prev / 2 ^ 24 = kh \/ 0 < kl ->
      let '(cols, events) := RegisterAccessCols.populate record [] in
      complete (eval_register_access_write h l addr cols w 1) events)).
Proof.
  intros Eh El Bh Bl. unfold fits in Bh, Bl. split; [|split].
  - intros cols r Hr Hs. eexists _, _. do 2 (split; [reflexivity|]).
    exact (memory_access_time h l addr cols w r kh kl Hr Eh El ltac:(lia) ltac:(lia) Hs _ _).
  - intros cols r Hr Hs. eexists _, _. do 2 (split; [reflexivity|]).
    exact (register_access_time h l addr cols w r kl Hr El ltac:(lia) Hs _ _).
  - intros record prev Ec Hp.
    assert (E : (kh * 2 ^ 24 + kl) / 2 ^ 24 = kh /\ (kh * 2 ^ 24 + kl) mod 2 ^ 24 = kl) by lia_mod.
    destruct E as [E1 E2]. split.
    + apply memory_access_complete; rewrite ?Ec, ?E1, ?E2; unfold fits; try lia; assumption.
    + intros Hw. apply register_access_complete; rewrite ?Ec, ?E1, ?E2; unfold fits; try lia; assumption.
Qed.
End Ordered.

Lemma accesses_move_forward_witness :
  let record := MemoryRecordEnum.Read (MemoryReadRecord.mk 77 (3 * 2 ^ 24 + 42) (2 * 2 ^ 24 + 9) None) in
  exists cols events, MemoryAccessCols.populate record [] = Some (cols, events) /\
    complete (eval_memory_access_write 3 42 (5, 0, 0) cols (Word_from_u64 77) 1) events.
Proof.
  refine (proj1 (proj2 (proj2 (accesses_move_forward 3 42 3 42 (5, 0, 0) (Word_from_u64 77) _ _ _ _)) _ _ _)).
  - reflexivity.
  - reflexivity.
  - unfold fits. lia.
  - unfold fits. lia.
  - reflexivity.
  - cbn. lia.
Defined.
