(* ===== verification/Adapters.v ===== *)
(** * Adapters: the processor state and the operand readers

    What the instruction chips share ([adapter] of [core/machine]): the
    columns of an instruction and the program bus ([program/instruction.rs],
    [air/program.rs]), the processor state on the state bus
    ([adapter/state.rs]) and the four readers ([adapter/register]), which
    look an instruction up and access its operand registers. *)
From Stdlib Require Import ZArith Lia Bool.
From stdpp Require Import base numbers option list.
From S2P Require Import Prelude Isa State Air KoalaBear ByteTable WordAir AddOps BitOps Bus MemAir.

(** The public values of a shard proof that the modelled code reads
    ([hypercube/src/air/public_values.rs]); arrays are functions of the index. *)
Class ShardPublicValues := {
  pc_start : Z * Z * Z;
  pv_next_pc : Z * Z * Z;
  is_execution_shard : Z;
  initial_timestamp : nat -> Z;
  last_timestamp : nat -> Z;
  is_timestamp_high_eq : Z;
  inv_timestamp_high : Z;
  is_timestamp_low_eq : Z;
  inv_timestamp_low : Z;
  initial_timestamp_inv : Z;
  last_timestamp_inv : Z;
  is_first_shard : Z;
  is_untrusted_programs_enabled : Z }.

(** ** Instructions on the program bus *)

Module InstructionCols.
Record t := mk { opcode : Z; op_a : Z; op_b : Word; op_c : Word; op_a_0 : Z; imm_b : Z; imm_c : Z }.

Definition populate (instruction : Instruction.t) : t :=
  mk (Opcode.as_field (Instruction.opcode instruction)) (Instruction.op_a instruction)
     (Word_from_u64 (Instruction.op_b instruction)) (Word_from_u64 (Instruction.op_c instruction))
     (from_bool (Instruction.op_a instruction =? 0))
     (from_bool (Instruction.imm_b instruction)) (from_bool (Instruction.imm_c instruction)).

Definition into_iter (i : t) : list Z :=
  [opcode i] ++ [op_a i] ++ word_limbs (op_b i) ++ word_limbs (op_c i) ++ [op_a_0 i] ++ [imm_b i] ++ [imm_c i].
End InstructionCols.

Definition program_values (pc : Z * Z * Z) (instruction : InstructionCols.t) : list Z :=
  addr_limbs pc ++ InstructionCols.into_iter instruction.
Definition send_program (pc : Z * Z * Z) (instruction : InstructionCols.t) (multiplicity : Z) : call :=
  Send (mkInteraction (program_values pc instruction) multiplicity InteractionKind.Program).
Definition receive_program (pc : Z * Z * Z) (instruction : InstructionCols.t) (multiplicity : Z) : call :=
  Receive (mkInteraction (program_values pc instruction) multiplicity InteractionKind.Program).

Definition fetch_values (pc : Z * Z * Z) (instruction : InstructionCols.t) (instruction_field_consts : list Z)
  (clk : Z * Z) : list Z :=
  program_values pc instruction ++ instruction_field_consts ++ [clk.1; clk.2].
Definition send_instruction_fetch (pc : Z * Z * Z) (instruction : InstructionCols.t)
  (instruction_field_consts : list Z) (clk : Z * Z) (multiplicity : Z) : call :=
  Send (mkInteraction (fetch_values pc instruction instruction_field_consts clk) multiplicity
    InteractionKind.InstructionFetch).
Definition receive_instruction_fetch (pc : Z * Z * Z) (instruction : InstructionCols.t)
  (instruction_field_consts : list Z) (clk : Z * Z) (multiplicity : Z) : call :=
  Receive (mkInteraction (fetch_values pc instruction instruction_field_consts clk) multiplicity
    InteractionKind.InstructionFetch).

Definition decode_values (word : Z * Z) (instruction : InstructionCols.t) (instruction_field_consts : list Z) :
  list Z :=
  [word.1; word.2] ++ InstructionCols.into_iter instruction ++ instruction_field_consts.
Definition send_instruction_decode (word : Z * Z) (instruction : InstructionCols.t)
  (instruction_field_consts : list Z) (multiplicity : Z) : call :=
  Send (mkInteraction (decode_values word instruction instruction_field_consts) multiplicity
    InteractionKind.InstructionDecode).
Definition receive_instruction_decode (word : Z * Z) (instruction : InstructionCols.t)
  (instruction_field_consts : list Z) (multiplicity : Z) : call :=
  Receive (mkInteraction (decode_values word instruction instruction_field_consts) multiplicity
    InteractionKind.InstructionDecode).

(** ** The processor state *)

Definition state_values (clk_high clk_low : Z) (pc : Z * Z * Z) : list Z := [clk_high] ++ [clk_low] ++ addr_limbs pc.
Definition send_state (clk_high clk_low : Z) (pc : Z * Z * Z) (multiplicity : Z) : call :=
  Send (mkInteraction (state_values clk_high clk_low pc) multiplicity InteractionKind.State).
Definition receive_state (clk_high clk_low : Z) (pc : Z * Z * Z) (multiplicity : Z) : call :=
  Receive (mkInteraction (state_values clk_high clk_low pc) multiplicity InteractionKind.State).

(** The 48-bit program counter in three limbs. *)
Definition pc_limbs (pc : Z) : Z * Z * Z :=
  (u16 (Z.land pc 0xFFFF), u16 (Z.land (pc ≫ 16) 0xFFFF), u16 (Z.land (pc ≫ 32) 0xFFFF)).

Module CPUState.
Record t := mk { clk_high : Z; clk_16_24 : Z; clk_0_16 : Z; pc : Z * Z * Z }.
Definition zero : t := mk 0 0 0 (0, 0, 0).

Definition clk_low (s : t) : Z := clk_0_16 s + clk_16_24 s * (1 ≪ 16).

Definition populate (blu_events : list ByteLookupEvent) (clk pc : Z) : t * list ByteLookupEvent :=
  let clk_high := u32 (clk ≫ 24) in
  let clk_16_24 := u8 (Z.land (clk ≫ 16) 0xFF) in
  let clk_0_16 := u16 (Z.land clk 0xFFFF) in
  (mk clk_high clk_16_24 clk_0_16 (pc_limbs pc),
   add_u8_range_checks (add_bit_range_check blu_events (u16 (clk_0_16 - 1) / 8) 13) [clk_16_24; 0]).

Definition eval `{PrimeField} (cols : t) (next_pc : Z * Z * Z) (clk_increment is_real : Z) : list call :=
  [Assert (AssertBool is_real);
   receive_state (clk_high cols) (clk_low cols) (pc cols) is_real;
   send_state (clk_high cols) (clk_low cols + clk_increment) next_pc is_real;
   send_byte (ByteOpcode.as_u8 ByteOpcode.Range) ((clk_0_16 cols - 1) * finv 8) 13 0 is_real] ++
  slice_range_check_u8 [clk_16_24 cols; 0] is_real.
End CPUState.

(** ** The readers *)

(** A row runs a trusted program, looked up in the program table, or an
    untrusted one, if the public values allow those. *)
Definition trust_calls `{ShardPublicValues} (is_real is_trusted : Z) : list call :=
  let is_untrusted := is_real - is_trusted in
  [Assert (AssertBool is_real); Assert (AssertBool is_untrusted); Assert (AssertBool is_trusted);
   Assert (AssertEq (is_untrusted + is_trusted) is_real);
   Assert (When is_untrusted (AssertOne is_untrusted_programs_enabled))].

Definition lookup_calls (clk_high clk_low : Z) (pc : Z * Z * Z) (instruction : InstructionCols.t)
  (instr_field_consts : list Z) (is_real is_trusted : Z) : list call :=
  [send_program pc instruction is_trusted;
   send_instruction_fetch pc instruction instr_field_consts (clk_high, clk_low) (is_real - is_trusted)].

(** The register [r] as an address. *)
Definition register_addr (r : Z) : Z * Z * Z := (r, 0, 0).

Module RTypeReader.
Record t := mk {
  op_a : Z; op_a_memory : RegisterAccessCols.t; op_a_0 : Z;
  op_b : Z; op_b_memory : RegisterAccessCols.t;
  op_c : Z; op_c_memory : RegisterAccessCols.t;
  is_trusted : Z }.
Definition zero : t := mk 0 RegisterAccessCols.zero 0 0 RegisterAccessCols.zero 0 RegisterAccessCols.zero 0.

Definition populate (blu_events : list ByteLookupEvent) (record : RTypeRecord.t) : t * list ByteLookupEvent :=
  let '(op_a_memory, blu_events) := RegisterAccessCols.populate (RTypeRecord.a record) blu_events in
  let '(op_b_memory, blu_events) := RegisterAccessCols.populate (RTypeRecord.b record) blu_events in
  let '(op_c_memory, blu_events) := RegisterAccessCols.populate (RTypeRecord.c record) blu_events in
  (mk (RTypeRecord.op_a record) op_a_memory (from_bool (RTypeRecord.op_a record =? 0))
      (RTypeRecord.op_b record) op_b_memory (RTypeRecord.op_c record) op_c_memory
      (from_bool (negb (RTypeRecord.is_untrusted record))), blu_events).

Definition prev_a (cols : t) : Word := RegisterAccessCols.prev_value (op_a_memory cols).
Definition b (cols : t) : Word := RegisterAccessCols.prev_value (op_b_memory cols).
Definition c (cols : t) : Word := RegisterAccessCols.prev_value (op_c_memory cols).

Definition instruction (opcode : Z) (cols : t) : InstructionCols.t :=
  InstructionCols.mk opcode (op_a cols) (extend_expr (op_b cols)) (extend_expr (op_c cols)) (op_a_0 cols) 0 0.

Definition eval `{PrimeField} `{ShardPublicValues} (clk_high clk_low : Z) (pc : Z * Z * Z) (opcode : Z)
  (instr_field_consts : list Z) (op_a_write_value : Word) (cols : t) (is_real : Z) : list call :=
  trust_calls is_real (is_trusted cols) ++
  lookup_calls clk_high clk_low pc (instruction opcode cols) instr_field_consts is_real (is_trusted cols) ++
  when_all (op_a_0 cols) (assert_word_eq op_a_write_value word_zero) ++
  eval_register_access_write clk_high (clk_low + MemoryAccessPosition.as_u64 MemoryAccessPosition.A)
    (register_addr (op_a cols)) (op_a_memory cols) op_a_write_value is_real ++
  eval_register_access_read clk_high (clk_low + MemoryAccessPosition.as_u64 MemoryAccessPosition.B)
    (register_addr (op_b cols)) (op_b_memory cols) is_real ++
  eval_register_access_read clk_high (clk_low + MemoryAccessPosition.as_u64 MemoryAccessPosition.C)
    (register_addr (op_c cols)) (op_c_memory cols) is_real.

Definition eval_op_a_immutable `{PrimeField} `{ShardPublicValues} (clk_high clk_low : Z) (pc : Z * Z * Z) (opcode : Z)
  (instr_field_consts : list Z) (cols : t) (is_real : Z) : list call :=
  eval clk_high clk_low pc opcode instr_field_consts (prev_a cols) cols is_real.
End RTypeReader.

Module ALUTypeReader.
Record t := mk {
  op_a : Z; op_a_memory : RegisterAccessCols.t; op_a_0 : Z;
  op_b : Z; op_b_memory : RegisterAccessCols.t;
  op_c : Word; op_c_memory : RegisterAccessCols.t;
  imm_c : Z; is_trusted : Z }.
Definition zero : t := mk 0 RegisterAccessCols.zero 0 0 RegisterAccessCols.zero word_zero RegisterAccessCols.zero 0 0.

(** The columns of an immediate [op_c] start zeroed, but for its value. *)
Definition populate (blu_events : list ByteLookupEvent) (record : ALUTypeRecord.t) : t * list ByteLookupEvent :=
  let '(op_a_memory, blu_events) := RegisterAccessCols.populate (ALUTypeRecord.a record) blu_events in
  let '(op_b_memory, blu_events) := RegisterAccessCols.populate (ALUTypeRecord.b record) blu_events in
  let op_c := Word_from_u64 (ALUTypeRecord.op_c record) in
  let '(op_c_memory, blu_events) :=
    match ALUTypeRecord.c record with
    | None => (RegisterAccessCols.mk op_c RegisterAccessTimestamp.zero, blu_events)
    | Some c => RegisterAccessCols.populate c blu_events
    end in
  (mk (ALUTypeRecord.op_a record) op_a_memory (from_bool (ALUTypeRecord.op_a record =? 0))
      (ALUTypeRecord.op_b record) op_b_memory op_c op_c_memory
      (from_bool (match ALUTypeRecord.c record with None => true | Some _ => false end))
      (from_bool (negb (ALUTypeRecord.is_untrusted record))), blu_events).

Definition prev_a (cols : t) : Word := RegisterAccessCols.prev_value (op_a_memory cols).
Definition b (cols : t) : Word := RegisterAccessCols.prev_value (op_b_memory cols).
Definition c (cols : t) : Word := RegisterAccessCols.prev_value (op_c_memory cols).

Definition instruction (opcode : Z) (cols : t) : InstructionCols.t :=
  InstructionCols.mk opcode (op_a cols) (extend_expr (op_b cols)) (op_c cols) (op_a_0 cols) 0 (imm_c cols).

Definition eval_alu_reader `{PrimeField} `{ShardPublicValues} (clk_high clk_low : Z) (pc : Z * Z * Z) (opcode : Z)
  (instr_field_consts : list Z) (op_a_write_value : Word) (cols : t) (is_real : Z) : list call :=
  trust_calls is_real (is_trusted cols) ++
  Assert (when_not is_real (AssertEq (imm_c cols) 0)) ::
  lookup_calls clk_high clk_low pc (instruction opcode cols) instr_field_consts is_real (is_trusted cols) ++
  when_all (op_a_0 cols) (assert_word_eq op_a_write_value word_zero) ++
  eval_register_access_write clk_high (clk_low + MemoryAccessPosition.as_u64 MemoryAccessPosition.A)
    (register_addr (op_a cols)) (op_a_memory cols) op_a_write_value is_real ++
  eval_register_access_read clk_high (clk_low + MemoryAccessPosition.as_u64 MemoryAccessPosition.B)
    (register_addr (op_b cols)) (op_b_memory cols) is_real ++
  eval_register_access_read clk_high (clk_low + MemoryAccessPosition.as_u64 MemoryAccessPosition.C)
    (register_addr (op_c cols).[0]) (op_c_memory cols) (is_real - imm_c cols) ++
  when_all (imm_c cols) (assert_word_eq (c cols) (op_c cols)).

Definition eval_op_a_immutable `{PrimeField} `{ShardPublicValues} (clk_high clk_low : Z) (pc : Z * Z * Z) (opcode : Z)
  (instr_field_consts : list Z) (cols : t) (is_real : Z) : list call :=
  eval_alu_reader clk_high clk_low pc opcode instr_field_consts (prev_a cols) cols is_real.
End ALUTypeReader.

Module ITypeReader.
Record t := mk {
  op_a : Z; op_a_memory : RegisterAccessCols.t; op_a_0 : Z;
  op_b : Z; op_b_memory : RegisterAccessCols.t;
  op_c_imm : Word; is_trusted : Z }.
Definition zero : t := mk 0 RegisterAccessCols.zero 0 0 RegisterAccessCols.zero word_zero 0.

Definition populate (blu_events : list ByteLookupEvent) (record : ITypeRecord.t) : t * list ByteLookupEvent :=
  let '(op_a_memory, blu_events) := RegisterAccessCols.populate (ITypeRecord.a record) blu_events in
  let '(op_b_memory, blu_events) := RegisterAccessCols.populate (ITypeRecord.b record) blu_events in
  (mk (ITypeRecord.op_a record) op_a_memory (from_bool (ITypeRecord.op_a record =? 0))
      (ITypeRecord.op_b record) op_b_memory (Word_from_u64 (ITypeRecord.op_c record))
      (from_bool (negb (ITypeRecord.is_untrusted record))), blu_events).

Definition prev_a (cols : t) : Word := RegisterAccessCols.prev_value (op_a_memory cols).
Definition b (cols : t) : Word := RegisterAccessCols.prev_value (op_b_memory cols).
Definition c (cols : t) : Word := op_c_imm cols.

Definition instruction (opcode : Z) (cols : t) : InstructionCols.t :=
  InstructionCols.mk opcode (op_a cols) (extend_expr (op_b cols)) (op_c_imm cols) (op_a_0 cols) 0 1.

Definition eval `{PrimeField} `{ShardPublicValues} (clk_high clk_low : Z) (pc : Z * Z * Z) (opcode : Z)
  (instr_field_consts : list Z) (op_a_write_value : Word) (cols : t) (is_real : Z) : list call :=
  trust_calls is_real (is_trusted cols) ++
  lookup_calls clk_high clk_low pc (instruction opcode cols) instr_field_consts is_real (is_trusted cols) ++
  when_all (op_a_0 cols) (assert_word_eq op_a_write_value word_zero) ++
  eval_register_access_write clk_high (clk_low + MemoryAccessPosition.as_u64 MemoryAccessPosition.A)
    (register_addr (op_a cols)) (op_a_memory cols) op_a_write_value is_real ++
  eval_register_access_read clk_high (clk_low + MemoryAccessPosition.as_u64 MemoryAccessPosition.B)
    (register_addr (op_b cols)) (op_b_memory cols) is_real.

Definition eval_op_a_immutable `{PrimeField} `{ShardPublicValues} (clk_high clk_low : Z) (pc : Z * Z * Z) (opcode : Z)
  (instr_field_consts : list Z) (cols : t) (is_real : Z) : list call :=
  eval clk_high clk_low pc opcode instr_field_consts (prev_a cols) cols is_real.
End ITypeReader.

Module JTypeReader.
Record t := mk {
  op_a : Z; op_a_memory : RegisterAccessCols.t; op_a_0 : Z;
  op_b_imm : Word; op_c_imm : Word; is_trusted : Z }.
Definition zero : t := mk 0 RegisterAccessCols.zero 0 word_zero word_zero 0.

Definition populate (blu_events : list ByteLookupEvent) (record : JTypeRecord.t) : t * list ByteLookupEvent :=
  let '(op_a_memory, blu_events) := RegisterAccessCols.populate (JTypeRecord.a record) blu_events in
  (mk (JTypeRecord.op_a record) op_a_memory (from_bool (JTypeRecord.op_a record =? 0))
      (Word_from_u64 (JTypeRecord.op_b record)) (Word_from_u64 (JTypeRecord.op_c record))
      (from_bool (negb (JTypeRecord.is_untrusted record))), blu_events).

Definition prev_a (cols : t) : Word := RegisterAccessCols.prev_value (op_a_memory cols).
Definition b (cols : t) : Word := op_b_imm cols.
Definition c (cols : t) : Word := op_c_imm cols.

Definition instruction (opcode : Z) (cols : t) : InstructionCols.t :=
  InstructionCols.mk opcode (op_a cols) (op_b_imm cols) (op_c_imm cols) (op_a_0 cols) 1 1.

Definition eval `{PrimeField} `{ShardPublicValues} (clk_high clk_low : Z) (pc : Z * Z * Z) (opcode : Z)
  (instr_field_consts : list Z) (op_a_write_value : Word) (cols : t) (is_real : Z) : list call :=
  trust_calls is_real (is_trusted cols) ++
  lookup_calls clk_high clk_low pc (instruction opcode cols) instr_field_consts is_real (is_trusted cols) ++
  when_all (op_a_0 cols) (assert_word_eq op_a_write_value word_zero) ++
  eval_register_access_write clk_high (clk_low + MemoryAccessPosition.as_u64 MemoryAccessPosition.A)
    (register_addr (op_a cols)) (op_a_memory cols) op_a_write_value is_real.

Definition eval_op_a_immutable `{PrimeField} `{ShardPublicValues} (clk_high clk_low : Z) (pc : Z * Z * Z) (opcode : Z)
  (instr_field_consts : list Z) (cols : t) (is_real : Z) : list call :=
  eval clk_high clk_low pc opcode instr_field_consts (prev_a cols) cols is_real.
End JTypeReader.
