(* ===== verification/PageOps.v ===== *)
(** * PageOps: the permissions of a range of addresses

    [operations/page.rs] of [core/machine]: the page of an address, the
    permission check of one address, and the one of a range that spans at most
    two pages, which the precompile chips use.  An active range check forces
    every page of the range to hold all the requested permissions, and the
    columns [populate] fills for such a range satisfy the constraints. *)
From Stdlib Require Import ZArith Lia Bool.
From stdpp Require Import base numbers option list.
From S2P Require Import Prelude State Air KoalaBear ByteTable WordAir AddOps LtOps BitOps U32Ops Bus MemAir Adapters.
Import ByteOpcode (as_field).

(** [split_page_idx]: limbs of 4, 16 and 16 bits. *)
Definition split_page_idx (page_idx : Z) : Z * Z * Z :=
  (u16 (Z.land page_idx 0xF), u16 (Z.land (page_idx ≫ 4) 0xFFFF), u16 (Z.land (page_idx ≫ 20) 0xFFFF)).

Module PageOperation.
Record t := mk { addr_4_bits : Z; addr_12_bits : Z }.

Definition populate (record : list ByteLookupEvent) (addr : Z) : t * list ByteLookupEvent :=
  let addr_12_bits := Z.land addr 0xFFF in
  let addr_4_bits := Z.land (addr ≫ 12) 0xF in
  (mk addr_4_bits addr_12_bits,
   add_bit_range_check (add_bit_range_check record addr_12_bits 12) addr_4_bits 4).

(** The calls, and the limbs of the page. *)
Definition eval (addr : Z * Z * Z) (cols : t) (is_real : Z) : list call * (Z * Z * Z) :=
  ([Assert (AssertBool is_real);
    Assert (When is_real (AssertEq addr.1.1 (addr_12_bits cols + addr_4_bits cols * (1 ≪ 12))));
    send_byte (as_field ByteOpcode.Range) (addr_4_bits cols) 4 0 is_real;
    send_byte (as_field ByteOpcode.Range) (addr_12_bits cols) 12 0 is_real],
   (addr_4_bits cols, addr.1.2, addr.2)).
End PageOperation.

Module PageProtOperation.
Record t := mk { page_op : PageOperation.t; page_prot_access : PageProtAccessCols.t }.

Definition populate (record : list ByteLookupEvent) (addr clk : Z) (previous_page_prot_access : PageProtRecord.t) :
  option (t * list ByteLookupEvent) :=
  let '(page_op, record) := PageOperation.populate record addr in
  check! PageProtRecord.timestamp previous_page_prot_access <? clk;
  '(page_prot_access, record) ← PageProtAccessCols.populate previous_page_prot_access clk record;
  Some (mk page_op page_prot_access, record).

Definition eval (clk_high clk_low : Z) (addr : Z * Z * Z) (cols : t) (is_real : Z) : list call :=
  let '(calls, page_idx) := PageOperation.eval addr (page_op cols) is_real in
  Assert (AssertBool is_real) :: calls ++
  eval_page_prot_access_read clk_high clk_low page_idx (page_prot_access cols) is_real.
End PageProtOperation.

Module PageIsEqualOrAdjacentOperation.
Record t := mk { is_overflow : Z; is_adjacent : Z }.

(** [None] is the panic on pages that are neither equal nor adjacent. *)
Definition populate (curr_page_idx next_page_idx : Z) : option t :=
  is_adjacent ← (if curr_page_idx =? next_page_idx then Some 0
                 else if curr_page_idx + 1 =? next_page_idx then Some 1 else None);
  let next_page_limbs := split_page_idx next_page_idx in
  let next_page_20_bits := next_page_limbs.1.1 + (next_page_limbs.1.2 ≪ 4) in
  Some (mk (from_bool (next_page_20_bits =? 0)) is_adjacent).

Definition eval (curr_page_idx next_page_idx : Z * Z * Z) (cols : t) (is_real : Z) : list call :=
  let curr_page_20_bits := curr_page_idx.1.1 + curr_page_idx.1.2 * (1 ≪ 4) in
  let next_page_20_bits := next_page_idx.1.1 + next_page_idx.1.2 * (1 ≪ 4) in
  let adjacent k := Assert (When (is_adjacent cols) k) in
  [Assert (AssertBool is_real);
   Assert (AssertBool (is_adjacent cols));
   Assert (AssertBool (is_overflow cols));
   Assert (When is_real (when_not (is_adjacent cols) (AssertEq curr_page_20_bits next_page_20_bits)));
   Assert (When is_real (when_not (is_adjacent cols) (AssertEq curr_page_idx.2 next_page_idx.2)));
   adjacent (AssertOne is_real);
   adjacent (when_not (is_overflow cols) (AssertEq (curr_page_20_bits + 1) next_page_20_bits));
   adjacent (when_not (is_overflow cols) (AssertEq curr_page_idx.2 next_page_idx.2));
   adjacent (When (is_overflow cols) (AssertEq curr_page_20_bits ((1 ≪ 20) - 1)));
   adjacent (When (is_overflow cols) (AssertEq next_page_20_bits 0));
   adjacent (When (is_overflow cols) (AssertEq (curr_page_idx.2 + 1) next_page_idx.2))].
End PageIsEqualOrAdjacentOperation.

Module AddressSlicePageProtOperation.
Record t := mk {
  page_is_equal_or_adjacent : PageIsEqualOrAdjacentOperation.t;
  page_operations : PageOperation.t * PageOperation.t;
  page_prot_accesses : PageProtAccessCols.t * PageProtAccessCols.t;
  is_page_protect_active : Z }.

(** The columns of a row that [populate] does not touch. *)
Definition zero : t :=
  let ts := MemoryAccessTimestamp.mk 0 0 0 0 0 in
  mk (PageIsEqualOrAdjacentOperation.mk 0 0) (PageOperation.mk 0 0, PageOperation.mk 0 0)
     (PageProtAccessCols.mk 0 ts, PageProtAccessCols.mk 0 ts) 0.

Definition permission_event (permissions page_prot : Z) : ByteLookupEvent :=
  mkByteLookupEvent ByteOpcode.AND permissions permissions page_prot.

Definition populate (record : list ByteLookupEvent) (start_addr end_addr clk permissions : Z)
  (first_page_prot_access : PageProtRecord.t) (second_page_prot_access : option PageProtRecord.t)
  (is_page_protect_active : Z) : option (t * list ByteLookupEvent) :=
  let start_page_idx := start_addr / PAGE_SIZE in
  let end_page_idx := end_addr / PAGE_SIZE in
  check! (start_page_idx =? end_page_idx) || (start_page_idx + 1 =? end_page_idx);
  let '(op0, record) := PageOperation.populate record start_addr in
  let '(op1, record) := PageOperation.populate record end_addr in
  adj ← PageIsEqualOrAdjacentOperation.populate start_page_idx end_page_idx;
  '(access0, record) ← PageProtAccessCols.populate first_page_prot_access clk record;
  let record := add_byte_lookup_event record (permission_event permissions (PageProtRecord.page_prot first_page_prot_access)) in
  '(access1, record) ← match second_page_prot_access with
    | Some second =>
        check! start_page_idx + 1 =? end_page_idx;
        '(access1, record) ← PageProtAccessCols.populate second clk record;
        Some (access1, add_byte_lookup_event record (permission_event permissions (PageProtRecord.page_prot second)))
    | None => Some ((page_prot_accesses zero).2, record)
    end;
  Some (mk adj (op0, op1) (access0, access1) is_page_protect_active, record).

Definition eval `{ShardPublicValues} (clk_high clk_low : Z) (start_addr end_addr : Z * Z * Z) (permissions : Z)
  (cols : t) (is_real : Z) : list call :=
  let active := is_page_protect_active cols in
  let is_adjacent := PageIsEqualOrAdjacentOperation.is_adjacent (page_is_equal_or_adjacent cols) in
  let '(start_calls, start_page_idx) := PageOperation.eval start_addr (page_operations cols).1 active in
  let '(end_calls, end_page_idx) := PageOperation.eval end_addr (page_operations cols).2 active in
  let granted access mult :=
    send_byte (as_field ByteOpcode.AND) permissions permissions (PageProtAccessCols.prev_prot_bitmap access) mult in
  [Assert (AssertBool is_real); Assert (AssertEq active (is_untrusted_programs_enabled * is_real))] ++
  start_calls ++ end_calls ++
  eval_page_prot_access_read clk_high clk_low start_page_idx (page_prot_accesses cols).1 active ++
  [granted (page_prot_accesses cols).1 active] ++
  PageIsEqualOrAdjacentOperation.eval start_page_idx end_page_idx (page_is_equal_or_adjacent cols) active ++
  [Assert (When is_adjacent (AssertOne active))] ++
  eval_page_prot_access_read clk_high clk_low end_page_idx (page_prot_accesses cols).2 is_adjacent ++
  [granted (page_prot_accesses cols).2 is_adjacent].
End AddressSlicePageProtOperation.

(** ** Soundness *)
Section Sound.
Context `{AirBuilder} `{ShardPublicValues}.

(** The limbs of a page index, in 4, 16 and 16 bits. *)
Definition page_limbs_repr (limbs : Z * Z * Z) (p : Z) : Prop :=
  exists x y z, fits 4 x /\ is_u16 y /\ is_u16 z /\ p = x + 2 ^ 4 * y + 2 ^ 20 * z /\
    limbs.1.1 ≐ x /\ limbs.1.2 ≐ y /\ limbs.2 ≐ z.
(** The limbs of an address. *)
Definition address_repr (limbs : Z * Z * Z) (a : Z) : Prop :=
  exists l0 l1 l2, is_u16 l0 /\ is_u16 l1 /\ is_u16 l2 /\ a = l0 + 2 ^ 16 * l1 + 2 ^ 32 * l2 /\
    limbs.1.1 ≐ l0 /\ limbs.1.2 ≐ l1 /\ limbs.2 ≐ l2.

Lemma page_sound addr a cols r : address_repr addr a -> r ≐ 1 -> sat (PageOperation.eval addr cols r).1 ->
  page_limbs_repr (PageOperation.eval addr cols r).2 (a / PAGE_SIZE).
Proof.
  intros (l0 & l1 & l2 & B0 & B1 & B2 & -> & E0 & E1 & E2) Hr Hs. unfold PageOperation.eval in *. cbn [fst snd] in *.
  rewrite !sat_cons in Hs. destruct Hs as (_ & Hd & H4 & H12 & _).
  destruct (sat_range 4 _ _ _ _ H4 Hr (reflexivity _) ltac:(lia)) as (x & Bx & Ex).
  destruct (sat_range 12 _ _ _ _ H12 Hr (reflexivity _) ltac:(lia)) as (w & Bw & Ew).
  rewrite sat_assert, holds_when_real, holds_assert_eq, E0, Ex, Ew in Hd by assumption. pose proof order_large.
  change (1 ≪ 12) with 4096 in Hd. unfold fits in *. apply feq_small in Hd; [|lia].
  exists x, l1, l2. change PAGE_SIZE with 4096. cbn [fst snd]. unfold fits. split_and!; try assumption; lia_mod.
Qed.

Lemma adjacent_sound curr next p q cols r : page_limbs_repr curr p -> page_limbs_repr next q -> r ≐ 1 ->
  sat (PageIsEqualOrAdjacentOperation.eval curr next cols r) ->
  let adj := PageIsEqualOrAdjacentOperation.is_adjacent cols in
  adj ≐ 0 /\ q = p \/ adj ≐ 1 /\ q = p + 1.
Proof.
  intros (x & y & z & Bx & By & Bz & -> & X & Y & Z) (x' & y' & z' & Bx' & By' & Bz' & -> & X' & Y' & Z') Hr Hs.
  unfold PageIsEqualOrAdjacentOperation.eval in Hs. rewrite !sat_cons in Hs. cbn zeta.
  destruct Hs as (_ & Ha & Ho & E1 & E2 & _ & N1 & N2 & O1 & O2 & O3 & _).
  rewrite sat_assert in Ha, Ho, E1, E2, N1, N2, O1, O2, O3. apply holds_assert_bool in Ha, Ho.
  rewrite holds_when_real in E1, E2 by assumption. unfold when_not in *.
  rewrite holds_when_ne, holds_assert_eq in E1, E2. rewrite !holds_when in N1, N2, O1, O2, O3.
  rewrite holds_when_ne, holds_assert_eq in N1, N2. rewrite holds_when, holds_assert_eq in O1, O2, O3.
  rewrite X, Y, X', Y' in *. rewrite Z, Z' in *. pose proof order_large. pose proof one_not_zero as Hone.
  assert (Hzero : 0 ≭ 1) by (intros Hz; now apply Hone; symmetry).
  change (1 ≪ 4) with 16 in *. change (1 ≪ 20) with 1048576 in *. unfold fits in *.
  destruct Ha as [Ha|Ha]; rewrite Ha in *; [left|right]; (split; [reflexivity|]).
  - specialize (E1 Hzero). specialize (E2 Hzero). apply feq_small in E1, E2; lia.
  - specialize (N1 Hone). specialize (N2 Hone). specialize (O1 Hone). specialize (O2 Hone). specialize (O3 Hone).
    destruct Ho as [Ho|Ho]; rewrite Ho in *.
    + specialize (N1 Hzero). specialize (N2 Hzero). apply feq_small in N1, N2; lia.
    + specialize (O1 Hone). specialize (O2 Hone). specialize (O3 Hone). apply feq_small in O1, O2, O3; lia.
Qed.

(** [prot] gives the permissions that the accesses of [cs] take off the bus. *)
Definition bus_prots (prot : Z -> Z) (cs : list call) : Prop :=
  forall i limbs p high low bitmap, i ∈ sends InteractionKind.PageProtAccess cs -> multiplicity i ≐ 1 ->
  values i = [high; low] ++ addr_limbs limbs ++ [bitmap] -> page_limbs_repr limbs p -> is_u8 (prot p) /\ bitmap ≐ prot p.

Lemma bus_prots_app prot cs cs' : bus_prots prot (cs ++ cs') <-> bus_prots prot cs /\ bus_prots prot cs'.
Proof.
  unfold bus_prots. split.
  - intros Hb. split; intros i limbs p hi lo b Hi; apply (Hb i limbs p hi lo b); rewrite sends_app, elem_of_app; auto.
  - intros [Hl Hr] i limbs p hi lo b Hi. rewrite sends_app, elem_of_app in Hi. destruct Hi; [now apply Hl|now apply Hr].
Qed.

(** A page access, and the lookup that compares its permissions. *)
Lemma granted_sound prot h l page p access permissions m : m ≐ 1 -> is_u8 permissions -> page_limbs_repr page p ->
  bus_prots prot (eval_page_prot_access_read h l page access m) ->
  sat_call (send_byte (as_field ByteOpcode.AND) permissions permissions (PageProtAccessCols.prev_prot_bitmap access) m) ->
  Z.land permissions (prot p) = permissions.
Proof.
  intros Hm Hp Hpage Hb Hs. destruct page as [[p0 p1] p2].
  edestruct (Hb _ (p0, p1, p2) p _ _ _ (list_elem_of_here _ _) Hm eq_refl Hpage) as [Hu Hc].
  destruct (sat_send_op _ _ _ _ _ Hs Hm) as (e & Hok & Ho & Ea & Eb & Ec). unfold event_ok in Hok. rewrite Ho in Hok.
  destruct Hok as (Bb & Bc & Er). rewrite Hc in Ec. pose proof order_large. unfold fits in *.
  assert (Ba : 0 <= ev_a e < 2 ^ 8) by (rewrite Er; apply (bitop_u8 ByteOpcode.AND); [now left|assumption..]).
  apply feq_small in Ea, Eb, Ec; [|lia..]. congruence.
Qed.

(** With page protection on, every page of a checked range grants the
    permissions, and the range spans at most two pages. *)
Lemma slice_prot_sound prot h l start finish permissions cols r a b :
  address_repr start a -> address_repr finish b -> is_u8 permissions -> r ≐ 1 -> is_untrusted_programs_enabled ≐ 1 ->
  let cs := AddressSlicePageProtOperation.eval h l start finish permissions cols r in
  sat cs -> bus_prots prot cs ->
  Z.land permissions (prot (a / PAGE_SIZE)) = permissions /\ Z.land permissions (prot (b / PAGE_SIZE)) = permissions /\
  (b / PAGE_SIZE = a / PAGE_SIZE \/ b / PAGE_SIZE = a / PAGE_SIZE + 1).
Proof.
  intros Ha Hb Hp Hr Hu cs Hs Hbus. unfold cs, AddressSlicePageProtOperation.eval in *. clear cs.
  destruct cols as [adj [op0 op1] [ac0 ac1] active].
  cbn [AddressSlicePageProtOperation.page_is_equal_or_adjacent AddressSlicePageProtOperation.page_operations
    AddressSlicePageProtOperation.page_prot_accesses AddressSlicePageProtOperation.is_page_protect_active fst snd] in *.
  pose proof (page_sound start a op0 active Ha) as P0. pose proof (page_sound finish b op1 active Hb) as P1.
  destruct (PageOperation.eval start op0 active) as [cs0 pg0]. destruct (PageOperation.eval finish op1 active) as [cs1 pg1].
  cbn [fst snd] in *. rewrite !sat_app, !sat_cons in Hs. rewrite !bus_prots_app in Hbus.
  destruct Hs as ((_ & Hact & _) & S0 & S1 & _ & (G0 & _) & Hadj & _ & _ & G1 & _).
  destruct Hbus as (_ & _ & _ & B0 & _ & _ & _ & B1 & _).
  rewrite sat_assert, holds_assert_eq, Hu, Hr in Hact. specialize (P0 Hact S0). specialize (P1 Hact S1).
  pose proof (granted_sound prot h l pg0 _ ac0 permissions active Hact Hp P0 B0 G0) as R0.
  destruct (adjacent_sound pg0 pg1 _ _ adj active P0 P1 Hact Hadj) as [[Hz ->]|[Ho E]]; [auto|].
  split; [exact R0|]. split; [|now right]. exact (granted_sound prot h l pg1 _ ac1 permissions _ Ho Hp P1 B1 G1).
Qed.
End Sound.

(** ** Completeness *)

(** Open the filters of an assertion; one that filters a known value out is done. *)
Ltac open_filters := cbn [from_bool];
  repeat (first [rewrite holds_when | rewrite holds_when_ne]; let Hc := fresh "Hc" in intros Hc);
  try solve [match goal with Hc : ~ ?a ≐ ?a |- _ => destruct Hc; reflexivity end];
  apply holds_assert_eq.

Section Complete.
Context `{AirBuilder} `{ShardPublicValues}.

Lemma page_complete addr a : address_repr addr a ->
  complete (PageOperation.eval addr (PageOperation.populate [] a).1 1).1 (PageOperation.populate [] a).2.
Proof.
  intros (l0 & l1 & l2 & B0 & B1 & B2 & -> & E0 & E1 & E2). unfold PageOperation.populate, PageOperation.eval. cbn [fst snd].
  change 0xFFF with (Z.ones 12). change 0xF with (Z.ones 4). rewrite !Z.land_ones, Z.shiftr_div_pow2 by lia.
  set (a := l0 + _ + _). assert (Hd : l0 = a mod 2 ^ 12 + (a / 2 ^ 12) mod 2 ^ 4 * 2 ^ 12) by (unfold a, fits in *; lia_mod).
  eapply complete_perm; [apply Permutation_swap|].
  apply complete_assert; [now apply holds_assert_bool; right|].
  apply complete_assert; [apply holds_when; intros _; apply holds_assert_eq; cbn; rewrite E0; now rewrite Hd at 1|].
  do 2 (apply complete_send; [apply event_ok_range; [lia|apply Z.mod_pos_bound; lia]|reflexivity..|]). apply complete_nil.
Qed.

(** The limbs of a page, 20 bits and 16 bits. *)
Lemma split_page_low x y z : fits 4 x -> is_u16 y -> is_u16 z ->
  let limbs := split_page_idx (x + 2 ^ 4 * y + 2 ^ 20 * z) in limbs.1.1 + (limbs.1.2 ≪ 4) = x + 2 ^ 4 * y.
Proof.
  intros Bx By Bz limbs. unfold limbs, split_page_idx. cbn [fst snd].
  change 0xFFFF with (Z.ones 16). change 0xF with (Z.ones 4).
  rewrite !Z.land_ones, !Z.shiftr_div_pow2, Z.shiftl_mul_pow2 by lia. unfold u16.
  rewrite !wrap_small by (unfold fits; lia_mod). unfold fits in *. lia_mod.
Qed.

Lemma adjacent_complete curr next p q : page_limbs_repr curr p -> page_limbs_repr next q -> q = p \/ q = p + 1 ->
  exists cols, PageIsEqualOrAdjacentOperation.populate p q = Some cols /\
    PageIsEqualOrAdjacentOperation.is_adjacent cols = from_bool (bool_decide (q = p + 1)) /\
    complete (PageIsEqualOrAdjacentOperation.eval curr next cols 1) [].
Proof.
  intros (x & y & z & Bx & By & Bz & Ep & X & Y & Z) (x' & y' & z' & Bx' & By' & Bz' & Eq & X' & Y' & Z') Hq.
  unfold PageIsEqualOrAdjacentOperation.populate.
  assert (Ea : (if p =? q then Some 0 else if p + 1 =? q then Some 1 else None) = Some (from_bool (bool_decide (q = p + 1)))).
  { destruct (Z.eqb_spec p q), (Z.eqb_spec (p + 1) q); try lia; case_bool_decide; done || lia. }
  rewrite Ea. cbn [mbind option_bind].
  replace ((split_page_idx q).1.1 + ((split_page_idx q).1.2 ≪ 4)) with (x' + 2 ^ 4 * y') by (rewrite Eq; symmetry; now apply split_page_low).
  eexists. split; [reflexivity|]. split; [reflexivity|]. unfold PageIsEqualOrAdjacentOperation.eval, when_not, AssertOne.
  cbn [PageIsEqualOrAdjacentOperation.is_adjacent PageIsEqualOrAdjacentOperation.is_overflow].
  change (1 ≪ 4) with (2 ^ 4). change (1 ≪ 20) with 1048576. unfold fits in *.
  assert (Hb : forall b : bool, from_bool b ≐ 0 \/ from_bool b ≐ 1) by (intros []; [now right|now left]).
  assert (Ho : bool_decide (q = p + 1) = true -> if x' + 2 ^ 4 * y' =? 0 then x + 2 ^ 4 * y = 1048575 /\ z' = z + 1
    else x' + 2 ^ 4 * y' = x + 2 ^ 4 * y + 1 /\ z' = z).
  { intros D%bool_decide_eq_true. destruct (Z.eqb_spec (x' + 2 ^ 4 * y') 0); lia. }
  assert (S : forall u v b c, u ≐ b -> v ≐ c -> u + v * 2 ^ 4 ≐ b + 2 ^ 4 * c).
  { intros u v b c -> ->. now rewrite (Z.mul_comm c). }
  pose proof (S _ _ _ _ X Y) as C. pose proof (S _ _ _ _ X' Y') as C'.
  apply complete_assert; [apply holds_assert_bool, (Hb true)|]. do 2 (apply complete_assert; [now apply holds_assert_bool|]).
  destruct (bool_decide (q = p + 1)) eqn:D.
  - specialize (Ho eq_refl). destruct (x' + 2 ^ 4 * y' =? 0) eqn:E0; destruct Ho as [Hlow Hz];
      [apply Z.eqb_eq in E0; rewrite E0 in C'; rewrite Hlow in C|rewrite Hlow in C'].
    all: repeat (apply complete_assert; [open_filters; rewrite ?C, ?C', ?Z, ?Z', ?Hz; reflexivity|]); apply complete_nil.
  - apply bool_decide_eq_false in D. assert (Hlow : x' + 2 ^ 4 * y' = x + 2 ^ 4 * y /\ z' = z) by lia. destruct Hlow as [Hlow Hz].
    rewrite Hlow in C'.
    repeat (apply complete_assert; [open_filters; rewrite ?C, ?C', ?Z, ?Z', ?Hz; reflexivity|]); apply complete_nil.
Qed.

(** [populate] appends its lookups to those already recorded. *)
Lemma page_populate_app out a :
  PageOperation.populate out a = ((PageOperation.populate [] a).1, out ++ (PageOperation.populate [] a).2).
Proof. unfold PageOperation.populate, add_bit_range_check, add_byte_lookup_event. cbn [fst snd]. now rewrite <- app_assoc. Qed.
Lemma prot_populate_app prev clk out cols events : PageProtAccessCols.populate prev clk [] = Some (cols, events) ->
  PageProtAccessCols.populate prev clk out = Some (cols, out ++ events).
Proof.
  unfold PageProtAccessCols.populate, MemoryAccessTimestamp.populate_timestamp, add_u8_range_check, add_bit_range_check, add_byte_lookup_event.
  destruct (_ <? _); [|discriminate]. cbn [mbind option_bind]. intros E. apply (inj Some), pair_equal_spec in E as [<- <-]. now rewrite <- app_assoc.
Qed.

Lemma prot_access_complete h l page prev clk : fits 48 (PageProtRecord.timestamp prev) -> fits 48 clk ->
  PageProtRecord.timestamp prev < clk -> h ≐ clk / 2 ^ 24 -> l ≐ clk mod 2 ^ 24 ->
  exists cols events, PageProtAccessCols.populate prev clk [] = Some (cols, events) /\
    PageProtAccessCols.prev_prot_bitmap cols = PageProtRecord.page_prot prev /\
    complete (eval_page_prot_access_read h l page cols 1) events.
Proof.
  intros Hp Hc Hlt Eh El. unfold PageProtAccessCols.populate.
  destruct (memory_timestamp_complete _ _ h l Hp Hc Hlt Eh El) as (ts & events & -> & _ & _ & T).
  eexists _, _. split; [reflexivity|]. split; [reflexivity|].
  apply complete_assert; [now apply holds_assert_bool; right|]. rewrite <- (app_nil_r events).
  apply complete_app; [exact T|now apply complete_access].
Qed.

(** A page whose last access is earlier and whose permissions include those asked for. *)
Record grants (permissions clk : Z) (prev : PageProtRecord.t) : Prop := {
  grants_u8 : is_u8 (PageProtRecord.page_prot prev);
  grants_all : Z.land permissions (PageProtRecord.page_prot prev) = permissions;
  grants_timestamp : fits 48 (PageProtRecord.timestamp prev);
  grants_earlier : PageProtRecord.timestamp prev < clk }.

Lemma granted_complete h l page permissions clk prev : is_u8 permissions -> grants permissions clk prev -> fits 48 clk ->
  h ≐ clk / 2 ^ 24 -> l ≐ clk mod 2 ^ 24 ->
  exists cols events, PageProtAccessCols.populate prev clk [] = Some (cols, events) /\
    complete (eval_page_prot_access_read h l page cols 1 ++
      [send_byte (as_field ByteOpcode.AND) permissions permissions (PageProtAccessCols.prev_prot_bitmap cols) 1])
      (events ++ [AddressSlicePageProtOperation.permission_event permissions (PageProtRecord.page_prot prev)]).
Proof.
  intros Hu [Gu Ga Gt Ge] Hc Eh El. destruct (prot_access_complete h l page prev clk Gt Hc Ge Eh El) as (cols & events & E & Eb & C).
  exists cols, events. split; [exact E|]. apply complete_app; [exact C|]. rewrite Eb.
  apply complete_send; [|reflexivity..|apply complete_nil]. split; [exact Hu|]. split; [exact Gu|]. symmetry. exact Ga.
Qed.

Lemma inactive_complete h l page access op x y z :
  complete (eval_page_prot_access_read h l page access 0 ++ [send_byte op x y z 0]) [].
Proof.
  apply complete_assert; [now apply holds_assert_bool; left|]. cbn [app].
  do 3 (apply complete_assert; [apply holds_when; intros []; reflexivity|]).
  do 2 (apply complete_send_zero; [reflexivity|]). apply complete_send_other; [discriminate|]. apply complete_receive.
  apply complete_send_zero; [reflexivity|apply complete_nil].
Qed.

(** The pieces of a range check, in the order of its calls. *)
Lemma slice_prot_assemble h l start finish permissions cols ev0 ev1 e0 e1 :
  let '(AddressSlicePageProtOperation.mk adj (op0, op1) (ac0, ac1) active) := cols in
  let is_adjacent := PageIsEqualOrAdjacentOperation.is_adjacent adj in
  let granted access mult :=
    [send_byte (as_field ByteOpcode.AND) permissions permissions (PageProtAccessCols.prev_prot_bitmap access) mult] in
  active = 1 -> is_untrusted_programs_enabled ≐ 1 ->
  complete (PageOperation.eval start op0 1).1 ev0 -> complete (PageOperation.eval finish op1 1).1 ev1 ->
  complete (eval_page_prot_access_read h l (PageOperation.eval start op0 1).2 ac0 1 ++ granted ac0 1) e0 ->
  complete (PageIsEqualOrAdjacentOperation.eval (PageOperation.eval start op0 1).2 (PageOperation.eval finish op1 1).2 adj 1) [] ->
  complete (eval_page_prot_access_read h l (PageOperation.eval finish op1 1).2 ac1 is_adjacent ++ granted ac1 is_adjacent) e1 ->
  complete (AddressSlicePageProtOperation.eval h l start finish permissions cols 1) (ev0 ++ ev1 ++ e0 ++ e1).
Proof.
  destruct cols as [adj [op0 op1] [ac0 ac1] active]. cbv zeta. intros -> Hu C0 C1 G0 A G1. unfold AddressSlicePageProtOperation.eval.
  cbn [AddressSlicePageProtOperation.page_is_equal_or_adjacent AddressSlicePageProtOperation.page_operations
    AddressSlicePageProtOperation.page_prot_accesses AddressSlicePageProtOperation.is_page_protect_active fst snd].
  destruct (PageOperation.eval start op0 1) as [cs0 pg0]. destruct (PageOperation.eval finish op1 1) as [cs1 pg1]. cbn [fst snd] in *.
  do 2 (apply complete_assert; [first [now apply holds_assert_bool; right|apply holds_assert_eq; now rewrite Hu]|]).
  apply complete_app; [exact C0|]. apply complete_app; [exact C1|]. rewrite (app_assoc (eval_page_prot_access_read _ _ pg0 _ _)).
  apply complete_app; [exact G0|]. rewrite <- (app_nil_l e1). apply complete_app; [exact A|].
  apply complete_assert; [apply holds_when; intros _; now apply holds_assert_eq|exact G1].
Qed.

Lemma slice_prot_complete h l start finish permissions a b clk first second :
  address_repr start a -> address_repr finish b -> is_u8 permissions -> is_untrusted_programs_enabled ≐ 1 ->
  fits 48 clk -> h ≐ clk / 2 ^ 24 -> l ≐ clk mod 2 ^ 24 -> grants permissions clk first ->
  match second with
  | None => b / PAGE_SIZE = a / PAGE_SIZE
  | Some second => b / PAGE_SIZE = a / PAGE_SIZE + 1 /\ grants permissions clk second
  end ->
  exists cols events, AddressSlicePageProtOperation.populate [] a b clk permissions first second 1 = Some (cols, events) /\
    complete (AddressSlicePageProtOperation.eval h l start finish permissions cols 1) events.
Proof.
  intros Ha Hb Hp Hu Hc Eh El G0 G1. unfold AddressSlicePageProtOperation.populate.
  set (p := a / PAGE_SIZE) in *. set (q := b / PAGE_SIZE) in *.
  assert (Hq : q = p \/ q = p + 1) by (destruct second as [second|]; [right; apply G1|left; exact G1]).
  pose proof (page_complete start a Ha) as C0. pose proof (page_complete finish b Hb) as C1.
  pose proof (page_sound start a _ 1 Ha (reflexivity _) (complete_sat _ _ C0)) as P0.
  pose proof (page_sound finish b _ 1 Hb (reflexivity _) (complete_sat _ _ C1)) as P1. fold p in P0. fold q in P1.
  destruct (adjacent_complete _ _ p q P0 P1 Hq) as (adj & -> & Eadj & Cadj).
  rewrite (page_populate_app [] a), (page_populate_app ([] ++ _) b).
  destruct (granted_complete h l (PageOperation.eval start (PageOperation.populate [] a).1 1).2 permissions clk first Hp G0 Hc Eh El)
    as (ac0 & ev0 & Eac0 & Cac0).
  replace ((p =? q) || (p + 1 =? q)) with true by (destruct Hq as [->| ->]; rewrite Z.eqb_refl, ?orb_true_r; done).
  cbn [mbind option_bind app]. rewrite (prot_populate_app _ _ _ _ _ Eac0). cbn [mbind option_bind].
  destruct second as [second|].
  - destruct G1 as [E1 G1]. rewrite E1, Z.eqb_refl.
    destruct (granted_complete h l (PageOperation.eval finish (PageOperation.populate [] b).1 1).2 permissions clk second Hp G1 Hc Eh El)
      as (ac1 & ev1 & Eac1 & Cac1).
    rewrite (prot_populate_app _ _ _ _ _ Eac1). cbn [mbind option_bind]. eexists _, _. split; [reflexivity|].
    unfold add_byte_lookup_event. rewrite <- !(app_assoc (PageOperation.populate [] a).2), <- !app_assoc, (app_assoc ev0).
    rewrite bool_decide_true in Eadj by done.
    apply (slice_prot_assemble _ _ _ _ _ (AddressSlicePageProtOperation.mk _ (_, _) (_, _) _)); try done. now rewrite Eadj.
  - eexists _, _. split; [reflexivity|]. rewrite bool_decide_false in Eadj by lia.
    unfold add_byte_lookup_event. rewrite <- !app_assoc. rewrite <- (app_nil_r (_ ++ [_])), <- !app_assoc, (app_assoc ev0).
    apply (slice_prot_assemble _ _ _ _ _ (AddressSlicePageProtOperation.mk _ (_, _) (_, _) _)); try done.
    rewrite Eadj. apply inactive_complete.
Qed.
End Complete.

(** ** The range of a system call *)
Section Range.
Context `{AirBuilder} `{ShardPublicValues}.

(** C28. The address range of a precompile is checked.  On a real row whose
    constraints hold, the address of a system call that accesses [len] bytes
    ([SyscallAddrOperation]) is a multiple of eight, not below [2^16], with the
    whole range below [2^48]; and with page protection on, a range check
    ([AddressSlicePageProtOperation]) whose page accesses find the permissions
    [prot] spans at most two pages, and both grant all the permissions asked
    for.  [populate] satisfies the constraints, with exactly the recorded
    lookups, on every such address, and on every range of at most two pages
    that grant the permissions and were last accessed earlier. *)
Theorem address_range_checked h l start finish permissions a b :
  address_repr start a -> address_repr finish b -> is_u8 permissions ->
  (forall len, len mod 8 = 0 -> 0 <= len < 2 ^ 16 ->
    (forall cols r, r ≐ 1 -> SyscallAddrOperation.addr cols = start -> sat (SyscallAddrOperation.eval len cols r) ->
       a mod 8 = 0 /\ 2 ^ 16 <= a /\ a + len < 2 ^ 48) /\
    (a mod 8 = 0 -> 2 ^ 16 <= a -> a + len < 2 ^ 48 ->
       exists cols events, SyscallAddrOperation.populate [] a len = Some (cols, events) /\
         address_repr (SyscallAddrOperation.addr cols) a /\ complete (SyscallAddrOperation.eval len cols 1) events)) /\
  (is_untrusted_programs_enabled ≐ 1 ->
    (forall prot cols r, r ≐ 1 ->
       let cs := AddressSlicePageProtOperation.eval h l start finish permissions cols r in
       sat cs -> bus_prots prot cs ->
       Z.land permissions (prot (a / PAGE_SIZE)) = permissions /\
       Z.land permissions (prot (b / PAGE_SIZE)) = permissions /\
       (b / PAGE_SIZE = a / PAGE_SIZE \/ b / PAGE_SIZE = a / PAGE_SIZE + 1)) /\
    (forall clk first second, fits 48 clk -> h ≐ clk / 2 ^ 24 -> l ≐ clk mod 2 ^ 24 -> grants permissions clk first ->
       match second with
       | None => b / PAGE_SIZE = a / PAGE_SIZE
       | Some second => b / PAGE_SIZE = a / PAGE_SIZE + 1 /\ grants permissions clk second
       end ->
       exists cols events, AddressSlicePageProtOperation.populate [] a b clk permissions first second 1 = Some (cols, events) /\
         complete (AddressSlicePageProtOperation.eval h l start finish permissions cols 1) events)).
Proof.
  intros Ha Hb Hp. split.
  - intros len Hl Bl. split.
    + intros cols r Hr <- Hs. destruct Ha as (l0 & l1 & l2 & B0 & B1 & B2 & -> & E0 & E1 & E2).
      apply (syscall_addr_sound len cols r); try assumption; [lia|]. repeat constructor; assumption.
    + intros Ma La Ua. destruct (syscall_addr_complete a len Hl Bl (conj Ma (conj La Ua))) as (cols & events & E & Ec & C).
      exists cols, events. split; [exact E|]. split; [|exact C]. destruct Ha as (l0 & l1 & l2 & B0 & B1 & B2 & Ea & _).
      exists l0, l1, l2. do 4 (split; [assumption|]). destruct (SyscallAddrOperation.addr cols) as [[a0 a1] a2]. unfold addr_limbs in Ec.
      cbn [u64_to_u16_limbs take fst snd] in *. injection Ec as -> -> ->. rewrite low_limb, !limb_of_u64 by lia. unfold fits in *. subst a.
      split_and!; apply feq_exists; exists 0; lia_mod.
  - intros Hu. split; [intros prot cols r Hr cs; now apply slice_prot_sound|].
    intros clk first second Hc Eh El G0 G1. now apply slice_prot_complete.
Qed.
End Range.

(** A range over two pages at address 0x1ffc0, at clock [2^24 + 9]. *)
#[local] Instance protected_values : ShardPublicValues :=
  Build_ShardPublicValues (0, 0, 0) (0, 0, 0) 1 (fun _ => 0) (fun _ => 0) 0 0 0 0 0 0 0 1.

Lemma address_range_checked_witness :
  let first := PageProtRecord.mk false 5 7 in
  let second := PageProtRecord.mk false 2 3 in
  exists cols events, AddressSlicePageProtOperation.populate [] 0x1ffc0 0x20038 (2 ^ 24 + 9) 1 first (Some second) 1 = Some (cols, events) /\
    complete (AddressSlicePageProtOperation.eval 1 9 (0xffc0, 1, 0) (0x38, 2, 0) 1 cols 1) events.
Proof.
  intros first second.
  assert (Ha : address_repr (0xffc0, 1, 0) 0x1ffc0) by (exists 0xffc0, 1, 0; unfold fits; split_and!; (reflexivity || lia)).
  assert (Hb : address_repr (0x38, 2, 0) 0x20038) by (exists 0x38, 2, 0; unfold fits; split_and!; (reflexivity || lia)).
  assert (Hp : is_u8 1) by (unfold fits; lia).
  destruct (address_range_checked 1 9 _ _ 1 _ _ Ha Hb Hp) as [_ [_ C]]; [reflexivity|].
  apply C; [unfold fits; lia|reflexivity|reflexivity|split; first [reflexivity|unfold fits; cbn; lia]|].
  split; [reflexivity|split; first [reflexivity|unfold fits; cbn; lia]].
Defined.
