(* ===== verification/ShaAir.v ===== *)
(** * ShaAir: the chips of the SHA_EXTEND precompile

    [syscall/precompiles/sha256/extend] of [core/machine]: the table
    [ShaExtendChip], one row per word of the message schedule, and its
    controller [ShaExtendControlChip], one row per system call, which starts
    the iteration at word 16 and ends it at word 64.  A satisfied row of the
    table reads four words of the schedule and writes the next one. *)
From Stdlib Require Import ZArith Lia Bool.
From stdpp Require Import base numbers option list.
From S2P Require Import Prelude SyscallCode State Precompiles Fips180 Sha256Proofs Air KoalaBear ByteTable WordAir AddOps LtOps BitOps U32Ops Bus MemAir Adapters PageOps.
Import ByteOpcode (as_field).

(** [receive_syscall] of [air/builder.rs]. *)
Definition receive_syscall (clk_high clk_low syscall_id : Z) (arg1 arg2 : Z * Z * Z) (multiplicity : Z) : call :=
  Receive (mkInteraction ([clk_high; clk_low; syscall_id] ++ addr_limbs arg1 ++ addr_limbs arg2) multiplicity
    InteractionKind.Syscall).

Module ShaExtendChip.
Record t := mk {
  clk_high : Z;
  clk_low : Z;
  next_clk : ClkOperation.t;
  w_ptr : Z * Z * Z;
  w_i_minus_15_ptr : AddrAddOperation.t;
  w_i_minus_2_ptr : AddrAddOperation.t;
  w_i_minus_16_ptr : AddrAddOperation.t;
  w_i_minus_7_ptr : AddrAddOperation.t;
  w_i_ptr : AddrAddOperation.t;
  i : Z;
  w_i_minus_15 : MemoryAccessCols.t;
  w_i_minus_15_rr_7 : FixedRotateRightOperation.t;
  w_i_minus_15_rr_18 : FixedRotateRightOperation.t;
  w_i_minus_15_rs_3 : FixedShiftRightOperation.t;
  s0_intermediate : ByteU32Operation.t;
  s0 : ByteU32Operation.t;
  w_i_minus_2 : MemoryAccessCols.t;
  w_i_minus_2_rr_17 : FixedRotateRightOperation.t;
  w_i_minus_2_rr_19 : FixedRotateRightOperation.t;
  w_i_minus_2_rs_10 : FixedShiftRightOperation.t;
  s1_intermediate : ByteU32Operation.t;
  s1 : ByteU32Operation.t;
  w_i_minus_16 : MemoryAccessCols.t;
  w_i_minus_7 : MemoryAccessCols.t;
  s2 : AddNOperation.t;
  w_i : MemoryAccessCols.t;
  is_real : Z }.

(** The state of the iteration, on the bus between the rows. *)
Definition state_values (clk_high clk_low : Z) (w_ptr : Z * Z * Z) (i : Z) : list Z :=
  [clk_high; clk_low] ++ addr_limbs w_ptr ++ [i].

(** Evaluate the pointer [ptr + offset], read the word there and check that it
    is a u32 value: its two limbs. *)
Definition read_word `{PrimeField} (local : t) (offset : Z) (ptr : AddrAddOperation.t) (access : MemoryAccessCols.t) :
  list call :=
  AddrAddOperation.eval (mkWord (w_ptr local).1.1 (w_ptr local).1.2 (w_ptr local).2 0) (extend_expr (offset * 8)) ptr
    (is_real local) ++
  eval_memory_access_read (ClkOperation.next_clk_high (next_clk local) (clk_high local))
    (ClkOperation.next_clk_low (next_clk local)) (AddrAddOperation.value ptr) access (is_real local) ++
  [Assert (AssertZero (MemoryAccessCols.prev_value access).[2]); Assert (AssertZero (MemoryAccessCols.prev_value access).[3])].
Definition half_word (access : MemoryAccessCols.t) : half :=
  ((MemoryAccessCols.prev_value access).[0], (MemoryAccessCols.prev_value access).[1]).

Definition eval `{PrimeField} (local : t) : list call :=
  let real := is_real local in
  let '(s0_intermediate_calls, s0_intermediate_result) := XorU32Operation.eval_xor_u32
    (FixedRotateRightOperation.value (w_i_minus_15_rr_7 local)) (FixedRotateRightOperation.value (w_i_minus_15_rr_18 local))
    (s0_intermediate local) real in
  let '(s0_calls, s0_result) := XorU32Operation.eval_xor_u32 s0_intermediate_result
    (FixedShiftRightOperation.value (w_i_minus_15_rs_3 local)) (s0 local) real in
  let '(s1_intermediate_calls, s1_intermediate_result) := XorU32Operation.eval_xor_u32
    (FixedRotateRightOperation.value (w_i_minus_2_rr_17 local)) (FixedRotateRightOperation.value (w_i_minus_2_rr_19 local))
    (s1_intermediate local) real in
  let '(s1_calls, s1_result) := XorU32Operation.eval_xor_u32 s1_intermediate_result
    (FixedShiftRightOperation.value (w_i_minus_2_rs_10 local)) (s1 local) real in
  let s2_value_word := mkWord (AddNOperation.value (s2 local)).1 (AddNOperation.value (s2 local)).2 0 0 in
  [Assert (AssertBool real);
   Receive (mkInteraction (state_values (clk_high local) (clk_low local) (w_ptr local) (i local)) real
     InteractionKind.ShaExtend);
   Send (mkInteraction (state_values (clk_high local) (clk_low local) (w_ptr local) (i local + 1)) real
     InteractionKind.ShaExtend);
   send_byte (as_field ByteOpcode.LTU) 1 (i local - 16) 48 real] ++
  ClkOperation.eval (clk_low local) (i local - 16) (next_clk local) real ++
  read_word local (i local - 15) (w_i_minus_15_ptr local) (w_i_minus_15 local) ++
  read_word local (i local - 2) (w_i_minus_2_ptr local) (w_i_minus_2 local) ++
  read_word local (i local - 16) (w_i_minus_16_ptr local) (w_i_minus_16 local) ++
  read_word local (i local - 7) (w_i_minus_7_ptr local) (w_i_minus_7 local) ++
  FixedRotateRightOperation.eval (half_word (w_i_minus_15 local)) 7 (w_i_minus_15_rr_7 local) real ++
  FixedRotateRightOperation.eval (half_word (w_i_minus_15 local)) 18 (w_i_minus_15_rr_18 local) real ++
  FixedShiftRightOperation.eval (half_word (w_i_minus_15 local)) 3 (w_i_minus_15_rs_3 local) real ++
  s0_intermediate_calls ++ s0_calls ++
  FixedRotateRightOperation.eval (half_word (w_i_minus_2 local)) 17 (w_i_minus_2_rr_17 local) real ++
  FixedRotateRightOperation.eval (half_word (w_i_minus_2 local)) 19 (w_i_minus_2_rr_19 local) real ++
  FixedShiftRightOperation.eval (half_word (w_i_minus_2 local)) 10 (w_i_minus_2_rs_10 local) real ++
  s1_intermediate_calls ++ s1_calls ++
  Add4Operation.eval (half_word (w_i_minus_16 local)) s0_result (half_word (w_i_minus_7 local)) s1_result real (s2 local) ++
  AddrAddOperation.eval (mkWord (w_ptr local).1.1 (w_ptr local).1.2 (w_ptr local).2 0) (extend_expr (i local * 8))
    (w_i_ptr local) real ++
  eval_memory_access_write (ClkOperation.next_clk_high (next_clk local) (clk_high local))
    (ClkOperation.next_clk_low (next_clk local)) (AddrAddOperation.value (w_i_ptr local)) (w_i local) s2_value_word real.
(** A row of zeros. *)
Definition zero : t :=
  let ptr := AddrAddOperation.mk (0, 0, 0) in
  let access := MemoryAccessCols.mk word_zero (MemoryAccessTimestamp.mk 0 0 0 0 0) in
  let rr := FixedRotateRightOperation.mk (0, 0) (0, 0) in
  let rs := FixedShiftRightOperation.mk (0, 0) (0, 0) in
  let xor := ByteU32Operation.mk (U32toU8Operation.mk (0, 0)) (U32toU8Operation.mk (0, 0)) [0; 0; 0; 0] in
  mk 0 0 (ClkOperation.mk 0 0 0) (0, 0, 0) ptr ptr ptr ptr ptr 0 access rr rr rs xor xor access rr rr rs xor xor
     access access (AddNOperation.mk (0, 0)) access 0.

(** One iteration of [event_to_rows]; [None] is a panic. *)
Definition event_to_row (event : ShaExtendEvent.t) (j : nat) (blu : list ByteLookupEvent) :
  option (t * list ByteLookupEvent) :=
  let bumped_clk := ShaExtendEvent.clk event + 1 in
  let ptr := ShaExtendEvent.w_ptr event in
  let i := Z.of_nat j + 16 in
  let '(next_clk, blu) := ClkOperation.populate blu bumped_clk (Z.of_nat j) in
  '(w_i_minus_15_ptr, blu, _) ← AddrAddOperation.populate blu ptr ((i - 15) * 8);
  '(w_i_minus_2_ptr, blu, _) ← AddrAddOperation.populate blu ptr ((i - 2) * 8);
  '(w_i_minus_16_ptr, blu, _) ← AddrAddOperation.populate blu ptr ((i - 16) * 8);
  '(w_i_minus_7_ptr, blu, _) ← AddrAddOperation.populate blu ptr ((i - 7) * 8);
  '(w_i_ptr, blu, _) ← AddrAddOperation.populate blu ptr (i * 8);
  records ← ShaExtendEvent.memory_records event !! j;
  let read15 := ShaExtendMemoryRecords.w_i_minus_15_reads records in
  let read2 := ShaExtendMemoryRecords.w_i_minus_2_reads records in
  let read16 := ShaExtendMemoryRecords.w_i_minus_16_reads records in
  let read7 := ShaExtendMemoryRecords.w_i_minus_7_reads records in
  '(w_i_minus_15, blu) ← MemoryAccessCols.populate (MemoryRecordEnum.Read read15) blu;
  '(w_i_minus_2, blu) ← MemoryAccessCols.populate (MemoryRecordEnum.Read read2) blu;
  '(w_i_minus_16, blu) ← MemoryAccessCols.populate (MemoryRecordEnum.Read read16) blu;
  '(w_i_minus_7, blu) ← MemoryAccessCols.populate (MemoryRecordEnum.Read read7) blu;
  let w15 := u32 (MemoryReadRecord.value read15) in
  let '(rr_7, blu, w_i_minus_15_rr_7) := FixedRotateRightOperation.populate blu w15 7 in
  let '(rr_18, blu, w_i_minus_15_rr_18) := FixedRotateRightOperation.populate blu w15 18 in
  let '(rs_3, blu, w_i_minus_15_rs_3) := FixedShiftRightOperation.populate blu w15 3 in
  let '(s0_intermediate, blu, s0_intermediate_value) :=
    XorU32Operation.populate_xor_u32 blu w_i_minus_15_rr_7 w_i_minus_15_rr_18 in
  let '(s0, blu, s0_value) := XorU32Operation.populate_xor_u32 blu s0_intermediate_value w_i_minus_15_rs_3 in
  let w2 := u32 (MemoryReadRecord.value read2) in
  let '(rr_17, blu, w_i_minus_2_rr_17) := FixedRotateRightOperation.populate blu w2 17 in
  let '(rr_19, blu, w_i_minus_2_rr_19) := FixedRotateRightOperation.populate blu w2 19 in
  let '(rs_10, blu, w_i_minus_2_rs_10) := FixedShiftRightOperation.populate blu w2 10 in
  let '(s1_intermediate, blu, s1_intermediate_value) :=
    XorU32Operation.populate_xor_u32 blu w_i_minus_2_rr_17 w_i_minus_2_rr_19 in
  let '(s1, blu, s1_value) := XorU32Operation.populate_xor_u32 blu s1_intermediate_value w_i_minus_2_rs_10 in
  let '(s2, blu, _) := Add4Operation.populate blu (u32 (MemoryReadRecord.value read16)) s0_value
    (u32 (MemoryReadRecord.value read7)) s1_value in
  '(w_i, blu) ← MemoryAccessCols.populate (MemoryRecordEnum.Write (ShaExtendMemoryRecords.w_i_write records)) blu;
  Some (mk (u32 (bumped_clk ≫ 24)) (u32 (Z.land bumped_clk 0xFFFFFF)) next_clk
          (Z.land ptr 0xFFFF, Z.land (ptr ≫ 16) 0xFFFF, Z.land (ptr ≫ 32) 0xFFFF)
          w_i_minus_15_ptr w_i_minus_2_ptr w_i_minus_16_ptr w_i_minus_7_ptr w_i_ptr i
          w_i_minus_15 rr_7 rr_18 rs_3 s0_intermediate s0 w_i_minus_2 rr_17 rr_19 rs_10 s1_intermediate s1
          w_i_minus_16 w_i_minus_7 s2 w_i 1,
        add_byte_lookup_event blu (mkByteLookupEvent ByteOpcode.LTU 1 (u8 (Z.of_nat j)) 48)).

Definition event_to_rows (event : ShaExtendEvent.t) (rows : list t) (blu : list ByteLookupEvent) :
  option (list t * list ByteLookupEvent) :=
  foldl (fun acc j => '(rows, blu) ← acc; '(row, blu) ← event_to_row event j blu; Some (rows ++ [row], blu))
    (Some (rows, blu)) (seq 0 48).

(** The trace of the SHA_EXTEND events of a record, padded. *)
Definition generate_trace (events : list ShaExtendEvent.t) : option (list t) :=
  '(rows, _) ← foldl (fun acc event => '(rows, blu) ← acc; event_to_rows event rows blu) (Some ([], [])) events;
  let padded_nb_rows := ((length rows + 31) / 32 * 32)%nat in
  Some (rows ++ replicate (padded_nb_rows - length rows) zero).
End ShaExtendChip.

Module ShaExtendControlChip.
Record t := mk {
  clk_high : Z;
  clk_low : Z;
  w_ptr : SyscallAddrOperation.t;
  w_16th_addr : AddrAddOperation.t;
  w_17th_addr : AddrAddOperation.t;
  w_64th_addr : AddrAddOperation.t;
  initial_page_prot_access : AddressSlicePageProtOperation.t;
  extension_page_prot_access : AddressSlicePageProtOperation.t;
  is_real : Z }.

(** The row of an event; [None] is a panic. *)
Definition event_to_row `{PrimeField} (untrusted : Z) (event : ShaExtendEvent.t) (blu_events : list ByteLookupEvent) :
  option (t * list ByteLookupEvent) :=
  let clk := ShaExtendEvent.clk event in
  let ptr := ShaExtendEvent.w_ptr event in
  let initial := ShaExtendPageProtRecords.initial_page_prot_records (ShaExtendEvent.page_prot_records event) in
  let extension := ShaExtendPageProtRecords.extension_page_prot_records (ShaExtendEvent.page_prot_records event) in
  '(w_ptr, blu_events) ← SyscallAddrOperation.populate blu_events ptr 512;
  '(w_16th_addr, blu_events, _) ← AddrAddOperation.populate blu_events ptr (15 * 8);
  '(w_17th_addr, blu_events, _) ← AddrAddOperation.populate blu_events ptr (16 * 8);
  '(w_64th_addr, blu_events, _) ← AddrAddOperation.populate blu_events ptr (63 * 8);
  '(initial_access, extension_access, blu_events) ←
    (if untrusted =? 1 then
       first ← initial !! 0%nat;
       '(initial_access, blu_events) ← AddressSlicePageProtOperation.populate blu_events ptr (u64 (ptr + 15 * 8)) clk
         PROT_READ first (initial !! 1%nat) untrusted;
       first ← extension !! 0%nat;
       '(extension_access, blu_events) ← AddressSlicePageProtOperation.populate blu_events (u64 (ptr + 16 * 8))
         (u64 (ptr + 63 * 8)) (clk + 1) (Z.lor PROT_READ PROT_WRITE) first (extension !! 1%nat) untrusted;
       Some (initial_access, extension_access, blu_events)
     else Some (AddressSlicePageProtOperation.zero, AddressSlicePageProtOperation.zero, blu_events));
  Some (mk (u32 (clk ≫ 24)) (u32 (Z.land clk 0xFFFFFF)) w_ptr w_16th_addr w_17th_addr w_64th_addr initial_access
          extension_access 1, blu_events).

Definition zero : t :=
  let ptr := AddrAddOperation.mk (0, 0, 0) in
  mk 0 0 (SyscallAddrOperation.mk (0, 0, 0) 0 (IsZeroOperation.mk 0 0)) ptr ptr ptr
     AddressSlicePageProtOperation.zero AddressSlicePageProtOperation.zero 0.
(** The trace, padded, and the lookups for the output. *)
Definition generate_trace `{PrimeField} (untrusted : Z) (events : list ShaExtendEvent.t) : option (list t * list ByteLookupEvent) :=
  '(rows, blu_events) ← foldl (fun acc event =>
      '(rows, blu_events) ← acc; '(row, blu_events) ← event_to_row untrusted event blu_events; Some (rows ++ [row], blu_events))
    (Some ([], [])) events;
  let padded_nb_rows := ((length rows + 31) / 32 * 32)%nat in
  Some (rows ++ replicate (padded_nb_rows - length rows) zero, blu_events).

Definition eval `{PrimeField} `{ShardPublicValues} (local : t) : list call :=
  let real := is_real local in
  let w_ptr := SyscallAddrOperation.addr (w_ptr local) in
  let ptr := mkWord w_ptr.1.1 w_ptr.1.2 w_ptr.2 0 in
  [Assert (AssertBool real)] ++
  SyscallAddrOperation.eval 512 (ShaExtendControlChip.w_ptr local) real ++
  AddrAddOperation.eval ptr (mkWord (15 * 8) 0 0 0) (w_16th_addr local) real ++
  AddrAddOperation.eval ptr (mkWord (16 * 8) 0 0 0) (w_17th_addr local) real ++
  AddrAddOperation.eval ptr (mkWord (63 * 8) 0 0 0) (w_64th_addr local) real ++
  AddressSlicePageProtOperation.eval (clk_high local) (clk_low local) w_ptr (AddrAddOperation.value (w_16th_addr local))
    PROT_READ (initial_page_prot_access local) real ++
  AddressSlicePageProtOperation.eval (clk_high local) (clk_low local + 1) (AddrAddOperation.value (w_17th_addr local))
    (AddrAddOperation.value (w_64th_addr local)) (Z.lor PROT_READ PROT_WRITE) (extension_page_prot_access local) real ++
  [receive_syscall (clk_high local) (clk_low local) (SyscallCode.syscall_id SyscallCode.SHA_EXTEND) w_ptr (0, 0, 0) real;
   Send (mkInteraction (ShaExtendChip.state_values (clk_high local) (clk_low local + 1) w_ptr 16) real
     InteractionKind.ShaExtend);
   Receive (mkInteraction (ShaExtendChip.state_values (clk_high local) (clk_low local + 1) w_ptr 64) real
     InteractionKind.ShaExtend)].
End ShaExtendControlChip.

(** ** Interactions *)

(** Calls that reach no bus but the byte table's. *)
Definition byte_calls (cs : list call) : Prop :=
  Forall (fun x => match x with Assert _ => True | Send i => kind i = InteractionKind.Byte | Receive _ => False end) cs.

Lemma byte_calls_app cs cs' : byte_calls (cs ++ cs') <-> byte_calls cs /\ byte_calls cs'.
Proof. apply Forall_app. Qed.
Lemma byte_calls_none k cs : byte_calls cs -> k <> InteractionKind.Byte -> sends k cs = [] /\ receives k cs = [].
Proof.
  intros Hb Hk. induction Hb as [|x cs Hx _ [IHs IHr]]; [done|]. unfold sends, receives in *. cbn [omap list_omap] in *. rewrite IHs, IHr.
  destruct x as [| |]; [done| |done]. rewrite decide_False by congruence. done.
Qed.

Section ByteCalls.
Context `{PrimeField}.
Lemma rotate_bytes input n cols r : byte_calls (FixedRotateRightOperation.eval input n cols r).
Proof. unfold FixedRotateRightOperation.eval. destruct (FixedRotateRightOperation.limbs_rotated _ _), (FixedRotateRightOperation.higher_limb _). repeat constructor. Qed.
Lemma shift_bytes input n cols r : byte_calls (FixedShiftRightOperation.eval input n cols r).
Proof. unfold FixedShiftRightOperation.eval. destruct (FixedShiftRightOperation.limbs_shifted _ _), (FixedShiftRightOperation.higher_limb _). repeat constructor. Qed.
Lemma xor_bytes b c cols r : byte_calls (XorU32Operation.eval_xor_u32 b c cols r).1.
Proof. repeat constructor. Qed.
Lemma add4_bytes a b c d r cols : byte_calls (Add4Operation.eval a b c d r cols).
Proof. repeat constructor. Qed.
Lemma addr_add_bytes a b cols r : byte_calls (AddrAddOperation.eval a b cols r).
Proof. destruct cols as [[[a0 a1] a2]]. repeat constructor. Qed.
Lemma syscall_addr_bytes len cols r : byte_calls (SyscallAddrOperation.eval len cols r).
Proof. unfold SyscallAddrOperation.eval. destruct (SyscallAddrOperation.addr cols) as [[a0 a1] a2]. repeat constructor. Qed.

Lemma addr_add_sends k a b cols r : k <> InteractionKind.Byte -> sends k (AddrAddOperation.eval a b cols r) = [].
Proof. intros Hk. exact (proj1 (byte_calls_none k _ (addr_add_bytes a b cols r) Hk)). Qed.
Lemma addr_add_receives k a b cols r : k <> InteractionKind.Byte -> receives k (AddrAddOperation.eval a b cols r) = [].
Proof. intros Hk. exact (proj2 (byte_calls_none k _ (addr_add_bytes a b cols r) Hk)). Qed.
Lemma syscall_addr_sends k len cols r : k <> InteractionKind.Byte -> sends k (SyscallAddrOperation.eval len cols r) = [].
Proof. intros Hk. exact (proj1 (byte_calls_none k _ (syscall_addr_bytes len cols r) Hk)). Qed.
Lemma syscall_addr_receives k len cols r : k <> InteractionKind.Byte -> receives k (SyscallAddrOperation.eval len cols r) = [].
Proof. intros Hk. exact (proj2 (byte_calls_none k _ (syscall_addr_bytes len cols r) Hk)). Qed.
End ByteCalls.

(** ** A row of the table *)
Section Row.
Context `{AirBuilder}.
Import ShaExtendChip.

Lemma address_word addr a : address_repr addr a -> mkWord addr.1.1 addr.1.2 addr.2 0 ∼ a.
Proof.
  intros (l0 & l1 & l2 & B0 & B1 & B2 & -> & E0 & E1 & E2).
  replace (_ + 2 ^ 32 * l2) with (l0 + 2 ^ 16 * l1 + 2 ^ 32 * l2 + 2 ^ 48 * 0) by lia.
  apply represents_intro; try assumption; [unfold fits; lia|reflexivity].
Qed.
Lemma offset_word e k : e ≐ k -> is_u16 k -> extend_expr e ∼ k.
Proof.
  intros Ee Hk. replace k with (k + 2 ^ 16 * 0 + 2 ^ 32 * 0 + 2 ^ 48 * 0) by lia.
  apply represents_intro; try assumption; unfold fits; cbn; lia || reflexivity.
Qed.
Lemma address_48 addr a : address_repr addr a -> fits 48 a.
Proof. intros (l0 & l1 & l2 & B0 & B1 & B2 & -> & _). unfold fits in *. lia. Qed.

(** The address of the word at an offset below 2^16. *)
Lemma pointer_sound addr a e k ptr r : address_repr addr a -> e ≐ k -> is_u16 k -> r ≐ 1 ->
  sat (AddrAddOperation.eval (mkWord addr.1.1 addr.1.2 addr.2 0) (extend_expr e) ptr r) ->
  address_repr (AddrAddOperation.value ptr) (a + k).
Proof.
  intros Ha Ee Hk Hr Hs.
  destruct (addr_add_sound _ _ a k ptr r (address_word _ _ Ha) (offset_word _ _ Ee Hk) Hr Hs) as (l0 & l1 & l2 & F & B0 & B1 & B2 & E).
  pose proof (address_48 _ _ Ha). rewrite u64_small in E by (unfold fits in *; lia). rewrite E.
  exists l0, l1, l2. destruct (AddrAddOperation.value ptr) as [[a0 a1] a2]. unfold addr_limbs in F.
  apply list.Forall2_cons in F as [F0 F]. apply list.Forall2_cons in F as [F1 F]. apply list.Forall2_cons in F as [F2 _]. tauto.
Qed.

(** What a word read from the schedule has shown of itself. *)
Record word_read (ptr : AddrAddOperation.t) (access : MemoryAccessCols.t) (a : Z) : Prop := {
  read_address : address_repr (AddrAddOperation.value ptr) a;
  read_limb2 : (MemoryAccessCols.prev_value access).[2] ≐ 0;
  read_limb3 : (MemoryAccessCols.prev_value access).[3] ≐ 0 }.

Lemma read_word_sound local a e k ptr access : is_real local ≐ 1 -> address_repr (w_ptr local) a -> e ≐ k -> 0 <= k < 64 ->
  sat (read_word local e ptr access) -> word_read ptr access (a + 8 * k).
Proof.
  intros Hr Ha Ee Hk Hs. unfold read_word in Hs. rewrite !sat_app, !sat_cons in Hs.
  destruct Hs as (Hp & _ & Z2 & Z3 & _). rewrite sat_assert, holds_assert_zero in Z2, Z3. split; [|assumption..].
  apply (pointer_sound (w_ptr local) a (e * 8) (8 * k) ptr (is_real local)); try assumption; [|unfold fits; lia].
  rewrite Ee. now rewrite Z.mul_comm.
Qed.

(** A read word that holds a u64 value is a u32. *)
Lemma word_half ptr access a v : word_read ptr access a -> MemoryAccessCols.prev_value access ∼ v ->
  half_repr (half_word access) v.
Proof.
  intros [_ Z2 Z3] (l0 & l1 & l2 & l3 & B0 & B1 & B2 & B3 & -> & E0 & E1 & E2 & E3)%represents_elim.
  pose proof order_large. rewrite Z2 in E2. rewrite Z3 in E3. unfold fits in *. apply feq_small in E2, E3; [|lia..]. subst l2 l3.
  replace (l0 + 2 ^ 16 * l1 + 2 ^ 32 * 0 + 2 ^ 48 * 0) with (l0 + 2 ^ 16 * l1) by lia.
  apply half_intro; try assumption; unfold fits; lia.
Qed.
(** The results of the exclusive ors. *)
Definition s0_intermediate_result (local : t) : half := (XorU32Operation.eval_xor_u32
  (FixedRotateRightOperation.value (w_i_minus_15_rr_7 local)) (FixedRotateRightOperation.value (w_i_minus_15_rr_18 local))
  (s0_intermediate local) (is_real local)).2.
Definition s0_result (local : t) : half := (XorU32Operation.eval_xor_u32 (s0_intermediate_result local)
  (FixedShiftRightOperation.value (w_i_minus_15_rs_3 local)) (s0 local) (is_real local)).2.
Definition s1_intermediate_result (local : t) : half := (XorU32Operation.eval_xor_u32
  (FixedRotateRightOperation.value (w_i_minus_2_rr_17 local)) (FixedRotateRightOperation.value (w_i_minus_2_rr_19 local))
  (s1_intermediate local) (is_real local)).2.
Definition s1_result (local : t) : half := (XorU32Operation.eval_xor_u32 (s1_intermediate_result local)
  (FixedShiftRightOperation.value (w_i_minus_2_rs_10 local)) (s1 local) (is_real local)).2.

(** The parts of a row's constraints: its state, its reads, its arithmetic,
    which makes byte lookups only, and its write. *)
Definition state_part (local : t) : list call :=
  let real := is_real local in
  [Assert (AssertBool real);
   Receive (mkInteraction (state_values (clk_high local) (clk_low local) (w_ptr local) (i local)) real
     InteractionKind.ShaExtend);
   Send (mkInteraction (state_values (clk_high local) (clk_low local) (w_ptr local) (i local + 1)) real
     InteractionKind.ShaExtend);
   send_byte (as_field ByteOpcode.LTU) 1 (i local - 16) 48 real] ++
  ClkOperation.eval (clk_low local) (i local - 16) (next_clk local) real.
Definition reads_part (local : t) : list call :=
  read_word local (i local - 15) (w_i_minus_15_ptr local) (w_i_minus_15 local) ++
  read_word local (i local - 2) (w_i_minus_2_ptr local) (w_i_minus_2 local) ++
  read_word local (i local - 16) (w_i_minus_16_ptr local) (w_i_minus_16 local) ++
  read_word local (i local - 7) (w_i_minus_7_ptr local) (w_i_minus_7 local).
Definition arithmetic_part (local : t) : list call :=
  let real := is_real local in
  FixedRotateRightOperation.eval (half_word (w_i_minus_15 local)) 7 (w_i_minus_15_rr_7 local) real ++
  FixedRotateRightOperation.eval (half_word (w_i_minus_15 local)) 18 (w_i_minus_15_rr_18 local) real ++
  FixedShiftRightOperation.eval (half_word (w_i_minus_15 local)) 3 (w_i_minus_15_rs_3 local) real ++
  (XorU32Operation.eval_xor_u32 (FixedRotateRightOperation.value (w_i_minus_15_rr_7 local))
    (FixedRotateRightOperation.value (w_i_minus_15_rr_18 local)) (s0_intermediate local) real).1 ++
  (XorU32Operation.eval_xor_u32 (s0_intermediate_result local) (FixedShiftRightOperation.value (w_i_minus_15_rs_3 local))
    (s0 local) real).1 ++
  FixedRotateRightOperation.eval (half_word (w_i_minus_2 local)) 17 (w_i_minus_2_rr_17 local) real ++
  FixedRotateRightOperation.eval (half_word (w_i_minus_2 local)) 19 (w_i_minus_2_rr_19 local) real ++
  FixedShiftRightOperation.eval (half_word (w_i_minus_2 local)) 10 (w_i_minus_2_rs_10 local) real ++
  (XorU32Operation.eval_xor_u32 (FixedRotateRightOperation.value (w_i_minus_2_rr_17 local))
    (FixedRotateRightOperation.value (w_i_minus_2_rr_19 local)) (s1_intermediate local) real).1 ++
  (XorU32Operation.eval_xor_u32 (s1_intermediate_result local) (FixedShiftRightOperation.value (w_i_minus_2_rs_10 local))
    (s1 local) real).1 ++
  Add4Operation.eval (half_word (w_i_minus_16 local)) (s0_result local) (half_word (w_i_minus_7 local)) (s1_result local)
    real (s2 local) ++
  AddrAddOperation.eval (mkWord (w_ptr local).1.1 (w_ptr local).1.2 (w_ptr local).2 0) (extend_expr (i local * 8))
    (w_i_ptr local) real.
Definition written_word (local : t) : Word :=
  mkWord (AddNOperation.value (s2 local)).1 (AddNOperation.value (s2 local)).2 0 0.
Definition write_part (local : t) : list call :=
  eval_memory_access_write (ClkOperation.next_clk_high (next_clk local) (clk_high local))
    (ClkOperation.next_clk_low (next_clk local)) (AddrAddOperation.value (w_i_ptr local)) (w_i local) (written_word local)
    (is_real local).
Lemma eval_parts local : eval local = state_part local ++ reads_part local ++ arithmetic_part local ++ write_part local.
Proof. unfold state_part, reads_part, arithmetic_part. rewrite <- !app_assoc. reflexivity. Qed.

(** The accesses of a row: the address, the columns and the value left there. *)
Definition extend_accesses (local : t) : list (AddrAddOperation.t * MemoryAccessCols.t * Word) :=
  let read ptr access := (ptr, access, MemoryAccessCols.prev_value access) in
  [read (w_i_minus_15_ptr local) (w_i_minus_15 local); read (w_i_minus_2_ptr local) (w_i_minus_2 local);
   read (w_i_minus_16_ptr local) (w_i_minus_16 local); read (w_i_minus_7_ptr local) (w_i_minus_7 local);
   (w_i_ptr local, w_i local, written_word local)].
Definition access_sent (local : t) (x : AddrAddOperation.t * MemoryAccessCols.t * Word) : AirInteraction :=
  let ts := MemoryAccessCols.access_timestamp x.1.2 in
  mkInteraction ([MemoryAccessTimestamp.prev_high ts; MemoryAccessTimestamp.prev_low ts] ++
    addr_limbs (AddrAddOperation.value x.1.1) ++ word_limbs (MemoryAccessCols.prev_value x.1.2)) (is_real local) InteractionKind.Memory.
Definition access_received (local : t) (x : AddrAddOperation.t * MemoryAccessCols.t * Word) : AirInteraction :=
  mkInteraction ([ClkOperation.next_clk_high (next_clk local) (clk_high local); ClkOperation.next_clk_low (next_clk local)] ++
    addr_limbs (AddrAddOperation.value x.1.1) ++ word_limbs x.2) (is_real local) InteractionKind.Memory.
Definition state_received (local : t) : AirInteraction :=
  mkInteraction (state_values (clk_high local) (clk_low local) (w_ptr local) (i local)) (is_real local) InteractionKind.ShaExtend.
Definition state_sent (local : t) : AirInteraction :=
  mkInteraction (state_values (clk_high local) (clk_low local) (w_ptr local) (i local + 1)) (is_real local) InteractionKind.ShaExtend.

Lemma arithmetic_bytes local : byte_calls (arithmetic_part local).
Proof.
  unfold arithmetic_part. rewrite !byte_calls_app.
  split_and!; first [apply rotate_bytes|apply shift_bytes|apply xor_bytes|apply add4_bytes|apply addr_add_bytes].
Qed.

(** What a row sends and receives on the two buses. *)
Lemma row_interactions local :
  sends InteractionKind.Memory (eval local) = access_sent local <$> extend_accesses local /\
  receives InteractionKind.Memory (eval local) = access_received local <$> extend_accesses local /\
  sends InteractionKind.ShaExtend (eval local) = [state_sent local] /\
  receives InteractionKind.ShaExtend (eval local) = [state_received local].
Proof.
  rewrite eval_parts. unfold state_part, reads_part, read_word. rewrite !sends_app, !receives_app.
  destruct (byte_calls_none InteractionKind.Memory _ (arithmetic_bytes local) ltac:(discriminate)) as [-> ->].
  destruct (byte_calls_none InteractionKind.ShaExtend _ (arithmetic_bytes local) ltac:(discriminate)) as [-> ->].
  rewrite !addr_add_sends, !addr_add_receives by discriminate.
  repeat split.
Qed.

Section Facts.
Context (local : t) (a clk : Z).
Hypothesis Hreal : is_real local ≐ 1.
Hypothesis Hsat : sat (eval local).
Hypothesis Hptr : address_repr (w_ptr local) a.
Hypothesis Hclk : 0 <= clk.
Hypothesis Hhigh : clk_high local ≐ clk / 2 ^ 24.
Hypothesis Hlow : clk_low local ≐ clk mod 2 ^ 24.

Lemma sat_parts : sat (state_part local) /\ sat (reads_part local) /\ sat (arithmetic_part local) /\ sat (write_part local).
Proof. pose proof Hsat as Hs. now rewrite eval_parts, !sat_app in Hs. Qed.

(** The index is one of the iterations. *)
Lemma row_index : exists n, 16 <= n < 64 /\ i local ≐ n.
Proof.
  destruct sat_parts as [Hs _]. unfold state_part in Hs. rewrite sat_app, !sat_cons in Hs. destruct Hs as ((_ & _ & _ & Hi & _) & _).
  destruct (sat_send_op _ _ _ _ _ Hi Hreal) as (e & Hok & Ho & E1 & Eb & Ec). unfold event_ok in Hok. rewrite Ho in Hok.
  destruct Hok as (Bb & Bc & Er). pose proof order_large. unfold fits in *. apply feq_small in Ec; [|lia].
  exists (ev_b e + 16). assert (Hlt : ev_b e < 48).
  { rewrite Ec. rewrite Er in E1. destruct (Z.ltb_spec (ev_b e) (ev_c e)); [assumption|]. apply one_not_zero in E1. done. }
  split; [lia|]. rewrite <- Eb. now replace (i local - 16 + 16) with (i local) by lia.
Qed.

Context (n : Z) (Bn : 16 <= n < 64) (En : i local ≐ n).

Lemma index_minus k : i local - k ≐ n - k.
Proof. now rewrite En. Qed.

(** The row acts [n - 16] ticks after the clock of the call. *)
Lemma row_clock : ClkOperation.next_clk_low (next_clk local) ≐ (clk + (n - 16)) mod 2 ^ 24 /\
  ClkOperation.next_clk_high (next_clk local) (clk_high local) ≐ (clk + (n - 16)) / 2 ^ 24.
Proof.
  destruct sat_parts as [Hs _]. unfold state_part in Hs. rewrite sat_app in Hs. destruct Hs as [_ Hs].
  destruct (clk_operation_sound clk (n - 16) (next_clk local) _ _ _ Hclk ltac:(unfold fits; lia) Hreal Hlow (index_minus 16) Hs) as [Hl Hh].
  split; [exact Hl|]. rewrite <- Hh. unfold ClkOperation.next_clk_high. now rewrite Hhigh.
Qed.

Lemma row_reads :
  word_read (w_i_minus_15_ptr local) (w_i_minus_15 local) (a + 8 * (n - 15)) /\
  word_read (w_i_minus_2_ptr local) (w_i_minus_2 local) (a + 8 * (n - 2)) /\
  word_read (w_i_minus_16_ptr local) (w_i_minus_16 local) (a + 8 * (n - 16)) /\
  word_read (w_i_minus_7_ptr local) (w_i_minus_7 local) (a + 8 * (n - 7)).
Proof.
  destruct sat_parts as (_ & Hs & _). unfold reads_part in Hs. rewrite !sat_app in Hs. destruct Hs as (S15 & S2 & S16 & S7).
  split_and!; (eapply read_word_sound; [eassumption|eassumption|apply index_minus|lia|eassumption]).
Qed.

Lemma row_write_address : address_repr (AddrAddOperation.value (w_i_ptr local)) (a + 8 * n).
Proof.
  destruct sat_parts as (_ & _ & Hs & _). unfold arithmetic_part in Hs. rewrite !sat_app in Hs.
  destruct Hs as (_ & _ & _ & _ & _ & _ & _ & _ & _ & _ & _ & Hs).
  eapply pointer_sound; [exact Hptr| |unfold fits; lia|exact Hreal|exact Hs]. rewrite En. now rewrite Z.mul_comm.
Qed.

(** Of the words it reads, the row writes the next word of the schedule. *)
Lemma row_value v15 v2 v16 v7 :
  half_repr (half_word (w_i_minus_15 local)) v15 -> half_repr (half_word (w_i_minus_2 local)) v2 ->
  half_repr (half_word (w_i_minus_16 local)) v16 -> half_repr (half_word (w_i_minus_7 local)) v7 ->
  half_repr (AddNOperation.value (s2 local)) ((Fips.sigma1 v2 + v7 + Fips.sigma0 v15 + v16) mod 2 ^ 32).
Proof.
  intros H15 H2 H16 H7. destruct sat_parts as (_ & _ & Hs & _). unfold arithmetic_part in Hs. rewrite !sat_app in Hs.
  destruct Hs as (R7 & R18 & R3 & X0 & X1 & R17 & R19 & R10 & Y0 & Y1 & A & _).
  apply (rotate_sound _ v15) in R7; [|assumption || lia..]. apply (rotate_sound _ v15) in R18; [|assumption || lia..].
  apply (shift_sound _ v15) in R3; [|assumption || lia..]. apply (rotate_sound _ v2) in R17; [|assumption || lia..].
  apply (rotate_sound _ v2) in R19; [|assumption || lia..]. apply (shift_sound _ v2) in R10; [|assumption || lia..].
  assert (Hx : is_bitop ByteOpcode.XOR) by now right; right.
  apply (byte_op_sound ByteOpcode.XOR _ _ _ _ _ _ Hx R7 R18 Hreal) in X0. apply (byte_op_sound ByteOpcode.XOR _ _ _ _ _ _ Hx X0 R3 Hreal) in X1.
  apply (byte_op_sound ByteOpcode.XOR _ _ _ _ _ _ Hx R17 R19 Hreal) in Y0. apply (byte_op_sound ByteOpcode.XOR _ _ _ _ _ _ Hx Y0 R10 Hreal) in Y1.
  pose proof (add_n_sound _ _ (s2 local) _ (List.Forall2_cons _ _ H16 (List.Forall2_cons _ _ X1 (List.Forall2_cons _ _ H7
    (List.Forall2_cons _ _ Y1 (List.Forall2_nil _))))) ltac:(cbn; lia) Hreal A) as V.
  refine (eq_ind _ (half_repr _) V _ _).
  unfold Fips.sigma0, Fips.sigma1, Fips.SHR. rewrite <- !rotate_right_ROTR, <- !Z.shiftr_div_pow2, <- !Z.lxor_assoc by lia.
  unfold u32, wrap. cbn [foldl bitop]. f_equal. lia.
Qed.

(** The time of a clock value on the memory bus. *)
Definition clock_time (c : Z) : Z := (c / 2 ^ 24) * order + (c mod 2 ^ 24 + 2 ^ 24).

Lemma row_received_time x : clk < 2 ^ 48 -> time_of (values (access_received local x)) = clock_time (clk + (n - 16)).
Proof.
  intros Hc. destruct row_clock as [El Eh]. pose proof order_large. cbn [access_received values app time_of].
  rewrite (signed_rep_small _ _ Eh) by lia_mod. unfold clock_time. f_equal.
  apply canonical_small; [now rewrite El|lia_mod].
Qed.

(** Every access of the row is later than the one before it at the address. *)
Lemma row_accesses_forward x : clk < 2 ^ 48 -> x ∈ extend_accesses local ->
  time_of (values (access_sent local x)) < time_of (values (access_received local x)).
Proof.
  intros Hc Hx. destruct row_clock as [El Eh].
  assert (Hs : sat (eval_memory_access_write (ClkOperation.next_clk_high (next_clk local) (clk_high local))
    (ClkOperation.next_clk_low (next_clk local)) (AddrAddOperation.value x.1.1) x.1.2 x.2 (is_real local))).
  { destruct sat_parts as (_ & Hr & _ & Hw). unfold reads_part, read_word in Hr. rewrite !sat_app in Hr. unfold extend_accesses in Hx.
    rewrite !elem_of_cons, elem_of_nil in Hx. destruct Hx as [->|[->|[->|[->|[->|[]]]]]]; cbn [fst snd]; first [exact Hw|apply Hr]. }
  cbn [access_sent access_received values app].
  apply (memory_access_time _ _ _ _ _ _ ((clk + (n - 16)) / 2 ^ 24) ((clk + (n - 16)) mod 2 ^ 24) Hreal Eh El) with (3 := Hs); lia_mod.
Qed.
End Facts.
End Row.

(** ** A row of the controller *)
Section Control.
Context `{AirBuilder} `{ShardPublicValues}.
Import ShaExtendControlChip.

Definition control_sent (local : t) : AirInteraction :=
  mkInteraction (ShaExtendChip.state_values (clk_high local) (clk_low local + 1) (SyscallAddrOperation.addr (w_ptr local)) 16)
    (is_real local) InteractionKind.ShaExtend.
Definition control_received (local : t) : AirInteraction :=
  mkInteraction (ShaExtendChip.state_values (clk_high local) (clk_low local + 1) (SyscallAddrOperation.addr (w_ptr local)) 64)
    (is_real local) InteractionKind.ShaExtend.

Lemma control_interactions local :
  sends InteractionKind.Memory (eval local) = [] /\ receives InteractionKind.Memory (eval local) = [] /\
  sends InteractionKind.ShaExtend (eval local) = [control_sent local] /\
  receives InteractionKind.ShaExtend (eval local) = [control_received local].
Proof.
  unfold eval. rewrite !sends_app, !receives_app.
  rewrite !syscall_addr_sends, !syscall_addr_receives, !addr_add_sends, !addr_add_receives by discriminate.
  repeat split.
Qed.

Section Checked.
Context (local : t) (a : Z).
Hypothesis Hreal : is_real local ≐ 1.
Hypothesis Hsat : sat (eval local).
Hypothesis Hptr : address_repr (SyscallAddrOperation.addr (w_ptr local)) a.

(** The array of 64 words is aligned, above the registers and below [2^48]. *)
Lemma control_range : syscall_range a 512.
Proof.
  pose proof Hsat as Hs. unfold eval in Hs. rewrite sat_app, sat_app in Hs. destruct Hs as (_ & Hs & _).
  destruct Hptr as (l0 & l1 & l2 & B0 & B1 & B2 & -> & E0 & E1 & E2).
  apply (syscall_addr_sound 512 (w_ptr local) (is_real local)); try assumption; [reflexivity|lia|]. repeat constructor; assumption.
Qed.

Lemma control_pointer k ptr : 0 <= k < 2 ^ 16 ->
  sat (AddrAddOperation.eval (mkWord (SyscallAddrOperation.addr (w_ptr local)).1.1 (SyscallAddrOperation.addr (w_ptr local)).1.2
    (SyscallAddrOperation.addr (w_ptr local)).2 0) (mkWord k 0 0 0) ptr (is_real local)) ->
  address_repr (AddrAddOperation.value ptr) (a + k).
Proof. intros Hk Hs. eapply (pointer_sound _ a k k); [exact Hptr|reflexivity|exact Hk|exact Hreal|exact Hs]. Qed.

(** With page protection on, the pages of the first 16 words can be read, and
    those of the other 48 read and written. *)
Lemma control_prots prot : is_untrusted_programs_enabled ≐ 1 -> bus_prots prot (eval local) ->
  (forall k, 0 <= k < 16 -> Z.land PROT_READ (prot ((a + 8 * k) / PAGE_SIZE)) = PROT_READ) /\
  (forall k, 16 <= k < 64 -> Z.land (Z.lor PROT_READ PROT_WRITE) (prot ((a + 8 * k) / PAGE_SIZE)) = Z.lor PROT_READ PROT_WRITE).
Proof.
  intros Hu Hb. pose proof Hsat as Hs. unfold eval in Hs, Hb. rewrite !sat_app in Hs. rewrite !bus_prots_app in Hb.
  destruct Hs as (_ & _ & S16 & S17 & S64 & P1 & P2 & _). destruct Hb as (_ & _ & _ & _ & _ & B1 & B2 & _).
  apply control_pointer in S16, S17, S64; [|lia..].
  destruct (slice_prot_sound prot _ _ _ _ PROT_READ _ _ _ _ Hptr S16 ltac:(split; now vm_compute) Hreal Hu P1 B1) as (R0 & R1 & _).
  destruct (slice_prot_sound prot _ _ _ _ (Z.lor PROT_READ PROT_WRITE) _ _ _ _ S17 S64 ltac:(split; now vm_compute) Hreal Hu P2 B2) as (W0 & W1 & _).
  change PAGE_SIZE with 4096 in *. split; intros k Hk.
  - assert (E : (a + 8 * k) / 4096 = a / 4096 \/ (a + 8 * k) / 4096 = (a + 15 * 8) / 4096) by lia_mod. now destruct E as [->| ->].
  - assert (E : (a + 8 * k) / 4096 = (a + 16 * 8) / 4096 \/ (a + 8 * k) / 4096 = (a + 63 * 8) / 4096) by lia_mod. now destruct E as [->| ->].
Qed.
End Checked.
End Control.
