(* ===== verification/Rows.v ===== *)
(** * Rows: what an instruction chip promises to the shard

    The interface between the instruction chips and the buses of a shard.
    A [Row] is what a chip's row shows of itself on the state, program and
    memory buses; [lawful] states what the constraints of a satisfied row
    give: the interactions it makes, that its accesses move forward in time,
    and that, when its instruction is looked up in the program and its
    accesses find the machine's registers, the row takes the step of the
    reference semantics [Rv64.step].  Every chip proves it; the shard theorem
    uses nothing else of a chip. *)
From Stdlib Require Import ZArith Lia Bool Sorted Permutation.
From stdpp Require Import base numbers option list gmap.
From S2P Require Import Prelude Isa State Rv64 Refinement Air KoalaBear ByteTable WordAir AddOps BitOps Bus MemAir Adapters.
#[local] Obligation Tactic := idtac.

(** An access to the memory bus, [position] ticks after the row's clock. *)
Record Access := mkAccess {
  position : Z;
  address : Z * Z * Z;
  previous : Z * Z;
  old_value : Word;
  new_value : Word;
  access_mult : Z }.

Record Row := mkRow {
  row_high : Z;
  row_low : Z;
  row_pc : Z * Z * Z;
  row_next_pc : Z * Z * Z;
  row_instruction : InstructionCols.t;
  row_real : Z;
  row_trusted : Z;
  row_accesses : list Access }.

(** [CLK_INC] and [PC_INC] of [sp1_core_executor]. *)
Definition CLK_INC : Z := 8.
Definition PC_INC : Z := 4.

Definition row_received (r : Row) : AirInteraction :=
  mkInteraction (state_values (row_high r) (row_low r) (row_pc r)) (row_real r) InteractionKind.State.
Definition row_sent (r : Row) : AirInteraction :=
  mkInteraction (state_values (row_high r) (row_low r + CLK_INC) (row_next_pc r)) (row_real r) InteractionKind.State.
Definition row_lookup (r : Row) : AirInteraction :=
  mkInteraction (program_values (row_pc r) (row_instruction r)) (row_trusted r) InteractionKind.Program.
Definition access_source (a : Access) : AirInteraction :=
  mkInteraction ([(previous a).1; (previous a).2] ++ addr_limbs (address a) ++ word_limbs (old_value a))
    (access_mult a) InteractionKind.Memory.
Definition access_target (r : Row) (a : Access) : AirInteraction :=
  mkInteraction ([row_high r; row_low r + position a] ++ addr_limbs (address a) ++ word_limbs (new_value a))
    (access_mult a) InteractionKind.Memory.

(** ** Values on the memory bus

    The machine's registers and memory as the bus sees them: address limbs to
    value limbs, all canonical. *)
Notation values_map := (gmap (list Z) (list Z)).

(** Take reads and writes [(address, old, new)] in order; [None] when one does
    not find its old value. *)
Fixpoint replay_values (m : values_map) (l : list (list Z * list Z * list Z)) : option values_map :=
  match l with
  | [] => Some m
  | (k, old, new) :: l => if decide (m !! k = Some old) then replay_values (<[k := new]> m) l else None
  end.

Section Interface.
Context `{AirBuilder} `{ShardPublicValues}.

Definition limbs_of (v : Z) : list Z := word_limbs (Word_from_u64 v).
Definition register_key (r : Z) : list Z := [r; 0; 0].
Definition memory_key (a : Z) : list Z := [a mod 2 ^ 16; a / 2 ^ 16 mod 2 ^ 16; a / 2 ^ 32].

Definition access_values (a : Access) : list Z * list Z * list Z :=
  (as_canonical <$> addr_limbs (address a), as_canonical <$> word_limbs (old_value a),
   as_canonical <$> word_limbs (new_value a)).
Definition active_of (l : list Access) : list Access := filter (fun a => access_mult a ≐ 1) l.
Definition active_accesses (r : Row) : list Access := active_of (row_accesses r).

(** The registers that are on the bus hold the machine's registers. *)
Definition registers_agree (m : values_map) (s : Rv64.arch) : Prop :=
  forall r ws, 0 <= r < 32 -> m !! register_key r = Some ws -> is_u64 (Rv64.get s r) /\ ws = limbs_of (Rv64.get s r).
(** The double words that are on the bus are accessible memory of the machine
    and hold its bytes. *)
Definition accessible (s : Rv64.arch) (x : Z) : Prop :=
  Rv64.mapped x = true /\ Rv64.may_read s x = true /\ Rv64.may_write s x = true.
Definition cells_agree (m : values_map) (s : Rv64.arch) : Prop :=
  forall a ws, 32 <= a < 2 ^ 48 -> a mod 8 = 0 -> m !! memory_key a = Some ws ->
  exists v, is_u64 v /\ ws = limbs_of v /\ forall x, x / 8 = a / 8 -> accessible s x /\ Rv64.mem s x = byte_of v x.
Definition agrees (m : values_map) (s : Rv64.arch) : Prop := registers_agree m s /\ cells_agree m s.

(** Program counter limbs, possibly not carried, and the address they mean. *)
Definition pc_means (limbs : Z * Z * Z) (v : Z) : Prop :=
  exists l0 l1 l2, limbs.1.1 ≐ l0 /\ limbs.1.2 ≐ l1 /\ limbs.2 ≐ l2 /\
    Z.abs l0 < 2 ^ 18 /\ Z.abs l1 < 2 ^ 18 /\ Z.abs l2 < 2 ^ 18 /\ v = l0 + 2 ^ 16 * l1 + 2 ^ 32 * l2.

(** The row's instruction columns are those of [i] in the program table. *)
Definition runs (r : Row) (i : Instruction.t) : Prop :=
  Forall2 feq (InstructionCols.into_iter (row_instruction r)) (InstructionCols.into_iter (InstructionCols.populate i)).

Definition steps (r : Row) : Prop :=
  forall i m m' s, well_formed i = true -> runs r i ->
  fits 48 (Rv64.pc s) -> Forall2 feq (addr_limbs (row_pc r)) (addr_limbs (pc_limbs (Rv64.pc s))) ->
  agrees m s -> replay_values m (access_values <$> active_accesses r) = Some m' ->
  exists s', Rv64.step i s = Rv64.Next s' /\ agrees m' s' /\ pc_means (row_next_pc r) (Rv64.pc s').

Definition access_ok (r : Row) (a : Access) : Prop :=
  (access_mult a ≐ 0 \/ access_mult a ≐ 1) /\ (row_real r ≐ 0 -> access_mult a ≐ 0) /\
  (row_real r ≐ 1 -> (exists k, 0 <= k < 2 ^ 24 /\ row_high r ≐ k) -> access_mult a ≐ 1 ->
   time_of (values (access_source a)) < time_of (values (access_target r a))).

(** The interactions of the row on the three buses. *)
Record shows (cs : list call) (r : Row) : Prop := mkShows {
  shows_state_sends : sends InteractionKind.State cs ≡ₚ [row_sent r];
  shows_state_receives : receives InteractionKind.State cs ≡ₚ [row_received r];
  shows_program_sends : sends InteractionKind.Program cs ≡ₚ [row_lookup r];
  shows_program_receives : receives InteractionKind.Program cs = [];
  shows_memory_sends : sends InteractionKind.Memory cs ≡ₚ access_source <$> row_accesses r;
  shows_memory_receives : receives InteractionKind.Memory cs ≡ₚ access_target r <$> row_accesses r }.

Record lawful (cs : list call) (r : Row) : Prop := mkLawful {
  lawful_shows : shows cs r;
  lawful_real : row_real r ≐ 0 \/ row_real r ≐ 1;
  lawful_trusted : is_untrusted_programs_enabled ≐ 0 -> row_trusted r ≐ row_real r;
  lawful_clk : row_real r ≐ 1 -> exists k, 0 <= k < 2 ^ 24 /\ row_low r ≐ k;
  lawful_accesses : Forall (access_ok r) (row_accesses r);
  lawful_positions : StronglySorted (fun a b => position a < position b) (row_accesses r) /\
    Forall (fun a => 0 <= position a < CLK_INC) (row_accesses r);
  lawful_step : row_real r ≐ 1 -> steps r }.
End Interface.

(** An instruction chip: its columns and constraints, how its rows look on
    the buses, and the law. *)
Class InstructionChip `{AirBuilder} `{ShardPublicValues} (cols : Type) := {
  chip_eval : cols -> list call;
  chip_row : cols -> Row;
  chip_lawful c : sat (chip_eval c) -> lawful (chip_eval c) (chip_row c) }.

(** ** The readers' side of the law *)

Section Readers.
Context `{AirBuilder} `{ShardPublicValues}.

Lemma runs_spec r i : runs r i ->
  InstructionCols.opcode (row_instruction r) ≐ Opcode.as_field (Instruction.opcode i) /\
  InstructionCols.op_a (row_instruction r) ≐ Instruction.op_a i /\
  Forall2 feq (word_limbs (InstructionCols.op_b (row_instruction r))) (limbs_of (Instruction.op_b i)) /\
  Forall2 feq (word_limbs (InstructionCols.op_c (row_instruction r))) (limbs_of (Instruction.op_c i)) /\
  InstructionCols.op_a_0 (row_instruction r) ≐ from_bool (Instruction.op_a i =? 0) /\
  InstructionCols.imm_b (row_instruction r) ≐ from_bool (Instruction.imm_b i) /\
  InstructionCols.imm_c (row_instruction r) ≐ from_bool (Instruction.imm_c i).
Proof.
  unfold runs, InstructionCols.into_iter, InstructionCols.populate. intros F. cbn [app InstructionCols.opcode
    InstructionCols.op_a InstructionCols.op_b InstructionCols.op_c InstructionCols.op_a_0 InstructionCols.imm_b
    InstructionCols.imm_c] in F.
  apply Forall2_cons in F as [E1 F]. apply Forall2_cons in F as [E2 F]. apply (Forall2_app_inv) in F as [E3 F]; [|done].
  apply (Forall2_app_inv) in F as [E4 F]; [|done]. apply Forall2_cons in F as [E5 F]. apply Forall2_cons in F as [E6 F].
  apply Forall2_cons in F as [E7 _]. tauto.
Qed.

Lemma as_field_bound o : 0 <= Opcode.as_field o < 64.
Proof. destruct o; cbn; lia. Qed.
Lemma as_field_find o : find (fun o' => Opcode.as_field o' =? Opcode.as_field o) Opcode.all = Some o.
Proof. destruct o; reflexivity. Qed.
Lemma opcode_inj o o' : Opcode.as_field o ≐ Opcode.as_field o' -> o = o'.
Proof.
  intros E. pose proof order_large. pose proof (as_field_bound o). pose proof (as_field_bound o').
  apply feq_small in E; [|lia]. pose proof (as_field_find o) as F. rewrite E, as_field_find in F. congruence.
Qed.

Lemma from_bool_feq b x : from_bool b ≐ x -> x = 0 \/ x = 1 -> b = (x =? 1).
Proof.
  pose proof order_large. intros E Hx. apply feq_small in E; [|destruct b; unfold from_bool; lia].
  subst x. now destruct b.
Qed.

(** Limbs of the immediates and register numbers. *)
Lemma limbs_repr w v : is_u64 v -> Forall2 feq (word_limbs w) (limbs_of v) -> w ∼ v.
Proof. intros Hv F. split; assumption. Qed.

Lemma register_limb x r : 0 <= r < 32 -> Forall2 feq (word_limbs (extend_expr x)) (limbs_of r) -> x ≐ r.
Proof.
  intros Hr F. apply Forall2_cons in F as [E _]. cbn in E. rewrite low_limb in E.
  rewrite Z.mod_small in E by lia. exact E.
Qed.

Lemma register_limb0 w r : 0 <= r < 32 -> Forall2 feq (word_limbs w) (limbs_of r) -> w.[0] ≐ r.
Proof.
  intros Hr F. apply (word_feq_limb _ _ 0) in F. rewrite F. cbn [limb nth word_limbs]. cbn. rewrite low_limb.
  now rewrite Z.mod_small by lia.
Qed.

Lemma canonical_word w v : w ∼ v -> as_canonical <$> word_limbs w = limbs_of v.
Proof.
  intros [Hv F]. apply canonical_matches in F. rewrite F. unfold limbs_of.
  rewrite <- (list_fmap_id (word_limbs (Word_from_u64 v))) at 2. apply list_fmap_ext. intros j x Hx.
  pose proof order_large. unfold as_canonical. apply Z.mod_small. apply list_elem_of_lookup_2 in Hx.
  assert (U : Forall is_u16 (word_limbs (Word_from_u64 v))) by apply limbs_u16.
  rewrite list.Forall_forall in U. specialize (U x Hx). unfold fits in U. unfold id. lia.
Qed.

Lemma canonical_register x r : x ≐ r -> 0 <= r < 32 -> as_canonical <$> addr_limbs (register_addr x) = register_key r.
Proof.
  pose proof order_large. intros E Hr. unfold register_addr, addr_limbs, register_key. simpl.
  rewrite (canonical_small x r), (canonical_small 0 0) by (done || lia). reflexivity.
Qed.

Lemma agrees_read m s x r w : registers_agree m s -> x ≐ r -> 0 <= r < 32 ->
  m !! (as_canonical <$> addr_limbs (register_addr x)) = Some (as_canonical <$> word_limbs w) -> w ∼ Rv64.get s r.
Proof.
  intros Ha E Hr Hm. rewrite (canonical_register x r) in Hm by done. destruct (Ha r _ Hr Hm) as [Hv F].
  split; [done|]. apply canonical_matches. rewrite F. symmetry. now apply canonical_word, represents_from_u64.
Qed.

Lemma get_set_jump s r v p r' :
  Rv64.get (Rv64.jump (Rv64.set s r v) p) r' = if r' =? r then (if r =? 0 then 0 else v) else Rv64.get s r'.
Proof.
  unfold Rv64.get, Rv64.jump, Rv64.set. cbn. destruct (Z.eqb_spec r' r), (Z.eqb_spec r' 0), (Z.eqb_spec r 0); try lia; done.
Qed.

Lemma agrees_write m s x r w v p : registers_agree m s -> x ≐ r -> 0 <= r < 32 -> w ∼ (if r =? 0 then 0 else v) ->
  registers_agree (<[as_canonical <$> addr_limbs (register_addr x) := as_canonical <$> word_limbs w]> m)
    (Rv64.jump (Rv64.set s r v) p).
Proof.
  intros Ha E Hr Hw. rewrite (canonical_register x r) by done. intros r' ws Hr' Hm. rewrite get_set_jump.
  destruct (Z.eqb_spec r' r) as [->|Hne].
  - rewrite lookup_insert_eq in Hm. injection Hm as <-. split; [apply Hw|now apply canonical_word].
  - rewrite lookup_insert_ne in Hm by (unfold register_key; congruence). now apply Ha.
Qed.

(** Registers and memory do not share addresses. *)
Lemma register_not_memory r a : 0 <= r < 32 -> 32 <= a < 2 ^ 48 -> register_key r <> memory_key a.
Proof. unfold register_key, memory_key. intros Hr Ha [= E0 E1 E2]. lia_mod. Qed.
Lemma write_keeps_cells (m : values_map) x r ws a : x ≐ r -> 0 <= r < 32 -> 32 <= a < 2 ^ 48 ->
  <[as_canonical <$> addr_limbs (register_addr x) := ws]> m !! memory_key a = m !! memory_key a.
Proof. intros E Hr Ha. rewrite (canonical_register x r) by done. now apply lookup_insert_ne, register_not_memory. Qed.

(** States that look the same. *)
Lemma agrees_ext m s s' : (forall r, Rv64.get s r = Rv64.get s' r) -> Rv64.mem s = Rv64.mem s' ->
  Rv64.may_read s = Rv64.may_read s' -> Rv64.may_write s = Rv64.may_write s' -> agrees m s -> agrees m s'.
Proof.
  intros Eg Em Er Ew [Hr Hc]. split.
  - intros r ws Br Hm. rewrite <- Eg. now apply Hr.
  - intros a ws Ba Hal Hm. destruct (Hc a ws Ba Hal Hm) as (v & Hv & Ev & Hx). exists v. split; [done|]. split; [done|].
    unfold accessible in *. rewrite <- Em, <- Er, <- Ew. exact Hx.
Qed.

(** Writing back what was read changes nothing. *)
Lemma get_set_same s r p r' : Rv64.get (Rv64.jump (Rv64.set s r (Rv64.get s r)) p) r' = Rv64.get s r'.
Proof.
  rewrite get_set_jump. destruct (Z.eqb_spec r' r) as [->|]; [|done]. now destruct (Z.eqb_spec r 0) as [->|].
Qed.
Lemma agrees_same m s r p : agrees m (Rv64.jump (Rv64.set s r (Rv64.get s r)) p) -> agrees m (Rv64.jump s p).
Proof. apply agrees_ext; try done. intros r'. rewrite get_set_same. reflexivity. Qed.

Lemma replay_read m k v l : replay_values m ((k, v, v) :: l) =
  if decide (m !! k = Some v) then replay_values m l else None.
Proof. cbn. case_decide as D; [|done]. now rewrite insert_id. Qed.
End Readers.

(** ** Readers as a component

    What the four readers of [adapter/register] promise to the chips: the
    instruction they look up, the register accesses they make, and that the
    words they hand over are the operands of that instruction. *)

Definition register_access (pos h x : Z) (cols : RegisterAccessCols.t) (new : Word) (mult : Z) : Access :=
  mkAccess pos (register_addr x) (h, RegisterAccessTimestamp.prev_low (RegisterAccessCols.access_timestamp cols))
    (RegisterAccessCols.prev_value cols) new mult.

(** The operands are read, and the result is what the machine would write. *)
Definition operands_read `{PrimeField} (i : Instruction.t) (s : Rv64.arch) (m' : values_map) (op_a_0 : Z)
  (prev_a b c new : Word) : Prop :=
  op_a_0 ≐ from_bool (Instruction.op_a i =? 0) /\
  prev_a ∼ Rv64.get s (Instruction.op_a i) /\ b ∼ Rv64.operand_b i s /\ c ∼ Rv64.operand_c i s /\
  forall v p, (Instruction.op_a i <> 0 -> new ∼ v) -> agrees m' (Rv64.jump (Rv64.set s (Instruction.op_a i) v) p).

(** What a reader gives on its own: the operands, the registers after its
    accesses, and that it leaves the memory cells alone. *)
Definition operands_given `{PrimeField} (i : Instruction.t) (s : Rv64.arch) (m m' : values_map) (op_a_0 : Z)
  (prev_a b c new : Word) : Prop :=
  op_a_0 ≐ from_bool (Instruction.op_a i =? 0) /\
  prev_a ∼ Rv64.get s (Instruction.op_a i) /\ b ∼ Rv64.operand_b i s /\ c ∼ Rv64.operand_c i s /\
  (forall v p, (Instruction.op_a i <> 0 -> new ∼ v) ->
     registers_agree m' (Rv64.jump (Rv64.set s (Instruction.op_a i) v) p)) /\
  forall a, 32 <= a < 2 ^ 48 -> m' !! memory_key a = m !! memory_key a.

Class OperandReader `{AirBuilder} `{ShardPublicValues} (cols : Type) := {
  reader_eval : Z -> Z -> Z * Z * Z -> Z -> list Z -> Word -> cols -> Z -> list call;
  reader_instruction : Z -> cols -> InstructionCols.t;
  reader_trusted : cols -> Z;
  reader_op_a_0 : cols -> Z;
  reader_prev_a : cols -> Word;
  reader_b : cols -> Word;
  reader_c : cols -> Word;
  reader_accesses : Z -> Word -> cols -> Z -> list Access;
  reader_row (st : CPUState.t) (next_pc : Z * Z * Z) (opcode : Z) (new : Word) (c : cols) (real : Z) : Row :=
    mkRow (CPUState.clk_high st) (CPUState.clk_low st) (CPUState.pc st) next_pc (reader_instruction opcode c) real
      (reader_trusted c) (reader_accesses (CPUState.clk_high st) new c real);
  reader_shows st next_pc opcode consts new c real :
    let cs := reader_eval (CPUState.clk_high st) (CPUState.clk_low st) (CPUState.pc st) opcode consts new c real in
    let r := reader_row st next_pc opcode new c real in
    sends InteractionKind.State cs = [] /\ receives InteractionKind.State cs = [] /\
    sends InteractionKind.Program cs = [row_lookup r] /\ receives InteractionKind.Program cs = [] /\
    sends InteractionKind.Memory cs ≡ₚ access_source <$> row_accesses r /\
    receives InteractionKind.Memory cs ≡ₚ access_target r <$> row_accesses r;
  reader_lawful st next_pc opcode consts new c real :
    (real ≐ 1 -> exists k, 0 <= k < 2 ^ 24 /\ CPUState.clk_low st ≐ k) ->
    sat (reader_eval (CPUState.clk_high st) (CPUState.clk_low st) (CPUState.pc st) opcode consts new c real) ->
    let r := reader_row st next_pc opcode new c real in
    (is_untrusted_programs_enabled ≐ 0 -> reader_trusted c ≐ real) /\ Forall (access_ok r) (row_accesses r);
  reader_positions h new c real : StronglySorted (fun a b => position a < position b) (reader_accesses h new c real) /\
    Forall (fun a => 0 <= position a < CLK_INC) (reader_accesses h new c real);
  reader_reads st next_pc opcode consts new c real i m m' s : real ≐ 1 ->
    sat (reader_eval (CPUState.clk_high st) (CPUState.clk_low st) (CPUState.pc st) opcode consts new c real) ->
    let r := reader_row st next_pc opcode new c real in
    well_formed i = true -> runs r i -> registers_agree m s ->
    replay_values m (access_values <$> active_of (reader_accesses (CPUState.clk_high st) new c real)) = Some m' ->
    opcode ≐ Opcode.as_field (Instruction.opcode i) /\
    operands_given i s m m' (reader_op_a_0 c) (reader_prev_a c) (reader_b c) (reader_c c) new }.

Section ReaderLemmas.
Context `{AirBuilder} `{ShardPublicValues}.

Lemma trust_sound real t : sat (trust_calls real t) -> is_untrusted_programs_enabled ≐ 0 -> t ≐ real.
Proof.
  unfold trust_calls. rewrite !sat_cons. intros (_ & Hu & _ & _ & Hp & _) Hd. apply holds_assert_bool in Hu as [E|E].
  - symmetry. now apply feq_sub_zero.
  - apply holds_when, holds_assert_eq in Hp; [|rewrite E; apply one_not_zero]. rewrite Hd in Hp.
    symmetry in Hp. now apply one_not_zero in Hp.
Qed.

Lemma register_access_ok r pos x acc new mult :
  (row_real r ≐ 1 -> exists k, 0 <= k < 2 ^ 24 /\ row_low r ≐ k) -> 0 <= pos < CLK_INC ->
  (row_real r ≐ 0 -> mult ≐ 0) ->
  sat (eval_register_access_write (row_high r) (row_low r + pos) (register_addr x) acc new mult) ->
  access_ok r (register_access pos (row_high r) x acc new mult).
Proof.
  intros Hk Hp Hz Hs. unfold CLK_INC in Hp. split; [|split; [exact Hz|]].
  - unfold eval_register_access_write in Hs. rewrite sat_cons in Hs. destruct Hs as [Hs _].
    now apply holds_assert_bool in Hs.
  - intros Hr _ Hm. destruct (Hk Hr) as (k & Bk & El).
    apply (register_access_time _ _ (register_addr x) acc new mult (k + pos) Hm); [now rewrite El|lia|done].
Qed.

Lemma active_all l : Forall (fun a => access_mult a ≐ 1) l -> active_of l = l.
Proof.
  unfold active_of. induction 1 as [|a l Ha _ IH]; [done|]. now rewrite filter_cons, decide_True, IH.
Qed.

(** A result for register 0 is forced to zero. *)
Lemma zero_register_sound w v r flag : flag ≐ from_bool (r =? 0) ->
  sat (when_all flag (assert_word_eq w word_zero)) -> (r <> 0 -> w ∼ v) -> w ∼ (if r =? 0 then 0 else v).
Proof.
  intros Ef Hs Hw. destruct (Z.eqb_spec r 0) as [_|Hr]; [|auto]. cbn in Ef.
  split; [unfold fits; lia|]. unfold when_all in Hs.
  assert (N : flag ≭ 0) by (rewrite Ef; apply one_not_zero).
  destruct w as [w0 w1 w2 w3]. cbn in Hs. rewrite !sat_cons in Hs. destruct Hs as (H0' & H1' & H2' & H3' & _).
  apply holds_when, holds_assert_eq in H0', H1', H2', H3'; [|done..]. repeat constructor; assumption.
Qed.

Lemma replay_write m k old new m' : replay_values m [(k, old, new)] = Some m' ->
  m !! k = Some old /\ m' = <[k := new]> m.
Proof. cbn. case_decide; intros [= <-]; done. Qed.

Lemma replay_read_inv m k v l m' : replay_values m ((k, v, v) :: l) = Some m' ->
  m !! k = Some v /\ replay_values m l = Some m'.
Proof. rewrite replay_read. case_decide; [done|discriminate]. Qed.
End ReaderLemmas.

Notation pos_C := (MemoryAccessPosition.as_u64 MemoryAccessPosition.C).
Notation pos_B := (MemoryAccessPosition.as_u64 MemoryAccessPosition.B).
Notation pos_A := (MemoryAccessPosition.as_u64 MemoryAccessPosition.A).

(** The positions of the accesses of every reader. *)
Ltac solve_positions :=
  split; [repeat first [apply SSorted_cons | apply SSorted_nil]; repeat first [apply List.Forall_cons | apply List.Forall_nil];
          cbn; lia
         |repeat first [apply List.Forall_cons | apply List.Forall_nil]; unfold CLK_INC; cbn; lia].
(** The accesses of a reader whose multiplicity is [is_real]. *)
Ltac solve_access r :=
  apply (register_access_ok r); try assumption; [unfold CLK_INC; cbn; lia|done].

(** The columns of the looked-up instruction, and the shape of its operands. *)
Ltac open_runs r i Hw Hruns :=
  apply well_formed_operands in Hw; destruct (runs_spec r i Hruns) as (E1 & E2 & E3 & E4 & E5 & E6 & E7);
  cbn in E1, E2, E3, E4, E5, E6, E7; fold (limbs_of (Instruction.op_b i)) (limbs_of (Instruction.op_c i)) in *;
  symmetry in E6, E7; apply from_bool_feq in E6; [|auto]; cbn in E6; pose proof (op_a_reg i Hw) as Ba.

Section RTypeInstance.
Context `{AirBuilder} `{ShardPublicValues}.

Definition r_accesses (h : Z) (new : Word) (c : RTypeReader.t) (real : Z) : list Access :=
  [register_access pos_C h (RTypeReader.op_c c) (RTypeReader.op_c_memory c) (RTypeReader.c c) real;
   register_access pos_B h (RTypeReader.op_b c) (RTypeReader.op_b_memory c) (RTypeReader.b c) real;
   register_access pos_A h (RTypeReader.op_a c) (RTypeReader.op_a_memory c) new real].

#[global] Program Instance r_reader : OperandReader RTypeReader.t := {
  reader_eval := RTypeReader.eval;
  reader_instruction := RTypeReader.instruction;
  reader_trusted := RTypeReader.is_trusted;
  reader_op_a_0 := RTypeReader.op_a_0;
  reader_prev_a := RTypeReader.prev_a;
  reader_b := RTypeReader.b;
  reader_c := RTypeReader.c;
  reader_accesses := r_accesses }.
Next Obligation.
  intros. do 4 (split; [reflexivity|]). split; [apply (Permutation_rev [_; _; _])|apply (Permutation_rev [_; _; _])].
Qed.
Next Obligation.
  intros st np op consts new c real Hk Hs r. unfold RTypeReader.eval in Hs. rewrite !sat_app in Hs.
  destruct Hs as (Ht & _ & _ & HA & HB & HC). split; [now apply trust_sound|].
  repeat apply List.Forall_cons; try apply List.Forall_nil; solve_access r.
Qed.
Next Obligation.
  intros. solve_positions.
Qed.
Next Obligation.
  intros st np op consts new c real i m m' s Hr Hs r Hw Hruns Ha Hm. unfold RTypeReader.eval in Hs.
  rewrite !sat_app in Hs. destruct Hs as (_ & _ & Hz & _).
  open_runs r i Hw Hruns. apply from_bool_feq in E7; [|auto]. cbn in E7.
  pose proof (op_b_reg i Hw E6) as Bb. pose proof (op_c_reg i Hw E7) as Bc.
  apply (register_limb _ _ Bb) in E3. apply (register_limb _ _ Bc) in E4.
  rewrite active_all in Hm by (repeat constructor; exact Hr). split; [exact E1|].
  apply replay_read_inv in Hm as [HC Hm]. apply replay_read_inv in Hm as [HB Hm].
  apply replay_write in Hm as [HA ->]. unfold operands_given, Rv64.operand_b, Rv64.operand_c. rewrite E6, E7.
  split; [exact E5|]. split; [now apply (agrees_read m s _ _ _ Ha E2)|]. split; [now apply (agrees_read m s _ _ _ Ha E3)|].
  split; [now apply (agrees_read m s _ _ _ Ha E4)|]. split.
  - intros v p Hv. apply agrees_write; try assumption. now apply (zero_register_sound _ _ _ _ E5 Hz).
  - intros a Bka. now apply (write_keeps_cells _ _ (Instruction.op_a i)).
Qed.
End RTypeInstance.

Section ALUTypeInstance.
Context `{AirBuilder} `{ShardPublicValues}.

Definition alu_accesses (h : Z) (new : Word) (c : ALUTypeReader.t) (real : Z) : list Access :=
  [register_access pos_C h (ALUTypeReader.op_c c).[0] (ALUTypeReader.op_c_memory c) (ALUTypeReader.c c)
     (real - ALUTypeReader.imm_c c);
   register_access pos_B h (ALUTypeReader.op_b c) (ALUTypeReader.op_b_memory c) (ALUTypeReader.b c) real;
   register_access pos_A h (ALUTypeReader.op_a c) (ALUTypeReader.op_a_memory c) new real].

Lemma word_eq_sound w w' flag : flag ≐ 1 -> sat (when_all flag (assert_word_eq w w')) ->
  Forall2 feq (word_limbs w) (word_limbs w').
Proof.
  intros Ef Hs. assert (N : flag ≭ 0) by (rewrite Ef; apply one_not_zero).
  destruct w as [w0 w1 w2 w3], w' as [x0 x1 x2 x3]. cbn in Hs. rewrite !sat_cons in Hs.
  destruct Hs as (H0' & H1' & H2' & H3' & _).
  apply holds_when, holds_assert_eq in H0', H1', H2', H3'; [|done..]. repeat constructor; assumption.
Qed.

Lemma alu_operand_c i s m m' c new real h : operands i -> registers_agree m s -> real ≐ 1 ->
  ALUTypeReader.imm_c c ≐ from_bool (Instruction.imm_c i) ->
  Forall2 feq (word_limbs (ALUTypeReader.op_c c)) (limbs_of (Instruction.op_c i)) ->
  sat (when_all (ALUTypeReader.imm_c c) (assert_word_eq (ALUTypeReader.c c) (ALUTypeReader.op_c c))) ->
  replay_values m (access_values <$> active_of (alu_accesses h new c real)) = Some m' ->
  ALUTypeReader.c c ∼ Rv64.operand_c i s /\
  replay_values m (access_values <$> drop 1 (alu_accesses h new c real)) = Some m'.
Proof.
  intros Hw Ha Hr E7 E4 Hc Hm. unfold Rv64.operand_c.
  unfold active_of in Hm. assert (F : filter (fun a => access_mult a ≐ 1) (drop 1 (alu_accesses h new c real)) = drop 1 (alu_accesses h new c real)).
  { unfold alu_accesses. cbn [drop]. now rewrite !filter_cons, !decide_True by exact Hr. }
  unfold alu_accesses in Hm. rewrite filter_cons in Hm. change (filter _ [_; _]) with
    (filter (fun a => access_mult a ≐ 1) (drop 1 (alu_accesses h new c real))) in Hm. rewrite F in Hm.
  destruct (Instruction.imm_c i) eqn:Ei; cbn in E7.
  - pose proof (op_c_imm i Hw Ei) as Bc. rewrite decide_False in Hm.
    + split; [|exact Hm]. split; [done|]. etrans; [exact (word_eq_sound _ _ _ E7 Hc)|exact E4].
    + cbn. rewrite Hr, E7. intros Z0. symmetry in Z0. now apply one_not_zero in Z0.
  - pose proof (op_c_reg i Hw Ei) as Bc. rewrite decide_True in Hm by (cbn; now rewrite Hr, E7).
    apply replay_read_inv in Hm as [HC Hm]. split; [|exact Hm].
    apply (agrees_read m s _ _ _ Ha (register_limb0 _ _ Bc E4) Bc HC).
Qed.

#[global] Program Instance alu_reader : OperandReader ALUTypeReader.t := {
  reader_eval := ALUTypeReader.eval_alu_reader;
  reader_instruction := ALUTypeReader.instruction;
  reader_trusted := ALUTypeReader.is_trusted;
  reader_op_a_0 := ALUTypeReader.op_a_0;
  reader_prev_a := ALUTypeReader.prev_a;
  reader_b := ALUTypeReader.b;
  reader_c := ALUTypeReader.c;
  reader_accesses := alu_accesses }.
Next Obligation.
  intros. do 4 (split; [reflexivity|]). split; [apply (Permutation_rev [_; _; _])|apply (Permutation_rev [_; _; _])].
Qed.
Next Obligation.
  intros st np op consts new c real Hk Hs r. unfold ALUTypeReader.eval_alu_reader in Hs.
  rewrite sat_app, sat_cons, !sat_app in Hs.
  destruct Hs as (Ht & Hi & _ & _ & HA & HB & HC & _). split; [now apply trust_sound|].
  repeat apply List.Forall_cons; try apply List.Forall_nil; [|solve_access r..].
  apply (register_access_ok r); try assumption; [unfold CLK_INC; cbn; lia|].
  intros Z0. change (real ≐ 0) in Z0. apply holds_when_ne, holds_assert_eq in Hi; [now rewrite Z0, Hi|].
  rewrite Z0. intros E. symmetry in E. now apply one_not_zero in E.
Qed.
Next Obligation.
  intros. solve_positions.
Qed.
Next Obligation.
  intros st np op consts new c real i m m' s Hr Hs r Hw Hruns Ha Hm. unfold ALUTypeReader.eval_alu_reader in Hs.
  rewrite sat_app, sat_cons, !sat_app in Hs. destruct Hs as (_ & _ & _ & Hz & _ & _ & _ & Hc).
  open_runs r i Hw Hruns. symmetry in E7. pose proof (op_b_reg i Hw E6) as Bb. apply (register_limb _ _ Bb) in E3.
  destruct (alu_operand_c i s m m' c new real _ Hw Ha Hr E7 E4 Hc Hm) as [Rc Hm']. split; [exact E1|].
  apply replay_read_inv in Hm' as [HB Hm']. apply replay_write in Hm' as [HA ->].
  unfold operands_given, Rv64.operand_b. rewrite E6.
  split; [exact E5|]. split; [now apply (agrees_read m s _ _ _ Ha E2)|]. split; [now apply (agrees_read m s _ _ _ Ha E3)|].
  split; [exact Rc|]. split.
  - intros v p Hv. apply agrees_write; try assumption. now apply (zero_register_sound _ _ _ _ E5 Hz).
  - intros a Bka. now apply (write_keeps_cells _ _ (Instruction.op_a i)).
Qed.
End ALUTypeInstance.

Section ITypeInstance.
Context `{AirBuilder} `{ShardPublicValues}.

Definition i_accesses (h : Z) (new : Word) (c : ITypeReader.t) (real : Z) : list Access :=
  [register_access pos_B h (ITypeReader.op_b c) (ITypeReader.op_b_memory c) (ITypeReader.b c) real;
   register_access pos_A h (ITypeReader.op_a c) (ITypeReader.op_a_memory c) new real].

#[global] Program Instance i_reader : OperandReader ITypeReader.t := {
  reader_eval := ITypeReader.eval;
  reader_instruction := ITypeReader.instruction;
  reader_trusted := ITypeReader.is_trusted;
  reader_op_a_0 := ITypeReader.op_a_0;
  reader_prev_a := ITypeReader.prev_a;
  reader_b := ITypeReader.b;
  reader_c := ITypeReader.c;
  reader_accesses := i_accesses }.
Next Obligation.
  intros. do 4 (split; [reflexivity|]). split; [apply (Permutation_rev [_; _])|apply (Permutation_rev [_; _])].
Qed.
Next Obligation.
  intros st np op consts new c real Hk Hs r. unfold ITypeReader.eval in Hs. rewrite !sat_app in Hs.
  destruct Hs as (Ht & _ & _ & HA & HB). split; [now apply trust_sound|].
  repeat apply List.Forall_cons; try apply List.Forall_nil; solve_access r.
Qed.
Next Obligation.
  intros. solve_positions.
Qed.
Next Obligation.
  intros st np op consts new c real i m m' s Hr Hs r Hw Hruns Ha Hm. unfold ITypeReader.eval in Hs.
  rewrite !sat_app in Hs. destruct Hs as (_ & _ & Hz & _).
  open_runs r i Hw Hruns. apply from_bool_feq in E7; [|auto]. cbn in E7.
  pose proof (op_b_reg i Hw E6) as Bb. pose proof (op_c_imm i Hw E7) as Bc. apply (register_limb _ _ Bb) in E3.
  rewrite active_all in Hm by (repeat constructor; exact Hr). split; [exact E1|].
  apply replay_read_inv in Hm as [HB Hm]. apply replay_write in Hm as [HA ->].
  unfold operands_given, Rv64.operand_b, Rv64.operand_c. rewrite E6, E7.
  split; [exact E5|]. split; [now apply (agrees_read m s _ _ _ Ha E2)|]. split; [now apply (agrees_read m s _ _ _ Ha E3)|].
  split; [now apply limbs_repr|]. split.
  - intros v p Hv. apply agrees_write; try assumption. now apply (zero_register_sound _ _ _ _ E5 Hz).
  - intros a Bka. now apply (write_keeps_cells _ _ (Instruction.op_a i)).
Qed.
End ITypeInstance.

Section JTypeInstance.
Context `{AirBuilder} `{ShardPublicValues}.

Definition j_accesses (h : Z) (new : Word) (c : JTypeReader.t) (real : Z) : list Access :=
  [register_access pos_A h (JTypeReader.op_a c) (JTypeReader.op_a_memory c) new real].

#[global] Program Instance j_reader : OperandReader JTypeReader.t := {
  reader_eval := JTypeReader.eval;
  reader_instruction := JTypeReader.instruction;
  reader_trusted := JTypeReader.is_trusted;
  reader_op_a_0 := JTypeReader.op_a_0;
  reader_prev_a := JTypeReader.prev_a;
  reader_b := JTypeReader.b;
  reader_c := JTypeReader.c;
  reader_accesses := j_accesses }.
Next Obligation.
  intros. do 4 (split; [reflexivity|]). split; reflexivity.
Qed.
Next Obligation.
  intros st np op consts new c real Hk Hs r. unfold JTypeReader.eval in Hs. rewrite !sat_app in Hs.
  destruct Hs as (Ht & _ & _ & HA). split; [now apply trust_sound|].
  repeat apply List.Forall_cons; try apply List.Forall_nil; solve_access r.
Qed.
Next Obligation.
  intros. solve_positions.
Qed.
Next Obligation.
  intros st np op consts new c real i m m' s Hr Hs r Hw Hruns Ha Hm. unfold JTypeReader.eval in Hs.
  rewrite !sat_app in Hs. destruct Hs as (_ & _ & Hz & _).
  open_runs r i Hw Hruns. apply from_bool_feq in E7; [|auto]. cbn in E7.
  pose proof (op_b_imm i Hw E6) as Bb. pose proof (op_c_imm i Hw E7) as Bc.
  rewrite active_all in Hm by (repeat constructor; exact Hr). split; [exact E1|].
  apply replay_write in Hm as [HA ->]. unfold operands_given, Rv64.operand_b, Rv64.operand_c. rewrite E6, E7.
  split; [exact E5|]. split; [now apply (agrees_read m s _ _ _ Ha E2)|]. split; [now apply limbs_repr|].
  split; [now apply limbs_repr|]. split.
  - intros v p Hv. apply agrees_write; try assumption. now apply (zero_register_sound _ _ _ _ E5 Hz).
  - intros a Bka. now apply (write_keeps_cells _ _ (Instruction.op_a i)).
Qed.
End JTypeInstance.

(** ** Chips built from an operation, the processor state and a reader *)

(** No interaction on the three buses. *)
Definition quiet (cs : list call) : Prop :=
  Forall (fun k => sends k cs = [] /\ receives k cs = [])
    [InteractionKind.State; InteractionKind.Program; InteractionKind.Memory].

Section Chips.
Context `{AirBuilder} `{ShardPublicValues}.

Lemma clk_sound st np inc real : real ≐ 1 -> sat (CPUState.eval st np inc real) ->
  exists k, 0 <= k < 2 ^ 24 /\ k mod 8 = 1 /\ CPUState.clk_low st ≐ k.
Proof.
  intros Hr Hs. unfold CPUState.eval in Hs. rewrite sat_app, !sat_cons in Hs.
  destruct Hs as ((_ & _ & _ & Hlo & _) & Hhi).
  destruct (sat_range 13 _ _ _ _ Hlo Hr) as (q & Bq & Eq); [reflexivity|lia|].
  destruct (sat_slice_u8_pair _ _ _ Hhi Hr) as (hi & z & Bhi & _ & Ehi & _).
  assert (E : CPUState.clk_0_16 st ≐ 8 * q + 1).
  { rewrite <- Eq, (Z.mul_comm 8), <- Z.mul_assoc, (finv_mul _ eight_not_zero). apply feq_exists. exists 0. lia. }
  exists (8 * q + 1 + hi * 2 ^ 16). unfold fits in *. split; [lia|]. split; [lia_mod|].
  unfold CPUState.clk_low. change (1 ≪ 16) with (2 ^ 16). now rewrite E, Ehi.
Qed.

Lemma sends_perm k cs cs' : cs ≡ₚ cs' -> sends k cs ≡ₚ sends k cs'.
Proof. intros P. unfold sends. now rewrite P. Qed.
Lemma receives_perm k cs cs' : cs ≡ₚ cs' -> receives k cs ≡ₚ receives k cs'.
Proof. intros P. unfold receives. now rewrite P. Qed.

Lemma quiet_spec cs : quiet cs -> forall k, k = InteractionKind.State \/ k = InteractionKind.Program \/
  k = InteractionKind.Memory -> sends k cs = [] /\ receives k cs = [].
Proof.
  intros Hq k Hk. unfold quiet in Hq. rewrite list.Forall_forall in Hq. apply Hq.
  destruct Hk as [->|[->| ->]]; repeat (left || right).
Qed.

Lemma quiet_app cs cs' : quiet cs -> quiet cs' -> quiet (cs ++ cs').
Proof.
  unfold quiet. rewrite !list.Forall_forall. intros Hp Hq k Hk. specialize (Hp k Hk). specialize (Hq k Hk).
  rewrite sends_app, receives_app. destruct Hp as [-> ->], Hq as [-> ->]. done.
Qed.

(** A reader next to calls that do not touch memory. *)
Lemma given_read i s m m' flag prev_a b c new : cells_agree m s -> operands_given i s m m' flag prev_a b c new ->
  operands_read i s m' flag prev_a b c new.
Proof.
  intros Hc (E & Ha & Hb & Hc' & Hr & Hm). do 4 (split; [done|]). intros v p Hv. split; [now apply Hr|].
  intros a ws Ba Hal Hw. rewrite Hm in Hw by done. now apply (Hc a ws).
Qed.

(** The calls of a chip, in some order, show the reader's row. *)
Lemma chip_shows `{!OperandReader cols} cs op st np opcode consts new (c : cols) real :
  cs ≡ₚ op ++ CPUState.eval st np CLK_INC real ++
    reader_eval (CPUState.clk_high st) (CPUState.clk_low st) (CPUState.pc st) opcode consts new c real ->
  quiet op -> shows cs (reader_row st np opcode new c real).
Proof.
  intros P Hq. destruct (reader_shows st np opcode consts new c real) as (S1 & R1 & S2 & R2 & S3 & R3).
  pose proof (quiet_spec op Hq) as Q.
  destruct (Q InteractionKind.State) as [Qs Qr]; [tauto|]. destruct (Q InteractionKind.Program) as [Qs' Qr']; [tauto|].
  destruct (Q InteractionKind.Memory) as [Qs'' Qr'']; [tauto|].
  split; try (etrans; [apply (sends_perm _ _ _ P)|rewrite !sends_app]);
    try (etrans; [apply (receives_perm _ _ _ P)|rewrite !receives_app]).
  - now rewrite Qs, S1.
  - now rewrite Qr, R1.
  - now rewrite Qs', S2.
  - apply Permutation_nil_r. etrans; [apply (receives_perm _ _ _ P)|]. now rewrite !receives_app, Qr', R2.
  - now rewrite Qs''.
  - now rewrite Qr''.
Qed.

(** A chip is lawful when, on the operands its reader hands over, its
    operation computes what the reference machine would. *)
Lemma chip_is_lawful `{!OperandReader cols} cs op st np opcode consts new (c : cols) real :
  cs ≡ₚ op ++ CPUState.eval st np CLK_INC real ++
    reader_eval (CPUState.clk_high st) (CPUState.clk_low st) (CPUState.pc st) opcode consts new c real ->
  quiet op -> sat cs ->
  (forall i s m', real ≐ 1 -> sat op -> well_formed i = true -> opcode ≐ Opcode.as_field (Instruction.opcode i) ->
     operands_read i s m' (reader_op_a_0 c) (reader_prev_a c) (reader_b c) (reader_c c) new ->
     fits 48 (Rv64.pc s) -> Forall2 feq (addr_limbs (CPUState.pc st)) (addr_limbs (pc_limbs (Rv64.pc s))) ->
     exists s', Rv64.step i s = Rv64.Next s' /\ agrees m' s' /\ pc_means np (Rv64.pc s')) ->
  lawful cs (reader_row st np opcode new c real).
Proof.
  intros P Hq Hs Hstep. assert (Hs' := Hs). unfold sat in Hs'. rewrite P in Hs'. change (Forall sat_call) with sat in Hs'.
  rewrite !sat_app in Hs'. destruct Hs' as (Hop & Hcpu & Hrd).
  assert (Hb : real ≐ 0 \/ real ≐ 1).
  { unfold CPUState.eval in Hcpu. rewrite sat_app, !sat_cons in Hcpu. now apply holds_assert_bool. }
  assert (Hclk : real ≐ 1 -> exists k, 0 <= k < 2 ^ 24 /\ CPUState.clk_low st ≐ k).
  { intros Hr. destruct (clk_sound st np CLK_INC real Hr Hcpu) as (k & Bk & _ & Ek). eauto. }
  split.
  - eapply chip_shows; eassumption.
  - exact Hb.
  - now apply (reader_lawful st np opcode consts new c real Hclk Hrd).
  - exact Hclk.
  - now apply (reader_lawful st np opcode consts new c real Hclk Hrd).
  - apply reader_positions.
  - intros Hr i m m' s Hw Hruns Hpc Hlimbs Ha Hm.
    destruct (reader_reads st np opcode consts new c real i m m' s Hr Hrd Hw Hruns (proj1 Ha) Hm) as [Eo Hops].
    exact (Hstep i s m' Hr Hop Hw Eo (given_read _ _ _ _ _ _ _ _ _ (proj2 Ha) Hops) Hpc Hlimbs).
Qed.

(** The chips of the control flow constrain their operations before, between
    and after the state and the reader. *)
Lemma chip_ordered_lawful `{!OperandReader cols} pre mid post st np opcode consts new (c : cols) real cs :
  cs = pre ++ CPUState.eval st np CLK_INC real ++ mid ++
    reader_eval (CPUState.clk_high st) (CPUState.clk_low st) (CPUState.pc st) opcode consts new c real ++ post ->
  quiet pre -> quiet mid -> quiet post -> sat cs ->
  (forall i s m', real ≐ 1 -> sat pre -> sat mid -> sat post -> well_formed i = true ->
     opcode ≐ Opcode.as_field (Instruction.opcode i) ->
     operands_read i s m' (reader_op_a_0 c) (reader_prev_a c) (reader_b c) (reader_c c) new ->
     fits 48 (Rv64.pc s) -> Forall2 feq (addr_limbs (CPUState.pc st)) (addr_limbs (pc_limbs (Rv64.pc s))) ->
     exists s', Rv64.step i s = Rv64.Next s' /\ agrees m' s' /\ pc_means np (Rv64.pc s')) ->
  lawful cs (reader_row st np opcode new c real).
Proof.
  intros -> Hp Hm Hq Hs Hstep. apply (chip_is_lawful _ (pre ++ mid ++ post) _ _ _ consts); [|now apply quiet_app, quiet_app|exact Hs|].
  - rewrite !(assoc_L (++)). solve_Permutation.
  - intros i s m' Hr Hop. rewrite !sat_app in Hop. destruct Hop as (Hpre & Hmid & Hpost). now apply Hstep.
Qed.

(** The shape of most chips: assertions, an operation, the state, the reader. *)
Lemma chip_parts_lawful `{!OperandReader cols} pre op st np opcode consts new (c : cols) real cs :
  cs = pre ++ op ++ CPUState.eval st np CLK_INC real ++
    reader_eval (CPUState.clk_high st) (CPUState.clk_low st) (CPUState.pc st) opcode consts new c real ->
  quiet pre -> quiet op -> sat cs ->
  (forall i s m', real ≐ 1 -> sat pre -> sat op -> well_formed i = true ->
     opcode ≐ Opcode.as_field (Instruction.opcode i) ->
     operands_read i s m' (reader_op_a_0 c) (reader_prev_a c) (reader_b c) (reader_c c) new ->
     fits 48 (Rv64.pc s) -> Forall2 feq (addr_limbs (CPUState.pc st)) (addr_limbs (pc_limbs (Rv64.pc s))) ->
     exists s', Rv64.step i s = Rv64.Next s' /\ agrees m' s' /\ pc_means np (Rv64.pc s')) ->
  lawful cs (reader_row st np opcode new c real).
Proof.
  intros -> Hp Hq Hs Hstep. apply (chip_is_lawful _ (pre ++ op) _ _ _ consts);
    [now rewrite <- app_assoc|now apply quiet_app|exact Hs|].
  - intros i s m' Hr Hop. rewrite sat_app in Hop. destruct Hop as [Hpre Hop]. now apply Hstep.
Qed.

(** The default next program counter. *)
Definition pc_plus_4 (pc : Z * Z * Z) : Z * Z * Z := (pc.1.1 + PC_INC, pc.1.2, pc.2).

Lemma pc_limbs_value p : fits 48 p -> exists l0 l1 l2, pc_limbs p = (l0, l1, l2) /\
  is_u16 l0 /\ is_u16 l1 /\ is_u16 l2 /\ p = l0 + 2 ^ 16 * l1 + 2 ^ 32 * l2.
Proof.
  intros Hp. unfold pc_limbs. rewrite !low_limb, !Z.shiftr_div_pow2 by lia. eexists _, _, _. split; [reflexivity|].
  unfold fits in *. repeat split; lia_mod.
Qed.

Lemma pc_means_next limbs p : fits 48 p -> Forall2 feq (addr_limbs limbs) (addr_limbs (pc_limbs p)) ->
  pc_means (pc_plus_4 limbs) (Rv64.reg (p + 4)).
Proof.
  intros Hp F. destruct (pc_limbs_value p Hp) as (l0 & l1 & l2 & E & B0 & B1 & B2 & Ev). rewrite E in F.
  destruct limbs as [[x0 x1] x2]. unfold addr_limbs in F. cbn in F.
  apply Forall2_cons in F as [E0 F]. apply Forall2_cons in F as [E1 F]. apply Forall2_cons in F as [E2 _].
  exists (l0 + 4), l1, l2. cbn. unfold PC_INC. rewrite E0, E1, E2. unfold fits in *.
  do 3 (split; [reflexivity|]). repeat (split; [lia|]). unfold Rv64.reg. rewrite Z.mod_small by lia. lia.
Qed.

(** The common case: an arithmetic instruction and the default program counter. *)
Lemma alu_steps i s m' flag b c prev_a new pc v : operands_read i s m' flag prev_a b c new ->
  Rv64.alu (Instruction.opcode i) (Rv64.operand_b i s) (Rv64.operand_c i s) = Some v -> new ∼ v ->
  fits 48 (Rv64.pc s) -> Forall2 feq (addr_limbs pc) (addr_limbs (pc_limbs (Rv64.pc s))) ->
  exists s', Rv64.step i s = Rv64.Next s' /\ agrees m' s' /\ pc_means (pc_plus_4 pc) (Rv64.pc s').
Proof.
  intros (_ & _ & _ & _ & Hag) Halu Hv Hp F. exists (Rv64.next (Rv64.set s (Instruction.op_a i) v)).
  unfold Rv64.step. rewrite Halu. split; [reflexivity|]. split; [now apply Hag; intros _|].
  now apply pc_means_next.
Qed.
End Chips.

(** No interaction on the three buses, by computation. *)
Ltac open_parts Hs :=
  eapply chip_parts_lawful;
    [do 3 (apply (f_equal2 app); [reflexivity|]); cbn [reader_eval r_reader alu_reader i_reader j_reader]; reflexivity
    | | |exact Hs|].
Ltac solve_quiet := unfold quiet; repeat apply List.Forall_cons; try apply List.Forall_nil; split; reflexivity.
(** The flag at [k] of a one-hot selection. *)
Ltac use_flag Hf k := let E := fresh "F" in pose proof (Hf k ltac:(cbn; lia)) as E; cbn in E.
