(* ===== verification/Chips.v ===== *)
(** * Chips: the arithmetic instruction chips

    [alu] of [core/machine]: addition, subtraction, bitwise operations,
    comparisons and multiplications.  For every chip its columns, the trace it
    generates from the executor's events, the byte lookups it depends on, its
    constraints, and that its rows are lawful in the sense of [Rows]: a
    satisfied row takes the step of the reference machine.

    The constants of an instruction word ([funct3], [funct7], base opcode,
    format) go to the fetch of untrusted instructions only; the chips unwrap
    them, and all of them are present. *)
From Stdlib Require Import ZArith Lia Bool Permutation.
From stdpp Require Import base numbers option list gmap.
From S2P Require Import Prelude Isa State Rv64 Refinement Air KoalaBear ByteTable WordAir AddOps LtOps BitOps MulOps Bus MemAir Adapters Rows.
Import Opcode.
#[local] Obligation Tactic := idtac.

(** ** Trace generation ([utils/mod.rs]) *)

(** [None] is the panic on a height that is too small. *)
Definition next_multiple_of_32 (n : nat) (fixed_height : option nat) : option nat :=
  match fixed_height with
  | Some height => check! negb (height <? n)%nat; Some height
  | None =>
      let padded_nb_rows := ((n + 31) / 32 * 32)%nat in
      Some (if (padded_nb_rows <? 16)%nat then 16%nat else padded_nb_rows)
  end.

Definition pad_rows_fixed {R} (rows : list R) (dummy_row : R) (height : option nat) : option (list R) :=
  n ← next_multiple_of_32 (length rows) height; Some (rows ++ replicate (n - length rows) dummy_row).

(** One row per event, then zeroed rows; the lookups of all the rows. *)
Definition generate_trace {E C} (row : E -> option (C * list ByteLookupEvent)) (zero : C) (events : list E)
  (fixed_height : option nat) : option (list C) :=
  rows ← mapM row events; pad_rows_fixed rows.*1 zero fixed_height.
Definition generate_dependencies {E C} (row : E -> option (C * list ByteLookupEvent)) (events : list E) :
  option (list ByteLookupEvent) :=
  rows ← mapM row events; Some (mjoin rows.*2).

(** ** Constants of the instruction word *)
Section Constants.
Context `{InstructionFormats}.
Definition unwrap_funct3 (op : Opcode.t) : Z := default 0 (funct3 op).
Definition unwrap_funct7 (op : Opcode.t) : Z := default 0 (funct7 op).
Definition base (op : Opcode.t) : Z := fst (default (0, None) (base_opcode op)).
Definition imm_base (op : Opcode.t) : Z := default 0 (snd (default (0, None) (base_opcode op))).
Definition instr_type (op : Opcode.t) : Z :=
  match instruction_type op with Some (ty, _) => InstructionType.as_u32 ty | None => 0 end.
Definition instr_type_imm (op : Opcode.t) : Z :=
  match instruction_type op with Some (_, Some ty) => InstructionType.as_u32 ty | _ => 0 end.

(** Of a chip for one opcode, and of one whose last operand may be an immediate. *)
Definition field_consts (op : Opcode.t) : list Z := [instr_type op; base op; unwrap_funct3 op; unwrap_funct7 op].
Definition field_consts_imm (op : Opcode.t) (imm_c : Z) : list Z :=
  [instr_type op - (instr_type op - instr_type_imm op) * imm_c; base op - (base op - imm_base op) * imm_c;
   unwrap_funct3 op; unwrap_funct7 op].
(** Of a chip that selects among opcodes. *)
Definition select (flags : list Z) (f : Opcode.t -> Z) (ops : list Opcode.t) : Z :=
  foldl Z.add 0 (zip_with (fun flag op => flag * f op) flags ops).
End Constants.

(** ** Addition and subtraction ([alu/add_sub]) *)

Module AddChip.
Record t := mk { state : CPUState.t; adapter : RTypeReader.t; add_operation : AddOperation.t; is_real : Z }.
Definition zero : t := mk CPUState.zero RTypeReader.zero (AddOperation.mk word_zero) 0.

Definition event_to_row (event : AluEvent.t) (blu : list ByteLookupEvent) : AddOperation.t * Z * list ByteLookupEvent :=
  let '(add_operation, blu, _) := AddOperation.populate blu (AluEvent.b event) (AluEvent.c event) in
  (add_operation, 1, blu).
Definition generate_row (event : AluEvent.t * RTypeRecord.t) : option (t * list ByteLookupEvent) :=
  let '(add_operation, is_real, blu) := event_to_row event.1 [] in
  let '(state, blu) := CPUState.populate blu (AluEvent.clk event.1) (AluEvent.pc event.1) in
  let '(adapter, blu) := RTypeReader.populate blu event.2 in
  Some (mk state adapter add_operation is_real, blu).

Definition eval `{PrimeField} `{ShardPublicValues} `{InstructionFormats} (local : t) : list call :=
  [Assert (AssertBool (is_real local))] ++
  AddOperation.eval (RTypeReader.b (adapter local)) (RTypeReader.c (adapter local)) (add_operation local) (is_real local) ++
  CPUState.eval (state local) (pc_plus_4 (CPUState.pc (state local))) CLK_INC (is_real local) ++
  RTypeReader.eval (CPUState.clk_high (state local)) (CPUState.clk_low (state local)) (CPUState.pc (state local))
    (Opcode.as_field ADD) (field_consts ADD) (AddOperation.value (add_operation local)) (adapter local) (is_real local).
End AddChip.

Module AddiChip.
Record t := mk { state : CPUState.t; adapter : ITypeReader.t; add_operation : AddOperation.t; is_real : Z }.
Definition zero : t := mk CPUState.zero ITypeReader.zero (AddOperation.mk word_zero) 0.

Definition event_to_row (event : AluEvent.t) (blu : list ByteLookupEvent) : AddOperation.t * Z * list ByteLookupEvent :=
  let '(add_operation, blu, _) := AddOperation.populate blu (AluEvent.b event) (AluEvent.c event) in
  (add_operation, 1, blu).
Definition generate_row (event : AluEvent.t * ITypeRecord.t) : option (t * list ByteLookupEvent) :=
  let '(add_operation, is_real, blu) := event_to_row event.1 [] in
  let '(state, blu) := CPUState.populate blu (AluEvent.clk event.1) (AluEvent.pc event.1) in
  let '(adapter, blu) := ITypeReader.populate blu event.2 in
  Some (mk state adapter add_operation is_real, blu).

Definition eval `{PrimeField} `{ShardPublicValues} `{InstructionFormats} (local : t) : list call :=
  [Assert (AssertBool (is_real local))] ++
  AddOperation.eval (ITypeReader.b (adapter local)) (ITypeReader.c (adapter local)) (add_operation local) (is_real local) ++
  CPUState.eval (state local) (pc_plus_4 (CPUState.pc (state local))) CLK_INC (is_real local) ++
  ITypeReader.eval (CPUState.clk_high (state local)) (CPUState.clk_low (state local)) (CPUState.pc (state local))
    (Opcode.as_field ADDI) (field_consts ADDI) (AddOperation.value (add_operation local)) (adapter local) (is_real local).
End AddiChip.

Module SubChip.
Record t := mk { state : CPUState.t; adapter : RTypeReader.t; sub_operation : SubOperation.t; is_real : Z }.
Definition zero : t := mk CPUState.zero RTypeReader.zero (SubOperation.mk word_zero) 0.

Definition event_to_row (event : AluEvent.t) (blu : list ByteLookupEvent) : SubOperation.t * Z * list ByteLookupEvent :=
  let '(sub_operation, blu, _) := SubOperation.populate blu (AluEvent.b event) (AluEvent.c event) in
  (sub_operation, 1, blu).
Definition generate_row (event : AluEvent.t * RTypeRecord.t) : option (t * list ByteLookupEvent) :=
  let '(sub_operation, is_real, blu) := event_to_row event.1 [] in
  let '(state, blu) := CPUState.populate blu (AluEvent.clk event.1) (AluEvent.pc event.1) in
  let '(adapter, blu) := RTypeReader.populate blu event.2 in
  Some (mk state adapter sub_operation is_real, blu).

Definition eval `{PrimeField} `{ShardPublicValues} `{InstructionFormats} (local : t) : list call :=
  [Assert (AssertBool (is_real local))] ++
  SubOperation.eval (RTypeReader.b (adapter local)) (RTypeReader.c (adapter local)) (sub_operation local) (is_real local) ++
  CPUState.eval (state local) (pc_plus_4 (CPUState.pc (state local))) CLK_INC (is_real local) ++
  RTypeReader.eval (CPUState.clk_high (state local)) (CPUState.clk_low (state local)) (CPUState.pc (state local))
    (Opcode.as_field SUB) (field_consts SUB) (SubOperation.value (sub_operation local)) (adapter local) (is_real local).
End SubChip.

Module AddwChip.
Record t := mk { state : CPUState.t; adapter : ALUTypeReader.t; addw_operation : AddwOperation.t; is_real : Z }.
Definition zero : t := mk CPUState.zero ALUTypeReader.zero (AddwOperation.mk (0, 0) (U16MSBOperation.mk 0)) 0.

Definition event_to_row (event : AluEvent.t) (blu : list ByteLookupEvent) : AddwOperation.t * Z * list ByteLookupEvent :=
  let '(addw_operation, blu) := AddwOperation.populate blu (AluEvent.b event) (AluEvent.c event) in
  (addw_operation, 1, blu).
Definition generate_row (event : AluEvent.t * ALUTypeRecord.t) : option (t * list ByteLookupEvent) :=
  let '(adapter, blu) := ALUTypeReader.populate [] event.2 in
  let '(addw_operation, is_real, blu) := event_to_row event.1 blu in
  let '(state, blu) := CPUState.populate blu (AluEvent.clk event.1) (AluEvent.pc event.1) in
  Some (mk state adapter addw_operation is_real, blu).

Definition word (local : t) : Word :=
  let u16_max := (1 ≪ 16) - 1 in
  let msb := U16MSBOperation.msb (AddwOperation.msb (addw_operation local)) in
  mkWord (AddwOperation.value (addw_operation local)).1 (AddwOperation.value (addw_operation local)).2
    (msb * u16_max) (msb * u16_max).

Definition eval `{PrimeField} `{ShardPublicValues} `{InstructionFormats} (local : t) : list call :=
  [Assert (AssertBool (is_real local))] ++
  AddwOperation.eval (ALUTypeReader.b (adapter local)) (ALUTypeReader.c (adapter local)) (addw_operation local)
    (is_real local) ++
  CPUState.eval (state local) (pc_plus_4 (CPUState.pc (state local))) CLK_INC (is_real local) ++
  ALUTypeReader.eval_alu_reader (CPUState.clk_high (state local)) (CPUState.clk_low (state local))
    (CPUState.pc (state local)) (Opcode.as_field ADDW) (field_consts_imm ADDW (ALUTypeReader.imm_c (adapter local)))
    (word local) (adapter local) (is_real local).
End AddwChip.

Module SubwChip.
Record t := mk { state : CPUState.t; adapter : RTypeReader.t; subw_operation : SubwOperation.t; is_real : Z }.
Definition zero : t := mk CPUState.zero RTypeReader.zero (SubwOperation.mk (0, 0) (U16MSBOperation.mk 0)) 0.

Definition event_to_row (event : AluEvent.t) (blu : list ByteLookupEvent) : SubwOperation.t * Z * list ByteLookupEvent :=
  let '(subw_operation, blu) := SubwOperation.populate blu (AluEvent.b event) (AluEvent.c event) in
  (subw_operation, 1, blu).
Definition generate_row (event : AluEvent.t * RTypeRecord.t) : option (t * list ByteLookupEvent) :=
  let '(subw_operation, is_real, blu) := event_to_row event.1 [] in
  let '(state, blu) := CPUState.populate blu (AluEvent.clk event.1) (AluEvent.pc event.1) in
  let '(adapter, blu) := RTypeReader.populate blu event.2 in
  Some (mk state adapter subw_operation is_real, blu).

Definition word (local : t) : Word :=
  let u16_max := (1 ≪ 16) - 1 in
  let msb := U16MSBOperation.msb (SubwOperation.msb (subw_operation local)) in
  mkWord (SubwOperation.value (subw_operation local)).1 (SubwOperation.value (subw_operation local)).2
    (msb * u16_max) (msb * u16_max).

Definition eval `{PrimeField} `{ShardPublicValues} `{InstructionFormats} (local : t) : list call :=
  [Assert (AssertBool (is_real local))] ++
  SubwOperation.eval (RTypeReader.b (adapter local)) (RTypeReader.c (adapter local)) (subw_operation local)
    (is_real local) ++
  CPUState.eval (state local) (pc_plus_4 (CPUState.pc (state local))) CLK_INC (is_real local) ++
  RTypeReader.eval (CPUState.clk_high (state local)) (CPUState.clk_low (state local)) (CPUState.pc (state local))
    (Opcode.as_field SUBW) (field_consts SUBW) (word local) (adapter local) (is_real local).
End SubwChip.

(** ** Bitwise operations ([alu/bitwise]) *)

Module BitwiseChip.
Record t := mk {
  state : CPUState.t; adapter : ALUTypeReader.t; bitwise_operation : BitwiseU16Operation.t;
  is_xor : Z; is_or : Z; is_and : Z }.
Definition zero : t := mk CPUState.zero ALUTypeReader.zero BitwiseU16Operation.zero 0 0 0.

Definition event_to_row (event : AluEvent.t) (blu : list ByteLookupEvent) :
  option (BitwiseU16Operation.t * (Z * Z * Z) * list ByteLookupEvent) :=
  '(bitwise_operation, blu) ← BitwiseU16Operation.populate_bitwise blu (AluEvent.a event) (AluEvent.b event)
     (AluEvent.c event) (AluEvent.opcode event);
  let equals op := from_bool (bool_decide (AluEvent.opcode event = op)) in
  Some (bitwise_operation, (equals XOR, equals OR, equals AND), blu).
Definition generate_row (event : AluEvent.t * ALUTypeRecord.t) : option (t * list ByteLookupEvent) :=
  let '(adapter, blu) := ALUTypeReader.populate [] event.2 in
  '(bitwise_operation, (is_xor, is_or, is_and), blu) ← event_to_row event.1 blu;
  let '(state, blu) := CPUState.populate blu (AluEvent.clk event.1) (AluEvent.pc event.1) in
  Some (mk state adapter bitwise_operation is_xor is_or is_and, blu).

Definition flags (local : t) : list Z := [is_xor local; is_or local; is_and local].
Definition opcodes : list Opcode.t := [XOR; OR; AND].
Definition cpu_opcode (local : t) : Z := select (flags local) Opcode.as_field opcodes.
Definition byte_opcode (local : t) : Z :=
  is_xor local * ByteOpcode.as_field ByteOpcode.XOR + is_or local * ByteOpcode.as_field ByteOpcode.OR +
  is_and local * ByteOpcode.as_field ByteOpcode.AND.
Definition is_real (local : t) : Z := is_xor local + is_or local + is_and local.

Definition consts `{InstructionFormats} (local : t) : list Z :=
  [select (flags local) instr_type opcodes - (instr_type XOR - instr_type_imm XOR) * ALUTypeReader.imm_c (adapter local);
   select (flags local) base opcodes - (base XOR - imm_base XOR) * ALUTypeReader.imm_c (adapter local);
   select (flags local) unwrap_funct3 opcodes; select (flags local) unwrap_funct7 opcodes].

(** The calls of the operation, and the result. *)
Definition bitwise_calls `{PrimeField} (local : t) : list call * Word :=
  BitwiseU16Operation.eval_bitwise_u16 (ALUTypeReader.b (adapter local)) (ALUTypeReader.c (adapter local))
    (bitwise_operation local) (byte_opcode local) (is_real local).

Definition eval `{PrimeField} `{ShardPublicValues} `{InstructionFormats} (local : t) : list call :=
  [Assert (AssertBool (is_xor local)); Assert (AssertBool (is_or local)); Assert (AssertBool (is_and local));
   Assert (AssertBool (is_real local))] ++
  (bitwise_calls local).1 ++
  CPUState.eval (state local) (pc_plus_4 (CPUState.pc (state local))) CLK_INC (is_real local) ++
  ALUTypeReader.eval_alu_reader (CPUState.clk_high (state local)) (CPUState.clk_low (state local))
    (CPUState.pc (state local)) (cpu_opcode local) (consts local) (bitwise_calls local).2 (adapter local)
    (is_real local).
End BitwiseChip.

(** ** Comparisons ([alu/lt]) *)

Module LtChip.
Record t := mk {
  state : CPUState.t; adapter : ALUTypeReader.t; is_slt : Z; is_sltu : Z; lt_operation : LtOperationSigned.t }.
Definition zero : t := mk CPUState.zero ALUTypeReader.zero 0 0 LtOperationSigned.default.

Definition event_to_row (event : AluEvent.t) (blu : list ByteLookupEvent) :
  LtOperationSigned.t * (Z * Z) * list ByteLookupEvent :=
  let equals op := bool_decide (AluEvent.opcode event = op) in
  let '(lt_operation, blu) := LtOperationSigned.populate_signed LtOperationSigned.default blu (AluEvent.a event)
    (AluEvent.b event) (AluEvent.c event) (equals SLT) in
  (lt_operation, (from_bool (equals SLT), from_bool (equals SLTU)), blu).
Definition generate_row (event : AluEvent.t * ALUTypeRecord.t) : option (t * list ByteLookupEvent) :=
  let '(adapter, blu) := ALUTypeReader.populate [] event.2 in
  let '(lt_operation, (is_slt, is_sltu), blu) := event_to_row event.1 blu in
  let '(state, blu) := CPUState.populate blu (AluEvent.clk event.1) (AluEvent.pc event.1) in
  Some (mk state adapter is_slt is_sltu lt_operation, blu).

Definition flags (local : t) : list Z := [is_slt local; is_sltu local].
Definition opcodes : list Opcode.t := [SLT; SLTU].
Definition opcode (local : t) : Z := select (flags local) Opcode.as_field opcodes.
Definition is_real (local : t) : Z := is_slt local + is_sltu local.

Definition consts `{InstructionFormats} (local : t) : list Z :=
  [select (flags local) instr_type opcodes - (instr_type SLT - instr_type_imm SLT) * ALUTypeReader.imm_c (adapter local);
   select (flags local) base opcodes - (base SLT - imm_base SLT) * ALUTypeReader.imm_c (adapter local);
   select (flags local) unwrap_funct3 opcodes; select (flags local) unwrap_funct7 opcodes].

Definition result (local : t) : Word :=
  extend_expr (U16CompareOperation.bit (LtOperationUnsigned.u16_compare_operation
    (LtOperationSigned.result (lt_operation local)))).

Definition eval `{PrimeField} `{ShardPublicValues} `{InstructionFormats} (local : t) : list call :=
  [Assert (AssertBool (is_slt local)); Assert (AssertBool (is_sltu local)); Assert (AssertBool (is_real local))] ++
  LtOperationSigned.eval_lt_signed (ALUTypeReader.b (adapter local)) (ALUTypeReader.c (adapter local))
    (lt_operation local) (is_slt local) (is_real local) ++
  CPUState.eval (state local) (pc_plus_4 (CPUState.pc (state local))) CLK_INC (is_real local) ++
  ALUTypeReader.eval_alu_reader (CPUState.clk_high (state local)) (CPUState.clk_low (state local))
    (CPUState.pc (state local)) (opcode local) (consts local) (result local) (adapter local) (is_real local).
End LtChip.

(** ** Multiplications ([alu/mul]) *)

Module MulChip.
Record t := mk {
  state : CPUState.t; adapter : RTypeReader.t; a : Word; mul_operation : MulOperation.t;
  is_mul : Z; is_mulh : Z; is_mulhu : Z; is_mulhsu : Z; is_mulw : Z }.
Definition zero : t := mk CPUState.zero RTypeReader.zero word_zero MulOperation.zero 0 0 0 0 0.

Definition event_to_row (event : AluEvent.t) (blu : list ByteLookupEvent) :
  Word * MulOperation.t * (Z * Z * Z * Z * Z) * list ByteLookupEvent :=
  let equals op := bool_decide (AluEvent.opcode event = op) in
  let '(mul_operation, blu) := MulOperation.populate blu (AluEvent.b event) (AluEvent.c event)
    (equals MULH) (equals MULHSU) (equals MULW) in
  (Word_from_u64 (AluEvent.a event), mul_operation,
   (from_bool (equals MUL), from_bool (equals MULH), from_bool (equals MULHU), from_bool (equals MULHSU), from_bool (equals MULW)), blu).
Definition generate_row (event : AluEvent.t * RTypeRecord.t) : option (t * list ByteLookupEvent) :=
  let '(adapter, blu) := RTypeReader.populate [] event.2 in
  let '(a, mul_operation, (is_mul, is_mulh, is_mulhu, is_mulhsu, is_mulw), blu) := event_to_row event.1 blu in
  let '(state, blu) := CPUState.populate blu (AluEvent.clk event.1) (AluEvent.pc event.1) in
  Some (mk state adapter a mul_operation is_mul is_mulh is_mulhu is_mulhsu is_mulw, blu).

Definition flags (local : t) : list Z := [is_mul local; is_mulh local; is_mulhu local; is_mulhsu local; is_mulw local].
Definition opcodes : list Opcode.t := [MUL; MULH; MULHU; MULHSU; MULW].
Definition opcode (local : t) : Z := select (flags local) Opcode.as_field opcodes.
Definition is_real (local : t) : Z :=
  is_mul local + is_mulh local + is_mulhu local + is_mulhsu local + is_mulw local.

Definition consts `{InstructionFormats} (local : t) : list Z :=
  [select (flags local) instr_type opcodes; select (flags local) base opcodes;
   select (flags local) unwrap_funct3 opcodes; select (flags local) unwrap_funct7 opcodes].

Definition eval `{PrimeField} `{ShardPublicValues} `{InstructionFormats} (local : t) : list call :=
  MulOperation.eval (a local) (RTypeReader.b (adapter local)) (RTypeReader.c (adapter local)) (mul_operation local)
    (is_real local) (is_mul local) (is_mulh local) (is_mulw local) (is_mulhu local) (is_mulhsu local) ++
  [Assert (AssertBool (is_mul local)); Assert (AssertBool (is_mulh local)); Assert (AssertBool (is_mulhu local));
   Assert (AssertBool (is_mulw local)); Assert (AssertBool (is_mulhsu local)); Assert (AssertBool (is_real local))] ++
  CPUState.eval (state local) (pc_plus_4 (CPUState.pc (state local))) CLK_INC (is_real local) ++
  RTypeReader.eval (CPUState.clk_high (state local)) (CPUState.clk_low (state local)) (CPUState.pc (state local))
    (opcode local) (consts local) (a local) (adapter local) (is_real local).
End MulChip.

(** ** The chips are lawful *)

Section OneHot.
Context `{PrimeField}.

Lemma bool_sum fs : Forall (fun f => f ≐ 0 \/ f ≐ 1) fs -> exists n, 0 <= n <= Z.of_nat (length fs) /\
  foldr Z.add 0 fs ≐ n /\ (n = 0 -> Forall (fun f => f ≐ 0) fs).
Proof.
  induction 1 as [|f fs Hf _ (n & Bn & En & Zn)].
  - exists 0. split; [cbn; lia|]. split; [reflexivity|constructor].
  - cbn [length foldr]. destruct Hf as [E|E].
    + exists n. split; [lia|]. split; [now rewrite E, En|]. intros E0. constructor; auto.
    + exists (1 + n). split; [lia|]. split; [now rewrite E, En|]. lia.
Qed.

(** Boolean selectors whose sum is one: exactly one of them is set. *)
Lemma one_hot fs : Forall (fun f => f ≐ 0 \/ f ≐ 1) fs -> (length fs < 64)%nat -> foldr Z.add 0 fs ≐ 1 ->
  exists j, (j < length fs)%nat /\ forall k, (k < length fs)%nat -> nth k fs 0 ≐ from_bool (Nat.eqb k j).
Proof.
  pose proof order_large as Ho. intros Hb Hl Hs. induction Hb as [|f fs Hf Hb IH].
  - cbn in Hs. apply feq_small in Hs; lia.
  - cbn [foldr length] in *. destruct Hf as [E|E]; rewrite E in Hs.
    + destruct IH as (j & Hj & Hk); [lia|exact Hs|]. exists (S j). split; [lia|].
      intros [|k] Bk; [exact E|]. apply Hk. lia.
    + destruct (bool_sum fs Hb) as (n & Bn & En & Zn). rewrite En in Hs. apply feq_small in Hs; [|lia].
      exists 0%nat. split; [lia|]. intros [|k] Bk; [exact E|]. cbn.
      assert (Z0 : Forall (fun f => f ≐ 0) fs) by (apply Zn; lia). rewrite list.Forall_forall in Z0.
      apply Z0, list_elem_of_In, nth_In. lia.
Qed.
End OneHot.

Section Lawful.
Context `{AirBuilder} `{ShardPublicValues} `{InstructionFormats}.

(** A chip is its parts, and none of its operations uses the three buses. *)
Lemma lt_signed_quiet b c cols is_signed r : quiet (LtOperationSigned.eval_lt_signed b c cols is_signed r).
Proof. destruct cols as [[? ? ? []] ? ?]. solve_quiet. Qed.
Ltac open_chip Hs := open_parts Hs; [solve_quiet|first [apply lt_signed_quiet | solve_quiet]|].

(** The operations against the manual. *)
Lemma alu_add op b c : op = ADD \/ op = ADDI -> Rv64.alu op b c = Some (u64 (b + c)).
Proof. intros [->| ->]; cbn; unfold Rv64.reg, Rv64.unsigned, u64, wrap; now rewrite <- Zplus_mod. Qed.
Lemma alu_sub b c : Rv64.alu SUB b c = Some (u64 (b - c)).
Proof. cbn. unfold Rv64.reg, Rv64.unsigned, u64, wrap. now rewrite <- Zminus_mod. Qed.
Lemma alu_addw b c : Rv64.alu ADDW b c = Some (u64 (i32 (b + c))).
Proof. cbn. rewrite word_i32, <- !sext_signed by lia. do 2 f_equal. solve_ints. Qed.
Lemma alu_subw b c : Rv64.alu SUBW b c = Some (u64 (i32 (b - c))).
Proof. cbn. rewrite word_i32, <- !sext_signed by lia. do 2 f_equal. solve_ints. Qed.

#[global] Program Instance add_chip : InstructionChip AddChip.t := {
  chip_eval := AddChip.eval;
  chip_row local := reader_row (AddChip.state local) (pc_plus_4 (CPUState.pc (AddChip.state local)))
    (Opcode.as_field ADD) (AddOperation.value (AddChip.add_operation local)) (AddChip.adapter local) (AddChip.is_real local) }.
Next Obligation.
  intros local Hs. unfold AddChip.eval in *. open_chip Hs. intros i s m' Hr _ Hop Hw Eo Hops. apply opcode_inj in Eo.
  destruct (Hops) as (_ & _ & Hb & Hc & _). eapply alu_steps; [exact Hops|rewrite <- Eo; apply alu_add; auto|].
  exact (add_sound _ _ _ _ _ _ Hb Hc Hr Hop).
Qed.

#[global] Program Instance addi_chip : InstructionChip AddiChip.t := {
  chip_eval := AddiChip.eval;
  chip_row local := reader_row (AddiChip.state local) (pc_plus_4 (CPUState.pc (AddiChip.state local)))
    (Opcode.as_field ADDI) (AddOperation.value (AddiChip.add_operation local)) (AddiChip.adapter local)
    (AddiChip.is_real local) }.
Next Obligation.
  intros local Hs. unfold AddiChip.eval in *. open_chip Hs. intros i s m' Hr _ Hop Hw Eo Hops. apply opcode_inj in Eo.
  destruct (Hops) as (_ & _ & Hb & Hc & _). eapply alu_steps; [exact Hops|rewrite <- Eo; apply alu_add; auto|].
  exact (add_sound _ _ _ _ _ _ Hb Hc Hr Hop).
Qed.

#[global] Program Instance sub_chip : InstructionChip SubChip.t := {
  chip_eval := SubChip.eval;
  chip_row local := reader_row (SubChip.state local) (pc_plus_4 (CPUState.pc (SubChip.state local)))
    (Opcode.as_field SUB) (SubOperation.value (SubChip.sub_operation local)) (SubChip.adapter local) (SubChip.is_real local) }.
Next Obligation.
  intros local Hs. unfold SubChip.eval in *. open_chip Hs. intros i s m' Hr _ Hop Hw Eo Hops. apply opcode_inj in Eo.
  destruct (Hops) as (_ & _ & Hb & Hc & _). eapply alu_steps; [exact Hops|rewrite <- Eo; apply alu_sub|].
  exact (sub_sound _ _ _ _ _ _ Hb Hc Hr Hop).
Qed.

#[global] Program Instance addw_chip : InstructionChip AddwChip.t := {
  chip_eval := AddwChip.eval;
  chip_row local := reader_row (AddwChip.state local) (pc_plus_4 (CPUState.pc (AddwChip.state local)))
    (Opcode.as_field ADDW) (AddwChip.word local) (AddwChip.adapter local) (AddwChip.is_real local) }.
Next Obligation.
  intros local Hs. unfold AddwChip.eval in *. open_chip Hs. intros i s m' Hr _ Hop Hw Eo Hops. apply opcode_inj in Eo.
  destruct (Hops) as (_ & _ & Hb & Hc & _). eapply alu_steps; [exact Hops|rewrite <- Eo; apply alu_addw|].
  exact (addw_sound _ _ _ _ _ _ Hb Hc Hr Hop).
Qed.

#[global] Program Instance subw_chip : InstructionChip SubwChip.t := {
  chip_eval := SubwChip.eval;
  chip_row local := reader_row (SubwChip.state local) (pc_plus_4 (CPUState.pc (SubwChip.state local)))
    (Opcode.as_field SUBW) (SubwChip.word local) (SubwChip.adapter local) (SubwChip.is_real local) }.
Next Obligation.
  intros local Hs. unfold SubwChip.eval in *. open_chip Hs. intros i s m' Hr _ Hop Hw Eo Hops. apply opcode_inj in Eo.
  destruct (Hops) as (_ & _ & Hb & Hc & _). eapply alu_steps; [exact Hops|rewrite <- Eo; apply alu_subw|].
  exact (subw_sound _ _ _ _ _ _ Hb Hc Hr Hop).
Qed.

Lemma bool_asserts fs : sat (Assert <$> (AssertBool <$> fs)) -> Forall (fun f => f ≐ 0 \/ f ≐ 1) fs.
Proof.
  induction fs as [|f fs IH]; intros Hs; [constructor|]. cbn in Hs. apply sat_cons in Hs as [Hf Hs].
  constructor; [now apply holds_assert_bool|auto].
Qed.

(** The opcode a one-hot selection stands for. *)
Lemma select_one_hot flags ops j (f : Opcode.t -> Z) : length flags = length ops ->
  (forall k, (k < length flags)%nat -> nth k flags 0 ≐ from_bool (Nat.eqb k j)) -> (j < length flags)%nat ->
  select flags f ops ≐ f (nth j ops ADD).
Proof.
  unfold select. intros Hl Hf Hj.
  assert (G : forall acc, foldl Z.add acc (zip_with (fun flag op => flag * f op) flags ops) ≐ acc + f (nth j ops ADD)).
  { revert ops j Hl Hf Hj. induction flags as [|fl flags IH]; intros [|o ops] j Hl Hf Hj acc; cbn in *; try lia.
    pose proof (Hf 0%nat ltac:(lia)) as E0. cbn in E0. destruct j as [|j]; cbn in E0.
    - assert (Zs : Forall (fun x => x ≐ 0) flags).
      { rewrite list.Forall_forall. intros x Hx. apply list_elem_of_In, (In_nth _ _ 0) in Hx as (k & Hk & <-).
        exact (Hf (S k) ltac:(lia)). }
      transitivity (acc + fl * f o); [|now rewrite E0, Z.mul_1_l]. clear - Zs. generalize (acc + fl * f o). revert ops.
      induction Zs as [|x xs Hx _ IH]; intros [|o' ops] a; cbn; try reflexivity.
      rewrite IH, Hx. apply feq_exists. exists 0. lia.
    - rewrite (IH ops j), E0 by (try lia; intros k Hk; exact (Hf (S k) ltac:(lia))). apply feq_exists. exists 0. lia. }
  rewrite G. reflexivity.
Qed.

Lemma selected flags ops op : length flags = length ops -> (length flags < 64)%nat ->
  Forall (fun f => f ≐ 0 \/ f ≐ 1) flags -> foldr Z.add 0 flags ≐ 1 ->
  select flags Opcode.as_field ops ≐ Opcode.as_field op ->
  exists j, (j < length ops)%nat /\ op = nth j ops ADD /\
    forall k, (k < length flags)%nat -> nth k flags 0 ≐ from_bool (Nat.eqb k j).
Proof.
  intros Hl Hn Hb Hs He. destruct (one_hot flags Hb Hn Hs) as (j & Hj & Hf). exists j. split; [lia|].
  split; [|exact Hf]. rewrite (select_one_hot flags ops j Opcode.as_field Hl Hf Hj) in He.
  symmetry. now apply opcode_inj.
Qed.

Lemma selected_two f0 f1 op0 op1 op : (f0 ≐ 0 \/ f0 ≐ 1) -> (f1 ≐ 0 \/ f1 ≐ 1) -> f0 + f1 ≐ 1 ->
  select [f0; f1] Opcode.as_field [op0; op1] ≐ Opcode.as_field op ->
  exists first : bool, op = (if first then op0 else op1) /\ f0 ≐ from_bool first /\ f1 ≐ from_bool (negb first).
Proof.
  intros B0 B1 Hr Eo. destruct (selected [f0; f1] [op0; op1] op) as (j & Hj & Ei & Hf);
    [reflexivity|cbn; lia|repeat (apply List.Forall_cons; [assumption|]); apply List.Forall_nil| |exact Eo|].
  { rewrite <- Hr. apply feq_exists. exists 0. cbn. lia. }
  use_flag Hf 0%nat. use_flag Hf 1%nat. destruct j as [|[|j]]; [exists true|exists false|cbn in Hj; lia]; now split.
Qed.

Lemma unsigned_small v : is_u64 v -> Rv64.unsigned 64 v = v.
Proof. apply Z.mod_small. Qed.

#[global] Program Instance bitwise_chip : InstructionChip BitwiseChip.t := {
  chip_eval := BitwiseChip.eval;
  chip_row local := reader_row (BitwiseChip.state local) (pc_plus_4 (CPUState.pc (BitwiseChip.state local)))
    (BitwiseChip.cpu_opcode local) (BitwiseChip.bitwise_calls local).2 (BitwiseChip.adapter local)
    (BitwiseChip.is_real local) }.
Next Obligation.
  intros local Hs. unfold BitwiseChip.eval in *. open_chip Hs. intros i s m' Hr Hpre Hop Hw Eo Hops.
  destruct (Hops) as (_ & _ & Hb & Hc & _). cbn in Hb, Hc. rewrite !sat_cons in Hpre. destruct Hpre as (B0 & B1 & B2 & _ & _).
  apply holds_assert_bool in B0, B1, B2.
  destruct (selected (BitwiseChip.flags local) BitwiseChip.opcodes (Instruction.opcode i)) as (j & Hj & Ei & Hf);
    [reflexivity|cbn; lia|repeat (apply List.Forall_cons; [assumption|]); apply List.Forall_nil| |exact Eo|].
  { rewrite <- Hr. apply feq_exists. exists 0. unfold BitwiseChip.is_real. cbn. lia. }
  use_flag Hf 0%nat. use_flag Hf 1%nat. use_flag Hf 2%nat.
  assert (G : exists o, is_bitop o /\ BitwiseChip.byte_opcode local ≐ ByteOpcode.as_field o /\
    Rv64.alu (Instruction.opcode i) (Rv64.operand_b i s) (Rv64.operand_c i s) =
      Some (bitop o (Rv64.operand_b i s) (Rv64.operand_c i s))).
  { unfold BitwiseChip.byte_opcode. rewrite Ei. pose proof (unsigned_small _ (proj1 Hb)) as Ub.
    pose proof (unsigned_small _ (proj1 Hc)) as Uc. unfold is_bitop.
    destruct j as [|[|[|j]]]; cbn in Hj; [| | |lia]; cbn; rewrite Ub, Uc;
      [exists ByteOpcode.XOR|exists ByteOpcode.OR|exists ByteOpcode.AND]; split; auto;
      (split; [rewrite F, F0, F1|]); reflexivity. }
  destruct G as (o & Ho & Eb & Ealu). eapply alu_steps; [exact Hops|exact Ealu|].
  exact (bitwise_u16_sound _ _ _ _ o _ _ _ Ho Hb Hc Eb Hr Hop).
Qed.

Lemma bit_word x b : x ≐ from_bool b -> extend_expr x ∼ from_bool b.
Proof.
  intros E. split; [unfold fits; destruct b; cbn; lia|]. unfold extend_expr. cbn [word_limbs].
  destruct b; repeat constructor; cbn in *; assumption || reflexivity.
Qed.

#[global] Program Instance lt_chip : InstructionChip LtChip.t := {
  chip_eval := LtChip.eval;
  chip_row local := reader_row (LtChip.state local) (pc_plus_4 (CPUState.pc (LtChip.state local)))
    (LtChip.opcode local) (LtChip.result local) (LtChip.adapter local) (LtChip.is_real local) }.
Next Obligation.
  intros local Hs. unfold LtChip.eval in *. open_chip Hs. intros i s m' Hr Hpre Hop Hw Eo Hops.
  destruct (Hops) as (_ & _ & Hb & Hc & _). cbn in Hb, Hc. rewrite !sat_cons in Hpre. destruct Hpre as (B0 & B1 & _ & _).
  apply holds_assert_bool in B0, B1.
  destruct (selected (LtChip.flags local) LtChip.opcodes (Instruction.opcode i)) as (j & Hj & Ei & Hf);
    [reflexivity|cbn; lia|repeat (apply List.Forall_cons; [assumption|]); apply List.Forall_nil| |exact Eo|].
  { rewrite <- Hr. apply feq_exists. exists 0. unfold LtChip.is_real. cbn. lia. }
  use_flag Hf 0%nat. pose proof (lt_signed_sound _ _ _ _ _ _ _ _ Hb Hc Hr F Hop) as V.
  eapply alu_steps; [exact Hops| |exact (bit_word _ _ V)]. rewrite Ei.
  pose proof (unsigned_small _ (proj1 Hb)) as Ub. pose proof (unsigned_small _ (proj1 Hc)) as Uc. unfold less_than.
  destruct j as [|[|j]]; cbn in Hj; [| |lia]; cbn; rewrite <- ?sext_signed, ?Ub, ?Uc by lia; reflexivity.
Qed.

#[global] Program Instance mul_chip : InstructionChip MulChip.t := {
  chip_eval := MulChip.eval;
  chip_row local := reader_row (MulChip.state local) (pc_plus_4 (CPUState.pc (MulChip.state local)))
    (MulChip.opcode local) (MulChip.a local) (MulChip.adapter local) (MulChip.is_real local) }.
Next Obligation.
  intros local Hs. unfold MulChip.eval in *. open_chip Hs. intros i s m' Hr Hop Hpre Hw Eo Hops.
  destruct (Hops) as (_ & _ & Hb & Hc & _). cbn in Hb, Hc. rewrite !sat_cons in Hpre.
  destruct Hpre as (B0 & B1 & B2 & B4 & B3 & _ & _). apply holds_assert_bool in B0, B1, B2, B3, B4.
  destruct (selected (MulChip.flags local) MulChip.opcodes (Instruction.opcode i)) as (j & Hj & Ei & Hf);
    [reflexivity|cbn; lia|repeat (apply List.Forall_cons; [assumption|]); apply List.Forall_nil| |exact Eo|].
  { rewrite <- Hr. apply feq_exists. exists 0. unfold MulChip.is_real. cbn. lia. }
  use_flag Hf 0%nat. use_flag Hf 1%nat. use_flag Hf 2%nat. use_flag Hf 3%nat. use_flag Hf 4%nat.
  assert (G : exists v, Rv64.alu (Instruction.opcode i) (Rv64.operand_b i s) (Rv64.operand_c i s) = Some v /\
    MulChip.a local ∼ v).
  { eapply mul_sound; [|exact Hb|exact Hc|exact Hr| | | | | |exact Hop]; [rewrite Ei; apply nth_In; exact Hj|..];
      rewrite ?F, ?F0, ?F1, ?F2, ?F3, Ei; destruct j as [|[|[|[|[|j]]]]]; cbn in Hj; (lia || reflexivity). }
  destruct G as (v & Ev & Hv).
  eapply alu_steps; [exact Hops|exact Ev|exact Hv].
Qed.
End Lawful.
