(* ===== verification/ControlChips.v ===== *)
(** * ControlChips: jumps, branches and upper immediates

    [control_flow] and [utype] of [core/machine]: for each chip its columns,
    the trace it generates, its constraints, and that its rows are lawful. *)
From Stdlib Require Import ZArith Lia Bool Permutation.
From stdpp Require Import base numbers option list gmap.
From S2P Require Import Prelude Isa State Rv64 Refinement Air KoalaBear ByteTable WordAir AddOps LtOps BitOps MulOps Bus MemAir Adapters Rows Chips.
Import Opcode.
#[local] Obligation Tactic := idtac.

(** A program counter as a word, and the word of a constant. *)
Definition pc_word (pc : Z * Z * Z) : Word := mkWord pc.1.1 pc.1.2 pc.2 0.
Definition next_pc_of (w : Word) : Z * Z * Z := (w.[0], w.[1], w.[2]).
Definition zero_add : AddOperation.t := AddOperation.mk word_zero.

(** A multiple of four below [2^16]. *)
Definition send_multiple_of_4 `{PrimeField} (limb is_real : Z) : call :=
  send_byte (ByteOpcode.as_u8 ByteOpcode.Range) (limb * finv 4) 14 0 is_real.

(** [pc + 4] is written to [op_a], unless that is register 0. *)
Definition link_calls `{PrimeField} (pc : Z * Z * Z) (op_a_0 : Z) (op_a_operation : AddOperation.t) (is_real : Z) :
  list call :=
  Assert (when_not is_real (AssertZero op_a_0)) ::
  AddOperation.eval (pc_word pc) (mkWord 4 0 0 0) op_a_operation (is_real - op_a_0) ++
  [Assert (AssertZero (AddOperation.value op_a_operation).[3])] ++
  ((fun i => Assert (When op_a_0 (AssertZero (AddOperation.value op_a_operation).[i]))) <$> seq 0 3).

Module UTypeChip.
Record t := mk {
  state : CPUState.t; adapter : JTypeReader.t; addend : Z * Z * Z; add_operation : AddOperation.t;
  is_auipc : Z; is_real : Z }.
Definition zero : t := mk CPUState.zero JTypeReader.zero (0, 0, 0) zero_add 0 0.

Definition generate_row (event : UTypeEvent.t * JTypeRecord.t) : option (t * list ByteLookupEvent) :=
  let is_auipc := bool_decide (UTypeEvent.opcode event.1 = AUIPC) in
  let '(addend, add_operation, blu) :=
    if negb (JTypeRecord.op_a event.2 =? 0) then
      let a := if is_auipc then UTypeEvent.pc event.1 else 0 in
      let '(add_operation, blu, _) := AddOperation.populate [] a (UTypeEvent.b event.1) in
      ((u16 (Z.land a 0xFFFF), u16 (a ≫ 16), u16 (a ≫ 32)), add_operation, blu)
    else ((0, 0, 0), zero_add, []) in
  let '(state, blu) := CPUState.populate blu (UTypeEvent.clk event.1) (UTypeEvent.pc event.1) in
  let '(adapter, blu) := JTypeReader.populate blu event.2 in
  Some (mk state adapter addend add_operation (from_bool is_auipc) 1, blu).

Definition either (local : t) (f : Opcode.t -> Z) : Z :=
  is_auipc local * f AUIPC + (1 - is_auipc local) * f LUI.

Definition eval `{PrimeField} `{ShardPublicValues} `{InstructionFormats} (local : t) : list call :=
  let pc := CPUState.pc (state local) in
  [Assert (AssertBool (is_real local)); Assert (AssertBool (is_auipc local))] ++
  CPUState.eval (state local) (pc_plus_4 pc) CLK_INC (is_real local) ++
  (map Assert (assert_word_eq (pc_word (addend local)) (select_word (is_auipc local) (pc_word pc) word_zero)) ++
   Assert (when_not (is_real local) (AssertZero (JTypeReader.op_a_0 (adapter local)))) ::
   AddOperation.eval (pc_word (addend local)) (JTypeReader.b (adapter local)) (add_operation local)
     (is_real local - JTypeReader.op_a_0 (adapter local))) ++
  JTypeReader.eval (CPUState.clk_high (state local)) (CPUState.clk_low (state local)) pc
    (either local Opcode.as_field)
    [either local instr_type; either local base; either local unwrap_funct3; either local unwrap_funct7]
    (AddOperation.value (add_operation local)) (adapter local) (is_real local).
End UTypeChip.

Module JalChip.
Record t := mk {
  state : CPUState.t; adapter : JTypeReader.t; add_operation : AddOperation.t; op_a_operation : AddOperation.t;
  is_real : Z }.
Definition zero : t := mk CPUState.zero JTypeReader.zero zero_add zero_add 0.

Definition generate_row (event : JumpEvent.t * JTypeRecord.t) : option (t * list ByteLookupEvent) :=
  let pc := JumpEvent.pc event.1 in
  let low_limb := u16 (Z.land (pc +ₗ JumpEvent.b event.1) 0xFFFF) in
  let blu := add_bit_range_check [] (low_limb / 4) 14 in
  let '(add_operation, blu, _) := AddOperation.populate blu pc (JumpEvent.b event.1) in
  let '(op_a_operation, blu) :=
    if negb (JumpEvent.op_a_0 event.1) then
      let '(op_a_operation, blu, _) := AddOperation.populate blu pc 4 in (op_a_operation, blu)
    else (zero_add, blu) in
  let '(state, blu) := CPUState.populate blu (JumpEvent.clk event.1) pc in
  let '(adapter, blu) := JTypeReader.populate blu event.2 in
  Some (mk state adapter add_operation op_a_operation 1, blu).

Definition eval `{PrimeField} `{ShardPublicValues} `{InstructionFormats} (local : t) : list call :=
  let pc := CPUState.pc (state local) in
  let next_pc := AddOperation.value (add_operation local) in
  (Assert (AssertBool (is_real local)) ::
   AddOperation.eval (pc_word pc) (JTypeReader.b (adapter local)) (add_operation local) (is_real local) ++
   [Assert (AssertZero next_pc.[3]); send_multiple_of_4 next_pc.[0] (is_real local)]) ++
  CPUState.eval (state local) (next_pc_of next_pc) CLK_INC (is_real local) ++
  link_calls pc (JTypeReader.op_a_0 (adapter local)) (op_a_operation local) (is_real local) ++
  JTypeReader.eval (CPUState.clk_high (state local)) (CPUState.clk_low (state local)) pc
    (Opcode.as_field JAL) (field_consts JAL) (AddOperation.value (op_a_operation local)) (adapter local)
    (is_real local).
End JalChip.

Module JalrChip.
Record t := mk {
  state : CPUState.t; adapter : ITypeReader.t; op_a_value : Word; is_real : Z;
  add_operation : AddOperation.t; op_a_operation : AddOperation.t }.
Definition zero : t := mk CPUState.zero ITypeReader.zero word_zero 0 zero_add zero_add.

Definition event_to_row (event : JumpEvent.t) (imm : Z) (blu : list ByteLookupEvent) :
  Word * Z * AddOperation.t * AddOperation.t * list ByteLookupEvent :=
  let low_limb := u16 (Z.land (JumpEvent.b event +ₗ imm) 0xFFFF) in
  let blu := add_bit_range_check blu (low_limb / 4) 14 in
  let '(add_operation, blu, _) := AddOperation.populate blu (JumpEvent.b event) imm in
  let '(op_a_operation, blu) :=
    if negb (JumpEvent.op_a_0 event) then
      let '(op_a_operation, blu, _) := AddOperation.populate blu (JumpEvent.pc event) 4 in (op_a_operation, blu)
    else (zero_add, blu) in
  (Word_from_u64 (JumpEvent.a event), 1, add_operation, op_a_operation, blu).
Definition generate_row (event : JumpEvent.t * ITypeRecord.t) : option (t * list ByteLookupEvent) :=
  let '(op_a_value, is_real, add_operation, op_a_operation, blu) :=
    event_to_row event.1 (ITypeRecord.op_c event.2) [] in
  let '(state, blu) := CPUState.populate blu (JumpEvent.clk event.1) (JumpEvent.pc event.1) in
  let '(adapter, blu) := ITypeReader.populate blu event.2 in
  Some (mk state adapter op_a_value is_real add_operation op_a_operation, blu).

Definition eval `{PrimeField} `{ShardPublicValues} `{InstructionFormats} (local : t) : list call :=
  let pc := CPUState.pc (state local) in
  let next_pc := AddOperation.value (add_operation local) in
  (Assert (AssertBool (is_real local)) ::
   AddOperation.eval (ITypeReader.b (adapter local)) (ITypeReader.c (adapter local)) (add_operation local)
     (is_real local) ++
   [Assert (AssertZero next_pc.[3]); send_multiple_of_4 next_pc.[0] (is_real local)]) ++
  CPUState.eval (state local) (next_pc_of next_pc) CLK_INC (is_real local) ++
  ITypeReader.eval (CPUState.clk_high (state local)) (CPUState.clk_low (state local)) pc
    (Opcode.as_field JALR) (field_consts JALR) (AddOperation.value (op_a_operation local)) (adapter local)
    (is_real local) ++
  link_calls pc (ITypeReader.op_a_0 (adapter local)) (op_a_operation local) (is_real local).
End JalrChip.

Module BranchChip.
Record t := mk {
  state : CPUState.t; adapter : ITypeReader.t; next_pc : Z * Z * Z;
  is_beq : Z; is_bne : Z; is_blt : Z; is_bge : Z; is_bltu : Z; is_bgeu : Z;
  is_branching : Z; compare_operation : LtOperationSigned.t }.
Definition zero : t := mk CPUState.zero ITypeReader.zero (0, 0, 0) 0 0 0 0 0 0 0 LtOperationSigned.default.

(** [None] is the [unreachable!] of the match on the opcode. *)
Definition event_to_row `{PrimeField} (event : BranchEvent.t) (blu : list ByteLookupEvent) :
  option ((Z * Z * Z) * LtOperationSigned.t * Z * list ByteLookupEvent) :=
  let a := BranchEvent.a event in
  let b := BranchEvent.b event in
  let a_eq_b := a =? b in
  let use_signed_comparison := match BranchEvent.opcode event with BLT | BGE => true | _ => false end in
  let a_lt_b := if use_signed_comparison then i64 a <? i64 b else a <? b in
  branching ← match BranchEvent.opcode event with
              | BEQ => Some a_eq_b
              | BNE => Some (negb a_eq_b)
              | BLT | BLTU => Some a_lt_b
              | BGE | BGEU => Some (negb a_lt_b)
              | _ => None
              end;
  let '(compare_operation, blu) := LtOperationSigned.populate_signed LtOperationSigned.default blu
    (from_bool a_lt_b) a b use_signed_comparison in
  let next_pc := pc_limbs (BranchEvent.next_pc event) in
  let blu := add_bit_range_check blu (u16 (Z.land (BranchEvent.next_pc event) 0xFFFF) / 4) 14 in
  let blu := add_u16_range_checks blu [next_pc.1.2; next_pc.2] in
  Some (next_pc, compare_operation, from_bool branching, blu).
Definition generate_row `{PrimeField} (event : BranchEvent.t * ITypeRecord.t) : option (t * list ByteLookupEvent) :=
  '(next_pc, compare_operation, is_branching, blu) ← event_to_row event.1 [];
  let '(state, blu) := CPUState.populate blu (BranchEvent.clk event.1) (BranchEvent.pc event.1) in
  let '(adapter, blu) := ITypeReader.populate blu event.2 in
  let equals op := from_bool (bool_decide (BranchEvent.opcode event.1 = op)) in
  Some (mk state adapter next_pc (equals BEQ) (equals BNE) (equals BLT) (equals BGE) (equals BLTU) (equals BGEU)
    is_branching compare_operation, blu).

Definition flags (local : t) : list Z :=
  [is_beq local; is_bne local; is_blt local; is_bge local; is_bltu local; is_bgeu local].
Definition opcodes : list Opcode.t := [BEQ; BNE; BLT; BGE; BLTU; BGEU].
Definition is_real (local : t) : Z :=
  is_beq local + is_bne local + is_blt local + is_bge local + is_bltu local + is_bgeu local.
Definition consts `{InstructionFormats} (local : t) : list Z :=
  [select (flags local) instr_type opcodes; select (flags local) base opcodes;
   select (flags local) unwrap_funct3 opcodes; select (flags local) unwrap_funct7 opcodes].

(** Whether the branch is taken, from the comparison and the opcode. *)
Definition branching (local : t) : Z :=
  let result := LtOperationSigned.result (compare_operation local) in
  let is_eq := 1 - ((LtOperationUnsigned.u16_flags result).[0] + (LtOperationUnsigned.u16_flags result).[1] +
                    (LtOperationUnsigned.u16_flags result).[2] + (LtOperationUnsigned.u16_flags result).[3]) in
  let is_less_than := U16CompareOperation.bit (LtOperationUnsigned.u16_compare_operation result) in
  0 + is_beq local * is_eq + is_bne local * (1 - is_eq) + (is_bge local + is_bgeu local) * (1 - is_less_than) +
  (is_blt local + is_bltu local) * is_less_than.

(** The carries of [pc + increment = next_pc] over four limbs. *)
Definition carry_calls `{PrimeField} (flag : Z) (pc : Z * Z * Z) (increment : Word) (next_pc : Z * Z * Z) : list call :=
  when_all flag (AssertBool <$>
    carries (zip_with Z.add (word_limbs (pc_word pc)) (word_limbs increment)) (word_limbs (pc_word next_pc)) 0).

Definition eval `{PrimeField} `{ShardPublicValues} `{InstructionFormats} (local : t) : list call :=
  let pc := CPUState.pc (state local) in
  [Assert (AssertBool (is_beq local)); Assert (AssertBool (is_bne local)); Assert (AssertBool (is_blt local));
   Assert (AssertBool (is_bge local)); Assert (AssertBool (is_bltu local)); Assert (AssertBool (is_bgeu local));
   Assert (AssertBool (is_real local))] ++
  CPUState.eval (state local) (next_pc local) CLK_INC (is_real local) ++
  ITypeReader.eval_op_a_immutable (CPUState.clk_high (state local)) (CPUState.clk_low (state local)) pc
    (select (flags local) Opcode.as_field opcodes) (consts local) (adapter local) (is_real local) ++
  (LtOperationSigned.eval_lt_signed (ITypeReader.prev_a (adapter local)) (ITypeReader.b (adapter local))
     (compare_operation local) (is_blt local + is_bge local) (is_real local) ++
   [Assert (AssertBool (is_branching local));
    Assert (When (is_real local) (AssertEq (is_branching local) (branching local)))] ++
   carry_calls (is_branching local) pc (ITypeReader.c (adapter local)) (next_pc local) ++
   carry_calls (is_real local - is_branching local) pc (mkWord PC_INC 0 0 0) (next_pc local) ++
   [send_multiple_of_4 (next_pc local).1.1 (is_real local)] ++
   slice_range_check_u16 [(next_pc local).1.2; (next_pc local).2] (is_real local)).
End BranchChip.

(** ** The chips are lawful *)

Section Lemmas.
Context `{AirBuilder}.

Lemma pc_word_repr limbs p : fits 48 p -> Forall2 feq (addr_limbs limbs) (addr_limbs (pc_limbs p)) -> pc_word limbs ∼ p.
Proof.
  intros Hp F. destruct (pc_limbs_value p Hp) as (l0 & l1 & l2 & E & B0 & B1 & B2 & ->). rewrite E in F.
  destruct limbs as [[x0 x1] x2]. unfold addr_limbs in F. cbn in F.
  apply Forall2_cons in F as [E0 F]. apply Forall2_cons in F as [E1 F]. apply Forall2_cons in F as [E2 _].
  replace (l0 + 2 ^ 16 * l1 + 2 ^ 32 * l2) with (l0 + 2 ^ 16 * l1 + 2 ^ 32 * l2 + 2 ^ 48 * 0) by lia.
  apply represents_intro; try assumption; [unfold fits; lia|reflexivity].
Qed.

(** Carried limbs mean the word they are. *)
Lemma pc_means_word limbs v : pc_word limbs ∼ v -> pc_means limbs v.
Proof.
  intros Hw. destruct_word Hw as x0 x1 x2 x3. destruct limbs as [[y0 y1] y2].
  match goal with E : (pc_word _).[3] ≐ x3 |- _ => cbn in E; apply feq_small in E;
    [subst x3|pose proof order_large; unfold fits in *; lia] end.
  exists x0, x1, x2. unfold fits in *. repeat (split; [assumption || lia|]). lia.
Qed.

Lemma pc_means_value w v : w ∼ v -> w.[3] ≐ 0 -> pc_means (next_pc_of w) v.
Proof.
  intros Hw Z3. apply pc_means_word. destruct w as [w0 w1 w2 w3]. destruct Hw as [Hv F]. split; [exact Hv|].
  cbn in Z3. etrans; [|exact F]. repeat constructor. now symmetry.
Qed.

Lemma four_not_zero : 4 ≭ 0.
Proof. intros E. pose proof order_large. apply feq_small in E; lia. Qed.

Lemma multiple_of_4_sound limb r : r ≐ 1 -> sat_call (send_multiple_of_4 limb r) ->
  exists q, 0 <= q < 2 ^ 14 /\ limb ≐ 4 * q.
Proof.
  intros Hr Hs. destruct (sat_range 14 _ _ _ _ Hs Hr) as (q & Bq & Eq); [reflexivity|lia|]. exists q. split; [exact Bq|].
  rewrite <- Eq, Z.mul_comm, <- Z.mul_assoc, (finv_mul _ four_not_zero). apply feq_exists. exists 0. lia.
Qed.

Lemma represents_multiple w v q : w ∼ v -> w.[0] ≐ 4 * q -> 0 <= q < 2 ^ 14 -> v mod 4 = 0.
Proof.
  intros Hw E Hq. destruct_word Hw as x0 x1 x2 x3.
  match goal with E' : w.[0] ≐ x0 |- _ => rewrite E' in E end.
  pose proof order_large. unfold fits in *. apply feq_small in E; [|lia]. lia_mod.
Qed.

(** The link register. *)
Lemma link_sound limbs p flag op r (a : Z) : fits 48 p ->
  Forall2 feq (addr_limbs limbs) (addr_limbs (pc_limbs p)) -> r ≐ 1 -> flag ≐ from_bool (a =? 0) ->
  sat (link_calls limbs flag op r) -> a <> 0 -> AddOperation.value op ∼ Rv64.reg (p + 4).
Proof.
  intros Hp F Hr Ef Hs Ha. unfold link_calls in Hs. rewrite sat_cons, sat_app in Hs. destruct Hs as (_ & Hs & _).
  apply Z.eqb_neq in Ha. rewrite Ha in Ef. cbn in Ef.
  apply (add_sound _ _ p 4 _ _ (pc_word_repr _ _ Hp F)) in Hs; [exact Hs| |now rewrite Hr, Ef].
  split; [unfold fits; lia|]. repeat constructor; reflexivity.
Qed.

Lemma carry_sound flag pc inc np p v n : flag ≐ 1 -> pc_word pc ∼ p -> inc ∼ v -> pc_word np ∼ n ->
  sat (BranchChip.carry_calls flag pc inc np) -> n = u64 (p + v).
Proof.
  intros Hf Hp Hv Hn Hs. unfold BranchChip.carry_calls in Hs. apply sat_when_bool in Hs; [|exact Hf].
  destruct (word_terms _ _ _ _ Hp Hv) as (ts & Ft & Bt & Et).
  destruct (proj2 (holds_value_word _ _) Hn) as (ls & Hu & Fl & El).
  assert (Fv : Forall2 (fun v v' => v ≐ v' /\ is_u16 v') (word_limbs (pc_word np)) ls).
  { clear - Fl Hu. induction Fl; inversion_clear Hu; constructor; auto. }
  destruct (carries_sound _ _ _ _ 0 0 (terms_bounded _ _ Ft Bt) Fv eq_refl (reflexivity 0) ltac:(unfold fits; lia) Hs)
    as [k Ek].
  rewrite Et, El in Ek. change (16 * Z.of_nat (length (word_limbs (pc_word np)))) with 64 in Ek.
  destruct Hn as [Hn _]. unfold fits, u64, wrap in *.
  apply (Z.mod_unique_pos _ _ k); lia.
Qed.
End Lemmas.

Section Lawful.
Context `{AirBuilder} `{ShardPublicValues} `{InstructionFormats}.

(** Nothing after the reader, or nothing between it and the state. *)
Ltac open_before Hs :=
  eapply (chip_ordered_lawful _ _ []);
    [rewrite app_nil_r; do 3 (apply (f_equal2 app); [reflexivity|]); cbn [reader_eval j_reader]; reflexivity
    |solve_quiet|solve_quiet|solve_quiet|exact Hs|].
Ltac open_after Hs :=
  eapply (chip_ordered_lawful _ []);
    [do 2 (apply (f_equal2 app); [reflexivity|]); cbn [app reader_eval i_reader];
     apply (f_equal2 app); reflexivity|solve_quiet|solve_quiet| |exact Hs|].

(** The shapes of the operands. *)
Lemma format_spec i : well_formed i = true ->
  match Instruction.opcode i with
  | JAL | LUI | AUIPC => Instruction.imm_b i = true /\ Instruction.imm_c i = true
  | JALR | BEQ | BNE | BLT | BGE | BLTU | BGEU => Instruction.imm_b i = false /\ Instruction.imm_c i = true
  | _ => True
  end.
Proof.
  intros Hw. apply well_formed_operands, op_format in Hw. unfold format_ok in Hw.
  destruct (Instruction.opcode i); try exact I; destruct (Instruction.imm_b i), (Instruction.imm_c i); cbn in Hw;
    try discriminate; auto.
Qed.

#[global] Program Instance jal_chip : InstructionChip JalChip.t := {
  chip_eval := JalChip.eval;
  chip_row local := reader_row (JalChip.state local) (next_pc_of (AddOperation.value (JalChip.add_operation local)))
    (Opcode.as_field JAL) (AddOperation.value (JalChip.op_a_operation local)) (JalChip.adapter local)
    (JalChip.is_real local) }.
Next Obligation.
  intros local Hs. unfold JalChip.eval in *. cbv zeta in *. open_before Hs.
  intros i s m' Hr Hpre Hmid _ Hw Eo Hops Hpc Hl. apply opcode_inj in Eo. pose proof (format_spec i Hw) as Hf.
  rewrite <- Eo in Hf. destruct Hf as [Fb Fc]. destruct Hops as (E0 & _ & Hb & _ & Hag).
  unfold Rv64.operand_b in Hb. rewrite Fb in Hb. cbn in Hb, E0.
  rewrite sat_cons, sat_app, !sat_cons in Hpre. destruct Hpre as (_ & Hadd & Hz & _). apply holds_assert_zero in Hz.
  pose proof (add_sound _ _ _ _ _ _ (pc_word_repr _ _ Hpc Hl) Hb Hr Hadd) as V.
  eexists. unfold Rv64.step. rewrite <- Eo. cbn. split; [reflexivity|]. split.
  - apply Hag. intros Ha. exact (link_sound _ _ _ _ _ _ Hpc Hl Hr E0 Hmid Ha).
  - cbn. now apply pc_means_value.
Qed.

#[global] Program Instance jalr_chip : InstructionChip JalrChip.t := {
  chip_eval := JalrChip.eval;
  chip_row local := reader_row (JalrChip.state local) (next_pc_of (AddOperation.value (JalrChip.add_operation local)))
    (Opcode.as_field JALR) (AddOperation.value (JalrChip.op_a_operation local)) (JalrChip.adapter local)
    (JalrChip.is_real local) }.
Next Obligation.
  intros local Hs. unfold JalrChip.eval in *. cbv zeta in *. open_after Hs; [solve_quiet|].
  intros i s m' Hr Hpre _ Hpost Hw Eo Hops Hpc Hl. apply opcode_inj in Eo. pose proof (format_spec i Hw) as Hf.
  rewrite <- Eo in Hf. destruct Hf as [Fb Fc]. destruct Hops as (E0 & _ & Hb & Hc & Hag).
  unfold Rv64.operand_b, Rv64.operand_c in Hb, Hc. rewrite Fb in Hb. rewrite Fc in Hc. cbn in Hb, Hc, E0.
  rewrite sat_cons, sat_app, !sat_cons in Hpre. destruct Hpre as (_ & Hadd & Hz & H4 & _). apply holds_assert_zero in Hz.
  pose proof (add_sound _ _ _ _ _ _ Hb Hc Hr Hadd) as V.
  destruct (multiple_of_4_sound _ _ Hr H4) as (q & Bq & Eq). pose proof (represents_multiple _ _ _ V Eq Bq) as M4.
  eexists. unfold Rv64.step. rewrite <- Eo. cbn. split; [reflexivity|]. split.
  - apply Hag. intros Ha. exact (link_sound _ _ _ _ _ _ Hpc Hl Hr E0 Hpost Ha).
  - cbn. change (Rv64.reg (?x + ?y)) with (u64 (x + y)). set (t := u64 _) in *.
    replace (Rv64.reg (t - t mod 2)) with t; [now apply pc_means_value|].
    destruct V as [Bt _]. unfold fits in Bt. unfold Rv64.reg. lia_mod.
Qed.

Lemma utype_addend_sound local p : fits 48 p ->
  Forall2 feq (addr_limbs (CPUState.pc (UTypeChip.state local))) (addr_limbs (pc_limbs p)) ->
  (UTypeChip.is_auipc local ≐ 0 \/ UTypeChip.is_auipc local ≐ 1) ->
  sat (map Assert (assert_word_eq (pc_word (UTypeChip.addend local))
    (select_word (UTypeChip.is_auipc local) (pc_word (CPUState.pc (UTypeChip.state local))) word_zero))) ->
  exists auipc : bool, UTypeChip.is_auipc local ≐ from_bool auipc /\
    pc_word (UTypeChip.addend local) ∼ (if auipc then p else 0).
Proof.
  intros Hp Hl Hb Hs. pose proof (pc_word_repr _ _ Hp Hl) as [Bp Fp].
  assert (F : Forall2 feq (word_limbs (pc_word (UTypeChip.addend local))) (word_limbs (select_word
    (UTypeChip.is_auipc local) (pc_word (CPUState.pc (UTypeChip.state local))) word_zero))).
  { cbn in Hs. rewrite !sat_cons in Hs. destruct Hs as (E0 & E1 & E2 & E3 & _).
    apply holds_assert_eq in E0, E1, E2, E3. repeat constructor; assumption. }
  assert (S : forall w, (forall i, (select_word (UTypeChip.is_auipc local)
    (pc_word (CPUState.pc (UTypeChip.state local))) word_zero).[i] ≐ w.[i]) ->
    Forall2 feq (word_limbs (pc_word (UTypeChip.addend local))) (word_limbs w)).
  { intros w Hi. etrans; [exact F|]. now apply word_feq_intro. }
  destruct Hb as [Eb|Eb]; [exists false|exists true]; (split; [exact Eb|]).
  - split; [unfold fits; lia|]. apply (S word_zero). intros [|[|[|[|[|i]]]]]; cbn; unfold if_else; rewrite ?Eb;
      apply feq_exists; exists 0; cbn; lia.
  - split; [exact Bp|]. etrans; [|exact Fp]. apply S. intros [|[|[|[|[|i]]]]]; cbn; unfold if_else; rewrite ?Eb;
      apply feq_exists; exists 0; cbn; lia.
Qed.

#[global] Program Instance utype_chip : InstructionChip UTypeChip.t := {
  chip_eval := UTypeChip.eval;
  chip_row local := reader_row (UTypeChip.state local) (pc_plus_4 (CPUState.pc (UTypeChip.state local)))
    (UTypeChip.either local Opcode.as_field) (AddOperation.value (UTypeChip.add_operation local))
    (UTypeChip.adapter local) (UTypeChip.is_real local) }.
Next Obligation.
  intros local Hs. unfold UTypeChip.eval in *. cbv zeta in *. open_before Hs.
  intros i s m' Hr Hpre Hmid _ Hw Eo Hops Hpc Hl. destruct Hops as (E0 & _ & Hb & _ & Hag). cbn in Hb, E0.
  rewrite !sat_cons in Hpre. destruct Hpre as (_ & Hauipc & _). apply holds_assert_bool in Hauipc.
  rewrite sat_app, sat_cons in Hmid. destruct Hmid as (Heq & _ & Hadd).
  destruct (utype_addend_sound local _ Hpc Hl Hauipc Heq) as (auipc & Ea & Hd).
  assert (Ei : Instruction.opcode i = if auipc then AUIPC else LUI).
  { symmetry. apply opcode_inj. rewrite <- Eo. unfold UTypeChip.either. rewrite Ea.
    apply feq_exists. exists 0. destruct auipc; cbn; lia. }
  pose proof (format_spec i Hw) as Hf.
  assert (Fb : Instruction.imm_b i = true) by (rewrite Ei in Hf; destruct auipc; apply Hf). clear Hf.
  unfold Rv64.operand_b in Hb. rewrite Fb in Hb. pose proof (proj1 Hb) as Ub.
  assert (V : Instruction.op_a i <> 0 ->
    AddOperation.value (UTypeChip.add_operation local) ∼ u64 ((if auipc then Rv64.pc s else 0) + Instruction.op_b i)).
  { intros Ha. apply Z.eqb_neq in Ha. rewrite Ha in E0. cbn in E0.
    apply (add_sound _ _ _ _ _ _ Hd Hb) in Hadd; [exact Hadd|now rewrite Hr, E0]. }
  unfold Rv64.step. rewrite Ei. destruct auipc; cbn; eexists; (split; [reflexivity|]); split.
  - now apply Hag.
  - cbn. now apply pc_means_next.
  - apply Hag. intros Ha. specialize (V Ha). rewrite Z.add_0_l in V. unfold u64, wrap in V.
    unfold fits in Ub. now rewrite Z.mod_small in V.
  - cbn. now apply pc_means_next.
Qed.

(** The branch decision of the columns is the manual's. *)
Lemma branching_sound local op j va vb : op = nth j BranchChip.opcodes ADD -> (j < 6)%nat ->
  (forall k, (k < 6)%nat -> nth k (BranchChip.flags local) 0 ≐ from_bool (Nat.eqb k j)) ->
  BranchChip.is_real local ≐ 1 -> ITypeReader.prev_a (BranchChip.adapter local) ∼ va ->
  ITypeReader.b (BranchChip.adapter local) ∼ vb ->
  sat (LtOperationSigned.eval_lt_signed (ITypeReader.prev_a (BranchChip.adapter local))
    (ITypeReader.b (BranchChip.adapter local)) (BranchChip.compare_operation local)
    (BranchChip.is_blt local + BranchChip.is_bge local) (BranchChip.is_real local)) ->
  exists taken, Rv64.branch op va vb = Some taken /\ BranchChip.branching local ≐ from_bool taken.
Proof.
  intros Eop Hj Hf Hr Ha Hb Hs. use_flag Hf 0%nat. use_flag Hf 1%nat. use_flag Hf 2%nat. use_flag Hf 3%nat.
  use_flag Hf 4%nat. use_flag Hf 5%nat. clear Hf.
  set (sg := match op with BLT | BGE => true | _ => false end).
  assert (Es : BranchChip.is_blt local + BranchChip.is_bge local ≐ from_bool sg).
  { rewrite F1, F2. subst sg op. destruct j as [|[|[|[|[|[|j]]]]]]; (lia || reflexivity). }
  destruct (lt_signed_reduces _ _ va vb _ sg _ _ Ha Hb Hr Es Hs) as [Elt Eeq].
  pose proof (unsigned_small _ (proj1 Ha)) as Ua. pose proof (unsigned_small _ (proj1 Hb)) as Ub.
  unfold flags_equal in Eeq. unfold BranchChip.branching. cbv zeta.
  set (eq := 1 - _) in *. set (bit := U16CompareOperation.bit _) in *.
  exists (match op with BEQ => va =? vb | BNE => negb (va =? vb) | BLT | BLTU => less_than sg va vb
          | _ => negb (less_than sg va vb) end).
  split.
  - subst op sg. destruct j as [|[|[|[|[|[|j]]]]]]; [..|lia]; cbn; rewrite ?Ua, ?Ub; unfold less_than;
      rewrite <- ?sext_signed by lia; reflexivity.
  - rewrite F, F0, F1, F2, F3, F4, Eeq, Elt. subst op. clear - Hj. generalize (less_than sg va vb), (va =? vb).
    intros lt eq. destruct j as [|[|[|[|[|[|j]]]]]]; [..|lia]; destruct lt, eq; cbn; apply feq_exists; exists 0; lia.
Qed.

Lemma next_pc_repr np r : r ≐ 1 -> sat_call (send_multiple_of_4 np.1.1 r) ->
  sat (slice_range_check_u16 [np.1.2; np.2] r) -> exists n, pc_word np ∼ n.
Proof.
  intros Hr H4 H16. destruct (multiple_of_4_sound _ _ Hr H4) as (q & Bq & Eq).
  destruct (sat_slice_u16 _ r H16 Hr) as (ls & Hu & Fl). destruct np as [[x0 x1] x2]. cbn in *.
  apply Forall2_cons_inv_l in Fl as (l1 & ? & E1 & Fl & ->). apply Forall2_cons_inv_l in Fl as (l2 & ? & E2 & Fl & ->).
  inversion_clear Hu as [|? ? B1 Hu']. inversion_clear Hu' as [|? ? B2 _].
  eexists. apply (represents_intro _ (4 * q) l1 l2 0); try assumption; [unfold fits in *; lia|unfold fits; lia|reflexivity].
Qed.

#[global] Program Instance branch_chip : InstructionChip BranchChip.t := {
  chip_eval := BranchChip.eval;
  chip_row local := reader_row (BranchChip.state local) (BranchChip.next_pc local)
    (select (BranchChip.flags local) Opcode.as_field BranchChip.opcodes) (ITypeReader.prev_a (BranchChip.adapter local))
    (BranchChip.adapter local) (BranchChip.is_real local) }.
Next Obligation.
  intros local Hs. unfold BranchChip.eval, ITypeReader.eval_op_a_immutable in *. cbv zeta in *. open_after Hs.
  { apply quiet_app; [apply lt_signed_quiet|solve_quiet]. }
  intros i s m' Hr Hpre _ Hpost Hw Eo Hops Hpc Hl. destruct Hops as (E0 & Ha & Hb & Hc & Hag). cbn in Ha, Hb, Hc.
  rewrite !sat_cons in Hpre. destruct Hpre as (B0 & B1 & B2 & B3 & B4 & B5 & _ & _).
  apply holds_assert_bool in B0, B1, B2, B3, B4, B5.
  destruct (selected (BranchChip.flags local) BranchChip.opcodes (Instruction.opcode i)) as (j & Hj & Ei & Hf);
    [reflexivity|cbn; lia|repeat (apply List.Forall_cons; [assumption|]); apply List.Forall_nil| |exact Eo|].
  { rewrite <- Hr. apply feq_exists. exists 0. unfold BranchChip.is_real. cbn. lia. }
  pose proof (format_spec i Hw) as Fm.
  assert (Fbc : Instruction.imm_b i = false /\ Instruction.imm_c i = true).
  { rewrite Ei in Fm. destruct j as [|[|[|[|[|[|j]]]]]]; cbn in Hj, Fm; (exact Fm || lia). }
  destruct Fbc as [Fb Fc]. unfold Rv64.operand_b, Rv64.operand_c in Hb, Hc. rewrite Fb in Hb. rewrite Fc in Hc.
  rewrite sat_app, !sat_cons, !sat_app, sat_cons in Hpost. destruct Hpost as (Hlt & Bb & Eb & Ct & Cn & H4 & H16).
  destruct (branching_sound local _ j _ _ Ei Hj Hf Hr Ha Hb Hlt) as (taken & Et & Ebr).
  apply holds_when, holds_assert_eq in Eb; [|rewrite Hr; apply one_not_zero]. rewrite Ebr in Eb.
  destruct (next_pc_repr _ _ Hr H4 H16) as (n & Hn). pose proof (pc_word_repr _ _ Hpc Hl) as Hp.
  assert (En : n = Rv64.reg (if taken then Rv64.pc s + Instruction.op_c i else Rv64.pc s + 4)).
  { destruct taken; cbn in Eb.
    - exact (carry_sound _ _ _ _ _ _ _ Eb Hp Hc Hn Ct).
    - assert (Ef : BranchChip.is_real local - BranchChip.is_branching local ≐ 1) by now rewrite Hr, Eb.
      apply (carry_sound _ _ _ _ _ 4 _ Ef Hp) with (2 := Hn) in Cn; [exact Cn|].
      split; [unfold fits; lia|]. repeat constructor; reflexivity. }
  exists (Rv64.jump s (if taken then Rv64.pc s + Instruction.op_c i else Rv64.pc s + 4)). split.
  - unfold Rv64.step. rewrite Et, Ei. destruct j as [|[|[|[|[|[|j]]]]]]; cbn in Hj; (reflexivity || lia).
  - split; [|cbn; rewrite <- En; now apply pc_means_word].
    apply (agrees_same _ _ (Instruction.op_a i)), Hag. now intros _.
Qed.
End Lawful.
