(* ===== verification/MemChips.v ===== *)
(** * MemChips: what the load and store chips share

    The nine chips of [memory/instructions] compute an address with
    [AddressOperation], access the double word it lies in one tick after the
    clock of the row, check the protection of its page, and end with the
    processor state and the I-type reader.  Their rows make one memory access
    more than those of the other chips; given the address, a load writes what
    the double word holds at it, a store replaces the double word. *)
From Stdlib Require Import ZArith Lia Bool Sorted Permutation.
From stdpp Require Import base numbers option list gmap.
From S2P Require Import Prelude Isa State Interpreter Rv64 Refinement Air KoalaBear ByteTable WordAir AddOps BitOps Bus MemAir Adapters Rows Chips.
Import Opcode.

Notation pos_M := (MemoryAccessPosition.as_u64 MemoryAccessPosition.Memory).

Definition addr_triple (l : list Z) : Z * Z * Z := (nth 0 l 0, nth 1 l 0, nth 2 l 0).

Definition zero_memory_access : MemoryAccessCols.t :=
  MemoryAccessCols.mk word_zero (MemoryAccessTimestamp.mk 0 0 0 0 0).
Definition zero_address : AddressOperation.t := AddressOperation.mk (AddrAddOperation.mk (0, 0, 0)) 0.

(** [u16::to_le_bytes]. *)
Definition u16_to_le_bytes (x : Z) : list Z := [u8 x; u8 (x ≫ 8)].

(** The bits of the offset of an address in its double word. *)
Definition offset_bits (memory_addr : Z) : Z * Z * Z :=
  (u16 (Z.land memory_addr 1), u16 (Z.land (memory_addr ≫ 1) 1), u16 (Z.land (memory_addr ≫ 2) 1)).

(** The first two columns of [event_to_row], the same in the nine chips: the
    access and the address, with the address computed. *)
Definition populate_access `{PrimeField} (event : MemInstrEvent.t) (blu : list ByteLookupEvent) :
  option (MemoryAccessCols.t * AddressOperation.t * Z * list ByteLookupEvent) :=
  '(memory_access, blu) ← MemoryAccessCols.populate (MemInstrEvent.mem_access event) blu;
  '(address_operation, blu, memory_addr) ← AddressOperation.populate blu (MemInstrEvent.b event) (MemInstrEvent.c event);
  Some (memory_access, address_operation, memory_addr, blu).

(** A row before [generate_trace] fills in the state, the adapter and whether
    the page protection is active; and how it does that for an event. *)
Definition row_maker (C : Type) : Type := CPUState.t -> ITypeReader.t -> Z -> C.
Definition memory_row {C} (event_to_row : MemInstrEvent.t -> list ByteLookupEvent -> option (row_maker C * list ByteLookupEvent))
  (enabled : Z) (event : MemInstrEvent.t * ITypeRecord.t) : option (C * list ByteLookupEvent) :=
  '(row, blu) ← event_to_row event.1 [];
  let '(state, blu) := CPUState.populate blu (MemInstrEvent.clk event.1) (MemInstrEvent.pc event.1) in
  let '(adapter, blu) := ITypeReader.populate blu event.2 in
  Some (row state adapter enabled, blu).

(** The aligned address, as the buses carry it. *)
Definition aligned_addr `{PrimeField} (adapter : ITypeReader.t) (bit0 bit1 bit2 is_real : Z) (cols : AddressOperation.t) :
  list call * (Z * Z * Z) :=
  let '(calls, addr) := AddressOperation.eval (ITypeReader.b adapter) (ITypeReader.c adapter) bit0 bit1 bit2 is_real cols in
  (calls, addr_triple addr).

(** The page protection is checked when untrusted programs are enabled. *)
Definition page_prot_calls `{ShardPublicValues} (clk_high clk_low : Z) (aligned_addr : Z * Z * Z)
  (permissions is_page_protect_active is_real : Z) : list call :=
  [Assert (AssertEq is_page_protect_active (is_untrusted_programs_enabled * is_real));
   send_page_prot clk_high (clk_low + pos_M) aligned_addr permissions is_page_protect_active].

(** The limb of a double word that two offset bits select. *)
Definition select_limb (bit1 bit2 limb : Z) (value : Word) : list call :=
  [Assert (when_not bit1 (when_not bit2 (AssertEq limb value.[0])));
   Assert (When bit1 (when_not bit2 (AssertEq limb value.[1])));
   Assert (when_not bit1 (When bit2 (AssertEq limb value.[2])));
   Assert (When bit1 (When bit2 (AssertEq limb value.[3])))].

(** The low byte of a limb, and its high byte. *)
Definition high_byte_of `{PrimeField} (limb low_byte : Z) : Z := (limb - low_byte) * finv (1 ≪ 8).

(** ** Rows with a memory access *)
Definition memory_access (addr : Z * Z * Z) (cols : MemoryAccessCols.t) (new : Word) (mult : Z) : Access :=
  let ts := MemoryAccessCols.access_timestamp cols in
  mkAccess pos_M addr (MemoryAccessTimestamp.prev_high ts, MemoryAccessTimestamp.prev_low ts)
    (MemoryAccessCols.prev_value cols) new mult.
Definition with_access (a : Access) (r : Row) : Row :=
  mkRow (row_high r) (row_low r) (row_pc r) (row_next_pc r) (row_instruction r) (row_real r) (row_trusted r)
    (a :: row_accesses r).

Section Law.
Context `{AirBuilder} `{ShardPublicValues}.

Lemma memory_access_ok r addr cols new mult :
  (row_real r ≐ 1 -> exists k, 0 <= k < 2 ^ 24 /\ row_low r ≐ k) -> row_real r ≐ mult ->
  sat (eval_memory_access_write (row_high r) (row_low r + pos_M) addr cols new mult) ->
  access_ok r (memory_access addr cols new mult).
Proof.
  intros Hk Hz Hs. split; [|split].
  - unfold eval_memory_access_write in Hs. rewrite sat_cons in Hs. destruct Hs as [Hs _]. now apply holds_assert_bool in Hs.
  - cbn. now rewrite Hz.
  - intros Hr (kh & Bh & Eh) Hm. destruct (Hk Hr) as (k & Bk & El).
    apply (memory_access_time _ _ addr cols new mult kh (k + pos_M) Hm); [done|now rewrite El|cbn; lia..|done].
Qed.

Lemma access_shows h l addr cols new mult k : k <> InteractionKind.Byte ->
  sends k (eval_memory_access_write h l addr cols new mult) =
    (if decide (k = InteractionKind.Memory) then [access_source (memory_access addr cols new mult)] else []) /\
  receives k (eval_memory_access_write h l addr cols new mult) =
    (if decide (k = InteractionKind.Memory)
     then [mkInteraction ([h; l] ++ addr_limbs addr ++ word_limbs new) mult InteractionKind.Memory] else []).
Proof. intros Hk. destruct k; try (split; reflexivity). now destruct Hk. Qed.

(** The access next to calls that show a row. *)
Lemma with_access_shows cs rest r h l addr mem w real :
  cs ≡ₚ rest ++ eval_memory_access_write h (l + pos_M) addr mem w real -> shows rest r -> h = row_high r -> l = row_low r ->
  shows cs (with_access (memory_access addr mem w real) r).
Proof.
  intros P [S1 R1 S2 R2 S3 R3] -> ->. pose proof (fun k => access_shows (row_high r) (row_low r + pos_M) addr mem w real k) as A.
  destruct (A InteractionKind.State) as [As Ar]; [done|].
  destruct (A InteractionKind.Program) as [Ps Pr]; [done|]. destruct (A InteractionKind.Memory) as [Ms Mr]; [done|].
  split; try (etrans; [apply (sends_perm _ _ _ P)|rewrite sends_app, ?As, ?Ps, ?Ms]);
    try (etrans; [apply (receives_perm _ _ _ P)|rewrite receives_app, ?Ar, ?Pr, ?Mr]).
  - now rewrite S1.
  - now rewrite R1.
  - now rewrite S2.
  - apply Permutation_nil_r. etrans; [apply (receives_perm _ _ _ P)|]. now rewrite receives_app, Pr, R2.
  - rewrite S3. symmetry. apply Permutation_cons_append.
  - rewrite R3. symmetry. apply Permutation_cons_append.
Qed.

(** A chip with a memory access is lawful when it keeps off the registers and,
    on the operands its reader hands over and the double word it finds, takes
    the step of the reference machine. *)
Lemma memory_chip_lawful `{!OperandReader cols} cs op st np opcode consts new (c : cols) real addr mem w :
  cs ≡ₚ (op ++ CPUState.eval st np CLK_INC real ++
    reader_eval (CPUState.clk_high st) (CPUState.clk_low st) (CPUState.pc st) opcode consts new c real) ++
    eval_memory_access_write (CPUState.clk_high st) (CPUState.clk_low st + pos_M) addr mem w real ->
  quiet op -> sat cs ->
  Forall (fun a => pos_M < position a) (reader_accesses (CPUState.clk_high st) new c real) ->
  (real ≐ 1 -> sat op -> ~ (addr.1.2 ≐ 0 /\ addr.2 ≐ 0)) ->
  (forall i s m m', real ≐ 1 -> sat op -> well_formed i = true -> opcode ≐ Opcode.as_field (Instruction.opcode i) ->
     let key := as_canonical <$> addr_limbs addr in
     cells_agree m s -> m !! key = Some (as_canonical <$> word_limbs (MemoryAccessCols.prev_value mem)) ->
     operands_given i s (<[key := as_canonical <$> word_limbs w]> m) m' (reader_op_a_0 c) (reader_prev_a c) (reader_b c)
       (reader_c c) new ->
     fits 48 (Rv64.pc s) -> Forall2 feq (addr_limbs (CPUState.pc st)) (addr_limbs (pc_limbs (Rv64.pc s))) ->
     exists s', Rv64.step i s = Rv64.Next s' /\ agrees m' s' /\ pc_means np (Rv64.pc s')) ->
  lawful cs (with_access (memory_access addr mem w real) (reader_row st np opcode new c real)).
Proof.
  intros P Hq Hs Hpos Hkey Hstep. assert (Hs' := Hs). unfold sat in Hs'. rewrite P in Hs'. change (Forall sat_call) with sat in Hs'.
  rewrite !sat_app in Hs'. destruct Hs' as ((Hop & Hcpu & Hrd) & Hacc).
  set (rest := op ++ _) in P. set (r := reader_row st np opcode new c real).
  assert (Hsh : shows rest r) by (apply (chip_shows rest op st np opcode consts); [reflexivity|done]).
  assert (Hb : real ≐ 0 \/ real ≐ 1).
  { unfold CPUState.eval in Hcpu. rewrite sat_app, !sat_cons in Hcpu. now apply holds_assert_bool. }
  assert (Hclk : real ≐ 1 -> exists k, 0 <= k < 2 ^ 24 /\ CPUState.clk_low st ≐ k).
  { intros Hr. destruct (clk_sound st np CLK_INC real Hr Hcpu) as (k & Bk & _ & Ek). eauto. }
  destruct (reader_lawful st np opcode consts new c real Hclk Hrd) as [Htrust Hok].
  split.
  - now apply (with_access_shows _ rest _ (CPUState.clk_high st) (CPUState.clk_low st)).
  - exact Hb.
  - exact Htrust.
  - exact Hclk.
  - constructor; [|exact Hok]. now apply (memory_access_ok (with_access (memory_access addr mem w real) r)).
  - destruct (reader_positions (CPUState.clk_high st) new c real) as [Hsorted Hbound].
    split; constructor; done.
  - intros Hr i m m' s Hw Hruns Hpc Hl [Hregs Hcells] Hm. unfold active_accesses, active_of in Hm. cbn [row_accesses with_access] in Hm.
    rewrite filter_cons, decide_True in Hm by exact Hr. rewrite fmap_cons in Hm. cbn [replay_values access_values] in Hm.
    case_decide as D; [|discriminate].
    set (m1 := <[_ := _]> m) in Hm. assert (Hregs1 : registers_agree m1 s).
    { intros r' ws Br Hlook. unfold m1 in Hlook. rewrite lookup_insert_ne in Hlook; [now apply Hregs|]. intros E.
      apply (Hkey Hr Hop). unfold register_key, addr_limbs in E. cbn in E. injection E as _ E1 E2.
      now rewrite <- (as_canonical_feq (addr.1.2)), <- (as_canonical_feq addr.2), E1, E2. }
    destruct (reader_reads st np opcode consts new c real i m1 m' s Hr Hrd Hw Hruns Hregs1 Hm) as [Eo Hops].
    exact (Hstep i s m m' Hr Hop Hw Eo Hcells D Hops Hpc Hl).
Qed.
End Law.

(** ** Loads and stores of the reference machine *)
Section Steps.
Context `{AirBuilder} `{ShardPublicValues}.

Lemma address_key l v : addr_repr l v -> as_canonical <$> addr_limbs (addr_triple l) = memory_key v.
Proof.
  intros [Hv F]. pose proof order_large. unfold fits in Hv. cbn in F.
  apply Forall2_cons_inv_r in F as (l0 & t0 & E0 & F & ->). apply Forall2_cons_inv_r in F as (l1 & t1 & E1 & F & ->).
  apply Forall2_cons_inv_r in F as (l2 & t2 & E2 & F & ->). apply Forall2_nil_inv_r in F as ->.
  rewrite low_limb in E0. unfold u16, wrap in E1, E2. rewrite Z.shiftr_div_pow2 in E1, E2 by lia.
  unfold addr_triple, addr_limbs, memory_key. cbn.
  rewrite (canonical_small l0 _ E0), (canonical_small l1 _ E1), (canonical_small l2 _ E2) by lia_mod.
  do 3 f_equal. lia_mod.
Qed.

(** The address is not that of a register, whatever the operands. *)
Lemma address_not_register b c o0 o1 o2 r cols : r ≐ 1 -> sat (AddressOperation.eval b c o0 o1 o2 r cols).1 ->
  let addr := addr_triple (AddressOperation.eval b c o0 o1 o2 r cols).2 in ~ (addr.1.2 ≐ 0 /\ addr.2 ≐ 0).
Proof.
  intros Hr Hs addr [E1 E2]. unfold AddressOperation.eval in Hs. cbn [fst] in Hs. rewrite !sat_app, !sat_cons in Hs.
  destruct Hs as (_ & _ & Hinv & _). apply holds_assert_eq in Hinv. subst addr. cbn in E1, E2. unfold addr_limbs in Hinv.
  cbn [nth] in Hinv. rewrite E1, E2, Hr, Z.mul_0_r in Hinv. symmetry in Hinv. now apply one_not_zero in Hinv.
Qed.

(** The double word an access finds. *)
Lemma cell_found m s a old : cells_agree m s -> 32 <= a < 2 ^ 48 -> a mod 8 = 0 ->
  m !! memory_key a = Some (as_canonical <$> word_limbs old) ->
  exists v, old ∼ v /\ forall x, x / 8 = a / 8 -> accessible s x /\ Rv64.mem s x = byte_of v x.
Proof.
  intros Hc Ha Hal Hm. destruct (Hc a _ Ha Hal Hm) as (v & Hv & E & Hx). exists v. split; [|exact Hx].
  split; [exact Hv|]. apply canonical_matches. rewrite E. symmetry. now apply canonical_word, represents_from_u64.
Qed.

Definition access_address (i : Instruction.t) (s : Rv64.arch) : Z := u64 (Rv64.operand_b i s + Rv64.operand_c i s).

(** Loads and stores take a register and an immediate. *)
Lemma access_format i s : well_formed i = true ->
  Rv64.load_format (Instruction.opcode i) <> None \/ Rv64.store_format (Instruction.opcode i) <> None ->
  Rv64.reg (Rv64.get s (Instruction.op_b i) + Instruction.op_c i) = access_address i s.
Proof.
  intros Hw. apply well_formed_operands, op_format in Hw. unfold format_ok in Hw.
  unfold access_address, Rv64.operand_b, Rv64.operand_c.
  destruct (Instruction.opcode i), (Instruction.imm_b i), (Instruction.imm_c i); cbn in *; try discriminate; try reflexivity;
    intros [[]|[]]; reflexivity.
Qed.

Lemma load_steps i s m m' old flag prev_a b c new pc :
  let addr := access_address i s in let key := memory_key (addr - addr mod 8) in
  well_formed i = true -> 2 ^ 16 <= addr < 2 ^ 48 -> cells_agree m s -> m !! key = Some (as_canonical <$> word_limbs old) ->
  operands_given i s (<[key := as_canonical <$> word_limbs old]> m) m' flag prev_a b c new ->
  (forall v, old ∼ v -> exists w, load_result (Instruction.opcode i) addr v = Some (inl w) /\
     (Instruction.op_a i <> 0 -> new ∼ w)) ->
  fits 48 (Rv64.pc s) -> Forall2 feq (addr_limbs pc) (addr_limbs (pc_limbs (Rv64.pc s))) ->
  exists s', Rv64.step i s = Rv64.Next s' /\ agrees m' s' /\ pc_means (pc_plus_4 pc) (Rv64.pc s').
Proof.
  intros addr key Hwf Ha Hc Hm Hops Hv Hp F. rewrite insert_id in Hops by done.
  destruct (cell_found m s (addr - addr mod 8) old Hc ltac:(lia_mod) ltac:(lia_mod) Hm) as (v & Ov & Hx).
  destruct (Hv v Ov) as (w & Ew & Hw). apply (given_read _ _ _ _ _ _ _ _ _ Hc) in Hops as (_ & _ & _ & _ & Hag).
  assert (Hx' : forall x, x / 8 = addr / 8 -> accessible s x /\ Rv64.mem s x = byte_of v x) by (intros x Ex; apply Hx; lia_mod).
  rewrite (load_result_spec _ _ _ (Rv64.mem s) (proj1 Ov)) in Ew by (intros x Ex; now apply Hx').
  destruct (Rv64.load_format (Instruction.opcode i)) as [[n sign]|] eqn:Ef; [|discriminate]. cbn [mbind option_bind] in Ew.
  destruct (Rv64.aligned n addr) eqn:Eal; [|discriminate]. injection Ew as <-.
  destruct (Hx' addr eq_refl) as ((Mp & Mr & _) & _).
  exists (Rv64.next (Rv64.set s (Instruction.op_a i) (Rv64.load (Rv64.mem s) n sign addr))). split.
  - unfold Rv64.step. rewrite Ef. replace (Rv64.alu _ _ _) with (@None Z) by (destruct (Instruction.opcode i); discriminate || reflexivity).
    cbv zeta. rewrite (access_format i s Hwf) by (rewrite Ef; auto). fold addr. now rewrite Mp, Mr, Eal.
  - split; [now apply Hag|now apply pc_means_next].
Qed.

(** The bytes a store writes. *)
Lemma store_result_bytes op addr a v w mem : is_u64 a -> is_u64 v -> (forall x, x / 8 = addr / 8 -> mem x = byte_of v x) ->
  store_result op addr a v = Some (inl w) ->
  exists n, Rv64.store_format op = Some n /\ width n /\ Rv64.aligned n addr = true /\ is_u64 w /\
    forall x, x / 8 = addr / 8 -> byte_of w x = Rv64.store mem n addr a x.
Proof.
  intros Ha Hv Hmem. rewrite store_result_spec by done. destruct (Rv64.store_format op) as [n|] eqn:Ef; [|discriminate].
  cbn [mbind option_bind]. destruct (Rv64.aligned n addr) eqn:Eal; [|discriminate]. intros [= <-].
  assert (Hw : width n) by (destruct op; try discriminate; injection Ef as <-; unfold width; lia).
  exists n. do 3 (split; [done|]). split; [now apply merged_u64|]. intros x Hx.
  apply merged_bytes; [now apply aligned_inside|done|now apply Hmem].
Qed.
Lemma store_elsewhere mem n addr a x : width n -> Rv64.aligned n addr = true -> x / 8 <> addr / 8 ->
  Rv64.store mem n addr a x = mem x.
Proof.
  intros Hn Hal Hx. pose proof (aligned_inside n addr Hn Hal). unfold Rv64.store.
  destruct (Z.leb_spec addr x), (Z.ltb_spec x (addr + Z.of_nat n)); try done. exfalso. apply Hx. lia_mod.
Qed.

(** Replacing a double word of the bus is a store of the machine. *)
Lemma cells_agree_store m s n addr a new w : cells_agree m s -> width n -> Rv64.aligned n addr = true ->
  2 ^ 16 <= addr < 2 ^ 48 -> new ∼ w -> (forall x, x / 8 = addr / 8 -> accessible s x) ->
  (forall x, x / 8 = addr / 8 -> byte_of w x = Rv64.store (Rv64.mem s) n addr a x) ->
  cells_agree (<[memory_key (addr - addr mod 8) := as_canonical <$> word_limbs new]> m)
    (Rv64.set_mem s (Rv64.store (Rv64.mem s) n addr a)).
Proof.
  intros Hc Hn Hal Ha Hw Hacc Hb y ws By Hy Hm. cbn [Rv64.mem Rv64.set_mem].
  destruct (decide (y = addr - addr mod 8)) as [->|Hne].
  - rewrite lookup_insert_eq in Hm. injection Hm as <-. exists w. split; [apply Hw|]. split; [now apply canonical_word|].
    intros x Hx. assert (Ex : x / 8 = addr / 8) by lia_mod. split; [apply (Hacc x Ex)|]. now rewrite Hb.
  - rewrite lookup_insert_ne in Hm.
    + destruct (Hc y ws By Hy Hm) as (v & Hv & E & Hx). exists v. split; [done|]. split; [done|]. intros x Ex.
      destruct (Hx x Ex) as [A B]. split; [exact A|]. rewrite store_elsewhere by (done || lia_mod). exact B.
    + unfold memory_key. intros [= E0 E1 E2]. lia_mod.
Qed.

Lemma store_steps i s m m' old flag prev_a b c new pc :
  let addr := access_address i s in let key := memory_key (addr - addr mod 8) in
  well_formed i = true -> 2 ^ 16 <= addr < 2 ^ 48 -> cells_agree m s -> m !! key = Some (as_canonical <$> word_limbs old) ->
  operands_given i s (<[key := as_canonical <$> word_limbs new]> m) m' flag prev_a b c prev_a ->
  (forall v, old ∼ v -> exists w, store_result (Instruction.opcode i) addr (Rv64.get s (Instruction.op_a i)) v = Some (inl w) /\
     new ∼ w) ->
  fits 48 (Rv64.pc s) -> Forall2 feq (addr_limbs pc) (addr_limbs (pc_limbs (Rv64.pc s))) ->
  exists s', Rv64.step i s = Rv64.Next s' /\ agrees m' s' /\ pc_means (pc_plus_4 pc) (Rv64.pc s').
Proof.
  intros addr key Hwf Ha Hc Hm (_ & Hpa & _ & _ & Hregs & Hcells) Hv Hp F.
  destruct (cell_found m s (addr - addr mod 8) old Hc ltac:(lia_mod) ltac:(lia_mod) Hm) as (v & Ov & Hx).
  destruct (Hv v Ov) as (w & Ew & Hw).
  assert (Hx' : forall x, x / 8 = addr / 8 -> accessible s x /\ Rv64.mem s x = byte_of v x) by (intros x Ex; apply Hx; lia_mod).
  apply (store_result_bytes _ _ _ _ _ (Rv64.mem s) (proj1 Hpa) (proj1 Ov)) in Ew as (n & Ef & Hn & Hal & _ & Hb);
    [|intros x Ex; now apply Hx'].
  destruct (Hx' addr eq_refl) as ((Mp & _ & Mw) & _).
  set (mem' := Rv64.store (Rv64.mem s) n addr (Rv64.get s (Instruction.op_a i))) in *.
  exists (Rv64.next (Rv64.set_mem s mem')). split; [|split; [split|now apply pc_means_next]].
  - unfold Rv64.step. rewrite Ef. replace (Rv64.alu _ _ _) with (@None Z) by (destruct (Instruction.opcode i); discriminate || reflexivity).
    replace (Rv64.load_format _) with (@None (nat * bool)) by (destruct (Instruction.opcode i); discriminate || reflexivity).
    cbv zeta. rewrite (access_format i s Hwf) by (rewrite Ef; auto). fold addr. now rewrite Mp, Mw, Hal.
  - intros r ws Br Hr. specialize (Hregs (Rv64.get s (Instruction.op_a i)) (Rv64.pc s + 4) ltac:(done) r ws Br Hr).
    rewrite get_set_same in Hregs. exact Hregs.
  - intros y ws By Hy Hk. rewrite Hcells in Hk by done.
    refine (cells_agree_store m s n addr _ new w Hc Hn Hal Ha Hw _ Hb y ws By Hy Hk). intros x Ex. now apply Hx'.
Qed.
End Steps.

(** ** Load and store chips *)
Section Lawful.
Context `{AirBuilder} `{ShardPublicValues}.

Lemma address_quiet c bit0 bit1 bit2 real cols : quiet (aligned_addr c bit0 bit1 bit2 real cols).1.
Proof. unfold aligned_addr. solve_quiet. Qed.

(** The calls of a chip in its order. *)
Lemma memory_calls_perm (pre addr align access mid st rd : list call) :
  (pre ++ addr ++ align) ++ access ++ mid ++ st ++ rd ≡ₚ ((pre ++ addr ++ align ++ mid) ++ st ++ rd) ++ access.
Proof.
  rewrite <- !app_assoc. do 3 apply Permutation_app_head. rewrite (Permutation_app_comm access), <- !app_assoc. reflexivity.
Qed.

Section Chip.
Context (pre align mid : list call) (st : CPUState.t) (opcode : Z) (consts : list Z) (new : Word) (c : ITypeReader.t)
  (real bit0 bit1 bit2 : Z) (cols : AddressOperation.t) (mem : MemoryAccessCols.t) (w : Word).
Let addr := aligned_addr c bit0 bit1 bit2 real cols.
Let clk_high := CPUState.clk_high st.
Let clk_low := CPUState.clk_low st.
Let cs := (pre ++ addr.1 ++ align) ++ eval_memory_access_write clk_high (clk_low + pos_M) addr.2 mem w real ++ mid ++
  CPUState.eval st (pc_plus_4 (CPUState.pc st)) CLK_INC real ++
  ITypeReader.eval clk_high clk_low (CPUState.pc st) opcode consts new c real.
Definition memory_chip_row : Row :=
  with_access (memory_access addr.2 mem w real) (reader_row st (pc_plus_4 (CPUState.pc st)) opcode new c real).

(** What the chip still has to show of its own constraints, on an address [a]
    with the offset bits of the row. *)
Definition own_step (P : Opcode.t -> bool -> Z -> Prop) : Prop :=
  forall op zero a, real ≐ 1 -> sat pre -> sat align -> sat mid -> opcode ≐ Opcode.as_field op ->
    ITypeReader.op_a_0 c ≐ from_bool zero -> bit0 ≐ a mod 2 -> bit1 ≐ a / 2 mod 2 -> bit2 ≐ a / 4 mod 2 -> P op zero a.

Lemma memory_chip_steps (P : Opcode.t -> bool -> Z -> Prop) : quiet pre -> quiet align -> quiet mid -> own_step P ->
  (forall i s m m', well_formed i = true -> P (Instruction.opcode i) (Instruction.op_a i =? 0) (access_address i s) ->
     let key := memory_key (access_address i s - access_address i s mod 8) in
     2 ^ 16 <= access_address i s < 2 ^ 48 -> cells_agree m s ->
     m !! key = Some (as_canonical <$> word_limbs (MemoryAccessCols.prev_value mem)) ->
     operands_given i s (<[key := as_canonical <$> word_limbs w]> m) m' (ITypeReader.op_a_0 c) (ITypeReader.prev_a c)
       (ITypeReader.b c) (ITypeReader.c c) new ->
     fits 48 (Rv64.pc s) -> Forall2 feq (addr_limbs (CPUState.pc st)) (addr_limbs (pc_limbs (Rv64.pc s))) ->
     exists s', Rv64.step i s = Rv64.Next s' /\ agrees m' s' /\ pc_means (pc_plus_4 (CPUState.pc st)) (Rv64.pc s')) ->
  sat cs -> lawful cs memory_chip_row.
Proof.
  intros Qp Qa Qm HP Hstep Hs. refine (memory_chip_lawful cs (pre ++ addr.1 ++ align ++ mid) st (pc_plus_4 (CPUState.pc st)) opcode consts new c real addr.2
    mem w (memory_calls_perm _ _ _ _ _ _ _) _ Hs _ _ _).
  - apply quiet_app; [done|]. apply quiet_app; [apply address_quiet|]. now apply quiet_app.
  - cbn [reader_accesses i_reader]. unfold i_accesses. repeat apply List.Forall_cons; try apply List.Forall_nil; cbn; lia. 
  - intros Hr Hop. rewrite !sat_app in Hop. exact (address_not_register _ _ _ _ _ _ _ Hr (proj1 (proj2 Hop))).
  - intros i s m m' Hr Hop Hw Eo key Hc Hm Hops Hp F. rewrite !sat_app in Hop. destruct Hop as (Hpre & Hadd & Hal & Hmid).
    destruct (Hops) as (E0 & _ & Hb & Hcc & _ & _).
    destruct (address_sound _ _ _ _ _ _ _ _ _ Hb Hcc Hr Hadd) as (Ba & O0 & O1 & O2 & Hrep).
    apply address_key in Hrep. change (key = memory_key (access_address i s - access_address i s mod 8)) in Hrep.
    rewrite Hrep in *. eapply Hstep; try eassumption. now apply HP.
Qed.
End Chip.

(** What a load or a store still has to show. *)
Definition loads (new : Word) (mem : MemoryAccessCols.t) (op : Opcode.t) (zero : bool) (a : Z) : Prop :=
  forall v, MemoryAccessCols.prev_value mem ∼ v -> exists x, load_result op a v = Some (inl x) /\ (zero = false -> new ∼ x).
Definition stores (c : ITypeReader.t) (w : Word) (mem : MemoryAccessCols.t) (op : Opcode.t) (_ : bool) (a : Z) : Prop :=
  forall v va, MemoryAccessCols.prev_value mem ∼ v -> ITypeReader.prev_a c ∼ va ->
  exists x, store_result op a va v = Some (inl x) /\ w ∼ x.

Lemma load_chip_lawful pre align mid st opcode consts new c real bit0 bit1 bit2 cols mem :
  let addr := aligned_addr c bit0 bit1 bit2 real cols in
  let cs := (pre ++ addr.1 ++ align) ++
    eval_memory_access_read (CPUState.clk_high st) (CPUState.clk_low st + pos_M) addr.2 mem real ++ mid ++
    CPUState.eval st (pc_plus_4 (CPUState.pc st)) CLK_INC real ++
    ITypeReader.eval (CPUState.clk_high st) (CPUState.clk_low st) (CPUState.pc st) opcode consts new c real in
  quiet pre -> quiet align -> quiet mid -> own_step pre align mid opcode c real bit0 bit1 bit2 (loads new mem) ->
  sat cs -> lawful cs (memory_chip_row st opcode new c real bit0 bit1 bit2 cols mem (MemoryAccessCols.prev_value mem)).
Proof.
  intros addr cs Qp Qa Qm HP. apply memory_chip_steps with (loads new mem); [done..|]. intros i s m m' Hw Hv key Ba Hc Hm Hops Hp F.
  eapply load_steps; try eassumption. intros v Ov. destruct (Hv v Ov) as (x & Ex & Hx). exists x. split; [done|].
  intros Hne. apply Hx. now apply Z.eqb_neq.
Qed.
Lemma load_chip_lawful0 pre mid st opcode consts new c real bit0 bit1 bit2 cols mem :
  let addr := aligned_addr c bit0 bit1 bit2 real cols in
  let cs := (pre ++ addr.1) ++
    eval_memory_access_read (CPUState.clk_high st) (CPUState.clk_low st + pos_M) addr.2 mem real ++ mid ++
    CPUState.eval st (pc_plus_4 (CPUState.pc st)) CLK_INC real ++
    ITypeReader.eval (CPUState.clk_high st) (CPUState.clk_low st) (CPUState.pc st) opcode consts new c real in
  quiet pre -> quiet mid -> own_step pre [] mid opcode c real bit0 bit1 bit2 (loads new mem) ->
  sat cs -> lawful cs (memory_chip_row st opcode new c real bit0 bit1 bit2 cols mem (MemoryAccessCols.prev_value mem)).
Proof.
  intros addr cs Qp Qm HP. subst cs. rewrite <- (app_nil_r addr.1). apply load_chip_lawful; [done|solve_quiet|done..].
Qed.

Lemma store_chip_lawful pre mid st opcode consts c real bit0 bit1 bit2 cols mem w :
  let addr := aligned_addr c bit0 bit1 bit2 real cols in
  let cs := (pre ++ addr.1) ++
    eval_memory_access_write (CPUState.clk_high st) (CPUState.clk_low st + pos_M) addr.2 mem w real ++ mid ++
    CPUState.eval st (pc_plus_4 (CPUState.pc st)) CLK_INC real ++
    ITypeReader.eval_op_a_immutable (CPUState.clk_high st) (CPUState.clk_low st) (CPUState.pc st) opcode consts c real in
  quiet pre -> quiet mid -> own_step pre [] mid opcode c real bit0 bit1 bit2 (stores c w mem) ->
  sat cs -> lawful cs (memory_chip_row st opcode (ITypeReader.prev_a c) c real bit0 bit1 bit2 cols mem w).
Proof.
  intros addr cs Qp Qm HP. subst cs. rewrite <- (app_nil_r addr.1).
  assert (Q0 : quiet []) by solve_quiet.
  apply (memory_chip_steps pre [] mid st opcode consts (ITypeReader.prev_a c) c real bit0 bit1 bit2 cols mem w _ Qp Q0 Qm HP).
  intros i s m m' Hw Hv key Ba Hc Hm Hops Hp F. destruct (Hops) as (_ & Hpa & _).
  eapply store_steps; try eassumption. intros v Ov. now apply Hv.
Qed.
End Lawful.

(** ** Limbs and bytes of a double word *)
Section Limbs.
Context `{AirBuilder}.

(** The limb of [v] that holds the byte at offset [a]. *)
Definition limb_at (v a : Z) : Z := v / 2 ^ (16 * (a / 2 mod 4)) mod 2 ^ 16.
Lemma limb_at_u16 v a : is_u16 (limb_at v a).
Proof. unfold limb_at, fits. lia_mod. Qed.

Lemma when_not_zero c k : c ≐ 0 -> sat_call (Assert (when_not c k)) -> holds k.
Proof.
  intros E. rewrite sat_assert. unfold when_not. rewrite holds_when_ne. intros Hk. apply Hk. rewrite E. intros F.
  symmetry in F. now apply one_not_zero in F.
Qed.
Lemma when_one c k : c ≐ 1 -> sat_call (Assert (When c k)) -> holds k.
Proof. intros E. rewrite sat_assert, holds_when. intros Hk. apply Hk. rewrite E. apply one_not_zero. Qed.
Lemma offset_cases a : (a / 2 mod 2 = 0 \/ a / 2 mod 2 = 1) /\ (a / 4 mod 2 = 0 \/ a / 4 mod 2 = 1) /\
  a / 2 mod 4 = a / 2 mod 2 + 2 * (a / 4 mod 2).
Proof. lia_mod. Qed.

Lemma select_limb_sound bit1 bit2 limb value v a : value ∼ v -> bit1 ≐ a / 2 mod 2 -> bit2 ≐ a / 4 mod 2 ->
  sat (select_limb bit1 bit2 limb value) -> limb ≐ limb_at v a.
Proof.
  intros Hv E1 E2 Hs. destruct_word Hv as x0 x1 x2 x3. subst v. unfold limb_at.
  unfold select_limb in Hs. rewrite !sat_cons in Hs. destruct Hs as (C0 & C1 & C2 & C3 & _).
  destruct (offset_cases a) as ([F1|F1] & [F2|F2] & ->); rewrite F1 in *; rewrite F2 in *.
  all: match goal with |- _ ≐ (?v / 2 ^ ?k) mod _ => let k' := eval compute in k in change k with k' end.
  1: apply when_not_zero, sat_assert, when_not_zero, holds_assert_eq in C0; [|done..].
  3: apply when_one, sat_assert, when_not_zero, holds_assert_eq in C1; [|done..].
  2: apply when_not_zero, sat_assert, when_one, holds_assert_eq in C2; [|done..].
  4: apply when_one, sat_assert, when_one, holds_assert_eq in C3; [|done..].
  1: rewrite C0. 2: rewrite C2. 3: rewrite C1. 4: rewrite C3.
  all: match goal with E : ?x ≐ ?y |- ?x ≐ ?z => replace z with y; [exact E|] end; unfold fits in *; lia_mod.
Qed.

Lemma split_limb_sound limb low x r : limb ≐ x -> is_u16 x -> r ≐ 1 ->
  sat (slice_range_check_u8 [low; high_byte_of limb low] r) -> low ≐ x mod 2 ^ 8 /\ high_byte_of limb low ≐ x / 2 ^ 8.
Proof.
  intros El Bx Hr Hs. destruct (sat_slice_u8_pair _ _ _ Hs Hr) as (l & h & Bl & Bh & E1 & E2).
  destruct (byte_split limb x low l h El Bx E1 E2 Bl Bh) as [-> ->]. now split.
Qed.
End Limbs.

(** ** The double word a store writes, in arithmetic *)
Lemma merged_value a v o n : 0 <= o -> 0 <= n -> o + n <= 8 -> is_u64 v ->
  merged a v o n = v + (a mod 2 ^ (8 * n) - v / 2 ^ (8 * o) mod 2 ^ (8 * n)) * 2 ^ (8 * o).
Proof.
  intros Ho Hn Hon Hv. set (w := merged a v o n). assert (Hw : is_u64 w) by now apply merged_u64.
  assert (Hbit : forall i, 0 <= i -> Z.testbit w i =
    if (8 * o <=? i) && (i <? 8 * (o + n)) then Z.testbit a (i - 8 * o) else Z.testbit v i).
  { intros i Hi. destruct (Z.ltb_spec i 64); [apply merged_testbit; lia|].
    rewrite (u64_high_bits w i), (u64_high_bits v i) by done. destruct (Z.ltb_spec i (8 * (o + n))); [lia|]. now rewrite andb_false_r. }
  assert (E0 : w mod 2 ^ (8 * o) = v mod 2 ^ (8 * o)).
  { apply Z.bits_inj'. intros i Hi. rewrite !Z.testbit_mod_pow2, Hbit by lia. destruct (Z.ltb_spec i (8 * o)); [|done].
    destruct (Z.leb_spec (8 * o) i); [lia|done]. }
  assert (E1 : w / 2 ^ (8 * o) mod 2 ^ (8 * n) = a mod 2 ^ (8 * n)).
  { apply Z.bits_inj'. intros i Hi. rewrite !Z.testbit_mod_pow2, Z.div_pow2_bits, Hbit by lia.
    destruct (Z.ltb_spec i (8 * n)); [|done]. destruct (Z.leb_spec (8 * o) (i + 8 * o)), (Z.ltb_spec (i + 8 * o) (8 * (o + n)));
      try lia. cbn [andb]. f_equal. lia. }
  assert (E2 : w / 2 ^ (8 * o) / 2 ^ (8 * n) = v / 2 ^ (8 * o) / 2 ^ (8 * n)).
  { apply Z.bits_inj'. intros i Hi. rewrite !Z.div_pow2_bits, Hbit by lia.
    destruct (Z.ltb_spec (i + 8 * n + 8 * o) (8 * (o + n))); [lia|]. now rewrite andb_false_r. }
  pose proof (Z.div_mod w (2 ^ (8 * o)) ltac:(lia)). pose proof (Z.div_mod v (2 ^ (8 * o)) ltac:(lia)).
  pose proof (Z.div_mod (w / 2 ^ (8 * o)) (2 ^ (8 * n)) ltac:(lia)).
  pose proof (Z.div_mod (v / 2 ^ (8 * o)) (2 ^ (8 * n)) ltac:(lia)). nia.
Qed.
