(* ===== verification/LoadChips.v ===== *)
(** * LoadChips: the load chips

    [memory/instructions/load] of [core/machine]: for each of the five chips
    its columns, the row it generates for an event, its constraints, and that
    its rows are lawful.  [LoadX0] runs the loads whose destination is register
    0, the other four assert that the destination is another register. *)
From Stdlib Require Import ZArith Lia Bool Permutation.
From stdpp Require Import base numbers option list gmap.
From S2P Require Import Prelude Isa State Interpreter Rv64 Refinement Air KoalaBear ByteTable WordAir AddOps BitOps Bus MemAir Adapters Rows Chips MemChips.
Import Opcode.
#[local] Obligation Tactic := idtac.

(** [event.mem_access.value()] and [prev_value()], as limbs. *)
Definition value_limbs (event : MemInstrEvent.t) : list Z :=
  u64_to_u16_limbs (MemoryRecord.value (MemoryRecordEnum.current_record (MemInstrEvent.mem_access event))).
Definition prev_value_limbs (event : MemInstrEvent.t) : list Z :=
  u64_to_u16_limbs (MemoryRecord.value (MemoryRecordEnum.previous_record (MemInstrEvent.mem_access event))).

Module LoadByteChip.
Record t := mk {
  state : CPUState.t; adapter : ITypeReader.t; address_operation : AddressOperation.t; memory_access : MemoryAccessCols.t;
  offset_bit : Z * Z * Z; selected_limb : Z; selected_limb_low_byte : Z; selected_byte : Z; msb : Z;
  is_lb : Z; is_lbu : Z; is_page_protect_active : Z }.
Definition zero : t :=
  mk CPUState.zero ITypeReader.zero zero_address zero_memory_access (0, 0, 0) 0 0 0 0 0 0 0.

(** The columns up to the state and the adapter, which [generate_trace] fills in. *)
Definition event_to_row `{PrimeField} (event : MemInstrEvent.t) (blu : list ByteLookupEvent) :
  option (row_maker t * list ByteLookupEvent) :=
  '(memory_access, address_operation, memory_addr, blu) ← populate_access event blu;
  let '(bit0, bit1, bit2) := offset_bits memory_addr in
  let limb_number := 2 * bit2 + bit1 in
  let limb := nth (Z.to_nat limb_number) (value_limbs event) 0 in
  let byte := nth (Z.to_nat bit0) (u16_to_le_bytes limb) 0 in
  let blu := add_u8_range_checks blu (u16_to_le_bytes limb) in
  let '(is_lb, msb, is_lbu, blu) :=
    if bool_decide (MemInstrEvent.opcode event = LB)
    then (1, byte ≫ 7, 0, add_byte_lookup_event blu (mkByteLookupEvent ByteOpcode.MSB (byte ≫ 7) byte 0))
    else (0, 0, 1, blu) in
  Some (fun state adapter is_page_protect_active =>
    mk state adapter address_operation memory_access (bit0, bit1, bit2) limb (Z.land limb 0xFF) byte msb
      is_lb is_lbu is_page_protect_active, blu).

Definition generate_row `{PrimeField} (enabled : Z) (event : MemInstrEvent.t * ITypeRecord.t) :
  option (t * list ByteLookupEvent) :=
  memory_row event_to_row enabled event.

Definition flags (local : t) : list Z := [is_lb local; is_lbu local].
Definition opcodes : list Opcode.t := [LB; LBU].
Definition is_real (local : t) : Z := is_lb local + is_lbu local.
Definition consts `{InstructionFormats} (local : t) : list Z :=
  [select (flags local) instr_type opcodes; select (flags local) base opcodes;
   select (flags local) unwrap_funct3 opcodes; select (flags local) unwrap_funct7 opcodes].

(** The aligned address, and the word written to [op_a]. *)
Definition address `{PrimeField} (local : t) : list call * (Z * Z * Z) :=
  let '(bit0, bit1, bit2) := offset_bit local in
  aligned_addr (adapter local) bit0 bit1 bit2 (is_real local) (address_operation local).
Definition loaded (local : t) : Word :=
  mkWord (selected_byte local + ((1 ≪ 16) - (1 ≪ 8)) * msb local) (((1 ≪ 16) - 1) * msb local)
    (((1 ≪ 16) - 1) * msb local) (((1 ≪ 16) - 1) * msb local).

(** Step 3: the value from the double word. *)
Definition select_calls `{PrimeField} (local : t) : list call :=
  let '(bit0, bit1, bit2) := offset_bit local in
  let byte0 := selected_limb_low_byte local in
  let byte1 := high_byte_of (selected_limb local) byte0 in
  select_limb bit1 bit2 (selected_limb local) (MemoryAccessCols.prev_value (memory_access local)) ++
  slice_range_check_u8 [byte0; byte1] (is_real local) ++
  [Assert (AssertEq (selected_byte local) (bit0 * byte1 + (1 - bit0) * byte0));
   Assert (When (is_lbu local) (AssertZero (msb local)));
   send_byte (ByteOpcode.as_u8 ByteOpcode.MSB) (msb local) (selected_byte local) 0 (is_lb local)].

Definition eval `{PrimeField} `{ShardPublicValues} `{InstructionFormats} (local : t) : list call :=
  let clk_high := CPUState.clk_high (state local) in
  let clk_low := CPUState.clk_low (state local) in
  ([Assert (AssertBool (is_lb local)); Assert (AssertBool (is_lbu local)); Assert (AssertBool (is_real local))] ++
   (address local).1) ++
  eval_memory_access_read clk_high (clk_low + pos_M) (address local).2 (memory_access local) (is_real local) ++
  (page_prot_calls clk_high clk_low (address local).2 PROT_READ (is_page_protect_active local) (is_real local) ++
   Assert (AssertZero (ITypeReader.op_a_0 (adapter local))) :: select_calls local) ++
  CPUState.eval (state local) (pc_plus_4 (CPUState.pc (state local))) CLK_INC (is_real local) ++
  ITypeReader.eval clk_high clk_low (CPUState.pc (state local)) (select (flags local) Opcode.as_field opcodes)
    (consts local) (loaded local) (adapter local) (is_real local).
End LoadByteChip.

Module LoadHalfChip.
Record t := mk {
  state : CPUState.t; adapter : ITypeReader.t; address_operation : AddressOperation.t; memory_access : MemoryAccessCols.t;
  offset_bit : Z * Z; selected_half : Z; msb : U16MSBOperation.t; is_lh : Z; is_lhu : Z; is_page_protect_active : Z }.
Definition zero : t :=
  mk CPUState.zero ITypeReader.zero zero_address zero_memory_access (0, 0) 0 (U16MSBOperation.mk 0) 0 0 0.

(** [debug_assert!(memory_addr.is_multiple_of(2))] is not in the release build. *)
Definition event_to_row `{PrimeField} (event : MemInstrEvent.t) (blu : list ByteLookupEvent) :
  option (row_maker t * list ByteLookupEvent) :=
  '(memory_access, address_operation, memory_addr, blu) ← populate_access event blu;
  let '(_, bit_1, bit_2) := offset_bits memory_addr in
  let limb_number := 2 * bit_2 + bit_1 in
  let limb := nth (Z.to_nat limb_number) (value_limbs event) 0 in
  let '(is_lh, msb, is_lhu, blu) :=
    if bool_decide (MemInstrEvent.opcode event = LH)
    then let '(msb, blu, _) := U16MSBOperation.populate_msb blu limb in (1, msb, 0, blu)
    else (0, U16MSBOperation.mk 0, 1, blu) in
  Some (fun state adapter is_page_protect_active =>
    mk state adapter address_operation memory_access (bit_1, bit_2) limb msb is_lh is_lhu is_page_protect_active, blu).

Definition generate_row `{PrimeField} (enabled : Z) (event : MemInstrEvent.t * ITypeRecord.t) :
  option (t * list ByteLookupEvent) :=
  memory_row event_to_row enabled event.

Definition flags (local : t) : list Z := [is_lh local; is_lhu local].
Definition opcodes : list Opcode.t := [LH; LHU].
Definition is_real (local : t) : Z := is_lh local + is_lhu local.
Definition consts `{InstructionFormats} (local : t) : list Z :=
  [select (flags local) instr_type opcodes; select (flags local) base opcodes;
   select (flags local) unwrap_funct3 opcodes; select (flags local) unwrap_funct7 opcodes].

Definition address `{PrimeField} (local : t) : list call * (Z * Z * Z) :=
  aligned_addr (adapter local) 0 (offset_bit local).1 (offset_bit local).2 (is_real local) (address_operation local).
Definition loaded (local : t) : Word :=
  let msb := U16MSBOperation.msb (msb local) in
  mkWord (selected_half local) (65535 * msb) (65535 * msb) (65535 * msb).

Definition select_calls (local : t) : list call :=
  select_limb (offset_bit local).1 (offset_bit local).2 (selected_half local)
    (MemoryAccessCols.prev_value (memory_access local)) ++
  Assert (When (is_lhu local) (AssertZero (U16MSBOperation.msb (msb local)))) ::
  U16MSBOperation.eval_msb (selected_half local) (msb local) (is_lh local).

Definition eval `{PrimeField} `{ShardPublicValues} `{InstructionFormats} (local : t) : list call :=
  let clk_high := CPUState.clk_high (state local) in
  let clk_low := CPUState.clk_low (state local) in
  ([Assert (AssertBool (is_lh local)); Assert (AssertBool (is_lhu local)); Assert (AssertBool (is_real local))] ++
   (address local).1) ++
  eval_memory_access_read clk_high (clk_low + pos_M) (address local).2 (memory_access local) (is_real local) ++
  (page_prot_calls clk_high clk_low (address local).2 PROT_READ (is_page_protect_active local) (is_real local) ++
   Assert (AssertZero (ITypeReader.op_a_0 (adapter local))) :: select_calls local) ++
  CPUState.eval (state local) (pc_plus_4 (CPUState.pc (state local))) CLK_INC (is_real local) ++
  ITypeReader.eval clk_high clk_low (CPUState.pc (state local)) (select (flags local) Opcode.as_field opcodes)
    (consts local) (loaded local) (adapter local) (is_real local).
End LoadHalfChip.

Module LoadWordChip.
Record t := mk {
  state : CPUState.t; adapter : ITypeReader.t; address_operation : AddressOperation.t; memory_access : MemoryAccessCols.t;
  offset_bit : Z; selected_word : Z * Z; msb : U16MSBOperation.t; is_lw : Z; is_lwu : Z; is_page_protect_active : Z }.
Definition zero : t :=
  mk CPUState.zero ITypeReader.zero zero_address zero_memory_access 0 (0, 0) (U16MSBOperation.mk 0) 0 0 0.

Definition event_to_row `{PrimeField} (event : MemInstrEvent.t) (blu : list ByteLookupEvent) :
  option (row_maker t * list ByteLookupEvent) :=
  '(memory_access, address_operation, memory_addr, blu) ← populate_access event blu;
  let '(_, _, bit_2) := offset_bits memory_addr in
  let limb_number := 2 * bit_2 in
  let limb_0 := nth (Z.to_nat limb_number) (value_limbs event) 0 in
  let limb_1 := nth (Z.to_nat limb_number + 1) (value_limbs event) 0 in
  let '(is_lw, msb, is_lwu, blu) :=
    if bool_decide (MemInstrEvent.opcode event = LW)
    then let '(msb, blu, _) := U16MSBOperation.populate_msb blu limb_1 in (1, msb, 0, blu)
    else (0, U16MSBOperation.mk 0, 1, blu) in
  Some (fun state adapter is_page_protect_active =>
    mk state adapter address_operation memory_access bit_2 (limb_0, limb_1) msb is_lw is_lwu is_page_protect_active, blu).

Definition generate_row `{PrimeField} (enabled : Z) (event : MemInstrEvent.t * ITypeRecord.t) :
  option (t * list ByteLookupEvent) :=
  memory_row event_to_row enabled event.

Definition flags (local : t) : list Z := [is_lw local; is_lwu local].
Definition opcodes : list Opcode.t := [LW; LWU].
Definition is_real (local : t) : Z := is_lw local + is_lwu local.
Definition consts `{InstructionFormats} (local : t) : list Z :=
  [select (flags local) instr_type opcodes; select (flags local) base opcodes;
   select (flags local) unwrap_funct3 opcodes; select (flags local) unwrap_funct7 opcodes].

Definition address `{PrimeField} (local : t) : list call * (Z * Z * Z) :=
  aligned_addr (adapter local) 0 0 (offset_bit local) (is_real local) (address_operation local).
Definition loaded (local : t) : Word :=
  let msb := U16MSBOperation.msb (msb local) in
  mkWord (selected_word local).1 (selected_word local).2 (65535 * msb) (65535 * msb).

Definition select_calls (local : t) : list call :=
  let prev_value := MemoryAccessCols.prev_value (memory_access local) in
  [Assert (when_not (offset_bit local) (AssertEq (selected_word local).1 prev_value.[0]));
   Assert (when_not (offset_bit local) (AssertEq (selected_word local).2 prev_value.[1]));
   Assert (When (offset_bit local) (AssertEq (selected_word local).1 prev_value.[2]));
   Assert (When (offset_bit local) (AssertEq (selected_word local).2 prev_value.[3]))] ++
  U16MSBOperation.eval_msb (selected_word local).2 (msb local) (is_lw local) ++
  [Assert (when_not (is_lw local) (AssertZero (U16MSBOperation.msb (msb local))))].

Definition eval `{PrimeField} `{ShardPublicValues} `{InstructionFormats} (local : t) : list call :=
  let clk_high := CPUState.clk_high (state local) in
  let clk_low := CPUState.clk_low (state local) in
  ([Assert (AssertBool (is_lw local)); Assert (AssertBool (is_lwu local)); Assert (AssertBool (is_real local))] ++
   (address local).1) ++
  eval_memory_access_read clk_high (clk_low + pos_M) (address local).2 (memory_access local) (is_real local) ++
  (page_prot_calls clk_high clk_low (address local).2 PROT_READ (is_page_protect_active local) (is_real local) ++
   Assert (AssertZero (ITypeReader.op_a_0 (adapter local))) :: select_calls local) ++
  CPUState.eval (state local) (pc_plus_4 (CPUState.pc (state local))) CLK_INC (is_real local) ++
  ITypeReader.eval clk_high clk_low (CPUState.pc (state local)) (select (flags local) Opcode.as_field opcodes)
    (consts local) (loaded local) (adapter local) (is_real local).
End LoadWordChip.

Module LoadDoubleChip.
Record t := mk {
  state : CPUState.t; adapter : ITypeReader.t; address_operation : AddressOperation.t; memory_access : MemoryAccessCols.t;
  is_real : Z; is_page_protect_active : Z }.
Definition zero : t := mk CPUState.zero ITypeReader.zero zero_address zero_memory_access 0 0.

Definition event_to_row `{PrimeField} (event : MemInstrEvent.t) (blu : list ByteLookupEvent) :
  option (row_maker t * list ByteLookupEvent) :=
  '(memory_access, address_operation, _, blu) ← populate_access event blu;
  Some (fun state adapter is_page_protect_active =>
    mk state adapter address_operation memory_access 1 is_page_protect_active, blu).

Definition generate_row `{PrimeField} (enabled : Z) (event : MemInstrEvent.t * ITypeRecord.t) :
  option (t * list ByteLookupEvent) :=
  memory_row event_to_row enabled event.

Definition address `{PrimeField} (local : t) : list call * (Z * Z * Z) :=
  aligned_addr (adapter local) 0 0 0 (is_real local) (address_operation local).

Definition eval `{PrimeField} `{ShardPublicValues} `{InstructionFormats} (local : t) : list call :=
  let clk_high := CPUState.clk_high (state local) in
  let clk_low := CPUState.clk_low (state local) in
  ([Assert (AssertBool (is_real local))] ++ (address local).1) ++
  eval_memory_access_read clk_high (clk_low + pos_M) (address local).2 (memory_access local) (is_real local) ++
  (page_prot_calls clk_high clk_low (address local).2 PROT_READ (is_page_protect_active local) (is_real local) ++
   [Assert (AssertZero (ITypeReader.op_a_0 (adapter local)))]) ++
  CPUState.eval (state local) (pc_plus_4 (CPUState.pc (state local))) CLK_INC (is_real local) ++
  ITypeReader.eval clk_high clk_low (CPUState.pc (state local)) (Opcode.as_field LD) (field_consts LD)
    (MemoryAccessCols.prev_value (memory_access local)) (adapter local) (is_real local).
End LoadDoubleChip.

Module LoadX0Chip.
Record t := mk {
  state : CPUState.t; adapter : ITypeReader.t; address_operation : AddressOperation.t; memory_access : MemoryAccessCols.t;
  offset_bit : Z * Z * Z; is_lb : Z; is_lbu : Z; is_lh : Z; is_lhu : Z; is_lw : Z; is_lwu : Z; is_ld : Z;
  is_page_protect_active : Z }.
Definition zero : t :=
  mk CPUState.zero ITypeReader.zero zero_address zero_memory_access (0, 0, 0) 0 0 0 0 0 0 0 0.

Definition event_to_row `{PrimeField} (event : MemInstrEvent.t) (blu : list ByteLookupEvent) :
  option (row_maker t * list ByteLookupEvent) :=
  '(memory_access, address_operation, memory_addr, blu) ← populate_access event blu;
  let equals op := from_bool (bool_decide (MemInstrEvent.opcode event = op)) in
  Some (fun state adapter is_page_protect_active =>
    mk state adapter address_operation memory_access (offset_bits memory_addr) (equals LB) (equals LBU) (equals LH)
      (equals LHU) (equals LW) (equals LWU) (equals LD) is_page_protect_active, blu).

Definition generate_row `{PrimeField} (enabled : Z) (event : MemInstrEvent.t * ITypeRecord.t) :
  option (t * list ByteLookupEvent) :=
  memory_row event_to_row enabled event.

Definition flags (local : t) : list Z :=
  [is_lb local; is_lbu local; is_lh local; is_lhu local; is_lw local; is_lwu local; is_ld local].
Definition opcodes : list Opcode.t := [LB; LBU; LH; LHU; LW; LWU; LD].
Definition is_real (local : t) : Z :=
  is_lb local + is_lbu local + is_lh local + is_lhu local + is_lw local + is_lwu local + is_ld local.
Definition consts `{InstructionFormats} (local : t) : list Z :=
  [select (flags local) instr_type opcodes; select (flags local) base opcodes;
   select (flags local) unwrap_funct3 opcodes; select (flags local) unwrap_funct7 opcodes].

Definition address `{PrimeField} (local : t) : list call * (Z * Z * Z) :=
  let '(bit0, bit1, bit2) := offset_bit local in
  aligned_addr (adapter local) bit0 bit1 bit2 (is_real local) (address_operation local).

Definition alignment_calls (local : t) : list call :=
  let '(bit0, bit1, bit2) := offset_bit local in
  [Assert (When (is_ld local) (AssertZero bit2));
   Assert (When (is_lw local + is_lwu local + is_ld local) (AssertZero bit1));
   Assert (When (is_lh local + is_lhu local + is_lw local + is_lwu local + is_ld local) (AssertZero bit0))].

Definition eval `{PrimeField} `{ShardPublicValues} `{InstructionFormats} (local : t) : list call :=
  let clk_high := CPUState.clk_high (state local) in
  let clk_low := CPUState.clk_low (state local) in
  ([Assert (AssertBool (is_lb local)); Assert (AssertBool (is_lbu local)); Assert (AssertBool (is_lh local));
    Assert (AssertBool (is_lhu local)); Assert (AssertBool (is_lw local)); Assert (AssertBool (is_lwu local));
    Assert (AssertBool (is_ld local)); Assert (AssertBool (is_real local))] ++
   (address local).1 ++ alignment_calls local) ++
  eval_memory_access_read clk_high (clk_low + pos_M) (address local).2 (memory_access local) (is_real local) ++
  (page_prot_calls clk_high clk_low (address local).2 PROT_READ (is_page_protect_active local) (is_real local) ++
   [Assert (When (is_real local) (AssertEq (ITypeReader.op_a_0 (adapter local)) 1))]) ++
  CPUState.eval (state local) (pc_plus_4 (CPUState.pc (state local))) CLK_INC (is_real local) ++
  ITypeReader.eval_op_a_immutable clk_high clk_low (CPUState.pc (state local))
    (select (flags local) Opcode.as_field opcodes) (consts local) (adapter local) (is_real local).
End LoadX0Chip.

(** ** The chips are lawful *)

(** What a load extracts, from the limb it lies in. *)
Lemma byte_at v a : Z.land (v ≫ ((a mod 8) * 8)) 0xFF = limb_at v a / 2 ^ (8 * (a mod 2)) mod 2 ^ 8.
Proof.
  change 0xFF with (Z.ones 8). rewrite Z.land_ones, Z.shiftr_div_pow2 by lia_mod. unfold limb_at.
  replace ((a mod 8) * 8) with (16 * (a / 2 mod 4) + 8 * (a mod 2)) by lia_mod.
  rewrite Z.pow_add_r, <- Z.div_div by lia_mod. generalize (v / 2 ^ (16 * (a / 2 mod 4))). intros q.
  assert (a mod 2 = 0 \/ a mod 2 = 1) as [-> | ->] by lia_mod; lia_mod.
Qed.
Lemma half_at v a : Z.land (v ≫ ((a / 2) mod 4 * 16)) 0xFFFF = limb_at v a.
Proof.
  change 0xFFFF with (Z.ones 16). rewrite Z.land_ones, Z.shiftr_div_pow2 by lia_mod. unfold limb_at.
  now rewrite (Z.mul_comm _ 16).
Qed.
Lemma word_at x0 x1 x2 x3 a : is_u16 x0 -> is_u16 x1 -> is_u16 x2 -> is_u16 x3 ->
  Z.land ((x0 + 2 ^ 16 * x1 + 2 ^ 32 * x2 + 2 ^ 48 * x3) ≫ ((a / 4) mod 2 * 32)) 0xFFFFFFFF =
  if (a / 4) mod 2 =? 0 then x0 + 2 ^ 16 * x1 else x2 + 2 ^ 16 * x3.
Proof.
  intros. change 0xFFFFFFFF with (Z.ones 32). rewrite Z.land_ones, Z.shiftr_div_pow2 by lia_mod. unfold fits in *.
  assert (a / 4 mod 2 = 0 \/ a / 4 mod 2 = 1) as [-> | ->] by lia_mod; cbn [Z.eqb]; lia_mod.
Qed.

Lemma byte_u8 x : u8 (Z.land x 0xFF) = Z.land x 0xFF.
Proof. change 0xFF with (Z.ones 8). rewrite Z.land_ones by lia. apply Zmod_mod. Qed.
Lemma half_u16 x : u16 (Z.land x 0xFFFF) = Z.land x 0xFFFF.
Proof. change 0xFFFF with (Z.ones 16). rewrite Z.land_ones by lia. apply Zmod_mod. Qed.
Lemma pick_byte x a : is_u16 x ->
  a mod 2 * (x / 2 ^ 8) + (1 - a mod 2) * (x mod 2 ^ 8) = x / 2 ^ (8 * (a mod 2)) mod 2 ^ 8.
Proof.
  unfold fits. intros Hx. assert (a mod 2 = 0 \/ a mod 2 = 1) as [-> | ->] by lia_mod.
  - rewrite Z.div_1_r. lia.
  - change (8 * 1) with 8. rewrite (Z.mod_small (x / 2 ^ 8)); lia_mod.
Qed.

(** A value of [k] bits with its sign bit spread over the upper limbs. *)
Lemma sign_spread8 x m : is_u8 x -> m = x / 2 ^ 7 -> x + 65280 * m + 2 ^ 16 * (65535 * m) + 2 ^ 32 * (65535 * m) +
  2 ^ 48 * (65535 * m) = u64 (i8 x).
Proof. intros Hx ->. unfold_ints. lia_mod. Qed.
Lemma sign_spread16 x m : is_u16 x -> m = x / 2 ^ 15 -> x + 2 ^ 16 * (65535 * m) + 2 ^ 32 * (65535 * m) +
  2 ^ 48 * (65535 * m) = u64 (i16 x).
Proof. intros Hx ->. unfold_ints. lia_mod. Qed.

Section Lawful.
Context `{AirBuilder} `{ShardPublicValues} `{InstructionFormats}.

Ltac open_load Hs :=
  eapply load_chip_lawful; [|solve_quiet|solve_quiet|solve_quiet| |exact Hs];
    [rewrite ?app_nil_r; reflexivity|].

Lemma zero_flag x b : x ≐ 0 -> x ≐ from_bool b -> b = false.
Proof. intros E0 E. rewrite E0 in E. destruct b; [|done]. symmetry in E. now apply one_not_zero in E. Qed.

(** The selectors of a signed and an unsigned load. *)
Lemma selected_pair f0 f1 op0 op1 op : sat [Assert (AssertBool f0); Assert (AssertBool f1); Assert (AssertBool (f0 + f1))] ->
  f0 + f1 ≐ 1 -> select [f0; f1] Opcode.as_field [op0; op1] ≐ Opcode.as_field op ->
  exists signed : bool, op = (if signed then op0 else op1) /\ f0 ≐ from_bool signed /\ f1 ≐ from_bool (negb signed).
Proof.
  intros Hs. rewrite !sat_cons in Hs. destruct Hs as (B0 & B1 & _). apply selected_two; now apply holds_assert_bool.
Qed.

(** The selected byte, and its sign bit where the load is signed. *)
Lemma load_byte_sound local v a (signed : bool) : MemoryAccessCols.prev_value (LoadByteChip.memory_access local) ∼ v ->
  let '(bit0, bit1, bit2) := LoadByteChip.offset_bit local in
  bit0 ≐ a mod 2 -> bit1 ≐ a / 2 mod 2 -> bit2 ≐ a / 4 mod 2 ->
  LoadByteChip.is_real local ≐ 1 -> LoadByteChip.is_lb local ≐ from_bool signed -> LoadByteChip.is_lbu local ≐ from_bool (negb signed) ->
  sat (LoadByteChip.select_calls local) ->
  let byte := Z.land (v ≫ ((a mod 8) * 8)) 0xFF in
  LoadByteChip.loaded local ∼ (if signed then u64 (i8 byte) else byte).
Proof.
  intros Hv. unfold LoadByteChip.select_calls. destruct (LoadByteChip.offset_bit local) as [[bit0 bit1] bit2].
  intros E0 E1 E2 Hr Elb Elbu Hs. rewrite !sat_app, !sat_cons in Hs.
  destruct Hs as (Hl & Hb & Hsel & Hz & Hmsb & _).
  pose proof (select_limb_sound _ _ _ _ _ _ Hv E1 E2 Hl) as El. pose proof (limb_at_u16 v a) as Bl.
  destruct (split_limb_sound _ _ _ _ El Bl Hr Hb) as [El0 El1]. rewrite byte_at.
  set (x := limb_at v a) in *. set (y := x / 2 ^ (8 * (a mod 2)) mod 2 ^ 8).
  assert (By : is_u8 y) by apply (Z.mod_pos_bound _ (2 ^ 8) eq_refl).
  assert (Ey : LoadByteChip.selected_byte local ≐ y).
  { apply holds_assert_eq in Hsel. rewrite Hsel, El1, El0, E0. subst y. now rewrite <- pick_byte. }
  clearbody y. clear El0 El1 El Bl x E0 E1 E2 Hsel.
  destruct signed; cbn in Elb, Elbu.
  - destruct (sat_send_op ByteOpcode.MSB _ _ _ _ Hmsb Elb) as (e & Hok & Ho & Em & Eb & _).
    unfold event_ok in Hok. rewrite Ho in Hok. destruct Hok as (Be & _ & Ea). rewrite Ey in Eb.
    assert (ev_b e = y) as Ebe by (pose proof order_large; unfold fits in *; symmetry; apply feq_small; [done|lia]).
    rewrite Ebe in Ea. rewrite <- (sign_spread8 y (ev_a e)) by done. unfold fits in By.
    apply represents_intro; try (unfold fits; lia_mod); cbn; rewrite ?Em, ?Ey; reflexivity.
  - apply (when_one _ _ Elbu), holds_assert_zero in Hz.
    replace y with (y + 2 ^ 16 * 0 + 2 ^ 32 * 0 + 2 ^ 48 * 0) at 1 by lia. unfold fits in By.
    apply represents_intro; try (unfold fits; lia); cbn; rewrite Hz, ?Ey; apply feq_exists; exists 0; lia.
Qed.

#[global] Program Instance load_byte_chip : InstructionChip LoadByteChip.t := {
  chip_eval := LoadByteChip.eval;
  chip_row local := let '(bit0, bit1, bit2) := LoadByteChip.offset_bit local in
    memory_chip_row (LoadByteChip.state local) (select (LoadByteChip.flags local) Opcode.as_field LoadByteChip.opcodes)
      (LoadByteChip.loaded local) (LoadByteChip.adapter local) (LoadByteChip.is_real local) bit0 bit1 bit2
      (LoadByteChip.address_operation local) (LoadByteChip.memory_access local)
      (MemoryAccessCols.prev_value (LoadByteChip.memory_access local)) }.
Next Obligation.
  intros local Hs. pose proof (load_byte_sound local) as Hsound. unfold LoadByteChip.eval, LoadByteChip.address in *. cbv zeta in *.
  destruct (LoadByteChip.offset_bit local) as [[bit0 bit1] bit2] eqn:Eo.
  revert Hs. apply load_chip_lawful0; [solve_quiet|unfold LoadByteChip.select_calls; rewrite Eo; solve_quiet|].
  intros op zero a Hr Hpre _ Hmid Eop Ez O0 O1 O2 v Hv. rewrite sat_app, sat_cons in Hmid. destruct Hmid as (_ & Hz & Hsel).
  apply holds_assert_zero in Hz. destruct (selected_pair _ _ _ _ _ Hpre Hr Eop) as (signed & -> & F0 & F1).
  specialize (Hsound v a signed Hv O0 O1 O2 Hr F0 F1 Hsel). eexists. split; [|intros _; exact Hsound].
  destruct signed; cbn; [reflexivity|]. now rewrite byte_u8.
Qed.

Lemma offset_zero x : 0 ≐ x mod 2 -> x mod 2 = 0.
Proof. intros E. pose proof order_large. symmetry. apply feq_small; [done|lia_mod]. Qed.
Lemma spread_zero w x : w.[0] ≐ x -> is_u16 x -> w.[1] ≐ 0 -> w.[2] ≐ 0 -> w.[3] ≐ 0 -> w ∼ x.
Proof.
  intros E Bx E1 E2 E3. replace x with (x + 2 ^ 16 * 0 + 2 ^ 32 * 0 + 2 ^ 48 * 0) by lia.
  apply represents_intro; (done || (unfold fits; lia)).
Qed.

#[global] Program Instance load_half_chip : InstructionChip LoadHalfChip.t := {
  chip_eval := LoadHalfChip.eval;
  chip_row local :=
    memory_chip_row (LoadHalfChip.state local) (select (LoadHalfChip.flags local) Opcode.as_field LoadHalfChip.opcodes)
      (LoadHalfChip.loaded local) (LoadHalfChip.adapter local) (LoadHalfChip.is_real local) 0
      (LoadHalfChip.offset_bit local).1 (LoadHalfChip.offset_bit local).2
      (LoadHalfChip.address_operation local) (LoadHalfChip.memory_access local)
      (MemoryAccessCols.prev_value (LoadHalfChip.memory_access local)) }.
Next Obligation.
  intros local. apply load_chip_lawful0; [solve_quiet..|]. intros op zero a Hr Hpre _ Hmid Eop Ez O0 O1 O2 v Hv.
  rewrite sat_app, sat_cons in Hmid. destruct Hmid as (_ & _ & Hsel).
  destruct (selected_pair _ _ _ _ _ Hpre Hr Eop) as (signed & -> & F0 & F1).
  unfold LoadHalfChip.select_calls in Hsel. rewrite sat_app, sat_cons in Hsel. destruct Hsel as (Hl & Hz & Hmsb).
  pose proof (select_limb_sound _ _ _ _ _ _ Hv O1 O2 Hl) as El. pose proof (limb_at_u16 v a) as Bl.
  apply offset_zero in O0. exists (if signed then u64 (i16 (limb_at v a)) else limb_at v a). split.
  - destruct signed; cbn; rewrite O0; cbn; [|rewrite half_u16]; now rewrite half_at.
  - intros _. set (x := limb_at v a) in *. clearbody x. destruct signed; cbn in F0, F1.
    + apply (msb_sound _ _ _ _ El Bl F0) in Hmsb. rewrite <- (sign_spread16 x (x / 2 ^ 15)) by done. unfold fits in Bl.
      apply represents_intro; try (unfold fits; lia_mod); cbn; rewrite ?Hmsb; (reflexivity || exact El).
    + apply (when_one _ _ F1), holds_assert_zero in Hz. apply spread_zero; try done; cbn; rewrite Hz; reflexivity.
Qed.

(** The two limbs of the selected word. *)
Lemma select_word_sound local v a : MemoryAccessCols.prev_value (LoadWordChip.memory_access local) ∼ v ->
  LoadWordChip.offset_bit local ≐ a / 4 mod 2 -> sat (LoadWordChip.select_calls local) ->
  exists l0 l1, is_u16 l0 /\ is_u16 l1 /\ (LoadWordChip.selected_word local).1 ≐ l0 /\ (LoadWordChip.selected_word local).2 ≐ l1 /\
    Z.land (v ≫ ((a / 4) mod 2 * 32)) 0xFFFFFFFF = l0 + 2 ^ 16 * l1.
Proof.
  intros Hv E Hs. destruct_word Hv as x0 x1 x2 x3. subst v. rewrite word_at by done. unfold LoadWordChip.select_calls in Hs.
  rewrite sat_app, !sat_cons in Hs. destruct Hs as ((C0 & C1 & C2 & C3 & _) & _). destruct (proj1 (proj2 (offset_cases a))) as [F|F]; rewrite F in *.
  - apply (when_not_zero _ _ E), holds_assert_eq in C0, C1. exists x0, x1. rewrite C0, C1. done.
  - apply (when_one _ _ E), holds_assert_eq in C2, C3. exists x2, x3. rewrite C2, C3. done.
Qed.

#[global] Program Instance load_word_chip : InstructionChip LoadWordChip.t := {
  chip_eval := LoadWordChip.eval;
  chip_row local :=
    memory_chip_row (LoadWordChip.state local) (select (LoadWordChip.flags local) Opcode.as_field LoadWordChip.opcodes)
      (LoadWordChip.loaded local) (LoadWordChip.adapter local) (LoadWordChip.is_real local) 0 0 (LoadWordChip.offset_bit local)
      (LoadWordChip.address_operation local) (LoadWordChip.memory_access local)
      (MemoryAccessCols.prev_value (LoadWordChip.memory_access local)) }.
Next Obligation.
  intros local. apply load_chip_lawful0; [solve_quiet..|]. intros op zero a Hr Hpre _ Hmid Eop Ez O0 O1 O2 v Hv.
  rewrite sat_app, sat_cons in Hmid. destruct Hmid as (_ & _ & Hsel).
  destruct (selected_pair _ _ _ _ _ Hpre Hr Eop) as (signed & -> & F0 & F1).
  destruct (select_word_sound local v a Hv O2 Hsel) as (l0 & l1 & B0 & B1 & E0 & E1 & Ew).
  unfold LoadWordChip.select_calls in Hsel. rewrite !sat_app in Hsel. destruct Hsel as (_ & Hmsb & Hz).
  apply sat_cons in Hz as [Hz _].
  apply offset_zero in O0, O1. assert (Ha : a mod 4 =? 0 = true) by (apply Z.eqb_eq; clear - O0 O1; lia_mod).
  exists (if signed then u64 (i32 (l0 + 2 ^ 16 * l1)) else l0 + 2 ^ 16 * l1). split.
  - destruct signed; cbn; rewrite Ha; cbn; now rewrite Ew.
  - intros _. destruct signed; cbn in F0, F1.
    + apply (msb_sound _ _ _ _ E1 B1 F0) in Hmsb. pose proof (sign_extended_spec _ _ _ _ E0 E1 B0 B1 Hmsb) as G.
      unfold sign_extended in G. rewrite (Z.mul_comm _ 65535) in G. exact G.
    + apply (when_not_zero _ _ F0), holds_assert_zero in Hz. replace (l0 + _) with (l0 + 2 ^ 16 * l1 + 2 ^ 32 * 0 + 2 ^ 48 * 0) by lia.
      apply represents_intro; try done; try (unfold fits; lia); cbn; rewrite Hz; reflexivity.
Qed.

#[global] Program Instance load_double_chip : InstructionChip LoadDoubleChip.t := {
  chip_eval := LoadDoubleChip.eval;
  chip_row local :=
    memory_chip_row (LoadDoubleChip.state local) (Opcode.as_field LD)
      (MemoryAccessCols.prev_value (LoadDoubleChip.memory_access local)) (LoadDoubleChip.adapter local)
      (LoadDoubleChip.is_real local) 0 0 0 (LoadDoubleChip.address_operation local) (LoadDoubleChip.memory_access local)
      (MemoryAccessCols.prev_value (LoadDoubleChip.memory_access local)) }.
Next Obligation.
  intros local. apply load_chip_lawful0; [solve_quiet..|]. intros op zero a Hr _ _ _ Eop Ez O0 O1 O2 v Hv.
  apply opcode_inj in Eop as <-. apply offset_zero in O0, O1, O2.
  assert (Ha : a mod 8 =? 0 = true) by (apply Z.eqb_eq; clear - O0 O1 O2; lia_mod).
  exists v. cbn. rewrite Ha. now split.
Qed.

(** The alignment of the loads to register 0. *)
Lemma alignment_sound local a j : (j < 7)%nat ->
  (forall k, (k < 7)%nat -> nth k (LoadX0Chip.flags local) 0 ≐ from_bool (Nat.eqb k j)) ->
  let '(bit0, bit1, bit2) := LoadX0Chip.offset_bit local in
  bit0 ≐ a mod 2 -> bit1 ≐ a / 2 mod 2 -> bit2 ≐ a / 4 mod 2 -> sat (LoadX0Chip.alignment_calls local) ->
  forall v, exists x, load_result (nth j LoadX0Chip.opcodes ADD) a v = Some (inl x).
Proof.
  intros Hj Hf. unfold LoadX0Chip.alignment_calls. destruct (LoadX0Chip.offset_bit local) as [[bit0 bit1] bit2].
  intros O0 O1 O2 Hs v. rewrite !sat_cons in Hs. destruct Hs as (C2 & C1 & C0 & _).
  use_flag Hf 2%nat. use_flag Hf 3%nat. use_flag Hf 4%nat. use_flag Hf 5%nat. use_flag Hf 6%nat.
  assert (A2 : (6 <= j)%nat -> a / 4 mod 2 = 0).
  { intros Hk. apply offset_zero. rewrite <- O2. symmetry. apply when_one, holds_assert_zero in C2; [done|].
    rewrite F3. destruct j as [|[|[|[|[|[|[|j]]]]]]]; (lia || reflexivity). }
  assert (A1 : (4 <= j)%nat -> a / 2 mod 2 = 0).
  { intros Hk. apply offset_zero. rewrite <- O1. symmetry. apply when_one, holds_assert_zero in C1; [done|].
    rewrite F1, F2, F3. destruct j as [|[|[|[|[|[|[|j]]]]]]]; (lia || reflexivity). }
  assert (A0 : (2 <= j)%nat -> a mod 2 = 0).
  { intros Hk. apply offset_zero. rewrite <- O0. symmetry. apply when_one, holds_assert_zero in C0; [done|].
    rewrite F, F0, F1, F2, F3. destruct j as [|[|[|[|[|[|[|j]]]]]]]; (lia || reflexivity). }
  clear - Hj A0 A1 A2. destruct j as [|[|[|[|[|[|[|j]]]]]]]; try lia; cbn;
    try (eexists; reflexivity); match goal with |- context [a mod ?n =? 0] => replace (a mod n =? 0) with true by lia_mod end;
    eexists; reflexivity.
Qed.

#[global] Program Instance load_x0_chip : InstructionChip LoadX0Chip.t := {
  chip_eval := LoadX0Chip.eval;
  chip_row local := let '(bit0, bit1, bit2) := LoadX0Chip.offset_bit local in
    memory_chip_row (LoadX0Chip.state local) (select (LoadX0Chip.flags local) Opcode.as_field LoadX0Chip.opcodes)
      (ITypeReader.prev_a (LoadX0Chip.adapter local)) (LoadX0Chip.adapter local) (LoadX0Chip.is_real local) bit0 bit1 bit2
      (LoadX0Chip.address_operation local) (LoadX0Chip.memory_access local)
      (MemoryAccessCols.prev_value (LoadX0Chip.memory_access local)) }.
Next Obligation.
  intros local. pose proof (alignment_sound local) as Hsound. unfold LoadX0Chip.eval, LoadX0Chip.address in *. cbv zeta.
  destruct (LoadX0Chip.offset_bit local) as [[bit0 bit1] bit2] eqn:Eo.
  apply load_chip_lawful; [solve_quiet|unfold LoadX0Chip.alignment_calls; rewrite Eo; solve_quiet|solve_quiet|].
  intros op zero a Hr Hpre Hal Hmid Eop Ez O0 O1 O2 v Hv. rewrite sat_app, sat_cons in Hmid. destruct Hmid as (_ & Hx0 & _).
  apply (when_one _ _ Hr), holds_assert_eq in Hx0. rewrite Hx0 in Ez.
  rewrite !sat_cons in Hpre. destruct Hpre as (B0 & B1 & B2 & B3 & B4 & B5 & B6 & _).
  apply holds_assert_bool in B0, B1, B2, B3, B4, B5, B6.
  destruct (selected (LoadX0Chip.flags local) LoadX0Chip.opcodes op) as (j & Hj & -> & Hf);
    [reflexivity|cbn; lia|repeat (apply List.Forall_cons; [assumption|]); apply List.Forall_nil| |exact Eop|].
  { rewrite <- Hr. apply feq_exists. exists 0. unfold LoadX0Chip.is_real. cbn. lia. }
  destruct (Hsound a j Hj Hf O0 O1 O2 Hal v) as [x Ex]. exists x. split; [exact Ex|]. intros ->. cbn in Ez.
  now apply one_not_zero in Ez.
Qed.
End Lawful.
