(* ===== verification/StoreChips.v ===== *)
(** * StoreChips: the store chips

    [memory/instructions/store] of [core/machine]: for each of the four chips
    its columns, the row it generates for an event, its constraints, and that
    its rows are lawful.  The three chips that store less than a double word
    compute the new double word from the old one and the register. *)
From Stdlib Require Import ZArith Lia Bool Permutation.
From stdpp Require Import base numbers option list gmap.
From S2P Require Import Prelude Isa State Interpreter Rv64 Refinement Air KoalaBear ByteTable WordAir AddOps BitOps Bus MemAir Adapters Rows Chips MemChips LoadChips.
Import Opcode.
#[local] Obligation Tactic := idtac.

(** [Word::from(event.mem_access.value())]. *)
Definition store_word (event : MemInstrEvent.t) : Word :=
  Word_from_u64 (MemoryRecord.value (MemoryRecordEnum.current_record (MemInstrEvent.mem_access event))).

Module StoreByteChip.
Record t := mk {
  state : CPUState.t; adapter : ITypeReader.t; address_operation : AddressOperation.t; memory_access : MemoryAccessCols.t;
  offset_bit : Z * Z * Z; mem_limb : Z; mem_limb_low_byte : Z; register_low_byte : Z; increment : Z; store_value : Word;
  is_real : Z; is_page_protect_active : Z }.
Definition zero : t :=
  mk CPUState.zero ITypeReader.zero zero_address zero_memory_access (0, 0, 0) 0 0 0 0 word_zero 0 0.

Definition event_to_row `{PrimeField} (event : MemInstrEvent.t) (blu : list ByteLookupEvent) :
  option (row_maker t * list ByteLookupEvent) :=
  '(memory_access, address_operation, memory_addr, blu) ← populate_access event blu;
  let '(bit0, bit1, bit2) := offset_bits memory_addr in
  let limb_number := 2 * bit2 + bit1 in
  let limb := nth (Z.to_nat limb_number) (prev_value_limbs event) 0 in
  let limb_a := u16 (Z.land (MemInstrEvent.a event) ((1 ≪ 16) - 1)) in
  let blu := add_u8_range_checks blu (u16_to_le_bytes limb) in
  let blu := add_u8_range_checks blu (u16_to_le_bytes limb_a) in
  let mem_limb_low_byte := Z.land limb 0xFF in
  let register_low_byte := Z.land (MemInstrEvent.a event) 0xFF in
  let increment := (register_low_byte - mem_limb_low_byte) * (1 - bit0) +
    ((1 ≪ 8) * register_low_byte - limb + mem_limb_low_byte) * bit0 in
  Some (fun state adapter is_page_protect_active =>
    mk state adapter address_operation memory_access (bit0, bit1, bit2) limb mem_limb_low_byte register_low_byte
      increment (store_word event) 1 is_page_protect_active, blu).

Definition generate_row `{PrimeField} (enabled : Z) (event : MemInstrEvent.t * ITypeRecord.t) :
  option (t * list ByteLookupEvent) :=
  memory_row event_to_row enabled event.

Definition address `{PrimeField} (local : t) : list call * (Z * Z * Z) :=
  let '(bit0, bit1, bit2) := offset_bit local in
  aligned_addr (adapter local) bit0 bit1 bit2 (is_real local) (address_operation local).

(** Step 3: the new double word. *)
Definition value_calls `{PrimeField} (local : t) : list call :=
  let '(bit0, bit1, bit2) := offset_bit local in
  let prev_value := MemoryAccessCols.prev_value (memory_access local) in
  let reg_byte1 := high_byte_of (ITypeReader.prev_a (adapter local)).[0] (register_low_byte local) in
  let byte1 := high_byte_of (mem_limb local) (mem_limb_low_byte local) in
  select_limb bit1 bit2 (mem_limb local) prev_value ++
  slice_range_check_u8 [register_low_byte local; reg_byte1] (is_real local) ++
  slice_range_check_u8 [mem_limb_low_byte local; byte1] (is_real local) ++
  [Assert (AssertEq (increment local) ((register_low_byte local - mem_limb_low_byte local) * (1 - bit0) +
     (1 ≪ 8) * (register_low_byte local - byte1) * bit0));
   Assert (AssertEq (store_value local).[0] (increment local * (1 - bit1) * (1 - bit2) + prev_value.[0]));
   Assert (AssertEq (store_value local).[1] (increment local * bit1 * (1 - bit2) + prev_value.[1]));
   Assert (AssertEq (store_value local).[2] (increment local * (1 - bit1) * bit2 + prev_value.[2]));
   Assert (AssertEq (store_value local).[3] (increment local * bit1 * bit2 + prev_value.[3]))].

Definition eval `{PrimeField} `{ShardPublicValues} `{InstructionFormats} (local : t) : list call :=
  let clk_high := CPUState.clk_high (state local) in
  let clk_low := CPUState.clk_low (state local) in
  ([Assert (AssertBool (is_real local))] ++ (address local).1) ++
  eval_memory_access_write clk_high (clk_low + pos_M) (address local).2 (memory_access local) (store_value local)
    (is_real local) ++
  (page_prot_calls clk_high clk_low (address local).2 PROT_WRITE (is_page_protect_active local) (is_real local) ++
   value_calls local) ++
  CPUState.eval (state local) (pc_plus_4 (CPUState.pc (state local))) CLK_INC (is_real local) ++
  ITypeReader.eval_op_a_immutable clk_high clk_low (CPUState.pc (state local)) (Opcode.as_field SB) (field_consts SB)
    (adapter local) (is_real local).
End StoreByteChip.

Module StoreHalfChip.
Record t := mk {
  state : CPUState.t; adapter : ITypeReader.t; address_operation : AddressOperation.t; memory_access : MemoryAccessCols.t;
  offset_bit : Z * Z; store_value : Word; is_real : Z; is_page_protect_active : Z }.
Definition zero : t := mk CPUState.zero ITypeReader.zero zero_address zero_memory_access (0, 0) word_zero 0 0.

Definition event_to_row `{PrimeField} (event : MemInstrEvent.t) (blu : list ByteLookupEvent) :
  option (row_maker t * list ByteLookupEvent) :=
  '(memory_access, address_operation, memory_addr, blu) ← populate_access event blu;
  let '(_, bit1, bit2) := offset_bits memory_addr in
  Some (fun state adapter is_page_protect_active =>
    mk state adapter address_operation memory_access (bit1, bit2) (store_word event) 1 is_page_protect_active, blu).

Definition generate_row `{PrimeField} (enabled : Z) (event : MemInstrEvent.t * ITypeRecord.t) :
  option (t * list ByteLookupEvent) :=
  memory_row event_to_row enabled event.

Definition address `{PrimeField} (local : t) : list call * (Z * Z * Z) :=
  aligned_addr (adapter local) 0 (offset_bit local).1 (offset_bit local).2 (is_real local) (address_operation local).

Definition value_calls (local : t) : list call :=
  let '(bit0, bit1) := offset_bit local in
  let prev := MemoryAccessCols.prev_value (memory_access local) in
  let store_limb := (ITypeReader.prev_a (adapter local)).[0] in
  [Assert (AssertEq (store_value local).[0] (prev.[0] + (store_limb - prev.[0]) * (1 - bit0) * (1 - bit1)));
   Assert (AssertEq (store_value local).[1] (prev.[1] + (store_limb - prev.[1]) * bit0 * (1 - bit1)));
   Assert (AssertEq (store_value local).[2] (prev.[2] + (store_limb - prev.[2]) * (1 - bit0) * bit1));
   Assert (AssertEq (store_value local).[3] (prev.[3] + (store_limb - prev.[3]) * bit0 * bit1))].

Definition eval `{PrimeField} `{ShardPublicValues} `{InstructionFormats} (local : t) : list call :=
  let clk_high := CPUState.clk_high (state local) in
  let clk_low := CPUState.clk_low (state local) in
  ([Assert (AssertBool (is_real local))] ++ (address local).1) ++
  eval_memory_access_write clk_high (clk_low + pos_M) (address local).2 (memory_access local) (store_value local)
    (is_real local) ++
  (page_prot_calls clk_high clk_low (address local).2 PROT_WRITE (is_page_protect_active local) (is_real local) ++
   value_calls local) ++
  CPUState.eval (state local) (pc_plus_4 (CPUState.pc (state local))) CLK_INC (is_real local) ++
  ITypeReader.eval_op_a_immutable clk_high clk_low (CPUState.pc (state local)) (Opcode.as_field SH) (field_consts SH)
    (adapter local) (is_real local).
End StoreHalfChip.

Module StoreWordChip.
Record t := mk {
  state : CPUState.t; adapter : ITypeReader.t; address_operation : AddressOperation.t; memory_access : MemoryAccessCols.t;
  offset_bit : Z; store_value : Word; is_real : Z; is_page_protect_active : Z }.
Definition zero : t := mk CPUState.zero ITypeReader.zero zero_address zero_memory_access 0 word_zero 0 0.

Definition event_to_row `{PrimeField} (event : MemInstrEvent.t) (blu : list ByteLookupEvent) :
  option (row_maker t * list ByteLookupEvent) :=
  '(memory_access, address_operation, memory_addr, blu) ← populate_access event blu;
  let '(_, _, bit) := offset_bits memory_addr in
  Some (fun state adapter is_page_protect_active =>
    mk state adapter address_operation memory_access bit (store_word event) 1 is_page_protect_active, blu).

Definition generate_row `{PrimeField} (enabled : Z) (event : MemInstrEvent.t * ITypeRecord.t) :
  option (t * list ByteLookupEvent) :=
  memory_row event_to_row enabled event.

Definition address `{PrimeField} (local : t) : list call * (Z * Z * Z) :=
  aligned_addr (adapter local) 0 0 (offset_bit local) (is_real local) (address_operation local).

Definition value_calls (local : t) : list call :=
  let bit := offset_bit local in
  let prev := MemoryAccessCols.prev_value (memory_access local) in
  let store_limb := ITypeReader.prev_a (adapter local) in
  [Assert (AssertEq (store_value local).[0] (prev.[0] + (store_limb.[0] - prev.[0]) * (1 - bit)));
   Assert (AssertEq (store_value local).[1] (prev.[1] + (store_limb.[1] - prev.[1]) * (1 - bit)));
   Assert (AssertEq (store_value local).[2] (prev.[2] + (store_limb.[0] - prev.[2]) * bit));
   Assert (AssertEq (store_value local).[3] (prev.[3] + (store_limb.[1] - prev.[3]) * bit))].

Definition eval `{PrimeField} `{ShardPublicValues} `{InstructionFormats} (local : t) : list call :=
  let clk_high := CPUState.clk_high (state local) in
  let clk_low := CPUState.clk_low (state local) in
  ([Assert (AssertBool (is_real local))] ++ (address local).1) ++
  eval_memory_access_write clk_high (clk_low + pos_M) (address local).2 (memory_access local) (store_value local)
    (is_real local) ++
  (page_prot_calls clk_high clk_low (address local).2 PROT_WRITE (is_page_protect_active local) (is_real local) ++
   value_calls local) ++
  CPUState.eval (state local) (pc_plus_4 (CPUState.pc (state local))) CLK_INC (is_real local) ++
  ITypeReader.eval_op_a_immutable clk_high clk_low (CPUState.pc (state local)) (Opcode.as_field SW) (field_consts SW)
    (adapter local) (is_real local).
End StoreWordChip.

Module StoreDoubleChip.
Record t := mk {
  state : CPUState.t; adapter : ITypeReader.t; address_operation : AddressOperation.t; memory_access : MemoryAccessCols.t;
  is_real : Z; is_page_protect_active : Z }.
Definition zero : t := mk CPUState.zero ITypeReader.zero zero_address zero_memory_access 0 0.

Definition event_to_row `{PrimeField} (event : MemInstrEvent.t) (blu : list ByteLookupEvent) :
  option (row_maker t * list ByteLookupEvent) :=
  '(memory_access, address_operation, _, blu) ← populate_access event blu;
  Some (fun state adapter is_page_protect_active =>
    mk state adapter address_operation memory_access 1 is_page_protect_active, blu).

Definition generate_row `{PrimeField} (enabled : Z) (event : MemInstrEvent.t * ITypeRecord.t) :
  option (t * list ByteLookupEvent) :=
  memory_row event_to_row enabled event.

Definition address `{PrimeField} (local : t) : list call * (Z * Z * Z) :=
  aligned_addr (adapter local) 0 0 0 (is_real local) (address_operation local).

Definition eval `{PrimeField} `{ShardPublicValues} `{InstructionFormats} (local : t) : list call :=
  let clk_high := CPUState.clk_high (state local) in
  let clk_low := CPUState.clk_low (state local) in
  ([Assert (AssertBool (is_real local))] ++ (address local).1) ++
  eval_memory_access_write clk_high (clk_low + pos_M) (address local).2 (memory_access local)
    (ITypeReader.prev_a (adapter local)) (is_real local) ++
  page_prot_calls clk_high clk_low (address local).2 PROT_WRITE (is_page_protect_active local) (is_real local) ++
  CPUState.eval (state local) (pc_plus_4 (CPUState.pc (state local))) CLK_INC (is_real local) ++
  ITypeReader.eval_op_a_immutable clk_high clk_low (CPUState.pc (state local)) (Opcode.as_field SD) (field_consts SD)
    (adapter local) (is_real local).
End StoreDoubleChip.

(** ** The chips are lawful *)
Section Lawful.
Context `{AirBuilder} `{ShardPublicValues} `{InstructionFormats}.

(** A word that differs from another in the limb that holds the byte at [a]. *)
Lemma word_change prev w v a d : prev ∼ v -> is_u16 (limb_at v a + d) ->
  (forall i, (i < 4)%nat -> w.[i] ≐ prev.[i] + (if Z.of_nat i =? a / 2 mod 4 then d else 0)) ->
  w ∼ v + d * 2 ^ (16 * (a / 2 mod 4)).
Proof.
  intros Hp Hd Hw. pose proof (Hw 0%nat ltac:(lia)) as W0. pose proof (Hw 1%nat ltac:(lia)) as W1.
  pose proof (Hw 2%nat ltac:(lia)) as W2. pose proof (Hw 3%nat ltac:(lia)) as W3. clear Hw.
  destruct_word Hp as x0 x1 x2 x3. subst v. unfold limb_at in Hd. assert (Hk : 0 <= a / 2 mod 4 < 4) by apply (Z.mod_pos_bound _ 4 eq_refl).
  set (k := a / 2 mod 4) in *. clearbody k.
  set (e i := if i =? k then d else 0). assert (0 <= x0 + e 0 < 2 ^ 16 /\ 0 <= x1 + e 1 < 2 ^ 16 /\ 0 <= x2 + e 2 < 2 ^ 16 /\
    0 <= x3 + e 3 < 2 ^ 16 /\ d * 2 ^ (16 * k) = e 0 + 2 ^ 16 * e 1 + 2 ^ 32 * e 2 + 2 ^ 48 * e 3) as (B0 & B1 & B2 & B3 & ->).
  { unfold fits in *. assert (k = 0 \/ k = 1 \/ k = 2 \/ k = 3) as [->|[->|[->| ->]]] by lia; subst e; cbn [Z.eqb Pos.eqb] in *;
      match type of Hd with context [2 ^ ?x] => let x' := eval compute in x in change x with x' in Hd end; lia_mod. }
  replace (_ + _) with (x0 + e 0 + 2 ^ 16 * (x1 + e 1) + 2 ^ 32 * (x2 + e 2) + 2 ^ 48 * (x3 + e 3)) by lia.
  apply represents_intro; try done; [rewrite W0|rewrite W1|rewrite W2|rewrite W3]; now apply feq_add.
Qed.

(** The factor of the offset bits in the value of each limb. *)
Lemma offset_factor bit1 bit2 a i : (i < 4)%nat -> bit1 ≐ a / 2 mod 2 -> bit2 ≐ a / 4 mod 2 ->
  nth i [(1 - bit1) * (1 - bit2); bit1 * (1 - bit2); (1 - bit1) * bit2; bit1 * bit2] 0 ≐
  from_bool (Z.of_nat i =? a / 2 mod 4).
Proof.
  intros Hi E1 E2. destruct (offset_cases a) as ([F1|F1] & [F2|F2] & ->); rewrite F1 in *; rewrite F2 in *;
    destruct i as [|[|[|[|i]]]]; try lia; cbn [nth]; rewrite E1, E2; reflexivity.
Qed.

Lemma sb_value va v a : is_u64 va -> is_u64 v -> store_result SB a va v = Some (inl
  (v + (va mod 2 ^ 8 - limb_at v a / 2 ^ (8 * (a mod 2)) mod 2 ^ 8) * 2 ^ (8 * (a mod 2)) * 2 ^ (16 * (a / 2 mod 4)))).
Proof.
  intros Ha Hv. rewrite store_result_spec by done. cbn [Rv64.store_format mbind option_bind].
  unfold Rv64.aligned. rewrite Z.mod_1_r. cbn [Z.eqb]. do 2 f_equal. rewrite merged_value by (done || lia_mod).
  change (8 * Z.of_nat 1) with 8. rewrite <- byte_at. change 0xFF with (Z.ones 8).
  rewrite Z.land_ones, Z.shiftr_div_pow2 by lia_mod. rewrite (Z.mul_comm (a mod 8)), <- Z.mul_assoc, <- Z.pow_add_r by lia_mod.
  do 3 f_equal. lia_mod.
Qed.
Lemma sh_value va v a : is_u64 va -> is_u64 v -> a mod 2 = 0 -> store_result SH a va v = Some (inl
  (v + (va mod 2 ^ 16 - limb_at v a) * 2 ^ (16 * (a / 2 mod 4)))).
Proof.
  intros Ha Hv Hal. rewrite store_result_spec by done. cbn [Rv64.store_format mbind option_bind].
  unfold Rv64.aligned. change (Z.of_nat 2) with 2. rewrite Hal. cbn [Z.eqb]. do 2 f_equal. rewrite merged_value by (done || lia_mod).
  unfold limb_at. replace (8 * (a mod 8)) with (16 * (a / 2 mod 4)) by lia_mod. reflexivity.
Qed.
Lemma sw_value va v a : is_u64 va -> is_u64 v -> a mod 4 = 0 -> store_result SW a va v = Some (inl
  (v + (va mod 2 ^ 32 - v / 2 ^ (32 * (a / 4 mod 2)) mod 2 ^ 32) * 2 ^ (32 * (a / 4 mod 2)))).
Proof.
  intros Ha Hv Hal. rewrite store_result_spec by done. cbn [Rv64.store_format mbind option_bind].
  unfold Rv64.aligned. change (Z.of_nat 4) with 4. rewrite Hal. cbn [Z.eqb]. do 2 f_equal. rewrite merged_value by (done || lia_mod).
  replace (8 * (a mod 8)) with (32 * (a / 4 mod 2)) by lia_mod. reflexivity.
Qed.

Lemma word_low_limb w v : w ∼ v -> w.[0] ≐ v mod 2 ^ 16.
Proof. intros Hw. destruct_word Hw as x0 x1 x2 x3. subst v. unfold fits in *. replace (_ mod _) with x0 by lia_mod. done. Qed.
Lemma limb_at_spec w v a i : w ∼ v -> (i < 4)%nat -> Z.of_nat i = a / 2 mod 4 -> w.[i] ≐ limb_at v a.
Proof.
  intros Hw Hi Ei. unfold limb_at. rewrite <- Ei. destruct_word Hw as x0 x1 x2 x3. subst v. unfold fits in *.
  destruct i as [|[|[|[|i]]]]; [..|lia]; match goal with |- context [2 ^ ?x] => let x' := eval compute in x in change x with x' end;
    match goal with E : ?w.[?j] ≐ ?y |- ?w.[?j] ≐ ?z => replace z with y; [exact E|clear - H3 H4 H5 H6; lia_mod] end.
Qed.

Lemma delta_u16 x y o : is_u16 x -> is_u8 y -> (o = 0 \/ o = 1) ->
  is_u16 (x + (y - x / 2 ^ (8 * o) mod 2 ^ 8) * 2 ^ (8 * o)).
Proof.
  unfold fits. intros Bx By [-> | ->].
  - rewrite Z.div_1_r. change (2 ^ (8 * 0)) with 1. lia_mod.
  - change (2 ^ (8 * 1)) with 256. rewrite (Z.mod_small (x / 256)) by lia_mod. lia_mod.
Qed.
(** The increment of a stored byte. *)
Lemma increment_value x y a : is_u16 x ->
  (y - x mod 2 ^ 8) * (1 - a mod 2) + 2 ^ 8 * (y - x / 2 ^ 8) * (a mod 2) =
  (y - x / 2 ^ (8 * (a mod 2)) mod 2 ^ 8) * 2 ^ (8 * (a mod 2)).
Proof.
  intros Hx. rewrite <- pick_byte by done. assert (a mod 2 = 0 \/ a mod 2 = 1) as [-> | ->] by lia_mod.
  - change (2 ^ (8 * 0)) with 1. lia.
  - change (2 ^ (8 * 1)) with (2 ^ 8). lia.
Qed.

Lemma store_byte_sound local v va a : MemoryAccessCols.prev_value (StoreByteChip.memory_access local) ∼ v ->
  ITypeReader.prev_a (StoreByteChip.adapter local) ∼ va ->
  let '(bit0, bit1, bit2) := StoreByteChip.offset_bit local in
  bit0 ≐ a mod 2 -> bit1 ≐ a / 2 mod 2 -> bit2 ≐ a / 4 mod 2 -> StoreByteChip.is_real local ≐ 1 ->
  sat (StoreByteChip.value_calls local) ->
  StoreByteChip.store_value local ∼
    v + (va mod 2 ^ 8 - limb_at v a / 2 ^ (8 * (a mod 2)) mod 2 ^ 8) * 2 ^ (8 * (a mod 2)) * 2 ^ (16 * (a / 2 mod 4)).
Proof.
  intros Hv Hva. unfold StoreByteChip.value_calls. destruct (StoreByteChip.offset_bit local) as [[bit0 bit1] bit2].
  intros O0 O1 O2 Hr Hs. rewrite !sat_app, !sat_cons in Hs. destruct Hs as (Hl & Hra & Hrm & Hinc & S0 & S1 & S2 & S3 & _).
  pose proof (select_limb_sound _ _ _ _ _ _ Hv O1 O2 Hl) as El. pose proof (limb_at_u16 v a) as Bl.
  destruct (split_limb_sound _ _ _ _ (word_low_limb _ _ Hva) (proj1 (conj (Z.mod_pos_bound va (2 ^ 16) eq_refl) I)) Hr Hra) as [Ea _].
  destruct (split_limb_sound _ _ _ _ El Bl Hr Hrm) as [Em0 Em1].
  replace ((va mod 2 ^ 16) mod 2 ^ 8) with (va mod 2 ^ 8) in Ea by (clear; lia_mod).
  apply holds_assert_eq in Hinc, S0, S1, S2, S3. change (1 ≪ 8) with (2 ^ 8) in Hinc.
  rewrite Em1, Em0, Ea, O0, increment_value in Hinc by done. 
  set (d := (va mod 2 ^ 8 - limb_at v a / 2 ^ (8 * (a mod 2)) mod 2 ^ 8) * 2 ^ (8 * (a mod 2))) in *.
  apply (word_change _ _ _ _ _ Hv).
  - apply delta_u16; [done|apply (Z.mod_pos_bound _ (2 ^ 8) eq_refl)|clear; lia_mod].
  - intros i Hi. pose proof (offset_factor bit1 bit2 a i Hi O1 O2) as Ef.
    replace (if Z.of_nat i =? a / 2 mod 4 then d else 0) with (d * from_bool (Z.of_nat i =? a / 2 mod 4)) by (case_match; cbn; lia).
    rewrite <- Ef, <- Hinc. destruct i as [|[|[|[|i]]]]; [..|lia]; cbn [nth];
      [rewrite S0|rewrite S1|rewrite S2|rewrite S3]; apply feq_exists; exists 0; lia.
Qed.

#[global] Program Instance store_byte_chip : InstructionChip StoreByteChip.t := {
  chip_eval := StoreByteChip.eval;
  chip_row local := let '(bit0, bit1, bit2) := StoreByteChip.offset_bit local in
    memory_chip_row (StoreByteChip.state local) (Opcode.as_field SB) (ITypeReader.prev_a (StoreByteChip.adapter local))
      (StoreByteChip.adapter local) (StoreByteChip.is_real local) bit0 bit1 bit2
      (StoreByteChip.address_operation local) (StoreByteChip.memory_access local) (StoreByteChip.store_value local) }.
Next Obligation.
  intros local. pose proof (store_byte_sound local) as Hsound. unfold StoreByteChip.eval, StoreByteChip.address in *. cbv zeta.
  destruct (StoreByteChip.offset_bit local) as [[bit0 bit1] bit2] eqn:Eo.
  apply store_chip_lawful; [solve_quiet|unfold StoreByteChip.value_calls; rewrite Eo; solve_quiet|].
  intros op zero a Hr _ _ Hmid Eop _ O0 O1 O2 v va Hv Hva. apply opcode_inj in Eop as <-. rewrite sat_app in Hmid.
  eexists. split; [apply sb_value; [apply Hva|apply Hv]|]. now apply Hsound.
Qed.

#[global] Program Instance store_half_chip : InstructionChip StoreHalfChip.t := {
  chip_eval := StoreHalfChip.eval;
  chip_row local :=
    memory_chip_row (StoreHalfChip.state local) (Opcode.as_field SH) (ITypeReader.prev_a (StoreHalfChip.adapter local))
      (StoreHalfChip.adapter local) (StoreHalfChip.is_real local) 0 (StoreHalfChip.offset_bit local).1
      (StoreHalfChip.offset_bit local).2 (StoreHalfChip.address_operation local) (StoreHalfChip.memory_access local)
      (StoreHalfChip.store_value local) }.
Next Obligation.
  intros local. apply store_chip_lawful; [solve_quiet|unfold StoreHalfChip.value_calls; destruct StoreHalfChip.offset_bit; solve_quiet|].
  intros op zero a Hr _ _ Hmid Eop _ O0 O1 O2 v va Hv Hva. apply opcode_inj in Eop as <-. rewrite sat_app in Hmid.
  destruct Hmid as [_ Hs]. apply offset_zero in O0. eexists. split; [apply sh_value; [apply Hva|apply Hv|done]|].
  apply (word_change _ _ _ _ _ Hv).
  { replace (_ + _) with (va mod 2 ^ 16) by lia. apply (Z.mod_pos_bound _ (2 ^ 16) eq_refl). }
  intros i Hi. unfold StoreHalfChip.value_calls in Hs. destruct (StoreHalfChip.offset_bit local) as [bit1 bit2]. cbn [fst snd] in O1, O2.
  pose proof (offset_factor bit1 bit2 a i Hi O1 O2) as Ef. rewrite !sat_cons in Hs. destruct Hs as (S0 & S1 & S2 & S3 & _).
  apply holds_assert_eq in S0, S1, S2, S3. rewrite (word_low_limb _ _ Hva) in S0, S1, S2, S3.
  assert (S : (StoreHalfChip.store_value local).[i] ≐ (MemoryAccessCols.prev_value (StoreHalfChip.memory_access local)).[i] +
    (va mod 2 ^ 16 - (MemoryAccessCols.prev_value (StoreHalfChip.memory_access local)).[i]) *
    nth i [(1 - bit1) * (1 - bit2); bit1 * (1 - bit2); (1 - bit1) * bit2; bit1 * bit2] 0).
  { destruct i as [|[|[|[|i]]]]; [..|lia]; cbn [nth]; [rewrite S0|rewrite S1|rewrite S2|rewrite S3]; apply feq_exists; exists 0; lia. }
  rewrite S, Ef. destruct (Z.eqb_spec (Z.of_nat i) (a / 2 mod 4)) as [Ei|Ei]; cbn [from_bool].
  - rewrite (limb_at_spec _ _ _ _ Hv Hi Ei). apply feq_exists. exists 0. lia.
  - apply feq_exists. exists 0. lia.
Qed.

Lemma sw_word prev w va v a pa : prev ∼ v -> pa ∼ va -> (let bit := a / 4 mod 2 in
  w.[0] ≐ prev.[0] + (pa.[0] - prev.[0]) * (1 - bit) /\ w.[1] ≐ prev.[1] + (pa.[1] - prev.[1]) * (1 - bit) /\
  w.[2] ≐ prev.[2] + (pa.[0] - prev.[2]) * bit /\ w.[3] ≐ prev.[3] + (pa.[1] - prev.[3]) * bit) ->
  w ∼ v + (va mod 2 ^ 32 - v / 2 ^ (32 * (a / 4 mod 2)) mod 2 ^ 32) * 2 ^ (32 * (a / 4 mod 2)).
Proof.
  intros Hp Ha (W0 & W1 & W2 & W3). destruct_word Hp as x0 x1 x2 x3. destruct_word Ha as y0 y1 y2 y3. subst v va.
  destruct (offset_cases a) as (_ & [F|F] & _); rewrite F in *; unfold fits in *.
  - change (32 * 0) with 0. replace (_ + _ * 2 ^ 0) with (y0 + 2 ^ 16 * y1 + 2 ^ 32 * x2 + 2 ^ 48 * x3) by lia_mod.
    apply represents_intro; try done; [rewrite W0|rewrite W1|rewrite W2|rewrite W3];
      match goal with E : _ ≐ ?y |- _ ≐ ?y => rewrite <- E end; apply feq_exists; exists 0; lia.
  - change (32 * 1) with 32. replace (_ + _ * 2 ^ 32) with (x0 + 2 ^ 16 * x1 + 2 ^ 32 * y0 + 2 ^ 48 * y1) by lia_mod.
    apply represents_intro; try done; [rewrite W0|rewrite W1|rewrite W2|rewrite W3];
      match goal with E : _ ≐ ?y |- _ ≐ ?y => rewrite <- E end; apply feq_exists; exists 0; lia.
Qed.

#[global] Program Instance store_word_chip : InstructionChip StoreWordChip.t := {
  chip_eval := StoreWordChip.eval;
  chip_row local :=
    memory_chip_row (StoreWordChip.state local) (Opcode.as_field SW) (ITypeReader.prev_a (StoreWordChip.adapter local))
      (StoreWordChip.adapter local) (StoreWordChip.is_real local) 0 0 (StoreWordChip.offset_bit local)
      (StoreWordChip.address_operation local) (StoreWordChip.memory_access local) (StoreWordChip.store_value local) }.
Next Obligation.
  intros local. apply store_chip_lawful; [solve_quiet..|]. intros op zero a Hr _ _ Hmid Eop _ O0 O1 O2 v va Hv Hva.
  apply opcode_inj in Eop as <-. rewrite sat_app in Hmid. destruct Hmid as [_ Hs]. apply offset_zero in O0, O1.
  eexists. split; [apply sw_value; [apply Hva|apply Hv|clear - O0 O1; lia_mod]|]. apply (sw_word _ _ _ _ _ _ Hv Hva).
  unfold StoreWordChip.value_calls in Hs. rewrite !sat_cons in Hs. destruct Hs as (S0 & S1 & S2 & S3 & _).
  apply holds_assert_eq in S0, S1, S2, S3. cbv zeta. rewrite <- O2. done.
Qed.

#[global] Program Instance store_double_chip : InstructionChip StoreDoubleChip.t := {
  chip_eval := StoreDoubleChip.eval;
  chip_row local :=
    memory_chip_row (StoreDoubleChip.state local) (Opcode.as_field SD) (ITypeReader.prev_a (StoreDoubleChip.adapter local))
      (StoreDoubleChip.adapter local) (StoreDoubleChip.is_real local) 0 0 0 (StoreDoubleChip.address_operation local)
      (StoreDoubleChip.memory_access local) (ITypeReader.prev_a (StoreDoubleChip.adapter local)) }.
Next Obligation.
  intros local. apply store_chip_lawful; [solve_quiet..|]. intros op zero a Hr _ _ _ Eop _ O0 O1 O2 v va Hv Hva.
  apply opcode_inj in Eop as <-. apply offset_zero in O0, O1, O2. exists va. split; [|done].
  cbn. replace (a mod 8 =? 0) with true by (clear - O0 O1 O2; lia_mod). reflexivity.
Qed.
End Lawful.
