(* ===== verification/ShiftChips.v ===== *)
(** * ShiftChips: the shift chips

    [alu/sll] and [alu/sr] of [core/machine]: columns, generated rows,
    constraints, and that the rows are lawful.  Both chips write the shift
    amount as [16 q + r]: every limb is split at the bit [r] or [16 - r], the
    parts of neighbouring limbs are joined, and the limbs are moved by [q]. *)
From Stdlib Require Import ZArith Lia Bool Permutation.
From stdpp Require Import base numbers option list gmap.
From S2P Require Import Prelude Isa State Rv64 Refinement Air KoalaBear ByteTable WordAir AddOps BitOps Bus MemAir Adapters Rows Chips MemChips.
Import Opcode.
#[local] Obligation Tactic := idtac.

(** The number the first [n] bits stand for. *)
Definition lower_bits (c_bits : list Z) (n : nat) : Z :=
  foldl (fun acc i => acc + nth i c_bits 0 * (1 ≪ Z.of_nat i)) 0 (seq 0 n).

(** The bits of the shift amount and the flags of the limb shift, in both
    chips; [long] is set on the operations on all 64 bits. *)
Definition amount_calls `{PrimeField} (c0 : Z) (c_bits shift_u16 : list Z) (long is_real : Z) : list call :=
  ((fun i => Assert (AssertBool (nth i c_bits 0))) <$> seq 0 6) ++
  [send_byte (ByteOpcode.as_u8 ByteOpcode.Range) ((c0 - lower_bits c_bits 6) * finv 64) 10 0 is_real] ++
  (seq 0 WORD_SIZE ≫= fun i =>
     [Assert (When (nth i shift_u16 0) (AssertEq (nth 4 c_bits 0 + nth 5 c_bits 0 * 2 * long) (Z.of_nat i)));
      Assert (AssertBool (nth i shift_u16 0))]) ++
  [Assert (When is_real (AssertEq (nth 0 shift_u16 0 + nth 1 shift_u16 0 + nth 2 shift_u16 0 + nth 3 shift_u16 0) 1))].

(** A limb is [higher * 2^16 / v + lower], with the widths of the two parts;
    the equation is multiplied by [v]. *)
Definition part_calls (lower bits_lower higher bits_higher limb_v v is_real : Z) : list call :=
  [send_byte (ByteOpcode.as_u8 ByteOpcode.Range) lower bits_lower 0 is_real;
   send_byte (ByteOpcode.as_u8 ByteOpcode.Range) higher bits_higher 0 is_real;
   Assert (AssertEq limb_v (higher * (1 ≪ 16) + lower * v))].

(** The bits of a shift amount, and the flag of its upper part. *)
Definition c_bits_of (c : Z) : list Z := (fun i => Z.land (c ≫ Z.of_nat i) 1) <$> seq 0 6.
Definition shift_flags (c : Z) (long : bool) : list Z :=
  let shift_amount := Z.land (c ≫ 4) 1 + 2 * Z.land (c ≫ 5) 1 * from_bool long in
  (fun i => from_bool (Z.of_nat i =? shift_amount)) <$> seq 0 4.

Module ShiftLeft.
Record t := mk {
  state : CPUState.t; adapter : ALUTypeReader.t; a : Word; c_bits : list Z; v_01 : Z; v_012 : Z; v_0123 : Z;
  shift_u16 : list Z; lower_limb : Word; higher_limb : Word; limb_result : Word; sllw_msb : U16MSBOperation.t;
  is_sll : Z; is_sllw : Z; is_sllw_imm : Z }.
Definition padded_row_template : t :=
  mk CPUState.zero ALUTypeReader.zero word_zero [0; 0; 0; 0; 0; 0] 1 1 1 [0; 0; 0; 0] word_zero word_zero word_zero
    (U16MSBOperation.mk 0) 0 0 0.

Definition event_to_row (event : AluEvent.t) (record : ALUTypeRecord.t) (blu : list ByteLookupEvent) :
  (CPUState.t -> ALUTypeReader.t -> t) * list ByteLookupEvent :=
  let equals op := bool_decide (AluEvent.opcode event = op) in
  let c := nth 0 (u64_to_u16_limbs (AluEvent.c event)) 0 in
  let '(sllw_msb, blu) :=
    if equals SLLW then
      let sllw_val := u32 (i64 (AluEvent.b event) ≪ Z.land c 0x1f) in
      let '(sllw_msb, blu, _) := U16MSBOperation.populate_msb blu (nth 1 (u32_to_u16_limbs sllw_val) 0) in (sllw_msb, blu)
    else (U16MSBOperation.mk 0, blu) in
  let blu := add_bit_range_check blu (c ≫ 6) 10 in
  let b := u64_to_u16_limbs (AluEvent.b event) in
  let bit_shift := Z.land c 0xF in
  let lower i := u16 (Z.land (nth i b 0) ((1 ≪ (16 - bit_shift)) - 1)) in
  let higher i := u16 (nth i b 0 ≫ (16 - bit_shift)) in
  let blu := foldl (fun blu i => add_bit_range_check (add_bit_range_check blu (lower i) (16 - bit_shift)) (higher i) bit_shift)
    blu (seq 0 WORD_SIZE) in
  let limb_result i := lower i * (1 ≪ bit_shift) + (if (i =? 0)%nat then 0 else higher (i - 1)%nat) in
  (fun state adapter =>
     mk state adapter (Word_from_u64 (AluEvent.a event)) (c_bits_of c) (1 ≪ Z.land c 3) (1 ≪ Z.land c 7) (1 ≪ Z.land c 15)
       (shift_flags c (equals SLL)) (Word_of_fn lower) (Word_of_fn higher) (Word_of_fn limb_result) sllw_msb
       (from_bool (equals SLL)) (from_bool (equals SLLW)) (from_bool (equals SLLW && ALUTypeRecord.is_imm record)), blu).

Definition generate_row (event : AluEvent.t * ALUTypeRecord.t) : option (t * list ByteLookupEvent) :=
  let '(adapter, blu) := ALUTypeReader.populate [] event.2 in
  let '(row, blu) := event_to_row event.1 event.2 blu in
  let '(state, blu) := CPUState.populate blu (AluEvent.clk event.1) (AluEvent.pc event.1) in
  Some (row state adapter, blu).

Definition flags (local : t) : list Z := [is_sll local; is_sllw local].
Definition opcodes : list Opcode.t := [SLL; SLLW].
Definition is_real (local : t) : Z := is_sll local + is_sllw local.

(** The constants of the immediate forms are those of the register forms less
    a difference that is the same for both opcodes, but for the type. *)
Definition consts `{InstructionFormats} (local : t) : list Z :=
  let imm_c := ALUTypeReader.imm_c (adapter local) in
  [select (flags local) instr_type opcodes -
     ((instr_type SLL - instr_type_imm SLL) * imm_c + (instr_type_imm SLL - instr_type_imm SLLW) * is_sllw_imm local);
   select (flags local) base opcodes - (base SLL - imm_base SLL) * imm_c;
   select (flags local) unwrap_funct3 opcodes; select (flags local) unwrap_funct7 opcodes].

Definition limb_calls `{PrimeField} (local : t) : list call :=
  let bit_shift := lower_bits (c_bits local) 4 in
  [Assert (AssertEq (v_01 local) ((nth 0 (c_bits local) 0 + 1) * (nth 1 (c_bits local) 0 * 3 + 1)));
   Assert (AssertEq (v_012 local) (v_01 local * (nth 2 (c_bits local) 0 * 15 + 1)));
   Assert (AssertEq (v_0123 local) (v_012 local * (nth 3 (c_bits local) 0 * 255 + 1)))] ++
  (seq 0 WORD_SIZE ≫= fun i =>
     part_calls (lower_limb local).[i] (16 - bit_shift) (higher_limb local).[i] bit_shift
       ((ALUTypeReader.b (adapter local)).[i] * v_0123 local) (v_0123 local) (is_real local)) ++
  ((fun i => Assert (AssertEq (limb_result local).[i]
     ((lower_limb local).[i] * v_0123 local + (if (i =? 0)%nat then 0 else (higher_limb local).[i - 1])))) <$> seq 0 WORD_SIZE).

(** The limb shift under the flag of an opcode, on [n] limbs. *)
Definition move_calls (local : t) (flag : Z) (n : nat) : list call :=
  seq 0 n ≫= fun i => (fun j => Assert (When flag (When (nth i (shift_u16 local) 0)
    (if (j <? i)%nat then AssertZero (a local).[j] else AssertEq (a local).[j] (limb_result local).[j - i])))) <$> seq 0 n.

(** The constraints of the result. *)
Definition result_calls `{PrimeField} (local : t) : list call :=
  amount_calls (ALUTypeReader.c (adapter local)).[0] (c_bits local) (shift_u16 local) (is_sll local) (is_real local) ++
  limb_calls local ++ move_calls local (is_sll local) WORD_SIZE ++ move_calls local (is_sllw local) (WORD_SIZE / 2) ++
  [Assert (When (is_sllw local) (AssertEq (U16MSBOperation.msb (sllw_msb local) * 65535) (a local).[2]));
   Assert (When (is_sllw local) (AssertEq (U16MSBOperation.msb (sllw_msb local) * 65535) (a local).[3]))] ++
  U16MSBOperation.eval_msb (a local).[1] (sllw_msb local) (is_sllw local) ++
  [Assert (AssertEq (is_sllw_imm local) (is_sllw local * ALUTypeReader.imm_c (adapter local)))].

Definition eval `{PrimeField} `{ShardPublicValues} `{InstructionFormats} (local : t) : list call :=
  [Assert (AssertBool (is_real local)); Assert (AssertBool (is_sll local)); Assert (AssertBool (is_sllw local))] ++
  result_calls local ++
  CPUState.eval (state local) (pc_plus_4 (CPUState.pc (state local))) CLK_INC (is_real local) ++
  ALUTypeReader.eval_alu_reader (CPUState.clk_high (state local)) (CPUState.clk_low (state local))
    (CPUState.pc (state local)) (select (flags local) Opcode.as_field opcodes) (consts local) (a local) (adapter local)
    (is_real local).
End ShiftLeft.

Module ShiftRightChip.
Record t := mk {
  state : CPUState.t; adapter : ALUTypeReader.t; a : Word; b_msb : U16MSBOperation.t; srw_msb : U16MSBOperation.t;
  c_bits : list Z; sra_msb_v0123 : Z; v_0123 : Z; v_012 : Z; v_01 : Z; lower_limb : Word; higher_limb : Word;
  limb_result : Word; shift_u16 : list Z; is_srl : Z; is_sra : Z; is_srlw : Z; is_sraw : Z; is_w_imm : Z }.
(** A row past the events. *)
Definition padded_row : t :=
  mk CPUState.zero ALUTypeReader.zero word_zero (U16MSBOperation.mk 0) (U16MSBOperation.mk 0) [0; 0; 0; 0; 0; 0] 0 65536 256 16
    word_zero word_zero word_zero [0; 0; 0; 0] 0 0 0 0 0.

Definition event_to_row (event : AluEvent.t) (blu : list ByteLookupEvent) :
  (CPUState.t -> ALUTypeReader.t -> Z -> t) * list ByteLookupEvent :=
  let equals op := bool_decide (AluEvent.opcode event = op) in
  let b := u64_to_u16_limbs (AluEvent.b event) in
  let c := nth 0 (u64_to_u16_limbs (AluEvent.c event)) 0 in
  let blu := add_bit_range_check blu (c ≫ 6) 10 in
  let v_0123 := 1 ≪ (16 - Z.land c 15) in
  let '(b_msb, blu) :=
    if equals SRA then let '(m, blu, _) := U16MSBOperation.populate_msb blu (nth 3 b 0) in (m, blu)
    else if equals SRAW then let '(m, blu, _) := U16MSBOperation.populate_msb blu (nth 1 b 0) in (m, blu)
    else (U16MSBOperation.mk 0, blu) in
  let is_word := equals SRLW || equals SRAW in
  let limb i := if is_word && (2 <=? i)%nat then 0 else nth i b 0 in
  let '(srw_msb, blu) :=
    if is_word then let '(m, blu, _) := U16MSBOperation.populate_msb blu (nth 1 (u64_to_u16_limbs (AluEvent.a event)) 0) in (m, blu)
    else (U16MSBOperation.mk 0, blu) in
  let bit_shift := Z.land c 0xF in
  let lower i := u16 (Z.land (limb i) ((1 ≪ bit_shift) - 1)) in
  let higher i := u16 (limb i ≫ bit_shift) in
  let blu := foldl (fun blu i => add_bit_range_check (add_bit_range_check blu (lower i) bit_shift) (higher i) (16 - bit_shift))
    blu (seq 0 WORD_SIZE) in
  let limb_result i := higher i + (if (i =? WORD_SIZE - 1)%nat then 0 else lower (i + 1)%nat * (1 ≪ (16 - bit_shift))) in
  (fun state adapter is_w_imm =>
     mk state adapter (Word_from_u64 (AluEvent.a event)) b_msb srw_msb (c_bits_of c) (U16MSBOperation.msb b_msb * v_0123) v_0123
       (1 ≪ (8 - Z.land c 7)) (1 ≪ (4 - Z.land c 3)) (Word_of_fn lower) (Word_of_fn higher) (Word_of_fn limb_result)
       (shift_flags c (negb is_word)) (from_bool (equals SRL)) (from_bool (equals SRA)) (from_bool (equals SRLW))
       (from_bool (equals SRAW)) is_w_imm, blu).

Definition generate_row (event : AluEvent.t * ALUTypeRecord.t) : option (t * list ByteLookupEvent) :=
  let '(adapter, blu) := ALUTypeReader.populate [] event.2 in
  let '(row, blu) := event_to_row event.1 blu in
  let '(state, blu) := CPUState.populate blu (AluEvent.clk event.1) (AluEvent.pc event.1) in
  let equals op := bool_decide (AluEvent.opcode event.1 = op) in
  Some (row state adapter (from_bool ((equals SRLW || equals SRAW) && ALUTypeRecord.is_imm event.2)), blu).

Definition flags (local : t) : list Z := [is_srl local; is_sra local; is_srlw local; is_sraw local].
Definition opcodes : list Opcode.t := [SRL; SRA; SRLW; SRAW].
Definition is_real (local : t) : Z := is_srl local + is_sra local + is_srlw local + is_sraw local.
Definition is_word (local : t) : Z := is_srlw local + is_sraw local.
Definition not_word (local : t) : Z := is_srl local + is_sra local.

Definition consts `{InstructionFormats} (local : t) : list Z :=
  let imm_c := ALUTypeReader.imm_c (adapter local) in
  [select (flags local) instr_type opcodes -
     ((instr_type SRL - instr_type_imm SRL) * imm_c + (instr_type_imm SRL - instr_type_imm SRLW) * is_w_imm local);
   select (flags local) base opcodes - (base SRL - imm_base SRL) * imm_c;
   select (flags local) unwrap_funct3 opcodes; select (flags local) unwrap_funct7 opcodes].

Definition limb_calls `{PrimeField} (local : t) : list call :=
  let bit_shift := lower_bits (c_bits local) 4 in
  let limb i := (ALUTypeReader.b (adapter local)).[i] * v_0123 local in
  [Assert (AssertEq (v_01 local) ((1 - nth 0 (c_bits local) 0 + 1) * 2 * ((1 - nth 1 (c_bits local) 0) * 3 + 1)));
   Assert (AssertEq (v_012 local) (v_01 local * ((1 - nth 2 (c_bits local) 0) * 15 + 1)));
   Assert (AssertEq (v_0123 local) (v_012 local * ((1 - nth 3 (c_bits local) 0) * 255 + 1)))] ++
  (seq 0 WORD_SIZE ≫= fun i =>
     part_calls (lower_limb local).[i] bit_shift (higher_limb local).[i] (16 - bit_shift)
       (if (i <? WORD_SIZE / 2)%nat then limb i else limb i * not_word local) (v_0123 local) (is_real local)) ++
  ((fun i => Assert (AssertEq (limb_result local).[i]
     ((higher_limb local).[i] + (if (i =? WORD_SIZE - 1)%nat then 0 else (lower_limb local).[i + 1] * v_0123 local)))) <$>
   seq 0 WORD_SIZE).

(** The sign bit of the operand, where the shift is arithmetic, and that of
    the result, where it has 32 bits. *)
Definition msb_calls `{PrimeField} (local : t) : list call :=
  U16MSBOperation.eval_msb (ALUTypeReader.b (adapter local)).[3] (b_msb local) (is_sra local) ++
  U16MSBOperation.eval_msb (ALUTypeReader.b (adapter local)).[1] (b_msb local) (is_sraw local) ++
  [Assert (When (is_srl local + is_srlw local) (AssertZero (U16MSBOperation.msb (b_msb local))));
   Assert (AssertEq (sra_msb_v0123 local) (U16MSBOperation.msb (b_msb local) * v_0123 local))] ++
  U16MSBOperation.eval_msb (a local).[1] (srw_msb local) (is_word local) ++
  [Assert (when_not (is_word local) (AssertZero (U16MSBOperation.msb (srw_msb local))))].

(** What an arithmetic shift adds to the limb that holds the sign. *)
Definition sign_fill (local : t) : Z := U16MSBOperation.msb (b_msb local) * (1 ≪ 16) - sra_msb_v0123 local.

Definition move_calls (local : t) : list call :=
  seq 0 WORD_SIZE ≫= fun i =>
    let flagged k := Assert (When (not_word local) (When (nth i (shift_u16 local) 0) k)) in
    ((fun j => flagged (AssertEq (a local).[j] (limb_result local).[i + j])) <$> seq 0 (WORD_SIZE - 1 - i)) ++
    [flagged (AssertEq (a local).[WORD_SIZE - 1 - i] ((limb_result local).[WORD_SIZE - 1] + sign_fill local))] ++
    ((fun j => flagged (AssertEq (a local).[j] (U16MSBOperation.msb (b_msb local) * 65535))) <$> seq (WORD_SIZE - i) i).

Definition word_calls (local : t) : list call :=
  let flagged i k := Assert (When (is_word local) (When (nth i (shift_u16 local) 0) k)) in
  [flagged 0%nat (AssertEq (a local).[0] (limb_result local).[0]);
   flagged 0%nat (AssertEq (a local).[1] ((limb_result local).[1] + sign_fill local));
   flagged 1%nat (AssertEq (a local).[0] ((limb_result local).[1] + sign_fill local));
   flagged 1%nat (AssertEq (a local).[1] (U16MSBOperation.msb (b_msb local) * 65535));
   Assert (When (is_word local) (AssertEq (a local).[2] (U16MSBOperation.msb (srw_msb local) * 65535)));
   Assert (When (is_word local) (AssertEq (a local).[3] (U16MSBOperation.msb (srw_msb local) * 65535)))].

(** The constraints of the result. *)
Definition result_calls `{PrimeField} (local : t) : list call :=
  Assert (AssertEq (is_w_imm local) (is_word local * ALUTypeReader.imm_c (adapter local))) ::
  amount_calls (ALUTypeReader.c (adapter local)).[0] (c_bits local) (shift_u16 local) (not_word local) (is_real local) ++
  limb_calls local ++ msb_calls local ++ move_calls local ++ word_calls local.

Definition eval `{PrimeField} `{ShardPublicValues} `{InstructionFormats} (local : t) : list call :=
  [Assert (AssertBool (is_srl local)); Assert (AssertBool (is_sra local)); Assert (AssertBool (is_srlw local));
   Assert (AssertBool (is_sraw local)); Assert (AssertBool (is_real local))] ++
  result_calls local ++
  CPUState.eval (state local) (pc_plus_4 (CPUState.pc (state local))) CLK_INC (is_real local) ++
  ALUTypeReader.eval_alu_reader (CPUState.clk_high (state local)) (CPUState.clk_low (state local))
    (CPUState.pc (state local)) (select (flags local) Opcode.as_field opcodes) (consts local) (a local) (adapter local)
    (is_real local).
End ShiftRightChip.

(** ** The shift amount and the parts of the limbs *)
Section Shifts.
Context `{AirBuilder}.

Definition bit (b : Z) : Prop := b = 0 \/ b = 1.

Lemma lower_bits_4 l : lower_bits l 4 = nth 0 l 0 + 2 * nth 1 l 0 + 4 * nth 2 l 0 + 8 * nth 3 l 0.
Proof.
  unfold lower_bits. cbn [seq foldl]. change (1 ≪ Z.of_nat 0) with 1. change (1 ≪ Z.of_nat 1) with 2.
  change (1 ≪ Z.of_nat 2) with 4. change (1 ≪ Z.of_nat 3) with 8. lia.
Qed.
Lemma lower_bits_6 l : lower_bits l 6 = lower_bits l 4 + 16 * nth 4 l 0 + 32 * nth 5 l 0.
Proof.
  unfold lower_bits. cbn [seq foldl]. change (1 ≪ Z.of_nat 4) with 16. change (1 ≪ Z.of_nat 5) with 32. lia.
Qed.

Lemma sixty_four_not_zero : 64 ≭ 0.
Proof. intros E. pose proof order_large. apply feq_small in E; lia. Qed.

Lemma amount_sound c vc c_bits shift_u16 long (f : bool) r : c ∼ vc -> r ≐ 1 -> long ≐ from_bool f ->
  sat (amount_calls c.[0] c_bits shift_u16 long r) ->
  exists b0 b1 b2 b3 q, bit b0 /\ bit b1 /\ bit b2 /\ bit b3 /\ nth 0 c_bits 0 ≐ b0 /\ nth 1 c_bits 0 ≐ b1 /\
    nth 2 c_bits 0 ≐ b2 /\ nth 3 c_bits 0 ≐ b3 /\ (q < if f then 4 else 2)%nat /\
    vc mod (if f then 64 else 32) = b0 + 2 * b1 + 4 * b2 + 8 * b3 + 16 * Z.of_nat q /\
    forall i, (i < 4)%nat -> nth i shift_u16 0 ≐ from_bool (i =? q)%nat.
Proof.
  intros Hc Hr Hf Hs. destruct_word Hc as x0 x1 x2 x3. unfold amount_calls in Hs. cbn -[lower_bits] in Hs. rewrite !sat_cons in Hs.
  destruct Hs as (B0 & B1 & B2 & B3 & B4 & B5 & Hrange & W0 & S0 & W1 & S1 & W2 & S2 & W3 & S3 & Hsum & _).
  apply (sat_bool r) in B0 as (b0 & D0 & E0); [|done]. apply (sat_bool r) in B1 as (b1 & D1 & E1); [|done].
  apply (sat_bool r) in B2 as (b2 & D2 & E2); [|done]. apply (sat_bool r) in B3 as (b3 & D3 & E3); [|done].
  apply (sat_bool r) in B4 as (b4 & D4 & E4); [|done]. apply (sat_bool r) in B5 as (b5 & D5 & E5); [|done].
  apply (when_one _ _ Hr), holds_assert_eq in Hsum. apply holds_assert_bool in S0, S1, S2, S3.
  destruct (one_hot [nth 0 shift_u16 0; nth 1 shift_u16 0; nth 2 shift_u16 0; nth 3 shift_u16 0]) as (q & Hq & Hk);
    [repeat (apply List.Forall_cons; [assumption|]); apply List.Forall_nil|cbn; lia| |].
  { rewrite <- Hsum. apply feq_exists. exists 0. cbn. lia. }
  cbn in Hq. assert (Eq : b4 + b5 * 2 * from_bool f = Z.of_nat q).
  { pose proof order_large. apply feq_small; [|destruct f; cbn; unfold bit in *; lia]. rewrite <- E4, <- E5, <- Hf.
    pose proof (Hk q ltac:(cbn; lia)) as Ek. rewrite Nat.eqb_refl in Ek. clear Hk.
    destruct q as [|[|[|[|q]]]]; [..|lia]; cbn in Ek;
      [apply (when_one _ _ Ek) in W0|apply (when_one _ _ Ek) in W1|apply (when_one _ _ Ek) in W2|apply (when_one _ _ Ek) in W3];
      now apply holds_assert_eq. }
  destruct (sat_range 10 _ _ _ _ Hrange Hr) as (t & Bt & Et); [reflexivity|lia|].
  assert (Ex : x0 = 64 * t + (b0 + 2 * b1 + 4 * b2 + 8 * b3 + 16 * b4 + 32 * b5)).
  { pose proof order_large. unfold fits in *. apply feq_small; [|lia].
    rewrite <- Et, (Z.mul_comm 64), <- Z.mul_assoc, (finv_mul _ sixty_four_not_zero), lower_bits_6, lower_bits_4, E0, E1, E2, E3, E4, E5.
    rewrite H6. apply feq_exists. exists 0. lia. }
  exists b0, b1, b2, b3, q. do 8 (split; [assumption|]). split; [|split].
  - destruct f; [lia|]. cbn in Eq. lia.
  - subst vc. unfold fits in *. destruct f; cbn in Eq; lia_mod.
  - intros i Hi. specialize (Hk i ltac:(cbn; lia)). destruct i as [|[|[|[|i]]]]; [..|lia]; exact Hk.
Qed.

(** The powers of two. *)
Lemma left_power v01 v012 v0123 x0 x1 x2 x3 b0 b1 b2 b3 : bit b0 -> bit b1 -> bit b2 -> bit b3 ->
  x0 ≐ b0 -> x1 ≐ b1 -> x2 ≐ b2 -> x3 ≐ b3 -> v01 ≐ (x0 + 1) * (x1 * 3 + 1) -> v012 ≐ v01 * (x2 * 15 + 1) ->
  v0123 ≐ v012 * (x3 * 255 + 1) -> v0123 ≐ 2 ^ (b0 + 2 * b1 + 4 * b2 + 8 * b3).
Proof.
  intros D0 D1 D2 D3 E0 E1 E2 E3 V1 V2 V3. rewrite V3, V2, V1, E0, E1, E2, E3.
  destruct D0 as [-> | ->], D1 as [-> | ->], D2 as [-> | ->], D3 as [-> | ->]; reflexivity.
Qed.
Lemma right_power v01 v012 v0123 x0 x1 x2 x3 b0 b1 b2 b3 : bit b0 -> bit b1 -> bit b2 -> bit b3 ->
  x0 ≐ b0 -> x1 ≐ b1 -> x2 ≐ b2 -> x3 ≐ b3 -> v01 ≐ (1 - x0 + 1) * 2 * ((1 - x1) * 3 + 1) -> v012 ≐ v01 * ((1 - x2) * 15 + 1) ->
  v0123 ≐ v012 * ((1 - x3) * 255 + 1) -> v0123 ≐ 2 ^ (16 - (b0 + 2 * b1 + 4 * b2 + 8 * b3)).
Proof.
  intros D0 D1 D2 D3 E0 E1 E2 E3 V1 V2 V3. rewrite V3, V2, V1, E0, E1, E2, E3.
  destruct D0 as [-> | ->], D1 as [-> | ->], D2 as [-> | ->], D3 as [-> | ->]; reflexivity.
Qed.

Lemma power_not_zero s : 0 <= s <= 16 -> 2 ^ s ≭ 0.
Proof.
  intros Hs E. pose proof order_large. pose proof (Z.pow_le_mono_r 2 s 16 ltac:(lia) ltac:(lia)).
  apply feq_small in E; lia.
Qed.

Lemma part_sound lower bl higher bh limb_v v r x s : r ≐ 1 -> 0 <= s <= 16 -> bl ≐ 16 - s -> bh ≐ s -> v ≐ 2 ^ s ->
  limb_v ≐ x * v -> is_u16 x -> sat (part_calls lower bl higher bh limb_v v r) ->
  lower ≐ x mod 2 ^ (16 - s) /\ higher ≐ x / 2 ^ (16 - s).
Proof.
  intros Hr Hs El Eh Ev Ex Bx Hc. unfold part_calls in Hc. rewrite !sat_cons in Hc. destruct Hc as (Hl & Hh & He & _).
  destruct (sat_range (16 - s) _ _ _ _ Hl Hr El ltac:(lia)) as (l & Bl & El').
  destruct (sat_range s _ _ _ _ Hh Hr Eh ltac:(lia)) as (h & Bh & Eh').
  apply holds_assert_eq in He. rewrite Ex, Ev, El', Eh' in He. change (1 ≪ 16) with (2 ^ 16) in He.
  assert (Ep : 2 ^ 16 = 2 ^ (16 - s) * 2 ^ s) by (rewrite <- Z.pow_add_r by lia; f_equal; lia).
  assert (E : x = h * 2 ^ (16 - s) + l).
  { pose proof order_large. unfold fits in *. apply feq_small; [|nia].
    assert (Z0 : (x - (h * 2 ^ (16 - s) + l)) * 2 ^ s ≐ 0).
    { rewrite Z.mul_sub_distr_r, He. apply feq_exists. exists 0. rewrite Ep. lia. }
    apply feq_integral in Z0 as [Z0|Z0]; [|now apply power_not_zero in Z0]. apply feq_exists in Z0 as [k Ek]. apply feq_exists.
    exists k. lia. }
  unfold fits in Bl. subst x. rewrite El', Eh'. split.
  - rewrite Z.add_comm, Z_mod_plus_full, Z.mod_small by lia. reflexivity.
  - rewrite Z.add_comm, Z_div_plus_full, Z.div_small by lia. reflexivity.
Qed.
End Shifts.

(** ** Left shifts *)

(** The limbs of [2^r x], before the limb shift. *)
Definition left_part (r : Z) (xs : list Z) (i : nat) : Z :=
  nth i xs 0 mod 2 ^ (16 - r) * 2 ^ r + (if (i =? 0)%nat then 0 else nth (i - 1) xs 0 / 2 ^ (16 - r)).
Definition left_limb (r : Z) (q : nat) (xs : list Z) (j : nat) : Z := if (j <? q)%nat then 0 else left_part r xs (j - q).

Lemma part_facts x s : is_u16 x -> 0 <= s <= 16 ->
  0 <= x mod 2 ^ (16 - s) * 2 ^ s <= 65536 - 2 ^ s /\ 0 <= x / 2 ^ (16 - s) < 2 ^ s /\
  x * 2 ^ s = 65536 * (x / 2 ^ (16 - s)) + x mod 2 ^ (16 - s) * 2 ^ s.
Proof.
  intros Hx Hs. assert (Ep : 65536 = 2 ^ (16 - s) * 2 ^ s) by (rewrite <- Z.pow_add_r by lia; now replace (16 - s + s) with 16 by lia).
  unfold fits in Hx. change (2 ^ 16) with 65536 in Hx. pose proof (Z.div_mod x (2 ^ (16 - s)) ltac:(lia)).
  pose proof (Z.mod_pos_bound x (2 ^ (16 - s)) ltac:(lia)). pose proof (Z.div_pos x (2 ^ (16 - s)) ltac:(lia) ltac:(lia)).
  split; [nia|]. split; [split; [lia|apply Z.div_lt_upper_bound; lia]|]. nia.
Qed.

Lemma left_part_u16 r xs i : Forall is_u16 xs -> (length xs = 4)%nat -> 0 <= r < 16 -> is_u16 (left_part r xs i).
Proof.
  intros Hxs Hl Hr. unfold left_part. assert (Hu : forall k, is_u16 (nth k xs 0)).
  { intros k. destruct (decide (k < 4)%nat) as [Hk|Hk].
    - rewrite list.Forall_forall in Hxs. apply Hxs, list_elem_of_In, nth_In. lia.
    - rewrite nth_overflow by lia. unfold fits. lia. }
  pose proof (part_facts _ r (Hu i) ltac:(lia)) as (F1 & _). pose proof (part_facts _ r (Hu (i - 1)%nat) ltac:(lia)) as (_ & F2 & _).
  unfold fits. pose proof (Z.pow_pos_nonneg 2 r ltac:(lia) ltac:(lia)). destruct (i =? 0)%nat; lia.
Qed.

Lemma left_value x0 x1 x2 x3 r q : is_u16 x0 -> is_u16 x1 -> is_u16 x2 -> is_u16 x3 -> 0 <= r < 16 -> (q < 4)%nat ->
  let a := left_limb r q [x0; x1; x2; x3] in
  a 0%nat + 2 ^ 16 * a 1%nat + 2 ^ 32 * a 2%nat + 2 ^ 48 * a 3%nat =
  (x0 + 2 ^ 16 * x1 + 2 ^ 32 * x2 + 2 ^ 48 * x3) * 2 ^ (r + 16 * Z.of_nat q) mod 2 ^ 64.
Proof.
  intros B0 B1 B2 B3 Hr Hq a. assert (Hxs : Forall is_u16 [x0; x1; x2; x3]) by now repeat apply List.Forall_cons.
  pose proof (fun i => left_part_u16 r [x0; x1; x2; x3] i Hxs eq_refl Hr) as Hu.
  destruct (part_facts x0 r B0 ltac:(lia)) as (_ & _ & E0). destruct (part_facts x1 r B1 ltac:(lia)) as (_ & _ & E1).
  destruct (part_facts x2 r B2 ltac:(lia)) as (_ & _ & E2). destruct (part_facts x3 r B3 ltac:(lia)) as (_ & F3 & E3).
  rewrite Z.pow_add_r by lia. pose proof (Hu 0%nat) as U0. pose proof (Hu 1%nat) as U1. pose proof (Hu 2%nat) as U2. pose proof (Hu 3%nat) as U3.
  unfold left_part in U0, U1, U2, U3. cbn in U0, U1, U2, U3. unfold fits in U0, U1, U2, U3.
  subst a. unfold left_limb, left_part.
  set (m := 2 ^ (16 - r)) in *. set (p := 2 ^ r) in *. clearbody m p.
  set (n0 := x0 mod m * p) in *. set (n1 := x1 mod m * p) in *. set (n2 := x2 mod m * p) in *. set (n3 := x3 mod m * p) in *.
  set (h0 := x0 / m) in *. set (h1 := x1 / m) in *. set (h2 := x2 / m) in *. set (h3 := x3 / m) in *.
  destruct q as [|[|[|[|q]]]]; [..|lia]; cbn; fold n0 n1 n2 n3 h0 h1 h2 h3;
    match goal with |- _ = (_ * (p * ?c)) mod _ => let c' := eval compute in c in change c with c' end.
  - apply (Z.mod_unique_pos _ _ h3); lia.
  - apply (Z.mod_unique_pos _ _ (65536 * h3 + n3 + h2)); lia.
  - apply (Z.mod_unique_pos _ _ (2 ^ 32 * h3 + 65536 * (n3 + h2) + (n2 + h1))); lia.
  - apply (Z.mod_unique_pos _ _ (2 ^ 48 * h3 + 2 ^ 32 * (n3 + h2) + 65536 * (n2 + h1) + (n1 + h0))); lia.
Qed.

(** ** Right shifts *)

(** The limbs of [x / 2^r], and those of the shift by [r + 16 q] with the sign
    bit [m] shifted in. *)
Definition right_part (r : Z) (xs : list Z) (i : nat) : Z :=
  nth i xs 0 / 2 ^ r + (if (i =? 3)%nat then 0 else nth (i + 1) xs 0 mod 2 ^ r * 2 ^ (16 - r)).
Definition right_limb (r : Z) (q : nat) (m : Z) (xs : list Z) (j : nat) : Z :=
  if (j <? 3 - q)%nat then right_part r xs (q + j)
  else if (j =? 3 - q)%nat then right_part r xs 3 + m * (65536 - 2 ^ (16 - r)) else m * 65535.

Lemma right_facts x r : is_u16 x -> 0 <= r < 16 -> 0 <= x mod 2 ^ r * 2 ^ (16 - r) <= 65536 - 2 ^ (16 - r) /\
  0 <= x / 2 ^ r < 2 ^ (16 - r) /\ x = 2 ^ r * (x / 2 ^ r) + x mod 2 ^ r /\ 0 <= x mod 2 ^ r < 2 ^ r /\ 0 < 2 ^ (16 - r) <= 65536 /\
  x mod 2 ^ r * 2 ^ (16 - r) * 2 ^ r = 65536 * (x mod 2 ^ r).
Proof.
  intros Hx Hr. pose proof (part_facts x (16 - r) Hx ltac:(lia)) as (F1 & F2 & _). replace (16 - (16 - r)) with r in * by lia.
  split; [done|]. split; [done|]. split; [apply Z.div_mod; lia|]. split; [apply Z.mod_pos_bound; lia|]. split.
  - pose proof (Z.pow_le_mono_r 2 (16 - r) 16 ltac:(lia) ltac:(lia)). lia.
  - rewrite <- Z.mul_assoc, <- Z.pow_add_r by lia. replace (16 - r + r) with 16 by lia. lia.
Qed.

Lemma right_value x0 x1 x2 x3 r q m : is_u16 x0 -> is_u16 x1 -> is_u16 x2 -> is_u16 x3 -> 0 <= r < 16 -> (q < 4)%nat -> bit m ->
  let a := right_limb r q m [x0; x1; x2; x3] in let k := r + 16 * Z.of_nat q in
  (forall j, (j < 4)%nat -> is_u16 (a j)) /\
  a 0%nat + 2 ^ 16 * a 1%nat + 2 ^ 32 * a 2%nat + 2 ^ 48 * a 3%nat =
  (x0 + 2 ^ 16 * x1 + 2 ^ 32 * x2 + 2 ^ 48 * x3) / 2 ^ k + m * (2 ^ 64 - 2 ^ (64 - k)).
Proof.
  intros B0 B1 B2 B3 Hr Hq Hm a k.
  destruct (right_facts x0 r B0 Hr) as (_ & F0 & E0 & L0 & Hp & _). destruct (right_facts x1 r B1 Hr) as (N1 & F1 & E1 & _ & _ & G1).
  destruct (right_facts x2 r B2 Hr) as (N2 & F2 & E2 & _ & _ & G2). destruct (right_facts x3 r B3 Hr) as (N3 & F3 & E3 & _ & _ & G3).
  assert (Ek : 2 ^ (64 - k) = 2 ^ (16 - r) * 2 ^ (48 - 16 * Z.of_nat q)) by (subst k; rewrite <- Z.pow_add_r by lia; f_equal; lia).
  rewrite Ek. subst k. rewrite Z.pow_add_r, <- Z.div_div by lia.
  subst a. unfold right_limb, right_part. set (p := 2 ^ (16 - r)) in *. set (w := 2 ^ r) in *. clearbody p w.
  set (n1 := x1 mod w * p) in *. set (n2 := x2 mod w * p) in *. set (n3 := x3 mod w * p) in *.
  set (h0 := x0 / w) in *. set (h1 := x1 / w) in *. set (h2 := x2 / w) in *. set (h3 := x3 / w) in *.
  assert (ET : (x0 + 2 ^ 16 * x1 + 2 ^ 32 * x2 + 2 ^ 48 * x3) / w =
    (h0 + n1) + 2 ^ 16 * (h1 + n2) + 2 ^ 32 * (h2 + n3) + 2 ^ 48 * h3).
  { symmetry. apply (Z.div_unique_pos _ _ _ (x0 mod w)); [lia|]. nia. }
  rewrite ET. clear ET E0 E1 E2 E3 G1 G2 G3.
  destruct q as [|[|[|[|q]]]]; [..|lia];
    (match goal with |- context [_ / 2 ^ (16 * ?x)] => let c := eval compute in (2 ^ (16 * x)) in change (2 ^ (16 * x)) with c end;
     match goal with |- context [p * 2 ^ ?x] => let c := eval compute in (2 ^ x) in change (2 ^ x) with c end;
     split; [intros j Hj; destruct j as [|[|[|[|j]]]]; [..|lia]|]; cbn -[Z.mul Z.add Z.sub Z.div Z.pow];
     fold n1 n2 n3 h0 h1 h2 h3; clearbody n1 n2 n3 h0 h1 h2 h3;
     unfold fits, bit in *; destruct Hm as [-> | ->]; lia_mod).
Qed.
(** On 32 bits; the operand's upper limbs are taken to be zero. *)
Lemma right_word_value x0 x1 r q m : is_u16 x0 -> is_u16 x1 -> 0 <= r < 16 -> (q < 2)%nat -> bit m ->
  let R := right_part r [x0; x1; 0; 0] in let k := r + 16 * Z.of_nat q in
  let fill := m * (65536 - 2 ^ (16 - r)) in
  let a0 := if (q =? 0)%nat then R 0%nat else R 1%nat + fill in let a1 := if (q =? 0)%nat then R 1%nat + fill else m * 65535 in
  is_u16 a0 /\ is_u16 a1 /\ a0 + 2 ^ 16 * a1 = (x0 + 2 ^ 16 * x1) / 2 ^ k + m * (2 ^ 32 - 2 ^ (32 - k)).
Proof.
  intros B0 B1 Hr Hq Hm R k fill a0 a1.
  destruct (right_facts x0 r B0 Hr) as (_ & F0 & E0 & L0 & Hp & _). destruct (right_facts x1 r B1 Hr) as (N1 & F1 & E1 & _ & _ & G1).
  assert (Ek : 2 ^ (32 - k) = 2 ^ (16 - r) * 2 ^ (16 - 16 * Z.of_nat q)) by (subst k; rewrite <- Z.pow_add_r by lia; f_equal; lia).
  rewrite Ek. subst k. rewrite Z.pow_add_r, <- Z.div_div by lia.
  subst a0 a1 fill R. unfold right_part. cbn [nth Nat.eqb Nat.add]. rewrite Zmod_0_l, Z.mul_0_l.
  set (p := 2 ^ (16 - r)) in *. set (w := 2 ^ r) in *. clearbody p w. set (n1 := x1 mod w * p) in *.
  set (h0 := x0 / w) in *. set (h1 := x1 / w) in *.
  assert (ET : (x0 + 2 ^ 16 * x1) / w = (h0 + n1) + 2 ^ 16 * h1) by (symmetry; apply (Z.div_unique_pos _ _ _ (x0 mod w)); [lia|nia]).
  rewrite ET. clear ET E0 E1 G1. clearbody n1 h0 h1.
  destruct q as [|[|q]]; [..|lia];
    (match goal with |- context [_ / 2 ^ (16 * ?x)] => let c := eval compute in (2 ^ (16 * x)) in change (2 ^ (16 * x)) with c end;
     match goal with |- context [p * 2 ^ ?x] => let c := eval compute in (2 ^ x) in change (2 ^ x) with c end;
     cbn [Nat.eqb]; unfold fits, bit in *; destruct Hm as [-> | ->]; lia_mod).
Qed.

(** The arithmetic shift of a [w]-bit number. *)
Lemma arithmetic_shift w x k : 0 <= k < w -> 0 <= x < 2 ^ w ->
  (Rv64.signed w x / 2 ^ k) mod 2 ^ w = x / 2 ^ k + x / 2 ^ (w - 1) * (2 ^ w - 2 ^ (w - k)).
Proof.
  intros Hk Hx. assert (E1 : 2 ^ w = 2 * 2 ^ (w - 1)) by (rewrite <- Z.pow_succ_r by lia; f_equal; lia).
  assert (E2 : 2 ^ w = 2 ^ (w - k) * 2 ^ k) by (rewrite <- Z.pow_add_r by lia; f_equal; lia).
  pose proof (Z.pow_pos_nonneg 2 k ltac:(lia) ltac:(lia)) as Hpk. pose proof (Z.pow_pos_nonneg 2 (w - k) ltac:(lia) ltac:(lia)) as Hpw.
  assert (Hq : 0 <= x / 2 ^ k < 2 ^ (w - k)) by (split; [apply Z.div_pos; lia|apply Z.div_lt_upper_bound; lia]).
  unfold Rv64.signed, Rv64.unsigned. rewrite (Z.mod_small x) by lia. destruct (Z.ltb_spec x (2 ^ (w - 1))) as [Hl|Hl].
  - rewrite (Z.div_small x (2 ^ (w - 1))), Z.mod_small by nia. lia.
  - assert (Ed : x / 2 ^ (w - 1) = 1) by (symmetry; apply (Z.div_unique_pos _ _ _ (x - 2 ^ (w - 1))); lia).
    replace (x - 2 ^ w) with (x + - 2 ^ (w - k) * 2 ^ k) by lia. rewrite Z.div_add, Ed by lia.
    symmetry. apply (Z.mod_unique_pos _ _ (-1)); nia.
Qed.

Section Lawful.
Context `{AirBuilder} `{ShardPublicValues} `{InstructionFormats}.

Lemma word_list w v : w ∼ v -> exists x0 x1 x2 x3, is_u16 x0 /\ is_u16 x1 /\ is_u16 x2 /\ is_u16 x3 /\
  v = x0 + 2 ^ 16 * x1 + 2 ^ 32 * x2 + 2 ^ 48 * x3 /\ forall i, (i < 4)%nat -> w.[i] ≐ nth i [x0; x1; x2; x3] 0.
Proof.
  intros Hw. destruct_word Hw as x0 x1 x2 x3. exists x0, x1, x2, x3. do 5 (split; [done|]). intros i Hi.
  destruct i as [|[|[|[|i]]]]; [done..|lia].
Qed.
Lemma list_word w x0 x1 x2 x3 (f : nat -> Z) : (forall i, (i < 4)%nat -> w.[i] ≐ f i) -> (forall i, is_u16 (f i)) ->
  f 0%nat + 2 ^ 16 * f 1%nat + 2 ^ 32 * f 2%nat + 2 ^ 48 * f 3%nat = x0 + 2 ^ 16 * x1 + 2 ^ 32 * x2 + 2 ^ 48 * x3 ->
  w ∼ x0 + 2 ^ 16 * x1 + 2 ^ 32 * x2 + 2 ^ 48 * x3.
Proof. intros Hw Hu <-. apply represents_intro; (apply Hu || (apply Hw; lia)). Qed.
Lemma in_range i : (i < 4)%nat -> i ∈ seq 0 WORD_SIZE.
Proof. intros Hi. apply elem_of_seq. unfold WORD_SIZE. lia. Qed.

Lemma shift_left_limbs local xs r b0 b1 b2 b3 : (forall i, (i < 4)%nat -> (ALUTypeReader.b (ShiftLeft.adapter local)).[i] ≐ nth i xs 0) ->
  Forall is_u16 xs -> length xs = 4%nat -> ShiftLeft.is_real local ≐ 1 ->
  bit b0 -> bit b1 -> bit b2 -> bit b3 -> r = b0 + 2 * b1 + 4 * b2 + 8 * b3 ->
  nth 0 (ShiftLeft.c_bits local) 0 ≐ b0 -> nth 1 (ShiftLeft.c_bits local) 0 ≐ b1 ->
  nth 2 (ShiftLeft.c_bits local) 0 ≐ b2 -> nth 3 (ShiftLeft.c_bits local) 0 ≐ b3 ->
  sat (ShiftLeft.limb_calls local) ->
  forall i, (i < 4)%nat -> (ShiftLeft.limb_result local).[i] ≐ left_part r xs i.
Proof.
  intros Hb Hu Hl Hr D0 D1 D2 D3 Er E0 E1 E2 E3 Hs i Hi.
  assert (Elow : lower_bits (ShiftLeft.c_bits local) 4 ≐ r) by (rewrite lower_bits_4, E0, E1, E2, E3, Er; reflexivity).
  unfold ShiftLeft.limb_calls in Hs. rewrite !sat_app, !sat_cons in Hs. destruct Hs as ((V1 & V2 & V3 & _) & Hparts & Hres).
  apply holds_assert_eq in V1, V2, V3. pose proof (left_power _ _ _ _ _ _ _ _ _ _ _ D0 D1 D2 D3 E0 E1 E2 E3 V1 V2 V3) as Ev.
  rewrite <- Er in Ev. assert (Br : 0 <= r < 16) by (unfold bit in *; lia). rewrite sat_bind in Hparts.
  assert (Hp : forall k, (k < 4)%nat -> (ShiftLeft.lower_limb local).[k] ≐ nth k xs 0 mod 2 ^ (16 - r) /\
    (ShiftLeft.higher_limb local).[k] ≐ nth k xs 0 / 2 ^ (16 - r)).
  { intros k Hk. eapply part_sound; [exact Hr|lia| |exact Elow|exact Ev| | |exact (Hparts k (in_range k Hk))].
    - now rewrite Elow.
    - now rewrite (Hb k Hk).
    - rewrite list.Forall_forall in Hu. apply Hu, list_elem_of_In, nth_In. lia. }
  apply (sat_fmap _ _ i) in Hres; [|now apply in_range]. apply holds_assert_eq in Hres. rewrite Hres.
  unfold left_part. destruct (Hp i Hi) as [-> _]. rewrite Ev. destruct (i =? 0)%nat eqn:Ei; [done|].
  apply Nat.eqb_neq in Ei.
  destruct (Hp (i - 1)%nat ltac:(lia)) as [_ ->]. done.
Qed.

(** The limb shift. *)
Lemma move_sound local flag n q r xs : flag ≐ 1 -> (q < n <= 4)%nat ->
  (forall i, (i < 4)%nat -> nth i (ShiftLeft.shift_u16 local) 0 ≐ from_bool (i =? q)%nat) ->
  (forall i, (i < 4)%nat -> (ShiftLeft.limb_result local).[i] ≐ left_part r xs i) ->
  sat (ShiftLeft.move_calls local flag n) -> forall j, (j < n)%nat -> (ShiftLeft.a local).[j] ≐ left_limb r q xs j.
Proof.
  intros Hf Hq Hs Hl Hc j Hj. unfold ShiftLeft.move_calls in Hc. rewrite sat_bind in Hc.
  specialize (Hc q ltac:(apply elem_of_seq; lia)). apply (sat_fmap _ _ j) in Hc; [|apply elem_of_seq; lia].
  apply (when_one _ _ Hf), sat_assert, when_one in Hc; [|rewrite Hs, Nat.eqb_refl by lia; done]. unfold left_limb.
  destruct (j <? q)%nat; [now apply holds_assert_zero in Hc|]. apply holds_assert_eq in Hc. rewrite Hc. apply Hl. lia.
Qed.

(** A 32-bit value with its sign bit spread over the upper limbs. *)
Lemma extended_word w l0 l1 m : w.[0] ≐ l0 -> w.[1] ≐ l1 -> is_u16 l0 -> is_u16 l1 -> m ≐ l1 / 2 ^ 15 ->
  w.[2] ≐ m * 65535 -> w.[3] ≐ m * 65535 -> w ∼ u64 (i32 (l0 + 2 ^ 16 * l1)).
Proof.
  intros E0 E1 B0 B1 Em E2 E3. rewrite Em in E2, E3. set (k := l1 / 2 ^ 15) in *.
  replace (u64 (i32 (l0 + 2 ^ 16 * l1))) with (l0 + 2 ^ 16 * l1 + 2 ^ 32 * (k * 65535) + 2 ^ 48 * (k * 65535)).
  - apply represents_intro; try assumption; subst k; unfold fits in *; lia_mod.
  - subst k. unfold_ints. lia_mod.
Qed.
Lemma mod_mod_64_32 x : x mod 2 ^ 64 mod 2 ^ 32 = x mod 2 ^ 32.
Proof. lia_mod. Qed.

Lemma shift_left_sound local vb vc (f : bool) : ALUTypeReader.b (ShiftLeft.adapter local) ∼ vb ->
  ALUTypeReader.c (ShiftLeft.adapter local) ∼ vc -> ShiftLeft.is_real local ≐ 1 ->
  ShiftLeft.is_sll local ≐ from_bool f -> ShiftLeft.is_sllw local ≐ from_bool (negb f) -> sat (ShiftLeft.result_calls local) ->
  ShiftLeft.a local ∼ (if f then vb * 2 ^ (vc mod 64) mod 2 ^ 64 else u64 (i32 (vb * 2 ^ (vc mod 32)))).
Proof.
  intros Hb Hc Hr Hf Hfw Hs. unfold ShiftLeft.result_calls in Hs. rewrite !sat_app, !sat_cons in Hs.
  destruct Hs as (Ham & Hlimb & Hmove & Hmovew & (W2 & W3 & _) & Hmsb & _).
  destruct (amount_sound _ _ _ _ _ f _ Hc Hr Hf Ham) as (b0 & b1 & b2 & b3 & q & D0 & D1 & D2 & D3 & E0 & E1 & E2 & E3 & Hq & Ek & Hq1).
  destruct (word_list _ _ Hb) as (x0 & x1 & x2 & x3 & B0 & B1 & B2 & B3 & -> & Hbs).
  assert (Hxs : Forall is_u16 [x0; x1; x2; x3]) by now repeat apply List.Forall_cons.
  set (r := b0 + 2 * b1 + 4 * b2 + 8 * b3) in *. assert (Br : 0 <= r < 16) by (unfold r, bit in *; lia).
  pose proof (shift_left_limbs local _ r _ _ _ _ Hbs Hxs eq_refl Hr D0 D1 D2 D3 eq_refl E0 E1 E2 E3 Hlimb) as Hres.
  assert (Hu : forall i, is_u16 (left_limb r q [x0; x1; x2; x3] i)).
  { intros i. unfold left_limb. destruct (i <? q)%nat; [unfold fits; lia|now apply left_part_u16]. }
  pose proof (left_value x0 x1 x2 x3 r q B0 B1 B2 B3 Br ltac:(destruct f; lia)) as Hval. cbv zeta in Hval.
  destruct f; rewrite Ek; cbn in Hf, Hfw, Hq.
  - rewrite <- Hval. apply represents_intro; try apply Hu; apply (move_sound local _ 4 q r _ Hf); (done || lia).
  - pose proof (move_sound local _ 2 q r _ Hfw ltac:(lia) Hq1 Hres Hmovew) as Ha.
    pose proof (msb_sound _ _ _ _ (Ha 1%nat ltac:(lia)) (Hu 1%nat) Hfw Hmsb) as Em.
    apply (when_one _ _ Hfw), holds_assert_eq in W2, W3.
    replace (u64 (i32 _)) with (u64 (i32 (left_limb r q [x0; x1; x2; x3] 0 + 2 ^ 16 * left_limb r q [x0; x1; x2; x3] 1))).
    + apply (extended_word _ _ _ (U16MSBOperation.msb (ShiftLeft.sllw_msb local))); try apply Hu; try (apply Ha; lia); try done; now symmetry.
    + rewrite <- sext_mod32, <- (sext_mod32 (_ * _)), <- (mod_mod_64_32 (_ * _)), <- Hval. do 2 f_equal. clear. lia_mod.
Qed.

#[global] Program Instance shift_left_chip : InstructionChip ShiftLeft.t := {
  chip_eval := ShiftLeft.eval;
  chip_row local := reader_row (ShiftLeft.state local) (pc_plus_4 (CPUState.pc (ShiftLeft.state local)))
    (select (ShiftLeft.flags local) Opcode.as_field ShiftLeft.opcodes) (ShiftLeft.a local) (ShiftLeft.adapter local)
    (ShiftLeft.is_real local) }.
Next Obligation.
  intros local Hs. unfold ShiftLeft.eval in *.
  open_parts Hs; [solve_quiet|solve_quiet|]. clear Hs.
  intros i s m' Hr Hpre Hop Hw Eo Hops. destruct (Hops) as (_ & _ & Hb & Hc & _). cbn in Hb, Hc.
  rewrite !sat_cons in Hpre. destruct Hpre as (_ & B0 & B1 & _). apply holds_assert_bool in B0, B1.
  destruct (selected_two _ _ _ _ _ B0 B1 Hr Eo) as (f & Ei & F0 & F1). eapply alu_steps; [exact Hops| |].
  2: exact (shift_left_sound local _ _ f Hb Hc Hr F0 F1 Hop).
  rewrite Ei. unfold Rv64.alu. rewrite (unsigned_small _ (proj1 Hb)), (unsigned_small _ (proj1 Hc)).
  destruct f; [done|]. now rewrite word_i32.
Qed.

Lemma shift_right_limbs local xs r b0 b1 b2 b3 (f : bool) :
  ShiftRightChip.not_word local ≐ from_bool f ->
  (forall i, (i < 4)%nat -> (ALUTypeReader.b (ShiftRightChip.adapter local)).[i] * (if (i <? 2)%nat then 1 else from_bool f) ≐ nth i xs 0) ->
  Forall is_u16 xs -> length xs = 4%nat -> ShiftRightChip.is_real local ≐ 1 ->
  bit b0 -> bit b1 -> bit b2 -> bit b3 -> r = b0 + 2 * b1 + 4 * b2 + 8 * b3 ->
  nth 0 (ShiftRightChip.c_bits local) 0 ≐ b0 -> nth 1 (ShiftRightChip.c_bits local) 0 ≐ b1 ->
  nth 2 (ShiftRightChip.c_bits local) 0 ≐ b2 -> nth 3 (ShiftRightChip.c_bits local) 0 ≐ b3 ->
  sat (ShiftRightChip.limb_calls local) ->
  ShiftRightChip.v_0123 local ≐ 2 ^ (16 - r) /\
  forall i, (i < 4)%nat -> (ShiftRightChip.limb_result local).[i] ≐ right_part r xs i.
Proof.
  intros Hf Hb Hu Hl Hr D0 D1 D2 D3 Er E0 E1 E2 E3 Hs.
  assert (Elow : lower_bits (ShiftRightChip.c_bits local) 4 ≐ r) by (rewrite lower_bits_4, E0, E1, E2, E3, Er; reflexivity).
  unfold ShiftRightChip.limb_calls in Hs. rewrite !sat_app, !sat_cons in Hs. destruct Hs as ((V1 & V2 & V3 & _) & Hparts & Hres).
  apply holds_assert_eq in V1, V2, V3. pose proof (right_power _ _ _ _ _ _ _ _ _ _ _ D0 D1 D2 D3 E0 E1 E2 E3 V1 V2 V3) as Ev.
  rewrite <- Er in Ev. assert (Br : 0 <= r < 16) by (unfold bit in *; lia). rewrite sat_bind in Hparts. split; [exact Ev|].
  assert (Hp : forall k, (k < 4)%nat -> (ShiftRightChip.lower_limb local).[k] ≐ nth k xs 0 mod 2 ^ r /\
    (ShiftRightChip.higher_limb local).[k] ≐ nth k xs 0 / 2 ^ r).
  { intros k Hk. replace (2 ^ r) with (2 ^ (16 - (16 - r))) by (f_equal; lia).
    eapply part_sound; [exact Hr| | | |exact Ev| | |exact (Hparts k (in_range k Hk))].
    - lia.
    - rewrite Elow. apply feq_exists. exists 0. lia.
    - now rewrite Elow.
    - rewrite <- (Hb k Hk). change (WORD_SIZE / 2)%nat with 2%nat. destruct (k <? 2)%nat; [|rewrite Hf]; apply feq_exists; exists 0; lia.
    - rewrite list.Forall_forall in Hu. apply Hu, list_elem_of_In, nth_In. lia. }
  intros i Hi. apply (sat_fmap _ _ i) in Hres; [|now apply in_range]. apply holds_assert_eq in Hres. rewrite Hres.
  unfold right_part. destruct (Hp i Hi) as [_ ->]. change (WORD_SIZE - 1)%nat with 3%nat.
  destruct (i =? 3)%nat eqn:Ei; [done|]. apply Nat.eqb_neq in Ei. destruct (Hp (i + 1)%nat ltac:(lia)) as [-> _]. now rewrite Ev.
Qed.

(** The flagged equations of the limb shift. *)
Lemma right_move_sound local q r m xs : ShiftRightChip.not_word local ≐ 1 -> (q < 4)%nat ->
  (forall i, (i < 4)%nat -> nth i (ShiftRightChip.shift_u16 local) 0 ≐ from_bool (i =? q)%nat) ->
  (forall i, (i < 4)%nat -> (ShiftRightChip.limb_result local).[i] ≐ right_part r xs i) ->
  U16MSBOperation.msb (ShiftRightChip.b_msb local) ≐ m -> ShiftRightChip.sign_fill local ≐ m * (65536 - 2 ^ (16 - r)) ->
  sat (ShiftRightChip.move_calls local) -> forall j, (j < 4)%nat -> (ShiftRightChip.a local).[j] ≐ right_limb r q m xs j.
Proof.
  intros Hf Hq Hs Hl Em Hfill Hc j Hj. unfold ShiftRightChip.move_calls in Hc. rewrite sat_bind in Hc.
  specialize (Hc q (in_range q Hq)). rewrite !sat_app, sat_cons in Hc. destruct Hc as (C1 & (C2 & _) & C3). unfold right_limb.
  assert (G : forall k, sat_call (Assert (When (ShiftRightChip.not_word local) (When (nth q (ShiftRightChip.shift_u16 local) 0) k))) -> holds k).
  { intros k Hk. apply (when_one _ _ Hf), sat_assert, when_one in Hk; [done|]. now rewrite Hs, Nat.eqb_refl by lia. }
  change (WORD_SIZE - 1)%nat with 3%nat in *. change (WORD_SIZE - q)%nat with (4 - q)%nat in *.
  destruct (Nat.ltb_spec j (3 - q)) as [Hlt|Hge].
  - apply (sat_fmap _ _ j) in C1; [|apply elem_of_seq; lia]. apply G, holds_assert_eq in C1. rewrite C1. apply Hl. lia.
  - destruct (Nat.eqb_spec j (3 - q)) as [Ej|Hne].
    + subst j. apply G, holds_assert_eq in C2. rewrite C2, Hl, Hfill by lia. done.
    + apply (sat_fmap _ _ j) in C3; [|apply elem_of_seq; lia]. apply G, holds_assert_eq in C3. now rewrite C3, Em.
Qed.

(** The sign bit that is shifted in. *)
Lemma right_sign local x1 x3 (f g : bool) : is_u16 x1 -> is_u16 x3 ->
  (ALUTypeReader.b (ShiftRightChip.adapter local)).[1] ≐ x1 -> (ALUTypeReader.b (ShiftRightChip.adapter local)).[3] ≐ x3 ->
  ShiftRightChip.is_srl local ≐ from_bool (f && negb g) -> ShiftRightChip.is_sra local ≐ from_bool (f && g) ->
  ShiftRightChip.is_srlw local ≐ from_bool (negb f && negb g) -> ShiftRightChip.is_sraw local ≐ from_bool (negb f && g) ->
  sat (ShiftRightChip.msb_calls local) ->
  U16MSBOperation.msb (ShiftRightChip.b_msb local) ≐ (if g then (if f then x3 else x1) / 2 ^ 15 else 0).
Proof.
  intros B1 B3 E1 E3 F0 F1 F2 F3 Hs. unfold ShiftRightChip.msb_calls in Hs. rewrite !sat_app in Hs.
  destruct Hs as (Hsra & Hsraw & Hz & _). destruct g; [destruct f|]; cbn in F0, F1, F2, F3.
  - exact (msb_sound _ _ _ _ E3 B3 F1 Hsra).
  - exact (msb_sound _ _ _ _ E1 B1 F3 Hsraw).
  - rewrite sat_cons in Hz. destruct Hz as [Hz _]. apply when_one, holds_assert_zero in Hz; [done|]. rewrite F0, F2. now destruct f.
Qed.

(** What the constraints say of a row, before the limb shift. *)
Record right_row (local : ShiftRightChip.t) (vb vc : Z) (f g : bool) (x0 x1 x2 x3 r m : Z) (q : nat) : Prop := {
  right_limbs : is_u16 x0 /\ is_u16 x1 /\ is_u16 x2 /\ is_u16 x3 /\ vb = x0 + 2 ^ 16 * x1 + 2 ^ 32 * x2 + 2 ^ 48 * x3;
  right_amount : 0 <= r < 16 /\ (q < if f then 4 else 2)%nat /\ vc mod (if f then 64 else 32) = r + 16 * Z.of_nat q;
  right_flag : forall i, (i < 4)%nat -> nth i (ShiftRightChip.shift_u16 local) 0 ≐ from_bool (i =? q)%nat;
  right_msb : bit m /\ m = (if g then (if f then x3 else x1) / 2 ^ 15 else 0) /\ U16MSBOperation.msb (ShiftRightChip.b_msb local) ≐ m;
  right_result : forall i, (i < 4)%nat ->
    (ShiftRightChip.limb_result local).[i] ≐ right_part r (if f then [x0; x1; x2; x3] else [x0; x1; 0; 0]) i;
  right_fill : ShiftRightChip.sign_fill local ≐ m * (65536 - 2 ^ (16 - r)) }.

Lemma right_row_sound local vb vc (f g : bool) : ALUTypeReader.b (ShiftRightChip.adapter local) ∼ vb ->
  ALUTypeReader.c (ShiftRightChip.adapter local) ∼ vc -> ShiftRightChip.is_real local ≐ 1 ->
  ShiftRightChip.is_srl local ≐ from_bool (f && negb g) -> ShiftRightChip.is_sra local ≐ from_bool (f && g) ->
  ShiftRightChip.is_srlw local ≐ from_bool (negb f && negb g) -> ShiftRightChip.is_sraw local ≐ from_bool (negb f && g) ->
  sat (ShiftRightChip.result_calls local) -> exists x0 x1 x2 x3 r m q, right_row local vb vc f g x0 x1 x2 x3 r m q.
Proof.
  intros Hb Hc Hr F0 F1 F2 F3 Hs. unfold ShiftRightChip.result_calls in Hs. rewrite sat_cons, !sat_app in Hs.
  destruct Hs as (_ & Ham & Hlimb & Hmsb & _).
  assert (Hlong : ShiftRightChip.not_word local ≐ from_bool f) by (unfold ShiftRightChip.not_word; rewrite F0, F1; now destruct f, g).
  destruct (amount_sound _ _ _ _ _ f _ Hc Hr Hlong Ham) as (b0 & b1 & b2 & b3 & q & D0 & D1 & D2 & D3 & E0 & E1 & E2 & E3 & Hq & Ek & Hq1).
  destruct (word_list _ _ Hb) as (x0 & x1 & x2 & x3 & B0 & B1 & B2 & B3 & -> & Hbs).
  pose proof (right_sign local x1 x3 f g B1 B3 (Hbs 1%nat ltac:(lia)) (Hbs 3%nat ltac:(lia)) F0 F1 F2 F3 Hmsb) as Em.
  set (m := if g then _ else 0) in Em. assert (Dm : bit m) by (unfold bit, m; clear - B1 B3; unfold fits in *; destruct g, f; lia_mod).
  set (r := b0 + 2 * b1 + 4 * b2 + 8 * b3) in *. assert (Br : 0 <= r < 16) by (unfold r, bit in *; lia).
  set (xs := if f then [x0; x1; x2; x3] else [x0; x1; 0; 0]).
  assert (Hxs : Forall is_u16 xs) by (unfold xs; destruct f; repeat apply List.Forall_cons; try apply List.Forall_nil; (done || (unfold fits; lia))).
  destruct (shift_right_limbs local xs r b0 b1 b2 b3 f) as [Ev Hres]; try done.
  { intros k Hk. rewrite (Hbs k Hk). unfold xs. destruct f, k as [|[|[|[|k]]]]; try lia; cbn; apply feq_exists; exists 0; lia. }
  { unfold xs. now destruct f. }
  exists x0, x1, x2, x3, r, m, q. split; try done.
  unfold ShiftRightChip.msb_calls in Hmsb. rewrite !sat_app, !sat_cons in Hmsb. destruct Hmsb as (_ & _ & (_ & Hv & _) & _).
  apply holds_assert_eq in Hv. unfold ShiftRightChip.sign_fill. rewrite Hv, Em, Ev. apply feq_exists. exists 0.
  change (1 ≪ 16) with 65536. lia.
Qed.

Lemma right_long_sound local vb vc g x0 x1 x2 x3 r m q : right_row local vb vc true g x0 x1 x2 x3 r m q ->
  ShiftRightChip.not_word local ≐ 1 -> sat (ShiftRightChip.move_calls local) ->
  ShiftRightChip.a local ∼ (if g then (Rv64.signed 64 vb / 2 ^ (vc mod 64)) mod 2 ^ 64 else vb / 2 ^ (vc mod 64)).
Proof.
  intros [(B0 & B1 & B2 & B3 & ->) (Br & Hq & Ek) Hq1 (Dm & Emv & Em) Hres Hfill] Hf Hs. rewrite Ek.
  pose proof (right_move_sound local q r m _ Hf Hq Hq1 Hres Em Hfill Hs) as Ha.
  destruct (right_value x0 x1 x2 x3 r q m B0 B1 B2 B3 Br Hq Dm) as [Hu Hval].
  assert (G : ShiftRightChip.a local ∼ (x0 + 2 ^ 16 * x1 + 2 ^ 32 * x2 + 2 ^ 48 * x3) / 2 ^ (r + 16 * Z.of_nat q) +
    m * (2 ^ 64 - 2 ^ (64 - (r + 16 * Z.of_nat q)))).
  { rewrite <- Hval. apply represents_intro; (apply Hu; lia) || (apply Ha; lia). }
  subst m. clear Hval Hu Ha Em Hfill Dm. destruct g; [|now rewrite Z.mul_0_l, Z.add_0_r in G]. unfold fits in *.
  rewrite arithmetic_shift by lia. replace (_ / 2 ^ (64 - 1)) with (x3 / 2 ^ 15); [exact G|]. change (2 ^ (64 - 1)) with (2 ^ 63). lia_mod.
Qed.

Lemma right_word_sound local vb vc g x0 x1 x2 x3 r m q : right_row local vb vc false g x0 x1 x2 x3 r m q ->
  ShiftRightChip.is_word local ≐ 1 -> sat (ShiftRightChip.word_calls local) -> sat (ShiftRightChip.msb_calls local) ->
  ShiftRightChip.a local ∼ u64 (i32 ((if g then Rv64.signed 32 vb else vb mod 2 ^ 32) / 2 ^ (vc mod 32))).
Proof.
  intros [(B0 & B1 & B2 & B3 & ->) (Br & Hq & Ek) Hq1 (Dm & Emv & Em) Hres Hfill] Hf Hs Hmsb. rewrite Ek.
  unfold ShiftRightChip.msb_calls in Hmsb. rewrite !sat_app in Hmsb. destruct Hmsb as (_ & _ & _ & Hmsb & _).
  unfold ShiftRightChip.word_calls in Hs. rewrite !sat_cons in Hs. destruct Hs as (C0 & C1 & C2 & C3 & C4 & C5 & _).
  apply (when_one _ _ Hf) in C0, C1, C2, C3, C4, C5. apply holds_assert_eq in C4, C5. apply sat_assert in C0, C1, C2, C3.
  destruct (right_word_value x0 x1 r q m B0 B1 Br Hq Dm) as (U0 & U1 & Hval).
  set (a0 := if (q =? 0)%nat then _ else _) in U0, Hval. set (a1 := if (q =? 0)%nat then _ else _) in U1, Hval.
  assert (Ha : (ShiftRightChip.a local).[0] ≐ a0 /\ (ShiftRightChip.a local).[1] ≐ a1).
  { subst a0 a1. destruct q as [|[|q]]; [| |cbn in Hq; lia]; pose proof (Hq1 0%nat ltac:(lia)) as S0; pose proof (Hq1 1%nat ltac:(lia)) as S1; cbn in S0, S1.
    - apply (when_one _ _ S0), holds_assert_eq in C0, C1. rewrite C0, C1, !Hres, Hfill by lia. done.
    - apply (when_one _ _ S1), holds_assert_eq in C2, C3. rewrite C2, C3, Hres, Hfill, Em by lia. done. }
  destruct Ha as [A0 A1]. pose proof (msb_sound _ _ _ _ A1 U1 Hf Hmsb) as Ew.
  pose proof (extended_word _ _ _ _ A0 A1 U0 U1 Ew C4 C5) as G. rewrite Hval in G.
  set (k := r + 16 * Z.of_nat q) in *. assert (Bk : 0 <= k < 32) by (cbn in Hq; lia).
  assert (Elow : (x0 + 2 ^ 16 * x1 + 2 ^ 32 * x2 + 2 ^ 48 * x3) mod 2 ^ 32 = x0 + 2 ^ 16 * x1) by (clear - B0 B1; unfold fits in *; lia_mod).
  subst m. destruct g; [|now rewrite Elow, Z.mul_0_l, Z.add_0_r in *].
  replace (Rv64.signed 32 _) with (Rv64.signed 32 (x0 + 2 ^ 16 * x1)) by (unfold Rv64.signed, Rv64.unsigned; rewrite Elow, Z.mod_small; [done|unfold fits in *; lia]).
  rewrite <- sext_mod32, arithmetic_shift by (unfold fits in *; lia). replace (_ / 2 ^ (32 - 1)) with (x1 / 2 ^ 15); [exact G|].
  change (2 ^ (32 - 1)) with (2 ^ 31). clear - B0 B1. unfold fits in *. lia_mod.
Qed.

#[global] Program Instance shift_right_chip : InstructionChip ShiftRightChip.t := {
  chip_eval := ShiftRightChip.eval;
  chip_row local := reader_row (ShiftRightChip.state local) (pc_plus_4 (CPUState.pc (ShiftRightChip.state local)))
    (select (ShiftRightChip.flags local) Opcode.as_field ShiftRightChip.opcodes) (ShiftRightChip.a local)
    (ShiftRightChip.adapter local) (ShiftRightChip.is_real local) }.
Next Obligation.
  intros local Hs. unfold ShiftRightChip.eval in *. open_parts Hs; [solve_quiet|solve_quiet|]. clear Hs.
  intros i s m' Hr Hpre Hop Hw Eo Hops. destruct (Hops) as (_ & _ & Hb & Hc & _). cbn in Hb, Hc.
  rewrite !sat_cons in Hpre. destruct Hpre as (B0 & B1 & B2 & B3 & _). apply holds_assert_bool in B0, B1, B2, B3.
  destruct (selected (ShiftRightChip.flags local) ShiftRightChip.opcodes (Instruction.opcode i)) as (j & Hj & Ei & Hf);
    [reflexivity|cbn; lia|repeat (apply List.Forall_cons; [assumption|]); apply List.Forall_nil| |exact Eo|].
  { rewrite <- Hr. apply feq_exists. exists 0. unfold ShiftRightChip.is_real. cbn. lia. }
  use_flag Hf 0%nat. use_flag Hf 1%nat. use_flag Hf 2%nat. use_flag Hf 3%nat.
  set (f := (j <? 2)%nat). set (g := (j =? 1)%nat || (j =? 3)%nat).
  destruct (right_row_sound local _ _ f g Hb Hc Hr) as (x0 & x1 & x2 & x3 & r & m & q & Hrow);
    [subst f g; destruct j as [|[|[|[|j]]]]; (assumption || (cbn in Hj; lia))..|exact Hop|].
  unfold ShiftRightChip.result_calls in Hop. rewrite sat_cons, !sat_app in Hop. destruct Hop as (_ & _ & _ & Hmsb & Hmove & Hword).
  assert (Hl : ShiftRightChip.not_word local ≐ from_bool f) by
    (unfold ShiftRightChip.not_word; rewrite F, F0; subst f; destruct j as [|[|[|[|j]]]]; (reflexivity || (cbn in Hj; lia))).
  assert (Hsh : ShiftRightChip.is_word local ≐ from_bool (negb f)) by
    (unfold ShiftRightChip.is_word; rewrite F1, F2; subst f; destruct j as [|[|[|[|j]]]]; (reflexivity || (cbn in Hj; lia))).
  assert (G : ShiftRightChip.a local ∼ (if f then
      if g then (Rv64.signed 64 (Rv64.operand_b i s) / 2 ^ (Rv64.operand_c i s mod 64)) mod 2 ^ 64
      else Rv64.operand_b i s / 2 ^ (Rv64.operand_c i s mod 64)
    else u64 (i32 ((if g then Rv64.signed 32 (Rv64.operand_b i s) else Rv64.operand_b i s mod 2 ^ 32) / 2 ^ (Rv64.operand_c i s mod 32))))).
  { destruct f; [exact (right_long_sound _ _ _ _ _ _ _ _ _ _ _ Hrow Hl Hmove)|exact (right_word_sound _ _ _ _ _ _ _ _ _ _ _ Hrow Hsh Hword Hmsb)]. }
  eapply alu_steps; [exact Hops| |exact G]. rewrite Ei. subst f g. unfold Rv64.alu.
  rewrite (unsigned_small _ (proj1 Hb)), (unsigned_small _ (proj1 Hc)).
  destruct j as [|[|[|[|j]]]]; [..|cbn in Hj; lia]; cbn [ShiftRightChip.opcodes nth Nat.ltb Nat.leb Nat.eqb orb]; now rewrite ?word_i32.
Qed.
End Lawful.
