(* ===== verification/DivRemChip.v ===== *)
(** * DivRemChip: the division chip

    [alu/divrem] of [core/machine] and the helpers of [core/executor] it
    computes its trace with.  On a real row the chip shows
    [c * quotient + remainder = b] on 128 bits (on 64 for the operations on 32
    bits), that the remainder has the sign of [b] and is smaller than [c] in
    absolute value, and the results the manual fixes for a division by zero
    and for the overflow of the signed division. *)
From Stdlib Require Import ZArith Zquot Lia Bool Permutation.
From stdpp Require Import base numbers option list gmap.
From S2P Require Import Prelude Isa State Interpreter Rv64 Refinement Air KoalaBear ByteTable WordAir AddOps LtOps BitOps MulOps Bus MemAir Adapters Rows Chips MemChips ShiftChips.
Import Opcode.
#[local] Obligation Tactic := idtac.

(** ** [core/executor/src/utils.rs] *)

Definition is_signed_64bit_operation (op : Opcode.t) : bool := match op with DIV | REM => true | _ => false end.
Definition is_unsigned_64bit_operation (op : Opcode.t) : bool := match op with DIVU | REMU => true | _ => false end.
Definition is_64bit_operation (op : Opcode.t) : bool := match op with DIV | DIVU | REM | REMU => true | _ => false end.
Definition is_word_operation (op : Opcode.t) : bool := match op with DIVW | DIVUW | REMW | REMUW => true | _ => false end.
Definition is_signed_word_operation (op : Opcode.t) : bool := match op with DIVW | REMW => true | _ => false end.
Definition is_unsigned_word_operation (op : Opcode.t) : bool := match op with DIVUW | REMUW => true | _ => false end.

Definition get_quotient_and_remainder (b c : Z) (op : Opcode.t) : Z * Z :=
  if (c =? 0) && is_64bit_operation op then (2 ^ 64 - 1, b)
  else if (i32 c =? 0) && is_word_operation op then (2 ^ 64 - 1, u64 (i32 b))
  else if is_signed_64bit_operation op then (u64 (wrapping_div 64 (i64 b) (i64 c)), u64 (wrapping_rem 64 (i64 b) (i64 c)))
  else if is_signed_word_operation op then (u64 (wrapping_div 32 (i32 b) (i32 c)), u64 (wrapping_rem 32 (i32 b) (i32 c)))
  else if is_unsigned_word_operation op then (u64 (i32 (u32 b / u32 c)), u64 (i32 (u32 b mod u32 c)))
  else (b / c, b mod c).

Definition get_msb (a : Z) : Z := Z.land (a ≫ 63) 1.

Module DivRem.
Definition LONG_WORD_SIZE : nat := 8.

Record t := mk {
  state : CPUState.t; adapter : RTypeReader.t; a : Word; b : Word; c : Word; quotient : Word; quotient_comp : Word;
  remainder_comp : Word; remainder : Word; abs_remainder : Word; abs_c : Word; max_abs_c_or_1 : Word;
  c_times_quotient : list Z; c_times_quotient_lower : MulOperation.t; c_times_quotient_upper : MulOperation.t;
  c_neg_operation : AddOperation.t; rem_neg_operation : AddOperation.t; remainder_lt_operation : LtOperationUnsigned.t;
  carry : list Z; is_c_0 : IsZeroWordOperation.t;
  is_div : Z; is_divu : Z; is_rem : Z; is_remu : Z; is_divw : Z; is_remw : Z; is_divuw : Z; is_remuw : Z;
  is_overflow : Z; is_overflow_b : IsEqualWordOperation.t; is_overflow_c : IsEqualWordOperation.t;
  b_msb : U16MSBOperation.t; rem_msb : U16MSBOperation.t; c_msb : U16MSBOperation.t; quot_msb : U16MSBOperation.t;
  b_neg : Z; b_neg_not_overflow : Z; b_not_neg_not_overflow : Z; is_real_not_word : Z; rem_neg : Z; c_neg : Z;
  abs_c_alu_event : Z; abs_rem_alu_event : Z; is_real : Z; remainder_check_multiplicity : Z }.

Definition zero_add : AddOperation.t := AddOperation.mk word_zero.
Definition zero_test : IsZeroWordOperation.t := IsZeroWordOperation.mk (replicate 4 (IsZeroOperation.mk 0 0)) 0 0 0.
Definition zero_msb : U16MSBOperation.t := U16MSBOperation.mk 0.

(** 0 divided by 1; quotient and remainder are 0. *)
Definition padded_row_template `{PrimeField} : t :=
  let adapter := RTypeReader.mk 0 RegisterAccessCols.zero 0 0 RegisterAccessCols.zero 0
    (RegisterAccessCols.mk (Word_from_u64 1) RegisterAccessTimestamp.zero) 0 in
  let one := mkWord 1 0 0 0 in
  mk CPUState.zero adapter word_zero word_zero one word_zero word_zero word_zero word_zero word_zero one one
    (replicate LONG_WORD_SIZE 0) MulOperation.zero MulOperation.zero zero_add zero_add LtOperationUnsigned.default
    (replicate LONG_WORD_SIZE 0) (IsZeroWordOperation.populate 1).1 0 1 0 0 0 0 0 0 0
    (IsEqualWordOperation.mk zero_test) (IsEqualWordOperation.mk zero_test) zero_msb zero_msb zero_msb zero_msb
    0 0 1 0 0 0 0 0 0 0.

(** The addition of the remainder to the product: the carries and the limbs. *)
Fixpoint add_limbs (xs ys : list Z) (carry : Z) : list Z * list Z :=
  match xs, ys with
  | x :: xs, y :: ys =>
      let s := x + y + carry in
      let '(cs, ls) := add_limbs xs ys (s / (1 ≪ 16)) in (s / (1 ≪ 16) :: cs, u16 (Z.land s 0xFFFF) :: ls)
  | _, _ => ([], [])
  end.

(** The sixteen bytes of the product, as eight limbs. *)
Definition product_u16 (op : Opcode.t) (quotient_comp c : Z) : list Z :=
  let lower := u64 (quotient_comp * c) in
  let upper :=
    if is_signed_64bit_operation op || is_signed_word_operation op
    then u64 ((i64 quotient_comp * i64 c) ≫ 64) else u64 ((quotient_comp * c) ≫ 64) in
  u64_to_u16_limbs lower ++ u64_to_u16_limbs upper.

(** The signs, the overflow flag and the absolute values. *)
Definition sign_columns (op : Opcode.t) (event_b event_c c remainder remainder_comp : Z) :
  Z * Z * Z * Z * Word * Word * Word :=
  let abs x := u64 (Z.abs (i64 x)) in
  if is_signed_64bit_operation op then
    (get_msb remainder, get_msb event_b, get_msb event_c,
     from_bool ((i64 event_b =? - 2 ^ 63) && (i64 event_c =? -1)), Word_from_u64 (abs remainder), Word_from_u64 (abs event_c),
     Word_from_u64 (Z.max 1 (abs event_c)))
  else if is_signed_word_operation op then
    (get_msb (u64 (i32 remainder)), get_msb (u64 (i32 event_b)), get_msb (u64 (i32 event_c)),
     from_bool ((i32 event_b =? - 2 ^ 31) && (i32 event_c =? -1)), Word_from_u64 (abs remainder), Word_from_u64 (abs c),
     Word_from_u64 (Z.max 1 (abs c)))
  else if is_unsigned_word_operation op then
    (0, 0, 0, 0, Word_from_u64 remainder_comp, Word_from_u32 (u32 event_c), Word_from_u32 (Z.max 1 (u32 event_c)))
  else (0, 0, 0, 0, Word_from_u64 remainder_comp, Word_from_u64 event_c, Word_from_u64 (Z.max 1 event_c)).

Definition to_u64 (w : Word) : Z := limbs_value (word_limbs w).

(** The value an operation on 32 bits computes with. *)
Definition computed (op : Opcode.t) (x : Z) : Z :=
  if is_signed_word_operation op then u64 (i32 x) else if is_unsigned_word_operation op then u32 x else x.
Definition truncated (op : Opcode.t) (x : Z) : Z := if is_unsigned_word_operation op then u32 x else x.

Definition populate_msbs (op : Opcode.t) (event_b event_c b c remainder quotient : Z) (blu : list ByteLookupEvent) :
  U16MSBOperation.t * U16MSBOperation.t * U16MSBOperation.t * U16MSBOperation.t * list ByteLookupEvent :=
  let msb blu x := let '(m, blu, _) := U16MSBOperation.populate_msb blu (u16 x) in (m, blu) in
  if is_word_operation op then
    let '(b_msb, blu) := msb blu (event_b ≫ 16) in
    let '(c_msb, blu) := msb blu (event_c ≫ 16) in
    let '(rem_msb, blu) := msb blu (remainder ≫ 16) in
    let '(quot_msb, blu) := msb blu (quotient ≫ 16) in
    (b_msb, c_msb, rem_msb, quot_msb, blu)
  else
    let '(b_msb, blu) := msb blu (b ≫ 48) in
    let '(c_msb, blu) := msb blu (c ≫ 48) in
    let '(rem_msb, blu) := msb blu (remainder ≫ 48) in
    (b_msb, c_msb, rem_msb, zero_msb, blu).

Definition populate_products (op : Opcode.t) (quotient_comp c : Z) (blu : list ByteLookupEvent) :
  MulOperation.t * MulOperation.t * list ByteLookupEvent :=
  let '(lower, blu) := MulOperation.populate blu quotient_comp c false false false in
  let '(upper, blu) :=
    if is_signed_64bit_operation op then MulOperation.populate blu quotient_comp c true false false
    else if is_unsigned_64bit_operation op then MulOperation.populate blu quotient_comp c false false false
    else (MulOperation.zero, blu) in
  (lower, upper, blu).

(** [None] is the failure of the assertion on the opcode. *)
Definition generate_row `{PrimeField} (event : AluEvent.t * RTypeRecord.t) : option (t * list ByteLookupEvent) :=
  let '(op, event_b, event_c) := (AluEvent.opcode event.1, AluEvent.b event.1, AluEvent.c event.1) in
  let equals o := from_bool (bool_decide (op = o)) in
  check! is_64bit_operation op || is_word_operation op;
  let '(state, blu) := CPUState.populate [] (AluEvent.clk event.1) (AluEvent.pc event.1) in
  let '(adapter, blu) := RTypeReader.populate blu event.2 in
  let '(b, c) := (computed op event_b, computed op event_c) in
  let not_word_operation := 1 - equals DIVW - equals REMW - equals DIVUW - equals REMUW in
  let is_c_0 := (IsZeroWordOperation.populate c).1 in
  let '(quotient, remainder) := get_quotient_and_remainder event_b event_c op in
  let '(quotient_comp, remainder_comp) := (truncated op quotient, truncated op remainder) in
  let '(rem_neg, b_neg, c_neg, is_overflow, abs_remainder, abs_c, max_abs_c_or_1) :=
    sign_columns op event_b event_c c remainder remainder_comp in
  let '(is_overflow_b, is_overflow_c) :=
    if is_word_operation op
    then ((IsEqualWordOperation.populate (u32 event_b) (2 ^ 31)).1, (IsEqualWordOperation.populate (u32 event_c) (2 ^ 32 - 1)).1)
    else ((IsEqualWordOperation.populate event_b (2 ^ 63)).1, (IsEqualWordOperation.populate event_c (2 ^ 64 - 1)).1) in
  let blu := add_u16_range_checks (add_u16_range_checks blu (word_limbs abs_c)) (word_limbs abs_remainder) in
  let negation blu (neg : Z) x abs :=
    if neg =? 1 then let '(o, blu, _) := AddOperation.populate blu x (to_u64 abs) in (o, blu) else (zero_add, blu) in
  let '(c_neg_operation, blu) := negation blu c_neg c abs_c in
  let '(rem_neg_operation, blu) := negation blu rem_neg remainder abs_remainder in
  let '(b_msb, c_msb, rem_msb, quot_msb, blu) := populate_msbs op event_b event_c b c remainder quotient blu in
  let multiplicity := 1 - IsZeroWordOperation.result is_c_0 in
  let '(remainder_lt_operation, blu) :=
    if multiplicity =? 1
    then LtOperationUnsigned.populate_unsigned LtOperationUnsigned.default blu 1 (to_u64 abs_remainder) (to_u64 max_abs_c_or_1)
    else (LtOperationUnsigned.default, blu) in
  let c_times_quotient := product_u16 op quotient_comp c in
  let '(lower, upper, blu) := populate_products op quotient_comp c blu in
  let '(carry, limbs) := add_limbs c_times_quotient (u64_to_u16_limbs remainder_comp ++ replicate 4 (rem_neg * 65535)) 0 in
  let blu := foldl add_u16_range_checks blu [limbs; u64_to_u16_limbs quotient; u64_to_u16_limbs remainder; c_times_quotient] in
  Some (mk state adapter (Word_from_u64 (AluEvent.a event.1)) (Word_from_u64 b) (Word_from_u64 c) (Word_from_u64 quotient)
          (Word_from_u64 quotient_comp) (Word_from_u64 remainder_comp) (Word_from_u64 remainder) abs_remainder abs_c
          max_abs_c_or_1 c_times_quotient lower upper c_neg_operation rem_neg_operation remainder_lt_operation carry is_c_0
          (equals DIV) (equals DIVU) (equals REM) (equals REMU) (equals DIVW) (equals REMW) (equals DIVUW) (equals REMUW)
          is_overflow is_overflow_b is_overflow_c b_msb rem_msb c_msb quot_msb b_neg (b_neg * (1 - is_overflow))
          ((1 - b_neg) * (1 - is_overflow)) not_word_operation rem_neg c_neg c_neg rem_neg 1 multiplicity, blu).

Definition flags (local : t) : list Z :=
  [is_divu local; is_remu local; is_div local; is_rem local; is_divw local; is_remw local; is_divuw local; is_remuw local].
Definition opcodes : list Opcode.t := [DIVU; REMU; DIV; REM; DIVW; REMW; DIVUW; REMUW].

(** The type has no term for the last opcode. *)
Definition consts `{InstructionFormats} (local : t) : list Z :=
  [select (take 7 (flags local)) instr_type (take 7 opcodes); select (flags local) base opcodes;
   select (flags local) unwrap_funct3 opcodes; select (flags local) unwrap_funct7 opcodes].

Definition word_operation (local : t) : Z := is_divw local + is_remw local + is_divuw local + is_remuw local.
Definition not_word_operation (local : t) : Z := is_divu local + is_remu local + is_div local + is_rem local.
Definition signed_word_operation (local : t) : Z := is_divw local + is_remw local.
Definition unsigned_word_operation (local : t) : Z := is_divuw local + is_remuw local.
Definition signed_type (local : t) : Z := is_div local + is_rem local + is_divw local + is_remw local.

Definition sign_calls (local : t) : list call :=
  Assert (AssertEq (is_real_not_word local) (is_real local * (1 - word_operation local))) ::
  ((fun '(m, is_negative) => Assert (AssertEq (U16MSBOperation.msb m * signed_type local) is_negative)) <$>
    [(b_msb local, b_neg local); (rem_msb local, rem_neg local); (c_msb local, c_neg local)]).

(** [b] and [c] are the operands, extended from 32 bits on the operations on 32 bits. *)
Definition operand_calls (local : t) : list call :=
  let b0 := RTypeReader.b (adapter local) in
  let c0 := RTypeReader.c (adapter local) in
  (seq 0 (WORD_SIZE / 2) ≫= fun i => [Assert (AssertEq b0.[i] (b local).[i]); Assert (AssertEq c0.[i] (c local).[i])]) ++
  (seq (WORD_SIZE / 2) (WORD_SIZE / 2) ≫= fun i =>
     [Assert (AssertEq (b local).[i] (b0.[i] * (1 - word_operation local) + b_neg local * word_operation local * 65535));
      Assert (AssertEq (c local).[i] (c0.[i] * (1 - word_operation local) + c_neg local * word_operation local * 65535))]).

(** Of the quotient, and of the remainder: the form the product computes with. *)
Definition comp_calls (local : t) (value comp : Word) (m : U16MSBOperation.t) : list call :=
  ((fun i => Assert (AssertEq comp.[i] value.[i])) <$> seq 0 (WORD_SIZE / 2)) ++
  (seq (WORD_SIZE / 2) (WORD_SIZE / 2) ≫= fun i =>
     [Assert (When (unsigned_word_operation local) (AssertEq comp.[i] 0));
      Assert (When (signed_word_operation local) (AssertEq comp.[i] (U16MSBOperation.msb m * 65535)));
      Assert (When (word_operation local) (AssertEq value.[i] (U16MSBOperation.msb m * 65535)));
      Assert (When (not_word_operation local) (AssertEq comp.[i] value.[i]))]).

Definition lower_half (local : t) : Word := Word_of_fn (fun i => nth i (c_times_quotient local) 0).
Definition upper_half (local : t) : Word := Word_of_fn (fun i => nth (i + 4) (c_times_quotient local) 0).

Definition product_calls `{PrimeField} (local : t) : list call :=
  MulOperation.eval (lower_half local) (quotient_comp local) (c local) (c_times_quotient_lower local)
    (is_real local) (is_real local) 0 0 0 0 ++
  MulOperation.eval (upper_half local) (quotient_comp local) (c local) (c_times_quotient_upper local)
    (is_real_not_word local) 0 (is_div local + is_rem local) 0 (is_divu local + is_remu local) 0.

Definition truncated_word (w : Word) : Word := mkWord w.[0] w.[1] 0 0.
Definition overflow_calls `{PrimeField} (local : t) : list call :=
  let b0 := RTypeReader.b (adapter local) in
  let c0 := RTypeReader.c (adapter local) in
  IsEqualWordOperation.eval_is_equal_word b0 (Word_from_u64 (2 ^ 63)) (is_overflow_b local) (is_real_not_word local) ++
  IsEqualWordOperation.eval_is_equal_word c0 (Word_from_u64 (2 ^ 64 - 1)) (is_overflow_c local) (is_real_not_word local) ++
  IsEqualWordOperation.eval_is_equal_word (truncated_word b0) (Word_from_u64 (2 ^ 31)) (is_overflow_b local)
    (word_operation local) ++
  IsEqualWordOperation.eval_is_equal_word (truncated_word c0) (Word_from_u64 (2 ^ 32 - 1)) (is_overflow_c local)
    (word_operation local) ++
  [Assert (AssertEq (is_overflow local)
     (IsZeroWordOperation.result (IsEqualWordOperation.is_diff_zero (is_overflow_b local)) *
      IsZeroWordOperation.result (IsEqualWordOperation.is_diff_zero (is_overflow_c local)) * signed_type local));
   Assert (AssertEq (b_neg_not_overflow local) (b_neg local * (1 - is_overflow local)));
   Assert (AssertEq (b_not_neg_not_overflow local) ((1 - b_neg local) * (1 - is_overflow local)))] ++
  (seq 0 WORD_SIZE ≫= fun i =>
     [Assert (When (is_overflow local) (AssertEq (quotient local).[i] (b local).[i]));
      Assert (When (is_overflow local) (AssertEq (remainder local).[i] 0))]).

(** The limb [i] of [c * quotient + remainder], less its carry. *)
Definition sum_limb (local : t) (i : nat) : Z :=
  let x := nth i (c_times_quotient local) 0 in
  let x := if (i <? WORD_SIZE)%nat then x + (remainder_comp local).[i] else x + rem_neg local * 65535 in
  let x := x - nth i (carry local) 0 * (1 ≪ 16) in
  if (i =? 0)%nat then x else x + nth (i - 1) (carry local) 0.
Definition sum_calls (local : t) : list call :=
  ((fun i => Assert (when_not (is_overflow local)
     (if (i <? WORD_SIZE)%nat then AssertEq (b local).[i] (sum_limb local i)
      else AssertEq (b_neg local * 65535) (sum_limb local i)))) <$> seq 0 LONG_WORD_SIZE) ++
  slice_range_check_u16 (sum_limb local <$> seq 0 LONG_WORD_SIZE) (is_real local).

Definition result_calls (local : t) : list call :=
  (seq 0 WORD_SIZE ≫= fun i =>
     [Assert (When (is_divu local + is_div local + is_divw local + is_divuw local) (AssertEq (quotient local).[i] (a local).[i]));
      Assert (When (is_remu local + is_rem local + is_remw local + is_remuw local) (AssertEq (remainder local).[i] (a local).[i]))]).

(** The remainder and [b] have the same sign. *)
Definition remainder_sign_calls (local : t) : list call :=
  let rem_limb_sum := foldl (fun acc i => acc + (remainder local).[i]) 0 (seq 0 WORD_SIZE) in
  [Assert (When (rem_neg local) (AssertOne (b_neg local)));
   Assert (When rem_limb_sum (When (1 - rem_neg local) (AssertZero (b_neg local))))].

Definition zero_calls (local : t) : list call :=
  IsZeroWordOperation.eval_zero_word (c local) (is_c_0 local) (is_real local) ++
  ((fun i => Assert (When (IsZeroWordOperation.result (is_c_0 local)) (AssertEq (quotient local).[i] 65535))) <$> seq 0 WORD_SIZE) ++
  ((fun i => Assert (When (IsZeroWordOperation.result (is_c_0 local)) (AssertEq (remainder_comp local).[i] (b local).[i])))
     <$> seq 0 WORD_SIZE).

(** The negation of a negative number: the sum with its absolute value is zero. *)
Definition negation_calls `{PrimeField} (x abs : Word) (o : AddOperation.t) (negative is_real : Z) : list call :=
  AddOperation.eval x abs o negative ++ slice_range_check_u16 (word_limbs abs) is_real ++
  when_all negative (assert_word_eq word_zero (AddOperation.value o)).

Definition absolute_calls `{PrimeField} (local : t) : list call :=
  let c_0 := IsZeroWordOperation.result (is_c_0 local) in
  (seq 0 WORD_SIZE ≫= fun i =>
     [Assert (when_not (c_neg local) (AssertEq (c local).[i] (abs_c local).[i]));
      Assert (when_not (rem_neg local) (AssertEq (remainder_comp local).[i] (abs_remainder local).[i]))]) ++
  negation_calls (c local) (abs_c local) (c_neg_operation local) (abs_c_alu_event local) (is_real local) ++
  negation_calls (remainder_comp local) (abs_remainder local) (rem_neg_operation local) (abs_rem_alu_event local) (is_real local) ++
  [Assert (AssertEq (abs_c_alu_event local) (c_neg local * is_real local));
   Assert (AssertEq (abs_rem_alu_event local) (rem_neg local * is_real local))] ++
  ((fun i => Assert (AssertEq (max_abs_c_or_1 local).[i]
     ((if (i =? 0)%nat then c_0 * 1 else 0) + (1 - c_0) * (abs_c local).[i]))) <$> seq 0 WORD_SIZE) ++
  [Assert (AssertEq ((1 - c_0) * is_real local) (remainder_check_multiplicity local))] ++
  LtOperationUnsigned.eval_lt_unsigned (abs_remainder local) (max_abs_c_or_1 local) (remainder_lt_operation local)
    (remainder_check_multiplicity local) ++
  [Assert (When (remainder_check_multiplicity local)
     (AssertEq 1 (U16CompareOperation.bit (LtOperationUnsigned.u16_compare_operation (remainder_lt_operation local)))))].

Definition msb_calls (local : t) : list call :=
  let b0 := RTypeReader.b (adapter local) in
  let c0 := RTypeReader.c (adapter local) in
  U16MSBOperation.eval_msb b0.[3] (b_msb local) (is_real_not_word local) ++
  U16MSBOperation.eval_msb c0.[3] (c_msb local) (is_real_not_word local) ++
  U16MSBOperation.eval_msb (remainder local).[3] (rem_msb local) (is_real_not_word local) ++
  U16MSBOperation.eval_msb b0.[1] (b_msb local) (word_operation local) ++
  U16MSBOperation.eval_msb c0.[1] (c_msb local) (word_operation local) ++
  U16MSBOperation.eval_msb (remainder local).[1] (rem_msb local) (word_operation local) ++
  U16MSBOperation.eval_msb (quotient local).[1] (quot_msb local) (word_operation local).

Definition range_calls (local : t) : list call :=
  slice_range_check_u16 (word_limbs (quotient local)) (is_real local) ++
  slice_range_check_u16 (word_limbs (remainder local)) (is_real local) ++
  ((fun i => Assert (AssertBool (nth i (carry local) 0))) <$> seq 0 LONG_WORD_SIZE) ++
  slice_range_check_u16 ((fun i => nth i (c_times_quotient local) 0) <$> seq 0 LONG_WORD_SIZE) (is_real local).

Definition flag_calls (local : t) : list call :=
  ((fun x => Assert (AssertBool x)) <$>
    [is_div local; is_divu local; is_rem local; is_remu local; is_divw local; is_remw local; is_divuw local; is_remuw local;
     is_overflow local; is_real_not_word local; b_neg local; b_neg_not_overflow local; b_not_neg_not_overflow local;
     rem_neg local; c_neg local; is_real local; abs_c_alu_event local; abs_rem_alu_event local]) ++
  [Assert (AssertEq 1 (is_divu local + is_remu local + is_div local + is_rem local + is_divw local + is_remw local +
     is_divuw local + is_remuw local))].

(** The constraints on the numbers. *)
Definition division_calls `{PrimeField} (local : t) : list call :=
  sign_calls local ++ operand_calls local ++ comp_calls local (quotient local) (quotient_comp local) (quot_msb local) ++
  comp_calls local (remainder local) (remainder_comp local) (rem_msb local) ++ product_calls local ++ overflow_calls local ++
  sum_calls local ++ result_calls local ++ remainder_sign_calls local ++ zero_calls local ++ absolute_calls local ++
  msb_calls local ++ range_calls local.

Definition eval `{PrimeField} `{ShardPublicValues} `{InstructionFormats} (local : t) : list call :=
  division_calls local ++ flag_calls local ++
  CPUState.eval (state local) (pc_plus_4 (CPUState.pc (state local))) CLK_INC (is_real local) ++
  RTypeReader.eval (CPUState.clk_high (state local)) (CPUState.clk_low (state local)) (CPUState.pc (state local))
    (select (flags local) Opcode.as_field opcodes) (consts local) (a local) (adapter local) (is_real local).
End DivRem.

(** ** The numbers of a row *)

(** The operand a row computes with, the form of a result in the product, and the integer of a register. *)
Definition extension (word sgn : bool) (v : Z) : Z :=
  if word then if sgn then u64 (i32 v) else u32 v else v.
Definition comp (word sgn : bool) (v : Z) : Z := if word && negb sgn then u32 v else v.
Definition val (sgn : bool) (v : Z) : Z := v - 2 ^ 64 * (from_bool sgn * (v / 2 ^ 63)).
Definition minimum (word : bool) : Z := if word then - 2 ^ 31 else - 2 ^ 63.

(** What the constraints say of the operands [vb], [vc], the quotient [q] and
    the remainder [r]. *)
Record division (word sgn : bool) (vb vc q r : Z) : Prop := {
  div_b : is_u64 vb; div_c : is_u64 vc; div_q : is_u64 q; div_r : is_u64 r;
  div_word_q : word = true -> q = u64 (i32 q);
  div_word_r : word = true -> r = u64 (i32 r);
  div_overflow : sgn = true -> val sgn (extension word sgn vb) = minimum word -> val sgn (extension word sgn vc) = -1 ->
    q = extension word sgn vb /\ r = 0;
  div_sum : ~ (sgn = true /\ val sgn (extension word sgn vb) = minimum word /\ val sgn (extension word sgn vc) = -1) ->
    exists k, val sgn (comp word sgn q) * val sgn (extension word sgn vc) + val sgn (comp word sgn r) =
      val sgn (extension word sgn vb) + (if word then 2 ^ 64 else 2 ^ 128) * k;
  div_negative : val sgn (comp word sgn r) < 0 -> val sgn (extension word sgn vb) < 0;
  div_positive : r <> 0 -> 0 <= val sgn (comp word sgn r) -> 0 <= val sgn (extension word sgn vb);
  div_zero : extension word sgn vc = 0 -> q = 2 ^ 64 - 1 /\ comp word sgn r = extension word sgn vb;
  div_small : extension word sgn vc <> 0 -> Z.abs (val sgn (comp word sgn r)) < Z.abs (val sgn (extension word sgn vc)) }.

Lemma val_range word sgn v : is_u64 v ->
  is_u64 (extension word sgn v) /\ 
  (if sgn then minimum word <= val sgn (extension word sgn v) < - minimum word
   else 0 <= val sgn (extension word sgn v) < - 2 * minimum word) /\
  (extension word sgn v = 0 <-> val sgn (extension word sgn v) = 0).
Proof.
  intros Hv. unfold val, extension, minimum, from_bool, fits in *. destruct word, sgn; unfold_ints; cbn [Z.b2z]; lia_mod.
Qed.
Lemma comp_range word sgn v : is_u64 v -> (word = true -> v = u64 (i32 v)) ->
  comp word sgn v = extension word sgn v.
Proof. intros Hv Hw. unfold comp, extension. destruct word, sgn; try reflexivity. cbn. auto. Qed.

Lemma exact_sum word sgn q c r b : is_u64 q -> is_u64 c -> is_u64 r -> is_u64 b ->
  (exists k, val sgn (extension word sgn q) * val sgn (extension word sgn c) + val sgn (extension word sgn r) =
     val sgn (extension word sgn b) + (if word then 2 ^ 64 else 2 ^ 128) * k) ->
  val sgn (extension word sgn b) = val sgn (extension word sgn c) * val sgn (extension word sgn q) + val sgn (extension word sgn r).
Proof.
  intros Hq Hc Hr Hb [k Hk]. destruct (val_range word sgn q Hq) as (_ & Rq & _), (val_range word sgn c Hc) as (_ & Rc & _),
    (val_range word sgn r Hr) as (_ & Rr & _), (val_range word sgn b Hb) as (_ & Rb & _).
  set (q' := val sgn _) in *. set (c' := val sgn (extension word sgn c)) in *. set (r' := val sgn (extension word sgn r)) in *.
  set (b' := val sgn (extension word sgn b)) in *. clearbody q' c' r' b'. clear - Hk Rq Rc Rr Rb.
  assert (k = 0) as ->; [|nia]. unfold minimum in *. destruct word, sgn; nia.
Qed.

(** The integers of the manual. *)
Definition width (word : bool) : Z := if word then 32 else 64.
Definition quotient_spec (word sgn : bool) (vb vc : Z) : Z :=
  let w := width word in
  if sgn then Rv64.div w (Rv64.signed w vb) (Rv64.signed w vc) else Rv64.divu (Rv64.unsigned w vb) (Rv64.unsigned w vc) w.
Definition remainder_spec (word sgn : bool) (vb vc : Z) : Z :=
  let w := width word in
  if sgn then Rv64.rem w (Rv64.signed w vb) (Rv64.signed w vc) else Rv64.remu (Rv64.unsigned w vb) (Rv64.unsigned w vc).
Definition register_of (word : bool) (x : Z) : Z := if word then Rv64.word x else Rv64.reg x.

Lemma val_spec word sgn v : is_u64 v ->
  val sgn (extension word sgn v) = if sgn then Rv64.signed (width word) v else Rv64.unsigned (width word) v.
Proof.
  intros Hv. unfold width. destruct sgn; [rewrite <- sext_signed by (destruct word; lia)|];
    unfold val, extension, Rv64.unsigned, from_bool, fits in *; destruct word; unfold_ints; cbn [Z.b2z]; lia_mod.
Qed.
Lemma register_val word sgn v : is_u64 v -> (word = true -> v = u64 (i32 v)) ->
  v = register_of word (val sgn (comp word sgn v)).
Proof.
  intros Hv Hw. rewrite comp_range by assumption. destruct word; cbn [register_of]; unfold Rv64.word, Rv64.reg.
  - rewrite <- sext_signed by lia. rewrite (Hw eq_refl) at 1. clear Hw.
    unfold val, extension, fits in *. destruct sgn; unfold_ints; cbn [from_bool Z.b2z]; lia_mod.
  - clear Hw. unfold val, extension, fits in *. destruct sgn; cbn [from_bool Z.b2z]; lia_mod.
Qed.

(** The quotient and the remainder of a division that neither overflows nor divides by zero. *)
Lemma truncated_division b c q r : c <> 0 -> b = c * q + r -> Z.abs r < Z.abs c -> (r < 0 -> b < 0) -> (0 < r -> 0 <= b) ->
  q = Z.quot b c /\ r = Z.rem b c.
Proof.
  intros Hc E Hr Hn Hp. apply Zquot_mod_unique_full; [|exact E]. unfold Remainder.
  destruct (Z.lt_trichotomy r 0) as [L|[L|L]]; [right; specialize (Hn L)|destruct (Z.le_ge_cases 0 b); [left|right]|left; specialize (Hp L)]; lia.
Qed.
Lemma unsigned_division b c q r : 0 < c -> 0 <= b -> b = c * q + r -> 0 <= r -> Z.abs r < Z.abs c -> q = b / c /\ r = b mod c.
Proof. intros Hc Hb E Hr Hl. split; [apply (Z.div_unique_pos b c q r)|apply (Z.mod_unique_pos b c q r)]; lia. Qed.

Lemma division_exact word sgn vb vc q r : division word sgn vb vc q r ->
  let b := val sgn (extension word sgn vb) in let c := val sgn (extension word sgn vc) in
  c <> 0 -> ~ (sgn = true /\ b = minimum word /\ c = -1) ->
  b = c * val sgn (comp word sgn q) + val sgn (comp word sgn r) /\ Z.abs (val sgn (comp word sgn r)) < Z.abs c /\
  (val sgn (comp word sgn r) < 0 -> b < 0) /\ (0 < val sgn (comp word sgn r) -> 0 <= b).
Proof.
  intros D b c Hc Ho. destruct D as [Hb Hvc Hq Hr Wq Wr _ Hs Hn Hp _ Hl]. specialize (Hs Ho).
  assert (Hl' : Z.abs (val sgn (comp word sgn r)) < Z.abs c).
  { apply Hl. intros E. apply Hc. apply (val_range word sgn vc Hvc). exact E. }
  split; [|split; [exact Hl'|split; [exact Hn|]]].
  - rewrite (comp_range word sgn q), (comp_range word sgn r) in * by assumption. now apply exact_sum.
  - intros L. apply Hp; [|lia]. intros ->. destruct word, sgn; vm_compute in L; discriminate.
Qed.

Lemma division_general word sgn vb vc q r : division word sgn vb vc q r ->
  val sgn (extension word sgn vc) <> 0 ->
  ~ (sgn = true /\ val sgn (extension word sgn vb) = minimum word /\ val sgn (extension word sgn vc) = -1) ->
  val sgn (comp word sgn q) = quotient_spec word sgn vb vc /\ val sgn (comp word sgn r) = remainder_spec word sgn vb vc.
Proof.
  intros D Hc Ho. pose proof (division_exact _ _ _ _ _ _ D Hc Ho) as (E & Hl & Hn & Hp). destruct D as [Hb Hvc Hq Hr Wq Wr _ _ _ _ _ _].
  pose proof (proj1 (proj2 (val_range word sgn vb Hb))) as Rb. pose proof (proj1 (proj2 (val_range word sgn vc Hvc))) as Rc.
  pose proof (proj1 (proj2 (val_range word sgn r Hr))) as Rr. rewrite <- comp_range in Rr by assumption.
  rewrite (val_spec word sgn vb Hb), (val_spec word sgn vc Hvc) in *. unfold quotient_spec, remainder_spec.
  destruct sgn.
  - unfold Rv64.div, Rv64.rem. rewrite (proj2 (Z.eqb_neq _ _) Hc).
    destruct ((_ =? _) && _) eqn:Eo.
    { apply andb_true_iff in Eo as [E1%Z.eqb_eq E2%Z.eqb_eq]. destruct Ho. repeat split; try assumption.
      rewrite E1. unfold minimum. destruct word; reflexivity. }
    now apply truncated_division.
  - unfold Rv64.divu, Rv64.remu. rewrite (proj2 (Z.eqb_neq _ _) Hc). apply unsigned_division; try assumption; lia.
Qed.

Lemma division_by_zero word sgn vb vc q r : division word sgn vb vc q r -> val sgn (extension word sgn vc) = 0 ->
  q = register_of word (quotient_spec word sgn vb vc) /\ r = register_of word (remainder_spec word sgn vb vc).
Proof.
  intros [Hb Hvc Hq Hr Wq Wr _ _ _ _ Hz _] Ec. destruct (Hz (proj2 (proj2 (proj2 (val_range word sgn vc Hvc))) Ec)) as [-> Er].
  unfold quotient_spec, remainder_spec, Rv64.div, Rv64.rem, Rv64.divu, Rv64.remu. rewrite (val_spec word sgn vc Hvc) in Ec. split.
  - destruct sgn; rewrite Ec; destruct word; reflexivity.
  - rewrite (register_val word sgn r Hr Wr) at 1. rewrite Er, (val_spec word sgn vb Hb). now destruct sgn; rewrite Ec.
Qed.
Lemma division_overflow word vb vc q r : division word true vb vc q r ->
  val true (extension word true vb) = minimum word -> val true (extension word true vc) = -1 ->
  q = register_of word (quotient_spec word true vb vc) /\ r = register_of word (remainder_spec word true vb vc).
Proof.
  intros [Hb Hvc Hq Hr Wq Wr Ho _ _ _ _ _] Eb Ec. destruct (Ho eq_refl Eb Ec) as [Eq ->].
  unfold quotient_spec, remainder_spec, Rv64.div, Rv64.rem. pose proof Eb as Eb'.
  rewrite (val_spec word true vb Hb) in Eb'. rewrite (val_spec word true vc Hvc) in Ec. rewrite Eb', Ec.
  assert (extension word true vb = register_of word (minimum word)) as Ee; [|split; [rewrite Eq, Ee|]; destruct word; reflexivity].
  rewrite <- Eb. rewrite <- Eq at 1. rewrite (register_val word true q Hq Wq) at 1. f_equal. f_equal. unfold comp.
  now rewrite andb_false_r.
Qed.

(** A row that satisfies the constraints holds the quotient and the remainder of the manual. *)
Lemma division_sound word sgn vb vc q r : division word sgn vb vc q r ->
  q = register_of word (quotient_spec word sgn vb vc) /\ r = register_of word (remainder_spec word sgn vb vc).
Proof.
  intros D. destruct (Z.eq_dec (val sgn (extension word sgn vc)) 0) as [Ec|Ec]; [now apply division_by_zero|].
  destruct (decide (sgn = true /\ val sgn (extension word sgn vb) = minimum word /\ val sgn (extension word sgn vc) = -1)) as [Ho|Ho].
  - destruct Ho as (-> & Eb & Ec'). now apply division_overflow.
  - destruct (division_general _ _ _ _ _ _ D Ec Ho) as [Eq Er]. destruct D as [Hb Hvc Hq Hr Wq Wr _ _ _ _ _ _].
    rewrite <- Eq, <- Er. split; now apply register_val.
Qed.

Lemma alu_division (word sgn rm : bool) vb vc op :
  op = (if word then if sgn then if rm then REMW else DIVW else if rm then REMUW else DIVUW
        else if sgn then if rm then REM else DIV else if rm then REMU else DIVU) ->
  Rv64.alu op vb vc = Some (register_of word (if rm then remainder_spec word sgn vb vc else quotient_spec word sgn vb vc)).
Proof. intros ->. destruct word, sgn, rm; reflexivity. Qed.

(** ** The constraints *)
Section Division.
Context `{AirBuilder} `{ShardPublicValues} `{InstructionFormats}.

Lemma is_equal_word_sound a b va vb cols r : a ∼ va -> b ∼ vb -> r ≐ 1 ->
  sat (IsEqualWordOperation.eval_is_equal_word a b cols r) ->
  IsZeroWordOperation.result (IsEqualWordOperation.is_diff_zero cols) ≐ from_bool (va =? vb).
Proof.
  intros Ha Hb Hr Hs. apply sat_cons in Hs as [_ Hs]. apply is_zero_word_sound in Hs; [|assumption].
  now rewrite (diff_is_zero a b va vb) in Hs.
Qed.
Lemma zero_word_value w v : w ∼ v -> word_is_zero w = (v =? 0).
Proof.
  intros Hw. rewrite <- (diff_is_zero w word_zero v 0 Hw (represents_from_u64 0 ltac:(unfold fits; lia))).
  unfold word_is_zero. change (Word_of_fn (fun i => w.[i] - word_zero.[i])).[0] with (w.[0] - 0).
  change (Word_of_fn (fun i => w.[i] - word_zero.[i])).[1] with (w.[1] - 0).
  change (Word_of_fn (fun i => w.[i] - word_zero.[i])).[2] with (w.[2] - 0).
  change (Word_of_fn (fun i => w.[i] - word_zero.[i])).[3] with (w.[3] - 0). now rewrite !Z.sub_0_r.
Qed.

(** The sign bit of a word, under one of the two selectors. *)
Lemma sign_bit (word : bool) w v m f1 f2 : w ∼ v -> f1 ≐ from_bool (negb word) -> f2 ≐ from_bool word ->
  sat (U16MSBOperation.eval_msb w.[3] m f1) -> sat (U16MSBOperation.eval_msb w.[1] m f2) ->
  U16MSBOperation.msb m ≐ (if word then v mod 2 ^ 32 / 2 ^ 31 else v / 2 ^ 63).
Proof.
  intros (x0 & x1 & x2 & x3 & B0 & B1 & B2 & B3 & Ev & L0 & L1 & L2 & L3)%represents_elim E1 E2 S1 S2.
  destruct word; cbn in E1, E2.
  - transitivity (x1 / 2 ^ 15); [exact (msb_sound _ x1 m f2 L1 B1 E2 S2)|]. apply feq_exists. exists 0. clear - B0 B1 B2 B3 Ev.
    subst v. unfold fits in *. lia_mod.
  - transitivity (x3 / 2 ^ 15); [exact (msb_sound _ x3 m f1 L3 B3 E1 S1)|]. apply feq_exists. exists 0. clear - B0 B1 B2 B3 Ev.
    subst v. unfold fits in *. lia_mod.
Qed.

Lemma operand_value (word sgn : bool) w0 v w m st f2 neg : w0 ∼ v ->
  U16MSBOperation.msb m ≐ (if word then v mod 2 ^ 32 / 2 ^ 31 else v / 2 ^ 63) ->
  st ≐ from_bool sgn -> f2 ≐ from_bool word -> U16MSBOperation.msb m * st ≐ neg -> w0.[0] ≐ w.[0] -> w0.[1] ≐ w.[1] ->
  w.[2] ≐ w0.[2] * (1 - f2) + neg * f2 * 65535 -> w.[3] ≐ w0.[3] * (1 - f2) + neg * f2 * 65535 ->
  w ∼ extension word sgn v /\ neg ≐ from_bool sgn * (extension word sgn v / 2 ^ 63).
Proof.
  intros Hw Hm Hst Hf Hn E0 E1 E2 E3. rewrite Hst, Hm in Hn. rewrite Hf, <- Hn in E2, E3. clear Hst Hf f2 st.
  apply represents_elim in Hw as (x0 & x1 & x2 & x3 & B0 & B1 & B2 & B3 & Ev & L0 & L1 & L2 & L3).
  rewrite L2 in E2. rewrite L3 in E3. symmetry in E0, E1. rewrite L0 in E0. rewrite L1 in E1.
  set (s := from_bool sgn * (if word then v mod 2 ^ 32 / 2 ^ 31 else v / 2 ^ 63)).
  assert (Es : extension word sgn v = if word then x0 + 2 ^ 16 * x1 + 2 ^ 32 * (s * 65535) + 2 ^ 48 * (s * 65535) else v).
  { subst s. clear - B0 B1 B2 B3 Ev. unfold extension. destruct word; [|reflexivity]. subst v.
    unfold fits in *. destruct sgn; unfold_ints; cbn [from_bool Z.b2z]; lia_mod. }
  assert (Bs : bit s) by (subst s; clear - B0 B1 B2 B3 Ev; subst v; unfold bit, fits in *; destruct word, sgn; cbn [from_bool Z.b2z]; lia_mod).
  assert (Ns : neg ≐ s) by (symmetry; rewrite <- Hn; apply feq_exists; exists 0; subst s; lia).
  split.
  - rewrite Es. destruct word; [|rewrite Ev].
    + apply represents_intro; try assumption; try (destruct Bs as [-> | ->]; unfold fits; lia).
      * rewrite E2. apply feq_exists. exists 0. subst s. cbn [from_bool Z.b2z]. lia.
      * rewrite E3. apply feq_exists. exists 0. subst s. cbn [from_bool Z.b2z]. lia.
    + apply represents_intro; try assumption.
      * rewrite E2. apply feq_exists. exists 0. cbn [from_bool Z.b2z]. lia.
      * rewrite E3. apply feq_exists. exists 0. cbn [from_bool Z.b2z]. lia.
  - rewrite Ns. apply feq_exists. exists 0. rewrite Es. clear - B0 B1 B2 B3 Ev Bs. subst s.
    destruct word; [|lia]. destruct sgn; cbn [from_bool Z.b2z] in *; [|lia]. unfold fits, bit in *. lia_mod.
Qed.

(** The sums of flags of a row, by the operation it is for. *)
Record row_kind (local : DivRem.t) (word sgn rm : bool) : Prop := {
  k_word : DivRem.word_operation local ≐ from_bool word;
  k_not_word : DivRem.not_word_operation local ≐ from_bool (negb word);
  k_sw : DivRem.signed_word_operation local ≐ from_bool (word && sgn);
  k_uw : DivRem.unsigned_word_operation local ≐ from_bool (word && negb sgn);
  k_signed : DivRem.signed_type local ≐ from_bool sgn;
  k_mulh : DivRem.is_div local + DivRem.is_rem local ≐ from_bool (negb word && sgn);
  k_mulhu : DivRem.is_divu local + DivRem.is_remu local ≐ from_bool (negb word && negb sgn);
  k_quot : DivRem.is_divu local + DivRem.is_div local + DivRem.is_divw local + DivRem.is_divuw local ≐ from_bool (negb rm);
  k_rem : DivRem.is_remu local + DivRem.is_rem local + DivRem.is_remw local + DivRem.is_remuw local ≐ from_bool rm }.

Lemma comp_value local (word sgn rm : bool) value c m v : row_kind local word sgn rm -> value ∼ v ->
  (word = true -> U16MSBOperation.msb m ≐ v mod 2 ^ 32 / 2 ^ 31) -> sat (DivRem.comp_calls local value c m) ->
  c ∼ comp word sgn v /\ (word = true -> v = u64 (i32 v)).
Proof.
  intros K Hv Hm Hs. apply represents_elim in Hv as (x0 & x1 & x2 & x3 & B0 & B1 & B2 & B3 & Ev & L0 & L1 & L2 & L3).
  unfold DivRem.comp_calls in Hs. cbn in Hs. rewrite !sat_cons in Hs.
  destruct Hs as (C0 & C1 & U2 & S2 & W2 & N2 & U3 & S3 & W3 & N3 & _).
  apply sat_assert, holds_assert_eq in C0, C1. rewrite L0 in C0. rewrite L1 in C1.
  destruct word.
  - specialize (Hm eq_refl). pose proof (k_word _ _ _ _ K) as Kw. cbn in Kw.
    apply (when_one _ _ Kw), holds_assert_eq in W2, W3. rewrite L2, Hm in W2. rewrite L3, Hm in W3.
    pose proof order_large as Ho. set (s := v mod 2 ^ 32 / 2 ^ 31) in *.
    assert (Bs : bit s) by (subst s; clear; unfold bit; lia_mod).
    apply feq_small in W2; [|unfold fits, bit in *; lia]. apply feq_small in W3; [|unfold fits, bit in *; lia].
    assert (Es : s = x1 / 2 ^ 15) by (subst s; clear - B0 B1 B2 B3 Ev; subst v; unfold fits in *; lia_mod).
    assert (Ew : v = u64 (i32 v)).
    { clear - B0 B1 B2 B3 Ev Es W2 W3 Bs. clearbody s. subst v. unfold fits, bit in *. unfold_ints. lia_mod. }
    split; [|auto]. unfold comp. destruct sgn; cbn [negb andb].
    + pose proof (k_sw _ _ _ _ K) as Ks. cbn in Ks. apply (when_one _ _ Ks), holds_assert_eq in S2, S3.
      rewrite Hm, <- W2 in S2. rewrite Hm, <- W3 in S3. rewrite Ev. now apply represents_intro.
    + pose proof (k_uw _ _ _ _ K) as Ks. cbn in Ks. apply (when_one _ _ Ks), holds_assert_eq in U2, U3.
      replace (u32 v) with (x0 + 2 ^ 16 * x1 + 2 ^ 32 * 0 + 2 ^ 48 * 0)
        by (clear - B0 B1 B2 B3 Ev; subst v; unfold fits in *; unfold_ints; lia_mod).
      apply represents_intro; (assumption || (unfold fits; lia)).
  - split; [|discriminate]. pose proof (k_not_word _ _ _ _ K) as Kn. cbn in Kn.
    apply (when_one _ _ Kn), holds_assert_eq in N2, N3. rewrite L2 in N2. rewrite L3 in N3. unfold comp. cbn [andb].
    rewrite Ev. now apply represents_intro.
Qed.

Lemma val_signed sgn v : is_u64 v -> val sgn v = if sgn then Rv64.signed 64 v else v.
Proof.
  intros Hv. rewrite (val_spec false sgn v Hv : val sgn v = _). destruct sgn; [reflexivity|]. exact (Z.mod_small _ _ Hv).
Qed.
Lemma two_halves X : X mod 2 ^ 64 + 2 ^ 64 * (X / 2 ^ 64 mod 2 ^ 64) = X + 2 ^ 128 * (- (X / 2 ^ 64 / 2 ^ 64)).
Proof. lia_mod. Qed.
Lemma unsigned_low x y X : X mod 2 ^ 64 = (Rv64.signed 64 x * Rv64.signed 64 y) mod 2 ^ 64 -> X mod 2 ^ 64 = (x * y) mod 2 ^ 64.
Proof. intros ->. now rewrite Z.mul_mod, !signed_mod, <- Z.mul_mod by lia. Qed.

Lemma product_value local (word sgn rm : bool) q c ph : row_kind local word sgn rm -> DivRem.is_real local ≐ 1 ->
  DivRem.is_real_not_word local ≐ from_bool (negb word) -> DivRem.quotient_comp local ∼ q -> DivRem.c local ∼ c ->
  DivRem.upper_half local ∼ ph -> sat (DivRem.product_calls local) ->
  exists pl k, DivRem.lower_half local ∼ pl /\
    pl + (if word then 0 else 2 ^ 64 * ph) = val sgn q * val sgn c + (if word then 2 ^ 64 else 2 ^ 128) * k.
Proof.
  intros K Hr Hn Hq Hc Hu Hs. apply sat_app in Hs as [Hl Hh].
  destruct (mul_sound MUL _ _ _ q c _ _ _ _ _ _ _ ltac:(cbn; tauto) Hq Hc Hr Hr (reflexivity _) (reflexivity _) (reflexivity _) (reflexivity _) Hl)
    as (pl & Epl & Hpl).
  cbn in Epl. injection Epl as <-. exists (Rv64.reg (Rv64.signed 64 q * Rv64.signed 64 c)).
  pose proof (unsigned_low q c _ (eq_refl _)) as Elow. unfold Rv64.reg in *.
  rewrite !val_signed by (apply Hq || apply Hc). destruct word; cbn [negb] in Hn.
  - destruct sgn; [exists (- (Rv64.signed 64 q * Rv64.signed 64 c / 2 ^ 64))|exists (- (q * c / 2 ^ 64))]; (split; [exact Hpl|]);
      [|rewrite Elow]; clear; lia_mod.
  - pose proof (k_mulh _ _ _ _ K) as Kh. pose proof (k_mulhu _ _ _ _ K) as Ku. destruct sgn; cbn in Kh, Ku.
    + destruct (mul_sound MULH _ _ _ q c _ _ _ _ _ _ _ ltac:(cbn; tauto) Hq Hc Hn (reflexivity _) Kh (reflexivity _) Ku (reflexivity _) Hh)
        as (ph' & Eph & Hph). cbn in Eph. injection Eph as <-. rewrite (represents_inj _ _ _ Hu Hph). unfold Rv64.reg.
      eexists. split; [exact Hpl|apply two_halves].
    + destruct (mul_sound MULHU _ _ _ q c _ _ _ _ _ _ _ ltac:(cbn; tauto) Hq Hc Hn (reflexivity _) Kh (reflexivity _) Ku (reflexivity _) Hh)
        as (ph' & Eph & Hph). cbn in Eph. injection Eph as <-. rewrite (represents_inj _ _ _ Hu Hph). unfold Rv64.reg.
      rewrite !unsigned_small by (apply Hq || apply Hc). eexists. split; [exact Hpl|rewrite Elow; apply two_halves].
Qed.

Lemma limb_sum x p r k k' x' p' r' t t' : is_u16 x' -> is_u16 p' -> is_u16 r' -> bit t -> bit t' ->
  x ≐ x' -> p ≐ p' -> r ≐ r' -> k ≐ t -> k' ≐ t' -> x ≐ p + r - k * (1 ≪ 16) + k' -> x' + 65536 * t = p' + r' + t'.
Proof.
  intros Bx Bp Br Bt Bt' Ex Ep Er Ek Ek' E. rewrite Ex, Ep, Er, Ek, Ek' in E. change (1 ≪ 16) with 65536 in E.
  pose proof order_large. apply feq_small in E; unfold fits, bit in *; lia.
Qed.
Lemma carry_bits local i : (i < 8)%nat -> sat (DivRem.range_calls local) -> exists t, bit t /\ nth i (DivRem.carry local) 0 ≐ t.
Proof.
  intros Hi Hs. unfold DivRem.range_calls in Hs. rewrite !sat_app in Hs. destruct Hs as (_ & _ & Hb & _).
  apply (sat_fmap _ _ i) in Hb; [|apply elem_of_seq; unfold DivRem.LONG_WORD_SIZE; lia].
  apply (sat_bool 1); [reflexivity|exact Hb].
Qed.

(** The eight equations of the limbs, as two on words. *)
Lemma sum_value local pl ph r b nr nb : DivRem.lower_half local ∼ pl -> DivRem.upper_half local ∼ ph ->
  DivRem.remainder_comp local ∼ r -> DivRem.b local ∼ b -> bit nr -> bit nb -> DivRem.rem_neg local ≐ nr -> DivRem.b_neg local ≐ nb ->
  DivRem.is_overflow local ≐ 0 -> sat (DivRem.sum_calls local) -> sat (DivRem.range_calls local) ->
  exists k k', pl + r = b + 2 ^ 64 * k /\ ph + nr * (2 ^ 64 - 1) + k = nb * (2 ^ 64 - 1) + 2 ^ 64 * k'.
Proof.
  intros Hl Hu Hr Hb Br Bb En Eb Ho Hs Hc.
  apply represents_elim in Hl as (p0 & p1 & p2 & p3 & P0 & P1 & P2 & P3 & Epl & LP0 & LP1 & LP2 & LP3).
  apply represents_elim in Hu as (p4 & p5 & p6 & p7 & P4 & P5 & P6 & P7 & Eph & LP4 & LP5 & LP6 & LP7).
  apply represents_elim in Hr as (r0 & r1 & r2 & r3 & R0 & R1 & R2 & R3 & Er & LR0 & LR1 & LR2 & LR3).
  apply represents_elim in Hb as (b0 & b1 & b2 & b3 & Q0 & Q1 & Q2 & Q3 & Ebv & LB0 & LB1 & LB2 & LB3).
  assert (Un : is_u16 (nr * 65535)) by (destruct Br as [-> | ->]; unfold fits; lia).
  assert (Ub : is_u16 (nb * 65535)) by (destruct Bb as [-> | ->]; unfold fits; lia).
  assert (Ln : DivRem.rem_neg local * 65535 ≐ nr * 65535) by now rewrite En.
  assert (Lb : DivRem.b_neg local * 65535 ≐ nb * 65535) by now rewrite Eb.
  destruct (carry_bits local 0 ltac:(lia) Hc) as (t0 & T0 & C0), (carry_bits local 1 ltac:(lia) Hc) as (t1 & T1 & C1),
    (carry_bits local 2 ltac:(lia) Hc) as (t2 & T2 & C2), (carry_bits local 3 ltac:(lia) Hc) as (t3 & T3 & C3),
    (carry_bits local 4 ltac:(lia) Hc) as (t4 & T4 & C4), (carry_bits local 5 ltac:(lia) Hc) as (t5 & T5 & C5),
    (carry_bits local 6 ltac:(lia) Hc) as (t6 & T6 & C6), (carry_bits local 7 ltac:(lia) Hc) as (t7 & T7 & C7).
  apply sat_app in Hs as [Hs _]. clear Hc.
  assert (E : forall i, (i < 8)%nat -> (if (i <? 4)%nat then (DivRem.b local).[i] else DivRem.b_neg local * 65535) ≐ DivRem.sum_limb local i).
  { intros i Hi. apply (sat_fmap _ _ i) in Hs; [|apply elem_of_seq; unfold DivRem.LONG_WORD_SIZE; lia].
    apply (when_not_zero _ _ Ho) in Hs. change WORD_SIZE with 4%nat in Hs. destruct (i <? 4)%nat; now apply holds_assert_eq in Hs. }
  assert (Z0 : bit 0) by now left. pose proof (reflexivity 0 : 0 ≐ 0) as L0.
  pose proof (E 0%nat ltac:(lia)) as E0. pose proof (E 1%nat ltac:(lia)) as E1. pose proof (E 2%nat ltac:(lia)) as E2.
  pose proof (E 3%nat ltac:(lia)) as E3. pose proof (E 4%nat ltac:(lia)) as E4. pose proof (E 5%nat ltac:(lia)) as E5.
  pose proof (E 6%nat ltac:(lia)) as E6. pose proof (E 7%nat ltac:(lia)) as E7. clear E Hs.
  unfold DivRem.sum_limb in *. cbn [Nat.ltb Nat.leb Nat.eqb WORD_SIZE Nat.sub] in *. rewrite <- (Z.add_0_r (_ - _)) in E0.
  apply (limb_sum _ _ _ _ _ b0 p0 r0 t0 0) in E0; try assumption. apply (limb_sum _ _ _ _ _ b1 p1 r1 t1 t0) in E1; try assumption.
  apply (limb_sum _ _ _ _ _ b2 p2 r2 t2 t1) in E2; try assumption. apply (limb_sum _ _ _ _ _ b3 p3 r3 t3 t2) in E3; try assumption.
  apply (limb_sum _ _ _ _ _ (nb * 65535) p4 (nr * 65535) t4 t3) in E4; try assumption.
  apply (limb_sum _ _ _ _ _ (nb * 65535) p5 (nr * 65535) t5 t4) in E5; try assumption.
  apply (limb_sum _ _ _ _ _ (nb * 65535) p6 (nr * 65535) t6 t5) in E6; try assumption.
  apply (limb_sum _ _ _ _ _ (nb * 65535) p7 (nr * 65535) t7 t6) in E7; try assumption.
  exists t3, t7. clear - Epl Eph Er Ebv E0 E1 E2 E3 E4 E5 E6 E7. subst. lia.
Qed.

Lemma sum_congruence local (word sgn rm : bool) q c r b : row_kind local word sgn rm -> DivRem.is_real local ≐ 1 ->
  DivRem.is_real_not_word local ≐ from_bool (negb word) -> DivRem.quotient_comp local ∼ q -> DivRem.c local ∼ c ->
  DivRem.remainder_comp local ∼ r -> DivRem.b local ∼ b ->
  DivRem.rem_neg local ≐ from_bool sgn * (r / 2 ^ 63) -> DivRem.b_neg local ≐ from_bool sgn * (b / 2 ^ 63) ->
  DivRem.is_overflow local ≐ 0 -> sat (DivRem.product_calls local) -> sat (DivRem.sum_calls local) -> sat (DivRem.range_calls local) ->
  exists k, val sgn q * val sgn c + val sgn r = val sgn b + (if word then 2 ^ 64 else 2 ^ 128) * k.
Proof.
  intros K Hr Hn Hq Hc Hrc Hb Er Eb Ho Hp Hs Hrange.
  assert (exists ph, DivRem.upper_half local ∼ ph) as [ph Hph].
  { unfold DivRem.range_calls in Hrange. rewrite !sat_app in Hrange. destruct Hrange as (_ & _ & _ & Hq').
    apply (sat_slice_u16 _ _) in Hq' as (l' & Bl & Fl); [|exact Hr]. cbn in Fl.
    decompose_Forall_hyps. eexists. apply represents_intro; [| | | |eassumption..]; assumption. }
  destruct (product_value _ _ _ _ _ _ _ K Hr Hn Hq Hc Hph Hp) as (pl & k & Hpl & Ek).
  assert (Bit : forall v, is_u64 v -> bit (from_bool sgn * (v / 2 ^ 63))).
  { intros v Hv. clear - Hv. unfold bit, fits in *. destruct sgn; cbn [from_bool Z.b2z]; lia_mod. }
  destruct (sum_value _ _ _ _ _ _ _ Hpl Hph Hrc Hb (Bit _ (proj1 Hrc)) (Bit _ (proj1 Hb)) Er Eb Ho Hs Hrange) as (k1 & k2 & E1 & E2).
  set (X := val sgn q * val sgn c) in *. unfold val. clearbody X. set (nr := from_bool sgn * (r / 2 ^ 63)) in *.
  set (nb := from_bool sgn * (b / 2 ^ 63)) in *. clearbody nr nb. clear - Ek E1 E2.
  destruct word; [exists (k1 - k - nr + nb)|exists (k2 - k - nr + nb)]; lia.
Qed.

Lemma range_word w m : sat (slice_range_check_u16 (word_limbs w) m) -> m ≐ 1 -> exists v, w ∼ v.
Proof.
  intros Hs Hm. apply sat_slice_u16 in Hs as (l' & Bl & Fl); [|exact Hm]. destruct w. unfold word_limbs in Fl. cbn in Fl. decompose_Forall_hyps.
  eexists. apply represents_intro; [| | | |cbn; eassumption..]; assumption.
Qed.

Lemma limbs_equal w w' v : (forall i, (i < 4)%nat -> w.[i] ≐ w'.[i]) -> w' ∼ v -> w ∼ v.
Proof.
  intros F. apply represents_feq. apply word_feq_intro. intros i. destruct (decide (i < 4)%nat) as [Hi|Hi]; [now apply F|].
  unfold limb. now rewrite !nth_overflow by (cbn; lia).
Qed.
Lemma limbs_zero w : (forall i, (i < 4)%nat -> w.[i] ≐ 0) -> w ∼ 0.
Proof.
  intros F. apply (limbs_equal _ word_zero); [|apply (represents_from_u64 0); unfold fits; lia]. intros i Hi. rewrite (F i Hi).
  destruct i as [|[|[|[|i]]]]; [reflexivity..|lia].
Qed.

(** The absolute value. *)
Lemma absolute_value (sgn : bool) x v abs o neg event real : x ∼ v -> neg ≐ from_bool sgn * (v / 2 ^ 63) -> real ≐ 1 ->
  event ≐ neg * real -> (forall i, (i < 4)%nat -> sat_call (Assert (when_not neg (AssertEq x.[i] abs.[i])))) ->
  sat (DivRem.negation_calls x abs o event real) -> abs ∼ Z.abs (val sgn v).
Proof.
  intros Hx Hn Hr He Hpos Hs. unfold DivRem.negation_calls in Hs. rewrite !sat_app in Hs. destruct Hs as (Ha & Hrange & Hz).
  pose proof (proj1 Hx) as Hv. assert (D : from_bool sgn * (v / 2 ^ 63) = 0 \/ from_bool sgn * (v / 2 ^ 63) = 1).
  { clear - Hv. unfold fits in *. destruct sgn; cbn [from_bool Z.b2z]; lia_mod. }
  unfold val. destruct D as [D|D]; rewrite D in *.
  - replace (Z.abs (v - 2 ^ 64 * 0)) with v by (unfold fits in Hv; lia). apply (limbs_equal _ x); [|exact Hx].
    intros i Hi. specialize (Hpos i Hi). apply (when_not_zero _ _ Hn), holds_assert_eq in Hpos. now symmetry.
  - destruct (range_word _ _ Hrange Hr) as [w Hw]. rewrite Hn, Hr in He.
    pose proof (add_sound _ _ _ _ _ _ Hx Hw He Ha) as Hsum.
    assert (Hzero : AddOperation.value o ∼ 0).
    { apply (represents_feq _ word_zero); [|apply (represents_from_u64 0); unfold fits; lia].
      pose proof (word_eq_sound _ _ _ He Hz) as F. symmetry. exact F. }
    pose proof (represents_inj _ _ _ Hsum Hzero) as E. pose proof (proj1 Hw) as Hwv.
    replace (Z.abs _) with w; [exact Hw|]. clear - E Hwv Hv D. unfold fits in *. destruct sgn; cbn [from_bool Z.b2z] in D; [|lia].
    unfold_ints. lia_mod.
Qed.

Lemma truncated_value w v : w ∼ v -> DivRem.truncated_word w ∼ u32 v.
Proof.
  intros (x0 & x1 & x2 & x3 & B0 & B1 & B2 & B3 & Ev & L0 & L1 & L2 & L3)%represents_elim.
  replace (u32 v) with (x0 + 2 ^ 16 * x1 + 2 ^ 32 * 0 + 2 ^ 48 * 0)
    by (clear - B0 B1 B2 B3 Ev; subst v; unfold fits in *; unfold_ints; lia_mod).
  apply represents_intro; (assumption || reflexivity || (unfold fits; lia)).
Qed.

Definition overflows (word sgn : bool) (vb vc : Z) : bool :=
  (val sgn (extension word sgn vb) =? minimum word) && (val sgn (extension word sgn vc) =? -1) && sgn.

Lemma overflow_flag local (word sgn rm : bool) vb vc : row_kind local word sgn rm ->
  DivRem.is_real_not_word local ≐ from_bool (negb word) ->
  RTypeReader.b (DivRem.adapter local) ∼ vb -> RTypeReader.c (DivRem.adapter local) ∼ vc -> sat (DivRem.overflow_calls local) ->
  DivRem.is_overflow local ≐ from_bool (overflows word sgn vb vc).
Proof.
  intros K Hn Hb Hc Hs. unfold DivRem.overflow_calls in Hs. rewrite !sat_app, !sat_cons in Hs.
  destruct Hs as (Lb & Lc & Wb & Wc & (Ho & _) & _). apply sat_assert, holds_assert_eq in Ho.
  pose proof (k_word _ _ _ _ K) as Kw. pose proof (k_signed _ _ _ _ K) as Ks.
  assert (R : forall x, is_u64 x -> Word_from_u64 x ∼ x) by exact represents_from_u64.
  assert (E : IsZeroWordOperation.result (IsEqualWordOperation.is_diff_zero (DivRem.is_overflow_b local)) ≐
      from_bool (if word then u32 vb =? 2 ^ 31 else vb =? 2 ^ 63) /\
    IsZeroWordOperation.result (IsEqualWordOperation.is_diff_zero (DivRem.is_overflow_c local)) ≐
      from_bool (if word then u32 vc =? 2 ^ 32 - 1 else vc =? 2 ^ 64 - 1)).
  { destruct word; cbn in Hn, Kw; split;
      [eapply is_equal_word_sound; [apply truncated_value, Hb|apply R; unfold fits; lia|exact Kw|exact Wb]
      |eapply is_equal_word_sound; [apply truncated_value, Hc|apply R; unfold fits; lia|exact Kw|exact Wc]
      |eapply is_equal_word_sound; [exact Hb|apply R; unfold fits; lia|exact Hn|exact Lb]
      |eapply is_equal_word_sound; [exact Hc|apply R; unfold fits; lia|exact Hn|exact Lc]]. }
  destruct E as [Eb Ec]. rewrite Eb, Ec, Ks in Ho. rewrite Ho. unfold overflows. rewrite !from_bool_mul.
  apply feq_exists. exists 0. rewrite Z.mul_0_l, Z.add_0_r. destruct sgn; [|now rewrite !andb_false_r].
  f_equal. f_equal. pose proof (proj1 Hb) as Bb. pose proof (proj1 Hc) as Bc. clear - Bb Bc.
  unfold val, extension, minimum, fits in *. destruct word; cbn [from_bool Z.b2z]; f_equal; apply eq_true_iff_eq; rewrite !Z.eqb_eq;
    unfold_ints; lia_mod.
Qed.

Lemma overflow_values local b : DivRem.is_overflow local ≐ 1 -> DivRem.b local ∼ b -> sat (DivRem.overflow_calls local) ->
  DivRem.quotient local ∼ b /\ DivRem.remainder local ∼ 0.
Proof.
  intros Ho Hb Hs. unfold DivRem.overflow_calls in Hs. rewrite !sat_app in Hs. destruct Hs as (_ & _ & _ & _ & _ & Hs).
  rewrite sat_bind in Hs. split; [apply (limbs_equal _ (DivRem.b local)); [|exact Hb]|apply limbs_zero]; intros i Hi;
    specialize (Hs i (in_range i Hi)); rewrite !sat_cons in Hs; destruct Hs as (Hq & Hr & _).
  - now apply (when_one _ _ Ho), holds_assert_eq in Hq.
  - now apply (when_one _ _ Ho), holds_assert_eq in Hr.
Qed.

Lemma remainder_signs local r nr nb : DivRem.remainder local ∼ r -> bit nr -> bit nb -> DivRem.rem_neg local ≐ nr ->
  DivRem.b_neg local ≐ nb -> sat (DivRem.remainder_sign_calls local) -> (nr = 1 -> nb = 1) /\ (r <> 0 -> nr = 0 -> nb = 0).
Proof.
  intros (x0 & x1 & x2 & x3 & B0 & B1 & B2 & B3 & Ev & L0 & L1 & L2 & L3)%represents_elim Br Bb En Eb Hs.
  unfold DivRem.remainder_sign_calls in Hs. rewrite !sat_cons in Hs. destruct Hs as (Hneg & Hpos & _). pose proof order_large as Ho. split.
  - intros ->. apply (when_one _ _ En), holds_assert_eq in Hneg. rewrite Eb in Hneg. apply feq_small in Hneg; unfold bit in *; lia.
  - intros Hr ->. apply sat_assert, holds_when in Hpos.
    + apply holds_when in Hpos; [apply holds_assert_zero in Hpos; rewrite Eb in Hpos; apply feq_small in Hpos; unfold bit in *; lia|].
      rewrite En. apply one_not_zero.
    + cbn [seq WORD_SIZE foldl]. rewrite L0, L1, L2, L3. intros E. apply feq_small in E; unfold fits in *; lia.
Qed.

Lemma zero_values local c b : DivRem.is_real local ≐ 1 -> DivRem.c local ∼ c -> DivRem.b local ∼ b -> sat (DivRem.zero_calls local) ->
  IsZeroWordOperation.result (DivRem.is_c_0 local) ≐ from_bool (c =? 0) /\
  (c = 0 -> DivRem.quotient local ∼ 2 ^ 64 - 1 /\ DivRem.remainder_comp local ∼ b).
Proof.
  intros Hr Hc Hb Hs. unfold DivRem.zero_calls in Hs. rewrite !sat_app in Hs. destruct Hs as (Hz & Hq & Hm).
  apply is_zero_word_sound in Hz; [|exact Hr]. rewrite (zero_word_value _ _ Hc) in Hz. split; [exact Hz|]. intros ->. cbn in Hz. split.
  - change (2 ^ 64 - 1) with (65535 + 2 ^ 16 * 65535 + 2 ^ 32 * 65535 + 2 ^ 48 * 65535).
    assert (E : forall i, (i < 4)%nat -> (DivRem.quotient local).[i] ≐ 65535).
    { intros i Hi. apply (sat_fmap _ _ i) in Hq; [|exact (in_range i Hi)]. now apply (when_one _ _ Hz), holds_assert_eq in Hq. }
    apply represents_intro; try (unfold fits; lia); apply E; lia.
  - apply (limbs_equal _ (DivRem.b local)); [|exact Hb]. intros i Hi.
    apply (sat_fmap _ _ i) in Hm; [|exact (in_range i Hi)]. now apply (when_one _ _ Hz), holds_assert_eq in Hm.
Qed.

Lemma remainder_small local (sgn : bool) c r : DivRem.is_real local ≐ 1 -> DivRem.c local ∼ c -> DivRem.remainder_comp local ∼ r ->
  DivRem.c_neg local ≐ from_bool sgn * (c / 2 ^ 63) -> DivRem.rem_neg local ≐ from_bool sgn * (r / 2 ^ 63) ->
  IsZeroWordOperation.result (DivRem.is_c_0 local) ≐ 0 -> sat (DivRem.absolute_calls local) ->
  Z.abs (val sgn r) < Z.abs (val sgn c).
Proof.
  intros Hreal Hc Hr Nc Nr Hz Hs. unfold DivRem.absolute_calls in Hs. rewrite !sat_app in Hs.
  destruct Hs as (Hpos & Hac & Har & Hev & Hmax & Hmul & Hlt & Hbit). rewrite sat_bind in Hpos. rewrite !sat_cons in Hev. rewrite sat_cons in Hmul, Hbit.
  destruct Hev as (Ec & Er & _), Hmul as [Hmul _], Hbit as [Hbit _]. apply sat_assert, holds_assert_eq in Ec, Er, Hmul.
  assert (P : forall i, (i < 4)%nat -> sat_call (Assert (when_not (DivRem.c_neg local) (AssertEq (DivRem.c local).[i] (DivRem.abs_c local).[i]))) /\
    sat_call (Assert (when_not (DivRem.rem_neg local) (AssertEq (DivRem.remainder_comp local).[i] (DivRem.abs_remainder local).[i])))).
  { intros i Hi. specialize (Hpos i (in_range i Hi)). rewrite !sat_cons in Hpos. tauto. }
  pose proof (absolute_value sgn _ _ _ _ _ _ _ Hc Nc Hreal Ec (fun i Hi => proj1 (P i Hi)) Hac) as Ac.
  pose proof (absolute_value sgn _ _ _ _ _ _ _ Hr Nr Hreal Er (fun i Hi => proj2 (P i Hi)) Har) as Ar.
  assert (Am : DivRem.max_abs_c_or_1 local ∼ Z.abs (val sgn c)).
  { apply (limbs_equal _ (DivRem.abs_c local)); [|exact Ac]. intros i Hi. apply (sat_fmap _ _ i) in Hmax; [|exact (in_range i Hi)].
    apply sat_assert, holds_assert_eq in Hmax. rewrite Hmax. destruct (i =? 0)%nat; rewrite Hz; apply feq_exists; exists 0; lia. }
  assert (Em : DivRem.remainder_check_multiplicity local ≐ 1) by (rewrite <- Hmul, Hz, Hreal; reflexivity).
  destruct (lt_unsigned_sound _ _ _ _ _ _ Ar Am Em Hlt) as [Hb _]. apply (when_one _ _ Em), holds_assert_eq in Hbit. rewrite Hb in Hbit.
  destruct (_ <? _) eqn:El in Hbit; [now apply Z.ltb_lt|]. cbn in Hbit. now apply one_not_zero in Hbit.
Qed.

Lemma comp_sign (word sgn : bool) r : is_u64 r -> (word = true -> r = u64 (i32 r)) ->
  (if word then r mod 2 ^ 32 / 2 ^ 31 else r / 2 ^ 63) * from_bool sgn = from_bool sgn * (comp word sgn r / 2 ^ 63).
Proof.
  intros Hr Hw. destruct sgn; cbn [from_bool Z.b2z]; [|lia]. unfold comp. rewrite andb_false_r. destruct word; [|lia].
  specialize (Hw eq_refl). clear - Hr Hw. unfold fits in *. unfold_ints. lia_mod.
Qed.

(** The operands of a row and their signs. *)
Lemma row_operands local (word sgn rm : bool) vb vc : row_kind local word sgn rm -> DivRem.is_real_not_word local ≐ from_bool (negb word) ->
  RTypeReader.b (DivRem.adapter local) ∼ vb -> RTypeReader.c (DivRem.adapter local) ∼ vc ->
  sat (DivRem.sign_calls local) -> sat (DivRem.operand_calls local) -> sat (DivRem.msb_calls local) ->
  (DivRem.b local ∼ extension word sgn vb /\ DivRem.b_neg local ≐ from_bool sgn * (extension word sgn vb / 2 ^ 63)) /\
  (DivRem.c local ∼ extension word sgn vc /\ DivRem.c_neg local ≐ from_bool sgn * (extension word sgn vc / 2 ^ 63)).
Proof.
  intros K Hn Hb Hc Hsign Hop Hmsb. unfold DivRem.sign_calls in Hsign. cbn in Hsign. rewrite !sat_cons in Hsign.
  destruct Hsign as (_ & Sb & _ & Sc & _). apply sat_assert, holds_assert_eq in Sb, Sc.
  unfold DivRem.operand_calls in Hop. cbn in Hop. rewrite !sat_cons in Hop.
  destruct Hop as (B0 & C0 & B1 & C1 & B2 & C2 & B3 & C3 & _). apply sat_assert, holds_assert_eq in B0, C0, B1, C1, B2, C2, B3, C3.
  unfold DivRem.msb_calls in Hmsb. rewrite !sat_app in Hmsb. destruct Hmsb as (Mb & Mc & _ & Wb & Wc & _).
  pose proof (k_word _ _ _ _ K) as Kw. pose proof (k_signed _ _ _ _ K) as Ks.
  pose proof (sign_bit word _ _ _ _ _ Hb Hn Kw Mb Wb) as Eb. pose proof (sign_bit word _ _ _ _ _ Hc Hn Kw Mc Wc) as Ec.
  split; eapply operand_value; eassumption.
Qed.

(** The results of a row. *)
Lemma row_results local (word sgn rm : bool) : row_kind local word sgn rm -> DivRem.is_real_not_word local ≐ from_bool (negb word) ->
  DivRem.is_real local ≐ 1 -> sat (DivRem.sign_calls local) -> sat (DivRem.msb_calls local) -> sat (DivRem.range_calls local) ->
  sat (DivRem.comp_calls local (DivRem.quotient local) (DivRem.quotient_comp local) (DivRem.quot_msb local)) ->
  sat (DivRem.comp_calls local (DivRem.remainder local) (DivRem.remainder_comp local) (DivRem.rem_msb local)) ->
  exists q r, DivRem.quotient local ∼ q /\ DivRem.remainder local ∼ r /\ (word = true -> q = u64 (i32 q)) /\
    (word = true -> r = u64 (i32 r)) /\ DivRem.quotient_comp local ∼ comp word sgn q /\ DivRem.remainder_comp local ∼ comp word sgn r /\
    DivRem.rem_neg local ≐ from_bool sgn * (comp word sgn r / 2 ^ 63).
Proof.
  intros K Hn Hreal Hsign Hmsb Hrange Hcq Hcr. unfold DivRem.sign_calls in Hsign. cbn in Hsign. rewrite !sat_cons in Hsign.
  destruct Hsign as (_ & _ & Sr & _). apply sat_assert, holds_assert_eq in Sr.
  unfold DivRem.range_calls in Hrange. rewrite !sat_app in Hrange. destruct Hrange as (Rq & Rr & _).
  destruct (range_word _ _ Rq Hreal) as [q Hq], (range_word _ _ Rr Hreal) as [r Hr]. exists q, r.
  unfold DivRem.msb_calls in Hmsb. rewrite !sat_app in Hmsb. destruct Hmsb as (_ & _ & Mr & _ & _ & Wr & Wq).
  pose proof (k_word _ _ _ _ K) as Kw. pose proof (k_signed _ _ _ _ K) as Ks.
  pose proof (sign_bit word _ _ _ _ _ Hr Hn Kw Mr Wr) as Er.
  assert (Eq : word = true -> U16MSBOperation.msb (DivRem.quot_msb local) ≐ q mod 2 ^ 32 / 2 ^ 31).
  { intros ->. cbn in Kw. apply represents_elim in Hq as (x0 & x1 & x2 & x3 & B0 & B1 & B2 & B3 & Ev & L0 & L1 & L2 & L3).
    transitivity (x1 / 2 ^ 15); [exact (msb_sound _ x1 _ _ L1 B1 Kw Wq)|]. apply feq_exists. exists 0. clear - B0 B1 B2 B3 Ev.
    subst q. unfold fits in *. lia_mod. }
  destruct (comp_value _ _ _ _ _ _ _ _ K Hq Eq Hcq) as [Cq Wq'].
  destruct (comp_value local word sgn rm _ _ _ _ K Hr ltac:(intros ->; exact Er) Hcr) as [Cr Wr'].
  do 6 (split; [assumption|]). rewrite <- Sr, Er, Ks, comp_sign by (assumption || apply Hr). reflexivity.
Qed.

Lemma val_negative sgn v : is_u64 v -> bit (from_bool sgn * (v / 2 ^ 63)) /\ (val sgn v < 0 <-> from_bool sgn * (v / 2 ^ 63) = 1).
Proof. intros Hv. unfold val, bit, fits in *. destruct sgn; cbn [from_bool Z.b2z]; lia_mod. Qed.
Lemma overflows_spec word sgn vb vc : overflows word sgn vb vc = true <->
  sgn = true /\ val sgn (extension word sgn vb) = minimum word /\ val sgn (extension word sgn vc) = -1.
Proof. unfold overflows. rewrite !andb_true_iff, !Z.eqb_eq. tauto. Qed.

(** The constraints give the division of the row. *)
Lemma division_row local (word sgn rm : bool) vb vc : row_kind local word sgn rm -> DivRem.is_real local ≐ 1 ->
  RTypeReader.b (DivRem.adapter local) ∼ vb -> RTypeReader.c (DivRem.adapter local) ∼ vc -> sat (DivRem.division_calls local) ->
  exists q r, DivRem.quotient local ∼ q /\ DivRem.remainder local ∼ r /\ division word sgn vb vc q r.
Proof.
  intros K Hreal Hb0 Hc0 Hs. unfold DivRem.division_calls in Hs. rewrite !sat_app in Hs.
  destruct Hs as (Hsign & Hop & Hcq & Hcr & Hprod & Hover & Hsum & _ & Hrs & Hzero & Habs & Hmsb & Hrange).
  assert (Hn : DivRem.is_real_not_word local ≐ from_bool (negb word)).
  { unfold DivRem.sign_calls in Hsign. apply sat_cons in Hsign as [E _]. apply sat_assert, holds_assert_eq in E.
    pose proof (k_word _ _ _ _ K) as Kw. rewrite Hreal, Kw in E. rewrite E. now destruct word. }
  destruct (row_operands _ _ _ _ _ _ K Hn Hb0 Hc0 Hsign Hop Hmsb) as [[Hb Nb] [Hc Nc]].
  destruct (row_results _ _ _ _ K Hn Hreal Hsign Hmsb Hrange Hcq Hcr) as (q & r & Hq & Hr & Wq & Wr & Hqc & Hrc & Nr).
  pose proof (overflow_flag _ _ _ _ _ _ K Hn Hb0 Hc0 Hover) as Ho. destruct (zero_values _ _ _ Hreal Hc Hb Hzero) as [Ez Vz].
  destruct (val_negative sgn _ (proj1 Hrc)) as [Br Sr], (val_negative sgn _ (proj1 Hb)) as [Bb Sb].
  destruct (remainder_signs _ _ _ _ Hr Br Bb Nr Nb Hrs) as [Sneg Spos].
  exists q, r. do 2 (split; [assumption|]).
  constructor; [apply Hb0|apply Hc0|apply Hq|apply Hr|exact Wq|exact Wr|..].
  - intros Es Eb Ec. rewrite (proj2 (overflows_spec word sgn vb vc)) in Ho by tauto.
    destruct (overflow_values _ _ Ho Hb Hover) as [Oq Or]. split; eapply represents_inj; eassumption.
  - intros Hno. rewrite <- overflows_spec, not_true_iff_false in Hno. rewrite Hno in Ho.
    exact (sum_congruence _ _ _ _ _ _ _ _ K Hreal Hn Hqc Hc Hrc Hb Nr Nb Ho Hprod Hsum Hrange).
  - intros Hneg. apply Sb, Sneg, Sr, Hneg.
  - intros Hr0 Hpos. apply Z.nlt_ge. intros Hneg%Sb. rewrite Spos in Hneg; [lia|exact Hr0|].
    destruct Br as [E|E]; [exact E|]. apply Sr in E. lia.
  - intros Ec. destruct (Vz Ec) as [Eq Er]. split; eapply represents_inj; eassumption.
  - intros Ec. apply (remainder_small local sgn); try assumption. rewrite Ez. now rewrite (proj2 (Z.eqb_neq _ _) Ec).
Qed.

Lemma division_result local (word sgn rm : bool) q r : row_kind local word sgn rm -> DivRem.quotient local ∼ q -> DivRem.remainder local ∼ r ->
  sat (DivRem.result_calls local) -> DivRem.a local ∼ (if rm then r else q).
Proof.
  intros K Hq Hr Hs. unfold DivRem.result_calls in Hs. rewrite sat_bind in Hs.
  destruct rm; (eapply limbs_equal; [|eassumption]); intros i Hi; specialize (Hs i (in_range i Hi)); rewrite !sat_cons in Hs;
    destruct Hs as (Sq & Sr & _).
  - apply (when_one _ _ (k_rem _ _ _ _ K)), holds_assert_eq in Sr. now symmetry.
  - apply (when_one _ _ (k_quot _ _ _ _ K)), holds_assert_eq in Sq. now symmetry.
Qed.

Lemma kind_of_flags local j : (j < 8)%nat ->
  (forall k, (k < 8)%nat -> nth k (DivRem.flags local) 0 ≐ from_bool (k =? j)%nat) ->
  row_kind local (4 <=? j)%nat ((2 <=? j)%nat && (j <=? 5)%nat) (Nat.odd j).
Proof.
  intros Hj Hf. use_flag Hf 0%nat. use_flag Hf 1%nat. use_flag Hf 2%nat. use_flag Hf 3%nat. use_flag Hf 4%nat. use_flag Hf 5%nat.
  use_flag Hf 6%nat. use_flag Hf 7%nat. clear Hf.
  constructor; unfold DivRem.word_operation, DivRem.not_word_operation, DivRem.signed_word_operation, DivRem.unsigned_word_operation,
    DivRem.signed_type; rewrite ?F, ?F0, ?F1, ?F2, ?F3, ?F4, ?F5, ?F6;
    destruct j as [|[|[|[|[|[|[|[|j]]]]]]]]; (reflexivity || lia).
Qed.

Lemma lt_unsigned_quiet b c cols r : quiet (LtOperationUnsigned.eval_lt_unsigned b c cols r).
Proof. unfold LtOperationUnsigned.eval_lt_unsigned. destruct (LtOperationUnsigned.comparison_limbs cols). solve_quiet. Qed.
Lemma absolute_quiet local : quiet (DivRem.absolute_calls local).
Proof. unfold DivRem.absolute_calls. repeat (apply quiet_app; [first [apply lt_unsigned_quiet|solve_quiet]|]). solve_quiet. Qed.
Lemma division_quiet local : quiet (DivRem.division_calls local).
Proof.
  unfold DivRem.division_calls. repeat (apply quiet_app; [first [apply absolute_quiet|solve_quiet]|]). solve_quiet.
Qed.

#[global] Program Instance div_rem_chip : InstructionChip DivRem.t := {
  chip_eval := DivRem.eval;
  chip_row local := reader_row (DivRem.state local) (pc_plus_4 (CPUState.pc (DivRem.state local)))
    (select (DivRem.flags local) Opcode.as_field DivRem.opcodes) (DivRem.a local) (DivRem.adapter local) (DivRem.is_real local) }.
Next Obligation.
  intros local Hs. unfold DivRem.eval in *. open_parts Hs; [apply division_quiet|solve_quiet|]. clear Hs.
  intros i s m' Hr Hop Hpre Hw Eo Hops. destruct (Hops) as (_ & _ & Hb & Hc & _). cbn in Hb, Hc.
  unfold DivRem.flag_calls in Hpre. rewrite sat_app, sat_cons in Hpre. destruct Hpre as (Hbool & Hone & _).
  assert (B : forall x, In x (DivRem.flags local) -> x ≐ 0 \/ x ≐ 1).
  { intros x Hx. apply holds_assert_bool, sat_assert. apply (sat_fmap _ _ x) in Hbool; [exact Hbool|].
    apply list_elem_of_In. cbn in Hx |- *. tauto. }
  apply sat_assert, holds_assert_eq in Hone.
  destruct (selected (DivRem.flags local) DivRem.opcodes (Instruction.opcode i)) as (j & Hj & Ei & Hf);
    [reflexivity|cbn; lia|apply List.Forall_forall; exact B| |exact Eo|].
  { rewrite Hone. apply feq_exists. exists 0. cbn. lia. }
  pose proof (kind_of_flags local j Hj Hf) as K.
  destruct (division_row _ _ _ _ _ _ K Hr Hb Hc Hop) as (q & r & Hq & Hrem & D). apply division_sound in D as [Eq Er].
  unfold DivRem.division_calls in Hop. rewrite !sat_app in Hop. destruct Hop as (_ & _ & _ & _ & _ & _ & _ & Hres & _).
  pose proof (division_result _ _ _ _ _ _ K Hq Hrem Hres) as Ha. rewrite Eq, Er in Ha.
  eapply alu_steps; [exact Hops| |exact Ha]. rewrite Ei, (alu_division (4 <=? j)%nat ((2 <=? j)%nat && (j <=? 5)%nat) (Nat.odd j)).
  - now destruct (Nat.odd j).
  - cbn in Hj. destruct j as [|[|[|[|[|[|[|[|j]]]]]]]]; (reflexivity || lia).
Qed.
End Division.
