(* ===== verification/FetchChips.v ===== *)
(** * FetchChips: instructions of untrusted programs

    [program/instruction_fetch.rs] and [program/instruction_decode.rs] of
    [core/machine].  A row of an instruction chip that runs an untrusted
    program sends its instruction, with the constants of the instruction word,
    on the fetch bus; the fetch chip reads the word from memory and sends it,
    with the instruction, on the decode bus; the decode chip splits the word
    into bits and checks the fields of the instruction against them. *)
From Stdlib Require Import ZArith Lia Bool Permutation.
From stdpp Require Import base numbers option list gmap.
From S2P Require Import Prelude Isa State Air KoalaBear ByteTable WordAir AddOps LtOps BitOps MulOps Bus MemAir Adapters Rows Chips MemChips ShiftChips DivRemChip.
Import Opcode.
#[local] Obligation Tactic := idtac.

(** The number a list of bits stands for, the least significant bit first. *)
Definition reconstruct (bits : list Z) : Z :=
  foldl (fun acc '(i, bit) => acc + (1 ≪ Z.of_nat i) * bit) 0 (imap pair bits).

(** [Word::from_le_bits], for one to 64 bits: the bits in limbs of sixteen, the
    last one extended, and the limbs above. *)
Definition from_le_bits (le_bits : list Z) (sign_extend : bool) : Word :=
  let n := length le_bits in
  let count := ((n + 15) / 16)%nat in
  let sign_bit := List.last le_bits 0 in
  let most_sig_num_bits := (n mod 16)%nat in
  let extend_limb := if sign_extend then 65535 * sign_bit else 0 in
  Word_of_fn (fun i =>
    if (i <? count)%nat then
      let limb := reconstruct (take 16 (drop (16 * i) le_bits)) in
      if sign_extend && (i =? count - 1)%nat && (0 <? most_sig_num_bits)%nat
      then limb + ((1 ≪ 16) - (1 ≪ Z.of_nat most_sig_num_bits)) * sign_bit else limb
    else extend_limb).

(** The constants of the instruction word of an instruction; [None] is an [unreachable!]. *)
Definition word_consts `{InstructionFormats} (op : Opcode.t) (imm_c : bool) : option (Z * Z * Z * Z) :=
  if decide (op = UNIMP) then Some (0, 0, 0, 0) else
  '(ty, ty_imm) ← instruction_type op;
  '(base, base_imm) ← base_opcode op;
  let pick {A} (x : A) (y : option A) : A := match y with Some y => if imm_c then y else x | None => x end in
  Some (InstructionType.as_u32 (pick ty ty_imm), pick base base_imm, default 0 (funct3 op), default 0 (funct7 op)).
Definition instruction_consts `{InstructionFormats} (i : Instruction.t) : option (Z * Z * Z * Z) :=
  word_consts (Instruction.opcode i) (Instruction.imm_c i).

Definition zero_instruction : InstructionCols.t := InstructionCols.mk 0 0 word_zero word_zero 0 0 0.

Module InstructionFetchChip.
Record t := mk {
  clk_high : Z; clk_low : Z; pc : Z * Z * Z; top_two_limb_inv : Z; instruction : InstructionCols.t; instr_type : Z;
  base_opcode : Z; funct3 : Z; funct7 : Z; memory_access : MemoryAccessCols.t; selected_word : Z * Z; offset : Z; is_real : Z }.
Definition zero : t := mk 0 0 (0, 0, 0) 0 zero_instruction 0 0 0 0 zero_memory_access (0, 0) 0 0.

(** [None] is a panic: a failed assertion, the inverse of zero, or no access
    in the record. *)
Definition event_to_row `{PrimeField} `{InstructionFormats} (event : InstructionFetchEvent.t) (record : MemoryAccessRecord.t)
  (memory_access : MemoryAccessCols.t) : option t :=
  let i := InstructionFetchEvent.instruction event in
  '(mem_access, encoded) ← MemoryAccessRecord.untrusted_instruction record;
  check! encoded =? InstructionFetchEvent.encoded_instruction event;
  let pc := InstructionFetchEvent.pc event in
  let limbs := pc_limbs pc in
  let sum_top_two_limb := limbs.1.2 + limbs.2 in
  if decide (sum_top_two_limb ≐ 0) then None else
  '(ty, base, f3, f7) ← instruction_consts i;
  check! bool_decide (Instruction.opcode i = UNIMP) || negb (ty =? 0);
  let offset := (pc / 4) mod 2 in
  let value := u64_to_u16_limbs (MemoryRecord.value (MemoryRecordEnum.current_record mem_access)) in
  encoding_check ← encode i;
  check! InstructionFetchEvent.encoded_instruction event =? encoding_check;
  Some (mk (u32 (InstructionFetchEvent.clk event ≫ 24)) (u32 (Z.land (InstructionFetchEvent.clk event) 0xFFFFFF)) limbs
          (finv sum_top_two_limb) (InstructionCols.populate i) ty base f3 f7 memory_access
          (nth (Z.to_nat (2 * offset)) value 0, nth (Z.to_nat (2 * offset + 1)) value 0) offset 1).

Definition generate_row `{PrimeField} `{InstructionFormats} (event : InstructionFetchEvent.t * MemoryAccessRecord.t) :
  option (t * list ByteLookupEvent) :=
  '(mem_access, encoded) ← MemoryAccessRecord.untrusted_instruction event.2;
  check! encoded =? InstructionFetchEvent.encoded_instruction event.1;
  check! MemoryRecord.timestamp (MemoryRecordEnum.current_record mem_access) =? InstructionFetchEvent.clk event.1;
  '(memory_access, blu) ← MemoryAccessCols.populate mem_access [];
  let limbs := pc_limbs (InstructionFetchEvent.pc event.1) in
  let blu := add_u16_range_checks blu (addr_limbs limbs) in
  row ← event_to_row event.1 event.2 memory_access;
  Some (row, add_bit_range_check blu (u16 (limbs.1.1 - 4 * offset row) / 8) 13).

Definition consts (local : t) : list Z := [instr_type local; base_opcode local; funct3 local; funct7 local].
Definition aligned_addr (local : t) : Z * Z * Z :=
  ((pc local).1.1 - 4 * offset local, (pc local).1.2, (pc local).2).

Definition eval `{PrimeField} (local : t) : list call :=
  let '(pc0, pc1, pc2) := pc local in
  let value := MemoryAccessCols.prev_value (memory_access local) in
  [Assert (AssertBool (is_real local))] ++ slice_range_check_u16 (addr_limbs (pc local)) (is_real local) ++
  [Assert (AssertBool (offset local));
   send_byte (ByteOpcode.as_u8 ByteOpcode.Range) ((pc0 - 4 * offset local) * finv 8) 13 0 (is_real local);
   Assert (AssertEq (top_two_limb_inv local * (pc1 + pc2)) (is_real local))] ++
  eval_memory_access_read (clk_high local) (clk_low local + MemoryAccessPosition.as_u64 MemoryAccessPosition.UntrustedInstruction)
    (aligned_addr local) (memory_access local) (is_real local) ++
  [Assert (when_not (offset local) (AssertEq (selected_word local).1 value.[0]));
   Assert (when_not (offset local) (AssertEq (selected_word local).2 value.[1]));
   Assert (When (offset local) (AssertEq (selected_word local).1 value.[2]));
   Assert (When (offset local) (AssertEq (selected_word local).2 value.[3]));
   receive_instruction_fetch (pc local) (instruction local) (consts local) (clk_high local, clk_low local) (is_real local);
   send_instruction_decode (selected_word local) (instruction local) (consts local) (is_real local);
   send_page_prot (clk_high local) (clk_low local) (aligned_addr local) PROT_EXEC (is_real local)].
End InstructionFetchChip.

Module InstructionDecodeChip.
Record t := mk {
  multiplicity : Z; instruction : InstructionCols.t; instr_type : Z; funct3 : Z; funct7 : Z; is_r_type : Z; is_i_type : Z;
  is_i_type_shamt : Z; is_i_type_shamt_32 : Z; is_j_type : Z; is_b_type : Z; is_s_type : Z; is_u_type : Z;
  is_a_0 : IsZeroOperation.t; encoded_instruction : Z * Z; encoded_instruction_bits : list Z }.
Definition zero : t :=
  mk 0 zero_instruction 0 0 0 0 0 0 0 0 0 0 0 (IsZeroOperation.mk 0 0) (0, 0) (replicate 32 0).

(** The selectors of the formats; all are zero on [UNIMP]. *)
Definition selectors `{InstructionFormats} (unimp : bool) (base f3 : Z) : list Z :=
  let shift := (f3 =? 1) || (f3 =? 5) in
  let is_i := (base =? OPCODE_OP_IMM) || (base =? OPCODE_OP_IMM_32) || (base =? OPCODE_LOAD) || (base =? OPCODE_JALR) in
  let shamt := shift && (base =? OPCODE_OP_IMM) in
  let shamt_32 := negb shamt && (shift && (base =? OPCODE_OP_IMM_32)) in
  (fun b => from_bool (negb unimp && b)) <$>
    [(base =? OPCODE_OP) || (base =? OPCODE_OP_32); is_i && negb shamt && negb shamt_32; is_i && shamt; is_i && shamt_32;
     base =? OPCODE_JAL; base =? OPCODE_BRANCH; base =? OPCODE_STORE; (base =? OPCODE_AUIPC) || (base =? OPCODE_LUI)].

(** [None] is a panic; the chip has no byte lookups. *)
Definition generate_row `{PrimeField} `{InstructionFormats} (event : InstructionDecodeEvent.t) :
  option (t * list ByteLookupEvent) :=
  let i := InstructionDecodeEvent.instruction event in
  let encoded := InstructionDecodeEvent.encoded_instruction event in
  encoding_check ← encode i;
  check! encoded =? encoding_check;
  '(ty, base, f3, f7) ← instruction_consts i;
  let s k := nth k (selectors (bool_decide (Instruction.opcode i = UNIMP)) base f3) 0 in
  Some (mk (InstructionDecodeEvent.multiplicity event) (InstructionCols.populate i) ty f3 f7
          (s 0%nat) (s 1%nat) (s 2%nat) (s 3%nat) (s 4%nat) (s 5%nat) (s 6%nat) (s 7%nat)
          (IsZeroOperation.populate (Instruction.op_a i)).1 (Z.land encoded 0xFFFF, Z.land (encoded ≫ 16) 0xFFFF)
          ((fun k => Z.land (encoded ≫ Z.of_nat k) 1) <$> seq 0 32), []).

Definition is_real (local : t) : Z :=
  is_r_type local + is_i_type local + is_i_type_shamt local + is_i_type_shamt_32 local + is_j_type local + is_b_type local +
  is_s_type local + is_u_type local.

(** The bits from [lo] to [hi - 1]. *)
Definition bits (local : t) (lo hi : nat) : list Z := (fun k => nth k (encoded_instruction_bits local) 0) <$> seq lo (hi - lo).
Definition bit (local : t) (k : nat) : Z := nth k (encoded_instruction_bits local) 0.

Record decoded := mk_decoded {
  d_base_opcode : Z; d_funct3 : Z; d_funct7_rtype : Z; d_funct7_i_type_shamt : Z; d_rd : Z; d_rs1 : Word; d_rs2 : Word }.
Definition decode_instruction (local : t) : list call * decoded :=
  (((fun b => Assert (AssertBool b)) <$> bits local 0 32) ++
   [Assert (AssertEq (encoded_instruction local).1 (reconstruct (bits local 0 16)));
    Assert (AssertEq (encoded_instruction local).2 (reconstruct (bits local 16 32)))],
   mk_decoded (reconstruct (bits local 0 7)) (reconstruct (bits local 12 15)) (reconstruct (bits local 25 32))
     (reconstruct (bits local 26 32) * 2) (reconstruct (bits local 7 12)) (from_le_bits (bits local 15 20) false)
     (from_le_bits (bits local 20 25) false)).

(** The immediates of the formats. *)
Definition imm_i (local : t) : Word := from_le_bits (bits local 20 32) true.
Definition imm_j (local : t) : Word :=
  from_le_bits ([0] ++ bits local 21 31 ++ [bit local 20] ++ bits local 12 20 ++ [bit local 31]) true.
Definition imm_b (local : t) : Word :=
  from_le_bits ([0] ++ bits local 8 12 ++ bits local 25 31 ++ [bit local 7] ++ [bit local 31]) true.
Definition imm_s (local : t) : Word := from_le_bits (bits local 7 12 ++ bits local 25 32) true.
Definition imm_u (local : t) : Word := from_le_bits (replicate 12 0 ++ bits local 12 32) true.

Definition r_type_eval (local : t) (d : decoded) : list call :=
  let i := instruction local in
  when_all (is_r_type local)
    ([AssertEq (funct3 local) (d_funct3 d); AssertEq (funct7 local) (d_funct7_rtype d); AssertEq (InstructionCols.op_a i) (d_rd d)] ++
     assert_word_eq (InstructionCols.op_b i) (d_rs1 d) ++ assert_word_eq (InstructionCols.op_c i) (d_rs2 d) ++
     [AssertZero (InstructionCols.imm_b i); AssertZero (InstructionCols.imm_c i)]).

Definition i_type_eval (local : t) (d : decoded) : list call :=
  let i := instruction local in
  when_all (is_i_type local)
    ([AssertEq (funct3 local) (d_funct3 d); AssertEq (funct7 local) 0; AssertEq (InstructionCols.op_a i) (d_rd d)] ++
     assert_word_eq (InstructionCols.op_b i) (d_rs1 d) ++ assert_word_eq (InstructionCols.op_c i) (imm_i local) ++
     [AssertZero (InstructionCols.imm_b i); AssertOne (InstructionCols.imm_c i)]).

Definition i_type_shamt_eval (local : t) (d : decoded) : list call :=
  let i := instruction local in
  when_all (is_i_type_shamt local)
    ([AssertEq (funct3 local) (d_funct3 d); AssertEq (funct7 local) (d_funct7_i_type_shamt d);
      AssertEq (InstructionCols.op_a i) (d_rd d)] ++
     assert_word_eq (InstructionCols.op_b i) (d_rs1 d) ++
     assert_word_eq (InstructionCols.op_c i) (from_le_bits (bits local 20 26) false) ++
     [AssertZero (InstructionCols.imm_b i); AssertOne (InstructionCols.imm_c i)]).

Definition i_type_shamt_32_eval (local : t) (d : decoded) : list call :=
  let i := instruction local in
  when_all (is_i_type_shamt_32 local)
    ([AssertEq (funct3 local) (d_funct3 d); AssertEq (funct7 local) (d_funct7_i_type_shamt d);
      AssertEq (InstructionCols.op_a i) (d_rd d)] ++
     assert_word_eq (InstructionCols.op_b i) (d_rs1 d) ++
     assert_word_eq (InstructionCols.op_c i) (from_le_bits (bits local 20 25) false) ++
     [AssertZero (bit local 25); AssertZero (InstructionCols.imm_b i); AssertOne (InstructionCols.imm_c i)]).

Definition j_type_eval (local : t) (d : decoded) : list call :=
  let i := instruction local in
  when_all (is_j_type local)
    ([AssertEq (funct3 local) 0; AssertEq (funct7 local) 0; AssertEq (InstructionCols.op_a i) (d_rd d)] ++
     assert_word_eq (InstructionCols.op_b i) (imm_j local) ++ assert_word_zero (InstructionCols.op_c i) ++
     [AssertOne (InstructionCols.imm_b i); AssertOne (InstructionCols.imm_c i)]).

Definition b_type_eval (local : t) (d : decoded) : list call :=
  let i := instruction local in
  when_all (is_b_type local)
    ([AssertEq (funct3 local) (d_funct3 d); AssertEq (funct7 local) 0] ++
     assert_word_eq (extend_expr (InstructionCols.op_a i)) (d_rs1 d) ++ assert_word_eq (InstructionCols.op_b i) (d_rs2 d) ++
     assert_word_eq (InstructionCols.op_c i) (imm_b local) ++
     [AssertZero (InstructionCols.imm_b i); AssertOne (InstructionCols.imm_c i)]).

Definition s_type_eval (local : t) (d : decoded) : list call :=
  let i := instruction local in
  when_all (is_s_type local)
    ([AssertEq (funct3 local) (d_funct3 d); AssertEq (funct7 local) 0] ++
     assert_word_eq (extend_expr (InstructionCols.op_a i)) (d_rs2 d) ++ assert_word_eq (InstructionCols.op_b i) (d_rs1 d) ++
     assert_word_eq (InstructionCols.op_c i) (imm_s local) ++
     [AssertZero (InstructionCols.imm_b i); AssertOne (InstructionCols.imm_c i)]).

Definition u_type_eval (local : t) (d : decoded) : list call :=
  let i := instruction local in
  when_all (is_u_type local)
    ([AssertEq (funct3 local) 0; AssertEq (funct7 local) 0; AssertEq (InstructionCols.op_a i) (d_rd d)] ++
     assert_word_eq (InstructionCols.op_b i) (imm_u local) ++ assert_word_eq (InstructionCols.op_c i) (imm_u local) ++
     [AssertOne (InstructionCols.imm_b i); AssertOne (InstructionCols.imm_c i)]).

Definition type_flags (local : t) : list Z :=
  [is_r_type local; is_i_type local; is_i_type_shamt local; is_i_type_shamt_32 local; is_j_type local; is_b_type local;
   is_s_type local; is_u_type local].
Definition types : list InstructionType.t :=
  [InstructionType.RType; InstructionType.IType; InstructionType.ITypeShamt; InstructionType.ITypeShamt32; InstructionType.JType;
   InstructionType.BType; InstructionType.SType; InstructionType.UType].

Definition consts (local : t) : list Z :=
  [instr_type local; d_base_opcode (decode_instruction local).2; funct3 local; funct7 local].

Definition eval (local : t) : list call :=
  let '(calls, d) := decode_instruction local in
  ((fun x => Assert (AssertBool x)) <$> type_flags local) ++
  [Assert (AssertBool (is_real local));
   Assert (AssertEq (instr_type local)
     (foldl Z.add 0 (zip_with (fun flag ty => flag * InstructionType.as_u32 ty) (type_flags local) types)))] ++
  calls ++ r_type_eval local d ++ i_type_eval local d ++ i_type_shamt_eval local d ++ i_type_shamt_32_eval local d ++
  j_type_eval local d ++ b_type_eval local d ++ s_type_eval local d ++ u_type_eval local d ++
  IsZeroOperation.eval_is_zero (InstructionCols.op_a (instruction local)) (is_a_0 local) (is_real local) ++
  [Assert (When (is_real local) (AssertEq (IsZeroOperation.result (is_a_0 local)) (InstructionCols.op_a_0 (instruction local))));
   Assert (when_not (is_real local) (AssertZero (multiplicity local)));
   receive_instruction_decode (encoded_instruction local) (instruction local) (consts local) (multiplicity local)].
End InstructionDecodeChip.

(** ** Numbers from bits *)

Definition value (bs : list Z) : Z := foldr (fun b acc => b + 2 * acc) 0 bs.

Lemma value_app bs cs : value (bs ++ cs) = value bs + 2 ^ Z.of_nat (length bs) * value cs.
Proof.
  induction bs as [|b bs IH]; [change (value cs = 0 + 1 * value cs); lia|]. cbn [app value foldr length].
  fold (value (bs ++ cs)) (value bs). rewrite IH, Nat2Z.inj_succ, Z.pow_succ_r by lia. lia.
Qed.
Lemma reconstruct_value l : reconstruct l = value l.
Proof.
  unfold reconstruct. assert (G : forall k acc, foldl (fun acc '(i, bit) => acc + (1 ≪ Z.of_nat i) * bit) acc (imap (fun n b => ((k + n)%nat, b)) l) =
    acc + 2 ^ Z.of_nat k * value l); [|etransitivity; [exact (G 0%nat 0)|]; change (2 ^ Z.of_nat 0) with 1; lia].
  induction l as [|b l IH]; intros k acc; [cbn; lia|]. cbn [imap foldl]. rewrite Nat.add_0_r.
  rewrite (imap_ext _ (fun n b => ((S k + n)%nat, b))) by (intros; cbn; f_equal; lia).
  rewrite IH, Z.shiftl_1_l, Nat2Z.inj_succ, Z.pow_succ_r by lia. cbn [value foldr]. fold (value l). lia.
Qed.
Lemma value_bound bs : Forall bit bs -> 0 <= value bs < 2 ^ Z.of_nat (length bs).
Proof.
  induction 1 as [|b bs Hb _ IH]; [cbn; lia|]. cbn [length value foldr]. fold (value bs). rewrite Nat2Z.inj_succ, Z.pow_succ_r by lia.
  unfold bit in Hb. lia.
Qed.
(** A field of a word is the number of its bits. *)
Lemma field_value bs lo n : Forall bit bs -> (lo + n <= length bs)%nat ->
  Manual.bits (value bs) (Z.of_nat lo) (Z.of_nat n) = value (take n (drop lo bs)).
Proof.
  intros Hb Hl. unfold Manual.bits. rewrite <- (take_drop lo bs) at 1. rewrite value_app, length_take, Nat.min_l by lia.
  rewrite <- (take_drop n (drop lo bs)) at 1. rewrite value_app, length_take, length_drop, Nat.min_l by lia.
  pose proof (value_bound (take lo bs) (Forall_take _ lo _ Hb)) as B1.
  pose proof (value_bound (take n (drop lo bs)) (Forall_take _ n _ (Forall_drop _ lo _ Hb))) as B2.
  rewrite length_take, Nat.min_l in B1 by lia. rewrite length_take, length_drop, Nat.min_l in B2 by lia.
  rewrite Z.add_comm, Z.mul_comm, Z.div_add_l by lia. rewrite (Z.div_small _ _ B1), Z.add_0_r.
  rewrite (Z.mul_comm (2 ^ Z.of_nat n)), Z_mod_plus_full. apply Z.mod_small, B2.
Qed.

Section Decode.
Context `{AirBuilder} `{InstructionFormats}.

Lemma value_feq l bs : Forall2 feq l bs -> value l ≐ value bs.
Proof. induction 1 as [|x b l bs E _ IH]; [reflexivity|]. cbn [value foldr]. fold (value l) (value bs). now rewrite E, IH. Qed.
Lemma last_bit bs : Forall bit bs -> bs <> [] -> List.last bs 0 = value bs / 2 ^ (Z.of_nat (length bs) - 1).
Proof.
  intros Hb Hn. destruct (exists_last Hn) as (l & x & ->). rewrite last_last, value_app, length_app. apply Forall_app in Hb as [Hb _].
  cbn [length]. replace (Z.of_nat (length l + 1) - 1) with (Z.of_nat (length l)) by lia.
  rewrite Z.mul_comm, Z.div_add, (Z.div_small _ _ (value_bound l Hb)) by lia. cbn. lia.
Qed.
Lemma last_feq l bs : Forall2 feq l bs -> List.last l 0 ≐ List.last bs 0.
Proof.
  induction 1 as [|x b l bs E F IH]; [reflexivity|]. destruct F; [exact E|]. exact IH.
Qed.

(** The sign bit of a number of [n] bits, and its extension. *)
Lemma sign_cases n v : 1 <= n -> 0 <= v < 2 ^ n ->
  (v / 2 ^ (n - 1) = 0 /\ sext n v = v /\ v < 2 ^ (n - 1)) \/ (v / 2 ^ (n - 1) = 1 /\ sext n v = v - 2 ^ n /\ 2 ^ (n - 1) <= v).
Proof.
  intros Hn Hv. unfold sext. assert (Hp : 2 ^ n = 2 * 2 ^ (n - 1)) by (rewrite <- Z.pow_succ_r by lia; f_equal; lia). rewrite Hp in *.
  pose proof (Z.pow_pos_nonneg 2 (n - 1) ltac:(lia) ltac:(lia)) as Hpos. set (P := 2 ^ (n - 1)) in *. clearbody P.
  destruct (Z.lt_ge_cases v P) as [L|L]; [left|right].
  - rewrite Z.div_small, Z.mod_small by lia. lia.
  - rewrite <- (Z.div_unique v P 1 (v - P)), <- (Z.mod_unique (v + P) (2 * P) 1 (v - P)) by lia. lia.
Qed.

Lemma from_le_bits_short l bs (sgn : bool) : Forall2 feq l bs -> Forall bit bs -> (1 <= length bs < 16)%nat ->
  from_le_bits l sgn ∼ u64 (if sgn then sext (Z.of_nat (length bs)) (value bs) else value bs).
Proof.
  intros F Hb Hl. pose proof (Forall2_length _ _ _ F) as El. pose proof (value_bound bs Hb) as Bv.
  pose proof (last_feq _ _ F) as Es. rewrite (last_bit bs Hb) in Es by (destruct bs; [cbn in Hl; lia|done]).
  pose proof (value_feq _ _ F) as Ev. pose proof (sign_cases (Z.of_nat (length bs)) (value bs) ltac:(lia) Bv) as Hs.
  assert (Hp : 2 ^ Z.of_nat (length bs) <= 2 ^ 15) by (apply Z.pow_le_mono_r; lia).
  set (s := value bs / 2 ^ (Z.of_nat (length bs) - 1)) in *. set (k := if sgn then s else 0).
  assert (Hk : u64 (if sgn then sext (Z.of_nat (length bs)) (value bs) else value bs) =
    (value bs + (2 ^ 16 - 2 ^ Z.of_nat (length bs)) * k) + 2 ^ 16 * (65535 * k) + 2 ^ 32 * (65535 * k) + 2 ^ 48 * (65535 * k)).
  { subst k. unfold u64, wrap. clear - Hs Bv Hp. clearbody s. destruct sgn; [destruct Hs as [(-> & -> & _)|(-> & -> & _)]|].
    - rewrite Z.mod_small; lia.
    - rewrite <- (Z.mod_unique _ (2 ^ 64) (-1) (value bs - 2 ^ Z.of_nat (length bs) + 2 ^ 64)); lia.
    - rewrite Z.mod_small; lia. }
  assert (Bk : bit k) by (subst k; unfold bit; clearbody s; destruct sgn; [destruct Hs as [(-> & _)|(-> & _)]|]; lia). rewrite Hk.
  assert (Hc : ((length l + 15) / 16 = 1)%nat) by (rewrite El; symmetry; apply (Nat.div_unique _ _ _ (length bs - 1)); lia).
  assert (Hm : (length l mod 16 = length bs)%nat) by (rewrite El; apply Nat.mod_small; lia).
  assert (Et : take 16 (drop (16 * 0) l) = l) by (rewrite Nat.mul_0_r, drop_0, take_ge by lia; done).
  assert (Ek : forall x, (if sgn then 65535 * List.last l 0 else 0) ≐ x <-> 65535 * k ≐ x).
  { intros x. subst k. destruct sgn; [|done]. now rewrite Es. }
  apply represents_intro; try (destruct Bk as [-> | ->]; unfold fits; lia).
  - unfold from_le_bits. rewrite Hc, Hm. change ((Word_of_fn ?f).[0]) with (f 0%nat). cbv beta. change (0 <? 1)%nat with true. change (0 =? 1 - 1)%nat with true.
    rewrite Et, reconstruct_value. replace (0 <? length bs)%nat with true by (symmetry; apply Nat.ltb_lt; lia). rewrite ?andb_true_r. subst k.
    change (1 ≪ 16) with (2 ^ 16). rewrite Z.shiftl_1_l. destruct sgn; [now rewrite Ev, Es|]. rewrite Ev. apply feq_exists. exists 0. lia.
  - unfold from_le_bits. rewrite Hc. change ((Word_of_fn ?f).[1]) with (f 1%nat). cbn [Nat.ltb Nat.leb]. now apply Ek.
  - unfold from_le_bits. rewrite Hc. change ((Word_of_fn ?f).[2]) with (f 2%nat). cbn [Nat.ltb Nat.leb]. now apply Ek.
  - unfold from_le_bits. rewrite Hc. change ((Word_of_fn ?f).[3]) with (f 3%nat). cbn [Nat.ltb Nat.leb]. now apply Ek.
Qed.

Lemma from_le_bits_long l bs : Forall2 feq l bs -> Forall bit bs -> (16 < length bs <= 32)%nat ->
  from_le_bits l true ∼ u64 (sext (Z.of_nat (length bs)) (value bs)).
Proof.
  intros F Hb Hl. pose proof (Forall2_length _ _ _ F) as El. pose proof (value_bound bs Hb) as Bv.
  pose proof (last_feq _ _ F) as Es. rewrite (last_bit bs Hb) in Es by (destruct bs; [cbn in Hl; lia|done]).
  pose proof (sign_cases (Z.of_nat (length bs)) (value bs) ltac:(lia) Bv) as Hs.
  set (s := value bs / 2 ^ (Z.of_nat (length bs) - 1)) in *.
  pose proof (value_feq _ _ (Forall2_take _ _ _ 16 F)) as E0. pose proof (value_feq _ _ (Forall2_drop _ _ _ 16 F)) as E1.
  pose proof (value_bound _ (Forall_take _ 16 _ Hb)) as B0. pose proof (value_bound _ (Forall_drop _ 16 _ Hb)) as B1.
  assert (Ev : value bs = value (take 16 bs) + 2 ^ 16 * value (drop 16 bs)).
  { rewrite <- (take_drop 16 bs) at 1. rewrite value_app, length_take, Nat.min_l by lia. reflexivity. }
  rewrite length_take, Nat.min_l in B0 by lia. rewrite length_drop in B1. change (Z.of_nat 16) with 16 in B0.
  assert (Hp : 2 ^ Z.of_nat (length bs) = 2 ^ 16 * 2 ^ Z.of_nat (length bs - 16)) by (rewrite <- Z.pow_add_r by lia; f_equal; lia).
  assert (Hp' : 2 ^ Z.of_nat (length bs - 16) <= 2 ^ 16) by (apply Z.pow_le_mono_r; lia).
  set (P := 2 ^ Z.of_nat (length bs - 16)) in *.
  assert (Hk : u64 (sext (Z.of_nat (length bs)) (value bs)) = value (take 16 bs) + 2 ^ 16 * (value (drop 16 bs) + (2 ^ 16 - P) * s) +
    2 ^ 32 * (65535 * s) + 2 ^ 48 * (65535 * s)).
  { unfold u64, wrap. clear - Hs Bv Hp Hp' Ev B0 B1. clearbody s P. destruct Hs as [(-> & -> & _)|(-> & -> & _)].
    - rewrite Z.mod_small; lia.
    - rewrite <- (Z.mod_unique _ (2 ^ 64) (-1) (value bs - 2 ^ Z.of_nat (length bs) + 2 ^ 64)); lia. }
  assert (Bs : bit s) by (unfold bit; clearbody s; destruct Hs as [(-> & _)|(-> & _)]; lia). rewrite Hk.
  assert (Hc : ((length l + 15) / 16 = 2)%nat) by (rewrite El; symmetry; apply (Nat.div_unique _ _ _ (length bs - 17)); lia).
  unfold from_le_bits. rewrite Hc. apply represents_intro; try (destruct Bs as [-> | ->]; unfold fits; lia).
  - change ((Word_of_fn ?f).[0]) with (f 0%nat). cbv beta. change (0 <? 2)%nat with true. change (0 =? 2 - 1)%nat with false.
    cbn [andb]. now rewrite Nat.mul_0_r, drop_0, reconstruct_value.
  - change ((Word_of_fn ?f).[1]) with (f 1%nat). cbv beta. change (1 <? 2)%nat with true. change (1 =? 2 - 1)%nat with true.
    cbn [andb]. rewrite Nat.mul_1_r, take_ge, reconstruct_value by (rewrite length_drop; lia). rewrite El.
    destruct (decide (length bs = 32)%nat) as [E32|N].
    + rewrite E32. cbn. rewrite E1. apply feq_exists. exists 0. subst P. rewrite E32. cbn. lia.
    + assert (Em : (length bs mod 16 = length bs - 16)%nat) by (symmetry; apply (Nat.mod_unique _ _ 1); lia).
      rewrite Em. destruct (Nat.ltb_spec 0 (length bs - 16)); [|lia]. change (1 ≪ 16) with (2 ^ 16).
      rewrite E1, Es, (Z.shiftl_1_l (Z.of_nat (length bs - 16))). reflexivity.
  - change (65535 * List.last l 0 ≐ 65535 * s). now rewrite Es.
  - change (65535 * List.last l 0 ≐ 65535 * s). now rewrite Es.
Qed.

(** The bits of a row are those of a word. *)
Definition decodes (local : InstructionDecodeChip.t) (bs : list Z) : Prop :=
  Forall2 feq (InstructionDecodeChip.bits local 0 32) bs /\ Forall bit bs.

Lemma bits_slice local lo hi : (lo <= hi <= 32)%nat ->
  InstructionDecodeChip.bits local lo hi = take (hi - lo) (drop lo (InstructionDecodeChip.bits local 0 32)).
Proof.
  intros Hl. unfold InstructionDecodeChip.bits. rewrite <- fmap_drop, <- fmap_take. f_equal. rewrite drop_seq, take_seq. f_equal. lia.
Qed.
Lemma slice_feq local bs lo hi : decodes local bs -> (lo <= hi <= 32)%nat ->
  Forall2 feq (InstructionDecodeChip.bits local lo hi) (take (hi - lo) (drop lo bs)) /\
  Forall bit (take (hi - lo) (drop lo bs)) /\ length (take (hi - lo) (drop lo bs)) = (hi - lo)%nat.
Proof.
  intros [F Hb] Hl. pose proof (Forall2_length _ _ _ F) as El. unfold InstructionDecodeChip.bits in El. rewrite length_fmap, length_seq in El.
  rewrite bits_slice by assumption. split; [|split].
  - now apply Forall2_take, Forall2_drop.
  - now apply Forall_take, Forall_drop.
  - rewrite length_take, length_drop. lia.
Qed.
Lemma length_bits local bs : decodes local bs -> length bs = 32%nat.
Proof. intros [F _]. apply Forall2_length in F. unfold InstructionDecodeChip.bits in F. now rewrite length_fmap, length_seq in F. Qed.
Lemma field_sound local bs lo hi : decodes local bs -> (lo <= hi <= 32)%nat ->
  reconstruct (InstructionDecodeChip.bits local lo hi) ≐ Manual.bits (value bs) (Z.of_nat lo) (Z.of_nat (hi - lo)).
Proof.
  intros D Hl. destruct (slice_feq _ _ _ _ D Hl) as (F & _ & _). rewrite reconstruct_value, field_value; [now apply value_feq|apply D|].
  apply length_bits in D. lia.
Qed.
Lemma field_word local bs lo hi : decodes local bs -> (lo < hi <= 32)%nat -> (hi - lo < 16)%nat ->
  from_le_bits (InstructionDecodeChip.bits local lo hi) false ∼ Manual.bits (value bs) (Z.of_nat lo) (Z.of_nat (hi - lo)).
Proof.
  intros D Hl Hn. destruct (slice_feq local bs lo hi D ltac:(lia)) as (F & Hb & El).
  pose proof (from_le_bits_short _ _ false F Hb ltac:(lia)) as Hw. cbn in Hw. rewrite field_value; [|apply D|].
  - replace (value _) with (u64 (value (take (hi - lo) (drop lo bs)))); [exact Hw|]. apply Z.mod_small.
    pose proof (value_bound _ Hb) as B. rewrite El in B. pose proof (Z.pow_le_mono_r 2 (Z.of_nat (hi - lo)) 64). lia.
  - apply length_bits in D. lia.
Qed.

Lemma decode_bits local : sat (InstructionDecodeChip.decode_instruction local).1 ->
  exists bs, decodes local bs /\ is_u32 (value bs) /\ (InstructionDecodeChip.encoded_instruction local).1 ≐ value bs mod 2 ^ 16 /\
    (InstructionDecodeChip.encoded_instruction local).2 ≐ value bs / 2 ^ 16.
Proof.
  intros Hs. unfold InstructionDecodeChip.decode_instruction in Hs. cbn [fst] in Hs. rewrite sat_app, !sat_cons in Hs.
  destruct Hs as (Hb & E1 & E2 & _). apply sat_assert, holds_assert_eq in E1, E2.
  assert (D : exists bs, decodes local bs).
  { clear E1 E2. unfold decodes. induction (InstructionDecodeChip.bits local 0 32) as [|x l IH]; [exists []; done|].
    apply sat_cons in Hb as [Hx Hb]. destruct (IH Hb) as (bs & F & B). apply (sat_bool 1) in Hx as (b & Hb' & Eb); [|reflexivity].
    exists (b :: bs). split; constructor; assumption. }
  destruct D as [bs D]. exists bs. pose proof (field_sound local bs 0 16 D ltac:(lia) : _ ≐ Manual.bits (value bs) 0 16) as F1.
  pose proof (field_sound local bs 16 32 D ltac:(lia) : _ ≐ Manual.bits (value bs) 16 16) as F2. split; [exact D|].
  assert (Bv : is_u32 (value bs)).
  { destruct D as [F Hb']. pose proof (value_bound bs Hb') as B. apply Forall2_length in F. unfold InstructionDecodeChip.bits in F.
    rewrite length_fmap, length_seq in F. change (32 - 0)%nat with 32%nat in F. rewrite <- F in B. exact B. }
  split; [exact Bv|]. rewrite E1, E2, F1, F2. unfold Manual.bits, fits in *. split; apply feq_exists; exists 0; clear - Bv; lia_mod.
Qed.

(** The immediates, piece by piece. *)
Definition reads (l bs : list Z) (n : nat) (v : Z) : Prop :=
  Forall2 feq l bs /\ Forall bit bs /\ length bs = n /\ value bs = v.
Lemma reads_app l bs n v l' bs' n' v' : reads l bs n v -> reads l' bs' n' v' ->
  reads (l ++ l') (bs ++ bs') (n + n') (v + 2 ^ Z.of_nat n * v').
Proof.
  intros (F & B & L & V) (F' & B' & L' & V'). split; [now apply Forall2_app|]. split; [now apply Forall_app|].
  rewrite length_app, value_app. subst. auto.
Qed.
Lemma reads_zero n : reads (replicate n 0) (replicate n 0) n 0.
Proof.
  split; [now apply Forall2_replicate|]. split; [apply Forall_replicate; now left|]. split; [apply length_replicate|].
  induction n as [|n IH]; [done|]. cbn [replicate value foldr]. fold (value (replicate n 0)). now rewrite IH.
Qed.
Lemma reads_field local bs lo hi : decodes local bs -> (lo <= hi <= 32)%nat ->
  reads (InstructionDecodeChip.bits local lo hi) (take (hi - lo) (drop lo bs)) (hi - lo)
    (Manual.bits (value bs) (Z.of_nat lo) (Z.of_nat (hi - lo))).
Proof.
  intros D Hl. destruct (slice_feq local bs lo hi D Hl) as (F & B & L). do 3 (split; [assumption|]). rewrite field_value; [done|apply D|].
  apply length_bits in D. lia.
Qed.
Lemma reads_short l bs n v : reads l bs n v -> (1 <= n < 16)%nat -> from_le_bits l true ∼ u64 (sext (Z.of_nat n) v).
Proof. intros (F & B & <- & <-) Hn. exact (from_le_bits_short l bs true F B Hn). Qed.
Lemma reads_long l bs n v : reads l bs n v -> (16 < n <= 32)%nat -> from_le_bits l true ∼ u64 (sext (Z.of_nat n) v).
Proof. intros (F & B & <- & <-) Hn. now apply (from_le_bits_long l bs). Qed.

Ltac immediate R := refine (eq_rect _ (fun x => _ ∼ u64 (sext _ x)) R _ _);
  repeat match goal with |- context [Z.of_nat ?n] => let v := eval vm_compute in (Z.of_nat n) in change (Z.of_nat n) with v end; lia.
Lemma imm_i_sound local bs : decodes local bs -> InstructionDecodeChip.imm_i local ∼ u64 (Manual.imm_i (value bs)).
Proof. intros D. exact (reads_short _ _ _ _ (reads_field _ _ 20 32 D ltac:(lia)) ltac:(lia)). Qed.
Lemma imm_s_sound local bs : decodes local bs -> InstructionDecodeChip.imm_s local ∼ u64 (Manual.imm_s (value bs)).
Proof.
  intros D. pose proof (reads_short _ _ _ _ (reads_app _ _ _ _ _ _ _ _ (reads_field _ _ 7 12 D ltac:(lia)) (reads_field _ _ 25 32 D ltac:(lia)))
    ltac:(lia)) as R. immediate R.
Qed.
Lemma imm_b_sound local bs : decodes local bs -> InstructionDecodeChip.imm_b local ∼ u64 (Manual.imm_b (value bs)).
Proof.
  intros D. pose proof (reads_short _ _ _ _ (reads_app _ _ _ _ _ _ _ _ (reads_zero 1) (reads_app _ _ _ _ _ _ _ _ (reads_field _ _ 8 12 D ltac:(lia))
    (reads_app _ _ _ _ _ _ _ _ (reads_field _ _ 25 31 D ltac:(lia)) (reads_app _ _ _ _ _ _ _ _ (reads_field _ _ 7 8 D ltac:(lia))
      (reads_field _ _ 31 32 D ltac:(lia)))))) ltac:(lia)) as R. immediate R.
Qed.
Lemma imm_j_sound local bs : decodes local bs -> InstructionDecodeChip.imm_j local ∼ u64 (Manual.imm_j (value bs)).
Proof.
  intros D. pose proof (reads_long _ _ _ _ (reads_app _ _ _ _ _ _ _ _ (reads_zero 1) (reads_app _ _ _ _ _ _ _ _ (reads_field _ _ 21 31 D ltac:(lia))
    (reads_app _ _ _ _ _ _ _ _ (reads_field _ _ 20 21 D ltac:(lia)) (reads_app _ _ _ _ _ _ _ _ (reads_field _ _ 12 20 D ltac:(lia))
      (reads_field _ _ 31 32 D ltac:(lia)))))) ltac:(lia)) as R. immediate R.
Qed.
Lemma imm_u_sound local bs : decodes local bs -> InstructionDecodeChip.imm_u local ∼ Manual.imm_u (value bs).
Proof.
  intros D. pose proof (reads_long _ _ _ _ (reads_app _ _ _ _ _ _ _ _ (reads_zero 12) (reads_field _ _ 12 32 D ltac:(lia))) ltac:(lia)) as R.
  immediate R.
Qed.

(** The instruction the columns of a row stand for. *)
Record columns (c : InstructionCols.t) (i : Instruction.t) : Prop := {
  col_a : InstructionCols.op_a c ≐ Instruction.op_a i;
  col_b : InstructionCols.op_b c ∼ Instruction.op_b i;
  col_c : InstructionCols.op_c c ∼ Instruction.op_c i;
  col_imm_b : InstructionCols.imm_b c ≐ from_bool (Instruction.imm_b i);
  col_imm_c : InstructionCols.imm_c c ≐ from_bool (Instruction.imm_c i) }.

Lemma when_all_holds c ks : sat (when_all c ks) -> c ≐ 1 -> Forall holds ks.
Proof.
  intros Hs Hc. unfold when_all in Hs. induction ks as [|k ks IH]; [constructor|]. cbn [map] in Hs. apply sat_cons in Hs as [Hk Hs].
  constructor; [exact (when_one _ _ Hc Hk)|exact (IH Hs)].
Qed.
Lemma word_eq_holds w w' : Forall holds (assert_word_eq w w') -> Forall2 feq (word_limbs w) (word_limbs w').
Proof.
  intros Hk. apply word_feq_intro. unfold assert_word_eq in Hk. intros k. destruct w, w'. cbn in Hk. rewrite !Forall_cons in Hk.
  destruct Hk as (K0 & K1 & K2 & K3 & _). apply holds_assert_eq in K0, K1, K2, K3. destruct k as [|[|[|[|k]]]]; try assumption. now destruct k.
Qed.
Lemma word_eq_value w w' v : Forall holds (assert_word_eq w w') -> w' ∼ v -> w ∼ v.
Proof. intros Hk Hw'. now apply (represents_feq w w'); [apply word_eq_holds|]. Qed.
Lemma imm_value x b (c : bool) : x ≐ from_bool b -> x ≐ from_bool c -> b = c.
Proof. intros E1 E2. rewrite E1 in E2. pose proof order_large. apply feq_small in E2; destruct b, c; cbn in *; (done || lia). Qed.
Lemma small_value x a b : x ≐ a -> x ≐ b -> fits 30 a -> fits 30 b -> a = b.
Proof. intros Ea Eb Ba Bb. rewrite Ea in Eb. pose proof order_large. unfold fits in *. apply feq_small in Eb; lia. Qed.
Lemma bits_fit w lo n : 0 <= n <= 30 -> fits 30 (Manual.bits w lo n).
Proof. intros Hn. pose proof (bits_range w lo n). pose proof (Z.pow_le_mono_r 2 n 30). unfold fits. lia. Qed.
Lemma register_u8 w lo : u8 (Manual.bits w lo 5) = Manual.bits w lo 5.
Proof. pose proof (bits_range w lo 5). apply Z.mod_small. lia. Qed.

Context (local : InstructionDecodeChip.t) (bs : list Z) (D : decodes local bs).
Notation d := (InstructionDecodeChip.decode_instruction local).2.
Notation ins := (InstructionDecodeChip.instruction local).
Notation w := (value bs).

Lemma rd_value : InstructionCols.op_a ins ≐ InstructionDecodeChip.d_rd d -> InstructionCols.op_a ins ≐ u8 (Manual.rd w).
Proof. intros E. unfold Manual.rd. rewrite register_u8, E. exact (field_sound local bs 7 12 D ltac:(lia)). Qed.
Lemma rs1_word : InstructionDecodeChip.d_rs1 d ∼ Manual.rs1 w.
Proof. exact (field_word local bs 15 20 D ltac:(lia) ltac:(lia)). Qed.
Lemma rs2_word : InstructionDecodeChip.d_rs2 d ∼ Manual.rs2 w.
Proof. exact (field_word local bs 20 25 D ltac:(lia) ltac:(lia)). Qed.

(** The formats: the columns are those of the instruction with the fields of the word. *)
Ltac open_format Hs Hf := apply (when_all_holds _ _) in Hs; [|exact Hf]; cbv zeta in Hs; rewrite ?Forall_app, ?Forall_cons in Hs.
Ltac field_eq E lo hi := rewrite E; exact (field_sound local bs lo hi D ltac:(lia)).

Lemma r_format op : InstructionDecodeChip.is_r_type local ≐ 1 -> sat (InstructionDecodeChip.r_type_eval local d) ->
  columns ins (Instruction.from_r_type op (mkR (Manual.rs2 w) (Manual.rs1 w) (Manual.rd w))) /\
  InstructionDecodeChip.funct3 local ≐ Manual.bits w 12 3 /\ InstructionDecodeChip.funct7 local ≐ Manual.bits w 25 7.
Proof.
  intros Hf Hs. unfold InstructionDecodeChip.r_type_eval in Hs. open_format Hs Hf.
  destruct Hs as ((F3 & F7 & A & _) & B & Cc & (Ib & Ic & _)). apply holds_assert_eq in F3, F7, A. apply holds_assert_zero in Ib, Ic.
  split; [|split; [field_eq F3 12%nat 15%nat|field_eq F7 25%nat 32%nat]].
  constructor; [exact (rd_value A)|exact (word_eq_value _ _ _ B rs1_word)|exact (word_eq_value _ _ _ Cc rs2_word)|exact Ib|exact Ic].
Qed.
Lemma i_format op : InstructionDecodeChip.is_i_type local ≐ 1 -> sat (InstructionDecodeChip.i_type_eval local d) ->
  columns ins (Instruction.from_i_type op (mkI (Manual.imm_i w) (Manual.rs1 w) (Manual.rd w))) /\
  InstructionDecodeChip.funct3 local ≐ Manual.bits w 12 3.
Proof.
  intros Hf Hs. unfold InstructionDecodeChip.i_type_eval in Hs. open_format Hs Hf.
  destruct Hs as ((F3 & F7 & A & _) & B & Cc & (Ib & Ic & _)). apply holds_assert_eq in F3, A, Ic. apply holds_assert_zero in Ib.
  split; [|field_eq F3 12%nat 15%nat].
  constructor; [exact (rd_value A)|exact (word_eq_value _ _ _ B rs1_word)|exact (word_eq_value _ _ _ Cc (imm_i_sound local bs D))|exact Ib|exact Ic].
Qed.
Lemma shamt_funct7 : InstructionDecodeChip.d_funct7_i_type_shamt d ≐ Manual.bits w 26 6 * 2.
Proof.
  cbn [InstructionDecodeChip.d_funct7_i_type_shamt snd InstructionDecodeChip.decode_instruction].
  pose proof (field_sound local bs 26 32 D ltac:(lia)) as E. rewrite E. reflexivity.
Qed.
Lemma shamt_format op : InstructionDecodeChip.is_i_type_shamt local ≐ 1 -> sat (InstructionDecodeChip.i_type_shamt_eval local d) ->
  columns ins (Instruction.from_i_type_shamt op (mkShamt (Manual.bits w 20 6) (Manual.rs1 w) (Manual.rd w))) /\
  InstructionDecodeChip.funct3 local ≐ Manual.bits w 12 3 /\ InstructionDecodeChip.funct7 local ≐ Manual.bits w 26 6 * 2.
Proof.
  intros Hf Hs. unfold InstructionDecodeChip.i_type_shamt_eval in Hs. open_format Hs Hf.
  destruct Hs as ((F3 & F7 & A & _) & B & Cc & (Ib & Ic & _)). apply holds_assert_eq in F3, F7, A, Ic. apply holds_assert_zero in Ib.
  split; [|split; [field_eq F3 12%nat 15%nat|rewrite F7; exact shamt_funct7]].
  constructor; [exact (rd_value A)|exact (word_eq_value _ _ _ B rs1_word)| |exact Ib|exact Ic].
  exact (word_eq_value _ _ _ Cc (field_word local bs 20 26 D ltac:(lia) ltac:(lia))).
Qed.
Lemma bit_25 : InstructionDecodeChip.bit local 25 ≐ 0 -> Manual.bits w 25 7 = Manual.bits w 26 6 * 2.
Proof.
  intros E. pose proof (field_sound local bs 25 26 D ltac:(lia) : _ ≐ Manual.bits w 25 1) as F. rewrite reconstruct_value in F.
  assert (G : InstructionDecodeChip.bit local 25 ≐ Manual.bits w 25 1).
  { rewrite <- F. apply feq_exists. exists 0. cbn. unfold InstructionDecodeChip.bit. lia. }
  assert (Hz : Manual.bits w 25 1 = 0) by (eapply small_value; [exact G|exact E|apply bits_fit; lia|unfold fits; lia]).
  clear - Hz. unfold Manual.bits in *. lia_mod.
Qed.
Lemma shamt_32_format op : InstructionDecodeChip.is_i_type_shamt_32 local ≐ 1 -> sat (InstructionDecodeChip.i_type_shamt_32_eval local d) ->
  columns ins (Instruction.from_i_type_shamt_w op (mkShamt (Manual.bits w 20 5) (Manual.rs1 w) (Manual.rd w))) /\
  InstructionDecodeChip.funct3 local ≐ Manual.bits w 12 3 /\ InstructionDecodeChip.funct7 local ≐ Manual.bits w 25 7.
Proof.
  intros Hf Hs. unfold InstructionDecodeChip.i_type_shamt_32_eval in Hs. open_format Hs Hf.
  destruct Hs as ((F3 & F7 & A & _) & B & Cc & (Z25 & Ib & Ic & _)). apply holds_assert_eq in F3, F7, A, Ic. apply holds_assert_zero in Ib, Z25.
  split; [|split; [field_eq F3 12%nat 15%nat|rewrite F7, (bit_25 Z25); exact shamt_funct7]].
  constructor; [exact (rd_value A)|exact (word_eq_value _ _ _ B rs1_word)| |exact Ib|exact Ic].
  exact (word_eq_value _ _ _ Cc (field_word local bs 20 25 D ltac:(lia) ltac:(lia))).
Qed.
Lemma j_format op : InstructionDecodeChip.is_j_type local ≐ 1 -> sat (InstructionDecodeChip.j_type_eval local d) ->
  columns ins (Instruction.new op (u8 (Manual.rd w)) (u64 (Manual.imm_j w)) 0 true true).
Proof.
  intros Hf Hs. unfold InstructionDecodeChip.j_type_eval in Hs. open_format Hs Hf.
  destruct Hs as ((F3 & F7 & A & _) & B & Cc & (Ib & Ic & _)). apply holds_assert_eq in A, Ib, Ic.
  constructor; [exact (rd_value A)|exact (word_eq_value _ _ _ B (imm_j_sound local bs D))| |exact Ib|exact Ic].
  apply limbs_zero. intros k Hk. unfold assert_word_zero in Cc. rewrite Forall_fmap, Forall_forall in Cc.
  specialize (Cc (InstructionCols.op_c ins).[k]). apply holds_assert_zero, Cc. apply list_elem_of_In. unfold limb. apply nth_In.
  destruct (InstructionCols.op_c _). cbn. lia.
Qed.
Lemma u_format op : InstructionDecodeChip.is_u_type local ≐ 1 -> sat (InstructionDecodeChip.u_type_eval local d) ->
  columns ins (Instruction.from_u_type op (mkU (Manual.imm_u w) (Manual.rd w))).
Proof.
  intros Hf Hs. unfold InstructionDecodeChip.u_type_eval in Hs. open_format Hs Hf.
  destruct Hs as ((F3 & F7 & A & _) & B & Cc & (Ib & Ic & _)). apply holds_assert_eq in A, Ib, Ic.
  constructor; [exact (rd_value A)|exact (word_eq_value _ _ _ B (imm_u_sound local bs D))|
    exact (word_eq_value _ _ _ Cc (imm_u_sound local bs D))|exact Ib|exact Ic].
Qed.
Lemma first_operand r v : 0 <= r < 32 -> v ∼ r -> Forall holds (assert_word_eq (extend_expr (InstructionCols.op_a ins)) v) ->
  InstructionCols.op_a ins ≐ u8 r.
Proof.
  intros Hr Hv Hk. replace (u8 r) with r by (symmetry; apply Z.mod_small; lia). apply register_limb; [exact Hr|].
  destruct Hv as [_ Hv]. etransitivity; [exact (word_eq_holds _ _ Hk)|exact Hv].
Qed.
Lemma b_format op : InstructionDecodeChip.is_b_type local ≐ 1 -> sat (InstructionDecodeChip.b_type_eval local d) ->
  columns ins (Instruction.from_b_type op (mkB (Manual.imm_b w) (Manual.rs2 w) (Manual.rs1 w))) /\
  InstructionDecodeChip.funct3 local ≐ Manual.bits w 12 3.
Proof.
  intros Hf Hs. unfold InstructionDecodeChip.b_type_eval in Hs. open_format Hs Hf.
  destruct Hs as ((F3 & F7 & _) & A & B & Cc & (Ib & Ic & _)). apply holds_assert_eq in F3, Ic. apply holds_assert_zero in Ib.
  split; [|field_eq F3 12%nat 15%nat].
  constructor; [exact (first_operand _ _ (bits_range w 15 5 ltac:(lia)) rs1_word A)|exact (word_eq_value _ _ _ B rs2_word)|
    exact (word_eq_value _ _ _ Cc (imm_b_sound local bs D))|exact Ib|exact Ic].
Qed.
Lemma s_format op : InstructionDecodeChip.is_s_type local ≐ 1 -> sat (InstructionDecodeChip.s_type_eval local d) ->
  columns ins (Instruction.from_s_type op (mkS (Manual.imm_s w) (Manual.rs2 w) (Manual.rs1 w))) /\
  InstructionDecodeChip.funct3 local ≐ Manual.bits w 12 3.
Proof.
  intros Hf Hs. unfold InstructionDecodeChip.s_type_eval in Hs. open_format Hs Hf.
  destruct Hs as ((F3 & F7 & _) & A & B & Cc & (Ib & Ic & _)). apply holds_assert_eq in F3, Ic. apply holds_assert_zero in Ib.
  split; [|field_eq F3 12%nat 15%nat].
  constructor; [exact (first_operand _ _ (bits_range w 20 5 ltac:(lia)) rs2_word A)|exact (word_eq_value _ _ _ B rs1_word)|
    exact (word_eq_value _ _ _ Cc (imm_s_sound local bs D))|exact Ib|exact Ic].
Qed.
End Decode.

(** ** The table of the manual *)
Section Table.
Context `{F : InstructionFormats}.
Import Manual.

Ltac concrete_formats F := destruct F as [? ? ? ? ? ? ? ? ? ? ? ? M]; injection M as -> -> -> -> -> -> -> -> -> -> -> ->.
Ltac table op Hc := destruct op; unfold instruction_consts in Hc; cbn in Hc; try discriminate Hc; injection Hc as <- <- <-;
  eexists; split; reflexivity.

Lemma r_table op w base f3 f7 : let i := Instruction.from_r_type op (mkR (rs2 w) (rs1 w) (rd w)) in
  instruction_consts i = Some (8, base, f3, f7) -> base = bits w 0 7 -> f3 = bits w 12 3 -> f7 = bits w 25 7 ->
  exists c, decode w = Some c /\ i = Transpiler.process c.
Proof.
  cbv zeta. intros Hc Eb E3 E7. concrete_formats F. unfold decode, f73. rewrite <- Eb, <- E3, <- E7.
  table op Hc.
Qed.
Lemma i_table op w base f3 f7 : let i := Instruction.from_i_type op (mkI (imm_i w) (rs1 w) (rd w)) in
  instruction_consts i = Some (4, base, f3, f7) -> base = bits w 0 7 -> f3 = bits w 12 3 ->
  exists c, decode w = Some c /\ i = Transpiler.process c.
Proof. cbv zeta. intros Hc Eb E3. concrete_formats F. unfold decode. rewrite <- Eb, <- E3. table op Hc. Qed.
Lemma shamt_table op w base f3 f7 : let i := Instruction.from_i_type_shamt op (mkShamt (bits w 20 6) (rs1 w) (rd w)) in
  instruction_consts i = Some (2, base, f3, f7) -> base = bits w 0 7 -> f3 = bits w 12 3 -> f7 = bits w 26 6 * 2 ->
  exists c, decode w = Some c /\ i = Transpiler.process c.
Proof.
  cbv zeta. intros Hc Eb E3 E7. assert (E6 : f7 / 2 = bits w 26 6) by (rewrite E7; apply Z.div_mul; lia). clear E7.
  concrete_formats F. unfold decode. rewrite <- Eb, <- E3, <- E6. table op Hc.
Qed.
Lemma shamt_32_table op w base f3 f7 : let i := Instruction.from_i_type_shamt_w op (mkShamt (bits w 20 5) (rs1 w) (rd w)) in
  instruction_consts i = Some (1, base, f3, f7) -> base = bits w 0 7 -> f3 = bits w 12 3 -> f7 = bits w 25 7 ->
  exists c, decode w = Some c /\ i = Transpiler.process c.
Proof. cbv zeta. intros Hc Eb E3 E7. concrete_formats F. unfold decode, f73. rewrite <- Eb, <- E3, <- E7. table op Hc. Qed.
Lemma j_table op w base f3 f7 : let i := Instruction.new op (u8 (rd w)) (u64 (imm_j w)) 0 true true in
  instruction_consts i = Some (16, base, f3, f7) -> base = bits w 0 7 -> exists c, decode w = Some c /\ i = Transpiler.process c.
Proof. cbv zeta. intros Hc Eb. concrete_formats F. unfold decode. rewrite <- Eb. table op Hc. Qed.
Lemma b_table op w base f3 f7 : let i := Instruction.from_b_type op (mkB (imm_b w) (rs2 w) (rs1 w)) in
  instruction_consts i = Some (32, base, f3, f7) -> base = bits w 0 7 -> f3 = bits w 12 3 ->
  exists c, decode w = Some c /\ i = Transpiler.process c.
Proof. cbv zeta. intros Hc Eb E3. concrete_formats F. unfold decode. rewrite <- Eb, <- E3. table op Hc. Qed.
Lemma s_table op w base f3 f7 : let i := Instruction.from_s_type op (mkS (imm_s w) (rs2 w) (rs1 w)) in
  instruction_consts i = Some (64, base, f3, f7) -> base = bits w 0 7 -> f3 = bits w 12 3 ->
  exists c, decode w = Some c /\ i = Transpiler.process c.
Proof. cbv zeta. intros Hc Eb E3. concrete_formats F. unfold decode. rewrite <- Eb, <- E3. table op Hc. Qed.
Lemma u_table op w base f3 f7 : let i := Instruction.from_u_type op (mkU (imm_u w) (rd w)) in
  instruction_consts i = Some (128, base, f3, f7) -> base = bits w 0 7 -> exists c, decode w = Some c /\ i = Transpiler.process c.
Proof. cbv zeta. intros Hc Eb. concrete_formats F. unfold decode. rewrite <- Eb. table op Hc. Qed.

(** The constants are small. *)
Lemma consts_fit i ty base f3 f7 : instruction_consts i = Some (ty, base, f3, f7) ->
  fits 30 ty /\ fits 30 base /\ fits 30 f3 /\ fits 30 f7.
Proof.
  destruct i as [op a b c ib ic]. concrete_formats F. intros Hc. unfold instruction_consts in Hc.
  destruct op, ic; cbn in Hc; try discriminate Hc; injection Hc as <- <- <- <-; unfold fits; lia.
Qed.
End Table.

Section DecodeSound.
Context `{AirBuilder} `{InstructionFormats}.
Notation D := InstructionDecodeChip.decode_instruction.

(** A row that is looked up has one format. *)
Lemma decode_format local : sat (InstructionDecodeChip.eval local) -> InstructionDecodeChip.multiplicity local ≭ 0 ->
  exists j, (j < 8)%nat /\ nth j (InstructionDecodeChip.type_flags local) 0 ≐ 1 /\
    InstructionDecodeChip.instr_type local ≐ InstructionType.as_u32 (nth j InstructionDecodeChip.types InstructionType.RType).
Proof.
  intros Hs Hm. unfold InstructionDecodeChip.eval in Hs. destruct (D local) as [calls d]. rewrite !sat_app, !sat_cons in Hs.
  destruct Hs as (Hb & (Hr & Ht & _) & _ & _ & _ & _ & _ & _ & _ & _ & _ & _ & (_ & Hz & _)).
  apply sat_assert, holds_assert_bool in Hr. apply sat_assert, holds_assert_eq in Ht.
  assert (Er : InstructionDecodeChip.is_real local ≐ 1).
  { destruct Hr as [Er|Er]; [|exact Er]. apply (when_not_zero _ _ Er), holds_assert_zero in Hz. contradiction. }
  destruct (one_hot (InstructionDecodeChip.type_flags local)) as (j & Hj & Hk); [|cbn; lia| |].
  { rewrite List.Forall_forall. intros x Hx. apply holds_assert_bool, sat_assert. apply (sat_fmap _ _ x) in Hb; [exact Hb|].
    now apply list_elem_of_In. }
  { rewrite <- Er. apply feq_exists. exists 0. unfold InstructionDecodeChip.is_real. cbn. lia. }
  exists j. cbn in Hj. split; [exact Hj|]. pose proof (Hk j Hj) as Ej. rewrite Nat.eqb_refl in Ej. split; [exact Ej|].
  use_flag Hk 0%nat. use_flag Hk 1%nat. use_flag Hk 2%nat. use_flag Hk 3%nat. use_flag Hk 4%nat. use_flag Hk 5%nat. use_flag Hk 6%nat. use_flag Hk 7%nat.
  rewrite Ht. cbn -[InstructionType.as_u32]. rewrite F, F0, F1, F2, F3, F4, F5, F6.
  destruct j as [|[|[|[|[|[|[|[|j]]]]]]]]; [..|lia]; apply feq_exists; exists 0; reflexivity.
Qed.

Lemma half_words wd w x y : is_u32 wd -> is_u32 w -> x ≐ wd mod 2 ^ 16 -> y ≐ wd / 2 ^ 16 -> x ≐ w mod 2 ^ 16 -> y ≐ w / 2 ^ 16 -> wd = w.
Proof.
  intros Hw Bw E1 E2 W1 W2. pose proof order_large as Ho. rewrite E1 in W1. rewrite E2 in W2. unfold fits in *.
  apply feq_small in W1; [|clear - Hw Bw Ho; lia_mod]. apply feq_small in W2; [|clear - Hw Bw Ho; lia_mod]. clear - W1 W2. lia_mod.
Qed.
Lemma zero_register c i : InstructionCols.op_a c ≐ Instruction.op_a i -> is_u8 (Instruction.op_a i) ->
  from_bool (bool_decide (InstructionCols.op_a c ≐ 0)) = from_bool (Instruction.op_a i =? 0).
Proof.
  intros E B. f_equal. apply eq_true_iff_eq. rewrite bool_decide_eq_true, Z.eqb_eq, E. pose proof order_large. split; [|now intros ->].
  intros Ez. apply feq_small in Ez; unfold fits in *; lia.
Qed.
Lemma process_op_a c : is_u8 (Instruction.op_a (Transpiler.process c)).
Proof. destruct c; cbn; try (unfold fits; lia); apply Z.mod_pos_bound; lia. Qed.

Definition formats (local : InstructionDecodeChip.t) : list (list call) :=
  let d := (D local).2 in
  [InstructionDecodeChip.r_type_eval local d; InstructionDecodeChip.i_type_eval local d; InstructionDecodeChip.i_type_shamt_eval local d;
   InstructionDecodeChip.i_type_shamt_32_eval local d; InstructionDecodeChip.j_type_eval local d; InstructionDecodeChip.b_type_eval local d;
   InstructionDecodeChip.s_type_eval local d; InstructionDecodeChip.u_type_eval local d].
Lemma decode_parts local : sat (InstructionDecodeChip.eval local) -> sat (D local).1 /\ forall j, sat (nth j (formats local) []).
Proof.
  intros Hs. unfold InstructionDecodeChip.eval in Hs. unfold formats. destruct (D local) as [calls d]. cbn [fst snd]. rewrite !sat_app in Hs.
  destruct Hs as (_ & _ & Hcalls & Hr & Hi & Hsh & Hsh32 & Hjt & Hbt & Hst & Hut & _). split; [exact Hcalls|].
  intros j. destruct j as [|[|[|[|[|[|[|[|j]]]]]]]]; try assumption. destruct j; constructor.
Qed.

(** The format of a row that is looked up with given constants. *)
Lemma decode_opened local wd ty base f3 f7 : sat (InstructionDecodeChip.eval local) -> InstructionDecodeChip.multiplicity local ≭ 0 ->
  is_u32 wd -> (InstructionDecodeChip.encoded_instruction local).1 ≐ wd mod 2 ^ 16 -> (InstructionDecodeChip.encoded_instruction local).2 ≐ wd / 2 ^ 16 ->
  Forall2 feq (InstructionDecodeChip.consts local) [ty; base; f3; f7] -> fits 30 ty -> fits 30 base ->
  exists bs j, decodes local bs /\ wd = value bs /\ (j < 8)%nat /\ nth j (InstructionDecodeChip.type_flags local) 0 ≐ 1 /\
    ty = InstructionType.as_u32 (nth j InstructionDecodeChip.types InstructionType.RType) /\ base = Manual.bits (value bs) 0 7 /\
    InstructionDecodeChip.funct3 local ≐ f3 /\ InstructionDecodeChip.funct7 local ≐ f7.
Proof.
  intros Hs Hm Hw E1 E2 F Bty Bb. destruct (decode_format local Hs Hm) as (j & Hj & Ej & Et).
  destruct (decode_bits local (proj1 (decode_parts local Hs))) as (bs & Db & Bw & W1 & W2). exists bs, j.
  unfold InstructionDecodeChip.consts in F. apply Forall2_cons_1 in F as [Ety F]. apply Forall2_cons_1 in F as [Ebase F].
  apply Forall2_cons_1 in F as [E3 F]. apply Forall2_cons_1 in F as [E7 _].
  split; [exact Db|]. split; [exact (half_words _ _ _ _ Hw Bw E1 E2 W1 W2)|]. do 2 (split; [assumption|]). split; [|split; [|auto]].
  - eapply small_value; [exact Ety|exact Et|exact Bty|]. destruct j as [|[|[|[|[|[|[|[|j]]]]]]]]; [..|lia]; unfold fits; cbn; lia.
  - eapply small_value; [exact Ebase| |exact Bb|apply bits_fit; lia]. exact (field_sound local bs 0 7 Db ltac:(lia)).
Qed.

(** A row that is looked up with the constants of an opcode holds the word
    that the manual decodes to an instruction with this opcode and the columns
    of the row. *)
Lemma decode_row_sound local wd op ic ty base f3 f7 : sat (InstructionDecodeChip.eval local) -> InstructionDecodeChip.multiplicity local ≭ 0 ->
  word_consts op ic = Some (ty, base, f3, f7) -> InstructionCols.imm_c (InstructionDecodeChip.instruction local) ≐ from_bool ic -> is_u32 wd ->
  (InstructionDecodeChip.encoded_instruction local).1 ≐ wd mod 2 ^ 16 -> (InstructionDecodeChip.encoded_instruction local).2 ≐ wd / 2 ^ 16 ->
  Forall2 feq (InstructionDecodeChip.consts local) [ty; base; f3; f7] ->
  exists c, Manual.decode wd = Some c /\ Instruction.opcode (Transpiler.process c) = op /\
    columns (InstructionDecodeChip.instruction local) (Transpiler.process c).
Proof.
  intros Hs Hm Hc Hic Hw E1 E2 F. destruct (consts_fit (Instruction.new op 0 0 0 false ic) _ _ _ _ Hc) as (Bty & Bb & B3 & B7).
  destruct (decode_opened _ _ _ _ _ _ Hs Hm Hw E1 E2 F Bty Bb) as (bs & j & Db & -> & Hj & Ej & -> & Hbase & E3 & E7).
  pose proof (proj2 (decode_parts local Hs) j) as Hfmt.
  assert (G3 : InstructionDecodeChip.funct3 local ≐ Manual.bits (value bs) 12 3 -> f3 = Manual.bits (value bs) 12 3).
  { intros Hx. eapply small_value; [exact E3|exact Hx|exact B3|apply bits_fit; lia]. }
  assert (G7 : forall x, fits 30 x -> InstructionDecodeChip.funct7 local ≐ x -> f7 = x).
  { intros x Bx Hx. eapply small_value; [exact E7|exact Hx|exact B7|exact Bx]. }
  assert (B6 : fits 30 (Manual.bits (value bs) 26 6 * 2)) by (pose proof (bits_range (value bs) 26 6); unfold fits; lia).
  assert (B7' : fits 30 (Manual.bits (value bs) 25 7)) by (apply bits_fit; lia).
  assert (R : forall i, columns (InstructionDecodeChip.instruction local) i -> Instruction.opcode i = op ->
    (instruction_consts i = Some (InstructionType.as_u32 (nth j InstructionDecodeChip.types InstructionType.RType), base, f3, f7) ->
     exists c, Manual.decode (value bs) = Some c /\ i = Transpiler.process c) ->
    exists c, Manual.decode (value bs) = Some c /\ Instruction.opcode (Transpiler.process c) = op /\
      columns (InstructionDecodeChip.instruction local) (Transpiler.process c)).
  { intros i C Eo HT. destruct HT as (c & Hdec & Ei).
    - unfold instruction_consts. now rewrite Eo, (imm_value _ _ _ (col_imm_c _ _ C) Hic).
    - exists c. rewrite <- Ei. auto. }
  destruct j as [|[|[|[|[|[|[|[|j]]]]]]]]; [..|lia]; cbn in Ej.
  - destruct (r_format _ _ Db op Ej Hfmt) as (C & F3 & F7). refine (R _ C eq_refl _). intros HT. apply r_table in HT; auto.
  - destruct (i_format _ _ Db op Ej Hfmt) as (C & F3). refine (R _ C eq_refl _). intros HT. eapply i_table in HT; eauto.
  - destruct (shamt_format _ _ Db op Ej Hfmt) as (C & F3 & F7). refine (R _ C eq_refl _). intros HT. apply shamt_table in HT; auto.
  - destruct (shamt_32_format _ _ Db op Ej Hfmt) as (C & F3 & F7). refine (R _ C eq_refl _). intros HT. apply shamt_32_table in HT; auto.
  - refine (R _ (j_format _ _ Db op Ej Hfmt) eq_refl _). intros HT. now apply j_table in HT.
  - destruct (b_format _ _ Db op Ej Hfmt) as (C & F3). refine (R _ C eq_refl _). intros HT. eapply b_table in HT; eauto.
  - destruct (s_format _ _ Db op Ej Hfmt) as (C & F3). refine (R _ C eq_refl _). intros HT. eapply s_table in HT; eauto.
  - refine (R _ (u_format _ _ Db op Ej Hfmt) eq_refl _). intros HT. now apply u_table in HT.
Qed.
(** The column that marks register zero as a destination. *)
Lemma decode_op_a_0 local c : sat (InstructionDecodeChip.eval local) -> InstructionDecodeChip.multiplicity local ≭ 0 ->
  InstructionCols.op_a (InstructionDecodeChip.instruction local) ≐ Instruction.op_a (Transpiler.process c) ->
  InstructionCols.op_a_0 (InstructionDecodeChip.instruction local) ≐ from_bool (Instruction.op_a (Transpiler.process c) =? 0).
Proof.
  intros Hs Hm Ea. unfold InstructionDecodeChip.eval in Hs. destruct (D local) as [calls d]. rewrite !sat_app, !sat_cons in Hs.
  destruct Hs as (_ & (Hr & _) & _ & _ & _ & _ & _ & _ & _ & _ & _ & Hz & (He & Hn & _)). apply sat_assert, holds_assert_bool in Hr as [Hr|Hr].
  { apply (when_not_zero _ _ Hr), holds_assert_zero in Hn. contradiction. }
  apply (when_one _ _ Hr), holds_assert_eq in He. rewrite <- He, <- (zero_register _ _ Ea (process_op_a c)).
  exact (is_zero_sound _ _ _ Hr Hz).
Qed.

(** A real row of the fetch chip addresses the aligned double word of the
    program counter. *)
Lemma fetch_address f p : sat (InstructionFetchChip.eval f) -> InstructionFetchChip.is_real f ≐ 1 -> fits 48 p ->
  Forall2 feq (addr_limbs (InstructionFetchChip.pc f)) (addr_limbs (pc_limbs p)) ->
  exists o, bit o /\ InstructionFetchChip.offset f ≐ o /\ p mod 8 = 4 * o /\ 2 ^ 16 <= p /\
    Forall2 feq (addr_limbs (InstructionFetchChip.aligned_addr f)) (addr_limbs (pc_limbs (p - p mod 8))).
Proof.
  intros Hs Hr Hp Fp. destruct (pc_limbs_value p Hp) as (p0 & p1 & p2 & Ep & B0 & B1 & B2 & Ev). rewrite Ep in Fp.
  destruct f as [ch cl [[q0 q1] q2] inv ins ty base f3 f7 mem [w0 w1] o real].
  cbn [InstructionFetchChip.is_real InstructionFetchChip.pc InstructionFetchChip.offset addr_limbs fst snd] in *.
  apply Forall2_cons_1 in Fp as [Q0 Fp]. apply Forall2_cons_1 in Fp as [Q1 Fp]. apply Forall2_cons_1 in Fp as [Q2 _].
  cbn [fst snd] in Q0, Q1, Q2. unfold InstructionFetchChip.eval in Hs. cbn [InstructionFetchChip.pc InstructionFetchChip.is_real
    InstructionFetchChip.offset InstructionFetchChip.top_two_limb_inv] in Hs.
  rewrite !sat_app, !sat_cons in Hs. destruct Hs as (_ & _ & (Ho & Hrange & Hinv & _) & _).
  apply (sat_bool 1) in Ho as (o' & Do & Eo); [|reflexivity]. apply sat_assert, holds_assert_eq in Hinv.
  destruct (sat_range 13 _ _ _ _ Hrange Hr) as (t & Bt & Et); [reflexivity|lia|].
  assert (E0 : p0 = 8 * t + 4 * o').
  { pose proof order_large. unfold fits in *. apply feq_small; [|lia].
    rewrite <- Et, (Z.mul_comm 8), <- Z.mul_assoc, (finv_mul _ eight_not_zero), Q0, Eo. apply feq_exists. exists 0. cbn. lia. }
  assert (Hne : p1 + p2 <> 0).
  { intros Ez. rewrite Q1, Q2, Ez, Hr, Z.mul_0_r in Hinv. symmetry in Hinv. now apply one_not_zero in Hinv. }
  assert (Hm : p mod 8 = 4 * o') by (rewrite Ev, E0; clear - Do; destruct Do as [-> | ->]; lia_mod).
  exists o'. do 3 (split; [assumption|]). split; [rewrite Ev; unfold fits in *; lia|].
  unfold InstructionFetchChip.aligned_addr. cbn [InstructionFetchChip.pc InstructionFetchChip.offset fst snd]. rewrite Hm.
  destruct (pc_limbs_value (p - 4 * o')) as (a0 & a1 & a2 & Ea & A0 & A1 & A2 & Eav); [unfold fits in *; lia|]. rewrite Ea.
  assert (a0 = p0 - 4 * o' /\ a1 = p1 /\ a2 = p2) as (-> & -> & ->) by (clear - Ev Eav A0 A1 A2 B0 B1 B2 E0 Bt Do; unfold fits in *; lia).
  cbn [addr_limbs fst snd]. repeat apply Forall2_cons_2; [now rewrite Q0, Eo|exact Q1|exact Q2|apply Forall2_nil_2].
Qed.

(** It selects the half the program counter points to. *)
Lemma fetch_word f p v o : sat (InstructionFetchChip.eval f) -> bit o -> InstructionFetchChip.offset f ≐ o -> p mod 8 = 4 * o ->
  MemoryAccessCols.prev_value (InstructionFetchChip.memory_access f) ∼ v ->
  let wd := v / 2 ^ (8 * (p mod 8)) mod 2 ^ 32 in
  (InstructionFetchChip.selected_word f).1 ≐ wd mod 2 ^ 16 /\ (InstructionFetchChip.selected_word f).2 ≐ wd / 2 ^ 16.
Proof.
  intros Hs Do Eo Hm Hv wd. apply represents_elim in Hv as (v0 & v1 & v2 & v3 & V0 & V1 & V2 & V3 & Evv & L0 & L1 & L2 & L3).
  unfold InstructionFetchChip.eval in Hs. destruct (InstructionFetchChip.pc f) as [[p0 p1] p2].
  rewrite !sat_app, !sat_cons in Hs. destruct Hs as (_ & _ & _ & _ & (S0 & S1 & S2 & S3 & _)).
  assert (Ew : wd = if o =? 0 then v0 + 2 ^ 16 * v1 else v2 + 2 ^ 16 * v3).
  { subst wd. rewrite Hm. clear - Evv V0 V1 V2 V3 Do. subst v. unfold fits in *. destruct Do as [-> | ->]; cbn; lia_mod. }
  rewrite Ew. destruct Do as [-> | ->]; cbn [Z.eqb].
  - apply (when_not_zero _ _ Eo), holds_assert_eq in S0, S1. rewrite S0, S1, L0, L1. unfold fits in *.
    split; apply feq_exists; exists 0; clear - V0 V1; lia_mod.
  - apply (when_one _ _ Eo), holds_assert_eq in S2, S3. rewrite S2, S3, L2, L3. unfold fits in *.
    split; apply feq_exists; exists 0; clear - V2 V3; lia_mod.
Qed.

Lemma decode_values_feq word ins cs word' ins' cs' : Forall2 feq (decode_values word ins cs) (decode_values word' ins' cs') ->
  word.1 ≐ word'.1 /\ word.2 ≐ word'.2 /\ Forall2 feq (InstructionCols.into_iter ins) (InstructionCols.into_iter ins') /\ Forall2 feq cs cs'.
Proof.
  intros F. unfold decode_values in F. apply Forall2_cons_1 in F as [E1 F]. apply Forall2_cons_1 in F as [E2 F].
  apply Forall2_app_inv in F as [F1 F2]; [auto|]. destruct ins as [? ? [] [] ? ? ?], ins' as [? ? [] [] ? ? ?]. reflexivity.
Qed.
Lemma fetch_values_feq pc ins cs clk pc' ins' cs' clk' : Forall2 feq (fetch_values pc ins cs clk) (fetch_values pc' ins' cs' clk') ->
  Forall2 feq (addr_limbs pc) (addr_limbs pc') /\ Forall2 feq (InstructionCols.into_iter ins) (InstructionCols.into_iter ins') /\
  (length cs = length cs' -> Forall2 feq cs cs').
Proof.
  intros F. unfold fetch_values, program_values in F. rewrite <- !app_assoc in F.
  apply Forall2_app_inv in F as [F1 F]; [|reflexivity]. apply Forall2_app_inv in F as [F2 F].
  - do 2 (split; [assumption|]). intros L. apply Forall2_app_inv in F as [F3 _]; assumption.
  - destruct ins as [? ? [] [] ? ? ?], ins' as [? ? [] [] ? ? ?]. reflexivity.
Qed.

End DecodeSound.
