(* ===== verification/SystemChips.v ===== *)
(** * SystemChips: the tables around the instruction chips

    The chips of [core/machine] that keep the buses in order: [StateBumpChip]
    ([adapter/bump.rs]) carries clock and program counter, [MemoryBumpChip]
    ([memory/bump.rs]) refreshes register timestamps, [MemoryLocalChip]
    ([memory/local.rs]) opens and closes the cells a shard uses,
    [ProgramChip] ([program/trusted.rs]) answers the instruction lookups, and
    [eval_state] ([core/executor/src/record.rs]) ties the first and the last
    state of a shard to its public values. *)
From Stdlib Require Import ZArith Lia Bool Btauto Permutation.
From stdpp Require Import base numbers option list gmap.
From S2P Require Import Prelude Isa State Rv64 Refinement Air KoalaBear ByteTable WordAir AddOps LtOps BitOps Bus MemAir Adapters Rows Chips.

Module StateBumpChip.
Record t := mk {
  next_clk_32_48 : Z; next_clk_24_32 : Z; next_clk_16_24 : Z; next_clk_0_16 : Z;
  clk_high : Z; clk_low : Z; next_pc : Z * Z * Z; pc : Z * Z * Z; is_clk : Z; is_real : Z }.
Definition zero : t := mk 0 0 0 0 0 0 (0, 0, 0) (0, 0, 0) 0 0.

(** The limbs of the next clock. *)
Definition clk_limbs (next_clk : Z) : Z * Z * Z * Z :=
  (u16 (Z.land next_clk 0xFFFF), u8 (Z.land (next_clk ≫ 16) 0xFF), u8 (Z.land (next_clk ≫ 24) 0xFF), u16 (next_clk ≫ 32)).

Definition generate_row (event : Z * Z * bool * Z) : t :=
  let '(clk, increment, bump2, pc) := event in
  let clk_low := u32 (Z.land clk 0xFFFFFF + increment) in
  let clk_high := u32 (clk ≫ 24) in
  let next_clk := clk +ₗ increment in
  let '(next_clk_0_16, next_clk_16_24, next_clk_24_32, next_clk_32_48) := clk_limbs next_clk in
  let next_pc := pc_limbs pc in
  let prev_pc := pc_limbs (pc -ₗ PC_INC) in
  mk next_clk_32_48 next_clk_24_32 next_clk_16_24 next_clk_0_16 clk_high clk_low next_pc
    (if bump2 then (prev_pc.1.1 + PC_INC, prev_pc.1.2, prev_pc.2) else next_pc)
    (from_bool (negb (next_clk ≫ 24 =? clk ≫ 24))) 1.

Definition row_dependencies (event : Z * Z * bool * Z) : list ByteLookupEvent :=
  let '(clk, increment, _, pc) := event in
  let '(next_clk_0_16, next_clk_16_24, next_clk_24_32, next_clk_32_48) := clk_limbs (clk +ₗ increment) in
  let '(pc_0, pc_1, pc_2) := pc_limbs pc in
  let blu := add_bit_range_check [] (u16 (next_clk_0_16 - 1) / 8) 13 in
  let blu := add_bit_range_check blu next_clk_32_48 16 in
  let blu := add_u8_range_checks blu [next_clk_16_24; next_clk_24_32] in
  add_u16_range_checks blu [pc_0; pc_1; pc_2].

Definition next_clk_high (local : t) : Z := next_clk_24_32 local + next_clk_32_48 local * (1 ≪ 8).
Definition next_clk_low (local : t) : Z := next_clk_0_16 local + next_clk_16_24 local * (1 ≪ 16).

(** The carry out of a limb of the program counter. *)
Definition carry `{PrimeField} (c pc next_pc : Z) : Z := (c + pc - next_pc) * finv (1 ≪ 16).

Definition eval `{PrimeField} (local : t) : list call :=
  let c0 := carry 0 (pc local).1.1 (next_pc local).1.1 in
  let c1 := carry c0 (pc local).1.2 (next_pc local).1.2 in
  let c2 := carry c1 (pc local).2 (next_pc local).2 in
  [Assert (AssertBool (is_real local));
   receive_state (clk_high local) (clk_low local) (pc local) (is_real local);
   send_state (next_clk_high local) (next_clk_low local) (next_pc local) (is_real local);
   send_byte (ByteOpcode.as_u8 ByteOpcode.Range) ((next_clk_0_16 local - 1) * finv 8) 13 0 (is_real local);
   send_byte (ByteOpcode.as_u8 ByteOpcode.Range) (next_clk_32_48 local) 16 0 (is_real local)] ++
  slice_range_check_u8 [next_clk_16_24 local; next_clk_24_32 local] (is_real local) ++
  [Assert (AssertBool (is_clk local));
   Assert (When (is_real local) (AssertEq (next_clk_high local) (clk_high local + is_clk local)));
   Assert (When (is_real local) (AssertEq (next_clk_low local + is_clk local * (1 ≪ 24)) (clk_low local)));
   Assert (AssertBool c0); Assert (AssertBool c1); Assert (AssertBool c2); Assert (AssertZero c2)] ++
  slice_range_check_u16 (addr_limbs (next_pc local)) (is_real local).
End StateBumpChip.

Module MemoryBumpChip.
Record t := mk {
  access : MemoryAccessCols.t; clk_32_48 : Z; clk_24_32 : Z; clk_16_24 : Z; clk_0_16 : Z; addr : Z; is_real : Z }.
Definition zero : t :=
  mk (MemoryAccessCols.mk word_zero (MemoryAccessTimestamp.mk 0 0 0 0 0)) 0 0 0 0 0 0.

(** The read that refreshes a register, at the start of the [2^24] window of
    the access unless it is an explicit refresh. *)
Definition bump_event (event : MemoryRecordEnum.t) (is_refresh : bool) : MemoryRecordEnum.t :=
  let value := MemoryRecord.value (MemoryRecordEnum.previous_record event) in
  let prev_timestamp := MemoryRecord.timestamp (MemoryRecordEnum.previous_record event) in
  let timestamp := MemoryRecord.timestamp (MemoryRecordEnum.current_record event) in
  let timestamp := if negb is_refresh then u64 ((timestamp ≫ 24) ≪ 24) else timestamp in
  MemoryRecordEnum.Read (MemoryReadRecord.mk value timestamp prev_timestamp None).

Definition generate_row (event : MemoryRecordEnum.t * Z * bool) : option (t * list ByteLookupEvent) :=
  let '(event, addr, is_refresh) := event in
  let read := bump_event event is_refresh in
  let timestamp := MemoryRecord.timestamp (MemoryRecordEnum.current_record read) in
  '(access, blu) ← MemoryAccessCols.populate read [];
  let clk_0_16 := u16 (Z.land timestamp 0xFFFF) in
  let clk_16_24 := u8 (Z.land (timestamp ≫ 16) 0xFF) in
  let clk_24_32 := u8 (Z.land (timestamp ≫ 24) 0xFF) in
  let clk_32_48 := u16 (Z.land (timestamp ≫ 32) 0xFFFF) in
  let blu := add_u16_range_checks blu [clk_0_16; clk_32_48] in
  let blu := add_u8_range_checks blu [clk_16_24; clk_24_32] in
  let blu := add_byte_lookup_event blu (mkByteLookupEvent ByteOpcode.LTU 1 (u8 addr) 32) in
  Some (mk access clk_32_48 clk_24_32 clk_16_24 clk_0_16 addr 1, blu).

Definition clk_high (local : t) : Z := clk_24_32 local + clk_32_48 local * (1 ≪ 8).
Definition clk_low (local : t) : Z := clk_0_16 local + clk_16_24 local * (1 ≪ 16).

Definition eval (local : t) : list call :=
  [Assert (AssertBool (is_real local))] ++
  slice_range_check_u16 [clk_0_16 local; clk_32_48 local] (is_real local) ++
  slice_range_check_u8 [clk_16_24 local; clk_24_32 local] (is_real local) ++
  [send_byte (ByteOpcode.as_u8 ByteOpcode.LTU) 1 (addr local) 32 (is_real local)] ++
  eval_memory_access_read (clk_high local) (clk_low local) (register_addr (addr local)) (access local) (is_real local).
End MemoryBumpChip.

Module MemoryLocalChip.
(** [SingleMemoryLocal]; a row of [MemoryLocalCols] holds one of them. *)
Record t := mk {
  addr : Z * Z * Z; initial_clk_high : Z; final_clk_high : Z; initial_clk_low : Z; final_clk_low : Z;
  initial_value : Word; final_value : Word; initial_value_lower : Z; initial_value_upper : Z;
  final_value_lower : Z; final_value_upper : Z; is_real : Z }.
Definition zero : t := mk (0, 0, 0) 0 0 0 0 word_zero word_zero 0 0 0 0 0.
(** [InteractionKind::Memory as u8]. *)
Definition memory_kind : Z := 1.

Definition value_byte0 (r : MemoryRecord.t) : Z := Z.land (MemoryRecord.value r ≫ 32) 0xFF.
Definition value_byte1 (r : MemoryRecord.t) : Z := Z.land (MemoryRecord.value r ≫ 40) 0xFF.

Definition generate_row (event : MemoryLocalEvent.t) : t :=
  let i := MemoryLocalEvent.initial_mem_access event in
  let f := MemoryLocalEvent.final_mem_access event in
  let a := MemoryLocalEvent.addr event in
  mk (Z.land a 0xFFFF, Z.land (a ≫ 16) 0xFFFF, Z.land (a ≫ 32) 0xFFFF)
    (u32 (MemoryRecord.timestamp i ≫ 24)) (u32 (MemoryRecord.timestamp f ≫ 24))
    (u32 (Z.land (MemoryRecord.timestamp i) 0xFFFFFF)) (u32 (Z.land (MemoryRecord.timestamp f) 0xFFFFFF))
    (Word_from_u64 (MemoryRecord.value i)) (Word_from_u64 (MemoryRecord.value f))
    (value_byte0 i) (value_byte1 i) (value_byte0 f) (value_byte1 f) 1.

Definition row_dependencies (event : MemoryLocalEvent.t) : list ByteLookupEvent :=
  let i := MemoryLocalEvent.initial_mem_access event in
  let f := MemoryLocalEvent.final_mem_access event in
  let blu := add_u8_range_check [] (u8 (value_byte0 i)) (u8 (value_byte1 i)) in
  let blu := add_u16_range_checks blu (word_limbs (Word_from_u64 (MemoryRecord.value i))) in
  let blu := add_u8_range_check blu (u8 (value_byte0 f)) (u8 (value_byte1 f)) in
  add_u16_range_checks blu (word_limbs (Word_from_u64 (MemoryRecord.value f))).

(** [GlobalInteractionEvent]: message, [is_receive], kind. *)
Definition global_event (addr : Z) (r : MemoryRecord.t) (is_receive : bool) : list Z * bool * Z :=
  ([u32 (MemoryRecord.timestamp r ≫ 24); u32 (Z.land (MemoryRecord.timestamp r) 0xFFFFFF);
    Z.land addr 0xFFFF; Z.land (addr ≫ 16) 0xFFFF; Z.land (addr ≫ 32) 0xFFFF;
    Z.land (MemoryRecord.value r) 0xFFFF + (1 ≪ 16) * value_byte0 r;
    Z.land (MemoryRecord.value r ≫ 16) 0xFFFF + (1 ≪ 16) * value_byte1 r;
    Z.land (MemoryRecord.value r ≫ 48) 0xFFFF], is_receive, memory_kind).
Definition global_interaction_events (event : MemoryLocalEvent.t) : list (list Z * bool * Z) :=
  [global_event (MemoryLocalEvent.addr event) (MemoryLocalEvent.initial_mem_access event) true;
   global_event (MemoryLocalEvent.addr event) (MemoryLocalEvent.final_mem_access event) false].

(** The tuple of a cell on the local bus. *)
Definition local_tuple (clk_high clk_low : Z) (addr : Z * Z * Z) (value : Word) : list Z :=
  [clk_high; clk_low] ++ addr_limbs addr ++ word_limbs value.
(** The message to the global table, with the flags [is_send] and [is_receive]. *)
Definition global_message (clk_high clk_low : Z) (addr : Z * Z * Z) (value : Word) (lower upper is_send is_receive : Z) :
  list Z :=
  [clk_high; clk_low] ++ addr_limbs addr ++
  [value.[0] + lower * (1 ≪ 16); value.[1] + upper * (1 ≪ 16); value.[3]; is_send; is_receive; memory_kind].

(** The columns of one end of a cell's life: its third limb in two bytes. *)
Definition value_calls (value : Word) (lower upper is_real : Z) : list call :=
  Assert (AssertEq value.[2] (lower + upper * (1 ≪ 8))) ::
  slice_range_check_u8 [lower; upper] is_real ++
  slice_range_check_u16 (word_limbs value) is_real.

Definition eval (local : t) : list call :=
  let cube := is_real local * is_real local * is_real local in
  [Assert (AssertBool (is_real local)); Assert (AssertEq cube cube)] ++
  value_calls (initial_value local) (initial_value_lower local) (initial_value_upper local) (is_real local) ++
  [Receive (mkInteraction (local_tuple (initial_clk_high local) (initial_clk_low local) (addr local) (initial_value local))
     (is_real local) InteractionKind.Memory);
   Send (mkInteraction (global_message (initial_clk_high local) (initial_clk_low local) (addr local) (initial_value local)
     (initial_value_lower local) (initial_value_upper local) 0 1) (is_real local) InteractionKind.Global)] ++
  value_calls (final_value local) (final_value_lower local) (final_value_upper local) (is_real local) ++
  [Send (mkInteraction (local_tuple (final_clk_high local) (final_clk_low local) (addr local) (final_value local))
     (is_real local) InteractionKind.Memory);
   Send (mkInteraction (global_message (final_clk_high local) (final_clk_low local) (addr local) (final_value local)
     (final_value_lower local) (final_value_upper local) 1 0) (is_real local) InteractionKind.Global)].
End MemoryLocalChip.

Module ProgramChip.
(** A row of the preprocessed table; the main trace has one column, the
    multiplicity of the row. *)
Record t := mk { pc : Z * Z * Z; instruction : InstructionCols.t }.

Definition preprocessed_row (program : Program.t) (idx : nat) : option t :=
  let idx := if (length (Program.instructions program) <=? idx)%nat then 0%nat else idx in
  let pc := Program.pc_base program +ₗ Z.of_nat idx * 4 in
  check! pc <? 1 ≪ 48;
  instruction ← Program.instructions program !! idx;
  Some (mk (pc_limbs pc) (InstructionCols.populate instruction)).

(** The rows past the last instruction repeat the first one; [None] is a
    failed assertion, or the first instruction of an empty program. *)
Definition generate_preprocessed_trace `{PrimeField} (program : Program.t) (fixed_height : option nat) : option (list t) :=
  padded_nb_rows ← next_multiple_of_32 (length (Program.instructions program)) fixed_height;
  check! Z.of_nat padded_nb_rows * 4 <? order;
  mapM (preprocessed_row program) (seq 0 padded_nb_rows).

(** The program counter of the events that the table counts. *)
Definition event_pc (e : Event) : option Z :=
  match e with
  | add_events e _ | addw_events e _ | addi_events e _ | sub_events e _ | subw_events e _ | bitwise_events e _
  | mul_events e _ | divrem_events e _ | lt_events e _ | shift_left_events e _ | shift_right_events e _ =>
      Some (AluEvent.pc e)
  | branch_events e _ => Some (BranchEvent.pc e)
  | memory_load_byte_events e _ | memory_load_half_events e _ | memory_load_word_events e _
  | memory_load_x0_events e _ | memory_load_double_events e _ | memory_store_byte_events e _
  | memory_store_half_events e _ | memory_store_word_events e _ | memory_store_double_events e _ =>
      Some (MemInstrEvent.pc e)
  | jal_events e _ | jalr_events e _ => Some (JumpEvent.pc e)
  | utype_events e _ => Some (UTypeEvent.pc e)
  | syscall_events e _ => Some (SyscallEvent.pc e)
  | _ => None
  end.
Definition instruction_counts (events : list Event) : gmap Z Z :=
  foldl (fun m pc => <[pc := default 0 (m !! pc) + 1]> m) ∅ (omap event_pc events).
Definition generate_trace (program : Program.t) (events : list Event) (fixed_height : option nat) : option (list Z) :=
  let counts := instruction_counts events in
  pad_rows_fixed
    (imap (fun i _ => default 0 (counts !! (Program.pc_base program +ₗ Z.of_nat i * 4))) (Program.instructions program))
    0 fixed_height.

Definition eval (prep_local : t) (multiplicity : Z) : list call :=
  [receive_program (pc prep_local) (instruction prep_local) multiplicity].
End ProgramChip.

(** ** The public values' side of the state bus *)
Section EvalState.
Context `{PrimeField} `{ShardPublicValues}.
Definition timestamp_high (timestamp : nat -> Z) : Z := timestamp 1%nat + timestamp 0%nat * (1 ≪ 8).
Definition timestamp_low (timestamp : nat -> Z) : Z := timestamp 3%nat + timestamp 2%nat * (1 ≪ 16).

Definition range_check (x bits : Z) : call := send_byte (ByteOpcode.as_u8 ByteOpcode.Range) x bits 0 1.
(** Two of the range checks of a timestamp's limbs. *)
Definition timestamp_range_checks (timestamp : nat -> Z) : list call :=
  [range_check (timestamp 0%nat) 16; range_check ((timestamp 3%nat - 1) * finv 8) 13].
(** [IsZeroOperation] on a difference of timestamps. *)
Definition is_zero_calls (diff inv is_eq : Z) : list call :=
  [Assert (AssertBool is_eq); Assert (AssertEq (diff * inv) (1 - is_eq)); Assert (AssertZero (diff * is_eq))].

Definition eval_state : list call :=
  let initial_timestamp_high := timestamp_high initial_timestamp in
  let initial_timestamp_low := timestamp_low initial_timestamp in
  let last_timestamp_high := timestamp_high last_timestamp in
  let last_timestamp_low := timestamp_low last_timestamp in
  timestamp_range_checks initial_timestamp ++ timestamp_range_checks last_timestamp ++
  [send_byte (ByteOpcode.as_u8 ByteOpcode.U8Range) 0 (initial_timestamp 1%nat) (initial_timestamp 2%nat) 1;
   send_byte (ByteOpcode.as_u8 ByteOpcode.U8Range) 0 (last_timestamp 1%nat) (last_timestamp 2%nat) 1] ++
  mjoin (zip_with (fun start next => [range_check start 16; range_check next 16])
    (addr_limbs pc_start) (addr_limbs pv_next_pc)) ++
  [send_state initial_timestamp_high initial_timestamp_low pc_start 1;
   receive_state last_timestamp_high last_timestamp_low pv_next_pc 1;
   Assert (AssertBool is_execution_shard);
   Assert (when_not is_execution_shard (AssertEq initial_timestamp_low last_timestamp_low));
   Assert (when_not is_execution_shard (AssertEq initial_timestamp_high last_timestamp_high))] ++
  zip_with (fun start next => Assert (when_not is_execution_shard (AssertEq start next)))
    (addr_limbs pc_start) (addr_limbs pv_next_pc) ++
  is_zero_calls (last_timestamp_high - initial_timestamp_high) inv_timestamp_high is_timestamp_high_eq ++
  is_zero_calls (last_timestamp_low - initial_timestamp_low) inv_timestamp_low is_timestamp_low_eq ++
  [Assert (AssertEq (1 - is_execution_shard) (is_timestamp_high_eq * is_timestamp_low_eq))].
End EvalState.

(** ** States on the bus

    The clock a state means, whatever the form of its limbs, and whether all
    its limbs are carried. *)
Section States.
Context `{AirBuilder}.

Definition state_time (t : list Z) : Z :=
  match t with high :: low :: _ => signed_rep high * 2 ^ 24 + as_canonical low | _ => 0 end.
Definition carried (t : list Z) : bool :=
  match t with
  | _ :: low :: pc => (as_canonical low <? 2 ^ 24) && forallb (fun l => as_canonical l <? 2 ^ 16) pc
  | _ => false
  end.
(** What the limbs of a timestamp and of a program counter in the public values mean. *)
Definition timestamp_value (timestamp : nat -> Z) : Z :=
  as_canonical (timestamp 0%nat) * 2 ^ 32 + as_canonical (timestamp 1%nat) * 2 ^ 24 +
  as_canonical (timestamp 2%nat) * 2 ^ 16 + as_canonical (timestamp 3%nat).
Definition pc_value (pc : Z * Z * Z) : Z :=
  as_canonical pc.1.1 + 2 ^ 16 * as_canonical pc.1.2 + 2 ^ 32 * as_canonical pc.2.

Lemma canonical_idemp x : as_canonical (as_canonical x) = as_canonical x.
Proof. apply Zmod_mod. Qed.

Lemma state_time_spec h l ls kh kl : h ≐ kh -> l ≐ kl -> - 2 ^ 24 <= kh < 2 ^ 25 -> 0 <= kl < 2 ^ 26 ->
  state_time (as_canonical <$> (h :: l :: ls)) = kh * 2 ^ 24 + kl.
Proof.
  pose proof order_large. intros Eh El Bh Bl. cbn. rewrite as_canonical_feq, canonical_idemp.
  now rewrite (signed_rep_small h kh), (canonical_small l kl) by (done || lia).
Qed.

Lemma carry_spec c p n : p ≐ n + 2 ^ 16 * StateBumpChip.carry c p n - c.
Proof.
  unfold StateBumpChip.carry. rewrite (Z.mul_comm (2 ^ 16)), <- Z.mul_assoc.
  change (1 ≪ 16) with (2 ^ 16). rewrite (finv_mul (2 ^ 16) limb_base_not_zero). apply feq_exists. exists 0. lia.
Qed.

Lemma pc_carry_value c c' p n k n' : c ≐ c' -> StateBumpChip.carry c p n ≐ k -> n ≐ n' -> p ≐ n' + 2 ^ 16 * k - c'.
Proof. intros Ec Ek En. rewrite (carry_spec c p n) at 1. now rewrite Ek, Ec, En. Qed.

Lemma carried_false h l p0 p1 p2 kl k0 k1 : l ≐ kl -> p0 ≐ k0 -> p1 ≐ k1 -> 
  2 ^ 24 <= kl < 2 ^ 26 \/ 2 ^ 16 <= k0 < 2 ^ 18 \/ 2 ^ 16 <= k1 < 2 ^ 18 ->
  carried (as_canonical <$> [h; l; p0; p1; p2]) = false.
Proof.
  pose proof order_large. intros El E0 E1 B. cbn. rewrite !canonical_idemp.
  destruct B as [B|[B|B]]; [rewrite (canonical_small l kl)|rewrite (canonical_small p0 k0)|
    rewrite (canonical_small p1 k1)]; try (done || lia); repeat case_bool; try lia; btauto.
Qed.
Lemma carried_true h l p0 p1 p2 kl k0 k1 k2 : l ≐ kl -> p0 ≐ k0 -> p1 ≐ k1 -> p2 ≐ k2 ->
  fits 24 kl -> is_u16 k0 -> is_u16 k1 -> is_u16 k2 -> carried (as_canonical <$> [h; l; p0; p1; p2]) = true.
Proof.
  pose proof order_large. unfold fits. intros El E0 E1 E2 ? ? ? ?. cbn. rewrite !canonical_idemp.
  rewrite (canonical_small l kl), (canonical_small p0 k0), (canonical_small p1 k1), (canonical_small p2 k2)
    by (done || lia). repeat case_bool; try lia; done.
Qed.

Lemma low_16_sound x r : r ≐ 1 ->
  sat_call (send_byte (ByteOpcode.as_u8 ByteOpcode.Range) ((x - 1) * finv 8) 13 0 r) ->
  exists q, fits 13 q /\ x ≐ 8 * q + 1.
Proof.
  intros Hr Hs. destruct (sat_range 13 _ _ _ _ Hs Hr) as (q & Bq & Eq); [reflexivity|lia|].
  exists q. split; [done|]. rewrite <- Eq, (Z.mul_comm 8), <- Z.mul_assoc, (finv_mul _ eight_not_zero).
  apply feq_exists. exists 0. lia.
Qed.

Lemma three_limbs_sound a r : sat (slice_range_check_u16 (addr_limbs a) r) -> r ≐ 1 ->
  exists l0 l1 l2, is_u16 l0 /\ is_u16 l1 /\ is_u16 l2 /\ a.1.1 ≐ l0 /\ a.1.2 ≐ l1 /\ a.2 ≐ l2.
Proof.
  intros Hs Hr. destruct (sat_slice_u16 _ r Hs Hr) as (ls & B & F). destruct a as [[a0 a1] a2].
  unfold addr_limbs in F. cbn in F.
  apply Forall2_cons_inv_l in F as (l0 & ? & ? & F & ->). apply Forall2_cons_inv_l in F as (l1 & ? & ? & F & ->).
  apply Forall2_cons_inv_l in F as (l2 & ? & ? & F & ->). apply Forall2_nil_inv_l in F as ->.
  apply Forall_cons in B as [B0 B]. apply Forall_cons in B as [B1 B]. apply Forall_cons in B as [B2 _].
  exists l0, l1, l2. tauto.
Qed.

(** The integers behind a real row of [StateBumpChip]. *)
Lemma state_bump_values (local : StateBumpChip.t) : StateBumpChip.is_real local ≐ 1 -> sat (StateBumpChip.eval local) ->
  exists nh nl b n0 n1 n2 c0 c1, fits 24 nh /\ fits 24 nl /\ (b = 0 \/ b = 1) /\
    is_u16 n0 /\ is_u16 n1 /\ is_u16 n2 /\ (c0 = 0 \/ c0 = 1) /\ (c1 = 0 \/ c1 = 1) /\
    StateBumpChip.next_clk_high local ≐ nh /\ StateBumpChip.next_clk_low local ≐ nl /\
    StateBumpChip.clk_high local ≐ nh - b /\ StateBumpChip.clk_low local ≐ nl + 2 ^ 24 * b /\
    (StateBumpChip.next_pc local).1.1 ≐ n0 /\ (StateBumpChip.next_pc local).1.2 ≐ n1 /\
    (StateBumpChip.next_pc local).2 ≐ n2 /\
    (StateBumpChip.pc local).1.1 ≐ n0 + 2 ^ 16 * c0 /\ (StateBumpChip.pc local).1.2 ≐ n1 + 2 ^ 16 * c1 - c0 /\
    (StateBumpChip.pc local).2 ≐ n2 - c1.
Proof.
  intros Hr Hs. unfold StateBumpChip.eval in Hs. rewrite !sat_app, !sat_cons in Hs.
  destruct Hs as ((_ & _ & _ & Hlo & Hhi & _) & Hmid & (Hclk & Heqh & Heql & Hc0 & Hc1 & _ & Hz & _) & Hpc).
  destruct (low_16_sound _ _ Hr Hlo) as (q & Bq & Eq).
  destruct (sat_range 16 _ _ _ _ Hhi Hr) as (t & Bt & Et); [reflexivity|lia|].
  destruct (sat_slice_u8_pair _ _ _ Hmid Hr) as (m & m' & Bm & Bm' & Em & Em').
  destruct (three_limbs_sound _ _ Hpc Hr) as (n0 & n1 & n2 & B0 & B1 & B2 & E0 & E1 & E2).
  apply (sat_bool _ _ Hr) in Hclk as (b & Bb & Eb). apply (sat_bool _ _ Hr) in Hc0 as (c0 & Bc0 & Ec0).
  apply (sat_bool _ _ Hr) in Hc1 as (c1 & Bc1 & Ec1). apply holds_assert_zero in Hz.
  assert (R : StateBumpChip.is_real local ≭ 0) by (rewrite Hr; apply one_not_zero).
  apply holds_when, holds_assert_eq in Heqh, Heql; [|done..].
  assert (Eh : StateBumpChip.next_clk_high local ≐ m' + t * 2 ^ 8).
  { unfold StateBumpChip.next_clk_high. now rewrite Em', Et. }
  assert (El : StateBumpChip.next_clk_low local ≐ 8 * q + 1 + m * 2 ^ 16).
  { unfold StateBumpChip.next_clk_low. now rewrite Em, Eq. }
  exists (m' + t * 2 ^ 8), (8 * q + 1 + m * 2 ^ 16), b, n0, n1, n2, c0, c1. unfold fits in *.
  repeat (split; [lia || assumption|]). split; [|split].
  - rewrite <- Eh, Heqh, Eb. apply feq_exists. exists 0. lia.
  - rewrite <- El, <- Heql, Eb, (Z.mul_comm b). reflexivity.
  - do 3 (split; [assumption|]). split; [|split].
    + rewrite (pc_carry_value 0 0 _ _ c0 n0 ltac:(reflexivity) Ec0 E0). now rewrite Z.sub_0_r.
    + exact (pc_carry_value _ _ _ _ _ _ Ec0 Ec1 E1).
    + rewrite (pc_carry_value _ _ _ _ _ _ Ec1 Hz E2). now rewrite Z.mul_0_r, Z.add_0_r.
Qed.

(** A real row keeps clock and program counter; it is a self-loop, or takes a
    state that is not carried to one that is. *)
Lemma state_bump_sound (local : StateBumpChip.t) : StateBumpChip.is_real local ≐ 1 -> sat (StateBumpChip.eval local) ->
  let src := as_canonical <$> state_values (StateBumpChip.clk_high local) (StateBumpChip.clk_low local)
    (StateBumpChip.pc local) in
  let dst := as_canonical <$> state_values (StateBumpChip.next_clk_high local) (StateBumpChip.next_clk_low local)
    (StateBumpChip.next_pc local) in
  state_time dst = state_time src /\ (src = dst \/ carried src = false /\ carried dst = true) /\
  forall v, pc_means (StateBumpChip.pc local) v -> pc_means (StateBumpChip.next_pc local) v.
Proof.
  intros Hr Hs src dst. pose proof order_large.
  destruct (state_bump_values local Hr Hs) as (nh & nl & b & n0 & n1 & n2 & c0 & c1 & Bh & Bl & Bb & B0 & B1 & B2 &
    Bc0 & Bc1 & Enh & Enl & Eh & El & E0 & E1 & E2 & F0 & F1 & F2).
  clear Hs. unfold fits in *. split; [|split].
  - subst src dst. unfold state_values. cbn [app].
    rewrite (state_time_spec _ _ _ nh nl), (state_time_spec _ _ _ (nh - b) (nl + 2 ^ 24 * b)) by (done || lia). lia.
  - destruct (StateBumpChip.pc local) as [[p0 p1] p2], (StateBumpChip.next_pc local) as [[q0 q1] q2]. cbn [fst snd] in *.
    assert (D : (b = 0 /\ c0 = 0 /\ c1 = 0) \/ b = 1 \/ c0 = 1 \/ (c0 = 0 /\ c1 = 1)) by lia.
    destruct D as [(-> & -> & ->)|D]; [left|right].
    + apply canonical_matches. rewrite ?Z.mul_0_r, ?Z.add_0_r, ?Z.sub_0_r in *.
      repeat (apply List.Forall2_cons; [etransitivity; [eassumption|symmetry; assumption]|]). constructor.
    + subst src dst. unfold state_values, addr_limbs. cbn [app].
      split; [eapply carried_false; [eassumption..|lia]|]. eapply carried_true; [eassumption..| | | |]; assumption.
  - intros v (l0 & l1 & l2 & G0 & G1 & G2 & A0 & A1 & A2 & ->). exists n0, n1, n2. rewrite F0 in G0. rewrite F1 in G1. rewrite F2 in G2.
    apply feq_small in G0, G1, G2; [|lia..]. repeat (split; [assumption || lia|]). lia.
Qed.
End States.

Section Sound.
Context `{AirBuilder} `{ShardPublicValues}.

(** A refresh moves a register forward in time. *)
Lemma memory_bump_sound (local : MemoryBumpChip.t) : MemoryBumpChip.is_real local ≐ 1 -> sat (MemoryBumpChip.eval local) ->
  let ts := MemoryAccessCols.access_timestamp (MemoryBumpChip.access local) in
  forall t t', time_of (MemoryAccessTimestamp.prev_high ts :: MemoryAccessTimestamp.prev_low ts :: t') <
    time_of (MemoryBumpChip.clk_high local :: MemoryBumpChip.clk_low local :: t).
Proof.
  intros Hr Hs ts. unfold MemoryBumpChip.eval in Hs. rewrite !sat_app in Hs.
  destruct Hs as (_ & H16 & H8 & _ & Hs). destruct (sat_slice_u8_pair _ _ _ H8 Hr) as (m & m' & Bm & Bm' & Em & Em').
  unfold slice_range_check_u16 in H16. cbn [fmap list_fmap] in H16. rewrite !sat_cons in H16. destruct H16 as (Hlo & Hhi & _).
  destruct (sat_range 16 _ _ _ _ Hlo Hr) as (lo & Blo & Elo); [reflexivity|lia|].
  destruct (sat_range 16 _ _ _ _ Hhi Hr) as (hi & Bhi & Ehi); [reflexivity|lia|]. unfold fits in *.
  eapply (memory_access_time _ _ _ _ _ _ (m' + hi * 2 ^ 8) (lo + m * 2 ^ 16) Hr); [| |lia|lia|exact Hs].
  - unfold MemoryBumpChip.clk_high. now rewrite Em', Ehi.
  - unfold MemoryBumpChip.clk_low. now rewrite Em, Elo.
Qed.

Lemma timestamp_sound ts ls : sat (timestamp_range_checks ts) ->
  sat_call (send_byte (ByteOpcode.as_u8 ByteOpcode.U8Range) 0 (ts 1%nat) (ts 2%nat) 1) ->
  exists h l, fits 24 h /\ fits 24 l /\ timestamp_high ts ≐ h /\ timestamp_low ts ≐ l /\
    timestamp_value ts = h * 2 ^ 24 + l /\
    state_time (as_canonical <$> (timestamp_high ts :: timestamp_low ts :: ls)) = timestamp_value ts.
Proof.
  intros Hs H8. pose proof order_large. unfold timestamp_range_checks in Hs. rewrite !sat_cons in Hs. destruct Hs as (Hhi & Hlo & _).
  destruct (sat_slice_u8_pair (ts 1%nat) (ts 2%nat) 1) as (m & m' & Bm & Bm' & Em & Em'); [now apply sat_cons, conj; [|constructor]|reflexivity|].
  destruct (low_16_sound _ 1 ltac:(reflexivity) Hlo) as (q & Bq & Eq).
  destruct (sat_range 16 _ _ _ _ Hhi) as (t & Bt & Et); [reflexivity|reflexivity|lia|]. unfold fits in *.
  assert (Eh : timestamp_high ts ≐ m + t * 2 ^ 8) by (unfold timestamp_high; now rewrite Em, Et).
  assert (El : timestamp_low ts ≐ 8 * q + 1 + m' * 2 ^ 16) by (unfold timestamp_low; now rewrite Em', Eq).
  assert (Ev : timestamp_value ts = (m + t * 2 ^ 8) * 2 ^ 24 + (8 * q + 1 + m' * 2 ^ 16)).
  { unfold timestamp_value. rewrite (canonical_small (ts 0%nat) t), (canonical_small (ts 1%nat) m),
      (canonical_small (ts 2%nat) m'), (canonical_small (ts 3%nat) (8 * q + 1)) by (done || lia). lia. }
  exists (m + t * 2 ^ 8), (8 * q + 1 + m' * 2 ^ 16). repeat (split; [assumption || lia|]). rewrite Ev.
  apply state_time_spec; done || lia.
Qed.

Lemma pc_value_sound pc : sat (slice_range_check_u16 (addr_limbs pc) 1) ->
  fits 48 (pc_value pc) /\ pc_means pc (pc_value pc).
Proof.
  intros Hs. pose proof order_large.
  destruct (three_limbs_sound pc 1 Hs ltac:(reflexivity)) as (l0 & l1 & l2 & B0 & B1 & B2 & E0 & E1 & E2). unfold fits in *.
  unfold pc_value. rewrite (canonical_small pc.1.1 l0), (canonical_small pc.1.2 l1), (canonical_small pc.2 l2)
    by (done || lia). split; [lia|]. exists l0, l1, l2. repeat (split; [assumption || lia|]). lia.
Qed.

Lemma zero_test_sound diff inv is_eq : sat (is_zero_calls diff inv is_eq) -> is_eq ≐ from_bool (bool_decide (diff ≐ 0)).
Proof.
  unfold is_zero_calls. rewrite !sat_cons. intros (_ & Hi & Hz & _). apply holds_assert_eq in Hi.
  apply holds_assert_zero in Hz. case_bool_decide as D; cbn.
  - rewrite D in Hi. symmetry. now apply feq_sub_zero; rewrite <- Hi.
  - apply feq_integral in Hz. tauto.
Qed.

Lemma limb_diff_zero x y a b : x ≐ a -> y ≐ b -> fits 24 a -> fits 24 b -> bool_decide (x - y ≐ 0) = (a =? b).
Proof.
  pose proof order_large. unfold fits. intros Ea Eb Ba Bb. rewrite bool_decide_decide. case_decide as D;
    rewrite feq_sub_zero, Ea, Eb in D; symmetry; [apply Z.eqb_eq; apply feq_small in D; lia|].
  apply Z.eqb_neq. intros ->. now destruct D.
Qed.

(** The ends of the state bus carry the timestamps and program counters of the
    public values; a shard in which the clock moves is an execution shard. *)
Lemma eval_state_sound : sat eval_state ->
  state_time (as_canonical <$> state_values (timestamp_high initial_timestamp) (timestamp_low initial_timestamp) pc_start) =
    timestamp_value initial_timestamp /\
  state_time (as_canonical <$> state_values (timestamp_high last_timestamp) (timestamp_low last_timestamp) pv_next_pc) =
    timestamp_value last_timestamp /\
  fits 48 (pc_value pc_start) /\ pc_means pc_start (pc_value pc_start) /\
  fits 48 (pc_value pv_next_pc) /\ pc_means pv_next_pc (pc_value pv_next_pc) /\
  is_execution_shard ≐ from_bool (bool_decide (timestamp_value initial_timestamp <> timestamp_value last_timestamp)).
Proof.
  intros Hs. unfold eval_state in Hs. rewrite !sat_app in Hs.
  destruct Hs as (Hi & Hl & H8 & Hpc & _ & _ & Hzh & Hzl & Hex). rewrite !sat_cons in H8. destruct H8 as (H8i & H8l & _).
  unfold addr_limbs in Hpc. cbn in Hpc. rewrite !sat_cons in Hpc. destruct Hpc as (S0 & N0 & S1 & N1 & S2 & N2 & _).
  destruct (timestamp_sound _ (addr_limbs pc_start) Hi H8i) as (h & l & Bh & Bl & Eh & El & Ev & Es).
  destruct (timestamp_sound _ (addr_limbs pv_next_pc) Hl H8l) as (h' & l' & Bh' & Bl' & Eh' & El' & Ev' & Es').
  split; [exact Es|]. split; [exact Es'|]. clear Es Es'.
  assert (P : sat (slice_range_check_u16 (addr_limbs pc_start) 1) /\ sat (slice_range_check_u16 (addr_limbs pv_next_pc) 1)).
  { unfold addr_limbs, slice_range_check_u16. cbn. rewrite !sat_cons, sat_nil. tauto. }
  destruct P as [P P']. destruct (pc_value_sound _ P), (pc_value_sound _ P'). repeat (split; [assumption|]).
  apply zero_test_sound in Hzh, Hzl. rewrite sat_cons in Hex. destruct Hex as [Hex _]. apply holds_assert_eq in Hex.
  rewrite Hzh, Hzl, (limb_diff_zero _ _ h' h), (limb_diff_zero _ _ l' l) in Hex by assumption.
  transitivity (1 - from_bool (h' =? h) * from_bool (l' =? l)).
  - rewrite <- Hex. apply feq_exists. exists 0. lia.
  - clear Hzh Hzl. rewrite Ev, Ev'. unfold fits in *. apply feq_exists. exists 0.
    destruct (Z.eqb_spec h' h), (Z.eqb_spec l' l); case_bool_decide; cbn; lia.
Qed.

Lemma eval_state_high : sat eval_state -> exists h, fits 24 h /\ timestamp_high initial_timestamp ≐ h.
Proof.
  intros Hs. unfold eval_state in Hs. rewrite !sat_app in Hs. destruct Hs as (Hi & _ & H8 & _).
  rewrite !sat_cons in H8. destruct H8 as (H8i & _).
  destruct (timestamp_sound _ [] Hi H8i) as (h & _ & Bh & _ & Eh & _). eauto.
Qed.

(** The rows of the program table are the instructions that [fetch] returns. *)
Lemma program_table_sound program height rows row : is_u64 (Program.pc_base program) ->
  ProgramChip.generate_preprocessed_trace program height = Some rows -> row ∈ rows ->
  exists pc i, fits 48 pc /\ Program.fetch program pc = Some i /\
    row = ProgramChip.mk (pc_limbs pc) (InstructionCols.populate i).
Proof.
  intros Hb Ht Hrow. pose proof order_large. unfold ProgramChip.generate_preprocessed_trace in Ht.
  apply bind_Some in Ht as (padded & Hp & Ht). destruct (Z.ltb_spec (Z.of_nat padded * 4) order) as [Hlt|]; [|discriminate].
  apply mapM_Some in Ht. apply list_elem_of_lookup in Hrow as (j & Hj).
  destruct (Forall2_lookup_r _ _ _ _ _ Ht Hj) as (k & Hk & Er). apply list_elem_of_lookup_2, elem_of_seq in Hk. unfold ProgramChip.preprocessed_row in Er. revert Er. set (idx := if (_ <=? k)%nat then 0%nat else k).
  destruct (Z.ltb_spec (Program.pc_base program +ₗ Z.of_nat idx * 4) (1 ≪ 48)) as [Hpc|]; [|discriminate]. intros Er.
  apply bind_Some in Er as (i & Hi & [= <-]).
  assert (Bi : Z.of_nat idx <= Z.of_nat padded) by (subst idx; case_match; lia).
  exists (Program.pc_base program +ₗ Z.of_nat idx * 4), i. split; [|split; [|reflexivity]].
  - change (1 ≪ 48) with (2 ^ 48) in Hpc. unfold fits. unfold u64, wrap in *. lia_mod.
  - unfold Program.fetch.
    assert (E : ((Program.pc_base program +ₗ Z.of_nat idx * 4) -ₗ Program.pc_base program) / 4 = Z.of_nat idx).
    { unfold fits, u64, wrap in *. lia_mod. }
    rewrite E. apply lookup_lt_Some in Hi as Hlen. rewrite (proj2 (Z.ltb_lt _ _)) by lia. now rewrite Nat2Z.id.
Qed.
End Sound.
