(* ===== verification/Shard.v ===== *)
(** * Shard: the tables of a shard prove a run of the machine

    The chips of a shard meet on three buses: states, memory and program.
    This file puts them together.  From constraints that hold and buses that
    balance it recovers the order of the rows (the state bus is a path from
    the first to the last state of the public values), the order of the
    accesses (the memory bus is a history, and its order is that of the rows)
    and the instructions (the program bus answers every lookup), and shows
    that the rows are a run of the reference machine [Rv64] on the program.

    A shard here is made of instruction chips that satisfy the interface
    [Rows.InstructionChip], of [StateBumpChip], [MemoryBumpChip],
    [MemoryLocalChip], [ProgramChip] and the state constraints of the public
    values. *)
From Stdlib Require Import ZArith Lia Bool Permutation Sorted.
From stdpp Require Import base numbers option list gmap sorting.
From S2P Require Import Prelude Isa State Rv64 Refinement Air KoalaBear ByteTable WordAir AddOps BitOps Bus MemAir Adapters Rows Chips ControlChips SystemChips.

(** [n] steps of the machine on the instructions of a program. *)
Fixpoint run (program : Program.t) (n : nat) (s : Rv64.arch) : option Rv64.arch :=
  match n with
  | O => Some s
  | S n =>
      i ← Program.fetch program (Rv64.pc s);
      match Rv64.step i s with Rv64.Next s' => run program n s' | _ => None end
  end.

Section Shard.
Context `{AirBuilder} `{ShardPublicValues}.

Record Shard (cols : Type) := mkShard {
  instruction_rows : list cols;
  state_bump_rows : list StateBumpChip.t;
  memory_bump_rows : list MemoryBumpChip.t;
  memory_local_rows : list MemoryLocalChip.t;
  program_rows : list (ProgramChip.t * Z) }.
End Shard.
Arguments mkShard {cols}.
Arguments instruction_rows {cols}.
Arguments state_bump_rows {cols}.
Arguments memory_bump_rows {cols}.
Arguments memory_local_rows {cols}.
Arguments program_rows {cols}.

Section Calls.
Context `{AirBuilder} `{ShardPublicValues} `{!InstructionChip cols}.

(** The calls that all the rows of the shard make. *)
Definition shard_calls (shard : Shard cols) : list call :=
  eval_state ++
  (instruction_rows shard ≫= chip_eval) ++
  (state_bump_rows shard ≫= StateBumpChip.eval) ++
  (memory_bump_rows shard ≫= MemoryBumpChip.eval) ++
  (memory_local_rows shard ≫= MemoryLocalChip.eval) ++
  ('(row, multiplicity) ← program_rows shard; ProgramChip.eval row multiplicity).

(** The sends and receives on a bus balance, and are fewer than the field's order. *)
Definition bus_balanced (cs : list call) (k : InteractionKind.t) : Prop :=
  Z.of_nat (length (sends k cs)) < order /\ Z.of_nat (length (receives k cs)) < order /\
  balanced (sends k cs) (receives k cs).

Definition shard_rows (shard : Shard cols) : list Row := chip_row <$> instruction_rows shard.
Definition real_rows (shard : Shard cols) : list Row := filter (fun r => row_real r ≐ 1) (shard_rows shard).
Definition real_locals (shard : Shard cols) : list MemoryLocalChip.t :=
  filter (fun l => MemoryLocalChip.is_real l ≐ 1) (memory_local_rows shard).

(** The cells of the shard, with the values before its first and after its last access. *)
Definition local_address (l : MemoryLocalChip.t) : list Z := as_canonical <$> addr_limbs (MemoryLocalChip.addr l).
Definition initial_values (shard : Shard cols) : values_map :=
  list_to_map ((fun l => (local_address l, as_canonical <$> word_limbs (MemoryLocalChip.initial_value l))) <$> real_locals shard).
Definition final_values (shard : Shard cols) : values_map :=
  list_to_map ((fun l => (local_address l, as_canonical <$> word_limbs (MemoryLocalChip.final_value l))) <$> real_locals shard).

(** The constraints of the shard hold, its buses balance, its program table is
    the preprocessed one of the program, and no cell is opened twice. *)
Record valid (program : Program.t) (shard : Shard cols) : Prop := mkValid {
  valid_sat : sat (shard_calls shard);
  valid_state : bus_balanced (shard_calls shard) InteractionKind.State;
  valid_memory : bus_balanced (shard_calls shard) InteractionKind.Memory;
  valid_program : bus_balanced (shard_calls shard) InteractionKind.Program;
  valid_table : exists height, ProgramChip.generate_preprocessed_trace program height = Some (program_rows shard).*1;
  valid_locals : NoDup (local_address <$> real_locals shard) }.
End Calls.

(** ** The three buses *)
Section Buses.
Context `{AirBuilder} `{ShardPublicValues}.

Definition bump_received (b : StateBumpChip.t) : AirInteraction :=
  mkInteraction (state_values (StateBumpChip.clk_high b) (StateBumpChip.clk_low b) (StateBumpChip.pc b))
    (StateBumpChip.is_real b) InteractionKind.State.
Definition bump_sent (b : StateBumpChip.t) : AirInteraction :=
  mkInteraction (state_values (StateBumpChip.next_clk_high b) (StateBumpChip.next_clk_low b) (StateBumpChip.next_pc b))
    (StateBumpChip.is_real b) InteractionKind.State.
Definition first_state : AirInteraction :=
  mkInteraction (state_values (timestamp_high initial_timestamp) (timestamp_low initial_timestamp) pc_start) 1
    InteractionKind.State.
Definition last_state : AirInteraction :=
  mkInteraction (state_values (timestamp_high last_timestamp) (timestamp_low last_timestamp) pv_next_pc) 1
    InteractionKind.State.
Definition refresh_source (b : MemoryBumpChip.t) : AirInteraction :=
  let ts := MemoryAccessCols.access_timestamp (MemoryBumpChip.access b) in
  mkInteraction ([MemoryAccessTimestamp.prev_high ts; MemoryAccessTimestamp.prev_low ts] ++
    addr_limbs (register_addr (MemoryBumpChip.addr b)) ++ word_limbs (MemoryAccessCols.prev_value (MemoryBumpChip.access b)))
    (MemoryBumpChip.is_real b) InteractionKind.Memory.
Definition refresh_target (b : MemoryBumpChip.t) : AirInteraction :=
  mkInteraction ([MemoryBumpChip.clk_high b; MemoryBumpChip.clk_low b] ++
    addr_limbs (register_addr (MemoryBumpChip.addr b)) ++ word_limbs (MemoryAccessCols.prev_value (MemoryBumpChip.access b)))
    (MemoryBumpChip.is_real b) InteractionKind.Memory.
Definition local_initial (l : MemoryLocalChip.t) : AirInteraction :=
  mkInteraction (MemoryLocalChip.local_tuple (MemoryLocalChip.initial_clk_high l) (MemoryLocalChip.initial_clk_low l)
    (MemoryLocalChip.addr l) (MemoryLocalChip.initial_value l)) (MemoryLocalChip.is_real l) InteractionKind.Memory.
Definition local_final (l : MemoryLocalChip.t) : AirInteraction :=
  mkInteraction (MemoryLocalChip.local_tuple (MemoryLocalChip.final_clk_high l) (MemoryLocalChip.final_clk_low l)
    (MemoryLocalChip.addr l) (MemoryLocalChip.final_value l)) (MemoryLocalChip.is_real l) InteractionKind.Memory.
Definition table_row (p : ProgramChip.t * Z) : AirInteraction :=
  mkInteraction (program_values (ProgramChip.pc p.1) (ProgramChip.instruction p.1)) p.2 InteractionKind.Program.

Lemma sends_bind {A} k (f : A -> list call) (g : A -> list AirInteraction) l :
  (forall x, x ∈ l -> sends k (f x) ≡ₚ g x) -> sends k (l ≫= f) ≡ₚ l ≫= g.
Proof.
  induction l as [|x l IH]; intros Hf; [done|]. rewrite !bind_cons, sends_app.
  rewrite (Hf x), IH; [done| |]; [intros y Hy; apply Hf|]; set_solver.
Qed.
Lemma receives_bind {A} k (f : A -> list call) (g : A -> list AirInteraction) l :
  (forall x, x ∈ l -> receives k (f x) ≡ₚ g x) -> receives k (l ≫= f) ≡ₚ l ≫= g.
Proof.
  induction l as [|x l IH]; intros Hf; [done|]. rewrite !bind_cons, receives_app.
  rewrite (Hf x), IH; [done| |]; [intros y Hy; apply Hf|]; set_solver.
Qed.
Lemma bind_nil_fn {A B} (l : list A) : (l ≫= fun _ => []) = ([] : list B).
Proof. induction l as [|x l IH]; [done|]. now rewrite bind_cons, IH. Qed.

Context `{!InstructionChip cols}.

Lemma bind_rows {B} (g : Row -> list B) (l : list cols) : (l ≫= fun c => g (chip_row c)) = (chip_row <$> l) ≫= g.
Proof. induction l as [|c l IH]; [done|]. rewrite fmap_cons, !bind_cons, IH. done. Qed.

Lemma shard_sends (shard : Shard cols) k ge gi gs gm gl gp : sends k eval_state = ge ->
  (forall c, c ∈ instruction_rows shard -> sends k (chip_eval c) ≡ₚ gi (chip_row c)) ->
  (forall b, sends k (StateBumpChip.eval b) = gs b) -> (forall b, sends k (MemoryBumpChip.eval b) = gm b) ->
  (forall l, sends k (MemoryLocalChip.eval l) = gl l) -> (forall p : ProgramChip.t * Z, sends k (ProgramChip.eval p.1 p.2) = gp p) ->
  sends k (shard_calls shard) ≡ₚ ge ++ (shard_rows shard ≫= gi) ++ (state_bump_rows shard ≫= gs) ++
    (memory_bump_rows shard ≫= gm) ++ (memory_local_rows shard ≫= gl) ++ (program_rows shard ≫= gp).
Proof.
  intros He Hi Hs Hm Hl Hp. unfold shard_calls, shard_rows. rewrite !sends_app, He, <- bind_rows.
  repeat apply Permutation_app; try (apply sends_bind; intros; first [now apply Hi|now rewrite ?Hs, ?Hm, ?Hl]); [done|].
  apply sends_bind. intros [r m] _. now rewrite <- (Hp (r, m)).
Qed.
Lemma shard_receives (shard : Shard cols) k ge gi gs gm gl gp : receives k eval_state = ge ->
  (forall c, c ∈ instruction_rows shard -> receives k (chip_eval c) ≡ₚ gi (chip_row c)) ->
  (forall b, receives k (StateBumpChip.eval b) = gs b) -> (forall b, receives k (MemoryBumpChip.eval b) = gm b) ->
  (forall l, receives k (MemoryLocalChip.eval l) = gl l) -> (forall p : ProgramChip.t * Z, receives k (ProgramChip.eval p.1 p.2) = gp p) ->
  receives k (shard_calls shard) ≡ₚ ge ++ (shard_rows shard ≫= gi) ++ (state_bump_rows shard ≫= gs) ++
    (memory_bump_rows shard ≫= gm) ++ (memory_local_rows shard ≫= gl) ++ (program_rows shard ≫= gp).
Proof.
  intros He Hi Hs Hm Hl Hp. unfold shard_calls, shard_rows. rewrite !receives_app, He, <- bind_rows.
  repeat apply Permutation_app; try (apply receives_bind; intros; first [now apply Hi|now rewrite ?Hs, ?Hm, ?Hl]); [done|].
  apply receives_bind. intros [r m] _. now rewrite <- (Hp (r, m)).
Qed.

(** What the shard sends and receives on each of the buses. *)
Lemma shard_shows (shard : Shard cols) : sat (shard_calls shard) ->
  let cs := shard_calls shard in let rows := shard_rows shard in
  sends InteractionKind.State cs ≡ₚ [first_state] ++ (row_sent <$> rows) ++ (bump_sent <$> state_bump_rows shard) /\
  receives InteractionKind.State cs ≡ₚ [last_state] ++ (row_received <$> rows) ++ (bump_received <$> state_bump_rows shard) /\
  sends InteractionKind.Program cs ≡ₚ row_lookup <$> rows /\
  receives InteractionKind.Program cs ≡ₚ table_row <$> program_rows shard /\
  sends InteractionKind.Memory cs ≡ₚ (rows ≫= fun r => access_source <$> row_accesses r) ++
    (refresh_source <$> memory_bump_rows shard) ++ (local_final <$> memory_local_rows shard) /\
  receives InteractionKind.Memory cs ≡ₚ (rows ≫= fun r => access_target r <$> row_accesses r) ++
    (refresh_target <$> memory_bump_rows shard) ++ (local_initial <$> memory_local_rows shard).
Proof.
  intros Hs cs rows. subst cs rows. pose proof Hs as Hc. unfold shard_calls in Hc.
  rewrite !sat_app, !sat_bind in Hc. destruct Hc as (_ & Hc & _).
  assert (L : forall c, c ∈ instruction_rows shard -> shows (chip_eval c) (chip_row c)).
  { intros c Hin. apply (chip_lawful c), Hc, Hin. }
  rewrite <- !bind_singleton. repeat split.
  - rewrite (shard_sends shard _ [first_state] (fun r => [row_sent r]) (fun b => [bump_sent b]) (fun _ => []) (fun _ => [])
      (fun _ => [])); try reflexivity; [now rewrite !bind_nil_fn, !app_nil_r|apply L].
  - rewrite (shard_receives shard _ [last_state] (fun r => [row_received r]) (fun b => [bump_received b]) (fun _ => [])
      (fun _ => []) (fun _ => [])); try reflexivity; [now rewrite !bind_nil_fn, !app_nil_r|apply L].
  - rewrite (shard_sends shard _ [] (fun r => [row_lookup r]) (fun _ => []) (fun _ => []) (fun _ => [])
      (fun _ => [])); try reflexivity; [now rewrite !bind_nil_fn, !app_nil_r|apply L].
  - rewrite (shard_receives shard _ [] (fun _ => []) (fun _ => []) (fun _ => []) (fun _ => [])
      (fun p => [table_row p])); try reflexivity; [now rewrite !bind_nil_fn|].
    intros c Hin. now rewrite (shows_program_receives _ _ (L c Hin)).
  - rewrite (shard_sends shard _ [] (fun r => access_source <$> row_accesses r) (fun _ => []) (fun b => [refresh_source b])
      (fun l => [local_final l]) (fun _ => [])); try reflexivity; [now rewrite !bind_nil_fn, !app_nil_r|apply L].
  - rewrite (shard_receives shard _ [] (fun r => access_target r <$> row_accesses r) (fun _ => [])
      (fun b => [refresh_target b]) (fun l => [local_initial l]) (fun _ => [])); try reflexivity;
      [now rewrite !bind_nil_fn, !app_nil_r|apply L].
Qed.
End Buses.

(** ** The order of the rows *)
Section Order.
Context `{AirBuilder} `{ShardPublicValues}.

Lemma filter_map {A B} (P : B -> Prop) `{!forall y, Decision (P y)} (f : A -> B) (l : list A) :
  filter P (f <$> l) = f <$> filter (fun x => P (f x)) l.
Proof.
  induction l as [|x l IH]; [done|]. rewrite fmap_cons, !filter_cons, IH. now case_decide.
Qed.
(** A balanced bus sends and receives the same active tuples. *)
Lemma bus_permutation cs k s r : sends k cs ≡ₚ s -> receives k cs ≡ₚ r ->
  bus_balanced cs k -> Forall boolean_mult s -> Forall boolean_mult r -> active s ≡ₚ active r.
Proof.
  intros Es Er (Ls & Lr & Hb) Bs Br. rewrite <- Es in Bs. rewrite <- Er in Br.
  pose proof (balanced_permutation _ _ Bs Br Ls Lr Hb) as P. unfold active in *. now rewrite <- Es, <- Er.
Qed.

Lemma active_map {A} (f : A -> AirInteraction) (l : list A) :
  active (f <$> l) = (fun x => tuple (f x)) <$> filter (fun x => multiplicity (f x) ≐ 1) l.
Proof. unfold active. now rewrite filter_map, <- list_fmap_compose. Qed.

(** A state bus entry: an instruction row or a bump. *)
Definition state_edge (i : Row + StateBumpChip.t) : list Z * list Z :=
  match i with
  | inl r => (tuple (row_received r), tuple (row_sent r))
  | inr b => (tuple (bump_received b), tuple (bump_sent b))
  end.
Definition state_measure (t : list Z) : Z := 2 * state_time t + from_bool (carried t).
(** A state means the clock [time] and the program counter [pc]. *)
Definition state_pc (t : list Z) (pc : Z) : Prop :=
  exists h l p0 p1 p2, t = [h; l; p0; p1; p2] /\ pc_means (p0, p1, p2) pc.

Definition row_ok (program : Program.t) (r : Row) : Prop :=
  row_real r ≐ 1 /\ (exists cs, lawful cs r) /\
  exists pc i, fits 48 pc /\ Program.fetch program pc = Some i /\ runs r i /\
    Forall2 feq (addr_limbs (row_pc r)) (addr_limbs (pc_limbs pc)).
Definition bump_ok (b : StateBumpChip.t) : Prop := StateBumpChip.is_real b ≐ 1 /\ sat (StateBumpChip.eval b).
Definition item_ok (program : Program.t) (i : Row + StateBumpChip.t) : Prop :=
  match i with inl r => row_ok program r | inr b => bump_ok b end.

Lemma row_time r cs : lawful cs r -> row_real r ≐ 1 -> exists k, 0 <= k < 2 ^ 24 /\ row_low r ≐ k /\
  state_time (tuple (row_received r)) = signed_rep (row_high r) * 2 ^ 24 + k /\
  state_time (tuple (row_sent r)) = state_time (tuple (row_received r)) + CLK_INC.
Proof.
  intros Hl Hr. pose proof order_large. destruct (lawful_clk _ _ Hl Hr) as (k & Bk & Ek). exists k. split; [done|]. split; [done|].
  unfold tuple, state_time, row_received, row_sent, state_values, CLK_INC. cbn. rewrite !as_canonical_feq, !canonical_idemp.
  rewrite (canonical_small (row_low r) k), (canonical_small (row_low r + 8) (k + 8)) by (done || lia || now rewrite Ek). lia.
Qed.

(** Rows advance the clock by one instruction, bumps not at all. *)
Lemma item_time program i : item_ok program i ->
  state_time (state_edge i).2 = state_time (state_edge i).1 + match i with inl _ => CLK_INC | inr _ => 0 end.
Proof.
  destruct i as [r|b]; cbn [state_edge fst snd].
  - intros (Hr & (cs & Hl) & _). now destruct (row_time r cs Hl Hr) as (k & _ & _ & _ & ->).
  - intros [Hr Hs]. destruct (state_bump_sound b Hr Hs) as [E _]. rewrite Z.add_0_r. exact E.
Qed.

Lemma item_forward program i : item_ok program i -> (state_edge i).1 <> (state_edge i).2 ->
  forward (fun _ => tt) state_measure (state_edge i).
Proof.
  intros Hi Hne. split; [done|]. pose proof (item_time program i Hi) as T. unfold state_measure.
  destruct i as [r|b].
  - unfold CLK_INC in T. destruct (carried _), (carried _); cbn [from_bool]; lia.
  - destruct Hi as [Hr Hs]. destruct (state_bump_sound b Hr Hs) as (_ & [E|[E1 E2]] & _); [now destruct Hne|].
    cbn [state_edge fst snd] in *. unfold tuple, bump_received, bump_sent in *. cbn [values] in *. rewrite E1, E2. cbn [from_bool]. lia.
Qed.

Lemma pc_means_canonical p0 p1 p2 v : pc_means (as_canonical p0, as_canonical p1, as_canonical p2) v <-> pc_means (p0, p1, p2) v.
Proof. unfold pc_means. cbn [fst snd]. now setoid_rewrite as_canonical_feq. Qed.

(** Limbs mean one address. *)
Lemma pc_means_limbs limbs v pc : pc_means limbs v -> fits 48 pc ->
  Forall2 feq (addr_limbs limbs) (addr_limbs (pc_limbs pc)) -> v = pc.
Proof.
  pose proof order_large. intros (l0 & l1 & l2 & E0 & E1 & E2 & A0 & A1 & A2 & ->) Hp F.
  destruct (pc_limbs_value pc Hp) as (k0 & k1 & k2 & Ek & B0 & B1 & B2 & ->). rewrite Ek in F.
  unfold addr_limbs in F. cbn in F. apply Forall2_cons in F as [F0 F]. apply Forall2_cons in F as [F1 F].
  apply Forall2_cons in F as [F2 _]. rewrite E0 in F0. rewrite E1 in F1. rewrite E2 in F2. unfold fits in *.
  apply feq_small in F0, F1, F2; lia.
Qed.
Lemma pc_means_unique limbs v v' : pc_means limbs v -> pc_means limbs v' -> v = v'.
Proof.
  pose proof order_large. intros (l0 & l1 & l2 & E0 & E1 & E2 & A0 & A1 & A2 & ->) (k0 & k1 & k2 & F0 & F1 & F2 & B0 & B1 & B2 & ->).
  rewrite E0 in F0. rewrite E1 in F1. rewrite E2 in F2. apply feq_small in F0, F1, F2; lia.
Qed.

Lemma state_pc_values h l pc v : state_pc (as_canonical <$> state_values h l pc) v <-> pc_means pc v.
Proof.
  destruct pc as [[p0 p1] p2]. rewrite <- pc_means_canonical. split.
  - intros (h' & l' & q0 & q1 & q2 & [= <- <- <- <- <-] & Hv). exact Hv.
  - intros Hv. eexists _, _, _, _, _. split; [reflexivity|exact Hv].
Qed.

Lemma replay_values_app m l l' m' : replay_values m (l ++ l') = Some m' ->
  exists m1, replay_values m l = Some m1 /\ replay_values m1 l' = Some m'.
Proof.
  revert m. induction l as [|[[k old] new] l IH]; intros m Hm; [eauto|]. cbn in *. case_decide; [eauto|discriminate].
Qed.

(** A row on its own: one step of the machine. *)
Lemma row_runs program r s m m' : Forall (fun i => well_formed i = true) (Program.instructions program) ->
  row_ok program r -> pc_means (row_pc r) (Rv64.pc s) -> agrees m s ->
  replay_values m (access_values <$> active_accesses r) = Some m' ->
  exists i s', Program.fetch program (Rv64.pc s) = Some i /\ Rv64.step i s = Rv64.Next s' /\ agrees m' s' /\
    pc_means (row_next_pc r) (Rv64.pc s').
Proof.
  intros Hw (Hr & (cs & Hl) & pc & i & Bpc & Hi & Hruns & F) Hpc Ha Hm.
  pose proof (pc_means_limbs _ _ pc Hpc Bpc F) as E. subst pc.
  assert (W : well_formed i = true).
  { unfold Program.fetch in Hi. case_match; [|discriminate]. rewrite list.Forall_forall in Hw.
    apply Hw, (list_elem_of_lookup_2 _ _ _ Hi). }
  destruct (lawful_step _ _ Hl Hr i m m' s W Hruns Bpc F Ha Hm) as (s' & Hs' & Ha' & Hpc'). eauto 10.
Qed.

Definition rows_of (items : list (Row + StateBumpChip.t)) : list Row :=
  omap (fun i => match i with inl r => Some r | inr _ => None end) items.

Lemma omap_inl {A B} (l : list A) : omap (fun i : A + B => match i with inl r => Some r | inr _ => None end) (inl <$> l) = l.
Proof. induction l as [|x l IH]; [done|]. cbn. f_equal. exact IH. Qed.
Lemma omap_inr {A B} (l : list B) : omap (fun i : A + B => match i with inl r => Some r | inr _ => None end) (inr <$> l) = [].
Proof. induction l as [|x l IH]; [done|]. exact IH. Qed.

Lemma rows_not_loops program items : Forall (item_ok program) items ->
  rows_of (filter (fun i => (state_edge i).1 <> (state_edge i).2) items) = rows_of items.
Proof.
  induction 1 as [|i items Hi _ IH]; [done|]. rewrite filter_cons. case_decide as D.
  - destruct i as [r|b]; cbn; [f_equal|]; exact IH.
  - destruct i as [r|b]; [|exact IH]. exfalso. pose proof (item_time program (inl r) Hi) as T. unfold CLK_INC in T.
    rewrite D in T. lia.
Qed.

(** Along a path of states the machine runs. *)
Lemma path_runs program items : Forall (fun i => well_formed i = true) (Program.instructions program) ->
  forall x y s m m', path state_edge x items y -> Forall (item_ok program) items ->
  state_pc x (Rv64.pc s) -> agrees m s ->
  replay_values m (access_values <$> (rows_of items ≫= active_accesses)) = Some m' ->
  exists s', run program (length (rows_of items)) s = Some s' /\ agrees m' s' /\ state_pc y (Rv64.pc s').
Proof.
  intros Hw. induction items as [|i items IH]; intros x y s m m' Hp Hok Hpc Ha Hm; cbn [path] in Hp.
  - subst y. exists s. injection Hm as <-. done.
  - destruct Hp as [Ex Hp]. apply Forall_cons in Hok as [Hi Hok]. destruct i as [r|b].
    + change (rows_of (inl r :: items)) with (r :: rows_of items) in *. rewrite bind_cons, fmap_app in Hm.
      apply replay_values_app in Hm as (m1 & Hm1 & Hm). rewrite <- Ex in Hpc.
      apply (proj1 (state_pc_values _ _ _ _)) in Hpc.
      destruct (row_runs program r s m m1 Hw Hi Hpc Ha Hm1) as (ins & s1 & Hf & Hs & Ha1 & Hpc1).
      destruct (IH _ y s1 m1 m' Hp Hok) as (s' & Hrun & Hrest); [now apply state_pc_values|done|done|].
      exists s'. split; [|done]. cbn [length run]. rewrite Hf. cbn [mbind option_bind]. now rewrite Hs.
    + destruct Hi as [Hr Hs]. destruct (state_bump_sound b Hr Hs) as (_ & _ & Hbump). rewrite <- Ex in Hpc.
      apply (proj1 (state_pc_values _ _ _ _)), Hbump in Hpc.
      apply (IH _ y s m m' Hp Hok); [now apply state_pc_values|done|done].
Qed.


Notation row_start r := (state_time (tuple (row_received r))).

Lemma path_times program items : forall x y, path state_edge x items y -> Forall (item_ok program) items ->
  state_time y = state_time x + CLK_INC * Z.of_nat (length (rows_of items)) /\
  Forall (fun r => state_time x <= row_start r) (rows_of items) /\
  StronglySorted (fun r r' => row_start r + CLK_INC <= row_start r') (rows_of items).
Proof.
  induction items as [|i items IH]; intros x y Hp Hok; cbn [path] in Hp.
  - subst y. split; [cbn; lia|]. split; constructor.
  - destruct Hp as [Ex Hp]. apply Forall_cons in Hok as [Hi Hok]. pose proof (item_time program i Hi) as T.
    destruct (IH _ _ Hp Hok) as (Ey & Hge & Hs). rewrite T, Ex in *. destruct i as [r|b].
    + change (rows_of (inl r :: items)) with (r :: rows_of items). cbn [length]. rewrite Nat2Z.inj_succ.
      cbn [state_edge fst] in Ex. split; [lia|]. unfold CLK_INC in *. split; constructor; try done.
      * rewrite Ex. lia.
      * eapply Forall_impl; [exact Hge|]. intros r' ?; cbn beta in *; lia.
      * eapply Forall_impl; [exact Hge|]. intros r' ?; cbn beta in *; rewrite Ex; lia.
    + change (rows_of (inr b :: items)) with (rows_of items). split; [lia|]. split; [|exact Hs].
      eapply Forall_impl; [exact Hge|]. intros r' ?; cbn beta in *; lia.
Qed.

(** The high half of the clock is in range along a path that starts so. *)
Definition high_ok (h : Z) : Prop := exists k, 0 <= k < 2 ^ 24 /\ h ≐ k.

Lemma path_high program items : forall x y, path state_edge x items y -> Forall (item_ok program) items ->
  high_ok (nth 0 x 0) -> Forall (fun r => high_ok (row_high r)) (rows_of items).
Proof.
  assert (C : forall h, high_ok (as_canonical h) <-> high_ok h) by (intros h; unfold high_ok; now setoid_rewrite as_canonical_feq).
  induction items as [|i items IH]; intros x y Hp Hok Hx; cbn [path] in Hp; [constructor|].
  destruct Hp as [<- Hp]. apply Forall_cons in Hok as [Hi Hok]. destruct i as [r|b].
  - change (rows_of (inl r :: items)) with (r :: rows_of items). apply (proj1 (C (row_high r))) in Hx. constructor; [exact Hx|].
    apply (IH _ _ Hp Hok). now apply C.
  - apply (IH _ _ Hp Hok). apply C. destruct Hi as [Hr Hs].
    destruct (state_bump_values b Hr Hs) as (nh & _ & _ & _ & _ & _ & _ & _ & Bh & _ & _ & _ & _ & _ & _ & _ & Enh & _).
    exists nh. split; [exact Bh|exact Enh].
Qed.

(** ** The order of the accesses *)
Definition row_access_list (r : Row) : list (Row * Access) := pair r <$> active_accesses r.
Definition access_time (p : Row * Access) : Z := time_of (values (access_target p.1 p.2)).

Lemma access_time_spec r a k : row_low r ≐ k -> 0 <= k < 2 ^ 24 -> 0 <= position a < CLK_INC ->
  access_time (r, a) = signed_rep (row_high r) * order + (k + position a + 2 ^ 24).
Proof.
  pose proof order_large. intros Ek Bk Bp. unfold CLK_INC in Bp. unfold access_time, time_of. cbn.
  rewrite (canonical_small _ (k + position a + 2 ^ 24)); [done| |lia]. rewrite Ek. apply feq_exists. exists 0. lia.
Qed.

(** The accesses of a row, in the order of their positions. *)
Lemma row_accesses_sorted program r : row_ok program r ->
  StronglySorted (fun p q => access_time p < access_time q) (row_access_list r).
Proof.
  intros (Hr & (cs & Hl) & _). destruct (lawful_clk _ _ Hl Hr) as (k & Bk & Ek).
  destruct (lawful_positions _ _ Hl) as [Hs Hb]. unfold row_access_list, active_accesses, active_of.
  apply (sorted_filter _ (fun a => access_mult a ≐ 1)) in Hs.
  apply (forall_filter _ (fun a => access_mult a ≐ 1)) in Hb. revert Hs Hb. generalize (filter (fun a => access_mult a ≐ 1) (row_accesses r)).
  induction 1 as [|a l Hs IH Ha]; intros Hb; [constructor|]. apply Forall_cons in Hb as [Ba Hb].
  rewrite fmap_cons. constructor; [auto|]. apply list.Forall_fmap, list.Forall_forall. rewrite list.Forall_forall in Hb, Ha.
  intros b Hin. cbn [compose]. specialize (Hb b Hin). specialize (Ha b Hin). cbn beta in *. unfold compose. rewrite !(access_time_spec r _ k) by done. lia.
Qed.

Lemma time_lt h h' k k' p p' : h * 2 ^ 24 + k + 8 <= h' * 2 ^ 24 + k' -> 0 <= k < 2 ^ 24 -> 0 <= k' < 2 ^ 24 ->
  0 <= p < 8 -> 0 <= p' < 8 -> h * order + (k + p + 2 ^ 24) < h' * order + (k' + p' + 2 ^ 24).
Proof.
  pose proof order_large. intros. assert (D : h = h' \/ h + 1 <= h') by lia. destruct D as [->|D]; [lia|].
  assert ((h + 1) * order <= h' * order) by (apply Z.mul_le_mono_nonneg_r; lia). lia.
Qed.

Lemma rows_accesses_sorted program rows : Forall (row_ok program) rows ->
  StronglySorted (fun r r' => row_start r + CLK_INC <= row_start r') rows ->
  StronglySorted (fun p q => access_time p < access_time q) (rows ≫= row_access_list).
Proof.
  intros Hok Hs. pose proof order_large. induction Hs as [|r rows Hs IH Hl]; [constructor|]. apply Forall_cons in Hok as [Hr Hok].
  rewrite bind_cons. apply StronglySorted_app. split; [|split; [now apply (row_accesses_sorted program)|auto]].
  intros [r1 a] [r2 b] H1' H2'. apply list_elem_of_fmap in H1' as (a' & [= -> ->] & Ha).
  apply list_elem_of_bind in H2' as (r' & Hb & Hin). apply list_elem_of_fmap in Hb as (b' & [= -> ->] & Hb).
  rewrite list.Forall_forall in Hl, Hok. specialize (Hl r' Hin). specialize (Hok r' Hin).
  destruct Hr as (Hr & (cs & Lr) & _), Hok as (Hr' & (cs' & Lr') & _).
  destruct (row_time r cs Lr Hr) as (k & Bk & Ek & Et & _), (row_time r' cs' Lr' Hr') as (k' & Bk' & Ek' & Et' & _).
  destruct (lawful_positions _ _ Lr) as [_ Bp], (lawful_positions _ _ Lr') as [_ Bp'].
  unfold active_accesses, active_of in Ha, Hb. apply list_elem_of_filter in Ha as [_ Ha], Hb as [_ Hb].
  rewrite list.Forall_forall in Bp, Bp'. specialize (Bp a' Ha). specialize (Bp' b' Hb). cbn beta in *.
  rewrite (access_time_spec r a' k), (access_time_spec r' b' k') by done. rewrite Et, Et' in Hl. unfold CLK_INC in *.
  apply time_lt; lia.
Qed.
End Order.

(** ** The memory bus as a history of values *)
Section Values.
Context `{AirBuilder} `{ShardPublicValues}.

(** A memory bus tuple: two limbs of time, three of address, four of value. *)
Definition cell_key (t : list Z) : list Z := take 3 (drop 2 t).
Definition memory_edge (i : (Row * Access) + MemoryBumpChip.t) : list Z * list Z :=
  match i with
  | inl p => (tuple (access_source p.2), tuple (access_target p.1 p.2))
  | inr b => (tuple (refresh_source b), tuple (refresh_target b))
  end.
Definition accesses_of (items : list ((Row * Access) + MemoryBumpChip.t)) : list (Row * Access) :=
  omap (fun i => match i with inl p => Some p | inr _ => None end) items.

Lemma replay_project m es m' : replay cell_key m es = Some m' ->
  replay_values (drop 5 <$> m) ((fun e => (cell_key e.1, drop 5 e.1, drop 5 e.2)) <$> es) = Some (drop 5 <$> m').
Proof.
  revert m. induction es as [|[src dst] es IH]; intros m Hr; cbn [replay replay_values fmap list_fmap fst snd] in *; [now injection Hr as <-|].
  case_decide as D; [|discriminate]. rewrite decide_True by (now rewrite lookup_fmap, D). rewrite <- fmap_insert. now apply IH.
Qed.

(** Refreshes keep the value. *)
Lemma replay_accesses items m m' :
  replay_values m ((fun e => (cell_key e.1, drop 5 e.1, drop 5 e.2)) <$> (memory_edge <$> items)) = Some m' ->
  replay_values m (access_values <$> (accesses_of items).*2) = Some m'.
Proof.
  revert m. induction items as [|[[r a]|b] items IH]; intros m Hr; [exact Hr| |].
  - change (accesses_of (inl (r, a) :: items)) with ((r, a) :: accesses_of items). rewrite !fmap_cons. rewrite !fmap_cons in Hr.
    change (access_values _) with (cell_key (tuple (access_source a)), drop 5 (tuple (access_source a)), drop 5 (tuple (access_target r a))).
    cbn [replay_values memory_edge fst snd] in Hr |- *. case_decide; [|discriminate]. now apply IH.
  - change (accesses_of (inr b :: items)) with (accesses_of items). rewrite !fmap_cons in Hr. apply IH.
    change (drop 5 (memory_edge (inr b)).2) with (drop 5 (memory_edge (inr b)).1) in Hr. now apply replay_read_inv in Hr.
Qed.

Lemma time_of_tuple i : time_of (tuple i) = time_of (values i).
Proof.
  unfold tuple, time_of. destruct (values i) as [|h [|l vs]]; [done..|]. rewrite !fmap_cons. rewrite as_canonical_feq.
  f_equal. unfold as_canonical. now rewrite Zplus_mod_idemp_l.
Qed.

Lemma memory_forward r a : access_ok r a -> row_real r ≐ 1 -> high_ok (row_high r) -> access_mult a ≐ 1 ->
  forward cell_key time_of (memory_edge (inl (r, a))).
Proof. intros (_ & _ & Ht) Hr Hh Ha. split; [done|]. cbn [memory_edge fst snd]. rewrite !time_of_tuple. auto. Qed.
Lemma refresh_forward b : MemoryBumpChip.is_real b ≐ 1 -> sat (MemoryBumpChip.eval b) ->
  forward cell_key time_of (memory_edge (inr b)).
Proof.
  intros Hr Hs. split; [done|]. cbn [memory_edge fst snd]. rewrite !time_of_tuple. now apply memory_bump_sound.
Qed.

(** The map of the tuples' values. *)
Lemma initial_project {A} (f : A -> AirInteraction) (l : list A) :
  drop 5 <$> initial cell_key ((fun x => tuple (f x)) <$> l) =
  (list_to_map ((fun x => (cell_key (tuple (f x)), drop 5 (tuple (f x)))) <$> l) : values_map).
Proof. unfold initial. rewrite <- list_to_map_fmap, <- !list_fmap_compose. done. Qed.

Lemma active_accesses_bus rows (f : Row -> Access -> AirInteraction) :
  (forall r a, multiplicity (f r a) = access_mult a) ->
  Forall (fun r => exists cs, lawful cs r) rows ->
  active (rows ≫= fun r => f r <$> row_accesses r) =
  (fun p => tuple (f p.1 p.2)) <$> (filter (fun r => row_real r ≐ 1) rows ≫= row_access_list).
Proof.
  intros Hf. induction 1 as [|r rows (cs & Hl) _ IH]; [done|]. rewrite bind_cons, active_app, IH, filter_cons.
  rewrite active_map, (list_filter_iff _ (fun a => access_mult a ≐ 1)) by (intros a; now rewrite Hf). case_decide as D.
  - rewrite bind_cons, fmap_app. f_equal. unfold row_access_list, active_accesses, active_of. now rewrite <- list_fmap_compose.
  - replace (filter _ _) with (@nil Access); [done|]. symmetry. apply elem_of_nil_inv. intros a Ha.
    apply list_elem_of_filter in Ha as [E Ha]. pose proof (lawful_accesses _ _ Hl) as Hok. rewrite list.Forall_forall in Hok.
    destruct (Hok a Ha) as (_ & Hz & _), (lawful_real _ _ Hl) as [Z0|]; [|contradiction].
    rewrite (Hz Z0) in E. symmetry in E. now apply one_not_zero in E.
Qed.
End Values.

(** ** The shard *)
Section Soundness.
Context `{AirBuilder} `{ShardPublicValues} `{!InstructionChip cols}.
Context (program : Program.t) (shard : Shard cols).
Hypothesis Hvalid : valid program shard.
Hypothesis Htrusted : is_untrusted_programs_enabled ≐ 0.
Hypothesis Hbase : is_u64 (Program.pc_base program).

Lemma shard_sat : sat eval_state /\ (forall b, b ∈ state_bump_rows shard -> sat (StateBumpChip.eval b)) /\
  (forall b, b ∈ memory_bump_rows shard -> sat (MemoryBumpChip.eval b)) /\
  (forall l, l ∈ memory_local_rows shard -> sat (MemoryLocalChip.eval l)).
Proof.
  pose proof (valid_sat _ _ Hvalid) as Hs. unfold shard_calls in Hs. rewrite !sat_app, !sat_bind in Hs. tauto.
Qed.

Lemma shard_lawful : Forall (fun r => exists cs, lawful cs r) (shard_rows shard).
Proof.
  apply list.Forall_fmap, list.Forall_forall. intros c Hc. exists (chip_eval c). apply chip_lawful.
  pose proof (valid_sat _ _ Hvalid) as Hs. unfold shard_calls in Hs. rewrite !sat_app, !sat_bind in Hs. now apply Hs.
Qed.

Lemma rows_boolean (f : Row -> AirInteraction) : (forall r, multiplicity (f r) = row_real r) ->
  Forall boolean_mult (f <$> shard_rows shard).
Proof.
  intros Hf. apply list.Forall_fmap. eapply Forall_impl; [exact shard_lawful|]. intros r [cs Hl].
  unfold boolean_mult, compose. rewrite Hf. apply (lawful_real _ _ Hl).
Qed.
Lemma forall_fmap_in {A B} (P : B -> Prop) (f : A -> B) (l : list A) : (forall x, x ∈ l -> P (f x)) -> Forall P (f <$> l).
Proof. intros Hf. apply list.Forall_fmap, list.Forall_forall. auto. Qed.

(** Every real row runs an instruction of the program. *)
Lemma real_rows_ok : Forall (row_ok program) (real_rows shard).
Proof.
  apply list.Forall_forall. intros r Hr. apply list_elem_of_filter in Hr as [Hreal Hr].
  pose proof shard_lawful as L. rewrite list.Forall_forall in L. destruct (L r Hr) as [cs Hl].
  split; [done|]. split; [eauto|].
  destruct (shard_shows shard (valid_sat _ _ Hvalid)) as (_ & _ & Es & Er & _). cbn zeta in *.
  destruct (valid_program _ _ Hvalid) as (Ls & _ & Hb).
  assert (B : Forall boolean_mult (sends InteractionKind.Program (shard_calls shard))).
  { rewrite Es. apply forall_fmap_in. intros r' Hr'. destruct (L r' Hr') as [cs' Hl'].
    unfold boolean_mult. cbn. rewrite (lawful_trusted _ _ Hl' Htrusted). apply (lawful_real _ _ Hl'). }
  destruct (balanced_answered _ _ (tuple (row_lookup r)) B Ls Hb) as (i & Hi & Et).
  { unfold active. apply list_elem_of_fmap_2, list_elem_of_filter. split.
    - cbn. now rewrite (lawful_trusted _ _ Hl Htrusted).
    - rewrite Es. now apply list_elem_of_fmap_2. }
  rewrite Er in Hi. apply list_elem_of_fmap in Hi as ([row mult] & -> & Hi).
  destruct (valid_table _ _ Hvalid) as [height Htab].
  destruct (program_table_sound program height _ row Hbase Htab) as (pc & ins & Bpc & Hf & ->).
  { now apply (list_elem_of_fmap_2 fst) in Hi. }
  exists pc, ins. split; [done|]. split; [done|].
  symmetry in Et. apply canonical_matches in Et. cbn [values row_lookup table_row ProgramChip.pc ProgramChip.instruction fst] in Et.
  unfold program_values in Et. apply Forall2_app_inv in Et as [E1 E2]; [|reflexivity]. done.
Qed.

Lemma bump_boolean b : sat (StateBumpChip.eval b) -> StateBumpChip.is_real b ≐ 0 \/ StateBumpChip.is_real b ≐ 1.
Proof. unfold StateBumpChip.eval. rewrite sat_app, sat_cons. intros [[Hb _] _]. now apply holds_assert_bool. Qed.

(** The rows are a path of states, from the first to the last of the public values. *)
Lemma state_path : exists items, path state_edge (tuple first_state) items (tuple last_state) /\
  Forall (item_ok program) items /\ rows_of items ≡ₚ real_rows shard.
Proof.
  set (items := (inl <$> real_rows shard) ++
    (inr <$> filter (fun b => StateBumpChip.is_real b ≐ 1) (state_bump_rows shard)) : list (Row + StateBumpChip.t)).
  destruct shard_sat as (_ & Hbumps & _).
  assert (Hok : Forall (item_ok program) items).
  { apply Forall_app. split; [apply list.Forall_fmap, real_rows_ok|]. apply forall_fmap_in. intros b Hb.
    apply list_elem_of_filter in Hb as [Hr Hb]. split; [done|auto]. }
  destruct (shard_shows shard (valid_sat _ _ Hvalid)) as (Es & Er & _). cbn zeta in *.
  assert (P : [tuple first_state] ++ (state_edge <$> items).*2 ≡ₚ [tuple last_state] ++ (state_edge <$> items).*1).
  { pose proof (bus_permutation _ _ _ _ Es Er (valid_state _ _ Hvalid)) as P.
    rewrite !active_app, !active_map in P. subst items. rewrite !fmap_app, <- !list_fmap_compose.
    unfold active in P at 1 2. rewrite !filter_cons, !decide_True in P by reflexivity. apply P.
    all: apply Forall_app; split; [apply Forall_singleton; now right|].
    all: apply Forall_app; split; [now apply rows_boolean|apply forall_fmap_in; intros b Hb].
    all: now apply bump_boolean, Hbumps. }
  apply drop_loops in P. cbn zeta in P. revert P. set (items' := filter _ items). intros P.
  assert (Hok' : Forall (item_ok program) items') by now apply forall_filter.
  destruct (tagged_history (fun _ => tt) state_measure state_edge [tuple first_state] [tuple last_state] items')
    as (l & m' & Hl & _ & Hrep & _ & Hc); [apply NoDup_singleton| |exact P|].
  { rewrite list.Forall_forall in Hok'. apply list.Forall_forall. intros i Hi. apply (item_forward program); [auto|].
    now apply list_elem_of_filter in Hi. }
  exists l. split; [eapply replay_path; [exact Hrep|exact Hc]|]. split; [now rewrite Hl|].
  unfold rows_of in *. rewrite Hl. fold (rows_of items'). unfold items'. rewrite (rows_not_loops program _ Hok).
  unfold items, rows_of. rewrite omap_app. now rewrite omap_inl, omap_inr, app_nil_r.
Qed.

Lemma real_rows_high : Forall (fun r => high_ok (row_high r)) (real_rows shard).
Proof.
  destruct state_path as (items & Hp & Hok & Hrows). rewrite <- Hrows. apply (path_high program items _ _ Hp Hok).
  destruct (eval_state_high (proj1 shard_sat)) as (h & Bh & Eh). exists h. split; [exact Bh|].
  cbn. now rewrite as_canonical_feq.
Qed.

Lemma refresh_boolean b : sat (MemoryBumpChip.eval b) -> MemoryBumpChip.is_real b ≐ 0 \/ MemoryBumpChip.is_real b ≐ 1.
Proof. unfold MemoryBumpChip.eval. rewrite sat_app, sat_cons. intros [[Hb _] _]. now apply holds_assert_bool. Qed.
Lemma local_boolean l : sat (MemoryLocalChip.eval l) -> MemoryLocalChip.is_real l ≐ 0 \/ MemoryLocalChip.is_real l ≐ 1.
Proof. unfold MemoryLocalChip.eval. rewrite sat_app, sat_cons. intros [[Hb _] _]. now apply holds_assert_bool. Qed.

Lemma accesses_boolean (f : Row -> Access -> AirInteraction) : (forall r a, multiplicity (f r a) = access_mult a) ->
  Forall boolean_mult (shard_rows shard ≫= fun r => f r <$> row_accesses r).
Proof.
  intros Hf. apply list.Forall_forall. intros i Hi. apply list_elem_of_bind in Hi as (r & Hi & Hr).
  apply list_elem_of_fmap in Hi as (a & -> & Ha). pose proof shard_lawful as L. rewrite list.Forall_forall in L.
  destruct (L r Hr) as [cs Hl]. pose proof (lawful_accesses _ _ Hl) as Hok. rewrite list.Forall_forall in Hok.
  unfold boolean_mult. rewrite Hf. apply (Hok a Ha).
Qed.

(** The accesses of the real rows, and the refreshes. *)
Definition memory_items : list ((Row * Access) + MemoryBumpChip.t) :=
  (inl <$> (real_rows shard ≫= row_access_list)) ++
  (inr <$> filter (fun b => MemoryBumpChip.is_real b ≐ 1) (memory_bump_rows shard)).

Lemma items_forward : Forall (fun i => forward cell_key time_of (memory_edge i)) memory_items.
Proof.
  apply Forall_app. split; apply forall_fmap_in.
  - intros [r a] Hin. apply list_elem_of_bind in Hin as (r' & Hin & Hr). apply list_elem_of_fmap in Hin as (a' & [= -> ->] & Ha).
    apply list_elem_of_filter in Ha as [Hm Ha], Hr as [Hreal Hr]. pose proof shard_lawful as L. rewrite list.Forall_forall in L.
    destruct (L r' Hr) as [cs Hl]. pose proof (lawful_accesses _ _ Hl) as Hok. rewrite list.Forall_forall in Hok.
    apply memory_forward; auto. pose proof real_rows_high as Hh. rewrite list.Forall_forall in Hh. apply Hh.
    now apply list_elem_of_filter.
  - intros b Hb. apply list_elem_of_filter in Hb as [Hr Hb]. apply refresh_forward; [done|]. now apply shard_sat.
Qed.

(** The accesses in time order replay the values of the cells. *)
Lemma memory_history : exists accesses,
  accesses ≡ₚ real_rows shard ≫= row_access_list /\ StronglySorted (fun p q => access_time p <= access_time q) accesses /\
  replay_values (initial_values shard) (access_values <$> accesses.*2) = Some (final_values shard).
Proof.
  set (items := memory_items). destruct shard_sat as (_ & _ & Hbumps & Hlocals).
  destruct (shard_shows shard (valid_sat _ _ Hvalid)) as (_ & _ & _ & _ & Es & Er). cbn zeta in *.
  assert (P : ((fun l => tuple (local_initial l)) <$> real_locals shard) ++ (memory_edge <$> items).*2 ≡ₚ
    ((fun l => tuple (local_final l)) <$> real_locals shard) ++ (memory_edge <$> items).*1).
  { pose proof (bus_permutation _ _ _ _ Es Er (valid_memory _ _ Hvalid)) as P.
    rewrite !active_app, !active_map, (active_accesses_bus _ (fun r a => access_source a)),
      (active_accesses_bus _ access_target), !app_assoc in P by (done || exact shard_lawful).
    subst items. unfold memory_items. rewrite !fmap_app, <- !list_fmap_compose.
    etransitivity; [apply Permutation_app_comm|]. etransitivity; [|apply Permutation_app_comm]. symmetry.
    apply P; apply Forall_app; (split; [apply Forall_app; split|]); try (apply forall_fmap_in; intros x Hx).
    all: first [now apply refresh_boolean, Hbumps|now apply local_boolean, Hlocals|now apply (accesses_boolean access_target)|
      now apply (accesses_boolean (fun _ a => access_source a))]. }
  destruct (tagged_history cell_key time_of memory_edge ((fun l => tuple (local_initial l)) <$> real_locals shard)
    ((fun l => tuple (local_final l)) <$> real_locals shard) items) as (items' & m' & Hp & Hs & Hrep & Hk & Hc);
    [|apply items_forward|exact P|].
  { rewrite <- list_fmap_compose. apply (valid_locals _ _ Hvalid). }
  exists (accesses_of items'). split; [|split].
  - unfold accesses_of. rewrite Hp. unfold items, memory_items. now rewrite omap_app, omap_inl, omap_inr, app_nil_r.
  - eapply sorted_omap; [|exact Hs]. intros [p|b] [q|b'] ? ? [= <-] [= <-] Hl.
    unfold later in Hl. cbn [memory_edge snd] in Hl. now rewrite !time_of_tuple in Hl.
  - apply replay_project, replay_accesses in Hrep. rewrite initial_project in Hrep.
    apply (keyed_contents cell_key) in Hc; [|done|rewrite <- list_fmap_compose; apply (valid_locals _ _ Hvalid)].
    rewrite Hc, initial_project in Hrep. exact Hrep.
Qed.

Lemma fmap_row_access rows : (rows ≫= row_access_list).*2 = rows ≫= active_accesses.
Proof.
  induction rows as [|r rows IH]; [done|]. rewrite !bind_cons, fmap_app, IH. f_equal. unfold row_access_list.
  rewrite <- list_fmap_compose. apply list_fmap_id.
Qed.

(** C2. Soundness of a shard.  If the constraints of all the rows of a shard
    hold, its state, memory and program buses balance, its program table is
    the preprocessed one and no cell is opened twice, then the real rows of
    its instruction chips are a run of the machine.  From any state whose
    program counter is the public [pc_start] and whose registers and memory hold the
    initial values of the shard's cells, fetching from the program and taking
    one step of the RISC-V semantics per real row succeeds; it ends at the
    public [next_pc], with registers and memory holding the cells' final values; and
    the public clock has advanced by 8 per instruction. *)
Theorem shard_sound s : Forall (fun i => well_formed i = true) (Program.instructions program) ->
  Rv64.pc s = pc_value pc_start -> agrees (initial_values shard) s ->
  exists s', run program (length (real_rows shard)) s = Some s' /\
    Rv64.pc s' = pc_value pv_next_pc /\ agrees (final_values shard) s' /\
    timestamp_value last_timestamp = timestamp_value initial_timestamp + CLK_INC * Z.of_nat (length (real_rows shard)).
Proof.
  intros Hw Hpc Ha. destruct (eval_state_sound (proj1 shard_sat)) as (T0 & TN & _ & P0 & _ & PN & _).
  destruct state_path as (items & Hpath & Hok & Hrows). destruct memory_history as (accesses & Hperm & Hs & Hrep).
  destruct (path_times program items _ _ Hpath Hok) as (Et & _ & Hsorted).
  assert (Hrok : Forall (row_ok program) (rows_of items)) by (rewrite Hrows; exact real_rows_ok).
  assert (E : accesses = rows_of items ≫= row_access_list).
  { apply (sorted_by_time_unique access_time); [done|now apply (rows_accesses_sorted program)|]. now rewrite Hrows. }
  rewrite E, fmap_row_access in Hrep.
  assert (Hfirst : state_pc (tuple first_state) (Rv64.pc s)) by (rewrite Hpc; now apply state_pc_values).
  destruct (path_runs program items Hw _ _ s _ _ Hpath Hok Hfirst Ha Hrep) as (s' & Hrun & Ha' & Hpc').
  rewrite <- (Permutation_length Hrows). exists s'. split; [done|]. split; [|split; [done|]].
  - apply (proj1 (state_pc_values _ _ _ _)) in Hpc'. exact (pc_means_unique _ _ _ Hpc' PN).
  - rewrite <- T0, <- TN. exact Et.
Qed.
End Soundness.
