(* ===== verification/Machine.v ===== *)
(** * Machine: from an execution record to a shard

    The instruction chips of [riscv/mod.rs] as one type of rows, the public
    values of a shard ([core/machine/src/executor.rs] and
    [hypercube/src/air/public_values.rs]), and the tables that the chips
    generate from the record of the executor.  A sample program is run by the
    executor of [Syscalls], its record is turned into a shard, and the shard is
    checked against [Shard.valid] by computation. *)
From Stdlib Require Import ZArith Lia Bool Permutation.
From stdpp Require Import base numbers option list gmap.
From S2P Require Import Prelude Isa PagedMemory SyscallCode State ExecMemory Interpreter Cost Syscalls Samples Rv64 Refinement Air KoalaBear ByteTable WordAir AddOps LtOps BitOps MulOps Bus MemAir Adapters Rows Chips ControlChips MemChips LoadChips StoreChips ShiftChips DivRemChip SystemChips Shard.

(** The variants of [RiscvAir] that are instruction chips of this development. *)
Inductive RiscvRow :=
| Add (c : AddChip.t) | Addw (c : AddwChip.t) | Addi (c : AddiChip.t) | Sub (c : SubChip.t) | Subw (c : SubwChip.t)
| Bitwise (c : BitwiseChip.t) | Mul (c : MulChip.t) | DivRem (c : DivRem.t) | Lt (c : LtChip.t)
| ShiftLeft (c : ShiftLeft.t) | ShiftRight (c : ShiftRightChip.t)
| LoadByte (c : LoadByteChip.t) | LoadHalf (c : LoadHalfChip.t) | LoadWord (c : LoadWordChip.t)
| LoadX0 (c : LoadX0Chip.t) | LoadDouble (c : LoadDoubleChip.t)
| StoreByte (c : StoreByteChip.t) | StoreHalf (c : StoreHalfChip.t) | StoreWord (c : StoreWordChip.t)
| StoreDouble (c : StoreDoubleChip.t)
| UType (c : UTypeChip.t) | Branch (c : BranchChip.t) | Jal (c : JalChip.t) | Jalr (c : JalrChip.t).

#[local] Obligation Tactic := idtac.
#[global] Program Instance riscv_chip `{AirBuilder} `{ShardPublicValues} `{InstructionFormats} : InstructionChip RiscvRow := {
  chip_eval r := match r with
    | Add c => AddChip.eval c | Addw c => AddwChip.eval c | Addi c => AddiChip.eval c | Sub c => SubChip.eval c
    | Subw c => SubwChip.eval c | Bitwise c => BitwiseChip.eval c | Mul c => MulChip.eval c | DivRem c => DivRem.eval c
    | Lt c => LtChip.eval c | ShiftLeft c => ShiftLeft.eval c | ShiftRight c => ShiftRightChip.eval c
    | LoadByte c => LoadByteChip.eval c | LoadHalf c => LoadHalfChip.eval c | LoadWord c => LoadWordChip.eval c
    | LoadX0 c => LoadX0Chip.eval c | LoadDouble c => LoadDoubleChip.eval c
    | StoreByte c => StoreByteChip.eval c | StoreHalf c => StoreHalfChip.eval c | StoreWord c => StoreWordChip.eval c
    | StoreDouble c => StoreDoubleChip.eval c
    | UType c => UTypeChip.eval c | Branch c => BranchChip.eval c | Jal c => JalChip.eval c | Jalr c => JalrChip.eval c end;
  chip_row r := match r with
    | Add c => chip_row c | Addw c => chip_row c | Addi c => chip_row c | Sub c => chip_row c
    | Subw c => chip_row c | Bitwise c => chip_row c | Mul c => chip_row c | DivRem c => chip_row c
    | Lt c => chip_row c | ShiftLeft c => chip_row c | ShiftRight c => chip_row c
    | LoadByte c => chip_row c | LoadHalf c => chip_row c | LoadWord c => chip_row c
    | LoadX0 c => chip_row c | LoadDouble c => chip_row c
    | StoreByte c => chip_row c | StoreHalf c => chip_row c | StoreWord c => chip_row c | StoreDouble c => chip_row c
    | UType c => chip_row c | Branch c => chip_row c | Jal c => chip_row c | Jalr c => chip_row c end }.
Next Obligation. intros ? ? ? ? [c|c|c|c|c|c|c|c|c|c|c|c|c|c|c|c|c|c|c|c|c|c|c|c]; exact (chip_lawful c). Qed.

(** ** Public values *)

(** The limbs of a timestamp. *)
Definition timestamp_limbs (t : Z) (i : nat) : Z :=
  nth i [u16 (t ≫ 32); u8 (Z.land (t ≫ 24) 0xFF); u8 (Z.land (t ≫ 16) 0xFF); u16 (Z.land t 0xFFFF)] 0.

(** [inv_high] and [inv_low] are what the previous shard left in the state. *)
Definition shard_public_values `{PrimeField} (pv : PublicValues.t) (inv_high inv_low : Z) : ShardPublicValues :=
  let initial := PublicValues.initial_timestamp pv in
  let last := PublicValues.last_timestamp pv in
  let initial_timestamp_high := u32 (initial ≫ 24) in
  let initial_timestamp_low := u32 (Z.land initial 0xFFFFFF) in
  let last_timestamp_high := u32 (last ≫ 24) in
  let last_timestamp_low := u32 (Z.land last 0xFFFFFF) in
  {| pc_start := pc_limbs (PublicValues.pc_start pv);
     pv_next_pc := pc_limbs (PublicValues.next_pc pv);
     is_execution_shard := 1;
     initial_timestamp := timestamp_limbs initial;
     last_timestamp := timestamp_limbs last;
     is_timestamp_high_eq := from_bool (initial_timestamp_high =? last_timestamp_high);
     inv_timestamp_high := if initial_timestamp_high =? last_timestamp_high then inv_high
       else as_canonical (finv (last_timestamp_high - initial_timestamp_high));
     is_timestamp_low_eq := from_bool (initial_timestamp_low =? last_timestamp_low);
     inv_timestamp_low := if initial_timestamp_low =? last_timestamp_low then inv_low
       else as_canonical (finv (last_timestamp_low - initial_timestamp_low));
     initial_timestamp_inv := if initial =? 1 then 0
       else as_canonical (finv (u32 (initial_timestamp_high + initial_timestamp_low - 1)));
     last_timestamp_inv := as_canonical (finv (u32 (last_timestamp_high + last_timestamp_low - 1)));
     is_first_shard := from_bool (initial =? 1);
     is_untrusted_programs_enabled := PublicValues.is_untrusted_programs_enabled pv |}.

(** ** Tables

    A table is part of the shard when it has events. *)
Definition table {E C R} (select : Event -> option E) (row : E -> option (C * list ByteLookupEvent)) (zero : C)
  (wrap : C -> R) (events : list Event) : option (list R) :=
  let selected : list E := omap select events in
  match selected with
  | [] => Some []
  | _ => fmap (M := list) wrap <$> generate_trace row zero selected None
  end.

Definition instruction_tables `{PrimeField} (enabled : Z) (events : list Event) : option (list RiscvRow) :=
  tables ← mapM id
    [table (fun e => match e with add_events e r => Some (e, r) | _ => None end) AddChip.generate_row AddChip.zero Add events;
     table (fun e => match e with addw_events e r => Some (e, r) | _ => None end) AddwChip.generate_row AddwChip.zero Addw events;
     table (fun e => match e with addi_events e r => Some (e, r) | _ => None end) AddiChip.generate_row AddiChip.zero Addi events;
     table (fun e => match e with sub_events e r => Some (e, r) | _ => None end) SubChip.generate_row SubChip.zero Sub events;
     table (fun e => match e with subw_events e r => Some (e, r) | _ => None end) SubwChip.generate_row SubwChip.zero Subw events;
     table (fun e => match e with bitwise_events e r => Some (e, r) | _ => None end) BitwiseChip.generate_row BitwiseChip.zero
       Bitwise events;
     table (fun e => match e with mul_events e r => Some (e, r) | _ => None end) MulChip.generate_row MulChip.zero Mul events;
     table (fun e => match e with divrem_events e r => Some (e, r) | _ => None end) DivRem.generate_row DivRem.padded_row_template
       DivRem events;
     table (fun e => match e with lt_events e r => Some (e, r) | _ => None end) LtChip.generate_row LtChip.zero Lt events;
     table (fun e => match e with shift_left_events e r => Some (e, r) | _ => None end) ShiftLeft.generate_row ShiftLeft.padded_row_template
       ShiftLeft events;
     table (fun e => match e with shift_right_events e r => Some (e, r) | _ => None end) ShiftRightChip.generate_row ShiftRightChip.padded_row
       ShiftRight events;
     table (fun e => match e with memory_load_byte_events e r => Some (e, r) | _ => None end) (LoadByteChip.generate_row enabled) LoadByteChip.zero
       LoadByte events;
     table (fun e => match e with memory_load_half_events e r => Some (e, r) | _ => None end) (LoadHalfChip.generate_row enabled) LoadHalfChip.zero
       LoadHalf events;
     table (fun e => match e with memory_load_word_events e r => Some (e, r) | _ => None end) (LoadWordChip.generate_row enabled) LoadWordChip.zero
       LoadWord events;
     table (fun e => match e with memory_load_x0_events e r => Some (e, r) | _ => None end) (LoadX0Chip.generate_row enabled) LoadX0Chip.zero
       LoadX0 events;
     table (fun e => match e with memory_load_double_events e r => Some (e, r) | _ => None end) (LoadDoubleChip.generate_row enabled) LoadDoubleChip.zero
       LoadDouble events;
     table (fun e => match e with memory_store_byte_events e r => Some (e, r) | _ => None end) (StoreByteChip.generate_row enabled) StoreByteChip.zero
       StoreByte events;
     table (fun e => match e with memory_store_half_events e r => Some (e, r) | _ => None end) (StoreHalfChip.generate_row enabled) StoreHalfChip.zero
       StoreHalf events;
     table (fun e => match e with memory_store_word_events e r => Some (e, r) | _ => None end) (StoreWordChip.generate_row enabled) StoreWordChip.zero
       StoreWord events;
     table (fun e => match e with memory_store_double_events e r => Some (e, r) | _ => None end) (StoreDoubleChip.generate_row enabled) StoreDoubleChip.zero
       StoreDouble events;
     table (fun e => match e with utype_events e r => Some (e, r) | _ => None end) UTypeChip.generate_row UTypeChip.zero UType events;
     table (fun e => match e with branch_events e r => Some (e, r) | _ => None end) BranchChip.generate_row BranchChip.zero
       Branch events;
     table (fun e => match e with jal_events e r => Some (e, r) | _ => None end) JalChip.generate_row JalChip.zero Jal events;
     table (fun e => match e with jalr_events e r => Some (e, r) | _ => None end) JalrChip.generate_row JalrChip.zero Jalr events];
  Some (mjoin tables).

(** The local memory events of the precompiles, then those of the processor. *)
Definition get_local_mem_events (events : list Event) : list MemoryLocalEvent.t :=
  (e ← events; match e with precompile_events _ _ e => PrecompileEvent.local_mem_access e | _ => [] end) ++
  omap (fun e => match e with cpu_local_memory_access e => Some e | _ => None end) events.

(** The shard of a record that has processor events; [height] is the height
    of the preprocessed program table. *)
Definition shard_of_record `{PrimeField} (program : Program.t) (height : option nat) (record : ExecutionRecord.t) :
  option (Shard RiscvRow) :=
  let events := ExecutionRecord.events record in
  rows ← instruction_tables (PublicValues.is_untrusted_programs_enabled (ExecutionRecord.public_values record)) events;
  state_bumps ← generate_trace (fun e => Some (StateBumpChip.generate_row e, StateBumpChip.row_dependencies e))
    StateBumpChip.zero (omap (fun e => match e with bump_state_events clk inc b pc => Some (clk, inc, b, pc) | _ => None end) events)
    None;
  memory_bumps ← generate_trace MemoryBumpChip.generate_row MemoryBumpChip.zero
    (omap (fun e => match e with bump_memory_events x addr b => Some (x, addr, b) | _ => None end) events) None;
  locals ← match get_local_mem_events events with
           | [] => Some []
           | l => generate_trace (fun e => Some (MemoryLocalChip.generate_row e, MemoryLocalChip.row_dependencies e))
                    MemoryLocalChip.zero l None
           end;
  prep ← ProgramChip.generate_preprocessed_trace program height;
  mults ← ProgramChip.generate_trace program events height;
  Some (mkShard rows state_bumps memory_bumps locals (zip prep mults)).

(** ** Checking a shard by computation *)
Section Check.
Context `{PrimeField}.

(** The validity of an event; the width of a range check is looked at first. *)
Definition event_okb (e : ByteLookupEvent) : bool :=
  match ev_opcode e with
  | ByteOpcode.Range => if (0 <=? ev_b e) && (ev_b e <=? 16) then fitsb (ev_b e) (ev_a e) && (ev_c e =? 0) else false
  | ByteOpcode.MSB => fitsb 8 (ev_b e) && (ev_c e =? 0) && (ev_a e =? ev_b e / 2 ^ 7)
  | op => fitsb 8 (ev_b e) && fitsb 8 (ev_c e) && (ev_a e =?
      match op with
      | ByteOpcode.AND => Z.land (ev_b e) (ev_c e)
      | ByteOpcode.OR => Z.lor (ev_b e) (ev_c e)
      | ByteOpcode.XOR => Z.lxor (ev_b e) (ev_c e)
      | ByteOpcode.LTU => from_bool (ev_b e <? ev_c e)
      | _ => 0
      end)
  end.
Lemma event_okb_sound e : event_okb e = true -> event_ok e.
Proof.
  unfold event_okb, event_ok. destruct (ev_opcode e); try (case_match eqn:B; [|discriminate]);
    rewrite ?andb_true_iff, ?Z.leb_le, ?Z.eqb_eq, ?fitsb_spec in *; tauto.
Qed.

Definition all_opcodes : list ByteOpcode.t := ByteOpcode.byte_table ++ [ByteOpcode.Range].
Definition byte_send_ok (i : AirInteraction) : bool :=
  bool_decide (multiplicity i ≐ 0) ||
  match as_canonical <$> values i with
  | [op; a; b; c] => existsb (fun o =>
      (as_canonical (ByteOpcode.as_field o) =? op) && event_okb (mkByteLookupEvent o a b c)) all_opcodes
  | _ => false
  end.
Definition call_ok (x : call) : bool :=
  match x with
  | Assert k => bool_decide (polynomial_holds k)
  | Send i => if decide (kind i = InteractionKind.Byte) then byte_send_ok i else true
  | Receive _ => true
  end.

Lemma call_ok_sound x : call_ok x = true -> sat_call x.
Proof.
  destruct x as [k|i|i]; cbn [call_ok sat_call]; [now intros ?%bool_decide_eq_true| |done]. case_decide as D; [|done].
  intros Hok _. apply answered_iff. apply orb_true_iff in Hok as [Hz|Hok]; [left; now apply bool_decide_eq_true in Hz|right].
  destruct (as_canonical <$> values i) as [|op [|a [|b [|c [|? ?]]]]] eqn:E; try discriminate.
  apply existsb_exists in Hok as (o & _ & Ho). apply andb_true_iff in Ho as [Eo He]. apply Z.eqb_eq in Eo.
  apply event_okb_sound in He. exists (mkByteLookupEvent o a b c). split; [done|].
  apply canonical_matches. rewrite E. unfold event_tuple. cbn.
  assert (C : as_canonical <$> [op; a; b; c] = [op; a; b; c]).
  { rewrite <- E, <- list_fmap_compose. apply list_fmap_ext. intros ? x _. apply canonical_idemp. }
  cbn in C. injection C as C1 C2 C3 C4. now rewrite Eo, C2, C3, C4.
Qed.
Lemma calls_ok_sound cs : forallb call_ok cs = true -> sat cs.
Proof. intros Hb. apply List.Forall_forall. intros x Hx. apply call_ok_sound. rewrite forallb_forall in Hb. auto. Qed.

(** A list of interactions without those that do not count. *)
Definition effective (l : list AirInteraction) : list (list Z * Z) :=
  (fun i => (tuple i, as_canonical (multiplicity i))) <$> filter (fun i => multiplicity i ≭ 0) l.
Definition effective_total (l : list (list Z * Z)) (t : list Z) : Z :=
  foldr (fun p s => if decide (p.1 = as_canonical <$> t) then p.2 + s else s) 0 l.

Lemma total_effective l t : total l t ≐ effective_total (effective l) t.
Proof.
  unfold effective. induction l as [|i l IH]; [done|]. cbn [total foldr]. fold (total l t). rewrite filter_cons.
  case_decide as D; rewrite canonical_matches in D; case_decide as M.
  - cbn [effective_total fmap list_fmap foldr fst snd]. rewrite decide_True by done. now rewrite as_canonical_feq, IH.
  - now rewrite M, IH.
  - cbn [effective_total fmap list_fmap foldr fst snd]. now rewrite decide_False by done.
  - exact IH.
Qed.
Lemma effective_total_perm l l' t : l ≡ₚ l' -> effective_total l t = effective_total l' t.
Proof.
  induction 1 as [|x l l' _ IH|x y l|l1 l2 l3 _ IH1 _ IH2]; [done| | |congruence].
  - unfold effective_total in *. cbn. now rewrite IH.
  - unfold effective_total. cbn. repeat case_decide; lia.
Qed.

Fixpoint remove_one {A} `{EqDecision A} (x : A) (l : list A) : option (list A) :=
  match l with
  | [] => None
  | y :: l => if decide (x = y) then Some l else cons y <$> remove_one x l
  end.
Lemma remove_one_perm {A} `{EqDecision A} (x : A) l l' : remove_one x l = Some l' -> l ≡ₚ x :: l'.
Proof.
  revert l'. induction l as [|y l IH]; intros l' Hr; [discriminate|]. cbn in Hr. case_decide as D.
  - now injection Hr as <-; subst y.
  - apply fmap_Some in Hr as (k & Hk & ->). rewrite (IH k Hk). constructor.
Qed.

Fixpoint permutation_check {A} `{EqDecision A} (l k : list A) : bool :=
  match l with
  | [] => bool_decide (k = [])
  | x :: l => match remove_one x k with Some k' => permutation_check l k' | None => false end
  end.
Lemma permutation_check_sound {A} `{EqDecision A} (l k : list A) : permutation_check l k = true -> l ≡ₚ k.
Proof.
  revert k. induction l as [|x l IH]; intros k Hk; cbn in Hk; [now apply bool_decide_eq_true in Hk as ->|].
  destruct (remove_one x k) as [k'|] eqn:E; [|discriminate]. rewrite (remove_one_perm x k k' E). constructor. auto.
Qed.

Definition bus_ok (cs : list call) (k : InteractionKind.t) : bool :=
  (Z.of_nat (length (sends k cs)) <? order) && (Z.of_nat (length (receives k cs)) <? order) &&
  permutation_check (effective (sends k cs)) (effective (receives k cs)).
Lemma bus_ok_sound cs k : bus_ok cs k = true -> bus_balanced cs k.
Proof.
  unfold bus_ok. rewrite !andb_true_iff, !Z.ltb_lt. intros [[Hs Hr] Hp]. split; [done|]. split; [done|].
  intros t. rewrite !total_effective. rewrite (effective_total_perm _ _ t (permutation_check_sound _ _ Hp)). done.
Qed.
End Check.

Section CheckShard.
Context `{PrimeField} `{ShardPublicValues} `{InstructionFormats}.

Definition shard_ok (shard : Shard RiscvRow) : bool :=
  let cs := shard_calls shard in
  forallb call_ok cs && bus_ok cs InteractionKind.State && bus_ok cs InteractionKind.Memory &&
  bus_ok cs InteractionKind.Program && bool_decide (NoDup (local_address <$> real_locals shard)).
(** Initial values are zero, at addresses the machine has. *)
Definition zero_initial (shard : Shard RiscvRow) : bool :=
  forallb (fun l => bool_decide (as_canonical <$> word_limbs (MemoryLocalChip.initial_value l) = limbs_of 0) &&
    (as_canonical (MemoryLocalChip.addr l).2 <? 2 ^ 8)) (real_locals shard).

Lemma next_multiple_ge n m : next_multiple_of_32 n None = Some m -> (n <= m)%nat.
Proof.
  unfold next_multiple_of_32. intros Em. apply (inj Some) in Em as <-. pose proof (Nat.div_mod_eq (n + 31) 32). pose proof (Nat.mod_upper_bound (n + 31) 32 ltac:(lia)).
  destruct (Nat.ltb_spec ((n + 31) / 32 * 32) 16); lia.
Qed.

(** The shard of a record holds the preprocessed table. *)
Lemma shard_table program record shard : shard_of_record program None record = Some shard ->
  ProgramChip.generate_preprocessed_trace program None = Some (program_rows shard).*1.
Proof.
  unfold shard_of_record. intros Hs. repeat (apply bind_Some in Hs as (? & ? & Hs)). injection Hs as <-. cbn [program_rows].
  match goal with H1 : ProgramChip.generate_preprocessed_trace _ _ = Some ?p, H2 : ProgramChip.generate_trace _ _ _ = Some ?m |- _ =>
    rename p into prep, m into mults, H1 into Hp, H2 into Hm end.
  rewrite fst_zip; [exact Hp|]. unfold ProgramChip.generate_preprocessed_trace in Hp. unfold ProgramChip.generate_trace, pad_rows_fixed in Hm.
  rewrite length_imap in Hm. apply bind_Some in Hp as (n & Hn & Hp). rewrite Hn in Hm. injection Hm as <-.
  case_match; [|discriminate]. apply length_mapM in Hp. rewrite length_seq in Hp. pose proof (next_multiple_ge _ _ Hn).
  rewrite length_app, length_replicate, length_imap. lia.
Qed.

Lemma shard_ok_sound program record shard : shard_of_record program None record = Some shard ->
  shard_ok shard = true -> valid program shard.
Proof.
  intros Hs. unfold shard_ok. rewrite !andb_true_iff. intros [[[[Hc Hst] Hm] Hp] Hn]. split.
  - exact (calls_ok_sound _ Hc).
  - exact (bus_ok_sound _ _ Hst).
  - exact (bus_ok_sound _ _ Hm).
  - exact (bus_ok_sound _ _ Hp).
  - exists None. exact (shard_table _ _ _ Hs).
  - exact (bool_decide_eq_true_1 _ Hn).
Qed.

Lemma zero_initial_sound shard s : zero_initial shard = true -> (forall r, Rv64.get s r = 0) -> (forall x, Rv64.mem s x = 0) ->
  (forall x, Rv64.may_read s x = true /\ Rv64.may_write s x = true) -> agrees (initial_values shard) s.
Proof.
  intros Hi Hs Hm Hp.
  assert (G : forall k ws, initial_values shard !! k = Some ws -> ws = limbs_of 0 /\ nth 2 k 0 < 2 ^ 8).
  { intros k ws Hr. unfold initial_values in Hr. apply elem_of_list_to_map_2, list_elem_of_fmap in Hr as (l & Er & Hl).
    unfold zero_initial in Hi. rewrite forallb_forall in Hi. apply list_elem_of_In, Hi, andb_true_iff in Hl as [Hl Ha].
    apply bool_decide_eq_true in Hl. apply Z.ltb_lt in Ha. injection Er as -> ->. split; [exact Hl|exact Ha]. }
  split.
  - intros r ws _ Hr. destruct (G _ _ Hr) as [-> _]. rewrite Hs. split; [unfold fits; lia|done].
  - intros a ws Ba Hal Hr. destruct (G _ _ Hr) as [-> Hk]. cbn in Hk. exists 0. split; [unfold fits; lia|]. split; [done|].
    intros x Hx. destruct (Hp x) as [Hp1 Hp2]. split; [|rewrite Hm; unfold byte_of; now rewrite Zdiv_0_l].
    split; [|done]. unfold Rv64.mapped. lia_mod.
Qed.
End CheckShard.

(** ** A shard of the executor *)
Section Sample.
Import Opcode.

(** The clock crosses a multiple of [2^24] and the program counter one of
    [2^16]; two instructions are jumped over. *)
Definition shard_code : list Instruction.t :=
  [ Instruction.new ADDI 5 0 7 false true;
    Instruction.new ADD 6 5 5 false false;
    Instruction.new SUB 7 5 6 false false;
    Instruction.new ADDW 8 7 6 false false;
    Instruction.new SUBW 9 7 5 false false;
    Instruction.new XOR 10 7 6 false false;
    Instruction.new SLT 11 7 6 false false;
    Instruction.new MUL 12 7 6 false false;
    Instruction.new MULH 13 7 7 false false;
    Instruction.new LUI 14 0x10000 0x10000 true true;
    Instruction.new AUIPC 15 0x1000 0x1000 true true;
    Instruction.new BNE 5 6 8 false true;
    Instruction.new ADDI 5 0 0 false true;
    Instruction.new JAL 1 8 0 true true;
    Instruction.new ADDI 5 0 0 false true;
    Instruction.new JALR 16 14 0x20 false true;
    Instruction.new ADDI 17 5 2047 false true;
    Instruction.new OR 18 17 0xff false true;
    Instruction.new SD 7 14 0x100 false true;
    Instruction.new SB 18 14 0x103 false true;
    Instruction.new SH 17 14 0x106 false true;
    Instruction.new SW 10 14 0x104 false true;
    Instruction.new LB 19 14 0x103 false true;
    Instruction.new LBU 20 14 0x102 false true;
    Instruction.new LH 21 14 0x106 false true;
    Instruction.new LHU 22 14 0x104 false true;
    Instruction.new LW 23 14 0x104 false true;
    Instruction.new LWU 24 14 0x100 false true;
    Instruction.new LD 25 14 0x100 false true;
    Instruction.new LD 0 14 0x100 false true;
    Instruction.new SLL 26 7 6 false false;
    Instruction.new SLLW 27 7 19 false true;
    Instruction.new SRL 28 7 5 false false;
    Instruction.new SRA 29 7 0x21 false true;
    Instruction.new SRLW 30 7 6 false false;
    Instruction.new SRAW 31 7 3 false true;
    Instruction.new DIV 19 7 11 false false;
    Instruction.new REM 20 7 6 false false;
    Instruction.new DIVU 21 7 6 false false;
    Instruction.new REMU 22 6 5 false false;
    Instruction.new DIVW 23 27 7 false false;
    Instruction.new REMW 24 7 0 false false;
    Instruction.new DIVUW 25 7 5 false false;
    Instruction.new REMUW 26 7 6 false false ].
Definition shard_program : Program.t := Program.mk shard_code 0xffe0 0xffe0 ∅ ∅ false.
(** The size of the shard is checked, and found too large, after 42 cycles. *)
Definition shard_context : Context.t :=
  Context.mk shard_program None 42 (Some (0, 0)) (fun _ => 1) [] [] 0 [] None false (fun _ => None) None None Manual.decode.
Definition shard_start : Executor.t :=
  let s := Executor.with_context shard_context in
  Executor.set_state (ExecutionState.set_global_clk 42 (ExecutionState.set_clk (2 ^ 24 - 31) (Executor.state s))) s.

Definition shard_record : ExecutionRecord.t :=
  match execute no_precompile 48 Trace shard_start with
  | Ret _ s => Executor.record s
  | _ => ExecutionRecord.default
  end.
(** The machine at the start, with all registers zero. *)
Definition sample_arch : Rv64.arch := Rv64.mkArch 0xffe0 (fun _ => 0) (fun _ => 0) (fun _ => true) (fun _ => true).
End Sample.

Notation sample_shard := (shard_of_record shard_program None shard_record).
#[local] Instance sample_public_values : ShardPublicValues :=
  shard_public_values (ExecutionRecord.public_values shard_record) 0 0.

Lemma sample_arch_zero r : Rv64.get sample_arch r = 0.
Proof. unfold Rv64.get. now case_match. Qed.

Lemma sample_checks : match sample_shard with Some s => shard_ok s && zero_initial s | None => false end = true.
Proof. vm_compute. reflexivity. Qed.
Lemma sample_trusted : is_untrusted_programs_enabled ≐ 0.
Proof. vm_compute. reflexivity. Qed.
Lemma sample_pc : Rv64.pc sample_arch = pc_value pc_start /\ pc_value pv_next_pc = 0x10090.
Proof. vm_compute. split; reflexivity. Qed.
Lemma sample_well_formed : Forall (fun i => well_formed i = true) (Program.instructions shard_program).
Proof. repeat constructor. Qed.

Lemma shard_sound_witness : exists shard s', sample_shard = Some shard /\
  run shard_program (length (real_rows shard)) sample_arch = Some s' /\ Rv64.pc s' = 0x10090 /\
  agrees (final_values shard) s'.
Proof.
  pose proof sample_checks as Hok.
  destruct sample_shard as [shard|] eqn:E; [|discriminate Hok]. apply andb_true_iff in Hok as [Hok Hz].
  destruct (shard_sound shard_program shard (shard_ok_sound _ _ _ E Hok) sample_trusted) with (s := sample_arch)
    as (s' & Hr & Hpc & Hf & _).
  - apply fitsb_spec. reflexivity.
  - exact sample_well_formed.
  - apply sample_pc.
  - exact (zero_initial_sound _ _ Hz sample_arch_zero (fun _ => eq_refl) (fun _ => conj eq_refl eq_refl)).
  - exists shard, s'. split; [reflexivity|]. split; [exact Hr|]. split; [|exact Hf]. rewrite Hpc. apply sample_pc.
Defined.
