(* ===== verification/ShaShard.v ===== *)
(** * ShaShard: the SHA_EXTEND tables prove the system call

    The tables of a SHA_EXTEND call meet on two buses: the state of the
    iteration goes from the controller through the rows and back, and the
    words go through memory.  From constraints that hold and buses that
    balance this file recovers the order of the 48 rows and of their accesses,
    and shows that memory ends as the executor's handler leaves it. *)
From Stdlib Require Import ZArith Lia Bool Permutation Sorted.
From stdpp Require Import base numbers option list gmap sorting.
From S2P Require Import Prelude Curves SyscallCode State Syscalls Precompiles Logic Refinement SliceLogic Fips180 Sha256Proofs Air KoalaBear ByteTable WordAir AddOps BitOps U32Ops Bus MemAir Adapters PageOps ShaAir Rows Chips SystemChips Shard Machine Samples.

(** ** Memory words on the bus *)
Section Words.
Context `{AirBuilder}.
Import ShaExtendChip.

(** The double words of [w] are those that are on the bus. *)
Definition words_agree (m : values_map) (w : Z -> Z) : Prop :=
  forall a ws, 2 ^ 16 <= a < 2 ^ 48 -> a mod 8 = 0 -> m !! memory_key a = Some ws -> is_u64 (w a) /\ ws = limbs_of (w a).

Lemma address_memory_key limbs a : address_repr limbs a -> as_canonical <$> addr_limbs limbs = memory_key a.
Proof.
  intros (l0 & l1 & l2 & B0 & B1 & B2 & -> & E0 & E1 & E2). pose proof order_large. unfold fits in *. destruct limbs as [[a0 a1] a2].
  unfold addr_limbs, memory_key. cbn in *. rewrite (canonical_small a0 l0), (canonical_small a1 l1), (canonical_small a2 l2) by (assumption || lia).
  repeat f_equal; lia_mod.
Qed.

Definition access_triple (x : AddrAddOperation.t * MemoryAccessCols.t * Word) : list Z * list Z * list Z :=
  (as_canonical <$> addr_limbs (AddrAddOperation.value x.1.1), as_canonical <$> word_limbs (MemoryAccessCols.prev_value x.1.2),
   as_canonical <$> word_limbs x.2).

(** A word found on the bus. *)
Lemma word_found m w ptr access a : words_agree m w -> 2 ^ 16 <= a < 2 ^ 48 -> a mod 8 = 0 -> word_read ptr access a ->
  m !! (as_canonical <$> addr_limbs (AddrAddOperation.value ptr)) = Some (as_canonical <$> word_limbs (MemoryAccessCols.prev_value access)) ->
  half_repr (half_word access) (w a).
Proof.
  intros Hw Ba Ha Hr Hm. rewrite (address_memory_key _ a (read_address _ _ _ Hr)) in Hm. destruct (Hw a _ Ba Ha Hm) as [Hv E].
  apply (word_half ptr access a); [exact Hr|]. split; [exact Hv|]. apply canonical_matches. rewrite E. symmetry.
  now apply canonical_word, represents_from_u64.
Qed.

Lemma replay_written (m m' : values_map) k old new : replay_values m [(k, old, new)] = Some m' -> m' = <[k := new]> m.
Proof. cbn. case_decide; [now intros [=]|discriminate]. Qed.

Lemma half_written h v : half_repr h v -> mkWord h.1 h.2 0 0 ∼ v.
Proof.
  intros (l0 & l1 & -> & B0 & B1 & E0 & E1)%half_elim.
  replace (l0 + 2 ^ 16 * l1) with (l0 + 2 ^ 16 * l1 + 2 ^ 32 * 0 + 2 ^ 48 * 0) by lia.
  apply represents_intro; try assumption; unfold fits; cbn; lia || reflexivity.
Qed.

(** One row, on the words. *)
Lemma row_words local a n m m' w :
  is_real local ≐ 1 -> sat (eval local) -> address_repr (w_ptr local) a -> 16 <= n < 64 -> i local ≐ n ->
  2 ^ 16 <= a -> a + 512 < 2 ^ 48 -> a mod 8 = 0 -> words_agree m w ->
  replay_values m (access_triple <$> extend_accesses local) = Some m' ->
  let word k := w (a + 8 * (n - k)) in
  let next := (Fips.sigma1 (word 2) + word 7 + Fips.sigma0 (word 15) + word 16) mod 2 ^ 32 in
  (is_u32 (word 15) /\ is_u32 (word 2) /\ is_u32 (word 16) /\ is_u32 (word 7)) /\
  words_agree m' (fun x => if x =? a + 8 * n then next else w x).
Proof.
  intros Hreal Hs Hptr Bn En La Ua Ha Hw Hm word next.
  destruct (row_reads local a Hreal Hs Hptr n Bn En) as (R15 & R2 & R16 & R7).
  unfold extend_accesses in Hm. cbn [fmap list_fmap access_triple fst snd] in Hm. unfold access_triple in Hm. cbn [fst snd] in Hm.
  apply replay_read_inv in Hm as [F15 Hm]. apply replay_read_inv in Hm as [F2 Hm].
  apply replay_read_inv in Hm as [F16 Hm]. apply replay_read_inv in Hm as [F7 Hm]. apply replay_written in Hm as ->.
  assert (G : forall k, 2 <= k <= 16 -> 2 ^ 16 <= a + 8 * (n - k) < 2 ^ 48 /\ (a + 8 * (n - k)) mod 8 = 0) by (intros; lia_mod).
  apply (word_found m w _ _ _ Hw (proj1 (G 15 ltac:(lia))) (proj2 (G 15 ltac:(lia))) R15) in F15.
  apply (word_found m w _ _ _ Hw (proj1 (G 2 ltac:(lia))) (proj2 (G 2 ltac:(lia))) R2) in F2.
  apply (word_found m w _ _ _ Hw (proj1 (G 16 ltac:(lia))) (proj2 (G 16 ltac:(lia))) R16) in F16.
  apply (word_found m w _ _ _ Hw (proj1 (G 7 ltac:(lia))) (proj2 (G 7 ltac:(lia))) R7) in F7.
  split; [split_and!; [apply F15|apply F2|apply F16|apply F7]|].
  pose proof (row_value local Hreal Hs _ _ _ _ F15 F2 F16 F7) as V. fold (word 15) (word 2) (word 16) (word 7) next in V.
  pose proof (row_write_address local a Hreal Hs Hptr n Bn En) as Hwa. rewrite (address_memory_key _ _ Hwa).
  intros x ws Bx Hx Hk. destruct (Z.eqb_spec x (a + 8 * n)) as [->|Hne].
  - rewrite lookup_insert_eq in Hk. apply (inj Some) in Hk as <-. apply half_written in V.
    split; [apply V|]. now apply canonical_word.
  - rewrite lookup_insert_ne in Hk; [now apply Hw|]. unfold memory_key. intros [= E0 E1 E2]. lia_mod.
Qed.
(** [W] is the beginning of the array at [a]. *)
Definition array_at (a : Z) (W : list Z) (w : Z -> Z) : Prop :=
  forall k, (k < length W)%nat -> W !! k = Some (w (a + 8 * Z.of_nat k)).

Lemma array_word a W w k : array_at a W w -> (k < length W)%nat -> Fips.word W k = w (a + 8 * Z.of_nat k).
Proof. intros Hw Hk. unfold Fips.word. now rewrite (Hw k Hk). Qed.
Lemma array_push a W w v : array_at a W w ->
  array_at a (W ++ [v]) (fun x => if x =? a + 8 * Z.of_nat (length W) then v else w x).
Proof.
  intros Hw k Hk. rewrite length_app in Hk. cbn in Hk. destruct (Z.eqb_spec (a + 8 * Z.of_nat k) (a + 8 * Z.of_nat (length W))).
  - replace k with (length W) by lia. now rewrite lookup_app_r, Nat.sub_diag by lia.
  - rewrite lookup_app_l by lia. apply Hw. lia.
Qed.
Lemma schedule_prefix n W k : (k < length W)%nat -> Fips.schedule n W !! k = W !! k.
Proof. intros Hk. destruct (schedule_app n W) as (l & -> & _). now rewrite lookup_app_l. Qed.

(** A row of the call at address [a], for word [n]. *)
Record call_row (a : Z) (n : nat) (local : t) : Prop := {
  call_row_real : is_real local ≐ 1;
  call_row_sat : sat (eval local);
  call_row_ptr : address_repr (w_ptr local) a;
  call_row_index : i local ≐ Z.of_nat n }.

(** Consecutive rows extend the schedule. *)
Lemma rows_words a rows : 2 ^ 16 <= a -> a + 512 < 2 ^ 48 -> a mod 8 = 0 -> forall W m m' w,
  (forall j row, rows !! j = Some row -> call_row a (length W + j) row) ->
  (16 <= length W)%nat -> (length W + length rows <= 64)%nat -> array_at a W w -> words_agree m w ->
  replay_values m (rows ≫= fun row => access_triple <$> extend_accesses row) = Some m' ->
  exists w', words_agree m' w' /\ array_at a (Fips.schedule (length rows) W) w' /\
    (forall x, (forall k, (length W <= k < length W + length rows)%nat -> x <> a + 8 * Z.of_nat k) -> w' x = w x) /\
    (forall j, (j < length rows)%nat -> is_u32 (Fips.word (Fips.schedule (length rows) W) (length W - 16 + j))).
Proof.
  intros La Ua Ha. induction rows as [|row rows IH]; intros W m m' w Hrows HL HU HW Hw Hm.
  { injection Hm as <-. exists w. split_and!; try done. cbn. lia. }
  rewrite bind_cons in Hm. apply replay_values_app in Hm as (m1 & Hm1 & Hm).
  destruct (Hrows 0%nat row eq_refl) as [Hreal Hs Hptr Hi]. rewrite Nat.add_0_r in Hi. cbn [length] in HU.
  destruct (row_words row a (Z.of_nat (length W)) m m1 w Hreal Hs Hptr ltac:(lia) Hi La Ua Ha Hw Hm1) as [(_ & _ & U16 & _) Hw1].
  set (next := _ mod 2 ^ 32) in Hw1.
  assert (En : next = Fips.next_word W).
  { unfold next, Fips.next_word. rewrite !(array_word a W w) by (assumption || lia). rewrite !Nat2Z.inj_sub by lia. reflexivity. }
  rewrite En in Hw1.
  pose proof (array_push a W w (Fips.next_word W) HW) as HW1. set (w1 := fun x => if x =? a + 8 * Z.of_nat (length W) then Fips.next_word W else w x) in *.
  assert (Hl : length (W ++ [Fips.next_word W]) = S (length W)) by (rewrite length_app; cbn; lia).
  specialize (IH (W ++ [Fips.next_word W]) m1 m' w1). rewrite Hl in IH.
  destruct IH as (w' & Hw' & HS & Hx & HU32); [|lia..|done|done|done|].
  { intros j r Hj. replace (S (length W) + j)%nat with (length W + S j)%nat by lia. now apply Hrows. }
  exists w'. split; [done|]. split; [done|]. cbn [length Fips.schedule]. split.
  - intros x Hk. rewrite Hx by (intros k Bk; apply Hk; lia). unfold w1.
    destruct (Z.eqb_spec x (a + 8 * Z.of_nat (length W))); [|done]. exfalso. apply (Hk (length W)); lia.
  - intros [|j] Hj; [|replace (length W - 16 + S j)%nat with (S (length W) - 16 + j)%nat by lia; apply HU32; lia].
    unfold Fips.word. rewrite schedule_prefix, lookup_app_l, (HW _) by (rewrite ?Hl; lia). cbn.
    replace (a + _) with (a + 8 * (Z.of_nat (length W) - 16)) by lia. exact U16.
Qed.
End Words.

(** ** The tables of a call *)
Record ShaShard := mkShaShard {
  control_row : ShaExtendControlChip.t;
  extend_rows : list ShaExtendChip.t;
  sha_local_rows : list MemoryLocalChip.t }.

Section Tables.
Context `{AirBuilder} `{ShardPublicValues}.

Definition sha_calls (shard : ShaShard) : list call :=
  ShaExtendControlChip.eval (control_row shard) ++
  (extend_rows shard ≫= ShaExtendChip.eval) ++
  (sha_local_rows shard ≫= MemoryLocalChip.eval).

Definition sha_locals (shard : ShaShard) : list MemoryLocalChip.t :=
  filter (fun l => MemoryLocalChip.is_real l ≐ 1) (sha_local_rows shard).
(** The cells, with the values before the first and after the last access. *)
Definition cell_values (value : MemoryLocalChip.t -> Word) (locals : list MemoryLocalChip.t) : values_map :=
  list_to_map ((fun l => (local_address l, as_canonical <$> word_limbs (value l))) <$> locals).

(** The constraints hold, the two buses balance, and no cell is opened twice. *)
Record sha_valid (shard : ShaShard) : Prop := {
  sha_valid_sat : sat (sha_calls shard);
  sha_valid_state : bus_balanced (sha_calls shard) InteractionKind.ShaExtend;
  sha_valid_memory : bus_balanced (sha_calls shard) InteractionKind.Memory;
  sha_valid_locals : NoDup (local_address <$> sha_locals shard) }.

(** The system call the controller has received: the two parts of its clock,
    which is one more than a multiple of eight, and the address in 16-bit
    limbs, as the chip of system calls sends them. *)
Record sha_call (c : ShaExtendControlChip.t) (clk w_ptr : Z) : Prop := {
  sha_call_real : ShaExtendControlChip.is_real c ≐ 1;
  sha_call_clk : 0 <= clk < 2 ^ 48 - 2 ^ 24 /\ clk mod 8 = 1;
  sha_call_high : ShaExtendControlChip.clk_high c ≐ clk / 2 ^ 24;
  sha_call_low : ShaExtendControlChip.clk_low c ≐ clk mod 2 ^ 24;
  sha_call_ptr : address_repr (SyscallAddrOperation.addr (ShaExtendControlChip.w_ptr c)) w_ptr }.

Definition real_extend_rows (shard : ShaShard) : list ShaExtendChip.t :=
  filter (fun r => ShaExtendChip.is_real r ≐ 1) (extend_rows shard).

(** What the tables send and receive on the two buses. *)
Lemma sha_interactions shard :
  sends InteractionKind.ShaExtend (sha_calls shard) ≡ₚ [control_sent (control_row shard)] ++ (state_sent <$> extend_rows shard) /\
  receives InteractionKind.ShaExtend (sha_calls shard) ≡ₚ [control_received (control_row shard)] ++ (state_received <$> extend_rows shard) /\
  sends InteractionKind.Memory (sha_calls shard) ≡ₚ
    (extend_rows shard ≫= fun r => access_sent r <$> extend_accesses r) ++ (local_final <$> sha_local_rows shard) /\
  receives InteractionKind.Memory (sha_calls shard) ≡ₚ
    (extend_rows shard ≫= fun r => access_received r <$> extend_accesses r) ++ (local_initial <$> sha_local_rows shard).
Proof.
  unfold sha_calls. rewrite !sends_app, !receives_app. destruct (control_interactions (control_row shard)) as (-> & -> & -> & ->).
  rewrite <- !(bind_singleton state_sent), <- !(bind_singleton state_received), <- !(bind_singleton local_final), <- !(bind_singleton local_initial).
  pose proof row_interactions as R.
  rewrite (sends_bind InteractionKind.ShaExtend ShaExtendChip.eval (fun r => [state_sent r])) by (intros; now rewrite (proj1 (proj2 (proj2 (R x))))).
  rewrite (receives_bind InteractionKind.ShaExtend ShaExtendChip.eval (fun r => [state_received r])) by (intros; now rewrite (proj2 (proj2 (proj2 (R x))))).
  rewrite (sends_bind InteractionKind.Memory ShaExtendChip.eval (fun r => access_sent r <$> extend_accesses r)) by (intros; now rewrite (proj1 (R x))).
  rewrite (receives_bind InteractionKind.Memory ShaExtendChip.eval (fun r => access_received r <$> extend_accesses r)) by (intros; now rewrite (proj1 (proj2 (R x)))).
  rewrite (sends_bind InteractionKind.ShaExtend MemoryLocalChip.eval (fun _ => [])), (receives_bind InteractionKind.ShaExtend MemoryLocalChip.eval (fun _ => [])),
    (sends_bind InteractionKind.Memory MemoryLocalChip.eval (fun l => [local_final l])), (receives_bind InteractionKind.Memory MemoryLocalChip.eval (fun l => [local_initial l])) by done.
  rewrite !bind_nil_fn, !app_nil_r. split_and!; reflexivity.
Qed.
End Tables.

(** ** The order of the rows *)
Section Order.
Context `{AirBuilder} `{ShardPublicValues}.
Import ShaExtendChip.

Definition extend_edge (r : t) : list Z * list Z := (tuple (state_received r), tuple (state_sent r)).

Lemma state_feq h l p k h' l' p' k' : Forall2 feq (state_values h l p k) (state_values h' l' p' k') ->
  h ≐ h' /\ l ≐ l' /\ p.1.1 ≐ p'.1.1 /\ p.1.2 ≐ p'.1.2 /\ p.2 ≐ p'.2 /\ k ≐ k'.
Proof. destruct p as [[p0 p1] p2], p' as [[q0 q1] q2]. unfold state_values, addr_limbs. cbn. intros F. decompose_Forall_hyps. tauto. Qed.

(** The rows of a path have the state it started from, with consecutive indices. *)
Lemma path_states h l p rows y : forall k, path extend_edge (as_canonical <$> state_values h l p k) rows y ->
  (forall j r, rows !! j = Some r -> Forall2 feq (values (state_received r)) (state_values h l p (k + Z.of_nat j))) /\
  y = as_canonical <$> state_values h l p (k + Z.of_nat (length rows)).
Proof.
  induction rows as [|r rows IH]; intros k Hp; cbn [path] in Hp.
  { subst y. cbn. rewrite Z.add_0_r. split; [intros j r Hr; discriminate|done]. }
  destruct Hp as [Er Hp]. cbn [extend_edge fst snd] in Er, Hp. unfold tuple in Er. apply canonical_matches in Er.
  assert (Es : tuple (state_sent r) = as_canonical <$> state_values h l p (k + 1)).
  { apply canonical_matches. cbn [state_received state_sent values] in *. unfold state_values, addr_limbs in *. cbn [app] in *.
    destruct (w_ptr r) as [[p0 p1] p2], p as [[q0 q1] q2]. cbn in Er |- *. decompose_Forall_hyps.
    repeat (constructor; [assumption|]). constructor; [now apply feq_add|constructor]. }
  rewrite Es in Hp. destruct (IH _ Hp) as [Hr ->]. split; [|do 2 f_equal; cbn [length]; lia].
  intros [|j] r' Hj; [injection Hj as <-; now rewrite Z.add_0_r|].
  replace (k + Z.of_nat (S j)) with (k + 1 + Z.of_nat j) by lia. now apply Hr.
Qed.

Context (shard : ShaShard) (clk a : Z).
Hypothesis Hvalid : sha_valid shard.
Hypothesis Hcall : sha_call (control_row shard) clk a.

Lemma tables_sat : sat (ShaExtendControlChip.eval (control_row shard)) /\
  (forall r, r ∈ extend_rows shard -> sat (eval r)) /\
  (forall l, l ∈ sha_local_rows shard -> sat (MemoryLocalChip.eval l)).
Proof.
  pose proof (sha_valid_sat _ Hvalid) as Hs. unfold sha_calls in Hs. rewrite !sat_app, !sat_bind in Hs. exact Hs.
Qed.
Lemma extend_boolean r : sat (eval r) -> is_real r ≐ 0 \/ is_real r ≐ 1.
Proof. rewrite eval_parts, sat_app. intros [Hs _]. unfold state_part in Hs. rewrite sat_app, sat_cons in Hs. now apply holds_assert_bool, Hs. Qed.

Lemma extend_path : exists rows, rows ≡ₚ real_extend_rows shard /\
  path extend_edge (tuple (control_sent (control_row shard))) rows (tuple (control_received (control_row shard))).
Proof.
  destruct tables_sat as (_ & Hrows & _). pose proof (sha_call_real _ _ _ Hcall) as Hc.
  destruct (sha_interactions shard) as (Es & Er & _).
  assert (P : [tuple (control_sent (control_row shard))] ++ (extend_edge <$> real_extend_rows shard).*2 ≡ₚ
    [tuple (control_received (control_row shard))] ++ (extend_edge <$> real_extend_rows shard).*1).
  { pose proof (bus_permutation _ _ _ _ Es Er (sha_valid_state _ Hvalid)) as P. rewrite !active_app, !active_map in P.
    unfold active in P at 1 2. rewrite !filter_cons, !decide_True in P by exact Hc. rewrite <- !list_fmap_compose. apply P.
    all: apply Forall_app; split; [apply Forall_singleton; now right|apply forall_fmap_in; intros r Hr].
    all: now apply extend_boolean, Hrows. }
  destruct (tagged_history (fun _ => tt) (fun t => nth 5 t 0) extend_edge [tuple (control_sent (control_row shard))]
    [tuple (control_received (control_row shard))] (real_extend_rows shard)) as (rows & m' & Hl & _ & Hrep & _ & Hm);
    [apply NoDup_singleton| |exact P|].
  { apply list.Forall_forall. intros r Hr. apply list_elem_of_filter in Hr as [Hreal Hr]. split; [done|].
    destruct (row_index r Hreal (Hrows r Hr)) as (n & Bn & En). pose proof order_large. cbn.
    destruct (w_ptr r) as [[p0 p1] p2]. cbn. rewrite (canonical_small (i r) n), (canonical_small (i r + 1) (n + 1)) by (lia || now rewrite ?En). lia. }
  exists rows. split; [done|]. eapply replay_path; [exact Hrep|exact Hm].
Qed.

(** The rows of the call, in the order of the iteration. *)
Record call_rows (rows : list t) : Prop := {
  call_rows_real : rows ≡ₚ real_extend_rows shard;
  call_rows_length : length rows = 48%nat;
  call_rows_at j r : rows !! j = Some r -> call_row a (16 + j) r /\
    clk_high r ≐ (clk + 1) / 2 ^ 24 /\ clk_low r ≐ (clk + 1) mod 2 ^ 24 }.

Lemma call_rows_exist : exists rows, call_rows rows.
Proof.
  destruct extend_path as (rows & Hperm & Hpath). exists rows. destruct tables_sat as (_ & Hrows & _).
  pose proof Hcall as [Hc [Bclk Mclk] Eh El (l0 & l1 & l2 & B0 & B1 & B2 & Ea & E0 & E1 & E2)].
  assert (Ec : (clk + 1) / 2 ^ 24 = clk / 2 ^ 24 /\ (clk + 1) mod 2 ^ 24 = clk mod 2 ^ 24 + 1) by (clear - Bclk Mclk; lia_mod).
  apply path_states in Hpath as [Hst Hend]. pose proof order_large.
  assert (Hat : forall j r, rows !! j = Some r -> call_row a (16 + j) r /\
    clk_high r ≐ (clk + 1) / 2 ^ 24 /\ clk_low r ≐ (clk + 1) mod 2 ^ 24).
  { intros j r Hj. destruct (state_feq _ _ _ _ _ _ _ _ (Hst j r Hj)) as (F1 & F2 & F3 & F4 & F5 & F6).
    apply list_elem_of_lookup_2 in Hj. rewrite Hperm in Hj. apply list_elem_of_filter in Hj as [Hr Hin]. destruct Ec as [-> ->].
    split; [split; [done|auto| |now rewrite Nat2Z.inj_add]|split; [now rewrite F1|now rewrite F2, El]].
    exists l0, l1, l2. rewrite F3, F4, F5. tauto. }
  assert (Hlen : (length rows <= 48)%nat).
  { destruct (decide (length rows <= 48)%nat) as [|Hl]; [done|exfalso]. destruct (lookup_lt_is_Some_2 rows 48) as [r Hr]; [lia|].
    destruct (Hat _ _ Hr) as [[Hreal Hs _ Hi] _]. destruct (row_index r Hreal Hs) as (n & Bn & En).
    rewrite En in Hi. apply feq_small in Hi; lia. }
  split; [done| |exact Hat]. apply canonical_matches in Hend.
  destruct (state_feq _ _ _ _ _ _ _ _ Hend) as (_ & _ & _ & _ & _ & F). apply feq_small in F; lia.
Qed.
End Order.

(** ** The history of the memory *)
Lemma sorted_const {A} (f : A -> Z) c l : (forall x, x ∈ l -> f x = c) -> StronglySorted (fun x y => f x <= f y) l.
Proof.
  induction l as [|x l IH]; intros Hc; [constructor|]. constructor; [apply IH; intros y Hy; apply Hc; now right|].
  apply list.Forall_forall. intros y Hy. rewrite (Hc x (list_elem_of_here _ _)), (Hc y); [done|now right].
Qed.

(** Elements that come in blocks of equal times, the blocks in the order of time. *)
Lemma sorted_blocks {A B} (f : A -> list B) (time : B -> Z) (T : Z -> Z) rows : forall k,
  (forall x y, x <= y -> T x <= T y) ->
  (forall j r e, rows !! j = Some r -> e ∈ f r -> time e = T (k + Z.of_nat j)) ->
  StronglySorted (fun e e' => time e <= time e') (rows ≫= f).
Proof.
  induction rows as [|r rows IH]; intros k HT Ht; [constructor|]. rewrite bind_cons. apply StronglySorted_app. split_and!.
  - intros e e' He He'. apply list_elem_of_bind in He' as (r' & He' & Hr). apply list_elem_of_lookup_1 in Hr as [j Hj].
    rewrite (Ht 0%nat r e) by done. rewrite (Ht (S j) r' e') by done. apply HT. lia.
  - apply (sorted_const time (T (k + 0))). intros e He. now apply (Ht 0%nat r).
  - apply (IH (k + 1) HT). intros j r' e Hj He. rewrite (Ht (S j) r' e) by done. f_equal. lia.
Qed.

Section Memory.
Context `{AirBuilder} `{ShardPublicValues}.
Import ShaExtendChip.

Lemma clock_time_mono x y : x <= y -> clock_time x <= clock_time y.
Proof.
  intros Hxy. pose proof order_large. unfold clock_time. pose proof (Z.mod_pos_bound x (2 ^ 24)). pose proof (Z.mod_pos_bound y (2 ^ 24)).
  pose proof (Z.div_mod x (2 ^ 24)). pose proof (Z.div_mod y (2 ^ 24)). pose proof (Z.div_le_mono x y (2 ^ 24)).
  destruct (Z.eq_dec (x / 2 ^ 24) (y / 2 ^ 24)) as [E|]; [rewrite E in *; lia|nia].
Qed.

(** The active accesses of the table are those of its real rows. *)
Lemma active_rows (f : t -> AddrAddOperation.t * MemoryAccessCols.t * Word -> AirInteraction) rows :
  (forall r x, multiplicity (f r x) = is_real r) ->
  active (rows ≫= fun r => f r <$> extend_accesses r) =
  filter (fun r => is_real r ≐ 1) rows ≫= fun r => (fun x => tuple (f r x)) <$> extend_accesses r.
Proof.
  intros Hf. induction rows as [|r rows IH]; [done|]. rewrite bind_cons, active_app, IH, filter_cons, active_map.
  assert (E : forall l, filter (fun x => multiplicity (f r x) ≐ 1) l = if decide (is_real r ≐ 1) then l else []).
  { induction l as [|x l IHl]; [now case_decide|]. rewrite filter_cons, IHl, (Hf r x). now case_decide. }
  rewrite E. case_decide; [now rewrite bind_cons|done].
Qed.

Definition access_edge (r : t) (x : AddrAddOperation.t * MemoryAccessCols.t * Word) : list Z * list Z :=
  (tuple (access_sent r x), tuple (access_received r x)).
Definition access_edges (rows : list t) : list (list Z * list Z) := rows ≫= fun r => access_edge r <$> extend_accesses r.

Lemma access_edges_fst rows : (access_edges rows).*1 = rows ≫= fun r => (fun x => tuple (access_sent r x)) <$> extend_accesses r.
Proof. unfold access_edges. induction rows as [|r rows IH]; [done|]. rewrite !bind_cons, fmap_app, IH, <- list_fmap_compose. done. Qed.
Lemma access_edges_snd rows : (access_edges rows).*2 = rows ≫= fun r => (fun x => tuple (access_received r x)) <$> extend_accesses r.
Proof. unfold access_edges. induction rows as [|r rows IH]; [done|]. rewrite !bind_cons, fmap_app, IH, <- list_fmap_compose. done. Qed.
(** The value of a cell before and after an access. *)
Lemma access_edge_values r x : (cell_key (access_edge r x).1, drop 5 (access_edge r x).1, drop 5 (access_edge r x).2) = access_triple x.
Proof. destruct x as [[[[[v0 v1] v2]] access] new]. reflexivity. Qed.
Lemma access_edges_values rows :
  (fun e => (cell_key e.1, drop 5 e.1, drop 5 e.2)) <$> access_edges rows = rows ≫= fun r => access_triple <$> extend_accesses r.
Proof. unfold access_edges. induction rows as [|r rows IH]; [done|]. rewrite !bind_cons, fmap_app, IH. done. Qed.

Context (shard : ShaShard) (clk a : Z).
Hypothesis Hvalid : sha_valid shard.
Hypothesis Hcall : sha_call (control_row shard) clk a.
Context (rows : list t).
Hypothesis Hrows : call_rows shard clk a rows.

(** What the memory bus says of the accesses. *)
Lemma memory_permutation :
  ((fun l => tuple (local_initial l)) <$> sha_locals shard) ++ (access_edges rows).*2 ≡ₚ
  ((fun l => tuple (local_final l)) <$> sha_locals shard) ++ (access_edges rows).*1.
Proof.
  destruct (sha_interactions shard) as (_ & _ & Es & Er). destruct (tables_sat shard Hvalid) as (_ & Hsat & Hlocals).
  pose proof (bus_permutation _ _ _ _ Es Er (sha_valid_memory _ Hvalid)) as P.
  rewrite !active_app, !active_map, (active_rows access_sent), (active_rows access_received) in P by done.
  rewrite access_edges_fst, access_edges_snd, !(call_rows_real _ _ _ _ Hrows).
  etransitivity; [apply Permutation_app_comm|]. etransitivity; [|apply Permutation_app_comm]. symmetry.
  apply P; apply Forall_app; (split; [|apply forall_fmap_in; intros l Hl; now apply local_boolean, Hlocals]).
  all: apply list.Forall_forall; intros x Hx; apply list_elem_of_bind in Hx as (r & Hx & Hr); apply list_elem_of_fmap in Hx as (y & -> & _).
  all: now apply extend_boolean, Hsat.
Qed.

Lemma call_row_facts j r : rows !! j = Some r -> is_real r ≐ 1 /\ sat (eval r) /\ clk_high r ≐ (clk + 1) / 2 ^ 24 /\
  clk_low r ≐ (clk + 1) mod 2 ^ 24 /\ i r ≐ 16 + Z.of_nat j /\ 16 <= 16 + Z.of_nat j < 64.
Proof.
  intros Hj. destruct (call_rows_at _ _ _ _ Hrows j r Hj) as [[Hr Hs Hp Hi] [Hh Hl]]. apply lookup_lt_Some in Hj.
  rewrite (call_rows_length _ _ _ _ Hrows) in Hj. rewrite Nat2Z.inj_add in Hi. split_and!; try done; lia.
Qed.

(** The accesses, in the order of the rows, replay the values of the cells. *)
Lemma sha_history :
  replay_values (cell_values MemoryLocalChip.initial_value (sha_locals shard)) (rows ≫= fun r => access_triple <$> extend_accesses r) =
  Some (cell_values MemoryLocalChip.final_value (sha_locals shard)).
Proof.
  pose proof (sha_call_clk _ _ _ Hcall) as [Bclk _].
  destruct (history cell_key time_of (initial cell_key ((fun l => tuple (local_initial l)) <$> sha_locals shard)) (access_edges rows)
    ((fun l => tuple (local_final l)) <$> sha_locals shard)) as (m' & Hrep & Hk & Hc).
  - apply keyed_initial.
  - apply (sorted_blocks _ (fun e => time_of e.2) (fun z => clock_time (clk + 1 + z)) rows 0); [intros; apply clock_time_mono; lia|].
    intros j r e Hj He. apply list_elem_of_fmap in He as (x & -> & _). cbn [access_edge snd]. rewrite time_of_tuple.
    destruct (call_row_facts j r Hj) as (Hr & Hs & Hh & Hl & Hi & Bi).
    rewrite (row_received_time r (clk + 1) Hr Hs ltac:(lia) Hh Hl (16 + Z.of_nat j) Bi Hi x ltac:(lia)). f_equal. lia.
  - apply list.Forall_forall. intros e He. apply list_elem_of_bind in He as (r & He & Hr). apply list_elem_of_fmap in He as (x & -> & Hx).
    apply list_elem_of_lookup_1 in Hr as [j Hj]. destruct (call_row_facts j r Hj) as (Hr & Hs & Hh & Hl & Hi & Bi).
    split; [destruct x as [[[[[v0 v1] v2]] access] new]; reflexivity|]. cbn [access_edge fst snd]. rewrite !time_of_tuple.
    exact (row_accesses_forward r (clk + 1) Hr Hs ltac:(lia) Hh Hl (16 + Z.of_nat j) Bi Hi x ltac:(lia) Hx).
  - rewrite contents_initial by (rewrite <- list_fmap_compose; apply (sha_valid_locals _ Hvalid)). exact memory_permutation.
  - apply (keyed_contents cell_key) in Hc; [|done|rewrite <- list_fmap_compose; apply (sha_valid_locals _ Hvalid)].
    apply replay_project in Hrep. rewrite access_edges_values, Hc, !initial_project in Hrep. exact Hrep.
Qed.
End Memory.

(** ** The executor *)
Section Refines.
Context `{AirBuilder} `{ShardPublicValues}.

(** The double word of the executor's memory at an aligned address. *)
Definition memory_word (s : Executor.t) (a : Z) : Z := value_at s (inr (a / 8)).

Lemma array_words s a n : a mod 8 = 0 -> array_at a (words_at s a n) (memory_word s).
Proof.
  intros Ha k Hk. rewrite words_at_length in Hk. rewrite words_at_lookup by done. unfold memory_word. do 3 f_equal. lia_mod.
Qed.

(** The memory after the handler, word by word. *)
Lemma scheduled_word s s' a W x : a mod 8 = 0 -> x mod 8 = 0 -> length W = 64%nat ->
  changes (slice_map (a + 128) (drop 16 W)) s s' ->
  memory_word s' x = if (a + 128 <=? x) && (x <? a + 512) then Fips.word W (Z.to_nat ((x - a) / 8)) else memory_word s x.
Proof.
  intros Ha Hx Hl Hc. unfold memory_word, Fips.word. rewrite (changes_value _ _ _ Hc), slice_map_lookup.
  destruct (Z.leb_spec (a + 128) x); cbn [andb].
  - rewrite (proj2 (Z.leb_le _ _)) by (apply Z.div_le_mono; lia). rewrite lookup_drop.
    replace (16 + Z.to_nat (x / 8 - (a + 128) / 8))%nat with (Z.to_nat ((x - a) / 8)) by lia_mod.
    destruct (Z.ltb_spec x (a + 512)); [|now rewrite lookup_ge_None_2 by lia_mod].
    destruct (lookup_lt_is_Some_2 W (Z.to_nat ((x - a) / 8))) as [v ->]; [lia_mod|done].
  - rewrite (proj2 (Z.leb_gt _ _)); [done|lia_mod].
Qed.

Lemma prefix_u32 W l : (length W <= 48)%nat -> (forall j, (j < 48)%nat -> is_u32 (Fips.word (W ++ l) (16 - 16 + j))) -> Forall is_u32 W.
Proof.
  intros HW HU. apply Forall_lookup. intros k v Hk. pose proof (lookup_lt_Some _ _ _ Hk) as Bk.
  assert (Hu : is_u32 (Fips.word (W ++ l) k)) by (apply (HU k); lia). unfold Fips.word in Hu. now rewrite lookup_app_l, Hk in Hu by lia.
Qed.

Lemma sha_shape shard clk a : sha_valid shard -> sha_call (control_row shard) clk a ->
  syscall_range a 512 /\ length (real_extend_rows shard) = 48%nat.
Proof.
  intros Hvalid Hcall. split.
  - destruct Hcall as [Hr _ _ _ Hp]. apply (control_range (control_row shard)); try done. apply (tables_sat shard Hvalid).
  - destruct (call_rows_exist shard clk a Hvalid Hcall) as [rows Hrows]. rewrite <- (call_rows_real _ _ _ _ Hrows).
    apply (call_rows_length _ _ _ _ Hrows).
Qed.

Lemma sha_memory shard clk a s : sha_valid shard -> sha_call (control_row shard) clk a ->
  words_agree (cell_values MemoryLocalChip.initial_value (sha_locals shard)) (memory_word s) ->
  Forall is_u32 (words_at s a 16) /\
  forall s', changes (slice_map (a + 128) (drop 16 (Fips.schedule 48 (words_at s a 16)))) s s' ->
    words_agree (cell_values MemoryLocalChip.final_value (sha_locals shard)) (memory_word s').
Proof.
  intros Hvalid Hcall Hw.
  destruct (sha_shape shard clk a Hvalid Hcall) as [(Ha & La & Ua) _].
  destruct (call_rows_exist shard clk a Hvalid Hcall) as [rows Hrows]. pose proof (call_rows_length _ _ _ _ Hrows) as Hlen.
  pose proof (sha_history shard clk a Hvalid Hcall rows Hrows) as Hhist. set (W := words_at s a 16).
  assert (HWl : length W = 16%nat) by apply words_at_length.
  destruct (fun R L U A => rows_words a rows La Ua Ha W _ _ (memory_word s) R L U A Hw Hhist) as (w' & Hw' & HS & Hx & HU);
    [intros j r Hj; rewrite HWl; now apply (call_rows_at _ _ _ _ Hrows)|rewrite HWl; lia..|now apply array_words|].
  rewrite Hlen, HWl in *. destruct (schedule_app 48 W) as (l & El & Hl & _).
  set (S := Fips.schedule 48 W) in *. clearbody S.
  assert (HSl : length S = 64%nat) by (rewrite El, length_app, HWl, Hl; done). split.
  - apply (prefix_u32 W l); [lia|]. rewrite <- El. exact HU.
  - intros s' Hc x ws Bx Mx Hk. rewrite (scheduled_word s s' a S) by done.
    destruct (Hw' x ws Bx Mx Hk) as [Hv Ev].
    refine (eq_ind (w' x) (fun v => is_u64 v /\ ws = limbs_of v) (conj Hv Ev) _ _).
    destruct (Z.leb_spec (a + 128) x) as [Lx|Lx], (Z.ltb_spec x (a + 512)) as [Ux|Ux]; cbn [andb];
      try (apply Hx; intros k Bk; lia_mod).
    rewrite (array_word a _ w' _ HS) by (rewrite HSl; clear - Mx Ha Lx Ux; lia_mod). f_equal. clear - Mx Ha Lx Ux; lia_mod.
Qed.
Lemma message_u32 a s : Forall is_u32 (words_at s a 16) -> message a s = words_at s a 16.
Proof.
  intros Hf. unfold message. rewrite <- (list_fmap_id (words_at s a 16)) at 2. apply list_fmap_ext. intros k v Hk.
  apply wrap_small. exact (Forall_lookup_1 _ _ _ _ Hf Hk).
Qed.

(** The pages the controller has checked permit the accesses of the handler. *)
Lemma sha_permits shard clk a s : sha_valid shard -> sha_call (control_row shard) clk a ->
  (untrusted s = true -> is_untrusted_programs_enabled ≐ 1 /\ bus_prots (prot_at s) (ShaExtendControlChip.eval (control_row shard))) ->
  slice_permits s PROT_READ a 16 /\ slice_permits s (Z.lor PROT_READ PROT_WRITE) (a + 128) 48.
Proof.
  intros Hvalid Hcall Hp.
  assert (P : untrusted s = true -> (forall k, 0 <= k < 16 -> Z.land PROT_READ (prot_at s ((a + 8 * k) / PAGE_SIZE)) = PROT_READ) /\
    (forall k, 16 <= k < 64 -> Z.land (Z.lor PROT_READ PROT_WRITE) (prot_at s ((a + 8 * k) / PAGE_SIZE)) = Z.lor PROT_READ PROT_WRITE)).
  { intros Hu. destruct (Hp Hu) as [He Hb]. destruct Hcall as [Hr _ _ _ Hptr].
    apply (control_prots (control_row shard)); try done. apply (tables_sat shard Hvalid). }
  split; intros Hu k Hk; destruct (P Hu) as [P1 P2]; rewrite Z.land_comm.
  - replace (a + k * 8) with (a + 8 * k) by lia. rewrite P1 by lia. discriminate.
  - replace (a + 128 + k * 8) with (a + 8 * (16 + k)) by lia. rewrite P2 by lia. discriminate.
Qed.
End Refines.

Section Refinement.
Context `{AirBuilder} `{ShardPublicValues} `{CurveCrates, HashCrates}.

(** C3. The SHA_EXTEND tables prove the system call.  Let the constraints of
    the controller's row, of all the rows of [ShaExtendChip] and of the memory
    cells hold, let their two buses balance and no cell be opened twice, and
    let the controller have received a call with a clock in two parts and an
    address in 16-bit limbs.  Then the address is aligned, above the registers
    and below [2^48], the real rows are exactly the 48 iterations, and for
    every state of the executor whose memory holds the initial values of the
    cells and whose page permissions are those on the bus: the 16 message words
    are 32-bit words, and the executor's handler, in any mode, returns and
    leaves memory with the final values of the cells. *)
Theorem sha_extend_tables_sound shard clk w_ptr :
  sha_valid shard -> sha_call (control_row shard) clk w_ptr ->
  w_ptr mod 8 = 0 /\ 2 ^ 16 <= w_ptr /\ w_ptr + 512 < 2 ^ 48 /\ length (real_extend_rows shard) = 48%nat /\
  forall unconstrained E c s, w_ptr + 512 <= 2 ^ 40 ->
    words_agree (cell_values MemoryLocalChip.initial_value (sha_locals shard)) (memory_word s) ->
    (untrusted s = true -> is_untrusted_programs_enabled ≐ 1 /\
       bus_prots (prot_at s) (ShaExtendControlChip.eval (control_row shard))) ->
    Forall is_u32 (words_at s w_ptr 16) /\
    wp (get_syscall precompile unconstrained E SyscallCode.SHA_EXTEND c SyscallCode.SHA_EXTEND w_ptr 0) (fun r s' =>
      r.1 = None /\ words_agree (cell_values MemoryLocalChip.final_value (sha_locals shard)) (memory_word s')) s.
Proof.
  intros Hvalid Hcall. destruct (sha_shape shard clk w_ptr Hvalid Hcall) as [(Ha & La & Ua) Hlen]. do 4 (split; [done|]).
  intros unconstrained E c s Hlim Hw Hp. destruct (sha_memory shard clk w_ptr s Hvalid Hcall Hw) as [HW Hm]. split; [done|].
  destruct (sha_permits shard clk w_ptr s Hvalid Hcall Hp) as [Hr Hwr].
  apply (extend_run E SyscallCode.SHA_EXTEND w_ptr 0 w_ptr c
    (fun r s' => r = None /\ words_agree (cell_values MemoryLocalChip.final_value (sha_locals shard)) (memory_word s')));
    [split; lia|done..|].
  intros s' Hc. split; [done|]. apply Hm. rewrite message_u32 in Hc by done. exact Hc.
Qed.
End Refinement.

(** ** A call of the executor *)

(** The tables of a record with one SHA_EXTEND event, and of nothing else. *)
Definition sha_shard_of_record `{PrimeField} (record : ExecutionRecord.t) : option ShaShard :=
  let events := ExecutionRecord.events record in
  match omap (fun e => match e with precompile_events _ _ (PrecompileEvent.ShaExtend e) => Some e | _ => None end) events with
  | [event] =>
      '(control, _) ← ShaExtendControlChip.event_to_row
        (PublicValues.is_untrusted_programs_enabled (ExecutionRecord.public_values record)) event [];
      rows ← ShaExtendChip.generate_trace [event];
      locals ← generate_trace (fun e => Some (MemoryLocalChip.generate_row e, MemoryLocalChip.row_dependencies e))
        MemoryLocalChip.zero (get_local_mem_events events) None;
      Some (mkShaShard control rows locals)
  | _ => None
  end.

Section CheckSha.
Context `{PrimeField} `{ShardPublicValues}.

Definition sha_ok (shard : ShaShard) : bool :=
  let cs := sha_calls shard in
  forallb call_ok cs && bus_ok cs InteractionKind.ShaExtend && bus_ok cs InteractionKind.Memory &&
  bool_decide (NoDup (local_address <$> sha_locals shard)).
Lemma sha_ok_sound shard : sha_ok shard = true -> sha_valid shard.
Proof.
  unfold sha_ok. rewrite !andb_true_iff. intros [[[Hc Hs] Hm] Hn]. split; [exact (calls_ok_sound _ Hc)|exact (bus_ok_sound _ _ Hs)|
    exact (bus_ok_sound _ _ Hm)|exact (bool_decide_eq_true_1 _ Hn)].
Qed.

(** The cells hold the words of [w]. *)
Definition cells_hold (value : MemoryLocalChip.t -> Word) (locals : list MemoryLocalChip.t) (w : Z -> Z) : bool :=
  forallb (fun l => match local_address l with
    | [k0; k1; k2] => let v := w (k0 + 2 ^ 16 * k1 + 2 ^ 32 * k2) in
        fitsb 64 v && bool_decide (as_canonical <$> word_limbs (value l) = limbs_of v)
    | _ => false
    end) locals.
Lemma key_value a : a = a mod 2 ^ 16 + 2 ^ 16 * (a / 2 ^ 16 mod 2 ^ 16) + 2 ^ 32 * (a / 2 ^ 32).
Proof.
  pose proof (Z.div_mod a (2 ^ 16)). pose proof (Z.div_mod (a / 2 ^ 16) (2 ^ 16)). rewrite Z.div_div in * by lia.
  change (2 ^ 16 * 2 ^ 16) with (2 ^ 32) in *. lia.
Qed.
Lemma cells_hold_sound value locals w : cells_hold value locals w = true -> words_agree (cell_values value locals) w.
Proof.
  intros Hc a ws Ba Ha Hm. apply elem_of_list_to_map_2, list_elem_of_fmap in Hm as (l & El & Hl). apply pair_equal_spec in El as [Ek ->].
  unfold cells_hold in Hc. rewrite forallb_forall in Hc. apply list_elem_of_In, Hc in Hl. rewrite <- Ek in Hl. unfold memory_key in Hl.
  rewrite <- key_value in Hl.
  cbv zeta in Hl. apply andb_true_iff in Hl as [Hf Hb]. apply fitsb_spec in Hf. apply bool_decide_eq_true in Hb. auto.
Qed.
End CheckSha.

(** The message "abc" at address 0x10000; the clock of the call crosses a
    multiple of [2^24]. *)
Definition sha_state : Executor.t := store_words 0x2000 abc_block (sample 0 0).
Definition sha_context : SyscallContext.t := SyscallContext.set_clk 0x5fffff9 sample_syscall_context.
Definition sha_record : ExecutionRecord.t :=
  match get_syscall (precompile (H := sample_curve_crates) (H0 := sample_hash_crates)) (ret tt) Trace SyscallCode.SHA_EXTEND
          sha_context SyscallCode.SHA_EXTEND 0x10000 0 sha_state with
  | Ret _ s => Executor.record s
  | _ => ExecutionRecord.default
  end.
Notation sample_sha_shard := (sha_shard_of_record sha_record).
#[local] Instance sha_public_values : ShardPublicValues :=
  shard_public_values (ExecutionRecord.public_values sha_record) 0 0.

Lemma sample_sha_checks : match sample_sha_shard with
  | Some s => sha_ok s && cells_hold MemoryLocalChip.initial_value (sha_locals s) (memory_word sha_state) &&
      bool_decide ((ShaExtendControlChip.clk_high (control_row s), ShaExtendControlChip.clk_low (control_row s),
        SyscallAddrOperation.addr (ShaExtendControlChip.w_ptr (control_row s)), ShaExtendControlChip.is_real (control_row s)) =
        (5, 0xfffff9, (0, 1, 0), 1))
  | None => false
  end = true.
Proof. vm_compute. reflexivity. Qed.

Lemma sha_extend_tables_sound_witness : exists shard, sample_sha_shard = Some shard /\
  wp (get_syscall (precompile (H := sample_curve_crates) (H0 := sample_hash_crates)) (ret tt) Trace SyscallCode.SHA_EXTEND
        sha_context SyscallCode.SHA_EXTEND 0x10000 0)
    (fun r s' => r.1 = None /\ words_agree (cell_values MemoryLocalChip.final_value (sha_locals shard)) (memory_word s')) sha_state.
Proof.
  pose proof sample_sha_checks as Hok. destruct sample_sha_shard as [shard|]; [|discriminate Hok].
  apply andb_true_iff in Hok as [Hok Hrow]. apply andb_true_iff in Hok as [Hok Hcells]. apply bool_decide_eq_true in Hrow.
  exists shard. split; [reflexivity|].
  assert (Hcall : sha_call (control_row shard) 0x5fffff9 0x10000).
  { injection Hrow as Eh El Ep Er. split; rewrite ?Eh, ?El, ?Ep, ?Er; try reflexivity; [split; [lia|reflexivity]|].
    exists 0, 1, 0. unfold fits. split_and!; (reflexivity || lia). }
  destruct (sha_extend_tables_sound (H2 := sample_curve_crates) (H3 := sample_hash_crates) shard 0x5fffff9 0x10000
    (sha_ok_sound _ Hok) Hcall) as (_ & _ & _ & _ & Hwp).
  apply (Hwp (ret tt) Trace sha_context sha_state); [lia|exact (cells_hold_sound _ _ _ Hcells)|]. intros Hu. discriminate Hu.
Defined.
