(* ===== verification/Untrusted.v ===== *)
(** * Untrusted: rows that run the instructions in memory

    In a shard with untrusted programs a row may ask the fetch chip, not the
    program table, for its instruction ([adapter/register] of [core/machine]).
    This file states what an instruction chip announces on the fetch bus, shows
    it of every chip, and composes the row with the rows of [FetchChips] that
    receive its messages: the row takes the step of the machine on the word
    that the machine's memory holds at the program counter. *)
From Stdlib Require Import ZArith Lia Bool Permutation.
From stdpp Require Import base numbers option list gmap.
From S2P Require Import Prelude Isa PagedMemory SyscallCode State ExecMemory Interpreter Cost Syscalls Samples Rv64 Refinement Air KoalaBear ByteTable WordAir AddOps LtOps BitOps MulOps Bus MemAir Adapters Rows Chips ControlChips MemChips LoadChips StoreChips ShiftChips DivRemChip FetchChips SystemChips Shard Machine.
Import Opcode.
#[local] Obligation Tactic := idtac.

(** The message of a row on the fetch bus. *)
Definition fetch_message (r : Row) (consts : list Z) : AirInteraction :=
  mkInteraction (fetch_values (row_pc r) (row_instruction r) consts (row_high r, row_low r))
    (row_real r - row_trusted r) InteractionKind.InstructionFetch.

(** The constants are those of the opcode and the form of the row; the type of
    [REMUW] is missing ([alu/divrem/mod.rs]). *)
Definition announces `{PrimeField} `{InstructionFormats} (r : Row) (consts : list Z) : Prop :=
  exists op imm ty base f3 f7, op <> ECALL /\ word_consts op imm = Some (ty, base, f3, f7) /\
    InstructionCols.opcode (row_instruction r) ≐ Opcode.as_field op /\
    InstructionCols.imm_c (row_instruction r) ≐ from_bool imm /\
    Forall2 feq consts [if bool_decide (op = REMUW) then 0 else ty; base; f3; f7].

Class FetchingChip `{AirBuilder} `{ShardPublicValues} `{InstructionFormats} (cols : Type) `{!InstructionChip cols} := {
  chip_consts : cols -> list Z;
  chip_fetches c : sends InteractionKind.InstructionFetch (chip_eval c) = [fetch_message (chip_row c) (chip_consts c)];
  chip_announces c : sat (chip_eval c) -> row_real (chip_row c) ≐ 1 -> announces (chip_row c) (chip_consts c) }.

Section Announce.
Context `{AirBuilder} `{ShardPublicValues} `{InstructionFormats}.

Lemma announces_intro r consts op imm ty base f3 f7 : op <> ECALL -> word_consts op imm = Some (ty, base, f3, f7) ->
  InstructionCols.opcode (row_instruction r) ≐ Opcode.as_field op -> InstructionCols.imm_c (row_instruction r) ≐ from_bool imm ->
  Forall2 feq consts [if bool_decide (op = REMUW) then 0 else ty; base; f3; f7] -> announces r consts.
Proof. intros. exists op, imm, ty, base, f3, f7. auto. Qed.

(** Selectors of which one is set choose an opcode. *)
Lemma chosen flags ops : length flags = length ops -> (length flags < 64)%nat -> Forall (fun f => f ≐ 0 \/ f ≐ 1) flags ->
  foldr Z.add 0 flags ≐ 1 -> exists j, (j < length ops)%nat /\ (forall f, select flags f ops ≐ f (nth j ops ADD)) /\
    forall k, (k < length flags)%nat -> nth k flags 0 ≐ from_bool (Nat.eqb k j).
Proof.
  intros Hl Hn Hb Hs. destruct (one_hot flags Hb Hn Hs) as (j & Hj & Hf). exists j. split; [lia|]. split; [|exact Hf].
  intros f. now apply select_one_hot.
Qed.

(** The immediate flag of an arithmetic row. *)
Lemma alu_imm h l pc opcode consts new c real : real ≐ 1 -> sat (ALUTypeReader.eval_alu_reader h l pc opcode consts new c real) ->
  exists imm, ALUTypeReader.imm_c c ≐ from_bool imm.
Proof.
  intros Hr Hs. unfold ALUTypeReader.eval_alu_reader in Hs. rewrite sat_app, sat_cons, !sat_app in Hs.
  destruct Hs as (_ & _ & _ & _ & _ & _ & HC & _). unfold eval_register_access_read, eval_register_access_write in HC. rewrite sat_cons in HC.
  destruct HC as [HC _]. apply sat_assert, holds_assert_bool in HC. rewrite Hr in HC. destruct HC as [E|E].
  - exists true. symmetry. now apply feq_sub_zero.
  - exists false. transitivity (1 - (1 - ALUTypeReader.imm_c c)); [apply feq_exists; exists 0; lia|]. now rewrite E.
Qed.

Definition plain (imm : bool) (op : Opcode.t) : Prop := op <> ECALL /\ op <> REMUW /\
  word_consts op imm = Some (instr_type op, base op, unwrap_funct3 op, unwrap_funct7 op).
Lemma announces_selected r flags ops imm : length flags = length ops -> (length flags < 64)%nat ->
  Forall (fun f => f ≐ 0 \/ f ≐ 1) flags -> foldr Z.add 0 flags ≐ 1 -> Forall (plain imm) ops ->
  InstructionCols.opcode (row_instruction r) = select flags Opcode.as_field ops ->
  InstructionCols.imm_c (row_instruction r) ≐ from_bool imm ->
  announces r [select flags instr_type ops; select flags base ops; select flags unwrap_funct3 ops; select flags unwrap_funct7 ops].
Proof.
  intros Hl Hn Hb Hs Hp Eo Ei. destruct (chosen flags ops Hl Hn Hb Hs) as (j & Hj & Hf & _). rewrite List.Forall_forall in Hp.
  destruct (Hp _ (nth_In ops ADD Hj)) as (Hne & Hr & Hc). apply (announces_intro _ _ _ _ _ _ _ _ Hne Hc); [|exact Ei|].
  - rewrite Eo. apply Hf.
  - rewrite bool_decide_false by exact Hr. repeat apply Forall2_cons_2; try apply Forall2_nil_2; apply Hf.
Qed.

(** An arithmetic row, whose constants depend on its form as well. *)
Lemma announces_alu r flags ops x imm ty bs : length flags = length ops -> (length flags < 64)%nat ->
  Forall (fun f => f ≐ 0 \/ f ≐ 1) flags -> foldr Z.add 0 flags ≐ 1 -> x ≐ from_bool imm ->
  InstructionCols.opcode (row_instruction r) = select flags Opcode.as_field ops -> InstructionCols.imm_c (row_instruction r) = x ->
  (forall j, (j < length ops)%nat -> (forall f, select flags f ops ≐ f (nth j ops ADD)) ->
     (forall k, (k < length flags)%nat -> nth k flags 0 ≐ from_bool (Nat.eqb k j)) ->
     exists t b, nth j ops ADD <> ECALL /\ nth j ops ADD <> REMUW /\
       word_consts (nth j ops ADD) imm = Some (t, b, unwrap_funct3 (nth j ops ADD), unwrap_funct7 (nth j ops ADD)) /\ ty ≐ t /\ bs ≐ b) ->
  announces r [ty; bs; select flags unwrap_funct3 ops; select flags unwrap_funct7 ops].
Proof.
  intros Hl Hn Hb Hs Ex Eo Ei Hall. destruct (chosen flags ops Hl Hn Hb Hs) as (j & Hj & Hf & Hk).
  destruct (Hall j Hj Hf Hk) as (t & b & Hne & Hr & Hc & Et & Eb). apply (announces_intro _ _ _ _ _ _ _ _ Hne Hc).
  - rewrite Eo. apply Hf.
  - now rewrite Ei.
  - rewrite bool_decide_false by exact Hr. repeat apply Forall2_cons_2; try apply Forall2_nil_2; (assumption || apply Hf).
Qed.
End Announce.

(** The constants of one opcode and form. *)
Ltac same_value :=
  first [reflexivity | apply feq_exists; exists 0; cbn; first [lia|pose proof major_opcodes as Hmajor; injection Hmajor; intros; lia]].
Ltac same_consts := repeat apply Forall2_cons_2; try apply Forall2_nil_2; same_value.
Ltac open_row c :=
  destruct c; repeat match goal with p : (_ * _)%type |- _ => destruct p | o : LtOperationSigned.t |- _ => destruct o
    | o : LtOperationUnsigned.t |- _ => destruct o | h : half |- _ => destruct h end.
(** The one message on the fetch bus, by computation. *)
Ltac one_fetch :=
  let c := fresh "c" in intros c; first [reflexivity | open_row c; reflexivity].
Ltac announce op imm := apply (announces_intro _ _ op imm _ _ _ _ ltac:(discriminate) eq_refl); [|reflexivity|].
Ltac select_row c Hs Hr imm :=
  rewrite ?sat_app, ?sat_cons in Hs; decompose [and] Hs;
  eapply (announces_selected _ _ _ imm); [| | | | |first [reflexivity|open_row c; reflexivity]|];
    [reflexivity
    |cbn; lia
    |repeat apply List.Forall_cons; try apply List.Forall_nil; apply holds_assert_bool, sat_assert; assumption
    |rewrite <- Hr; apply feq_exists; exists 0; cbn; lia
    |repeat apply List.Forall_cons; try apply List.Forall_nil; (split; [discriminate|]); (split; [discriminate|]); reflexivity
    |first [reflexivity|open_row c; reflexivity]].
Ltac alu_row Hs Hr :=
  rewrite ?sat_app, ?sat_cons in Hs; decompose [and] Hs;
  match goal with A : sat (ALUTypeReader.eval_alu_reader _ _ _ _ _ _ _ _) |- _ =>
    let imm := fresh "imm" in let E := fresh "Eimm" in destruct (alu_imm _ _ _ _ _ _ _ _ Hr A) as (imm & E); eapply (announces_alu _ _ _ _ imm);
    [| | | |exact E|reflexivity|reflexivity|]
  end;
    [reflexivity
    |cbn; lia
    |repeat apply List.Forall_cons; try apply List.Forall_nil; apply holds_assert_bool, sat_assert; assumption
    |rewrite <- Hr; apply feq_exists; exists 0; cbn; lia
    |].
Ltac alu_consts Et Eb Eimm Ew :=
  do 2 eexists; (do 2 (split; [discriminate|])); (split; [reflexivity|]); split; rewrite ?Et, ?Eb, Eimm, ?Ew; same_value.

Section Instances.
Context `{AirBuilder} `{ShardPublicValues} `{InstructionFormats}.

#[global] Program Instance add_fetching : FetchingChip AddChip.t := { chip_consts _ := field_consts ADD }.
Next Obligation. one_fetch. Qed.
Next Obligation. intros c _ _. announce ADD false; [reflexivity|same_consts]. Qed.
#[global] Program Instance addi_fetching : FetchingChip AddiChip.t := { chip_consts _ := field_consts ADDI }.
Next Obligation. one_fetch. Qed.
Next Obligation. intros c _ _. announce ADDI true; [reflexivity|same_consts]. Qed.
#[global] Program Instance sub_fetching : FetchingChip SubChip.t := { chip_consts _ := field_consts SUB }.
Next Obligation. one_fetch. Qed.
Next Obligation. intros c _ _. announce SUB false; [reflexivity|same_consts]. Qed.
#[global] Program Instance subw_fetching : FetchingChip SubwChip.t := { chip_consts _ := field_consts SUBW }.
Next Obligation. one_fetch. Qed.
Next Obligation. intros c _ _. announce SUBW false; [reflexivity|same_consts]. Qed.
#[global] Program Instance jal_fetching : FetchingChip JalChip.t := { chip_consts _ := field_consts JAL }.
Next Obligation. one_fetch. Qed.
Next Obligation. intros c _ _. announce JAL true; [reflexivity|same_consts]. Qed.
#[global] Program Instance jalr_fetching : FetchingChip JalrChip.t := { chip_consts _ := field_consts JALR }.
Next Obligation. one_fetch. Qed.
Next Obligation. intros c _ _. announce JALR true; [reflexivity|same_consts]. Qed.
#[global] Program Instance load_double_fetching : FetchingChip LoadDoubleChip.t := { chip_consts _ := field_consts LD }.
Next Obligation. one_fetch. Qed.
Next Obligation. intros c _ _. open_row c. announce LD true; [reflexivity|same_consts]. Qed.
#[global] Program Instance store_byte_fetching : FetchingChip StoreByteChip.t := { chip_consts _ := field_consts SB }.
Next Obligation. one_fetch. Qed.
Next Obligation. intros c _ _. open_row c. announce SB true; [reflexivity|same_consts]. Qed.
#[global] Program Instance store_half_fetching : FetchingChip StoreHalfChip.t := { chip_consts _ := field_consts SH }.
Next Obligation. one_fetch. Qed.
Next Obligation. intros c _ _. open_row c. announce SH true; [reflexivity|same_consts]. Qed.
#[global] Program Instance store_word_fetching : FetchingChip StoreWordChip.t := { chip_consts _ := field_consts SW }.
Next Obligation. one_fetch. Qed.
Next Obligation. intros c _ _. open_row c. announce SW true; [reflexivity|same_consts]. Qed.
#[global] Program Instance store_double_fetching : FetchingChip StoreDoubleChip.t := { chip_consts _ := field_consts SD }.
Next Obligation. one_fetch. Qed.
Next Obligation. intros c _ _. open_row c. announce SD true; [reflexivity|same_consts]. Qed.

#[global] Program Instance mul_fetching : FetchingChip MulChip.t := { chip_consts := MulChip.consts }.
Next Obligation. one_fetch. Qed.
Next Obligation.
  intros c Hs Hr. change (sat (MulChip.eval c)) in Hs. unfold MulChip.eval in Hs.
  assert (Er : MulChip.is_real c = row_real (chip_row c)) by (clear; open_row c; reflexivity). rewrite <- Er in Hr. unfold MulChip.is_real in Hr.
  select_row c Hs Hr false.
Qed.
#[global] Program Instance branch_fetching : FetchingChip BranchChip.t := { chip_consts := BranchChip.consts }.
Next Obligation. one_fetch. Qed.
Next Obligation.
  intros c Hs Hr. change (sat (BranchChip.eval c)) in Hs. unfold BranchChip.eval in Hs.
  assert (Er : BranchChip.is_real c = row_real (chip_row c)) by (clear; open_row c; reflexivity). rewrite <- Er in Hr. unfold BranchChip.is_real in Hr.
  select_row c Hs Hr true.
Qed.
#[global] Program Instance load_byte_fetching : FetchingChip LoadByteChip.t := { chip_consts := LoadByteChip.consts }.
Next Obligation. one_fetch. Qed.
Next Obligation.
  intros c Hs Hr. change (sat (LoadByteChip.eval c)) in Hs. unfold LoadByteChip.eval in Hs.
  assert (Er : LoadByteChip.is_real c = row_real (chip_row c)) by (clear; open_row c; reflexivity). rewrite <- Er in Hr. unfold LoadByteChip.is_real in Hr.
  select_row c Hs Hr true.
Qed.
#[global] Program Instance load_half_fetching : FetchingChip LoadHalfChip.t := { chip_consts := LoadHalfChip.consts }.
Next Obligation. one_fetch. Qed.
Next Obligation.
  intros c Hs Hr. change (sat (LoadHalfChip.eval c)) in Hs. unfold LoadHalfChip.eval in Hs.
  assert (Er : LoadHalfChip.is_real c = row_real (chip_row c)) by (clear; open_row c; reflexivity). rewrite <- Er in Hr. unfold LoadHalfChip.is_real in Hr.
  select_row c Hs Hr true.
Qed.
#[global] Program Instance load_word_fetching : FetchingChip LoadWordChip.t := { chip_consts := LoadWordChip.consts }.
Next Obligation. one_fetch. Qed.
Next Obligation.
  intros c Hs Hr. change (sat (LoadWordChip.eval c)) in Hs. unfold LoadWordChip.eval in Hs.
  assert (Er : LoadWordChip.is_real c = row_real (chip_row c)) by (clear; open_row c; reflexivity). rewrite <- Er in Hr. unfold LoadWordChip.is_real in Hr.
  select_row c Hs Hr true.
Qed.
#[global] Program Instance load_x0_fetching : FetchingChip LoadX0Chip.t := { chip_consts := LoadX0Chip.consts }.
Next Obligation. one_fetch. Qed.
Next Obligation.
  intros c Hs Hr. change (sat (LoadX0Chip.eval c)) in Hs. unfold LoadX0Chip.eval in Hs.
  assert (Er : LoadX0Chip.is_real c = row_real (chip_row c)) by (clear; open_row c; reflexivity). rewrite <- Er in Hr. unfold LoadX0Chip.is_real in Hr.
  select_row c Hs Hr true.
Qed.
#[global] Program Instance utype_fetching : FetchingChip UTypeChip.t := {
  chip_consts c := [UTypeChip.either c instr_type; UTypeChip.either c base; UTypeChip.either c unwrap_funct3; UTypeChip.either c unwrap_funct7] }.
Next Obligation. one_fetch. Qed.
Next Obligation.
  intros c Hs Hr. change (sat (UTypeChip.eval c)) in Hs. unfold UTypeChip.eval in Hs. cbv zeta in Hs. rewrite sat_app, !sat_cons in Hs.
  destruct Hs as ((_ & Ha & _) & _). apply sat_assert, holds_assert_bool in Ha.
  destruct Ha as [E|E].
  - assert (Ei : forall f, UTypeChip.either c f ≐ f LUI) by (intros f; unfold UTypeChip.either; rewrite E; same_value).
    announce LUI true; [apply Ei|]. repeat apply Forall2_cons_2; try apply Forall2_nil_2; apply Ei.
  - assert (Ei : forall f, UTypeChip.either c f ≐ f AUIPC) by (intros f; unfold UTypeChip.either; rewrite E; same_value).
    announce AUIPC true; [apply Ei|]. repeat apply Forall2_cons_2; try apply Forall2_nil_2; apply Ei.
Qed.
#[global] Program Instance bitwise_fetching : FetchingChip BitwiseChip.t := { chip_consts := BitwiseChip.consts }.
Next Obligation. one_fetch. Qed.
Next Obligation.
  intros c Hs Hr. change (sat (BitwiseChip.eval c)) in Hs. change (BitwiseChip.is_real c ≐ 1) in Hr. unfold BitwiseChip.eval in Hs. unfold BitwiseChip.is_real in Hr.
  alu_row Hs Hr. intros j Hj Hf Hk. pose proof (Hf instr_type) as Et. pose proof (Hf base) as Eb.
  destruct j as [|[|[|j]]]; [..|cbn in Hj; lia]; destruct imm; alu_consts Et Eb Eimm Eimm.
Qed.
#[global] Program Instance lt_fetching : FetchingChip LtChip.t := { chip_consts := LtChip.consts }.
Next Obligation. one_fetch. Qed.
Next Obligation.
  intros c Hs Hr. change (sat (LtChip.eval c)) in Hs. change (LtChip.is_real c ≐ 1) in Hr. unfold LtChip.eval in Hs. unfold LtChip.is_real in Hr.
  alu_row Hs Hr. intros j Hj Hf Hk. pose proof (Hf instr_type) as Et. pose proof (Hf base) as Eb.
  destruct j as [|[|j]]; [..|cbn in Hj; lia]; destruct imm; alu_consts Et Eb Eimm Eimm.
Qed.
#[global] Program Instance addw_fetching : FetchingChip AddwChip.t := {
  chip_consts c := field_consts_imm ADDW (ALUTypeReader.imm_c (AddwChip.adapter c)) }.
Next Obligation. one_fetch. Qed.
Next Obligation.
  intros c Hs Hr. change (sat (AddwChip.eval c)) in Hs. change (AddwChip.is_real c ≐ 1) in Hr. unfold AddwChip.eval in Hs.
  rewrite !sat_app in Hs. decompose [and] Hs.
  match goal with A : sat (ALUTypeReader.eval_alu_reader _ _ _ _ _ _ _ _) |- _ => destruct (alu_imm _ _ _ _ _ _ _ _ Hr A) as (imm & Eimm) end.
  destruct imm; (eapply (announces_intro _ _ ADDW); [discriminate|reflexivity|reflexivity|exact Eimm|]);
    repeat apply Forall2_cons_2; try apply Forall2_nil_2; rewrite ?Eimm; same_value.
Qed.
#[global] Program Instance shift_left_fetching : FetchingChip ShiftLeft.t := { chip_consts := ShiftLeft.consts }.
Next Obligation. one_fetch. Qed.
Next Obligation.
  intros c Hs Hr. change (sat (ShiftLeft.eval c)) in Hs. change (ShiftLeft.is_real c ≐ 1) in Hr. unfold ShiftLeft.eval in Hs. unfold ShiftLeft.is_real in Hr.
  assert (Ew : ShiftLeft.is_sllw_imm c ≐ ShiftLeft.is_sllw c * ALUTypeReader.imm_c (ShiftLeft.adapter c)).
  { rewrite !sat_app in Hs. destruct Hs as (_ & Hop & _). unfold ShiftLeft.result_calls in Hop. rewrite !sat_app, !sat_cons in Hop.
    destruct Hop as (_ & _ & _ & _ & _ & _ & Hw & _). now apply sat_assert, holds_assert_eq in Hw. }
  alu_row Hs Hr. intros j Hj Hf Hk. pose proof (Hf instr_type) as Et. pose proof (Hf base) as Eb.
  destruct j as [|[|j]]; [..|cbn in Hj; lia]; pose proof (Hk 1%nat ltac:(cbn; lia)) as Ft; cbn in Ft; rewrite Ft in Ew; destruct imm; rewrite Eimm in Ew; alu_consts Et Eb Eimm Ew.
Qed.
#[global] Program Instance shift_right_fetching : FetchingChip ShiftRightChip.t := { chip_consts := ShiftRightChip.consts }.
Next Obligation. one_fetch. Qed.
Next Obligation.
  intros c Hs Hr. change (sat (ShiftRightChip.eval c)) in Hs. change (ShiftRightChip.is_real c ≐ 1) in Hr. unfold ShiftRightChip.eval in Hs. unfold ShiftRightChip.is_real in Hr.
  assert (Ew : ShiftRightChip.is_w_imm c ≐ ShiftRightChip.is_word c * ALUTypeReader.imm_c (ShiftRightChip.adapter c)).
  { rewrite !sat_app in Hs. destruct Hs as (_ & Hop & _). unfold ShiftRightChip.result_calls in Hop. rewrite !sat_cons in Hop.
    destruct Hop as (Hw & _). now apply sat_assert, holds_assert_eq in Hw. }
  alu_row Hs Hr. intros j Hj Hf Hk. pose proof (Hf instr_type) as Et. pose proof (Hf base) as Eb.
  destruct j as [|[|[|[|j]]]]; [..|cbn in Hj; lia]; use_flag Hk 2%nat; use_flag Hk 3%nat; unfold ShiftRightChip.is_word in Ew; rewrite F, F0 in Ew; destruct imm; rewrite Eimm in Ew; alu_consts Et Eb Eimm Ew.
Qed.

(** The instruction type has no term for [REMUW]. *)
Lemma div_rem_type c j : (forall k, (k < 8)%nat -> nth k (DivRem.flags c) 0 ≐ from_bool (Nat.eqb k j)) -> (j < 8)%nat ->
  select (take 7 (DivRem.flags c)) instr_type (take 7 DivRem.opcodes) ≐
    if bool_decide (nth j DivRem.opcodes ADD = REMUW) then 0 else InstructionType.as_u32 InstructionType.RType.
Proof.
  intros Hk Hj. use_flag Hk 0%nat. use_flag Hk 1%nat. use_flag Hk 2%nat. use_flag Hk 3%nat. use_flag Hk 4%nat. use_flag Hk 5%nat.
  use_flag Hk 6%nat. unfold select. cbn [DivRem.flags DivRem.opcodes take zip_with foldl]. rewrite F, F0, F1, F2, F3, F4, F5.
  destruct j as [|[|[|[|[|[|[|[|j]]]]]]]]; [..|lia]; reflexivity.
Qed.
Lemma div_rem_chosen c : sat (DivRem.eval c) -> exists j, (j < 8)%nat /\ (forall f, select (DivRem.flags c) f DivRem.opcodes ≐ f (nth j DivRem.opcodes ADD)) /\
  forall k, (k < 8)%nat -> nth k (DivRem.flags c) 0 ≐ from_bool (Nat.eqb k j).
Proof.
  intros Hs. unfold DivRem.eval in Hs. rewrite !sat_app in Hs. destruct Hs as (_ & Hfl & _).
  unfold DivRem.flag_calls in Hfl. rewrite sat_app, sat_cons in Hfl. destruct Hfl as (Hbool & Hone & _). apply sat_assert, holds_assert_eq in Hone.
  apply (chosen (DivRem.flags c) DivRem.opcodes); [reflexivity|cbn; lia| |].
  - rewrite List.Forall_forall. intros x Hx. apply holds_assert_bool, sat_assert. apply (sat_fmap _ _ x) in Hbool; [exact Hbool|].
    apply list_elem_of_In. cbn in Hx |- *. tauto.
  - rewrite Hone. apply feq_exists. exists 0. cbn. lia.
Qed.
#[global] Program Instance div_rem_fetching : FetchingChip DivRem.t := { chip_consts := DivRem.consts }.
Next Obligation. one_fetch. Qed.
Next Obligation.
  intros c Hs _. destruct (div_rem_chosen c Hs) as (j & Hj & Hf & Hk).
  assert (Hw : word_consts (nth j DivRem.opcodes ADD) false =
    Some (InstructionType.as_u32 InstructionType.RType, base (nth j DivRem.opcodes ADD), unwrap_funct3 (nth j DivRem.opcodes ADD),
      unwrap_funct7 (nth j DivRem.opcodes ADD)) /\ nth j DivRem.opcodes ADD <> ECALL).
  { destruct j as [|[|[|[|[|[|[|[|j]]]]]]]]; [..|lia]; (split; [reflexivity|discriminate]). }
  destruct Hw as [Hw Hne]. apply (announces_intro _ _ _ _ _ _ _ _ Hne Hw); [apply Hf|reflexivity|].
  repeat apply Forall2_cons_2; try apply Forall2_nil_2; try apply Hf. now apply div_rem_type.
Qed.
End Instances.

(** ** A row, its fetch and its decoding *)
#[global] Program Instance riscv_fetching `{AirBuilder} `{ShardPublicValues} `{InstructionFormats} : FetchingChip RiscvRow := {
  chip_consts r := match r with
    | Add c => chip_consts c | Addw c => chip_consts c | Addi c => chip_consts c | Sub c => chip_consts c
    | Subw c => chip_consts c | Bitwise c => chip_consts c | Mul c => chip_consts c | DivRem c => chip_consts c
    | Lt c => chip_consts c | ShiftLeft c => chip_consts c | ShiftRight c => chip_consts c
    | LoadByte c => chip_consts c | LoadHalf c => chip_consts c | LoadWord c => chip_consts c
    | LoadX0 c => chip_consts c | LoadDouble c => chip_consts c
    | StoreByte c => chip_consts c | StoreHalf c => chip_consts c | StoreWord c => chip_consts c | StoreDouble c => chip_consts c
    | UType c => chip_consts c | Branch c => chip_consts c | Jal c => chip_consts c | Jalr c => chip_consts c end }.
Next Obligation. intros ? ? ? ? [c|c|c|c|c|c|c|c|c|c|c|c|c|c|c|c|c|c|c|c|c|c|c|c]; exact (chip_fetches c). Qed.
Next Obligation. intros ? ? ? ? [c|c|c|c|c|c|c|c|c|c|c|c|c|c|c|c|c|c|c|c|c|c|c|c]; exact (chip_announces c). Qed.

Section Rows.
Context `{AirBuilder} `{ShardPublicValues} `{InstructionFormats}.

(** The access of a fetch row. *)
Definition fetch_access (f : InstructionFetchChip.t) : Access :=
  let ts := MemoryAccessCols.access_timestamp (InstructionFetchChip.memory_access f) in
  let value := MemoryAccessCols.prev_value (InstructionFetchChip.memory_access f) in
  mkAccess (MemoryAccessPosition.as_u64 MemoryAccessPosition.UntrustedInstruction) (InstructionFetchChip.aligned_addr f)
    (MemoryAccessTimestamp.prev_high ts, MemoryAccessTimestamp.prev_low ts) value value (InstructionFetchChip.is_real f).

(** The messages the fetch row receives and sends, and the one the decode row receives. *)
Definition fetch_received (f : InstructionFetchChip.t) : list Z :=
  fetch_values (InstructionFetchChip.pc f) (InstructionFetchChip.instruction f) (InstructionFetchChip.consts f)
    (InstructionFetchChip.clk_high f, InstructionFetchChip.clk_low f).
Definition decode_sent (f : InstructionFetchChip.t) : list Z :=
  decode_values (InstructionFetchChip.selected_word f) (InstructionFetchChip.instruction f) (InstructionFetchChip.consts f).
Definition decode_received (d : InstructionDecodeChip.t) : list Z :=
  decode_values (InstructionDecodeChip.encoded_instruction d) (InstructionDecodeChip.instruction d) (InstructionDecodeChip.consts d).

Lemma canonical_pc a : fits 48 a -> as_canonical <$> addr_limbs (pc_limbs a) = memory_key a.
Proof.
  intros Ha. destruct (pc_limbs_value a Ha) as (a0 & a1 & a2 & -> & B0 & B1 & B2 & Ev). pose proof order_large. unfold fits in *.
  unfold memory_key. cbn. unfold as_canonical. rewrite !Z.mod_small by lia. repeat f_equal; lia_mod.
Qed.

(** No row that is looked up has the type 0. *)
Lemma type_not_zero k : (k < 8)%nat -> InstructionType.as_u32 (nth k InstructionDecodeChip.types InstructionType.RType) ≭ 0.
Proof.
  intros Hk E. pose proof order_large. destruct k as [|[|[|[|[|[|[|[|k]]]]]]]]; [..|lia]; apply feq_small in E; cbn in *; lia.
Qed.
Lemma decode_type_zero d bs f3 f7 : sat (InstructionDecodeChip.eval d) -> InstructionDecodeChip.multiplicity d ≭ 0 ->
  ~ Forall2 feq (InstructionDecodeChip.consts d) [0; bs; f3; f7].
Proof.
  intros Hs Hm F. apply Forall2_cons_1 in F as [E _]. destruct (decode_format d Hs Hm) as (j & Hj & _ & Et). rewrite Et in E.
  exact (type_not_zero j Hj E).
Qed.
Lemma into_iter_imm_c a b : Forall2 feq (InstructionCols.into_iter a) (InstructionCols.into_iter b) ->
  InstructionCols.imm_c a ≐ InstructionCols.imm_c b.
Proof.
  intros F. unfold InstructionCols.into_iter in F. cbn [app] in F. apply Forall2_cons_1 in F as [_ F]. apply Forall2_cons_1 in F as [_ F].
  apply Forall2_app_inv in F as [_ F]; [|reflexivity]. apply Forall2_app_inv in F as [_ F]; [|reflexivity].
  do 2 apply Forall2_cons_1 in F as [_ F]. now apply Forall2_cons_1 in F as [? _].
Qed.

(** Columns that are equal to those of a decoded instruction. *)
Lemma runs_columns r cols i : Forall2 feq (InstructionCols.into_iter (row_instruction r)) (InstructionCols.into_iter cols) ->
  InstructionCols.opcode (row_instruction r) ≐ Opcode.as_field (Instruction.opcode i) -> columns cols i ->
  InstructionCols.op_a_0 cols ≐ from_bool (Instruction.op_a i =? 0) -> runs r i.
Proof.
  intros F Eo [Ea [_ Eb] [_ Ec] Eib Eic] Ez. unfold runs, InstructionCols.into_iter in *. cbn [app] in *.
  apply Forall2_cons_1 in F as [_ F]. apply Forall2_cons_2; [exact Eo|]. etransitivity; [exact F|].
  apply Forall2_cons_2; [exact Ea|]. apply Forall2_app; [exact Eb|]. apply Forall2_app; [exact Ec|].
  repeat apply Forall2_cons_2; try apply Forall2_nil_2; assumption.
Qed.

Context `{!InstructionChip cols} `{!FetchingChip cols}.

(** What the three rows say of the word [wd] the fetch row selected. *)
Lemma untrusted_runs (r : cols) f d wd : sat (chip_eval r) -> row_real (chip_row r) ≐ 1 ->
  sat (InstructionDecodeChip.eval d) -> InstructionDecodeChip.multiplicity d ≭ 0 ->
  Forall2 feq (values (fetch_message (chip_row r) (chip_consts r))) (fetch_received f) ->
  Forall2 feq (decode_sent f) (decode_received d) -> is_u32 wd ->
  (InstructionFetchChip.selected_word f).1 ≐ wd mod 2 ^ 16 -> (InstructionFetchChip.selected_word f).2 ≐ wd / 2 ^ 16 ->
  exists c, Manual.decode wd = Some c /\ well_formed (Transpiler.process c) = true /\ runs (chip_row r) (Transpiler.process c) /\
    Instruction.opcode (Transpiler.process c) <> REMUW.
Proof.
  intros Hs Hr Hd Hm Ff Fd Hw E1 E2. destruct (chip_announces r Hs Hr) as (op & imm & ty & bs & f3 & f7 & Hne & Hc & Eo & Ei & Fc).
  apply fetch_values_feq in Ff as (_ & Fi & Fk). specialize (Fk (Forall2_length _ _ _ Fc)).
  apply decode_values_feq in Fd as (W1 & W2 & Di & Dk).
  assert (Fi' : Forall2 feq (InstructionCols.into_iter (row_instruction (chip_row r))) (InstructionCols.into_iter (InstructionDecodeChip.instruction d)))
    by (etransitivity; [exact Fi|exact Di]).
  assert (Fk' : Forall2 feq (InstructionDecodeChip.consts d) [if bool_decide (op = REMUW) then 0 else ty; bs; f3; f7])
    by (symmetry; etransitivity; [symmetry; exact Fc|etransitivity; [exact Fk|exact Dk]]).
  rewrite E1 in W1. rewrite E2 in W2. symmetry in W1, W2.
  destruct (decide (op = REMUW)) as [->|Hop].
  { exfalso. exact (decode_type_zero d bs f3 f7 Hd Hm Fk'). }
  rewrite bool_decide_false in Fk' by exact Hop. 
  destruct (decode_row_sound d wd op imm ty bs f3 f7 Hd Hm Hc) as (c & Hdec & Hopc & Hcols); try assumption.
  - rewrite <- Ei. symmetry. exact (into_iter_imm_c _ _ Fi').
  - exists c. split; [exact Hdec|]. split; [|split; [|now rewrite Hopc]].
    + apply (decoded_operands wd); [exact Hdec|]. intros ->. cbn in Hopc. congruence.
    + apply (runs_columns _ _ _ Fi'); [now rewrite Hopc|exact Hcols|]. exact (decode_op_a_0 _ _ Hd Hm (col_a _ _ Hcols)).
Qed.
End Rows.

Section Step.
Context `{AirBuilder} `{ShardPublicValues} `{InstructionFormats}.

Lemma addr_limbs_feq pc pc' : Forall2 feq (addr_limbs pc) (addr_limbs pc') -> as_canonical <$> addr_limbs pc = as_canonical <$> addr_limbs pc'.
Proof. apply canonical_matches. Qed.

(** C4. An untrusted program runs the instructions in its memory.  Let a real
    row of an instruction chip ask for its instruction on the fetch bus, a real
    row of the fetch chip receive the message, and a row of the decode chip that
    counts receive the message of the fetch row, all satisfying their
    constraints.  When the fetch row and then the row find their values in
    registers and memory that agree with the machine, the program counter is
    a multiple of 4, the word in the machine's memory at the program counter
    decodes to an instruction, and the machine's step on it leads to a state that
    agrees with the registers, memory and next program counter the row
    leaves behind. *)
Theorem untrusted_row_step (r : RiscvRow) f d s m m'
  (Hr : sat (chip_eval r)) (Hreal : row_real (chip_row r) ≐ 1)
  (Hf : sat (InstructionFetchChip.eval f)) (Hfreal : InstructionFetchChip.is_real f ≐ 1)
  (Hd : sat (InstructionDecodeChip.eval d)) (Hm : InstructionDecodeChip.multiplicity d ≭ 0)
  (Hfetch : Forall2 feq (values (fetch_message (chip_row r) (chip_consts r))) (fetch_received f))
  (Hdecode : Forall2 feq (decode_sent f) (decode_received d))
  (Hp : fits 48 (Rv64.pc s)) (Hpc : Forall2 feq (addr_limbs (row_pc (chip_row r))) (addr_limbs (pc_limbs (Rv64.pc s))))
  (Hs : agrees m s) (Hacc : replay_values m (access_values <$> fetch_access f :: active_accesses (chip_row r)) = Some m') :
  Rv64.pc s mod 4 = 0 /\
  exists c s', Manual.decode (Rv64.load_bytes (Rv64.mem s) (Rv64.pc s) 4) = Some c /\
    Rv64.step (Transpiler.process c) s = Rv64.Next s' /\ agrees m' s' /\ pc_means (row_next_pc (chip_row r)) (Rv64.pc s').
Proof.
  pose proof Hfetch as Hpcs. apply fetch_values_feq in Hpcs as (Fp & _). assert (Fpc : Forall2 feq (addr_limbs (InstructionFetchChip.pc f)) (addr_limbs (pc_limbs (Rv64.pc s))))
    by (etransitivity; [symmetry; exact Fp|exact Hpc]).
  destruct (fetch_address f _ Hf Hfreal Hp Fpc) as (o & Do & Eo & Hal & Hlow & Fa). rewrite fmap_cons in Hacc.
  apply replay_read_inv in Hacc as [Hcell Hacc]. cbn [fetch_access address old_value] in Hcell.
  assert (Hb : fits 48 (Rv64.pc s - Rv64.pc s mod 8)) by (clear - Hp; unfold fits in *; lia_mod).
  rewrite (addr_limbs_feq _ _ Fa), (canonical_pc _ Hb) in Hcell.
  destruct (cell_found m s (Rv64.pc s - Rv64.pc s mod 8) _ (proj2 Hs) ltac:(clear - Hp Hlow; unfold fits in *; lia_mod) ltac:(clear; lia_mod) Hcell) as (v & Hv & Hx).
  destruct (fetch_word f _ v o Hf Do Eo Hal Hv) as (W1 & W2).
  assert (Hw : Rv64.load_bytes (Rv64.mem s) (Rv64.pc s) 4 = v / 2 ^ (8 * (Rv64.pc s mod 8)) mod 2 ^ 32).
  { rewrite (load_bytes_spec _ v 4); [reflexivity|unfold bit in Do; lia|]. intros a Ea. apply Hx. clear - Ea. lia_mod. }
  assert (Bw : is_u32 (v / 2 ^ (8 * (Rv64.pc s mod 8)) mod 2 ^ 32)) by (apply Z.mod_pos_bound; lia).
  destruct (untrusted_runs r f d _ Hr Hreal Hd Hm Hfetch Hdecode Bw W1 W2) as (c & Hdec & Hwf & Hruns & _).
  split; [clear - Do Hal; unfold bit in Do; lia_mod|]. exists c.
  destruct (lawful_step _ _ (chip_lawful r Hr) Hreal _ m m' s Hwf Hruns Hp Hpc Hs Hacc) as (s' & Hst & Ha & Hn). exists s'. rewrite Hw. auto.
Qed.

(** C37. The row of a [REMUW] cannot be proved in an untrusted program: the
    division chip announces the instruction type 0 for it, and no row of the
    decode chip that counts has this type, so no fetch row can pass the message
    on. *)
Theorem untrusted_remuw_unprovable (c : DivRem.t) f d
  (Hs : sat (DivRem.eval c)) (Hreal : DivRem.is_real c ≐ 1) (Hremuw : DivRem.is_remuw c ≐ 1)
  (Hd : sat (InstructionDecodeChip.eval d))
  (Hfetch : Forall2 feq (values (fetch_message (chip_row c) (chip_consts c))) (fetch_received f))
  (Hdecode : Forall2 feq (decode_sent f) (decode_received d)) :
  InstructionDecodeChip.multiplicity d ≐ 0.
Proof.
  destruct (decide (InstructionDecodeChip.multiplicity d ≐ 0)) as [E|Hm]; [exact E|]. exfalso.
  destruct (div_rem_chosen c Hs) as (j & Hj & _ & Hk). pose proof (Hk 7%nat ltac:(lia)) as E7. change (nth 7 (DivRem.flags c) 0) with (DivRem.is_remuw c) in E7.
  rewrite Hremuw in E7. assert (j = 7%nat) as ->.
  { destruct (Nat.eqb_spec 7 j) as [<-|]; [reflexivity|]. now apply one_not_zero in E7. }
  pose proof (div_rem_type c 7 Hk ltac:(lia)) as Et. rewrite bool_decide_true in Et by reflexivity.
  apply fetch_values_feq in Hfetch as (_ & _ & Fk). specialize (Fk eq_refl). apply decode_values_feq in Hdecode as (_ & _ & _ & Dk).
  apply Forall2_cons_1 in Fk as [Ef _]. apply Forall2_cons_1 in Dk as [Ed _]. destruct (decode_format d Hd Hm) as (k & Hk8 & _ & Ek).
  assert (E0 : InstructionType.as_u32 (nth k InstructionDecodeChip.types InstructionType.RType) ≐ 0).
  { rewrite <- Ek, <- Et. symmetry. etransitivity; [exact Ef|exact Ed]. }
  exact (type_not_zero k Hk8 E0).
Qed.
End Step.

(** ** Rows of the executor

    A program without instructions of its own, whose memory holds
    [addi x5, x0, 7] and [remuw x6, x5, x5] on an executable page, run in trace
    mode. *)
Definition untrusted_program : Program.t :=
  Program.mk [] 0x10004 0x10000 {[ 0x10000 := 0x00700293 * 2 ^ 32; 0x10008 := 0x0252f33b ]} {[ 16 := 7 ]} true.
Definition untrusted_context : Context.t :=
  Context.mk untrusted_program None 2 (Some (0, 0)) (fun _ => 1) [] [] 0 [] None false (fun _ => None) None None Manual.decode.
Definition untrusted_record : ExecutionRecord.t :=
  match execute no_precompile 4 Trace (Executor.with_context untrusted_context) with
  | Ret _ s => Executor.record s
  | _ => ExecutionRecord.default
  end.
#[local] Instance untrusted_public_values : ShardPublicValues :=
  shard_public_values (ExecutionRecord.public_values untrusted_record) 0 0.

Definition first_event {A} (select : Event -> option A) : option A := head (omap select (ExecutionRecord.events untrusted_record)).
Definition fetched (op : Opcode.t) : option InstructionFetchChip.t :=
  first_event (fun e => match e with
    | instruction_fetch_events e r => check! bool_decide (Instruction.opcode (InstructionFetchEvent.instruction e) = op);
        fst <$> InstructionFetchChip.generate_row (e, r)
    | _ => None end).
Definition decoded (op : Opcode.t) : option InstructionDecodeChip.t :=
  first_event (fun e => match e with
    | instruction_decode_events e => check! bool_decide (Instruction.opcode (InstructionDecodeEvent.instruction e) = op);
        fst <$> InstructionDecodeChip.generate_row e
    | _ => None end).
Definition addi_rows : option (RiscvRow * InstructionFetchChip.t * InstructionDecodeChip.t) :=
  r ← first_event (fun e => match e with addi_events e r => fst <$> AddiChip.generate_row (e, r) | _ => None end);
  f ← fetched ADDI; d ← decoded ADDI; Some (Addi r, f, d).

(** The machine and the bus at the start. *)
Definition untrusted_arch : Rv64.arch :=
  Rv64.mkArch 0x10004 (fun _ => 0) (fun x => byte_of (if x / 8 =? 0x2000 then 0x00700293 * 2 ^ 32 else 0) x) (fun _ => true) (fun _ => true).
Definition untrusted_values : values_map :=
  {[ register_key 0 := limbs_of 0; register_key 5 := limbs_of 0; memory_key 0x10000 := limbs_of (0x00700293 * 2 ^ 32) ]}.

Lemma untrusted_agrees : agrees untrusted_values untrusted_arch.
Proof.
  unfold untrusted_values. split.
  - intros r ws Br Hm. rewrite lookup_insert_Some in Hm. destruct Hm as [[_ <-]|[_ Hm]].
    { unfold Rv64.get. destruct (r =? 0); split; (reflexivity || (unfold fits; cbn; lia)). }
    rewrite lookup_insert_Some in Hm. destruct Hm as [[_ <-]|[_ Hm]].
    { unfold Rv64.get. destruct (r =? 0); split; (reflexivity || (unfold fits; cbn; lia)). }
    rewrite lookup_singleton_Some in Hm. destruct Hm as [Hm _]. symmetry in Hm. now apply register_not_memory in Hm.
  - intros a ws Ba Hal Hm. rewrite lookup_insert_Some in Hm. destruct Hm as [[Hm _]|[_ Hm]].
    { now apply register_not_memory in Hm. }
    rewrite lookup_insert_Some in Hm. destruct Hm as [[Hm _]|[_ Hm]]; [now apply register_not_memory in Hm|].
    rewrite lookup_singleton_Some in Hm. destruct Hm as [Hk <-]. exists (0x00700293 * 2 ^ 32). split; [unfold fits; lia|]. split; [reflexivity|].
    assert (a = 0x10000) as -> by (unfold memory_key in Hk; injection Hk as H0 H1 H2; clear - Ba H0 H1 H2; lia_mod).
    intros x Hx. split; [split; [unfold Rv64.mapped; lia_mod|auto]|]. cbn [Rv64.mem untrusted_arch].
    change (0x10000 / 8) with 0x2000 in Hx. now rewrite Hx.
Qed.

Lemma addi_checks : match addi_rows with
  | Some (r, f, d) =>
      forallb call_ok (chip_eval r) && bool_decide (row_real (chip_row r) ≐ 1) && forallb call_ok (InstructionFetchChip.eval f) &&
      bool_decide (InstructionFetchChip.is_real f ≐ 1) && forallb call_ok (InstructionDecodeChip.eval d) &&
      bool_decide (InstructionDecodeChip.multiplicity d ≭ 0) &&
      bool_decide (Forall2 feq (values (fetch_message (chip_row r) (chip_consts r))) (fetch_received f)) &&
      bool_decide (Forall2 feq (decode_sent f) (decode_received d)) &&
      bool_decide (Forall2 feq (addr_limbs (row_pc (chip_row r))) (addr_limbs (pc_limbs (Rv64.pc untrusted_arch)))) &&
      bool_decide (is_Some (replay_values untrusted_values (access_values <$> fetch_access f :: active_accesses (chip_row r))))
  | None => false end = true.
Proof. vm_compute. reflexivity. Qed.
Lemma untrusted_row_step_witness : exists m' c s', Manual.decode (Rv64.load_bytes (Rv64.mem untrusted_arch) 0x10004 4) = Some c /\
  Rv64.step (Transpiler.process c) untrusted_arch = Rv64.Next s' /\ agrees m' s'.
Proof.
  pose proof addi_checks as Hok. destruct addi_rows as [[[r f] d]|]; [|discriminate Hok].
  rewrite !andb_true_iff, !bool_decide_eq_true in Hok. destruct Hok as [[[[[[[[[Hr Hreal] Hf] Hfreal] Hd] Hm] Hfetch] Hdecode] Hpc] [m' Hacc]].
  destruct (untrusted_row_step r f d untrusted_arch untrusted_values m' (calls_ok_sound _ Hr) Hreal (calls_ok_sound _ Hf) Hfreal
    (calls_ok_sound _ Hd) Hm Hfetch Hdecode) as (_ & c & s' & Hc & Hs & Ha & _).
  - apply fitsb_spec. reflexivity.
  - exact Hpc.
  - exact untrusted_agrees.
  - exact Hacc.
  - exists m', c, s'. auto.
Defined.

(** The rows of the [REMUW], with the type the division chip announces. *)
Definition remuw_rows : option (DivRem.t * InstructionFetchChip.t * InstructionDecodeChip.t) :=
  r ← first_event (fun e => match e with divrem_events e r => fst <$> DivRem.generate_row (e, r) | _ => None end);
  f ← fetched REMUW; d ← decoded REMUW;
  Some (r,
    InstructionFetchChip.mk (InstructionFetchChip.clk_high f) (InstructionFetchChip.clk_low f) (InstructionFetchChip.pc f)
      (InstructionFetchChip.top_two_limb_inv f) (InstructionFetchChip.instruction f) 0 (InstructionFetchChip.base_opcode f)
      (InstructionFetchChip.funct3 f) (InstructionFetchChip.funct7 f) (InstructionFetchChip.memory_access f)
      (InstructionFetchChip.selected_word f) (InstructionFetchChip.offset f) (InstructionFetchChip.is_real f),
    InstructionDecodeChip.mk 0 (InstructionDecodeChip.instruction d) 0 (InstructionDecodeChip.funct3 d) (InstructionDecodeChip.funct7 d)
      0 0 0 0 0 0 0 0 (InstructionDecodeChip.is_a_0 d) (InstructionDecodeChip.encoded_instruction d)
      (InstructionDecodeChip.encoded_instruction_bits d)).
Lemma remuw_checks : match remuw_rows with
  | Some (r, f, d) =>
      forallb call_ok (DivRem.eval r) && bool_decide (DivRem.is_real r ≐ 1) && bool_decide (DivRem.is_remuw r ≐ 1) &&
      forallb call_ok (InstructionDecodeChip.eval d) &&
      bool_decide (Forall2 feq (values (fetch_message (chip_row r) (chip_consts r))) (fetch_received f)) &&
      bool_decide (Forall2 feq (decode_sent f) (decode_received d))
  | None => false end = true.
Proof. vm_compute. reflexivity. Qed.
Lemma untrusted_remuw_unprovable_witness : exists r f d, remuw_rows = Some (r, f, d) /\ InstructionDecodeChip.multiplicity d ≐ 0.
Proof.
  pose proof remuw_checks as Hok. destruct remuw_rows as [[[r f] d]|]; [|discriminate Hok].
  rewrite !andb_true_iff, !bool_decide_eq_true in Hok. destruct Hok as [[[[[Hr Hreal] Hremuw] Hd] Hfetch] Hdecode].
  exists r, f, d. split; [reflexivity|].
  exact (untrusted_remuw_unprovable r f d (calls_ok_sound _ Hr) Hreal Hremuw (calls_ok_sound _ Hd) Hfetch Hdecode).
Defined.
