(* ===== verification/ZeroRegister.v ===== *)
(** * ZeroRegister: instructions that write to register zero

    The executor gives an instruction with destination [x0] the result 0 and
    goes on.  Here is what the chips do with its row: the operand readers of
    [adapter/register] ask the result to be 0, and the generator of [utype]
    leaves the row of such an instruction empty. *)
From Stdlib Require Import ZArith Lia Bool Permutation.
From stdpp Require Import base numbers option list gmap.
From S2P Require Import Prelude Isa State Interpreter Syscalls Samples Rv64 Refinement Air KoalaBear ByteTable WordAir AddOps LtOps BitOps MulOps Bus MemAir Adapters Rows Chips ControlChips SystemChips Shard Machine.
Import Opcode.

Section ZeroRegister.
Context `{AirBuilder} `{ShardPublicValues} `{InstructionFormats}.

(** C38. An [ADD] to register zero has a row only when the sum is 0: the result
    columns of a real row of the addition chip hold the wrapping sum, and the
    reader forces them to 0 when the destination is [x0], although the machine
    discards the result. *)
Theorem add_to_x0_needs_zero_sum c vb vc (Hs : sat (AddChip.eval c)) (Hr : AddChip.is_real c ≐ 1)
  (Hzero : RTypeReader.op_a_0 (AddChip.adapter c) ≐ 1)
  (Hb : RTypeReader.b (AddChip.adapter c) ∼ vb) (Hc : RTypeReader.c (AddChip.adapter c) ∼ vc) :
  u64 (vb + vc) = 0.
Proof.
  unfold AddChip.eval in Hs. rewrite !sat_app in Hs. destruct Hs as (_ & Hop & _ & Hrd).
  unfold RTypeReader.eval in Hrd. rewrite !sat_app in Hrd. destruct Hrd as (_ & _ & Hz & _).
  pose proof (add_sound _ _ _ _ _ _ Hb Hc Hr Hop) as Hv.
  pose proof (zero_register_sound _ (u64 (vb + vc)) 0 _ Hzero Hz (fun Hne => match Hne eq_refl with end)) as H0'.
  exact (represents_inj _ _ _ Hv H0').
Qed.

(** C39. The row that is generated for an [AUIPC] to register zero violates the
    constraints of its own chip: the generator leaves the addend 0, and the
    chip asks it to be the program counter whenever the opcode is [AUIPC]. *)
Theorem auipc_to_x0_row_violates event record row blu
  (Hgen : UTypeChip.generate_row (event, record) = Some (row, blu))
  (Hop : UTypeEvent.opcode event = AUIPC) (Hzero : JTypeRecord.op_a record = 0)
  (Hpc : 0 < UTypeEvent.pc event < 2 ^ 48) :
  ~ sat (UTypeChip.eval row).
Proof.
  unfold UTypeChip.generate_row in Hgen. cbn [fst snd] in Hgen. rewrite Hop, Hzero in Hgen. rewrite bool_decide_true in Hgen by reflexivity.
  cbn [negb Z.eqb] in Hgen.
  unfold CPUState.populate in Hgen. set (st := CPUState.mk _ _ _ (pc_limbs (UTypeEvent.pc event))) in Hgen.
  destruct (JTypeReader.populate _ record) as [ad blu'] in Hgen. injection Hgen as <- _. intros Hs.
  destruct (pc_limbs_value (UTypeEvent.pc event)) as (p0 & p1 & p2 & Ep & B0 & B1 & B2 & Ev); [unfold fits; lia|].
  unfold UTypeChip.eval in Hs. cbv zeta in Hs. cbn [UTypeChip.state UTypeChip.addend UTypeChip.is_auipc] in Hs.
  subst st. cbn [CPUState.pc] in Hs. rewrite Ep in Hs. rewrite !sat_app in Hs. destruct Hs as (_ & _ & (Ha & _) & _).
  unfold assert_word_eq in Ha. cbn in Ha. rewrite !sat_cons in Ha. destruct Ha as (H0' & H1' & H2' & _).
  apply sat_assert, holds_assert_eq in H0', H1', H2'. cbn in H0', H1', H2'. pose proof order_large. unfold fits in *.
  unfold if_else in H0', H1', H2'. rewrite Z.mul_1_l, Z.sub_diag, Z.mul_0_l, Z.add_0_r in H0', H1', H2'.
  apply feq_small in H0', H1', H2'; lia.
Qed.
End ZeroRegister.

#[local] Existing Instance sample_public_values.

(** [add x0, x5, x6] with operands whose sum wraps to 0, at the first cycle. *)
Definition zero_sum : option AddChip.t :=
  let read t v := MemoryRecordEnum.Read (MemoryReadRecord.mk v t 0 None) in
  fst <$> AddChip.generate_row (AluEvent.mk 1 0x10000 ADD 0 (2 ^ 64 - 5) 5 true,
    RTypeRecord.mk 0 (MemoryRecordEnum.Write (MemoryWriteRecord.mk 0 5 0 0 None)) 5 (read 4 (2 ^ 64 - 5)) 6 (read 3 5) false).
Lemma add_to_x0_checks : match zero_sum with
  | Some c => forallb call_ok (AddChip.eval c) && bool_decide (AddChip.is_real c ≐ 1) && bool_decide (RTypeReader.op_a_0 (AddChip.adapter c) ≐ 1) &&
      bool_decide (Forall2 feq (word_limbs (RTypeReader.b (AddChip.adapter c))) (limbs_of (2 ^ 64 - 5))) &&
      bool_decide (Forall2 feq (word_limbs (RTypeReader.c (AddChip.adapter c))) (limbs_of 5))
  | None => false end = true.
Proof. vm_compute. reflexivity. Qed.
Lemma add_to_x0_needs_zero_sum_witness : is_Some zero_sum /\ u64 ((2 ^ 64 - 5) + 5) = 0.
Proof.
  pose proof add_to_x0_checks as Hok. destruct zero_sum as [c|]; [|discriminate Hok]. split; [eauto|].
  rewrite !andb_true_iff, !bool_decide_eq_true in Hok. destruct Hok as [[[[Hs Hr] Hz] Hb] Hc].
  apply (add_to_x0_needs_zero_sum c _ _ (calls_ok_sound _ Hs) Hr Hz).
  - apply limbs_repr; [apply fitsb_spec; reflexivity|exact Hb].
  - apply limbs_repr; [apply fitsb_spec; reflexivity|exact Hc].
Defined.

(** [auipc x0, 1] at the first cycle. *)
Definition auipc_event : UTypeEvent.t * JTypeRecord.t :=
  (UTypeEvent.mk 1 0x10000 AUIPC 0 0x1000 0x1000 true,
   JTypeRecord.mk 0 (MemoryRecordEnum.Write (MemoryWriteRecord.mk 0 5 0 0 None)) 0x1000 0x1000 false).
Lemma auipc_to_x0_row_violates_witness : exists row blu, UTypeChip.generate_row auipc_event = Some (row, blu) /\ ~ sat (UTypeChip.eval row).
Proof.
  destruct (UTypeChip.generate_row auipc_event) as [[row blu]|] eqn:E; [|vm_compute in E; discriminate E].
  exists row, blu. split; [reflexivity|]. apply (auipc_to_x0_row_violates _ _ row blu E); [reflexivity|reflexivity|cbn; lia].
Defined.
